(* ===== verification/_CoqProject ===== *)
-Q . S2P
Prelude.v
JsValue.v
JsMap.v
EventPolicy.v
FairQueue.v
FairQueueFacts.v
FairQueueDrain.v
FairQueueSpec.v
InboxRepository.v
InboxFacts.v
DurableInbox.v
InboxPersist.v
InboxClaims.v
RealtimeOutbox.v
InboxInstance.v
Controller.v
ControllerSpec.v
ControllerClaims.v
InboxWorker.v
InboxWorkerSpec.v
RateLimit.v
ExtensionRateLimit.v
AuthRateLimit.v
PushDeduper.v
AuthLease.v
DeviceAuth.v
LoginTokens.v
MessageQueue.v
MessageQueueService.v
ReplayPage.v
LifecycleTime.v
LifecyclePolicy.v
LifecycleComponent.v
LifecycleEligibility.v
LifecycleEligibilitySpec.v
LifecycleJobs.v
LifecycleJobsSpec.v
Quota.v
SessionAdmission.v
QuotaSpec.v
RealtimeOutboxSpec.v
OutboxConsumer.v
AttentionInbox.v
AttentionStore.v
AttentionSpec.v
AttentionService.v
AttentionList.v
StrictJson.v
StrictJsonSpec.v
JsonRoundTrip.v
FeedCursor.v
FeedDelivery.v
FeedDeliverySpec.v
DeliveryContract.v
TaskPlan.v
TaskPlanSpec.v
PlanService.v
PlanServiceSpec.v
StepWakeup.v
StepWakeupSpec.v
StepExecution.v
PlanControl.v
StepExecutionSpec.v
ContentStream.v
ContentStreamSpec.v
ContentStreamOrder.v
GitCodec.v
GitMerge.v
GitMergeSpec.v
GitFieldMerge.v
EmailChallenge.v
EmailChallengeSpec.v
MemoryJobs.v
MemoryJobsSpec.v
MemoryJobsLimits.v
ProviderBudget.v
ReviewPolicy.v
ReviewPolicySpec.v
TeamRun.v
TeamRunSpec.v
