(* ===== verification/Prelude.v ===== *)
(** * Verification of pocketctl

    pocketctl connects coding agents on a developer's machine with clients on
    the web.  A daemon beside the agents sends a numbered stream of events to
    the relay, a TypeScript service (src/relay); the relay acknowledges what it
    has stored, turns stored events into session history and serves clients
    (src/web), extensions and teams.  A memory service (src/memory) consumes the
    relay's feeds.  This development models the relay's own logic and parts of
    its neighbours, the job queue, budgets, review policies, strict JSON reader
    and Git merge planner of the memory service and the stream assembler of the
    web client, and proves what makes them correct.

    ** The parts and how they interact

    Daemon event -> [Controller.accept] -> [FairQueue] -> [Controller.resume]
    with [InboxRepository.persistBatch] -> acknowledgement; and independently
    [InboxWorker] -> [InboxRepository.claimBatch] -> materialisation ->
    [complete], [reschedule] or [deadLetter], the deliveries of an event going
    through the outbox ([RealtimeOutbox], [OutboxConsumer]) to the connected
    clients.  Creating and resuming sessions is limited by quotas ([Quota],
    [SessionAdmission]).  Clients read history pages
    ([ReplayPage]), queue messages ([MessageQueue]) and see approvals: events
    are projected ([AttentionInbox]) into items ([AttentionStore]) that a user
    lists ([AttentionList]) and answers ([AttentionService]).  Extensions read
    the journal through a feed with signed cursors ([FeedCursor],
    [FeedDelivery]).  Teams plan their tasks as graphs of steps ([TaskPlan],
    [PlanService]); changes signal a queue ([StepWakeup]) whose workers advance
    the plan ([StepExecution]) under its controls ([PlanControl]); or they let a
    coordinating agent call others by itself ([TeamRun]).  Old sessions
    are archived and purged by leased jobs ([LifecycleJobs]) once an inspection
    of all connected sessions ([LifecycleEligibility]) allows it.  The memory
    service runs its work as fenced jobs ([MemoryJobs]), calls models within
    budgets ([ProviderBudget]), shares memories under review policies
    ([ReviewPolicy]) and merges edits made in Git with its own ([GitMerge]).  The
    web client joins streamed output ([ContentStream]).
    Admission is limited and authenticated by the small stores of the list.

    ** Files, and the source each follows (below src/relay/src)

    - Prelude, JsValue, JsMap: exceptions, lists, integers; JavaScript values
      with the conversions the code applies to them; insertion-ordered maps.
    - EventPolicy: ingress/types.ts, ingress/event-policy.ts.
    - FairQueue (model), FairQueueFacts, FairQueueDrain, FairQueueSpec (proofs):
      ingress/fair-queue.ts.  [Queue] has the fields of the class; [enqueue],
      [takeBatch], [commitBatch], [requeueFront] are its methods.
    - InboxRepository (model), InboxFacts, InboxPersist, InboxClaims (proofs):
      ingress/inbox-repository.ts on the tables of schema/durable-ingress.ts.
      Statements run in a small monad over the tables in which any statement
      may fail, COMMIT with or without effect; a transaction is atomic.
    - DurableInbox: the class of what the controller relies on in an inbox;
      InboxInstance shows that the repository is an instance.  Its [Store] keeps,
      beside the tables, which receipts were removed and what daemons reported;
      [store_step] interleaves workers, the outbox, abandonment by lifecycle
      jobs, requeued dead letters, registrations, retention and deletions.
    - Controller (model), ControllerSpec, ControllerClaims (proofs):
      ingress/controller.ts.  [drain] is split at its await into [drain_head]
      and [resume]; [sys_step] interleaves accepts, timers, answers and stop.
    - InboxWorker (model), InboxWorkerSpec (proofs): inbox-worker.ts.
    - MessageQueue: session-message-queue/state.ts; MessageQueueService:
      session-message-queue/service.ts with any number of relay processes.
    - ReplayPage: replay-page.ts and the two page builders of db.ts.
    - LifecycleTime, LifecyclePolicy: session-lifecycle/time.ts, types.ts and
      policy.ts.  LifecycleComponent (model and proofs), LifecycleEligibility
      (model), LifecycleEligibilitySpec: session-lifecycle/eligibility.ts, the search for connected
      sessions and the whole inspection; [PgText] is the class of what it relies
      on in the database's time texts.  LifecycleJobs, LifecycleJobsSpec:
      session-lifecycle/repository.ts and the journal trigger of its schema.ts.
    - Quota, SessionAdmission (models), QuotaSpec: quota.ts,
      session-message-admissions.ts, and of db.ts their tables and what renames
      sessions, merges hosts and deletes sessions, hosts and accounts.  Each
      operation holds the account's lock, so it is one step; [quota_step]
      interleaves them with whatever daemons report of their sessions.
    - RealtimeOutbox (model), RealtimeOutboxSpec: materialization/realtime-
      outbox.ts, inbox-retention.ts and the deletions of db.ts.  An open
      transaction of a consumer is a value, [ActiveRun]; [outbox_step]
      interleaves any number of them.
      OutboxConsumer: the timer, subscription, start and stop of the consumer.
    - AttentionInbox: attention-inbox/action-mapper.ts and projector.ts.
      AttentionStore (model), AttentionSpec (refinement): repository.ts of that
      directory; AttentionService: service.ts, with interleaved and crashing
      submissions; AttentionList: its list query and cursors.
    - StrictJson (model), StrictJsonSpec, JsonRoundTrip (proofs):
      src/memory/src/git-sync/strict-json.ts and the JSON.parse it is compared
      with.
    - FeedCursor: extensions/cursor.ts.  FeedDelivery (model), FeedDeliverySpec:
      the journal, projector, repository, routes and retention of extensions/,
      and installation-repository.ts, installation-routes.ts, purge-routes.ts and
      provider-installation-routes.ts there; [feed_step] interleaves providers
      with owners who configure, replay and revoke their installations.
    - DeliveryContract, TaskPlan (models), TaskPlanSpec: team/delivery-
      contract.ts, team/plan-contract.ts.  PlanService (model),
      PlanServiceSpec: team/plan-service.ts on the tables of
      team/plan-schema.ts.
    - StepWakeup (model), StepWakeupSpec: team/step-wakeup-repository.ts,
      team/step-worker.ts and the signal of plan-schema.ts; [processClaim] is
      split into its fence at the start and at the end, anything may happen
      between.  StepExecution, PlanControl (models), StepExecutionSpec:
      team/step-scheduler.ts, plan-inputs.ts, budget-service.ts, the step part of
      delivery-service.ts, plan-execution-service.ts.  The tables of one task,
      [TaskExec], change in transactions under the task's lock; [exec_step]
      interleaves them with any change of calls, files and drafts.
    - TeamRun (model), TeamRunSpec: team/run-repository.ts, run-decision.ts,
      run-worker.ts, run-service.ts, agent-offers.ts and what dispatch-
      repository.ts, external-stop.ts, session-service.ts and account-lifecycle.ts
      do to runs and their calls.  A pass of the worker is a program of
      repository calls, [Prog]; [sys_step] interleaves passes with everybody.
    - GitCodec, GitMerge (models), GitMergeSpec, GitFieldMerge:
      paths.ts, codec.ts and merge.ts of src/memory/src/git-sync, and
      src/memory/src/inbox/canonical-json.ts.
    - MemoryJobs (model), MemoryJobsSpec, MemoryJobsLimits: types.ts and
      repository.ts of src/memory/src/jobs and the upserts of the projections
      that schedule a job again; [run_ops] interleaves the calls of any workers.
      ProviderBudget: model/provider-budget.ts of
      that service, each guarded call split at the provider's.  ReviewPolicy
      (model), ReviewPolicySpec: governance/review-policy.ts and
      governance/authority.ts.
    - ContentStream (model), ContentStreamSpec, ContentStreamOrder:
      src/web/src/utils/contentStream.ts.
    - EmailChallenge (model), EmailChallengeSpec: config/verification.ts and the
      challenge functions of db.ts, and email-user.ts, where logging in creates
      accounts; AuthRateLimit: auth-rate-limit.ts with its counters of db.ts.
    - RateLimit: rate-limit.ts; ExtensionRateLimit: extensions/rate-limit.ts;
      PushDeduper: push-deduper.ts; AuthLease: ingress/auth-lease.ts;
      DeviceAuth: config/auth-sessions.ts; LoginTokens: config/qr-sessions.ts
      and config/ws-tickets.ts.

    ** What the theorems show

    - End to end: an acknowledged event has a durable receipt, unless retention
      removed it by its rules or it went with its session or account, or the
      daemon itself reported it as acknowledged; an accepted event is queued, in
      flight or in one of those cases; the controller never stalls and is silent
      after its stop deadline (ControllerClaims, proved against [DurableInbox]).
    - Inbox: acknowledgements are contiguous and maximal, a persisted batch is
      durable and idempotent, a failure changes nothing or is found by a retry;
      claims are exclusive, go to stream heads only, and a lost claim can never
      settle a row; settled rows are final; the tables stay well formed.
    - Queue: counters agree with contents and every limit holds; batches are
      fair, ordered, bounded and make progress; commit and requeue are exact.
    - Worker: a processed row ends as its outcome says, no claim is left over,
      and only fixed error categories are stored.
    - Message queue: a message is sent at most once between two resumes under
      every interleaving, crash and lost commit; the stored queue keeps its
      invariant; the paged drain ends ([drain_ends]).  It folds the whole
      history in order as long as identifiers sort as texts the way they do as
      numbers ([drain_whole_history]); [history_out_of_order] shows what happens
      otherwise.
    - History: a page is the shortest complete prefix of what is left, in both
      directions, and nothing is lost or repeated between pages.
    - Lifecycle: the search finds exactly the connected sessions and ends; no
      action is predicted unless every one of them is owned, unprotected and
      without counted activity in the retention period, and idle with nothing
      pending unless all are stale; what the action then abandons is counted.
      Timestamps round-trip to the microsecond.  The journal of attempts is
      exact, and a lease that was taken over is powerless.
    - Quotas: the slots an account takes stay within its limit under every
      interleaving; left aside are exactly the sessions that came into use
      without a slot, as by a daemon's report or a rename
      ([renamed_counts_twice]).  A reservation leaves the budget only by a
      settlement with its whole binding and evidence of the outcome, or with its
      account.
    - Outbox: completing a row and storing its deliveries is atomic; a stored
      delivery is lost only with its session, account or event, and each is
      committed at most once, whatever crashes; the
      consumer never stalls and delivers everything unless a whole batch waits
      for its recipients, and then nothing ([declined_batch_blocks]).
    - Attention: a persistent approval needs a trusted context; an answer needs
      the stored question.  The repository's statements refine an abstract item
      lifecycle with one notice per transition ([store_refines]); a command is
      routed at most once; the list reads no row twice and leaves out exactly
      the rows that follow the end of a page within its millisecond
      ([list_reads_exactly]).
    - Strict JSON: the parser ends on every input, returns only values of its
      domain, and reads back what JSON.stringify prints.
    - Feeds: a cursor that decodes was signed, is live and is of its own kind;
      every row between the position at which an installation was last
      configured and its checkpoint was sent, or passed over and not wanted by
      the configuration; acknowledgements are fenced by the lease; retention
      deletes only
      consumed rows, with two exceptions shown by [retention_exceptions].
    - Plans: validation ends and orders the steps exactly when they are
      acyclic, whatever order they are listed in; drafts are numbered, stored in
      dependency order and saved once; a stored revision has exactly the steps
      of its input, and started steps keep their definition.
    - Plan execution: no wakeup is lost and leases exclude each other
      ([no_lost_wakeup], [pending_is_served]).  Every attempt of a step works on
      one accepted submission per dependency; attempts are numbered without
      gaps, all but the last are settled, and their number is within the
      activated limit; a cancelled plan is final.
    - Automatic runs: under every interleaving and by any clocks a run keeps to
      the calls, concurrency and rounds frozen in its budget, calls agents only
      as the coordinator decided, and is final once finished; a stopped run is
      cancelled by the next pass and every pass ends ([pass_ends]).  Two edges
      are shown, [cancelled_while_accepted] and [paused_no_progress_stuck].
    - Memory jobs: the history of a job is a run of an abstract lease, and a
      fence that is not the current one is powerless ([job_fenced]); live claims
      never exceed the limits for all, an installation or a type; a claim takes
      the most urgent jobs and is not empty while one fits; a run that was asked
      for is never lost.
    - Budgets: no window of a budget is overspent but for what providers bill
      beyond the reserved worst case, and a request with a key is sent once
      ([request_sent_once]).
    - Review: layers of a policy can only make it stricter; a quorum means
      enough distinct, entitled and independent approvals whatever is stored;
      versions are immutable, heads move one at a time and no two changes are
      made against the same revision.  Rolling back accepts a version of another
      policy ([rollback_takes_foreign_version]).
    - Git merge: a merge without conflicts loses no change of either side at any
      path, one made by both included, and conflicts are real; closing the
      namespace ends and separates the files of all accepted plans.
    - Streams: whatever the order of arrival, of a text that fits the limit the
      part shown is a prefix, complete once every part has been accepted; all
      buffers are bounded; a preview that is cut may skip a character
      ([preview_skips_a_character]).
    - Codes by e-mail: a challenge survives at most eight wrong guesses in a
      quarter of an hour, whatever is resent or cleaned up; a code works once,
      before it expires, for the address, account and purpose it was sent for;
      the address of every account was shown by the last code sent to it.
      Requests let through by the shared limits are bounded, and a failing
      database closes the endpoint.
    - Limits and logins: budgets, bans, retry times, cooldowns, leases, device
      and QR sessions, single-use tickets.

    ** Conventions and bounds

    - Numbers the code keeps integral are [Z]; where a width or the safe-integer
      range matters the test is written out.  Strings are sequences of 8-bit
      code units, with UTF-8 lengths of one byte below 128 and two above.
    - Clocks, random text, hashes, ICU's collation and the answers of external
      calls are arguments of the operation that uses them, so theorems hold for
      all; where a theorem needs a digest without collisions it says between
      which texts.
    - Loops that are not structural carry fuel: the drain loop has the source's
      own bound [maxVisits], and [takeBatch_progress] shows it is enough; the
      contiguous watermark uses the number of receipts, one more than which no
      run of consecutive receipts can have; the history loops use the number of
      rows plus one, and [drain_ends], [forward_page_exact] and
      [backward_page_exact] show that they read to the end; the JSON parser uses
      twice the length of the text plus two, enough by
      [parse_strict_terminates]; the order of a plan uses the number of steps,
      enough by [order_steps_total]; the stream assembler uses the number of
      buffered chunks, each round removing one; the component search uses 1001
      rounds, the source's own bound on identifiers, enough by
      [component_total], and its ancestry test the number of rows plus two,
      enough by [cycle_found_iff]; the field merge uses the nesting of the base
      plus one and closing the namespace the number of plans plus one, enough by
      the theorems about them; a pass over a run makes [pass_calls] repository
      calls at most, by [pass_ends].
    - Objects the code mutates in place are addressed by key or position, and
      identity is modelled where the code tests it (reserved envelopes).

    ** Not modelled

    Metrics, logging, timers' wall-clock accuracy and SQL planning; the
    replay-batch fast path of the worker; row selection
    of the message queue's [tick]; attention recovery, push notification and
    routes; the scope feed beyond its cursors, extension grants, the
    SQL filter of team privacy (an argument of the feed model); router, server,
    the rest of db.ts, event materialisation, archive, documents; of the team
    spaces what lies outside plans and runs (membership, shared sessions, the
    transport of calls, agent configuration, preparing and uploading
    deliveries); execution of lifecycle jobs beyond the inbox rows it abandons;
    schema migrations at start; the
    memory service beyond the parts above (of its jobs the worker that runs
    them, of its reviews the publication itself; reading assets back,
    decodeAsset, is not modelled and its schema is an argument); the web
    application beyond the stream assembler; the Go daemon; signing and
    revocation of tokens.  Most of what is left out is statements without logic
    of their own, rendering, or code around third-party libraries.

    ** This file

    - [outcome]: the result of a call that may throw a JavaScript [Error];
      the [try!] notation sequences such calls.
    - the safe-integer range; sums, filters and sorted lists; the tactics and
      the hint database [pc] that close the routine cases. *)

From stdpp Require Export base gmap strings list fin_maps numbers sorting.
From Stdlib Require Export Lia.

#[global] Set Default Proof Using "Type".

(** ** Tactics *)

Create HintDb pc.

(** Split every boolean connective and comparison that appears as a
    hypothesis into the proposition it decides. *)
Ltac bool_hyps :=
  repeat match goal with
  | H : (_ && _)%bool = true |- _ => apply andb_true_iff in H; destruct H
  | H : (_ || _)%bool = false |- _ => apply orb_false_iff in H; destruct H
  | H : negb _ = true |- _ => apply negb_true_iff in H
  | H : negb _ = false |- _ => apply negb_false_iff in H
  | H : (_ <? _)%Z = true |- _ => apply Z.ltb_lt in H
  | H : (_ <? _)%Z = false |- _ => apply Z.ltb_ge in H
  | H : (_ <=? _)%Z = true |- _ => apply Z.leb_le in H
  | H : (_ <=? _)%Z = false |- _ => apply Z.leb_gt in H
  | H : (_ =? _)%Z = true |- _ => apply Z.eqb_eq in H
  | H : (_ =? _)%Z = false |- _ => apply Z.eqb_neq in H
  | H : bool_decide _ = true |- _ => apply bool_decide_eq_true in H
  | H : bool_decide _ = false |- _ => apply bool_decide_eq_false in H
  end.

(** Case analysis on the scrutinee of the first [match] or [if] of the goal
    or of a hypothesis, keeping the equation. *)
Ltac case_goal :=
  match goal with
  | |- context [match ?x with _ => _ end] =>
      lazymatch x with
      | context [match _ with _ => _ end] => fail
      | _ => let E := fresh "E" in destruct x eqn:E
      end
  end.

Ltac case_hyp H :=
  match type of H with
  | context [match ?x with _ => _ end] =>
      lazymatch x with
      | context [match _ with _ => _ end] => fail
      | _ => let E := fresh "E" in destruct x eqn:E
      end
  end.

(** ** Exceptions *)

(** A call either returns or throws an [Error] with a message. *)
Inductive outcome (A : Type) : Type :=
| Returns (a : A)
| Throws (message : string).
Arguments Returns {A} a.
Arguments Throws {A} message.

Declare Scope js_scope.
Delimit Scope js_scope with js.

Notation "'try!' x := c 'in' k" :=
  (match c with Returns x => k | Throws m => Throws m end)
  (at level 10, x pattern, c at level 100, k at level 200) : js_scope.

#[global] Open Scope js_scope.

Definition is_return {A} (o : outcome A) : bool :=
  match o with Returns _ => true | Throws _ => false end.

(** ** JavaScript numbers *)

(** [Number.MAX_SAFE_INTEGER]. *)
Definition max_safe : Z := 9007199254740991.

(** [Number.isSafeInteger] of an integral number. *)
Definition is_safe_integer (z : Z) : bool :=
  ((- max_safe <=? z) && (z <=? max_safe))%Z.

(** ** Sums over lists *)

Section sums.
Context {A : Type} (f : A → Z).

Fixpoint sumZ (l : list A) : Z :=
  match l with
  | [] => 0
  | x :: l' => f x + sumZ l'
  end.

Lemma sumZ_app l1 l2 : sumZ (l1 ++ l2) = (sumZ l1 + sumZ l2)%Z.
Proof. induction l1 as [|x l1 IH]; simpl; lia. Qed.

Lemma sumZ_nonneg l : (∀ x, x ∈ l → 0 ≤ f x)%Z → (0 ≤ sumZ l)%Z.
Proof.
  induction l as [|x l IH]; simpl; intros H; [lia|].
  pose proof (H x (list_elem_of_here _ _)).
  assert (0 ≤ sumZ l)%Z by (apply IH; intros y Hy; apply H; by right). lia.
Qed.

Lemma sumZ_elem_le x l : (∀ y, y ∈ l → 0 ≤ f y)%Z → x ∈ l → (f x ≤ sumZ l)%Z.
Proof.
  induction l as [|y l IH]; simpl; intros H Hx; [set_solver|].
  pose proof (H y (list_elem_of_here _ _)).
  assert (Hl : ∀ z, z ∈ l → (0 ≤ f z)%Z) by (intros z Hz; apply H; by right).
  pose proof (sumZ_nonneg l Hl).
  apply elem_of_cons in Hx as [->|Hx]; [lia|]. specialize (IH Hl Hx). lia.
Qed.

#[global] Instance sumZ_perm : Proper ((≡ₚ) ==> (=)) sumZ.
Proof. intros l1 l2; induction 1; simpl; lia. Qed.
End sums.

Lemma sumZ_ext {A} (f g : A → Z) l :
  (∀ x, x ∈ l → f x = g x) → sumZ f l = sumZ g l.
Proof.
  induction l as [|x l IH]; simpl; intros H; [done|].
  rewrite (H x (list_elem_of_here _ _)), IH; [done|].
  intros y Hy; apply H; by right.
Qed.

(** Number of elements, as the integer the code counts with. *)
Abbreviation len l := (Z.of_nat (length l)).

Lemma len_app {A} (l1 l2 : list A) : len (l1 ++ l2) = (len l1 + len l2)%Z.
Proof. rewrite length_app. lia. Qed.

(** ** Filtering *)

(** Lists filtered by a boolean test, as [Array.prototype.filter]. *)
Section bfilter.
Context {A : Type} (p : A → bool).

Fixpoint bfilter (l : list A) : list A :=
  match l with
  | [] => []
  | x :: l' => if p x then x :: bfilter l' else bfilter l'
  end.

Lemma bfilter_app l1 l2 : bfilter (l1 ++ l2) = bfilter l1 ++ bfilter l2.
Proof. induction l1 as [|x l1 IH]; simpl; [done|]. destruct (p x); simpl; by rewrite IH. Qed.

Lemma elem_of_bfilter x l : x ∈ bfilter l ↔ p x = true ∧ x ∈ l.
Proof.
  induction l as [|y l IH]; simpl; [set_solver|].
  destruct (p y) eqn:E; rewrite ?elem_of_cons, IH; intuition congruence.
Qed.

#[global] Instance bfilter_perm : Proper ((≡ₚ) ==> (≡ₚ)) bfilter.
Proof.
  intros l1 l2; induction 1; simpl; [done| | |by etransitivity].
  - destruct (p x); [by apply Permutation_skip|done].
  - destruct (p x), (p y); try done. apply Permutation_swap.
Qed.

Lemma bfilter_true l : (∀ x, x ∈ l → p x = true) → bfilter l = l.
Proof.
  induction l as [|x l IH]; simpl; intros H; [done|].
  rewrite (H x (list_elem_of_here _ _)), IH; [done|]. intros y Hy; apply H; by right.
Qed.

Lemma bfilter_false l : (∀ x, x ∈ l → p x = false) → bfilter l = [].
Proof.
  induction l as [|x l IH]; simpl; intros H; [done|].
  rewrite (H x (list_elem_of_here _ _)), IH; [done|]. intros y Hy; apply H; by right.
Qed.

Lemma bfilter_length l : length (bfilter l) ≤ length l.
Proof. induction l as [|x l IH]; simpl; [lia|]. destruct (p x); simpl; lia. Qed.

Lemma bfilter_sublist l : bfilter l `sublist_of` l.
Proof. induction l as [|x l IH]; simpl; [constructor|]. destruct (p x); by constructor. Qed.
End bfilter.

Lemma existsb_none {A} (f : A → bool) l x : existsb f l = false → x ∈ l → f x = false.
Proof.
  intros Hf Hx. apply not_true_is_false. intros E.
  assert (existsb f l = true); [|congruence]. apply existsb_exists. exists x.
  by rewrite <- list_elem_of_In.
Qed.

Lemma bfilter_none {A} (f : A → bool) l x : bfilter f l = [] → x ∈ l → f x = false.
Proof.
  intros Hf Hx. apply not_true_is_false. intros E.
  assert (Hin : x ∈ bfilter f l) by (by apply elem_of_bfilter). rewrite Hf in Hin. set_solver.
Qed.

Lemma bfilter_ext {A} (p q : A → bool) l :
  (∀ x, x ∈ l → p x = q x) → bfilter p l = bfilter q l.
Proof.
  induction l as [|x l IH]; intros H; [done|]. simpl.
  rewrite (H x (list_elem_of_here _ _)), IH; [done|]. intros y Hy. apply H. by right.
Qed.

Lemma sumZ_bfilter_le {A} (f : A → Z) p l :
  (∀ x, x ∈ l → 0 ≤ f x)%Z → (sumZ f (bfilter p l) ≤ sumZ f l)%Z.
Proof.
  induction l as [|x l IH]; simpl; intros H; [lia|].
  pose proof (H x (list_elem_of_here _ _)).
  assert (sumZ f (bfilter p l) ≤ sumZ f l)%Z by (apply IH; intros y Hy; apply H; by right).
  destruct (p x); simpl; lia.
Qed.

(** The first element that satisfies a test, as [Array.prototype.find]. *)
Fixpoint find_first {A} (p : A → bool) (l : list A) : option A :=
  match l with
  | [] => None
  | x :: l' => if p x then Some x else find_first p l'
  end.

Lemma find_first_Some {A} (p : A → bool) l x :
  find_first p l = Some x → x ∈ l ∧ p x = true.
Proof.
  induction l as [|y l IH]; simpl; [done|].
  destruct (p y) eqn:E; intros H; [simplify_eq; set_solver|].
  destruct (IH H); set_solver.
Qed.

Lemma find_first_None {A} (p : A → bool) l :
  find_first p l = None → ∀ x, x ∈ l → p x = false.
Proof.
  induction l as [|y l IH]; simpl; intros H x Hx; [set_solver|].
  destruct (p y) eqn:E; [done|].
  apply elem_of_cons in Hx as [->|Hx]; auto.
Qed.

(** ** Lists in the order of an integer key *)

Section by_key.
Context {A : Type} (key : A → Z).

Definition by_key (x y : A) : Prop := (key x < key y)%Z.

Lemma sorted_bfilter (p : A → bool) l :
  StronglySorted by_key l → StronglySorted by_key (bfilter p l).
Proof.
  induction 1 as [|e l Hs IH He]; simpl; [constructor|]. destruct (p e); [|done].
  constructor; [done|]. rewrite Forall_forall in *. intros x [_ Hx]%elem_of_bfilter. auto.
Qed.

(** What lies after an element of a sorted list is what its key says. *)
Lemma after_prefix (p : A → bool) l1 e l2 :
  StronglySorted by_key (l1 ++ e :: l2) →
  (∀ x, x ∈ l1 ++ e :: l2 → p x = (key e <? key x)%Z) →
  bfilter p (l1 ++ e :: l2) = l2.
Proof.
  intros Hs Hp. rewrite bfilter_app, (bfilter_false p l1); simpl.
  - rewrite Hp by set_solver. rewrite Z.ltb_irrefl. apply bfilter_true.
    intros x Hx. rewrite Hp by set_solver. apply Z.ltb_lt.
    apply StronglySorted_app in Hs as (_ & _ & Hs). inversion Hs as [|? ? ? Hf]; subst.
    rewrite Forall_forall in Hf. by apply Hf.
  - intros x Hx. rewrite Hp by set_solver. apply Z.ltb_ge.
    apply StronglySorted_app in Hs as (Hs & _ & _).
    specialize (Hs x e Hx (list_elem_of_here _ _)). unfold by_key in Hs. lia.
Qed.

Lemma bfilter_narrow (p q r : A → bool) l :
  (∀ x, r x = p x && q x) → bfilter r l = bfilter q (bfilter p l).
Proof.
  intros H. induction l as [|x l IH]; simpl; [done|]. rewrite H.
  destruct (p x); simpl; [|done]. by destruct (q x); rewrite IH.
Qed.

(** Reading on from the last element read of a filtered sorted list. *)
Lemma read_on (p r : A → bool) l l1 e l2 :
  StronglySorted by_key l → bfilter p l = l1 ++ e :: l2 →
  (∀ x, x ∈ l → r x = p x && (key e <? key x)%Z) → bfilter r l = l2.
Proof.
  intros Hs HF Hr. transitivity (bfilter (λ x, p x && (key e <? key x)%Z) l).
  - clear HF Hs. induction l as [|x l IH]; simpl; [done|].
    rewrite Hr by set_solver. rewrite IH by set_solver. done.
  - rewrite (bfilter_narrow p (λ x, key e <? key x)%Z) by done.
    rewrite HF. apply after_prefix; [|done]. rewrite <- HF. by apply sorted_bfilter.
Qed.
End by_key.

#[export] Hint Rewrite @sumZ_app @len_app @bfilter_app : pc.

(** ** Paging

    A table read in a total order, with a filter. *)

Section paging.
Context {A : Type} (R : relation A).
Context `{!Transitive R, !Total R, !∀ x y, Decision (R x y)}.

(** No two rows are equivalent. *)
Definition strict_rows (l : list A) : Prop :=
  ∀ x y, x ∈ l → y ∈ l → R x y → R y x → x = y.

Lemma sorted_filter (p : A → bool) l : StronglySorted R l → StronglySorted R (bfilter p l).
Proof.
  induction 1 as [|e l Hs IH He]; simpl; [constructor|]. destruct (p e); [|done].
  constructor; [done|]. rewrite Forall_forall in *. intros x [_ Hx]%elem_of_bfilter. auto.
Qed.

(** Filtering before or after sorting is the same. *)
Lemma sort_filter (p : A → bool) l :
  strict_rows l → merge_sort R (bfilter p l) = bfilter p (merge_sort R l).
Proof using All.
  intros Hs. apply (StronglySorted_unique_strong R).
  - intros x y Hx Hy. rewrite merge_sort_Permutation in Hx. apply elem_of_bfilter in Hx as [_ Hx].
    apply elem_of_bfilter in Hy as [_ Hy]. rewrite merge_sort_Permutation in Hy. by apply Hs.
  - by apply StronglySorted_merge_sort.
  - apply sorted_filter. by apply StronglySorted_merge_sort.
  - by rewrite !merge_sort_Permutation.
Qed.
End paging.
