(* ===== verification/JsValue.v ===== *)
(** * JsValue: the JavaScript values and built-ins the sources use.

    A JSON-like value as [JSON.parse] produces it, with the conversions the
    code applies to untrusted payload fields: property access, truthiness,
    [typeof] tests, [String(x)], [Number(x)], [trim], [JSON.stringify] and
    [Buffer.byteLength].

    Strings are sequences of 8-bit code units: the model's alphabet is
    U+0000..U+00FF, on which UTF-8 uses one byte below U+0080 and two above.
    [JNum] is an integral number; [JFrac] is any other number (fractions, NaN,
    infinities) given by its JavaScript text. *)

From stdpp Require Import pretty.
From S2P Require Import Prelude.

#[local] Open Scope Z_scope.

Inductive jsval : Type :=
| JUndef
| JNull
| JBool (b : bool)
| JNum (z : Z)
| JFrac (text : string)
| JStr (s : string)
| JArr (items : list jsval)
| JObj (fields : list (string * jsval)).

(** Induction on values, with the hypothesis for every element and field. *)
Section jsval_nested.
Context (P : jsval → Prop).
Hypothesis P_undef : P JUndef.
Hypothesis P_null : P JNull.
Hypothesis P_bool : ∀ b, P (JBool b).
Hypothesis P_num : ∀ z, P (JNum z).
Hypothesis P_frac : ∀ t, P (JFrac t).
Hypothesis P_str : ∀ s, P (JStr s).
Hypothesis P_arr : ∀ l, Forall P l → P (JArr l).
Hypothesis P_obj : ∀ fields, Forall (λ kv, P kv.2) fields → P (JObj fields).

Fixpoint jsval_nested_ind (v : jsval) : P v :=
  match v with
  | JUndef => P_undef
  | JNull => P_null
  | JBool b => P_bool b
  | JNum z => P_num z
  | JFrac t => P_frac t
  | JStr s => P_str s
  | JArr l =>
      P_arr l ((fix go (l : list jsval) : Forall P l :=
        match l with
        | [] => Forall_nil_2 _
        | x :: l' => Forall_cons_2 _ x l' (jsval_nested_ind x) (go l')
        end) l)
  | JObj fields =>
      P_obj fields ((fix go (l : list (string * jsval)) : Forall (λ kv, P kv.2) l :=
        match l with
        | [] => Forall_nil_2 _
        | kv :: l' => Forall_cons_2 _ kv l' (jsval_nested_ind kv.2) (go l')
        end) fields)
  end.
End jsval_nested.

(** ** Strings *)

Definition code (c : Ascii.ascii) : Z := Z.of_N (Ascii.N_of_ascii c).

(** White space and line terminators of [String.prototype.trim]. *)
Definition is_space (c : Ascii.ascii) : bool :=
  ((9 <=? code c) && (code c <=? 13)) || (code c =? 32) || (code c =? 160).

Fixpoint trim_start (s : string) : string :=
  match s with
  | EmptyString => EmptyString
  | String c s' => if is_space c then trim_start s' else s
  end.

Fixpoint trim_end (s : string) : string :=
  match s with
  | EmptyString => EmptyString
  | String c s' =>
      match trim_end s' with
      | EmptyString => if is_space c then EmptyString else String c EmptyString
      | t => String c t
      end
  end.

Definition trim (s : string) : string := trim_end (trim_start s).

Definition starts_with (s p : string) : bool := String.prefix p s.

Definition str_len (s : string) : Z := Z.of_nat (String.length s).

Fixpoint utf8_length (s : string) : Z :=
  match s with
  | EmptyString => 0
  | String c s' => (if code c <? 128 then 1 else 2) + utf8_length s'
  end.

Fixpoint join (sep : string) (l : list string) : string :=
  match l with
  | [] => EmptyString
  | [s] => s
  | s :: l' => (s +:+ sep +:+ join sep l')%string
  end.

(** ASCII upper-casing ([String.prototype.toUpperCase] on the codes the store
    generates, which are alphanumeric). *)
Definition upper_char (c : Ascii.ascii) : Ascii.ascii :=
  if (97 <=? code c) && (code c <=? 122)
  then Ascii.ascii_of_N (Z.to_N (code c - 32)) else c.

Fixpoint to_upper (s : string) : string :=
  match s with
  | EmptyString => EmptyString
  | String c s' => String (upper_char c) (to_upper s')
  end.

(** ** Property access, truthiness and type tests *)

Definition lookup_field (k : string) (fields : list (string * jsval)) : jsval :=
  match find_first (λ f, bool_decide (f.1 = k)) fields with
  | Some f => f.2
  | None => JUndef
  end.

(** [v?.k]: a field of an object; anything else has no own property [k]. *)
Definition js_get (v : jsval) (k : string) : jsval :=
  match v with
  | JObj fields => lookup_field k fields
  | _ => JUndef
  end.

Definition truthy (v : jsval) : bool :=
  match v with
  | JUndef | JNull => false
  | JBool b => b
  | JNum z => negb (z =? 0)
  | JFrac t => negb (bool_decide (t = "NaN"%string))
  | JStr s => negb (bool_decide (s = EmptyString))
  | JArr _ | JObj _ => true
  end.

(** [v ?? d]. *)
Definition nullish (v d : jsval) : jsval :=
  match v with
  | JUndef | JNull => d
  | _ => v
  end.

Definition is_nullish (v : jsval) : bool :=
  match v with JUndef | JNull => true | _ => false end.

Definition is_str (v : jsval) (s : string) : bool :=
  match v with JStr t => bool_decide (t = s) | _ => false end.

Definition is_true (v : jsval) : bool :=
  match v with JBool true => true | _ => false end.

Definition is_number (v : jsval) (z : Z) : bool :=
  match v with JNum n => n =? z | _ => false end.

(** [a === b].  Objects and arrays compare by identity, and two values that
    come from different payloads are never the same object. *)
Definition strict_eq (a b : jsval) : bool :=
  match a, b with
  | JUndef, JUndef | JNull, JNull => true
  | JBool x, JBool y => bool_decide (x = y)
  | JNum x, JNum y => x =? y
  | JFrac x, JFrac y => bool_decide (x = y) && negb (bool_decide (x = "NaN"%string))
  | JStr x, JStr y => bool_decide (x = y)
  | _, _ => false
  end.

(** A non-empty string, as [typeof v === 'string' && v !== '']. *)
Definition nonempty_str (v : jsval) : option string :=
  match v with
  | JStr s => if bool_decide (s = EmptyString) then None else Some s
  | _ => None
  end.

(** ** [String(x)] *)

Fixpoint js_String (v : jsval) : string :=
  match v with
  | JUndef => "undefined"
  | JNull => "null"
  | JBool true => "true"
  | JBool false => "false"
  | JNum z => pretty z
  | JFrac t => t
  | JStr s => s
  | JArr l => join "," (map (λ x, if is_nullish x then EmptyString else js_String x) l)
  | JObj _ => "[object Object]"
  end%string.

(** ** [Number(x)] *)

(** Integral results only: [None] is any other number, NaN included.  The
    decimal form is evaluated exactly, without rounding to a double. *)

Definition digit (c : Ascii.ascii) : option Z :=
  if (48 <=? code c) && (code c <=? 57) then Some (code c - 48) else None.

(** Leading decimal digits: their value, how many there are, and the rest. *)
Fixpoint take_digits (s : string) (acc : Z) (count : nat) : Z * nat * string :=
  match s with
  | EmptyString => (acc, count, EmptyString)
  | String c s' =>
      match digit c with
      | Some d => take_digits s' (acc * 10 + d) (S count)
      | None => (acc, count, s)
      end
  end.

Definition take_sign (s : string) : Z * string :=
  match s with
  | String c s' =>
      if code c =? 45 then (-1, s') else if code c =? 43 then (1, s') else (1, s)
  | EmptyString => (1, s)
  end.

Definition scale10 (m e : Z) : option Z :=
  if 0 <=? e then Some (m * 10 ^ e)
  else if m mod (10 ^ (- e)) =? 0 then Some (m / 10 ^ (- e)) else None.

(** The exponent part: absent, or [e] with an optional sign and digits. *)
Definition take_exponent (s : string) : option Z :=
  match s with
  | EmptyString => Some 0
  | String c s' =>
      if (code c =? 101) || (code c =? 69) then
        let '(sg, r) := take_sign s' in
        let '(v, n, r') := take_digits r 0 0 in
        match n, r' with
        | S _, EmptyString => Some (sg * v)
        | _, _ => None
        end
      else None
  end.

Definition decimal_number (s : string) : option Z :=
  let '(sg, r) := take_sign s in
  let '(ip, ni, r1) := take_digits r 0 0 in
  let '(m, nf, n, r2) :=
    match r1 with
    | String c r' =>
        if code c =? 46 then
          let '(m, n, r'') := take_digits r' ip ni in (m, (n - ni)%nat, n, r'')
        else (ip, 0%nat, ni, r1)
    | EmptyString => (ip, 0%nat, ni, r1)
    end in
  match n with
  | O => None
  | S _ =>
      match take_exponent r2 with
      | Some e => scale10 (sg * m) (e - Z.of_nat nf)
      | None => None
      end
  end.

Definition digit_of_radix (radix : Z) (c : Ascii.ascii) : option Z :=
  let k := code c in
  let v := if (48 <=? k) && (k <=? 57) then k - 48
           else if (97 <=? k) && (k <=? 122) then k - 87
           else if (65 <=? k) && (k <=? 90) then k - 55 else radix in
  if v <? radix then Some v else None.

Fixpoint radix_digits (radix : Z) (s : string) (acc : Z) : option Z :=
  match s with
  | EmptyString => Some acc
  | String c s' =>
      match digit_of_radix radix c with
      | Some d => radix_digits radix s' (acc * radix + d)
      | None => None
      end
  end.

Definition radix_of (c : Ascii.ascii) : option Z :=
  let k := code c in
  if (k =? 120) || (k =? 88) then Some 16
  else if (k =? 111) || (k =? 79) then Some 8
  else if (k =? 98) || (k =? 66) then Some 2 else None.

Definition string_to_number (s : string) : option Z :=
  match trim s with
  | EmptyString => Some 0
  | String z (String x (String c rest)) as t =>
      match (if code z =? 48 then radix_of x else None) with
      | Some radix => radix_digits radix (String c rest) 0
      | None => decimal_number t
      end
  | t => decimal_number t
  end.

Definition js_Number (v : jsval) : option Z :=
  match v with
  | JUndef => None
  | JNull => Some 0
  | JBool b => Some (if b then 1 else 0)
  | JNum z => Some z
  | JFrac _ => None
  | JStr s => string_to_number s
  | JArr _ => string_to_number (js_String v)
  | JObj _ => None
  end.

(** ** [JSON.stringify] *)

Definition hex_digit (n : Z) : Ascii.ascii :=
  Ascii.ascii_of_N (Z.to_N (if n <? 10 then 48 + n else 87 + n)).

Definition json_char (c : Ascii.ascii) : string :=
  let k := code c in
  if k =? 34 then "\" +:+ String c EmptyString
  else if k =? 92 then "\\"
  else if k =? 8 then "\b"
  else if k =? 9 then "\t"
  else if k =? 10 then "\n"
  else if k =? 12 then "\f"
  else if k =? 13 then "\r"
  else if k <? 32 then
    "\u00" +:+ String (hex_digit (k / 16)) (String (hex_digit (k mod 16)) EmptyString)
  else String c EmptyString.

Fixpoint json_chars (s : string) : string :=
  match s with
  | EmptyString => EmptyString
  | String c s' => json_char c +:+ json_chars s'
  end.

Definition dquote : string := String (Ascii.ascii_of_nat 34) EmptyString.

Definition json_quote (s : string) : string := dquote +:+ json_chars s +:+ dquote.

Definition json_frac (t : string) : string :=
  if bool_decide (t ∈ ["NaN"; "Infinity"; "-Infinity"]%string) then "null" else t.

(** [None] is JavaScript's [undefined], which object fields drop and arrays
    print as [null]. *)
Fixpoint stringify (v : jsval) : option string :=
  match v with
  | JUndef => None
  | JNull => Some "null"
  | JBool true => Some "true"
  | JBool false => Some "false"
  | JNum z => Some (pretty z)
  | JFrac t => Some (json_frac t)
  | JStr s => Some (json_quote s)
  | JArr l =>
      Some ("[" +:+ join "," (map (λ x, default "null" (stringify x)) l) +:+ "]")
  | JObj fields =>
      Some ("{" +:+ join "," (flat_map (λ kv,
              match stringify (snd kv) with
              | Some t => [json_quote (fst kv) +:+ ":" +:+ t]
              | None => []
              end) fields) +:+ "}")
  end%string.

(** [Buffer.byteLength(JSON.stringify(v))], for a [v] that is not undefined. *)
Definition json_bytes (v : jsval) : Z :=
  match stringify v with
  | Some s => utf8_length s
  | None => 0
  end.

Lemma utf8_length_nonneg s : 0 ≤ utf8_length s.
Proof. induction s as [|c s IH]; simpl; [lia|]. destruct (code c <? 128); lia. Qed.

Lemma json_bytes_nonneg v : 0 ≤ json_bytes v.
Proof. unfold json_bytes. destruct (stringify v); [apply utf8_length_nonneg | lia]. Qed.

#[export] Hint Resolve utf8_length_nonneg json_bytes_nonneg : pc.

(** ** Looking up fields *)

Lemma lookup_field_elem k v (fields : list (string * jsval)) :
  NoDup fields.*1 → (k, v) ∈ fields → lookup_field k fields = v.
Proof.
  unfold lookup_field. induction fields as [|[k' v'] fields IH]; intros Hnd Hin; [by inv Hin|].
  apply NoDup_cons in Hnd as [Hk Hnd]. simpl. case_bool_decide as E; simpl in *.
  - subst k'. apply elem_of_cons in Hin as [Hin|Hin]; [by simplify_eq|].
    apply (list_elem_of_fmap_2 fst) in Hin. by simpl in Hin.
  - apply IH; [done|]. apply elem_of_cons in Hin as [Hin|Hin]; [by simplify_eq|done].
Qed.

Lemma lookup_field_absent k (fields : list (string * jsval)) :
  k ∉ fields.*1 → lookup_field k fields = JUndef.
Proof.
  unfold lookup_field. intros H. destruct (find_first _ fields) as [f|] eqn:E; [|done].
  apply find_first_Some in E as [Hin Hb]. bool_hyps. subst. destruct H. by apply list_elem_of_fmap_2.
Qed.

Lemma lookup_field_present k (fields : list (string * jsval)) :
  k ∈ fields.*1 → (k, lookup_field k fields) ∈ fields.
Proof.
  intros H. apply list_elem_of_fmap in H as (f0 & -> & Hin). unfold lookup_field.
  destruct (find_first _ fields) as [f|] eqn:E.
  - apply find_first_Some in E as [Hin' Hb]. bool_hyps. rewrite <- Hb. by destruct f.
  - pose proof (find_first_None _ _ E f0 Hin) as Hb. simpl in Hb. by rewrite bool_decide_true in Hb.
Qed.

(** ** Texts that determine what they were printed from *)

Definition chars (s : string) : list Ascii.ascii := String.list_ascii_of_string s.

Lemma chars_app s t : chars (s +:+ t) = chars s ++ chars t.
Proof. induction s as [|c s IH]; simpl; [done|]. by f_equal. Qed.

Lemma chars_inj s t : chars s = chars t → s = t.
Proof.
  intros H. rewrite <- (String.string_of_list_ascii_of_string s),
    <- (String.string_of_list_ascii_of_string t). by f_equal.
Qed.

(** Text without white space is trimmed already. *)
Lemma trim_end_clean s : (∀ c, c ∈ chars s → is_space c = false) → trim_end s = s.
Proof.
  induction s as [|c s IH]; intros H; [done|]. simpl in *. rewrite IH by (intros x Hx; apply H; by right).
  destruct s; [|done]. by rewrite (H c) by by left.
Qed.

Lemma trim_clean s : (∀ c, c ∈ chars s → is_space c = false) → trim s = s.
Proof.
  intros H. unfold trim. assert (trim_start s = s) as ->; [|by apply trim_end_clean].
  destruct s as [|c s]; [done|]. simpl. by rewrite (H c) by by left.
Qed.

(** A list splits in one way at its last occurrence of a separator. *)
Lemma split_last_inj {A} (sep : A) (l1 l2 k1 k2 : list A) :
  sep ∉ k1 → sep ∉ k2 → l1 ++ sep :: k1 = l2 ++ sep :: k2 → l1 = l2 ∧ k1 = k2.
Proof.
  revert l2. induction l1 as [|x l1 IH]; intros [|y l2] H1 H2 E; simplify_eq/=; set_solver.
Qed.

(** And in one way at its first. *)
Lemma split_first_inj {A} (sep : A) (l1 l2 k1 k2 : list A) :
  sep ∉ l1 → sep ∉ l2 → l1 ++ sep :: k1 = l2 ++ sep :: k2 → l1 = l2 ∧ k1 = k2.
Proof.
  revert l2. induction l1 as [|x l1 IH]; intros [|y l2] H1 H2 E; simplify_eq/=; [done|set_solver..|].
  destruct (IH l2) as [-> ->]; set_solver.
Qed.

(** The characters of a printed integer: digits and the minus sign. *)
Definition plain (c : Ascii.ascii) : bool :=
  (code c =? 45) || ((48 <=? code c) && (code c <=? 57)).

Lemma pretty_N_go_plain n s c :
  plain c = false → c ∉ chars s → c ∉ chars (pretty_N_go n s).
Proof.
  intros Hc. revert s. induction (N.lt_wf_0 n) as [n _ IH]; intros s Hs.
  destruct (decide (n = 0)%N) as [->|Hn]; [by rewrite pretty_N_go_0|].
  rewrite pretty_N_go_step by lia. apply IH; [apply N.div_lt; lia|].
  change (chars (String ?x s)) with (x :: chars s).
  assert (Hd : (n `mod` 10 < 10)%N) by (apply N.mod_lt; lia).
  apply not_elem_of_cons; split; [|done].
  assert (Hall : ∀ d, (d < 10)%N → plain (pretty_N_char d) = true).
  { intros d Hlt.
    assert (d = 0 ∨ d = 1 ∨ d = 2 ∨ d = 3 ∨ d = 4 ∨ d = 5 ∨ d = 6 ∨ d = 7 ∨ d = 8 ∨ d = 9)%N
      as Hcases by lia.
    repeat destruct Hcases as [->|Hcases]; try subst d; vm_compute; reflexivity. }
  intros ->. rewrite (Hall _ Hd) in Hc. done.
Qed.

Lemma pretty_N_plain (n : N) c : plain c = false → c ∉ chars (pretty n).
Proof.
  intros Hc. unfold pretty, pretty_N. destruct (decide (n = 0)%N).
  - simpl. apply not_elem_of_cons; split; [|apply not_elem_of_nil]. by intros ->.
  - apply pretty_N_go_plain; [done|]. simpl. apply not_elem_of_nil.
Qed.

Lemma pretty_Z_plain (z : Z) c : plain c = false → c ∉ chars (pretty z).
Proof.
  intros Hc. destruct z as [|p|p].
  - apply (pretty_N_plain 0%N c Hc).
  - apply (pretty_N_plain (Npos p) c Hc).
  - change (pretty (Z.neg p)) with ("-" +:+ pretty (Npos p)).
    rewrite chars_app. apply not_elem_of_app; split; [|by apply pretty_N_plain].
    simpl. apply not_elem_of_cons; split; [|apply not_elem_of_nil]. by intros ->.
Qed.

(** [JSON.stringify] escapes strings with a prefix code that avoids the bare
    quote, so a quoted string determines its content. *)

Fixpoint all_ascii_below (n : nat) : list Ascii.ascii :=
  match n with
  | O => []
  | S n' => Ascii.ascii_of_nat n' :: all_ascii_below n'
  end.

Lemma all_ascii_below_spec n k : (k < n)%nat → Ascii.ascii_of_nat k ∈ all_ascii_below n.
Proof.
  induction n as [|n IH]; intros Hk; simpl; [lia|].
  destruct (decide (k = n)) as [->|]; [left|]. right. apply IH. lia.
Qed.

Lemma all_ascii c : c ∈ all_ascii_below 256.
Proof.
  rewrite <- (Ascii.ascii_nat_embedding c). apply all_ascii_below_spec. apply Ascii.nat_ascii_bounded.
Qed.

Definition json_code (c : Ascii.ascii) : list Ascii.ascii := chars (json_char c).

Fixpoint is_prefix (l k : list Ascii.ascii) : bool :=
  match l, k with
  | [], _ => true
  | x :: l', y :: k' => Ascii.eqb x y && is_prefix l' k'
  | _ :: _, [] => false
  end.

Definition codes_differ (c d : Ascii.ascii) : bool :=
  Ascii.eqb c d || negb (is_prefix (json_code c) (json_code d)).

Definition code_unquoted (c : Ascii.ascii) : bool :=
  match json_code c with
  | [] => false
  | x :: _ => negb (Ascii.eqb x (Ascii.ascii_of_nat 34))
  end.

Lemma json_code_check :
  forallb (λ c, code_unquoted c && forallb (codes_differ c) (all_ascii_below 256))
    (all_ascii_below 256) = true.
Proof. vm_compute. reflexivity. Qed.

Lemma is_prefix_app l k x y : l ++ x = k ++ y → is_prefix l k = true ∨ is_prefix k l = true.
Proof.
  revert k. induction l as [|a l IH]; intros [|b k] H; simpl; auto.
  injection H as -> H. rewrite Ascii.eqb_refl. simpl. auto.
Qed.

Lemma json_code_prefix c d x y : json_code c ++ x = json_code d ++ y → c = d ∧ x = y.
Proof.
  intros H. pose proof json_code_check as Hall. rewrite forallb_forall in Hall.
  assert (Hpair : ∀ a b, is_prefix (json_code a) (json_code b) = true → a = b).
  { intros a b Hp. specialize (Hall a). rewrite andb_true_iff, forallb_forall in Hall.
    destruct Hall as [_ Hd]; [apply list_elem_of_In, all_ascii|].
    specialize (Hd b). unfold codes_differ in Hd. rewrite Hp in Hd.
    rewrite orb_false_r in Hd. apply Ascii.eqb_eq, Hd, list_elem_of_In, all_ascii. }
  destruct (is_prefix_app _ _ _ _ H) as [Hp|Hp]; apply Hpair in Hp; subst;
    by apply app_inv_head in H.
Qed.

Lemma json_code_unquoted c x y : json_code c ++ x ≠ Ascii.ascii_of_nat 34 :: y.
Proof.
  pose proof json_code_check as Hall. rewrite forallb_forall in Hall.
  specialize (Hall c). rewrite andb_true_iff in Hall.
  destruct Hall as [Hu _]; [apply list_elem_of_In, all_ascii|].
  unfold code_unquoted in Hu. destruct (json_code c) as [|a l]; [done|].
  intros [= -> _]. done.
Qed.

Lemma json_chars_inj s t x y :
  chars (json_chars s) ++ Ascii.ascii_of_nat 34 :: x
  = chars (json_chars t) ++ Ascii.ascii_of_nat 34 :: y → s = t.
Proof.
  revert t. induction s as [|c s IH]; intros [|d t]; simpl; rewrite ?chars_app; intros H.
  - done.
  - rewrite <- app_assoc in H. symmetry in H. by apply json_code_unquoted in H.
  - rewrite <- app_assoc in H. by apply json_code_unquoted in H.
  - rewrite <- !app_assoc in H. apply json_code_prefix in H as [-> H]. f_equal. by eapply IH.
Qed.
