(* ===== verification/JsMap.v ===== *)
(** * JsMap: JavaScript's insertion-ordered [Map].

    [jsmap K A] is a [Map]: an association list in insertion order.  [map_set]
    keeps the position of a key that is already present, [map_delete] frees it;
    [map_of] and [map_first] are the two loops the sources fill maps with, and
    [sort_by_key] is the comparator sort of a map's entries. *)

From S2P Require Import Prelude.

Definition jsmap (K A : Type) : Type := list (K * A).

Section jsmap.
Context {K A : Type} `{EqDecision K}.
Implicit Types (m : jsmap K A) (k : K) (v : A).

Fixpoint map_get m k : option A :=
  match m with
  | [] => None
  | (k', v) :: m' => if decide (k = k') then Some v else map_get m' k
  end.

Definition map_has m k : bool :=
  match map_get m k with Some _ => true | None => false end.

Fixpoint map_set m k v : jsmap K A :=
  match m with
  | [] => [(k, v)]
  | (k', w) :: m' => if decide (k = k') then (k', v) :: m' else (k', w) :: map_set m' k v
  end.

Fixpoint map_delete m k : jsmap K A :=
  match m with
  | [] => []
  | (k', w) :: m' => if decide (k = k') then m' else (k', w) :: map_delete m' k
  end.

(** The keys of a [Map] are distinct. *)
Definition map_ok m : Prop := NoDup m.*1.

Lemma map_get_Some_elem m k v : map_get m k = Some v → (k, v) ∈ m.
Proof.
  induction m as [|[k' w] m IH]; simpl; [done|].
  destruct (decide (k = k')) as [->|]; [intros [= ->]; left|]. right. auto.
Qed.

Lemma map_get_elem m k v : map_ok m → (k, v) ∈ m → map_get m k = Some v.
Proof.
  unfold map_ok. induction m as [|[k' w] m IH]; simpl; intros Hnd Hin; [set_solver|].
  apply NoDup_cons in Hnd as [Hk Hnd]. apply elem_of_cons in Hin as [[= -> ->]|Hin].
  - by rewrite decide_True.
  - rewrite decide_False; [auto|]. intros ->. apply Hk. apply list_elem_of_fmap. by exists (k', v).
Qed.

Lemma map_get_None m k : map_get m k = None ↔ k ∉ m.*1.
Proof.
  induction m as [|[k' w] m IH]; simpl; [set_solver|].
  destruct (decide (k = k')) as [->|]; [set_solver|]. rewrite IH. set_solver.
Qed.

Lemma map_get_is_Some m k : is_Some (map_get m k) ↔ k ∈ m.*1.
Proof.
  destruct (map_get m k) eqn:E.
  - split; [|by eexists]. intros _. apply map_get_Some_elem in E. apply list_elem_of_fmap.
    by exists (k, a).
  - apply map_get_None in E. split; [by intros [? ?]|done].
Qed.

Lemma map_get_set m k v k' :
  map_get (map_set m k v) k' = if decide (k' = k) then Some v else map_get m k'.
Proof.
  induction m as [|[k1 w] m IH]; simpl.
  - destruct (decide (k' = k)); done.
  - destruct (decide (k = k1)) as [->|]; simpl.
    + destruct (decide (k' = k1)); done.
    + rewrite IH. repeat case_decide; congruence.
Qed.

Lemma map_get_set_eq m k v : map_get (map_set m k v) k = Some v.
Proof. by rewrite map_get_set, decide_True. Qed.

Lemma map_get_set_ne m k v k' : k' ≠ k → map_get (map_set m k v) k' = map_get m k'.
Proof. intros. by rewrite map_get_set, decide_False. Qed.

Lemma map_set_keys m k v x : x ∈ (map_set m k v).*1 ↔ x = k ∨ x ∈ m.*1.
Proof. rewrite <- !map_get_is_Some, map_get_set. destruct (decide (x = k)); naive_solver. Qed.

Lemma map_set_fst_in m k v : k ∈ m.*1 → (map_set m k v).*1 = m.*1.
Proof.
  induction m as [|[k' w] m IH]; simpl; intros Hk; [set_solver|].
  destruct (decide (k = k')) as [->|]; simpl; [done|]. f_equal. apply IH. set_solver.
Qed.

Lemma map_set_fst_out m k v : k ∉ m.*1 → (map_set m k v).*1 = m.*1 ++ [k].
Proof.
  induction m as [|[k' w] m IH]; simpl; intros Hk; [done|].
  rewrite decide_False by set_solver. simpl. f_equal. apply IH. set_solver.
Qed.

Lemma map_set_ok m k v : map_ok m → map_ok (map_set m k v).
Proof.
  unfold map_ok. destruct (decide (k ∈ m.*1)).
  { by rewrite map_set_fst_in. }
  rewrite map_set_fst_out by done. intros. apply NoDup_app. split_and!; [done| |apply NoDup_singleton]. set_solver.
Qed.

Lemma map_set_elem m k v k' v' : (k', v') ∈ map_set m k v → (k', v') = (k, v) ∨ (k', v') ∈ m.
Proof.
  induction m as [|[a b] m IH]; simpl; [set_solver|]. case_decide; [set_solver|].
  intros [->|Hin]%elem_of_cons; [right; left|]. destruct (IH Hin); [by left|right; by right].
Qed.

Lemma map_delete_sublist m k : map_delete m k `sublist_of` m.
Proof.
  induction m as [|[k' w] m IH]; simpl; [done|].
  destruct (decide (k = k')); [by constructor|]. by apply sublist_skip.
Qed.

Lemma map_delete_ok m k : map_ok m → map_ok (map_delete m k).
Proof.
  unfold map_ok. intros H. eapply sublist_NoDup; [exact H|].
  apply fmap_sublist, map_delete_sublist.
Qed.

Lemma map_get_delete m k k' :
  map_ok m → map_get (map_delete m k) k' = if decide (k' = k) then None else map_get m k'.
Proof.
  unfold map_ok. induction m as [|[k1 w] m IH]; simpl; [by destruct (decide (k' = k))|].
  intros [Hk Hnd]%NoDup_cons. destruct (decide (k = k1)) as [->|Hne]; simpl.
  - destruct (decide (k' = k1)) as [->|]; [by apply map_get_None|done].
  - rewrite IH by done. repeat case_decide; congruence.
Qed.

Lemma map_delete_length m k :
  k ∈ m.*1 → length m = S (length (map_delete m k)).
Proof.
  induction m as [|[k' w] m IH]; simpl; intros Hk; [set_solver|].
  destruct (decide (k = k')) as [->|]; simpl; [done|]. f_equal. apply IH. set_solver.
Qed.

Lemma map_delete_absent m k : k ∉ m.*1 → map_delete m k = m.
Proof.
  induction m as [|[k' w] m IH]; simpl; intros Hk; [done|].
  rewrite decide_False by set_solver. f_equal. apply IH. set_solver.
Qed.

Lemma map_set_length_out m k v : k ∉ m.*1 → length (map_set m k v) = S (length m).
Proof.
  intros. rewrite <- (length_fmap fst (map_set m k v)), map_set_fst_out by done.
  rewrite length_app, length_fmap. simpl. lia.
Qed.
End jsmap.

(** [for (x of l) map.set(key(x), val(x))]. *)
Definition map_of {K A B} `{EqDecision K} (key : B → K) (val : B → A) (l : list B) : jsmap K A :=
  foldl (λ m x, map_set m (key x) (val x)) [] l.

(** [for (x of l) if (!map.has(key(x))) map.set(key(x), x)]. *)
Definition map_first {K B} `{EqDecision K} (key : B → K) (l : list B) : jsmap K B :=
  foldl (λ m x, if map_has m (key x) then m else map_set m (key x) x) [] l.

Section map_of.
Context {K A B : Type} `{EqDecision K} (key : B → K) (val : B → A).

Lemma map_of_snoc l x : map_of key val (l ++ [x]) = map_set (map_of key val l) (key x) (val x).
Proof. unfold map_of. by rewrite foldl_app. Qed.

Lemma map_of_ok l : map_ok (map_of key val l).
Proof.
  induction l as [|x l IH] using rev_ind; [constructor|].
  rewrite map_of_snoc. by apply map_set_ok.
Qed.

Lemma map_of_elem l k v : (k, v) ∈ map_of key val l → ∃ x, x ∈ l ∧ k = key x ∧ v = val x.
Proof.
  intros H%(map_get_elem _ _ _ (map_of_ok l)). revert H.
  induction l as [|x l IH] using rev_ind; [done|]. rewrite map_of_snoc, map_get_set.
  destruct (decide (k = key x)) as [->|].
  - intros [= <-]. exists x. split_and!; [set_solver|done..].
  - intros (y & Hy & ?)%IH. exists y. split; [set_solver|done].
Qed.

Lemma map_of_get l x : x ∈ l → is_Some (map_get (map_of key val l) (key x)).
Proof.
  induction l as [|y l IH] using rev_ind; [set_solver|].
  intros Hx. rewrite map_of_snoc, map_get_set. case_decide as Hk; [by eexists|].
  apply IH. apply elem_of_app in Hx as [|Hx]; [done|]. apply list_elem_of_singleton in Hx. congruence.
Qed.
End map_of.

Section map_first.
Context {K B : Type} `{EqDecision K} (key : B → K).

Lemma map_first_snoc l x :
  map_first key (l ++ [x])
  = if map_has (map_first key l) (key x) then map_first key l
    else map_set (map_first key l) (key x) x.
Proof. unfold map_first. by rewrite foldl_app. Qed.

Lemma map_first_ok l : map_ok (map_first key l).
Proof.
  induction l as [|x l IH] using rev_ind; [constructor|].
  rewrite map_first_snoc. destruct (map_has _ _); [done|]. by apply map_set_ok.
Qed.

Lemma map_first_get_key l k x : map_get (map_first key l) k = Some x → key x = k ∧ x ∈ l.
Proof.
  induction l as [|y l IH] using rev_ind; [done|]. rewrite map_first_snoc.
  unfold map_has. destruct (map_get (map_first key l) (key y)) eqn:E.
  - intros [? ?]%IH. set_solver.
  - rewrite map_get_set. case_decide as Hk; [intros [= <-]; set_solver|].
    intros [? ?]%IH. set_solver.
Qed.

Lemma map_first_elem l k x : (k, x) ∈ map_first key l → key x = k ∧ x ∈ l.
Proof. intros H. by apply map_first_get_key, (map_get_elem _ _ _ (map_first_ok l)). Qed.

Lemma map_first_get l x : x ∈ l → is_Some (map_get (map_first key l) (key x)).
Proof.
  induction l as [|y l IH] using rev_ind; [set_solver|]. intros Hx.
  rewrite map_first_snoc. unfold map_has. destruct (map_get (map_first key l) (key y)) eqn:E.
  - apply elem_of_app in Hx as [?|Hx]; [auto|]. apply list_elem_of_singleton in Hx as ->. by eexists.
  - rewrite map_get_set. case_decide as Hk; [by eexists|]. apply IH.
    apply elem_of_app in Hx as [|Hx]; [done|]. apply list_elem_of_singleton in Hx. congruence.
Qed.
End map_first.

(** Entries sorted by their string keys, as
    [[...map.entries()].sort(([l], [r]) => l < r ? -1 : l > r ? 1 : 0)]. *)
Definition key_le {A} (x y : string * A) : Prop := String.le x.1 y.1.

#[global] Instance key_le_dec {A} : RelDecision (@key_le A).
Proof. intros x y. unfold key_le. apply _. Defined.

#[global] Instance key_le_total {A} : Total (@key_le A).
Proof. intros x y. unfold key_le. apply (total String.le). Qed.

#[global] Instance key_le_trans {A} : Transitive (@key_le A).
Proof. intros x y z. unfold key_le. apply (transitivity (R := String.le)). Qed.

Definition sort_by_key {A} (l : jsmap string A) : jsmap string A := merge_sort key_le l.

Lemma sort_by_key_perm {A} (l : jsmap string A) : sort_by_key l ≡ₚ l.
Proof. apply merge_sort_Permutation. Qed.
