(* ===== verification/EventPolicy.v ===== *)
(** * EventPolicy: classification of daemon events (relay/src/ingress).

    The data types of [ingress/types.ts] and the three pure functions of
    [ingress/event-policy.ts]: which session ids are canonical, whether an event
    is durable and in which priority class it is served, and the deduplication
    key under which it is stored. *)

From stdpp Require Import pretty.
From S2P Require Import Prelude JsValue.

#[local] Open Scope Z_scope.

(** ** Data of ingress/types.ts *)

Inductive PriorityClass : Type := Control | Live | Replay | Aggregate.

#[global] Instance PriorityClass_eq_dec : EqDecision PriorityClass.
Proof. solve_decision. Defined.

(** [obj] is the identity of the JavaScript object, which [WeakSet] and
    [WeakMap] compare. *)
Record IngressEnvelope : Type := {
  obj : Z;
  userId : option Z;
  daemonId : string;
  registrationId : string;
  daemonGeneration : Z;
  seq : Z;
  dedupKey : string;
  sessionId : option string;
  eventType : string;
  priority : PriorityClass;
  receiptOnly : bool;
  payload : jsval;
  materializationContext : jsval;
  receivedAt : Z;
}.

Record AckCheckpoint : Type := {
  ack_daemonId : string;
  ack_daemonGeneration : Z;
  ackSeq : Z;
}.

Inductive FlowReason : Type :=
| normal | ingest_backpressure | artifact_backpressure
| worker_backlog | relay_overloaded | event_too_large.

#[global] Instance FlowReason_eq_dec : EqDecision FlowReason.
Proof. solve_decision. Defined.

Record FlowControlState : Type := {
  window : Z;
  retryAfterMs : Z;
  reason : FlowReason;
  blockedSeq : option Z;
}.

(** ** ingress/event-policy.ts *)

Definition control_types : list string :=
  ["session_created"; "session_discovered"; "session_id_changed"; "session_status";
   "session_create_failed";
   "session_meta"; "session_model_changed"; "session_agent_changed";
   "approval_request"; "approval_resolved"; "question_request"; "question_resolved";
   "interactive_prompt"; "interactive_resolved"; "interaction_result";
   "permission_config_changed";
   "command_receipt";
   "collaboration_dispatch_receipt"; "collaboration_context_receipt";
   "collaboration_config_receipt";
   "turn_status"]%string.

Definition aggregate_types : list string := ["subagent_usage"]%string.

Definition ephemeralControl : list string :=
  ["ping"; "daemon_shutdown"; "cancel_takeover";
   "codex_rate_limits_changed"; "invocation_result"; "model_list"; "codex_home_list";
   "directory_result"; "session_document_resolved"; "upgrade_result"]%string.

Definition ephemeralAggregate : list string :=
  ["generate_title_request"; "generate_subagent_title_request"; "session_title_update"]%string.

Definition normalizeSessionId (value : jsval) : option string :=
  match value with
  | JStr s =>
      if (str_len s =? 0) || (64 <? str_len s) then None
      else if negb (bool_decide (s = trim s)) then None
      else if starts_with s "pending-" then None
      else Some s
  | _ => None
  end.

Record EventClass : Type := { durable : bool; class : PriorityClass }.

Definition event_type (payload : jsval) : string :=
  js_String (nullish (js_get payload "type") (JStr "")).

Definition classifyDaemonEvent (payload : jsval) : EventClass :=
  let type := event_type payload in
  if bool_decide (type = "error"%string)
     && bool_decide (normalizeSessionId (js_get payload "session_id") = None)
  then {| durable := false; class := Control |}
  else if bool_decide (type ∈ ephemeralControl) then {| durable := false; class := Control |}
  else if bool_decide (type ∈ ephemeralAggregate) then {| durable := false; class := Aggregate |}
  else if bool_decide (type ∈ control_types) then {| durable := true; class := Control |}
  else if bool_decide (type ∈ aggregate_types) then {| durable := true; class := Aggregate |}
  else if is_true (js_get payload "resync") then {| durable := true; class := Replay |}
  else {| durable := true; class := Live |}.

(** The transport coordinate, used as the key of an event without an identity. *)
Definition transport_dedup_key (daemonId : string) (generation seq : Z) : string :=
  daemonId +:+ ":" +:+ pretty generation +:+ ":" +:+ pretty seq.

Definition buildDedupKey (daemonId : string) (generation seq : Z) (payload : jsval) : string :=
  let session := js_String (nullish (js_get payload "session_id") (JStr "")) in
  let type := event_type payload in
  match nonempty_str (js_get payload "event_id") with
  | Some event_id => session +:+ ":" +:+ type +:+ ":event:" +:+ event_id
  | None =>
      match nonempty_str (js_get payload "request_id") with
      | Some request_id => session +:+ ":" +:+ type +:+ ":request:" +:+ request_id
      | None => transport_dedup_key daemonId generation seq
      end
  end.

(** ** Properties *)

Definition colon : Ascii.ascii := Ascii.ascii_of_nat 58.

Lemma pretty_Z_colon (z : Z) : colon ∉ chars (pretty z).
Proof. by apply pretty_Z_plain. Qed.

Lemma transport_key_chars d g s :
  chars (transport_dedup_key d g s)
  = (chars d ++ colon :: chars (pretty g)) ++ colon :: chars (pretty s).
Proof. unfold transport_dedup_key. rewrite !chars_app. by rewrite <- !app_assoc. Qed.

Lemma transport_dedup_key_inj d1 d2 g1 g2 s1 s2 :
  transport_dedup_key d1 g1 s1 = transport_dedup_key d2 g2 s2 →
  d1 = d2 ∧ g1 = g2 ∧ s1 = s2.
Proof.
  intros H. apply (f_equal chars) in H. rewrite !transport_key_chars in H.
  apply split_last_inj in H as [H Hs]; try apply pretty_Z_colon.
  apply split_last_inj in H as [Hd Hg]; try apply pretty_Z_colon.
  apply chars_inj in Hs, Hd, Hg. by simplify_eq.
Qed.

(** The event carries an identity of its own: a non-empty [event_id] or
    [request_id]. *)
Definition has_identity (payload : jsval) : bool :=
  match nonempty_str (js_get payload "event_id"), nonempty_str (js_get payload "request_id") with
  | None, None => false
  | _, _ => true
  end.

(** Deduplication keys of one payload received at two transport coordinates are
    equal exactly when the payload carries an identity of its own, or when the
    coordinates are the same: replays of identified events converge on one key
    and unidentified events are never merged. *)
Theorem dedup_key_converges d1 g1 s1 d2 g2 s2 payload :
  buildDedupKey d1 g1 s1 payload = buildDedupKey d2 g2 s2 payload
  ↔ has_identity payload = true ∨ (d1 = d2 ∧ g1 = g2 ∧ s1 = s2).
Proof.
  unfold buildDedupKey, has_identity.
  destruct (nonempty_str (js_get payload "event_id")); [tauto|].
  destruct (nonempty_str (js_get payload "request_id")); [tauto|].
  split.
  - intros H%transport_dedup_key_inj. by right.
  - intros [H|(-> & -> & ->)]; done.
Qed.

(** An event is not durable exactly when its type is one of the ephemeral ones
    or it is an error that names no canonical session; in particular no control
    frame of the durable set is ever classified as droppable, whatever its other
    fields say. *)
Theorem ephemeral_iff payload :
  durable (classifyDaemonEvent payload) = false
  ↔ event_type payload ∈ ephemeralControl ++ ephemeralAggregate
    ∨ (event_type payload = "error"%string
       ∧ normalizeSessionId (js_get payload "session_id") = None).
Proof.
  unfold classifyDaemonEvent. rewrite elem_of_app.
  repeat (case_bool_decide || destruct (is_true _)); simpl; try intuition congruence.
  all: split; [done|]; intros [[?|?]|[? ?]]; done.
Qed.
