(* ===== verification/FairQueue.v ===== *)
(** * FairQueue: the bounded, fair ingress queue (relay/src/ingress/fair-queue.ts).

    [FairIngressQueue] keeps one queue per daemon and priority class, serves the
    active daemons round-robin with a byte deficit, and charges every admitted
    event against per-daemon and global budgets until its batch is committed.

    The record [Queue] is the class's mutable state.  An envelope carries the
    identity [obj] of its JavaScript object: [reserved] is the [WeakSet], which
    compares identities.  The [cached] map memoises [payloadBytes] of immutable
    envelopes, so it is the function [toQueued].  Methods that throw return
    [Throws]; the state reached before the exception is returned with it. *)

From Stdlib Require Import QArith Qround.
From S2P Require Import Prelude JsValue EventPolicy.

#[local] Open Scope Z_scope.

(** ** Data *)

Definition prioritySchedule : list PriorityClass :=
  [Control; Control; Control; Control; Live; Live; Live; Replay; Aggregate].

(** [undefined] or a number; a number that is not integral is [JFrac]. *)
Record FairIngressQueueConfig : Type := {
  maxEventsPerDaemon_opt : jsval;
  maxBytesPerDaemon_opt : jsval;
  maxEvents_opt : jsval;
  maxBytes_opt : jsval;
  maxEventBytes_opt : jsval;
  quantumBytes_opt : jsval;
  maxArtifactEventsPerDaemon_opt : jsval;
  maxArtifactBytesPerDaemon_opt : jsval;
  maxArtifactEvents_opt : jsval;
  maxArtifactBytes_opt : jsval;
}.

(** The fraction is a finite number, or [None] when it is not finite. *)
Record BatchLimits : Type := {
  maxRows : jsval;
  batchMaxBytes : jsval;
  maxPerDaemonFraction : option Q;
}.

Inductive EnqueueResult : Type :=
| Accepted
| Backpressured (state : FlowControlState).

Record QueuedEnvelope : Type := {
  event : IngressEnvelope;
  payloadBytes : Z;
}.

(** [Record<PriorityClass, QueuedEnvelope[]>]. *)
Record Lanes : Type := {
  controlLane : list QueuedEnvelope;
  liveLane : list QueuedEnvelope;
  replayLane : list QueuedEnvelope;
  aggregateLane : list QueuedEnvelope;
}.

Definition lane (l : Lanes) (p : PriorityClass) : list QueuedEnvelope :=
  match p with
  | Control => controlLane l
  | Live => liveLane l
  | Replay => replayLane l
  | Aggregate => aggregateLane l
  end.

Definition set_lane (l : Lanes) (p : PriorityClass) (q : list QueuedEnvelope) : Lanes :=
  match p with
  | Control => {| controlLane := q; liveLane := liveLane l;
                  replayLane := replayLane l; aggregateLane := aggregateLane l |}
  | Live => {| controlLane := controlLane l; liveLane := q;
               replayLane := replayLane l; aggregateLane := aggregateLane l |}
  | Replay => {| controlLane := controlLane l; liveLane := liveLane l;
                 replayLane := q; aggregateLane := aggregateLane l |}
  | Aggregate => {| controlLane := controlLane l; liveLane := liveLane l;
                    replayLane := replayLane l; aggregateLane := q |}
  end.

Record DaemonQueue : Type := {
  byPriority : Lanes;
  dq_bytes : Z;
  dq_count : Z;
  deficit : Z;
  priorityCursor : nat;
}.

Record DaemonUsage : Type := {
  us_count : Z;
  us_bytes : Z;
  artifactCount : Z;
  artifactBytes : Z;
}.

(** The read-only limits the constructor resolves. *)
Record Limits : Type := {
  maxEventsPerDaemon : Z;
  maxBytesPerDaemon : Z;
  maxEvents : Z;
  maxBytes : Z;
  maxEventBytes : Z;
  quantumBytes : Z;
  maxArtifactEventsPerDaemon : Z;
  maxArtifactBytesPerDaemon : Z;
  maxArtifactEvents : Z;
  maxArtifactBytes : Z;
}.

Record Queue : Type := {
  limits : Limits;
  daemons : gmap string DaemonQueue;
  usage : gmap string DaemonUsage;
  activeDaemonIds : list string;
  activeIndex : gmap string nat;
  reserved : list IngressEnvelope;
  nextDaemon : nat;
  queuedCount : Z;
  totalCount : Z;
  totalBytes : Z;
  totalArtifactCount : Z;
  totalArtifactBytes : Z;
}.

(** ** Helpers of the module *)

Definition documentArtifactEventTypes : list string :=
  ["session_document_begin"; "session_document_chunk"; "session_document_commit"]%string.

Definition isDocumentArtifact (e : IngressEnvelope) : bool :=
  bool_decide (eventType e ∈ documentArtifactEventTypes).

Definition positiveInteger (value : jsval) (fallback : Z) : Z :=
  match value with
  | JNum z => if is_safe_integer z && (0 <? z) then z else fallback
  | _ => fallback
  end.

Definition nonNegativeInteger (value : jsval) (fallback : Z) : Z :=
  match value with
  | JNum z => if is_safe_integer z && (0 <=? z) then z else fallback
  | _ => fallback
  end.

Definition constructor_limits (c : FairIngressQueueConfig) : Limits := {|
  maxEventsPerDaemon := positiveInteger (maxEventsPerDaemon_opt c) 1024;
  maxBytesPerDaemon := positiveInteger (maxBytesPerDaemon_opt c) (Z.shiftl 4 20);
  maxEvents := positiveInteger (maxEvents_opt c) 50000;
  maxBytes := positiveInteger (maxBytes_opt c) (Z.shiftl 64 20);
  maxEventBytes := positiveInteger (maxEventBytes_opt c) (Z.shiftl 1 20);
  quantumBytes := positiveInteger (quantumBytes_opt c) (Z.shiftl 64 10);
  maxArtifactEventsPerDaemon := positiveInteger (maxArtifactEventsPerDaemon_opt c) 256;
  maxArtifactBytesPerDaemon := positiveInteger (maxArtifactBytesPerDaemon_opt c) (Z.shiftl 8 20);
  maxArtifactEvents := positiveInteger (maxArtifactEvents_opt c) 10000;
  maxArtifactBytes := positiveInteger (maxArtifactBytes_opt c) (Z.shiftl 32 20);
|}.

Definition new_queue (c : FairIngressQueueConfig) : Queue := {|
  limits := constructor_limits c;
  daemons := ∅; usage := ∅; activeDaemonIds := []; activeIndex := ∅;
  reserved := []; nextDaemon := 0; queuedCount := 0; totalCount := 0; totalBytes := 0;
  totalArtifactCount := 0; totalArtifactBytes := 0;
|}.

Definition default_config : FairIngressQueueConfig := {|
  maxEventsPerDaemon_opt := JUndef; maxBytesPerDaemon_opt := JUndef;
  maxEvents_opt := JUndef; maxBytes_opt := JUndef; maxEventBytes_opt := JUndef;
  quantumBytes_opt := JUndef; maxArtifactEventsPerDaemon_opt := JUndef;
  maxArtifactBytesPerDaemon_opt := JUndef; maxArtifactEvents_opt := JUndef;
  maxArtifactBytes_opt := JUndef;
|}.

(** Field updates of the two mutable records. *)

Definition with_lanes (d : DaemonQueue) (l : Lanes) : DaemonQueue := {|
  byPriority := l; dq_bytes := dq_bytes d; dq_count := dq_count d;
  deficit := deficit d; priorityCursor := priorityCursor d |}.

Definition add_queued (d : DaemonQueue) (count bytes : Z) : DaemonQueue := {|
  byPriority := byPriority d; dq_bytes := dq_bytes d + bytes; dq_count := dq_count d + count;
  deficit := deficit d; priorityCursor := priorityCursor d |}.

Definition add_deficit (x : Z) (d : DaemonQueue) : DaemonQueue := {|
  byPriority := byPriority d; dq_bytes := dq_bytes d; dq_count := dq_count d;
  deficit := deficit d + x; priorityCursor := priorityCursor d |}.

Definition with_cursor (d : DaemonQueue) (c : nat) : DaemonQueue := {|
  byPriority := byPriority d; dq_bytes := dq_bytes d; dq_count := dq_count d;
  deficit := deficit d; priorityCursor := c |}.

Definition with_daemons (q : Queue) (m : gmap string DaemonQueue) : Queue := {|
  limits := limits q; daemons := m; usage := usage q;
  activeDaemonIds := activeDaemonIds q; activeIndex := activeIndex q;
  reserved := reserved q; nextDaemon := nextDaemon q; queuedCount := queuedCount q;
  totalCount := totalCount q; totalBytes := totalBytes q;
  totalArtifactCount := totalArtifactCount q; totalArtifactBytes := totalArtifactBytes q |}.

Definition with_ring (q : Queue) (m : gmap string DaemonQueue) (ids : list string)
    (ix : gmap string nat) (next : nat) : Queue := {|
  limits := limits q; daemons := m; usage := usage q;
  activeDaemonIds := ids; activeIndex := ix;
  reserved := reserved q; nextDaemon := next; queuedCount := queuedCount q;
  totalCount := totalCount q; totalBytes := totalBytes q;
  totalArtifactCount := totalArtifactCount q; totalArtifactBytes := totalArtifactBytes q |}.

Definition with_reserved (q : Queue) (r : list IngressEnvelope) : Queue := {|
  limits := limits q; daemons := daemons q; usage := usage q;
  activeDaemonIds := activeDaemonIds q; activeIndex := activeIndex q;
  reserved := r; nextDaemon := nextDaemon q; queuedCount := queuedCount q;
  totalCount := totalCount q; totalBytes := totalBytes q;
  totalArtifactCount := totalArtifactCount q; totalArtifactBytes := totalArtifactBytes q |}.

Definition add_queuedCount (q : Queue) (n : Z) : Queue := {|
  limits := limits q; daemons := daemons q; usage := usage q;
  activeDaemonIds := activeDaemonIds q; activeIndex := activeIndex q;
  reserved := reserved q; nextDaemon := nextDaemon q; queuedCount := queuedCount q + n;
  totalCount := totalCount q; totalBytes := totalBytes q;
  totalArtifactCount := totalArtifactCount q; totalArtifactBytes := totalArtifactBytes q |}.

(** The usage map and the four totals, charged by [n] events of [bytes] bytes. *)
Definition charge (q : Queue) (u : gmap string DaemonUsage) (n bytes : Z) (artifact : bool) : Queue := {|
  limits := limits q; daemons := daemons q; usage := u;
  activeDaemonIds := activeDaemonIds q; activeIndex := activeIndex q;
  reserved := reserved q; nextDaemon := nextDaemon q; queuedCount := queuedCount q;
  totalCount := totalCount q + n; totalBytes := totalBytes q + bytes;
  totalArtifactCount := totalArtifactCount q + (if artifact then n else 0);
  totalArtifactBytes := totalArtifactBytes q + (if artifact then bytes else 0) |}.

Definition charge_usage (u : DaemonUsage) (n bytes : Z) (artifact : bool) : DaemonUsage := {|
  us_count := us_count u + n; us_bytes := us_bytes u + bytes;
  artifactCount := artifactCount u + (if artifact then n else 0);
  artifactBytes := artifactBytes u + (if artifact then bytes else 0) |}.

Definition no_usage : DaemonUsage :=
  {| us_count := 0; us_bytes := 0; artifactCount := 0; artifactBytes := 0 |}.

(** ** Private methods *)

Definition toQueued (e : IngressEnvelope) : QueuedEnvelope :=
  {| event := e; payloadBytes := json_bytes (payload e) |}.

Definition newDaemonQueue : DaemonQueue := {|
  byPriority := {| controlLane := []; liveLane := []; replayLane := []; aggregateLane := [] |};
  dq_bytes := 0; dq_count := 0; deficit := 0; priorityCursor := 0 |}.

(** The daemon's queue, created and appended to the ring when absent. *)
Definition ensureDaemon (q : Queue) (id : string) : Queue * DaemonQueue :=
  match daemons q !! id with
  | Some d => (q, d)
  | None =>
      (with_ring q (<[id := newDaemonQueue]> (daemons q))
         (activeDaemonIds q ++ [id])
         (<[id := length (activeDaemonIds q)]> (activeIndex q)) (nextDaemon q),
       newDaemonQueue)
  end.

(** [daemon] is the object stored in the map, so its update is stored back. *)
Definition accountQueuedAdd (q : Queue) (id : string) (d : DaemonQueue) (bytes : Z) : Queue :=
  add_queuedCount (with_daemons q (<[id := add_queued d 1 bytes]> (daemons q))) 1.

Definition insertBack (q : Queue) (x : QueuedEnvelope) : Queue :=
  let id := daemonId (event x) in
  let p := priority (event x) in
  let '(q, d) := ensureDaemon q id in
  let d := with_lanes d (set_lane (byPriority d) p (lane (byPriority d) p ++ [x])) in
  let q := accountQueuedAdd q id d (payloadBytes x) in
  let u := charge_usage (default no_usage (usage q !! id)) 1 (payloadBytes x)
             (isDocumentArtifact (event x)) in
  charge q (<[id := u]> (usage q)) 1 (payloadBytes x) (isDocumentArtifact (event x)).

Definition insertFront (q : Queue) (x : QueuedEnvelope) : Queue :=
  let id := daemonId (event x) in
  let p := priority (event x) in
  let '(q, d) := ensureDaemon q id in
  let d := with_lanes d (set_lane (byPriority d) p (x :: lane (byPriority d) p)) in
  accountQueuedAdd q id d (payloadBytes x).

(** [activeDaemonIds.pop()]: the remaining ids and the last one. *)
Definition pop_last (ids : list string) : list string * option string :=
  (removelast ids, last ids).

Definition removeDaemon (q : Queue) (id : string) : Queue :=
  match activeIndex q !! id with
  | None => q
  | Some index =>
      let '(ids, popped) := pop_last (activeDaemonIds q) in
      let ix := delete id (activeIndex q) in
      let '(ids, ix) :=
        match popped with
        | Some l =>
            if negb (bool_decide (l = EmptyString)) && negb (bool_decide (l = id))
            then (<[index := l]> ids, <[l := index]> ix)
            else (ids, ix)
        | None => (ids, ix)
        end in
      let next := if (length ids =? 0)%nat then 0%nat
                  else if (index <? nextDaemon q)%nat then (nextDaemon q - 1)%nat
                  else nextDaemon q in
      with_ring q (delete id (daemons q)) ids ix (next `mod` Nat.max 1 (length ids))%nat
  end.

(** [Throws] is the invariant violation: the lane was empty. *)
Definition removeFront (q : Queue) (id : string) (d : DaemonQueue) (p : PriorityClass)
    : outcome Queue :=
  match lane (byPriority d) p with
  | [] => Throws "ingress queue invariant violated"
  | x :: rest =>
      let d := add_queued (with_lanes d (set_lane (byPriority d) p rest)) (-1) (- payloadBytes x) in
      let q := add_queuedCount (with_daemons q (<[id := d]> (daemons q))) (-1) in
      Returns (if dq_count d =? 0 then removeDaemon q id else q)
  end.

Definition nextActiveDaemon (q : Queue) : Queue * option string :=
  let n := length (activeDaemonIds q) in
  if (n =? 0)%nat then (q, None)
  else
    let index := (nextDaemon q `mod` n)%nat in
    (with_ring q (daemons q) (activeDaemonIds q) (activeIndex q) ((index + 1) `mod` n)%nat,
     activeDaemonIds q !! index).

Definition eligible (d : DaemonQueue) (remaining : Z) (p : PriorityClass) : option QueuedEnvelope :=
  match lane (byPriority d) p with
  | [] => None
  | c :: _ =>
      if deficit d <? payloadBytes c then None
      else if remaining <? payloadBytes c then None
      else Some c
  end.

(** The [for] loop of [nextEligible] over the offsets [offset .. 8]; the cursor
    returned is the one the found candidate sets. *)
Fixpoint nextEligible_from (todo offset : nat) (d : DaemonQueue) (remaining : Z)
    : option (QueuedEnvelope * nat) :=
  match todo with
  | O => None
  | S todo' =>
      let n := length prioritySchedule in
      let index := ((priorityCursor d + offset) `mod` n)%nat in
      match prioritySchedule !! index with
      | None => nextEligible_from todo' (S offset) d remaining
      | Some p =>
          match eligible d remaining p with
          | Some c => Some (c, (index + 1) `mod` n)%nat
          | None => nextEligible_from todo' (S offset) d remaining
          end
      end
  end.

Definition nextEligible (d : DaemonQueue) (remaining : Z) : option (QueuedEnvelope * nat) :=
  nextEligible_from (length prioritySchedule) 0 d remaining.

(** [WeakSet.add] and [WeakSet.delete], which compare object identities. *)
Definition same_object (e f : IngressEnvelope) : bool := obj e =? obj f.

Definition reserve (e : IngressEnvelope) (r : list IngressEnvelope) : list IngressEnvelope :=
  if existsb (same_object e) r then r else e :: r.

Definition unreserve (e : IngressEnvelope) (r : list IngressEnvelope) : list IngressEnvelope :=
  bfilter (λ f, negb (same_object e f)) r.

(** [perDaemon.get(id) ?? 0]. *)
Definition taken (perDaemon : gmap string Z) (id : string) : Z :=
  default 0 (perDaemon !! id).

Record DrainState : Type := {
  dr_queue : Queue;
  batch : list IngressEnvelope;
  perDaemon : gmap string Z;
  dr_bytes : Z;
  stalled : Z;
}.

(** The loop of [drain]; [visits] counts down from [maxVisits]. *)
Fixpoint drain_loop (visits : nat) (maxRows maxBytes perDaemonLimit : Z) (relaxed : bool)
    (s : DrainState) : outcome DrainState :=
  match visits with
  | O => Returns s
  | S visits' =>
      let q := dr_queue s in
      if negb ((len (batch s) <? maxRows) && (0 <? len (activeDaemonIds q))) then Returns s
      else
        let '(q, next) := nextActiveDaemon q in
        let s := {| dr_queue := q; batch := batch s; perDaemon := perDaemon s;
                    dr_bytes := dr_bytes s; stalled := stalled s |} in
        match next with
        | None => Returns s
        | Some id =>
            if bool_decide (id = EmptyString) then Returns s
            else
              match daemons q !! id with
              | None => drain_loop visits' maxRows maxBytes perDaemonLimit relaxed s
              | Some d =>
                  let d := add_deficit (quantumBytes (limits q)) d in
                  let q := with_daemons q (<[id := d]> (daemons q)) in
                  let s := {| dr_queue := q; batch := batch s; perDaemon := perDaemon s;
                              dr_bytes := dr_bytes s; stalled := stalled s |} in
                  let skip := {| dr_queue := q; batch := batch s; perDaemon := perDaemon s;
                                 dr_bytes := dr_bytes s; stalled := stalled s + 1 |} in
                  if perDaemonLimit <=? taken (perDaemon s) id then
                    if len (activeDaemonIds q) <=? stalled skip then Returns skip
                    else drain_loop visits' maxRows maxBytes perDaemonLimit relaxed skip
                  else
                    match nextEligible d (maxBytes - dr_bytes s) with
                    | None =>
                        if (len (activeDaemonIds q) <=? stalled skip)
                           && (relaxed || (0 <? len (batch s)))
                        then Returns skip
                        else drain_loop visits' maxRows maxBytes perDaemonLimit relaxed skip
                    | Some (x, cursor) =>
                        let d := with_cursor d cursor in
                        let q := with_daemons q (<[id := d]> (daemons q)) in
                        try! q := removeFront q id d (priority (event x)) in
                        let q := with_reserved q (reserve (event x) (reserved q)) in
                        (* [daemon.deficit -= ...]: without effect on a daemon
                           that [removeFront] took out of the map. *)
                        let q := with_daemons q
                                   (alter (add_deficit (- payloadBytes x)) id (daemons q)) in
                        drain_loop visits' maxRows maxBytes perDaemonLimit relaxed
                          {| dr_queue := q;
                             batch := batch s ++ [event x];
                             perDaemon := <[id := taken (perDaemon s) id + 1]> (perDaemon s);
                             dr_bytes := dr_bytes s + payloadBytes x;
                             stalled := 0 |}
                    end
              end
        end
  end.

Definition maxVisits (maxRows : Z) (q : Queue) : nat :=
  (Z.to_nat (Z.max 1 maxRows) * Nat.max 1 (length (activeDaemonIds q)) * 32)%nat.

Definition drain (q : Queue) (batch : list IngressEnvelope) (perDaemon : gmap string Z)
    (maxRows maxBytes perDaemonLimit initialBytes : Z) (relaxed : bool) : outcome DrainState :=
  drain_loop (maxVisits maxRows q) maxRows maxBytes perDaemonLimit relaxed
    {| dr_queue := q; batch := batch; perDaemon := perDaemon;
       dr_bytes := initialBytes; stalled := 0 |}.

Definition batchBytes (b : list IngressEnvelope) : Z :=
  foldl (λ total e, total + payloadBytes (toQueued e)) 0 b.

Definition backpressureState (r : FlowReason) (blocked : option Z) : FlowControlState := {|
  window := 1;
  retryAfterMs := if bool_decide (r = event_too_large) then 0 else 25;
  reason := r;
  blockedSeq := blocked |}.

(** ** Public methods *)

Definition enqueue (q : Queue) (e : IngressEnvelope) : Queue * EnqueueResult :=
  let x := toQueued e in
  let l := limits q in
  if Z.min (maxEventBytes l) (Z.min (maxBytesPerDaemon l) (maxBytes l)) <? payloadBytes x then
    (q, Backpressured (backpressureState event_too_large (Some (seq e))))
  else
    let u := default no_usage (usage q !! daemonId e) in
    if isDocumentArtifact e
       && ((maxArtifactEventsPerDaemon l <=? artifactCount u)
           || (maxArtifactBytesPerDaemon l <? artifactBytes u + payloadBytes x)
           || (maxArtifactEvents l <=? totalArtifactCount q)
           || (maxArtifactBytes l <? totalArtifactBytes q + payloadBytes x))
    then (q, Backpressured (backpressureState artifact_backpressure None))
    else if (maxEventsPerDaemon l <=? us_count u)
            || (maxBytesPerDaemon l <? us_bytes u + payloadBytes x)
            || (maxEvents l <=? totalCount q)
            || (maxBytes l <? totalBytes q + payloadBytes x)
    then (q, Backpressured (backpressureState ingest_backpressure None))
    else (insertBack q x, Accepted).

(** The loop of [requeueFront] runs from the last event to the first. *)
Fixpoint requeue_loop (q : Queue) (events_rev : list IngressEnvelope) : Queue * outcome unit :=
  match events_rev with
  | [] => (q, Returns tt)
  | e :: rest =>
      if existsb (same_object e) (reserved q)
      then requeue_loop (insertFront (with_reserved q (unreserve e (reserved q))) (toQueued e)) rest
      else (q, Throws "ingress batch is not reserved")
  end.

Definition requeueFront (q : Queue) (events : list IngressEnvelope) : Queue * outcome unit :=
  requeue_loop q (rev events).

Fixpoint commitBatch (q : Queue) (events : list IngressEnvelope) : Queue * outcome unit :=
  match events with
  | [] => (q, Returns tt)
  | e :: rest =>
      let x := toQueued e in
      if negb (existsb (same_object e) (reserved q))
      then (q, Throws "ingress batch is not reserved")
      else
        let q := with_reserved q (unreserve e (reserved q)) in
        match usage q !! daemonId e with
        | None => (q, Throws "ingress usage invariant violated")
        | Some u =>
            let u := charge_usage u (-1) (- payloadBytes x) (isDocumentArtifact e) in
            let usage' := if us_count u =? 0 then delete (daemonId e) (usage q)
                          else <[daemonId e := u]> (usage q) in
            commitBatch (charge q usage' (-1) (- payloadBytes x) (isDocumentArtifact e)) rest
        end
  end.

Definition perDaemonCap (rows : Z) (fraction : option Q) : Z :=
  let f := match fraction with Some f => f | None => 1%Q end in
  let f := if Qle_bool 1 f then 1%Q else if Qle_bool f 0 then 0%Q else f in
  Z.max 1 (Qfloor (inject_Z rows * f)).

Definition takeBatch (q : Queue) (l : BatchLimits) : outcome (Queue * list IngressEnvelope) :=
  let rows := nonNegativeInteger (maxRows l) 0 in
  let bytes := nonNegativeInteger (batchMaxBytes l) 0 in
  if (rows =? 0) || (bytes =? 0) || (len (activeDaemonIds q) =? 0) then Returns (q, [])
  else
    let limit := perDaemonCap rows (maxPerDaemonFraction l) in
    let hadReadyPeers := 1 <? len (activeDaemonIds q) in
    try! s := drain q [] ∅ rows bytes limit 0 false in
    let used := batchBytes (batch s) in
    if negb hadReadyPeers && (len (batch s) <? rows) then
      try! s := drain (dr_queue s) (batch s) (perDaemon s) rows bytes rows used true in
      Returns (dr_queue s, batch s)
    else Returns (dr_queue s, batch s).

Definition size (q : Queue) : Z := queuedCount q.
