(* ===== verification/FairQueueFacts.v ===== *)
(** * FairQueueFacts: the invariant of the ingress queue.

    [wf] relates the bookkeeping of [FairIngressQueue] (ring of active daemons,
    index, counters, usage) to the events the queue actually holds, and every
    method preserves it.  [drain_step] is the loop of [drain] as a step relation:
    a visit that skips a daemon, or a visit that takes the head of a lane. *)

From Stdlib Require Import QArith.
From S2P Require Import Prelude JsValue EventPolicy FairQueue.

#[local] Open Scope Z_scope.

(** ** The ring: a list of ids and the index of each *)

Definition ring_ok (ids : list string) (ix : gmap string nat) : Prop :=
  ∀ id i, ix !! id = Some i ↔ ids !! i = Some id.

Lemma ring_ok_NoDup ids ix : ring_ok ids ix → NoDup ids.
Proof.
  intros H. apply NoDup_alt. intros i j x Hi Hj.
  apply H in Hi, Hj. congruence.
Qed.

Lemma ring_ok_push ids ix id :
  ring_ok ids ix → id ∉ ids → ring_ok (ids ++ [id]) (<[id := length ids]> ix).
Proof.
  intros H Hid x i. destruct (decide (x = id)) as [->|Hx].
  - rewrite lookup_insert_eq. split.
    + intros [= <-]. rewrite lookup_app_r, Nat.sub_diag by lia. done.
    + intros Hi. apply lookup_app_Some in Hi as [Hi|[Hle Hi]].
      * exfalso. by apply Hid, (list_elem_of_lookup_2 _ i).
      * apply list_lookup_singleton_Some in Hi as [? _]. f_equal. lia.
  - rewrite lookup_insert_ne by done. rewrite (H x i). split.
    + intros Hi. by apply lookup_app_l_Some.
    + intros Hi. apply lookup_app_Some in Hi as [Hi|[_ Hi]]; [done|].
      apply list_lookup_singleton_Some in Hi as [_ ?]. congruence.
Qed.

(** The ring after [removeDaemon]: the last id takes the freed slot. *)
Definition ring_remove (ids : list string) (ix : gmap string nat) (index : nat) (id : string)
    : list string * gmap string nat :=
  match last ids with
  | Some l =>
      if negb (bool_decide (l = EmptyString)) && negb (bool_decide (l = id))
      then (<[index := l]> (removelast ids), <[l := index]> (delete id ix))
      else (removelast ids, delete id ix)
  | None => (removelast ids, delete id ix)
  end.

(** The removed id is the last one: it is popped. *)
Lemma ring_pop_last front ix l :
  ring_ok (front ++ [l]) ix → ring_ok front (delete l ix).
Proof.
  intros H x i. pose proof (ring_ok_NoDup _ _ H) as (_ & Hd & _)%NoDup_app.
  destruct (decide (x = l)) as [->|Hx].
  - rewrite lookup_delete_eq. split; [done|]. intros Hi. exfalso.
    apply (Hd l); [by eapply list_elem_of_lookup_2|set_solver].
  - rewrite lookup_delete_ne by done. rewrite (H x i). split.
    + intros Hi. apply lookup_app_Some in Hi as [Hi|[_ Hi]]; [done|].
      apply list_lookup_singleton_Some in Hi as [_ ?]. congruence.
    + intros Hi. by apply lookup_app_l_Some.
Qed.

(** It is another one: the popped id takes its slot. *)
Lemma ring_swap_last front ix l index id :
  ring_ok (front ++ [l]) ix → front !! index = Some id →
  ring_ok (<[index := l]> front) (<[l := index]> (delete id ix)).
Proof.
  intros H Hid x i. pose proof (lookup_lt_Some _ _ _ Hid) as Hlt.
  pose proof (ring_ok_NoDup _ _ H) as (Hnd & Hd & _)%NoDup_app.
  assert (Hl : l ∉ front) by (intros ?; apply (Hd l); set_solver).
  destruct (decide (i = index)) as [->|Hi'].
  - rewrite list_lookup_insert_eq by done. destruct (decide (x = l)) as [->|Hx].
    + by rewrite lookup_insert_eq.
    + rewrite lookup_insert_ne by done. destruct (decide (x = id)) as [->|Hxid].
      * rewrite lookup_delete_eq. split; [done|congruence].
      * rewrite lookup_delete_ne, (H x index), lookup_app_l by done. split; congruence.
  - rewrite list_lookup_insert_ne by done. destruct (decide (x = l)) as [->|Hx].
    + rewrite lookup_insert_eq. split; [congruence|].
      intros Hi. exfalso. by apply Hl, (list_elem_of_lookup_2 _ i).
    + rewrite lookup_insert_ne by done. destruct (decide (x = id)) as [->|Hxid].
      * rewrite lookup_delete_eq. split; [done|]. intros Hi.
        exfalso. apply Hi'. by eapply NoDup_lookup.
      * rewrite lookup_delete_ne, (H x i) by done. split.
        -- intros Hi. apply lookup_app_Some in Hi as [Hi|[_ Hi]]; [done|].
           apply list_lookup_singleton_Some in Hi as [_ ?]. congruence.
        -- intros Hi. by apply lookup_app_l_Some.
Qed.

Lemma swap_last_perm (front : list string) l index id :
  front !! index = Some id → front ++ [l] ≡ₚ id :: <[index := l]> front.
Proof.
  intros Hid. pose proof (lookup_lt_Some _ _ _ Hid).
  rewrite insert_take_drop by done.
  rewrite <- (take_drop_middle front index id Hid) at 1.
  rewrite <- app_assoc. simpl. rewrite <- Permutation_middle.
  apply Permutation_skip, Permutation_app_head, Permutation_sym, Permutation_cons_append.
Qed.

(** Exactly the removed id leaves the ring, and the index stays consistent. *)
Lemma ring_remove_ok ids ix index id :
  ring_ok ids ix → EmptyString ∉ ids → ix !! id = Some index →
  ring_ok (ring_remove ids ix index id).1 (ring_remove ids ix index id).2
  ∧ ids ≡ₚ id :: (ring_remove ids ix index id).1.
Proof.
  intros H Hne Hix.
  pose proof (proj1 (H id index) Hix) as Hid.
  destruct ids as [|l front _] using rev_ind; [done|].
  unfold ring_remove. rewrite last_snoc, removelast_last.
  rewrite bool_decide_false; [|intros ->; apply Hne; set_solver]. simpl.
  apply lookup_app_Some in Hid as [Hid|[Hle Hid]].
  - rewrite bool_decide_false.
    + split; [by apply ring_swap_last | by apply swap_last_perm].
    + intros ->. pose proof (ring_ok_NoDup _ _ H) as (_ & Hd & _)%NoDup_app.
      apply (Hd id); [by eapply list_elem_of_lookup_2|set_solver].
  - apply list_lookup_singleton_Some in Hid as [? ->].
    rewrite bool_decide_true by done. simpl.
    split; [by apply ring_pop_last | symmetry; apply Permutation_cons_append].
Qed.

(** ** The events a queue holds *)

Definition items (d : DaemonQueue) : list QueuedEnvelope :=
  controlLane (byPriority d) ++ liveLane (byPriority d)
    ++ replayLane (byPriority d) ++ aggregateLane (byPriority d).

Definition queued_items (m : gmap string DaemonQueue) : list QueuedEnvelope :=
  map_to_list m ≫= λ kv, items kv.2.

(** Events waiting in a lane, and events charged against the budgets: those and
    the ones of batches taken but not yet committed or requeued. *)
Definition queued (q : Queue) : list IngressEnvelope := event <$> queued_items (daemons q).

Definition admitted (q : Queue) : list IngressEnvelope := queued q ++ reserved q.

Definition bytes_of (e : IngressEnvelope) : Z := payloadBytes (toQueued e).

Definition from (id : string) (e : IngressEnvelope) : bool := bool_decide (daemonId e = id).

(** The lane of a daemon, empty when the daemon is not active. *)
Definition lane_of (q : Queue) (id : string) (p : PriorityClass) : list QueuedEnvelope :=
  match daemons q !! id with
  | Some d => lane (byPriority d) p
  | None => []
  end.

Lemma queued_items_delete m id d :
  m !! id = Some d → queued_items m ≡ₚ items d ++ queued_items (delete id m).
Proof. intros H. unfold queued_items. by rewrite <- (map_to_list_delete m id d H). Qed.

Lemma queued_items_insert m id d :
  queued_items (<[id := d]> m) ≡ₚ items d ++ queued_items (delete id m).
Proof.
  rewrite (queued_items_delete _ id d) by apply lookup_insert_eq.
  by rewrite delete_insert_eq.
Qed.

(** The lanes other than [p]. *)
Definition other_lanes (l : Lanes) (p : PriorityClass) : list QueuedEnvelope :=
  lane (set_lane l p []) Control ++ lane (set_lane l p []) Live
    ++ lane (set_lane l p []) Replay ++ lane (set_lane l p []) Aggregate.

Lemma items_lane d p : items d ≡ₚ lane (byPriority d) p ++ other_lanes (byPriority d) p.
Proof. destruct d as [[] ? ? ? ?], p; unfold items, other_lanes; simpl; solve_Permutation. Qed.

Lemma other_lanes_set l p x : other_lanes (set_lane l p x) p = other_lanes l p.
Proof. by destruct l, p. Qed.

Lemma lane_set l p x : lane (set_lane l p x) p = x.
Proof. by destruct l, p. Qed.

Lemma lane_set_ne l p p' x : p ≠ p' → lane (set_lane l p x) p' = lane l p'.
Proof. by destruct l, p, p'. Qed.

Lemma items_set_lane d p x :
  items (with_lanes d (set_lane (byPriority d) p x)) ≡ₚ x ++ other_lanes (byPriority d) p.
Proof. rewrite (items_lane _ p). simpl. by rewrite lane_set, other_lanes_set. Qed.

Lemma elem_of_items x d : x ∈ items d ↔ ∃ p, x ∈ lane (byPriority d) p.
Proof.
  unfold items. rewrite !elem_of_app. split.
  - intros [?|[?|[?|?]]]; [by exists Control|by exists Live|by exists Replay|by exists Aggregate].
  - intros [[] ?]; auto.
Qed.

#[export] Hint Rewrite lane_set other_lanes_set : pc.

(** ** The invariant *)

(** What a daemon's queue says about itself is true of its lanes, and a lane
    holds events of that daemon and class only. *)
Record daemon_ok (id : string) (d : DaemonQueue) : Prop := {
  ok_id : id ≠ EmptyString;
  ok_nonempty : items d ≠ [];
  ok_count : dq_count d = len (items d);
  ok_bytes : dq_bytes d = sumZ payloadBytes (items d);
  ok_deficit : 0 ≤ deficit d;
  ok_lane : ∀ p x, x ∈ lane (byPriority d) p →
    x = toQueued (event x) ∧ daemonId (event x) = id ∧ priority (event x) = p;
}.

(** The usage entry that a set of admitted events must have. *)
Definition usage_of (es : list IngressEnvelope) : option DaemonUsage :=
  match es with
  | [] => None
  | _ => Some {| us_count := len es; us_bytes := sumZ bytes_of es;
                 artifactCount := len (bfilter isDocumentArtifact es);
                 artifactBytes := sumZ bytes_of (bfilter isDocumentArtifact es) |}
  end.

Record accounted (q : Queue) (es : list IngressEnvelope) : Prop := {
  acc_objs : NoDup (obj <$> es);
  acc_ids : ∀ e, e ∈ es → daemonId e ≠ EmptyString;
  acc_usage : ∀ id, usage q !! id = usage_of (bfilter (from id) es);
  acc_count : totalCount q = len es;
  acc_bytes : totalBytes q = sumZ bytes_of es;
  acc_artifacts : totalArtifactCount q = len (bfilter isDocumentArtifact es);
  acc_artifactBytes : totalArtifactBytes q = sumZ bytes_of (bfilter isDocumentArtifact es);
}.

(** The ring, the daemon queues and the number of queued events agree. *)
Record shape (q : Queue) : Prop := {
  sh_ring : ring_ok (activeDaemonIds q) (activeIndex q);
  sh_dom : ∀ id, id ∈ activeDaemonIds q ↔ is_Some (daemons q !! id);
  sh_next : (nextDaemon q < Nat.max 1 (length (activeDaemonIds q)))%nat;
  sh_daemons : ∀ id d, daemons q !! id = Some d → daemon_ok id d;
  sh_size : queuedCount q = len (queued q);
}.

(** The constructor resolves every limit to a positive integer. *)
Record limits_ok (l : Limits) : Prop := {
  pos_eventsPerDaemon : 0 < maxEventsPerDaemon l;
  pos_bytesPerDaemon : 0 < maxBytesPerDaemon l;
  pos_events : 0 < maxEvents l;
  pos_bytes : 0 < maxBytes l;
  pos_eventBytes : 0 < maxEventBytes l;
  pos_quantum : 0 < quantumBytes l;
  pos_artifactsPerDaemon : 0 < maxArtifactEventsPerDaemon l;
  pos_artifactBytesPerDaemon : 0 < maxArtifactBytesPerDaemon l;
  pos_artifacts : 0 < maxArtifactEvents l;
  pos_artifactBytes : 0 < maxArtifactBytes l;
}.

Lemma positiveInteger_pos v fallback : 0 < fallback → 0 < positiveInteger v fallback.
Proof.
  unfold positiveInteger. destruct v; try done.
  destruct (is_safe_integer z && (0 <? z)) eqn:E; [|done]. bool_hyps. lia.
Qed.

Lemma constructor_limits_ok c : limits_ok (constructor_limits c).
Proof. split; apply positiveInteger_pos; done. Qed.

Definition wf (q : Queue) : Prop :=
  shape q ∧ accounted q (admitted q) ∧ limits_ok (limits q).

Lemma usage_of_perm es es' : es ≡ₚ es' → usage_of es = usage_of es'.
Proof.
  intros H. destruct es as [|e es], es' as [|e' es']; try done.
  - by apply Permutation_nil_l in H.
  - by apply Permutation_nil_r in H.
  - pose proof (bfilter_perm isDocumentArtifact _ _ H) as Ha. unfold usage_of.
    rewrite (Permutation_length H), (Permutation_length Ha).
    by rewrite (sumZ_perm bytes_of _ _ H), (sumZ_perm bytes_of _ _ Ha).
Qed.

Lemma accounted_perm q es es' : es ≡ₚ es' → accounted q es → accounted q es'.
Proof.
  intros H []; split; rewrite <- ?H; auto.
  - intros e He. apply acc_ids0. by rewrite H.
  - intros id. rewrite acc_usage0. apply usage_of_perm. by rewrite H.
Qed.

(** The accounting reads the usage map and the totals only. *)
Lemma accounted_ext q q' es :
  usage q' = usage q → totalCount q' = totalCount q → totalBytes q' = totalBytes q →
  totalArtifactCount q' = totalArtifactCount q →
  totalArtifactBytes q' = totalArtifactBytes q →
  accounted q es → accounted q' es.
Proof. intros H1 H2 H3 H4 H5 []; split; intros; rewrite ?H1, ?H2, ?H3, ?H4, ?H5; auto. Qed.

Lemma queued_perm q m :
  queued_items (daemons q) ≡ₚ m → queued q ≡ₚ event <$> m.
Proof. intros H. unfold queued. by rewrite H. Qed.

Lemma shape_ids q : shape q → EmptyString ∉ activeDaemonIds q.
Proof.
  intros Hq Hin. apply (sh_dom q Hq) in Hin as [d Hd].
  by apply (sh_daemons q Hq), ok_id in Hd.
Qed.

(** ** Steps that leave the lanes alone *)

(** Replacing a daemon's queue by one with the same lanes. *)
Lemma shape_update q id d d' :
  shape q → daemons q !! id = Some d →
  byPriority d' = byPriority d → dq_count d' = dq_count d → dq_bytes d' = dq_bytes d →
  0 ≤ deficit d' →
  let q' := with_daemons q (<[id := d']> (daemons q)) in
  shape q' ∧ queued q' ≡ₚ queued q ∧ (∀ id' p, lane_of q' id' p = lane_of q id' p).
Proof.
  intros Hq Hd Hl Hc Hb Hdef. simpl.
  assert (Hi : items d' = items d) by (unfold items; by rewrite Hl).
  assert (Hp : queued (with_daemons q (<[id:=d']> (daemons q))) ≡ₚ queued q).
  { apply queued_perm. simpl. rewrite queued_items_insert, Hi.
    symmetry. by apply queued_items_delete. }
  split_and!; [|done|].
  - destruct Hq as [Hr Hdom Hn Hds Hs]. split; simpl; auto.
    + intros id'. rewrite Hdom. destruct (decide (id' = id)) as [->|Hne].
      * rewrite lookup_insert_eq, Hd. split; by eexists.
      * by rewrite lookup_insert_ne.
    + intros id' d0. destruct (decide (id' = id)) as [->|Hne].
      * rewrite lookup_insert_eq. intros [= <-].
        destruct (Hds _ _ Hd) as [? ? ? ? ? Hlane].
        split; rewrite ?Hi, ?Hc, ?Hb, ?Hl; auto.
      * rewrite lookup_insert_ne by done. apply Hds.
    + rewrite Hs. by rewrite Hp.
  - intros id' p. unfold lane_of. simpl. destruct (decide (id' = id)) as [->|Hne].
    + by rewrite lookup_insert_eq, Hd, Hl.
    + by rewrite lookup_insert_ne.
Qed.

(** [nextActiveDaemon] returns an active daemon, and only moves the pointer. *)
Lemma nextActiveDaemon_spec q :
  shape q → (0 < length (activeDaemonIds q))%nat →
  ∃ id d, let n := length (activeDaemonIds q) in
    nextActiveDaemon q
    = (with_ring q (daemons q) (activeDaemonIds q) (activeIndex q)
         ((nextDaemon q + 1) `mod` n)%nat, Some id)
    ∧ activeDaemonIds q !! nextDaemon q = Some id ∧ daemons q !! id = Some d ∧ id ≠ EmptyString.
Proof.
  intros Hq Hn. pose proof (sh_next q Hq) as Hlt.
  assert (Hlt' : (nextDaemon q < length (activeDaemonIds q))%nat) by lia.
  destruct (lookup_lt_is_Some_2 _ _ Hlt') as [id Hid].
  pose proof (list_elem_of_lookup_2 _ _ _ Hid) as Hin.
  destruct (proj1 (sh_dom q Hq id) Hin) as [d Hd].
  exists id, d. simpl. unfold nextActiveDaemon.
  destruct (Nat.eqb_spec (length (activeDaemonIds q)) 0) as [?|_]; [lia|].
  rewrite (Nat.mod_small (nextDaemon q)) by done. rewrite Hid.
  split_and!; auto. intros ->. by apply (shape_ids q Hq).
Qed.

Lemma shape_advance q n :
  shape q → (n < Nat.max 1 (length (activeDaemonIds q)))%nat →
  shape (with_ring q (daemons q) (activeDaemonIds q) (activeIndex q) n).
Proof. intros [] ?; split; simpl; auto. Qed.

(** ** Inserting and removing one event *)

(** What [insertFront] and [insertBack] have in common: the event joins its lane. *)
Definition put_item (q : Queue) (x : QueuedEnvelope) (l : list QueuedEnvelope) : Queue :=
  let id := daemonId (event x) in
  let '(q, d) := ensureDaemon q id in
  accountQueuedAdd q id (with_lanes d (set_lane (byPriority d) (priority (event x)) l))
    (payloadBytes x).

Lemma ensureDaemon_spec q id :
  shape q → id ≠ EmptyString →
  let '(q1, d) := ensureDaemon q id in
  daemons q1 = <[id := d]> (daemons q) ∧ queuedCount q1 = queuedCount q
  ∧ ring_ok (activeDaemonIds q1) (activeIndex q1)
  ∧ (nextDaemon q1 < Nat.max 1 (length (activeDaemonIds q1)))%nat
  ∧ (∀ id', id' ∈ activeDaemonIds q1 ↔ id' = id ∨ id' ∈ activeDaemonIds q)
  ∧ (∀ p, lane (byPriority d) p = lane_of q id p)
  ∧ dq_count d = len (items d) ∧ dq_bytes d = sumZ payloadBytes (items d) ∧ 0 ≤ deficit d
  ∧ queued_items (daemons q) ≡ₚ items d ++ queued_items (delete id (daemons q)).
Proof.
  intros Hq Hne. unfold ensureDaemon, lane_of.
  destruct (daemons q !! id) as [d|] eqn:Hd.
  - destruct (sh_daemons q Hq _ _ Hd). destruct Hq as [Hr Hdom Hn Hds Hs].
    split_and!; auto.
    + by rewrite insert_id.
    + intros id'. split; [by right|]. intros [->|]; [|done]. rewrite Hdom. by eexists.
    + by apply queued_items_delete.
  - destruct Hq as [Hr Hdom Hn Hds Hs]. simpl.
    assert (Hin : id ∉ activeDaemonIds q)
      by (rewrite Hdom, Hd; intros [? ?]; done).
    split_and!; auto; try done.
    + by apply ring_ok_push.
    + rewrite length_app. simpl. lia.
    + intros id'. rewrite elem_of_app, list_elem_of_singleton. tauto.
    + intros []; done.
    + by rewrite delete_id.
Qed.

(** The queue of a daemon after an event joined lane [p]. *)
Lemma daemon_ok_put id d p x l :
  id ≠ EmptyString → x = toQueued (event x) → daemonId (event x) = id → priority (event x) = p →
  dq_count d = len (items d) → dq_bytes d = sumZ payloadBytes (items d) → 0 ≤ deficit d →
  (∀ p' y, y ∈ lane (byPriority d) p' →
     y = toQueued (event y) ∧ daemonId (event y) = id ∧ priority (event y) = p') →
  l ≡ₚ x :: lane (byPriority d) p →
  let d' := add_queued (with_lanes d (set_lane (byPriority d) p l)) 1 (payloadBytes x) in
  daemon_ok id d' ∧ items d' ≡ₚ x :: items d.
Proof.
  intros Hne Hx Hid Hp Hc Hb Hdef Hlane Hl. simpl.
  assert (Hitems : items (add_queued (with_lanes d (set_lane (byPriority d) p l)) 1
                            (payloadBytes x)) ≡ₚ x :: items d).
  { change (items (add_queued ?d' _ _)) with (items d').
    rewrite items_set_lane, Hl, (items_lane d p). done. }
  split; [|done]. split; simpl; auto.
  - intros H. rewrite H in Hitems. by apply Permutation_nil_cons in Hitems.
  - rewrite Hc, Hitems. simpl. lia.
  - rewrite Hb, Hitems. simpl. lia.
  - intros p' y. destruct (decide (p = p')) as [<-|Hpp].
    + rewrite lane_set, Hl, elem_of_cons. intros [->|Hy]; auto.
    + rewrite lane_set_ne by done. apply Hlane.
Qed.

Lemma shape_put q x l :
  let id := daemonId (event x) in
  let p := priority (event x) in
  shape q → id ≠ EmptyString → x = toQueued (event x) → l ≡ₚ x :: lane_of q id p →
  shape (put_item q x l) ∧ queued (put_item q x l) ≡ₚ event x :: queued q
  ∧ (∀ id' p', lane_of (put_item q x l) id' p'
               = if decide (id' = id ∧ p' = p) then l else lane_of q id' p').
Proof.
  simpl. intros Hq Hne Hx Hl. unfold put_item.
  pose proof (ensureDaemon_spec q (daemonId (event x)) Hq Hne) as He.
  destruct (ensureDaemon q (daemonId (event x))) as [q1 d].
  destruct He as (Hds & Hcnt & Hring & Hnext & Hids & Hlanes & Hc & Hb & Hdef & Hqi).
  assert (Hlane : ∀ p' y, y ∈ lane (byPriority d) p' →
    y = toQueued (event y) ∧ daemonId (event y) = daemonId (event x) ∧ priority (event y) = p').
  { intros p' y. rewrite Hlanes. unfold lane_of.
    destruct (daemons q !! daemonId (event x)) as [d0|] eqn:Hd0; [|by set_solver].
    by apply (sh_daemons q Hq). }
  rewrite <- Hlanes in Hl.
  destruct (daemon_ok_put _ d _ x l Hne Hx eq_refl eq_refl Hc Hb Hdef Hlane Hl) as [Hok Hit].
  assert (Hperm : queued (accountQueuedAdd q1 (daemonId (event x))
      (with_lanes d (set_lane (byPriority d) (priority (event x)) l)) (payloadBytes x))
      ≡ₚ event x :: queued q).
  { unfold queued. simpl. rewrite Hds, insert_insert_eq, queued_items_insert, Hit, Hqi.
    done. }
  split_and!; [|done|].
  - split; simpl; auto.
    + intros id'. rewrite Hids, (sh_dom q Hq), Hds, insert_insert_eq.
      destruct (decide (id' = daemonId (event x))) as [->|Hn].
      * rewrite lookup_insert_eq. split; [by eexists|by left].
      * rewrite lookup_insert_ne by done. naive_solver.
    + intros id' d'. rewrite Hds, insert_insert_eq.
      destruct (decide (id' = daemonId (event x))) as [->|Hn].
      * rewrite lookup_insert_eq. by intros [= <-].
      * rewrite lookup_insert_ne by done. apply (sh_daemons q Hq).
    + rewrite Hcnt, (sh_size q Hq), Hperm. simpl. lia.
  - intros id' p'. unfold lane_of. simpl. rewrite Hds, insert_insert_eq.
    destruct (decide (id' = daemonId (event x))) as [->|Hn].
    + rewrite lookup_insert_eq. simpl. destruct (decide (p' = priority (event x))) as [->|Hp].
      * rewrite lane_set. by rewrite decide_True.
      * rewrite lane_set_ne, decide_False by naive_solver. apply Hlanes.
    + rewrite lookup_insert_ne by done. by rewrite decide_False by naive_solver.
Qed.

Lemma insertFront_put q x :
  insertFront q x = put_item q x (x :: lane_of q (daemonId (event x)) (priority (event x))).
Proof.
  unfold insertFront, put_item, ensureDaemon, lane_of.
  destruct (daemons q !! daemonId (event x)), (priority (event x)); reflexivity.
Qed.

Lemma put_item_fields q x l :
  reserved (put_item q x l) = reserved q ∧ usage (put_item q x l) = usage q
  ∧ totalCount (put_item q x l) = totalCount q ∧ totalBytes (put_item q x l) = totalBytes q
  ∧ totalArtifactCount (put_item q x l) = totalArtifactCount q
  ∧ totalArtifactBytes (put_item q x l) = totalArtifactBytes q
  ∧ limits (put_item q x l) = limits q.
Proof.
  unfold put_item, ensureDaemon.
  destruct (daemons q !! daemonId (event x)); split_and!; reflexivity.
Qed.

(** [insertBack] puts the event at the back of its lane and charges it. *)
Lemma insertBack_put q x :
  let id := daemonId (event x) in
  let q1 := put_item q x (lane_of q id (priority (event x)) ++ [x]) in
  insertBack q x
  = charge q1 (<[id := charge_usage (default no_usage (usage q !! id)) 1 (payloadBytes x)
          (isDocumentArtifact (event x))]> (usage q)) 1 (payloadBytes x)
      (isDocumentArtifact (event x)).
Proof.
  simpl. unfold insertBack, put_item, ensureDaemon, lane_of.
  destruct (daemons q !! daemonId (event x)), (priority (event x)); reflexivity.
Qed.

(** The lane of [removeFront] loses its head, and the daemon leaves the ring
    when that was its last event. *)
Lemma daemon_ok_pop id d p x rest :
  daemon_ok id d → lane (byPriority d) p = x :: rest →
  let d' := add_queued (with_lanes d (set_lane (byPriority d) p rest)) (-1) (- payloadBytes x) in
  items d ≡ₚ x :: items d' ∧ dq_count d' = len (items d')
  ∧ (items d' ≠ [] → daemon_ok id d').
Proof.
  intros [Hne Hn Hc Hb Hdef Hlane] Hl. simpl.
  assert (Hit : items d ≡ₚ x :: items (add_queued (with_lanes d (set_lane (byPriority d) p rest))
                                         (-1) (- payloadBytes x))).
  { change (items (add_queued ?d' _ _)) with (items d').
    by rewrite items_set_lane, (items_lane d p), Hl. }
  split_and!; [done| |].
  - rewrite Hc, Hit. simpl. lia.
  - intros Hnn. split; simpl; auto.
    + rewrite Hc, Hit. simpl. lia.
    + rewrite Hb, Hit. simpl. lia.
    + intros p' y. destruct (decide (p = p')) as [<-|Hpp].
      * rewrite lane_set. intros Hy. apply Hlane. rewrite Hl. by right.
      * rewrite lane_set_ne by done. apply Hlane.
Qed.

Lemma removeDaemon_ring q id index :
  activeIndex q !! id = Some index →
  let r := ring_remove (activeDaemonIds q) (activeIndex q) index id in
  ∃ n, (n < Nat.max 1 (length r.1))%nat
       ∧ removeDaemon q id = with_ring q (delete id (daemons q)) r.1 r.2 n.
Proof.
  intros Hix. unfold removeDaemon, ring_remove. rewrite Hix. simpl.
  destruct (last (activeDaemonIds q)) as [l|];
    [destruct (negb _ && negb _)|]; simpl; eexists; (split; [|reflexivity]);
    apply Nat.mod_upper_bound; lia.
Qed.

(** Dropping a daemon whose lanes are empty keeps the shape. *)
Lemma shape_removeDaemon q id d :
  shape q → daemons q !! id = Some d →
  let q1 := add_queuedCount q (- len (items d)) in
  shape (removeDaemon q1 id) ∧ daemons (removeDaemon q1 id) = delete id (daemons q).
Proof.
  intros Hq Hd q1.
  assert (Hin : id ∈ activeDaemonIds q) by (apply (sh_dom q Hq); by eexists).
  apply list_elem_of_lookup in Hin as [index Hin].
  apply (sh_ring q Hq) in Hin as Hix.
  destruct (removeDaemon_ring q1 id index Hix) as (n & Hn & Heq).
  destruct (ring_remove_ok _ _ _ _ (sh_ring q Hq) (shape_ids q Hq) Hix) as [Hr Hperm].
  simpl in Heq, Hn. rewrite Heq. split; [|done]. clear Heq.
  set (r := ring_remove _ _ _ _) in *. clearbody r.
  pose proof (ring_ok_NoDup _ _ (sh_ring q Hq)) as Hnd. rewrite Hperm in Hnd.
  apply NoDup_cons in Hnd as [Hnot _].
  split; simpl; auto.
  - intros id'. destruct (decide (id' = id)) as [->|Hne].
    + rewrite lookup_delete_eq. split; [done|by intros [? ?]].
    + rewrite lookup_delete_ne, <- (sh_dom q Hq), Hperm by done. set_solver.
  - intros id' d'. rewrite lookup_delete_Some. intros [_ ?]. by apply (sh_daemons q Hq).
  - rewrite (sh_size q Hq). unfold queued. simpl. rewrite (queued_items_delete _ _ _ Hd).
    rewrite !length_fmap, length_app. lia.
Qed.

Lemma removeDaemon_fields q id :
  reserved (removeDaemon q id) = reserved q ∧ usage (removeDaemon q id) = usage q
  ∧ totalCount (removeDaemon q id) = totalCount q ∧ totalBytes (removeDaemon q id) = totalBytes q
  ∧ totalArtifactCount (removeDaemon q id) = totalArtifactCount q
  ∧ totalArtifactBytes (removeDaemon q id) = totalArtifactBytes q
  ∧ limits (removeDaemon q id) = limits q.
Proof.
  unfold removeDaemon. destruct (activeIndex q !! id); [|done]. simpl.
  destruct (last _); [destruct (negb _ && negb _)|]; simpl; done.
Qed.

(** The queue of the dropped daemon is irrelevant. *)
Lemma removeDaemon_forget q id d n :
  is_Some (activeIndex q !! id) →
  removeDaemon (add_queuedCount (with_daemons q (<[id := d]> (daemons q))) n) id
  = removeDaemon (add_queuedCount q n) id.
Proof.
  intros [i Hi]. unfold removeDaemon. simpl. rewrite Hi, delete_insert_eq. done.
Qed.

Lemma lane_of_pop q q' id d d' p rest :
  daemons q !! id = Some d → daemons q' = <[id := d']> (daemons q) →
  byPriority d' = set_lane (byPriority d) p rest →
  ∀ id' p', lane_of q' id' p'
            = if decide (id' = id ∧ p' = p) then rest else lane_of q id' p'.
Proof.
  intros Hd Hds Hl id' p'. unfold lane_of. rewrite Hds. destruct (decide (id' = id)) as [->|Hn].
  - rewrite lookup_insert_eq, Hd, Hl. simpl. destruct (decide (p' = p)) as [->|Hp].
    + by rewrite lane_set, decide_True.
    + by rewrite lane_set_ne, decide_False by naive_solver.
  - rewrite lookup_insert_ne by done. by rewrite decide_False by naive_solver.
Qed.

(** The effect of a step on what [drain] and the callers observe. *)
Record popped (q q' : Queue) (id : string) (p : PriorityClass) (x : QueuedEnvelope)
    (rest : list QueuedEnvelope) : Prop := {
  pop_shape : shape q';
  pop_queued : queued q ≡ₚ event x :: queued q';
  pop_lanes : ∀ id' p', lane_of q' id' p'
    = if decide (id' = id ∧ p' = p) then rest else lane_of q id' p';
  pop_deficit : ∀ d d', daemons q !! id = Some d → daemons q' !! id = Some d' →
    deficit d' = deficit d;
  pop_accounted : ∀ es, accounted q es → accounted q' es;
  pop_reserved : reserved q' = reserved q;
  pop_limits : limits q' = limits q;
}.

Lemma pop_last_event q id d p x rest :
  shape q → daemons q !! id = Some d → lane (byPriority d) p = x :: rest → len (items d) = 1 →
  popped q (removeDaemon (add_queuedCount q (-1)) id) id p x rest.
Proof.
  intros Hq Hd Hl H1.
  destruct (shape_removeDaemon q id d Hq Hd) as [Hsh Hds].
  rewrite H1 in Hsh, Hds. change (- (1)) with (-1) in *.
  assert (Hx : lane (byPriority d) p = [x] ∧ other_lanes (byPriority d) p = []).
  { pose proof (Permutation_length (items_lane d p)) as HL. rewrite Hl, length_app in HL.
    simpl in HL. rewrite Hl. split.
    - assert (length rest = 0)%nat by lia. by destruct rest.
    - apply length_zero_iff_nil. lia. }
  destruct Hx as [Hx Ho]. rewrite Hl in Hx. injection Hx as ->.
  destruct (removeDaemon_fields (add_queuedCount q (-1)) id) as (F1 & F2 & F3 & F4 & F5 & F6 & F7).
  split; auto.
  - unfold queued. rewrite Hds, (queued_items_delete _ _ _ Hd), (items_lane d p), Hl, Ho. done.
  - intros id' p'. unfold lane_of. rewrite Hds. destruct (decide (id' = id)) as [->|Hn].
    + rewrite lookup_delete_eq, Hd. destruct (decide (p' = p)) as [->|Hp].
      * by rewrite decide_True.
      * rewrite decide_False by naive_solver.
        destruct p, p', (byPriority d); unfold other_lanes in Ho; simpl in *;
          repeat (apply app_nil in Ho as [? Ho]); congruence.
    + rewrite lookup_delete_ne by done. by rewrite decide_False by naive_solver.
  - intros d0 d' _. rewrite Hds, lookup_delete_eq. done.
  - intros es. by apply accounted_ext.
Qed.

Lemma shape_pop q id d p x rest :
  shape q → daemons q !! id = Some d → lane (byPriority d) p = x :: rest →
  ∃ q', removeFront q id d p = Returns q' ∧ popped q q' id p x rest.
Proof.
  intros Hq Hd Hl. pose proof (sh_daemons q Hq _ _ Hd) as Hok.
  destruct (daemon_ok_pop id d p x rest Hok Hl) as (Hit & Hc & Hok').
  unfold removeFront. rewrite Hl, Hc.
  set (d' := add_queued (with_lanes d (set_lane (byPriority d) p rest)) (-1) (- payloadBytes x)) in *.
  destruct (Z.eqb_spec (len (items d')) 0) as [Hz|Hz]; eexists; (split; [reflexivity|]).
  - rewrite removeDaemon_forget.
    + apply (pop_last_event q id d); auto. rewrite Hit. simpl. lia.
    + assert (Hin : id ∈ activeDaemonIds q) by (apply (sh_dom q Hq); by eexists).
      apply list_elem_of_lookup in Hin as [i Hin]. exists i. by apply (sh_ring q Hq).
  - assert (Hne : items d' ≠ []) by (intros E; rewrite E in Hz; done).
    assert (Hqp : queued q ≡ₚ event x :: (event <$> queued_items (<[id:=d']> (daemons q)))).
    { unfold queued. rewrite queued_items_insert, (queued_items_delete _ _ _ Hd), Hit. done. }
    split; simpl; auto.
    + split; simpl; try apply Hq.
      * intros id'. rewrite (sh_dom q Hq). destruct (decide (id' = id)) as [->|Hn].
        -- rewrite lookup_insert_eq, Hd. split; by eexists.
        -- by rewrite lookup_insert_ne.
      * intros id' d0. destruct (decide (id' = id)) as [->|Hn].
        -- rewrite lookup_insert_eq. intros [= <-]. auto.
        -- rewrite lookup_insert_ne by done. apply Hq.
      * rewrite (sh_size q Hq), Hqp. unfold queued. simpl. lia.
    + by apply (lane_of_pop q _ id d d').
    + intros d0 d1 Hd0. rewrite lookup_insert_eq. intros [= <-]. simpl. congruence.
    + intros es. by apply accounted_ext.
Qed.

(** ** Accounting of one event *)

Lemma usage_of_cons e es :
  usage_of (e :: es)
  = Some (charge_usage (default no_usage (usage_of es)) 1 (bytes_of e) (isDocumentArtifact e)).
Proof.
  destruct es as [|e' es]; unfold usage_of, charge_usage; simpl;
    destruct (isDocumentArtifact e); simpl; repeat (f_equal; try lia);
    destruct (isDocumentArtifact e'); simpl; lia.
Qed.

Lemma uncharge_usage u n b a : charge_usage (charge_usage u n b a) (- n) (- b) a = u.
Proof. destruct u, a; unfold charge_usage; simpl; f_equal; lia. Qed.

Lemma usage_of_count es u : usage_of es = Some u → us_count u = len es ∧ es ≠ [].
Proof. destruct es; simpl; intros [= <-]; done. Qed.

Lemma accounted_add q es e :
  accounted q es → obj e ∉ obj <$> es → daemonId e ≠ EmptyString →
  accounted (charge q (<[daemonId e := charge_usage (default no_usage (usage q !! daemonId e)) 1
                           (bytes_of e) (isDocumentArtifact e)]> (usage q))
               1 (bytes_of e) (isDocumentArtifact e)) (e :: es).
Proof.
  intros [Hn Hi Hu Hc Hb Ha Hab] Hobj Hid. split; simpl.
  - by constructor.
  - intros e' [->|?]%elem_of_cons; auto.
  - intros id. unfold from at 1. case_bool_decide as Hd.
    + subst id. rewrite lookup_insert_eq, usage_of_cons, Hu. done.
    + by rewrite lookup_insert_ne.
  - lia.
  - lia.
  - rewrite Ha. destruct (isDocumentArtifact e); simpl; lia.
  - rewrite Hab. destruct (isDocumentArtifact e); simpl; lia.
Qed.

(** The usage entry after the code's decrement of [commitBatch]. *)
Definition decremented (q : Queue) (e : IngressEnvelope) (u : DaemonUsage) : Queue :=
  let u' := charge_usage u (-1) (- bytes_of e) (isDocumentArtifact e) in
  charge q (if us_count u' =? 0 then delete (daemonId e) (usage q)
            else <[daemonId e := u']> (usage q)) (-1) (- bytes_of e) (isDocumentArtifact e).

Lemma accounted_remove q es e :
  accounted q (e :: es) →
  ∃ u, usage q !! daemonId e = Some u ∧ accounted (decremented q e u) es.
Proof.
  intros [Hn Hi Hu Hc Hb Ha Hab].
  pose proof (Hu (daemonId e)) as Hue. simpl in Hue. unfold from in Hue at 1.
  rewrite bool_decide_true in Hue by done. rewrite usage_of_cons in Hue.
  eexists; split; [exact Hue|]. unfold decremented.
  change (-1) with (- (1)) at 1 2. rewrite uncharge_usage.
  set (rest := bfilter (from (daemonId e)) es) in *.
  assert (Hdel : (us_count (default no_usage (usage_of rest)) =? 0) = bool_decide (rest = [])).
  { destruct rest; [done|]. rewrite bool_decide_false by done. apply Z.eqb_neq. simpl. lia. }
  rewrite Hdel. split; simpl.
  - by apply NoDup_cons in Hn as [_ ?].
  - intros e' He. apply Hi. by right.
  - intros id. specialize (Hu id). simpl in Hu. unfold from in Hu at 1.
    case_bool_decide as Hr; case_bool_decide as Hd; try subst id.
    + rewrite lookup_delete_eq. fold rest. by rewrite Hr.
    + by rewrite lookup_delete_ne.
    + rewrite lookup_insert_eq. fold rest. destruct rest; [done|]. reflexivity.
    + by rewrite lookup_insert_ne.
  - rewrite Hc. simpl. lia.
  - rewrite Hb. simpl. lia.
  - rewrite Ha. simpl. destruct (isDocumentArtifact e); simpl; lia.
  - rewrite Hab. simpl. destruct (isDocumentArtifact e); simpl; lia.
Qed.

(** ** [enqueue] *)

Lemma wf_new c : wf (new_queue c).
Proof.
  assert (Hempty : queued (new_queue c) = []).
  { unfold queued, queued_items. simpl. by rewrite map_to_list_empty. }
  split_and!.
  - split; simpl.
    + intros id i. rewrite lookup_empty. done.
    + intros id. rewrite lookup_empty. split; [set_solver|by intros [? ?]].
    + lia.
    + intros id d. by rewrite lookup_empty.
    + by rewrite Hempty.
  - unfold admitted. rewrite Hempty. split; simpl; try done.
    + constructor.
    + set_solver.
  - apply constructor_limits_ok.
Qed.

Lemma wf_insertBack q e :
  wf q → daemonId e ≠ EmptyString → obj e ∉ obj <$> admitted q →
  wf (insertBack q (toQueued e)) ∧ admitted (insertBack q (toQueued e)) ≡ₚ e :: admitted q
  ∧ limits (insertBack q (toQueued e)) = limits q.
Proof.
  intros (Hsh & Hacc & Hlim) Hid Hobj.
  set (x := toQueued e). rewrite (insertBack_put q x). cbv zeta.
  destruct (put_item_fields q x (lane_of q (daemonId (event x)) (priority (event x)) ++ [x]))
    as (Hr & Hu & H1 & H2 & H3 & H4 & H5).
  destruct (shape_put q x (lane_of q (daemonId e) (priority e) ++ [x]) Hsh Hid eq_refl)
    as (Hsh' & Hq & _); [symmetry; apply Permutation_cons_append|].
  change (daemonId (event x)) with (daemonId e) in *.
  change (priority (event x)) with (priority e) in *.
  change (event x) with e in *. change (payloadBytes x) with (bytes_of e).
  set (q1 := put_item _ _ _) in *. rewrite <- Hu.
  assert (Hadm : queued q1 ++ reserved q1 ≡ₚ e :: admitted q) by (rewrite Hq, Hr; done).
  split_and!; [split_and!| |].
  - destruct Hsh'. split; simpl; auto.
  - eapply accounted_perm; [symmetry; exact Hadm|].
    apply accounted_add; auto. eapply accounted_ext; eauto.
  - simpl. by rewrite H5.
  - exact Hadm.
  - exact H5.
Qed.
