(* ===== verification/FairQueueDrain.v ===== *)
(** * FairQueueDrain: the service loop of the ingress queue.

    [drain] as a step relation whose steps skip a daemon or serve the head of
    one of its lanes, and what a run of such steps does to the lanes, to the
    admitted events and to the batch. *)

From Stdlib Require Import QArith.
From S2P Require Import Prelude JsValue EventPolicy FairQueue FairQueueFacts.

#[local] Open Scope Z_scope.

(** ** [nextEligible] *)

Lemma schedule_covers c p :
  ∃ offset, (offset < 9)%nat ∧ prioritySchedule !! ((c + offset) `mod` 9)%nat = Some p.
Proof.
  assert (Hi : ∃ i, (i < 9)%nat ∧ prioritySchedule !! i = Some p).
  { destruct p; [exists 0%nat|exists 4%nat|exists 7%nat|exists 8%nat]; split; try done; lia. }
  destruct Hi as (i & Hi & Hp). set (m := (c `mod` 9)%nat).
  assert (Hm : (m < 9)%nat) by (apply Nat.mod_upper_bound; lia).
  exists ((i + (9 - m)) `mod` 9)%nat. split; [apply Nat.mod_upper_bound; lia|].
  rewrite Nat.Div0.add_mod_idemp_r. rewrite <- Nat.Div0.add_mod_idemp_l. fold m.
  replace (m + (i + (9 - m)))%nat with (i + 1 * 9)%nat by lia.
  rewrite Nat.Div0.mod_add, Nat.mod_small by lia. done.
Qed.

Lemma eligible_Some d r p x :
  eligible d r p = Some x →
  ∃ rest, lane (byPriority d) p = x :: rest ∧ payloadBytes x ≤ deficit d ∧ payloadBytes x ≤ r.
Proof.
  unfold eligible. destruct (lane (byPriority d) p) as [|c rest]; [done|].
  destruct (Z.ltb_spec (deficit d) (payloadBytes c)); [done|].
  destruct (Z.ltb_spec r (payloadBytes c)); [done|].
  intros [= ->]. by exists rest.
Qed.

Lemma nextEligible_from_Some todo offset d r x c :
  nextEligible_from todo offset d r = Some (x, c) → ∃ p, eligible d r p = Some x.
Proof.
  revert offset. induction todo as [|todo IH]; intros offset; simpl; [done|].
  destruct (prioritySchedule !! _) as [p|]; [|apply IH].
  destruct (eligible d r p) eqn:E; [|apply IH].
  intros [= -> _]. by exists p.
Qed.

Lemma nextEligible_from_None todo offset d r k p :
  nextEligible_from todo offset d r = None → (k < todo)%nat →
  prioritySchedule !! ((priorityCursor d + (offset + k)) `mod` 9)%nat = Some p →
  eligible d r p = None.
Proof.
  revert offset k. induction todo as [|todo IH]; intros offset k Hnone Hk Hp; [lia|].
  cbn [nextEligible_from] in Hnone. change (length prioritySchedule) with 9%nat in Hnone.
  cbv zeta in Hnone. destruct k as [|k].
  - rewrite Nat.add_0_r in Hp. rewrite Hp in Hnone. by destruct (eligible d r p).
  - apply (IH (S offset) k); [|lia|by rewrite <- Hp; do 2 f_equal; lia].
    destruct (prioritySchedule !! _) as [p'|]; [|done]. by destruct (eligible d r p').
Qed.

Lemma nextEligible_Some d r x c :
  nextEligible d r = Some (x, c) → ∃ p rest,
    lane (byPriority d) p = x :: rest ∧ payloadBytes x ≤ deficit d ∧ payloadBytes x ≤ r.
Proof.
  intros [p Hp]%nextEligible_from_Some. apply eligible_Some in Hp as [rest ?]. by exists p, rest.
Qed.

(** No class is forgotten: [nextEligible] finds nothing only when every head is
    too large for the deficit or for the batch. *)
Lemma nextEligible_None d r p x rest :
  nextEligible d r = None → lane (byPriority d) p = x :: rest →
  deficit d < payloadBytes x ∨ r < payloadBytes x.
Proof.
  intros Hnone Hl. destruct (schedule_covers (priorityCursor d) p) as (k & Hk & Hp).
  pose proof (nextEligible_from_None 9 0 d r k p Hnone Hk Hp) as He.
  unfold eligible in He. rewrite Hl in He.
  destruct (Z.ltb_spec (deficit d) (payloadBytes x)); [by left|].
  destruct (Z.ltb_spec r (payloadBytes x)); [by right|]. done.
Qed.

(** ** One visit *)

Definition bump (q : Queue) (id : string) (d : DaemonQueue) : Queue :=
  with_daemons q (<[id := add_deficit (quantumBytes (limits q)) d]> (daemons q)).

Definition skip_state (s : DrainState) (q : Queue) : DrainState :=
  {| dr_queue := q; batch := batch s; perDaemon := perDaemon s;
     dr_bytes := dr_bytes s; stalled := stalled s + 1 |}.

Definition take_state (s : DrainState) (q : Queue) (id : string) (x : QueuedEnvelope) : DrainState :=
  {| dr_queue := with_daemons (with_reserved q (reserve (event x) (reserved q)))
                   (alter (add_deficit (- payloadBytes x)) id (daemons q));
     batch := batch s ++ [event x];
     perDaemon := <[id := taken (perDaemon s) id + 1]> (perDaemon s);
     dr_bytes := dr_bytes s + payloadBytes x;
     stalled := 0 |}.

(** The daemon served by a visit, with its credited queue. *)
Definition visited (q0 q : Queue) (id : string) (d : DaemonQueue) : Prop :=
  nextActiveDaemon q0 = (q, Some id) ∧ daemons q !! id = Some d.

Inductive drain_step (rows maxB limit : Z) (s : DrainState) : DrainState → Prop :=
| step_skip q id d :
    len (batch s) < rows → visited (dr_queue s) q id d →
    drain_step rows maxB limit s (skip_state s (bump q id d))
| step_take q id d x cursor q' :
    len (batch s) < rows → visited (dr_queue s) q id d →
    taken (perDaemon s) id < limit →
    let d1 := add_deficit (quantumBytes (limits q)) d in
    nextEligible d1 (maxB - dr_bytes s) = Some (x, cursor) →
    removeFront (with_daemons (bump q id d) (<[id := with_cursor d1 cursor]> (daemons (bump q id d))))
      id (with_cursor d1 cursor) (priority (event x)) = Returns q' →
    drain_step rows maxB limit s (take_state s q' id x).

(** ** What a visit does, seen from outside *)

Definition in_lane (id : string) (p : PriorityClass) (e : IngressEnvelope) : bool :=
  bool_decide (daemonId e = id) && bool_decide (priority e = p).

(** A queue and the batch taken from it so far, before and after a visit. *)
Inductive served : Queue * list IngressEnvelope → Queue * list IngressEnvelope → Prop :=
| served_skip q q' b :
    wf q' → limits q' = limits q → reserved q' = reserved q → queued q' ≡ₚ queued q →
    (∀ id p, lane_of q' id p = lane_of q id p) →
    served (q, b) (q', b)
| served_take q q' b e :
    wf q' → limits q' = limits q → reserved q' = e :: reserved q → queued q ≡ₚ e :: queued q' →
    (∀ id p, lane_of q id p
             = (if in_lane id p e then [toQueued e] else []) ++ lane_of q' id p) →
    served (q, b) (q', b ++ [e]).

Lemma visit_spec q0 q id d :
  wf q0 → visited q0 q id d →
  wf (bump q id d) ∧ limits (bump q id d) = limits q0 ∧ reserved (bump q id d) = reserved q0
  ∧ queued (bump q id d) ≡ₚ queued q0
  ∧ (∀ id' p, lane_of (bump q id d) id' p = lane_of q0 id' p)
  ∧ id ≠ EmptyString ∧ daemon_ok id d.
Proof.
  intros (Hsh & Hacc & Hquant) [Hnext Hd].
  assert (Hlen : (0 < length (activeDaemonIds q0))%nat).
  { unfold nextActiveDaemon in Hnext.
    destruct (Nat.eqb_spec (length (activeDaemonIds q0)) 0); [done|lia]. }
  destruct (nextActiveDaemon_spec q0 Hsh Hlen) as (id' & d' & Heq & _ & Hd' & Hne).
  rewrite Hnext in Heq. injection Heq as -> ->. simpl in Hd.
  pose proof (sh_daemons q0 Hsh _ _ Hd) as Hok.
  set (n := ((nextDaemon q0 + 1) `mod` length (activeDaemonIds q0))%nat).
  assert (Hsh1 : shape (with_ring q0 (daemons q0) (activeDaemonIds q0) (activeIndex q0) n)).
  { apply shape_advance; [done|].
    assert (n < length (activeDaemonIds q0))%nat by (apply Nat.mod_upper_bound; lia). lia. }
  destruct (shape_update _ id' d (add_deficit (quantumBytes (limits q0)) d) Hsh1 Hd eq_refl eq_refl eq_refl)
    as (Hsh2 & Hq2 & Hl2).
  { simpl. pose proof (ok_deficit _ _ Hok). pose proof (pos_quantum _ Hquant). lia. }
  split_and!; auto. split_and!; [done| |done].
  unfold admitted. eapply accounted_perm; [|eapply accounted_ext; [..|exact Hacc]]; try done.
  unfold admitted. simpl. f_equiv. symmetry. exact Hq2.
Qed.

(** A queued event is not reserved yet, so [WeakSet.add] adds it. *)
Lemma reserve_fresh q e l :
  accounted q (e :: l ++ reserved q) → reserve e (reserved q) = e :: reserved q.
Proof.
  intros [Hn _ _ _ _ _ _]. unfold reserve.
  destruct (existsb (same_object e) (reserved q)) eqn:E; [|done].
  apply existsb_exists in E as (f & Hf & Hef). unfold same_object in Hef. bool_hyps.
  exfalso. apply NoDup_cons in Hn as [Hnot _]. apply Hnot.
  apply list_elem_of_fmap. exists f. split; [done|].
  apply elem_of_app. right. by apply list_elem_of_In.
Qed.

(** Charging the deficit of the served daemon, if it is still in the map. *)
Lemma shape_uncredit q id b :
  shape q → (∀ d, daemons q !! id = Some d → b ≤ deficit d) →
  let q' := with_daemons q (alter (add_deficit (- b)) id (daemons q)) in
  shape q' ∧ queued q' ≡ₚ queued q ∧ (∀ id' p, lane_of q' id' p = lane_of q id' p).
Proof.
  intros Hq Hb. simpl. destruct (daemons q !! id) as [d|] eqn:Hd.
  - rewrite (alter_alt_Some _ _ _ d) by done.
    apply (shape_update q id d); auto. simpl. specialize (Hb d eq_refl). lia.
  - rewrite alter_id by (intros ? ?; congruence). split_and!; try done.
    destruct Hq. by split.
Qed.

(** Serving the head of a lane. *)
Lemma take_spec s q id d x cursor q' maxB :
  let d1 := add_deficit (quantumBytes (limits q)) d in
  wf (dr_queue s) → visited (dr_queue s) q id d →
  nextEligible d1 (maxB - dr_bytes s) = Some (x, cursor) →
  removeFront (with_daemons (bump q id d) (<[id := with_cursor d1 cursor]> (daemons (bump q id d))))
    id (with_cursor d1 cursor) (priority (event x)) = Returns q' →
  let s' := take_state s q' id x in
  served (dr_queue s, batch s) (dr_queue s', batch s')
  ∧ x = toQueued (event x) ∧ daemonId (event x) = id
  ∧ payloadBytes x ≤ maxB - dr_bytes s.
Proof.
  intros d1 Hwf Hv Hel Hrem s'.
  destruct (visit_spec _ _ _ _ Hwf Hv) as ((Hsh & Hacc & Hquant) & Hlim & Hres & Hqp & Hlanes & Hne & Hok).
  apply nextEligible_Some in Hel as (p & rest & Hl & Hdef & Hrow).
  assert (Hd1 : daemons (bump q id d) !! id = Some d1) by apply lookup_insert_eq.
  destruct (ok_lane id d Hok p x) as (Hx & Hid & Hp).
  { change (byPriority d) with (byPriority d1). rewrite Hl. by left. }
  destruct (shape_update _ id d1 (with_cursor d1 cursor) Hsh Hd1 eq_refl eq_refl eq_refl)
    as (Hsh2 & Hqp2 & Hl2); [apply (ok_deficit id d1), (sh_daemons _ Hsh _ _ Hd1)|].
  set (q2 := with_daemons _ _) in *.
  assert (Hd2 : daemons q2 !! id = Some (with_cursor d1 cursor)) by apply lookup_insert_eq.
  rewrite Hp in Hrem.
  destruct (shape_pop q2 id (with_cursor d1 cursor) p x rest Hsh2 Hd2 Hl) as (q3 & Hrem' & Hpop).
  rewrite Hrem in Hrem'. injection Hrem' as <-.
  destruct Hpop as [Hsh3 Hq3 Hl3 Hdef3 Hacc3 Hres3 Hlim3].
  assert (Hadm : queued (bump q id d) ≡ₚ event x :: queued q') by (rewrite <- Hqp2; done).
  assert (Hacc' : accounted q' (event x :: queued q' ++ reserved q')).
  { apply Hacc3. eapply accounted_ext; [..|eapply accounted_perm; [|exact Hacc]]; try done.
    unfold admitted. rewrite Hadm, Hres3. done. }
  pose proof (reserve_fresh _ _ _ Hacc') as Hfresh.
  destruct (shape_uncredit (with_reserved q' (event x :: reserved q')) id (payloadBytes x))
    as (Hsh4 & Hq4 & Hl4).
  { destruct Hsh3; by split. }
  { intros d0 Hd0. simpl in Hd0. rewrite (Hdef3 _ d0 Hd2 Hd0). exact Hdef. }
  subst s'. unfold take_state. simpl. rewrite Hfresh. simpl in Hq4, Hl4.
  split_and!; auto. constructor.
  - split_and!; [done| |simpl; rewrite Hlim3; exact Hquant].
    eapply accounted_ext; [..|eapply accounted_perm; [|exact Hacc']]; try done.
    unfold admitted. simpl. rewrite Hq4. change (queued (with_reserved q' ?r)) with (queued q').
    by rewrite <- Permutation_middle.
  - simpl. rewrite Hlim3. exact Hlim.
  - simpl. by rewrite Hres3, <- Hres.
  - rewrite <- Hqp, Hadm, Hq4. done.
  - intros id' p'. rewrite Hl4. change (lane_of (with_reserved q' ?r) id' p') with (lane_of q' id' p').
    rewrite Hl3, Hl2, <- Hlanes. unfold in_lane.
    destruct (decide (id' = id ∧ p' = p)) as [[-> ->]|Hn].
    + rewrite !bool_decide_true by done. simpl. rewrite <- Hx.
      unfold lane_of. by rewrite Hd1, Hl.
    + destruct (bool_decide (daemonId (event x) = id')) eqn:E1;
        destruct (bool_decide (priority (event x) = p')) eqn:E2; simpl; try done.
      bool_hyps. exfalso. apply Hn. by subst.
Qed.

(** The candidate [nextEligible] returns is the head of its own lane. *)
Lemma removeFront_total q0 q id d r x cursor :
  let d1 := add_deficit (quantumBytes (limits q)) d in
  wf q0 → visited q0 q id d → nextEligible d1 r = Some (x, cursor) →
  ∃ q', removeFront
    (with_daemons (bump q id d) (<[id := with_cursor d1 cursor]> (daemons (bump q id d))))
    id (with_cursor d1 cursor) (priority (event x)) = Returns q'.
Proof.
  intros d1 Hwf Hv (p & rest & Hl & _)%nextEligible_Some.
  destruct (visit_spec _ _ _ _ Hwf Hv) as (_ & _ & _ & _ & _ & _ & Hok).
  destruct (ok_lane id d Hok p x) as (_ & _ & ->).
  { change (byPriority d) with (byPriority d1). rewrite Hl. by left. }
  unfold removeFront. subst d1. simpl in Hl |- *. rewrite Hl. by eexists.
Qed.

(** ** The loop *)

Definition view (s : DrainState) : Queue * list IngressEnvelope := (dr_queue s, batch s).

Lemma drain_step_served rows maxB limit s s' :
  wf (dr_queue s) → drain_step rows maxB limit s s' →
  wf (dr_queue s') ∧ served (view s) (view s').
Proof.
  intros Hwf Hstep. destruct Hstep as [q id d Hb Hv|q id d x cursor q' Hb Hv Ht d1 Hel Hrem].
  - destruct (visit_spec _ _ _ _ Hwf Hv) as (Hw & Hlim & Hres & Hqp & Hl & _).
    split; [done|]. by constructor.
  - destruct (take_spec _ _ _ _ _ _ _ _ Hwf Hv Hel Hrem) as (Hs & _).
    split; [by inversion Hs|done].
Qed.

(** A well-formed queue never throws in [drain]: the loop is a run of steps. *)
Lemma drain_loop_steps visits rows maxB limit relaxed s :
  wf (dr_queue s) →
  ∃ s', drain_loop visits rows maxB limit relaxed s = Returns s'
        ∧ rtc (drain_step rows maxB limit) s s'.
Proof.
  revert s. induction visits as [|visits IH]; intros s Hwf; [by exists s|].
  cbn [drain_loop]. destruct (len (batch s) <? rows) eqn:Hb; [|by exists s]. cbn [andb negb].
  destruct (0 <? len (activeDaemonIds (dr_queue s))) eqn:Hn; [|by exists s].
  bool_hyps. cbn [negb].
  destruct (nextActiveDaemon_spec (dr_queue s)) as (id & d & Heq & _ & Hd & Hne);
    [apply Hwf|lia|].
  rewrite Heq. cbn [dr_queue batch perDaemon dr_bytes stalled]. rewrite bool_decide_false by done.
  change (daemons (with_ring _ (daemons (dr_queue s)) _ _ _) !! id) with (daemons (dr_queue s) !! id).
  rewrite Hd. cbn [dr_queue batch perDaemon dr_bytes stalled].
  set (q := with_ring _ _ _ _ _) in *.
  assert (Hv : visited (dr_queue s) q id d) by (split; [exact Heq|exact Hd]).
  assert (Hskip : drain_step rows maxB limit s (skip_state s (bump q id d)))
    by (by constructor).
  assert (Hwf' : wf (dr_queue (skip_state s (bump q id d))))
    by (eapply drain_step_served; eauto).
  destruct (Z.leb_spec limit (taken (perDaemon s) id)) as [Hl|Hl].
  - destruct (_ <=? _); [by eexists; split; [reflexivity|apply rtc_once]|].
    destruct (IH _ Hwf') as (s' & Hs' & Hr). eexists; split; [exact Hs'|].
    by eapply rtc_l.
  - destruct (nextEligible _ _) as [[x cursor]|] eqn:Hel.
    + destruct (removeFront_total _ _ _ _ _ _ _ Hwf Hv Hel) as [q' Hrem].
      unfold bump in Hrem at 1 2. rewrite Hrem.
      assert (Htake : drain_step rows maxB limit s (take_state s q' id x))
        by (econstructor; eauto).
      destruct (IH (take_state s q' id x)) as (s' & Hs' & Hr);
        [apply (drain_step_served _ _ _ _ _ Hwf Htake)|].
      exists s'. split; [exact Hs'|by eapply rtc_l].
    + destruct (_ && _); [by eexists; split; [reflexivity|apply rtc_once]|].
      destruct (IH _ Hwf') as (s' & Hs' & Hr). eexists; split; [exact Hs'|].
      by eapply rtc_l.
Qed.

(** ** Runs of visits *)

(** What a run that takes the batch [b] from [q] and leaves [q'] does. *)
Record batch_taken (q q' : Queue) (b : list IngressEnvelope) : Prop := {
  bt_wf : wf q';
  bt_limits : limits q' = limits q;
  bt_reserved : reserved q' = rev b ++ reserved q;
  bt_queued : queued q ≡ₚ b ++ queued q';
  bt_lanes : ∀ id p, lane_of q id p
    = (toQueued <$> bfilter (in_lane id p) b) ++ lane_of q' id p;
}.

Lemma batch_taken_snoc q q' q'' b e :
  batch_taken q q' b →
  wf q'' → limits q'' = limits q' → reserved q'' = e :: reserved q' →
  queued q' ≡ₚ e :: queued q'' →
  (∀ id p, lane_of q' id p
           = (if in_lane id p e then [toQueued e] else []) ++ lane_of q'' id p) →
  batch_taken q q'' (b ++ [e]).
Proof.
  intros [Hw Hl Hr Hq Hlanes] Hw' Hl' Hr' Hq' Hlanes'. split; auto.
  - by rewrite Hl'.
  - rewrite rev_unit, Hr', Hr. done.
  - rewrite Hq, Hq'. by rewrite <- app_assoc.
  - intros id p. rewrite Hlanes, Hlanes', bfilter_app, fmap_app, <- app_assoc. simpl.
    by destruct (in_lane id p e).
Qed.

Lemma served_run q v :
  wf q → rtc served (q, []) v → batch_taken q v.1 v.2.
Proof.
  intros Hwf Hrun. remember (q, []) as v0 eqn:Hv0.
  assert (H0 : batch_taken q v0.1 v0.2) by (subst; by split).
  clear Hv0 Hwf. induction Hrun as [v|v0 v1 v2 Hs _ IH]; [done|]. apply IH.
  destruct v0 as [q0 b0], v1 as [q1 b1]. simpl in *.
  inversion Hs as [? ? ? Hw Hl Hr Hq Hlanes|? ? ? e]; subst.
  - destruct H0 as [? Hl0 Hr0 Hq0 Hlanes0]. split; auto.
    + by rewrite Hl.
    + by rewrite Hr.
    + by rewrite Hq.
    + intros id p. rewrite Hlanes. apply Hlanes0.
  - by eapply batch_taken_snoc.
Qed.

Lemma steps_served rows maxB limit s s' :
  wf (dr_queue s) → rtc (drain_step rows maxB limit) s s' → rtc served (view s) (view s').
Proof.
  intros Hwf Hrun. induction Hrun as [s|s0 s1 s2 Hs _ IH]; [done|].
  destruct (drain_step_served _ _ _ _ _ Hwf Hs) as [Hwf1 Hs1].
  eapply rtc_l; [exact Hs1|]. by apply IH.
Qed.

(** Every run of steps from a well-formed queue keeps it well-formed. *)
Lemma steps_wf rows maxB limit s s' :
  wf (dr_queue s) → rtc (drain_step rows maxB limit) s s' → wf (dr_queue s').
Proof.
  intros Hwf Hrun. induction Hrun as [s|s0 s1 s2 Hs _ IH]; [done|].
  apply IH. by eapply drain_step_served.
Qed.

(** The budgets of a batch: rows, bytes and events per daemon. *)
Record budget (rows maxB limit : Z) (s : DrainState) : Prop := {
  bg_bytes : dr_bytes s = sumZ bytes_of (batch s);
  bg_taken : ∀ id, taken (perDaemon s) id = len (bfilter (from id) (batch s));
  bg_rows : len (batch s) ≤ rows;
  bg_maxB : dr_bytes s ≤ maxB;
  bg_limit : ∀ id, taken (perDaemon s) id ≤ limit;
}.

Lemma budget_step rows maxB limit s s' :
  wf (dr_queue s) → drain_step rows maxB limit s s' →
  budget rows maxB limit s → budget rows maxB limit s'.
Proof.
  intros Hwf Hstep [Hby Ht Hr Hm Hl].
  destruct Hstep as [q id d Hb Hv|q id d x cursor q' Hb Hv Hlt d1 Hel Hrem]; [by split|].
  destruct (take_spec _ _ _ _ _ _ _ _ Hwf Hv Hel Hrem) as (_ & Hx & Hid & Hrow).
  split; simpl.
  - rewrite sumZ_app, Hby. simpl. unfold bytes_of. rewrite <- Hx. lia.
  - intros id'. unfold taken at 1. rewrite bfilter_app, len_app, <- Ht. simpl. unfold from.
    destruct (decide (id' = id)) as [->|Hn].
    + rewrite lookup_insert_eq. rewrite bool_decide_true by done. simpl. lia.
    + rewrite lookup_insert_ne by done. rewrite bool_decide_false by congruence.
      simpl. unfold taken. lia.
  - rewrite len_app. simpl. lia.
  - lia.
  - intros id'. unfold taken at 1. destruct (decide (id' = id)) as [->|Hn].
    + rewrite lookup_insert_eq. simpl. lia.
    + rewrite lookup_insert_ne by done. apply Hl.
Qed.

Lemma budget_steps rows maxB limit s s' :
  wf (dr_queue s) → rtc (drain_step rows maxB limit) s s' →
  budget rows maxB limit s → budget rows maxB limit s'.
Proof.
  intros Hwf Hrun. induction Hrun as [s|s0 s1 s2 Hs _ IH]; [done|].
  intros H0. apply IH; [by eapply drain_step_served|by eapply budget_step].
Qed.

Lemma batchBytes_sum b : batchBytes b = sumZ bytes_of b.
Proof.
  unfold batchBytes. assert (H : ∀ acc, foldl (λ total e, total + payloadBytes (toQueued e)) acc b
                                         = acc + sumZ bytes_of b); [|by rewrite H].
  induction b as [|e b IH]; intros acc; cbn [foldl sumZ]; [lia|]. rewrite IH.
  unfold bytes_of at 2. lia.
Qed.

Lemma nonNegativeInteger_nonneg v : 0 ≤ nonNegativeInteger v 0.
Proof.
  unfold nonNegativeInteger. destruct v; try lia.
  destruct (is_safe_integer z && (0 <=? z)) eqn:E; [|lia]. bool_hyps. lia.
Qed.

(** ** [takeBatch] *)

(** [takeBatch] never throws on a well-formed queue, and its batch respects the
    caller's limits. *)
Lemma takeBatch_run q l :
  wf q →
  ∃ q' b, takeBatch q l = Returns (q', b) ∧ batch_taken q q' b
    ∧ len b ≤ nonNegativeInteger (maxRows l) 0
    ∧ sumZ bytes_of b ≤ nonNegativeInteger (batchMaxBytes l) 0
    ∧ (1 < len (activeDaemonIds q) → ∀ id,
         len (bfilter (from id) b)
         ≤ perDaemonCap (nonNegativeInteger (maxRows l) 0) (maxPerDaemonFraction l)).
Proof.
  intros Hwf. unfold takeBatch.
  set (rows := nonNegativeInteger (maxRows l) 0).
  set (maxB := nonNegativeInteger (batchMaxBytes l) 0).
  assert (Hrows : 0 ≤ rows) by apply nonNegativeInteger_nonneg.
  assert (HmaxB : 0 ≤ maxB) by apply nonNegativeInteger_nonneg.
  set (cap := perDaemonCap rows (maxPerDaemonFraction l)).
  assert (Hcap : 1 ≤ cap) by (unfold cap, perDaemonCap; lia).
  destruct (_ || _ || _).
  { exists q, []. split_and!; [done|by split|simpl; lia|done|]. intros _ id. simpl. lia. }
  unfold drain. set (s0 := {| dr_queue := q; batch := []; perDaemon := ∅; dr_bytes := 0; stalled := 0 |}).
  destruct (drain_loop_steps (maxVisits rows q) rows maxB cap false s0 Hwf) as (s1 & -> & Hrun1).
  assert (Hb0 : budget rows maxB cap s0).
  { split; simpl; try lia. all: intros id; unfold taken; rewrite lookup_empty; simpl; lia. }
  pose proof (budget_steps _ _ _ s0 _ Hwf Hrun1 Hb0) as [Hby Ht Hr Hm Hl].
  pose proof (steps_served _ _ _ s0 _ Hwf Hrun1) as Hs1.
  pose proof (steps_wf _ _ _ s0 _ Hwf Hrun1) as Hwf1.
  destruct (1 <? len (activeDaemonIds q)) eqn:Hpeers; cbn [negb andb].
  { exists (dr_queue s1), (batch s1). split_and!; [done|by apply (served_run q (view s1))|lia|lia|].
    intros _ id. rewrite <- Ht. apply Hl. }
  destruct (len (batch s1) <? rows); cbv iota; bool_hyps.
  - set (s2 := {| dr_queue := dr_queue s1; batch := batch s1; perDaemon := perDaemon s1;
                  dr_bytes := batchBytes (batch s1); stalled := 0 |}).
    destruct (drain_loop_steps (maxVisits rows (dr_queue s1)) rows maxB rows true s2 Hwf1)
      as (s3 & -> & Hrun3).
    assert (Hb2 : budget rows maxB rows s2).
    { split; simpl; rewrite ?batchBytes_sum; auto; [lia|]. intros id. rewrite Ht.
      pose proof (bfilter_length (from id) (batch s1)). lia. }
    pose proof (budget_steps _ _ _ s2 _ Hwf1 Hrun3 Hb2) as [Hby3 _ Hr3 Hm3 _].
    exists (dr_queue s3), (batch s3). split_and!; [done| |lia|lia|lia].
    apply (served_run q (view s3) Hwf). transitivity (view s1); [done|].
    exact (steps_served _ _ _ s2 _ Hwf1 Hrun3).
  - exists (dr_queue s1), (batch s1). split_and!; [done|by apply (served_run q (view s1))|lia|lia|lia].
Qed.
