(* ===== verification/FairQueueSpec.v ===== *)
(** * FairQueueSpec: what the ingress queue promises.

    Reachable states of [FairIngressQueue], the capacity bounds they respect,
    the batches [takeBatch] hands out, the round trip of a failed batch and the
    progress of the service loop. *)

From Stdlib Require Import QArith.
From S2P Require Import Prelude JsValue EventPolicy FairQueue FairQueueFacts FairQueueDrain.

#[local] Open Scope Z_scope.

(** ** Reserved batches: commit and requeue *)

Lemma unreserve_perm e r l :
  NoDup (obj <$> r) → r ≡ₚ e :: l → unreserve e r ≡ₚ l ∧ existsb (same_object e) r = true.
Proof.
  intros Hnd Hr. rewrite Hr in Hnd. apply NoDup_cons in Hnd as [Hnot _].
  split.
  - unfold unreserve. rewrite Hr. cbn [bfilter]. unfold same_object at 1.
    rewrite Z.eqb_refl. cbn [negb]. rewrite bfilter_true; [done|].
    intros f Hf. unfold same_object. apply negb_true_iff, Z.eqb_neq. intros Ho.
    apply Hnot. apply list_elem_of_fmap. by exists f.
  - apply existsb_exists. exists e. split; [|unfold same_object; apply Z.eqb_refl].
    apply list_elem_of_In. rewrite Hr. by left.
Qed.

Lemma accounted_reserved q : wf q → NoDup (obj <$> reserved q).
Proof.
  intros (_ & Hacc & _). pose proof (acc_objs _ _ Hacc) as Hn. unfold admitted in Hn.
  rewrite fmap_app in Hn. by apply NoDup_app in Hn as (_ & _ & ?).
Qed.

(** Committing reserved events releases exactly their charge. *)
Lemma commitBatch_spec q b r :
  wf q → reserved q ≡ₚ b ++ r →
  ∃ q', commitBatch q b = (q', Returns tt) ∧ wf q' ∧ reserved q' ≡ₚ r
    ∧ daemons q' = daemons q ∧ limits q' = limits q.
Proof.
  revert q. induction b as [|e b IH]; intros q Hwf Hr; [by exists q|].
  destruct (unreserve_perm e (reserved q) (b ++ r) (accounted_reserved q Hwf) Hr) as [Hun Hex].
  cbn [commitBatch]. rewrite Hex. cbn [negb].
  destruct Hwf as (Hsh & Hacc & Hquant).
  set (q1 := with_reserved q (unreserve e (reserved q))).
  assert (Hacc1 : accounted q1 (e :: queued q1 ++ reserved q1)).
  { eapply accounted_ext; [..|eapply accounted_perm; [|exact Hacc]]; try done.
    unfold admitted. simpl. rewrite Hun, Hr. symmetry. apply Permutation_middle. }
  destruct (accounted_remove _ _ _ Hacc1) as (u & Hu & Hacc2). rewrite Hu.
  change (payloadBytes (toQueued e)) with (bytes_of e).
  fold (decremented q1 e u).
  destruct (IH (decremented q1 e u)) as (q' & -> & Hwf' & Hr' & Hd' & Hl').
  - split_and!; [|exact Hacc2|exact Hquant]. destruct Hsh. by split.
  - simpl. rewrite Hun. done.
  - exists q'. split_and!; auto.
Qed.

Lemma requeue_loop_spec q es r :
  wf q → reserved q ≡ₚ es ++ r →
  ∃ q', requeue_loop q es = (q', Returns tt) ∧ wf q' ∧ reserved q' ≡ₚ r ∧ limits q' = limits q
    ∧ queued q' ≡ₚ es ++ queued q
    ∧ ∀ id p, lane_of q' id p = (toQueued <$> bfilter (in_lane id p) (rev es)) ++ lane_of q id p.
Proof.
  revert q. induction es as [|e es IH]; intros q Hwf Hr; [by exists q|].
  destruct (unreserve_perm e (reserved q) (es ++ r) (accounted_reserved q Hwf) Hr) as [Hun Hex].
  cbn [requeue_loop]. rewrite Hex. destruct Hwf as (Hsh & Hacc & Hquant).
  set (q1 := with_reserved q (unreserve e (reserved q))).
  assert (Hsh1 : shape q1) by (destruct Hsh; by split).
  assert (Hid : daemonId e ≠ EmptyString).
  { apply (acc_ids _ _ Hacc). unfold admitted. rewrite Hr. set_solver. }
  rewrite insertFront_put. set (q2 := put_item q1 _ _).
  destruct (shape_put q1 (toQueued e) (toQueued e :: lane_of q1 (daemonId e) (priority e))
              Hsh1 Hid eq_refl (Permutation_refl _)) as (Hsh2 & Hq2 & Hl2).
  change (put_item q1 _ _) with q2 in Hsh2, Hq2, Hl2.
  assert (Hf : accounted q2 (admitted q) ∧ reserved q2 = reserved q1 ∧ limits q2 = limits q).
  { unfold q2, put_item, ensureDaemon. destruct (daemons q1 !! _);
      (split_and!; [eapply accounted_ext; [..|exact Hacc]|..]; done). }
  destruct Hf as (Hacc2 & Hres2 & Hlim2).
  destruct (IH q2) as (q' & -> & Hwf' & Hr' & Hl' & Hq' & Hlanes').
  - split_and!; [done| |by rewrite Hlim2]. eapply accounted_perm; [|exact Hacc2].
    unfold admitted. rewrite Hq2, Hres2. simpl. rewrite Hun, Hr.
    symmetry. apply Permutation_middle.
  - by rewrite Hres2.
  - exists q'. split_and!; auto.
    + by rewrite Hl', Hlim2.
    + rewrite Hq', Hq2. symmetry. apply Permutation_middle.
    + intros id p. rewrite Hlanes', Hl2. simpl. rewrite bfilter_app, fmap_app, <- app_assoc. f_equal.
      simpl. unfold in_lane. change (lane_of q1 ?i ?p) with (lane_of q i p).
      destruct (decide (id = daemonId e ∧ p = priority e)) as [[-> ->]|Hn].
      * rewrite !bool_decide_true by done. done.
      * destruct (bool_decide (daemonId e = id)) eqn:E1, (bool_decide (priority e = p)) eqn:E2;
          simpl; try done. bool_hyps. exfalso. apply Hn. by subst.
Qed.

Lemma requeueFront_spec q b r :
  wf q → reserved q ≡ₚ b ++ r →
  ∃ q', requeueFront q b = (q', Returns tt) ∧ wf q' ∧ reserved q' ≡ₚ r ∧ limits q' = limits q
    ∧ queued q' ≡ₚ b ++ queued q
    ∧ ∀ id p, lane_of q' id p = (toQueued <$> bfilter (in_lane id p) b) ++ lane_of q id p.
Proof.
  intros Hwf Hr. unfold requeueFront.
  destruct (requeue_loop_spec q (rev b) r Hwf) as (q' & H1 & H2 & H3 & H4 & H5 & H6).
  - rewrite Hr. f_equiv. apply Permutation_rev.
  - exists q'. split_and!; auto.
    + rewrite H5. f_equiv. symmetry. apply Permutation_rev.
    + intros id p. by rewrite H6, rev_involutive.
Qed.

(** ** Progress of the service loop *)

Lemma drain_loop_nonempty visits rows maxB limit relaxed s s' :
  wf (dr_queue s) → batch s ≠ [] →
  drain_loop visits rows maxB limit relaxed s = Returns s' → batch s' ≠ [].
Proof.
  intros Hwf Hb Hrun.
  destruct (drain_loop_steps visits rows maxB limit relaxed s Hwf) as (s1 & Heq & Hsteps).
  rewrite Hrun in Heq. injection Heq as <-. clear Hrun Hwf.
  induction Hsteps as [s|s0 s1 s2 Hs _ IH]; [done|]. apply IH.
  destruct Hs; simpl; [done|]. by destruct (batch s0).
Qed.

(** The loop after [a] full turns of the ring and [b] visits, none of which
    served an event: the first daemon was credited on each turn. *)
Record idle (ids : list string) (n0 : nat) (id0 : string) (p : PriorityClass)
    (x : QueuedEnvelope) (quantum : Z) (a b : nat) (s : DrainState) : Prop := {
  id_batch : batch s = [];
  id_taken : perDaemon s = ∅;
  id_bytes : dr_bytes s = 0;
  id_wf : wf (dr_queue s);
  id_ring : activeDaemonIds (dr_queue s) = ids;
  id_next : nextDaemon (dr_queue s) = ((n0 + b) `mod` length ids)%nat;
  id_quantum : quantumBytes (limits (dr_queue s)) = quantum;
  id_first : ∃ d rest, daemons (dr_queue s) !! id0 = Some d ∧ lane (byPriority d) p = x :: rest
             ∧ quantum * (Z.of_nat a + if (b =? 0)%nat then 0 else 1) ≤ deficit d;
}.

(** Visit [b] of turn [a]: the position in the ring after it. *)
Definition next_visit (N a b : nat) : nat * nat :=
  if (S b =? N)%nat then (S a, O) else (a, S b).

Lemma idle_skip ids n0 id0 p x quantum a b s q id d :
  idle ids n0 id0 p x quantum a b s → 0 < quantum →
  ids !! n0 = Some id0 → (n0 < length ids)%nat → (b < length ids)%nat →
  visited (dr_queue s) q id d →
  idle ids n0 id0 p x quantum (next_visit (length ids) a b).1 (next_visit (length ids) a b).2
    (skip_state s (bump q id d)).
Proof.
  intros [Hb Ht Hby Hwf Hring Hnext Hquant (d0 & rest & Hd0 & Hl0 & Hdef)] Hpos Hid0 Hn0 Hlt Hv.
  destruct (visit_spec _ _ _ _ Hwf Hv) as (Hwf' & Hlim & _ & _ & _ & _ & Hok).
  destruct (nextActiveDaemon_spec (dr_queue s)) as (id' & d' & Heq & Hidx & Hd' & _);
    [apply Hwf|rewrite Hring; lia|].
  destruct Hv as [Hv Hd]. rewrite Hv in Heq. injection Heq as -> ->. simpl in Hd.
  rewrite Hring, Hnext in Hidx.
  split; simpl; auto.
  - rewrite Hring, Hnext. unfold next_visit.
    rewrite Nat.Div0.add_mod_idemp_l. destruct (Nat.eqb_spec (S b) (length ids)) as [HS|HS]; simpl.
    + replace (n0 + b + 1)%nat with (n0 + 1 * length ids)%nat by lia.
      rewrite Nat.Div0.mod_add. f_equal. lia.
    + f_equal. lia.
  - rewrite Hquant.
    assert (Hcase : b = 0%nat → id' = id0).
    { intros ->. rewrite Nat.add_0_r, Nat.mod_small in Hidx by done. congruence. }
    assert (Hz : if (snd (next_visit (length ids) a b) =? 0)%nat
                 then Z.of_nat (fst (next_visit (length ids) a b)) = Z.of_nat a + 1
                 else Z.of_nat (fst (next_visit (length ids) a b)) = Z.of_nat a).
    { unfold next_visit. destruct (Nat.eqb_spec (S b) (length ids)); simpl; lia. }
    destruct (decide (id' = id0)) as [->|Hne].
    + rewrite Hd in Hd0. injection Hd0 as <-.
      exists (add_deficit quantum d), rest. rewrite lookup_insert_eq. split_and!; auto. simpl.
      destruct (_ =? 0)%nat in Hz |- *; rewrite Hz; destruct (b =? 0)%nat; nia.
    + exists d0, rest. rewrite lookup_insert_ne by done. split_and!; auto.
      destruct (Nat.eqb_spec b 0) as [->|_]; [by exfalso; apply Hne, Hcase|].
      destruct (_ =? 0)%nat in Hz |- *; rewrite Hz; lia.
Qed.

(** One iteration of the loop on an idle state that may serve. *)
Lemma drain_loop_idle ids n0 id0 p x quantum a b visits rows maxB limit s :
  idle ids n0 id0 p x quantum a b s → ids !! n0 = Some id0 → 1 ≤ rows → 1 ≤ limit →
  ∃ q id d, visited (dr_queue s) q id d
    ∧ ((∃ x' cursor q', drain_step rows maxB limit s (take_state s q' id x')
          ∧ nextEligible (add_deficit (quantumBytes (limits q)) d) maxB = Some (x', cursor)
          ∧ drain_loop (S visits) rows maxB limit false s
            = drain_loop visits rows maxB limit false (take_state s q' id x'))
       ∨ (nextEligible (add_deficit (quantumBytes (limits q)) d) maxB = None
          ∧ drain_loop (S visits) rows maxB limit false s
            = drain_loop visits rows maxB limit false (skip_state s (bump q id d)))).
Proof.
  intros [Hb Ht Hby Hwf Hring Hnext Hquant _] Hid0 Hrows Hlimit.
  assert (Hlen : (0 < length (activeDaemonIds (dr_queue s)))%nat).
  { rewrite Hring. apply lookup_lt_Some in Hid0. lia. }
  destruct (nextActiveDaemon_spec (dr_queue s)) as (id & d & Heq & _ & Hd & Hne);
    [apply Hwf|done|].
  set (q := with_ring _ _ _ _ _) in *.
  assert (Hv : visited (dr_queue s) q id d) by (split; [exact Heq|exact Hd]).
  exists q, id, d. split; [done|].
  cbn [drain_loop]. rewrite Hb, Heq. cbn [length dr_queue batch perDaemon dr_bytes stalled].
  rewrite (proj2 (Z.ltb_lt (Z.of_nat 0) rows)), (proj2 (Z.ltb_lt 0 _)) by lia. cbn [andb negb].
  rewrite bool_decide_false by done.
  change (daemons q !! id) with (daemons (dr_queue s) !! id). rewrite Hd.
  cbn [dr_queue batch perDaemon dr_bytes stalled].
  rewrite Ht. assert (Htk : taken ∅ id = 0) by done. rewrite Htk.
  rewrite (proj2 (Z.leb_gt limit 0)) by lia. rewrite Hby, Z.sub_0_r.
  destruct (nextEligible _ _) as [[x' cursor]|] eqn:Hel.
  - left. destruct (removeFront_total _ _ _ _ _ _ _ Hwf Hv Hel) as [q' Hrem].
    exists x', cursor, q'. split_and!; [|done|].
    + econstructor; eauto.
      * rewrite Hb. simpl. lia.
      * rewrite Ht, Htk. lia.
      * by rewrite Hby, Z.sub_0_r.
    + unfold bump in Hrem at 1 2. rewrite Hrem. unfold take_state.
      by rewrite Hb, Ht, Hby.
  - right. split; [done|]. change (0 <? Z.of_nat 0) with false.
    rewrite andb_false_r. unfold skip_state, bump. by rewrite Hb, Ht, Hby.
Qed.

(** Within 32 turns of the ring the head of the first daemon's lane is paid for. *)
Lemma idle_progress visits ids n0 id0 p x quantum a b rows maxB limit s s' :
  idle ids n0 id0 p x quantum a b s → 0 < quantum →
  ids !! n0 = Some id0 → (n0 < length ids)%nat → (b < length ids)%nat →
  1 ≤ rows → 1 ≤ limit → payloadBytes x ≤ maxB → payloadBytes x ≤ 32 * quantum →
  (a * length ids + b ≤ 31 * length ids)%nat →
  (31 * length ids + 1 ≤ visits + (a * length ids + b))%nat →
  drain_loop visits rows maxB limit false s = Returns s' → batch s' ≠ [].
Proof.
  revert a b s. induction visits as [|visits IH];
    intros a b s Hidle Hpos Hid0 Hn0 Hb Hrows Hlimit HmaxB Hq32 Hle Hfuel Hrun; [lia|].
  destruct (drain_loop_idle _ _ _ _ _ _ _ _ visits rows maxB limit s Hidle Hid0 Hrows Hlimit)
    as (q & id & d & Hv & [(x' & c & q' & Hstep & _ & Heq)|[Hnone Heq]]); rewrite Heq in Hrun.
  - eapply drain_loop_nonempty; [| |exact Hrun].
    + apply (drain_step_served _ _ _ _ _ (id_wf _ _ _ _ _ _ _ _ _ Hidle) Hstep).
    + simpl. by destruct (batch s).
  - destruct (decide (a * length ids + b = 31 * length ids)%nat) as [Hend|Hmore].
    + (* the first daemon is visited again with 32 quanta *)
      exfalso.
      assert (a = 31)%nat as -> by (destruct (Nat.lt_trichotomy a 31) as [?|[?|?]]; nia).
      assert (b = 0)%nat as -> by lia.
      destruct Hidle as [_ _ _ Hwf Hring Hnext Hquant (d0 & rest & Hd0 & Hl0 & Hdef)].
      destruct Hv as [Hv Hd].
      destruct (nextActiveDaemon_spec (dr_queue s)) as (id' & d' & Heq' & Hidx & _ & _);
        [apply Hwf|rewrite Hring; lia|].
      rewrite Hv in Heq'. injection Heq' as -> ->. simpl in Hd, Hnone.
      rewrite Hring, Hnext, Nat.add_0_r, Nat.mod_small, Hid0 in Hidx by done.
      injection Hidx as <-. rewrite Hd0 in Hd. injection Hd as <-.
      destruct (nextEligible_None _ _ p x rest Hnone) as [Hdd|Hdd]; [exact Hl0| |lia].
      simpl in Hdd. rewrite Hquant in Hdd. simpl in Hdef. lia.
    + pose proof (idle_skip _ _ _ _ _ _ _ _ _ _ _ _ Hidle Hpos Hid0 Hn0 Hb Hv) as Hidle'.
      unfold next_visit in Hidle'. destruct (Nat.eqb_spec (S b) (length ids)); simpl in Hidle';
        (eapply IH; [exact Hidle'|..|exact Hrun]; auto; nia).
Qed.

(** ** Reachable states *)

(** The states a queue goes through: envelopes are enqueued once, by a daemon
    that has an id, and only batches that were taken are committed or requeued. *)
Inductive reachable : Queue → Prop :=
| reach_new c : reachable (new_queue c)
| reach_enqueue q e q' r :
    reachable q → daemonId e ≠ EmptyString → obj e ∉ obj <$> admitted q →
    enqueue q e = (q', r) → reachable q'
| reach_take q l q' b :
    reachable q → takeBatch q l = Returns (q', b) → reachable q'
| reach_commit q b r q' :
    reachable q → reserved q ≡ₚ b ++ r → commitBatch q b = (q', Returns tt) → reachable q'
| reach_requeue q b r q' :
    reachable q → reserved q ≡ₚ b ++ r → requeueFront q b = (q', Returns tt) → reachable q'.

Record within_limits (q : Queue) : Prop := {
  in_events : totalCount q ≤ maxEvents (limits q);
  in_bytes : totalBytes q ≤ maxBytes (limits q);
  in_artifacts : totalArtifactCount q ≤ maxArtifactEvents (limits q);
  in_artifactBytes : totalArtifactBytes q ≤ maxArtifactBytes (limits q);
  in_daemon : ∀ id u, usage q !! id = Some u →
    us_count u ≤ maxEventsPerDaemon (limits q) ∧ us_bytes u ≤ maxBytesPerDaemon (limits q)
    ∧ artifactCount u ≤ maxArtifactEventsPerDaemon (limits q)
    ∧ artifactBytes u ≤ maxArtifactBytesPerDaemon (limits q);
  in_event : ∀ e, e ∈ admitted q → bytes_of e ≤ maxEventBytes (limits q);
}.

(** The bounds are inherited by every queue that charges fewer events. *)
Lemma within_limits_sub q q' es :
  wf q → wf q' → within_limits q → limits q' = limits q → admitted q ≡ₚ es ++ admitted q' →
  within_limits q'.
Proof.
  intros (_ & [_ _ Hu Hc Hb Ha Hab] & _) (_ & [_ _ Hu' Hc' Hb' Ha' Hab'] & _)
    [H1 H2 H3 H4 H5 H6] Hlim Hadm.
  assert (Hnn : ∀ l, 0 ≤ sumZ bytes_of l)
    by (intros l; apply sumZ_nonneg; intros; apply json_bytes_nonneg).
  rewrite (sumZ_perm bytes_of _ _ Hadm), sumZ_app in Hb.
  pose proof (bfilter_perm isDocumentArtifact _ _ Hadm) as Hart. rewrite bfilter_app in Hart.
  rewrite (sumZ_perm bytes_of _ _ Hart), sumZ_app in Hab.
  rewrite (Permutation_length Hart), length_app in Ha.
  rewrite (Permutation_length Hadm), length_app in Hc.
  pose proof (Hnn es). pose proof (Hnn (bfilter isDocumentArtifact es)).
  split; rewrite ?Hlim; try lia.
  - intros id u Hid. specialize (Hu id). specialize (Hu' id). rewrite Hid in Hu'.
    pose proof (bfilter_perm (from id) _ _ Hadm) as Hf. rewrite bfilter_app in Hf.
    rewrite (usage_of_perm _ _ Hf) in Hu. set (l := bfilter (from id) es) in *.
    set (l' := bfilter (from id) (admitted q')) in *.
    pose proof (Hnn l). pose proof (Hnn (bfilter isDocumentArtifact l)).
    destruct l' as [|e' l'']; [done|]. destruct (l ++ e' :: l'') as [|e1 l1] eqn:E;
      [by apply app_nil in E as [? ?]|].
    destruct (H5 id _ Hu) as (G1 & G2 & G3 & G4). injection Hu' as ->.
    cbn [us_count us_bytes artifactCount artifactBytes] in *. rewrite <- E in G1, G2, G3, G4.
    rewrite length_app in G1. rewrite sumZ_app in G2.
    rewrite bfilter_app, length_app in G3. rewrite bfilter_app, sumZ_app in G4.
    cbn [length sumZ bfilter] in *. lia.
  - intros e He. apply H6. rewrite Hadm. set_solver.
Qed.

(** The guards of [enqueue] are exactly what the bounds need. *)
Lemma within_limits_enqueue q e q' :
  wf q → within_limits q → daemonId e ≠ EmptyString → obj e ∉ obj <$> admitted q →
  enqueue q e = (q', Accepted) → within_limits q'.
Proof.
  intros Hwf [H1 H2 H3 H4 H5 H6] Hid Hobj Henq. unfold enqueue in Henq.
  change (payloadBytes (toQueued e)) with (bytes_of e) in Henq.
  set (u0 := default no_usage (usage q !! daemonId e)) in Henq.
  destruct (_ <? _) eqn:G1 in Henq; [done|]. destruct (_ && _) eqn:G2 in Henq; [done|].
  destruct (_ || _) eqn:G3 in Henq; [done|]. injection Henq as <-.
  destruct (wf_insertBack q e Hwf Hid Hobj) as (Hwf' & Hadm & Hlim).
  destruct (put_item_fields q (toQueued e)
      (lane_of q (daemonId (event (toQueued e))) (priority (event (toQueued e))) ++ [toQueued e]))
    as (Hr & Hu & K1 & K2 & K3 & K4 & K5).
  assert (Hold : artifactCount u0 ≤ maxArtifactEventsPerDaemon (limits q)
                 ∧ artifactBytes u0 ≤ maxArtifactBytesPerDaemon (limits q)).
  { unfold u0. destruct (usage q !! daemonId e) as [u|] eqn:Eu; simpl.
    - destruct (H5 _ _ Eu). lia.
    - destruct Hwf as (_ & _ & []). lia. }
  assert (Hart : isDocumentArtifact e = true →
    artifactCount u0 < maxArtifactEventsPerDaemon (limits q)
    ∧ artifactBytes u0 + bytes_of e ≤ maxArtifactBytesPerDaemon (limits q)
    ∧ totalArtifactCount q < maxArtifactEvents (limits q)
    ∧ totalArtifactBytes q + bytes_of e ≤ maxArtifactBytes (limits q)).
  { intros Ha. rewrite Ha in G2. cbn [andb] in G2. bool_hyps. lia. }
  clear G2. bool_hyps.
  split; rewrite ?Hlim; rewrite ?insertBack_put;
    cbn [charge totalCount totalBytes totalArtifactCount totalArtifactBytes usage].
  - rewrite K1. lia.
  - rewrite K2. change (payloadBytes (toQueued e)) with (bytes_of e). lia.
  - rewrite K3. simpl. destruct (isDocumentArtifact e); [destruct (Hart eq_refl)|]; lia.
  - rewrite K4. change (payloadBytes (toQueued e)) with (bytes_of e). simpl event.
    destruct (isDocumentArtifact e); [destruct (Hart eq_refl)|]; lia.
  - intros id u. simpl event. destruct (decide (id = daemonId e)) as [->|Hne].
    + rewrite lookup_insert_eq. fold u0. intros [= <-].
      cbn [charge_usage us_count us_bytes artifactCount artifactBytes].
      change (json_bytes (payload e)) with (bytes_of e).
      destruct (isDocumentArtifact e); [destruct (Hart eq_refl)|]; lia.
    + rewrite lookup_insert_ne by done. apply H5.
  - intros e'. rewrite <- insertBack_put, Hadm, elem_of_cons. intros [->|?]; [lia|auto].
Qed.

Lemma reachable_ok q : reachable q → wf q ∧ within_limits q.
Proof.
  induction 1 as [c|q e q' r _ [Hwf Hin] Hid Hobj Henq|q l q' b _ [Hwf Hin] Htake
                 |q b r q' _ [Hwf Hin] Hr Hc|q b r q' _ [Hwf Hin] Hr Hq].
  - split; [apply wf_new|]. pose proof (constructor_limits_ok c) as [].
    split; cbn [new_queue limits totalCount totalBytes totalArtifactCount totalArtifactBytes usage];
      try lia.
    + intros id u. by rewrite lookup_empty.
    + unfold admitted, queued, queued_items. simpl. rewrite map_to_list_empty. simpl. set_solver.
  - destruct r.
    + split; [|by eapply within_limits_enqueue]. unfold enqueue in Henq.
      destruct (_ <? _); [done|]. destruct (_ && _); [done|]. destruct (_ || _); [done|].
      injection Henq as <-. by apply wf_insertBack.
    + assert (q' = q) as ->; [|done]. unfold enqueue in Henq.
      destruct (_ <? _); [by injection Henq|]. destruct (_ && _); [by injection Henq|].
      destruct (_ || _); [by injection Henq|done].
  - destruct (takeBatch_run q l Hwf) as (q1 & b1 & Heq & [Hwf1 Hlim Hres Hqd _] & _).
    rewrite Htake in Heq. injection Heq as -> ->. split; [done|].
    apply (within_limits_sub q q1 []); auto. unfold admitted. rewrite Hqd, Hres.
    rewrite <- (Permutation_rev b1). simpl. solve_Permutation.
  - destruct (commitBatch_spec q b r Hwf Hr) as (q1 & Heq & Hwf1 & Hr1 & Hd & Hlim).
    rewrite Hc in Heq. injection Heq as ->. split; [done|].
    apply (within_limits_sub q q1 b); auto. unfold admitted, queued. rewrite Hd, Hr, Hr1.
    solve_Permutation.
  - destruct (requeueFront_spec q b r Hwf Hr) as (q1 & Heq & Hwf1 & Hr1 & Hlim & Hqd & _).
    rewrite Hq in Heq. injection Heq as ->. split; [done|].
    apply (within_limits_sub q q1 []); auto. unfold admitted. rewrite Hqd, Hr, Hr1. simpl.
    solve_Permutation.
Qed.

(** ** What the next visit of the ring finds *)

Lemma ring_nonempty q : shape q → queued q ≠ [] → (0 < length (activeDaemonIds q))%nat.
Proof.
  intros Hsh Hq. destruct (activeDaemonIds q) as [|id ids] eqn:Eids; [|simpl; lia].
  exfalso. apply Hq. assert (Hem : daemons q = ∅).
  { apply map_empty. intros id. destruct (daemons q !! id) eqn:Hd; [|done].
    assert (id ∈ activeDaemonIds q) by (apply (sh_dom q Hsh); by eexists).
    rewrite Eids in *. set_solver. }
  unfold queued, queued_items. by rewrite Hem, map_to_list_empty.
Qed.

(** The daemon the ring serves next has a non-empty lane, whose head is queued. *)
Lemma next_head q :
  shape q → queued q ≠ [] →
  ∃ id d p x rest,
    activeDaemonIds q !! nextDaemon q = Some id
    ∧ daemons q !! id = Some d ∧ daemon_ok id d
    ∧ lane (byPriority d) p = x :: rest
    ∧ payloadBytes x = bytes_of (event x) ∧ event x ∈ queued q.
Proof.
  intros Hsh Hq. pose proof (ring_nonempty q Hsh Hq) as Hact.
  destruct (nextActiveDaemon_spec q Hsh Hact) as (id & d & _ & Hid & Hd & _).
  pose proof (sh_daemons q Hsh _ _ Hd) as Hok.
  destruct (items d) as [|x rest0] eqn:Eit; [by apply ok_nonempty in Hok|].
  assert (Hx : x ∈ items d) by (rewrite Eit; by left).
  apply elem_of_items in Hx as [p Hx].
  destruct (lane (byPriority d) p) as [|y rest] eqn:El; [set_solver|].
  destruct (ok_lane _ _ Hok p y) as (Hy & _ & _); [rewrite El; by left|].
  exists id, d, p, y, rest. split_and!; auto.
  - unfold bytes_of. by rewrite <- Hy.
  - unfold queued. apply list_elem_of_fmap_2. rewrite (queued_items_delete _ _ _ Hd).
    apply elem_of_app. left. apply elem_of_items. exists p. rewrite El. by left.
Qed.

(** The fair pass of [takeBatch] takes something. *)
Lemma drain_progress q rows maxB cap s1 :
  wf q → queued q ≠ [] → 1 ≤ rows → 1 ≤ cap →
  (∀ e, e ∈ queued q → bytes_of e ≤ maxB) →
  (∀ e, e ∈ queued q → bytes_of e ≤ 32 * quantumBytes (limits q)) →
  drain q [] ∅ rows maxB cap 0 false = Returns s1 → batch s1 ≠ [].
Proof.
  intros Hwf Hq Hrows Hcap Hfit Hquant Hrun. pose proof Hwf as (Hsh & Hacc & Hlims).
  pose proof (ring_nonempty q Hsh Hq) as Hact. pose proof (sh_next q Hsh) as Hn0.
  destruct (next_head q Hsh Hq) as (id0 & d0 & p & y & rest & Hid0 & Hd0 & Hok0 & El & Hyb & Hyq).
  unfold drain in Hrun.
  eapply (idle_progress (maxVisits rows q) (activeDaemonIds q) (nextDaemon q) id0 p y
            (quantumBytes (limits q)) 0 0 rows maxB cap _ s1); [..|exact Hrun]; auto; try lia.
  - split; simpl; auto.
    + rewrite Nat.add_0_r, Nat.mod_small; lia.
    + exists d0, rest. split_and!; auto. pose proof (ok_deficit _ _ Hok0). lia.
  - apply (pos_quantum _ Hlims).
  - rewrite Hyb. by apply Hfit.
  - rewrite Hyb. by apply Hquant.
  - unfold maxVisits. nia.
Qed.

(** ** Claims *)

(** C7: In every reachable state the ring of active daemons, its index, the
    per-daemon queues and all counters agree with the events the queue holds,
    and the number and bytes of the events charged (queued or taken but not yet
    committed) respect every per-daemon and global limit, documents included. *)
Theorem queue_bounded q : reachable q → wf q ∧ within_limits q.
Proof. apply reachable_ok. Qed.

(** C5: A batch is a fair, in-order, bounded part of what was queued: [takeBatch]
    returns on every reachable queue, moves events from the lanes to the batch
    without losing or inventing any, takes from every daemon and priority class a
    prefix of that lane in order, and respects the rows, the bytes and, when
    several daemons were ready, the per-daemon share. *)
Theorem takeBatch_fair q l :
  reachable q →
  ∃ q' b, takeBatch q l = Returns (q', b)
    ∧ queued q ≡ₚ b ++ queued q' ∧ reserved q' = rev b ++ reserved q
    ∧ (∀ id p, lane_of q id p = (toQueued <$> bfilter (in_lane id p) b) ++ lane_of q' id p)
    ∧ len b ≤ nonNegativeInteger (maxRows l) 0
    ∧ sumZ bytes_of b ≤ nonNegativeInteger (batchMaxBytes l) 0
    ∧ (1 < len (activeDaemonIds q) → ∀ id,
         len (bfilter (from id) b)
         ≤ perDaemonCap (nonNegativeInteger (maxRows l) 0) (maxPerDaemonFraction l)).
Proof.
  intros [Hwf _]%reachable_ok.
  destruct (takeBatch_run q l Hwf) as (q' & b & Heq & [Hwf' Hlim Hres Hqd Hl] & H1 & H2 & H3).
  exists q', b. by split_and!.
Qed.

(** A batch that fails to persist goes back unseen: requeueing the batch just
    taken succeeds and restores every lane of every daemon in its original order,
    with the same events charged. *)
Theorem requeue_restores q l q1 b :
  reachable q → takeBatch q l = Returns (q1, b) →
  ∃ q2, requeueFront q1 b = (q2, Returns tt)
    ∧ (∀ id p, lane_of q2 id p = lane_of q id p)
    ∧ reserved q2 ≡ₚ reserved q ∧ queuedCount q2 = queuedCount q ∧ totalCount q2 = totalCount q.
Proof.
  intros [Hwf _]%reachable_ok Htake.
  destruct (takeBatch_run q l Hwf) as (q' & b' & Heq & [Hwf1 Hlim Hres Hqd Hl] & _).
  rewrite Htake in Heq. injection Heq as <- <-.
  destruct (requeueFront_spec q1 b (reserved q) Hwf1) as (q2 & Hq2 & Hwf2 & Hr2 & _ & Hqd2 & Hl2).
  { rewrite Hres. f_equiv. symmetry. apply Permutation_rev. }
  exists q2. split_and!; auto.
  - intros id p. by rewrite Hl2, <- Hl.
  - destruct Hwf as [Hs _], Hwf2 as [Hs2 _]. rewrite (sh_size _ Hs), (sh_size _ Hs2), Hqd2, Hqd. done.
  - destruct Hwf as (_ & Ha & _), Hwf2 as (_ & Ha2 & _).
    rewrite (acc_count _ _ Ha), (acc_count _ _ Ha2). unfold admitted. rewrite Hqd2, Hqd, Hr2. done.
Qed.

(** Committing the batch just taken succeeds and releases exactly its events:
    the queue then charges what is still queued and what was reserved before. *)
Theorem commit_releases q l q1 b :
  reachable q → takeBatch q l = Returns (q1, b) →
  ∃ q2, commitBatch q1 b = (q2, Returns tt)
    ∧ (∀ id p, lane_of q2 id p = lane_of q1 id p)
    ∧ totalCount q2 = totalCount q - len b ∧ totalBytes q2 = totalBytes q - sumZ bytes_of b
    ∧ (∀ id, usage q2 !! id = usage_of (bfilter (from id) (queued q1 ++ reserved q))).
Proof.
  intros [Hwf _]%reachable_ok Htake.
  destruct (takeBatch_run q l Hwf) as (q' & b' & Heq & [Hwf1 Hlim Hres Hqd Hl] & _).
  rewrite Htake in Heq. injection Heq as <- <-.
  destruct (commitBatch_spec q1 b (reserved q) Hwf1) as (q2 & Hq2 & Hwf2 & Hr2 & Hd2 & _).
  { rewrite Hres. f_equiv. symmetry. apply Permutation_rev. }
  destruct Hwf as (_ & Ha & _), Hwf2 as (_ & Ha2 & _).
  assert (Hadm : admitted q2 ≡ₚ queued q1 ++ reserved q)
    by (unfold admitted, queued; rewrite Hd2, Hr2; done).
  exists q2. split_and!; auto.
  - intros id p. unfold lane_of. by rewrite Hd2.
  - rewrite (acc_count _ _ Ha), (acc_count _ _ Ha2), Hadm. unfold admitted. rewrite Hqd.
    rewrite !length_app. lia.
  - rewrite (acc_bytes _ _ Ha), (acc_bytes _ _ Ha2), Hadm. unfold admitted. rewrite Hqd.
    rewrite !sumZ_app. lia.
  - intros id. rewrite (acc_usage _ _ Ha2). apply usage_of_perm. by rewrite Hadm.
Qed.

(** C8: The service loop makes progress: when something is queued, the batch admits
    at least one row and every queued event fits in the batch and in 32 quanta
    (as under the default limits), the batch is not empty, so a flush of the
    controller never stops before the queue is empty. *)
Theorem takeBatch_progress q l :
  reachable q → queued q ≠ [] →
  1 ≤ nonNegativeInteger (maxRows l) 0 →
  1 ≤ nonNegativeInteger (batchMaxBytes l) 0 →
  (∀ e, e ∈ queued q → bytes_of e ≤ nonNegativeInteger (batchMaxBytes l) 0) →
  maxEventBytes (limits q) ≤ 32 * quantumBytes (limits q) →
  ∃ q' b, takeBatch q l = Returns (q', b) ∧ b ≠ [].
Proof.
  intros [Hwf Hin]%reachable_ok Hq Hrows HmaxB Hfit Hquant. unfold takeBatch.
  set (rows := nonNegativeInteger (maxRows l) 0) in *.
  set (maxB := nonNegativeInteger (batchMaxBytes l) 0) in *.
  set (cap := perDaemonCap rows (maxPerDaemonFraction l)).
  assert (Hcap : 1 ≤ cap) by (unfold cap, perDaemonCap; lia).
  pose proof (ring_nonempty q (proj1 Hwf) Hq) as Hact.
  rewrite (proj2 (Z.eqb_neq rows 0)), (proj2 (Z.eqb_neq maxB 0)), (proj2 (Z.eqb_neq _ 0)) by lia.
  cbn [orb].
  set (s0 := {| dr_queue := q; batch := []; perDaemon := ∅; dr_bytes := 0; stalled := 0 |}).
  assert (Hwf0 : wf (dr_queue s0)) by done.
  destruct (drain_loop_steps (maxVisits rows q) rows maxB cap false s0 Hwf0) as (s1 & Hrun & Hst).
  assert (Hne : batch s1 ≠ []).
  { apply (drain_progress q rows maxB cap); auto. intros e He.
    transitivity (maxEventBytes (limits q)); [|done].
    apply (in_event _ Hin). unfold admitted. set_solver. }
  unfold drain. fold s0. rewrite Hrun. pose proof (steps_wf _ _ _ s0 _ Hwf0 Hst) as Hwf1.
  destruct (negb _ && _); [|by exists (dr_queue s1), (batch s1)].
  match goal with |- context [drain_loop ?v rows maxB rows true ?s] =>
    destruct (drain_loop_steps v rows maxB rows true s Hwf1) as (s3 & Hrun3 & _);
    pose proof (drain_loop_nonempty v rows maxB rows true s s3 Hwf1 Hne Hrun3) end.
  rewrite Hrun3. by exists (dr_queue s3), (batch s3).
Qed.

(** ** Witnesses *)

Definition sample_event (o s : Z) (d : string) (p : PriorityClass) : IngressEnvelope := {|
  obj := o; userId := Some 7; daemonId := d; registrationId := "reg"; daemonGeneration := 1;
  seq := s; dedupKey := "k"; sessionId := Some "s"%string; eventType := "session_output";
  priority := p; receiptOnly := false; payload := JObj [("text", JStr "hello")];
  materializationContext := JObj []; receivedAt := 0 |}%string.

Definition sample_queue : Queue :=
  let q := new_queue default_config in
  let q := fst (enqueue q (sample_event 1 1 "a" Live)) in
  fst (enqueue q (sample_event 2 1 "b" Control)).

Definition sample_limits : BatchLimits :=
  {| maxRows := JNum 1; batchMaxBytes := JNum 1000; maxPerDaemonFraction := None |}.

Lemma sample_reachable : reachable sample_queue.
Proof.
  eapply (reach_enqueue (fst (enqueue (new_queue default_config) (sample_event 1 1 "a" Live)))
            (sample_event 2 1 "b" Control)); [| | |reflexivity]; [|done|].
  - eapply (reach_enqueue (new_queue default_config) (sample_event 1 1 "a" Live));
      [apply reach_new|done| |reflexivity].
    apply not_elem_of_nil.
  - vm_compute. intros H. apply elem_of_cons in H as [H|H]; [done|]. by apply elem_of_nil in H.
Qed.

Definition sample_taken : Queue * list IngressEnvelope :=
  match takeBatch sample_queue sample_limits with
  | Returns r => r
  | Throws _ => (sample_queue, [])
  end.

Lemma sample_take :
  takeBatch sample_queue sample_limits = Returns (fst sample_taken, snd sample_taken).
Proof. vm_compute. reflexivity. Qed.

Lemma queue_bounded_witness :
  reachable sample_queue ∧ wf sample_queue ∧ within_limits sample_queue.
Proof. split; [apply sample_reachable|]. apply (queue_bounded _ sample_reachable). Defined.

Lemma takeBatch_fair_witness :
  (1 < len (activeDaemonIds sample_queue))
  ∧ ∃ q' b, takeBatch sample_queue sample_limits = Returns (q', b).
Proof.
  split; [vm_compute; reflexivity|].
  destruct (takeBatch_fair sample_queue sample_limits sample_reachable) as (q' & b & H & _).
  by exists q', b.
Defined.

Lemma requeue_restores_witness :
  snd sample_taken = [sample_event 1 1 "a" Live]
  ∧ ∃ q2, requeueFront (fst sample_taken) (snd sample_taken) = (q2, Returns tt).
Proof.
  split; [vm_compute; reflexivity|].
  destruct (requeue_restores _ sample_limits _ _ sample_reachable sample_take) as (q2 & H & _).
  by exists q2.
Defined.

Lemma commit_releases_witness :
  snd sample_taken = [sample_event 1 1 "a" Live]
  ∧ ∃ q2, commitBatch (fst sample_taken) (snd sample_taken) = (q2, Returns tt).
Proof.
  split; [vm_compute; reflexivity|].
  destruct (commit_releases _ sample_limits _ _ sample_reachable sample_take) as (q2 & H & _).
  by exists q2.
Defined.

Lemma takeBatch_progress_witness :
  queued sample_queue ≠ []
  ∧ ∃ q' b, takeBatch sample_queue sample_limits = Returns (q', b) ∧ b ≠ [].
Proof.
  assert (Hq : queued sample_queue ≠ []) by (vm_compute; congruence).
  split; [exact Hq|].
  apply (takeBatch_progress sample_queue sample_limits sample_reachable Hq).
  - vm_compute. congruence.
  - vm_compute. congruence.
  - intros e He. vm_compute in He.
    repeat (apply elem_of_cons in He as [->|He]; [vm_compute; congruence|]).
    by apply elem_of_nil in He.
  - vm_compute. congruence.
Defined.
