(* ===== verification/InboxRepository.v ===== *)
(** * InboxRepository: durable ingress tables and their operations
      (relay/src/ingress/inbox-repository.ts, schema/durable-ingress.ts,
      materialization/replay-batch-policy.ts).

    [DB] holds the three tables of the schema; a [BIGSERIAL] column has its
    sequence, which neither a conflict nor a rollback gives back.  A statement
    is a function on [DB], run by [query]; [faults n] makes the [n]-th statement
    of a call fail, and says whether a failing statement took effect at the
    server before the connection was lost, which matters for [COMMIT] and for
    statements outside a transaction.  A call is one atomic step: the code takes
    the row locks of the checkpoints it advances ([FOR UPDATE]) before it reads
    the receipts.  Times are milliseconds; [now] is [NOW()] of the statement. *)

From stdpp Require Import pretty.
From S2P Require Import Prelude JsValue JsMap EventPolicy.

#[local] Open Scope Z_scope.

(** ** Tables *)

(** A row of [event_inbox], with the names of the interface [InboxRow]. *)
Record InboxRow : Type := {
  inboxId : Z;
  row_userId : option Z;
  row_daemonId : string;
  row_daemonGeneration : Z;
  row_seq : Z;
  row_dedupKey : string;
  row_sessionId : option string;
  row_eventType : string;
  priorityClass : Z;
  schemaVersion : Z;
  occurredAt : option Z;
  row_receivedAt : Z;
  row_payload : jsval;
  row_materializationContext : jsval;
  status : Z;
  attempts : Z;
  availableAt : Z;
  claimedAt : option Z;
  claimedBy : option string;
  completedAt : option Z;
  materializedEventId : option Z;
  lastError : option string;
}.

(** A row of [event_inbox_receipt]. *)
Record Receipt : Type := {
  receipt_id : Z;
  rcpt_inbox_id : option Z;
  rcpt_daemon_id : string;
  rcpt_daemon_generation : Z;
  rcpt_seq : Z;
  rcpt_received_at : Z;
}.

(** A row of [daemon_ack_checkpoint], under its primary key. *)
Record CheckpointRow : Type := { ack_seq : Z; updated_at : Z }.

Record DB : Type := {
  event_inbox : list InboxRow;
  inbox_id_seq : Z;
  event_inbox_receipt : list Receipt;
  receipt_id_seq : Z;
  daemon_ack_checkpoint : gmap (string * Z) CheckpointRow;
}.

Definition with_inbox (d : DB) (rows : list InboxRow) : DB := {|
  event_inbox := rows; inbox_id_seq := inbox_id_seq d;
  event_inbox_receipt := event_inbox_receipt d; receipt_id_seq := receipt_id_seq d;
  daemon_ack_checkpoint := daemon_ack_checkpoint d |}.

Definition with_checkpoints (d : DB) (m : gmap (string * Z) CheckpointRow) : DB := {|
  event_inbox := event_inbox d; inbox_id_seq := inbox_id_seq d;
  event_inbox_receipt := event_inbox_receipt d; receipt_id_seq := receipt_id_seq d;
  daemon_ack_checkpoint := m |}.

(** ** Statements and transactions *)

Record Fault : Type := { fault_message : string; took_effect : bool }.

Record Session : Type := { db : DB; queries : nat }.

Definition Tx (A : Type) : Type := (nat → option Fault) → Session → Session * outcome A.

#[global] Instance tx_ret : MRet Tx := λ A a faults s, (s, Returns a).

#[global] Instance tx_bind : MBind Tx := λ A B k m faults s,
  match m faults s with
  | (s', Returns a) => k a faults s'
  | (s', Throws e) => (s', Throws e)
  end.

Definition throw {A} (message : string) : Tx A := λ faults s, (s, Throws message).

(** [client.query] of a statement. *)
Definition query {A} (f : DB → DB * A) : Tx A := λ faults s,
  match faults (queries s) with
  | Some e => ({| db := db s; queries := S (queries s) |}, Throws (fault_message e))
  | None => let '(d, a) := f (db s) in ({| db := d; queries := S (queries s) |}, Returns a)
  end.

(** The tables of [d0] with the sequences of [d]. *)
Definition rolled_back (d0 d : DB) : DB := {|
  event_inbox := event_inbox d0; inbox_id_seq := inbox_id_seq d;
  event_inbox_receipt := event_inbox_receipt d0; receipt_id_seq := receipt_id_seq d;
  daemon_ack_checkpoint := daemon_ack_checkpoint d0 |}.

(** [pool.connect], [BEGIN], the body, [COMMIT]; [ROLLBACK] when one of the last
    three throws.  An error of the [ROLLBACK] replaces the one it handles. *)
Definition transaction {A} (faults : nat → option Fault) (body : Tx A) (d0 : DB)
    : DB * outcome A :=
  let rollback (n : nat) (m : string) : outcome A :=
    match faults n with Some e => Throws (fault_message e) | None => Throws m end in
  match faults 0%nat with
  | Some e => (d0, Throws (fault_message e))
  | None =>
      match (_ ← query (λ d, (d, tt)); body) faults {| db := d0; queries := 1 |} with
      | (s, Throws m) => (rolled_back d0 (db s), rollback (queries s) m)
      | (s, Returns a) =>
          match faults (queries s) with
          | None => (db s, Returns a)
          | Some e =>
              (if took_effect e then db s else rolled_back d0 (db s),
               rollback (S (queries s)) (fault_message e))
          end
      end
  end.

(** [pool.query] outside a transaction: the first and only statement. *)
Definition pool_query {A} (faults : nat → option Fault) (f : DB → DB * A) (d : DB)
    : DB * outcome A :=
  match faults 0%nat with
  | None => let '(d', a) := f d in (d', Returns a)
  | Some e => (if took_effect e then fst (f d) else d, Throws (fault_message e))
  end.

(** ** Keys *)

Definition PRIORITY_CLASS (p : PriorityClass) : Z :=
  match p with Control => 0 | Live => 1 | Replay => 2 | Aggregate => 3 end.

Definition nul : string := String (Ascii.ascii_of_nat 0) EmptyString.

Definition checkpointKey (daemonId : string) (daemonGeneration : Z) : string :=
  daemonId +:+ nul +:+ pretty daemonGeneration.

Definition canonicalKey (userId : option Z) (dedupKey : string) : string :=
  default EmptyString (stringify (JArr [JNum (default 0 userId); JStr dedupKey])).

Definition coordinateKey (daemonId : string) (daemonGeneration seq : Z) : string :=
  checkpointKey daemonId daemonGeneration +:+ nul +:+ pretty seq.

Definition transportKey (e : IngressEnvelope) : string :=
  coordinateKey (daemonId e) (daemonGeneration e) (seq e).

Definition receiptTransportKey (r : Receipt) : string :=
  coordinateKey (rcpt_daemon_id r) (rcpt_daemon_generation r) (rcpt_seq r).

Definition event_canonicalKey (e : IngressEnvelope) : string :=
  canonicalKey (userId e) (dedupKey e).

Definition row_canonicalKey (r : InboxRow) : string :=
  canonicalKey (row_userId r) (row_dedupKey r).

Definition toCheckpoint (daemon_id : string) (daemon_generation : Z) (row : CheckpointRow)
    : AckCheckpoint := {|
  ack_daemonId := daemon_id;
  ack_daemonGeneration := daemon_generation;
  ackSeq := ack_seq row |}.

(** The columns are the fields; a JSON [null] context becomes the empty object. *)
Definition toInboxRow (r : InboxRow) : InboxRow := {|
  inboxId := inboxId r; row_userId := row_userId r; row_daemonId := row_daemonId r;
  row_daemonGeneration := row_daemonGeneration r; row_seq := row_seq r;
  row_dedupKey := row_dedupKey r; row_sessionId := row_sessionId r;
  row_eventType := row_eventType r; priorityClass := priorityClass r;
  schemaVersion := schemaVersion r; occurredAt := occurredAt r;
  row_receivedAt := row_receivedAt r; row_payload := row_payload r;
  row_materializationContext := nullish (row_materializationContext r) (JObj []);
  status := status r; attempts := attempts r; availableAt := availableAt r;
  claimedAt := claimedAt r; claimedBy := claimedBy r; completedAt := completedAt r;
  materializedEventId := materializedEventId r; lastError := lastError r |}.

(** ** Statements of [persistBatch] *)

Section persist.
Context (now : Z).

(** [INSERT INTO daemon_ack_checkpoint ... ON CONFLICT DO NOTHING]. *)
Definition insert_checkpoint (id : string) (generation : Z) (d : DB) : DB * unit :=
  match daemon_ack_checkpoint d !! (id, generation) with
  | Some _ => (d, tt)
  | None =>
      (with_checkpoints d
         (<[(id, generation) := {| ack_seq := 0; updated_at := now |}]> (daemon_ack_checkpoint d)),
       tt)
  end.

Definition select_checkpoint (id : string) (generation : Z) (d : DB) : DB * option CheckpointRow :=
  (d, daemon_ack_checkpoint d !! (id, generation)).

Definition lockCheckpoint (id : string) (generation : Z) : Tx AckCheckpoint :=
  _ ← query (insert_checkpoint id generation);
  row ← query (select_checkpoint id generation);
  match row with
  | None => throw "checkpoint row unavailable after initialization"
  | Some row => mret (toCheckpoint id generation row)
  end.

(** The row an [INSERT INTO event_inbox] makes of an event, with the column
    defaults of the schema. *)
Definition new_inbox_row (id : Z) (e : IngressEnvelope) : InboxRow := {|
  inboxId := id;
  row_userId := userId e;
  row_daemonId := daemonId e;
  row_daemonGeneration := daemonGeneration e;
  row_seq := seq e;
  row_dedupKey := dedupKey e;
  row_sessionId := sessionId e;
  row_eventType := eventType e;
  priorityClass := PRIORITY_CLASS (priority e);
  schemaVersion := 1;
  occurredAt := None;
  row_receivedAt := receivedAt e;
  row_payload := payload e;
  row_materializationContext := materializationContext e;
  status := 0;
  attempts := 0;
  availableAt := now;
  claimedAt := None;
  claimedBy := None;
  completedAt := None;
  materializedEventId := None;
  lastError := None |}.

(** The unique index [((COALESCE(user_id, 0)), dedup_key)]. *)
Definition same_canonical (e : IngressEnvelope) (r : InboxRow) : bool :=
  (default 0 (row_userId r) =? default 0 (userId e)) && bool_decide (row_dedupKey r = dedupKey e).

(** A [RETURNING inbox_id, user_id, dedup_key] row. *)
Definition canonical_result (r : InboxRow) : Z * option Z * string :=
  (inboxId r, row_userId r, row_dedupKey r).

(** One tuple of the upsert.  The default of [inbox_id] is taken from the
    sequence before the conflict is found; the conflict action assigns the
    value [dedup_key] already has. *)
Definition upsert_one (e : IngressEnvelope) (d : DB) : DB * (Z * option Z * string) :=
  let id := inbox_id_seq d in
  let rows :=
    match find_first (same_canonical e) (event_inbox d) with
    | Some _ => event_inbox d
    | None => event_inbox d ++ [new_inbox_row id e]
    end in
  let r := default (new_inbox_row id e) (find_first (same_canonical e) (event_inbox d)) in
  ({| event_inbox := rows; inbox_id_seq := id + 1;
      event_inbox_receipt := event_inbox_receipt d; receipt_id_seq := receipt_id_seq d;
      daemon_ack_checkpoint := daemon_ack_checkpoint d |}, canonical_result r).

Fixpoint upsert_all (events : list IngressEnvelope) (d : DB)
    : DB * list (Z * option Z * string) :=
  match events with
  | [] => (d, [])
  | e :: rest =>
      let '(d, r) := upsert_one e d in
      let '(d, rs) := upsert_all rest d in
      (d, r :: rs)
  end.

Definition upsertCanonicalInboxRows (events : list IngressEnvelope) : Tx (jsmap string Z) :=
  let unique := map_first event_canonicalKey events in
  match unique with
  | [] => mret []
  | _ =>
      let ordered := (sort_by_key unique).*2 in
      rows ← query (upsert_all ordered);
      mret (map_of (λ '(_, u, k), canonicalKey u k) (λ '(id, _, _), id) rows)
  end.

(** The scan that fills [coordinates]; [None] is the mismatch it throws on. *)
Fixpoint collect_coordinates (events : list IngressEnvelope) (m : jsmap string IngressEnvelope)
    : option (jsmap string IngressEnvelope) :=
  match events with
  | [] => Some m
  | e :: rest =>
      match map_get m (transportKey e) with
      | Some existing =>
          if bool_decide (event_canonicalKey existing = event_canonicalKey e)
          then collect_coordinates rest m
          else None
      | None => collect_coordinates rest (map_set m (transportKey e) e)
      end
  end.

Definition at_coordinate (e : IngressEnvelope) (r : Receipt) : bool :=
  bool_decide (rcpt_daemon_id r = daemonId e)
  && (rcpt_daemon_generation r =? daemonGeneration e) && (rcpt_seq r =? seq e).

(** The [LEFT JOIN event_inbox] of a receipt. *)
Definition inbox_of (d : DB) (r : Receipt) : option InboxRow :=
  match rcpt_inbox_id r with
  | Some id => find_first (λ row, inboxId row =? id) (event_inbox d)
  | None => None
  end.

(** The receipts at the incoming coordinates, each with its inbox row; the
    [ORDER BY] only fixes the order in which the rows are locked. *)
Definition select_receipts (events : list IngressEnvelope) (d : DB)
    : DB * list (Receipt * option InboxRow) :=
  (d, map (λ r, (r, inbox_of d r))
        (bfilter (λ r, existsb (λ e, at_coordinate e r) events) (event_inbox_receipt d))).

(** Whether an existing receipt is the one this event would write. *)
Definition receipt_matches (coordinates : jsmap string IngressEnvelope)
    (x : Receipt * option InboxRow) : bool :=
  let '(r, row) := x in
  match map_get coordinates (receiptTransportKey r) with
  | None => false
  | Some e =>
      let matchesReceiptOnly :=
        match rcpt_inbox_id r with None => receiptOnly e | Some _ => false end in
      let matchesCanonical :=
        match rcpt_inbox_id r, row with
        | Some _, Some row =>
            negb (receiptOnly e) && bool_decide (row_canonicalKey row = event_canonicalKey e)
        | _, _ => false
        end in
      matchesReceiptOnly || matchesCanonical
  end.

Definition lockAndFilterExistingReceipts (events : list IngressEnvelope)
    : Tx (list IngressEnvelope) :=
  match collect_coordinates events [] with
  | None => throw "transport coordinate canonical mismatch"
  | Some [] => mret []
  | Some coordinates =>
      existing ← query (select_receipts coordinates.*2);
      if forallb (receipt_matches coordinates) existing then
        let existingKeys := map (λ x, receiptTransportKey (fst x)) existing in
        mret (bfilter (λ x, negb (bool_decide (fst x ∈ existingKeys))) coordinates).*2
      else throw "transport coordinate canonical mismatch"
  end.

(** The receipt tuple of an event: [Throws] when its inbox row is unknown. *)
Definition receipt_tuple (inboxIds : jsmap string Z) (e : IngressEnvelope)
    : outcome (option Z * IngressEnvelope) :=
  if receiptOnly e then Returns (None, e)
  else
    match map_get inboxIds (event_canonicalKey e) with
    | Some id => Returns (Some id, e)
    | None => Throws "canonical inbox row unavailable for receipt"
    end.

Fixpoint receipt_tuples (inboxIds : jsmap string Z) (events : list IngressEnvelope)
    : outcome (list (option Z * IngressEnvelope)) :=
  match events with
  | [] => Returns []
  | e :: rest =>
      try! t := receipt_tuple inboxIds e in
      try! ts := receipt_tuples inboxIds rest in
      Returns (t :: ts)
  end.

Definition new_receipt (id : Z) (inbox : option Z) (e : IngressEnvelope) : Receipt := {|
  receipt_id := id; rcpt_inbox_id := inbox; rcpt_daemon_id := daemonId e;
  rcpt_daemon_generation := daemonGeneration e; rcpt_seq := seq e;
  rcpt_received_at := receivedAt e |}.

(** One tuple of [INSERT INTO event_inbox_receipt ... ON CONFLICT DO NOTHING]. *)
Definition insert_receipt (t : option Z * IngressEnvelope) (d : DB) : DB := {|
  event_inbox := event_inbox d; inbox_id_seq := inbox_id_seq d;
  event_inbox_receipt :=
    if existsb (at_coordinate (snd t)) (event_inbox_receipt d) then event_inbox_receipt d
    else event_inbox_receipt d ++ [new_receipt (receipt_id_seq d) (fst t) (snd t)];
  receipt_id_seq := receipt_id_seq d + 1;
  daemon_ack_checkpoint := daemon_ack_checkpoint d |}.

Definition insertTransportReceipts (events : list IngressEnvelope) (inboxIds : jsmap string Z)
    : Tx unit :=
  match events with
  | [] => mret tt
  | _ =>
      match receipt_tuples inboxIds events with
      | Throws m => throw m
      | Returns tuples => query (λ d, (foldl (λ d t, insert_receipt t d) d tuples, tt))
      end
  end.

Definition receipt_at (d : DB) (id : string) (generation seq : Z) : bool :=
  existsb (λ r, bool_decide (rcpt_daemon_id r = id) && (rcpt_daemon_generation r =? generation)
                && (rcpt_seq r =? seq)) (event_inbox_receipt d).

(** [WITH RECURSIVE contiguous(seq)]: the recursive term joins the receipt at
    [seq + 1] until there is none, and [MAX] is the last value.  The receipts at
    successive coordinates are distinct rows, so their number bounds the
    recursion. *)
Fixpoint contiguous_from (fuel : nat) (d : DB) (id : string) (generation seq : Z) : Z :=
  match fuel with
  | O => seq
  | S fuel' =>
      if receipt_at d id generation (seq + 1)
      then contiguous_from fuel' d id generation (seq + 1) else seq
  end.

Definition contiguous (id : string) (generation seq : Z) (d : DB) : Z :=
  contiguous_from (length (event_inbox_receipt d)) d id generation seq.

(** [UPDATE daemon_ack_checkpoint SET ack_seq, updated_at]. *)
Definition update_checkpoint (id : string) (generation ackSeq : Z) (d : DB) : DB * unit :=
  (with_checkpoints d
     (alter (λ _, {| ack_seq := ackSeq; updated_at := now |}) (id, generation)
        (daemon_ack_checkpoint d)), tt).

Definition advanceContiguousCheckpoint (c : AckCheckpoint) : Tx AckCheckpoint :=
  let id := ack_daemonId c in
  let generation := ack_daemonGeneration c in
  a ← query (λ d, (d, contiguous id generation (ackSeq c) d));
  _ ← (if a =? ackSeq c then mret tt else query (update_checkpoint id generation a));
  mret {| ack_daemonId := id; ack_daemonGeneration := generation; ackSeq := a |}.

Definition lock_all (inputs : jsmap string (string * Z)) : Tx (jsmap string AckCheckpoint) :=
  mapM (λ '(key, (id, generation)),
          c ← lockCheckpoint id generation; mret (key, c)) inputs.

Definition advance_all (checkpoints : jsmap string AckCheckpoint)
    : Tx (jsmap string AckCheckpoint) :=
  mapM (λ '(key, c), c ← advanceContiguousCheckpoint c; mret (key, c)) checkpoints.

Definition event_checkpointKey (e : IngressEnvelope) : string :=
  checkpointKey (daemonId e) (daemonGeneration e).

(** The events above the checkpoint of their stream. *)
Definition unacked (checkpoints : jsmap string AckCheckpoint) (e : IngressEnvelope) : bool :=
  match map_get checkpoints (event_checkpointKey e) with
  | Some c => ackSeq c <? seq e
  | None => false
  end.

Definition persist_body (events : list IngressEnvelope) : Tx (jsmap string AckCheckpoint) :=
  let generationInputs :=
    map_of event_checkpointKey (λ e, (daemonId e, daemonGeneration e)) events in
  checkpoints ← lock_all (sort_by_key generationInputs);
  pendingEvents ← lockAndFilterExistingReceipts (bfilter (unacked checkpoints) events);
  inboxIds ← upsertCanonicalInboxRows (bfilter (λ e, negb (receiptOnly e)) pendingEvents);
  _ ← insertTransportReceipts pendingEvents inboxIds;
  advance_all checkpoints.

Definition persistBatch (faults : nat → option Fault) (events : list IngressEnvelope) (d : DB)
    : DB * outcome (jsmap string AckCheckpoint) :=
  transaction faults (persist_body events) d.
End persist.

(** [GREATEST] on a conflict; the timestamp only moves when the value does. *)
Definition seed_row (now : Z) (old : option CheckpointRow) (acked : Z) : CheckpointRow :=
  match old with
  | None => {| ack_seq := acked; updated_at := now |}
  | Some c => {| ack_seq := Z.max (ack_seq c) acked;
                 updated_at := if ack_seq c <? acked then now else updated_at c |}
  end.

Definition seedCheckpoint (now : Z) (faults : nat → option Fault) (id : string)
    (generation ackedSeq : Z) (d : DB) : DB * outcome AckCheckpoint :=
  pool_query faults (λ d,
    let row := seed_row now (daemon_ack_checkpoint d !! (id, generation)) ackedSeq in
    (with_checkpoints d (<[(id, generation) := row]> (daemon_ack_checkpoint d)),
     toCheckpoint id generation row)) d.

(** ** Claims *)

Definition unresolved (r : InboxRow) : bool := (status r =? 0) || (status r =? 1).

Definition same_stream (r s : InboxRow) : bool :=
  bool_decide (row_daemonId r = row_daemonId s)
  && (row_daemonGeneration r =? row_daemonGeneration s).

(** The order of a stream: by [seq], then by [inbox_id]. *)
Definition stream_before (r s : InboxRow) : bool :=
  (row_seq r <? row_seq s) || ((row_seq r =? row_seq s) && (inboxId r <? inboxId s)).

(** [stream_heads]: [DISTINCT ON] keeps the first unresolved row of each stream. *)
Definition is_stream_head (rows : list InboxRow) (r : InboxRow) : bool :=
  unresolved r
  && forallb (λ s, negb (unresolved s && same_stream r s && stream_before s r)) rows.

(** [ORDER BY priority_class, received_at, inbox_id]. *)
Definition claim_le (r s : InboxRow) : Prop :=
  priorityClass r < priorityClass s
  ∨ (priorityClass r = priorityClass s
     ∧ (row_receivedAt r < row_receivedAt s
        ∨ (row_receivedAt r = row_receivedAt s ∧ inboxId r ≤ inboxId s))).

#[global] Instance claim_le_dec : RelDecision claim_le.
Proof. intros r s. unfold claim_le. apply _. Defined.

Record ClaimBatchOptions : Type := {
  workerId : string;
  claimLimit : Z;
  shardCount : Z;
  shardIndex : Z;
}.

Section claims.
(** [hashtext] of PostgreSQL, and the rows other transactions hold locked. *)
Context (hashtext : string → Z).

Definition in_shard (o : ClaimBatchOptions) (r : InboxRow) : bool :=
  Z.abs (hashtext (row_daemonId r)) mod shardCount o =? shardIndex o.

(** [candidates]: ready heads of the shard, in claim order, without the rows
    another transaction holds ([SKIP LOCKED]), up to the limit. *)
Definition claim_candidates (now : Z) (locked : list Z) (o : ClaimBatchOptions)
    (rows : list InboxRow) : list InboxRow :=
  take (Z.to_nat (Z.max 0 (claimLimit o)))
    (merge_sort claim_le
       (bfilter (λ r, is_stream_head rows r && (status r =? 0) && (availableAt r <=? now)
                      && in_shard o r && negb (bool_decide (inboxId r ∈ locked))) rows)).

(** [UPDATE ... SET status = 1, attempts = attempts + 1, ...]. *)
Definition claim_row (now : Z) (worker : string) (r : InboxRow) : InboxRow := {|
  inboxId := inboxId r; row_userId := row_userId r; row_daemonId := row_daemonId r;
  row_daemonGeneration := row_daemonGeneration r; row_seq := row_seq r;
  row_dedupKey := row_dedupKey r; row_sessionId := row_sessionId r;
  row_eventType := row_eventType r; priorityClass := priorityClass r;
  schemaVersion := schemaVersion r; occurredAt := occurredAt r;
  row_receivedAt := row_receivedAt r; row_payload := row_payload r;
  row_materializationContext := row_materializationContext r;
  status := 1; attempts := attempts r + 1; availableAt := availableAt r;
  claimedAt := Some now; claimedBy := Some worker; completedAt := completedAt r;
  materializedEventId := materializedEventId r; lastError := None |}.

(** An [UPDATE] of the rows that satisfy a condition. *)
Definition update_where (p : InboxRow → bool) (f : InboxRow → InboxRow) (rows : list InboxRow)
    : list InboxRow :=
  map (λ r, if p r then f r else r) rows.

Definition claimBatch (now : Z) (faults : nat → option Fault) (locked : list Z)
    (o : ClaimBatchOptions) (d : DB) : DB * outcome (list InboxRow) :=
  if Z.max 0 (claimLimit o) =? 0 then (d, Returns [])
  else if (shardCount o <? 1) || (shardIndex o <? 0) || (shardCount o <=? shardIndex o)
  then (d, Throws "invalid inbox shard")
  else
    pool_query faults (λ d,
      let ids := inboxId <$> claim_candidates now locked o (event_inbox d) in
      let chosen r := bool_decide (inboxId r ∈ ids) && (status r =? 0) in
      (with_inbox d (update_where chosen (claim_row now (workerId o)) (event_inbox d)),
       map toInboxRow
         (merge_sort claim_le (map (claim_row now (workerId o)) (bfilter chosen (event_inbox d))))))
      d.
End claims.

(** ** Replay prefix *)

Definition contentTypes : list string :=
  ["tool_result"; "tool_call"; "agent_text"; "agent_reasoning"; "agent_patch"; "agent_file";
   "agent_file_change"; "agent_plan"; "agent_todo"; "agent_compaction"]%string.

Definition REPLAY_BATCH_MAX_BYTES : Z := 512 * 1024.

(** [Object.entries] of a JSON value. *)
Definition js_entries (v : jsval) : list (string * jsval) :=
  match v with
  | JObj fields => fields
  | JArr l => imap (λ i x, (pretty i, x)) l
  | JStr s => imap (λ i c, (pretty i, JStr (String c EmptyString))) (chars s)
  | _ => []
  end.

Definition replay_context_entry (kv : string * jsval) : bool :=
  bool_decide (fst kv ∈ ["agentType"; "cwd"; "hostname"]%string)
  || (bool_decide (fst kv = "reservationId"%string) && is_nullish (snd kv)).

Definition isSideEffectFreeReplay (r : InboxRow) : bool :=
  match row_userId r with Some u => 0 <? u | None => false end
  && match row_sessionId r with
     | Some s => negb (bool_decide (s = EmptyString)) && is_str (js_get (row_payload r) "session_id") s
     | None => false
     end
  && bool_decide (row_eventType r ∈ contentTypes)
  && is_str (js_get (row_payload r) "type") (row_eventType r)
  && is_true (js_get (row_payload r) "resync")
  && is_nullish (js_get (row_payload r) "usage")
  && negb (is_true (js_get (row_payload r) "is_subagent"))
  && is_nullish (js_get (row_payload r) "request_id")
  && match nonempty_str (js_get (row_payload r) "event_id") with Some _ => true | None => false end
  && forallb replay_context_entry (js_entries (nullish (row_materializationContext r) (JObj []))).

Definition stream_le (r s : InboxRow) : Prop :=
  row_seq r < row_seq s ∨ (row_seq r = row_seq s ∧ inboxId r ≤ inboxId s).

#[global] Instance stream_le_dec : RelDecision stream_le.
Proof. intros r s. unfold stream_le. apply _. Defined.

(** Whether a follower may join the batch of its head. *)
Definition joins_replay (now : Z) (head r : InboxRow) : bool :=
  (status r =? 0) && (availableAt r <=? now) && (priorityClass r =? 2)
  && bool_decide (row_userId r = row_userId head)
  && bool_decide (row_sessionId r = row_sessionId head)
  && isSideEffectFreeReplay r.

(** The loop over the followers, with the bytes used so far. *)
Fixpoint replay_prefix (now : Z) (head : InboxRow) (bytes : Z) (rows : list InboxRow)
    : list InboxRow :=
  match rows with
  | [] => []
  | raw :: rest =>
      let r := toInboxRow raw in
      if negb (joins_replay now head r) then []
      else
        let bytes := bytes + json_bytes (row_payload r) in
        if REPLAY_BATCH_MAX_BYTES <? bytes then [] else r :: replay_prefix now head bytes rest
  end.

Definition followers (head : InboxRow) (size : Z) (rows : list InboxRow) : list InboxRow :=
  take (Z.to_nat size)
    (merge_sort stream_le
       (bfilter (λ r, same_stream head r && unresolved r && stream_before head r) rows)).

Definition readReplayPrefix (now : Z) (faults : nat → option Fault) (head : InboxRow) (limit : Z)
    (d : DB) : outcome (list InboxRow) :=
  if negb (priorityClass head =? 2) || negb (isSideEffectFreeReplay head) then Returns []
  else
    let size := Z.min 31 (Z.max 0 (limit - 1)) in
    if size =? 0 then Returns []
    else
      try! next := snd (pool_query faults (λ d, (d, followers head size (event_inbox d))) d) in
      let bytes := json_bytes (row_payload head) in
      if REPLAY_BATCH_MAX_BYTES <? bytes then Returns []
      else Returns (replay_prefix now head bytes next).

(** ** Settling and renewing a claim *)

(** The fence of a settlement: [inbox_id], [status = 1], [claimed_by], [attempts]. *)
Definition holds_claim (id : Z) (worker : string) (n : Z) (r : InboxRow) : bool :=
  (inboxId r =? id) && (status r =? 1) && bool_decide (claimedBy r = Some worker)
  && (attempts r =? n).

(** The row a settlement writes: the claim is released. *)
Definition settle_row (st : Z) (available : Z) (completed : option Z) (materialized : option Z)
    (error : option string) (r : InboxRow) : InboxRow := {|
  inboxId := inboxId r; row_userId := row_userId r; row_daemonId := row_daemonId r;
  row_daemonGeneration := row_daemonGeneration r; row_seq := row_seq r;
  row_dedupKey := row_dedupKey r; row_sessionId := row_sessionId r;
  row_eventType := row_eventType r; priorityClass := priorityClass r;
  schemaVersion := schemaVersion r; occurredAt := occurredAt r;
  row_receivedAt := row_receivedAt r; row_payload := row_payload r;
  row_materializationContext := row_materializationContext r;
  status := st; attempts := attempts r; availableAt := available;
  claimedAt := None; claimedBy := None; completedAt := completed;
  materializedEventId := materialized; lastError := error |}.

Definition LostClaimError : string := "inbox claim lost".

(** An [UPDATE] fenced by the claim: exactly one row, or the claim is lost. *)
Definition fenced_update (faults : nat → option Fault) (id : Z) (worker : string) (n : Z)
    (f : InboxRow → InboxRow) (d : DB) : DB * outcome unit :=
  let '(d, r) := pool_query faults (λ d,
    let p := holds_claim id worker n in
    (with_inbox d (update_where p f (event_inbox d)), len (bfilter p (event_inbox d)))) d in
  (d, try! count := r in if count =? 1 then Returns tt else Throws LostClaimError).

Definition reschedule (faults : nat → option Fault) (id n available : Z) (error worker : string)
    (d : DB) : DB * outcome unit :=
  fenced_update faults id worker n
    (λ r, settle_row 0 available None (materializedEventId r) (Some error) r) d.

Definition complete (now : Z) (faults : nat → option Fault) (id : Z) (eventId : option Z)
    (worker : string) (n : Z) (d : DB) : DB * outcome unit :=
  fenced_update faults id worker n
    (λ r, settle_row 2 (availableAt r) (Some now) eventId None r) d.

Definition deadLetter (now : Z) (faults : nat → option Fault) (id n : Z) (error worker : string)
    (d : DB) : DB * outcome unit :=
  fenced_update faults id worker n
    (λ r, settle_row 3 (availableAt r) (Some now) (materializedEventId r) (Some error) r) d.

Record ClaimFence : Type := { fence_inboxId : Z; fence_attempts : Z }.

Definition renew_row (now : Z) (r : InboxRow) : InboxRow := {|
  inboxId := inboxId r; row_userId := row_userId r; row_daemonId := row_daemonId r;
  row_daemonGeneration := row_daemonGeneration r; row_seq := row_seq r;
  row_dedupKey := row_dedupKey r; row_sessionId := row_sessionId r;
  row_eventType := row_eventType r; priorityClass := priorityClass r;
  schemaVersion := schemaVersion r; occurredAt := occurredAt r;
  row_receivedAt := row_receivedAt r; row_payload := row_payload r;
  row_materializationContext := row_materializationContext r;
  status := status r; attempts := attempts r; availableAt := availableAt r;
  claimedAt := Some now; claimedBy := claimedBy r; completedAt := completedAt r;
  materializedEventId := materializedEventId r; lastError := lastError r |}.

Definition renewClaims (now : Z) (faults : nat → option Fault) (claims : list ClaimFence)
    (worker : string) (d : DB) : DB * outcome (list Z) :=
  match claims with
  | [] => (d, Returns [])
  | _ =>
      let p r := existsb (λ c, holds_claim (fence_inboxId c) worker (fence_attempts c) r) claims in
      pool_query faults (λ d,
        (with_inbox d (update_where p (renew_row now) (event_inbox d)),
         inboxId <$> bfilter p (event_inbox d))) d
  end.

(** [ORDER BY claimed_at, inbox_id] of the stale claims. *)
Definition stale_le (r s : InboxRow) : Prop :=
  default 0 (claimedAt r) < default 0 (claimedAt s)
  ∨ (default 0 (claimedAt r) = default 0 (claimedAt s) ∧ inboxId r ≤ inboxId s).

#[global] Instance stale_le_dec : RelDecision stale_le.
Proof. intros r s. unfold stale_le. apply _. Defined.

(** A claim not renewed for longer than the lease; a [NULL] time never is. *)
Definition is_stale (now leaseMs : Z) (r : InboxRow) : bool :=
  (status r =? 1) && match claimedAt r with Some t => t <? now - leaseMs | None => false end.

Definition stale_claims (now leaseMs limit : Z) (locked : list Z) (rows : list InboxRow)
    : list InboxRow :=
  take (Z.to_nat limit)
    (merge_sort stale_le
       (bfilter (λ r, is_stale now leaseMs r && negb (bool_decide (inboxId r ∈ locked))) rows)).

Definition resetStaleClaims (now : Z) (faults : nat → option Fault) (locked : list Z)
    (leaseMs limit : Z) (d : DB) : DB * outcome Z :=
  pool_query faults (λ d,
    let ids := inboxId <$> stale_claims now (Z.max 1 leaseMs) (Z.max 1 limit) locked (event_inbox d) in
    let p r := bool_decide (inboxId r ∈ ids) in
    (with_inbox d (update_where p
       (λ r, settle_row 0 now None (materializedEventId r) (lastError r) r) (event_inbox d)),
     len (bfilter p (event_inbox d)))) d.
