(* ===== verification/InboxFacts.v ===== *)
(** * InboxFacts: the tables' invariant and the specification of [persistBatch].

    - the composite keys determine their components;
    - [wp], a weakest-precondition calculus for the statements of a transaction:
      one postcondition for a normal return, one for a thrown error;
    - [db_ok], what the schema's constraints and the operations maintain;
    - the effect of each step of [persistBatch], composed in [persist_spec]. *)

From stdpp Require Import pretty.
From S2P Require Import Prelude JsValue JsMap EventPolicy InboxRepository.

#[local] Open Scope Z_scope.

(** ** Keys *)

Lemma checkpointKey_inj d1 g1 d2 g2 :
  checkpointKey d1 g1 = checkpointKey d2 g2 → d1 = d2 ∧ g1 = g2.
Proof.
  intros H. apply (f_equal chars) in H. unfold checkpointKey in H. rewrite !chars_app in H.
  apply split_last_inj in H as [Hd Hg]; try by apply pretty_Z_plain.
  apply chars_inj in Hd, Hg. by simplify_eq.
Qed.

Lemma coordinateKey_inj d1 g1 s1 d2 g2 s2 :
  coordinateKey d1 g1 s1 = coordinateKey d2 g2 s2 → d1 = d2 ∧ g1 = g2 ∧ s1 = s2.
Proof.
  intros H. apply (f_equal chars) in H. unfold coordinateKey in H. rewrite !chars_app in H.
  apply split_last_inj in H as [Hc Hs]; try by apply pretty_Z_plain.
  apply chars_inj in Hc, Hs. apply checkpointKey_inj in Hc as [-> ->]. by simplify_eq.
Qed.

Lemma canonicalKey_chars u k :
  chars (canonicalKey u k)
  = Ascii.ascii_of_nat 91 :: chars (pretty (default 0 u)) ++ Ascii.ascii_of_nat 44
      :: Ascii.ascii_of_nat 34 :: chars (json_chars k) ++ Ascii.ascii_of_nat 34
      :: [Ascii.ascii_of_nat 93].
Proof.
  unfold canonicalKey. cbn [stringify map join default]. unfold json_quote, id.
  rewrite !chars_app. cbn [chars String.list_ascii_of_string app dquote].
  rewrite <- app_assoc. cbn [app]. do 2 f_equal. rewrite <- app_assoc. done.
Qed.

Lemma canonicalKey_inj u1 k1 u2 k2 :
  canonicalKey u1 k1 = canonicalKey u2 k2 → default 0 u1 = default 0 u2 ∧ k1 = k2.
Proof.
  intros H. apply (f_equal chars) in H. rewrite !canonicalKey_chars in H.
  injection H as H. apply split_first_inj in H as [Hu H]; try by apply pretty_Z_plain.
  injection H as H. apply json_chars_inj in H as ->. apply chars_inj in Hu. by simplify_eq.
Qed.

Lemma canonicalKey_eq u1 k1 u2 k2 :
  canonicalKey u1 k1 = canonicalKey u2 k2 ↔ default 0 u1 = default 0 u2 ∧ k1 = k2.
Proof.
  split; [apply canonicalKey_inj|]. intros [Hu ->]. unfold canonicalKey. by rewrite Hu.
Qed.

Lemma same_canonical_key e r :
  same_canonical e r = true ↔ row_canonicalKey r = event_canonicalKey e.
Proof.
  unfold same_canonical, row_canonicalKey, event_canonicalKey.
  rewrite andb_true_iff, Z.eqb_eq, bool_decide_eq_true, canonicalKey_eq. done.
Qed.

Lemma at_coordinate_key e r :
  at_coordinate e r = true ↔ receiptTransportKey r = transportKey e.
Proof.
  unfold at_coordinate, receiptTransportKey, transportKey.
  rewrite !andb_true_iff, !Z.eqb_eq, bool_decide_eq_true. split.
  - intros [[-> ->] ->]. done.
  - intros (-> & -> & ->)%coordinateKey_inj. done.
Qed.

Lemma receipt_at_key d id g s :
  receipt_at d id g s = true
  ↔ ∃ r, r ∈ event_inbox_receipt d ∧ receiptTransportKey r = coordinateKey id g s.
Proof.
  unfold receipt_at. rewrite existsb_exists. setoid_rewrite <- list_elem_of_In.
  split; intros (r & Hr & H); exists r; split; auto.
  - bool_hyps. unfold receiptTransportKey. by subst.
  - apply coordinateKey_inj in H as (-> & -> & ->). rewrite bool_decide_true by done.
    by rewrite !Z.eqb_refl.
Qed.

Lemma event_checkpointKey_inj e id g :
  event_checkpointKey e = checkpointKey id g → daemonId e = id ∧ daemonGeneration e = g.
Proof. apply checkpointKey_inj. Qed.

(** Events at one coordinate are of one stream and carry one [seq]. *)
Lemma transportKey_eq e f :
  transportKey e = transportKey f
  ↔ daemonId e = daemonId f ∧ daemonGeneration e = daemonGeneration f ∧ seq e = seq f.
Proof.
  split; [apply coordinateKey_inj|]. intros (H1 & H2 & H3). unfold transportKey.
  by rewrite H1, H2, H3.
Qed.

(** ** Weakest preconditions of transactions *)

Definition wp {A} (faults : nat → option Fault) (m : Tx A) (d : DB)
    (Q : DB → A → Prop) (E : DB → Prop) : Prop :=
  ∀ n, match m faults {| db := d; queries := n |} with
       | (s, Returns a) => Q (db s) a
       | (s, Throws _) => E (db s)
       end.

(** Some statement of the run fails. *)
Definition faulty (faults : nat → option Fault) : Prop := ∃ n, faults n ≠ None.

Section wp.
Context (faults : nat → option Fault).

Lemma wp_ret {A} (a : A) d Q E : Q d a → wp faults (mret a) d Q E.
Proof. intros H n. exact H. Qed.

Lemma wp_throw {A} m d (Q : DB → A → Prop) E : E d → wp faults (throw m) d Q E.
Proof. intros H n. exact H. Qed.

Lemma wp_bind {A B} (m : Tx A) (k : A → Tx B) d Q E :
  wp faults m d (λ d' a, wp faults (k a) d' Q E) E → wp faults (m ≫= k) d Q E.
Proof.
  intros H n. specialize (H n). unfold mbind, tx_bind.
  destruct (m faults _) as [[d' n'] [a|e]]; [apply (H n')|exact H].
Qed.

Lemma wp_query {A} (f : DB → DB * A) d Q E :
  (faulty faults → E d) → Q (f d).1 (f d).2 → wp faults (query f) d Q E.
Proof.
  intros HE HQ n. unfold query. cbn [db queries]. destruct (faults n) eqn:F.
  - apply HE. exists n. by rewrite F.
  - by destruct (f d).
Qed.

Lemma wp_mono {A} (m : Tx A) d (Q Q' : DB → A → Prop) (E E' : DB → Prop) :
  wp faults m d Q E → (∀ d' a, Q d' a → Q' d' a) → (∀ d', E d' → E' d') →
  wp faults m d Q' E'.
Proof.
  intros H HQ HE n. specialize (H n). destruct (m faults _) as [s [a|e]]; auto.
Qed.

(** A loop over a list, with an invariant on the database, the elements done
    and their results. *)
Lemma wp_mapM {A B} (f : A → Tx B) l (I : DB → list A → list B → Prop) d E :
  I d [] [] →
  (∀ d' done x rest bs, l = done ++ x :: rest → I d' done bs →
     wp faults (f x) d' (λ d'' b, I d'' (done ++ [x]) (bs ++ [b])) E) →
  wp faults (mapM f l) d (λ d' bs, I d' l bs) E.
Proof.
  intros H0 Hstep.
  assert (Hgen : ∀ todo done bs d', l = done ++ todo → I d' done bs →
    wp faults (mapM f todo) d' (λ d'' bs', I d'' l (bs ++ bs')) E).
  { induction todo as [|x todo IH]; intros done bs d' El HI; cbn [mapM].
    - apply wp_ret. by rewrite app_nil_r in El |- *; subst.
    - apply wp_bind. eapply wp_mono; [eapply Hstep; eauto| |done].
      intros d'' b Hb. apply wp_bind. eapply wp_mono; [apply (IH (done ++ [x]) (bs ++ [b]))| |done].
      + by rewrite <- app_assoc.
      + done.
      + intros d3 bs' HI'. apply wp_ret.
        replace (bs ++ b :: bs') with ((bs ++ [b]) ++ bs') by (by rewrite <- app_assoc).
        exact HI'. }
  apply (Hgen l [] [] d); done.
Qed.
End wp.

(** ** The invariant of the tables *)

Record row_ok (r : InboxRow) : Prop := {
  ok_status : 0 ≤ status r ≤ 3;
  ok_claimedBy : status r = 1 ↔ is_Some (claimedBy r);
  ok_claimedAt : status r = 1 ↔ is_Some (claimedAt r);
  ok_attempts : 0 ≤ attempts r;
}.

Record db_ok (d : DB) : Prop := {
  ok_ids : NoDup (inboxId <$> event_inbox d);
  ok_id_seq : ∀ r, r ∈ event_inbox d → inboxId r < inbox_id_seq d;
  ok_canonical : NoDup (row_canonicalKey <$> event_inbox d);
  ok_coordinates : NoDup (receiptTransportKey <$> event_inbox_receipt d);
  ok_references : ∀ r id, r ∈ event_inbox_receipt d → rcpt_inbox_id r = Some id →
    id ∈ inboxId <$> event_inbox d;
  ok_rows : ∀ r, r ∈ event_inbox d → row_ok r;
}.

(** The primary key of the receipts, from its sequence. *)
Definition receipt_ids_ok (d : DB) : Prop :=
  NoDup (receipt_id <$> event_inbox_receipt d) ∧
  ∀ r, r ∈ event_inbox_receipt d → receipt_id r < receipt_id_seq d.

(** What a transaction may only add to. *)
Record extends (d d' : DB) : Prop := {
  ext_inbox : event_inbox d `prefix_of` event_inbox d';
  ext_receipts : event_inbox_receipt d `prefix_of` event_inbox_receipt d';
  ext_inbox_seq : inbox_id_seq d ≤ inbox_id_seq d';
  ext_receipt_seq : receipt_id_seq d ≤ receipt_id_seq d';
  ext_receipt_ids : receipt_ids_ok d → receipt_ids_ok d';
}.

Lemma receipt_ids_same d d' :
  event_inbox_receipt d' = event_inbox_receipt d → receipt_id_seq d ≤ receipt_id_seq d' →
  receipt_ids_ok d → receipt_ids_ok d'.
Proof. intros E Hs [Hn Hl]. unfold receipt_ids_ok. rewrite E. split; [done|]. intros r Hr. specialize (Hl r Hr). lia. Qed.

Lemma receipt_ids_append d d' r :
  event_inbox_receipt d' = event_inbox_receipt d ++ [r] → receipt_id r = receipt_id_seq d →
  receipt_id_seq d' = receipt_id_seq d + 1 → receipt_ids_ok d → receipt_ids_ok d'.
Proof.
  intros E Er Es [Hn Hl]. unfold receipt_ids_ok. rewrite E, Es. split.
  - rewrite fmap_app. apply NoDup_app. split_and!; [done| |apply NoDup_singleton].
    intros x (y & -> & Hy)%list_elem_of_fmap Hx%list_elem_of_singleton. specialize (Hl y Hy). lia.
  - intros y [Hy| ->%list_elem_of_singleton]%elem_of_app; [specialize (Hl y Hy)|]; lia.
Qed.

#[global] Instance extends_preorder : PreOrder extends.
Proof.
  split.
  - intros d. by split.
  - intros d1 d2 d3 [] []. split; [by etransitivity..|lia|lia|auto].
Qed.

Lemma extends_inbox_elem d d' r : extends d d' → r ∈ event_inbox d → r ∈ event_inbox d'.
Proof. intros [[k ->] _ _ _ _] H. apply elem_of_app. by left. Qed.

Lemma extends_receipt_elem d d' r :
  extends d d' → r ∈ event_inbox_receipt d → r ∈ event_inbox_receipt d'.
Proof. intros [_ [k ->] _ _ _] H. apply elem_of_app. by left. Qed.

Definition ack_of (d : DB) (k : string * Z) : Z :=
  match daemon_ack_checkpoint d !! k with Some c => ack_seq c | None => 0 end.

(** The same tables, but for the checkpoints. *)
Definition with_cps_of (d : DB) (d' : DB) : Prop :=
  d' = with_checkpoints d (daemon_ack_checkpoint d').

Lemma with_cps_of_refl d : with_cps_of d d.
Proof. by destruct d. Qed.

Lemma db_ok_checkpoints d m : db_ok d → db_ok (with_checkpoints d m).
Proof. intros []. by split. Qed.

Lemma db_ok_cps d d' : with_cps_of d d' → db_ok d → db_ok d'.
Proof. intros ->. apply db_ok_checkpoints. Qed.

Lemma extends_cps d d' : with_cps_of d d' → extends d d'.
Proof. intros ->. by split. Qed.

Lemma find_first_prefix {A} (p : A → bool) l k x :
  find_first p l = Some x → find_first p (l ++ k) = Some x.
Proof. induction l as [|y l IH]; simpl; [done|]. destruct (p y); auto. Qed.

Lemma find_first_exists {A} (p : A → bool) l x :
  x ∈ l → p x = true → is_Some (find_first p l).
Proof.
  intros Hx Hp. destruct (find_first p l) eqn:E; [by eexists|].
  rewrite (find_first_None _ _ E x Hx) in Hp. done.
Qed.

(** In a table without duplicate keys a lookup by key finds the row. *)
Lemma NoDup_key_eq {A B} (f : A → B) l x y :
  NoDup (f <$> l) → x ∈ l → y ∈ l → f x = f y → x = y.
Proof.
  induction l as [|z l IH]; intros Hnd Hx Hy Hf; [set_solver|].
  apply NoDup_cons in Hnd as [Hz Hnd].
  apply elem_of_cons in Hx as [->|Hx], Hy as [->|Hy]; auto.
  - destruct Hz. rewrite Hf. by apply list_elem_of_fmap_2.
  - destruct Hz. rewrite <- Hf. by apply list_elem_of_fmap_2.
Qed.

Lemma find_by_id d r :
  db_ok d → r ∈ event_inbox d →
  find_first (λ row, inboxId row =? inboxId r) (event_inbox d) = Some r.
Proof.
  intros Hok Hr. destruct (find_first_exists (λ row, inboxId row =? inboxId r) _ r Hr) as [x Hx];
    [apply Z.eqb_refl|].
  rewrite Hx. f_equal. apply find_first_Some in Hx as [Hin Heq]. bool_hyps.
  by apply (NoDup_key_eq inboxId (event_inbox d)); [apply Hok|..].
Qed.

(** ** Checkpoints *)

Definition checkpoint_of (d : DB) (x : string * (string * Z)) : string * AckCheckpoint :=
  (x.1, {| ack_daemonId := x.2.1; ack_daemonGeneration := x.2.2; ackSeq := ack_of d x.2 |}).

(** [lock_all] only adds absent checkpoints, at zero. *)
Record locked_cps (now : Z) (d d' : DB) (streams : list (string * Z)) : Prop := {
  lk_tables : with_cps_of d d';
  lk_present : ∀ k, k ∈ streams → is_Some (daemon_ack_checkpoint d' !! k);
  lk_rows : ∀ k, daemon_ack_checkpoint d' !! k = daemon_ack_checkpoint d !! k
    ∨ (daemon_ack_checkpoint d !! k = None ∧ k ∈ streams
       ∧ daemon_ack_checkpoint d' !! k = Some {| ack_seq := 0; updated_at := now |});
}.

Lemma locked_ack now d d' l k : locked_cps now d d' l → ack_of d' k = ack_of d k.
Proof.
  intros [_ _ Hr]. unfold ack_of. destruct (Hr k) as [->|(-> & _ & ->)]; done.
Qed.

Lemma wp_lockCheckpoint now faults id g d d0 l E :
  locked_cps now d0 d l →
  (faulty faults → ∀ d', with_cps_of d0 d' → E d') →
  wp faults (lockCheckpoint now id g) d
    (λ d' c, locked_cps now d0 d' (l ++ [(id, g)])
             ∧ c = {| ack_daemonId := id; ack_daemonGeneration := g; ackSeq := ack_of d0 (id, g) |}) E.
Proof.
  intros Hl HE. unfold lockCheckpoint. apply wp_bind, wp_query.
  { intros F. by apply HE, Hl. }
  set (d1 := (insert_checkpoint now id g d).1).
  assert (Hl1 : locked_cps now d0 d1 (l ++ [(id, g)])).
  { unfold d1, insert_checkpoint.
    destruct (daemon_ack_checkpoint d !! (id, g)) as [c|] eqn:Ec; cbn [fst].
    - destruct Hl as [H1 H2 H3]. split; [done| |].
      + intros k [Hk|Hk%list_elem_of_singleton]%elem_of_app; [auto|]. subst. by eexists.
      + intros k. destruct (H3 k) as [|(? & ? & ?)]; [by left|]. right. set_solver.
    - destruct Hl as [H1 H2 H3]. split; cbn [with_checkpoints daemon_ack_checkpoint].
      + unfold with_cps_of in *. rewrite H1. done.
      + intros k [Hk|Hk%list_elem_of_singleton]%elem_of_app.
        * rewrite lookup_insert_is_Some. destruct (decide ((id, g) = k)); [by left|right; auto].
        * subst. rewrite lookup_insert_eq. by eexists.
      + intros k. destruct (decide (k = (id, g))) as [->|Hne].
        * rewrite lookup_insert_eq. right. split_and!; [|set_solver|done].
          destruct (H3 (id, g)) as [E'|(E' & _ & E'')]; congruence.
        * rewrite lookup_insert_ne by done. destruct (H3 k) as [|(? & ? & ?)]; [by left|].
          right. set_solver. }
  apply wp_bind, wp_query.
  { intros F. by apply HE, Hl1. }
  cbn [select_checkpoint fst snd].
  destruct (lk_present _ _ _ _ Hl1 (id, g)) as [c Hc]; [set_solver|].
  rewrite Hc. apply wp_ret. split; [done|].
  rewrite <- (locked_ack _ _ _ _ _ Hl1). unfold toCheckpoint, ack_of. by rewrite Hc.
Qed.

Lemma wp_lock_all now faults inputs d E :
  (faulty faults → ∀ d', with_cps_of d d' → E d') →
  wp faults (lock_all now inputs) d
    (λ d' cps, locked_cps now d d' inputs.*2 ∧ cps = checkpoint_of d <$> inputs) E.
Proof.
  intros HE. unfold lock_all.
  apply (wp_mapM faults _ inputs
    (λ d' done cps, locked_cps now d d' done.*2 ∧ cps = checkpoint_of d <$> done)).
  - split; [|done]. split; [apply with_cps_of_refl|set_solver|by left].
  - intros d' dn [key [id g]] rest bs -> [Hl ->]. apply wp_bind.
    eapply wp_mono; [apply (wp_lockCheckpoint now faults id g d' d _ E Hl HE)| |done].
    intros d'' c [Hl' ->]. apply wp_ret. rewrite !fmap_app. split; [done|]. done.
Qed.

(** ** Existing receipts *)

Lemma map_first_get_mono {K B} `{EqDecision K} (key : B → K) l l' k x :
  map_get (map_first key l) k = Some x → map_get (map_first key (l ++ l')) k = Some x.
Proof.
  revert l. induction l' as [|y l' IH]; intros l H; [by rewrite app_nil_r|].
  replace (l ++ y :: l') with ((l ++ [y]) ++ l') by (by rewrite <- app_assoc).
  apply IH. rewrite map_first_snoc. unfold map_has.
  destruct (map_get (map_first key l) (key y)) eqn:E; [done|].
  rewrite map_get_set, decide_False; [done|]. congruence.
Qed.

(** The scan succeeds when the events at one coordinate have one canonical key,
    and then keeps the first event of each coordinate. *)
Definition consistent (events : list IngressEnvelope) : Prop :=
  ∀ e f, e ∈ events → f ∈ events → transportKey e = transportKey f →
    event_canonicalKey e = event_canonicalKey f.

Lemma collect_from l events m :
  collect_coordinates events (map_first transportKey l) = Some m →
  m = map_first transportKey (l ++ events)
  ∧ ∀ e, e ∈ events → ∃ f, map_get m (transportKey e) = Some f
                           ∧ event_canonicalKey f = event_canonicalKey e.
Proof.
  revert l. induction events as [|e events IH]; intros l; cbn [collect_coordinates].
  - rewrite app_nil_r. intros [= <-]. split; [done|set_solver].
  - pose proof (map_first_snoc transportKey l e) as Hs. unfold map_has in Hs.
    replace (l ++ e :: events) with ((l ++ [e]) ++ events) by (by rewrite <- app_assoc).
    destruct (map_get (map_first transportKey l) (transportKey e)) as [f|] eqn:Eg.
    + case_bool_decide as Hk; [|done]. rewrite <- Hs. intros [Hm Hall]%IH. split; [done|].
      intros e' [->|He']%elem_of_cons; [|auto]. exists f. split; [|done].
      rewrite Hm. apply map_first_get_mono. rewrite Hs. done.
    + rewrite <- Hs. intros [Hm Hall]%IH. split; [done|].
      intros e' [->|He']%elem_of_cons; [|auto]. exists e. split; [|done].
      rewrite Hm. apply map_first_get_mono. rewrite Hs. apply map_get_set_eq.
Qed.

Lemma collect_Some events m :
  collect_coordinates events [] = Some m →
  m = map_first transportKey events
  ∧ ∀ e, e ∈ events → ∃ f, map_get m (transportKey e) = Some f
                           ∧ event_canonicalKey f = event_canonicalKey e.
Proof. apply (collect_from []). Qed.

Lemma collect_consistent events :
  consistent events →
  collect_coordinates events [] = Some (map_first transportKey events).
Proof.
  intros Hc.
  assert (Hgen : ∀ todo l, events = l ++ todo →
    collect_coordinates todo (map_first transportKey l) = Some (map_first transportKey events)).
  { induction todo as [|e todo IH]; intros l El; cbn [collect_coordinates].
    - by rewrite El, app_nil_r.
    - pose proof (map_first_snoc transportKey l e) as Hs. unfold map_has in Hs.
      destruct (map_get (map_first transportKey l) (transportKey e)) as [f|] eqn:Eg.
      + apply map_first_get_key in Eg as [Hk Hf]. rewrite bool_decide_true.
        * rewrite <- Hs. apply IH. by rewrite <- app_assoc.
        * apply Hc; [set_solver..|done].
      + rewrite <- Hs. apply IH. by rewrite <- app_assoc. }
  by apply (Hgen events []).
Qed.

(** The receipt [r] is the one event [e] writes. *)
Definition receipt_for (d : DB) (e : IngressEnvelope) (r : Receipt) : bool :=
  match rcpt_inbox_id r, inbox_of d r with
  | None, _ => receiptOnly e
  | Some _, Some row =>
      negb (receiptOnly e) && bool_decide (row_canonicalKey row = event_canonicalKey e)
  | Some _, None => false
  end.

(** The event has its receipt in the table. *)
Definition covered (d : DB) (e : IngressEnvelope) : Prop :=
  ∃ r, r ∈ event_inbox_receipt d ∧ receiptTransportKey r = transportKey e
       ∧ receipt_for d e r = true.

Lemma receipt_matches_for coords d r e :
  map_get coords (receiptTransportKey r) = Some e →
  receipt_matches coords (r, inbox_of d r) = receipt_for d e r.
Proof.
  intros H. unfold receipt_matches, receipt_for. rewrite H.
  destruct (rcpt_inbox_id r); [|by rewrite orb_false_r]. by destruct (inbox_of d r).
Qed.

Lemma elem_selected (coords : jsmap string IngressEnvelope) d x :
  x ∈ (select_receipts coords.*2 d).2 ↔
  ∃ r, x = (r, inbox_of d r) ∧ r ∈ event_inbox_receipt d
       ∧ ∃ e, e ∈ coords.*2 ∧ receiptTransportKey r = transportKey e.
Proof.
  unfold select_receipts. cbn [snd]. rewrite list_elem_of_In, in_map_iff.
  setoid_rewrite <- list_elem_of_In. setoid_rewrite elem_of_bfilter.
  setoid_rewrite existsb_exists. setoid_rewrite <- list_elem_of_In.
  setoid_rewrite at_coordinate_key. split.
  - intros (r & <- & (e & He & Hk) & Hr). exists r. split_and!; auto. by exists e.
  - intros (r & -> & Hr & e & He & Hk). exists r. split_and!; auto. by exists e.
Qed.

(** What [lockAndFilterExistingReceipts] returns. *)
Record filtered (d : DB) (events pending : list IngressEnvelope) : Prop := {
  fl_first : ∀ e, e ∈ events → ∃ f, map_get (map_first transportKey events) (transportKey e) = Some f
    ∧ event_canonicalKey f = event_canonicalKey e;
  fl_done : ∀ k f, map_get (map_first transportKey events) k = Some f → covered d f ∨ f ∈ pending;
  fl_pending : ∀ e, e ∈ pending → map_get (map_first transportKey events) (transportKey e) = Some e
    ∧ ∀ r, r ∈ event_inbox_receipt d → receiptTransportKey r ≠ transportKey e;
  fl_nodup : NoDup (transportKey <$> pending);
}.

Lemma bfilter_NoDup_snd (p : string * IngressEnvelope → bool) (m : jsmap string IngressEnvelope) :
  map_ok m → (∀ k e, (k, e) ∈ m → transportKey e = k) →
  NoDup (transportKey <$> (bfilter p m).*2).
Proof.
  intros Hok Hk. eapply sublist_NoDup; [exact Hok|].
  replace (transportKey <$> (bfilter p m).*2) with (bfilter p m).*1.
  - apply fmap_sublist, bfilter_sublist.
  - rewrite <- list_fmap_compose. apply list_fmap_ext. intros i [k e] Hi. simpl.
    symmetry. apply Hk. apply list_elem_of_lookup_2, elem_of_bfilter in Hi as [_ Hi]. done.
Qed.

Lemma filtered_intro d events (coords : jsmap string IngressEnvelope) :
  map_first transportKey events = coords →
  (∀ e, e ∈ events → ∃ f, map_get coords (transportKey e) = Some f
     ∧ event_canonicalKey f = event_canonicalKey e) →
  forallb (receipt_matches coords) (select_receipts coords.*2 d).2 = true →
  filtered d events
    (bfilter (λ x, negb (bool_decide (fst x ∈
       map (λ x, receiptTransportKey (fst x)) (select_receipts coords.*2 d).2))) coords).*2.
Proof.
  intros <- Hall Hm. set (coords := map_first transportKey events) in *.
  set (keys := map _ _).
  assert (Hok : map_ok coords) by apply map_first_ok.
  assert (Hkeys : ∀ k e, (k, e) ∈ coords → transportKey e = k ∧ e ∈ events) by apply map_first_elem.
  rewrite forallb_forall in Hm.
  assert (Hin : ∀ k, k ∈ keys ↔ ∃ r e, r ∈ event_inbox_receipt d ∧ e ∈ coords.*2
      ∧ receiptTransportKey r = transportKey e ∧ k = receiptTransportKey r).
  { intros k. unfold keys. rewrite list_elem_of_In, in_map_iff.
    setoid_rewrite <- list_elem_of_In. setoid_rewrite elem_selected. split.
    - intros (x & <- & r & -> & Hr & e & He & Hk). by exists r, e.
    - intros (r & e & Hr & He & Hk & ->). exists (r, inbox_of d r). split; [done|].
      exists r. split_and!; auto. by exists e. }
  split.
  - done.
  - intros k f Hf. pose proof (map_get_Some_elem _ _ _ Hf) as Hmem.
    destruct (Hkeys _ _ Hmem) as [Hkf _].
    destruct (decide (k ∈ keys)) as [Hk|Hk].
    + left. apply Hin in Hk as (r & e & Hr & He & Hre & ->). exists r. split_and!; auto.
      rewrite <- (receipt_matches_for coords d r f Hf). apply Hm, list_elem_of_In, elem_selected.
      exists r. split_and!; auto. by exists e.
    + right. apply list_elem_of_fmap. exists (k, f). split; [done|].
      apply elem_of_bfilter. split; [|done]. by rewrite bool_decide_false.
  - intros e He. apply list_elem_of_fmap in He as ([k e'] & -> & He). simpl.
    apply elem_of_bfilter in He as [Hk He]. bool_hyps. destruct (Hkeys _ _ He) as [Hke _].
    rewrite Hke. split; [by apply map_get_elem|]. intros r Hr Hkr. apply Hk. apply Hin.
    exists r, e'. split_and!; auto; [|congruence]. apply list_elem_of_fmap. by exists (k, e').
  - apply bfilter_NoDup_snd; [done|]. intros k e He. by apply Hkeys.
Qed.

Lemma wp_lockAndFilter faults events d E :
  E d →
  wp faults (lockAndFilterExistingReceipts events) d
    (λ d' pending, d' = d ∧ filtered d events pending) E.
Proof.
  intros HE. unfold lockAndFilterExistingReceipts.
  destruct (collect_coordinates events []) as [coords|] eqn:Ec; [|by apply wp_throw].
  apply collect_Some in Ec as [Ec Hall].
  destruct coords as [|x coords].
  - apply wp_ret. split; [done|]. split.
    + intros e He. destruct (Hall e He) as (f & Hf & _). done.
    + rewrite <- Ec. done.
    + set_solver.
    + constructor.
  - apply wp_bind, wp_query; [done|]. cbn [fst].
    destruct (forallb _ _) eqn:Em; [|by apply wp_throw].
    apply wp_ret. split; [done|]. by apply filtered_intro.
Qed.

(** ** Canonical rows *)

(** The table has the canonical row of [e] under [id]. *)
Definition has_row (d : DB) (id : Z) (key : string) : Prop :=
  ∃ row, row ∈ event_inbox d ∧ inboxId row = id ∧ row_canonicalKey row = key.

Lemma has_row_extends d d' id key : extends d d' → has_row d id key → has_row d' id key.
Proof. intros Hx (row & Hr & ?). exists row. split; [by eapply extends_inbox_elem|done]. Qed.

(** The effect of [upsert_one] and of a sequence of them. *)
Record upserted (d d' : DB) : Prop := {
  up_ok : db_ok d';
  up_ext : extends d d';
  up_receipts : event_inbox_receipt d' = event_inbox_receipt d;
  up_cps : daemon_ack_checkpoint d' = daemon_ack_checkpoint d;
}.

Lemma new_row_ok now id e : row_ok (new_inbox_row now id e).
Proof. split; simpl; try lia; split; (lia || by intros []). Qed.

Lemma db_ok_append now d e :
  db_ok d → (∀ r, r ∈ event_inbox d → row_canonicalKey r ≠ event_canonicalKey e) →
  db_ok {| event_inbox := event_inbox d ++ [new_inbox_row now (inbox_id_seq d) e];
           inbox_id_seq := inbox_id_seq d + 1;
           event_inbox_receipt := event_inbox_receipt d; receipt_id_seq := receipt_id_seq d;
           daemon_ack_checkpoint := daemon_ack_checkpoint d |}.
Proof.
  intros [H1 H2 H3 H4 H5 H6] Hnew. split; simpl; auto.
  - rewrite fmap_app. apply NoDup_app. split_and!; [done| |apply NoDup_singleton].
    intros x Hx [-> |[]%elem_of_nil]%elem_of_cons. simpl in Hx.
    apply list_elem_of_fmap in Hx as (r & Hr & Hin). specialize (H2 r Hin). lia.
  - intros r [Hr|Hr%list_elem_of_singleton]%elem_of_app; [specialize (H2 r Hr); lia|]. subst. simpl. lia.
  - rewrite fmap_app. apply NoDup_app. split_and!; [done| |apply NoDup_singleton].
    intros x Hx [-> |[]%elem_of_nil]%elem_of_cons.
    apply list_elem_of_fmap in Hx as (r & Hr & Hin). by apply (Hnew r Hin).
  - intros r id Hr Hid. rewrite fmap_app. apply elem_of_app. left. eauto.
  - intros r [Hr|Hr%list_elem_of_singleton]%elem_of_app; [auto|]. subst. apply new_row_ok.
Qed.

Lemma upsert_one_spec now e d :
  db_ok d →
  let '(d', (id, u, k)) := upsert_one now e d in
  upserted d d' ∧ canonicalKey u k = event_canonicalKey e ∧ has_row d' id (event_canonicalKey e).
Proof.
  intros Hok. unfold upsert_one.
  destruct (find_first (same_canonical e) (event_inbox d)) as [r|] eqn:Ef; cbn [default].
  - apply find_first_Some in Ef as [Hr Hk]. apply same_canonical_key in Hk.
    unfold canonical_result. split_and!; [|done|by exists r].
    destruct Hok as [H1 H2 H3 H4 H5 H6]. split; try done.
    + split; simpl; auto. intros r' Hr'. specialize (H2 r' Hr'). lia.
    + split; simpl; auto; lia || by apply receipt_ids_same.
  - assert (Hnew : ∀ r, r ∈ event_inbox d → row_canonicalKey r ≠ event_canonicalKey e).
    { intros r Hr Hk%same_canonical_key. by rewrite (find_first_None _ _ Ef r Hr) in Hk. }
    unfold canonical_result. split_and!; [|done|].
    + split; [by apply db_ok_append| |done..]. split; simpl; [by eexists|done|lia|lia|by apply receipt_ids_same].
    + exists (new_inbox_row now (inbox_id_seq d) e). split_and!; [|done..]. simpl. set_solver.
Qed.

Lemma upserted_trans d1 d2 d3 : upserted d1 d2 → upserted d2 d3 → upserted d1 d3.
Proof. intros [] []. split; [done|by etransitivity|congruence..]. Qed.

Lemma upsert_all_spec now events d :
  db_ok d →
  let '(d', rs) := upsert_all now events d in
  upserted d d'
  ∧ Forall2 (λ e '(id, u, k), canonicalKey u k = event_canonicalKey e
                              ∧ has_row d' id (event_canonicalKey e)) events rs.
Proof.
  revert d. induction events as [|e events IH]; intros d Hok; cbn [upsert_all].
  - split; [by split|constructor].
  - pose proof (upsert_one_spec now e d Hok) as H1.
    destruct (upsert_one now e d) as [d1 [[id u] k]]. destruct H1 as (Hu & Hk & Hrow).
    specialize (IH d1 (up_ok _ _ Hu)). destruct (upsert_all now events d1) as [d2 rs].
    destruct IH as [Hu2 Hrs]. split; [by eapply upserted_trans|].
    constructor; [|done]. split; [done|]. eapply has_row_extends; [apply Hu2|done].
Qed.

Definition ids_ok (d : DB) (ids : jsmap string Z) : Prop :=
  ∀ k id, map_get ids k = Some id → has_row d id k.

Lemma wp_upsert now faults events d E :
  db_ok d → (faulty faults → E d) →
  wp faults (upsertCanonicalInboxRows now events) d
    (λ d' ids, upserted d d' ∧ ids_ok d' ids
       ∧ ∀ e, e ∈ events → is_Some (map_get ids (event_canonicalKey e))) E.
Proof.
  intros Hok HE. unfold upsertCanonicalInboxRows.
  destruct (map_first event_canonicalKey events) as [|x l] eqn:Eu.
  - apply wp_ret. split_and!; [by split|done|]. intros e He.
    apply (map_first_get event_canonicalKey) in He. rewrite Eu in He. by destruct He.
  - rewrite <- Eu. apply wp_bind, wp_query; [done|].
    set (unique := map_first event_canonicalKey events). set (ordered := (sort_by_key unique).*2).
    pose proof (upsert_all_spec now ordered d Hok) as Hs.
    destruct (upsert_all now ordered d) as [d' rs]. destruct Hs as [Hu Hrs].
    apply wp_ret. cbn [fst snd]. split_and!; [done| |].
    + intros k id Hget. apply map_get_Some_elem, map_of_elem in Hget as ([[id' u] k'] & Hin & -> & ->).
      apply list_elem_of_lookup_1 in Hin as [i Hi].
      destruct (Forall2_lookup_r _ _ _ _ _ Hrs Hi) as (e & _ & -> & Hrow). done.
    + intros e He. destruct (map_first_get event_canonicalKey events e He) as [f Hf].
      pose proof (map_first_get_key _ _ _ _ Hf) as [Hk _]. rewrite <- Hk.
      assert (Hin : f ∈ ordered).
      { unfold ordered. apply list_elem_of_fmap. exists (event_canonicalKey e, f). split; [done|].
        rewrite sort_by_key_perm. by apply map_get_Some_elem. }
      apply list_elem_of_lookup_1 in Hin as [i Hi].
      destruct (Forall2_lookup_l _ _ _ _ _ Hrs Hi) as ([[id u] k] & Hr & Hkey & _).
      rewrite <- Hkey. apply list_elem_of_lookup_2 in Hr.
      by apply (map_of_get (λ '(_, u, k), canonicalKey u k) (λ '(id, _, _), id) rs (id, u, k)).
Qed.

(** ** New receipts *)

Definition tuple_of (ids : jsmap string Z) (e : IngressEnvelope) : option Z * IngressEnvelope :=
  (if receiptOnly e then None else map_get ids (event_canonicalKey e), e).

Lemma receipt_tuples_spec ids events :
  (∀ e, e ∈ events → receiptOnly e = false → is_Some (map_get ids (event_canonicalKey e))) →
  receipt_tuples ids events = Returns (tuple_of ids <$> events).
Proof.
  induction events as [|e events IH]; intros Hids; [done|]. cbn [receipt_tuples].
  rewrite IH by (intros; apply Hids; set_solver).
  assert (receipt_tuple ids e = Returns (tuple_of ids e)) as ->; [|done].
  unfold receipt_tuple, tuple_of. destruct (receiptOnly e) eqn:Er; [done|].
  destruct (Hids e) as [id Hid]; [set_solver|done|]. rewrite Hid. done.
Qed.

(** The effect of inserting receipts. *)
Record inserted (d d' : DB) : Prop := {
  in_ok : db_ok d';
  in_ext : extends d d';
  in_inbox : event_inbox d' = event_inbox d;
  in_cps : daemon_ack_checkpoint d' = daemon_ack_checkpoint d;
}.

Lemma insert_receipt_spec t d :
  db_ok d → (∀ id, fst t = Some id → id ∈ inboxId <$> event_inbox d) →
  inserted d (insert_receipt t d)
  ∧ (∀ r, r ∈ event_inbox_receipt (insert_receipt t d) ↔
        r ∈ event_inbox_receipt d
        ∨ (r = new_receipt (receipt_id_seq d) (fst t) (snd t)
           ∧ ∀ r', r' ∈ event_inbox_receipt d → receiptTransportKey r' ≠ transportKey (snd t))).
Proof.
  intros Hok Hid. unfold insert_receipt.
  destruct (existsb (at_coordinate (snd t)) (event_inbox_receipt d)) eqn:Ex.
  - split.
    + destruct Hok. split; [by split| |done..]. split; simpl; auto; try lia.
      apply receipt_ids_same; simpl; [done|lia].
    + intros r. cbn [event_inbox_receipt]. split; [by left|]. intros [|[_ Hno]]; [done|].
      apply existsb_exists in Ex as (r' & Hr' & Hk). apply list_elem_of_In in Hr'.
      apply at_coordinate_key in Hk. by apply Hno in Hr'.
  - assert (Hno : ∀ r', r' ∈ event_inbox_receipt d → receiptTransportKey r' ≠ transportKey (snd t)).
    { intros r' Hr' Hk%at_coordinate_key. rewrite <- not_true_iff_false in Ex. apply Ex.
      apply existsb_exists. exists r'. by rewrite <- list_elem_of_In. }
    split.
    + destruct Hok as [H1 H2 H3 H4 H5 H6]. split; try done.
      * split; simpl; auto.
        -- rewrite fmap_app. apply NoDup_app. split_and!; [done| |apply NoDup_singleton].
           intros x Hx [-> |[]%elem_of_nil]%elem_of_cons.
           apply list_elem_of_fmap in Hx as (r & Hr & Hin). by apply (Hno r Hin).
        -- intros r id [Hr|Hr%list_elem_of_singleton]%elem_of_app Hi; [eauto|]. subst. auto.
      * split; simpl; [done|by eexists|lia|lia|by eapply receipt_ids_append].
    + intros r. cbn [event_inbox_receipt]. rewrite elem_of_app, list_elem_of_singleton. tauto.
Qed.

Lemma inserted_trans d1 d2 d3 : inserted d1 d2 → inserted d2 d3 → inserted d1 d3.
Proof. intros [] []. split; [done|by etransitivity|congruence..]. Qed.

(** Each tuple at a fresh coordinate gets its receipt. *)
Definition has_receipt (d : DB) (t : option Z * IngressEnvelope) : Prop :=
  ∃ r, r ∈ event_inbox_receipt d ∧ receiptTransportKey r = transportKey (snd t)
       ∧ rcpt_inbox_id r = fst t.

Lemma insert_receipts_spec ts d :
  db_ok d →
  (∀ t id, t ∈ ts → fst t = Some id → id ∈ inboxId <$> event_inbox d) →
  (∀ t r, t ∈ ts → r ∈ event_inbox_receipt d → receiptTransportKey r ≠ transportKey (snd t)) →
  NoDup (transportKey <$> ts.*2) →
  let d' := foldl (λ d t, insert_receipt t d) d ts in
  inserted d d' ∧ ∀ t, t ∈ ts → has_receipt d' t.
Proof.
  revert d. induction ts as [|t ts IH]; intros d Hok Hids Hfresh Hnd; cbn [foldl].
  - split; [by split|set_solver].
  - apply NoDup_cons in Hnd as [Ht Hnd].
    destruct (insert_receipt_spec t d Hok) as [Hi Hel]; [intros; apply (Hids t); [left|done]|].
    destruct (IH (insert_receipt t d)) as [Hi2 Hall].
    + apply Hi.
    + intros t' id Ht' Hid. rewrite (in_inbox _ _ Hi). apply (Hids t'); [by right|done].
    + intros t' r Ht' Hr Hk. apply Hel in Hr as [Hr|[-> _]].
      * apply (Hfresh t' r); [by right|done..].
      * apply Ht. change (receiptTransportKey (new_receipt _ _ (snd t))) with (transportKey (snd t)) in Hk.
        rewrite Hk. by apply list_elem_of_fmap_2, list_elem_of_fmap_2.
    + done.
    + split; [by eapply inserted_trans|].
      intros t' [->|Ht']%elem_of_cons; [|auto].
      exists (new_receipt (receipt_id_seq d) (fst t) (snd t)). split; [|done].
      eapply extends_receipt_elem; [apply Hi2|]. apply Hel. right. split; [done|].
      intros r' Hr'. apply Hfresh; [left|done].
Qed.

Lemma wp_insertTransportReceipts faults pending ids d E :
  db_ok d → ids_ok d ids →
  (∀ e, e ∈ pending → receiptOnly e = false → is_Some (map_get ids (event_canonicalKey e))) →
  (∀ e r, e ∈ pending → r ∈ event_inbox_receipt d → receiptTransportKey r ≠ transportKey e) →
  NoDup (transportKey <$> pending) →
  (faulty faults → E d) →
  wp faults (insertTransportReceipts pending ids) d
    (λ d' _, inserted d d' ∧ ∀ e, e ∈ pending → has_receipt d' (tuple_of ids e)) E.
Proof.
  intros Hok Hids Hget Hfresh Hnd HE. unfold insertTransportReceipts.
  destruct pending as [|e0 pending0]; [apply wp_ret; split; [by split|set_solver]|].
  set (pending := e0 :: pending0) in *. rewrite receipt_tuples_spec by done.
  destruct (insert_receipts_spec (tuple_of ids <$> pending) d Hok) as [Hi Hall].
  - intros t id (e & -> & He)%list_elem_of_fmap Hid. unfold tuple_of in Hid. simpl in Hid.
    destruct (receiptOnly e); [done|]. apply Hids in Hid as (row & Hr & <- & _).
    by apply list_elem_of_fmap_2.
  - intros t r (e & -> & He)%list_elem_of_fmap Hr. by apply Hfresh.
  - rewrite <- !list_fmap_compose. unfold compose, tuple_of. cbn [snd]. done.
  - apply wp_query; [done|]. cbn [fst snd]. split; [done|]. intros e He.
    apply Hall. by apply list_elem_of_fmap_2.
Qed.

(** A pending event is covered by the receipt it wrote. *)
Lemma covered_new d ids e :
  db_ok d → ids_ok d ids →
  (receiptOnly e = false → is_Some (map_get ids (event_canonicalKey e))) →
  has_receipt d (tuple_of ids e) → covered d e.
Proof.
  intros Hok Hids Hget (r & Hr & Hk & Hi). exists r. split_and!; auto.
  unfold receipt_for, inbox_of. unfold tuple_of in Hi. simpl in Hi.
  destruct (receiptOnly e) eqn:Er; rewrite Hi; [done|].
  destruct (Hget eq_refl) as [id Hid]. rewrite Hid.
  apply Hids in Hid as (row & Hrow & <- & Hkey).
  rewrite (find_by_id d row Hok Hrow). cbn [negb andb]. by rewrite bool_decide_true.
Qed.

Lemma covered_extends d d' e : extends d d' → covered d e → covered d' e.
Proof.
  intros Hx (r & Hr & Hk & Hf). exists r. split_and!; auto; [by eapply extends_receipt_elem|].
  unfold receipt_for, inbox_of in *. destruct (rcpt_inbox_id r) as [id|]; [|done].
  destruct (find_first (λ row, inboxId row =? id) (event_inbox d)) as [row|] eqn:Ef; [|done].
  destruct Hx as [[k ->] _ _ _]. by rewrite (find_first_prefix _ _ k _ Ef).
Qed.
