(* ===== verification/DurableInbox.v ===== *)
(** * DurableInbox: what the controller is promised by its repository.

    The controller's dependency [Pick<InboxRepository, 'persistBatch'>] as an
    interface: an inbox state, the outcomes [persistBatch] may have on it, the
    steps other clients of the tables may take meanwhile, and the laws the
    controller's guarantees rest on.  [InboxInstance] discharges them for the
    repository. *)

From S2P Require Import Prelude JsMap EventPolicy.

#[local] Open Scope Z_scope.

(** The stream of an event and of an acknowledgement. *)
Definition event_stream (e : IngressEnvelope) : string * Z := (daemonId e, daemonGeneration e).

Definition stream_of (c : AckCheckpoint) : string * Z := (ack_daemonId c, ack_daemonGeneration c).

Class DurableInbox (S : Type) : Type := {
  (** The invariant of the inbox. *)
  inbox_ok : S → Prop;
  (** A sequence number of a stream is durably recorded. *)
  receipted : S → string * Z → Z → Prop;
  (** [persistBatch] on a batch: the state before, the outcome, the state after. *)
  persists : list IngressEnvelope → S → outcome (jsmap string AckCheckpoint) → S → Prop;
  (** A step of another client. *)
  evolves : S → S → Prop;

  persists_ok : ∀ b s r s', inbox_ok s → persists b s r s' → inbox_ok s';
  evolves_ok : ∀ s s', inbox_ok s → evolves s s' → inbox_ok s';
  persists_keeps : ∀ b s r s' k x, inbox_ok s → persists b s r s' →
    receipted s k x → receipted s' k x;
  evolves_keeps : ∀ s s' k x, inbox_ok s → evolves s s' → receipted s k x → receipted s' k x;
  (** A batch that was accepted is recorded, whole. *)
  persists_batch : ∀ b s cps s' e, inbox_ok s → persists b s (Returns cps) s' → e ∈ b →
    receipted s' (event_stream e) (seq e);
  (** An acknowledgement covers recorded sequence numbers only. *)
  persists_acks : ∀ b s cps s' c x, inbox_ok s → persists b s (Returns cps) s' → c ∈ cps.*2 →
    0 < x ≤ ackSeq c → receipted s' (stream_of c) x;
}.
