(* ===== verification/InboxPersist.v ===== *)
(** * InboxPersist: the guarantees of [persistBatch].

    The recursive query finds the end of the contiguous prefix of receipts;
    [persist_spec] describes a successful transaction; the claims say that a
    committed batch is durable, that an acknowledged sequence number has a
    receipt, that a failed call changes no table, that a call can be repeated,
    and that the invariant of the tables is kept. *)

From stdpp Require Import pretty.
From S2P Require Import Prelude JsValue JsMap EventPolicy InboxRepository InboxFacts DurableInbox.

#[local] Open Scope Z_scope.

(** ** The contiguous prefix *)

Lemma contiguous_from_spec fuel d id g s :
  let a := contiguous_from fuel d id g s in
  s ≤ a ∧ (∀ x, s < x ≤ a → receipt_at d id g x = true)
  ∧ (receipt_at d id g (a + 1) = true → a = s + Z.of_nat fuel).
Proof.
  revert s. induction fuel as [|fuel IH]; intros s; cbn [contiguous_from].
  - split_and!; [lia|intros; lia|intros; lia].
  - destruct (receipt_at d id g (s + 1)) eqn:E.
    + destruct (IH (s + 1)) as (H1 & H2 & H3). split_and!; [lia| |intros H; apply H3 in H; lia].
      intros x Hx. destruct (decide (x = s + 1)) as [->|]; [done|]. apply H2. lia.
    + split_and!; [lia|intros; lia|congruence].
Qed.

(** Receipts at [n] successive coordinates are [n] rows. *)
Lemma receipts_count d id g s n :
  (∀ x, s < x ≤ s + Z.of_nat n → receipt_at d id g x = true) →
  (n ≤ length (event_inbox_receipt d))%nat.
Proof.
  intros H. set (keys := (λ i, coordinateKey id g (s + 1 + Z.of_nat i)) <$> List.seq 0 n).
  assert (Hnd : NoDup keys).
  { apply NoDup_fmap_2_strong; [|apply NoDup_ListNoDup, List.seq_NoDup].
    intros i j _ _ (_ & _ & Hs)%coordinateKey_inj. lia. }
  assert (Hsub : keys ⊆+ (receiptTransportKey <$> event_inbox_receipt d)).
  { apply NoDup_submseteq; [done|]. intros k (i & -> & Hi)%list_elem_of_fmap.
    apply list_elem_of_In, List.in_seq in Hi.
    destruct (proj1 (receipt_at_key d id g (s + 1 + Z.of_nat i))) as (r & Hr & Hk); [apply H; lia|].
    rewrite <- Hk. by apply list_elem_of_fmap_2. }
  apply submseteq_length in Hsub. unfold keys in Hsub. by rewrite !length_fmap, List.length_seq in Hsub.
Qed.

(** The recursive query: everything up to its result has a receipt, and the
    next coordinate has none. *)
Lemma contiguous_spec d id g s :
  let a := contiguous id g s d in
  s ≤ a ∧ (∀ x, s < x ≤ a → receipt_at d id g x = true) ∧ receipt_at d id g (a + 1) = false.
Proof.
  unfold contiguous. set (n := length (event_inbox_receipt d)).
  destruct (contiguous_from_spec n d id g s) as (H1 & H2 & H3). split_and!; [done..|].
  apply not_true_iff_false. intros H. specialize (H3 H).
  pose proof (receipts_count d id g s (S n)) as Hc. fold n in Hc.
  assert (S n ≤ n)%nat; [|lia]. apply Hc. intros x Hx.
  destruct (decide (x ≤ contiguous_from n d id g s)); [apply H2; lia|].
  replace x with (contiguous_from n d id g s + 1) by lia. done.
Qed.

Lemma contiguous_stops d id g s : receipt_at d id g (s + 1) = false → contiguous id g s d = s.
Proof.
  intros H. destruct (contiguous_spec d id g s) as (H1 & H2 & _).
  destruct (decide (contiguous id g s d = s)); [done|].
  rewrite H2 in H by lia. done.
Qed.

Lemma contiguous_receipts d d' id g s :
  event_inbox_receipt d' = event_inbox_receipt d → contiguous id g s d' = contiguous id g s d.
Proof.
  intros H. unfold contiguous. rewrite H.
  assert (Hr : ∀ x, receipt_at d' id g x = receipt_at d id g x) by (intros; unfold receipt_at; by rewrite H).
  generalize (length (event_inbox_receipt d)). intros n. revert s.
  induction n as [|n IH]; intros s; cbn [contiguous_from]; [done|]. by rewrite Hr, IH.
Qed.

(** ** Advancing the checkpoints *)

(** Where the checkpoint of a stream moves to. *)
Definition advanced (d : DB) (k : string * Z) : Z := contiguous k.1 k.2 (ack_of d k) d.

Definition advance_of (d : DB) (x : string * AckCheckpoint) : string * AckCheckpoint :=
  (x.1, {| ack_daemonId := ack_daemonId x.2; ack_daemonGeneration := ack_daemonGeneration x.2;
           ackSeq := advanced d (stream_of x.2) |}).

Record advanced_cps (d d' : DB) (streams : list (string * Z)) : Prop := {
  av_tables : with_cps_of d d';
  av_ack : ∀ k, ack_of d' k = if decide (k ∈ streams) then advanced d k else ack_of d k;
  av_rows : ∀ k, k ∉ streams ∨ advanced d k = ack_of d k →
    daemon_ack_checkpoint d' !! k = daemon_ack_checkpoint d !! k;
  av_dom : ∀ k, is_Some (daemon_ack_checkpoint d' !! k) ↔ is_Some (daemon_ack_checkpoint d !! k);
}.

Lemma wp_advance now faults c d0 d l E :
  advanced_cps d0 d l → ackSeq c = ack_of d0 (stream_of c) →
  is_Some (daemon_ack_checkpoint d0 !! stream_of c) →
  (faulty faults → ∀ d', with_cps_of d0 d' → E d') →
  wp faults (advanceContiguousCheckpoint now c) d
    (λ d' c', advanced_cps d0 d' (l ++ [stream_of c]) ∧ c' = (advance_of d0 (EmptyString, c)).2) E.
Proof.
  intros [H1 H2 H3 H4] Hack Hsome HE. unfold advanceContiguousCheckpoint. apply wp_bind, wp_query.
  { intros F. by apply HE. }
  cbn [fst snd]. rewrite (contiguous_receipts d0 d); [|by rewrite H1].
  rewrite Hack. change (contiguous _ _ _ d0) with (advanced d0 (stream_of c)).
  set (k := stream_of c) in *. destruct (Z.eqb_spec (advanced d0 k) (ack_of d0 k)) as [Heq|Hne].
  - apply wp_bind, wp_ret, wp_ret. split; [|done]. split; auto.
    + intros k'. rewrite H2. destruct (decide (k' ∈ l)); destruct (decide (k' ∈ l ++ [k])) as [Hin|Hin];
        try done; [set_solver|]. apply elem_of_app in Hin as [|Hin]; [done|].
      apply list_elem_of_singleton in Hin as ->. done.
    + intros k' [Hk'|Hk']; apply H3; [left; set_solver|by right].
  - apply wp_bind, wp_query; [intros F; by apply HE|]. apply wp_ret. split; [|done].
    unfold update_checkpoint. cbn [fst]. change (ack_daemonId c, ack_daemonGeneration c) with k.
    split; cbn [with_checkpoints daemon_ack_checkpoint].
    + unfold with_cps_of in *. rewrite H1. done.
    + intros k'. unfold ack_of at 1. cbn [with_checkpoints daemon_ack_checkpoint].
      destruct (decide (k' = k)) as [->|Hk'].
      * rewrite decide_True by set_solver. rewrite lookup_alter_eq.
        apply H4 in Hsome as [x ->]. done.
      * rewrite lookup_alter_ne by done. fold (ack_of d k'). rewrite H2.
        destruct (decide (k' ∈ l)), (decide (k' ∈ l ++ [k])); set_solver.
    + intros k' Hk'. rewrite lookup_alter_ne.
      * apply H3. destruct Hk'; [left; set_solver|by right].
      * intros ->. destruct Hk'; [set_solver|done].
    + intros k'. rewrite <- H4. destruct (decide (k' = k)) as [->|].
      * rewrite lookup_alter_eq, fmap_is_Some. done.
      * by rewrite lookup_alter_ne.
Qed.

Lemma wp_advance_all now faults cps d E :
  (∀ x, x ∈ cps → ackSeq x.2 = ack_of d (stream_of x.2)
                  ∧ is_Some (daemon_ack_checkpoint d !! stream_of x.2)) →
  (faulty faults → ∀ d', with_cps_of d d' → E d') →
  wp faults (advance_all now cps) d
    (λ d' cps', advanced_cps d d' ((λ x, stream_of x.2) <$> cps) ∧ cps' = advance_of d <$> cps) E.
Proof.
  intros Hcps HE. unfold advance_all.
  apply (wp_mapM faults _ cps (λ d' done cps',
    advanced_cps d d' ((λ x, stream_of x.2) <$> done) ∧ cps' = advance_of d <$> done)).
  - split; [|done]. split; [apply with_cps_of_refl| |done|done].
    intros k. rewrite decide_False by set_solver. done.
  - intros d' dn [key c] rest bs El [Hl ->]. apply wp_bind.
    destruct (Hcps (key, c)) as [Ha Hs]; [rewrite El; set_solver|].
    eapply wp_mono; [apply (wp_advance now faults c d d' _ E Hl Ha Hs HE)| |done].
    intros d'' c' [Hl' ->]. apply wp_ret. rewrite !fmap_app. split; [done|]. done.
Qed.

(** ** A successful batch *)

(** The streams of a batch, in the order their checkpoints are locked. *)
Definition inputs_of (events : list IngressEnvelope) : jsmap string (string * Z) :=
  sort_by_key (map_of event_checkpointKey event_stream events).

Definition above (d : DB) (e : IngressEnvelope) : bool := ack_of d (event_stream e) <? seq e.

Lemma inputs_elem events key k :
  (key, k) ∈ inputs_of events → ∃ e, e ∈ events ∧ key = event_checkpointKey e ∧ k = event_stream e.
Proof. unfold inputs_of. rewrite sort_by_key_perm. apply map_of_elem. Qed.

Lemma inputs_stream events e : e ∈ events → (event_checkpointKey e, event_stream e) ∈ inputs_of events.
Proof.
  intros He. destruct (map_of_get event_checkpointKey event_stream events e He) as [k Hk].
  apply map_get_Some_elem in Hk. destruct (map_of_elem _ _ _ _ _ Hk) as (f & _ & Hf & ->).
  apply event_checkpointKey_inj in Hf as [Hd Hg]. unfold inputs_of. rewrite sort_by_key_perm.
  replace (event_stream e) with (event_stream f); [done|]. unfold event_stream. congruence.
Qed.

Lemma inputs_ok events : map_ok (inputs_of events).
Proof.
  unfold map_ok, inputs_of. rewrite sort_by_key_perm. apply map_of_ok.
Qed.

Lemma elem_streams events k : k ∈ (inputs_of events).*2 ↔ ∃ e, e ∈ events ∧ k = event_stream e.
Proof.
  split.
  - intros ([key k'] & -> & H)%list_elem_of_fmap. apply inputs_elem in H as (e & ? & _ & ?). by exists e.
  - intros (e & He & ->). apply list_elem_of_fmap. exists (event_checkpointKey e, event_stream e).
    split; [done|]. by apply inputs_stream.
Qed.

Lemma checkpoints_get d events e :
  e ∈ events →
  map_get (checkpoint_of d <$> inputs_of events) (event_checkpointKey e)
  = Some {| ack_daemonId := daemonId e; ack_daemonGeneration := daemonGeneration e;
            ackSeq := ack_of d (event_stream e) |}.
Proof.
  intros He. apply map_get_elem.
  - unfold map_ok. rewrite <- list_fmap_compose. apply inputs_ok.
  - apply list_elem_of_fmap. exists (event_checkpointKey e, event_stream e).
    split; [done|]. by apply inputs_stream.
Qed.

Lemma unacked_above d events :
  bfilter (unacked (checkpoint_of d <$> inputs_of events)) events = bfilter (above d) events.
Proof. apply bfilter_ext. intros e He. unfold unacked. by rewrite checkpoints_get. Qed.

Record persisted (d : DB) (events : list IngressEnvelope) (d' : DB)
    (cps : jsmap string AckCheckpoint) : Prop := {
  ps_ok : db_ok d';
  ps_ext : extends d d';
  ps_cps : cps = checkpoint_of d' <$> inputs_of events;
  ps_present : ∀ e, e ∈ events → is_Some (daemon_ack_checkpoint d' !! event_stream e);
  ps_ack : ∀ e, e ∈ events →
    ack_of d (event_stream e) ≤ ack_of d' (event_stream e)
    ∧ (∀ x, ack_of d (event_stream e) < x ≤ ack_of d' (event_stream e) →
         receipt_at d' (daemonId e) (daemonGeneration e) x = true)
    ∧ receipt_at d' (daemonId e) (daemonGeneration e) (ack_of d' (event_stream e) + 1) = false;
  ps_other : ∀ k, (∀ e, e ∈ events → event_stream e ≠ k) →
    daemon_ack_checkpoint d' !! k = daemon_ack_checkpoint d !! k;
  ps_first : ∀ e, e ∈ events → above d e = true →
    ∃ f, map_get (map_first transportKey (bfilter (above d) events)) (transportKey e) = Some f
         ∧ event_canonicalKey f = event_canonicalKey e ∧ covered d' f;
}.

Lemma persist_compose now d d1 d2 d3 d4 events pending ids :
  db_ok d → locked_cps now d d1 (inputs_of events).*2 →
  filtered d1 (bfilter (above d) events) pending →
  upserted d1 d2 → ids_ok d2 ids →
  (∀ e, e ∈ bfilter (λ e, negb (receiptOnly e)) pending → is_Some (map_get ids (event_canonicalKey e))) →
  inserted d2 d3 → (∀ e, e ∈ pending → has_receipt d3 (tuple_of ids e)) →
  advanced_cps d3 d4 ((λ x, stream_of x.2) <$> (checkpoint_of d <$> inputs_of events)) →
  persisted d events d4 (advance_of d3 <$> (checkpoint_of d <$> inputs_of events)).
Proof.
  intros Hok Hl Hf Hu Hids Hget Hi Hrec Ha.
  assert (Hstreams : (λ x, stream_of x.2) <$> (checkpoint_of d <$> inputs_of events)
                     = (inputs_of events).*2).
  { rewrite <- list_fmap_compose. apply list_fmap_ext. intros i [key [id g]] _. done. }
  rewrite Hstreams in Ha.
  assert (Hacks : ∀ k, ack_of d3 k = ack_of d k).
  { intros k. rewrite <- (locked_ack _ _ _ _ k Hl). unfold ack_of.
    by rewrite (in_cps _ _ Hi), (up_cps _ _ Hu). }
  assert (H13 : extends d1 d3) by (etransitivity; [apply Hu|apply Hi]).
  assert (H34 : extends d3 d4) by apply extends_cps, Ha.
  assert (Hrec4 : event_inbox_receipt d4 = event_inbox_receipt d3) by (rewrite (av_tables _ _ _ Ha); done).
  assert (Hin : ∀ e, e ∈ events → event_stream e ∈ (inputs_of events).*2)
    by (intros e He; apply elem_streams; by exists e).
  split.
  - eapply db_ok_cps; [apply Ha|]. apply Hi.
  - etransitivity; [apply extends_cps, Hl|]. by etransitivity.
  - rewrite <- list_fmap_compose. apply list_fmap_ext. intros i [key [id g]] Hlk.
    unfold compose, advance_of, checkpoint_of, stream_of. cbn [fst snd ack_daemonId ack_daemonGeneration].
    do 2 f_equal. rewrite (av_ack _ _ _ Ha), decide_True; [done|].
    apply list_elem_of_lookup_2 in Hlk. apply list_elem_of_fmap. by exists (key, (id, g)).
  - intros e He. apply (av_dom _ _ _ Ha). rewrite (in_cps _ _ Hi), (up_cps _ _ Hu).
    apply (lk_present _ _ _ _ Hl). auto.
  - intros e He. rewrite (av_ack _ _ _ Ha), decide_True by auto. unfold advanced. rewrite Hacks.
    unfold receipt_at. rewrite Hrec4. apply (contiguous_spec d3 (daemonId e) (daemonGeneration e)).
  - intros k Hk. assert (Hno : k ∉ (inputs_of events).*2).
    { intros (e & He & ->)%elem_streams. by apply (Hk e He). }
    rewrite (av_rows _ _ _ Ha k (or_introl Hno)), (in_cps _ _ Hi), (up_cps _ _ Hu).
    destruct (lk_rows _ _ _ _ Hl k) as [->|(_ & ? & _)]; done.
  - intros e He Hab. destruct (fl_first _ _ _ Hf e) as (f & Hff & Hcan).
    { apply elem_of_bfilter. done. }
    exists f. split_and!; [done..|]. apply (covered_extends d3 d4); [done|].
    destruct (fl_done _ _ _ Hf _ _ Hff) as [Hc|Hp]; [by apply (covered_extends d1 d3)|].
    apply (covered_new d3 ids); [apply Hi| |intros Hr|by apply Hrec].
    + intros k id Hid. eapply has_row_extends; [apply Hi|by apply Hids].
    + apply Hget, elem_of_bfilter. by rewrite Hr.
Qed.

Lemma wp_persist now faults events d :
  db_ok d →
  wp faults (persist_body now events) d (persisted d events) (extends d).
Proof.
  intros Hok. unfold persist_body. apply wp_bind.
  eapply wp_mono; [apply (wp_lock_all _ _ _ _ (extends d)); intros _ d'; apply extends_cps| |done].
  intros d1 cps [Hl ->]. change (sort_by_key _) with (inputs_of events) in *.
  pose proof (extends_cps _ _ (lk_tables _ _ _ _ Hl)) as H01.
  pose proof (db_ok_cps _ _ (lk_tables _ _ _ _ Hl) Hok) as Hok1.
  rewrite unacked_above. apply wp_bind. eapply wp_mono; [by apply (wp_lockAndFilter _ _ _ (extends d))| |done].
  intros d1' pending [-> Hf]. apply wp_bind.
  eapply wp_mono; [apply (wp_upsert _ _ _ _ (extends d)); [done|by intros _]| |done].
  intros d2 ids (Hu & Hids & Hget).
  assert (H02 : extends d d2) by (etransitivity; [exact H01|apply Hu]).
  apply wp_bind. eapply wp_mono; [apply (wp_insertTransportReceipts _ _ _ _ (extends d))| |done].
  - apply Hu.
  - done.
  - intros e He Hr. apply Hget, elem_of_bfilter. by rewrite Hr.
  - intros e r He Hr. rewrite (up_receipts _ _ Hu) in Hr. by apply (fl_pending _ _ _ Hf e He).
  - apply Hf.
  - by intros _.
  - intros d3 [] [Hi Hrec].
    assert (H03 : extends d d3) by (etransitivity; [exact H02|apply Hi]).
    eapply wp_mono; [apply (wp_advance_all _ _ _ _ (extends d))| |done].
    + intros x ([key [id g]] & -> & Hin)%list_elem_of_fmap.
      change (stream_of (checkpoint_of d (key, (id, g))).2) with (id, g).
      cbn [checkpoint_of snd ackSeq]. unfold ack_of at 2. rewrite (in_cps _ _ Hi), (up_cps _ _ Hu).
      fold (ack_of d1 (id, g)). rewrite (locked_ack _ _ _ _ _ Hl). split; [done|].
      apply (lk_present _ _ _ _ Hl). apply list_elem_of_fmap. by exists (key, (id, g)).
    + intros _ d' Hd'. etransitivity; [exact H03|]. by apply extends_cps.
    + intros d4 cps' [Ha ->]. by eapply persist_compose.
Qed.

(** ** Repeating a batch *)

Lemma map_first_bfilter {K B} `{EqDecision K} (key : B → K) (p : B → bool) l k :
  (∀ x y, key x = key y → p x = p y) →
  map_get (map_first key (bfilter p l)) k
  = match map_get (map_first key l) k with
    | Some x => if p x then Some x else None
    | None => None
    end.
Proof.
  intros Hp. induction l as [|y l IH] using rev_ind; [done|].
  rewrite bfilter_app. cbn [bfilter]. rewrite (map_first_snoc key l y).
  destruct (p y) eqn:Ey.
  - rewrite map_first_snoc. unfold map_has. destruct (decide (k = key y)) as [->|Hne].
    + rewrite IH. destruct (map_get (map_first key l) (key y)) as [x|] eqn:Ex.
      * rewrite (Hp x y), Ey by (by apply map_first_get_key in Ex as [? _]).
        rewrite IH, Ex, (Hp x y), Ey by (by apply map_first_get_key in Ex as [? _]). done.
      * rewrite !map_get_set_eq. by rewrite Ey.
    + destruct (map_get (map_first key (bfilter p l)) (key y)), (map_get (map_first key l) (key y));
        rewrite ?map_get_set_ne by done; apply IH.
  - rewrite app_nil_r, IH. unfold map_has.
    destruct (map_get (map_first key l) (key y)) eqn:Ex; [done|].
    rewrite map_get_set. destruct (decide (k = key y)) as [->|]; [|done]. by rewrite Ex, Ey.
Qed.

Lemma above_key d e f : transportKey e = transportKey f → above d e = above d f.
Proof.
  intros (H1 & H2 & H3)%transportKey_eq. unfold above, event_stream. by rewrite H1, H2, H3.
Qed.

(** Without faults and mismatches the receipts are filtered. *)
Lemma wp_lockAndFilter_ok faults events d :
  ¬ faulty faults → consistent events →
  (∀ f r, map_get (map_first transportKey events) (transportKey f) = Some f →
     r ∈ event_inbox_receipt d → receiptTransportKey r = transportKey f → receipt_for d f r = true) →
  wp faults (lockAndFilterExistingReceipts events) d
    (λ d' pending, d' = d ∧ filtered d events pending) (λ _, False).
Proof.
  intros HF Hc Hm. unfold lockAndFilterExistingReceipts.
  rewrite collect_consistent by done.
  assert (Hall : ∀ e, e ∈ events → ∃ f, map_get (map_first transportKey events) (transportKey e) = Some f
    ∧ event_canonicalKey f = event_canonicalKey e).
  { intros e He. destruct (map_first_get transportKey events e He) as [f Hf]. exists f. split; [done|].
    apply map_first_get_key in Hf as [Hk Hf]. by apply Hc. }
  destruct (map_first transportKey events) as [|x coords] eqn:Ec.
  - apply wp_ret. split; [done|]. split; rewrite ?Ec; try done; [set_solver|constructor].
  - apply wp_bind, wp_query; [done|]. cbn [fst].
    assert (Hb : forallb (receipt_matches (x :: coords)) (select_receipts (x :: coords).*2 d).2 = true).
    { apply forallb_forall. intros y Hy. apply list_elem_of_In, elem_selected in Hy
        as (r & -> & Hr & e & He & Hk).
      assert (Hg : map_get (x :: coords) (transportKey e) = Some e).
      { rewrite <- Ec in He |- *. apply list_elem_of_fmap in He as ([k e'] & -> & He). cbn [snd].
        destruct (map_first_elem _ _ _ _ He) as [<- _].
        apply map_get_elem; [apply map_first_ok|done]. }
      rewrite (receipt_matches_for _ _ _ e) by (by rewrite Hk). by apply Hm. }
    rewrite Hb. apply wp_ret. split; [done|]. by apply filtered_intro.
Qed.

Lemma covered_receipt d f r :
  db_ok d → covered d f → r ∈ event_inbox_receipt d → receiptTransportKey r = transportKey f →
  receipt_for d f r = true.
Proof.
  intros Hok (r' & Hr' & Hk' & Hf) Hr Hk.
  assert (r = r') as ->; [|done].
  apply (NoDup_key_eq receiptTransportKey (event_inbox_receipt d)); [apply Hok|done..|congruence].
Qed.

Lemma persisted_above d events d' cps e :
  persisted d events d' cps → e ∈ events → above d' e = true → above d e = true.
Proof.
  intros Hp He. unfold above. rewrite !Z.ltb_lt. destruct (ps_ack _ _ _ _ Hp e He) as [? _]. lia.
Qed.

Lemma persisted_first d events d' cps f :
  persisted d events d' cps →
  map_get (map_first transportKey (bfilter (above d') events)) (transportKey f) = Some f →
  covered d' f.
Proof.
  intros Hp Hf. destruct (map_first_get_key _ _ _ _ Hf) as [_ Hin].
  apply elem_of_bfilter in Hin as [Hab Hin].
  pose proof (persisted_above _ _ _ _ _ Hp Hin Hab) as Hab0.
  destruct (ps_first _ _ _ _ Hp f Hin Hab0) as (g & Hg & _ & Hc).
  rewrite map_first_bfilter in Hf, Hg by apply above_key.
  destruct (map_get (map_first transportKey events) (transportKey f)) as [h|]; [|done].
  destruct (above d' h), (above d h); try done. congruence.
Qed.

Lemma persisted_filter d events d' cps :
  persisted d events d' cps →
  consistent (bfilter (above d') events)
  ∧ (∀ pending, filtered d' (bfilter (above d') events) pending → pending = []).
Proof.
  intros Hp. split.
  - intros e f [He' He]%elem_of_bfilter [Hf' Hf]%elem_of_bfilter Hk.
    destruct (ps_first _ _ _ _ Hp e He) as (x & Hx & Hxe & _); [by eapply persisted_above|].
    destruct (ps_first _ _ _ _ Hp f Hf) as (y & Hy & Hyf & _); [by eapply persisted_above|].
    rewrite Hk, Hy in Hx. congruence.
  - intros [|e pending] Hfl; [done|]. exfalso.
    destruct (fl_pending _ _ _ Hfl e) as [Hfirst Hno]; [left|].
    destruct (persisted_first _ _ _ _ _ Hp Hfirst) as (r & Hr & Hk & _). by apply (Hno r).
Qed.

Lemma same_checkpoints d d' :
  with_cps_of d d' → (∀ k, daemon_ack_checkpoint d' !! k = daemon_ack_checkpoint d !! k) → d' = d.
Proof. intros -> H. apply map_eq in H. simpl in H. rewrite H. by destruct d. Qed.

Lemma wp_persist_again now faults d events d' cps :
  ¬ faulty faults → persisted d events d' cps →
  wp faults (persist_body now events) d' (λ d2 cps2, d2 = d' ∧ cps2 = cps) (λ _, False).
Proof.
  intros HF Hp. unfold persist_body. apply wp_bind.
  eapply wp_mono; [by apply (wp_lock_all _ _ _ _ (λ _, False))| |done].
  intros d1 cps1 [Hl ->]. change (sort_by_key _) with (inputs_of events) in *.
  assert (d1 = d') as ->.
  { apply same_checkpoints; [apply Hl|]. intros k.
    destruct (lk_rows _ _ _ _ Hl k) as [->|(Hnone & Hin & _)]; [done|].
    apply elem_streams in Hin as (e & He & ->).
    destruct (ps_present _ _ _ _ Hp e He) as [? ?]. congruence. }
  clear Hl. rewrite unacked_above. apply wp_bind.
  destruct (persisted_filter _ _ _ _ Hp) as [Hc Hnil].
  eapply wp_mono; [apply wp_lockAndFilter_ok; [done..|]| |done].
  { intros f r Hf Hr Hk. eapply covered_receipt; eauto using ps_ok. by eapply persisted_first. }
  intros d1 pending [-> Hfl]. rewrite (Hnil _ Hfl). clear Hfl. cbn [bfilter].
  apply wp_bind. unfold upsertCanonicalInboxRows. cbn [map_first foldl].
  apply wp_ret, wp_bind. cbn [insertTransportReceipts]. apply wp_ret.
  assert (Hadv : ∀ e, e ∈ events → advanced d' (event_stream e) = ack_of d' (event_stream e)).
  { intros e He. apply contiguous_stops. by apply (ps_ack _ _ _ _ Hp e He). }
  eapply wp_mono; [apply (wp_advance_all _ _ _ _ (λ _, False))| |done].
  - intros x ([key k] & -> & (e & He & -> & ->)%inputs_elem)%list_elem_of_fmap. split; [done|].
    by apply (ps_present _ _ _ _ Hp).
  - done.
  - intros d2 cps2 [Ha ->]. split.
    + apply same_checkpoints; [apply Ha|]. intros k. apply (av_rows _ _ _ Ha).
      destruct (decide (k ∈ (inputs_of events).*2)) as [Hin|Hin].
      * right. apply elem_streams in Hin as (e & He & ->). auto.
      * left. rewrite <- list_fmap_compose. intros ([key [id g]] & -> & Hx)%list_elem_of_fmap.
        apply Hin, list_elem_of_fmap. by exists (key, (id, g)).
    + rewrite (ps_cps _ _ _ _ Hp), <- list_fmap_compose. apply list_fmap_ext.
      intros i [key k] Hi. apply list_elem_of_lookup_2, inputs_elem in Hi as (e & He & -> & ->).
      unfold compose, advance_of, checkpoint_of, stream_of. cbn [fst snd ack_daemonId ack_daemonGeneration].
      do 2 f_equal. by apply Hadv.
Qed.

(** ** Transactions *)

Definition no_faults : nat → option Fault := λ _, None.

Lemma no_faults_ok : ¬ faulty no_faults.
Proof. by intros [n H]. Qed.

(** The tables are those of [d]. *)
Definition same_tables (d d' : DB) : Prop :=
  event_inbox d' = event_inbox d ∧ event_inbox_receipt d' = event_inbox_receipt d
  ∧ daemon_ack_checkpoint d' = daemon_ack_checkpoint d.

(** Neither sequence was set back. *)
Definition seqs_grow (d d' : DB) : Prop :=
  inbox_id_seq d ≤ inbox_id_seq d' ∧ receipt_id_seq d ≤ receipt_id_seq d'.

Lemma transaction_spec {A} faults (body : Tx A) d Q :
  wp faults body d Q (extends d) → (∀ d' a, Q d' a → extends d d') →
  match transaction faults body d with
  | (d', Returns a) => Q d' a
  | (d', Throws _) =>
      (same_tables d d' ∧ seqs_grow d d')
      ∨ (∃ a, Q d' a ∧ ∃ n e, faults n = Some e ∧ took_effect e = true)
  end.
Proof.
  intros Hwp HQ. unfold transaction.
  destruct (faults 0%nat) eqn:F0; [left; split; [done|split; lia]|].
  assert (Hwp' : wp faults (_ ← query (λ d, (d, tt)); body) d Q (extends d)) by
    (apply wp_bind, wp_query; [by intros _|exact Hwp]).
  specialize (Hwp' 1%nat).
  destruct ((_ ← query (λ d, (d, tt)); body) faults _) as [s [a|m]].
  - destruct (faults (queries s)) as [e|] eqn:Fc; [|done].
    destruct (HQ _ _ Hwp') as [_ _ Hseq Hrseq _].
    destruct (faults (S (queries s))); (destruct (took_effect e) eqn:Et;
      [right; exists a; split; [done|]; by exists (queries s), e|by left]).
  - destruct Hwp' as [_ _ Hseq Hrseq _]. destruct (faults (queries s)); by left.
Qed.

(** With no fault and a body that does not throw, the transaction commits. *)
Lemma transaction_total {A} faults (body : Tx A) d Q :
  ¬ faulty faults → wp faults body d Q (λ _, False) →
  ∃ d' a, transaction faults body d = (d', Returns a) ∧ Q d' a.
Proof.
  intros HF Hwp. unfold transaction.
  assert (Hn : ∀ n, faults n = None).
  { intros n. destruct (faults n) eqn:E; [|done]. destruct HF. exists n. by rewrite E. }
  rewrite Hn. assert (Hwp' : wp faults (_ ← query (λ d, (d, tt)); body) d Q (λ _, False)) by
    (apply wp_bind, wp_query; [by intros ?%HF|exact Hwp]).
  specialize (Hwp' 1%nat).
  destruct ((_ ← query (λ d, (d, tt)); body) faults _) as [s [a|m]]; [|done].
  rewrite Hn. by exists (db s), a.
Qed.

Lemma persist_again now d events d' cps :
  persisted d events d' cps → persistBatch now no_faults events d' = (d', Returns cps).
Proof.
  intros Hp. destruct (transaction_total no_faults (persist_body now events) d' _ no_faults_ok
    (wp_persist_again now no_faults d events d' cps no_faults_ok Hp)) as (d2 & c2 & H & -> & ->).
  exact H.
Qed.

Lemma persist_returns now faults events d d' cps :
  db_ok d → persistBatch now faults events d = (d', Returns cps) → persisted d events d' cps.
Proof.
  intros Hok H. pose proof (transaction_spec faults (persist_body now events) d (persisted d events)
    (wp_persist now faults events d Hok) (λ _ _, ps_ext _ _ _ _)) as Hs.
  unfold persistBatch in H. by rewrite H in Hs.
Qed.

Lemma persist_throws now faults events d d' m :
  db_ok d → persistBatch now faults events d = (d', Throws m) →
  (same_tables d d' ∧ seqs_grow d d')
  ∨ ∃ cps, persisted d events d' cps.
Proof.
  intros Hok H. pose proof (transaction_spec faults (persist_body now events) d (persisted d events)
    (wp_persist now faults events d Hok) (λ _ _, ps_ext _ _ _ _)) as Hs.
  unfold persistBatch in H. rewrite H in Hs. destruct Hs as [?|(c & ? & _)]; [by left|right; by exists c].
Qed.

Lemma db_ok_same d d' : db_ok d → same_tables d d' → seqs_grow d d' → db_ok d'.
Proof.
  intros [H1 H2 H3 H4 H5 H6] (E1 & E2 & E3) [Hs _]. split; rewrite ?E1, ?E2; auto.
  intros r Hr. specialize (H2 r Hr). lia.
Qed.

Lemma persist_ok now faults events d d' r :
  db_ok d → persistBatch now faults events d = (d', r) → db_ok d'.
Proof.
  intros Hok H. destruct r as [cps|m].
  - by apply (persist_returns _ _ _ _ _ _ Hok) in H as [].
  - apply (persist_throws _ _ _ _ _ _ Hok) in H as [[Ht Hs]|[cps []]]; [|done].
    by eapply db_ok_same.
Qed.

(** ** Claims *)

(** C4: Every event of a batch that [persistBatch] returned for is durable: its
    sequence number was acknowledged before, or its transport coordinate has a
    receipt; and unless the batch holds a receipt-only event at that coordinate
    beside it, the receipt refers to the inbox row with the event's canonical key
    (or to none, for a receipt-only event). *)
Theorem persist_durable now faults events d d' cps e :
  db_ok d → persistBatch now faults events d = (d', Returns cps) → e ∈ events →
  seq e ≤ ack_of d (event_stream e)
  ∨ (receipt_at d' (daemonId e) (daemonGeneration e) (seq e) = true
     ∧ ((∀ f, f ∈ events → transportKey f = transportKey e → receiptOnly f = receiptOnly e) →
        covered d' e)).
Proof.
  intros Hok H He. apply (persist_returns _ _ _ _ _ _ Hok) in H as Hp.
  destruct (above d e) eqn:Hab; [right|left; unfold above in Hab; bool_hyps; lia].
  destruct (ps_first _ _ _ _ Hp e He Hab) as (f & Hf & Hcan & Hc).
  apply map_first_get_key in Hf as [Hk Hin]. apply elem_of_bfilter in Hin as [_ Hin].
  destruct Hc as (r & Hr & Hkr & Hfor). split.
  - apply receipt_at_key. exists r. split; [done|]. rewrite Hkr. exact Hk.
  - intros Hagree. exists r. split_and!; [done|congruence|]. revert Hfor.
    unfold receipt_for. by rewrite (Hagree f Hin Hk), Hcan.
Qed.

(** C3: The acknowledgements [persistBatch] returns are sound and maximal: every
    event's stream has one, equal to the stored checkpoint, which never moves
    back; each sequence number it newly acknowledges has a durable receipt; and
    the next sequence number has none. *)
Theorem ack_contiguous now faults events d d' cps e :
  db_ok d → persistBatch now faults events d = (d', Returns cps) → e ∈ events →
  ∃ c, map_get cps (event_checkpointKey e) = Some c
    ∧ (ack_daemonId c, ack_daemonGeneration c) = event_stream e
    ∧ ackSeq c = ack_of d' (event_stream e)
    ∧ ack_of d (event_stream e) ≤ ackSeq c
    ∧ (∀ s, ack_of d (event_stream e) < s ≤ ackSeq c →
         receipt_at d' (daemonId e) (daemonGeneration e) s = true)
    ∧ receipt_at d' (daemonId e) (daemonGeneration e) (ackSeq c + 1) = false.
Proof.
  intros Hok H He. apply (persist_returns _ _ _ _ _ _ Hok) in H as Hp.
  rewrite (ps_cps _ _ _ _ Hp), checkpoints_get by done.
  eexists. split; [done|]. cbn [ackSeq ack_daemonId ack_daemonGeneration].
  destruct (ps_ack _ _ _ _ Hp e He) as (? & ? & ?). by split_and!.
Qed.

(** C6: A call of [persistBatch] that throws leaves the three tables as they were,
    unless only the answer of its [COMMIT] was lost; in that case repeating the
    batch finds it stored, changes nothing and returns the acknowledgements. *)
Theorem persist_failure_safe now faults events d d' m :
  db_ok d → persistBatch now faults events d = (d', Throws m) →
  same_tables d d' ∨ ∃ cps, ∀ now', persistBatch now' no_faults events d' = (d', Returns cps).
Proof.
  intros Hok H. apply (persist_throws _ _ _ _ _ _ Hok) in H as [[Ht _]|[cps Hp]]; [by left|].
  right. exists cps. intros now'. by eapply persist_again.
Qed.

(** [persistBatch] is idempotent: repeating a batch it returned for changes
    nothing, not even a sequence, and returns the same acknowledgements. *)
Theorem persist_idempotent now now' faults events d d' cps :
  db_ok d → persistBatch now faults events d = (d', Returns cps) →
  persistBatch now' no_faults events d' = (d', Returns cps).
Proof. intros Hok H. apply (persist_returns _ _ _ _ _ _ Hok) in H. by eapply persist_again. Qed.

(** ** Witnesses *)

Definition empty_db : DB := {|
  event_inbox := []; inbox_id_seq := 1; event_inbox_receipt := []; receipt_id_seq := 1;
  daemon_ack_checkpoint := ∅ |}.

Lemma empty_db_ok : db_ok empty_db.
Proof. split; simpl; try constructor; set_solver. Qed.

(** Three events of one stream: 1 and 2 are contiguous, 4 is ahead of a gap. *)
Definition batch_event (s : Z) (key : string) : IngressEnvelope := {|
  obj := s; userId := Some 7; daemonId := "d"; registrationId := "reg"; daemonGeneration := 1;
  seq := s; dedupKey := key; sessionId := Some "s"%string; eventType := "agent_text";
  priority := Live; receiptOnly := false; payload := JObj []; materializationContext := JObj [];
  receivedAt := 5 |}%string.

Definition sample_batch : list IngressEnvelope :=
  [batch_event 2 "b"; batch_event 1 "a"; batch_event 4 "a"].

Definition sample_persisted : DB := (persistBatch 10 no_faults sample_batch empty_db).1.

Definition sample_cps : jsmap string AckCheckpoint :=
  [(checkpointKey "d" 1, {| ack_daemonId := "d"; ack_daemonGeneration := 1; ackSeq := 2 |})].

Lemma sample_run : persistBatch 10 no_faults sample_batch empty_db = (sample_persisted, Returns sample_cps).
Proof. vm_compute. reflexivity. Qed.

(** The answer of [COMMIT] is lost. *)
Definition lost_commit : nat → option Fault := λ n,
  if (n =? 9)%nat then Some {| fault_message := "connection lost"; took_effect := true |} else None.

Lemma sample_lost :
  persistBatch 10 lost_commit sample_batch empty_db = (sample_persisted, Throws "connection lost").
Proof. vm_compute. reflexivity. Qed.

Lemma persist_durable_witness :
  receipt_at sample_persisted "d" 1 4 = true ∧ length (event_inbox sample_persisted) = 2%nat.
Proof.
  split; [|vm_compute; reflexivity].
  destruct (persist_durable 10 no_faults sample_batch empty_db _ _ (batch_event 4 "a") empty_db_ok
    sample_run) as [H|[H _]]; [do 2 right; left| |exact H].
  vm_compute in H. destruct H. reflexivity.
Defined.

Lemma ack_contiguous_witness :
  ∃ c, map_get sample_cps (checkpointKey "d" 1) = Some c ∧ ackSeq c = 2.
Proof.
  destruct (ack_contiguous 10 no_faults sample_batch empty_db _ _ (batch_event 4 "a") empty_db_ok
    sample_run) as (c & Hc & _ & Ha & _); [do 2 right; left|].
  exists c. split; [exact Hc|]. rewrite Ha. vm_compute. reflexivity.
Defined.

Lemma persist_failure_safe_witness :
  same_tables empty_db sample_persisted
  ∨ ∃ cps, ∀ now', persistBatch now' no_faults sample_batch sample_persisted
                   = (sample_persisted, Returns cps).
Proof. exact (persist_failure_safe 10 lost_commit sample_batch empty_db _ _ empty_db_ok sample_lost). Defined.

Lemma persist_idempotent_witness :
  persistBatch 99 no_faults sample_batch sample_persisted = (sample_persisted, Returns sample_cps).
Proof. exact (persist_idempotent 10 99 no_faults sample_batch empty_db _ _ empty_db_ok sample_run). Defined.
