(* ===== verification/InboxClaims.v ===== *)
(** * InboxClaims: the life of an inbox row.

    Every operation of the repository is a step [repo_step] on the tables.  A
    step moves each row along [row_evolves]: its identity never changes, its
    [attempts] never decrease, and a completed or dead-lettered row is final.
    From this follow the invariant of the tables, the fencing of claims and the
    order in which a stream is served. *)

From stdpp Require Import pretty.
From S2P Require Import Prelude JsValue JsMap EventPolicy InboxRepository InboxFacts DurableInbox InboxPersist.

#[local] Open Scope Z_scope.

(** ** Evolution of a row *)

(** The columns no operation updates. *)
Definition identity (r : InboxRow) :=
  (inboxId r, row_userId r, row_daemonId r, row_daemonGeneration r, row_seq r, row_dedupKey r,
   row_sessionId r, row_eventType r, priorityClass r, schemaVersion r, occurredAt r,
   row_receivedAt r, row_payload r, row_materializationContext r).

Definition final (r : InboxRow) : bool := (status r =? 2) || (status r =? 3).

Record row_evolves (r r' : InboxRow) : Prop := {
  ev_identity : identity r' = identity r;
  ev_attempts : attempts r ≤ attempts r';
  ev_final : final r = true → r' = r;
  ev_ok : row_ok r → row_ok r';
}.

#[global] Instance row_evolves_preorder : PreOrder row_evolves.
Proof.
  split; [by split|]. intros r1 r2 r3 [I1 A1 F1 O1] [I2 A2 F2 O2].
  split; [congruence|lia| |auto]. intros H. pose proof (F1 H) as E. subst r2. auto.
Qed.

Lemma identity_fields r r' :
  identity r' = identity r → inboxId r' = inboxId r ∧ row_canonicalKey r' = row_canonicalKey r.
Proof. intros H. unfold identity in H. simplify_eq. unfold row_canonicalKey. split; congruence. Qed.

Lemma claim_evolves now w r : status r = 0 → row_evolves r (claim_row now w r).
Proof.
  intros Hs. split; simpl; [done|lia| |].
  - unfold final. rewrite Hs. done.
  - intros [? ? ? ?]. split; simpl; [lia|split; [by eexists|done]..|lia].
Qed.

Lemma settle_evolves st av co ma er r :
  status r = 1 → st = 0 ∨ st = 2 ∨ st = 3 → row_evolves r (settle_row st av co ma er r).
Proof.
  intros Hs Hst. split; simpl; [done|lia| |].
  - unfold final. rewrite Hs. done.
  - intros [? ? ? ?]. split; simpl; [lia|split; [lia|by intros []]..|lia].
Qed.

Lemma renew_evolves now r : status r = 1 → row_evolves r (renew_row now r).
Proof.
  intros Hs. split; simpl; [done|lia| |].
  - unfold final. rewrite Hs. done.
  - intros [? ? ? ?]. split; simpl; [lia|done|split; [by eexists|done]|lia].
Qed.

(** The rows of a table evolve in place, and rows are appended. *)
Definition rows_evolve (rows rows' : list InboxRow) : Prop :=
  ∃ kept new, rows' = kept ++ new ∧ Forall2 row_evolves rows kept.

Lemma rows_evolve_refl rows : rows_evolve rows rows.
Proof.
  exists rows, []. split; [by rewrite app_nil_r|done].
Qed.

Lemma rows_evolve_trans rows1 rows2 rows3 :
  rows_evolve rows1 rows2 → rows_evolve rows2 rows3 → rows_evolve rows1 rows3.
Proof.
  intros (k1 & n1 & -> & H1) (k2 & n2 & -> & H2).
  apply Forall2_app_inv_l in H2 as (k3 & n3 & H3 & H4 & ->).
  exists k3, (n3 ++ n2). split; [by rewrite app_assoc|].
  etransitivity; [exact H1|exact H3].
Qed.

Lemma rows_evolve_elem rows rows' r :
  rows_evolve rows rows' → r ∈ rows → ∃ r', r' ∈ rows' ∧ row_evolves r r'.
Proof.
  intros (k & n & -> & H) Hr. apply list_elem_of_lookup_1 in Hr as [i Hi].
  destruct (Forall2_lookup_l _ _ _ _ _ H Hi) as (r' & Hr' & He). exists r'. split; [|done].
  apply elem_of_app. left. by eapply list_elem_of_lookup_2.
Qed.

Lemma update_where_evolves p f rows :
  (∀ r, r ∈ rows → p r = true → row_evolves r (f r)) →
  Forall2 row_evolves rows (update_where p f rows).
Proof.
  induction rows as [|r rows IH]; intros H; simpl; constructor.
  - destruct (p r) eqn:E; [apply H; [left|done]|done].
  - apply IH. intros r' Hr'. apply H. by right.
Qed.

Lemma db_ok_evolve d rows :
  db_ok d → Forall2 row_evolves (event_inbox d) rows → db_ok (with_inbox d rows).
Proof.
  intros [H1 H2 H3 H4 H5 H6] Hev.
  assert (Hid : inboxId <$> rows = inboxId <$> event_inbox d ∧
                row_canonicalKey <$> rows = row_canonicalKey <$> event_inbox d).
  { clear -Hev. induction Hev as [|r r' l l' [HI _ _ _] _ [IH1 IH2]]; [done|].
    apply identity_fields in HI as [Hi Hk]. rewrite !fmap_cons. split; congruence. }
  destruct Hid as [Hid Hkey].
  assert (Hback : ∀ r', r' ∈ rows → ∃ r, r ∈ event_inbox d ∧ row_evolves r r').
  { intros r' [i Hi]%list_elem_of_lookup_1.
    destruct (Forall2_lookup_r _ _ _ _ _ Hev Hi) as (r & Hr & He).
    exists r. split; [by eapply list_elem_of_lookup_2|done]. }
  split; cbn [with_inbox event_inbox inbox_id_seq event_inbox_receipt]; rewrite ?Hid, ?Hkey; auto.
  - intros r' Hr'. destruct (Hback r' Hr') as (r & Hr & [HI _ _ _]).
    apply identity_fields in HI as [-> _]. auto.
  - intros r' Hr'. destruct (Hback r' Hr') as (r & Hr & []). auto.
Qed.

(** ** The steps of the repository *)

Inductive repo_step (hashtext : string → Z) : DB → DB → Prop :=
| step_persist now faults events d d' r :
    persistBatch now faults events d = (d', r) → repo_step hashtext d d'
| step_seed now faults id g acked d d' r :
    seedCheckpoint now faults id g acked d = (d', r) → repo_step hashtext d d'
| step_claim now faults locked o d d' r :
    claimBatch hashtext now faults locked o d = (d', r) → repo_step hashtext d d'
| step_reschedule faults id n av error w d d' r :
    reschedule faults id n av error w d = (d', r) → repo_step hashtext d d'
| step_complete now faults id eventId w n d d' r :
    complete now faults id eventId w n d = (d', r) → repo_step hashtext d d'
| step_deadLetter now faults id n error w d d' r :
    deadLetter now faults id n error w d = (d', r) → repo_step hashtext d d'
| step_renew now faults claims w d d' r :
    renewClaims now faults claims w d = (d', r) → repo_step hashtext d d'
| step_reset now faults locked lease limit d d' r :
    resetStaleClaims now faults locked lease limit d = (d', r) → repo_step hashtext d d'.

(** A statement outside a transaction applies or does not. *)
Lemma pool_query_cases {A} faults (f : DB → DB * A) d d' r :
  pool_query faults f d = (d', r) → d' = d ∨ d' = (f d).1.
Proof.
  unfold pool_query. destruct (faults 0%nat) as [e|].
  - destruct (took_effect e); intros [= <- _]; auto.
  - destruct (f d); intros [= <- _]; auto.
Qed.

Lemma holds_claim_status id w n r : holds_claim id w n r = true → status r = 1.
Proof. unfold holds_claim. intros. bool_hyps. done. Qed.

Lemma fenced_cases faults id w n f d d' r :
  fenced_update faults id w n f d = (d', r) →
  d' = d ∨ d' = with_inbox d (update_where (holds_claim id w n) f (event_inbox d)).
Proof.
  unfold fenced_update. destruct (pool_query _ _ _) as [d1 r1] eqn:E. intros [= <- _].
  by apply pool_query_cases in E.
Qed.

(** Rows that evolve in place. *)
Definition rows_in_place (d d' : DB) : Prop :=
  ∃ rows, d' = with_inbox d rows ∧ Forall2 row_evolves (event_inbox d) rows.

Lemma unchanged d : rows_in_place d d.
Proof. exists (event_inbox d). split; [by destruct d|done]. Qed.

Lemma update_in_place d p f :
  (∀ r, r ∈ event_inbox d → p r = true → row_evolves r (f r)) →
  rows_in_place d (with_inbox d (update_where p f (event_inbox d))).
Proof. intros H. eexists. split; [done|]. by apply update_where_evolves. Qed.

Lemma fenced_step faults id w n f d d' r :
  (∀ r, status r = 1 → row_evolves r (f r)) →
  fenced_update faults id w n f d = (d', r) → rows_in_place d d'.
Proof.
  intros Hf [->| ->]%fenced_cases; [apply unchanged|].
  apply update_in_place. intros x _ Hx%holds_claim_status. auto.
Qed.

Lemma stale_claims_elem now lease limit locked rows r :
  r ∈ stale_claims now lease limit locked rows →
  r ∈ rows ∧ is_stale now lease r = true ∧ inboxId r ∉ locked.
Proof.
  unfold stale_claims. intros H%elem_of_take. destruct H as (i & Hi & _).
  apply list_elem_of_lookup_2 in Hi. rewrite merge_sort_Permutation in Hi.
  apply elem_of_bfilter in Hi as [Hp Hr]. bool_hyps. done.
Qed.

(** What a step does to the inbox: nothing but evolution in place, a batch, or a
    checkpoint. *)
Inductive inbox_step (d d' : DB) : Prop :=
| in_place : rows_in_place d d' → inbox_step d d'
| seeds now faults id g acked r : seedCheckpoint now faults id g acked d = (d', r) → inbox_step d d'
| batch now faults events r : persistBatch now faults events d = (d', r) → inbox_step d d'.

Lemma repo_inbox_step hashtext d d' : db_ok d → repo_step hashtext d d' → inbox_step d d'.
Proof.
  intros Hok Hs. revert Hok. destruct Hs; intros Hok; [by eapply batch|by eapply seeds|apply in_place..].
  - unfold claimBatch in H. destruct (_ =? 0); [injection H as <- _; apply unchanged|].
    destruct (_ || _); [injection H as <- _; apply unchanged|].
    apply pool_query_cases in H as [->| ->]; [apply unchanged|].
    apply update_in_place. intros x _ Hx. bool_hyps. by apply claim_evolves.
  - eapply fenced_step; [|exact H]. intros x Hx. apply settle_evolves; auto.
  - eapply fenced_step; [|exact H]. intros x Hx. apply settle_evolves; auto.
  - eapply fenced_step; [|exact H]. intros x Hx. apply settle_evolves; auto.
  - destruct claims as [|c cs]; [injection H as <- _; apply unchanged|].
    apply pool_query_cases in H as [->| ->]; [apply unchanged|].
    apply update_in_place. intros x _ Hx.
    apply existsb_exists in Hx as (y & _ & Hy%holds_claim_status). by apply renew_evolves.
  - apply pool_query_cases in H as [->| ->]; [apply unchanged|].
    apply update_in_place. intros x Hx Hin. bool_hyps.
    apply settle_evolves; [|auto]. apply list_elem_of_fmap in Hin as (y & Hid & Hy).
    apply stale_claims_elem in Hy as (Hy & Hst & _).
    assert (x = y) as ->; [|by unfold is_stale in Hst; bool_hyps].
    apply (NoDup_key_eq inboxId (event_inbox d)); [apply Hok|done..].
Qed.

Lemma inbox_step_ok d d' : db_ok d → inbox_step d d' → db_ok d'.
Proof.
  intros Hok [(rows & -> & Hev)|now faults id g acked r Hs|now faults events r Hb].
  - by apply db_ok_evolve.
  - apply pool_query_cases in Hs as [->| ->]; [done|by apply db_ok_checkpoints].
  - by eapply persist_ok.
Qed.

Lemma inbox_step_rows d d' :
  db_ok d → inbox_step d d' → rows_evolve (event_inbox d) (event_inbox d').
Proof.
  intros Hok [(rows & -> & Hev)|now faults id g acked r Hs|now faults events r Hb].
  - exists rows, []. by rewrite app_nil_r.
  - apply pool_query_cases in Hs as [->| ->]; apply rows_evolve_refl.
  - assert (Hcase : event_inbox d' = event_inbox d ∨ extends d d').
    { destruct r as [cps|m].
      - right. by apply (persist_returns _ _ _ _ _ _ Hok) in Hb as [].
      - apply (persist_throws _ _ _ _ _ _ Hok) in Hb as [[[Ht _] _]|[cps []]]; [by left|by right]. }
    destruct Hcase as [->|[[k ->] _ _ _ _]]; [apply rows_evolve_refl|].
    by exists (event_inbox d), k.
Qed.

(** Any number of steps. *)
Lemma steps_evolve hashtext d d' :
  db_ok d → rtc (repo_step hashtext) d d' →
  db_ok d' ∧ rows_evolve (event_inbox d) (event_inbox d').
Proof.
  intros Hok Hs. induction Hs as [d|d d1 d' Hstep _ IH]; [split; [done|apply rows_evolve_refl]|].
  apply (repo_inbox_step _ _ _ Hok) in Hstep.
  destruct IH as [Hok' Hev]; [by eapply inbox_step_ok|]. split; [done|].
  eapply rows_evolve_trans; [by apply inbox_step_rows|done].
Qed.

(** ** Fences *)

(** A fence that no row of the table satisfies. *)
Lemma fenced_lost id w n f d :
  (∀ r, r ∈ event_inbox d → holds_claim id w n r = false) →
  fenced_update no_faults id w n f d = (d, Throws LostClaimError).
Proof.
  intros H. unfold fenced_update, pool_query, no_faults. rewrite (bfilter_false _ _ H).
  assert (update_where (holds_claim id w n) f (event_inbox d) = event_inbox d) as ->; [|by destruct d].
  unfold update_where. induction (event_inbox d) as [|r rows IH]; [done|]. simpl.
  rewrite (H r (list_elem_of_here _ _)). f_equal. apply IH. intros r' Hr'. apply H. by right.
Qed.

Lemma overtaken_fence d r w n :
  db_ok d → r ∈ event_inbox d → n < attempts r →
  ∀ r', r' ∈ event_inbox d → holds_claim (inboxId r) w n r' = false.
Proof.
  intros Hok Hr Hn r' Hr'. apply not_true_iff_false. intros H. unfold holds_claim in H. bool_hyps.
  assert (r' = r) as ->; [|lia].
  apply (NoDup_key_eq inboxId (event_inbox d)); [apply Hok|done..].
Qed.

(** In a table with distinct ids a fenced update that counts one row changes
    that row and no other. *)
Lemma fenced_returns id w n f d d' faults :
  db_ok d → fenced_update faults id w n f d = (d', Returns tt) →
  ∃ r, r ∈ event_inbox d ∧ holds_claim id w n r = true
    ∧ event_inbox d' = (λ x, if inboxId x =? id then f r else x) <$> event_inbox d
    ∧ d' = with_inbox d (event_inbox d').
Proof.
  intros Hok H. unfold fenced_update, pool_query in H. destruct (faults 0%nat) as [e|]; [done|].
  injection H as <- H. destruct (Z.eqb_spec (len (bfilter (holds_claim id w n) (event_inbox d))) 1)
    as [Hlen|]; [|done].
  destruct (bfilter (holds_claim id w n) (event_inbox d)) as [|r l] eqn:Eb; [done|].
  assert (Hr : r ∈ bfilter (holds_claim id w n) (event_inbox d)) by (rewrite Eb; left).
  apply elem_of_bfilter in Hr as [Hc Hr]. exists r. split_and!; auto.
  cbn [with_inbox event_inbox]. unfold update_where. apply map_ext_in. intros x Hx%list_elem_of_In.
  assert (Hid : inboxId r = id) by (unfold holds_claim in Hc; bool_hyps; done).
  destruct (Z.eqb_spec (inboxId x) id) as [Hxid|Hne].
  - assert (x = r) as ->; [|by rewrite Hc].
    apply (NoDup_key_eq inboxId (event_inbox d)); [apply Hok|done..|congruence].
  - destruct (holds_claim id w n x) eqn:Hx'; [|done]. unfold holds_claim in Hx'. bool_hyps. done.
Qed.

(** ** Claiming *)

Lemma claim_candidates_elem hashtext now locked o rows r :
  r ∈ claim_candidates hashtext now locked o rows →
  r ∈ rows ∧ is_stream_head rows r = true ∧ status r = 0 ∧ availableAt r ≤ now
  ∧ in_shard hashtext o r = true ∧ inboxId r ∉ locked.
Proof.
  unfold claim_candidates. intros (i & Hi & _)%elem_of_take.
  apply list_elem_of_lookup_2 in Hi. rewrite merge_sort_Permutation in Hi.
  apply elem_of_bfilter in Hi as [Hp Hr]. bool_hyps. by split_and!.
Qed.

Lemma head_first d r s :
  db_ok d → r ∈ event_inbox d → is_stream_head (event_inbox d) r = true →
  s ∈ event_inbox d → unresolved s = true → same_stream r s = true → s ≠ r →
  stream_before r s = true.
Proof.
  intros Hok Hr Hh Hs Hu Hst Hne. unfold is_stream_head in Hh. bool_hyps.
  match goal with H : forallb _ _ = true |- _ => rewrite forallb_forall in H;
    specialize (H s (proj1 (list_elem_of_In _ _) Hs)) end.
  rewrite Hu, Hst in *. cbn [andb] in *. bool_hyps.
  assert (inboxId r ≠ inboxId s).
  { intros E. apply Hne. apply (NoDup_key_eq inboxId (event_inbox d)); [apply Hok|done..]. }
  unfold stream_before in *. destruct (Z.ltb_spec (row_seq s) (row_seq r)); [done|].
  destruct (Z.ltb_spec (row_seq r) (row_seq s)); [done|].
  destruct (Z.eqb_spec (row_seq s) (row_seq r)); [|lia]. destruct (Z.eqb_spec (row_seq r) (row_seq s)); [|lia].
  destruct (Z.ltb_spec (inboxId s) (inboxId r)); [done|].
  destruct (Z.ltb_spec (inboxId r) (inboxId s)); [done|]. lia.
Qed.

(** Two heads of one stream are one row. *)
Lemma streams_meet r r' (rows : list InboxRow) :
  r ∈ rows → r' ∈ rows → status r = 0 → status r' = 0 → same_stream r r' = true →
  (∀ s, s ∈ rows → unresolved s = true → same_stream r s = true → s ≠ r → stream_before r s = true) →
  (∀ s, s ∈ rows → unresolved s = true → same_stream r' s = true → s ≠ r' → stream_before r' s = true) →
  inboxId r = inboxId r'.
Proof.
  intros Hr Hr' Hs Hs' Hst H H'. destruct (decide (inboxId r = inboxId r')) as [|Hne]; [done|].
  assert (Hst' : same_stream r' r = true).
  { unfold same_stream in *. bool_hyps. rewrite bool_decide_true by done. by apply Z.eqb_eq. }
  assert (Hb : stream_before r r' = true).
  { apply H; auto; [unfold unresolved; by rewrite Hs'|congruence]. }
  assert (Hb' : stream_before r' r = true).
  { apply H'; auto; [unfold unresolved; by rewrite Hs|congruence]. }
  unfold stream_before in *. lia.
Qed.

(** The rows a claim takes, and how many. *)
Lemma chosen_spec hashtext now locked o d r :
  db_ok d → r ∈ event_inbox d →
  inboxId r ∈ inboxId <$> claim_candidates hashtext now locked o (event_inbox d) →
  r ∈ claim_candidates hashtext now locked o (event_inbox d).
Proof.
  intros Hok Hr (c & Hid & Hc)%list_elem_of_fmap.
  assert (r = c) as ->; [|done]. apply claim_candidates_elem in Hc as (Hc & _).
  apply (NoDup_key_eq inboxId (event_inbox d)); [apply Hok|done..].
Qed.

Lemma chosen_count {A} (f : A → Z) (p : A → bool) (ids : list Z) l :
  NoDup (f <$> l) → (∀ x, x ∈ l → p x = true → f x ∈ ids) → (length (bfilter p l) ≤ length ids)%nat.
Proof.
  intros Hnd Hp. rewrite <- (length_fmap f (bfilter p l)). apply submseteq_length, NoDup_submseteq.
  - eapply sublist_NoDup; [exact Hnd|]. apply fmap_sublist, bfilter_sublist.
  - intros x (y & -> & Hy)%list_elem_of_fmap. apply elem_of_bfilter in Hy as []. auto.
Qed.

(** ** Replay batches *)

Lemma replay_prefix_spec now head bytes rows :
  let rs := replay_prefix now head bytes rows in
  rs `prefix_of` (toInboxRow <$> rows)
  ∧ Forall (λ r, joins_replay now head r = true) rs
  ∧ (rs ≠ [] → bytes + sumZ (λ r, json_bytes (row_payload r)) rs ≤ REPLAY_BATCH_MAX_BYTES).
Proof.
  revert bytes. induction rows as [|raw rows IH]; intros bytes; cbn [replay_prefix].
  - split_and!; [by exists []|constructor|done].
  - destruct (joins_replay now head (toInboxRow raw)) eqn:Ej; cbn [negb].
    2: { split_and!; [by eexists|constructor|done]. }
    destruct (Z.ltb_spec REPLAY_BATCH_MAX_BYTES (bytes + json_bytes (row_payload (toInboxRow raw)))).
    { split_and!; [by eexists|constructor|done]. }
    destruct (IH (bytes + json_bytes (row_payload (toInboxRow raw)))) as (H1 & H2 & H3).
    split_and!; [by apply prefix_cons|by constructor|]. intros _. cbn [sumZ].
    destruct (replay_prefix _ _ _ rows) as [|r rs]; [cbn [sumZ]; lia|]. specialize (H3 ltac:(done)). lia.
Qed.

(** ** Claims *)

(** Whatever operations run from empty tables, in any order and with any
    statement failing, the tables stay well formed: one row per canonical key,
    one receipt per transport coordinate, receipts that refer to existing rows,
    and claim columns that are set exactly while a row is claimed. *)
Theorem tables_consistent hashtext d : rtc (repo_step hashtext) empty_db d → db_ok d.
Proof. intros H. by apply (steps_evolve hashtext empty_db d empty_db_ok). Qed.

(** A completed or dead-lettered row never changes again. *)
Theorem settled_rows_final hashtext d d' r :
  db_ok d → rtc (repo_step hashtext) d d' → r ∈ event_inbox d → final r = true →
  r ∈ event_inbox d'.
Proof.
  intros Hok Hs Hr Hf. destruct (steps_evolve hashtext d d' Hok Hs) as [_ Hev].
  destruct (rows_evolve_elem _ _ r Hev Hr) as (r' & Hr' & [_ _ F _]). by rewrite <- (F Hf).
Qed.

(** A claim that was taken over can never settle or renew its row: once the
    row's attempt counter passed the fence, every later [complete],
    [reschedule] and [deadLetter] with that fence throws [LostClaimError] and
    changes nothing, and [renewClaims] does not return the row. *)
Theorem overtaken_claim_lost hashtext d d' r w n now av er ev :
  db_ok d → rtc (repo_step hashtext) d d' → r ∈ event_inbox d → n < attempts r →
  complete now no_faults (inboxId r) ev w n d' = (d', Throws LostClaimError)
  ∧ reschedule no_faults (inboxId r) n av er w d' = (d', Throws LostClaimError)
  ∧ deadLetter now no_faults (inboxId r) n er w d' = (d', Throws LostClaimError)
  ∧ snd (renewClaims now no_faults [{| fence_inboxId := inboxId r; fence_attempts := n |}] w d')
    = Returns [].
Proof.
  intros Hok Hs Hr Hn. destruct (steps_evolve hashtext d d' Hok Hs) as [Hok' Hev].
  destruct (rows_evolve_elem _ _ r Hev Hr) as (r' & Hr' & [HI HA _ _]).
  apply identity_fields in HI as [HI _]. rewrite <- HI.
  pose proof (overtaken_fence d' r' w n Hok' Hr' ltac:(lia)) as Hno.
  split_and!; [by apply fenced_lost..|].
  unfold renewClaims, pool_query, no_faults. cbn [snd]. rewrite bfilter_false; [done|].
  intros x Hx. cbn [existsb fence_inboxId fence_attempts]. by rewrite (Hno x Hx).
Qed.

(** A worker claims only ready heads: each row returned was pending, due, of
    the worker's shard and the first unresolved row of its stream, is now claimed
    by this worker under a new attempt number, and no two rows of one batch are
    of one stream; the batch is sorted by priority and age and within the limit. *)
Theorem claims_stream_heads hashtext now faults locked o d d' rs :
  db_ok d → claimBatch hashtext now faults locked o d = (d', Returns rs) →
  (∀ c, c ∈ rs → ∃ r, c = toInboxRow (claim_row now (workerId o) r)
     ∧ r ∈ event_inbox d ∧ claim_row now (workerId o) r ∈ event_inbox d'
     ∧ status r = 0 ∧ availableAt r ≤ now ∧ in_shard hashtext o r = true ∧ inboxId r ∉ locked
     ∧ ∀ s, s ∈ event_inbox d → unresolved s = true → same_stream r s = true → s ≠ r →
         stream_before r s = true)
  ∧ (∀ c c', c ∈ rs → c' ∈ rs → same_stream c c' = true → inboxId c = inboxId c')
  ∧ len rs ≤ Z.max 0 (claimLimit o)
  ∧ ∃ rows, rs = toInboxRow <$> rows ∧ Sorted claim_le rows.
Proof.
  intros Hok H. unfold claimBatch in H.
  destruct (Z.eqb_spec (Z.max 0 (claimLimit o)) 0) as [E|Hlim].
  { injection H as <- <-. split_and!; [set_solver..|cbn [length]; lia|]. by exists []. }
  destruct (_ || _); [done|]. unfold pool_query in H. destruct (faults 0%nat); [done|].
  injection H as <- <-. set (chosen := λ r, _ && _).
  match goal with |- ?P ∧ _ => assert (Hheads : P) end.
  { intros c Hc. apply list_elem_of_In, in_map_iff in Hc as (x & <- & Hx).
    apply list_elem_of_In in Hx. rewrite merge_sort_Permutation in Hx.
    apply list_elem_of_fmap in Hx as (r & -> & [Hch Hr]%elem_of_bfilter).
    exists r. split; [done|]. split; [done|].
    pose proof Hch as Hch'. unfold chosen in Hch'. bool_hyps.
    match goal with Hi : inboxId r ∈ _ |- _ => apply (chosen_spec _ _ _ _ _ _ Hok Hr) in Hi;
      apply claim_candidates_elem in Hi as (_ & Hh & Hs & Hav & Hsh & Hlk) end.
    split_and!; auto.
    + cbn [with_inbox event_inbox]. unfold update_where.
      apply list_elem_of_In, in_map_iff. exists r. rewrite <- list_elem_of_In. split; [|done].
      fold chosen. by rewrite Hch.
    + intros s. by apply head_first. }
  split_and!; [exact Hheads| | |].
  - intros c c' Hc Hc' Hst.
    destruct (Hheads c Hc) as (r & -> & Hr & _ & Hs & _ & _ & _ & Hbefore).
    destruct (Hheads c' Hc') as (r' & -> & Hr' & _ & Hs' & _ & _ & _ & Hbefore').
    apply (streams_meet r r' (event_inbox d)); auto.
  - rewrite length_map, (Permutation_length (merge_sort_Permutation _ _)), length_map.
    transitivity (len (inboxId <$> claim_candidates hashtext now locked o (event_inbox d))).
    + apply inj_le, (chosen_count inboxId); [apply Hok|].
      intros x _ Hx. unfold chosen in Hx. by bool_hyps.
    + rewrite length_fmap. unfold claim_candidates. rewrite length_take. lia.
  - eexists. split; [done|]. apply Sorted_merge_sort. intros x y. unfold claim_le. lia.
Qed.

(** [complete] is exact: when it returns, the caller held the claim, the row is
    completed with the event it materialised to, its claim is released, and no
    other row, receipt or checkpoint changed. *)
Theorem complete_exact now faults id ev w n d d' :
  db_ok d → complete now faults id ev w n d = (d', Returns tt) →
  ∃ r, r ∈ event_inbox d ∧ inboxId r = id ∧ status r = 1 ∧ claimedBy r = Some w ∧ attempts r = n
    ∧ event_inbox d' = (λ x, if inboxId x =? id
                             then settle_row 2 (availableAt r) (Some now) ev None r else x)
                       <$> event_inbox d
    ∧ d' = with_inbox d (event_inbox d').
Proof.
  intros Hok H. destruct (fenced_returns _ _ _ _ _ _ _ Hok H) as (r & Hr & Hc & Hrows & Hd).
  exists r. unfold holds_claim in Hc. bool_hyps. by split_and!.
Qed.

(** The followers of a replay head are a prefix of its stream: consecutive
    unresolved rows in order, at most 31, all pending, due, of the head's user
    and session and free of side effects, within the byte bound of a batch. *)
Theorem replay_prefix_bounded now faults head limit d rs :
  readReplayPrefix now faults head limit d = Returns rs →
  rs `prefix_of` (toInboxRow <$> merge_sort stream_le
    (bfilter (λ r, same_stream head r && unresolved r && stream_before head r) (event_inbox d)))
  ∧ len rs ≤ Z.min 31 (Z.max 0 (limit - 1))
  ∧ Forall (λ r, joins_replay now head r = true) rs
  ∧ (rs ≠ [] → isSideEffectFreeReplay head = true
       ∧ json_bytes (row_payload head) + sumZ (λ r, json_bytes (row_payload r)) rs
         ≤ REPLAY_BATCH_MAX_BYTES).
Proof.
  assert (Hnil : ∀ l : list InboxRow, [] `prefix_of` l) by (intros l; by exists l).
  unfold readReplayPrefix. intros H.
  destruct (negb _ || negb _) eqn:Eh.
  { injection H as <-. split_and!; [apply Hnil|cbn [length]; lia|constructor|done]. }
  destruct (Z.eqb_spec (Z.min 31 (Z.max 0 (limit - 1))) 0) as [E0|E0].
  { injection H as <-. split_and!; [apply Hnil|cbn [length]; lia|constructor|done]. }
  destruct (pool_query _ _ _) as [d1 [next|m]] eqn:Eq; cbn [snd] in H; [|done].
  unfold pool_query in Eq. destruct (faults 0%nat); [done|]. injection Eq as <- <-.
  destruct (Z.ltb_spec REPLAY_BATCH_MAX_BYTES (json_bytes (row_payload head))).
  { injection H as <-. split_and!; [apply Hnil|cbn [length]; lia|constructor|done]. }
  injection H as <-. set (size := Z.min 31 (Z.max 0 (limit - 1))) in *.
  destruct (replay_prefix_spec now head (json_bytes (row_payload head))
              (followers head size (event_inbox d))) as (H1 & H2 & H3).
  split_and!; [| |done|intros Hne; split; [by bool_hyps|auto]].
  - etransitivity; [exact H1|]. unfold followers. rewrite fmap_take. apply prefix_take.
  - apply prefix_length in H1. rewrite length_fmap in H1.
    assert (length (followers head size (event_inbox d)) ≤ Z.to_nat size)%nat
      by (unfold followers; rewrite length_take; lia).
    assert (0 ≤ size) by (unfold size; lia). lia.
Qed.

(** ** Witnesses *)

Definition sample_hash (s : string) : Z := str_len s.

Definition sample_options : ClaimBatchOptions :=
  {| workerId := "w1"; claimLimit := 10; shardCount := 1; shardIndex := 0 |}.

Definition sample_claim : DB * outcome (list InboxRow) :=
  claimBatch sample_hash 20 no_faults [] sample_options sample_persisted.

Definition sample_claimed : DB := fst sample_claim.

(** The head of the stream is the row of [seq] 1, the second inserted. *)
Definition sample_head : InboxRow :=
  claim_row 20 "w1" (new_inbox_row 10 1 (batch_event 1 "a")).

Definition sample_completed : DB := fst (complete 30 no_faults 1 (Some 5) "w1" 1 sample_claimed).

Lemma sample_persist_step : rtc (repo_step sample_hash) empty_db sample_persisted.
Proof. apply rtc_once. eapply step_persist. apply sample_run. Qed.

Lemma sample_claim_eq :
  claimBatch sample_hash 20 no_faults [] sample_options sample_persisted
  = (sample_claimed, Returns [sample_head]).
Proof. vm_compute. reflexivity. Qed.

Lemma sample_claimed_steps : rtc (repo_step sample_hash) sample_persisted sample_claimed.
Proof. apply rtc_once. eapply step_claim. apply sample_claim_eq. Qed.

Lemma sample_complete_eq :
  complete 30 no_faults 1 (Some 5) "w1" 1 sample_claimed = (sample_completed, Returns tt).
Proof. vm_compute. reflexivity. Qed.

Lemma sample_persisted_ok : db_ok sample_persisted.
Proof. eapply (steps_evolve sample_hash); [apply empty_db_ok|apply sample_persist_step]. Qed.

Lemma sample_claimed_ok : db_ok sample_claimed.
Proof. eapply (steps_evolve sample_hash); [apply sample_persisted_ok|apply sample_claimed_steps]. Qed.

Lemma sample_completed_ok : db_ok sample_completed.
Proof.
  eapply (steps_evolve sample_hash); [apply sample_claimed_ok|].
  apply rtc_once. eapply step_complete. apply sample_complete_eq.
Qed.

Lemma tables_consistent_witness : db_ok sample_persisted.
Proof. exact (tables_consistent sample_hash _ sample_persist_step). Defined.

Definition sample_done : InboxRow :=
  settle_row 2 10 (Some 30) (Some 5) None sample_head.

Lemma settled_rows_final_witness : sample_done ∈ event_inbox sample_completed.
Proof.
  apply (settled_rows_final sample_hash sample_completed sample_completed).
  - apply sample_completed_ok.
  - apply rtc_refl.
  - vm_compute. by repeat constructor.
  - vm_compute. reflexivity.
Defined.

Lemma overtaken_claim_lost_witness :
  complete 40 no_faults 1 None "w0" 0 sample_claimed = (sample_claimed, Throws LostClaimError).
Proof.
  apply (overtaken_claim_lost sample_hash sample_claimed sample_claimed sample_head "w0" 0 40 0 "" None).
  - apply sample_claimed_ok.
  - apply rtc_refl.
  - vm_compute. by repeat constructor.
  - vm_compute. reflexivity.
Defined.

Lemma claims_stream_heads_witness :
  ∃ r, sample_head = toInboxRow (claim_row 20 "w1" r) ∧ r ∈ event_inbox sample_persisted.
Proof.
  destruct (claims_stream_heads sample_hash 20 no_faults [] sample_options sample_persisted _ _
    sample_persisted_ok sample_claim_eq) as [H _].
  destruct (H sample_head) as (r & Hr & Hin & _); [left|]. by exists r.
Defined.

Lemma complete_exact_witness :
  ∃ r, r ∈ event_inbox sample_claimed ∧ inboxId r = 1 ∧ status r = 1.
Proof.
  destruct (complete_exact 30 no_faults 1 (Some 5) "w1" 1 sample_claimed _
    sample_claimed_ok sample_complete_eq) as (r & Hr & Hid & Hs & _).
  by exists r.
Defined.

(** A replayed stream: a head and a follower that may join its batch. *)
Definition replay_event (s : Z) (key : string) : IngressEnvelope := {|
  obj := s; userId := Some 7; daemonId := "d"; registrationId := "reg"; daemonGeneration := 1;
  seq := s; dedupKey := key; sessionId := Some "s"%string; eventType := "agent_text";
  priority := Replay; receiptOnly := false;
  payload := JObj [("type", JStr "agent_text"); ("session_id", JStr "s"); ("resync", JBool true);
                   ("event_id", JStr key)];
  materializationContext := JObj [("cwd", JStr "/")]; receivedAt := 5 |}%string.

Definition replay_db : DB :=
  fst (persistBatch 10 no_faults [replay_event 1 "a"; replay_event 2 "b"] empty_db).

Definition replay_head : InboxRow := new_inbox_row 10 1 (replay_event 1 "a").

Definition replay_follower : InboxRow := new_inbox_row 10 2 (replay_event 2 "b").

Lemma sample_replay :
  readReplayPrefix 20 no_faults replay_head 32 replay_db = Returns [replay_follower].
Proof. vm_compute. reflexivity. Qed.

Lemma replay_prefix_bounded_witness :
  Forall (λ r, joins_replay 20 replay_head r = true) [replay_follower].
Proof.
  destruct (replay_prefix_bounded 20 no_faults replay_head 32 replay_db _ sample_replay)
    as (_ & _ & H & _). exact H.
Defined.
