(* ===== verification/RealtimeOutbox.v ===== *)
(** * RealtimeOutbox: from completed inbox rows to connected clients
    (relay/src/materialization/realtime-outbox.ts, relay/src/inbox-retention.ts).

    The worker that materialized an event completes its inbox row and stores the
    deliveries in [realtime_outbox] in one transaction.  A consumer of each
    relay process claims not_delivered rows under row locks, hands them to the
    router and marks those the router took; the marks are committed together.
    Retention deletes inbox rows whose deliveries are all done.

    [complete], [completeReplayBatch] and retention are functions on the tables.
    A run of the consumer keeps its transaction open across deliveries, so it is
    a value, [ActiveRun], whose marks reach the tables at its commit; [runOnce]
    is a run with nothing in between.  What the router answers is an argument.
    The notification channel, the timer and subscriptions are in OutboxConsumer;
    the proofs are in RealtimeOutboxSpec. *)

From S2P Require Import Prelude JsValue JsMap EventPolicy InboxRepository.

#[local] Open Scope Z_scope.

(** ** Tables *)

(** What the materializer wants delivered. *)
Record MaterializedDelivery : Type := {
  deliveryKey : string;
  d_eventId : option Z;
  d_userId : option Z;
  d_sessionId : option string;
  d_type : string;
  d_audience : string;
  d_requestId : option string;
  d_payload : jsval
}.

(** A row of [realtime_outbox]. *)
Record OutboxTableRow : Type := {
  o_outbox_id : Z;
  o_inbox_id : Z;
  o_delivery_key : string;
  o_event_id : option Z;
  o_user_id : option Z;
  o_session_id : option string;
  o_event_type : string;
  o_audience : string;
  o_request_id : option string;
  o_payload : jsval;
  o_created_at : Z;
  o_delivered_at : option Z
}.

Record OutboxDb : Type := {
  tables : DB;
  outbox : list OutboxTableRow;
  outbox_id_seq : Z
}.

Definition with_inbox_tables (db : OutboxDb) (t : DB) : OutboxDb := {|
  tables := t; outbox := outbox db; outbox_id_seq := outbox_id_seq db |}.

Definition with_outbox (db : OutboxDb) (rows : list OutboxTableRow) : OutboxDb := {|
  tables := tables db; outbox := rows; outbox_id_seq := outbox_id_seq db |}.

(** ** Writing *)

Definition new_outbox_row (now id inbox : Z) (d : MaterializedDelivery) : OutboxTableRow := {|
  o_outbox_id := id; o_inbox_id := inbox; o_delivery_key := deliveryKey d; o_event_id := d_eventId d;
  o_user_id := d_userId d; o_session_id := d_sessionId d; o_event_type := d_type d;
  o_audience := d_audience d; o_request_id := d_requestId d; o_payload := d_payload d;
  o_created_at := now; o_delivered_at := None |}.

Definition delivery_of (inbox : Z) (key : string) (o : OutboxTableRow) : bool :=
  (o_inbox_id o =? inbox) && bool_decide (o_delivery_key o = key).

(** [INSERT ... ON CONFLICT (inbox_id, delivery_key) DO NOTHING]; the sequence
    advances in either case. *)
Definition insert_delivery (now : Z) (d : Z * MaterializedDelivery) (db : OutboxDb) : OutboxDb := {|
  tables := tables db;
  outbox := if existsb (delivery_of d.1 (deliveryKey d.2)) (outbox db) then outbox db
            else outbox db ++ [new_outbox_row now (outbox_id_seq db) d.1 d.2];
  outbox_id_seq := outbox_id_seq db + 1 |}.

Fixpoint enqueue_deliveries (now : Z) (ds : list (Z * MaterializedDelivery)) (db : OutboxDb) : OutboxDb :=
  match ds with
  | [] => db
  | d :: ds => enqueue_deliveries now ds (insert_delivery now d db)
  end.

(** How a transaction ends: it commits, some statement fails, or the answer to
    its [COMMIT] is lost. *)
Inductive TxEnd : Type := CommitOk | TxFails (message : string) | AnswerLost (message : string).

(** [BEGIN], the body, [COMMIT], or [ROLLBACK], which keeps the sequence. *)
Definition outbox_transaction {A} (ending : TxEnd) (body : OutboxDb → OutboxDb * outcome A) (db : OutboxDb)
  : OutboxDb * outcome A :=
  let '(db', r) := body db in
  let undone := {| tables := tables db; outbox := outbox db; outbox_id_seq := outbox_id_seq db' |} in
  match r, ending with
  | Throws m, _ => (undone, Throws m)
  | Returns a, CommitOk => (db', Returns a)
  | Returns _, TxFails m => (undone, Throws m)
  | Returns _, AnswerLost m => (db', Throws m)
  end.

Definition completed_row (now : Z) (eventId : option Z) (r : InboxRow) : InboxRow :=
  settle_row 2 (availableAt r) (Some now) eventId None r.

(** [RealtimeOutboxWriter.complete]; the value is what [pg_notify] sends. *)
Definition complete_with_deliveries (now inboxId : Z) (eventId : option Z)
  (deliveries : list MaterializedDelivery) (worker : string) (n : Z) (ending : TxEnd) (db : OutboxDb)
  : OutboxDb * outcome Z :=
  outbox_transaction ending (λ db,
    let p := holds_claim inboxId worker n in
    let rows := event_inbox (tables db) in
    if len (bfilter p rows) =? 1 then
      let done := with_inbox_tables db (with_inbox (tables db) (update_where p (completed_row now eventId) rows)) in
      (enqueue_deliveries now (map (λ d, (inboxId, d)) deliveries) done, Returns inboxId)
    else (db, Throws LostClaimError)) db.

(** An entry of [completeReplayBatch]. *)
Record ReplayCompletion : Type := {
  rc_inboxId : Z;
  rc_attempts : Z;
  rc_eventId : option Z;
  rc_deliveries : list MaterializedDelivery
}.

(** The head is claimed by the worker, its followers are still waiting. *)
Definition replay_fence (now : Z) (worker : string) (ordinal : nat) (c : ReplayCompletion) (r : InboxRow) : bool :=
  (inboxId r =? rc_inboxId c) && (attempts r =? rc_attempts c)
  && match ordinal with
     | O => (status r =? 1) && bool_decide (claimedBy r = Some worker)
     | S _ => (status r =? 0) && (availableAt r <=? now)
     end.

(** The entry of the recordset that an inbox row joins with. *)
Definition replay_match (now : Z) (worker : string) (batch : list ReplayCompletion) (r : InboxRow)
  : option ReplayCompletion :=
  option_map snd (find_first (λ c, replay_fence now worker c.1 c.2 r) (imap pair batch)).

Definition replay_row (now : Z) (worker : string) (batch : list ReplayCompletion) (r : InboxRow) : InboxRow :=
  match replay_match now worker batch r with
  | Some c => completed_row now (rc_eventId c) r
  | None => r
  end.

Definition replay_deliveries (batch : list ReplayCompletion) : list (Z * MaterializedDelivery) :=
  concat (map (λ c, map (pair (rc_inboxId c)) (rc_deliveries c)) batch).

(** [completeReplayBatch], in its caller's transaction; the value is what
    [pg_notify] sends, if anything. *)
Definition completeReplayBatch (now : Z) (batch : list ReplayCompletion) (worker : string) (db : OutboxDb)
  : OutboxDb * outcome (option Z) :=
  match last batch, batch with
  | Some final, head :: _ =>
      let rows := event_inbox (tables db) in
      let fenced := len (bfilter (λ r, bool_decide (is_Some (replay_match now worker batch r))) rows) in
      let done := with_inbox_tables db (with_inbox (tables db) (map (replay_row now worker batch) rows)) in
      if fenced =? len batch
      then (enqueue_deliveries now (replay_deliveries batch) done, Returns (Some (rc_inboxId final)))
      else (done, Throws LostClaimError)
  | _, _ => (db, Returns None)
  end.

(** ** Claiming *)

(** [Number.parseInt(text, 10)], where the text starts with a number. *)
Definition parse_int (s : string) : option Z :=
  let '(sign, rest) := take_sign (trim_start s) in
  let '(value, count, _) := take_digits rest 0 0 in
  if Nat.eqb count 0 then None else Some (sign * value).

(** The text after the last colon. *)
Fixpoint after_colon (s : string) : string :=
  match s with
  | EmptyString => EmptyString
  | String c rest =>
      if existsb (λ c, code c =? 58) (chars rest) then after_colon rest
      else if code c =? 58 then rest else s
  end.

Definition deliveryOrdinal (key : string) : Z :=
  match parse_int (after_colon key) with
  | Some v => if is_safe_integer v && (0 <=? v) then v else 0
  | None => 0
  end.

Record RealtimeOutboxRow : Type := {
  ro_outboxId : Z;
  ro_inboxId : Z;
  ro_daemonId : string;
  ro_eventId : option Z;
  ro_userId : option Z;
  ro_audience : string;
  ro_sessionId : option string;
  ro_requestId : option string;
  ro_ordinal : Z;
  ro_deliveryKey : string;
  ro_type : string;
  ro_payload : jsval
}.

Definition toOutboxRow (daemon : string) (o : OutboxTableRow) : RealtimeOutboxRow := {|
  ro_outboxId := o_outbox_id o; ro_inboxId := o_inbox_id o; ro_daemonId := daemon;
  ro_eventId := o_event_id o; ro_userId := o_user_id o; ro_audience := o_audience o;
  ro_sessionId := o_session_id o; ro_requestId := o_request_id o;
  ro_ordinal := deliveryOrdinal (o_delivery_key o); ro_deliveryKey := o_delivery_key o;
  ro_type := o_event_type o; ro_payload := o_payload o |}.

(** [ORDER BY o.created_at, o.outbox_id]. *)
Definition outbox_le (o p : OutboxTableRow) : Prop :=
  o_created_at o < o_created_at p ∨ (o_created_at o = o_created_at p ∧ o_outbox_id o ≤ o_outbox_id p).

#[global] Instance outbox_le_dec : RelDecision outbox_le.
Proof. intros o p. unfold outbox_le. apply _. Defined.

Definition inbox_row (db : OutboxDb) (id : Z) : option InboxRow :=
  find_first (λ r, inboxId r =? id) (event_inbox (tables db)).

Definition not_delivered (o : OutboxTableRow) : bool := bool_decide (o_delivered_at o = None).

(** The rows the query locks, in order. *)
Definition claimable_rows (locked : list Z) (limit : Z) (db : OutboxDb) : list OutboxTableRow :=
  take (Z.to_nat (Z.max 1 limit))
    (merge_sort outbox_le
       (bfilter (λ o, not_delivered o && bool_decide (is_Some (inbox_row db (o_inbox_id o)))
                      && negb (bool_decide (o_outbox_id o ∈ locked))) (outbox db))).

Definition join_daemon (db : OutboxDb) (o : OutboxTableRow) : RealtimeOutboxRow :=
  toOutboxRow (match inbox_row db (o_inbox_id o) with Some r => row_daemonId r | None => EmptyString end) o.

(** An open transaction of a consumer: the rows still to hand over, the rows it
    locked, and those it marked. *)
Record ActiveRun : Type := {
  run_rows : list RealtimeOutboxRow;
  run_locked : list Z;
  run_marked : list Z
}.

(** [claimUndelivered]; [locked] are the rows of other open transactions. *)
Definition claimUndelivered (locked : list Z) (limit : Z) (db : OutboxDb) : ActiveRun :=
  let rows := claimable_rows locked limit db in
  {| run_rows := map (join_daemon db) rows; run_locked := map o_outbox_id rows; run_marked := [] |}.

(** [markDelivered]: the row as the transaction sees it. *)
Definition markDelivered (db : OutboxDb) (id : Z) (run : ActiveRun) : outcome ActiveRun :=
  let p o := (o_outbox_id o =? id) && not_delivered o && negb (bool_decide (id ∈ run_marked run)) in
  if len (bfilter p (outbox db)) =? 1
  then Returns {| run_rows := run_rows run; run_locked := run_locked run; run_marked := run_marked run ++ [id] |}
  else Throws "realtime outbox claim lost".

Definition set_delivered (now : Z) (o : OutboxTableRow) : OutboxTableRow := {|
  o_outbox_id := o_outbox_id o; o_inbox_id := o_inbox_id o; o_delivery_key := o_delivery_key o;
  o_event_id := o_event_id o; o_user_id := o_user_id o; o_session_id := o_session_id o;
  o_event_type := o_event_type o; o_audience := o_audience o; o_request_id := o_request_id o;
  o_payload := o_payload o; o_created_at := o_created_at o; o_delivered_at := Some now |}.

(** [COMMIT]: the marks reach the table. *)
Definition commit_run (now : Z) (run : ActiveRun) (db : OutboxDb) : OutboxDb :=
  with_outbox db (map (λ o, if bool_decide (o_outbox_id o ∈ run_marked run) && not_delivered o
                            then set_delivered now o else o) (outbox db)).

(** ** Delivering *)

(** One turn of the loop: the row is handed over, and marked unless the answer
    was [false]. *)
Definition deliver_next (answer : outcome bool) (db : OutboxDb) (run : ActiveRun) : outcome ActiveRun :=
  match run_rows run with
  | [] => Returns run
  | r :: rest =>
      let next := {| run_rows := rest; run_locked := run_locked run; run_marked := run_marked run |} in
      try! taken := answer in
      if taken : bool then markDelivered db (ro_outboxId r) next else Returns next
  end.

Fixpoint deliver_rows (fuel : nat) (deliver : RealtimeOutboxRow → outcome bool) (db : OutboxDb) (run : ActiveRun)
  : outcome ActiveRun :=
  match fuel, run_rows run with
  | S fuel, r :: _ => try! run' := deliver_next (deliver r) db run in deliver_rows fuel deliver db run'
  | _, _ => Returns run
  end.

(** [runOnce] with no other transaction in between: the rows are read, handed
    over and the marks committed; an error rolls them back. *)
Definition deliver_once (now batchSize : Z) (deliver : RealtimeOutboxRow → outcome bool) (locked : list Z)
  (db : OutboxDb) : OutboxDb * outcome unit :=
  let run := claimUndelivered locked batchSize db in
  match deliver_rows (length (run_rows run)) deliver db run with
  | Returns run' => (commit_run now run' db, Returns tt)
  | Throws m => (db, Throws m)
  end.

(** ** Retention *)

(** The tables of token accounting that retention reads: the completion of the
    baseline, if it is there, and the sealed days. *)
Record TokenAccounting : Type := { baseline_completed : option Z; sealed_days : list Z }.

Definition retention_ms : Z := 6 * 3600000.

(** [(received_at AT TIME ZONE 'UTC')::date], as days since the epoch. *)
Definition utc_day (t : Z) : Z := t / 86400000.

Definition has_usage (payload : jsval) : bool :=
  match payload with JObj fields => existsb (λ kv, bool_decide (kv.1 = "usage"%string)) fields | _ => false end.

(** Usage after the baseline counts until its day is sealed. *)
Definition usage_counted (acc : TokenAccounting) (r : InboxRow) : bool :=
  negb (bool_decide (row_eventType r = "agent_text"%string)) || negb (has_usage (row_payload r))
  || negb (match baseline_completed acc with Some t => t <=? row_receivedAt r | None => false end)
  || bool_decide (utc_day (row_receivedAt r) ∈ sealed_days acc).

Definition is_expired (now : Z) (r : InboxRow) : bool :=
  (status r =? 2) && match completedAt r with Some t => t <? now - retention_ms | None => false end.

Definition has_undelivered (db : OutboxDb) (id : Z) : bool :=
  existsb (λ o, (o_inbox_id o =? id) && not_delivered o) (outbox db).

(** [ORDER BY i.completed_at, i.inbox_id]; expired rows have the date. *)
Definition expiry_le (r s : InboxRow) : Prop :=
  default 0 (completedAt r) < default 0 (completedAt s)
  ∨ (default 0 (completedAt r) = default 0 (completedAt s) ∧ inboxId r ≤ inboxId s).

#[global] Instance expiry_le_dec : RelDecision expiry_le.
Proof. intros r s. unfold expiry_le. apply _. Defined.

Definition delete_limit : nat := 1000.

Definition expired_rows (now : Z) (acc : TokenAccounting) (locked : list Z) (db : OutboxDb) : list InboxRow :=
  take delete_limit
    (merge_sort expiry_le
       (bfilter (λ r, is_expired now r && usage_counted acc r && negb (has_undelivered db (inboxId r))
                      && negb (bool_decide (inboxId r ∈ locked))) (event_inbox (tables db)))).

(** [DELETE FROM event_inbox], which cascades to receipts and deliveries. *)
Definition delete_inbox (ids : list Z) (db : OutboxDb) : OutboxDb :=
  let t := tables db in {|
  tables := {|
    event_inbox := bfilter (λ r, negb (bool_decide (inboxId r ∈ ids))) (event_inbox t);
    inbox_id_seq := inbox_id_seq t;
    event_inbox_receipt := bfilter (λ r, match rcpt_inbox_id r with
                                         | Some id => negb (bool_decide (id ∈ ids))
                                         | None => true end) (event_inbox_receipt t);
    receipt_id_seq := receipt_id_seq t; daemon_ack_checkpoint := daemon_ack_checkpoint t |};
  outbox := bfilter (λ o, negb (bool_decide (o_inbox_id o ∈ ids))) (outbox db);
  outbox_id_seq := outbox_id_seq db |}.

(** A receipt without an inbox row that its checkpoint covers. *)
Definition receipt_expired (now : Z) (db : OutboxDb) (r : Receipt) : bool :=
  bool_decide (rcpt_inbox_id r = None)
  && match daemon_ack_checkpoint (tables db) !! (rcpt_daemon_id r, rcpt_daemon_generation r) with
     | Some c => rcpt_seq r <=? ack_seq c
     | None => false
     end
  && (rcpt_received_at r <? now - retention_ms).

Definition receipt_le (r s : Receipt) : Prop :=
  rcpt_received_at r < rcpt_received_at s
  ∨ (rcpt_received_at r = rcpt_received_at s ∧ receipt_id r ≤ receipt_id s).

#[global] Instance receipt_le_dec : RelDecision receipt_le.
Proof. intros r s. unfold receipt_le. apply _. Defined.

Definition expired_receipts (now : Z) (locked : list Z) (db : OutboxDb) : list Receipt :=
  take delete_limit
    (merge_sort receipt_le
       (bfilter (λ r, receipt_expired now db r && negb (bool_decide (receipt_id r ∈ locked)))
          (event_inbox_receipt (tables db)))).

Definition delete_receipts (ids : list Z) (db : OutboxDb) : OutboxDb :=
  let t := tables db in
  with_inbox_tables db {|
    event_inbox := event_inbox t; inbox_id_seq := inbox_id_seq t;
    event_inbox_receipt := bfilter (λ r, negb (bool_decide (receipt_id r ∈ ids))) (event_inbox_receipt t);
    receipt_id_seq := receipt_id_seq t; daemon_ack_checkpoint := daemon_ack_checkpoint t |}.

Record RetentionStats : Type := { deletedCompleted : Z; blockedUndelivered : Z }.

(** [InboxRetention.runOnce], less the expired document uploads; [lockedRows]
    and [lockedReceipts] are held by other transactions. *)
Definition run_retention (now : Z) (acc : TokenAccounting) (lockedRows lockedReceipts : list Z) (ending : TxEnd)
  (db : OutboxDb) : OutboxDb * outcome RetentionStats :=
  outbox_transaction ending (λ db,
    let blocked := len (bfilter (λ r, is_expired now r && has_undelivered db (inboxId r))
                          (event_inbox (tables db))) in
    let expired := map inboxId (expired_rows now acc lockedRows db) in
    let db1 := delete_inbox expired db in
    let db2 := delete_receipts (map receipt_id (expired_receipts now lockedReceipts db1)) db1 in
    (db2, Returns {| deletedCompleted := len expired; blockedUndelivered := blocked |})) db.

(** ** Deletion *)

(** What users delete besides retention: a session ([deleteSession]), an account
    ([deleteUserAccount]), or, when a child session is reconciled, the events an
    older daemon wrote for it ([reconcileSubagentInTransaction]). *)
Inductive Deletion : Type :=
| OfSession (session : string)
| OfAccount (user : Z)
| OfHistory (parent agent : string).

(** [DELETE FROM event_inbox WHERE session_id = $1], [... WHERE user_id = $1]. *)
Definition belongs (why : Deletion) (r : InboxRow) : bool :=
  match why with
  | OfSession s => bool_decide (row_sessionId r = Some s)
  | OfAccount u => bool_decide (row_userId r = Some u)
  | OfHistory _ _ => false
  end.

(** The inbox rows a deletion removes. *)
Definition deleted_inbox (why : Deletion) (db : OutboxDb) : list Z :=
  map inboxId (bfilter (belongs why) (event_inbox (tables db))).

(** A delivery that goes with them: by its inbox row, by the foreign key on one
    of the [events] the deletion removes, or by the one on the user. *)
Definition delivery_deleted (why : Deletion) (events : list Z) (db : OutboxDb) (o : OutboxTableRow) : bool :=
  bool_decide (o_inbox_id o ∈ deleted_inbox why db)
  || match o_event_id o with Some e => bool_decide (e ∈ events) | None => false end
  || match why with OfAccount u => bool_decide (o_user_id o = Some u) | _ => false end.

(** The statements of a deletion on the inbox and the outbox; [events] are the
    rows of [events] it deletes. *)
Definition delete_events (why : Deletion) (events : list Z) (db : OutboxDb) : OutboxDb :=
  delete_inbox (deleted_inbox why db)
    (with_outbox db (bfilter (λ o, negb (delivery_deleted why events db o)) (outbox db))).
