(* ===== verification/InboxInstance.v ===== *)
(** * InboxInstance: the repository implements the inbox interface.

    The controller shares its tables with workers, other relays, retention and
    the deletions of users, so a receipt does not stay for ever.  A [Store] is
    the tables with two histories: each receipt that was removed, with what the
    tables held when it went ([st_gone]), and the highest number each daemon
    reported as acknowledged when it registered ([st_reported], which
    [seedCheckpoint] installs).  [store_step] is what the other clients do; the
    invariant [store_ok] says that every number a checkpoint covers is in the
    receipts or in the histories, and that nothing left the tables but by the
    rules of retention and by the deletion of its session or account. *)

From S2P Require Import Prelude JsMap EventPolicy InboxRepository InboxFacts DurableInbox InboxPersist InboxClaims RealtimeOutbox.

#[local] Open Scope Z_scope.

#[global] Instance receipt_eq_dec : EqDecision Receipt.
Proof. solve_decision. Defined.

(** ** Histories *)

Inductive Removal : Type := Retired (now : Z) | Deleted (why : Deletion).

(** A removed receipt, the inbox row it had, whether a delivery of that row was
    open, and the checkpoint of its stream. *)
Record Gone : Type := {
  gone_receipt : Receipt;
  gone_row : option InboxRow;
  gone_undelivered : bool;
  gone_ack : Z;
  gone_why : Removal
}.

Record Store : Type := {
  st_db : OutboxDb;
  st_gone : list Gone;
  st_reported : gmap (string * Z) Z
}.

Definition new_store (db : OutboxDb) : Store := {| st_db := db; st_gone := []; st_reported := ∅ |}.

Definition st_tables (st : Store) : DB := tables (st_db st).

Definition receipt_stream (r : Receipt) : string * Z := (rcpt_daemon_id r, rcpt_daemon_generation r).

(** Retention takes a row six hours after it was completed, when no delivery of
    it is open, and a receipt without a row when its checkpoint covers it; a
    deletion takes the rows of its session or account. *)
Definition gone_ok (g : Gone) : Prop :=
  match gone_why g, gone_row g with
  | Retired now, Some r =>
      rcpt_inbox_id (gone_receipt g) = Some (inboxId r) ∧ status r = 2
      ∧ (∃ t, completedAt r = Some t ∧ t < now - retention_ms) ∧ gone_undelivered g = false
  | Retired now, None =>
      rcpt_inbox_id (gone_receipt g) = None ∧ rcpt_seq (gone_receipt g) ≤ gone_ack g
      ∧ rcpt_received_at (gone_receipt g) < now - retention_ms
  | Deleted why, Some r => rcpt_inbox_id (gone_receipt g) = Some (inboxId r) ∧ belongs why r = true
  | Deleted _, None => False
  end.

Definition gone_at (g : Gone) (k : string * Z) (x : Z) : Prop :=
  receipt_stream (gone_receipt g) = k ∧ rcpt_seq (gone_receipt g) = x.

(** The receipts of [db] that [db'] has lost. *)
Definition removed (why : Removal) (db db' : OutboxDb) : list Gone :=
  map (λ r, {|
      gone_receipt := r; gone_row := inbox_of (tables db) r;
      gone_undelivered := match rcpt_inbox_id r with Some id => has_undelivered db id | None => false end;
      gone_ack := ack_of (tables db) (receipt_stream r); gone_why := why |})
    (bfilter (λ r, negb (bool_decide (r ∈ event_inbox_receipt (tables db'))))
       (event_inbox_receipt (tables db))).

Definition with_tables (st : Store) (d : DB) : Store := {|
  st_db := with_inbox_tables (st_db st) d; st_gone := st_gone st; st_reported := st_reported st |}.

Definition with_removal (st : Store) (why : Removal) (db : OutboxDb) : Store := {|
  st_db := db; st_gone := st_gone st ++ removed why (st_db st) db; st_reported := st_reported st |}.

Definition reported (st : Store) (k : string * Z) : Z := default 0 (st_reported st !! k).

(** A daemon registers and names the last number it knows acknowledged. *)
Definition with_report (st : Store) (k : string * Z) (acked : Z) (d : DB) : Store := {|
  st_db := with_inbox_tables (st_db st) d; st_gone := st_gone st;
  st_reported := <[k := Z.max (reported st k) acked]> (st_reported st) |}.

(** ** The other clients *)

(** A row changed in place: what identifies it and its contents stay. *)
Record row_changes (r r' : InboxRow) : Prop := {
  ch_identity : identity r' = identity r;
  ch_ok : row_ok r → row_ok r';
}.

(** A step of another client: statements that change rows in place or write the
    outbox (workers, the writers and consumers of the outbox, the lifecycle
    executor that abandons rows, the recovery that reopens them), batches of
    other relays, registrations, retention, and deletions. *)
Inductive store_step (st : Store) : Store → Prop :=
| ss_rows rows out n :
    Forall2 row_changes (event_inbox (st_tables st)) rows →
    store_step st {| st_db := {| tables := with_inbox (st_tables st) rows; outbox := out; outbox_id_seq := n |};
      st_gone := st_gone st; st_reported := st_reported st |}
| ss_persist now faults events d r :
    persistBatch now faults events (st_tables st) = (d, r) → store_step st (with_tables st d)
| ss_seed now faults id g acked d r :
    seedCheckpoint now faults id g acked (st_tables st) = (d, r) → store_step st (with_report st (id, g) acked d)
| ss_retention now acc rows receipts ending db r :
    run_retention now acc rows receipts ending (st_db st) = (db, r) → store_step st (with_removal st (Retired now) db)
| ss_delete why events :
    store_step st (with_removal st (Deleted why) (delete_events why events (st_db st))).

(** ** The invariant *)

Definition recorded (st : Store) (k : string * Z) (x : Z) : Prop :=
  receipt_at (st_tables st) k.1 k.2 x = true ∨ (∃ g, g ∈ st_gone st ∧ gone_at g k x) ∨ x ≤ reported st k.

Record store_ok (st : Store) : Prop := {
  so_tables : db_ok (st_tables st);
  so_ids : receipt_ids_ok (st_tables st);
  so_acks : ∀ k x, x ≤ ack_of (st_tables st) k → recorded st k x;
  so_gone : ∀ g, g ∈ st_gone st → gone_ok g;
}.

(** What a step may do to the histories and the receipts. *)
Record keeps (st st' : Store) : Prop := {
  kp_receipts : ∀ r, r ∈ event_inbox_receipt (st_tables st) →
    r ∈ event_inbox_receipt (st_tables st') ∨ ∃ g, g ∈ st_gone st' ∧ gone_receipt g = r;
  kp_gone : ∀ g, g ∈ st_gone st → g ∈ st_gone st';
  kp_reported : ∀ k, reported st k ≤ reported st' k;
}.

Lemma receipt_at_elem d id g x :
  receipt_at d id g x = true ↔
  ∃ r, r ∈ event_inbox_receipt d ∧ receipt_stream r = (id, g) ∧ rcpt_seq r = x.
Proof.
  unfold receipt_at, receipt_stream. rewrite existsb_exists. split.
  - intros (r & Hr%list_elem_of_In & H). bool_hyps. exists r. split_and!; [done|congruence|done].
  - intros (r & Hr & [= <- <-] & <-). exists r. split; [by apply list_elem_of_In|].
    by rewrite bool_decide_eq_true_2, !Z.eqb_refl.
Qed.

Lemma keeps_recorded st st' k x : keeps st st' → recorded st k x → recorded st' k x.
Proof.
  intros [K1 K2 K3] [Hr|[(g & Hg & Hk)|Hx]].
  - apply receipt_at_elem in Hr as (r & Hr & Hk & Hx). destruct k as [id gen].
    destruct (K1 r Hr) as [Hr'|(g & Hg & <-)].
    + left. apply receipt_at_elem. by exists r.
    + right; left. exists g. by split.
  - right; left. exists g. auto.
  - right; right. specialize (K3 k). lia.
Qed.

Lemma keeps_tables st d : extends (st_tables st) d → keeps st (with_tables st d).
Proof. intros Hx. split; [|done|done]. intros r Hr. left. by eapply extends_receipt_elem. Qed.

Lemma keeps_same_receipts st db :
  event_inbox_receipt (tables db) = event_inbox_receipt (st_tables st) →
  keeps st {| st_db := db; st_gone := st_gone st; st_reported := st_reported st |}.
Proof. intros E. split; [|done|done]. intros r Hr. left. unfold st_tables at 1. simpl. by rewrite E. Qed.

Lemma keeps_removal st why db : keeps st (with_removal st why db).
Proof.
  split; [|intros g Hg; apply elem_of_app; by left|done]. intros r Hr.
  destruct (bool_decide (r ∈ event_inbox_receipt (tables db))) eqn:E; [left; by apply bool_decide_eq_true in E|].
  right. eexists. split; [|shelve]. apply elem_of_app. right. apply list_elem_of_fmap. exists r. split; [done|].
  apply elem_of_bfilter. by rewrite E.
  Unshelve. done.
Qed.

(** A step that keeps what was recorded, and no checkpoint of which moved. *)
Lemma store_ok_keeps st st' :
  store_ok st → keeps st st' → db_ok (st_tables st') → receipt_ids_ok (st_tables st') →
  (∀ k, ack_of (st_tables st') k = ack_of (st_tables st) k) →
  (∀ g, g ∈ st_gone st' → gone_ok g) → store_ok st'.
Proof.
  intros Hst Hk Hok Hids Hack Hg. split; [done|done| |done]. intros k x Hx. rewrite Hack in Hx.
  eapply keeps_recorded; [done|]. by apply Hst.
Qed.

(** ** Rows changed in place *)

Lemma db_ok_changes d rows :
  db_ok d → Forall2 row_changes (event_inbox d) rows → db_ok (with_inbox d rows).
Proof.
  intros [H1 H2 H3 H4 H5 H6] Hev.
  assert (Hid : inboxId <$> rows = inboxId <$> event_inbox d ∧
                row_canonicalKey <$> rows = row_canonicalKey <$> event_inbox d).
  { clear -Hev. induction Hev as [|r r' l l' [HI _] _ [IH1 IH2]]; [done|].
    apply identity_fields in HI as [Hi Hk]. rewrite !fmap_cons. split; congruence. }
  destruct Hid as [Hid Hkey].
  assert (Hback : ∀ r', r' ∈ rows → ∃ r, r ∈ event_inbox d ∧ row_changes r r').
  { intros r' [i Hi]%list_elem_of_lookup_1.
    destruct (Forall2_lookup_r _ _ _ _ _ Hev Hi) as (r & Hr & He).
    exists r. split; [by eapply list_elem_of_lookup_2|done]. }
  split; cbn [with_inbox event_inbox inbox_id_seq event_inbox_receipt]; rewrite ?Hid, ?Hkey; auto.
  - intros r' Hr'. destruct (Hback r' Hr') as (r & Hr & [HI _]).
    apply identity_fields in HI as [-> _]. auto.
  - intros r' Hr'. destruct (Hback r' Hr') as (r & Hr & []). auto.
Qed.

(** ** Removals *)

(** Rows of the inbox and receipts are deleted, with every receipt of a row. *)
Record prunes (d d' : DB) : Prop := {
  pr_inbox : event_inbox d' `sublist_of` event_inbox d;
  pr_receipts : event_inbox_receipt d' `sublist_of` event_inbox_receipt d;
  pr_kept : ∀ r id, r ∈ event_inbox_receipt d' → rcpt_inbox_id r = Some id →
    id ∈ inboxId <$> event_inbox d → id ∈ inboxId <$> event_inbox d';
  pr_seq : inbox_id_seq d' = inbox_id_seq d;
  pr_checkpoints : daemon_ack_checkpoint d' = daemon_ack_checkpoint d;
}.

#[global] Instance prunes_preorder : PreOrder prunes.
Proof.
  split; [by split|]. intros d1 d2 d3 [A1 A2 A3 A4 A5] [B1 B2 B3 B4 B5].
  split; [by etrans|by etrans| |congruence|congruence].
  intros r id Hr Hid Hin. apply (B3 r); [done..|]. apply (A3 r); [|done..]. by eapply elem_of_sublist.
Qed.

Lemma prunes_ok d d' : db_ok d → prunes d d' → db_ok d'.
Proof.
  intros [H1 H2 H3 H4 H5 H6] [P1 P2 P3 P4 P5]. split.
  - eapply sublist_NoDup; [exact H1|by apply fmap_sublist].
  - intros r Hr. rewrite P4. apply H2. by eapply elem_of_sublist.
  - eapply sublist_NoDup; [exact H3|by apply fmap_sublist].
  - eapply sublist_NoDup; [exact H4|by apply fmap_sublist].
  - intros r id Hr Hid. apply (P3 r); [done..|]. apply (H5 r); [|done]. by eapply elem_of_sublist.
  - intros r Hr. apply H6. by eapply elem_of_sublist.
Qed.

Lemma delete_inbox_prunes ids db : prunes (tables db) (tables (delete_inbox ids db)).
Proof.
  split; [apply bfilter_sublist..| |done|done]. intros r id Hr Hid (x & -> & Hx)%list_elem_of_fmap.
  apply elem_of_bfilter in Hr as [Hr _]. rewrite Hid in Hr. apply list_elem_of_fmap_2, elem_of_bfilter. done.
Qed.

Lemma delete_receipts_prunes ids db : prunes (tables db) (tables (delete_receipts ids db)).
Proof. split; [done|apply bfilter_sublist|done|done|done]. Qed.

Lemma ack_of_prunes d d' k : prunes d d' → ack_of d' k = ack_of d k.
Proof. intros [_ _ _ _ E]. unfold ack_of. by rewrite E. Qed.

(** The receipt and its row, at the time it is removed. *)
Lemma removed_elem st why db g :
  store_ok st → g ∈ removed why (st_db st) db →
  ∃ r, gone_receipt g = r ∧ r ∈ event_inbox_receipt (st_tables st) ∧
    r ∉ event_inbox_receipt (tables db) ∧ gone_why g = why ∧ gone_ack g = ack_of (st_tables st) (receipt_stream r) ∧
    match rcpt_inbox_id r with
    | Some id => ∃ row, gone_row g = Some row ∧ row ∈ event_inbox (st_tables st) ∧ inboxId row = id
                        ∧ gone_undelivered g = has_undelivered (st_db st) id
    | None => gone_row g = None
    end.
Proof.
  intros Hst (r & -> & [Hn%negb_true_iff%bool_decide_eq_false Hr]%elem_of_bfilter)%list_elem_of_fmap.
  exists r. split_and!; try done. simpl. unfold inbox_of. destruct (rcpt_inbox_id r) as [id|] eqn:Hid; [|done].
  pose proof (ok_references _ (so_tables _ Hst) r id Hr Hid) as (row & -> & Hrow)%list_elem_of_fmap.
  exists row. split_and!; [|done..]. apply find_by_id; [apply Hst|done].
Qed.

(** A row whose receipt a deletion of inbox rows removes is one of them. *)
Lemma delete_inbox_gone ids db r id :
  r ∈ event_inbox_receipt (tables db) → r ∉ event_inbox_receipt (tables (delete_inbox ids db)) →
  rcpt_inbox_id r = Some id → id ∈ ids.
Proof.
  intros Hr Hn Hid. destruct (decide (id ∈ ids)) as [|Hni]; [done|]. destruct Hn. apply elem_of_bfilter.
  rewrite Hid. split; [|done]. by apply negb_true_iff, bool_decide_eq_false_2.
Qed.

Lemma deletion_gone_ok st why events g :
  store_ok st → g ∈ removed (Deleted why) (st_db st) (delete_events why events (st_db st)) → gone_ok g.
Proof.
  intros Hst Hg. apply (removed_elem _ _ _ _ Hst) in Hg as (r & Er & Hr & Hn & Hw & _ & Hrow).
  unfold gone_ok. rewrite Hw, Er. destruct (rcpt_inbox_id r) as [id|] eqn:Hid.
  - destruct Hrow as (row & -> & Hrow & Ei & _). split; [congruence|].
    pose proof (delete_inbox_gone _ (with_outbox (st_db st) _) r id Hr Hn Hid) as Hin.
    apply list_elem_of_fmap in Hin as (x & Hx & [Hb Hin]%elem_of_bfilter).
    replace row with x; [done|]. apply (NoDup_key_eq inboxId (event_inbox (st_tables st))); [apply Hst|done|done|congruence].
  - destruct Hn. apply elem_of_bfilter. by rewrite Hid.
Qed.

(** A receipt retention deletes by its key has no inbox row, and is covered. *)
Lemma delete_receipts_gone now locked db r :
  receipt_ids_ok (tables db) → r ∈ event_inbox_receipt (tables db) →
  r ∉ event_inbox_receipt (tables (delete_receipts (map receipt_id (expired_receipts now locked db)) db)) →
  rcpt_inbox_id r = None ∧ rcpt_seq r ≤ ack_of (tables db) (receipt_stream r)
  ∧ rcpt_received_at r < now - retention_ms.
Proof.
  intros [Hn _] Hr Hgone. destruct (decide (receipt_id r ∈ map receipt_id (expired_receipts now locked db))) as [Hin|Hni].
  - apply list_elem_of_fmap in Hin as (x & Hx & Hex). unfold expired_receipts in Hex.
    apply elem_of_take in Hex as (i & Hi & _). apply list_elem_of_lookup_2 in Hi.
    rewrite merge_sort_Permutation in Hi. apply elem_of_bfilter in Hi as [Hp Hin].
    assert (x = r) as -> by by apply (NoDup_key_eq receipt_id (event_inbox_receipt (tables db))).
    unfold receipt_expired in Hp. bool_hyps. split_and!; [done| |done].
    unfold ack_of, receipt_stream. destruct (_ !! _); [|done]. by bool_hyps.
  - destruct Hgone. apply elem_of_bfilter. split; [|done]. by apply negb_true_iff, bool_decide_eq_false_2.
Qed.

Lemma receipt_ids_prunes d d' :
  prunes d d' → receipt_id_seq d' = receipt_id_seq d → receipt_ids_ok d → receipt_ids_ok d'.
Proof.
  intros [_ P2 _ _ _] Es [Hn Hl]. split.
  - eapply sublist_NoDup; [exact Hn|by apply fmap_sublist].
  - intros r Hr. rewrite Es. apply Hl. by eapply elem_of_sublist.
Qed.

(** What retention deletes, as [gone_ok] says it. *)
Lemma retention_gone_ok st now acc rows receipts g :
  store_ok st →
  let db1 := delete_inbox (map inboxId (expired_rows now acc rows (st_db st))) (st_db st) in
  let db2 := delete_receipts (map receipt_id (expired_receipts now receipts db1)) db1 in
  g ∈ removed (Retired now) (st_db st) db2 → gone_ok g.
Proof.
  intros Hst db1 db2 Hg. apply (removed_elem _ _ _ _ Hst) in Hg as (r & Er & Hr & Hn & Hw & Ha & Hrow).
  pose proof (delete_inbox_prunes _ (st_db st) : prunes (st_tables st) (tables db1)) as Hp1.
  assert (Hids : receipt_ids_ok (tables db1)) by by eapply receipt_ids_prunes, Hst.
  unfold gone_ok. rewrite Hw, Er, Ha. destruct (decide (r ∈ event_inbox_receipt (tables db1))) as [Hr1|Hr1].
  - destruct (delete_receipts_gone _ _ _ _ Hids Hr1 Hn) as (E & ? & ?). rewrite E in Hrow. rewrite Hrow, E.
    by rewrite <- (ack_of_prunes _ _ _ Hp1).
  - destruct (rcpt_inbox_id r) as [id|] eqn:Hid.
    2:{ destruct Hr1. apply elem_of_bfilter. by rewrite Hid. }
    destruct Hrow as (row & -> & Hrow & Ei & Eu).
    pose proof (delete_inbox_gone _ _ r id Hr Hr1 Hid) as (x & Hx & Hex)%list_elem_of_fmap.
    apply elem_of_take in Hex as (i & Hi & _). apply list_elem_of_lookup_2 in Hi.
    rewrite merge_sort_Permutation in Hi. apply elem_of_bfilter in Hi as [Hp Hin].
    assert (x = row) as -> by (apply (NoDup_key_eq inboxId (event_inbox (st_tables st))); [apply Hst|done|done|congruence]).
    unfold is_expired in Hp. bool_hyps. split_and!; [congruence|done| |congruence].
    destruct (completedAt row) as [t|]; [|done]. bool_hyps. by exists t.
Qed.

(** ** Steps keep the invariant *)

Lemma removal_ok st why db :
  store_ok st → prunes (st_tables st) (tables db) → receipt_id_seq (tables db) = receipt_id_seq (st_tables st) →
  (∀ g, g ∈ removed why (st_db st) db → gone_ok g) → store_ok (with_removal st why db).
Proof.
  intros Hst Hp Es Hg. apply (store_ok_keeps st); [done|apply keeps_removal|..].
  - eapply prunes_ok; [apply Hst|done].
  - eapply receipt_ids_prunes; [done..|apply Hst].
  - intros k. by apply ack_of_prunes.
  - intros g [?|?]%elem_of_app; [by apply Hst|auto].
Qed.

Lemma persisted_store st events d cps :
  store_ok st → persisted (st_tables st) events d cps → store_ok (with_tables st d) ∧ keeps st (with_tables st d).
Proof.
  intros Hst Hp. pose proof (keeps_tables st d (ps_ext _ _ _ _ Hp)) as Hk. split; [|done].
  split; [apply Hp|apply (ps_ext _ _ _ _ Hp), Hst| |apply Hst].
  intros k x Hx. change (x ≤ ack_of d k) in Hx. destruct (decide (k ∈ event_stream <$> events)) as [Hin|Hout].
  - apply list_elem_of_fmap in Hin as (e & -> & He).
    destruct (ps_ack _ _ _ _ Hp e He) as (_ & Hr & _).
    destruct (decide (x ≤ ack_of (st_tables st) (event_stream e))).
    + eapply keeps_recorded; [done|]. by apply Hst.
    + left. apply Hr. lia.
  - unfold ack_of in Hx. rewrite (ps_other _ _ _ _ Hp) in Hx.
    + eapply keeps_recorded; [done|]. by apply Hst.
    + intros e He <-. apply Hout. by apply list_elem_of_fmap_2.
Qed.

(** What a call leaves, whether or not it returned. *)
Lemma persist_store now faults events st d r :
  store_ok st → persistBatch now faults events (st_tables st) = (d, r) →
  store_ok (with_tables st d) ∧ keeps st (with_tables st d).
Proof.
  intros Hst H. destruct r as [cps|m].
  - apply (persist_returns _ _ _ _ _ _ (so_tables _ Hst)) in H. by eapply persisted_store.
  - apply (persist_throws _ _ _ _ _ _ (so_tables _ Hst)) in H as [[Ht Hs]|[cps Hp]]; [|by eapply persisted_store].
    pose proof Ht as (E1 & E2 & E3).
    assert (Hk : keeps st (with_tables st d)) by by apply keeps_same_receipts.
    split; [|done]. apply (store_ok_keeps st); [done|done|..].
    + eapply db_ok_same; [apply Hst|done|done].
    + eapply receipt_ids_same; [exact E2|apply Hs|apply Hst].
    + intros k. change (ack_of d k = ack_of (st_tables st) k). unfold ack_of. by rewrite E3.
    + apply Hst.
Qed.

Lemma seed_shape now faults id g acked d d' r :
  seedCheckpoint now faults id g acked d = (d', r) →
  d' = d ∨ d' = with_checkpoints d (<[(id, g) := seed_row now (daemon_ack_checkpoint d !! (id, g)) acked]>
                                      (daemon_ack_checkpoint d)).
Proof.
  unfold seedCheckpoint, pool_query. destruct (faults 0%nat) as [e|]; [destruct (took_effect e)|];
    intros [= <- _]; auto.
Qed.

Lemma seed_store now faults id g acked st d r :
  store_ok st → seedCheckpoint now faults id g acked (st_tables st) = (d, r) →
  store_ok (with_report st (id, g) acked d) ∧ keeps st (with_report st (id, g) acked d).
Proof.
  intros Hst H. set (st' := with_report st (id, g) acked d).
  assert (Hrep : ∀ k, reported st k ≤ reported st' k ∧ (k = (id, g) → acked ≤ reported st' k)).
  { intros k. unfold reported. simpl. destruct (decide (k = (id, g))) as [->|Hk].
    - rewrite lookup_insert_eq. simpl. unfold reported. lia.
    - rewrite lookup_insert_ne by congruence. split; [lia|done]. }
  assert (Hd : ∃ m, d = with_checkpoints (st_tables st) m ∧
    ∀ k, ack_of d k ≤ ack_of (st_tables st) k ∨ (k = (id, g) ∧ ack_of d k ≤ acked)).
  { destruct (seed_shape _ _ _ _ _ _ _ _ H) as [->| ->].
    - exists (daemon_ack_checkpoint (st_tables st)). split; [by destruct (st_tables st)|]. intros k. by left.
    - eexists. split; [done|]. intros k. unfold ack_of. simpl. destruct (decide (k = (id, g))) as [->|Hk].
      + rewrite lookup_insert_eq. destruct (_ !! _) as [c|]; simpl; [|right; split; [done|lia]].
        destruct (Z.max_spec (ack_seq c) acked) as [[? ->]|[? ->]]; [right; split; [done|lia]|left; lia].
      + rewrite lookup_insert_ne by congruence. by left. }
  destruct Hd as (m & -> & Hm).
  assert (Hk : keeps st st').
  { split; [by left|done|]. intros k. apply Hrep. }
  split; [|done]. split; [apply db_ok_checkpoints, Hst|exact (so_ids _ Hst)| |apply Hst].
  intros k x Hx. destruct (Hm k) as [Hle|[Ek Hle]].
  - eapply keeps_recorded; [done|]. apply Hst. etrans; [exact Hx|exact Hle].
  - right; right. destruct (Hrep k) as [_ Hr]. specialize (Hr Ek).
    change (x ≤ ack_of (with_checkpoints (st_tables st) m) k) in Hx. lia.
Qed.

Lemma client_step_ok st st' : store_ok st → store_step st st' → store_ok st' ∧ keeps st st'.
Proof.
  intros Hst [rows out n Hch|now faults events d r H|now faults id g acked d r H
    |now acc rows receipts ending db r H|why events].
  - assert (Hk : keeps st {| st_db := {| tables := with_inbox (st_tables st) rows; outbox := out; outbox_id_seq := n |};
      st_gone := st_gone st; st_reported := st_reported st |}) by by apply keeps_same_receipts.
    split; [|done]. apply (store_ok_keeps st); [done|done|..]; [|exact (so_ids _ Hst)|done|apply Hst].
    apply db_ok_changes; [apply Hst|done].
  - by eapply persist_store.
  - by eapply seed_store.
  - split; [|apply keeps_removal]. unfold run_retention, outbox_transaction in H. cbv zeta in H.
    assert (Hsame : ∀ n, store_ok (with_removal st (Retired now)
      {| tables := tables (st_db st); outbox := outbox (st_db st); outbox_id_seq := n |})).
    { intros n'. apply removal_ok; [done|done|done|]. intros g Hg.
      apply (removed_elem _ _ _ _ Hst) in Hg as (? & _ & ? & [] & _). done. }
    assert (Hdel : store_ok (with_removal st (Retired now)
      (let db1 := delete_inbox (map inboxId (expired_rows now acc rows (st_db st))) (st_db st) in
       delete_receipts (map receipt_id (expired_receipts now receipts db1)) db1))).
    { apply removal_ok; [done| |done|].
      - etrans; [apply delete_inbox_prunes|apply delete_receipts_prunes].
      - intros g Hg. by eapply retention_gone_ok. }
    destruct ending; injection H as <- _; auto.
  - split; [|apply keeps_removal]. apply removal_ok; [done| |done|].
    + exact (delete_inbox_prunes _ (with_outbox (st_db st) _)).
    + intros g Hg. by eapply deletion_gone_ok.
Qed.

(** ** The writers of the source are such steps *)

(** [settleStale] of the lifecycle executor: the open rows of a session. *)
Definition abandon_row (now : Z) (r : InboxRow) : InboxRow :=
  settle_row 3 (availableAt r) (Some now) (materializedEventId r) (Some "lifecycle_abandoned_stale"%string) r.

Definition abandon_sessions (now : Z) (sessions : list string) (d : DB) : DB :=
  with_inbox d (update_where
    (λ r, match row_sessionId r with Some s => bool_decide (s ∈ sessions) | None => false end && unresolved r)
    (abandon_row now) (event_inbox d)).

(** The recovery of dead letters: the rows become available again. *)
Definition requeue_row (now : Z) (r : InboxRow) : InboxRow :=
  settle_row 0 now None (materializedEventId r) None r.

Definition requeue_dead_letters (now : Z) (ids : list Z) (d : DB) : DB :=
  with_inbox d (update_where (λ r, bool_decide (inboxId r ∈ ids) && (status r =? 3)) (requeue_row now) (event_inbox d)).

Lemma evolves_changes r r' : row_evolves r r' → row_changes r r'.
Proof. intros [? _ _ ?]. by split. Qed.

Lemma settle_changes st av co ma er r : st = 0 ∨ st = 2 ∨ st = 3 → row_changes r (settle_row st av co ma er r).
Proof.
  intros Hst. split; [done|]. intros [? ? ? ?]. split; simpl; [lia|split; [lia|by intros []]..|lia].
Qed.

#[local] Instance row_changes_refl : Reflexive row_changes.
Proof. by split. Qed.

Lemma map_changes f rows : (∀ r, row_changes r (f r)) → Forall2 row_changes rows (map f rows).
Proof. intros Hf. induction rows; simpl; constructor; auto. Qed.

Lemma update_changes p f rows :
  (∀ r, row_changes r (f r)) → Forall2 row_changes rows (update_where p f rows).
Proof. intros Hf. apply map_changes. intros r. by destruct (p r). Qed.

(** The operations of the repository, the statements that abandon and requeue
    rows, and the writers of the outbox. *)
Lemma rows_step st rows out n :
  Forall2 row_changes (event_inbox (st_tables st)) rows →
  ∃ st', store_step st st' ∧ st_db st' = {| tables := with_inbox (st_tables st) rows; outbox := out; outbox_id_seq := n |}.
Proof. intros H. eexists. split; [by apply ss_rows|done]. Qed.

Lemma repository_covered hashtext st d :
  store_ok st → repo_step hashtext (st_tables st) d → ∃ st', store_step st st' ∧ st_tables st' = d.
Proof.
  intros Hst Hs. apply (repo_inbox_step _ _ _ (so_tables _ Hst)) in Hs as [(rows & -> & Hev)|now faults id g acked r Hs
    |now faults events r Hs].
  - destruct (rows_step st rows (outbox (st_db st)) (outbox_id_seq (st_db st))) as (st' & Hstep & E).
    + eapply Forall2_impl; [exact Hev|apply evolves_changes].
    + exists st'. split; [done|]. unfold st_tables at 1. by rewrite E.
  - eexists. split; [by eapply ss_seed|done].
  - eexists. split; [by eapply ss_persist|done].
Qed.

Lemma lifecycle_covered st now sessions ids :
  (∃ st', store_step st st' ∧ st_tables st' = abandon_sessions now sessions (st_tables st)) ∧
  (∃ st', store_step st st' ∧ st_tables st' = requeue_dead_letters now ids (st_tables st)).
Proof.
  split; (eexists; split; [eapply (ss_rows st _ (outbox (st_db st)) (outbox_id_seq (st_db st)))|reflexivity];
    apply update_changes; intros r; apply settle_changes; auto).
Qed.

Lemma enqueue_keeps_tables now ds db : tables (enqueue_deliveries now ds db) = tables db.
Proof. revert db. induction ds as [|d ds IH]; intros db; simpl; [done|]. by rewrite IH. Qed.

Lemma transaction_covered {A} ending (body : OutboxDb → OutboxDb * outcome A) st db r :
  (∃ rows, tables (body (st_db st)).1 = with_inbox (st_tables st) rows ∧
           Forall2 row_changes (event_inbox (st_tables st)) rows) →
  outbox_transaction ending body (st_db st) = (db, r) → ∃ st', store_step st st' ∧ st_db st' = db.
Proof.
  intros (rows & Et & Hch) H. unfold outbox_transaction in H. destruct (body (st_db st)) as [db1 res]. simpl in Et.
  assert (Hundo : ∀ n, ∃ st', store_step st st' ∧
    st_db st' = {| tables := tables (st_db st); outbox := outbox (st_db st); outbox_id_seq := n |}).
  { intros n. destruct (rows_step st (event_inbox (st_tables st)) (outbox (st_db st)) n) as (st' & Hs & E).
    - rewrite <- (list_fmap_id (event_inbox (st_tables st))) at 2. by apply map_changes.
    - exists st'. split; [done|]. rewrite E. unfold st_tables. by destruct st as [[[] ? ?] ? ?]. }
  assert (Hdone : ∃ st', store_step st st' ∧ st_db st' = db1).
  { destruct (rows_step st rows (outbox db1) (outbox_id_seq db1) Hch) as (st' & Hs & E).
    exists st'. split; [done|]. rewrite E, <- Et. by destruct db1. }
  destruct res, ending; injection H as <- _; auto.
Qed.

Lemma outbox_writers_covered st :
  (∀ now id ev ds worker n ending db r,
     complete_with_deliveries now id ev ds worker n ending (st_db st) = (db, r) →
     ∃ st', store_step st st' ∧ st_db st' = db) ∧
  (∀ now batch worker ending db r,
     outbox_transaction ending (completeReplayBatch now batch worker) (st_db st) = (db, r) →
     ∃ st', store_step st st' ∧ st_db st' = db).
Proof.
  assert (Hsame : ∃ rows, st_tables st = with_inbox (st_tables st) rows ∧
    Forall2 row_changes (event_inbox (st_tables st)) rows).
  { exists (event_inbox (st_tables st)). split; [by destruct (st_tables st)|].
    rewrite <- (list_fmap_id (event_inbox (st_tables st))) at 2. by apply map_changes. }
  split.
  - intros now id ev ds worker n ending db r. apply transaction_covered. cbv zeta. destruct (_ =? 1); [|done].
    cbn [fst]. rewrite enqueue_keeps_tables. eexists. split; [done|]. apply update_changes. intros x.
    apply settle_changes. auto.
  - intros now batch worker ending db r. apply transaction_covered. unfold completeReplayBatch. cbv zeta.
    destruct (last batch); [|done]. destruct batch as [|h t]; [done|].
    destruct (_ =? _); cbn [fst]; rewrite ?enqueue_keeps_tables; (eexists; split; [done|]); apply map_changes;
      intros x; unfold replay_row; destruct (replay_match _ _ _ x); [apply settle_changes; auto|done|apply settle_changes; auto|done].
Qed.

(** ** The instance *)

#[global] Instance repository_inbox : DurableInbox Store.
Proof.
  refine {|
    inbox_ok := store_ok;
    receipted := recorded;
    persists := λ b st r st', ∃ now faults d,
      persistBatch now faults b (st_tables st) = (d, r) ∧ st' = with_tables st d;
    evolves := store_step |}.
  - intros b st r st' Hok (now & faults & d & H & ->). by eapply persist_store.
  - intros st st' Hok H. by eapply client_step_ok.
  - intros b st r st' k x Hok (now & faults & d & H & ->). eapply keeps_recorded. by eapply persist_store.
  - intros st st' k x Hok H. eapply keeps_recorded. by eapply client_step_ok.
  - intros b st cps st' e Hok (now & faults & d & H & ->) He.
    apply (persist_returns _ _ _ _ _ _ (so_tables _ Hok)) in H as Hp.
    destruct (above (st_tables st) e) eqn:Hab.
    + destruct (ps_first _ _ _ _ Hp e He Hab) as (f & Hf & _ & (r & Hr & Hk & _)).
      apply map_first_get_key in Hf as [Hkf _]. left. apply receipt_at_key. exists r.
      split; [done|]. rewrite Hk. exact Hkf.
    + eapply keeps_recorded; [by eapply persisted_store|]. apply Hok. unfold above in Hab. bool_hyps. lia.
  - intros b st cps st' c x Hok (now & faults & d & H & ->) Hc Hx.
    apply (persist_returns _ _ _ _ _ _ (so_tables _ Hok)) in H as Hp.
    rewrite (ps_cps _ _ _ _ Hp), <- list_fmap_compose in Hc.
    apply list_elem_of_fmap in Hc as ([key k] & -> & Hk).
    apply (persisted_store _ _ _ _ Hok Hp).
    change (0 < x ≤ ack_of d k) in Hx. destruct k. exact (proj2 Hx).
Defined.
