(* ===== verification/Controller.v ===== *)
(** * Controller: the ingress controller (relay/src/ingress/controller.ts).

    [IngressController] admits envelopes to the fair queue, flushes batches to
    the durable inbox and sends acknowledgements.  Its promise-based code is a
    state machine: [flushing] is the promise of a running [drain], suspended at
    [await persistBatch] ([Persisting], then [Answered] once the inbox replied)
    or finished with its [finally] handler still to run ([Settling]).  Between
    two steps any other step may run, as in the event loop.

    The inbox is an interface, the class [DurableInbox]: what the controller is
    promised by [persistBatch].  Callbacks are recorded as effects. *)

From Stdlib Require Import QArith.
From stdpp Require Import pretty.
From S2P Require Import Prelude JsValue JsMap EventPolicy FairQueue.

#[local] Open Scope Z_scope.

(** ** Data *)

Record IngressConnection : Type := {
  conn_daemonId : string;
  conn_registrationId : string;
  conn_userId : option Z;
  conn_daemonGeneration : Z;
}.

Inductive AcceptResult : Type :=
| Enqueued (r : EnqueueResult)
| Ephemeral.

(** The delays, resolved by the constructor. *)
Record ControllerConfig : Type := { flushDelayMs : Z; retryDelayMs : Z }.

Definition controller_config (flushDelay retryDelay : option Z) : ControllerConfig := {|
  flushDelayMs := Z.max 5 (Z.min 10 (default 5 flushDelay));
  retryDelayMs := Z.max 1 (default 25 retryDelay) |}.

(** Where the promise [flushing] is. *)
Inductive Flush : Type :=
| Persisting (batch : list IngressEnvelope)
| Answered (batch : list IngressEnvelope) (r : outcome (jsmap string AckCheckpoint))
| Settling.

(** [timer] is the delay of the scheduled flush; [stopTimers] counts the armed
    deadline timers of [stop]. *)
Record Controller : Type := {
  config : ControllerConfig;
  queue : Queue;
  timer : option Z;
  flushing : option Flush;
  accepting : bool;
  ackEnabled : bool;
  stopDeadlineExceeded : bool;
  retryAfterDrain : bool;
  stopTimers : nat;
}.

Inductive Effect : Type :=
| SendAck (daemonId : string) (checkpoint : AckCheckpoint) (window : Z)
| SendFlowControl (target : IngressConnection) (state : FlowControlState).

Definition new_controller (cfg : ControllerConfig) (q : Queue) : Controller := {|
  config := cfg; queue := q; timer := None; flushing := None; accepting := true;
  ackEnabled := true; stopDeadlineExceeded := false; retryAfterDrain := false; stopTimers := 0 |}.

(** Field updates. *)

Definition set_queue (c : Controller) (q : Queue) : Controller := {|
  config := config c; queue := q; timer := timer c; flushing := flushing c;
  accepting := accepting c; ackEnabled := ackEnabled c;
  stopDeadlineExceeded := stopDeadlineExceeded c; retryAfterDrain := retryAfterDrain c;
  stopTimers := stopTimers c |}.

Definition set_timer (c : Controller) (t : option Z) : Controller := {|
  config := config c; queue := queue c; timer := t; flushing := flushing c;
  accepting := accepting c; ackEnabled := ackEnabled c;
  stopDeadlineExceeded := stopDeadlineExceeded c; retryAfterDrain := retryAfterDrain c;
  stopTimers := stopTimers c |}.

Definition set_flushing (c : Controller) (f : option Flush) : Controller := {|
  config := config c; queue := queue c; timer := timer c; flushing := f;
  accepting := accepting c; ackEnabled := ackEnabled c;
  stopDeadlineExceeded := stopDeadlineExceeded c; retryAfterDrain := retryAfterDrain c;
  stopTimers := stopTimers c |}.

Definition set_retry (c : Controller) (b : bool) : Controller := {|
  config := config c; queue := queue c; timer := timer c; flushing := flushing c;
  accepting := accepting c; ackEnabled := ackEnabled c;
  stopDeadlineExceeded := stopDeadlineExceeded c; retryAfterDrain := b;
  stopTimers := stopTimers c |}.

Definition set_stop (c : Controller) (acc ack exceeded : bool) (timers : nat) : Controller := {|
  config := config c; queue := queue c; timer := timer c; flushing := flushing c;
  accepting := acc; ackEnabled := ack;
  stopDeadlineExceeded := exceeded; retryAfterDrain := retryAfterDrain c;
  stopTimers := timers |}.

(** ** Private methods *)

Definition clearScheduledFlush (c : Controller) : Controller := set_timer c None.

Definition scheduleFlush (c : Controller) (delayMs : Z) : Controller :=
  if negb (accepting c) || bool_decide (is_Some (timer c)) || bool_decide (is_Some (flushing c))
     || (size (queue c) =? 0)
  then c else set_timer c (Some delayMs).

Definition stopState : FlowControlState :=
  {| window := 1; retryAfterMs := 250; reason := relay_overloaded; blockedSeq := None |}.

Definition target_of (e : IngressEnvelope) : IngressConnection := {|
  conn_daemonId := daemonId e; conn_registrationId := registrationId e;
  conn_userId := userId e; conn_daemonGeneration := daemonGeneration e |}.

Definition zero_char : string := String (Ascii.ascii_of_nat 0) EmptyString.

Definition batchTargets (batch : list IngressEnvelope) : jsmap string IngressConnection :=
  map_of (λ e, daemonId e +:+ zero_char +:+ registrationId e +:+ zero_char
               +:+ pretty (daemonGeneration e)) target_of batch.

Definition drain_limits : BatchLimits := {|
  maxRows := JNum 256; batchMaxBytes := JNum (Z.shiftl 1 20);
  maxPerDaemonFraction := Some (1 # 4)%Q |}.

(** The [while] loop of [drain] up to its [await] or its end. *)
Definition drain_head (c : Controller) : Controller :=
  if (0 <? size (queue c)) && negb (stopDeadlineExceeded c) then
    match takeBatch (queue c) drain_limits with
    | Throws _ => set_flushing c (Some Settling)
    | Returns (q, []) => set_flushing (set_queue c q) (Some Settling)
    | Returns (q, batch) => set_flushing (set_queue c q) (Some (Persisting batch))
    end
  else set_flushing c (Some Settling).

(** ** Public methods *)

(** [undefined] in [options.receiptOnly] is [None]; [obj] is the identity of the
    new envelope object. *)
Definition envelope (obj : Z) (conn : IngressConnection) (payload ctx : jsval)
    (receipt_only : option bool) (now seq : Z) : IngressEnvelope :=
  let policy := classifyDaemonEvent payload in {|
  EventPolicy.obj := obj;
  userId := conn_userId conn;
  daemonId := conn_daemonId conn;
  registrationId := conn_registrationId conn;
  daemonGeneration := conn_daemonGeneration conn;
  EventPolicy.seq := seq;
  dedupKey := buildDedupKey (conn_daemonId conn) (conn_daemonGeneration conn) seq payload;
  sessionId := normalizeSessionId (js_get payload "session_id");
  eventType := event_type payload;
  priority := class policy;
  receiptOnly := default (negb (durable policy)) receipt_only;
  EventPolicy.payload := payload;
  materializationContext := ctx;
  receivedAt := now |}.

Definition accept (c : Controller) (obj : Z) (conn : IngressConnection) (payload ctx : jsval)
    (receipt_only : option bool) (now : Z) : Controller * AcceptResult :=
  match js_Number (js_get payload "seq") with
  | None => (c, Ephemeral)
  | Some seq =>
      if negb (is_safe_integer seq) || (seq <=? 0) then (c, Ephemeral)
      else if negb (accepting c) then (c, Enqueued (Backpressured stopState))
      else
        let '(q, result) := enqueue (queue c) (envelope obj conn payload ctx receipt_only now seq) in
        let c := set_queue c q in
        (match result with
         | Accepted => scheduleFlush c (flushDelayMs (config c))
         | Backpressured _ => c
         end, Enqueued result)
  end.

Definition flushNow (c : Controller) : Controller :=
  match flushing c with
  | Some _ => c
  | None => drain_head (clearScheduledFlush c)
  end.

Definition start (c : Controller) : Controller := scheduleFlush c (flushDelayMs (config c)).

(** The callback of the flush timer. *)
Definition timer_fires (c : Controller) : Controller := flushNow (set_timer c None).

(** [drain] after its [await]: [flowThrows] is the index of the flow-control
    callback that throws, if one does; an error in an acknowledgement callback
    is caught where it is thrown. *)
Definition resume (c : Controller) (batch : list IngressEnvelope)
    (r : outcome (jsmap string AckCheckpoint)) (flowThrows : option nat)
    : Controller * list Effect :=
  match r with
  | Throws _ =>
      match requeueFront (queue c) batch with
      | (q, Throws _) => (set_flushing (set_queue c q) (Some Settling), [])
      | (q, Returns _) =>
          let c := set_queue c q in
          let state := {| window := 1; retryAfterMs := retryDelayMs (config c);
                          reason := ingest_backpressure; blockedSeq := None |} in
          let sends := (λ t, SendFlowControl t state) <$> (batchTargets batch).*2 in
          match flowThrows with
          | Some k => if (k <? length sends)%nat
                      then (set_flushing c (Some Settling), take (S k) sends)
                      else (set_flushing (set_retry c true) (Some Settling), sends)
          | None => (set_flushing (set_retry c true) (Some Settling), sends)
          end
      end
  | Returns checkpoints =>
      match commitBatch (queue c) batch with
      | (q, Throws _) => (set_flushing (set_queue c q) (Some Settling), [])
      | (q, Returns _) =>
          (drain_head (set_queue c q),
           if ackEnabled c then (λ k, SendAck (ack_daemonId k) k 128) <$> checkpoints.*2 else [])
      end
  end.

(** The [finally] handlers of the flush: the deadline timers of [stop] are
    cleared and the next flush is scheduled. *)
Definition settle (c : Controller) : Controller :=
  let c := set_stop (set_flushing c None) (accepting c) (ackEnabled c)
             (stopDeadlineExceeded c) 0 in
  if negb (accepting c) || (size (queue c) =? 0) then c
  else
    let delay := if retryAfterDrain c then retryDelayMs (config c) else 0 in
    scheduleFlush (set_retry c false) delay.

Definition stop (c : Controller) : Controller :=
  let c := set_stop c false (ackEnabled c) (stopDeadlineExceeded c) (stopTimers c) in
  let c := flushNow (clearScheduledFlush c) in
  set_stop c (accepting c) (ackEnabled c) (stopDeadlineExceeded c) (S (stopTimers c)).

(** The deadline of [stop] passes before the flush settles. *)
Definition deadline_fires (c : Controller) : Controller :=
  set_stop c (accepting c) false true (pred (stopTimers c)).
