(* ===== verification/ControllerSpec.v ===== *)
(** * ControllerSpec: the ingress controller over a durable inbox.

    [System] is a controller with its inbox, the events it accepted and the
    acknowledgements it sent; [sys_step] interleaves its methods, its timers,
    the replies of the inbox and the steps of other clients of the inbox in any
    order.  The guarantees are proved against the interface [DurableInbox] and
    then stated for the repository's tables. *)

From S2P Require Import Prelude JsValue JsMap EventPolicy FairQueue FairQueueFacts FairQueueDrain FairQueueSpec DurableInbox Controller.

#[local] Open Scope Z_scope.

(** ** The controller alone *)

(** The batch the inbox is working on. *)
Definition inflight (c : Controller) : list IngressEnvelope :=
  match flushing c with
  | Some (Persisting b) | Some (Answered b _) => b
  | _ => []
  end.

Record ctl_ok (c : Controller) : Prop := {
  co_wf : wf (queue c);
  co_reserved : reserved (queue c) ≡ₚ inflight c;
  co_awake : accepting c = true → 0 < size (queue c) → is_Some (timer c) ∨ is_Some (flushing c);
  co_single : is_Some (flushing c) → timer c = None;
  co_silent : stopDeadlineExceeded c = true → ackEnabled c = false;
}.

Lemma enqueue_cases q e q' r :
  enqueue q e = (q', r) →
  (r = Accepted ∧ q' = insertBack q (toQueued e)) ∨ (∃ s, r = Backpressured s) ∧ q' = q.
Proof.
  unfold enqueue. destruct (_ <? _); [intros [= <- <-]; right; split; [by eexists|done]|].
  destruct (_ && _); [intros [= <- <-]; right; split; [by eexists|done]|].
  destruct (_ || _); [intros [= <- <-]; right; split; [by eexists|done]|].
  intros [= <- <-]. by left.
Qed.

Lemma insertBack_reserved q e : reserved (insertBack q (toQueued e)) = reserved q.
Proof.
  rewrite insertBack_put.
  apply (put_item_fields q (toQueued e)
    (lane_of q (daemonId (event (toQueued e))) (priority (event (toQueued e))) ++ [toQueued e])).
Qed.

Lemma size_queued q : wf q → size q = len (queued q).
Proof. intros [Hs _]. apply (sh_size _ Hs). Qed.

(** The loop of [drain] moves events from the queue to the batch in flight. *)
Lemma drain_head_ok c :
  wf (queue c) → reserved (queue c) = [] → timer c = None →
  (stopDeadlineExceeded c = true → ackEnabled c = false) →
  ctl_ok (drain_head c) ∧ admitted (queue (drain_head c)) ≡ₚ admitted (queue c)
  ∧ (∀ b r, flushing (drain_head c) ≠ Some (Answered b r))
  ∧ accepting (drain_head c) = accepting c
  ∧ stopDeadlineExceeded (drain_head c) = stopDeadlineExceeded c
  ∧ ackEnabled (drain_head c) = ackEnabled c.
Proof.
  intros Hwf Hres Ht Hsil. unfold drain_head.
  destruct ((0 <? size (queue c)) && negb (stopDeadlineExceeded c)) eqn:Eg.
  - destruct (takeBatch_run (queue c) drain_limits Hwf) as (q & b & -> & [H1 H2 H3 H4 H5] & _).
    rewrite Hres, app_nil_r in H3.
    assert (Hadm : admitted q ≡ₚ admitted (queue c)).
    { unfold admitted. rewrite H4, H3, Hres, app_nil_r, <- Permutation_rev. solve_Permutation. }
    destruct b as [|e b]; (split; [split; simpl; auto|by split_and!]).
    + by rewrite H3.
    + by rewrite H3, <- Permutation_rev.
  - split; [|by split_and!]. split; simpl; auto. by rewrite Hres.
Qed.

Lemma scheduleFlush_ok c delay :
  wf (queue c) → reserved (queue c) ≡ₚ inflight c → (is_Some (flushing c) → timer c = None) →
  (stopDeadlineExceeded c = true → ackEnabled c = false) →
  ctl_ok (scheduleFlush c delay) ∧ queue (scheduleFlush c delay) = queue c
  ∧ flushing (scheduleFlush c delay) = flushing c
  ∧ accepting (scheduleFlush c delay) = accepting c
  ∧ stopDeadlineExceeded (scheduleFlush c delay) = stopDeadlineExceeded c
  ∧ ackEnabled (scheduleFlush c delay) = ackEnabled c.
Proof.
  intros Hwf Hres Hone Hsil. unfold scheduleFlush.
  destruct (accepting c) eqn:Ea; cbn [negb orb].
  2: { split; [split; auto; rewrite Ea; done|by split_and!]. }
  case_bool_decide as Htm; cbn [orb]; [split; [split; auto|by split_and!]|].
  case_bool_decide as Hfl; cbn [orb]; [split; [split; auto|by split_and!]|].
  destruct (Z.eqb_spec (size (queue c)) 0) as [E|E].
  - split; [split; auto; lia|by split_and!].
  - split; [|by split_and!].
    split; simpl; [done|done|intros _ _; left; by eexists|tauto|done].
Qed.

Lemma flushNow_ok c :
  ctl_ok c →
  ctl_ok (flushNow c) ∧ admitted (queue (flushNow c)) ≡ₚ admitted (queue c)
  ∧ (∀ b r, flushing (flushNow c) = Some (Answered b r) → flushing c = Some (Answered b r))
  ∧ accepting (flushNow c) = accepting c
  ∧ stopDeadlineExceeded (flushNow c) = stopDeadlineExceeded c
  ∧ ackEnabled (flushNow c) = ackEnabled c.
Proof.
  intros Hc. unfold flushNow. destruct (flushing c) as [f|] eqn:Ef.
  - split_and!; auto. rewrite Ef. auto.
  - destruct (drain_head_ok (clearScheduledFlush c)) as (H1 & H2 & H3 & H4 & H5 & H6).
    + apply Hc.
    + apply Permutation_nil_r.
      pose proof (co_reserved c Hc) as Hr. unfold inflight in Hr. rewrite Ef in Hr. exact Hr.
    + done.
    + apply Hc.
    + split_and!; auto. intros b r Hb. by apply H3 in Hb.
Qed.

(** The envelopes an [accept] put in the queue: one, or none. *)
Definition accepted_by (obj : Z) (conn : IngressConnection) (payload ctx : jsval)
    (ro : option bool) (now : Z) (r : AcceptResult) : list IngressEnvelope :=
  match r, js_Number (js_get payload "seq") with
  | Enqueued Accepted, Some seq => [envelope obj conn payload ctx ro now seq]
  | _, _ => []
  end.

Lemma accept_ok c obj conn payload ctx ro now c' r :
  ctl_ok c → conn_daemonId conn ≠ EmptyString → obj ∉ EventPolicy.obj <$> admitted (queue c) →
  accept c obj conn payload ctx ro now = (c', r) →
  ctl_ok c' ∧ admitted (queue c') ≡ₚ accepted_by obj conn payload ctx ro now r ++ admitted (queue c)
  ∧ flushing c' = flushing c ∧ accepting c' = accepting c
  ∧ stopDeadlineExceeded c' = stopDeadlineExceeded c
  ∧ (accepting c = false → accepted_by obj conn payload ctx ro now r = []).
Proof.
  intros Hc Hid Hobj H. unfold accept in H. unfold accepted_by.
  destruct (js_Number (js_get payload "seq")) as [seq|]; [|injection H as <- <-; by split_and!].
  destruct (negb (is_safe_integer seq) || (seq <=? 0)); [injection H as <- <-; by split_and!|].
  destruct (accepting c) eqn:Ea; [|injection H as <- <-; by split_and!]. cbn [negb] in H.
  set (e := envelope obj conn payload ctx ro now seq) in *.
  destruct (enqueue (queue c) e) as [q res] eqn:Eq.
  destruct (enqueue_cases _ _ _ _ Eq) as [[-> ->]|[[s ->] ->]].
  - injection H as <- <-. destruct (wf_insertBack (queue c) e (co_wf c Hc) Hid Hobj) as (Hwf & Hadm & _).
    destruct (scheduleFlush_ok (set_queue c (insertBack (queue c) (toQueued e)))
                (flushDelayMs (config c))) as (H1 & H2 & H3 & H4 & H5 & H6).
    + done.
    + cbn [set_queue queue]. rewrite insertBack_reserved. apply (co_reserved c Hc).
    + apply Hc.
    + apply Hc.
    + split_and!; [done| |done|by rewrite H4|done|done]. rewrite H2. simpl. exact Hadm.
  - injection H as <- <-. split_and!; auto. destruct Hc. by split.
Qed.

(** [drain] after the inbox replied. *)
Definition acks_of (effects : list Effect) : list AckCheckpoint :=
  omap (λ f, match f with SendAck _ c _ => Some c | _ => None end) effects.

Lemma acks_of_flow {A} (f : A → IngressConnection) (st : FlowControlState) (l : list A) n :
  acks_of (take n ((λ t, SendFlowControl (f t) st) <$> l)) = [].
Proof. revert n. induction l as [|x l IH]; intros [|n]; simpl; auto. Qed.

Lemma acks_of_acks (w : Z) (l : list AckCheckpoint) :
  acks_of ((λ k, SendAck (ack_daemonId k) k w) <$> l) = l.
Proof. induction l as [|c l IH]; simpl; [done|]. by f_equal. Qed.

Lemma resume_ok c b r ft c' effects :
  ctl_ok c → flushing c = Some (Answered b r) → resume c b r ft = (c', effects) →
  ctl_ok c' ∧ accepting c' = accepting c ∧ stopDeadlineExceeded c' = stopDeadlineExceeded c
  ∧ (∀ b' r', flushing c' ≠ Some (Answered b' r'))
  ∧ match r with
    | Throws _ => admitted (queue c') ≡ₚ admitted (queue c) ∧ acks_of effects = []
    | Returns cps => admitted (queue c) ≡ₚ b ++ admitted (queue c')
                     ∧ acks_of effects = if ackEnabled c then cps.*2 else []
    end.
Proof.
  intros Hc Hf H. unfold resume in H. pose proof (co_reserved c Hc) as Hres.
  unfold inflight in Hres. rewrite Hf in Hres.
  assert (Hres0 : reserved (queue c) ≡ₚ b ++ []) by (by rewrite app_nil_r).
  assert (Htm : timer c = None) by (apply Hc; by rewrite Hf).
  destruct r as [cps|m].
  - destruct (commitBatch_spec _ _ _ (co_wf c Hc) Hres0) as (q & -> & Hwf & Hr & Hd & _) in H.
    injection H as <- <-. apply Permutation_nil_r in Hr.
    destruct (drain_head_ok (set_queue c q)) as (H1 & H2 & H3 & H4 & H5 & H6);
      [done..|apply Hc|]. split_and!; auto.
    + unfold admitted at 1. rewrite H2. unfold admitted. cbn [set_queue queue].
      rewrite Hr, Hres, app_nil_r. unfold queued. rewrite Hd. solve_Permutation.
    + destruct (ackEnabled c); [apply acks_of_acks|done].
  - destruct (requeueFront_spec _ _ _ (co_wf c Hc) Hres0) as (q & Eq & Hwf & Hr & _ & Hq & _).
    rewrite Eq in H. apply Permutation_nil_r in Hr.
    assert (Hadm : admitted q ≡ₚ admitted (queue c)).
    { unfold admitted. rewrite Hq, Hr, Hres, app_nil_r. solve_Permutation. }
    assert (Hok : ∀ x, ctl_ok (set_flushing (set_retry (set_queue c q) x) (Some Settling))).
    { intros x. split; simpl; auto; [by rewrite Hr|apply Hc]. }
    assert (Hok' : ctl_ok (set_flushing (set_queue c q) (Some Settling))).
    { split; simpl; auto; [by rewrite Hr|apply Hc]. }
    destruct ft as [k|].
    + destruct (k <? _)%nat; injection H as <- <-; split_and!; auto; try done.
      * apply acks_of_flow.
      * rewrite <- (firstn_all (fmap _ _)). apply acks_of_flow.
    + injection H as <- <-; split_and!; auto; try done.
      rewrite <- (firstn_all (fmap _ _)). apply acks_of_flow.
Qed.

Lemma settle_ok c :
  ctl_ok c → flushing c = Some Settling →
  ctl_ok (settle c) ∧ queue (settle c) = queue c ∧ flushing (settle c) = None
  ∧ accepting (settle c) = accepting c ∧ stopDeadlineExceeded (settle c) = stopDeadlineExceeded c.
Proof.
  intros Hc Hf. unfold settle.
  pose proof (co_reserved c Hc) as Hres. unfold inflight in Hres. rewrite Hf in Hres.
  destruct (negb _ || _) eqn:Eg.
  - split; [|by split_and!]. split; simpl; [apply Hc|done| |by intros [? ?]|apply Hc].
    intros Ha Hs. cbn [set_stop set_flushing accepting queue] in Eg. rewrite Ha in Eg.
    cbn [negb orb] in Eg. bool_hyps. lia.
  - match goal with |- context [scheduleFlush ?x ?d] =>
      destruct (scheduleFlush_ok x d) as (H1 & H2 & H3 & H4 & H5 & H6) end.
    + apply Hc.
    + done.
    + by intros [? ?].
    + apply Hc.
    + by split_and!.
Qed.

Lemma stop_ok c :
  ctl_ok c →
  ctl_ok (stop c) ∧ admitted (queue (stop c)) ≡ₚ admitted (queue c) ∧ accepting (stop c) = false
  ∧ (∀ b r, flushing (stop c) = Some (Answered b r) → flushing c = Some (Answered b r))
  ∧ stopDeadlineExceeded (stop c) = stopDeadlineExceeded c.
Proof.
  intros Hc. unfold stop.
  set (c1 := clearScheduledFlush (set_stop c false (ackEnabled c) (stopDeadlineExceeded c) (stopTimers c))).
  assert (Hc1 : ctl_ok c1) by (destruct Hc; split; simpl; auto; done).
  destruct (flushNow_ok c1 Hc1) as (H1 & H2 & H3 & H4 & H5 & H6).
  split_and!; auto. destruct H1. by split.
Qed.

Lemma deadline_ok c : ctl_ok c → ctl_ok (deadline_fires c).
Proof. intros []. by split. Qed.

(** ** The controller and its inbox *)

Record System (S : Type) : Type := {
  ctl : Controller;
  inbox : S;
  accepted : list IngressEnvelope;
  acks : list AckCheckpoint;
}.
Arguments ctl {S}. Arguments inbox {S}. Arguments accepted {S}. Arguments acks {S}.

Definition with_ctl {S} (s : System S) (c : Controller) : System S :=
  {| ctl := c; inbox := inbox s; accepted := accepted s; acks := acks s |}.

Section system.
Context {S : Type} `{DurableInbox S}.
Implicit Types s : System S.

Inductive sys_step : System S → System S → Prop :=
| sys_start s : sys_step s (with_ctl s (start (ctl s)))
| sys_accept s obj conn payload ctx ro now c r :
    conn_daemonId conn ≠ EmptyString → obj ∉ EventPolicy.obj <$> accepted s →
    accept (ctl s) obj conn payload ctx ro now = (c, r) →
    sys_step s {| ctl := c; inbox := inbox s;
                  accepted := accepted_by obj conn payload ctx ro now r ++ accepted s;
                  acks := acks s |}
| sys_flush s : sys_step s (with_ctl s (flushNow (ctl s)))
| sys_timer s delay : timer (ctl s) = Some delay → sys_step s (with_ctl s (timer_fires (ctl s)))
| sys_persist s b r i :
    flushing (ctl s) = Some (Persisting b) → persists b (inbox s) r i →
    sys_step s {| ctl := set_flushing (ctl s) (Some (Answered b r)); inbox := i;
                  accepted := accepted s; acks := acks s |}
| sys_resume s b r ft c effects :
    flushing (ctl s) = Some (Answered b r) → resume (ctl s) b r ft = (c, effects) →
    sys_step s {| ctl := c; inbox := inbox s; accepted := accepted s;
                  acks := acks s ++ acks_of effects |}
| sys_settle s : flushing (ctl s) = Some Settling → sys_step s (with_ctl s (settle (ctl s)))
| sys_stop s : sys_step s (with_ctl s (stop (ctl s)))
| sys_deadline s : stopTimers (ctl s) ≠ 0%nat → sys_step s (with_ctl s (deadline_fires (ctl s)))
| sys_other s i :
    evolves (inbox s) i →
    sys_step s {| ctl := ctl s; inbox := i; accepted := accepted s; acks := acks s |}.

(** What the reply in hand promises. *)
Definition reply_ok (c : Controller) (i : S) : Prop :=
  ∀ b cps, flushing c = Some (Answered b (Returns cps)) →
    (∀ e, e ∈ b → receipted i (event_stream e) (seq e))
    ∧ (∀ a x, a ∈ cps.*2 → 0 < x ≤ ackSeq a → receipted i (stream_of a) x).

Record sys_ok s : Prop := {
  sy_ctl : ctl_ok (ctl s);
  sy_inbox : inbox_ok (inbox s);
  sy_known : ∀ e, e ∈ admitted (queue (ctl s)) → e ∈ accepted s;
  sy_kept : ∀ e, e ∈ accepted s →
    e ∈ admitted (queue (ctl s)) ∨ receipted (inbox s) (event_stream e) (seq e);
  sy_reply : reply_ok (ctl s) (inbox s);
  sy_acks : ∀ a x, a ∈ acks s → 0 < x ≤ ackSeq a → receipted (inbox s) (stream_of a) x;
}.

(** A step of the controller that keeps the events it holds. *)
Lemma sys_ok_ctl s c :
  sys_ok s → ctl_ok c → admitted (queue c) ≡ₚ admitted (queue (ctl s)) →
  (∀ b r, flushing c = Some (Answered b r) → flushing (ctl s) = Some (Answered b r)) →
  sys_ok (with_ctl s c).
Proof.
  intros [H1 H2 H3 H4 H5 H6] Hc Hadm Hfl. split; simpl; auto.
  - intros e. rewrite Hadm. auto.
  - intros e. rewrite Hadm. auto.
  - intros b cps Hb. apply H5. auto.
Qed.

(** A step of the inbox that keeps what is recorded. *)
Lemma sys_ok_inbox s c i :
  sys_ok s → inbox_ok i → (∀ k x, receipted (inbox s) k x → receipted i k x) →
  ctl_ok c → queue c = queue (ctl s) → reply_ok c i →
  sys_ok {| ctl := c; inbox := i; accepted := accepted s; acks := acks s |}.
Proof.
  intros [H1 H2 H3 H4 H5 H6] Hi Hk Hc Hq Hr. split; simpl; rewrite ?Hq; auto.
  intros e He. destruct (H4 e He); auto.
Qed.

Lemma sys_step_ok s s' : sys_ok s → sys_step s s' → sys_ok s'.
Proof.
  intros Hs Hstep. pose proof Hs as [H1 H2 H3 H4 H5 H6]. revert Hs H1 H2 H3 H4 H5 H6.
  destruct Hstep as [s|s obj conn payload ctx ro now c r Hid Hobj Hacc|s|s delay Ht|s b r i Hf Hp
    |s b r ft c effects Hf Hr|s Hf|s|s Ht|s i Hev]; intros Hs H1 H2 H3 H4 H5 H6.
  - destruct (scheduleFlush_ok (ctl s) (flushDelayMs (config (ctl s)))) as (C1 & C2 & C3 & _);
      [apply H1..|]. apply sys_ok_ctl; auto; unfold start; rewrite ?C2, ?C3; auto.
  - assert (Hobj' : obj ∉ EventPolicy.obj <$> admitted (queue (ctl s))).
    { intros Hin. apply Hobj. apply list_elem_of_fmap in Hin as (e & -> & He).
      apply list_elem_of_fmap_2. auto. }
    destruct (accept_ok _ _ _ _ _ _ _ _ _ H1 Hid Hobj' Hacc) as (C1 & C2 & C3 & _).
    split; simpl; auto.
    + intros e. rewrite C2, !elem_of_app. intros [?|?]; auto.
    + intros e. rewrite C2, !elem_of_app. intros [?|He]; [by auto|]. destruct (H4 e He); auto.
    + intros b cps. rewrite C3. apply H5.
  - destruct (flushNow_ok _ H1) as (C1 & C2 & C3 & _). by apply sys_ok_ctl.
  - destruct (flushing (ctl s)) eqn:Ef.
    { rewrite (co_single _ H1) in Ht; [done|by rewrite Ef]. }
    unfold timer_fires.
    assert (Hfn : flushNow (set_timer (ctl s) None) = flushNow (ctl s)).
    { unfold flushNow. cbn [set_timer flushing]. rewrite Ef. done. }
    rewrite Hfn. destruct (flushNow_ok _ H1) as (C1 & C2 & C3 & _). by apply sys_ok_ctl.
  - apply sys_ok_inbox; auto.
    + by eapply persists_ok.
    + intros k x. by eapply persists_keeps.
    + destruct H1 as [W R A O Z0]. split; simpl; [done| |by right; eexists| |done].
      * rewrite R. unfold inflight. by rewrite Hf.
      * intros _. apply O. by rewrite Hf.
    + intros b' cps [= <- ->]. split; [intros e; by eapply persists_batch|].
      intros a x. by eapply persists_acks.
  - destruct (resume_ok _ _ _ _ _ _ H1 Hf Hr) as (C1 & C2 & C3 & C4 & C5).
    assert (Hrep : reply_ok c (inbox s)) by (intros b' cps Hb; by apply C4 in Hb).
    destruct r as [cps|m]; destruct C5 as [Ca Ck].
    + destruct (H5 b cps Hf) as [Hb Hk]. split; simpl; auto.
      * intros e He. apply H3. rewrite Ca. set_solver.
      * intros e He. destruct (H4 e He) as [Hin|]; [|by right].
        rewrite Ca in Hin. apply elem_of_app in Hin as [?|?]; auto.
      * intros a x [Ha|Ha]%elem_of_app; [auto|]. rewrite Ck in Ha.
        destruct (ackEnabled (ctl s)); [auto|by apply elem_of_nil in Ha].
    + split; simpl; auto; try (intros e; rewrite Ca; auto).
      intros a x. rewrite Ck, app_nil_r. auto.
  - destruct (settle_ok _ H1 Hf) as (C1 & C2 & C3 & _).
    apply sys_ok_ctl; auto; [by rewrite C2|]. rewrite C3. done.
  - destruct (stop_ok _ H1) as (C1 & C2 & _ & C4 & _). by apply sys_ok_ctl.
  - apply sys_ok_ctl; auto. by apply deadline_ok.
  - apply sys_ok_inbox; auto.
    + by eapply evolves_ok.
    + intros k x. by eapply evolves_keeps.
    + intros b cps Hb. destruct (H5 b cps Hb) as [Hb1 Hb2]. split.
      * intros e He. eapply evolves_keeps; eauto.
      * intros a x Ha Hx. eapply evolves_keeps; eauto.
Qed.

(** A fresh controller over an inbox. *)
Definition init (cfg : ControllerConfig) (qc : FairIngressQueueConfig) (i : S) : System S :=
  {| ctl := new_controller cfg (new_queue qc); inbox := i; accepted := []; acks := [] |}.

Lemma init_ok cfg qc i : inbox_ok i → sys_ok (init cfg qc i).
Proof.
  intros Hi. assert (Hempty : admitted (new_queue qc) = []).
  { unfold admitted, queued, queued_items. simpl. by rewrite map_to_list_empty. }
  split; cbn [init ctl inbox accepted acks new_controller queue]; rewrite ?Hempty; auto.
  - split; simpl; auto; [apply wf_new|done].
  - by intros b cps ?.
  - by intros a x ?%elem_of_nil.
Qed.

Lemma reachable_sys_ok cfg qc i s : inbox_ok i → rtc sys_step (init cfg qc i) s → sys_ok s.
Proof.
  intros Hi Hs. pose proof (init_ok cfg qc i Hi) as Hok.
  remember (init cfg qc i) as s0 eqn:E. clear E. induction Hs; eauto using sys_step_ok.
Qed.
End system.
