(* ===== verification/ControllerClaims.v ===== *)
(** * ControllerClaims: what the ingress pipeline guarantees.

    The controller over the repository's tables: an acknowledged event is
    durable, an accepted event is never lost, the controller never stalls, and a
    stopped controller stays silent. *)

From S2P Require Import Prelude JsValue JsMap EventPolicy FairQueue FairQueueFacts FairQueueDrain FairQueueSpec InboxRepository InboxFacts DurableInbox InboxPersist InboxClaims RealtimeOutbox InboxInstance Controller ControllerSpec.

#[local] Open Scope Z_scope.

(** ** Flags only move one way *)

Section flags.
Context {S : Type} `{DurableInbox S}.

Record flags_kept (s s' : System S) : Prop := {
  fk_closed : accepting (ctl s) = false → accepting (ctl s') = false ∧ accepted s' = accepted s;
  fk_silent : stopDeadlineExceeded (ctl s) = true →
    stopDeadlineExceeded (ctl s') = true ∧ acks s' = acks s;
}.

Lemma flags_kept_trans s1 s2 s3 : flags_kept s1 s2 → flags_kept s2 s3 → flags_kept s1 s3.
Proof.
  intros [A1 B1] [A2 B2]. split.
  - intros Ha. destruct (A1 Ha) as [Ha2 E1]. destruct (A2 Ha2). split; congruence.
  - intros Hb. destruct (B1 Hb) as [Hb2 E1]. destruct (B2 Hb2). split; congruence.
Qed.

(** A step of the controller that sends and accepts nothing. *)
Lemma flags_kept_ctl (s : System S) c :
  (accepting (ctl s) = false → accepting c = false) →
  (stopDeadlineExceeded (ctl s) = true → stopDeadlineExceeded c = true) →
  flags_kept s (with_ctl s c).
Proof. intros Ha Hd. split; simpl; auto. Qed.

Lemma sys_step_flags s s' : sys_ok s → sys_step s s' → flags_kept s s'.
Proof.
  intros Hs Hstep. pose proof (sy_ctl _ Hs) as Hc. pose proof (sy_known _ Hs) as Hk. revert Hs Hc Hk.
  destruct Hstep as [s|s obj conn payload ctx ro now c r Hid Hobj Hacc|s|s delay Ht|s b r i Hf Hp
    |s b r ft c effects Hf Hr|s Hf|s|s Ht|s i Hev]; intros Hs Hc Hk.
  - destruct (scheduleFlush_ok (ctl s) (flushDelayMs (config (ctl s)))) as (_ & _ & _ & A & D & _);
      [apply Hc..|]. apply flags_kept_ctl; unfold start; congruence.
  - assert (Hobj' : obj ∉ EventPolicy.obj <$> admitted (queue (ctl s))).
    { intros Hin. apply Hobj. apply list_elem_of_fmap in Hin as (e & -> & He).
      apply list_elem_of_fmap_2. auto. }
    destruct (accept_ok _ _ _ _ _ _ _ _ _ Hc Hid Hobj' Hacc) as (_ & _ & _ & A & D & N).
    split; simpl; intros Hfl; (split; [congruence|]); [by rewrite (N Hfl)|done].
  - destruct (flushNow_ok _ Hc) as (_ & _ & _ & A & D & _). apply flags_kept_ctl; congruence.
  - assert (Hset : ctl_ok (set_timer (ctl s) None) ∨ flushing (ctl s) = None).
    { destruct (flushing (ctl s)) eqn:Ef; [|by right].
      rewrite (co_single _ Hc) in Ht; [done|by rewrite Ef]. }
    destruct Hset as [Hset|Hset].
    + destruct (flushNow_ok _ Hset) as (_ & _ & _ & A & D & _).
      apply flags_kept_ctl; unfold timer_fires; rewrite ?A, ?D; done.
    + assert (Hfn : timer_fires (ctl s) = flushNow (ctl s)).
      { unfold timer_fires, flushNow. cbn [set_timer flushing]. rewrite Hset. done. }
      rewrite Hfn. destruct (flushNow_ok _ Hc) as (_ & _ & _ & A & D & _).
      apply flags_kept_ctl; congruence.
  - by split.
  - destruct (resume_ok _ _ _ _ _ _ Hc Hf Hr) as (_ & A & D & _ & C5).
    split; simpl; intros Hfl; (split; [congruence|]); [done|].
    destruct r as [cps|m]; destruct C5 as [_ ->]; [|by rewrite app_nil_r].
    rewrite (co_silent _ Hc Hfl). by rewrite app_nil_r.
  - destruct (settle_ok _ Hc Hf) as (_ & _ & _ & A & D). apply flags_kept_ctl; congruence.
  - destruct (stop_ok _ Hc) as (_ & _ & A & _ & D). apply flags_kept_ctl; congruence.
  - by apply flags_kept_ctl.
  - by split.
Qed.

Lemma sys_steps_flags s s' : sys_ok s → rtc sys_step s s' → flags_kept s s'.
Proof.
  intros Hs Hr. induction Hr as [s|s s1 s' Hstep _ IH]; [by split|].
  eapply flags_kept_trans; [by apply sys_step_flags|]. apply IH. by eapply sys_step_ok.
Qed.
End flags.

(** The steps of a controller over the repository's tables. *)
Abbreviation relay_step := (sys_step (H := repository_inbox)).

(** ** Claims *)

(** C1: An acknowledgement is a promise kept: in every state the controller over
    the repository's tables can reach, with any interleaving of its methods,
    timers and replies, any faults, and any work of workers, other relays,
    registrations, retention and deletions on the tables, each sequence number
    covered by an acknowledgement it sent has a durable receipt; or its receipt
    was removed as the rules allow, by retention six hours after the event was
    completed with no delivery of it open (or, for a receipt without an inbox
    row, after its checkpoint covered it), or with the session or account it
    belongs to; or the daemon itself reported it as acknowledged when it
    registered. *)
Theorem acked_events_durable cfg qc st s a x :
  store_ok st →
  rtc relay_step (init cfg qc st) s →
  a ∈ acks s → 0 < x ≤ ackSeq a →
  receipt_at (st_tables (inbox s)) (ack_daemonId a) (ack_daemonGeneration a) x = true
  ∨ (∃ g, g ∈ st_gone (inbox s) ∧ gone_at g (stream_of a) x ∧ gone_ok g)
  ∨ x ≤ reported (inbox s) (stream_of a).
Proof.
  intros Hst Hs Ha Hx. pose proof (reachable_sys_ok (H := repository_inbox) cfg qc st s Hst Hs) as Hok.
  destruct (sy_acks (H := repository_inbox) _ Hok a x Ha Hx) as [?|[(g & Hg & Hk)|?]]; [by left| |by right; right].
  right; left. exists g. split_and!; [done..|]. by apply (sy_inbox (H := repository_inbox) _ Hok).
Qed.

(** C2: No accepted event is lost: at any time it is still queued, is in the batch
    being written, or has a durable receipt; or its receipt was removed as the
    rules of retention and deletion allow; or the daemon had itself reported its
    number as acknowledged. *)
Theorem accepted_never_lost cfg qc st s e :
  store_ok st →
  rtc relay_step (init cfg qc st) s →
  e ∈ accepted s →
  e ∈ queued (queue (ctl s)) ∨ e ∈ inflight (ctl s)
  ∨ receipt_at (st_tables (inbox s)) (daemonId e) (daemonGeneration e) (seq e) = true
  ∨ (∃ g, g ∈ st_gone (inbox s) ∧ gone_at g (event_stream e) (seq e) ∧ gone_ok g)
  ∨ seq e ≤ reported (inbox s) (event_stream e).
Proof.
  intros Hst Hs He. pose proof (reachable_sys_ok (H := repository_inbox) cfg qc st s Hst Hs) as Hok.
  destruct (sy_kept (H := repository_inbox) _ Hok e He) as [Hin|[?|[(g & Hg & Hk)|?]]]; [|by auto| |by auto 6].
  - unfold admitted in Hin. apply elem_of_app in Hin as [?|Hin]; [by left|right; left].
    by rewrite (co_reserved _ (sy_ctl (H := repository_inbox) _ Hok)) in Hin.
  - do 3 right. left. exists g. split_and!; [done..|]. by apply (sy_inbox (H := repository_inbox) _ Hok).
Qed.

(** The controller never stalls: while it accepts and something is queued, a
    flush is scheduled or running; and never both. *)
Theorem controller_never_stalls cfg qc st s :
  store_ok st →
  rtc relay_step (init cfg qc st) s →
  (accepting (ctl s) = true → 0 < size (queue (ctl s)) →
   is_Some (timer (ctl s)) ∨ is_Some (flushing (ctl s)))
  ∧ ¬ (is_Some (timer (ctl s)) ∧ is_Some (flushing (ctl s))).
Proof.
  intros Hst Hs. pose proof (reachable_sys_ok (H := repository_inbox) cfg qc st s Hst Hs) as Hok.
  destruct (sy_ctl (H := repository_inbox) _ Hok) as [_ _ A O _]. split; [exact A|].
  intros [[t Ht] Hf]. by rewrite (O Hf) in Ht.
Qed.

(** A stopped controller is closed: whatever happens afterwards, it accepts no
    further event, and once the deadline of its shutdown has passed it sends no
    further acknowledgement, even for batches that commit later. *)
Theorem stopped_controller_silent cfg qc st s s' :
  store_ok st →
  rtc relay_step (init cfg qc st) s →
  rtc relay_step s s' →
  (accepting (ctl s) = false → accepted s' = accepted s)
  ∧ (stopDeadlineExceeded (ctl s) = true → acks s' = acks s).
Proof.
  intros Hst Hs Hr. pose proof (reachable_sys_ok (H := repository_inbox) cfg qc st s Hst Hs) as Hok.
  destruct (sys_steps_flags (H := repository_inbox) s s' Hok Hr) as [A B].
  split; intros Hfl; [apply (A Hfl)|apply (B Hfl)].
Qed.

(** ** Witnesses *)

Definition fresh_store : Store :=
  new_store {| tables := empty_db; outbox := []; outbox_id_seq := 1 |}.

Lemma fresh_store_ok : store_ok fresh_store.
Proof.
  split; [apply empty_db_ok| |intros k x Hx; right; right|intros g Hg; by apply not_elem_of_nil in Hg].
  - split; [apply NoDup_nil_2|]. intros r Hr. by apply not_elem_of_nil in Hr.
  - unfold ack_of in Hx. simpl in Hx. rewrite lookup_empty in Hx. unfold reported. simpl. by rewrite lookup_empty.
Qed.

Definition sample_conn : IngressConnection := {|
  conn_daemonId := "d"; conn_registrationId := "reg"; conn_userId := Some 7;
  conn_daemonGeneration := 1 |}.

Definition sample_payload : jsval :=
  JObj [("type", JStr "agent_text"); ("seq", JNum 1); ("session_id", JStr "s")]%string.

Definition sample_init : System Store :=
  init (controller_config None None) default_config fresh_store.

Definition sample_accept : Controller * AcceptResult :=
  accept (ctl sample_init) 1 sample_conn sample_payload (JObj []) None 3.

Definition sample_envelope : IngressEnvelope :=
  envelope 1 sample_conn sample_payload (JObj []) None 3 1.

Definition sys1 : System Store := {|
  ctl := fst sample_accept; inbox := fresh_store; accepted := [sample_envelope]; acks := [] |}.

Definition sys2 : System Store := with_ctl sys1 (timer_fires (ctl sys1)).

Definition sys2_persist : DB * outcome (jsmap string AckCheckpoint) :=
  persistBatch 4 no_faults [sample_envelope] empty_db.

Definition sys3 : System Store := {|
  ctl := set_flushing (ctl sys2) (Some (Answered [sample_envelope] (snd sys2_persist)));
  inbox := with_tables fresh_store (fst sys2_persist); accepted := [sample_envelope]; acks := [] |}.

Definition sys3_resume : Controller * list Effect :=
  resume (ctl sys3) [sample_envelope] (snd sys2_persist) None.

Definition sample_ack : AckCheckpoint :=
  {| ack_daemonId := "d"; ack_daemonGeneration := 1; ackSeq := 1 |}.

Definition sys4 : System Store := {|
  ctl := fst sys3_resume; inbox := inbox sys3; accepted := accepted sys3;
  acks := acks sys3 ++ acks_of (snd sys3_resume) |}.

Lemma sample_step1 : relay_step sample_init sys1.
Proof.
  eapply (sys_accept (H := repository_inbox) sample_init 1 sample_conn sample_payload
            (JObj []) None 3 (fst sample_accept) (snd sample_accept)).
  - done.
  - apply not_elem_of_nil.
  - vm_compute. reflexivity.
Qed.

Lemma sample_step2 : relay_step sys1 sys2.
Proof. apply (sys_timer (H := repository_inbox) sys1 5). vm_compute. reflexivity. Qed.

Lemma sample_step3 : relay_step sys2 sys3.
Proof.
  apply (sys_persist (H := repository_inbox) sys2 [sample_envelope] (snd sys2_persist)
           (with_tables fresh_store (fst sys2_persist))).
  - vm_compute. reflexivity.
  - exists 4, no_faults, (fst sys2_persist). split; [|done]. vm_compute. reflexivity.
Qed.

Lemma sample_step4 : relay_step sys3 sys4.
Proof.
  apply (sys_resume (H := repository_inbox) sys3 [sample_envelope] (snd sys2_persist) None
           (fst sys3_resume) (snd sys3_resume)).
  - reflexivity.
  - unfold sys3_resume. by destruct (resume _ _ _ _).
Qed.

Lemma sample_steps : rtc relay_step sample_init sys4.
Proof.
  eapply rtc_l; [apply sample_step1|]. eapply rtc_l; [apply sample_step2|].
  eapply rtc_l; [apply sample_step3|]. apply rtc_once. apply sample_step4.
Qed.

(** A worker completes the row; six hours later retention removes it, and its
    receipt with it. *)
Definition sample_completed : list InboxRow :=
  map (settle_row 2 4 (Some 10) None None) (event_inbox (st_tables (inbox sys4))).

Definition store5 : Store := {|
  st_db := {| tables := with_inbox (st_tables (inbox sys4)) sample_completed; outbox := []; outbox_id_seq := 1 |};
  st_gone := st_gone (inbox sys4); st_reported := st_reported (inbox sys4) |}.

Definition no_accounting : TokenAccounting := {| baseline_completed := None; sealed_days := [] |}.

Definition sample_retention : OutboxDb * outcome RetentionStats :=
  run_retention (retention_ms + 11) no_accounting [] [] CommitOk (st_db store5).

Definition store6 : Store := with_removal store5 (Retired (retention_ms + 11)) (fst sample_retention).

Definition with_store (s : System Store) (st : Store) : System Store :=
  {| ctl := ctl s; inbox := st; accepted := accepted s; acks := acks s |}.

Lemma relay_other s st : store_step (inbox s) st → relay_step s (with_store s st).
Proof. apply (sys_other (H := repository_inbox)). Qed.

Lemma sample_completes : store_step (inbox sys4) store5.
Proof.
  unfold store5, sample_completed. apply ss_rows, map_changes. intros r. apply settle_changes. auto.
Qed.

Lemma sample_expires : store_step store5 store6.
Proof.
  unfold store6. eapply ss_retention. unfold sample_retention. apply surjective_pairing.
Qed.

Lemma with_store_twice s st st' : with_store (with_store s st) st' = with_store s st'.
Proof. reflexivity. Qed.

Lemma sample_retired : rtc relay_step sample_init (with_store sys4 store6).
Proof.
  rewrite <- (with_store_twice sys4 store5 store6).
  eapply rtc_r; [eapply rtc_r; [apply sample_steps|exact (relay_other _ _ sample_completes)]|].
  exact (relay_other (with_store sys4 store5) _ sample_expires).
Qed.

Lemma acked_events_durable_witness :
  acks sys4 = [sample_ack] ∧ receipt_at (st_tables store6) "d" 1 1 = false
  ∧ ∃ g, g ∈ st_gone store6 ∧ gone_at g ("d"%string, 1) 1 ∧ gone_ok g.
Proof.
  assert (Hr : receipt_at (st_tables store6) "d" 1 1 = false) by (vm_compute; reflexivity).
  split; [vm_compute; reflexivity|]. split; [exact Hr|].
  destruct (acked_events_durable (controller_config None None) default_config fresh_store (with_store sys4 store6)
              sample_ack 1 fresh_store_ok sample_retired) as [H|[H|H]].
  - vm_compute. left.
  - vm_compute. split; congruence.
  - exact (False_ind _ (diff_false_true (eq_trans (eq_sym Hr) H))).
  - exact H.
  - vm_compute in H. by destruct H.
Defined.

Lemma accepted_never_lost_witness :
  sample_envelope ∈ queued (queue (ctl sys4)) ∨ sample_envelope ∈ inflight (ctl sys4)
  ∨ receipt_at (st_tables (inbox sys4)) "d" 1 1 = true
  ∨ (∃ g, g ∈ st_gone (inbox sys4) ∧ gone_at g ("d"%string, 1) 1 ∧ gone_ok g)
  ∨ 1 ≤ reported (inbox sys4) ("d"%string, 1).
Proof.
  apply (accepted_never_lost (controller_config None None) default_config fresh_store sys4
           sample_envelope fresh_store_ok sample_steps).
  left.
Defined.

Lemma controller_never_stalls_witness :
  accepting (ctl sys1) = true ∧ 0 < size (queue (ctl sys1)) ∧
  (is_Some (timer (ctl sys1)) ∨ is_Some (flushing (ctl sys1))).
Proof.
  assert (Ha : accepting (ctl sys1) = true) by (vm_compute; reflexivity).
  assert (Hs : 0 < size (queue (ctl sys1))) by (vm_compute; reflexivity).
  split; [exact Ha|]. split; [exact Hs|].
  exact (proj1 (controller_never_stalls (controller_config None None) default_config fresh_store
    sys1 fresh_store_ok (rtc_once _ _ sample_step1)) Ha Hs).
Defined.

Definition sys5 : System Store := with_ctl sys4 (stop (ctl sys4)).

Definition late_accept : Controller * AcceptResult :=
  accept (ctl sys5) 2 sample_conn sample_payload (JObj []) None 9.

Definition sys6 : System Store := {|
  ctl := fst late_accept; inbox := inbox sys5;
  accepted := accepted_by 2 sample_conn sample_payload (JObj []) None 9 (snd late_accept)
              ++ accepted sys5;
  acks := acks sys5 |}.

Lemma sample_stopped : rtc relay_step sample_init sys5.
Proof.
  etransitivity; [apply sample_steps|]. apply rtc_once.
  apply (sys_stop (H := repository_inbox)).
Qed.

Lemma sample_late : relay_step sys5 sys6.
Proof.
  apply (sys_accept (H := repository_inbox) sys5 2 sample_conn sample_payload
           (JObj []) None 9 (fst late_accept) (snd late_accept)).
  - done.
  - vm_compute. intros Hin. apply elem_of_cons in Hin as [Hin|Hin]; [done|by apply elem_of_nil in Hin].
  - unfold late_accept. by destruct (accept _ _ _ _ _ _ _).
Qed.

Lemma stopped_controller_silent_witness :
  accepting (ctl sys5) = false ∧ accepted sys6 = accepted sys5.
Proof.
  assert (Ha : accepting (ctl sys5) = false) by (vm_compute; reflexivity).
  split; [exact Ha|].
  exact (proj1 (stopped_controller_silent (controller_config None None) default_config
    fresh_store sys5 sys6 fresh_store_ok sample_stopped (rtc_once _ _ sample_late)) Ha).
Defined.
