(* ===== verification/InboxWorker.v ===== *)
(** * InboxWorker: the materialisation worker (relay/src/inbox-worker.ts).

    The worker claims rows, materialises each one and settles its claim.  The
    materialisers are dependencies of the worker: their outcome on a row is an
    input of [processRow].  A thrown value is a [LostClaimError] or any other
    value, of which the code reads [name] and [code]; a database error carries
    its SQLSTATE as [code].  A run of [processClaimedBatch] is driven by a script
    that gives, per row, the heartbeats that fire before it. *)

From Stdlib Require Import QArith Qround.
From S2P Require Import Prelude JsValue JsMap EventPolicy InboxRepository.

#[local] Open Scope Z_scope.

Definition MAX_ATTEMPTS : Z := 12.
Definition STALE_CLAIM_LEASE_MS : Z := 300000.
Definition STALE_CLAIM_SWEEP_LIMIT : Z := 1000.
Definition STALE_CLAIM_SWEEP_INTERVAL_MS : Z := 60000.
Definition CLAIM_HEARTBEAT_INTERVAL_MS : Z := 100000.
Definition DEFAULT_DRAIN_PASSES : Z := 32.

(** ** Errors *)

(** [None] is a property the thrown value does not have. *)
Inductive Thrown : Type :=
| Lost
| Failed (name code : option string).

Definition errorName (e : Thrown) : string :=
  match e with
  | Lost => "LostClaimError"
  | Failed name _ => default EmptyString name
  end.

Definition errorCode (e : Thrown) : string :=
  match e with
  | Lost => EmptyString
  | Failed _ code => default EmptyString code
  end.

Definition ownership_codes : list string :=
  ["session_ownership_violation"; "unknown_daemon_session"; "quota_reservation_binding_mismatch"]%string.

Definition safeMaterializationError (e : Thrown) : string :=
  let name := errorName e in
  let code := errorCode e in
  let named n := bool_decide (name = n%string) in
  if named "SchemaValidationError" then "schema_validation"
  else if named "OwnershipError" then "ownership_mismatch"
  else if named "MaterializationContextError" then "materialization_context_missing"
  else if named "EphemeralMaterializationError" then "ephemeral_event_rejected"
  else if named "ExtensionJournalOwnerMissingError" then "extension_journal_owner_missing"
  else if named "ClientEventOwnershipError" then "client_event_ownership_mismatch"
  else if named "SessionDocumentProtocolError" || named "SessionDocumentIntegrityError"
  then "document_integrity"
  else if named "SessionDocumentNotFoundError" then "document_session_not_found"
  else if named "SessionDocumentExpiredError" then "document_upload_expired"
  else if named "SessionDocumentMaterializerUnavailableError" then "document_materializer_unavailable"
  else if bool_decide (code ∈ ownership_codes) then code
  else if starts_with code "08" || starts_with code "53" || bool_decide (code = "57P01")
          || bool_decide (code = "57P03")
  then "database_unavailable"
  else "materialization_failed".

Definition permanent_names : list string :=
  ["ExtensionJournalOwnerMissingError"; "ClientEventOwnershipError";
   "SessionDocumentProtocolError"; "SessionDocumentIntegrityError";
   "SessionDocumentNotFoundError"; "SessionDocumentExpiredError";
   "SessionDocumentMaterializerUnavailableError"]%string.

Definition isPermanentMaterializationError (e : Thrown) : bool :=
  bool_decide (errorCode e ∈ ownership_codes) || bool_decide (errorName e ∈ permanent_names).

(** [random] is the value [random()] returned. *)
Definition retryDelayMs (attempts : Z) (random : Q) : Z :=
  let base := Z.min 60000 (250 * 2 ^ Z.min (Z.max 0 attempts) 8) in
  let r := if Qle_bool (999999 # 1000000) random then (999999 # 1000000)%Q else random in
  let r := if Qle_bool r 0 then 0%Q else r in
  base + Qfloor (r * inject_Z 250).

(** ** One row *)

Definition SESSION_DOCUMENT_EVENT_TYPES : list string :=
  ["session_document_begin"; "session_document_chunk"; "session_document_commit"]%string.

Definition isSessionDocumentArtifactEvent (eventType : string) : bool :=
  bool_decide (eventType ∈ SESSION_DOCUMENT_EVENT_TYPES).

(** A materialiser: the event it made of a row, or what it threw. *)
Definition Materializer : Type := InboxRow → Thrown + option Z.

(** The value a repository call throws, as the worker sees it. *)
Definition thrown_of (m : string) : Thrown :=
  if bool_decide (m = LostClaimError) then Lost else Failed (Some "error"%string) (Some m).

Record WorkerDeps : Type := {
  materializer : Materializer;
  artifactMaterializer : option Materializer;
  dep_workerId : string;
  dep_shardCount : Z;
  dep_shardIndex : Z;
  batchSize_opt : option Z;
  pollIntervalMs_opt : option Z;
  maxDrainPasses_opt : option Z;
  heartbeatIntervalMs_opt : option Z;
}.

Definition batchSize (deps : WorkerDeps) : Z := Z.max 1 (default 32 (batchSize_opt deps)).
Definition pollIntervalMs (deps : WorkerDeps) : Z := Z.max 1 (default 50 (pollIntervalMs_opt deps)).
Definition maxDrainPasses (deps : WorkerDeps) : Z :=
  Z.max 1 (default DEFAULT_DRAIN_PASSES (maxDrainPasses_opt deps)).
Definition heartbeatIntervalMs (deps : WorkerDeps) : Z :=
  Z.min CLAIM_HEARTBEAT_INTERVAL_MS
    (Z.max 1 (default CLAIM_HEARTBEAT_INTERVAL_MS (heartbeatIntervalMs_opt deps))).

(** [onDeadLetter(row, errorCode, releaseBlocker)]. *)
Record DeadLetterNotice : Type := {
  dl_row : InboxRow;
  dl_error : string;
  dl_releaseBlocker : bool;
}.

(** What the environment contributes to one call of [processRow]: the clock,
    the random value, and the faults of its statements in order. *)
Record RowRun : Type := {
  run_now : Z;
  run_random : Q;
  complete_faults : nat → option Fault;
  settle_faults : nat → option Fault;
}.

(** The [try] block: the claim is asserted, the row materialised and completed. *)
Definition tryRow (deps : WorkerDeps) (run : RowRun) (owned : bool) (row : InboxRow) (d : DB)
    : DB * (Thrown + unit) :=
  if negb owned then (d, inl Lost)
  else
    let m := if isSessionDocumentArtifactEvent (row_eventType row)
             then artifactMaterializer deps else Some (materializer deps) in
    match m with
    | None => (d, inl (Failed (Some "SessionDocumentMaterializerUnavailableError"%string) None))
    | Some m =>
        match m row with
        | inl e => (d, inl e)
        | inr eventId =>
            match complete (run_now run) (complete_faults run) (inboxId row) eventId
                    (dep_workerId deps) (attempts row) d with
            | (d, Returns _) => (d, inr tt)
            | (d, Throws e) => (d, inl (thrown_of e))
            end
        end
    end.

(** A settlement whose lost claim is not an error; [inr] is the normal return. *)
Definition settled (x : DB * outcome unit) : DB * (Thrown + bool) :=
  match x with
  | (d, Returns _) => (d, inr true)
  | (d, Throws e) => (d, match thrown_of e with Lost => inr false | e => inl e end)
  end.

Definition processRow (deps : WorkerDeps) (run : RowRun) (owned : bool) (row : InboxRow) (d : DB)
    : DB * list DeadLetterNotice * (Thrown + unit) :=
  match tryRow deps run owned row d with
  | (d, inr _) => (d, [], inr tt)
  | (d, inl Lost) => (d, [], inr tt)
  | (d, inl error) =>
      let errorCode := safeMaterializationError error in
      if isPermanentMaterializationError error || (MAX_ATTEMPTS <=? attempts row) then
        match settled (deadLetter (run_now run) (settle_faults run) (inboxId row) (attempts row)
                         errorCode (dep_workerId deps) d) with
        | (d, inl e) => (d, [], inl e)
        | (d, inr false) => (d, [], inr tt)
        | (d, inr true) =>
            (d, [{| dl_row := row; dl_error := errorCode;
                    dl_releaseBlocker := priorityClass row =? 0 |}], inr tt)
        end
      else
        let availableAt := run_now run + retryDelayMs (attempts row) (run_random run) in
        match settled (reschedule (settle_faults run) (inboxId row) (attempts row) availableAt
                         errorCode (dep_workerId deps) d) with
        | (d, inl e) => (d, [], inl e)
        | (d, inr _) => (d, [], inr tt)
        end
  end.

(** ** A claimed batch *)

Record ActiveClaim : Type := { fence : ClaimFence; owned : bool }.

Definition activeClaims (rows : list InboxRow) : jsmap Z ActiveClaim :=
  map_of inboxId (λ row, {| fence := {| fence_inboxId := inboxId row; fence_attempts := attempts row |};
                            owned := true |}) rows.

Definition disown (c : ActiveClaim) : ActiveClaim := {| fence := fence c; owned := false |}.

(** The callback of the heartbeat timer with the continuation of [renewClaims]. *)
Definition heartbeat (deps : WorkerDeps) (now : Z) (faults : nat → option Fault)
    (claims : jsmap Z ActiveClaim) (d : DB) : DB * jsmap Z ActiveClaim :=
  let fences := fence <$> bfilter owned claims.*2 in
  match fences with
  | [] => (d, claims)
  | _ =>
      match renewClaims now faults fences (dep_workerId deps) d with
      | (d, Returns renewed) =>
          (d, prod_map id (λ c, if owned c && negb (bool_decide (fence_inboxId (fence c) ∈ renewed))
                                then disown c else c) <$> claims)
      | (d, Throws _) => (d, prod_map id disown <$> claims)
      end
  end.

Fixpoint heartbeats (deps : WorkerDeps) (beats : list (Z * (nat → option Fault)))
    (claims : jsmap Z ActiveClaim) (d : DB) : DB * jsmap Z ActiveClaim :=
  match beats with
  | [] => (d, claims)
  | (now, faults) :: rest =>
      let '(d, claims) := heartbeat deps now faults claims d in
      heartbeats deps rest claims d
  end.

(** The step of a script for one row: the heartbeats that fire first, then the
    run of the row. *)
Record RowScript : Type := {
  beats : list (Z * (nat → option Fault));
  row_run : RowRun;
}.

(** The serial loop over the rows; a thrown error ends it.  [script n] is for the
    row that has [n] rows behind it. *)
Fixpoint process_rows (deps : WorkerDeps) (rows : list InboxRow) (script : nat → RowScript)
    (claims : jsmap Z ActiveClaim) (d : DB) : DB * list DeadLetterNotice * (Thrown + unit) :=
  match rows with
  | [] => (d, [], inr tt)
  | row :: rows =>
      let s := script (length rows) in
      let '(d, claims) := heartbeats deps (beats s) claims d in
      let is_owned := match map_get claims (inboxId row) with Some c => owned c | None => false end in
      match processRow deps (row_run s) is_owned row d with
      | (d, notices, inl e) => (d, notices, inl e)
      | (d, notices, inr _) =>
          let '(d, more, r) := process_rows deps rows script (map_delete claims (inboxId row)) d in
          (d, notices ++ more, r)
      end
  end.

Section batches.
Context (hashtext : string → Z) (deps : WorkerDeps).

Record BatchScript : Type := {
  claim_now : Z;
  claim_faults : nat → option Fault;
  claim_locked : list Z;
  row_scripts : nat → RowScript;
}.

Definition claim_options : ClaimBatchOptions := {|
  workerId := dep_workerId deps; claimLimit := batchSize deps;
  shardCount := dep_shardCount deps; shardIndex := dep_shardIndex deps |}.

(** The number of rows claimed, or the error thrown. *)
Definition processClaimedBatch (b : BatchScript) (d : DB)
    : DB * list DeadLetterNotice * (Thrown + Z) :=
  match claimBatch hashtext (claim_now b) (claim_faults b) (claim_locked b) claim_options d with
  | (d, Throws e) => (d, [], inl (thrown_of e))
  | (d, Returns rows) =>
      match process_rows deps rows (row_scripts b) (activeClaims rows) d with
      | (d, notices, inl e) => (d, notices, inl e)
      | (d, notices, inr _) => (d, notices, inr (len rows))
      end
  end.

(** The [for] loop: [passes] remain, [productive] were not empty. *)
Fixpoint drain_passes (passes : nat) (productive : Z) (scripts : nat → BatchScript) (d : DB)
    : DB * list DeadLetterNotice * (Thrown + Z) :=
  match passes with
  | O => (d, [], inr productive)
  | S passes' =>
      match processClaimedBatch (scripts passes') d with
      | (d, notices, inl e) => (d, notices, inl e)
      | (d, notices, inr claimed) =>
          if claimed =? 0 then (d, notices, inr productive)
          else
            let '(d, more, r) := drain_passes passes' (productive + 1) scripts d in
            (d, notices ++ more, r)
      end
  end.

Definition drainClaimedBatches (scripts : nat → BatchScript) (d : DB)
    : DB * list DeadLetterNotice * (Thrown + bool) :=
  match drain_passes (Z.to_nat (maxDrainPasses deps)) 0 scripts d with
  | (d, notices, inl e) => (d, notices, inl e)
  | (d, notices, inr productive) => (d, notices, inr (productive =? maxDrainPasses deps))
  end.

(** ** The polling loop *)

(** [lastRecoveryAt] starts at minus infinity, [None].  A run is one step here:
    [activeRun] only makes a second caller wait for it. *)
Record WorkerState : Type := {
  w_timer : option Z;
  stopped : bool;
  lastRecoveryAt : option Z;
  shouldContinueImmediately : bool;
}.

Definition new_worker : WorkerState := {|
  w_timer := None; stopped := true; lastRecoveryAt := None;
  shouldContinueImmediately := false |}.

Definition recovery_due (w : WorkerState) (now : Z) : bool :=
  match lastRecoveryAt w with
  | None => true
  | Some t => STALE_CLAIM_SWEEP_INTERVAL_MS <=? now - t
  end.

Definition maybeResetStaleClaims (w : WorkerState) (now : Z) (faults : nat → option Fault)
    (locked : list Z) (d : DB) : WorkerState * DB * (Thrown + unit) :=
  if negb (recovery_due w now) then (w, d, inr tt)
  else
    let w := {| w_timer := w_timer w; stopped := stopped w;
                lastRecoveryAt := Some now;
                shouldContinueImmediately := shouldContinueImmediately w |} in
    match resetStaleClaims now faults locked STALE_CLAIM_LEASE_MS STALE_CLAIM_SWEEP_LIMIT d with
    | (d, Returns _) => (w, d, inr tt)
    | (d, Throws e) => (w, d, inl (thrown_of e))
    end.

Definition w_schedule (w : WorkerState) (delay : Z) : WorkerState :=
  if stopped w then w
  else {| w_timer := Some delay; stopped := stopped w;
          lastRecoveryAt := lastRecoveryAt w;
          shouldContinueImmediately := shouldContinueImmediately w |}.

Definition w_start (w : WorkerState) : WorkerState :=
  if negb (stopped w) then w
  else w_schedule {| w_timer := w_timer w; stopped := false;
                     lastRecoveryAt := lastRecoveryAt w;
                     shouldContinueImmediately := shouldContinueImmediately w |} 0.

Definition w_stop (w : WorkerState) : WorkerState := {|
  w_timer := None; stopped := true;
  lastRecoveryAt := lastRecoveryAt w;
  shouldContinueImmediately := shouldContinueImmediately w |}.

(** The body of [runOnce] from its first statement to its end. *)
Definition runOnce (w : WorkerState) (now : Z) (faults : nat → option Fault) (locked : list Z)
    (scripts : nat → BatchScript) (d : DB)
    : WorkerState * DB * list DeadLetterNotice * (Thrown + unit) :=
  let set_continue w b := {| w_timer := w_timer w; stopped := stopped w;
                             lastRecoveryAt := lastRecoveryAt w; shouldContinueImmediately := b |} in
  let w := set_continue w false in
  match maybeResetStaleClaims w now faults locked d with
  | (w, d, inl e) => (w, d, [], inl e)
  | (w, d, inr _) =>
      match drainClaimedBatches scripts d with
      | (d, notices, inl e) => (w, d, notices, inl e)
      | (d, notices, inr more) => (set_continue w more, d, notices, inr tt)
      end
  end.

(** The continuation of a timed run: [random] delays a retry after an error. *)
Definition next_delay (w : WorkerState) (r : Thrown + unit) (random : Q) : Z :=
  match r with
  | inr _ => if shouldContinueImmediately w then 0 else pollIntervalMs deps
  | inl _ => Qfloor (random * inject_Z (pollIntervalMs deps))
  end.
End batches.
