(* ===== verification/InboxWorkerSpec.v ===== *)
(** * InboxWorkerSpec: what the worker guarantees for the rows it claims. *)

From Stdlib Require Import QArith Qround.
From S2P Require Import Prelude JsValue JsMap EventPolicy InboxRepository InboxFacts DurableInbox InboxPersist InboxClaims InboxWorker.

#[local] Open Scope Z_scope.

(** ** Retry delays *)

Definition retry_base (attempts : Z) : Z := Z.min 60000 (250 * 2 ^ Z.min (Z.max 0 attempts) 8).

Lemma retry_base_bounds a : 250 ≤ retry_base a ≤ 60000.
Proof.
  unfold retry_base. assert (0 ≤ Z.min (Z.max 0 a) 8) by lia.
  assert (1 ≤ 2 ^ Z.min (Z.max 0 a) 8) by (apply (Z.pow_le_mono_r 2 0); lia). lia.
Qed.

Lemma retry_base_mono a b : a ≤ b → retry_base a ≤ retry_base b.
Proof.
  intros H. unfold retry_base.
  assert (2 ^ Z.min (Z.max 0 a) 8 ≤ 2 ^ Z.min (Z.max 0 b) 8) by (apply Z.pow_le_mono_r; lia). lia.
Qed.

(** The jitter is between 0 and 249. *)
Lemma retry_jitter random :
  ∃ j, 0 ≤ j ≤ 249 ∧ ∀ a, retryDelayMs a random = retry_base a + j.
Proof.
  unfold retryDelayMs. set (r := if Qle_bool _ random then _ else _).
  assert (Hr : (r <= 999999 # 1000000)%Q).
  { unfold r. destruct (Qle_bool (999999 # 1000000) random) eqn:E; [apply Qle_refl|].
    apply Qlt_le_weak, Qnot_le_lt. rewrite <- Qle_bool_iff. congruence. }
  set (r' := if Qle_bool r 0 then _ else r). exists (Qfloor (r' * inject_Z 250)). split; [|done].
  assert (Hr' : (0 <= r' <= 999999 # 1000000)%Q).
  { unfold r'. destruct (Qle_bool r 0) eqn:E; [split; done|]. split; [|done].
    apply Qlt_le_weak, Qnot_le_lt. rewrite <- Qle_bool_iff. congruence. }
  destruct Hr' as [H0 H1]. split.
  - change 0 with (Qfloor (inject_Z 0)). apply Qfloor_resp_le.
    apply (Qmult_le_0_compat r' (inject_Z 250)); [done|done].
  - change 249 with (Qfloor ((999999 # 1000000) * inject_Z 250)). apply Qfloor_resp_le.
    apply Qmult_le_compat_r; [done|done].
Qed.

(** ** Settlements without faults *)

Section settle.
Context (f0 : nat → option Fault) (Hf0 : f0 0%nat = None).

(** No row satisfies the fence. *)
Definition free (d : DB) (id : Z) (w : string) (n : Z) : Prop :=
  ∀ r, r ∈ event_inbox d → holds_claim id w n r = false.

(** A change of rows that grants no claim. *)
Definition grants_nothing (d d' : DB) : Prop :=
  ∀ id w n, free d id w n → free d' id w n.

Lemma grants_trans d1 d2 d3 : grants_nothing d1 d2 → grants_nothing d2 d3 → grants_nothing d1 d3.
Proof. intros H1 H2 id w n H. auto. Qed.

Lemma update_grants p f d :
  (∀ r id w n, holds_claim id w n (f r) = true → holds_claim id w n r = true) →
  grants_nothing d (with_inbox d (update_where p f (event_inbox d))).
Proof.
  intros Hf id w n Hfree r' Hr'. cbn [with_inbox event_inbox] in Hr'. unfold update_where in Hr'.
  apply list_elem_of_In, in_map_iff in Hr' as (r & <- & Hr). apply list_elem_of_In in Hr.
  destruct (p r); [|auto]. apply not_true_iff_false. intros H%Hf. rewrite (Hfree r Hr) in H. done.
Qed.

Lemma settle_grants st av co ma er r id w n :
  st ≠ 1 → holds_claim id w n (settle_row st av co ma er r) = true → holds_claim id w n r = true.
Proof. intros Hst H. unfold holds_claim in H. cbn [settle_row status] in H. bool_hyps. done. Qed.

(** Without a fault a fenced update grants nothing, and frees the fence. *)
Lemma fenced_effect id w n f d d' r :
  (∀ r, ∃ st av co ma er, f r = settle_row st av co ma er r ∧ st ≠ 1) →
  fenced_update f0 id w n f d = (d', r) →
  grants_nothing d d' ∧ free d' id w n
  ∧ (r = Returns tt ∨ r = Throws LostClaimError).
Proof using Hf0.
  intros Hf H. unfold fenced_update, pool_query in H. rewrite Hf0 in H. injection H as <- <-.
  split_and!.
  - apply update_grants. intros x id' w' n'. destruct (Hf x) as (st & av & co & ma & er & -> & Hst).
    by apply settle_grants.
  - intros r' Hr'. cbn [with_inbox event_inbox] in Hr'. unfold update_where in Hr'.
    apply list_elem_of_In, in_map_iff in Hr' as (x & <- & _).
    destruct (holds_claim id w n x) eqn:E; [|done].
    destruct (Hf x) as (st & av & co & ma & er & -> & Hst). unfold holds_claim. cbn [settle_row status].
    destruct (Z.eqb_spec st 1); [done|]. by rewrite andb_false_r.
  - destruct (_ =? 1); auto.
Qed.
End settle.

Lemma thrown_lost : thrown_of LostClaimError = Lost.
Proof. unfold thrown_of. by rewrite bool_decide_true. Qed.

(** ** One row *)

(** The outcome of materialising a row. *)
Definition materialize (deps : WorkerDeps) (row : InboxRow) : Thrown + option Z :=
  match (if isSessionDocumentArtifactEvent (row_eventType row)
         then artifactMaterializer deps else Some (materializer deps)) with
  | None => inl (Failed (Some "SessionDocumentMaterializerUnavailableError"%string) None)
  | Some m => m row
  end.

Definition no_run_faults (run : RowRun) : Prop :=
  complete_faults run 0%nat = None ∧ settle_faults run 0%nat = None.

Lemma tryRow_eq deps run row d :
  tryRow deps run true row d =
  match materialize deps row with
  | inl e => (d, inl e)
  | inr ev =>
      match complete (run_now run) (complete_faults run) (inboxId row) ev
              (dep_workerId deps) (attempts row) d with
      | (d, Returns _) => (d, inr tt)
      | (d, Throws e) => (d, inl (thrown_of e))
      end
  end.
Proof.
  unfold tryRow, materialize. cbn [negb].
  destruct (isSessionDocumentArtifactEvent _); [|done]. by destruct (artifactMaterializer deps).
Qed.

(** Processing an owned row without faults returns, frees its claim and grants
    none, unless the materialiser found the claim lost. *)
Lemma processRow_frees deps run row d d' notices r :
  no_run_faults run → materialize deps row ≠ inl Lost →
  processRow deps run true row d = (d', notices, r) →
  r = inr tt ∧ grants_nothing d d' ∧ free d' (inboxId row) (dep_workerId deps) (attempts row).
Proof.
  intros [Hc Hs] Hm H. unfold processRow in H. rewrite tryRow_eq in H.
  destruct (materialize deps row) as [e|ev].
  - destruct e as [|name code]; [done|]. destruct (_ || _).
    + destruct (deadLetter _ _ _ _ _ _ d) as [d1 r1] eqn:E. unfold deadLetter in E.
      apply (fenced_effect _ Hs) in E as (Hg & Hf & Hr);
        [|intros x; eexists _, _, _, _, _; split; [done|lia]].
      destruct Hr as [-> | ->]; cbn [settled] in H; [|rewrite thrown_lost in H]; by simplify_eq.
    + destruct (reschedule _ _ _ _ _ _ d) as [d1 r1] eqn:E. unfold reschedule in E.
      apply (fenced_effect _ Hs) in E as (Hg & Hf & Hr);
        [|intros x; eexists _, _, _, _, _; split; [done|lia]].
      destruct Hr as [-> | ->]; cbn [settled] in H; [|rewrite thrown_lost in H]; by simplify_eq.
  - destruct (complete _ _ _ _ _ _ d) as [d1 r1] eqn:E. unfold complete in E.
    apply (fenced_effect _ Hc) in E as (Hg & Hf & Hr);
      [|intros x; eexists _, _, _, _, _; split; [done|lia]].
    destruct Hr as [-> | ->]; [|rewrite thrown_lost in H]; by simplify_eq.
Qed.

Lemma processRow_disowned deps run row d :
  processRow deps run false row d = (d, [], inr tt).
Proof. done. Qed.

(** ** Heartbeats *)

(** A claim that is not owned any more holds no row. *)
Definition claims_ok (d : DB) (w : string) (claims : jsmap Z ActiveClaim) : Prop :=
  ∀ k c, (k, c) ∈ claims → owned c = false →
    free d (fence_inboxId (fence c)) w (fence_attempts (fence c)).

Lemma claims_ok_grants d d' w claims :
  grants_nothing d d' → claims_ok d w claims → claims_ok d' w claims.
Proof. intros Hg H k c Hc Ho. apply Hg. by eapply H. Qed.

Lemma renew_holds id w n now r : holds_claim id w n (renew_row now r) = holds_claim id w n r.
Proof. done. Qed.

Lemma heartbeat_ok deps now faults claims d d' claims' :
  faults 0%nat = None → claims_ok d (dep_workerId deps) claims →
  heartbeat deps now faults claims d = (d', claims') →
  grants_nothing d d' ∧ claims_ok d' (dep_workerId deps) claims'
  ∧ claims'.*1 = claims.*1 ∧ (fence <$> claims'.*2) = (fence <$> claims.*2).
Proof.
  intros Hf Hok H. unfold heartbeat in H.
  destruct (fence <$> bfilter owned claims.*2) as [|x l] eqn:Ef.
  { injection H as <- <-. split_and!; auto. by intros id w n. }
  rewrite <- Ef in H. set (fences := fence <$> bfilter owned claims.*2) in *.
  assert (Hne : ∃ y l', fences = y :: l') by (by exists x, l). clear Ef.
  set (p := λ r, existsb (λ c, holds_claim (fence_inboxId c) (dep_workerId deps) (fence_attempts c) r) fences).
  assert (Hren : renewClaims now faults fences (dep_workerId deps) d
    = (with_inbox d (update_where p (renew_row now) (event_inbox d)),
       Returns (inboxId <$> bfilter p (event_inbox d)))).
  { destruct Hne as (y & l' & E). unfold renewClaims, pool_query. rewrite E, Hf. unfold p. by rewrite E. }
  rewrite Hren in H. injection H as <- <-.
  assert (Hg : grants_nothing d (with_inbox d (update_where p (renew_row now) (event_inbox d)))).
  { apply update_grants. intros r id w n. by rewrite renew_holds. }
  split_and!; [done| | |].
  - intros k c ([k0 c0] & [= -> ->] & Hc0)%list_elem_of_fmap Ho.
    destruct (owned c0 && _) eqn:E.
    + bool_hyps. apply Hg. intros r Hr. apply not_true_iff_false. intros Hh.
      match goal with Hn : _ ∉ _ |- _ => apply Hn end.
      apply list_elem_of_fmap. exists r. split.
      { unfold holds_claim in Hh. bool_hyps. done. }
      apply elem_of_bfilter. split; [|done]. apply existsb_exists.
      exists (fence c0). split; [|done]. apply list_elem_of_In. unfold fences.
      apply list_elem_of_fmap_2, elem_of_bfilter. split; [done|].
      apply list_elem_of_fmap. by exists (k0, c0).
    + apply Hg. by apply (Hok k0 c0).
  - rewrite <- list_fmap_compose. apply list_fmap_ext. intros i [k c] _. done.
  - rewrite <- !list_fmap_compose. apply list_fmap_ext. intros i [k c] _. simpl.
    by destruct (owned c && _).
Qed.

Lemma heartbeats_ok deps bs claims d d' claims' :
  (∀ b, b ∈ bs → b.2 0%nat = None) → claims_ok d (dep_workerId deps) claims →
  heartbeats deps bs claims d = (d', claims') →
  grants_nothing d d' ∧ claims_ok d' (dep_workerId deps) claims'
  ∧ claims'.*1 = claims.*1 ∧ (fence <$> claims'.*2) = (fence <$> claims.*2).
Proof.
  revert claims d. induction bs as [|[now faults] bs IH]; intros claims d Hf Hok H; cbn [heartbeats] in H.
  - injection H as <- <-. split_and!; auto. by intros id w n.
  - destruct (heartbeat deps now faults claims d) as [d1 c1] eqn:E.
    apply heartbeat_ok in E as (G1 & K1 & F1 & S1); [|by apply (Hf (now, faults)); left|done].
    apply IH in H as (G2 & K2 & F2 & S2); [|intros b Hb; apply Hf; by right|done].
    split_and!; [by eapply grants_trans|done|congruence..].
Qed.

(** ** A batch *)

Definition row_fence (row : InboxRow) : ClaimFence :=
  {| fence_inboxId := inboxId row; fence_attempts := attempts row |}.

(** The entry of each row carries its fence. *)
Definition tracks (claims : jsmap Z ActiveClaim) (rows : list InboxRow) : Prop :=
  map_ok claims ∧ ∀ row, row ∈ rows → ∃ o, (inboxId row, {| fence := row_fence row; owned := o |}) ∈ claims.

Lemma tracks_same claims claims' rows :
  claims'.*1 = claims.*1 → (fence <$> claims'.*2) = (fence <$> claims.*2) →
  tracks claims rows → tracks claims' rows.
Proof.
  intros Hk Hf [Hok Ht]. split; [unfold map_ok; by rewrite Hk|]. intros row Hr.
  destruct (Ht row Hr) as (o & Hin). apply list_elem_of_lookup_1 in Hin as [i Hi].
  assert (Hlk : (claims'.*1 !! i = Some (inboxId row)) ∧ ((fence <$> claims'.*2) !! i = Some (row_fence row))).
  { rewrite Hk, Hf, !list_lookup_fmap, Hi. done. }
  rewrite !list_lookup_fmap in Hlk. destruct (claims' !! i) as [[k [fc oc]]|] eqn:E; [|by destruct Hlk].
  destruct Hlk as [[= ->] [= ->]]. exists oc. by eapply list_elem_of_lookup_2.
Qed.

Lemma tracks_tail claims row rows :
  NoDup (inboxId <$> row :: rows) → tracks claims (row :: rows) →
  tracks (map_delete claims (inboxId row)) rows.
Proof.
  intros Hnd [Hok Ht]. split; [by apply map_delete_ok|]. intros row' Hr'.
  apply NoDup_cons in Hnd as [Hn _].
  destruct (Ht row') as (o & Hin); [by right|]. exists o.
  apply map_get_Some_elem. rewrite map_get_delete by done. rewrite decide_False.
  - by apply map_get_elem.
  - intros E. apply Hn. rewrite <- E. by apply list_elem_of_fmap_2.
Qed.

Definition script_ok (script : nat → RowScript) : Prop :=
  ∀ n, no_run_faults (row_run (script n)) ∧ ∀ b, b ∈ beats (script n) → b.2 0%nat = None.

Lemma process_rows_free deps rows script claims d d' notices r :
  script_ok script → NoDup (inboxId <$> rows) →
  (∀ row, row ∈ rows → materialize deps row ≠ inl Lost) →
  tracks claims rows → claims_ok d (dep_workerId deps) claims →
  process_rows deps rows script claims d = (d', notices, r) →
  r = inr tt ∧ grants_nothing d d'
  ∧ ∀ row, row ∈ rows → free d' (inboxId row) (dep_workerId deps) (attempts row).
Proof.
  intros Hs. revert claims d d' notices r.
  induction rows as [|row rows IH]; intros claims d d' notices r Hnd Hm Ht Hc H; cbn [process_rows] in H.
  { injection H as <- <- <-. split_and!; [done|by intros id w n|by intros row ?%elem_of_nil]. }
  destruct (Hs (length rows)) as [Hrun Hbeats].
  destruct (heartbeats deps (beats (script (length rows))) claims d) as [d1 claims1] eqn:Eb.
  apply heartbeats_ok in Eb as (G1 & C1 & K1 & F1); [|done..].
  apply (tracks_same _ claims1) in Ht; [|done..].
  assert (Hrow : ∃ o, map_get claims1 (inboxId row) = Some {| fence := row_fence row; owned := o |}).
  { destruct Ht as [Hok Ht]. destruct (Ht row) as (o & Hin); [left|]. exists o. by apply map_get_elem. }
  destruct Hrow as (o & Hget). rewrite Hget in H. cbn [owned] in H.
  destruct (processRow deps (row_run (script (length rows))) o row d1) as [[d2 n2] r2] eqn:Ep.
  assert (Hp : r2 = inr tt ∧ grants_nothing d1 d2
               ∧ free d2 (inboxId row) (dep_workerId deps) (attempts row)).
  { destruct o.
    - eapply processRow_frees; [exact Hrun|apply Hm; left|exact Ep].
    - rewrite processRow_disowned in Ep. injection Ep as <- _ <-. split_and!; [done|by intros id w n|].
      apply map_get_Some_elem in Hget. by apply (C1 _ _ Hget). }
  destruct Hp as (-> & G2 & Hfree).
  destruct (process_rows deps rows script (map_delete claims1 (inboxId row)) d2) as [[d3 n3] r3] eqn:Er.
  injection H as <- _ <-.
  apply IH in Er as (-> & G3 & Hall).
  - split_and!; [done|by eapply grants_trans; [|by eapply grants_trans]|].
    intros row' [->|Hr']%elem_of_cons; [by apply G3|auto].
  - by apply NoDup_cons in Hnd as [].
  - intros row' Hr'. apply Hm. by right.
  - by eapply tracks_tail.
  - intros k c Hin Ho. eapply claims_ok_grants; [exact G2|exact C1| |exact Ho].
    eapply elem_of_sublist; [exact Hin|apply map_delete_sublist].
Qed.

Lemma map_of_get_val {K A B} `{EqDecision K} (key : B → K) (val : B → A) l x :
  NoDup (key <$> l) → x ∈ l → map_get (map_of key val l) (key x) = Some (val x).
Proof.
  intros Hnd Hx. destruct (map_of_get key val l x Hx) as [v Hv]. rewrite Hv. f_equal.
  apply map_get_Some_elem, map_of_elem in Hv as (y & Hy & Hk & ->).
  by rewrite (NoDup_key_eq key l x y).
Qed.

Lemma activeClaims_tracks d w rows :
  NoDup (inboxId <$> rows) → tracks (activeClaims rows) rows ∧ claims_ok d w (activeClaims rows).
Proof.
  intros Hnd. split; [split|].
  - apply map_of_ok.
  - intros row Hr. exists true. apply map_get_Some_elem.
    by apply (map_of_get_val inboxId (λ row, {| fence := row_fence row; owned := true |}) rows row).
  - intros k c (row & _ & _ & ->)%map_of_elem Ho. done.
Qed.

Lemma claimed_ids hashtext now faults locked o d d' rs :
  db_ok d → claimBatch hashtext now faults locked o d = (d', Returns rs) → NoDup (inboxId <$> rs).
Proof.
  intros Hok H. unfold claimBatch in H. destruct (_ =? 0); [injection H as _ <-; constructor|].
  destruct (_ || _); [done|]. unfold pool_query in H. destruct (faults 0%nat); [done|].
  injection H as _ <-. set (l := bfilter _ _). change (map toInboxRow) with (fmap (M := list) toInboxRow).
  rewrite <- list_fmap_compose. change (inboxId ∘ toInboxRow) with inboxId.
  rewrite merge_sort_Permutation.
  change (map (claim_row now (workerId o)) l) with (claim_row now (workerId o) <$> l).
  rewrite <- list_fmap_compose. change (inboxId ∘ claim_row now (workerId o)) with inboxId.
  eapply sublist_NoDup; [apply (ok_ids _ Hok)|]. apply fmap_sublist, bfilter_sublist.
Qed.

(** The fenced update of a held claim. *)
Lemma fenced_hit f0 id w n f d r0 :
  f0 0%nat = None → db_ok d → r0 ∈ event_inbox d → holds_claim id w n r0 = true →
  ∃ d', fenced_update f0 id w n f d = (d', Returns tt)
    ∧ event_inbox d' = (λ x, if inboxId x =? id then f r0 else x) <$> event_inbox d.
Proof.
  intros Hf Hok Hr Hh.
  assert (Hb : len (bfilter (holds_claim id w n) (event_inbox d)) = 1).
  { assert (Hin : r0 ∈ bfilter (holds_claim id w n) (event_inbox d)) by (by apply elem_of_bfilter).
    assert (Hnd : NoDup (inboxId <$> bfilter (holds_claim id w n) (event_inbox d))).
    { eapply sublist_NoDup; [apply (ok_ids _ Hok)|]. apply fmap_sublist, bfilter_sublist. }
    assert (Hall : ∀ x, x ∈ bfilter (holds_claim id w n) (event_inbox d) → inboxId x = id).
    { intros x [Hx _]%elem_of_bfilter. unfold holds_claim in Hx. by bool_hyps. }
    destruct (bfilter (holds_claim id w n) (event_inbox d)) as [|x [|y l]]; [set_solver|done|].
    exfalso. rewrite !fmap_cons in Hnd. apply NoDup_cons in Hnd as [Hn _]. apply Hn.
    rewrite (Hall x), (Hall y); [left|set_solver..]. }
  destruct (fenced_update f0 id w n f d) as [d' r] eqn:E.
  assert (r = Returns tt) as ->.
  { unfold fenced_update, pool_query in E. rewrite Hf, Hb in E. by injection E as _ <-. }
  exists d'. split; [done|].
  destruct (fenced_returns _ _ _ _ _ _ _ Hok E) as (r & Hr' & Hh' & Hrows & _). rewrite Hrows.
  assert (r = r0) as ->; [|done].
  apply (NoDup_key_eq inboxId (event_inbox d)); [apply Hok|done..|].
  unfold holds_claim in Hh, Hh'. bool_hyps. congruence.
Qed.

(** Membership of a constant in a list of constants. *)
Ltac listed := apply (bool_decide_unpack _); vm_compute; exact I.

Ltac case_if_goal := match goal with |- context [if ?b then _ else _] => destruct b end.

(** ** Claims *)

(** Processing a row whose claim the worker holds settles exactly that row:
    completed with the event it materialised to; dead-lettered, with a notice,
    when the error is permanent or the twelfth attempt failed; otherwise pending
    again after the retry delay.  When materialisation found the claim lost,
    nothing changes. *)
Theorem row_settled deps run row d d' notices r r0 :
  db_ok d → no_run_faults run → r0 ∈ event_inbox d →
  holds_claim (inboxId row) (dep_workerId deps) (attempts row) r0 = true →
  processRow deps run true row d = (d', notices, r) →
  let becomes x :=
    event_inbox d' = (λ y, if inboxId y =? inboxId row then x else y) <$> event_inbox d in
  r = inr tt
  ∧ match materialize deps row with
    | inr ev => becomes (settle_row 2 (availableAt r0) (Some (run_now run)) ev None r0) ∧ notices = []
    | inl Lost => d' = d ∧ notices = []
    | inl e =>
        let code := safeMaterializationError e in
        if isPermanentMaterializationError e || (12 <=? attempts row)
        then becomes (settle_row 3 (availableAt r0) (Some (run_now run)) (materializedEventId r0)
                        (Some code) r0)
             ∧ notices = [{| dl_row := row; dl_error := code;
                             dl_releaseBlocker := priorityClass row =? 0 |}]
        else becomes (settle_row 0 (run_now run + retryDelayMs (attempts row) (run_random run)) None
                        (materializedEventId r0) (Some code) r0)
             ∧ notices = []
    end.
Proof.
  intros Hok [Hc Hs] Hr Hh H. unfold processRow in H. rewrite tryRow_eq in H.
  destruct (materialize deps row) as [e|ev].
  - destruct e as [|name code]; [by simplify_eq|]. unfold MAX_ATTEMPTS in H.
    set (err := Failed name code) in *. cbv zeta.
    destruct (isPermanentMaterializationError err || (12 <=? attempts row)).
    + unfold deadLetter in H. destruct (fenced_hit (settle_faults run) _ _ _ (λ r,
        settle_row 3 (availableAt r) (Some (run_now run)) (materializedEventId r)
          (Some (safeMaterializationError err)) r) d r0 Hs Hok Hr Hh) as (d1 & E & Hrows).
      rewrite E in H. cbn [settled] in H. by simplify_eq.
    + unfold reschedule in H. destruct (fenced_hit (settle_faults run) _ _ _ (λ r,
        settle_row 0 (run_now run + retryDelayMs (attempts row) (run_random run)) None
          (materializedEventId r) (Some (safeMaterializationError err)) r) d r0 Hs Hok Hr Hh)
        as (d1 & E & Hrows).
      rewrite E in H. cbn [settled] in H. by simplify_eq.
  - unfold complete in H. destruct (fenced_hit (complete_faults run) _ _ _ (λ r,
      settle_row 2 (availableAt r) (Some (run_now run)) ev None r) d r0 Hc Hok Hr Hh) as (d1 & E & Hrows).
    rewrite E in H. by simplify_eq.
Qed.

(** A worker leaves no claim behind: when a batch runs without statement
    failures, whatever heartbeats fire and whatever the materialisers return,
    the batch returns the number of rows it claimed and afterwards holds the
    claim of none of them. *)
Theorem batch_leaves_no_claim hashtext deps b d d1 rows d' notices r :
  db_ok d → script_ok (row_scripts b) → (∀ row, materialize deps row ≠ inl Lost) →
  claimBatch hashtext (claim_now b) (claim_faults b) (claim_locked b) (claim_options deps) d
    = (d1, Returns rows) →
  processClaimedBatch hashtext deps b d = (d', notices, r) →
  r = inr (len rows)
  ∧ ∀ row, row ∈ rows → free d' (inboxId row) (dep_workerId deps) (attempts row).
Proof.
  intros Hok Hs Hm Hc H. unfold processClaimedBatch in H. rewrite Hc in H.
  pose proof (claimed_ids _ _ _ _ _ _ _ _ Hok Hc) as Hnd.
  destruct (activeClaims_tracks d1 (dep_workerId deps) rows Hnd) as [Ht Hcl].
  destruct (process_rows deps rows (row_scripts b) (activeClaims rows) d1) as [[d2 n2] r2] eqn:E.
  apply process_rows_free in E as (-> & _ & Hall); auto. by simplify_eq.
Qed.

(** Only categories reach the [last_error] column: the text stored for a failed
    row is one of fifteen fixed words, whatever the error's message or code. *)
Theorem error_is_a_category e :
  safeMaterializationError e ∈
    ["schema_validation"; "ownership_mismatch"; "materialization_context_missing";
     "ephemeral_event_rejected"; "extension_journal_owner_missing";
     "client_event_ownership_mismatch"; "document_integrity"; "document_session_not_found";
     "document_upload_expired"; "document_materializer_unavailable";
     "session_ownership_violation"; "unknown_daemon_session"; "quota_reservation_binding_mismatch";
     "database_unavailable"; "materialization_failed"]%string.
Proof.
  unfold safeMaterializationError. cbv zeta.
  destruct (bool_decide (errorCode e ∈ ownership_codes)) eqn:Hc.
  { bool_hyps. unfold ownership_codes in Hc.
    repeat (apply elem_of_cons in Hc as [->|Hc]; [repeat case_if_goal; listed|]).
    by apply elem_of_nil in Hc. }
  repeat case_if_goal; listed.
Qed.

(** The delay before a retry grows with the attempts and stays within a quarter
    of a second and a minute and a quarter second. *)
Theorem retry_delay_bounds a b random :
  250 ≤ retryDelayMs a random ≤ 60249 ∧ (a ≤ b → retryDelayMs a random ≤ retryDelayMs b random).
Proof.
  destruct (retry_jitter random) as (j & Hj & Heq). rewrite !Heq.
  pose proof (retry_base_bounds a). split; [lia|]. intros Hab%retry_base_mono. lia.
Qed.

(** ** Witnesses *)

Definition sample_deps : WorkerDeps := {|
  materializer := λ row, if row_seq row =? 1 then inl (Failed None (Some "08006"%string)) else inr (Some 5);
  artifactMaterializer := None; dep_workerId := "w1"; dep_shardCount := 1; dep_shardIndex := 0;
  batchSize_opt := Some 10; pollIntervalMs_opt := None; maxDrainPasses_opt := None;
  heartbeatIntervalMs_opt := None |}.

Definition sample_row_run : RowRun := {|
  run_now := 30; run_random := 1 # 2; complete_faults := no_faults; settle_faults := no_faults |}.

Definition sample_processed : DB * list DeadLetterNotice * (Thrown + unit) :=
  processRow sample_deps sample_row_run true sample_head sample_claimed.

Lemma row_settled_witness :
  materialize sample_deps sample_head = inl (Failed None (Some "08006"%string))
  ∧ snd sample_processed = inr tt
  ∧ (status <$> event_inbox (fst (fst sample_processed))) = [0; 0]
  ∧ (availableAt <$> event_inbox (fst (fst sample_processed))) = [655; 10].
Proof.
  split; [vm_compute; reflexivity|]. split.
  - refine (proj1 (row_settled sample_deps sample_row_run sample_head sample_claimed
      (fst (fst sample_processed)) (snd (fst sample_processed)) (snd sample_processed) sample_head
      sample_claimed_ok _ _ _ _)).
    + split; reflexivity.
    + vm_compute. left.
    + vm_compute. reflexivity.
    + vm_compute. reflexivity.
  - split; vm_compute; reflexivity.
Defined.

Definition sample_script : BatchScript := {|
  claim_now := 20; claim_faults := no_faults; claim_locked := [];
  row_scripts := λ _, {| beats := [(25, no_faults)]; row_run := sample_row_run |} |}.

Definition sample_batch_run : DB * list DeadLetterNotice * (Thrown + Z) :=
  processClaimedBatch sample_hash sample_deps sample_script sample_persisted.

Lemma batch_leaves_no_claim_witness :
  snd sample_batch_run = inr 1 ∧ free (fst (fst sample_batch_run)) 1 "w1" 1.
Proof.
  destruct (batch_leaves_no_claim sample_hash sample_deps sample_script sample_persisted
    sample_claimed [sample_head] (fst (fst sample_batch_run)) (snd (fst sample_batch_run))
    (snd sample_batch_run) sample_persisted_ok) as [H1 H2].
  - intros n. split; [split; reflexivity|]. intros b Hb. vm_compute in Hb.
    apply elem_of_cons in Hb as [->|Hb]; [reflexivity|by apply elem_of_nil in Hb].
  - intros row. unfold materialize. destruct (isSessionDocumentArtifactEvent _); [done|].
    simpl. by destruct (row_seq row =? 1).
  - apply sample_claim_eq.
  - vm_compute. reflexivity.
  - split; [exact H1|]. apply (H2 sample_head). left.
Defined.
