(* ===== verification/RateLimit.v ===== *)
(** * RateLimit: connection rate limiting and authentication-failure bans
      (relay/src/rate-limit.ts).

    The three maps of [ConnectionRateLimiter] are finite maps from addresses;
    the clock is an argument of each method.  The theorems bound what one
    address gets out of a window, show that a ban holds until it expires, and
    that garbage collection is invisible to the gate. *)

From S2P Require Import Prelude.

#[local] Open Scope Z_scope.

Record RateLimitConfig : Type := {
  burstWindowMs : Z;
  burstMax : Z;
  windowMs : Z;
  windowMax : Z;
  authFailThreshold : Z;
}.

Definition DEFAULT_RATE_LIMIT_CONFIG : RateLimitConfig := {|
  burstWindowMs := 10000; burstMax := 5; windowMs := 60000; windowMax := 30;
  authFailThreshold := 3 |}.

Record WindowEntry : Type := { count : Z; resetAt : Z }.

Record AuthFailEntry : Type := { fails : Z; bannedUntil : Z; lastFailAt : Z }.

Inductive CheckResult : Type :=
| Allowed
| Denied (reason : string).

(** [ladderSeconds[idx]], for an index in range. *)
Definition ladderSeconds (idx : Z) : Z :=
  if idx =? 0 then 30 else if idx =? 1 then 120 else if idx =? 2 then 600 else 1800.

Definition authFailBanDuration (fails : Z) (config : RateLimitConfig) : Z :=
  if fails <? authFailThreshold config then 0
  else ladderSeconds (Z.min (fails - authFailThreshold config) 3).

Record Limiter : Type := {
  burst : gmap string WindowEntry;
  window : gmap string WindowEntry;
  authFails : gmap string AuthFailEntry;
}.

Definition new_limiter : Limiter := {| burst := ∅; window := ∅; authFails := ∅ |}.

(** The entry of a window with one more connection counted. *)
Definition bump (e : option WindowEntry) (t width : Z) : WindowEntry :=
  match e with
  | Some b => if resetAt b <? t then {| count := 1; resetAt := t + width |}
              else {| count := count b + 1; resetAt := resetAt b |}
  | None => {| count := 1; resetAt := t + width |}
  end.

Definition banned (l : Limiter) (ip : string) (t : Z) : bool :=
  match authFails l !! ip with Some af => t <? bannedUntil af | None => false end.

Definition check (config : RateLimitConfig) (l : Limiter) (ip : string) (t : Z)
    : Limiter * CheckResult :=
  if banned l ip t then (l, Denied "authentication failure ban")
  else
    let b := bump (burst l !! ip) t (burstWindowMs config) in
    let l := {| burst := <[ip := b]> (burst l); window := window l; authFails := authFails l |} in
    if burstMax config <? count b then (l, Denied "burst rate limit exceeded")
    else
      let w := bump (window l !! ip) t (windowMs config) in
      let l := {| burst := burst l; window := <[ip := w]> (window l); authFails := authFails l |} in
      if windowMax config <? count w then (l, Denied "rate limit exceeded") else (l, Allowed).

Definition recordAuthFailure (config : RateLimitConfig) (l : Limiter) (ip : string) (t : Z)
    : Limiter * Z :=
  let af := default {| fails := 0; bannedUntil := 0; lastFailAt := t |} (authFails l !! ip) in
  let n := fails af + 1 in
  let dur := authFailBanDuration n config in
  let af := {| fails := n; bannedUntil := if 0 <? dur then t + dur * 1000 else bannedUntil af;
               lastFailAt := t |} in
  ({| burst := burst l; window := window l; authFails := <[ip := af]> (authFails l) |}, dur).

Definition clearAuthFailure (l : Limiter) (ip : string) : Limiter :=
  {| burst := burst l; window := window l; authFails := delete ip (authFails l) |}.

Definition gc (l : Limiter) (t : Z) : Limiter := {|
  burst := filter (λ kv, ¬ resetAt kv.2 < t) (burst l);
  window := filter (λ kv, ¬ resetAt kv.2 < t) (window l);
  authFails := filter (λ kv, ¬ (bannedUntil kv.2 < t ∧ lastFailAt kv.2 + 86400000 < t)) (authFails l)
|}.

(** ** Properties *)

Definition allowed (r : CheckResult) : bool := match r with Allowed => true | Denied _ => false end.

(** The decisions on one address at a sequence of times. *)
Fixpoint checks (config : RateLimitConfig) (l : Limiter) (ip : string) (times : list Z) : list bool :=
  match times with
  | [] => []
  | t :: rest =>
      let '(l', r) := check config l ip t in allowed r :: checks config l' ip rest
  end.

Definition granted (bs : list bool) : Z := len (bfilter id bs).

Lemma granted_cons b bs : granted (b :: bs) = (if b then 1 else 0) + granted bs.
Proof. unfold granted. destruct b; cbn [bfilter id length]; lia. Qed.

(** What one check does to the two windows of its address. *)
Lemma check_windows config l ip t l' r :
  check config l ip t = (l', r) →
  authFails l' = authFails l
  ∧ (banned l ip t = true ∧ l' = l ∧ allowed r = false
     ∨ banned l ip t = false
       ∧ burst l' !! ip = Some (bump (burst l !! ip) t (burstWindowMs config))
       ∧ (allowed r = true → count (bump (burst l !! ip) t (burstWindowMs config)) ≤ burstMax config
            ∧ window l' !! ip = Some (bump (window l !! ip) t (windowMs config))
            ∧ count (bump (window l !! ip) t (windowMs config)) ≤ windowMax config)
       ∧ (window l' !! ip = window l !! ip
          ∨ window l' !! ip = Some (bump (window l !! ip) t (windowMs config)))).
Proof.
  unfold check. destruct (banned l ip t) eqn:Eb; [intros [= <- <-]; split; [done|by left]|].
  cbn [burst window authFails].
  set (b := bump (burst l !! ip) t (burstWindowMs config)).
  set (w := bump (window l !! ip) t (windowMs config)).
  destruct (Z.ltb_spec (burstMax config) (count b)).
  { intros [= <- <-]. split; [done|right]. cbn [burst window allowed]. rewrite lookup_insert_eq.
    split_and!; [done..|by left]. }
  destruct (Z.ltb_spec (windowMax config) (count w)); intros [= <- <-]; (split; [done|right]);
    cbn [burst window allowed]; rewrite !lookup_insert_eq; split_and!; (done || by right).
Qed.

(** Within the current burst window only what is left of the budget is granted. *)
Lemma granted_left config ip times :
  ∀ l b, burst l !! ip = Some b → Forall (λ t, t ≤ resetAt b) times →
  granted (checks config l ip times) ≤ Z.max 0 (burstMax config - count b).
Proof.
  induction times as [|t times IH]; intros l b Hb Hts; [unfold granted; simpl; lia|].
  apply Forall_cons in Hts as [Ht Hts]. cbn [checks].
  destruct (check config l ip t) as [l' r] eqn:Ec.
  apply check_windows in Ec as [_ [(_ & -> & Hr)|(_ & Hb' & Hr & _)]]; rewrite granted_cons.
  - rewrite Hr. specialize (IH l b Hb Hts). lia.
  - rewrite Hb in Hb', Hr. unfold bump in Hb', Hr. rewrite (proj2 (Z.ltb_ge _ _)) in Hb', Hr by lia.
    specialize (IH l' _ Hb' Hts). cbn [count] in *. destruct (allowed r); [|lia].
    destruct Hr as [Hr _]; [done|]. lia.
Qed.

(** The same for the long window. *)
Lemma granted_window config ip times :
  ∀ l w, window l !! ip = Some w → Forall (λ t, t ≤ resetAt w) times →
  granted (checks config l ip times) ≤ Z.max 0 (windowMax config - count w).
Proof.
  induction times as [|t times IH]; intros l w Hw Hts; [unfold granted; simpl; lia|].
  apply Forall_cons in Hts as [Ht Hts]. cbn [checks].
  destruct (check config l ip t) as [l' r] eqn:Ec.
  apply check_windows in Ec as [_ [(_ & -> & Hr)|(_ & _ & Hr & Hw')]]; rewrite granted_cons.
  - rewrite Hr. specialize (IH l w Hw Hts). lia.
  - rewrite Hw in Hr, Hw'. unfold bump at 2 3 in Hr. unfold bump in Hw'.
    rewrite (proj2 (Z.ltb_ge _ _)) in Hr, Hw' by lia. destruct (allowed r).
    + destruct Hr as (_ & Hn & Hc); [done|]. specialize (IH l' _ Hn Hts). cbn [count] in *. lia.
    + destruct Hw' as [Hn|Hn]; specialize (IH l' _ Hn Hts); cbn [count] in *; lia.
Qed.

Lemma filter_bump (m : gmap string WindowEntry) ip t t' width :
  t ≤ t' → bump (filter (λ kv, ¬ resetAt kv.2 < t) m !! ip) t' width = bump (m !! ip) t' width.
Proof.
  intros Ht. destruct (m !! ip) as [e|] eqn:Em.
  - destruct (decide (resetAt e < t)).
    + rewrite (map_lookup_filter_None_2 _ m ip);
        [|right; intros e' He'; rewrite He' in Em; injection Em as ->; simpl; tauto].
      unfold bump. rewrite (proj2 (Z.ltb_lt _ _)) by lia. done.
    + by rewrite (map_lookup_filter_Some_2 _ m ip e).
  - by rewrite (map_lookup_filter_None_2 _ m ip) by (by left).
Qed.

Lemma gc_banned l ip t t' : t ≤ t' → banned (gc l t) ip t' = banned l ip t'.
Proof.
  intros Ht. unfold banned, gc. cbn [authFails].
  destruct (authFails l !! ip) as [e|] eqn:Em.
  - destruct (decide (bannedUntil e < t ∧ lastFailAt e + 86400000 < t)) as [Hd|Hd].
    + rewrite (map_lookup_filter_None_2 _ (authFails l) ip);
        [|right; intros e' He'; rewrite He' in Em; injection Em as ->; simpl; tauto].
      symmetry. apply Z.ltb_ge. lia.
    + by rewrite (map_lookup_filter_Some_2 _ (authFails l) ip e).
  - by rewrite (map_lookup_filter_None_2 _ (authFails l) ip) by (by left).
Qed.

(** While a ban runs every check is refused and changes nothing. *)
Lemma banned_checks config ip times :
  ∀ l, Forall (λ t, banned l ip t = true) times →
  granted (checks config l ip times) = 0.
Proof.
  induction times as [|t times IH]; intros l Hts; [done|].
  apply Forall_cons in Hts as [Ht Hts]. cbn [checks]. unfold check at 1. rewrite Ht.
  rewrite granted_cons. cbn [allowed]. rewrite (IH l Hts). done.
Qed.

Lemma ban_duration_values n config :
  authFailBanDuration n config ∈ [0; 30; 120; 600; 1800].
Proof.
  unfold authFailBanDuration, ladderSeconds.
  repeat (match goal with |- context [if ?b then _ else _] => destruct b end); set_solver.
Qed.

Lemma ban_duration_mono n m config :
  n ≤ m → authFailBanDuration n config ≤ authFailBanDuration m config.
Proof.
  intros H. unfold authFailBanDuration, ladderSeconds.
  repeat (match goal with |- context [if ?b then _ else _] => destruct b eqn:?; bool_hyps end); lia.
Qed.

(** ** Claims *)

(** An address gets at most [burstMax] connections through in the burst window
    its next counted connection opens, however often it tries; and from then on
    no more than what is left of the long window's budget until that window
    ends. *)
Theorem connection_budget config l ip t times :
  banned l ip t = false →
  match burst l !! ip with Some b => resetAt b < t | None => True end →
  0 ≤ burstMax config →
  (Forall (λ x, x ≤ t + burstWindowMs config) times →
   granted (checks config l ip (t :: times)) ≤ burstMax config)
  ∧ (∀ w, window l !! ip = Some w → Forall (λ x, x ≤ resetAt w) (t :: times) →
       granted (checks config l ip (t :: times)) ≤ Z.max 0 (windowMax config - count w)).
Proof.
  intros Hban Hb Hmax. split; [|intros w; apply granted_window]. intros Hts. cbn [checks].
  destruct (check config l ip t) as [l' r] eqn:Ec.
  apply check_windows in Ec as [_ [(Hban' & _)|(_ & Hb' & Hr & _)]]; [congruence|].
  assert (Hnew : bump (burst l !! ip) t (burstWindowMs config)
                 = {| count := 1; resetAt := t + burstWindowMs config |}).
  { unfold bump. destruct (burst l !! ip) as [b|]; [|done]. by rewrite (proj2 (Z.ltb_lt _ _)). }
  rewrite Hnew in Hb', Hr. rewrite granted_cons.
  pose proof (granted_left config ip times l' _ Hb' Hts) as Hg. cbn [count] in *.
  destruct (allowed r); [destruct Hr as [Hr _]; [done|]|]; lia.
Qed.

(** Authentication failures escalate and hold: each further consecutive failure
    imposes a ban at least as long as the one before, of 30, 120, 600 or 1800
    seconds once the threshold is reached, and until it expires the address gets
    nothing through, whichever garbage collections run meanwhile. *)
Theorem ban_holds config l ip t l' dur times g :
  recordAuthFailure config l ip t = (l', dur) →
  dur ∈ [0; 30; 120; 600; 1800]
  ∧ dur ≤ snd (recordAuthFailure config l' ip t)
  ∧ (0 < dur → g ≤ t + dur * 1000 → Forall (λ x, g ≤ x < t + dur * 1000) times →
     granted (checks config (gc l' g) ip times) = 0).
Proof.
  intros H. unfold recordAuthFailure in H. injection H as <- <-. split_and!.
  - apply ban_duration_values.
  - unfold recordAuthFailure. cbn [authFails]. rewrite lookup_insert_eq. cbn [from_option id snd fails].
    apply ban_duration_mono. lia.
  - intros Hdur Hg Hts. apply banned_checks. eapply Forall_impl; [exact Hts|]. intros x [Hx1 Hx2].
    rewrite gc_banned by done. unfold banned. cbn [authFails]. rewrite lookup_insert_eq.
    cbn [bannedUntil]. rewrite (proj2 (Z.ltb_lt 0 _)) by done. by apply Z.ltb_lt.
Qed.

(** ** Witnesses *)

Lemma connection_budget_witness :
  granted (checks DEFAULT_RATE_LIMIT_CONFIG new_limiter "ip" [0; 1; 2; 3; 4; 5; 6]) = 5.
Proof.
  apply Z.le_antisymm; [|vm_compute; congruence].
  apply (connection_budget DEFAULT_RATE_LIMIT_CONFIG new_limiter "ip" 0 [1; 2; 3; 4; 5; 6]).
  - reflexivity.
  - exact I.
  - vm_compute. congruence.
  - repeat constructor; vm_compute; congruence.
Defined.

Definition failing : Limiter :=
  fst (recordAuthFailure DEFAULT_RATE_LIMIT_CONFIG
    (fst (recordAuthFailure DEFAULT_RATE_LIMIT_CONFIG new_limiter "ip" 0)) "ip" 1).

Lemma ban_holds_witness :
  snd (recordAuthFailure DEFAULT_RATE_LIMIT_CONFIG failing "ip" 2) = 30
  ∧ granted (checks DEFAULT_RATE_LIMIT_CONFIG
       (gc (fst (recordAuthFailure DEFAULT_RATE_LIMIT_CONFIG failing "ip" 2)) 3) "ip" [4; 30001]) = 0.
Proof.
  split; [vm_compute; reflexivity|].
  destruct (recordAuthFailure DEFAULT_RATE_LIMIT_CONFIG failing "ip" 2) as [l' dur] eqn:E.
  assert (Hd : dur = 30) by (vm_compute in E; by injection E).
  destruct (ban_holds DEFAULT_RATE_LIMIT_CONFIG failing "ip" 2 l' dur [4; 30001] 3 E) as (_ & _ & H).
  subst dur. apply H; [lia|lia|]. repeat constructor; vm_compute; congruence.
Defined.
