(* ===== verification/ExtensionRateLimit.v ===== *)
(** * ExtensionRateLimit: the fixed-window limiter of the extension control plane
      (relay/src/extensions/rate-limit.ts).

    One process-local map of windows per limiter; the map is rebuilt when it
    passes its hard cap. *)

From S2P Require Import Prelude JsValue.

#[local] Open Scope Z_scope.

Record ExtensionRateLimitPolicies : Type := {
  pol_token : Z; pol_feed : Z; pol_ack : Z; pol_snapshot : Z; pol_status : Z;
  pol_usage : Z; pol_purge : Z; pol_grant : Z; pol_installations : Z;
}.

Definition DEFAULT_EXTENSION_RATE_LIMITS : ExtensionRateLimitPolicies := {|
  pol_token := 30; pol_feed := 120; pol_ack := 240; pol_snapshot := 60; pol_status := 120;
  pol_usage := 60; pol_purge := 60; pol_grant := 60; pol_installations := 120 |}.

Definition EXTENSION_RATE_LIMIT_WINDOW_MS : Z := 60000.

Record Window : Type := { startedAt : Z; hits : Z }.

Record ExtensionRateLimiter : Type := {
  ext_windowMs : Z;
  ext_max : Z;
  windows : gmap string Window;
}.

Definition createExtensionRateLimiter (windowMs : option Z) (maxPerWindow : Z)
    : ExtensionRateLimiter := {|
  ext_windowMs := default EXTENSION_RATE_LIMIT_WINDOW_MS windowMs;
  ext_max := Z.max 1 maxPerWindow;
  windows := ∅ |}.

Definition with_windows (l : ExtensionRateLimiter) (m : gmap string Window) : ExtensionRateLimiter :=
  {| ext_windowMs := ext_windowMs l; ext_max := ext_max l; windows := m |}.

Inductive ExtCheck : Type :=
| ExtAllowed
| ExtDenied (retryAfterMs : Z).

(** A key that is not a string of at most 256 units is counted as [unknown]. *)
Definition limit_key (key : jsval) : string :=
  match key with
  | JStr s => if 256 <? str_len s then "unknown"%string else s
  | _ => "unknown"%string
  end.

Definition ext_check (l : ExtensionRateLimiter) (key : jsval) (timestamp : Z)
    : ExtensionRateLimiter * ExtCheck :=
  let key := limit_key key in
  let m := if 10000 <? Z.of_nat (size (windows l)) then ∅ else windows l in
  match m !! key with
  | Some current =>
      if ext_windowMs l <=? timestamp - startedAt current
      then (with_windows l (<[key := {| startedAt := timestamp; hits := 1 |}]> m), ExtAllowed)
      else
        let current := {| startedAt := startedAt current; hits := hits current + 1 |} in
        (with_windows l (<[key := current]> m),
         if ext_max l <? hits current
         then ExtDenied (ext_windowMs l - (timestamp - startedAt current)) else ExtAllowed)
  | None => (with_windows l (<[key := {| startedAt := timestamp; hits := 1 |}]> m), ExtAllowed)
  end.

Record LimiterSet : Type := {
  lim_token : ExtensionRateLimiter; lim_feed : ExtensionRateLimiter;
  lim_ack : ExtensionRateLimiter; lim_snapshot : ExtensionRateLimiter;
  lim_status : ExtensionRateLimiter; lim_usage : ExtensionRateLimiter;
  lim_purge : ExtensionRateLimiter; lim_grant : ExtensionRateLimiter;
  lim_installations : ExtensionRateLimiter;
}.

Definition createExtensionRateLimiterSet (p : ExtensionRateLimitPolicies) : LimiterSet := {|
  lim_token := createExtensionRateLimiter None (pol_token p);
  lim_feed := createExtensionRateLimiter None (pol_feed p);
  lim_ack := createExtensionRateLimiter None (pol_ack p);
  lim_snapshot := createExtensionRateLimiter None (pol_snapshot p);
  lim_status := createExtensionRateLimiter None (pol_status p);
  lim_usage := createExtensionRateLimiter None (pol_usage p);
  lim_purge := createExtensionRateLimiter None (pol_purge p);
  lim_grant := createExtensionRateLimiter None (pol_grant p);
  lim_installations := createExtensionRateLimiter None (pol_installations p) |}.

(** The denied reply: status, error code and message, [Retry-After] in seconds. *)
Definition rateLimitedResponse (retryAfterMs : option Z) : Z * string * string * option Z :=
  (429, "invalid_request"%string, "rate limit exceeded"%string,
   (λ r, - ((- r) / 1000)) <$> retryAfterMs).

(** ** Properties *)

(** The state after a check of [key]. *)
Lemma ext_check_denied l key t l' r :
  ext_check l key t = (l', ExtDenied r) →
  ∃ w, windows l' !! limit_key key = Some w ∧ ext_max l < hits w
    ∧ r = ext_windowMs l - (t - startedAt w) ∧ t - startedAt w < ext_windowMs l
    ∧ ext_windowMs l' = ext_windowMs l ∧ ext_max l' = ext_max l.
Proof.
  unfold ext_check. set (m := if _ <? _ then _ else _).
  destruct (m !! limit_key key) as [w|]; [|done].
  destruct (Z.leb_spec (ext_windowMs l) (t - startedAt w)); [done|].
  destruct (Z.ltb_spec (ext_max l) (hits w + 1)); cbn [hits]; [|by rewrite (proj2 (Z.ltb_ge _ _)) by lia].
  rewrite (proj2 (Z.ltb_lt _ _)) by lia. intros [= <- <-].
  eexists. cbn [with_windows windows ext_windowMs ext_max]. rewrite lookup_insert_eq. split; [done|].
  cbn [hits startedAt]. split_and!; lia.
Qed.

(** The [Retry-After] hint is exact: it is positive and at most one window, a
    request of the same key before it has passed is denied again (unless the
    bounded memory was rebuilt meanwhile), and one made when it has passed is
    admitted. *)
Theorem retry_after_exact l key t l' r t' :
  ext_check l key t = (l', ExtDenied r) → t ≤ t' →
  (0 < r)
  ∧ (t' < t + r → Z.of_nat (size (windows l')) ≤ 10000 → ∃ r', snd (ext_check l' key t') = ExtDenied r')
  ∧ (t + r ≤ t' → snd (ext_check l' key t') = ExtAllowed).
Proof.
  intros H Ht. destruct (ext_check_denied _ _ _ _ _ H) as (w & Hw & Hh & -> & Hlt & Hwin & Hmax).
  split_and!; [lia| |].
  - intros Hb Hs. unfold ext_check. rewrite (proj2 (Z.ltb_ge 10000 _)) by lia. rewrite Hw, Hwin, Hmax.
    rewrite (proj2 (Z.leb_gt _ _)) by lia. cbn [snd hits]. rewrite (proj2 (Z.ltb_lt _ _)) by lia.
    by eexists.
  - intros Hb. unfold ext_check. destruct (10000 <? _); [by rewrite lookup_empty|].
    rewrite Hw, Hwin, Hmax. rewrite (proj2 (Z.leb_le _ _)) by lia. done.
Qed.

Definition sample_limited : ExtensionRateLimiter :=
  fst (ext_check (createExtensionRateLimiter None 1) (JStr "k") 0).

Lemma retry_after_exact_witness :
  snd (ext_check sample_limited (JStr "k") 100) = ExtDenied 59900
  ∧ snd (ext_check (fst (ext_check sample_limited (JStr "k") 100)) (JStr "k") 60000) = ExtAllowed.
Proof.
  split; [vm_compute; reflexivity|].
  refine (proj2 (proj2 (retry_after_exact sample_limited (JStr "k") 100
    (fst (ext_check sample_limited (JStr "k") 100)) 59900 60000 _ _)) _).
  - vm_compute. reflexivity.
  - lia.
  - lia.
Defined.
