(* ===== verification/AuthRateLimit.v ===== *)
(** * AuthRateLimit: the limits of the authentication endpoints
    (relay/src/auth-rate-limit.ts with [hitAuthRateLimit] and the cleanup of
    relay/src/db.ts).

    All relay processes count in one table: a request takes one hit in the
    bucket of its address and one in that of the identity it names, and is let
    through when neither is over its limit.  The HMAC is an argument, and so is
    what the database answers: a statement may fail, with or without effect. *)

From S2P Require Import Prelude JsValue.

#[local] Open Scope Z_scope.

(** ** Counters *)

(** A row of [auth_rate_limits], under its key. *)
Record LimitRow : Type := { window_started_at : Z; hit_count : Z }.

Notation LimitTable := (gmap string LimitRow).

Record AuthRateLimitDecision : Type := { hit_allowed : bool; hit_retryAfterMs : Z; decision_count : Z }.

Definition max_int : Z := 2147483647.

(** The row after a hit; [None] when the counter overflows its column. *)
Definition next_row (windowMs now : Z) (row : option LimitRow) : option LimitRow :=
  match row with
  | None => Some {| window_started_at := now; hit_count := 1 |}
  | Some r =>
      if window_started_at r <=? now - windowMs then Some {| window_started_at := now; hit_count := 1 |}
      else if hit_count r + 1 <=? max_int
      then Some {| window_started_at := window_started_at r; hit_count := hit_count r + 1 |} else None
  end.

Definition decide_hit (limit windowMs now : Z) (r : LimitRow) : AuthRateLimitDecision :=
  let allowed := hit_count r <=? limit in
  {| hit_allowed := allowed;
     hit_retryAfterMs := if allowed then 0 else Z.max 1000 (window_started_at r + windowMs - now);
     decision_count := hit_count r |}.

(** A failing statement, with its effect or without. *)
Definition DbFault : Type := option bool.

Definition hitAuthRateLimit (fault : DbFault) (key : string) (limit windowMs now : Z) (t : LimitTable)
  : LimitTable * outcome AuthRateLimitDecision :=
  match next_row windowMs now (t !! key) with
  | None => (t, Throws "integer out of range")
  | Some r =>
      match fault with
      | None => (<[key := r]> t, Returns (decide_hit limit windowMs now r))
      | Some took => (if took : bool then <[key := r]> t else t, Throws "connection terminated")
      end
  end.

(** 48 hours, in milliseconds. *)
Definition stale_ms : Z := 48 * 3600000.

(** [cleanStaleAuthRateLimits]. *)
Definition cleanStaleAuthRateLimits (now : Z) (t : LimitTable) : LimitTable :=
  filter (λ kr, now - stale_ms ≤ window_started_at kr.2) t.

(** ** The policy *)

Inductive BucketKind : Type := IpBucket | IdentityBucket.

Definition kind_text (k : BucketKind) : string :=
  match k with IpBucket => "ip" | IdentityBucket => "identity" end.

Record AuthRateLimitBucketSpec : Type := {
  scope : string;
  spec_windowMs : Z;
  ip : option (string * Z);
  identity : option (string * Z)
}.

Inductive AuthRateLimitEnforceDecision : Type :=
| AuthOk
| AuthTooMany (retryAfterMs : Z)
| AuthUnavailable.

Section limiter.
(** [createHmac('sha256', pepper).update(text).digest('hex')]. *)
Context (hmac : string → string).

Definition authRateLimitKey (scope : string) (kind : BucketKind) (subject : string) : string :=
  hmac ("auth-rate-limit:v1:" +:+ scope +:+ ":" +:+ kind_text kind +:+ ":" +:+ subject).

(** The buckets of a request: key and limit, the address first. *)
Definition auth_buckets (spec : AuthRateLimitBucketSpec) : list (string * Z) :=
  map (λ b, (authRateLimitKey (scope spec) IpBucket b.1, b.2)) (option_list (ip spec))
  ++ map (λ b, (authRateLimitKey (scope spec) IdentityBucket b.1, b.2)) (option_list (identity spec)).

Fixpoint enforce_buckets (faults : nat → DbFault) (windowMs now : Z) (bs : list (string * Z)) (t : LimitTable)
  : LimitTable * AuthRateLimitEnforceDecision :=
  match bs with
  | [] => (t, AuthOk)
  | (key, limit) :: bs =>
      match hitAuthRateLimit (faults 0%nat) key limit windowMs now t with
      | (t', Throws _) => (t', AuthUnavailable)
      | (t', Returns d) =>
          if hit_allowed d then enforce_buckets (λ n, faults (S n)) windowMs now bs t'
          else (t', AuthTooMany (hit_retryAfterMs d))
      end
  end.

(** [enforce]. *)
Definition enforce (faults : nat → DbFault) (now : Z) (spec : AuthRateLimitBucketSpec) (t : LimitTable)
  : LimitTable * outcome AuthRateLimitEnforceDecision :=
  match ip spec, identity spec with
  | None, None => (t, Throws "auth rate limit spec needs at least one bucket")
  | _, _ => let '(t', d) := enforce_buckets faults (spec_windowMs spec) now (auth_buckets spec) t in (t', Returns d)
  end.

(** [applyAuthRateLimitDecision]: status and [Retry-After] of a rejected
    request. *)
Definition applyAuthRateLimitDecision (d : AuthRateLimitEnforceDecision) : option (Z * option Z) :=
  match d with
  | AuthOk => None
  | AuthTooMany ms => Some (429, Some (Z.max 1 (- ((- ms) / 1000))))
  | AuthUnavailable => Some (503, None)
  end.

(** ** Properties *)

(** What a key may still be granted before the end of [a, a + windowMs): what
    is left of its window, and one more budget if that window can end within. *)
Definition allowance (a limit : Z) (row : option LimitRow) : Z :=
  match row with
  | None => Z.max 0 limit
  | Some r => Z.max 0 (limit - hit_count r) + (if a <=? window_started_at r then 0 else Z.max 0 limit)
  end.

Definition counted (b : bool) : Z := if b then 1 else 0.

Lemma counted_bounds b : 0 ≤ counted b ≤ 1.
Proof. destruct b; simpl; lia. Qed.

Lemma next_row_allowance a limit windowMs now row r :
  a ≤ now < a + windowMs → next_row windowMs now row = Some r →
  counted (hit_count r <=? limit) + allowance a limit (Some r) ≤ allowance a limit row.
Proof.
  intros Hnow Hr. unfold allowance, counted. destruct row as [r0|]; simpl in Hr; [|injection Hr as <-; simpl].
  - destruct (Z.leb_spec (window_started_at r0) (now - windowMs)).
    + injection Hr as <-. simpl. rewrite (proj2 (Z.leb_le a now)) by lia.
      rewrite (proj2 (Z.leb_gt a _)) by lia. destruct (Z.leb_spec 1 limit); lia.
    + destruct (_ <=? max_int); [|done]. injection Hr as <-. simpl.
      destruct (a <=? window_started_at r0), (Z.leb_spec (hit_count r0 + 1) limit); lia.
  - rewrite (proj2 (Z.leb_le a now)) by lia. destruct (Z.leb_spec 1 limit); lia.
Qed.

Lemma hit_allowance a k limit0 fault key limit windowMs now t t' d :
  a ≤ now < a + windowMs → hitAuthRateLimit fault key limit windowMs now t = (t', d) →
  (if bool_decide (key = k ∧ limit = limit0)
   then match d with Returns x => counted (hit_allowed x) | Throws _ => 0 end else 0)
  + allowance a limit0 (t' !! k) ≤ allowance a limit0 (t !! k).
Proof.
  intros Hnow. unfold hitAuthRateLimit. destruct (next_row _ _ _) as [r|] eqn:E.
  2: { intros [= <- <-]. case_bool_decide; lia. }
  assert (Hins : (if bool_decide (key = k) then counted (hit_count r <=? limit0) else 0)
    + allowance a limit0 (<[key:=r]> t !! k) ≤ allowance a limit0 (t !! k)).
  { case_bool_decide as Hk; [subst key; rewrite lookup_insert_eq|rewrite lookup_insert_ne by done; lia].
    by eapply next_row_allowance. }
  pose proof (counted_bounds (hit_count r <=? limit0)).
  destruct fault as [[]|]; intros [= <- <-]; simpl; repeat case_bool_decide; try destruct_and?; simplify_eq; try lia.
Qed.

Lemma buckets_allowance a k limit0 windowMs now bs faults t t' d :
  a ≤ now < a + windowMs → enforce_buckets faults windowMs now bs t = (t', d) →
  (if bool_decide ((k, limit0) ∈ bs) then match d with AuthOk => 1 | _ => 0 end else 0)
  + allowance a limit0 (t' !! k) ≤ allowance a limit0 (t !! k).
Proof.
  intros Hnow. revert faults t. induction bs as [|[key limit] bs IH]; intros faults t; simpl.
  { intros [= <- <-]. simpl. lia. }
  destruct (hitAuthRateLimit _ _ _ _ _ _) as [t1 [x|m]] eqn:E;
    pose proof (hit_allowance a k limit0 _ _ _ _ _ _ _ _ Hnow E) as Hh.
  2: { intros [= <- <-]. repeat case_bool_decide; lia. }
  cbn in Hh. destruct (hit_allowed x) eqn:Ex; cbn in Hh.
  - intros Hb. specialize (IH _ _ Hb). unfold counted in *.
    destruct (decide ((k, limit0) ∈ (key, limit) :: bs)) as [Hin|Hn].
    + rewrite (bool_decide_eq_true_2 _ Hin). destruct d; try (repeat case_bool_decide; lia).
      apply elem_of_cons in Hin as [[= <- <-]|Hin].
      * rewrite (bool_decide_eq_true_2 (k = k ∧ limit0 = limit0)) in Hh by done.
        case_bool_decide; lia.
      * rewrite (bool_decide_eq_true_2 _ Hin) in IH. case_bool_decide; lia.
    + rewrite (bool_decide_eq_false_2 _ Hn). repeat case_bool_decide; destruct d; lia.
  - intros [= <- <-]. repeat case_bool_decide; lia.
Qed.

Lemma clean_allowance a limit0 windowMs now t k :
  a ≤ now < a + windowMs → windowMs ≤ stale_ms →
  allowance a limit0 (cleanStaleAuthRateLimits now t !! k) ≤ allowance a limit0 (t !! k).
Proof.
  intros Hnow Hw. unfold cleanStaleAuthRateLimits. rewrite map_lookup_filter.
  destruct (t !! k) as [r|]; simpl; [|lia]. case_guard as Hg; simpl; [lia|].
  simpl in Hg. rewrite (proj2 (Z.leb_gt a _)) by lia. lia.
Qed.

(** Requests and cleanups, by any process, with the faults they meet. *)
Inductive auth_op : Type :=
| Enforce (faults : nat → DbFault) (now : Z) (spec : AuthRateLimitBucketSpec)
| Clean (now : Z).

Definition op_time (op : auth_op) : Z := match op with Enforce _ now _ | Clean now => now end.

Definition run_op (op : auth_op) (t : LimitTable) : LimitTable * bool :=
  match op with
  | Enforce faults now spec =>
      let '(t', d) := enforce faults now spec t in
      (t', match d with Returns AuthOk => true | _ => false end)
  | Clean now => (cleanStaleAuthRateLimits now t, false)
  end.

(** The requests with the bucket [(k, limit)] that were let through. *)
Fixpoint let_through (k : string) (limit : Z) (ops : list auth_op) (t : LimitTable) : Z :=
  match ops with
  | [] => 0
  | op :: ops =>
      let '(t', ok) := run_op op t in
      (match op with
       | Enforce _ _ spec => counted (ok && bool_decide ((k, limit) ∈ auth_buckets spec))
       | Clean _ => 0
       end) + let_through k limit ops t'
  end.

(** The operations that happen in [a, a + windowMs) and count with that window. *)
Definition in_interval (a windowMs : Z) (op : auth_op) : Prop :=
  a ≤ op_time op < a + windowMs ∧
  match op with Enforce _ _ spec => spec_windowMs spec = windowMs | Clean _ => True end.

Lemma run_op_allowance a k limit windowMs op t :
  in_interval a windowMs op → windowMs ≤ stale_ms →
  (match op with
   | Enforce _ _ spec => counted (snd (run_op op t) && bool_decide ((k, limit) ∈ auth_buckets spec))
   | Clean _ => 0
   end) + allowance a limit (fst (run_op op t) !! k) ≤ allowance a limit (t !! k).
Proof.
  intros [Hnow Hop] Hw. destruct op as [faults now spec|now]; simpl in *; [|by apply (clean_allowance a limit windowMs)].
  subst windowMs. unfold enforce. destruct (enforce_buckets _ _ _ _ _) as [t' d] eqn:E.
  pose proof (buckets_allowance a k limit _ _ _ _ _ _ _ Hnow E) as Hb.
  destruct (ip spec), (identity spec); simpl; [destruct d; simpl; case_bool_decide; simpl in *; lia..|lia].
Qed.

Lemma let_through_allowance a k limit windowMs ops t :
  Forall (in_interval a windowMs) ops → windowMs ≤ stale_ms →
  let_through k limit ops t ≤ allowance a limit (t !! k).
Proof.
  intros Hall Hw. revert t. induction Hall as [|op ops Hop _ IH]; intros t; simpl.
  { unfold allowance. destruct (t !! k); [case_match|]; lia. }
  pose proof (run_op_allowance a k limit windowMs op t Hop Hw) as Hr.
  destruct (run_op op t) as [t' ok] eqn:E. simpl in Hr. specialize (IH t'). destruct op; lia.
Qed.

(** Within any period as long as its window, no address and no identity gets
    more than twice its limit of requests through, whichever processes serve
    them, in whatever order, with any cleanups between and whatever the
    database answers; and none at all of what is left after the limit was
    reached in the running window. *)
Theorem auth_attempts_bounded a k limit windowMs ops t :
  Forall (in_interval a windowMs) ops → windowMs ≤ stale_ms → 0 ≤ limit →
  (∀ r, t !! k = Some r → 0 ≤ hit_count r) →
  let_through k limit ops t ≤ 2 * limit ∧
  (∀ r, t !! k = Some r → a ≤ window_started_at r → limit ≤ hit_count r → let_through k limit ops t = 0).
Proof.
  intros Hall Hw Hl Ht. pose proof (let_through_allowance a k limit windowMs ops t Hall Hw) as Hle.
  assert (Hpos : 0 ≤ let_through k limit ops t).
  { clear. revert t. induction ops as [|op ops IH]; intros t; simpl; [lia|]. destruct (run_op op t) as [t' ok].
    specialize (IH t'). destruct op; [|lia]. match goal with |- context [counted ?b] => pose proof (counted_bounds b) end. lia. }
  unfold allowance in Hle. split.
  - destruct (t !! k) as [r|] eqn:E; [specialize (Ht r eq_refl); case_match|]; lia.
  - intros r E Ha Hc. rewrite E, (proj2 (Z.leb_le _ _)) in Hle by done. lia.
Qed.

(** A request is let through only when the database answered for every one of
    its buckets: a failing database never opens an endpoint. *)
Theorem auth_fails_closed faults now spec t t' :
  enforce faults now spec t = (t', Returns AuthOk) →
  auth_buckets spec ≠ [] ∧ ∀ i k limit, auth_buckets spec !! i = Some (k, limit) → faults i = None.
Proof.
  unfold enforce. destruct (enforce_buckets _ _ _ _ _) as [t1 d] eqn:E. intros H.
  assert (Hd : d = AuthOk ∧ auth_buckets spec ≠ []).
  { unfold auth_buckets. destruct (ip spec), (identity spec); simplify_eq; done. }
  destruct Hd as [-> Hne]. split; [done|]. clear Hne H.
  revert faults t E. induction (auth_buckets spec) as [|[key lim] bs IH]; intros faults t E i k limit Hi; [done|].
  simpl in E. unfold hitAuthRateLimit in E. destruct (next_row _ _ _); [|done].
  destruct (faults 0%nat) eqn:E0; [done|]. destruct (hit_allowed _); [|done].
  destruct i as [|i]; [done|]. by eapply (IH (λ n, faults (S n)) _ E i).
Qed.
End limiter.

(** The keys of different scopes, kinds and subjects differ, when the HMAC does
    not collide on them; scopes have no colon. *)
Lemma limit_keys_differ (hmac : string → string) s1 k1 x1 s2 k2 x2 :
  (∀ a b, hmac a = hmac b → a = b) →
  Ascii.ascii_of_nat 58 ∉ chars s1 → Ascii.ascii_of_nat 58 ∉ chars s2 →
  authRateLimitKey hmac s1 k1 x1 = authRateLimitKey hmac s2 k2 x2 → s1 = s2 ∧ k1 = k2 ∧ x1 = x2.
Proof.
  intros Hinj Hs1 Hs2 H%Hinj. apply (f_equal chars) in H. rewrite !chars_app in H.
  apply app_inv_head in H. simpl in H.
  apply split_first_inj in H as [Es H]; [|done..]. apply chars_inj in Es. split; [done|].
  destruct k1, k2; simpl in H; try (by injection H); simplify_eq; split; try done; by apply chars_inj.
Qed.

Definition w_spec : AuthRateLimitBucketSpec := {|
  scope := "login"; spec_windowMs := 60000; ip := Some ("1.2.3.4"%string, 2); identity := None |}.

Definition w_login (now : Z) : auth_op := Enforce (λ _, None) now w_spec.

Definition w_key : string := authRateLimitKey (λ s, s) "login" IpBucket "1.2.3.4".

(** A limit of two: of three requests two are let through. *)
Lemma auth_attempts_bounded_witness :
  (let_through (λ s, s) w_key 2 [w_login 5; w_login 6; w_login 7] ∅ ≤ 2 * 2 ∧
   (∀ r, (∅ : LimitTable) !! w_key = Some r → 0 ≤ window_started_at r → 2 ≤ hit_count r →
      let_through (λ s, s) w_key 2 [w_login 5; w_login 6; w_login 7] ∅ = 0)) ∧
  let_through (λ s, s) w_key 2 [w_login 5; w_login 6; w_login 7] ∅ = 2.
Proof.
  split; [|vm_compute; reflexivity].
  apply (auth_attempts_bounded (λ s, s) 0 w_key 2 60000).
  - repeat constructor; simpl; lia.
  - unfold stale_ms. lia.
  - lia.
  - intros r Hr. rewrite lookup_empty in Hr. discriminate.
Defined.

Lemma auth_fails_closed_witness :
  auth_buckets (λ s, s) w_spec ≠ [] ∧
  ∀ i k limit, auth_buckets (λ s, s) w_spec !! i = Some (k, limit) → (λ _, None : DbFault) i = None.
Proof.
  apply (auth_fails_closed (λ s, s) (λ _, None) 5 w_spec ∅ (fst (enforce (λ s, s) (λ _, None) 5 w_spec ∅))).
  vm_compute. reflexivity.
Defined.
