(* ===== verification/PushDeduper.v ===== *)
(** * PushDeduper: in-process deduplication of push notifications
      (relay/src/push-deduper.ts). *)

From S2P Require Import Prelude.

#[local] Open Scope Z_scope.

(** [seen] maps a key to its expiry; [sweeper] is the running interval timer. *)
Record PushDeduper : Type := {
  ttlMs : Z;
  seen : gmap string Z;
  sweeper : option Z;
}.

Definition new_deduper (ttl : option Z) : PushDeduper :=
  {| ttlMs := default 30000 ttl; seen := ∅; sweeper := None |}.

Definition with_seen (p : PushDeduper) (m : gmap string Z) : PushDeduper :=
  {| ttlMs := ttlMs p; seen := m; sweeper := sweeper p |}.

Definition shouldPush (p : PushDeduper) (key : string) (now : Z) : PushDeduper * bool :=
  let fresh := (with_seen p (<[key := now + ttlMs p]> (seen p)), true) in
  match seen p !! key with
  | Some expiry => if now <? expiry then (p, false) else fresh
  | None => fresh
  end.

Definition forget (p : PushDeduper) (key : string) : PushDeduper :=
  with_seen p (delete key (seen p)).

Definition startSweeping (p : PushDeduper) (intervalMs : option Z) : PushDeduper :=
  match sweeper p with
  | Some _ => p
  | None => {| ttlMs := ttlMs p; seen := seen p; sweeper := Some (default 60000 intervalMs) |}
  end.

Definition sweep (p : PushDeduper) (now : Z) : PushDeduper :=
  with_seen p (filter (λ kv, ¬ kv.2 ≤ now) (seen p)).

Definition push_stop (p : PushDeduper) : PushDeduper :=
  {| ttlMs := ttlMs p; seen := ∅; sweeper := None |}.

(** ** Properties *)

(** A call, at a time. *)
Inductive push_op : Type :=
| OpPush (key : string) (now : Z)
| OpForget (key : string)
| OpSweep (now : Z)
| OpStart (intervalMs : option Z).

(** The deduper after a call, and whether the caller was told to push. *)
Definition push_run (p : PushDeduper) (o : push_op) : PushDeduper * bool :=
  match o with
  | OpPush key now => shouldPush p key now
  | OpForget key => (forget p key, false)
  | OpSweep now => (sweep p now, false)
  | OpStart i => (startSweeping p i, false)
  end.

Fixpoint pushes (p : PushDeduper) (key : string) (ops : list push_op) : Z :=
  match ops with
  | [] => 0
  | o :: rest =>
      let '(p', b) := push_run p o in
      (match o with OpPush k _ => if bool_decide (k = key) && b then 1 else 0 | _ => 0 end)
      + pushes p' key rest
  end.

(** Calls before [limit] that do not forget [key]. *)
Definition quiet (key : string) (limit : Z) (o : push_op) : Prop :=
  match o with
  | OpPush _ now | OpSweep now => now < limit
  | OpForget k => k ≠ key
  | OpStart _ => True
  end.

Lemma quiet_keeps key limit o p :
  quiet key limit o → seen p !! key = Some limit →
  seen (push_run p o).1 !! key = Some limit
  ∧ (∀ now, o = OpPush key now → (push_run p o).2 = false).
Proof.
  intros Hq Hs. destruct o as [k now|k|now|i]; simpl in *.
  - destruct (decide (k = key)) as [->|Hne].
    + unfold shouldPush. rewrite Hs, (proj2 (Z.ltb_lt _ _)) by done. done.
    + split; [|congruence]. unfold shouldPush. destruct (seen p !! k) as [e|];
        [destruct (now <? e)|]; simpl; by rewrite ?lookup_insert_ne.
  - by rewrite lookup_delete_ne.
  - split; [|done]. apply map_lookup_filter_Some_2; [done|simpl; lia].
  - split; [|done]. unfold startSweeping. by destruct (sweeper p).
Qed.

(** A notification is pushed once per window: after the first [shouldPush] for a
    key, no sequence of calls before its window ends (sweeps, other keys, more
    attempts) pushes it again unless it is forgotten. *)
Theorem push_once p key now p' ops :
  shouldPush p key now = (p', true) → Forall (quiet key (now + ttlMs p)) ops →
  pushes p' key ops = 0.
Proof.
  intros H Hq.
  assert (Hs : seen p' !! key = Some (now + ttlMs p)).
  { unfold shouldPush in H. destruct (seen p !! key) as [e|];
      [destruct (now <? e); [done|]|]; injection H as <-; simpl; by rewrite lookup_insert_eq. }
  clear H. revert p' Hs. induction ops as [|o ops IH]; intros p' Hs; [done|].
  apply Forall_cons in Hq as [Ho Hq]. cbn [pushes].
  destruct (quiet_keeps _ _ _ p' Ho Hs) as [Hk Hb]. destruct (push_run p' o) as [p2 b]. cbn [fst snd] in *.
  rewrite (IH Hq p2 Hk). destruct o as [k t|k|t|i]; [|done..].
  case_bool_decide as Heq; [|done]. subst k. by rewrite (Hb t eq_refl).
Qed.

Lemma push_once_witness :
  pushes (fst (shouldPush (new_deduper None) "r" 5)) "r" [OpPush "r" 6; OpSweep 100; OpPush "r" 30004] = 0.
Proof.
  apply (push_once (new_deduper None) "r" 5).
  - vm_compute. reflexivity.
  - repeat constructor; vm_compute; reflexivity.
Defined.
