(* ===== verification/AuthLease.v ===== *)
(** * AuthLease: the local authority cache of a daemon registration
      (relay/src/ingress/auth-lease.ts).  The clock and the jitter are arguments
      of the methods that read them. *)

From S2P Require Import Prelude.

#[local] Open Scope Z_scope.

Record LeaseState : Type := { confirmedAt : Z; expiresAt : Z; refreshAt : Z }.

Record AuthLeaseManager : Type := {
  leaseMs : Z;
  refreshMs : Z;
  states : gmap string LeaseState;
}.

Definition new_manager (lease refresh : option Z) : AuthLeaseManager :=
  {| leaseMs := default 30000 lease; refreshMs := default 10000 refresh; states := ∅ |}.

Definition with_states (m : AuthLeaseManager) (s : gmap string LeaseState) : AuthLeaseManager :=
  {| leaseMs := leaseMs m; refreshMs := refreshMs m; states := s |}.

Definition nextJitter (jitter : Z) : Z := Z.max 0 jitter.

Definition confirm (m : AuthLeaseManager) (id : string) (now jitter : Z) : AuthLeaseManager :=
  with_states m (<[id := {| confirmedAt := now; expiresAt := now + leaseMs m;
                            refreshAt := now + refreshMs m + nextJitter jitter |}]> (states m)).

Definition shouldRefresh (m : AuthLeaseManager) (id : string) (now : Z) : bool :=
  match states m !! id with Some s => refreshAt s <=? now | None => false end.

Definition isUsable (m : AuthLeaseManager) (id : string) (now : Z) : bool :=
  match states m !! id with Some s => now <? expiresAt s | None => false end.

Inductive LookupDecision : Type := Keep | Expire.

Definition onLookupUnavailable (m : AuthLeaseManager) (id : string) (now jitter : Z)
    : AuthLeaseManager * LookupDecision :=
  match states m !! id with
  | None => (m, Expire)
  | Some s =>
      if expiresAt s <=? now then (m, Expire)
      else (with_states m (<[id := {| confirmedAt := confirmedAt s; expiresAt := expiresAt s;
              refreshAt := Z.min (expiresAt s) (now + refreshMs m + nextJitter jitter) |}]> (states m)),
            Keep)
  end.

Definition remove (m : AuthLeaseManager) (id : string) : AuthLeaseManager :=
  with_states m (delete id (states m)).

(** ** Properties *)

(** Failed lookups of any registrations, at any times. *)
Fixpoint lookups_fail (m : AuthLeaseManager) (l : list (string * Z * Z)) : AuthLeaseManager :=
  match l with
  | [] => m
  | (id, now, jitter) :: rest => lookups_fail (onLookupUnavailable m id now jitter).1 rest
  end.

Lemma lookup_keeps m id now jitter id' :
  expiresAt <$> states (onLookupUnavailable m id now jitter).1 !! id' = expiresAt <$> states m !! id'.
Proof.
  unfold onLookupUnavailable. destruct (states m !! id) as [s|] eqn:E; [|done].
  destruct (expiresAt s <=? now); [done|]. cbn [fst with_states states].
  destruct (decide (id' = id)) as [->|].
  - by rewrite lookup_insert_eq, E.
  - by rewrite lookup_insert_ne.
Qed.

(** A lease never outlives its confirmation: whatever lookups fail afterwards,
    at whatever times, the registration is usable exactly until the lease of its
    last confirmation ends; and a failed lookup that keeps the lease schedules
    the next refresh no later than that. *)
Theorem lease_not_extended m id t jitter fails now now' j' :
  let m' := lookups_fail (confirm m id t jitter) fails in
  isUsable m' id now = (now <? t + leaseMs m)
  ∧ (∀ m'', onLookupUnavailable m' id now' j' = (m'', Keep) →
       now' < t + leaseMs m ∧ shouldRefresh m'' id (t + leaseMs m) = true).
Proof.
  assert (H : ∀ l m0, expiresAt <$> states (lookups_fail m0 l) !! id = expiresAt <$> states m0 !! id).
  { induction l as [|[[i n] j] l IH]; intros m0; [done|]. cbn [lookups_fail].
    by rewrite IH, lookup_keeps. }
  specialize (H fails (confirm m id t jitter)). unfold confirm in H at 2. cbn [with_states states] in H.
  rewrite lookup_insert_eq in H. cbn [fmap option_fmap option_map expiresAt] in H.
  cbv zeta. destruct (states (lookups_fail (confirm m id t jitter) fails) !! id) as [s|] eqn:E; [|done].
  injection H as Hs. split.
  - unfold isUsable. rewrite E. by rewrite Hs.
  - intros m''. unfold onLookupUnavailable. rewrite E, Hs.
    destruct (Z.leb_spec (t + leaseMs m) now'); [done|]. intros [= <-]. split; [done|].
    unfold shouldRefresh. cbn [with_states states]. rewrite lookup_insert_eq. cbn [refreshAt].
    apply Z.leb_le. lia.
Qed.
