(* ===== verification/DeviceAuth.v ===== *)
(** * DeviceAuth: the device authorization session store
      (relay/src/config/auth-sessions.ts, RFC 8628).

    Two maps: sessions by device code, and an index from user codes to device
    codes.  The clock is an argument; [random n] is the base64url text of the
    random bytes drawn for the two codes of the [n]-th attempt of [create]. *)

From S2P Require Import Prelude JsValue.

#[local] Open Scope Z_scope.

Inductive AuthStatus : Type := Pending | Authorized.

Record DeviceAuthSession : Type := {
  device_code : string;
  user_code : string;
  client_id : string;
  code_challenge : string;
  machine_id : option string;
  auth_status : AuthStatus;
  user_id : option Z;
  created_at : Z;
  expires_at : Z;
  last_poll_at : Z;
  interval_seconds : Z;
}.

Record DeviceAuthStoreConfig : Type := {
  maxSessions : Z;
  ttlMs : Z;
  baseIntervalSeconds : Z;
  slowDownIncrementSeconds : Z;
  maxCreateRetries : nat;
}.

Definition DEFAULT_DEVICE_AUTH_STORE_CONFIG : DeviceAuthStoreConfig := {|
  maxSessions := 10000; ttlMs := 600000; baseIntervalSeconds := 5;
  slowDownIncrementSeconds := 5; maxCreateRetries := 5 |}.

Definition DeviceAuthStoreCapacityError : string :=
  "device authorization session store is at capacity, retry later".

Inductive PollDecision : Type :=
| Poll (intervalSeconds : Z)
| SlowDown (intervalSeconds : Z).

Record Store : Type := {
  sessions : gmap string DeviceAuthSession;
  userCodeIndex : gmap string string;
}.

Definition empty_store : Store := {| sessions := ∅; userCodeIndex := ∅ |}.

(** ** Codes *)

Definition is_alnum (c : Ascii.ascii) : bool :=
  ((48 <=? code c) && (code c <=? 57)) || ((65 <=? code c) && (code c <=? 90))
  || ((97 <=? code c) && (code c <=? 122)).

Fixpoint keep_alnum (s : string) : string :=
  match s with
  | EmptyString => EmptyString
  | String c s' => if is_alnum c then String c (keep_alnum s') else keep_alnum s'
  end.

(** [s.slice(from, to)]. *)
Definition slice (from to : nat) (s : string) : string := String.substring from (to - from) s.

Definition generateCode (length : nat) (text : string) : string := slice 0 length (keep_alnum text).

Definition generateUserCode (text : string) : string :=
  let raw := to_upper (generateCode 8 text) in
  slice 0 4 raw +:+ "-" +:+ slice 4 8 raw.

(** ** Operations *)

Definition expired (s : DeviceAuthSession) (t : Z) : bool := expires_at s <? t.

(** Deleting a session with its index entry. *)
Definition drop (st : Store) (dc : string) (s : DeviceAuthSession) : Store := {|
  sessions := delete dc (sessions st);
  userCodeIndex := delete (user_code s) (userCodeIndex st) |}.

(** The loop of [gc] over the entries of the map. *)
Definition gc_entries (st : Store) (t : Z) (l : list (string * DeviceAuthSession)) : Store :=
  foldl (λ st x, if expired (snd x) t then drop st (fst x) (snd x) else st) st l.

Definition gc (st : Store) (t : Z) : Store := gc_entries st t (map_to_list (sessions st)).

(** The first attempt whose codes are both free; attempts [from .. from + todo - 1]. *)
Fixpoint find_codes (st : Store) (random : nat → string * string) (from todo : nat)
    : option (string * string) :=
  match todo with
  | O => None
  | S todo' =>
      let dc := generateCode 40 (fst (random from)) in
      let uc := generateUserCode (snd (random from)) in
      if bool_decide (is_Some (sessions st !! dc)) || bool_decide (is_Some (userCodeIndex st !! uc))
      then find_codes st random (S from) todo'
      else Some (dc, uc)
  end.

Definition new_session (config : DeviceAuthStoreConfig) (dc uc clientId codeChallenge : string)
    (machineId : option string) (t : Z) : DeviceAuthSession := {|
  device_code := dc; user_code := uc; client_id := clientId; code_challenge := codeChallenge;
  machine_id := machineId; auth_status := Pending; user_id := None; created_at := t;
  expires_at := t + ttlMs config; last_poll_at := 0;
  interval_seconds := baseIntervalSeconds config |}.

Record Created : Type := {
  out_device_code : string; out_user_code : string; expires_in : Z; out_interval : Z }.

Definition create (config : DeviceAuthStoreConfig) (random : nat → string * string)
    (clientId codeChallenge : string) (machineId : option string) (t : Z) (st : Store)
    : Store * outcome Created :=
  let st := gc st t in
  if maxSessions config <=? Z.of_nat (size (sessions st))
  then (st, Throws DeviceAuthStoreCapacityError)
  else
    let '(dc, uc) := default (EmptyString, EmptyString)
                       (find_codes st random 0 (S (maxCreateRetries config))) in
    if bool_decide (dc = EmptyString) || bool_decide (uc = EmptyString)
    then (st, Throws DeviceAuthStoreCapacityError)
    else
      ({| sessions := <[dc := new_session config dc uc clientId codeChallenge machineId t]> (sessions st);
          userCodeIndex := <[uc := dc]> (userCodeIndex st) |},
       Returns {| out_device_code := dc; out_user_code := uc; expires_in := ttlMs config / 1000;
                  out_interval := baseIntervalSeconds config |}).

Definition getByDeviceCode (st : Store) (dc : string) (t : Z) : Store * option DeviceAuthSession :=
  match sessions st !! dc with
  | None => (st, None)
  | Some s => if expired s t then (drop st dc s, None) else (st, Some s)
  end.

Definition getByUserCode (st : Store) (userCode : string) (t : Z)
    : Store * option DeviceAuthSession :=
  match userCodeIndex st !! to_upper userCode with
  | None => (st, None)
  | Some dc =>
      if bool_decide (dc = EmptyString) then (st, None)
      else
        match sessions st !! dc with
        | None => ({| sessions := sessions st;
                      userCodeIndex := delete (to_upper userCode) (userCodeIndex st) |}, None)
        | Some s => if expired s t then (drop st dc s, None) else (st, Some s)
        end
  end.

Definition authorized (s : DeviceAuthSession) (userId : Z) : DeviceAuthSession := {|
  device_code := device_code s; user_code := user_code s; client_id := client_id s;
  code_challenge := code_challenge s; machine_id := machine_id s; auth_status := Authorized;
  user_id := Some userId; created_at := created_at s; expires_at := expires_at s;
  last_poll_at := last_poll_at s; interval_seconds := interval_seconds s |}.

(** The session found is the object stored under its device code. *)
Definition authorize (st : Store) (userCode : string) (userId t : Z) : Store * bool :=
  match getByUserCode st userCode t with
  | (st, None) => (st, false)
  | (st, Some s) =>
      ({| sessions := <[device_code s := authorized s userId]> (sessions st);
          userCodeIndex := userCodeIndex st |}, true)
  end.

Definition with_poll (s : DeviceAuthSession) (last interval : Z) : DeviceAuthSession := {|
  device_code := device_code s; user_code := user_code s; client_id := client_id s;
  code_challenge := code_challenge s; machine_id := machine_id s; auth_status := auth_status s;
  user_id := user_id s; created_at := created_at s; expires_at := expires_at s;
  last_poll_at := last; interval_seconds := interval |}.

Definition registerPoll (config : DeviceAuthStoreConfig) (st : Store) (dc : string) (t : Z)
    : Store * PollDecision :=
  match sessions st !! dc with
  | None => (st, Poll (baseIntervalSeconds config))
  | Some s =>
      if expired s t then (drop st dc s, Poll (baseIntervalSeconds config))
      else
        let put s := {| sessions := <[dc := s]> (sessions st); userCodeIndex := userCodeIndex st |} in
        if (0 <? last_poll_at s) && (t - last_poll_at s <? interval_seconds s * 1000)
        then
          let i := interval_seconds s + slowDownIncrementSeconds config in
          (put (with_poll s (last_poll_at s) i), SlowDown i)
        else (put (with_poll s t (interval_seconds s)), Poll (interval_seconds s))
  end.

Definition deleteSession (st : Store) (dc : string) : Store :=
  match sessions st !! dc with
  | Some s => drop st dc s
  | None => st
  end.

(** ** Upper-case codes *)

Lemma upper_char_idem c : upper_char (upper_char c) = upper_char c.
Proof.
  assert (H : forallb (λ c, Ascii.eqb (upper_char (upper_char c)) (upper_char c)) (all_ascii_below 256) = true)
    by (vm_compute; reflexivity).
  rewrite forallb_forall in H. apply Ascii.eqb_eq, H, list_elem_of_In, all_ascii.
Qed.

Lemma to_upper_idem s : to_upper (to_upper s) = to_upper s.
Proof. induction s as [|c s IH]; simpl; [done|]. by rewrite upper_char_idem, IH. Qed.

Lemma to_upper_app s t : to_upper (s +:+ t) = to_upper s +:+ to_upper t.
Proof.
  induction s as [|c s IH]; [done|]. change (String c s +:+ t) with (String c (s +:+ t)).
  cbn [to_upper]. by rewrite IH.
Qed.

Lemma to_upper_substring n m s : to_upper (String.substring n m s) = String.substring n m (to_upper s).
Proof.
  revert n m. induction s as [|c s IH]; intros [|n] [|m]; try reflexivity;
    cbn [String.substring to_upper]; by rewrite <- ?IH.
Qed.

Lemma user_code_upper text : to_upper (generateUserCode text) = generateUserCode text.
Proof.
  unfold generateUserCode, slice. rewrite !to_upper_app, !to_upper_substring, to_upper_idem. done.
Qed.

(** ** The invariant *)

Record store_ok (config : DeviceAuthStoreConfig) (st : Store) : Prop := {
  so_session : ∀ dc s, sessions st !! dc = Some s →
    device_code s = dc ∧ dc ≠ EmptyString ∧ userCodeIndex st !! user_code s = Some dc
    ∧ to_upper (user_code s) = user_code s;
  so_index : ∀ uc dc, userCodeIndex st !! uc = Some dc →
    ∃ s, sessions st !! dc = Some s ∧ user_code s = uc;
  so_size : Z.of_nat (size (sessions st)) ≤ maxSessions config;
}.

Lemma drop_ok config st dc s :
  store_ok config st → sessions st !! dc = Some s → store_ok config (drop st dc s).
Proof.
  intros [H1 H2 H3] Hs. destruct (H1 _ _ Hs) as (Hd & Hne & Hi & Hu).
  split; unfold drop; cbn [sessions userCodeIndex].
  - intros dc' s' [Hdc' Hs']%lookup_delete_Some. destruct (H1 _ _ Hs') as (? & ? & Hi' & ?).
    split_and!; auto. rewrite lookup_delete_ne; [done|]. intros E. rewrite E, Hi' in Hi. congruence.
  - intros uc dc' [Huc Hdc']%lookup_delete_Some. destruct (H2 _ _ Hdc') as (s' & Hs' & <-).
    exists s'. split; [|done]. apply lookup_delete_Some. split; [|done]. intros ->.
    rewrite Hs in Hs'. congruence.
  - rewrite map_size_delete, Hs. lia.
Qed.

(** An update of a session that keeps its codes. *)
Lemma put_ok config st dc s s' :
  store_ok config st → sessions st !! dc = Some s →
  device_code s' = device_code s → user_code s' = user_code s →
  store_ok config {| sessions := <[dc := s']> (sessions st); userCodeIndex := userCodeIndex st |}.
Proof.
  intros [H1 H2 H3] Hs Hd Hu. split; cbn [sessions userCodeIndex].
  - intros dc' x. destruct (decide (dc' = dc)) as [->|Hne].
    + rewrite lookup_insert_eq. intros [= <-]. rewrite Hd, Hu. by apply H1.
    + rewrite lookup_insert_ne by done. apply H1.
  - intros uc dc' Hi. destruct (H2 _ _ Hi) as (x & Hx & Hxu).
    destruct (decide (dc' = dc)) as [->|Hne].
    + exists s'. rewrite lookup_insert_eq. split; [done|]. congruence.
    + exists x. by rewrite lookup_insert_ne.
  - rewrite map_size_insert_Some by (by eexists). done.
Qed.

(** The collected entries are those of the map, minus the ones dropped. *)
Lemma gc_entries_ok config t l : ∀ st,
  store_ok config st → NoDup l.*1 → (∀ dc s, (dc, s) ∈ l → sessions st !! dc = Some s) →
  store_ok config (gc_entries st t l)
  ∧ ∀ dc, sessions (gc_entries st t l) !! dc
          = match sessions st !! dc with
            | Some s => if bool_decide (dc ∈ l.*1) && expired s t then None else Some s
            | None => None
            end.
Proof.
  induction l as [|[dc s] l IH]; intros st Hok Hnd Hl; cbn [gc_entries foldl].
  - split; [done|]. intros dc. by destruct (sessions st !! dc).
  - apply NoDup_cons in Hnd as [Hn Hnd]. cbn [fst snd] in *.
    assert (Hs : sessions st !! dc = Some s) by (apply Hl; left).
    set (st1 := if expired s t then drop st dc s else st).
    assert (Hok1 : store_ok config st1) by (unfold st1; destruct (expired s t); [by apply drop_ok|done]).
    assert (Hne : ∀ dc' s', (dc', s') ∈ l → dc' ≠ dc).
    { intros dc' s' Hin ->. apply Hn, list_elem_of_fmap. by exists (dc, s'). }
    destruct (IH st1 Hok1 Hnd) as [H1 H2].
    { intros dc' s' Hin. unfold st1. destruct (expired s t); [|apply Hl; by right].
      unfold drop. cbn [sessions]. rewrite lookup_delete_ne by (symmetry; by eapply Hne).
      apply Hl. by right. }
    split; [exact H1|]. intros dc'. change (foldl _ _ l) with (gc_entries st1 t l). rewrite H2.
    unfold st1. destruct (decide (dc' = dc)) as [->|Hd].
    + rewrite Hs. destruct (expired s t) eqn:Ee; unfold drop; cbn [sessions].
      * rewrite lookup_delete_eq, bool_decide_true by (rewrite fmap_cons; left). done.
      * rewrite Hs, Ee, !andb_false_r. done.
    + assert (Hlk : sessions (if expired s t then drop st dc s else st) !! dc' = sessions st !! dc').
      { destruct (expired s t); [|done]. unfold drop. cbn [sessions]. by rewrite lookup_delete_ne. }
      rewrite Hlk. destruct (sessions st !! dc') as [s'|]; [|done].
      rewrite (bool_decide_ext (dc' ∈ l.*1) (dc' ∈ ((dc, s) :: l).*1)); [done|].
      rewrite fmap_cons, elem_of_cons. split; [by right|]. intros [->|]; done.
Qed.

Lemma gc_ok config st t :
  store_ok config st →
  store_ok config (gc st t)
  ∧ ∀ dc, sessions (gc st t) !! dc
          = match sessions st !! dc with
            | Some s => if expired s t then None else Some s
            | None => None
            end.
Proof.
  intros Hok. destruct (gc_entries_ok config t (map_to_list (sessions st)) st Hok) as [H1 H2].
  - apply NoDup_fst_map_to_list.
  - intros dc s. by rewrite elem_of_map_to_list.
  - split; [exact H1|]. intros dc. unfold gc. rewrite H2.
    destruct (sessions st !! dc) as [s|] eqn:E; [|done].
    rewrite bool_decide_true; [done|]. apply list_elem_of_fmap. exists (dc, s).
    by rewrite elem_of_map_to_list.
Qed.

Lemma find_codes_free st random from todo dc uc :
  find_codes st random from todo = Some (dc, uc) →
  sessions st !! dc = None ∧ userCodeIndex st !! uc = None ∧ to_upper uc = uc.
Proof.
  revert from. induction todo as [|todo IH]; intros from; cbn [find_codes]; [done|].
  destruct (_ || _) eqn:E; [apply IH|]. intros [= <- <-]. bool_hyps.
  rewrite <- !eq_None_not_Some in *. split_and!; auto. apply user_code_upper.
Qed.

Lemma insert_ok config st dc uc clientId challenge machine t :
  store_ok config st → Z.of_nat (size (sessions st)) < maxSessions config →
  dc ≠ EmptyString → sessions st !! dc = None → userCodeIndex st !! uc = None → to_upper uc = uc →
  store_ok config
    {| sessions := <[dc := new_session config dc uc clientId challenge machine t]> (sessions st);
       userCodeIndex := <[uc := dc]> (userCodeIndex st) |}.
Proof.
  intros [H1 H2 H3] Hsz Hdc Hs Hi Hu. split; cbn [sessions userCodeIndex].
  - intros dc' s'. destruct (decide (dc' = dc)) as [->|Hne].
    + rewrite lookup_insert_eq. intros [= <-]. cbn [device_code user_code]. by rewrite lookup_insert_eq.
    + rewrite lookup_insert_ne by done. intros Hs'. destruct (H1 _ _ Hs') as (? & ? & Hi' & ?).
      split_and!; auto. rewrite lookup_insert_ne; [done|]. intros ->. congruence.
  - intros uc' dc'. destruct (decide (uc' = uc)) as [->|Hne].
    + rewrite lookup_insert_eq. intros [= <-]. eexists. by rewrite lookup_insert_eq.
    + rewrite lookup_insert_ne by done. intros Hi'. destruct (H2 _ _ Hi') as (s' & Hs' & <-).
      exists s'. split; [|done]. rewrite lookup_insert_ne; [done|]. intros ->. congruence.
  - rewrite map_size_insert_None by done. lia.
Qed.

Lemma create_ok config random clientId challenge machine t st st' r :
  store_ok config st → create config random clientId challenge machine t st = (st', r) →
  store_ok config st'.
Proof.
  intros Hok H. unfold create in H. destruct (gc_ok config st t Hok) as [Hgc _].
  destruct (Z.leb_spec (maxSessions config) (Z.of_nat (size (sessions (gc st t)))));
    [by simplify_eq|].
  destruct (find_codes (gc st t) random 0 _) as [[dc uc]|] eqn:Ef; cbn [from_option id] in H.
  - destruct (_ || _) eqn:Eg; [by simplify_eq|]. bool_hyps. simplify_eq.
    apply find_codes_free in Ef as (? & ? & ?). by apply insert_ok.
  - rewrite bool_decide_true in H by done. cbn [orb] in H. by injection H as <- _.
Qed.

Lemma get_user_ok config st uc t st' r :
  store_ok config st → getByUserCode st uc t = (st', r) →
  store_ok config st'
  ∧ match r with
    | Some s => st' = st ∧ sessions st !! device_code s = Some s ∧ user_code s = to_upper uc
                ∧ expired s t = false
    | None => True
    end.
Proof.
  intros Hok H. unfold getByUserCode in H.
  destruct (userCodeIndex st !! to_upper uc) as [dc|] eqn:Ei; [|by simplify_eq].
  destruct (so_index _ _ Hok _ _ Ei) as (s & Hs & Hu). destruct (so_session _ _ Hok _ _ Hs) as (Hd & Hne & _).
  rewrite bool_decide_false, Hs in H by done. destruct (expired s t) eqn:Ee; simplify_eq.
  - split; [by apply drop_ok|done].
  - split; [done|]. by rewrite Hu.
Qed.

(** ** Steps *)

Inductive store_step (config : DeviceAuthStoreConfig) : Store → Store → Prop :=
| st_create random cid ch mid t st st' r :
    create config random cid ch mid t st = (st', r) → store_step config st st'
| st_get dc t st st' r : getByDeviceCode st dc t = (st', r) → store_step config st st'
| st_get_user uc t st st' r : getByUserCode st uc t = (st', r) → store_step config st st'
| st_authorize uc u t st st' b : authorize st uc u t = (st', b) → store_step config st st'
| st_poll dc t st st' r : registerPoll config st dc t = (st', r) → store_step config st st'
| st_delete dc st : store_step config st (deleteSession st dc)
| st_gc t st : store_step config st (gc st t).

Lemma store_step_ok config st st' : store_ok config st → store_step config st st' → store_ok config st'.
Proof.
  intros Hok Hs. revert Hok.
  destruct Hs as [random cid ch mid t st st' r H|dc t st st' r H|uc t st st' r H|uc u t st st' b H
    |dc t st st' r H|dc st|t st]; intros Hok.
  - by eapply create_ok.
  - unfold getByDeviceCode in H. destruct (sessions st !! dc) as [s|] eqn:E; [|by simplify_eq].
    destruct (expired s t); simplify_eq; [by apply drop_ok|done].
  - by eapply get_user_ok.
  - unfold authorize in H. destruct (getByUserCode st uc t) as [st1 [s|]] eqn:E; simplify_eq.
    + apply (get_user_ok config) in E as [_ (-> & Hs & _)]; [|done]. by apply (put_ok config st (device_code s) s).
    + by eapply get_user_ok.
  - unfold registerPoll in H. destruct (sessions st !! dc) as [s|] eqn:E; [|by simplify_eq].
    destruct (expired s t); [simplify_eq; by apply drop_ok|].
    destruct (_ && _); simplify_eq; by eapply put_ok.
  - unfold deleteSession. destruct (sessions st !! dc) as [s|] eqn:E; [by apply drop_ok|done].
  - by apply gc_ok.
Qed.

Lemma empty_store_ok config : 0 ≤ maxSessions config → store_ok config empty_store.
Proof.
  intros H. split; cbn [empty_store sessions userCodeIndex].
  - intros dc s. by rewrite lookup_empty.
  - intros uc dc. by rewrite lookup_empty.
  - by rewrite map_size_empty.
Qed.

(** ** Claims *)

(** The index and the sessions always agree: whatever operations run, each
    session is indexed under its user code, each index entry leads to a session
    with that code, so no orphan entry exists, and the number of sessions never
    passes the cap. *)
Theorem device_store_consistent config st :
  0 ≤ maxSessions config → rtc (store_step config) empty_store st →
  (∀ dc s, sessions st !! dc = Some s → device_code s = dc ∧ userCodeIndex st !! user_code s = Some dc)
  ∧ (∀ uc dc, userCodeIndex st !! uc = Some dc → ∃ s, sessions st !! dc = Some s ∧ user_code s = uc)
  ∧ Z.of_nat (size (sessions st)) ≤ maxSessions config.
Proof.
  intros Hmax Hs. assert (Hok : store_ok config st).
  { pose proof (empty_store_ok config Hmax) as H0. remember empty_store as s0 eqn:E. clear E.
    induction Hs; eauto using store_step_ok. }
  destruct Hok as [H1 H2 H3]. split_and!; auto. intros dc s Hd. destruct (H1 _ _ Hd) as (? & _ & ? & _). done.
Qed.

(** The device flow round-trips: the user code [create] returned, typed in any
    case before it expires, authorises the session, and the device then reads
    the authorised session under its device code until the code expires. *)
Theorem device_flow_roundtrip config random cid ch mid t st st1 c typed userId t1 t2 :
  store_ok config st → create config random cid ch mid t st = (st1, Returns c) →
  to_upper typed = out_user_code c → t1 ≤ t + ttlMs config → t2 ≤ t + ttlMs config →
  ∃ st2 s, authorize st1 typed userId t1 = (st2, true)
    ∧ getByDeviceCode st2 (out_device_code c) t2 = (st2, Some s)
    ∧ auth_status s = Authorized ∧ user_id s = Some userId ∧ client_id s = cid
    ∧ code_challenge s = ch ∧ machine_id s = mid.
Proof.
  intros Hok H Ht H1 H2. pose proof (create_ok _ _ _ _ _ _ _ _ _ Hok H) as Hok1.
  unfold create in H. destruct (_ <=? _); [done|].
  destruct (default _ (find_codes (gc st t) random 0 _)) as [dc uc].
  destruct (bool_decide (dc = EmptyString)) eqn:Ed; [done|]. cbn [orb] in H.
  destruct (bool_decide (uc = EmptyString)) eqn:Eu; [done|]. injection H as <- <-.
  cbn [out_user_code out_device_code] in *. bool_hyps.
  set (s0 := new_session config dc uc cid ch mid t).
  assert (Hexp : ∀ x, x ≤ t + ttlMs config → expired s0 x = false) by (intros; by apply Z.ltb_ge).
  exists {| sessions := <[dc := authorized s0 userId]> (<[dc := s0]> (sessions (gc st t)));
            userCodeIndex := <[uc := dc]> (userCodeIndex (gc st t)) |}, (authorized s0 userId).
  unfold authorize, getByUserCode, getByDeviceCode. rewrite Ht. cbn [sessions userCodeIndex].
  rewrite lookup_insert_eq, bool_decide_false, lookup_insert_eq by done. fold s0. rewrite (Hexp t1 H1).
  cbn [device_code s0 new_session sessions userCodeIndex]. fold s0. rewrite lookup_insert_eq.
  rewrite (Hexp t2 H2 : expired (authorized s0 userId) t2 = false). by split_and!.
Qed.

(** Polling keeps its distance: a poll of a live code is answered normally only
    when it is the first or at least the current interval has passed since the
    last such poll; a faster one is told to slow down and raises the interval for
    good, by the increment. *)
Theorem poll_spacing config st dc s t :
  sessions st !! dc = Some s → expired s t = false →
  let paced := last_poll_at s ≤ 0 ∨ last_poll_at s + interval_seconds s * 1000 ≤ t in
  (paced → registerPoll config st dc t
           = ({| sessions := <[dc := with_poll s t (interval_seconds s)]> (sessions st);
                 userCodeIndex := userCodeIndex st |}, Poll (interval_seconds s)))
  ∧ (¬ paced → registerPoll config st dc t
           = ({| sessions := <[dc := with_poll s (last_poll_at s)
                               (interval_seconds s + slowDownIncrementSeconds config)]> (sessions st);
                 userCodeIndex := userCodeIndex st |},
              SlowDown (interval_seconds s + slowDownIncrementSeconds config))).
Proof.
  intros Hs He paced. unfold registerPoll. rewrite Hs, He. split; intros Hp.
  - replace ((0 <? last_poll_at s) && (t - last_poll_at s <? interval_seconds s * 1000)) with false; [done|].
    symmetry. apply andb_false_iff. rewrite !Z.ltb_ge. unfold paced in Hp. lia.
  - replace ((0 <? last_poll_at s) && (t - last_poll_at s <? interval_seconds s * 1000)) with true; [done|].
    symmetry. apply andb_true_iff. rewrite !Z.ltb_lt. unfold paced in Hp. lia.
Qed.

(** ** Witnesses *)

Definition sample_random : nat → string * string := λ n, ("devicecode", "abcdefgh")%string.

Definition sample_created : Store :=
  fst (create DEFAULT_DEVICE_AUTH_STORE_CONFIG sample_random "cli" "ch" None 100 empty_store).

Definition sample_code : Created := {|
  out_device_code := "devicecode"; out_user_code := "ABCD-EFGH"; expires_in := 600;
  out_interval := 5 |}.

Lemma sample_create :
  create DEFAULT_DEVICE_AUTH_STORE_CONFIG sample_random "cli" "ch" None 100 empty_store
  = (sample_created, Returns sample_code).
Proof. vm_compute. reflexivity. Qed.

Lemma device_store_consistent_witness :
  Z.of_nat (size (sessions sample_created)) = 1
  ∧ Z.of_nat (size (sessions sample_created)) ≤ maxSessions DEFAULT_DEVICE_AUTH_STORE_CONFIG.
Proof.
  split; [vm_compute; reflexivity|].
  apply (device_store_consistent DEFAULT_DEVICE_AUTH_STORE_CONFIG sample_created).
  - vm_compute. congruence.
  - apply rtc_once. eapply st_create. apply sample_create.
Defined.

Lemma device_flow_roundtrip_witness :
  ∃ st2 s, authorize sample_created "abcd-efgh" 7 200 = (st2, true)
    ∧ getByDeviceCode st2 "devicecode" 300 = (st2, Some s) ∧ user_id s = Some 7.
Proof.
  destruct (device_flow_roundtrip DEFAULT_DEVICE_AUTH_STORE_CONFIG sample_random "cli" "ch" None 100
    empty_store sample_created sample_code "abcd-efgh" 7 200 300) as (st2 & s & H1 & H2 & _ & H3 & _).
  - apply empty_store_ok. vm_compute. congruence.
  - apply sample_create.
  - vm_compute. reflexivity.
  - vm_compute. congruence.
  - vm_compute. congruence.
  - exists st2, s. split; [exact H1|]. split; [exact H2|exact H3].
Defined.

Lemma poll_spacing_witness :
  snd (registerPoll DEFAULT_DEVICE_AUTH_STORE_CONFIG sample_created "devicecode" 150) = Poll 5.
Proof.
  assert (Hs : sessions sample_created !! "devicecode"%string
    = Some (new_session DEFAULT_DEVICE_AUTH_STORE_CONFIG "devicecode" "ABCD-EFGH" "cli" "ch" None 100))
    by (vm_compute; reflexivity).
  rewrite (proj1 (poll_spacing DEFAULT_DEVICE_AUTH_STORE_CONFIG sample_created "devicecode" _ 150 Hs eq_refl)
    (or_introl (Z.le_refl 0))). reflexivity.
Defined.
