(* ===== verification/LoginTokens.v ===== *)
(** * LoginTokens: QR login sessions and WebSocket tickets
      (relay/src/config/qr-sessions.ts, relay/src/config/ws-tickets.ts).

    [Qr] is the in-memory store of scan-to-login sessions; [Tickets] the shared
    table of single-use WebSocket tickets, whose hash function (SHA-256) is a
    parameter.  Clocks, random texts and statement failures are arguments. *)

From S2P Require Import Prelude JsValue DeviceAuth.

#[local] Open Scope Z_scope.

Module Qr.

Inductive QrSessionStatus : Type := QPending | QScanned | QConfirmed.

Record QrSession : Type := {
  qr_token : string;
  qr_status : QrSessionStatus;
  qr_user_id : option Z;
  qr_created_at : Z;
  qr_expires_at : Z;
}.

Record QrSessionStoreConfig : Type := { qr_maxSessions : Z; qr_ttlMs : Z }.

Definition DEFAULT_QR_SESSION_STORE_CONFIG : QrSessionStoreConfig :=
  {| qr_maxSessions := 5000; qr_ttlMs := 120000 |}.

Definition QrSessionStoreCapacityError : string :=
  "QR login session store is at capacity, retry later".

Abbreviation QrStore := (gmap string QrSession).

Definition qr_gc (m : QrStore) (t : Z) : QrStore := filter (λ kv, ¬ qr_expires_at kv.2 < t) m.

(** [random n] is the base64url text drawn by attempt [n]. *)
Fixpoint find_token (m : QrStore) (random : nat → string) (from todo : nat) : string :=
  match todo with
  | O => EmptyString
  | S todo' =>
      let candidate := generateCode 32 (random from) in
      if bool_decide (is_Some (m !! candidate)) then find_token m random (S from) todo'
      else candidate
  end.

Definition qr_create (config : QrSessionStoreConfig) (random : nat → string) (t : Z) (m : QrStore)
    : QrStore * outcome (string * Z) :=
  let m := qr_gc m t in
  if qr_maxSessions config <=? Z.of_nat (size m) then (m, Throws QrSessionStoreCapacityError)
  else
    let token := find_token m random 0 6 in
    if bool_decide (token = EmptyString) then (m, Throws QrSessionStoreCapacityError)
    else
      (<[token := {| qr_token := token; qr_status := QPending; qr_user_id := None;
                     qr_created_at := t; qr_expires_at := t + qr_ttlMs config |}]> m,
       Returns (token, qr_ttlMs config / 1000)).

(** A lookup that deletes what has expired. *)
Definition qr_get (m : QrStore) (token : string) (t : Z) : QrStore * option QrSession :=
  match m !! token with
  | None => (m, None)
  | Some s => if qr_expires_at s <? t then (delete token m, None) else (m, Some s)
  end.

Definition set_status (s : QrSession) (st : QrSessionStatus) (u : option Z) : QrSession := {|
  qr_token := qr_token s; qr_status := st; qr_user_id := u;
  qr_created_at := qr_created_at s; qr_expires_at := qr_expires_at s |}.

Definition markScanned (m : QrStore) (token : string) (t : Z) : QrStore * bool :=
  match qr_get m token t with
  | (m, None) => (m, false)
  | (m, Some s) =>
      (match qr_status s with
       | QPending => <[token := set_status s QScanned (qr_user_id s)]> m
       | _ => m
       end, true)
  end.

Definition qr_confirm (m : QrStore) (token : string) (userId t : Z) : QrStore * bool :=
  match qr_get m token t with
  | (m, None) => (m, false)
  | (m, Some s) => (<[token := set_status s QConfirmed (Some userId)]> m, true)
  end.

Definition qr_remove (m : QrStore) (token : string) : QrStore := delete token m.

(** ** Properties *)

Inductive qr_step (config : QrSessionStoreConfig) : QrStore → QrStore → Prop :=
| qs_create random t m m' r : qr_create config random t m = (m', r) → qr_step config m m'
| qs_get token t m m' r : qr_get m token t = (m', r) → qr_step config m m'
| qs_scan token t m m' b : markScanned m token t = (m', b) → qr_step config m m'
| qs_confirm token u t m m' b : qr_confirm m token u t = (m', b) → qr_step config m m'
| qs_remove token m : qr_step config m (qr_remove m token)
| qs_gc t m : qr_step config m (qr_gc m t).

Record qr_ok (config : QrSessionStoreConfig) (m : QrStore) : Prop := {
  qo_bound : ∀ k s, m !! k = Some s →
    qr_token s = k ∧ (qr_status s = QConfirmed ↔ is_Some (qr_user_id s));
  qo_size : Z.of_nat (size m) ≤ qr_maxSessions config;
}.

Lemma qr_delete_ok config m k : qr_ok config m → qr_ok config (delete k m).
Proof.
  intros [H1 H2]. split.
  - intros k' s [_ Hs]%lookup_delete_Some. auto.
  - rewrite map_size_delete. destruct (m !! k); unfold id; lia.
Qed.

Lemma qr_gc_ok config m t : qr_ok config m → qr_ok config (qr_gc m t).
Proof.
  intros [H1 H2]. split.
  - intros k s [Hs _]%map_lookup_filter_Some. auto.
  - assert (size (qr_gc m t) ≤ size m)%nat; [|lia]. apply map_subseteq_size, map_filter_subseteq.
Qed.

Lemma qr_get_ok config m k t m' r :
  qr_ok config m → qr_get m k t = (m', r) →
  qr_ok config m' ∧ (∀ s, r = Some s → m' = m ∧ m !! k = Some s ∧ t ≤ qr_expires_at s).
Proof.
  intros Hok H. unfold qr_get in H. destruct (m !! k) as [s|] eqn:E; [|by simplify_eq].
  destruct (Z.ltb_spec (qr_expires_at s) t); simplify_eq.
  - split; [by apply qr_delete_ok|done].
  - split; [done|]. intros s' [= <-]. done.
Qed.

Lemma qr_put_ok config m k s s' :
  qr_ok config m → m !! k = Some s → qr_token s' = qr_token s →
  (qr_status s' = QConfirmed ↔ is_Some (qr_user_id s')) → qr_ok config (<[k := s']> m).
Proof.
  intros [H1 H2] Hs Ht Hc. split.
  - intros k' x. destruct (decide (k' = k)) as [->|Hne].
    + rewrite lookup_insert_eq. intros [= <-]. destruct (H1 _ _ Hs). split; [congruence|done].
    + rewrite lookup_insert_ne by done. apply H1.
  - rewrite map_size_insert_Some by (by eexists). done.
Qed.

Lemma find_token_free m random from todo :
  let token := find_token m random from todo in token = EmptyString ∨ m !! token = None.
Proof.
  revert from. induction todo as [|todo IH]; intros from; cbn [find_token]; [by left|].
  case_bool_decide as H; [apply IH|]. right. by apply eq_None_not_Some.
Qed.

Lemma qr_step_ok config m m' : qr_ok config m → qr_step config m m' → qr_ok config m'.
Proof.
  intros Hok Hs. revert Hok. destruct Hs as [random t m m' r H|k t m m' r H|k t m m' b H
    |k u t m m' b H|k m|t m]; intros Hok.
  - unfold qr_create in H. pose proof (qr_gc_ok config m t Hok) as Hg.
    destruct (Z.leb_spec (qr_maxSessions config) (Z.of_nat (size (qr_gc m t)))); [by simplify_eq|].
    destruct (find_token_free (qr_gc m t) random 0 6) as [Hf|Hf]; cbv zeta in Hf.
    + rewrite bool_decide_true in H by done. by simplify_eq.
    + case_bool_decide; [by simplify_eq|]. injection H as <- _. destruct Hg as [G1 G2]. split.
      * intros k s. set (token := find_token _ _ _ _) in *. destruct (decide (k = token)) as [->|].
        -- rewrite lookup_insert_eq. intros [= <-]. split; [done|]. split; [done|by intros []].
        -- rewrite lookup_insert_ne by done. apply G1.
      * rewrite map_size_insert_None by done. lia.
  - by eapply qr_get_ok.
  - unfold markScanned in H. destruct (qr_get m k t) as [m1 [s|]] eqn:E; simplify_eq;
      [|by eapply qr_get_ok].
    apply (qr_get_ok config) in E as [Hok1 E]; [|done]. destruct (E s eq_refl) as (-> & Hs & _).
    destruct (qr_status s) eqn:Est; [|done..]. eapply qr_put_ok; [done..|].
    destruct (qo_bound _ _ Hok _ _ Hs) as [_ Hb]. cbn [set_status qr_status qr_user_id]. rewrite <- Hb, Est. done.
  - unfold qr_confirm in H. destruct (qr_get m k t) as [m1 [s|]] eqn:E; simplify_eq;
      [|by eapply qr_get_ok].
    apply (qr_get_ok config) in E as [Hok1 E]; [|done]. destruct (E s eq_refl) as (-> & Hs & _).
    eapply qr_put_ok; [done..|]. cbn [set_status qr_status qr_user_id]. split; [by eexists|done].
  - by apply qr_delete_ok.
  - by apply qr_gc_ok.
Qed.

(** A QR session names a user exactly when it was confirmed, is stored under its
    own token, and the store never passes its cap, whatever operations run. *)
Theorem qr_store_consistent config m :
  0 ≤ qr_maxSessions config → rtc (qr_step config) ∅ m → qr_ok config m.
Proof.
  intros Hmax Hs. assert (H0 : qr_ok config ∅).
  { split; [intros k s; by rewrite lookup_empty|by rewrite map_size_empty]. }
  remember (∅ : QrStore) as m0 eqn:E. clear E. induction Hs; eauto using qr_step_ok.
Qed.

Lemma qr_store_consistent_witness :
  qr_ok DEFAULT_QR_SESSION_STORE_CONFIG
    (qr_create DEFAULT_QR_SESSION_STORE_CONFIG (λ _, "token"%string) 5 ∅).1.
Proof.
  apply (qr_store_consistent DEFAULT_QR_SESSION_STORE_CONFIG).
  - vm_compute. congruence.
  - apply rtc_once. eapply (qs_create _ (λ _, "token"%string) 5 ∅). vm_compute. reflexivity.
Defined.
End Qr.

Module Tickets.

Record WsTicketPayload : Type := {
  tk_userId : Z;
  tk_email : string;
  tk_jti : string;
  tk_machine_id : string;
}.

(** A row of [websocket_tickets], under its hash. *)
Record TicketRow : Type := { tk_payload : WsTicketPayload; tk_expires_at : Z }.

Abbreviation TicketTable := (gmap string TicketRow).

Definition DEFAULT_MAX_TICKETS : Z := 20000.

Definition WsTicketStoreCapacityError : string :=
  "websocket ticket store is at capacity, retry later".

(** A failing statement of a call: its message, and whether the commit had
    taken effect when the connection was lost. *)
Definition Failure : Type := option (string * bool).

(** The transaction of [insert]: [None] is a rollback with [false]. *)
Definition insert_ticket (m : TicketTable) (hash : string) (p : WsTicketPayload)
    (ttlMs maxTickets now : Z) : option TicketTable :=
  let live := filter (λ kv, ¬ tk_expires_at kv.2 ≤ now) m in
  if maxTickets <=? Z.of_nat (size live) then None
  else
    match live !! hash with
    | Some _ => None
    | None => Some (<[hash := {| tk_payload := p; tk_expires_at := now + ttlMs |}]> live)
    end.

Definition ticket_insert (m : TicketTable) (hash : string) (p : WsTicketPayload)
    (ttlMs maxTickets now : Z) (failure : Failure) : TicketTable * outcome bool :=
  let r := insert_ticket m hash p ttlMs maxTickets now in
  match failure with
  | Some (e, applied) => (if applied then default m r else m, Throws e)
  | None => (default m r, Returns (bool_decide (is_Some r)))
  end.

(** [DELETE ... RETURNING], filtered to a live ticket. *)
Definition ticket_consume (m : TicketTable) (hash : string) (now : Z) (failure : Failure)
    : TicketTable * outcome (option WsTicketPayload) :=
  let found :=
    match m !! hash with
    | Some row => if now <? tk_expires_at row then Some (tk_payload row) else None
    | None => None
    end in
  match failure with
  | Some (e, applied) => (if applied then delete hash m else m, Throws e)
  | None => (delete hash m, Returns found)
  end.

Section store.
Context (hashTicket : string → string).

Definition ticket_create (m : TicketTable) (ticket : string) (p : WsTicketPayload)
    (ttlMs maxTickets now : Z) (failure : Failure) : TicketTable * outcome (string * Z) :=
  match ticket_insert m (hashTicket ticket) p ttlMs maxTickets now failure with
  | (m, Throws e) => (m, Throws e)
  | (m, Returns false) => (m, Throws WsTicketStoreCapacityError)
  | (m, Returns true) => (m, Returns (ticket, ttlMs / 1000))
  end.

Definition consume (m : TicketTable) (ticket : string) (now : Z) (failure : Failure)
    : TicketTable * outcome (option WsTicketPayload) :=
  ticket_consume m (hashTicket ticket) now failure.

(** ** Properties *)

(** A call of any client: issue a ticket or consume one. *)
Inductive ticket_step : TicketTable → TicketTable → Prop :=
| ts_create m ticket p ttl max now f m' r :
    ticket_create m ticket p ttl max now f = (m', r) → ticket_step m m'
| ts_consume m ticket now f m' r : consume m ticket now f = (m', r) → ticket_step m m'.

(** Steps that do not issue [ticket] again. *)
Inductive quiet_step (ticket : string) : TicketTable → TicketTable → Prop :=
| qt_create m other p ttl max now f m' r :
    hashTicket other ≠ hashTicket ticket →
    ticket_create m other p ttl max now f = (m', r) → quiet_step ticket m m'
| qt_consume m other now f m' r : consume m other now f = (m', r) → quiet_step ticket m m'.

Lemma insert_ticket_size m h p ttl max now m' :
  insert_ticket m h p ttl max now = Some m' → Z.of_nat (size m') ≤ max.
Proof.
  unfold insert_ticket. set (live := filter _ m).
  destruct (Z.leb_spec max (Z.of_nat (size live))); [done|].
  destruct (live !! h) eqn:E; [done|]. intros [= <-]. rewrite map_size_insert_None by done. lia.
Qed.

Lemma insert_ticket_other m h p ttl max now m' k :
  insert_ticket m h p ttl max now = Some m' → k ≠ h → m !! k = None → m' !! k = None.
Proof.
  unfold insert_ticket. destruct (_ <=? _); [done|]. destruct (_ !! h); [done|]. intros [= <-] Hne Hk.
  rewrite lookup_insert_ne by done. apply map_lookup_filter_None. by left.
Qed.

Lemma quiet_absent ticket m m' :
  m !! hashTicket ticket = None → quiet_step ticket m m' → m' !! hashTicket ticket = None.
Proof.
  intros Hm Hs. destruct Hs as [m other p ttl max now f m' r Hne H|m other now f m' r H].
  - assert (Hc : m' = m ∨ insert_ticket m (hashTicket other) p ttl max now = Some m').
    { unfold ticket_create, ticket_insert in H.
      destruct (insert_ticket m (hashTicket other) p ttl max now) as [m1|] eqn:E; cbn [from_option id] in H.
      - destruct f as [[e [|]]|]; simplify_eq; auto. rewrite bool_decide_true in H by (by eexists).
        simplify_eq. auto.
      - rewrite bool_decide_false in H by (by intros []).
        destruct f as [[e [|]]|]; simplify_eq; auto. }
    destruct Hc as [->|Hc]; [done|]. eapply insert_ticket_other; eauto.
  - unfold consume, ticket_consume in H. destruct f as [[e [|]]|]; simplify_eq; auto;
      destruct (decide (hashTicket other = hashTicket ticket)) as [->|];
      by rewrite ?lookup_delete_eq, ?lookup_delete_ne.
Qed.

(** A ticket admits once: after a [consume] that returned, live or not, no later
    one returns a payload for it, whatever other tickets are issued and consumed
    and whatever fails meanwhile; and a ticket just issued is worth exactly the
    payload it was issued for until it expires. *)
Theorem ticket_single_use m ticket now r m1 m2 now2 :
  consume m ticket now None = (m1, Returns r) → rtc (quiet_step ticket) m1 m2 →
  snd (consume m2 ticket now2 None) = Returns None
  ∧ ∀ p ttl max t m3 x, ticket_create m2 ticket p ttl max t None = (m3, Returns x) →
      snd (consume m3 ticket now2 None) = Returns (if now2 <? t + ttl then Some p else None)
      ∧ Z.of_nat (size m3) ≤ max.
Proof.
  intros H Hs. assert (Hm1 : m1 !! hashTicket ticket = None).
  { unfold consume, ticket_consume in H. injection H as <- _. apply lookup_delete_eq. }
  assert (Hm2 : m2 !! hashTicket ticket = None) by (clear H; induction Hs; eauto using quiet_absent).
  split.
  - unfold consume, ticket_consume. cbn [snd]. by rewrite Hm2.
  - intros p ttl max t m3 x Hc. unfold ticket_create, ticket_insert in Hc.
    destruct (insert_ticket m2 (hashTicket ticket) p ttl max t) as [m4|] eqn:E; cbn [from_option id] in Hc.
    + rewrite bool_decide_true in Hc by (by eexists). injection Hc as <- <-.
      split; [|by eapply insert_ticket_size]. unfold insert_ticket in E.
      set (live := filter _ m2) in E. destruct (max <=? Z.of_nat (size live)); [done|].
      destruct (live !! hashTicket ticket); [done|]. injection E as <-.
      unfold consume, ticket_consume. cbn [snd]. rewrite lookup_insert_eq. cbn [tk_expires_at tk_payload].
      by destruct (now2 <? t + ttl).
    + rewrite bool_decide_false in Hc by (by intros []). done.
Qed.
End store.

Definition sample_payload : WsTicketPayload :=
  {| tk_userId := 1; tk_email := "e"; tk_jti := "j"; tk_machine_id := "m" |}.

Definition sample_issued : TicketTable :=
  fst (ticket_create id ∅ "t" sample_payload 60000 DEFAULT_MAX_TICKETS 5 None).

Lemma ticket_single_use_witness :
  snd (consume id sample_issued "t" 10 None) = Returns (Some sample_payload)
  ∧ snd (consume id (delete "t"%string sample_issued) "t" 11 None) = Returns None.
Proof.
  split; [vm_compute; reflexivity|].
  refine (proj1 (ticket_single_use id sample_issued "t" 10 (Some sample_payload)
    (delete "t"%string sample_issued) (delete "t"%string sample_issued) 11 _ (rtc_refl _ _))).
  vm_compute. reflexivity.
Defined.
End Tickets.
