(* ===== verification/MessageQueue.v ===== *)
(** * MessageQueue: the queued messages of one session
    (relay/src/session-message-queue/state.ts).

    [QueueState] is the JSON document the relay stores per session.  Items are
    shared objects in the source and are changed in place; here an item is
    addressed by its position, which [update_item] overwrites.  The values the
    daemon chooses freely ([turn_id], the rejection reason) stay JavaScript
    values.  [sha256] and the uuid of a claim are arguments.  The cursor, the
    decimal text of an event id, is that integer.

    The file ends with the invariant [queue_ok] and the effect each operation
    has on the identity and the state of the items. *)

From S2P Require Import Prelude JsValue.

#[local] Open Scope Z_scope.

(** ** Data *)

Inductive ItemState : Type := SPending | SDispatching | SRunning | SUnknown | SFailed.

#[global] Instance ItemState_eq : EqDecision ItemState.
Proof. solve_decision. Defined.

Record QueueItem : Type := {
  id : string;
  content : string;
  request_id : option string;
  state : ItemState;
  started_at : option Z;
  turn_id : jsval;
  terminal : option string
}.

Record QueueState : Type := {
  version : Z;
  items : list QueueItem;
  blocked : jsval;
  busy : bool;
  busy_turn_id : jsval;
  cursor : Z;
  seen : gmap string string
}.

Definition emptyQueue (b : bool) (c : Z) : QueueState := {|
  version := 0; items := []; blocked := JStr ""; busy := b; busy_turn_id := JUndef;
  cursor := c; seen := ∅ |}.

(** Field updates. *)
Definition with_items (s : QueueState) (l : list QueueItem) : QueueState := {|
  version := version s; items := l; blocked := blocked s; busy := busy s;
  busy_turn_id := busy_turn_id s; cursor := cursor s; seen := seen s |}.

Definition with_blocked (s : QueueState) (b : jsval) : QueueState := {|
  version := version s; items := items s; blocked := b; busy := busy s;
  busy_turn_id := busy_turn_id s; cursor := cursor s; seen := seen s |}.

Definition with_busy (s : QueueState) (b : bool) (turn : jsval) : QueueState := {|
  version := version s; items := items s; blocked := blocked s; busy := b;
  busy_turn_id := turn; cursor := cursor s; seen := seen s |}.

Definition with_cursor (s : QueueState) (c : Z) : QueueState := {|
  version := version s; items := items s; blocked := blocked s; busy := busy s;
  busy_turn_id := busy_turn_id s; cursor := c; seen := seen s |}.

Definition with_seen_item (s : QueueState) (k h : string) : QueueState := {|
  version := version s; items := items s; blocked := blocked s; busy := busy s;
  busy_turn_id := busy_turn_id s; cursor := cursor s; seen := <[k := h]> (seen s) |}.

(** [state.version++]. *)
Definition bump_version (s : QueueState) : QueueState := {|
  version := version s + 1; items := items s; blocked := blocked s; busy := busy s;
  busy_turn_id := busy_turn_id s; cursor := cursor s; seen := seen s |}.

Definition with_state (i : QueueItem) (st : ItemState) : QueueItem := {|
  id := id i; content := content i; request_id := request_id i; state := st;
  started_at := started_at i; turn_id := turn_id i; terminal := terminal i |}.

Definition with_turn (i : QueueItem) (t : jsval) : QueueItem := {|
  id := id i; content := content i; request_id := request_id i; state := state i;
  started_at := started_at i; turn_id := t; terminal := terminal i |}.

Definition with_terminal (i : QueueItem) (t : string) : QueueItem := {|
  id := id i; content := content i; request_id := request_id i; state := state i;
  started_at := started_at i; turn_id := turn_id i; terminal := Some t |}.

(** A pending item as [push] stores it, and as [resume] leaves it. *)
Definition pending_item (k c : string) : QueueItem := {|
  id := k; content := c; request_id := None; state := SPending;
  started_at := None; turn_id := JUndef; terminal := None |}.

(** An item changed in place. *)
Definition update_item (s : QueueState) (n : nat) (f : QueueItem → QueueItem) : QueueState :=
  with_items s (alter f n (items s)).

Definition in_states (l : list ItemState) (i : QueueItem) : bool :=
  bool_decide (state i ∈ l).

(** Facts about [in_states] by cases on the state. *)
Ltac by_state i :=
  unfold in_states in *; destruct (state i); first [done | exfalso; done | vm_compute in *; done].

(** ** [mutateQueue] *)

(** [new Set(ids).size]: the number of distinct values. *)
Definition same_value (a b : jsval) : bool :=
  match a, b with JFrac x, JFrac y => bool_decide (x = y) | _, _ => strict_eq a b end.

Fixpoint set_size (l : list jsval) : Z :=
  match l with
  | [] => 0
  | v :: l' => (if existsb (same_value v) l' then 0 else 1) + set_size l'
  end.

Definition has_id (v : jsval) (i : QueueItem) : bool := is_str v (id i).

(** [state.items.filter(i => i !== item)] for the first item found by [p]. *)
Fixpoint remove_first (p : QueueItem → bool) (l : list QueueItem) : list QueueItem :=
  match l with
  | [] => []
  | i :: l' => if p i then l' else i :: remove_first p l'
  end.

Definition is_pending (i : QueueItem) : bool := in_states [SPending] i.

(** [state.items.map(i => i.state === 'pending' ? sorted[n++] : i)]. *)
Fixpoint refill (l sorted : list QueueItem) : list QueueItem :=
  match l with
  | [] => []
  | i :: l' =>
      if is_pending i then
        match sorted with
        | x :: sorted' => x :: refill l' sorted'
        | [] => i :: refill l' []
        end
      else i :: refill l' sorted
  end.

Definition reordered (l : list QueueItem) (ids : list jsval) : list QueueItem :=
  refill l (omap (λ v, find_first (has_id v) (bfilter is_pending l)) ids).

Section with_sha.
Context (sha256 : string → string).

Definition enqueue_item (s : QueueState) (command : jsval) : outcome QueueState :=
  match js_get command "item_id", js_get command "content" with
  | JStr k, JStr c =>
      if bool_decide (k = EmptyString) || (128 <? str_len k)
         || bool_decide (trim c = EmptyString) || (32768 <? str_len c)
         || starts_with (trim_start c) "/"
      then Throws "invalid_request"
      else
        let hash := sha256 c in
        match seen s !! k with
        | Some h => if bool_decide (h = hash) then Returns s else Throws "request_id_conflict"
        | None =>
            if (50 <=? len (items s)) || (10000 <=? Z.of_nat (size (seen s)))
            then Throws "queue_limit"
            else Returns (bump_version
              (with_seen_item (with_items s (items s ++ [pending_item k c])) k hash))
        end
  | _, _ => Throws "invalid_request"
  end.

Definition mutateQueue (s : QueueState) (command : jsval) : outcome QueueState :=
  let action := js_get command "action" in
  if is_str action "enqueue" then enqueue_item s command
  else if negb (is_number (js_get command "version") (version s)) then Throws "queue_changed"
  else if is_str action "cancel" then
    let v := js_get command "item_id" in
    match find_first (has_id v) (items s) with
    | Some i =>
        if in_states [SPending; SFailed] i
        then Returns (bump_version (with_items s (remove_first (has_id v) (items s))))
        else Throws "already_started"
    | None => Throws "already_started"
    end
  else if is_str action "reorder" then
    let movable := bfilter is_pending (items s) in
    match js_get command "item_ids" with
    | JArr ids =>
        if negb (len ids =? len movable) || negb (set_size ids =? len ids)
           || existsb (λ v, negb (existsb (has_id v) movable)) ids
        then Throws "queue_changed"
        else Returns (bump_version (with_items s (reordered (items s) ids)))
    | _ => Throws "queue_changed"
    end
  else if is_str action "resume" then
    if existsb (in_states [SUnknown; SDispatching; SRunning]) (items s)
    then Throws "execution_unresolved"
    else Returns (bump_version (with_items (with_blocked s (JStr ""))
           (map (λ i, pending_item (id i) (content i)) (items s))))
  else Throws "invalid_request".
End with_sha.

(** ** [reduceQueueEvent] *)

Record QueueEvent : Type := { event_id : Z; event_type : string; payload : jsval }.

Definition is_active (i : QueueItem) : bool :=
  match request_id i with
  | Some r => negb (bool_decide (r = EmptyString)) && in_states [SDispatching; SRunning; SUnknown] i
  | None => false
  end.

(** Where [state.items.find(...)] finds the active item. *)
Definition active_index (s : QueueState) : option nat :=
  fst <$> list_find (λ i, is_active i = true) (items s).

Definition running_statuses : list string :=
  ["running"; "waiting_approval"; "waiting_question"; "interrupt_requested"]%string.

Definition terminal_statuses : list string :=
  ["completed"; "failed"; "interrupted"; "abandoned"]%string.

(** [list.includes(v)]: the string [v], when the list contains it. *)
Definition included (v : jsval) (l : list string) : option string :=
  match v with JStr t => if bool_decide (t ∈ l) then Some t else None | _ => None end.

Definition at_active (s : QueueState) (active : option nat) (f : QueueItem → QueueItem)
  : QueueState :=
  match active with Some n => update_item s n f | None => s end.

(** Lines 74-88. *)
Definition on_turn_status (s : QueueState) (active : option nat) (p : jsval) : QueueState :=
  let turn := js_get p "turn_id" in
  if bool_decide (is_Some (included (js_get p "turn_status") running_statuses)) then
    at_active (with_busy s true turn) active
      (λ i, if truthy (turn_id i) then i else with_turn i turn)
  else
    match included (js_get p "turn_status") terminal_statuses with
    | Some st =>
        let s1 :=
          if negb (truthy (busy_turn_id s)) || strict_eq (busy_turn_id s) turn then
            let s0 := with_busy s false JUndef in
            if bool_decide (st = "completed"%string) then s0 else with_blocked s0 (JStr st)
          else s in
        at_active s1 active (λ i, if strict_eq (turn_id i) turn then with_terminal i st else i)
    | None => s
    end.

(** Lines 89-102, for the active item at position [n]. *)
Definition on_correlated (s : QueueState) (n : nat) (ty : string) (p : jsval) : QueueState :=
  let s1 :=
    if bool_decide (ty = "queue_dispatch_started"%string) then
      let s0 := update_item s n (λ i, with_state i SRunning) in
      if is_str (blocked s) "execution_unresolved" then with_blocked s0 (JStr "") else s0
    else s in
  let s2 :=
    if bool_decide (ty = "user_message_receipt"%string) && is_str (js_get p "status") "rejected" then
      with_blocked (update_item s1 n (λ i, with_state i SFailed))
        (if truthy (js_get p "reason") then js_get p "reason" else JStr "rejected")
    else s1 in
  if bool_decide (ty = "error"%string) then
    with_blocked (update_item s2 n (λ i, with_state i SUnknown)) (JStr "execution_unresolved")
  else s2.

(** Lines 105-108. *)
Definition on_finished (s : QueueState) (n : nat) : QueueState :=
  match items s !! n with
  | Some i =>
      match terminal i with
      | Some t =>
          if bool_decide (state i = SRunning) && negb (bool_decide (t = EmptyString)) then
            let s1 := with_items s (delete n (items s)) in
            if bool_decide (t = "completed"%string) then s1 else with_blocked s1 (JStr t)
          else s
      | None => s
      end
  | None => s
  end.

(** Events of subagents and resynchronised events do not concern the queue. *)
Definition ignored (p : jsval) : bool :=
  negb (truthy p) || truthy (js_get p "agent_id") || truthy (js_get p "is_subagent")
  || is_str (js_get p "actor_scope") "subagent" || truthy (js_get p "resync").

Definition reduceQueueEvent (s : QueueState) (event : QueueEvent) : QueueState :=
  let p := payload event in
  if ignored p then s else
  let active := active_index s in
  let s1 :=
    if bool_decide (event_type event = "turn_status"%string) && truthy (js_get p "turn_id")
    then on_turn_status s active p else s in
  match active with
  | None => s1
  | Some n =>
      let s2 :=
        match items s1 !! n with
        | Some i =>
            if strict_eq (js_get p "request_id")
                 (match request_id i with Some r => JStr r | None => JUndef end)
            then on_correlated s1 n (event_type event) p else s1
        | None => s1
        end in
      on_finished s2 n
  end.

(** ** [claimQueue] *)

Definition overdue (now : Z) (i : QueueItem) : bool :=
  in_states [SDispatching] i && (30000 <? now - default now (started_at i)).

(** The sweep of line 112: every overdue dispatch becomes unknown. *)
Definition expire_overdue (s : QueueState) (now : Z) : QueueState :=
  let overdue_items := bfilter (overdue now) (items s) in
  let s1 := with_items s (map (λ i, if overdue now i then with_state i SUnknown else i) (items s)) in
  {| version := version s + len overdue_items; items := items s1;
     blocked := match overdue_items with [] => blocked s | _ => JStr "execution_unresolved" end;
     busy := busy s; busy_turn_id := busy_turn_id s; cursor := cursor s; seen := seen s |}.

Definition claimed_item (i : QueueItem) (uuid : string) (now : Z) : QueueItem := {|
  id := id i; content := content i; request_id := Some uuid; state := SDispatching;
  started_at := Some now; turn_id := turn_id i; terminal := terminal i |}.

Definition claimQueue (s : QueueState) (online : bool) (now : Z) (uuid : string)
  : QueueState * option QueueItem :=
  let s1 := expire_overdue s now in
  if negb online || busy s1 || truthy (blocked s1) || existsb (λ i, negb (is_pending i)) (items s1)
  then (s1, None)
  else
    match items s1 with
    | [] => (s1, None)
    | i :: rest =>
        let i' := claimed_item i uuid now in
        (bump_version (with_items s1 (i' :: rest)), Some i')
    end.

(** ** What an operation may do to the items *)

(** What identifies an item and decides whether it may still be sent. *)
Definition key (i : QueueItem) : string * string * option string * bool :=
  (id i, content i, request_id i, is_pending i).

(** Items are only removed: none is added, renamed or made pending. *)
Definition evolves (s s' : QueueState) : Prop :=
  (key <$> items s') `sublist_of` (key <$> items s) ∧ seen s' = seen s.

#[global] Instance evolves_preorder : PreOrder evolves.
Proof.
  split; [by intros s; split|].
  intros s1 s2 s3 [H1 E1] [H2 E2]; split; [by etransitivity|congruence].
Qed.

Lemma update_item_evolves s n f :
  (∀ i, items s !! n = Some i → key (f i) = key i) →
  key <$> items (update_item s n f) = key <$> items s.
Proof.
  intros H. simpl. apply list_eq; intros j. rewrite !list_lookup_fmap.
  destruct (decide (j = n)) as [->|Hj].
  - rewrite list_lookup_alter_eq. destruct (items s !! n) as [i|] eqn:E; simpl; [|done].
    by rewrite H.
  - by rewrite list_lookup_alter_ne.
Qed.

Lemma key_pending i j : key i = key j → is_pending i = is_pending j.
Proof. unfold key; congruence. Qed.

Lemma key_with_state i st :
  is_pending i = false → st ≠ SPending → key (with_state i st) = key i.
Proof.
  intros Hi Hst. unfold key. rewrite Hi. simpl. f_equal.
  unfold is_pending, in_states. simpl. by destruct st.
Qed.

Lemma active_index_Some s n :
  active_index s = Some n → ∃ i, items s !! n = Some i ∧ is_active i = true.
Proof.
  unfold active_index. intros (p & E & ->)%fmap_Some. destruct p as [m i]. simpl.
  apply list_find_Some in E as (H1 & H2 & _). eauto.
Qed.

Lemma is_active_pending i : is_active i = true → is_pending i = false.
Proof.
  unfold is_active. destruct (request_id i); [|done]. intros [_ H]%andb_true_iff.
  unfold is_pending. by_state i.
Qed.

Lemma at_active_keys s a f :
  (∀ i, key (f i) = key i) → key <$> items (at_active s a f) = key <$> items s.
Proof. intros H. destruct a; [|done]. apply update_item_evolves; auto. Qed.

Lemma on_turn_status_keys s a p :
  key <$> items (on_turn_status s a p) = key <$> items s ∧ seen (on_turn_status s a p) = seen s.
Proof.
  unfold on_turn_status. case_bool_decide.
  - split; [|by destruct a]. rewrite at_active_keys; [done|]. intros i; cbv beta. by case_match.
  - destruct (included _ terminal_statuses) as [st|]; [|done].
    split; [|by destruct a; simpl; repeat case_match].
    rewrite at_active_keys; [by repeat case_match|]. intros i; cbv beta. by case_match.
Qed.

(** The item at [n] has been claimed and not been given back. *)
Definition started_at_index (s : QueueState) (n : nat) : Prop :=
  ∀ i, items s !! n = Some i → is_pending i = false.

Lemma keys_started s s' n :
  key <$> items s' = key <$> items s → started_at_index s n → started_at_index s' n.
Proof.
  intros E H i Hi.
  assert (Hk : (key <$> items s') !! n = Some (key i)) by by rewrite list_lookup_fmap, Hi.
  rewrite E, list_lookup_fmap in Hk. apply fmap_Some in Hk as (j & Hj & Hij).
  rewrite (key_pending i j Hij). eauto.
Qed.

Lemma set_state_keys s n st :
  st ≠ SPending → started_at_index s n →
  key <$> items (update_item s n (λ i, with_state i st)) = key <$> items s.
Proof. intros Hst H. apply update_item_evolves. intros i Hi. apply key_with_state; eauto. Qed.

Lemma on_correlated_keys s n ty p :
  started_at_index s n →
  key <$> items (on_correlated s n ty p) = key <$> items s ∧ seen (on_correlated s n ty p) = seen s.
Proof.
  intros Hn. unfold on_correlated.
  set (s1 := if bool_decide (ty = "queue_dispatch_started"%string) then _ else s).
  assert (H1 : key <$> items s1 = key <$> items s ∧ seen s1 = seen s).
  { unfold s1. case_bool_decide; [|done]. pose proof (set_state_keys s n SRunning) as E.
    case_match; (split; [by apply E|done]). }
  set (s2 := if bool_decide (ty = "user_message_receipt"%string) && _ then _ else s1).
  assert (H2 : key <$> items s2 = key <$> items s ∧ seen s2 = seen s).
  { unfold s2. case_match; [|done]. pose proof (set_state_keys s1 n SFailed) as E.
    destruct H1 as [E1 S1]. split; [|done]. etransitivity; [apply E|]; [done| |done].
    by eapply keys_started. }
  case_bool_decide; [|done]. pose proof (set_state_keys s2 n SUnknown) as E.
  destruct H2 as [E2 S2]. split; [|done]. etransitivity; [apply E|]; [done| |done].
  by eapply keys_started.
Qed.

Lemma on_finished_evolves s n : evolves s (on_finished s n).
Proof.
  unfold on_finished. repeat (case_match; try done); (split; [|done]); simpl;
    rewrite ?list_fmap_delete; apply sublist_delete.
Qed.

Lemma reduce_evolves s e : evolves s (reduceQueueEvent s e).
Proof.
  unfold reduceQueueEvent. destruct (ignored _); [done|].
  set (s1 := if _ && _ then _ else s).
  assert (H1 : key <$> items s1 = key <$> items s ∧ seen s1 = seen s).
  { unfold s1. case_match; [apply on_turn_status_keys|done]. }
  destruct (active_index s) as [n|] eqn:Ea; [|destruct H1 as [E ?]; split; [by rewrite E|done]].
  assert (Hn : started_at_index s n).
  { apply active_index_Some in Ea as (i & Hi & Ha). intros j Hj. simplify_eq.
    by apply is_active_pending. }
  assert (Hn1 : started_at_index s1 n) by (by eapply keys_started; [apply H1|]).
  etransitivity; [|apply on_finished_evolves].
  destruct H1 as [E1 S1]. destruct (items s1 !! n); [|by split; [rewrite E1|]].
  case_match; [|by split; [rewrite E1|]].
  destruct (on_correlated_keys s1 n (event_type e) (payload e) Hn1) as [E2 S2].
  split; [by rewrite E2, E1|congruence].
Qed.

Lemma expire_evolves s now : evolves s (expire_overdue s now).
Proof.
  split; [|done]. apply reflexive_eq. simpl. change (map ?f ?l) with (f <$> l).
  rewrite <- list_fmap_compose. apply list_fmap_ext. intros _ i _. simpl.
  destruct (overdue now i) eqn:E; [|done].
  apply key_with_state; [|done]. apply andb_true_iff in E as [E _]. unfold is_pending. by_state i.
Qed.

(** ** The invariant *)

(** - ids are unique and remembered in [seen];
    - at most one item has been claimed and not been given back;
    - such an item carries the request id of its claim;
    - at most 50 items wait and at most 10,000 ids are remembered. *)
Record queue_ok (s : QueueState) : Prop := {
  ok_ids : NoDup (id <$> items s);
  ok_seen : ∀ i, i ∈ items s → is_Some (seen s !! id i);
  ok_single : ∀ i j, i ∈ items s → j ∈ items s →
    is_pending i = false → is_pending j = false → id i = id j;
  ok_request : ∀ i, i ∈ items s → is_pending i = false →
    ∃ r, request_id i = Some r ∧ r ≠ EmptyString;
  ok_length : len (items s) ≤ 50;
  ok_size : Z.of_nat (size (seen s)) ≤ 10000
}.

Lemma empty_ok b c : queue_ok (emptyQueue b c).
Proof.
  split; simpl; [constructor|set_solver|set_solver|set_solver|done|by rewrite map_size_empty].
Qed.

Lemma elem_of_keys s k : k ∈ key <$> items s ↔ ∃ i, i ∈ items s ∧ key i = k.
Proof. rewrite list_elem_of_fmap. naive_solver. Qed.

Lemma evolves_elem s s' i : evolves s s' → i ∈ items s' → ∃ j, j ∈ items s ∧ key j = key i.
Proof.
  intros [H _] Hi. apply elem_of_keys.
  eapply elem_of_sublist; [|exact H]. apply elem_of_keys; eauto.
Qed.

Lemma ids_of_keys (l : list QueueItem) : id <$> l = (λ k, k.1.1.1) <$> (key <$> l).
Proof. by rewrite <- list_fmap_compose. Qed.

Lemma evolves_ok s s' : evolves s s' → queue_ok s → queue_ok s'.
Proof.
  intros He Hok. pose proof (evolves_elem s s') as Hin. destruct He as [Hs Hseen]. split.
  - rewrite ids_of_keys. eapply sublist_NoDup; [|apply fmap_sublist, Hs].
    rewrite <- ids_of_keys. apply ok_ids, Hok.
  - intros i (j & Hj & E)%Hin; [|by split]. rewrite Hseen. injection E as <- _ _ _.
    by apply (ok_seen s).
  - intros i j (i0 & Hi & Ei)%Hin (j0 & Hj & Ej)%Hin; [|by split..].
    injection Ei as <- _ _ <-. injection Ej as <- _ _ <-. by apply (ok_single s).
  - intros i (i0 & Hi & Ei)%Hin; [|by split]. injection Ei as _ _ <- <-. by apply (ok_request s).
  - apply sublist_length in Hs. rewrite !length_fmap in Hs. pose proof (ok_length s Hok). lia.
  - rewrite Hseen. apply Hok.
Qed.

(** *** Reordering *)

Lemma refill_perm l sorted :
  length sorted = length (bfilter is_pending l) →
  refill l sorted ≡ₚ sorted ++ bfilter (λ i, negb (is_pending i)) l.
Proof.
  revert sorted; induction l as [|i l IH]; simpl; intros sorted H.
  - destruct sorted; simpl in *; [done|lia].
  - destruct (is_pending i); simpl in *.
    + destruct sorted as [|x sorted]; simpl in *; [lia|]. rewrite IH by lia. done.
    + rewrite IH by lia. by rewrite Permutation_middle.
Qed.

Lemma bfilter_split {A} (p : A → bool) l : bfilter p l ++ bfilter (λ x, negb (p x)) l ≡ₚ l.
Proof.
  induction l as [|x l IH]; simpl; [done|]. destruct (p x); simpl; [by rewrite IH|].
  rewrite <- Permutation_middle. by rewrite IH.
Qed.

Lemma set_size_le l : set_size l ≤ len l.
Proof. induction l as [|v l IH]; cbn [set_size length]; [lia|]. destruct (existsb _ _); lia. Qed.

Lemma set_size_NoDup (l : list string) : set_size (JStr <$> l) = len (JStr <$> l) → NoDup l.
Proof.
  induction l as [|v l IH]; [constructor|]. rewrite fmap_cons. cbn [set_size length]. intros H.
  pose proof (set_size_le (JStr <$> l)) as Hle.
  destruct (existsb _ _) eqn:E; [lia|]. constructor; [|apply IH; lia].
  intros Hv. apply not_true_iff_false in E. apply E, existsb_exists.
  exists (JStr v). split; [|by apply bool_decide_eq_true].
  apply list_elem_of_In, list_elem_of_fmap. eauto.
Qed.

(** Values each of which is the id of some item are strings. *)
Lemma ids_are_strings (l : list QueueItem) (ids : list jsval) :
  existsb (λ v, negb (existsb (has_id v) l)) ids = false →
  ∃ names, ids = JStr <$> names ∧ ∀ n, n ∈ names → ∃ i, i ∈ l ∧ id i = n.
Proof.
  induction ids as [|v ids IH]; simpl; intros H; [by exists []; split; [|set_solver]|].
  bool_hyps. destruct (IH ltac:(done)) as (names & -> & Hn).
  match goal with H : existsb _ _ = true |- _ => apply existsb_exists in H as (i & Hi & Hv) end.
  destruct v; try done. exists (s :: names). split; [done|].
  intros n [->|Hn']%elem_of_cons; [|auto]. exists i.
  split; [by apply list_elem_of_In|]. apply bool_decide_eq_true in Hv. done.
Qed.

Lemma find_ids (l : list QueueItem) (names : list string) :
  (∀ n, n ∈ names → ∃ i, i ∈ l ∧ id i = n) →
  let sorted := omap (λ v, find_first (has_id v) l) (JStr <$> names) in
  id <$> sorted = names ∧ ∀ i, i ∈ sorted → i ∈ l.
Proof.
  induction names as [|n names IH]; simpl; intros H; [split; [done|set_solver]|].
  destruct (IH (λ m Hm, H m (list_elem_of_further _ _ _ Hm))) as [E Hin].
  destruct (find_first (has_id (JStr n)) l) as [i|] eqn:Ef.
  - apply find_first_Some in Ef as [Hi Hn]. apply bool_decide_eq_true in Hn. simpl.
    split; [f_equal; [done|exact E]|]. intros j [->|Hj]%elem_of_cons; auto.
  - destruct (H n (list_elem_of_here _ _)) as (i & Hi & <-).
    pose proof (find_first_None _ _ Ef i Hi) as Hf. simpl in Hf. bool_hyps. done.
Qed.

(** An accepted reordering is a permutation of the items that moves only
    pending ones. *)
Lemma reordered_perm l ids :
  NoDup (id <$> l) →
  len ids = len (bfilter is_pending l) → set_size ids = len ids →
  existsb (λ v, negb (existsb (has_id v) (bfilter is_pending l))) ids = false →
  reordered l ids ≡ₚ l.
Proof.
  intros Hnd Hlen Hset Hin.
  destruct (ids_are_strings _ _ Hin) as (names & -> & Hn).
  destruct (find_ids _ _ Hn) as [Hids Hsub]. unfold reordered.
  set (sorted := omap _ _) in *.
  assert (Hl : length sorted = length (bfilter is_pending l)).
  { rewrite length_fmap in Hlen. rewrite <- (length_fmap id), Hids. lia. }
  rewrite (refill_perm _ _ Hl).
  assert (Hs : sorted ≡ₚ bfilter is_pending l); [|by rewrite Hs, bfilter_split].
  apply submseteq_length_Permutation; [|lia]. apply NoDup_submseteq; [|done].
  apply (NoDup_fmap_1 id). rewrite Hids. by apply set_size_NoDup.
Qed.

(** *** Every operation keeps the invariant *)

Lemma remove_first_sublist p l : remove_first p l `sublist_of` l.
Proof. induction l as [|i l IH]; simpl; [done|]. destruct (p i); by constructor. Qed.

Lemma enqueue_ok sha s command s' :
  queue_ok s → enqueue_item sha s command = Returns s' → queue_ok s'.
Proof.
  intros Hok. unfold enqueue_item.
  destruct (js_get command "item_id") as [| | | | |k| |]; try done.
  destruct (js_get command "content") as [| | | | |c| |]; try done.
  destruct (_ || _); [done|]. destruct (seen s !! k) as [h|] eqn:Ek.
  { case_bool_decide; [|done]. by intros [= <-]. }
  destruct (_ || _) eqn:El; [done|]. intros [= <-]. bool_hyps.
  assert (Hk : ∀ i, i ∈ items s → id i ≠ k).
  { intros i Hi <-. destruct (ok_seen s Hok i Hi). congruence. }
  split; simpl.
  - rewrite fmap_app. apply NoDup_app. split; [apply Hok|]. split; [|apply NoDup_singleton].
    intros x (i & -> & Hi)%list_elem_of_fmap Hx%list_elem_of_singleton. by apply (Hk i).
  - intros i [Hi| ->%list_elem_of_singleton]%elem_of_app; simpl.
    + rewrite lookup_insert_ne by (intros E; by apply (Hk i)). by apply (ok_seen s).
    + rewrite lookup_insert_eq. eauto.
  - intros i j [Hi| ->%list_elem_of_singleton]%elem_of_app
      [Hj| ->%list_elem_of_singleton]%elem_of_app; try done. by apply (ok_single s).
  - intros i [Hi| ->%list_elem_of_singleton]%elem_of_app; [|done]. by apply (ok_request s).
  - rewrite len_app. simpl. lia.
  - rewrite map_size_insert_None by done. lia.
Qed.

Lemma perm_ok s l : l ≡ₚ items s → queue_ok s → queue_ok (with_items s l).
Proof.
  intros Hp Hok. split; simpl; try setoid_rewrite Hp; try apply Hok.
Qed.

Lemma resume_queue_ok s :
  queue_ok s → queue_ok (with_items (with_blocked s (JStr ""))
    (map (λ i, pending_item (id i) (content i)) (items s))).
Proof.
  intros Hok.
  assert (Hpend : ∀ i, i ∈ map (λ i, pending_item (id i) (content i)) (items s) →
    is_pending i = true ∧ ∃ j, j ∈ items s ∧ id i = id j).
  { intros i (j & -> & Hj)%list_elem_of_fmap. split; [done|]. eauto. }
  split; simpl.
  - change (map ?f ?l) with (f <$> l). rewrite <- list_fmap_compose. apply Hok.
  - intros i (_ & j & Hj & E)%Hpend. rewrite E. by apply (ok_seen s).
  - intros i j [Hi _]%Hpend. congruence.
  - intros i [Hi _]%Hpend. congruence.
  - rewrite length_map. apply Hok.
  - apply Hok.
Qed.

Lemma bump_ok s : queue_ok s → queue_ok (bump_version s).
Proof. intros []. by split. Qed.

Lemma mutate_ok sha s command s' :
  queue_ok s → mutateQueue sha s command = Returns s' → queue_ok s'.
Proof.
  intros Hok. unfold mutateQueue. destruct (is_str _ "enqueue"); [by apply enqueue_ok|].
  destruct (negb _); [done|]. destruct (is_str _ "cancel").
  { repeat case_match; try done. intros [= <-]. apply bump_ok.
    apply (evolves_ok s); [|done]. split; [|done]. apply fmap_sublist, remove_first_sublist. }
  destruct (is_str _ "reorder").
  { destruct (js_get command "item_ids") as [| | | | | |ids|]; try done.
    destruct (_ || _) eqn:E; [done|]. intros [= <-]. bool_hyps.
    apply bump_ok, perm_ok; [|done]. apply reordered_perm; [apply Hok|done..]. }
  destruct (is_str _ "resume"); [|done]. destruct (existsb _ _); [done|].
  intros [= <-]. by apply bump_ok, resume_queue_ok.
Qed.

Lemma claim_ok s online now uuid s' c :
  uuid ≠ EmptyString → queue_ok s → claimQueue s online now uuid = (s', c) → queue_ok s'.
Proof.
  intros Hu Hok. apply (evolves_ok _ _ (expire_evolves s now)) in Hok. unfold claimQueue.
  set (s1 := expire_overdue s now) in *. destruct (_ || _) eqn:E; [by intros [= <- <-]|].
  destruct (items s1) as [|i rest] eqn:Ei; [by intros [= <- <-]|]. intros [= <- <-].
  bool_hyps. apply bump_ok. destruct Hok as [O1 O2 O3 O4 O5 O6]. rewrite Ei in *.
  assert (Hp : ∀ j, j ∈ rest → is_pending j = true).
  { intros j Hj. destruct (is_pending j) eqn:Ej; [done|].
    match goal with H : existsb _ _ = false |- _ => apply not_true_iff_false in H as []; apply existsb_exists end.
    exists j. split; [|by rewrite Ej]. apply list_elem_of_In. by right. }
  split; simpl in *; [done| | | |done|done].
  - intros j [->|Hj]%elem_of_cons; [|apply O2; by right]. apply (O2 i). by left.
  - intros j k [->|Hj]%elem_of_cons [->|Hk]%elem_of_cons Pj Pk; try done.
    + by rewrite Hp in Pk.
    + by rewrite Hp in Pj.
    + by rewrite Hp in Pj.
  - intros j [->|Hj]%elem_of_cons Pj; simpl; [eauto|]. by rewrite Hp in Pj.
Qed.
