(* ===== verification/MessageQueueService.v ===== *)
(** * MessageQueueService: the service that owns the queue of a session
    (relay/src/session-message-queue/service.ts).

    The advisory lock serialises the operations of one session and sessions do
    not share rows, so the model follows one session: its row of
    [session_message_queues], the event log, and the claims that relay
    processes hold between their two critical sections.  [lock] is split into
    [lock_open] (authorise, load or create, drain the history) and
    [lock_commit] (write the row); a throw leaves the row alone.

    [svc_step] interleaves the critical sections of any number of relay
    processes, with crashes and lost commits.  The theorems: the stored queue
    keeps its invariant, no message is sent twice without a [resume] between,
    and the paged drain ends; it folds the whole history in order when the
    identifiers in question sort as texts the way they sort as numbers. *)

From stdpp Require Import pretty.
From S2P Require Import Prelude JsValue MessageQueue.

#[local] Open Scope Z_scope.

(** ** Authorisation *)

(** What the database says about the session when the lock is taken; [owner]
    is the [user_id] of its [sessions] row. *)
Record SessionFacts : Type := {
  owner : Z;
  daemonId : option string;
  agentType : string;
  controlMode : option string;
  capabilities : list string;
  status : option string;
  deleted : bool;
  collaborationManaged : bool;
  subagent : bool
}.

Definition queue_agents : list string := ["claude-code"; "codex"; "opencode"; "dsh"]%string.

Definition authorize_queue (facts : SessionFacts) (userId : Z) (requireCapability : bool)
  : outcome unit :=
  if negb (owner facts =? userId) then Throws "queue_unavailable"
  else if match daemonId facts with Some d => bool_decide (d = EmptyString) | None => true end
  then Throws "queue_unavailable"
  else if negb requireCapability then Returns ()
  else if negb (bool_decide (agentType facts ∈ queue_agents))
    || negb (bool_decide ("message_queue_v1"%string ∈ capabilities facts))
    || bool_decide (controlMode facts = Some "legacy_read_only"%string)
    || deleted facts || collaborationManaged facts
  then Throws "queue_unavailable"
  else if subagent facts then Throws "queue_unavailable"
  else Returns ().

(** ** [lock] *)

Definition idle_statuses : list string := ["idle"; "completed"; "exited"; "error"; "killed"]%string.

(** Lines 74-75: the queue of a session seen for the first time. *)
Definition fresh_queue (facts : SessionFacts) (max_id : Z) : QueueState :=
  let st := default EmptyString (status facts) in
  let s := emptyQueue (negb (bool_decide (st ∈ idle_statuses))) max_id in
  if bool_decide (st ∈ ["error"; "killed"]%string) then with_blocked s (JStr st) else s.

Definition queue_event_types : list string :=
  ["turn_status"; "queue_dispatch_started"; "user_message_receipt"; "error"]%string.

Definition page_size : nat := 500.

Definition after_cursor (s : QueueState) (e : QueueEvent) : bool :=
  (cursor s <? event_id e) && bool_decide (event_type e ∈ queue_event_types).

(** [SELECT id::text, ... ORDER BY id]: the name is that of the output column, a
    text. *)
Definition text_le (x y : QueueEvent) : Prop := String.le (pretty (event_id x)) (pretty (event_id y)).

#[global] Instance text_le_dec x y : Decision (text_le x y).
Proof. unfold text_le. apply _. Defined.

(** The query of lines 81-83. *)
Definition event_page (s : QueueState) (log : list QueueEvent) : list QueueEvent :=
  take page_size (merge_sort text_le (bfilter (after_cursor s) log)).

Definition consume_event (s : QueueState) (e : QueueEvent) : QueueState :=
  bump_version (with_cursor (reduceQueueEvent s e) (event_id e)).

Definition consume_events (s : QueueState) (l : list QueueEvent) : QueueState :=
  fold_left consume_event l s.

(** The [while (more)] loop; a full page is followed by another query. *)
Fixpoint drain_history (fuel : nat) (s : QueueState) (log : list QueueEvent) : QueueState :=
  match fuel with
  | O => s
  | S fuel' =>
      let page := event_page s log in
      let s' := consume_events s page in
      if bool_decide (length page = page_size) then drain_history fuel' s' log else s'
  end.

Definition max_event_id (log : list QueueEvent) : Z :=
  foldr (λ e m, Z.max (event_id e) m) 0 log.

(** The row of the session: its [user_id] and [state]. *)
Abbreviation QueueRow := (option (Z * QueueState)).

Definition load_queue (row : QueueRow) (facts : SessionFacts) (userId : Z) (log : list QueueEvent)
  : QueueState :=
  match row with
  | Some (u, s) => if u =? userId then s else fresh_queue facts (max_event_id log)
  | None => fresh_queue facts (max_event_id log)
  end.

Definition lock_open (row : QueueRow) (facts : SessionFacts) (userId : Z)
  (requireCapability : bool) (log : list QueueEvent) : outcome QueueState :=
  try! _ := authorize_queue facts userId requireCapability in
  Returns (drain_history (S (length log)) (load_queue row facts userId log) log).

(** [INSERT ... ON CONFLICT(session_id) DO UPDATE SET state]. *)
Definition lock_commit (row : QueueRow) (userId : Z) (s : QueueState) : QueueRow :=
  match row with Some (u, _) => Some (u, s) | None => Some (userId, s) end.

(** ** Operations *)

Section operations.
Context (sha256 : string → string).

Definition command_body (cmd : jsval) (online : bool) (s : QueueState) : outcome QueueState :=
  if is_str (js_get cmd "action") "read" then Returns s
  else if negb online then Throws "daemon_offline"
  else mutateQueue sha256 s cmd.

Definition command (row : QueueRow) (facts : SessionFacts) (userId : Z) (log : list QueueEvent)
  (cmd : jsval) (online : bool) : outcome (QueueRow * QueueState) :=
  try! s := lock_open row facts userId true log in
  try! s' := command_body cmd online s in
  Returns (lock_commit row userId s', s').
End operations.

Definition hold (row : QueueRow) (facts : SessionFacts) (userId : Z) (log : list QueueEvent)
  : outcome QueueRow :=
  match row with
  | Some (u, _) =>
      if u =? userId then
        try! s := lock_open row facts userId false log in
        Returns (lock_commit row userId (bump_version (with_blocked s (JStr "stopped"))))
      else Returns row
  | None => Returns row
  end.

(** The first critical section of [tick]: commit a claim. *)
Definition claim_session (row : QueueRow) (facts : SessionFacts) (userId : Z)
  (log : list QueueEvent) (online : bool) (now : Z) (uuid : string)
  : outcome (QueueRow * option QueueItem) :=
  try! s := lock_open row facts userId true log in
  let '(s', claimed) := claimQueue s online now uuid in
  Returns (lock_commit row userId s', claimed).

(** A claim that is given back. *)
Definition released (i : QueueItem) : QueueItem := {|
  id := id i; content := content i; request_id := None; state := SPending;
  started_at := None; turn_id := turn_id i; terminal := terminal i |}.

(** Lines 120-136: the new state and whether [dispatch] was called; [answer]
    is what it answers.  A throw of [dispatch] throws after the call. *)
Definition settle_claim (claimed : QueueItem) (online : bool) (answer : outcome (option string))
  (s : QueueState) : outcome QueueState * bool :=
  match list_find (λ i, request_id i = request_id claimed) (items s) with
  | Some (n, i) =>
      if negb (bool_decide (state i = SDispatching)) then (Returns s, false)
      else if truthy (blocked s) || negb online then
        (Returns (bump_version (update_item s n released)), false)
      else
        match answer with
        | Throws m => (Throws m, true)
        | Returns None => (Returns s, true)
        | Returns (Some error) =>
            if bool_decide (error = EmptyString) then (Returns s, true)
            else (Returns (bump_version (with_blocked
                    (update_item s n (λ i, with_state i SFailed)) (JStr error))), true)
        end
  | None => (Returns s, false)
  end.

(** The second critical section of [tick]; [committed] is false when the
    transaction fails after the call. *)
Definition dispatch_claim (row : QueueRow) (facts : SessionFacts) (userId : Z)
  (log : list QueueEvent) (claimed : QueueItem) (online : bool)
  (answer : outcome (option string)) (committed : bool) : QueueRow * bool :=
  match lock_open row facts userId true log with
  | Throws _ => (row, false)
  | Returns s =>
      let '(r, sent) := settle_claim claimed online answer s in
      match r with
      | Returns s' => (if committed then lock_commit row userId s' else row, sent)
      | Throws _ => (row, sent)
      end
  end.

(** ** The system *)

(** What clients and daemons can observe, newest first. *)
Inductive entry : Type :=
| Sent (item request : string)
| Resumed.

Record Service : Type := {
  srow : QueueRow;
  slog : list QueueEvent;
  sclaims : list QueueItem;
  sissued : list string;
  strace : list entry
}.

Definition is_resume (cmd : jsval) : bool := is_str (js_get cmd "action") "resume".

Section system.
Context (sha256 : string → string) (session_owner : Z).

Inductive svc_step : Service → Service → Prop :=
| St_event s e :
    (∀ e', e' ∈ slog s → event_id e' < event_id e) → 0 < event_id e →
    svc_step s {| srow := srow s; slog := slog s ++ [e]; sclaims := sclaims s;
                  sissued := sissued s; strace := strace s |}
| St_command s facts userId cmd online row' q :
    owner facts = session_owner →
    command sha256 (srow s) facts userId (slog s) cmd online = Returns (row', q) →
    svc_step s {| srow := row'; slog := slog s; sclaims := sclaims s; sissued := sissued s;
                  strace := if is_resume cmd then Resumed :: strace s else strace s |}
| St_hold s facts userId row' :
    owner facts = session_owner →
    hold (srow s) facts userId (slog s) = Returns row' →
    svc_step s {| srow := row'; slog := slog s; sclaims := sclaims s; sissued := sissued s;
                  strace := strace s |}
| St_claim s facts userId online now uuid row' claimed :
    owner facts = session_owner → uuid ≠ EmptyString → uuid ∉ sissued s →
    claim_session (srow s) facts userId (slog s) online now uuid = Returns (row', claimed) →
    svc_step s {| srow := row'; slog := slog s; sclaims := option_list claimed ++ sclaims s;
                  sissued := uuid :: sissued s; strace := strace s |}
| St_crash s claims1 c claims2 :
    sclaims s = claims1 ++ c :: claims2 →
    svc_step s {| srow := srow s; slog := slog s; sclaims := claims1 ++ claims2;
                  sissued := sissued s; strace := strace s |}
| St_dispatch s facts userId claims1 c claims2 online answer committed row' sent :
    owner facts = session_owner → sclaims s = claims1 ++ c :: claims2 →
    dispatch_claim (srow s) facts userId (slog s) c online answer committed = (row', sent) →
    svc_step s {| srow := row'; slog := slog s; sclaims := claims1 ++ claims2;
                  sissued := sissued s;
                  strace := if (sent : bool)
                    then Sent (id c) (default EmptyString (request_id c)) :: strace s
                    else strace s |}.

Definition new_service : Service := {|
  srow := None; slog := []; sclaims := []; sissued := []; strace := [] |}.
End system.

(** What was sent since the last [resume]. *)
Fixpoint since_resume (t : list entry) : list entry :=
  match t with
  | [] | Resumed :: _ => []
  | e :: t' => e :: since_resume t'
  end.

(** No item is sent a second time without a [resume] between. *)
Fixpoint sent_once (t : list entry) : Prop :=
  match t with
  | [] => True
  | Resumed :: t' => sent_once t'
  | Sent x _ :: t' => (∀ r, Sent x r ∉ since_resume t') ∧ sent_once t'
  end.

(** The request ids that were sent. *)
Definition sent_requests (t : list entry) : list string :=
  omap (λ e, match e with Sent _ r => Some r | Resumed => None end) t.

(** ** The history is folded as a whole *)

Definition by_id : QueueEvent → QueueEvent → Prop := by_key event_id.

Lemma consume_cursor s l :
  cursor (consume_events s l) = match last l with Some e => event_id e | None => cursor s end.
Proof.
  destruct l as [|e l] using rev_ind; [done|].
  unfold consume_events. rewrite fold_left_app, last_snoc. done.
Qed.

Lemma consume_app s l1 l2 : consume_events s (l1 ++ l2) = consume_events (consume_events s l1) l2.
Proof. apply fold_left_app. Qed.

(** After a full page the next query starts exactly where it ended. *)
Lemma next_page s log l1 e l2 :
  StronglySorted by_id log → bfilter (after_cursor s) log = l1 ++ e :: l2 →
  bfilter (after_cursor (consume_events s (l1 ++ [e]))) log = l2.
Proof.
  intros Hs HF. apply (read_on event_id (after_cursor s) _ log l1 e); [done..|].
  intros x _. unfold after_cursor. rewrite consume_cursor, last_snoc.
  assert (He : after_cursor s e = true).
  { apply (elem_of_bfilter _ e log). rewrite HF. set_solver. }
  apply andb_true_iff in He as [He%Z.ltb_lt _].
  destruct (event_id e <? event_id x) eqn:E; [|by rewrite andb_false_r].
  apply Z.ltb_lt in E. rewrite (proj2 (Z.ltb_lt (cursor s) (event_id x))) by lia.
  by rewrite andb_true_r.
Qed.

#[global] Instance text_le_trans : Transitive text_le.
Proof. intros x y z H1 H2. unfold text_le in *. by etrans. Qed.

#[global] Instance text_le_total : Total text_le.
Proof. intros x y. apply (total String.le). Qed.

Lemma text_le_id x y : text_le x y → text_le y x → event_id x = event_id y.
Proof. intros H1 H2. apply (inj pretty). by apply (anti_symm String.le). Qed.

(** Events in the order of their identifiers, which is that of the texts. *)
Lemma page_in_order F :
  StronglySorted by_id F → StronglySorted text_le F → merge_sort text_le F = F.
Proof.
  intros Hid Ht. apply (StronglySorted_unique_strong text_le).
  - intros x y Hx Hy H1 H2. rewrite merge_sort_Permutation in Hx. pose proof (text_le_id x y H1 H2) as E. clear Ht H1 H2.
    induction Hid as [|z F Hz IH Hall]; [by apply elem_of_nil in Hx|]. rewrite Forall_forall in Hall.
    unfold by_id, by_key in Hall.
    apply elem_of_cons in Hx as [->|Hx], Hy as [->|Hy]; auto; [apply Hall in Hy|apply Hall in Hx]; lia.
  - by apply StronglySorted_merge_sort; try apply _.
  - done.
  - apply merge_sort_Permutation.
Qed.

Lemma drain_pages fuel s log :
  StronglySorted by_id log → StronglySorted text_le (bfilter (after_cursor s) log) →
  (length (bfilter (after_cursor s) log) < fuel)%nat →
  drain_history fuel s log = consume_events s (bfilter (after_cursor s) log).
Proof.
  intros Hs. revert s; induction fuel as [|fuel IH]; intros s Ht Hlen; [lia|]. simpl.
  unfold event_page. rewrite page_in_order by (done || by apply sorted_bfilter).
  set (F := bfilter (after_cursor s) log) in *.
  case_bool_decide as Hfull.
  - assert (Hsplit : take page_size F ++ drop page_size F = F) by apply take_drop.
    destruct (take page_size F) as [|e l _] eqn:Et using rev_ind; [done|].
    rewrite <- app_assoc in Hsplit. simpl in Hsplit.
    pose proof (next_page s log l e _ Hs (eq_sym Hsplit)) as Hnext.
    rewrite IH, Hnext.
    + rewrite <- consume_app. f_equal. by rewrite <- app_assoc.
    + rewrite Hnext. rewrite <- Hsplit in Ht. apply StronglySorted_app in Ht as (_ & _ & Ht).
      by apply StronglySorted_cons in Ht as [_ ?].
    + rewrite Hnext. apply (f_equal length) in Hsplit. rewrite length_app in Hsplit. simpl in Hsplit. lia.
  - rewrite take_ge; [done|]. rewrite length_take in Hfull. lia.
Qed.

Lemma bfilter_shorter {A} (p q : A → bool) l x :
  (∀ y, y ∈ l → q y = true → p y = true) → x ∈ l → p x = true → q x = false →
  (length (bfilter q l) < length (bfilter p l))%nat.
Proof.
  intros Hpq Hx Hp Hq. induction l as [|y l IH]; [by apply elem_of_nil in Hx|]. simpl.
  assert (Hle : (length (bfilter q l) ≤ length (bfilter p l))%nat).
  { clear IH Hx. assert (H : ∀ y, y ∈ l → q y = true → p y = true) by (intros; apply Hpq; [by right|done]).
    clear Hpq. induction l as [|z l IH]; simpl; [done|].
    pose proof (H z (list_elem_of_here _ _)). specialize (IH (λ y Hy, H y (list_elem_of_further _ _ _ Hy))).
    destruct (q z), (p z); simpl; try lia; naive_solver. }
  pose proof (Hpq y (list_elem_of_here _ _)) as Hy. apply elem_of_cons in Hx as [->|Hx].
  - rewrite Hp, Hq. simpl. lia.
  - specialize (IH (λ y H, Hpq y (list_elem_of_further _ _ _ H)) Hx).
    destruct (q y), (p y); simpl; try lia; naive_solver.
Qed.

(** A full page moves the cursor on, whatever its order. *)
Lemma page_advances s log :
  event_page s log ≠ [] →
  (length (bfilter (after_cursor (consume_events s (event_page s log))) log) < length (bfilter (after_cursor s) log))%nat.
Proof.
  intros Hne. destruct (event_page s log) as [|e l _] eqn:Ep using rev_ind; [done|].
  assert (He : e ∈ bfilter (after_cursor s) log).
  { rewrite <- (merge_sort_Permutation text_le). eapply elem_of_sublist; [|apply (sublist_take _ page_size)].
    fold (event_page s log). rewrite Ep. set_solver. }
  apply elem_of_bfilter in He as [Hp Hin]. apply (bfilter_shorter _ _ _ e); [|done|done|].
  - intros y _. unfold after_cursor in *. rewrite consume_cursor, last_snoc. rewrite !andb_true_iff, !Z.ltb_lt in *.
    intros [Hy ?]. destruct Hp as [Hp _]. split; [lia|done].
  - unfold after_cursor. rewrite consume_cursor, last_snoc, Z.ltb_irrefl. done.
Qed.

(** The loop of queries ends: with as many rounds as there are events, and one
    more, a further round changes nothing. *)
Theorem drain_ends fuel n s log :
  (length (bfilter (after_cursor s) log) < fuel)%nat → drain_history (fuel + n) s log = drain_history fuel s log.
Proof.
  revert s. induction fuel as [|fuel IH]; intros s Hf; [lia|]. simpl. case_bool_decide as Hfull; [|done].
  apply IH. assert (event_page s log ≠ []) as Hne%page_advances by (intros E; by rewrite E in Hfull). lia.
Qed.

(** Draining the history in pages of 500 folds every queue event after the
    cursor, in order and once, and leaves the cursor at the last of them, when
    the texts of their identifiers are in the order of the numbers. *)
Theorem drain_whole_history (s : QueueState) (log : list QueueEvent) :
  StronglySorted by_id log →
  let pending := bfilter (after_cursor s) log in
  StronglySorted text_le pending →
  let s' := drain_history (S (length log)) s log in
  s' = fold_left consume_event pending s ∧
  bfilter (after_cursor s') log = [] ∧
  cursor s' = match last pending with Some e => event_id e | None => cursor s end.
Proof.
  intros Hs pending Ht s'. unfold s'. rewrite drain_pages; [|done|done|].
  - split; [done|]. split; [|apply consume_cursor]. fold pending.
    destruct pending as [|e l _] eqn:E using rev_ind; [exact E|].
    by apply (next_page s log l e []).
  - pose proof (bfilter_length (after_cursor s) log). lia.
Qed.

Definition sample_status (n : Z) (st : string) : QueueEvent := {|
  event_id := n; event_type := "turn_status";
  payload := JObj [("turn_id", JStr "t"); ("turn_status", JStr st)]%string |}.

Lemma drain_whole_history_witness :
  let log := [sample_status 3 "running"; sample_status 7 "completed"] in
  let s' := drain_history 3 (emptyQueue false 0) log in
  busy s' = false ∧ cursor s' = 7 ∧ version s' = 2.
Proof.
  intros log s'.
  assert (Hs : StronglySorted by_id log).
  { repeat constructor. }
  destruct (drain_whole_history (emptyQueue false 0) log Hs) as (E & _ & Hc).
  { repeat constructor; apply bool_decide_eq_true; vm_compute; reflexivity. }
  change (drain_history (S (length log)) (emptyQueue false 0) log) with s' in *.
  split; [by rewrite E|]. split; [exact Hc|by rewrite E].
Defined.

(** Where the identifiers grow by a digit the events are folded in the wrong
    order: the turn that ended at event 10 counts as running, and the cursor goes
    back, so that event 10 is folded again by the next operation. *)
Example history_out_of_order :
  let log := [sample_status 9 "running"; sample_status 10 "completed"] in
  let s1 := drain_history 3 (emptyQueue false 0) log in
  let s2 := drain_history 3 s1 log in
  busy s1 = true ∧ cursor s1 = 9 ∧ busy s2 = false ∧ version s2 = 3.
Proof. by vm_compute. Qed.

(** ** The invariant of the system *)

(** The request ids of the claims relay processes hold. *)
Definition claim_requests (claims : list QueueItem) : list string := omap request_id claims.

(** What was sent since the last [resume] is remembered, and its item, while
    it is still there, is not pending and carries a request id that was sent. *)
Definition sent_ok (t : list entry) (q : QueueState) : Prop :=
  ∀ x r, Sent x r ∈ since_resume t →
    is_Some (seen q !! x) ∧
    ∀ i, i ∈ items q → id i = x →
      is_pending i = false ∧ ∃ r', request_id i = Some r' ∧ r' ∈ sent_requests t.

(** Request ids of items were issued, and name the item of the claim. *)
Definition items_ok (claims : list QueueItem) (issued : list string) (q : QueueState) : Prop :=
  ∀ i r, i ∈ items q → request_id i = Some r →
    r ∈ issued ∧ ∀ c, c ∈ claims → request_id c = Some r → id c = id i.

Record q_ok (s : Service) (q : QueueState) : Prop := {
  qo_queue : queue_ok q;
  qo_sent : sent_ok (strace s) q;
  qo_items : items_ok (sclaims s) (sissued s) q
}.

Record svc_ok (session_owner : Z) (s : Service) : Prop := {
  so_row : ∀ u q, srow s = Some (u, q) → u = session_owner ∧ q_ok s q;
  so_none : srow s = None → since_resume (strace s) = [];
  so_nodup : NoDup (claim_requests (sclaims s) ++ sent_requests (strace s));
  so_issued : ∀ r, r ∈ claim_requests (sclaims s) ++ sent_requests (strace s) → r ∈ sissued s;
  so_claimed : ∀ c, c ∈ sclaims s → is_Some (request_id c);
  so_once : sent_once (strace s);
  so_log : StronglySorted by_id (slog s)
}.

(** *** Steps of the queue inside a critical section *)

Lemma sent_ok_evolves t q q' : evolves q q' → sent_ok t q → sent_ok t q'.
Proof.
  intros He Ht x r Hx. destruct (Ht x r Hx) as [Hs Hi]. split; [by destruct He as [_ ->]|].
  intros i Hin Hid. destruct (evolves_elem _ _ _ He Hin) as (j & Hj & E).
  injection E as E1 _ E2 E3. rewrite <- E3, <- E2. apply Hi; [done|congruence].
Qed.

Lemma q_ok_evolves s q q' : evolves q q' → q_ok s q → q_ok s q'.
Proof.
  intros He [Hq Ht Hi]. split; [by eapply evolves_ok|by eapply sent_ok_evolves|].
  intros i r Hin Hr. destruct (evolves_elem _ _ _ He Hin) as (j & Hj & E).
  injection E as E1 _ E2 _. destruct (Hi j r) as [H1 H2]; [done|congruence|].
  split; [done|]. intros c Hc Hcr. rewrite <- E1. by apply H2.
Qed.

Lemma consume_evolves s l : evolves s (consume_events s l).
Proof.
  revert s; induction l as [|e l IH]; intros s; [done|]. simpl.
  etransitivity; [|apply IH]. apply (reduce_evolves s e).
Qed.

Lemma drain_evolves fuel s log : evolves s (drain_history fuel s log).
Proof.
  revert s; induction fuel as [|fuel IH]; intros s; simpl; [done|].
  case_bool_decide; [etransitivity; [|apply IH]|]; apply consume_evolves.
Qed.

Lemma fresh_empty facts m :
  items (fresh_queue facts m) = [] ∧ seen (fresh_queue facts m) = ∅.
Proof. unfold fresh_queue. by destruct (bool_decide (_ ∈ ["error"; "killed"]%string)). Qed.

Lemma fresh_ok s facts m :
  since_resume (strace s) = [] → q_ok s (fresh_queue facts m).
Proof.
  intros Ht. destruct (fresh_empty facts m) as [Ei Es]. split.
  - eapply evolves_ok; [|apply (empty_ok false 0)]. split; [by rewrite Ei|done].
  - intros x r. rewrite Ht. set_solver.
  - intros i r. rewrite Ei. set_solver.
Qed.

(** Whoever holds the lock is the owner and finds a queue in order. *)
Lemma lock_open_ok own s facts userId cap q :
  svc_ok own s → owner facts = own →
  lock_open (srow s) facts userId cap (slog s) = Returns q → userId = own ∧ q_ok s q.
Proof.
  intros Hok Hown. unfold lock_open. destruct (authorize_queue _ _ _) eqn:Ea; [|done]. intros [= <-].
  assert (Hu : userId = own).
  { unfold authorize_queue in Ea. destruct (negb _) eqn:E; [done|]. bool_hyps. congruence. }
  split; [done|]. eapply q_ok_evolves; [apply (drain_evolves (S (length (slog s))))|].
  unfold load_queue. destruct (srow s) as [[u q]|] eqn:Er.
  - destruct (so_row own s Hok u q Er) as [-> Hq]. subst. by rewrite Z.eqb_refl.
  - apply fresh_ok. by apply (so_none own).
Qed.

(** Writing back a queue in order keeps the system in order. *)
Lemma commit_row own row userId q u q' :
  userId = own → (∀ u q, row = Some (u, q) → u = own) →
  lock_commit row userId q = Some (u, q') → u = own ∧ q' = q.
Proof.
  intros Hu Hrow. unfold lock_commit. destruct row as [[u0 q0]|]; intros [= <- <-]; [|done].
  split; [by eapply Hrow|done].
Qed.

Lemma committed_ok own s s' userId q :
  svc_ok own s → userId = own → srow s' = lock_commit (srow s) userId q → q_ok s' q →
  slog s' = slog s →
  NoDup (claim_requests (sclaims s') ++ sent_requests (strace s')) →
  (∀ r, r ∈ claim_requests (sclaims s') ++ sent_requests (strace s') → r ∈ sissued s') →
  (∀ c, c ∈ sclaims s' → is_Some (request_id c)) → sent_once (strace s') → svc_ok own s'.
Proof.
  intros Hok Hu Er Hq El H1 H2 H3 H4. split; try done.
  - intros u q' E. rewrite Er in E. eapply commit_row in E as [-> ->]; [done|done|].
    intros u' q'' E'. subst userId. by apply (so_row own s Hok u' q'').
  - rewrite Er. unfold lock_commit. by destruct (srow s) as [[]|].
  - rewrite El. apply Hok.
Qed.

(** *** Commands *)

(** Any command but [resume] leaves the kept items as they are and adds only
    ids that were not known. *)
Lemma mutate_keys sha q cmd q' :
  queue_ok q → is_resume cmd = false → mutateQueue sha q cmd = Returns q' →
  (∀ k, is_Some (seen q !! k) → is_Some (seen q' !! k)) ∧
  ∀ i, i ∈ items q' →
    i ∈ items q ∨ (seen q !! id i = None ∧ request_id i = None).
Proof.
  intros Hok Hr. unfold mutateQueue. destruct (is_str _ "enqueue").
  { unfold enqueue_item.
    destruct (js_get cmd "item_id") as [| | | | |k| |]; try done.
    destruct (js_get cmd "content") as [| | | | |c| |]; try done.
    destruct (_ || _); [done|]. destruct (seen q !! k) as [h|] eqn:Ek.
    { case_bool_decide; [|done]. intros [= <-]. split; auto. }
    destruct (_ || _); [done|]. intros [= <-]. simpl. split.
    - intros k' Hk'. destruct (decide (k' = k)) as [->|]; [rewrite lookup_insert_eq; eauto|].
      by rewrite lookup_insert_ne.
    - intros i [Hi| ->%list_elem_of_singleton]%elem_of_app; auto. }
  destruct (negb _); [done|]. destruct (is_str _ "cancel").
  { repeat case_match; try done. intros [= <-]. split; [done|]. intros i Hi. left.
    eapply elem_of_sublist; [exact Hi|apply remove_first_sublist]. }
  destruct (is_str _ "reorder").
  { destruct (js_get cmd "item_ids") as [| | | | | |ids|]; try done.
    destruct (_ || _) eqn:E; [done|]. intros [= <-]. split; [done|]. bool_hyps.
    intros i Hi. left. simpl in Hi. rewrite reordered_perm in Hi; [done|apply Hok|done..]. }
  unfold is_resume in Hr. by rewrite Hr.
Qed.

Lemma mutate_q_ok sha s q cmd q' :
  q_ok s q → is_resume cmd = false → mutateQueue sha q cmd = Returns q' → q_ok s q'.
Proof.
  intros [Hq Ht Hi] Hr Hm. destruct (mutate_keys sha q cmd q' Hq Hr Hm) as [Hs Hk].
  split; [by eapply mutate_ok| |].
  - intros x r Hx. destruct (Ht x r Hx) as [Hx1 Hx2]. split; [auto|].
    intros i [Hin|[Hn _]]%Hk <-; [auto|]. destruct Hx1. congruence.
  - intros i r [Hin|[_ Hn]]%Hk E; [eauto|congruence].
Qed.

(** [resume] clears every request id. *)
Lemma resume_items sha q cmd q' i :
  is_resume cmd = true → mutateQueue sha q cmd = Returns q' → i ∈ items q' → request_id i = None.
Proof.
  unfold is_resume. intros Hr. unfold mutateQueue.
  destruct (js_get cmd "action") as [| | | | |a| |]; try done. simpl in Hr. bool_hyps. subst a.
  simpl. destruct (negb _); [done|]. destruct (existsb _ _); [done|]. intros [= <-].
  by intros (j & -> & _)%list_elem_of_fmap.
Qed.

Lemma read_not_resume cmd : is_str (js_get cmd "action") "read" = true → is_resume cmd = false.
Proof.
  unfold is_resume. destruct (js_get cmd "action"); simpl; try done. intros ->%bool_decide_eq_true. done.
Qed.

Lemma command_ok own sha s facts userId cmd online row' q :
  svc_ok own s → owner facts = own →
  command sha (srow s) facts userId (slog s) cmd online = Returns (row', q) →
  svc_ok own {| srow := row'; slog := slog s; sclaims := sclaims s; sissued := sissued s;
                strace := if is_resume cmd then Resumed :: strace s else strace s |}.
Proof.
  intros Hok Hown. unfold command. destruct (lock_open _ _ _ _ _) as [q0|] eqn:Eo; [|done].
  destruct (lock_open_ok own s facts userId true q0 Hok Hown Eo) as [Hu Hq0].
  destruct (command_body _ _ _ _) as [q1|] eqn:Eb; [|done]. intros [= <- <-].
  assert (Hreq : sent_requests (if is_resume cmd then Resumed :: strace s else strace s)
    = sent_requests (strace s)) by by destruct (is_resume cmd).
  eapply (committed_ok own s _ userId q1); simpl; rewrite ?Hreq; try done; try apply Hok.
  - unfold command_body in Eb. destruct (is_str _ "read") eqn:Er.
    { injection Eb as <-. rewrite (read_not_resume _ Er). by destruct Hq0; split. }
    destruct (negb online); [done|]. destruct (is_resume cmd) eqn:Ers.
    + split; simpl; [by eapply mutate_ok; [apply Hq0|]|by intros x r Hx%not_elem_of_nil|].
      intros i r Hi Hr. rewrite (resume_items _ _ _ _ i Ers Eb Hi) in Hr. done.
    + destruct (mutate_q_ok _ _ _ _ _ Hq0 Ers Eb). by split.
  - pose proof (so_once own s Hok). by destruct (is_resume cmd).
Qed.

Lemma hold_ok own s facts userId row' :
  svc_ok own s → owner facts = own → hold (srow s) facts userId (slog s) = Returns row' →
  svc_ok own {| srow := row'; slog := slog s; sclaims := sclaims s; sissued := sissued s;
                strace := strace s |}.
Proof.
  intros Hok Hown. unfold hold.
  assert (Hsame : row' = srow s → svc_ok own {| srow := row'; slog := slog s;
    sclaims := sclaims s; sissued := sissued s; strace := strace s |}).
  { intros ->. destruct Hok as [H1 H2]. split; try done.
    intros u q E. destruct (H1 u q E) as [? []]. by split; [|split]. }
  destruct (srow s) as [[u q]|] eqn:Er; [|intros [= <-]; by apply Hsame].
  destruct (u =? userId); [|intros [= <-]; by apply Hsame].
  rewrite <- Er. destruct (lock_open _ _ _ _ _) as [q0|] eqn:Eo; [|done].
  destruct (lock_open_ok own s facts userId false q0 Hok Hown Eo) as [Hu Hq0]. intros [= <-].
  eapply (committed_ok own s _ userId); simpl; try done; try apply Hok.
  destruct (q_ok_evolves s q0 (bump_version (with_blocked q0 (JStr "stopped")))) as [A B C];
    [done..|]. by split.
Qed.

(** *** Claims *)

Lemma claim_cases q online now uuid q' c :
  claimQueue q online now uuid = (q', c) →
  (c = None ∧ evolves q q') ∨
  ∃ q1 i rest, evolves q q1 ∧ items q1 = i :: rest ∧ is_pending i = true ∧
    c = Some (claimed_item i uuid now) ∧
    items q' = claimed_item i uuid now :: rest ∧ seen q' = seen q1.
Proof.
  unfold claimQueue. pose proof (expire_evolves q now) as He.
  set (q1 := expire_overdue q now) in *.
  destruct (_ || _) eqn:E; [intros [= <- <-]; by left|].
  destruct (items q1) as [|i rest] eqn:Ei; intros [= <- <-]; [by left|]. right.
  exists q1, i, rest. repeat (split; [done|]). split; [|done]. bool_hyps.
  match goal with H : existsb _ _ = false |- _ => simpl in H; apply orb_false_iff in H as [H _] end.
  by bool_hyps.
Qed.

Lemma items_ok_issued claims issued uuid q :
  items_ok claims issued q → items_ok claims (uuid :: issued) q.
Proof. intros H i r Hi Hr. destruct (H i r Hi Hr). split; [by right|done]. Qed.

Lemma claim_step_ok own s facts userId online now uuid row' claimed :
  svc_ok own s → owner facts = own → uuid ≠ EmptyString → uuid ∉ sissued s →
  claim_session (srow s) facts userId (slog s) online now uuid = Returns (row', claimed) →
  svc_ok own {| srow := row'; slog := slog s; sclaims := option_list claimed ++ sclaims s;
                sissued := uuid :: sissued s; strace := strace s |}.
Proof.
  intros Hok Hown Hne Hfresh. unfold claim_session.
  destruct (lock_open _ _ _ _ _) as [q0|] eqn:Eo; [|done].
  destruct (lock_open_ok own s facts userId true q0 Hok Hown Eo) as [Hu Hq0].
  destruct (claimQueue _ _ _ _) as [q' c] eqn:Ec. intros [= <- <-].
  pose proof (claim_ok _ _ _ _ _ _ Hne (qo_queue _ _ Hq0) Ec) as Hq'.
  pose proof (so_issued own s Hok) as Hiss.
  destruct (claim_cases _ _ _ _ _ _ Ec) as [[-> He]|(q1 & i & rest & He & Ei & Hp & -> & Ei' & Es)].
  - destruct (q_ok_evolves s q0 q' He Hq0) as [_ Ht Hi].
    eapply (committed_ok own s _ userId q'); simpl; try done; try apply Hok.
    + split; [done..|]. by apply items_ok_issued.
    + intros r Hr. right. by apply Hiss.
  - destruct (q_ok_evolves s q0 q1 He Hq0) as [Hq1 Ht Hi].
    eapply (committed_ok own s _ userId q'); simpl; try done; try apply Hok.
    + split; simpl; [done| |].
      * intros x r Hx. destruct (Ht x r Hx) as [Hs Hin]. rewrite Es. split; [done|].
        intros j. rewrite Ei'. rewrite Ei in Hin. intros [->|Hj]%elem_of_cons Hid.
        -- destruct (Hin i (list_elem_of_here _ _) Hid). congruence.
        -- apply Hin; [by right|done].
      * intros j r. rewrite Ei'. intros [->|Hj]%elem_of_cons Hr.
        -- injection Hr as <-. split; [by left|]. intros c [->|Hc]%elem_of_cons Hcr; [done|].
           exfalso. apply Hfresh, Hiss, elem_of_app. left. apply list_elem_of_omap. eauto.
        -- destruct (Hi j r) as [H1 H2]; [rewrite Ei; by right|done|]. split; [by right|].
           intros c [->|Hc]%elem_of_cons Hcr; [|auto]. injection Hcr as <-. done.
    + constructor; [|apply Hok]. intros Hin. by apply Hfresh, Hiss.
    + intros r [->|Hr]%elem_of_cons; [by left|right; by apply Hiss].
    + intros c [->|Hc]%elem_of_cons; [eauto|]. by apply (so_claimed own s).
Qed.

(** *** Dispatch *)

Lemma same_id q i j : queue_ok q → i ∈ items q → j ∈ items q → id i = id j → i = j.
Proof.
  intros Hok Hi Hj E. apply list_elem_of_lookup in Hi as [n Hn], Hj as [m Hm].
  assert (n = m); [|congruence]. apply (NoDup_lookup (id <$> items q) n m (id i)); [apply Hok|..].
  - by rewrite list_lookup_fmap, Hn.
  - by rewrite list_lookup_fmap, Hm, E.
Qed.

Lemma sent_extend t q x r i :
  queue_ok q → i ∈ items q → id i = x → is_pending i = false → request_id i = Some r →
  sent_ok t q → sent_ok (Sent x r :: t) q.
Proof.
  intros Hok Hi Hid Hp Hr Ht y r'. simpl. intros [E|Hy]%elem_of_cons.
  - injection E as -> ->. split; [subst; by apply (ok_seen q)|]. intros j Hj Hjd.
    rewrite (same_id q j i) by (done || congruence). split; [done|]. exists r. split; [done|by left].
  - destruct (Ht y r' Hy) as [H1 H2]. split; [done|]. intros j Hj Hjd.
    destruct (H2 j Hj Hjd) as (H3 & r2 & H4 & H5). split; [done|]. exists r2. split; [done|by right].
Qed.

Lemma items_ok_claims claims claims' issued q :
  claims' ⊆ claims → items_ok claims issued q → items_ok claims' issued q.
Proof. intros Hsub H i r Hi Hr. destruct (H i r Hi Hr) as [H1 H2]. split; [done|]. auto. Qed.

Lemma elem_of_update q n f i :
  i ∈ items (update_item q n f) → i ∈ items q ∨ ∃ j, items q !! n = Some j ∧ i = f j.
Proof.
  simpl. intros [m Hm]%list_elem_of_lookup. destruct (decide (m = n)) as [->|Hmn].
  - rewrite list_lookup_alter_eq in Hm. destruct (items q !! n); [|done]. injection Hm as <-. eauto.
  - rewrite list_lookup_alter_ne in Hm by done. left. by eapply list_elem_of_lookup_2.
Qed.

(** Giving a claim back keeps the queue in order. *)
Lemma release_ok q n : queue_ok q → queue_ok (update_item q n released).
Proof.
  intros Hok. pose proof (elem_of_update q n released) as Hin. split.
  - replace (id <$> items (update_item q n released)) with (id <$> items q); [apply Hok|].
    simpl. apply list_eq; intros j. rewrite !list_lookup_fmap.
    destruct (decide (j = n)) as [->|Hj]; [|by rewrite list_lookup_alter_ne].
    rewrite list_lookup_alter_eq. by destruct (items q !! n).
  - intros i [Hi|(j & Hj & ->)]%Hin; [by apply (ok_seen q)|].
    apply (ok_seen q Hok j). by eapply list_elem_of_lookup_2.
  - intros i j [Hi|(i0 & _ & ->)]%Hin [Hj|(j0 & _ & ->)]%Hin; try done. by apply (ok_single q).
  - intros i [Hi|(i0 & _ & ->)]%Hin; [|done]. by apply (ok_request q).
  - simpl. rewrite length_alter. apply Hok.
  - apply Hok.
Qed.

Lemma settle_cases c online answer q r sent :
  settle_claim c online answer q = (r, sent) →
  (sent = false ∧ r = Returns q) ∨
  ∃ n i, items q !! n = Some i ∧ request_id i = request_id c ∧ is_pending i = false ∧
    ((sent = false ∧ r = Returns (bump_version (update_item q n released))) ∨
     (sent = true ∧ ∀ q', r = Returns q' → evolves q q')).
Proof.
  unfold settle_claim. destruct (list_find _ _) as [[n i]|] eqn:Ef; [|intros [= <- <-]; by left].
  apply list_find_Some in Ef as (Hn & Hr & _).
  destruct (negb (bool_decide (state i = SDispatching))) eqn:Es; [intros [= <- <-]; by left|].
  bool_hyps. assert (Hp : is_pending i = false) by (unfold is_pending, in_states; by rewrite Es).
  intros H. right. exists n, i. repeat (split; [done|]).
  destruct (_ || _); [injection H as <- <-; by left|]. right.
  assert (Hfail : ∀ e, evolves q (bump_version (with_blocked
    (update_item q n (λ i, with_state i SFailed)) (JStr e)))).
  { intros e. split; [|done]. apply reflexive_eq. apply (set_state_keys q n SFailed); [done|].
    intros j Hj. congruence. }
  destruct answer as [[e|]|m]; [case_bool_decide| |]; injection H as <- <-; split; try done;
    by intros q' [= <-].
Qed.

Section dispatch.
Context (own : Z) (s : Service) (c : QueueItem) (claims1 claims2 : list QueueItem) (r : string).
Context (Hok : svc_ok own s) (Hclaims : sclaims s = claims1 ++ c :: claims2)
  (Hr : request_id c = Some r).

Lemma claims_sub : claims1 ++ claims2 ⊆ sclaims s.
Proof using Hclaims. rewrite Hclaims. intros x. rewrite !elem_of_app, elem_of_cons. tauto. Qed.

Lemma claims_perm : claim_requests (sclaims s) ≡ₚ r :: claim_requests (claims1 ++ claims2).
Proof using Hclaims Hr.
  rewrite Hclaims. unfold claim_requests. rewrite !omap_app. simpl. rewrite Hr. simpl.
  by rewrite <- Permutation_middle.
Qed.

Lemma not_sent : r ∉ sent_requests (strace s).
Proof using Hclaims Hr Hok.
  pose proof (so_nodup own s Hok) as H. rewrite claims_perm in H. simpl in H.
  apply NoDup_cons in H as [H _]. set_solver.
Qed.

(** The service after the claim was used without a dispatch. *)
Lemma unsent_ok row' :
  (∀ u q, row' = Some (u, q) → u = own ∧ q_ok s q) → (row' = None → srow s = None) →
  svc_ok own {| srow := row'; slog := slog s; sclaims := claims1 ++ claims2;
                sissued := sissued s; strace := strace s |}.
Proof using Hclaims Hr Hok.
  intros Hrow Hnone. destruct Hok as [H1 H2 H3 H4 H5 H6 H7]. rewrite claims_perm in H3.
  simpl in H3. apply NoDup_cons in H3 as [_ H3]. split; simpl; try done.
  - intros u q E. destruct (Hrow u q E) as [Hu [Q1 Q2 Q3]]. split; [done|]. split; [done..|].
    eapply items_ok_claims; [apply claims_sub|done].
  - auto.
  - intros x Hx. apply H4. rewrite claims_perm. by right.
  - intros x Hx. apply H5. by apply claims_sub.
Qed.

Lemma released_ok q n i :
  q_ok s q → items q !! n = Some i → request_id i = Some r →
  q_ok s (bump_version (update_item q n released)).
Proof using Hclaims Hr Hok.
  intros [Q1 Q2 Q3] Hn Hi. pose proof (elem_of_update q n released) as Hin.
  split; [by apply bump_ok, release_ok| |].
  - intros x r' Hx. destruct (Q2 x r' Hx) as [Hs Hx2]. split; [done|].
    intros j [Hj|(j0 & Hj & ->)]%Hin Hid; [by apply Hx2|].
    assert (j0 = i) as -> by congruence.
    destruct (Hx2 i) as (_ & r2 & E2 & Hr2); [by eapply list_elem_of_lookup_2|done|].
    exfalso. apply not_sent. congruence.
  - intros j r' [Hj|(j0 & Hj & ->)]%Hin E; [by apply Q3|done].
Qed.

(** The service after the claim was sent. *)
Lemma sent_step_ok row' q0 i :
  q_ok s q0 → i ∈ items q0 → request_id i = Some r →
  is_Some row' →
  (∀ u q, row' = Some (u, q) → u = own ∧ sent_ok (Sent (id c) r :: strace s) q ∧
     queue_ok q ∧ items_ok (sclaims s) (sissued s) q) →
  svc_ok own {| srow := row'; slog := slog s; sclaims := claims1 ++ claims2;
                sissued := sissued s; strace := Sent (id c) r :: strace s |}.
Proof using Hclaims Hr Hok.
  intros Hq0 Hi Hir [row Hsome] Hrow. pose proof not_sent as Hns.
  destruct Hok as [H1 H2 H3 H4 H5 H6 H7]. split; simpl; try done.
  - intros u q E. destruct (Hrow u q E) as (Hu & Q1 & Q2 & Q3). split; [done|]. split; [done..|].
    eapply items_ok_claims; [apply claims_sub|done].
  - intros E. congruence.
  - rewrite <- Permutation_middle. by rewrite claims_perm in H3.
  - intros x. rewrite <- Permutation_middle. intros Hx. apply H4. by rewrite claims_perm.
  - intros x Hx. apply H5. by apply claims_sub.
  - split; [|done]. intros r' Hin. destruct (qo_sent _ _ Hq0 _ _ Hin) as [_ Hx].
    destruct (Hx i Hi) as (_ & r2 & E2 & Hin2).
    + symmetry. apply (qo_items _ _ Hq0 i r Hi Hir); [|done]. rewrite Hclaims. set_solver.
    + rewrite Hir in E2. injection E2 as <-. done.
Qed.

(** Recording the send, wherever the sent item is found. *)
Lemma sent_recorded q i j :
  q_ok s q → j ∈ items q → key j = key i → request_id i = Some r → is_pending i = false →
  sent_ok (Sent (id c) r :: strace s) q.
Proof using Hclaims Hr Hok.
  intros [J1 J2 J3] Hj E Hi Hp. injection E as Ej1 _ Ej2 Ej3.
  apply (sent_extend _ _ _ _ j); try done; try congruence.
  symmetry. apply (J3 j r Hj); [congruence| |done]. rewrite Hclaims. set_solver.
Qed.
End dispatch.

(** What the row held before the critical section. *)
Lemma row_evolves s facts userId cap q u q0 :
  lock_open (srow s) facts userId cap (slog s) = Returns q → srow s = Some (u, q0) →
  u = userId → evolves q0 q.
Proof.
  unfold lock_open. destruct (authorize_queue _ _ _); [|done]. intros [= <-] E ->.
  etransitivity; [|apply (drain_evolves (S (length (slog s))))].
  unfold load_queue. rewrite E, Z.eqb_refl. done.
Qed.

Lemma row_exists s facts userId cap q i :
  lock_open (srow s) facts userId cap (slog s) = Returns q → i ∈ items q → is_Some (srow s).
Proof.
  unfold lock_open. destruct (authorize_queue _ _ _); [|done]. intros [= <-] Hi.
  destruct (srow s) as [row|]; [done|].
  destruct (evolves_elem _ _ _ (drain_evolves (S (length (slog s))) _ (slog s)) Hi) as (j & Hj & _).
  revert Hj. simpl. rewrite (proj1 (fresh_empty _ _)). by intros ?%not_elem_of_nil.
Qed.

Lemma dispatch_ok own s facts userId claims1 c claims2 online answer committed row' sent :
  svc_ok own s → owner facts = own → sclaims s = claims1 ++ c :: claims2 →
  dispatch_claim (srow s) facts userId (slog s) c online answer committed = (row', sent) →
  svc_ok own {| srow := row'; slog := slog s; sclaims := claims1 ++ claims2;
                sissued := sissued s;
                strace := if sent
                  then Sent (id c) (default EmptyString (request_id c)) :: strace s
                  else strace s |}.
Proof.
  intros Hok Hown Hc. destruct (so_claimed own s Hok c) as [r Hr]; [rewrite Hc; set_solver|].
  pose proof (unsent_ok own s c claims1 claims2 r Hok Hc Hr) as Hunsent.
  pose proof (so_row own s Hok) as Hrow. unfold dispatch_claim.
  destruct (lock_open _ _ _ _ _) as [q|] eqn:Eo; [|intros [= <- <-]; by apply Hunsent].
  destruct (lock_open_ok own s facts userId true q Hok Hown Eo) as [Hu Hq].
  assert (Hcommit : ∀ q1, (∀ u q2, lock_commit (srow s) userId q1 = Some (u, q2) → u = own ∧ q2 = q1)
    ∧ (lock_commit (srow s) userId q1 = None → srow s = None)).
  { intros q1. split; [|unfold lock_commit; by destruct (srow s) as [[]|]].
    intros u q2. apply commit_row; [done|]. intros u' q' E. by apply (Hrow u' q'). }
  destruct (settle_claim c online answer q) as [o b] eqn:Es.
  destruct (settle_cases _ _ _ _ _ _ Es) as [[-> ->]|(n & i & Hn & Hi & Hp & [[-> ->]|[-> Ho]])].
  - intros [= <- <-]. destruct committed; [|by apply Hunsent].
    destruct (Hcommit q) as [Hc1 Hc2]. apply Hunsent; [|done].
    by intros u q2 [-> ->]%Hc1.
  - intros [= <- <-]. destruct committed; [|by apply Hunsent].
    destruct (Hcommit (bump_version (update_item q n released))) as [Hc1 Hc2].
    apply Hunsent; [|done]. intros u q2 [-> ->]%Hc1. split; [done|].
    apply (released_ok own s c claims1 claims2 r Hok Hc Hr q n i); [done..|congruence].
  - rewrite Hr. simpl. intros E.
    assert (Erow : row' = match o with
      | Returns q3 => if committed then lock_commit (srow s) userId q3 else srow s
      | Throws _ => srow s end ∧ sent = true) by (destruct o; by injection E as <- <-).
    destruct Erow as [Erow ->]. clear E.
    assert (Hin : i ∈ items q) by by eapply list_elem_of_lookup_2.
    rewrite Hr in Hi. destruct (row_exists _ _ _ _ _ _ Eo Hin) as [[u0 q0] E0].
    destruct (Hrow u0 q0 E0) as [Hu0 Hq0].
    pose proof (λ q1 j, sent_recorded own s c claims1 claims2 r Hok Hc Hr q1 i j) as Hsent.
    apply (sent_step_ok own s c claims1 claims2 r Hok Hc Hr row' q i Hq Hin Hi).
    + subst row'. destruct o; [|by rewrite E0]. destruct committed; [|by rewrite E0].
      unfold lock_commit. rewrite E0. done.
    + assert (Hold : u0 = own ∧ sent_ok (Sent (id c) r :: strace s) q0 ∧
        queue_ok q0 ∧ items_ok (sclaims s) (sissued s) q0).
      { destruct (evolves_elem q0 q i) as (j & Hj & Ej); [eapply row_evolves; by subst|done|].
        pose proof (Hsent q0 j Hq0 Hj Ej Hi Hp). destruct Hq0. done. }
      intros u q2. subst row'. destruct o as [q3|]; [|rewrite E0; by intros [= <- <-]].
      destruct committed; [|rewrite E0; by intros [= <- <-]].
      destruct (Hcommit q3) as [Hc1 _]. intros [-> ->]%Hc1. split; [done|].
      pose proof (Ho q3 eq_refl) as He. destruct (q_ok_evolves s q q3 He Hq) as [A B C].
      split; [|done]. eapply sent_ok_evolves; [done|]. by apply (Hsent q i).
Qed.

Lemma svc_step_ok sha own s s' : svc_ok own s → svc_step sha own s s' → svc_ok own s'.
Proof.
  intros Hok Hstep. revert Hok. destruct Hstep; intros Hok.
  - destruct Hok as [H1 H2 H3 H4 H5 H6 H7]. split; simpl; try done.
    + intros u q E. destruct (H1 u q E) as [? []]. by split; [|split].
    + apply StronglySorted_app. split; [|split; [done|repeat constructor]].
      intros x y Hx ->%list_elem_of_singleton. by apply H.
  - by eapply command_ok.
  - by eapply hold_ok.
  - by eapply claim_step_ok.
  - destruct (so_claimed own s Hok c) as [r Hr]; [rewrite H; set_solver|].
    apply (unsent_ok own s c claims1 claims2 r Hok H Hr); [|done]. apply Hok.
  - by eapply dispatch_ok.
Qed.

Lemma new_service_ok own : svc_ok own new_service.
Proof. split; simpl; try done; try apply NoDup_nil_2; try constructor; by intros ? ?%not_elem_of_nil. Qed.

Lemma service_reachable_ok sha own s : rtc (svc_step sha own) new_service s → svc_ok own s.
Proof.
  intros H. assert (Hok := new_service_ok own). revert Hok.
  induction H as [|s1 s2 s3 Hs _ IH]; [done|]. intros Hok. eapply IH, svc_step_ok; eauto.
Qed.

(** C9: However relay processes interleave, crash or lose commits, a queued
    message is handed to the daemon at most once unless a client resumes the
    queue in between, and no request id is ever used for two sends. *)
Theorem message_sent_once sha own s :
  rtc (svc_step sha own) new_service s →
  sent_once (strace s) ∧ NoDup (sent_requests (strace s)).
Proof.
  intros Hok%service_reachable_ok. split; [apply Hok|].
  pose proof (so_nodup own s Hok) as H. by apply NoDup_app in H as (_ & _ & H).
Qed.

(** In every reachable state the stored queue belongs to the owner of the
    session, its ids are unique and remembered, at most one item has been
    claimed and not given back, and the limits of 50 items and 10,000 ids hold. *)
Theorem stored_queue_ok sha own s u q :
  rtc (svc_step sha own) new_service s → srow s = Some (u, q) → u = own ∧ queue_ok q.
Proof.
  intros Hok%service_reachable_ok Hrow. destruct (so_row own s Hok u q Hrow) as [Hu Hq].
  split; [done|apply Hq].
Qed.

(** *** A run: enqueue, claim, dispatch, and the end of the turn *)

Definition sample_facts : SessionFacts := {|
  owner := 7; daemonId := Some "d1"%string; agentType := "codex"; controlMode := None;
  capabilities := ["message_queue_v1"]%string; status := Some "idle"%string;
  deleted := false; collaborationManaged := false; subagent := false |}.

Definition sample_enqueue : jsval :=
  JObj [("action", JStr "enqueue"); ("item_id", JStr "m1"); ("content", JStr "hello")]%string.

Definition sample_row1 : QueueRow :=
  match command (λ c, c) None sample_facts 7 [] sample_enqueue true with
  | Returns (row, _) => row | Throws _ => None end.

Definition sample_claim : QueueRow * option QueueItem :=
  match claim_session sample_row1 sample_facts 7 [] true 1000 "r1" with
  | Returns x => x | Throws _ => (None, None) end.

Definition sample_claimed : QueueItem := claimed_item (pending_item "m1" "hello") "r1" 1000.

Definition sample_service : Service := {|
  srow := sample_claim.1; slog := []; sclaims := []; sissued := ["r1"%string];
  strace := [Sent "m1" "r1"] |}.

Lemma sample_reached : rtc (svc_step (λ c, c) 7) new_service sample_service.
Proof.
  eapply rtc_l.
  { eapply (St_command _ _ _ sample_facts 7 sample_enqueue true sample_row1); [done|].
    vm_compute. reflexivity. }
  eapply rtc_l.
  { eapply (St_claim _ _ _ sample_facts 7 true 1000 "r1" sample_claim.1 (Some sample_claimed));
      [done|done|by intros ?%not_elem_of_nil|]. vm_compute. reflexivity. }
  eapply rtc_l.
  { eapply (St_dispatch _ _ _ sample_facts 7 [] sample_claimed [] true (Returns None) true);
      [done|done|]. vm_compute. reflexivity. }
  apply reflexive_eq. vm_compute. reflexivity.
Qed.

Lemma message_sent_once_witness :
  strace sample_service = [Sent "m1" "r1"] ∧ sent_once (strace sample_service).
Proof.
  split; [done|]. exact (proj1 (message_sent_once (λ c, c) 7 sample_service sample_reached)).
Defined.

Lemma stored_queue_ok_witness :
  ∃ q, srow sample_service = Some (7, q) ∧ items q = [sample_claimed] ∧ queue_ok q.
Proof.
  destruct (srow sample_service) as [[u q]|] eqn:E; [|vm_compute in E; done].
  exists q. destruct (stored_queue_ok (λ c, c) 7 sample_service u q sample_reached E) as [-> Hq].
  split; [done|]. split; [|done].
  assert (Hi : (λ x, items x.2) <$> srow sample_service = Some [sample_claimed]) by by vm_compute.
  rewrite E in Hi. by injection Hi as Hi.
Defined.
