(* ===== verification/ReplayPage.v ===== *)
(** * ReplayPage: history pages that never cut a chunked stream
    (relay/src/replay-page.ts and the two page builders of relay/src/db.ts).

    The boundary search of the two directions differs only in which chunk
    closes a stream: the zero chunk for a scan from new to old, the final
    chunk for a scan from old to new; [find_boundary] takes that test as an
    argument.  A page builder scans the [events] table in slices until the
    rows read so far contain a boundary or the table is exhausted.  The table
    is the list of its rows in ascending order of [id]; [row_header] is what
    the SQL filter sees and [row_payload] the payload after its body has been
    loaded.

    The theorems: the boundary is the first complete prefix, and a page equals
    the one cut from the whole remaining history, whatever the slice size. *)

From stdpp Require Import pretty.
From S2P Require Import Prelude JsValue.

#[local] Open Scope Z_scope.

(** ** Streams *)

Definition STREAM_EVENT_TYPES : list string :=
  ["agent_text"; "agent_reasoning"; "tool_result"; "agent_file_change"]%string.

Record ReplayBoundary : Type := { endIndex : nat; logicalCount : Z }.

Record ReplayStream : Type := { stream_id : string; startsAtZero : bool; endsAtFinal : bool }.

Definition is_integer (v : jsval) : bool := match v with JNum _ => true | _ => false end.

Definition replayStream (payload : jsval) : option ReplayStream :=
  match js_get payload "type" with
  | JStr ty =>
      if negb (bool_decide (ty ∈ STREAM_EVENT_TYPES)) then None
      else
        match nonempty_str (js_get payload "stream_id") with
        | None => None
        | Some sid =>
            let chunk_seq := js_get payload "chunk_seq" in
            let byte_offset := js_get payload "byte_offset" in
            if negb (is_integer chunk_seq) || negb (is_integer byte_offset) then None
            else Some {| stream_id := sid;
                         startsAtZero := is_number chunk_seq 0 && is_number byte_offset 0;
                         endsAtFinal := is_true (js_get payload "final") |}
        end
  | _ => None
  end.

Record ReplayRow : Type := {
  row_id : Z;
  row_session : string;
  row_header : jsval;
  row_payload : jsval
}.

Definition stream_of_row (r : ReplayRow) : option ReplayStream := replayStream (row_payload r).

Fixpoint count_from (seen : gset string) (rows : list ReplayRow) : Z :=
  match rows with
  | [] => 0
  | r :: rows' =>
      match stream_of_row r with
      | Some st =>
          if bool_decide (stream_id st ∈ seen) then count_from seen rows'
          else 1 + count_from ({[stream_id st]} ∪ seen) rows'
      | None => 1 + count_from seen rows'
      end
  end.

Definition countReplayLogicalItems (rows : list ReplayRow) : Z := count_from ∅ rows.

(** The open streams of a scan; a later chunk opens its stream again. *)
Fixpoint open_from (closes : ReplayStream → bool) (open : gset string) (rows : list ReplayRow)
  : gset string :=
  match rows with
  | [] => open
  | r :: rows' =>
      match stream_of_row r with
      | Some st =>
          let open1 := {[stream_id st]} ∪ open in
          open_from closes (if closes st then open1 ∖ {[stream_id st]} else open1) rows'
      | None => open_from closes open rows'
      end
  end.

Definition hasOpenReplayStreams (rowsDesc : list ReplayRow) : bool :=
  negb (bool_decide (open_from startsAtZero ∅ rowsDesc = ∅)).

Definition hasOpenForwardReplayStreams (rowsAsc : list ReplayRow) : bool :=
  negb (bool_decide (open_from endsAtFinal ∅ rowsAsc = ∅)).

(** ** The boundary search *)

Section boundary.
Context (closes : ReplayStream → bool) (limit : Z).

Fixpoint find_from (index : nat) (seen open : gset string) (count : Z) (rows : list ReplayRow)
  : option ReplayBoundary :=
  match rows with
  | [] => None
  | r :: rows' =>
      let '(seen', open', count') :=
        match stream_of_row r with
        | Some st =>
            let '(seen1, open1, count1) :=
              if bool_decide (stream_id st ∈ seen) then (seen, open, count)
              else ({[stream_id st]} ∪ seen, {[stream_id st]} ∪ open, count + 1) in
            (seen1, if closes st then open1 ∖ {[stream_id st]} else open1, count1)
        | None => (seen, open, count + 1)
        end in
      if (limit <=? count') && bool_decide (open' = ∅)
      then Some {| endIndex := index; logicalCount := count' |}
      else find_from (S index) seen' open' count' rows'
  end.

Definition find_boundary (rows : list ReplayRow) : option ReplayBoundary :=
  find_from 0 ∅ ∅ 0 rows.
End boundary.

Definition findCompleteReplayBoundary (rowsDesc : list ReplayRow) (logicalLimit : Z)
  : option ReplayBoundary := find_boundary startsAtZero logicalLimit rowsDesc.

Definition findCompleteForwardReplayBoundary (rowsAsc : list ReplayRow) (logicalLimit : Z)
  : option ReplayBoundary := find_boundary endsAtFinal logicalLimit rowsAsc.

(** ** The page builders of db.ts *)

(** [header->>'agent_id']: the text of the field, NULL when absent or null. *)
Definition sql_text (v : jsval) : option string :=
  match v with
  | JUndef | JNull => None
  | JStr s => Some s
  | _ => stringify v
  end.

Definition in_scope (sessionId : string) (agentId : option string) (r : ReplayRow) : bool :=
  bool_decide (row_session r = sessionId) &&
  match agentId with
  | Some a =>
      bool_decide (a = EmptyString)
      || bool_decide (sql_text (js_get (row_header r) "agent_id") = Some a)
  | None => true
  end.

Section pages.
Context (table : list ReplayRow) (sessionId : string) (agentId : option string).

Definition completeReplayFilter (beforeId : option Z) (r : ReplayRow) : bool :=
  in_scope sessionId agentId r &&
  match beforeId with
  | Some b => if 0 <? b then row_id r <? b else true
  | None => true
  end.

Definition completeForwardReplayFilter (afterId : Z) (r : ReplayRow) : bool :=
  in_scope sessionId agentId r && (Z.max 0 afterId <? row_id r).

Definition scanBackwardReplayEvents (beforeId : option Z) (limit : nat) : list ReplayRow :=
  take limit (bfilter (completeReplayFilter beforeId) (reverse table)).

Definition scanForwardReplayEvents (afterId : Z) (limit : nat) : list ReplayRow :=
  take limit (bfilter (completeForwardReplayFilter afterId) table).

Definition hasOlderReplayEvent (oldestId : Z) : bool :=
  existsb (completeReplayFilter (Some oldestId)) table.

Definition hasNewerReplayEvent (newestId : Z) : bool :=
  existsb (completeForwardReplayFilter newestId) table.

(** The [while (true)] loop both builders share: rows read so far, and the
    boundary that ended the scan, if any. *)
Section scan.
Context {C : Type} (scan : C → nat → list ReplayRow) (cursor_of : ReplayRow → C)
  (boundary : list ReplayRow → option ReplayBoundary) (scanLimit : nat).

Fixpoint scan_loop (fuel : nat) (cursor : C) (acc : list ReplayRow)
  : list ReplayRow * option ReplayBoundary :=
  match fuel with
  | O => (acc, None)
  | S fuel' =>
      let rows := scan cursor scanLimit in
      match last rows with
      | None => (acc, None)
      | Some r =>
          let acc' := acc ++ rows in
          match boundary acc' with
          | Some b => (acc', Some b)
          | None =>
              if Nat.ltb (length rows) scanLimit then (acc', None)
              else scan_loop fuel' (cursor_of r) acc'
          end
      end
  end.
End scan.

Definition page_limit (logicalLimit : Z) : Z := Z.max 1 logicalLimit.

Definition scan_limit (logicalLimit : Z) : nat :=
  Z.to_nat (Z.max 100 (page_limit logicalLimit * 2)).

Record ReplayPage : Type := {
  events : list ReplayRow;
  oldestId : Z;
  newestId : Z;
  page_count : Z;
  hasMore : bool
}.

(** The page of the rows a scan selected.  [beforeId ?? 0] is the [oldestId]
    of an empty backward page; [newestId] is not part of a backward page and
    repeats [oldestId]. *)
Definition backward_page (beforeId : option Z) (selectedDesc : list ReplayRow) (count : Z)
  : ReplayPage :=
  match last selectedDesc with
  | None => {| events := []; oldestId := default 0 beforeId; newestId := default 0 beforeId;
               page_count := 0; hasMore := false |}
  | Some r => {| events := reverse selectedDesc; oldestId := row_id r; newestId := row_id r;
                 page_count := count; hasMore := hasOlderReplayEvent (row_id r) |}
  end.

Definition forward_page (cursor : Z) (selected : list ReplayRow) (count : Z) (buffered : bool)
  : ReplayPage :=
  match head selected, last selected with
  | Some a, Some z => {| events := selected; oldestId := row_id a; newestId := row_id z;
      page_count := count; hasMore := buffered || hasNewerReplayEvent (row_id z) |}
  | _, _ => {| events := []; oldestId := cursor; newestId := cursor;
               page_count := 0; hasMore := false |}
  end.

Definition getCompleteBackwardReplayPage (beforeId : option Z) (logicalLimit : Z) : ReplayPage :=
  let limit := page_limit logicalLimit in
  let '(rowsDesc, found) :=
    scan_loop scanBackwardReplayEvents (λ r, Some (row_id r))
      (λ rows, findCompleteReplayBoundary rows limit) (scan_limit logicalLimit)
      (S (length table)) beforeId [] in
  match found with
  | Some b => backward_page beforeId (take (S (endIndex b)) rowsDesc) (logicalCount b)
  | None => backward_page beforeId rowsDesc (countReplayLogicalItems rowsDesc)
  end.

Definition getCompleteForwardReplayPage (afterId logicalLimit : Z) : ReplayPage :=
  let cursor := Z.max 0 afterId in
  let limit := page_limit logicalLimit in
  let '(rowsAsc, found) :=
    scan_loop scanForwardReplayEvents row_id
      (λ rows, findCompleteForwardReplayBoundary rows limit) (scan_limit logicalLimit)
      (S (length table)) cursor [] in
  match found with
  | Some b => forward_page cursor (take (S (endIndex b)) rowsAsc) (logicalCount b)
                (Nat.ltb (S (endIndex b)) (length rowsAsc))
  | None => forward_page cursor rowsAsc (countReplayLogicalItems rowsAsc) false
  end.
End pages.

(** ** What the boundary is *)

(** The streams with a chunk, and with a closing chunk, among the rows. *)
Definition stream_ids (rows : list ReplayRow) : gset string :=
  list_to_set (omap (λ r, stream_id <$> stream_of_row r) rows).

Definition closed_ids (closes : ReplayStream → bool) (rows : list ReplayRow) : gset string :=
  list_to_set (omap (λ r, match stream_of_row r with
    | Some st => if closes st then Some (stream_id st) else None | None => None end) rows).

(** Enough logical items, and every stream that has a chunk is closed. *)
Definition complete_page (closes : ReplayStream → bool) (limit : Z) (rows : list ReplayRow) : Prop :=
  limit ≤ countReplayLogicalItems rows ∧ stream_ids rows ⊆ closed_ids closes rows.

Lemma stream_ids_snoc rows r :
  stream_ids (rows ++ [r]) =
  match stream_of_row r with Some st => {[stream_id st]} ∪ stream_ids rows | None => stream_ids rows end.
Proof.
  unfold stream_ids. rewrite omap_app, list_to_set_app_L. simpl.
  destruct (stream_of_row r); simpl; set_solver.
Qed.

Lemma closed_ids_snoc closes rows r :
  closed_ids closes (rows ++ [r]) =
  match stream_of_row r with
  | Some st => if closes st then {[stream_id st]} ∪ closed_ids closes rows else closed_ids closes rows
  | None => closed_ids closes rows
  end.
Proof.
  unfold closed_ids. rewrite omap_app, list_to_set_app_L. simpl.
  destruct (stream_of_row r) as [st|]; simpl; [|set_solver]. destruct (closes st); set_solver.
Qed.

Lemma stream_ids_cons r rows :
  stream_ids (r :: rows) =
  match stream_of_row r with Some st => {[stream_id st]} ∪ stream_ids rows | None => stream_ids rows end.
Proof. unfold stream_ids. simpl. by destruct (stream_of_row r). Qed.

Lemma count_from_app seen rows1 rows2 :
  count_from seen (rows1 ++ rows2) =
  count_from seen rows1 + count_from (stream_ids rows1 ∪ seen) rows2.
Proof.
  revert seen; induction rows1 as [|r rows IH]; intros seen.
  { replace (stream_ids [] ∪ seen) with seen by (unfold stream_ids; simpl; set_solver). done. }
  rewrite stream_ids_cons. simpl.
  destruct (stream_of_row r) as [st|]; [|rewrite IH; lia].
  case_bool_decide as Hs; rewrite IH.
  - by replace ({[stream_id st]} ∪ stream_ids rows ∪ seen) with (stream_ids rows ∪ seen) by set_solver.
  - replace ({[stream_id st]} ∪ stream_ids rows ∪ seen)
      with (stream_ids rows ∪ ({[stream_id st]} ∪ seen)) by set_solver. lia.
Qed.

Lemma count_snoc rows r :
  countReplayLogicalItems (rows ++ [r]) = countReplayLogicalItems rows +
  match stream_of_row r with
  | Some st => if bool_decide (stream_id st ∈ stream_ids rows) then 0 else 1
  | None => 1
  end.
Proof.
  unfold countReplayLogicalItems. rewrite count_from_app, union_empty_r_L. simpl.
  destruct (stream_of_row r); [case_bool_decide|]; lia.
Qed.

#[global] Instance complete_dec closes limit rows : Decision (complete_page closes limit rows).
Proof. unfold complete_page. apply _. Defined.

Lemma complete_bool closes limit rows :
  (limit <=? countReplayLogicalItems rows)
    && bool_decide (stream_ids rows ∖ closed_ids closes rows = ∅)
  = bool_decide (complete_page closes limit rows).
Proof.
  unfold complete_page. apply eq_true_iff_eq. rewrite andb_true_iff, Z.leb_le, !bool_decide_eq_true.
  split; intros [H1 H2]; (split; [done|]); set_solver.
Qed.

(** One step of the search after the rows [read]. *)
Lemma find_from_cons closes limit read r rows :
  find_from closes limit (length read) (stream_ids read)
    (stream_ids read ∖ closed_ids closes read) (countReplayLogicalItems read) (r :: rows) =
  if bool_decide (complete_page closes limit (read ++ [r]))
  then Some {| endIndex := length read; logicalCount := countReplayLogicalItems (read ++ [r]) |}
  else find_from closes limit (S (length read)) (stream_ids (read ++ [r]))
    (stream_ids (read ++ [r]) ∖ closed_ids closes (read ++ [r]))
    (countReplayLogicalItems (read ++ [r])) rows.
Proof.
  rewrite <- complete_bool, count_snoc, stream_ids_snoc, closed_ids_snoc. cbn [find_from].
  destruct (stream_of_row r) as [st|]; [|done].
  set (sid := stream_id st). set (S0 := stream_ids read). set (C0 := closed_ids closes read).
  case_bool_decide as Hin.
  - rewrite Z.add_0_r. replace ({[sid]} ∪ S0) with S0 by set_solver. destruct (closes st); [|done].
    by replace (S0 ∖ ({[sid]} ∪ C0)) with ((S0 ∖ C0) ∖ {[sid]}) by set_solver.
  - assert (Hc : sid ∉ C0).
    { intros H. apply Hin. revert H. unfold C0, S0, closed_ids, stream_ids.
      rewrite !elem_of_list_to_set, !list_elem_of_omap. intros (x & Hx & E). exists x.
      split; [done|]. destruct (stream_of_row x) as [sx|]; [|done]. by destruct (closes sx). }
    destruct (closes st).
    + by replace (({[sid]} ∪ S0) ∖ ({[sid]} ∪ C0)) with (({[sid]} ∪ S0 ∖ C0) ∖ {[sid]}) by set_solver.
    + by replace (({[sid]} ∪ S0) ∖ C0) with ({[sid]} ∪ S0 ∖ C0) by set_solver.
Qed.

(** The search ends at the first complete prefix. *)
Lemma find_from_first closes limit read rows :
  match find_from closes limit (length read) (stream_ids read)
    (stream_ids read ∖ closed_ids closes read) (countReplayLogicalItems read) rows with
  | Some b => ∃ n, (n < length rows)%nat ∧ endIndex b = (length read + n)%nat ∧
      logicalCount b = countReplayLogicalItems (read ++ take (S n) rows) ∧
      complete_page closes limit (read ++ take (S n) rows) ∧
      ∀ m, (m < n)%nat → ¬ complete_page closes limit (read ++ take (S m) rows)
  | None => ∀ m, (m < length rows)%nat → ¬ complete_page closes limit (read ++ take (S m) rows)
  end.
Proof.
  revert read; induction rows as [|r rows IH]; intros read; [simpl; lia|].
  rewrite find_from_cons. case_bool_decide as Hc.
  - exists 0%nat. simpl. rewrite take_0. repeat split; try lia; try apply Hc.
  - specialize (IH (read ++ [r])). rewrite length_app, Nat.add_1_r in IH.
    assert (Htake : ∀ m, read ++ take (S (S m)) (r :: rows) = (read ++ [r]) ++ take (S m) rows)
      by (intros m; by rewrite <- app_assoc).
    destruct (find_from _ _ _ _ _ _ _) as [b|].
    + destruct IH as (n & Hn & He & Hl & Hgood & Hbad). exists (S n). simpl length.
      rewrite Htake. repeat (split; [done || lia|]).
      intros [|m] Hm; [simpl; rewrite take_0; done|]. rewrite Htake. apply Hbad. lia.
    + intros [|m] Hm; [simpl; rewrite take_0; done|]. rewrite Htake. apply IH. simpl in Hm. lia.
Qed.

Lemma find_boundary_first closes limit rows :
  match find_boundary closes limit rows with
  | Some b => (endIndex b < length rows)%nat ∧
      logicalCount b = countReplayLogicalItems (take (S (endIndex b)) rows) ∧
      complete_page closes limit (take (S (endIndex b)) rows) ∧
      ∀ m, (m < endIndex b)%nat → ¬ complete_page closes limit (take (S m) rows)
  | None => ∀ m, (m < length rows)%nat → ¬ complete_page closes limit (take (S m) rows)
  end.
Proof.
  pose proof (find_from_first closes limit [] rows) as H. simpl in H.
  change (stream_ids []) with (∅ : gset string) in H.
  change (closed_ids closes []) with (∅ : gset string) in H.
  rewrite difference_diag_L in H. unfold find_boundary. change (countReplayLogicalItems []) with 0 in H.
  destruct (find_from _ _ _ _ _ _ _) as [b|]; [|exact H].
  destruct H as (n & Hn & He & H). by rewrite He.
Qed.

(** What is found does not depend on the rows that follow. *)
Lemma find_from_app closes limit i seen open count rows1 rows2 b :
  find_from closes limit i seen open count rows1 = Some b →
  find_from closes limit i seen open count (rows1 ++ rows2) = Some b.
Proof.
  revert i seen open count. induction rows1 as [|r rows IH]; intros i seen open count; [done|].
  cbn [find_from app].
  destruct (match stream_of_row r with Some _ => _ | None => _ end) as [[seen' open'] count'].
  destruct (_ && _); [done|]. apply IH.
Qed.

(** ** The scan loop reads as far as the whole history would *)

Section scan_facts.
Context {C : Type} (scan : C → nat → list ReplayRow) (cursor_of : ReplayRow → C)
  (closes : ReplayStream → bool) (limit : Z) (scanLimit : nat) (rest : C → list ReplayRow).
Context (Hlimit : (0 < scanLimit)%nat)
  (Hscan : ∀ c n, scan c n = take n (rest c))
  (Hrest : ∀ c l1 r l2, rest c = l1 ++ r :: l2 → rest (cursor_of r) = l2).

Lemma scan_loop_spec fuel c acc :
  (length (rest c) < fuel)%nat → find_boundary closes limit acc = None →
  let '(rows, found) := scan_loop scan cursor_of (find_boundary closes limit) scanLimit fuel c acc in
  found = find_boundary closes limit (acc ++ rest c) ∧
  rows `prefix_of` acc ++ rest c ∧
  match found with
  | Some b => find_boundary closes limit rows = Some b
  | None => rows = acc ++ rest c
  end.
Proof using Hlimit Hscan Hrest.
  revert c acc; induction fuel as [|fuel IH]; intros c acc Hfuel Hacc; [lia|]. simpl. rewrite Hscan.
  pose proof (take_drop scanLimit (rest c)) as Hsplit.
  destruct (take scanLimit (rest c)) as [|r rows _] eqn:Erows using rev_ind; simpl.
  { assert (rest c = []) as -> by (destruct (rest c), scanLimit; simpl in *; done || lia).
    rewrite app_nil_r. by rewrite Hacc. }
  rewrite last_snoc. set (acc' := acc ++ rows ++ [r]).
  assert (Hall : acc ++ rest c = acc' ++ drop scanLimit (rest c))
    by (unfold acc'; by rewrite <- Hsplit at 1; rewrite app_assoc).
  destruct (find_boundary closes limit acc') as [b|] eqn:Eb.
  { rewrite Hall. split; [symmetry; by apply find_from_app|]. split; [by eexists|done]. }
  rewrite <- app_assoc in Hsplit. pose proof (Hrest c rows r _ (eq_sym Hsplit)) as Hr.
  destruct (Nat.ltb_spec (length (rows ++ [r])) scanLimit) as [Hlt|Hge].
  - assert (drop scanLimit (rest c) = []) as Hd.
    { apply drop_ge. rewrite <- Erows, length_take in Hlt. lia. }
    rewrite Hall, Hd, app_nil_r, Eb. done.
  - specialize (IH (cursor_of r) acc'). rewrite Hr, <- Hall in IH. apply IH; [|done].
    apply (f_equal length) in Hsplit. rewrite length_app in Hsplit. simpl in Hsplit. lia.
Qed.
End scan_facts.

(** The rows a page takes from the whole remaining history. *)
Definition cut (closes : ReplayStream → bool) (limit : Z) (history : list ReplayRow)
  : list ReplayRow :=
  match find_boundary closes limit history with
  | Some b => take (S (endIndex b)) history
  | None => history
  end.

Lemma cut_prefix closes limit history :
  history = cut closes limit history ++ drop (length (cut closes limit history)) history.
Proof.
  unfold cut. destruct (find_boundary _ _ _) as [b|].
  - rewrite length_take. destruct (Nat.le_ge_cases (S (endIndex b)) (length history)).
    + by rewrite Nat.min_l, take_drop.
    + rewrite Nat.min_r, take_ge, drop_all, app_nil_r; done.
  - by rewrite drop_all, app_nil_r.
Qed.

Lemma cut_nonempty closes limit history : history ≠ [] → cut closes limit history ≠ [].
Proof. unfold cut. destruct (find_boundary _ _ _); [|done]. by destruct history. Qed.

Lemma cut_complete closes limit history :
  complete_page closes limit (cut closes limit history) ∨ cut closes limit history = history.
Proof.
  unfold cut. pose proof (find_boundary_first closes limit history) as H.
  destruct (find_boundary _ _ _); [left; apply H|by right].
Qed.

(** What the loop hands to the page: the cut of the history, its count, and
    rows beyond the cut only when the history goes on. *)
Lemma loop_cut closes limit history rows found :
  found = find_boundary closes limit history → rows `prefix_of` history →
  match found with
  | Some b => find_boundary closes limit rows = Some b
  | None => rows = history
  end →
  match found with Some b => take (S (endIndex b)) rows | None => rows end
    = cut closes limit history ∧
  match found with Some b => logicalCount b | None => countReplayLogicalItems rows end
    = countReplayLogicalItems (cut closes limit history) ∧
  (match found with Some b => Nat.ltb (S (endIndex b)) (length rows) | None => false end = true →
     (length (cut closes limit history) < length history)%nat).
Proof.
  intros Hfound [k ->] Hrows. unfold cut. rewrite <- Hfound. destruct found as [b|].
  - pose proof (find_boundary_first closes limit rows) as Hb. rewrite Hrows in Hb.
    destruct Hb as (Hlt & Hc & _).
    rewrite (take_app_le rows k) by lia. split; [done|]. split; [done|].
    intros H%Nat.ltb_lt. rewrite length_take, length_app. lia.
  - rewrite <- Hrows. by rewrite Hrows.
Qed.

Lemma existsb_bfilter {A} (p : A → bool) l : existsb p l = negb (bool_decide (bfilter p l = [])).
Proof. induction l as [|x l IH]; simpl; [done|]. by destruct (p x). Qed.

Lemma sorted_reverse {A} (key : A → Z) l :
  StronglySorted (by_key key) l → StronglySorted (by_key (λ x, - key x)) (reverse l).
Proof.
  induction 1 as [|x l Hs IH Hx]; [constructor|]. rewrite reverse_cons. apply StronglySorted_app.
  split; [|split; [done|repeat constructor]]. intros y z Hy ->%list_elem_of_singleton.
  rewrite elem_of_reverse in Hy. rewrite Forall_forall in Hx. specialize (Hx y Hy). unfold by_key in *. lia.
Qed.

Lemma scan_limit_pos logicalLimit : (0 < scan_limit logicalLimit)%nat.
Proof. unfold scan_limit. lia. Qed.

Lemma reverse_nil_iff {A} (l : list A) : reverse l = [] ↔ l = [].
Proof. rewrite <- !length_zero_iff_nil. by rewrite length_reverse. Qed.

Section exact.
Context (table : list ReplayRow) (sessionId : string) (agentId : option string).
Context (Hsorted : StronglySorted (by_key row_id) table).

(** The rows of the session after, and before, a cursor. *)
Abbreviation newer c := (bfilter (completeForwardReplayFilter sessionId agentId c) table).
Abbreviation older c := (bfilter (completeReplayFilter sessionId agentId c) table).

Lemma newer_read_on c l1 r l2 : newer c = l1 ++ r :: l2 → newer (row_id r) = l2.
Proof using Hsorted.
  intros E. eapply (read_on row_id); [exact Hsorted|exact E|]. intros x _.
  assert (Hr : completeForwardReplayFilter sessionId agentId c r = true).
  { apply (elem_of_bfilter _ r table). rewrite E. set_solver. }
  unfold completeForwardReplayFilter in *. bool_hyps. destruct (in_scope _ _ x); [|done]. simpl.
  apply eq_true_iff_eq. rewrite andb_true_iff, !Z.ltb_lt. lia.
Qed.

Lemma older_read_on c l1 r l2 :
  (∀ x, x ∈ table → 0 < row_id x) →
  bfilter (completeReplayFilter sessionId agentId c) (reverse table) = l1 ++ r :: l2 →
  bfilter (completeReplayFilter sessionId agentId (Some (row_id r))) (reverse table) = l2.
Proof using Hsorted.
  intros Hpos E. eapply (read_on (λ x, - row_id x)); [|exact E|].
  - by apply sorted_reverse.
  - assert (Hin : r ∈ bfilter (completeReplayFilter sessionId agentId c) (reverse table))
      by (rewrite E; set_solver).
    apply elem_of_bfilter in Hin as [Hr Hin]. rewrite elem_of_reverse in Hin. pose proof (Hpos r Hin). intros x _.
    unfold completeReplayFilter in *. bool_hyps. destruct (in_scope _ _ x); [|done]. simpl.
    rewrite (proj2 (Z.ltb_lt 0 (row_id r))) by done.
    apply eq_true_iff_eq. rewrite andb_true_iff, !Z.ltb_lt.
    destruct c as [b|]; [|lia]. destruct (0 <? b); [|lia]. bool_hyps. rewrite Z.ltb_lt. lia.
Qed.

(** The page of a cut: its last row, and the history after it. *)
Lemma cut_last closes limit history :
  match last (cut closes limit history) with
  | Some z => ∃ l, cut closes limit history = l ++ [z] ∧
      history = l ++ z :: drop (length (cut closes limit history)) history
  | None => history = [] ∧ cut closes limit history = []
  end.
Proof using.
  pose proof (cut_prefix closes limit history) as Hp. pose proof (cut_nonempty closes limit history) as Hn.
  destruct (cut closes limit history) as [|z l _] eqn:E using rev_ind; simpl.
  - split; [|done]. destruct history; [done|]. by destruct Hn.
  - rewrite last_snoc. exists l. split; [done|]. rewrite <- app_assoc in Hp. exact Hp.
Qed.

(** What remains after the page, given that reading on from its last row [z]
    yields [rest]. *)
Lemma cut_rest closes limit history l z rest buffered more :
  cut closes limit history = l ++ [z] → history = l ++ z :: rest →
  (buffered = true → (length (cut closes limit history) < length history)%nat) →
  more = negb (bool_decide (rest = [])) →
  history = cut closes limit history ++ rest ∧
  (buffered || more = true ↔ rest ≠ []) ∧
  (buffered || more = true → complete_page closes limit (cut closes limit history)).
Proof using.
  intros Hc Hh Hb ->.
  assert (Hiff : buffered || negb (bool_decide (rest = [])) = true ↔ rest ≠ []).
  { rewrite orb_true_iff, negb_true_iff, bool_decide_eq_false. split; [|auto].
    intros [H%Hb|H]; [|done]. intros ->. rewrite Hc, Hh, !length_app in H. simpl in H. lia. }
  split; [by rewrite Hc, <- app_assoc|]. split; [done|].
  intros Hmore%Hiff. destruct (cut_complete closes limit history) as [H|H]; [done|].
  exfalso. apply Hmore. rewrite Hc in H. rewrite Hh in H.
  apply app_inv_head in H. by injection H as <-.
Qed.

(** A forward page holds exactly the first rows after the cursor up to the
    first point where it has enough logical items and every stream in it has
    its final chunk, or all rows when there is no such point; reading on from
    [newestId] continues without gap or repetition, [hasMore] says whether
    there is anything to read, and a page is empty only at the end. *)
Theorem forward_page_exact (afterId logicalLimit : Z) :
  let page := getCompleteForwardReplayPage table sessionId agentId afterId logicalLimit in
  events page = cut endsAtFinal (page_limit logicalLimit) (newer afterId) ∧
  page_count page = countReplayLogicalItems (events page) ∧
  newer afterId = events page ++ newer (newestId page) ∧
  (hasMore page = true ↔ newer (newestId page) ≠ []) ∧
  (events page = [] → newer afterId = []) ∧
  (hasMore page = true → complete_page endsAtFinal (page_limit logicalLimit) (events page)).
Proof using Hsorted.
  unfold getCompleteForwardReplayPage.
  set (cursor := Z.max 0 afterId). set (limit := page_limit logicalLimit).
  assert (Hcur : newer afterId = newer cursor).
  { unfold completeForwardReplayFilter, cursor. by rewrite Z.max_assoc. }
  pose proof (scan_loop_spec (scanForwardReplayEvents table sessionId agentId) row_id endsAtFinal
    limit (scan_limit logicalLimit) (λ c, newer c) (scan_limit_pos logicalLimit) (λ _ _, eq_refl)
    newer_read_on (S (length table)) cursor [] (proj2 (Nat.lt_succ_r _ _) (bfilter_length _ _)) eq_refl)
    as Hloop.
  change (λ rows, findCompleteForwardReplayBoundary rows limit) with (find_boundary endsAtFinal limit).
  destruct (scan_loop _ _ _ _ _ _ _) as [rows found]. rewrite Hcur. simpl in Hloop.
  destruct Hloop as (Hf & Hp & Hr).
  destruct (loop_cut _ _ _ _ _ Hf Hp Hr) as (Hsel & Hcount & Hbuf). clear Hf Hp Hr.
  set (P := cut endsAtFinal limit (newer cursor)) in *.
  set (buf := match found with Some b => _ | None => false end) in *.
  replace (match found with Some b => _ | None => _ end)
    with (forward_page table sessionId agentId cursor P (countReplayLogicalItems P) buf)
    by (rewrite <- Hcount, <- Hsel; by destruct found).
  clear Hsel Hcount. clearbody buf. unfold forward_page.
  pose proof (cut_last endsAtFinal limit (newer cursor)) as Hlast. fold P in Hlast.
  destruct (last P) as [z|] eqn:Ez.
  - destruct Hlast as (l & HP & Hh). pose proof (newer_read_on _ _ _ _ Hh) as Hrest.
    destruct (head P) as [a|] eqn:Ea; [|by destruct P; destruct l]. simpl.
    destruct (cut_rest endsAtFinal limit (newer cursor) l z _ buf
      (hasNewerReplayEvent table sessionId agentId (row_id z)) HP Hh Hbuf) as (H1 & H2 & H3).
    { rewrite <- Hrest. apply existsb_bfilter. }
    fold P in H1, H3. rewrite Hrest. repeat (split; [done|]). split; [|done].
    intros E. rewrite E in Ez. done.
  - destruct Hlast as [Hh HP]. rewrite HP, Hh. by destruct (head []); simpl; rewrite Hh.
Qed.

Lemma bfilter_reverse {A} (p : A → bool) l : bfilter p (reverse l) = reverse (bfilter p l).
Proof using.
  induction l as [|x l IH]; [done|]. rewrite reverse_cons, bfilter_app, IH. simpl.
  destruct (p x); [by rewrite reverse_cons|by rewrite app_nil_r].
Qed.

(** A backward page, read from new to old, is cut in the same way where every
    stream in it has its zero chunk; it is returned in ascending order, ends
    where the request asked, and the rows older than [oldestId] are exactly the
    ones left. *)
Theorem backward_page_exact (beforeId : option Z) (logicalLimit : Z) :
  (∀ x, x ∈ table → 0 < row_id x) → older beforeId ≠ [] →
  let page := getCompleteBackwardReplayPage table sessionId agentId beforeId logicalLimit in
  reverse (events page) = cut startsAtZero (page_limit logicalLimit) (reverse (older beforeId)) ∧
  page_count page = countReplayLogicalItems (reverse (events page)) ∧
  older beforeId = older (Some (oldestId page)) ++ events page ∧
  (hasMore page = true ↔ older (Some (oldestId page)) ≠ []) ∧
  events page ≠ [] ∧
  (hasMore page = true → complete_page startsAtZero (page_limit logicalLimit) (reverse (events page))).
Proof using Hsorted.
  intros Hpos Hne. unfold getCompleteBackwardReplayPage. set (limit := page_limit logicalLimit).
  rewrite <- bfilter_reverse.
  pose (rest := λ c, bfilter (completeReplayFilter sessionId agentId c) (reverse table)).
  fold (rest beforeId).
  pose proof (scan_loop_spec (scanBackwardReplayEvents table sessionId agentId)
    (λ r, Some (row_id r)) startsAtZero limit (scan_limit logicalLimit) rest
    (scan_limit_pos logicalLimit) (λ _ _, eq_refl) (λ c l1 r l2, older_read_on c l1 r l2 Hpos)
    (S (length table)) beforeId []) as Hloop.
  change (λ rows, findCompleteReplayBoundary rows limit) with (find_boundary startsAtZero limit).
  destruct (scan_loop _ _ _ _ _ _ _) as [rows found]. simpl in Hloop.
  destruct Hloop as (Hf & Hp & Hr); [|done|].
  { pose proof (bfilter_length (completeReplayFilter sessionId agentId beforeId) (reverse table)) as Hl.
    rewrite length_reverse in Hl. unfold rest. lia. }
  destruct (loop_cut _ _ _ _ _ Hf Hp Hr) as (Hsel & Hcount & _). clear Hf Hp Hr.
  set (P := cut startsAtZero limit (rest beforeId)) in *.
  replace (match found with Some b => _ | None => _ end)
    with (backward_page table sessionId agentId beforeId P (countReplayLogicalItems P))
    by (rewrite <- Hcount, <- Hsel; by destruct found).
  clear Hsel Hcount. unfold backward_page.
  pose proof (cut_last startsAtZero limit (rest beforeId)) as Hlast. fold P in Hlast.
  assert (Hold : ∀ c, older c = reverse (rest c))
    by (intros c; unfold rest; by rewrite bfilter_reverse, reverse_involutive).
  destruct (last P) as [z|] eqn:Ez.
  - destruct Hlast as (l & HP & Hh). pose proof (older_read_on _ _ _ _ Hpos Hh) as Hrest.
    fold (rest (Some (row_id z))) in Hrest. simpl.
    destruct (cut_rest startsAtZero limit (rest beforeId) l z _ false
      (hasOlderReplayEvent table sessionId agentId (row_id z)) HP Hh (λ H, False_ind _ (diff_false_true H)))
      as (H1 & H2 & H3).
    { rewrite <- Hrest. unfold hasOlderReplayEvent. rewrite existsb_bfilter, Hold. f_equal.
      apply bool_decide_ext. by rewrite reverse_nil_iff. }
    fold P in H1, H3. rewrite !Hold, reverse_involutive, Hrest.
    repeat (split; [done|]). split; [by rewrite <- reverse_app, <- H1|].
    split; [by rewrite reverse_nil_iff|]. split; [|done]. rewrite reverse_nil_iff, HP. by destruct l.
  - destruct Hlast as [Hh _]. destruct Hne. rewrite Hold, Hh. done.
Qed.
End exact.

(** ** A history whose second item is a stream of two chunks *)

Definition sample_text (n : Z) : ReplayRow := {|
  row_id := n; row_session := "s"; row_header := JUndef;
  row_payload := JObj [("type", JStr "user_message")]%string |}.

Definition sample_chunk (n seq : Z) (final : bool) : ReplayRow := {|
  row_id := n; row_session := "s"; row_header := JUndef;
  row_payload := JObj [("type", JStr "agent_text"); ("stream_id", JStr "x"); ("chunk_seq", JNum seq);
    ("byte_offset", JNum seq); ("final", JBool final)]%string |}.

Definition sample_table : list ReplayRow :=
  [sample_text 1; sample_chunk 2 0 false; sample_chunk 3 1 true; sample_text 4].

Lemma sample_sorted : StronglySorted (by_key row_id) sample_table.
Proof. repeat constructor. Qed.

Lemma forward_page_exact_witness :
  let page := getCompleteForwardReplayPage sample_table "s" None 1 1 in
  row_id <$> events page = [2; 3] ∧ hasMore page = true ∧ complete_page endsAtFinal 1 (events page).
Proof.
  split; [vm_compute; reflexivity|]. split; [vm_compute; reflexivity|].
  destruct (forward_page_exact sample_table "s" None sample_sorted 1 1) as (_ & _ & _ & _ & _ & H).
  apply H. vm_compute. reflexivity.
Defined.

Lemma backward_page_exact_witness :
  let page := getCompleteBackwardReplayPage sample_table "s" None (Some 4) 1 in
  row_id <$> events page = [2; 3] ∧ hasMore page = true ∧
  complete_page startsAtZero 1 (reverse (events page)).
Proof.
  split; [vm_compute; reflexivity|]. split; [vm_compute; reflexivity|].
  destruct (backward_page_exact sample_table "s" None sample_sorted (Some 4) 1)
    as (_ & _ & _ & _ & _ & H).
  - intros x Hx. unfold sample_table in Hx. rewrite !elem_of_cons in Hx.
    destruct Hx as [->|[->|[->|[->|Hx]]]]; try done. by apply not_elem_of_nil in Hx.
  - vm_compute. discriminate.
  - apply H. vm_compute. reflexivity.
Defined.
