(* ===== verification/LifecycleTime.v ===== *)
(** * LifecycleTime: microsecond timestamps
    (relay/src/session-lifecycle/time.ts).

    The calendar is the proleptic Gregorian one of ECMAScript: [day_from_year]
    is the specification's [DayFromYear], [civil_of_day] its inverse.  A [Date]
    is its time value in milliseconds, [None] when invalid.  [timestampMicros]
    reads the text by the regular expression of the source, part by part;
    [microsTimestamp] prints like [toISOString] with six fractional digits.

    The theorem is the round trip: every instant of the years 0 to 9999 is
    printed as a text that is read back as the same instant. *)

From Stdlib Require Import Ascii.
From S2P Require Import Prelude JsValue.

#[local] Open Scope Z_scope.

Definition DAY_US : Z := 86400000000.

(** ** The calendar *)

Definition is_leap (y : Z) : bool :=
  (y mod 4 =? 0) && (negb (y mod 100 =? 0) || (y mod 400 =? 0)).

Definition day_from_year (y : Z) : Z :=
  365 * (y - 1970) + (y - 1969) / 4 - (y - 1901) / 100 + (y - 1601) / 400.

Definition month_lengths (leap : bool) : list Z :=
  [31; if leap then 29 else 28; 31; 30; 31; 30; 31; 31; 30; 31; 30; 31].

Definition days_in_month (y m : Z) : Z :=
  nth (Z.to_nat (m - 1)) (month_lengths (is_leap y)) 0.

Definition days_before_month (leap : bool) (m : Z) : Z :=
  sumZ id (take (Z.to_nat (m - 1)) (month_lengths leap)).

(** The day number of a date. *)
Definition day_of_civil (y m d : Z) : Z :=
  day_from_year y + days_before_month (is_leap y) m + (d - 1).

Definition valid_date (y m d : Z) : bool :=
  (1 <=? m) && (m <=? 12) && (1 <=? d) && (d <=? days_in_month y m).

(** The year of a day number: an estimate from the mean year, corrected. *)
Definition year_of_day (day : Z) : Z :=
  let y := 1970 + (400 * day) / 146097 in
  if day <? day_from_year y then y - 1
  else if day_from_year (y + 1) <=? day then y + 1
  else y.

(** The month and day of the [n]th day of a year. *)
Fixpoint month_day (lengths : list Z) (m n : Z) : Z * Z :=
  match lengths with
  | [] => (m, n + 1)
  | l :: lengths' => if n <? l then (m, n + 1) else month_day lengths' (m + 1) (n - l)
  end.

Definition civil_of_day (day : Z) : Z * Z * Z :=
  let y := year_of_day day in
  let '(m, d) := month_day (month_lengths (is_leap y)) 1 (day - day_from_year y) in
  (y, m, d).

(** ** Printing *)

Definition digit_char (d : Z) : Ascii.ascii := Ascii.ascii_of_N (Z.to_N (48 + d)).

(** The [k] last decimal digits of a number: [String(n).padStart(k, '0')] for
    [0 <= n < 10^k]. *)
Fixpoint digits (k : nat) (n : Z) : string :=
  match k with
  | O => EmptyString
  | S k' => digits k' (n / 10) +:+ String (digit_char (n mod 10)) EmptyString
  end.

(** The date part of [toISOString]; six digits and a sign outside 0..9999. *)
Definition print_year (y : Z) : string :=
  if (0 <=? y) && (y <=? 9999) then digits 4 y
  else (if y <? 0 then "-" else "+") +:+ digits 6 (Z.abs y).

(** [toISOString] of a whole second, up to the fraction. *)
Definition iso_seconds (seconds : Z) : string :=
  let '(y, m, d) := civil_of_day (seconds / 86400) in
  let t := seconds mod 86400 in
  print_year y +:+ "-" +:+ digits 2 m +:+ "-" +:+ digits 2 d +:+ "T" +:+
  digits 2 (t / 3600) +:+ ":" +:+ digits 2 (t / 60 mod 60) +:+ ":" +:+ digits 2 (t mod 60).

(** The largest time value of a [Date], in milliseconds. *)
Definition max_time : Z := 8640000000000000.

Definition microsTimestamp (value : Z) : outcome string :=
  let seconds := if 0 <=? value then value ÷ 1000000 else (value - 999999) ÷ 1000000 in
  let fraction := value - seconds * 1000000 in
  if max_time <? Z.abs (seconds * 1000) then Throws "Invalid time value"
  else Returns (iso_seconds seconds +:+ "." +:+ digits 6 fraction +:+ "Z").

(** ** Reading *)

(** [\d{k}]: the value of the next [k] digits. *)
Fixpoint read_digits (k : nat) (acc : Z) (s : string) : option (Z * string) :=
  match k with
  | O => Some (acc, s)
  | S k' =>
      match s with
      | String c s' =>
          match digit c with
          | Some d => read_digits k' (acc * 10 + d) s'
          | None => None
          end
      | EmptyString => None
      end
  end.

Definition read_char (c : Ascii.ascii) (s : string) : option string :=
  match s with
  | String c' s' => if bool_decide (c' = c) then Some s' else None
  | EmptyString => None
  end.

(** [(?:\.(\d{1,6}))?] and the padding of its group to six digits: the digits
    are taken greedily, and what follows must be a zone, never a digit. *)
Definition read_fraction (s : string) : option (Z * string) :=
  match s with
  | String "."%char s' =>
      let '(v, n, rest) := take_digits s' 0 0 in
      if (Nat.ltb 0 n && Nat.leb n 6)%bool
      then Some (v * 10 ^ (6 - Z.of_nat n), rest) else None
  | _ => Some (0, s)
  end.

(** [(Z|[+-]\d{2}:\d{2})$]: the offset in minutes; hours up to 23 and minutes
    up to 59. *)
Definition read_zone (s : string) : option Z :=
  match s with
  | String "Z"%char EmptyString => Some 0
  | String c s' =>
      sign ← (if bool_decide (c = "+"%char) then Some 1
              else if bool_decide (c = "-"%char) then Some (-1) else None);
      '(h, s1) ← read_digits 2 0 s'; s2 ← read_char ":" s1;
      '(m, s3) ← read_digits 2 0 s2;
      if bool_decide (s3 = EmptyString) && (h <=? 23) && (m <=? 59)
      then Some (sign * (h * 60 + m)) else None
  | EmptyString => None
  end.

Definition read_timestamp (s : string) : option Z :=
  '(y, s) ← read_digits 4 0 s; s ← read_char "-" s;
  '(mo, s) ← read_digits 2 0 s; s ← read_char "-" s;
  '(d, s) ← read_digits 2 0 s; s ← read_char "T" s;
  '(h, s) ← read_digits 2 0 s; s ← read_char ":" s;
  '(mi, s) ← read_digits 2 0 s; s ← read_char ":" s;
  '(sec, s) ← read_digits 2 0 s;
  '(fraction, s) ← read_fraction s;
  zone ← read_zone s;
  if valid_date y mo d && (h <=? 23) && (mi <=? 59) && (sec <=? 59) then
    Some ((day_of_civil y mo d * 86400 + h * 3600 + mi * 60 + sec - zone * 60) * 1000000 + fraction)
  else None.

Inductive Timestamp : Type :=
| Text (s : string)
| DateValue (ms : option Z).

Definition timestampMicros (value : Timestamp) : outcome Z :=
  match value with
  | DateValue (Some ms) => Returns (ms * 1000)
  | DateValue None => Throws "invalid lifecycle timestamp"
  | Text s =>
      match read_timestamp s with
      | Some v => Returns v
      | None => Throws "invalid lifecycle timestamp"
      end
  end.

Example read_sample : read_timestamp "2024-02-29T12:30:05.25+02:00" = Some 1709202605250000.
Proof. vm_compute. reflexivity. Qed.

Example print_sample : microsTimestamp 1709202605250000 = Returns "2024-02-29T10:30:05.250000Z"%string.
Proof. vm_compute. reflexivity. Qed.

(** ** The calendar is a bijection *)

Ltac div_lia := Z.to_euclidean_division_equations; lia.

Lemma day_from_year_succ y :
  day_from_year (y + 1) = day_from_year y + (if is_leap y then 366 else 365).
Proof.
  unfold day_from_year, is_leap.
  destruct (y mod 4 =? 0) eqn:E4, (y mod 100 =? 0) eqn:E100, (y mod 400 =? 0) eqn:E400;
    simpl; bool_hyps; div_lia.
Qed.

Lemma day_from_year_mono y1 y2 : y1 ≤ y2 → day_from_year y1 ≤ day_from_year y2.
Proof. unfold day_from_year. intros. div_lia. Qed.

(** The mean year is wrong by less than a year. *)
Lemma year_estimate day :
  let y := 1970 + (400 * day) / 146097 in
  day_from_year (y - 1) ≤ day < day_from_year (y + 2).
Proof. unfold day_from_year. simpl. div_lia. Qed.

Lemma year_of_day_spec day :
  day_from_year (year_of_day day) ≤ day < day_from_year (year_of_day day + 1).
Proof.
  unfold year_of_day. pose proof (year_estimate day) as H. cbv zeta in *.
  set (y := 1970 + 400 * day / 146097) in *.
  destruct (day <? day_from_year y) eqn:E1; bool_hyps.
  - replace (y - 1 + 1) with y by lia. lia.
  - destruct (day_from_year (y + 1) <=? day) eqn:E2; bool_hyps; [|lia].
    replace (y + 1 + 1) with (y + 2) by lia. lia.
Qed.

Definition month_day_check (leap : bool) (n : Z) : bool :=
  let '(m, d) := month_day (month_lengths leap) 1 n in
  (1 <=? m) && (m <=? 12) && (1 <=? d) &&
  (d <=? nth (Z.to_nat (m - 1)) (month_lengths leap) 0) &&
  (days_before_month leap m + (d - 1) =? n).

Lemma month_day_checked (leap : bool) (n : Z) :
  0 ≤ n < (if leap then 366 else 365) → month_day_check leap n = true.
Proof.
  intros Hn.
  assert (H : forallb (month_day_check leap) (seqZ 0 (if leap then 366 else 365)) = true)
    by (destruct leap; vm_compute; reflexivity).
  rewrite forallb_forall in H. apply H. apply list_elem_of_In, elem_of_seqZ. lia.
Qed.

(** The date of a day is valid and its day number is that day. *)
Lemma civil_of_day_spec day :
  let '(y, m, d) := civil_of_day day in
  valid_date y m d = true ∧ day_of_civil y m d = day ∧ y = year_of_day day ∧
  1 ≤ m ≤ 12 ∧ 1 ≤ d ≤ 31.
Proof.
  unfold civil_of_day. set (y := year_of_day day).
  pose proof (year_of_day_spec day) as Hy. rewrite day_from_year_succ in Hy. fold y in Hy.
  assert (Hc := month_day_checked (is_leap y) (day - day_from_year y)).
  unfold month_day_check in Hc.
  destruct (month_day (month_lengths (is_leap y)) 1 (day - day_from_year y)) as [m d].
  specialize (Hc ltac:(destruct (is_leap y); lia)). bool_hyps.
  assert (Hd : days_in_month y m ≤ 31).
  { unfold days_in_month. assert (Hm : m ∈ seqZ 1 12) by (apply elem_of_seqZ; lia).
    assert (Hall : forallb (λ m, (nth (Z.to_nat (m - 1)) (month_lengths (is_leap y)) 0 <=? 31))
      (seqZ 1 12) = true) by (destruct (is_leap y); vm_compute; reflexivity).
    rewrite forallb_forall in Hall. apply list_elem_of_In, Hall in Hm. lia. }
  unfold valid_date, day_of_civil, days_in_month in *.
  repeat (rewrite andb_true_iff || rewrite Z.leb_le). lia.
Qed.

(** ** What is printed is read back *)

Lemma str_app_assoc (a b c : string) : (a +:+ b) +:+ c = a +:+ b +:+ c.
Proof. induction a as [|x a IH]; [done|]. exact (f_equal (String x) IH). Qed.

Lemma digit_digit_char d : 0 ≤ d < 10 → digit (digit_char d) = Some d.
Proof.
  intros Hd. assert (d ∈ seqZ 0 10) as Hin by (apply elem_of_seqZ; lia).
  assert (H : forallb (λ d, bool_decide (digit (digit_char d) = Some d)) (seqZ 0 10) = true)
    by (vm_compute; reflexivity).
  rewrite forallb_forall in H. apply list_elem_of_In, H in Hin. by bool_hyps.
Qed.

Lemma read_digits_S k acc s :
  read_digits (S k) acc s = '(v, r) ← read_digits k acc s; read_digits 1 v r.
Proof.
  revert acc s; induction k as [|k IH]; intros acc s; [done|].
  cbn [read_digits] in *. destruct s as [|c s]; [done|]. destruct (digit c); [|done]. apply IH.
Qed.

Lemma read_printed k n acc s :
  0 ≤ n < 10 ^ Z.of_nat k →
  read_digits k acc (digits k n +:+ s) = Some (acc * 10 ^ Z.of_nat k + n, s).
Proof.
  revert n s; induction k as [|k IH]; intros n s Hn.
  { simpl in *. by replace n with 0 by lia; rewrite Z.mul_1_r, Z.add_0_r. }
  rewrite Nat2Z.inj_succ, Z.pow_succ_r in * by lia.
  rewrite read_digits_S. cbn [digits]. rewrite str_app_assoc, IH by div_lia.
  change (String ?c EmptyString +:+ s) with (String c s). cbn.
  rewrite digit_digit_char by div_lia. f_equal. f_equal. div_lia.
Qed.

Lemma take_digits_read k acc s v r c :
  read_digits k acc s = Some (v, r) → take_digits s acc c = take_digits r v (c + k)%nat.
Proof.
  revert acc s c; induction k as [|k IH]; intros acc s c; simpl.
  - intros [= -> ->]. by rewrite Nat.add_0_r.
  - destruct s as [|x s]; [done|]. simpl. destruct (digit x); [|done].
    intros H. rewrite (IH _ _ (S c) H). f_equal. lia.
Qed.

Lemma read_back k n s :
  0 ≤ n < 10 ^ Z.of_nat k → read_digits k 0 (digits k n +:+ s) = Some (n, s).
Proof. intros H. by rewrite read_printed. Qed.

Lemma read_fraction_printed n s :
  0 ≤ n < 1000000 → digit (match s with String c _ => c | EmptyString => "Z"%char end) = None →
  read_fraction ("." +:+ digits 6 n +:+ s) = Some (n, s).
Proof.
  intros Hn Hs. change ("." +:+ digits 6 n +:+ s) with (String "." (digits 6 n +:+ s)).
  unfold read_fraction.
  rewrite (take_digits_read 6 0 _ n s 0%nat) by (by apply read_back).
  assert (E : take_digits s n (0 + 6) = (n, 6%nat, s)).
  { destruct s as [|c s]; [done|]. simpl. by rewrite Hs. }
  rewrite E. simpl. f_equal. f_equal. lia.
Qed.

Lemma read_char_back c s : read_char c (String c EmptyString +:+ s) = Some s.
Proof. change (String c EmptyString +:+ s) with (String c s). simpl. by rewrite bool_decide_true. Qed.

#[local] Opaque digits read_char read_digits read_fraction valid_date day_of_civil.

(** The parts of a printed timestamp are read back one by one. *)
Lemma read_parts y mo d h mi sec fraction :
  0 ≤ y < 10000 → 0 ≤ mo < 100 → 0 ≤ d < 100 → 0 ≤ h ≤ 23 → 0 ≤ mi ≤ 59 → 0 ≤ sec ≤ 59 →
  0 ≤ fraction < 1000000 → valid_date y mo d = true →
  read_timestamp (digits 4 y +:+ "-" +:+ digits 2 mo +:+ "-" +:+ digits 2 d +:+ "T" +:+
    digits 2 h +:+ ":" +:+ digits 2 mi +:+ ":" +:+ digits 2 sec +:+ "." +:+ digits 6 fraction +:+ "Z")
  = Some ((day_of_civil y mo d * 86400 + h * 3600 + mi * 60 + sec) * 1000000 + fraction).
Proof.
  intros Hy Hmo Hd Hh Hmi Hs Hf Hv. unfold read_timestamp.
  rewrite (read_back 4) by (simpl; lia). cbn.
  do 5 (rewrite read_char_back; cbn; rewrite (read_back 2) by (simpl; lia); cbn).
  rewrite read_fraction_printed by done. cbn. rewrite Hv. simpl.
  rewrite (proj2 (Z.leb_le h 23)), (proj2 (Z.leb_le mi 59)), (proj2 (Z.leb_le sec 59)) by lia.
  simpl. f_equal. lia.
Qed.

#[local] Transparent digits read_char read_digits read_fraction valid_date day_of_civil.

(** Every instant of the years 0 to 9999, to the microsecond, is printed as a
    text that [timestampMicros] reads back as the same instant; the floor
    division makes this hold before 1970 as well. *)
Theorem timestamp_roundtrip (v : Z) :
  day_from_year 0 * DAY_US ≤ v < day_from_year 10000 * DAY_US →
  ∃ text, microsTimestamp v = Returns text ∧ timestampMicros (Text text) = Returns v.
Proof.
  intros Hv. unfold microsTimestamp.
  assert (Hsec : (if 0 <=? v then v ÷ 1000000 else (v - 999999) ÷ 1000000) = v / 1000000)
    by (destruct (0 <=? v) eqn:E; bool_hyps; div_lia).
  rewrite Hsec. set (sec := v / 1000000).
  change (day_from_year 0) with (-719528) in Hv. change (day_from_year 10000) with 2932897 in Hv.
  unfold DAY_US in Hv.
  replace (max_time <? Z.abs (sec * 1000)) with false
    by (symmetry; apply Z.ltb_ge; unfold max_time, sec; div_lia).
  eexists. split; [reflexivity|]. unfold timestampMicros, iso_seconds.
  pose proof (civil_of_day_spec (sec / 86400)) as Hc.
  pose proof (year_of_day_spec (sec / 86400)) as Hy.
  destruct (civil_of_day (sec / 86400)) as [[y m] d]. destruct Hc as (Hval & Hday & -> & Hm & Hd).
  set (y := year_of_day (sec / 86400)) in *.
  assert (Hrange : 0 ≤ y < 10000).
  { split.
    - destruct (decide (0 ≤ y)); [done|]. pose proof (day_from_year_mono (y + 1) 0 ltac:(lia)) as H.
      change (day_from_year 0) with (-719528) in H. unfold sec in *. div_lia.
    - destruct (decide (y < 10000)); [done|]. pose proof (day_from_year_mono 10000 y ltac:(lia)) as H.
      change (day_from_year 10000) with 2932897 in H. unfold sec in *. div_lia. }
  unfold print_year. rewrite (proj2 (Z.leb_le 0 y)), (proj2 (Z.leb_le y 9999)) by lia.
  cbn [andb]. rewrite !str_app_assoc.
  rewrite read_parts by (done || lia || (unfold sec; div_lia)).
  f_equal. rewrite Hday. unfold sec. div_lia.
Qed.

(** A printed instant that can be read at all is read as itself: the years the
    printer marks with a sign are refused by the reader. *)
Lemma micros_reads m text v :
  microsTimestamp m = Returns text → timestampMicros (Text text) = Returns v → v = m.
Proof.
  intros Hp Hr.
  destruct (decide (day_from_year 0 * DAY_US ≤ m < day_from_year 10000 * DAY_US)) as [Hm|Hm].
  { destruct (timestamp_roundtrip m Hm) as (text' & Hp' & Hr'). congruence. }
  exfalso. revert Hp. unfold microsTimestamp.
  assert (Hsec : (if 0 <=? m then m ÷ 1000000 else (m - 999999) ÷ 1000000) = m / 1000000)
    by (destruct (0 <=? m) eqn:E; bool_hyps; div_lia).
  rewrite Hsec. destruct (max_time <? _); [done|]. intros [= <-]. revert Hr.
  unfold timestampMicros, iso_seconds.
  pose proof (civil_of_day_spec (m / 1000000 / 86400)) as Hc.
  pose proof (year_of_day_spec (m / 1000000 / 86400)) as Hy.
  destruct (civil_of_day _) as [[y mo] d]. destruct Hc as (_ & _ & -> & _).
  unfold print_year. set (y := year_of_day _) in *.
  assert (Hyear : (0 <=? y) && (y <=? 9999) = false).
  { apply andb_false_iff. rewrite Z.leb_gt, Z.leb_gt. destruct (decide (0 ≤ y ≤ 9999)); [|lia].
    exfalso. apply Hm. pose proof (day_from_year_mono 0 y ltac:(lia)).
    pose proof (day_from_year_mono (y + 1) 10000 ltac:(lia)).
    unfold DAY_US in *. div_lia. }
  rewrite Hyear. by destruct (y <? 0).
Qed.

Lemma timestamp_roundtrip_witness :
  ∃ text, microsTimestamp (-1) = Returns text ∧ text = "1969-12-31T23:59:59.999999Z"%string ∧
    timestampMicros (Text text) = Returns (-1).
Proof.
  destruct (timestamp_roundtrip (-1)) as (text & H1 & H2);
    [split; vm_compute; [discriminate|reflexivity]|].
  exists text. split; [done|]. split; [|done]. vm_compute in H1. by injection H1 as <-.
Defined.
