(* ===== verification/LifecyclePolicy.v ===== *)
(** * LifecyclePolicy: when a session is archived, cooled or purged
    (relay/src/session-lifecycle/policy.ts and types.ts).

    [evaluateLifecycle] is the whole prediction: it collects the reasons that
    block a session in the order the source adds them, takes the newest
    activity over the session and its dependencies, and derives the deadlines.
    Only the fields of [SessionLifecycleConfig] the policy reads are kept.

    The theorem says what must hold for any action to be predicted; a purge,
    which destroys data, needs every source of activity to be readable, past
    and older than the retention period. *)

From S2P Require Import Prelude JsValue LifecycleTime.

#[local] Open Scope Z_scope.

(** ** Data *)

Inductive LifecycleMode : Type := ModeOff | ModeObserve | ModeEnforce.

Inductive LifecycleAction : Type := Archive | Cool | Resume | Purge.

Inductive ContentState : Type := Hot | Cooling | Cold | Mixed | Deleting | Deleted.

Inductive LifecycleScope : Type := Personal | Team | Demo | ScopeUnknown.

Inductive ArchiveReason : Type := Manual | Inactivity.

Inductive LifecycleBlocker : Type :=
| policy_disabled | policy_not_effective | owner_unknown | scope_excluded | demo_excluded
| activity_unknown | activity_invalid | activity_future | activity_unverified
| status_unknown | session_active | session_deleting | session_deleted
| admission_pending | inbox_pending | outbox_pending | attention_pending | effect_pending
| document_upload_pending | collaboration_pending | dependency_unknown | extension_pending
| usage_unverified | cooling_pending.

#[global] Instance LifecycleBlocker_eq : EqDecision LifecycleBlocker.
Proof. solve_decision. Defined.
#[global] Instance ContentState_eq : EqDecision ContentState.
Proof. solve_decision. Defined.
#[global] Instance LifecycleScope_eq : EqDecision LifecycleScope.
Proof. solve_decision. Defined.
#[global] Instance LifecycleMode_eq : EqDecision LifecycleMode.
Proof. solve_decision. Defined.

Record SessionLifecycleConfig : Type := {
  mode : LifecycleMode;
  policyVersion : string;
  archiveDays : Z;
  purgeDays : Z;
  effectiveAt : option string;
  transitionDeadline : option string
}.

Record LifecycleInput : Type := {
  ownerUserId : option Z;
  scope : LifecycleScope;
  activityAt : option string;
  activityVerified : bool;
  dependencyActivityAt : option (list (option string));
  status : option string;
  turnActive : bool;
  staleSnapshot : bool;
  archiveReason : option ArchiveReason;
  contentState : ContentState;
  historical : bool;
  pinned : bool;
  blockers : list LifecycleBlocker
}.

Record LifecycleEvaluation : Type := {
  action : option LifecycleAction;
  ev_activityAt : option string;
  archiveAt : option string;
  purgeAt : option string;
  dueAt : option string;
  blockedReasons : list LifecycleBlocker;
  ev_policyVersion : string
}.

Definition activeStatuses : list string :=
  ["running"; "busy"; "retry"; "waiting"; "waiting_approval"; "waiting_question"]%string.

Definition inactiveStatuses : list string :=
  ["idle"; "exited"; "completed"; "failed"; "stopped"; "terminated"; "abandoned"; "error";
   "killed"]%string.

(** ** The evaluation *)

(** [Set.prototype.add], in insertion order. *)
Definition add_reason (reasons : list LifecycleBlocker) (r : LifecycleBlocker)
  : list LifecycleBlocker :=
  if bool_decide (r ∈ reasons) then reasons else reasons ++ [r].

Definition add_if (b : bool) (r : LifecycleBlocker) (reasons : list LifecycleBlocker)
  : list LifecycleBlocker := if b then add_reason reasons r else reasons.

(** A non-empty optional text, as its truthiness tests it. *)
Definition present (o : option string) : option string :=
  match o with
  | Some s => if bool_decide (s = EmptyString) then None else Some s
  | None => None
  end.

Definition owner_known (input : LifecycleInput) : bool :=
  match ownerUserId input with
  | Some u => is_safe_integer u && (0 <? u)
  | None => false
  end.

Definition is_active_session (input : LifecycleInput) : bool :=
  negb (staleSnapshot input) &&
  (turnActive input || bool_decide (default EmptyString (status input) ∈ activeStatuses)).

Definition is_unknown_status (input : LifecycleInput) : bool :=
  negb (staleSnapshot input) &&
  negb (bool_decide (default EmptyString (status input) ∈ inactiveStatuses)).

(** Lines 51-63. *)
Definition static_reasons (input : LifecycleInput) (not_effective : bool) : list LifecycleBlocker :=
  let r0 := fold_left add_reason (blockers input) [] in
  let r1 := add_if not_effective policy_not_effective r0 in
  let r2 := add_if (negb (owner_known input)) owner_unknown r1 in
  let r3 := add_if (negb (bool_decide (scope input = Personal))) scope_excluded r2 in
  let r4 := add_if (negb (activityVerified input)) activity_unverified r3 in
  let r5 := if is_active_session input then add_reason r4 session_active
            else add_if (is_unknown_status input) status_unknown r4 in
  let r6 := add_if (bool_decide (contentState input = Deleting)) session_deleting r5 in
  let r7 := add_if (bool_decide (contentState input = Deleted)) session_deleted r6 in
  add_if (bool_decide (contentState input = Cooling)) cooling_pending r7.

Definition sources (input : LifecycleInput) : list (option string) :=
  activityAt input :: default [] (dependencyActivityAt input).

(** The loop of lines 65-80: reasons and the newest readable activity. *)
Definition add_source (current : Z) (acc : list LifecycleBlocker * option Z) (source : option string)
  : list LifecycleBlocker * option Z :=
  let '(reasons, activity) := acc in
  match source with
  | None => (add_reason reasons activity_unknown, activity)
  | Some s =>
      match timestampMicros (Text s) with
      | Returns v =>
          (add_if (current <? v) activity_future reasons,
           match activity with
           | None => Some v
           | Some a => if a <? v then Some v else Some a
           end)
      | Throws _ => (add_reason reasons activity_invalid, activity)
      end
  end.

Definition no_evaluation (config : SessionLifecycleConfig) (reasons : list LifecycleBlocker)
  : LifecycleEvaluation := {|
  action := None; ev_activityAt := None; archiveAt := None; purgeAt := None; dueAt := None;
  blockedReasons := reasons; ev_policyVersion := policyVersion config |}.

(** Lines 92-99. *)
Definition due_action (input : LifecycleInput) (current archive purge : Z) : option LifecycleAction :=
  if purge <? current then Some Purge
  else if archive <? current then
    match archiveReason input with
    | None => Some Archive
    | Some _ => if bool_decide (contentState input ∈ [Hot; Mixed]) then Some Cool else None
    end
  else None.

(** [config.effectiveAt && current < timestampMicros(config.effectiveAt)]. *)
Definition before_effective (config : SessionLifecycleConfig) (current : Z) : outcome bool :=
  match present (effectiveAt config) with
  | Some e => try! t := timestampMicros (Text e) in Returns (current <? t)
  | None => Returns false
  end.

(** Lines 83-87. *)
Definition purge_time (input : LifecycleInput) (config : SessionLifecycleConfig) (activity : Z)
  : outcome Z :=
  let purge := activity + purgeDays config * DAY_US in
  match present (transitionDeadline config) with
  | Some d =>
      if historical input then
        try! t := timestampMicros (Text d) in Returns (if purge <? t then t else purge)
      else Returns purge
  | None => Returns purge
  end.

Definition evaluateLifecycle (input : LifecycleInput) (now : Timestamp)
  (config : SessionLifecycleConfig) : outcome LifecycleEvaluation :=
  if bool_decide (mode config = ModeOff) then Returns (no_evaluation config [policy_disabled])
  else if bool_decide (scope input = Demo) then Returns (no_evaluation config [demo_excluded])
  else
    try! current := timestampMicros now in
    try! not_effective := before_effective config current in
    let '(reasons, activity) :=
      fold_left (add_source current) (sources input) (static_reasons input not_effective, None) in
    match activity with
    | None => Returns (no_evaluation config reasons)
    | Some a =>
        let archive := a + archiveDays config * DAY_US in
        try! purge := purge_time input config a in
        try! activity_text := microsTimestamp a in
        try! archive_text := microsTimestamp archive in
        try! purge_text := microsTimestamp purge in
        let act := match reasons with [] => due_action input current archive purge | _ => None end in
        Returns {|
          action := act;
          ev_activityAt := Some activity_text;
          archiveAt := Some archive_text;
          purgeAt := Some purge_text;
          dueAt := match act with
                   | Some Purge => Some purge_text
                   | Some _ => Some archive_text
                   | None => None
                   end;
          blockedReasons := reasons;
          ev_policyVersion := policyVersion config |}
    end.

(** ** What an action requires *)

#[local] Arguments timestampMicros _ : simpl never.

Lemma add_reason_nonempty reasons r : add_reason reasons r ≠ [].
Proof. unfold add_reason. case_bool_decide; [by destruct reasons; [apply not_elem_of_nil in H|]|by destruct reasons]. Qed.

Lemma add_if_nil b r reasons : add_if b r reasons = [] ↔ b = false ∧ reasons = [].
Proof.
  unfold add_if. destruct b; [|naive_solver].
  split; [by intros H%add_reason_nonempty|by intros [? _]].
Qed.

Lemma fold_add_nil l reasons : fold_left add_reason l reasons = [] → l = [] ∧ reasons = [].
Proof.
  revert reasons; induction l as [|r l IH]; intros reasons; simpl; [done|].
  by intros [_ H%add_reason_nonempty]%IH.
Qed.

(** No reason of lines 51-63 applies. *)
Definition unblocked (input : LifecycleInput) : Prop :=
  blockers input = [] ∧ owner_known input = true ∧ scope input = Personal ∧
  activityVerified input = true ∧
  (staleSnapshot input = true ∨
   (turnActive input = false ∧ ∃ st, status input = Some st ∧ st ∈ inactiveStatuses)) ∧
  contentState input ∉ [Deleting; Deleted; Cooling].

Lemma static_reasons_nil input not_effective :
  static_reasons input not_effective = [] → not_effective = false ∧ unblocked input.
Proof.
  unfold static_reasons, unblocked. rewrite !add_if_nil.
  intros [H7 [H6 [H5 H]]].
  destruct (is_active_session input) eqn:Ea; [by apply add_reason_nonempty in H|].
  rewrite !add_if_nil in H. destruct H as (H4 & H3 & H2 & H1 & H0 & Hb).
  apply fold_add_nil in Hb as [Hb _]. bool_hyps. split; [done|].
  repeat (split; [done|]). split; [|rewrite !elem_of_cons, elem_of_nil; tauto].
  unfold is_active_session, is_unknown_status in *. destruct (staleSnapshot input); [by left|].
  right. simpl in *. bool_hyps. split; [done|].
  destruct (status input) as [st|]; [by exists st|]. 
  assert (Hn : EmptyString ∉ inactiveStatuses) by (apply (bool_decide_unpack _); vm_compute; exact I).
  by destruct Hn.
Qed.

(** The newest activity bounds every source, and none is left out. *)
Lemma sources_read current srcs reasons0 activity0 a :
  fold_left (add_source current) srcs (reasons0, activity0) = ([], Some a) →
  reasons0 = [] ∧ (∀ x, activity0 = Some x → x ≤ a) ∧
  ∀ src, src ∈ srcs → ∃ s v, src = Some s ∧ timestampMicros (Text s) = Returns v ∧ v ≤ current ∧ v ≤ a.
Proof.
  revert reasons0 activity0; induction srcs as [|src srcs IH]; intros reasons0 activity0;
    cbn [fold_left].
  { intros [= -> ->]. split; [done|]. split; [naive_solver|]. by intros ? ?%not_elem_of_nil. }
  unfold add_source at 2. destruct src as [s|]; [|by intros (H%add_reason_nonempty & _)%IH].
  destruct (timestampMicros (Text s)) as [v|] eqn:Et; [|by intros (H%add_reason_nonempty & _)%IH].
  intros (Hr & Ha & Hin)%IH. rewrite add_if_nil in Hr. destruct Hr as [Hv ->]. bool_hyps.
  assert (Hva : v ≤ a ∧ ∀ x, activity0 = Some x → x ≤ a).
  { destruct activity0 as [x|]; [|split; [by apply Ha|done]].
    destruct (x <? v) eqn:E; bool_hyps; specialize (Ha _ eq_refl); (split; [lia|]); intros ? [= <-]; lia. }
  split; [done|]. split; [apply Hva|]. intros src [->|Hsrc]%elem_of_cons; [|auto].
  exists s, v. repeat (split; [done|]). lia.
Qed.

(** An action is predicted only for an unblocked session of an effective
    policy, whose activity sources are all readable and not in the future.  A
    purge is predicted only when every source is older than the purge period
    and, for historical sessions, the transition deadline has passed; an
    archive or a cooling only when every source is older than the archive
    period. *)
Theorem lifecycle_action_safe input now config ev act :
  evaluateLifecycle input now config = Returns ev → action ev = Some act →
  ∃ current, timestampMicros now = Returns current ∧
    mode config ≠ ModeOff ∧ unblocked input ∧ blockedReasons ev = [] ∧
    (∀ e t, present (effectiveAt config) = Some e → timestampMicros (Text e) = Returns t → t ≤ current) ∧
    ∀ src, src ∈ sources input → ∃ s v,
      src = Some s ∧ timestampMicros (Text s) = Returns v ∧ v ≤ current ∧
      match act with
      | Purge => v + purgeDays config * DAY_US < current ∧
          ∀ d t, historical input = true → present (transitionDeadline config) = Some d →
            timestampMicros (Text d) = Returns t → t < current
      | _ => v + archiveDays config * DAY_US < current
      end.
Proof.
  unfold evaluateLifecycle. case_bool_decide as Hmode; [by intros [= <-]|].
  case_bool_decide as Hdemo; [by intros [= <-]|].
  destruct (timestampMicros now) as [current|] eqn:Ecur; [|done].
  destruct (before_effective config current) as [ne|] eqn:Ene; [|done].
  destruct (fold_left _ _ _) as [reasons activity] eqn:Ef.
  destruct activity as [a|]; [|by intros [= <-]].
  destruct (purge_time input config a) as [purge|] eqn:Ep; [|done].
  destruct (microsTimestamp a); [|done]. destruct (microsTimestamp (a + _)); [|done].
  destruct (microsTimestamp purge); [|done].
  intros [= <-]. simpl. intros Hact. destruct reasons as [|r rs]; [|done].
  destruct (sources_read _ _ _ _ _ Ef) as (Hst & _ & Hsrc).
  destruct (static_reasons_nil _ _ Hst) as [-> Hun].
  exists current. repeat (split; [done|]). split.
  { intros e t He Ht. unfold before_effective in Ene. rewrite He, Ht in Ene.
    injection Ene as Ene. bool_hyps. lia. }
  intros src Hin. destruct (Hsrc src Hin) as (s' & v & -> & Hv & Hle & Hva).
  exists s', v. repeat (split; [done|]).
  unfold due_action in Hact. destruct (purge <? current) eqn:Epc; bool_hyps.
  - injection Hact as <-. unfold purge_time in Ep. split.
    + repeat case_match; simplify_eq; bool_hyps; lia.
    + intros d t Hh Hd Ht. rewrite Hd, Hh, Ht in Ep. injection Ep as <-.
      destruct (_ <? t) eqn:E; bool_hyps; lia.
  - destruct (_ <? current) eqn:Eac; [|done]. bool_hyps.
    destruct (archiveReason input); [case_bool_decide; [|done]|]; injection Hact as <-; lia.
Qed.

(** *** A purge that is due *)

Definition sample_config : SessionLifecycleConfig := {|
  mode := ModeObserve; policyVersion := "v1"; archiveDays := 30; purgeDays := 90;
  effectiveAt := Some "2024-01-01T00:00:00Z"%string; transitionDeadline := None |}.

Definition sample_input : LifecycleInput := {|
  ownerUserId := Some 7; scope := Personal; activityAt := Some "2024-01-10T08:00:00.5Z"%string;
  activityVerified := true; dependencyActivityAt := None; status := Some "idle"%string;
  turnActive := false; staleSnapshot := false; archiveReason := None; contentState := Hot;
  historical := false; pinned := false; blockers := [] |}.

Lemma lifecycle_action_safe_witness :
  ∃ ev, evaluateLifecycle sample_input (Text "2024-04-10T08:00:00Z") sample_config = Returns ev ∧
    action ev = Some Purge ∧ unblocked sample_input.
Proof.
  destruct (evaluateLifecycle sample_input (Text "2024-04-10T08:00:00Z") sample_config) as [ev|] eqn:E;
    [|vm_compute in E; discriminate].
  exists ev. split; [done|].
  assert (Ha : action ev = Some Purge) by (vm_compute in E; injection E as <-; reflexivity).
  split; [done|].
  by destruct (lifecycle_action_safe sample_input (Text "2024-04-10T08:00:00Z") sample_config ev Purge E Ha)
    as (current & _ & _ & Hun & _).
Defined.
