(* ===== verification/LifecycleComponent.v ===== *)
(** * LifecycleComponent: the sessions that must be archived together
    (relay/src/session-lifecycle/eligibility.ts, lines 21-62).

    Before a session is archived, cooled or purged, the relay collects every
    session that is tied to it: by its parent, by its root, and by subagents
    that are sessions of their own.  [visit] is one round of the search, with
    the two statements of the source; [search] repeats rounds while there is a
    frontier; [cyclic] is the depth-first test of the ancestry.

    A row of the joined statement is a [MemberRow], in the order of the table;
    the text of [last_activity_at] is formatted by the database ([to_char]).

    The proofs follow the model. *)

From stdpp Require Import relations.
From S2P Require Import Prelude JsValue JsMap LifecycleTime LifecyclePolicy.



(** ** Tables *)

(** A row of [SELECT s.*, ... FROM sessions s LEFT JOIN daemons d]: the columns
    the code reads, times in microseconds. *)
Record MemberRow : Type := {
  s_session_id : string;
  s_parent_session_id : option string;
  s_root_session_id : option string;
  s_user_id : option Z;
  s_daemon_owner : option Z;
  s_daemon_id : option string;
  s_source : option string;
  s_status : option string;
  s_created_at : option Z;
  s_last_activity_at : option Z;
  s_last_business_activity_at : option Z;
  s_turn_started_at : option Z;
  s_activity_verified : bool;
  s_archive_reason : option ArchiveReason;
  s_content_state : ContentState;
  s_epoch : string;
  s_team_bound : bool
}.

(** A row of [subagents]. *)
Record SubagentRow : Type := {
  b_parent_session_id : string;
  b_agent_id : string;
  b_kind : string;
  b_status : option string;
  b_created_at : option Z
}.

Record Hierarchy : Type := {
  sessions : list MemberRow;
  subagents : list SubagentRow
}.

(** [column = ANY($1)]: a NULL column matches nothing. *)
Definition any_id (ids : list string) (column : option string) : bool :=
  match column with Some s => bool_decide (s ∈ ids) | None => false end.

(** The identifiers a row names, empty ones left out. *)
Definition row_ids (row : MemberRow) : list string :=
  s_session_id row :: option_list (present (s_parent_session_id row))
    ++ option_list (present (s_root_session_id row)).

Definition row_matches (ids : list string) (row : MemberRow) : bool :=
  any_id ids (Some (s_session_id row)) || any_id ids (s_parent_session_id row)
  || any_id ids (s_root_session_id row).

(** The statements of lines 35-41 and 45-46, with their LIMIT. *)
Definition select_sessions (db : Hierarchy) (ids : list string) : list MemberRow :=
  take 1001 (bfilter (row_matches ids) (sessions db)).

Definition subagent_matches (ids : list string) (b : SubagentRow) : bool :=
  any_id ids (Some (b_parent_session_id b)) || any_id ids (Some (b_agent_id b)).

Definition select_subagents (db : Hierarchy) (ids : list string) : list SubagentRow :=
  take 1001 (bfilter (subagent_matches ids) (subagents db)).

(** [s.session_id AS independent_session] of the LEFT JOIN. *)
Definition independent_session (db : Hierarchy) (b : SubagentRow) : bool :=
  existsb (λ row, bool_decide (s_session_id row = b_agent_id b)) (sessions db).

(** ** The search *)

Record Search : Type := {
  members : jsmap string MemberRow;
  seen : gset string;
  bucketRows : jsmap string SubagentRow;
  frontier : list string;
  overflow : bool
}.

(** [Set.prototype.add] for every element, in insertion order. *)
Definition add_all (set : list string) (ids : list string) : list string :=
  foldl (λ acc id, if bool_decide (id ∈ acc) then acc else acc ++ [id]) set ids.

Definition bucket_key (b : SubagentRow) : string :=
  (b_parent_session_id b +:+ ":" +:+ b_agent_id b)%string.

(** The identifiers a subagent adds to the frontier. *)
Definition subagent_ids (db : Hierarchy) (b : SubagentRow) : list string :=
  b_parent_session_id b :: (if independent_session db b && negb (bool_decide (b_agent_id b = EmptyString))
                            then [b_agent_id b] else []).

Definition add_bucket (db : Hierarchy) (m : jsmap string SubagentRow) (b : SubagentRow)
  : jsmap string SubagentRow :=
  if independent_session db b && negb (bool_decide (b_agent_id b = EmptyString)) then m
  else map_set m (bucket_key b) b.

Definition overflowed (s : Search) (m : jsmap string MemberRow) (sn : gset string) : Search := {|
  members := m; seen := sn; bucketRows := bucketRows s; frontier := frontier s; overflow := true |}.

(** One round of the loop of lines 32-54. *)
Definition visit (db : Hierarchy) (s : Search) : Search :=
  let sn := seen s ∪ list_to_set (frontier s) in
  if Nat.ltb 1000 (size sn) then overflowed s (members s) sn
  else
    let rows := select_sessions db (frontier s) in
    if Nat.ltb 1000 (length rows) then overflowed s (members s) sn
    else
      let m := foldl (λ m row, map_set m (s_session_id row) row) (members s) rows in
      let near := foldl (λ acc row, add_all acc (row_ids row)) [] rows in
      let subs := select_subagents db (frontier s) in
      if Nat.ltb 1000 (length subs) then overflowed s m sn
      else
        let neighbors := foldl (λ acc b, add_all acc (subagent_ids db b)) near subs in
        let next := bfilter (λ id, negb (bool_decide (id ∈ sn))) neighbors in
        {| members := m; seen := sn;
           bucketRows := foldl (add_bucket db) (bucketRows s) subs;
           frontier := next;
           overflow := Nat.ltb 1000 (length m + length next) |}.

Definition finished (s : Search) : bool :=
  match frontier s with [] => true | _ => overflow s end.

(** The loop; [None] when the fuel runs out before it ends. *)
Fixpoint search (fuel : nat) (db : Hierarchy) (s : Search) : option Search :=
  if finished s then Some s
  else match fuel with O => None | S fuel' => search fuel' db (visit db s) end.

Definition start_search (sessionId : string) : Search := {|
  members := []; seen := ∅; bucketRows := []; frontier := [sessionId]; overflow := false |}.

Definition component (db : Hierarchy) (sessionId : string) : option Search :=
  search 1001 db (start_search sessionId).

(** ** The ancestry test *)

Section cyclic.
Context (parents : string → list string).

(** [for (const parent of parents) if (cyclic(parent)) return true], with the
    two sets threaded through the calls. *)
Definition visit_parents (cyclic : string → gset string * gset string → option (bool * (gset string * gset string))) :
  list string → gset string * gset string → option (bool * (gset string * gset string)) :=
  fix go ps st :=
    match ps with
    | [] => Some (false, st)
    | p :: ps' =>
        r ← cyclic p st;
        if (fst r : bool) then Some r else go ps' (snd r)
    end.

(** [cyclic]: the state is the pair of [visiting] and [visited]. *)
Fixpoint cyclic (fuel : nat) (id : string) (st : gset string * gset string)
  : option (bool * (gset string * gset string)) :=
  match fuel with
  | O => None
  | S fuel' =>
      if bool_decide (id ∈ fst st) then Some (true, st)
      else if bool_decide (id ∈ snd st) then Some (false, st)
      else
        r ← visit_parents (cyclic fuel') (parents id) ({[id]} ∪ fst st, snd st);
        if (fst r : bool) then Some r
        else Some (false, (fst (snd r) ∖ {[id]}, {[id]} ∪ snd (snd r)))
  end.
End cyclic.

(** [ancestry]: the other sessions a member descends from. *)
Definition ancestors (row : MemberRow) : list string :=
  bfilter (λ id, negb (bool_decide (id = s_session_id row)))
    (option_list (present (s_parent_session_id row)) ++ option_list (present (s_root_session_id row))).

Definition ancestry (rows : list MemberRow) (id : string) : list string :=
  match map_get (map_of s_session_id ancestors rows) id with Some l => l | None => [] end.

(** [row.parent_session_id === row.session_id || cyclic(row.session_id)], left
    to right over the rows. *)
Fixpoint some_cycle (parents : string → list string) (fuel : nat) (rows : list MemberRow)
  (st : gset string * gset string) : option bool :=
  match rows with
  | [] => Some false
  | row :: rows' =>
      if bool_decide (s_parent_session_id row = Some (s_session_id row)) then Some true
      else
        r ← cyclic parents fuel (s_session_id row) st;
        if (fst r : bool) then Some true else some_cycle parents fuel rows' (snd r)
  end.

Definition cycle_found (rows : list MemberRow) : option bool :=
  some_cycle (ancestry rows) (S (S (length rows))) rows (∅, ∅).

(** * Correctness: the component search is exact

    [connected] is the specification of the search of [LifecycleComponent]:
    the identifiers that can be reached through rows and subagents.  The search
    ends on every database ([component_total]); unless it gives up it has found
    exactly the connected sessions ([component_exact]); and the ancestry test
    answers whether the parents of the found rows are well founded
    ([cycle_found_iff]). *)

(** ** Specification *)

Section connected.
Context (db : Hierarchy).

(** The identifiers that stand in a row. *)
Definition names (row : MemberRow) (x : string) : Prop :=
  s_session_id row = x ∨ s_parent_session_id row = Some x ∨ s_root_session_id row = Some x.

(** A session stored under this identifier. *)
Definition stored (x : string) : Prop := ∃ row, row ∈ sessions db ∧ s_session_id row = x.

(** The identifiers reached from [sid]: a row that names a reached identifier
    makes its own reached, and the parent and root it names unless they are
    empty; a subagent makes its parent reached and, when it is stored as a
    session of its own, itself. *)
Inductive connected (sid : string) : string → Prop :=
| connected_start : connected sid sid
| connected_row row x y :
    row ∈ sessions db → connected sid x → names row x → names row y →
    y = s_session_id row ∨ y ≠ EmptyString → connected sid y
| connected_subagent b x y :
    b ∈ subagents db → connected sid x → b_parent_session_id b = x ∨ b_agent_id b = x →
    y = b_parent_session_id b ∨ (y = b_agent_id b ∧ stored y ∧ y ≠ EmptyString) → connected sid y.
End connected.

(** [session_id] is UNIQUE in the table. *)
Definition unique_sessions (db : Hierarchy) : Prop :=
  ∀ r r', r ∈ sessions db → r' ∈ sessions db → s_session_id r = s_session_id r' → r = r'.

(** ** Sets and maps filled by loops *)

Lemma elem_of_add_all set ids x : x ∈ add_all set ids ↔ x ∈ set ∨ x ∈ ids.
Proof.
  unfold add_all. revert set. induction ids as [|id ids IH]; intros set; simpl; [set_solver|].
  rewrite IH. case_bool_decide; set_solver.
Qed.

#[local] Arguments add_all : simpl never.
#[local] Arguments row_ids : simpl never.
#[local] Arguments subagent_ids : simpl never.

Lemma elem_of_gather {A} (f : A → list string) acc rows x :
  x ∈ foldl (λ acc r, add_all acc (f r)) acc rows ↔ x ∈ acc ∨ ∃ r, r ∈ rows ∧ x ∈ f r.
Proof.
  revert acc. induction rows as [|r rows IH]; intros acc; simpl; [set_solver|].
  rewrite IH, elem_of_add_all. set_solver.
Qed.

Section fold_set.
Context {A : Type} (skip : A → bool) (key : A → string).
Implicit Types m : jsmap string A.

Definition set_unless m x : jsmap string A := if skip x then m else map_set m (key x) x.

Lemma fold_set_ok m l : map_ok m → map_ok (foldl set_unless m l).
Proof.
  revert m; induction l as [|x l IH]; intros m Hm; simpl; [done|]. apply IH.
  unfold set_unless. destruct (skip x); [done|by apply map_set_ok].
Qed.

Lemma fold_set_from m l k x :
  map_get (foldl set_unless m l) k = Some x → map_get m k = Some x ∨ (x ∈ l ∧ skip x = false ∧ key x = k).
Proof.
  revert m; induction l as [|y l IH]; intros m; simpl; [auto|].
  intros [H|(? & ? & ?)]%IH; [|right; set_solver].
  unfold set_unless in H. destruct (skip y) eqn:Es; [auto|]. rewrite map_get_set in H.
  case_decide as Hk; [injection H as <-; right; set_solver|auto].
Qed.

Lemma fold_set_keeps m l k : is_Some (map_get m k) → is_Some (map_get (foldl set_unless m l) k).
Proof.
  revert m; induction l as [|y l IH]; intros m Hm; simpl; [done|]. apply IH.
  unfold set_unless. destruct (skip y); [done|]. rewrite map_get_set. case_decide; [by eexists|done].
Qed.

Lemma fold_set_has m l x :
  x ∈ l → skip x = false → is_Some (map_get (foldl set_unless m l) (key x)).
Proof.
  revert m; induction l as [|y l IH]; intros m Hx Hs; simpl; [set_solver|].
  apply elem_of_cons in Hx as [->|Hx]; [|auto].
  apply fold_set_keeps. unfold set_unless. rewrite Hs, map_get_set_eq. by eexists.
Qed.
End fold_set.

Lemma any_id_iff ids o : any_id ids o = true ↔ ∃ x, o = Some x ∧ x ∈ ids.
Proof. unfold any_id. destruct o; [rewrite bool_decide_eq_true|]; naive_solver. Qed.

Lemma row_matches_iff ids row : row_matches ids row = true ↔ ∃ x, x ∈ ids ∧ row_matches [x] row = true.
Proof.
  unfold row_matches. rewrite !orb_true_iff, !any_id_iff. setoid_rewrite orb_true_iff.
  setoid_rewrite orb_true_iff. setoid_rewrite any_id_iff. set_solver.
Qed.

Lemma subagent_matches_iff ids b :
  subagent_matches ids b = true ↔ ∃ x, x ∈ ids ∧ subagent_matches [x] b = true.
Proof.
  unfold subagent_matches. rewrite !orb_true_iff, !any_id_iff. setoid_rewrite orb_true_iff.
  setoid_rewrite any_id_iff. set_solver.
Qed.

(** The tests of the search decide these relations. *)
Lemma row_matches_names x row : row_matches [x] row = true ↔ names row x.
Proof.
  unfold row_matches, names. rewrite !orb_true_iff, !any_id_iff.
  setoid_rewrite list_elem_of_singleton. naive_solver.
Qed.

Lemma elem_of_present o y : y ∈ option_list (present o) ↔ o = Some y ∧ y ≠ EmptyString.
Proof.
  unfold present. destruct o as [s|]; simpl; [|set_solver]. case_bool_decide; simpl; [set_solver|].
  rewrite list_elem_of_singleton. naive_solver.
Qed.

Lemma row_ids_names y row :
  y ∈ row_ids row ↔ names row y ∧ (y = s_session_id row ∨ y ≠ EmptyString).
Proof.
  unfold row_ids, names. rewrite elem_of_cons, elem_of_app, !elem_of_present.
  split; [naive_solver|]. intros [[?|[?|?]] [?|?]]; naive_solver.
Qed.

Lemma subagent_matches_names x b :
  subagent_matches [x] b = true ↔ b_parent_session_id b = x ∨ b_agent_id b = x.
Proof.
  unfold subagent_matches. rewrite !orb_true_iff, !any_id_iff.
  setoid_rewrite list_elem_of_singleton. naive_solver.
Qed.

Lemma subagent_ids_names db y b :
  y ∈ subagent_ids db b ↔
  y = b_parent_session_id b ∨ (y = b_agent_id b ∧ stored db y ∧ y ≠ EmptyString).
Proof.
  unfold subagent_ids. rewrite elem_of_cons. apply or_iff_compat_l.
  assert (Hi : independent_session db b = true ↔ stored db (b_agent_id b)).
  { unfold independent_session, stored. rewrite existsb_exists. setoid_rewrite bool_decide_eq_true.
    by setoid_rewrite list_elem_of_In. }
  destruct (independent_session db b && _) eqn:E.
  - bool_hyps. rewrite list_elem_of_singleton. naive_solver.
  - rewrite elem_of_nil. split; [done|]. intros (-> & Hs%Hi & He). rewrite Hs in E. simpl in E. bool_hyps. done.
Qed.

Lemma take_complete {A} n (l : list A) : length (take n l) < n → take n l = l.
Proof. rewrite length_take. intros. apply take_ge. lia. Qed.

Lemma elem_of_take_incl {A} n (l : list A) x : x ∈ take n l → x ∈ l.
Proof. intros H. rewrite <- (take_drop n l). set_solver. Qed.

(** ** A round *)

Section search.
Context (db : Hierarchy) (sid : string).

(** What the search holds was reached, whether or not it gave up. *)
Record sound (s : Search) : Prop := {
  sound_seen x : x ∈ seen s → connected db sid x;
  sound_frontier x : x ∈ frontier s → connected db sid x;
  sound_members k row : map_get (members s) k = Some row →
    row ∈ sessions db ∧ s_session_id row = k ∧ connected db sid k;
  sound_ok : map_ok (members s);
  sound_buckets k b : map_get (bucketRows s) k = Some b → b ∈ subagents db ∧ bucket_key b = k
}.

(** A searched identifier has nothing left to add. *)
Record searched (s : Search) (x : string) : Prop := {
  searched_row row : row ∈ sessions db → row_matches [x] row = true →
    is_Some (map_get (members s) (s_session_id row)) ∧
    ∀ y, y ∈ row_ids row → y ∈ seen s ∨ y ∈ frontier s;
  searched_subagent b : b ∈ subagents db → subagent_matches [x] b = true →
    (∀ y, y ∈ subagent_ids db b → y ∈ seen s ∨ y ∈ frontier s) ∧
    (subagent_ids db b = [b_parent_session_id b] → is_Some (map_get (bucketRows s) (bucket_key b)))
}.

Definition search_complete (s : Search) : Prop :=
  overflow s = false → ∀ x, x ∈ seen s → searched s x.

Definition fresh (s : Search) : Prop := ∀ x, x ∈ frontier s → x ∉ seen s.

Lemma start_sound : sound (start_search sid).
Proof.
  constructor; simpl; [set_solver| |done|constructor|done].
  intros x ->%list_elem_of_singleton. constructor.
Qed.

Lemma start_complete : search_complete (start_search sid).
Proof. intros _ x Hx. simpl in Hx. set_solver. Qed.

Lemma selected_row s row :
  sound s → row ∈ select_sessions db (frontier s) →
  row ∈ sessions db ∧ ∀ y, y ∈ row_ids row → connected db sid y.
Proof.
  intros Hs [Hm Hin]%elem_of_take_incl%elem_of_bfilter. split; [done|]. intros y Hy.
  apply row_matches_iff in Hm as (x & Hx & Hm).
  apply row_matches_names in Hm. apply row_ids_names in Hy as [Hy ?].
  eapply connected_row; [exact Hin|exact (sound_frontier _ Hs x Hx)|done..].
Qed.

Lemma selected_subagent s b :
  sound s → b ∈ select_subagents db (frontier s) →
  b ∈ subagents db ∧ ∀ y, y ∈ subagent_ids db b → connected db sid y.
Proof.
  intros Hs [Hm Hin]%elem_of_take_incl%elem_of_bfilter. split; [done|]. intros y Hy.
  apply subagent_matches_iff in Hm as (x & Hx & Hm).
  apply subagent_matches_names in Hm. apply subagent_ids_names in Hy.
  eapply connected_subagent; [exact Hin|exact (sound_frontier _ Hs x Hx)|done..].
Qed.

Abbreviation own_session := (λ b, independent_session db b && negb (bool_decide (b_agent_id b = EmptyString))).

Lemma visit_members_sound s :
  sound s → let m := foldl (λ m row, map_set m (s_session_id row) row) (members s)
                      (select_sessions db (frontier s)) in
  map_ok m ∧ ∀ k row, map_get m k = Some row →
    row ∈ sessions db ∧ s_session_id row = k ∧ connected db sid k.
Proof.
  intros Hs m. split; [apply (fold_set_ok (λ _, false) s_session_id), Hs|].
  intros k row [H|(Hin & _ & <-)]%(fold_set_from (λ _, false) s_session_id);
    [by apply (sound_members _ Hs)|].
  destruct (selected_row s row Hs Hin) as [? Hc]. split_and!; [done..|].
  apply Hc. unfold row_ids. set_solver.
Qed.

Lemma visit_seen_sound s x :
  sound s → x ∈ seen s ∪ list_to_set (frontier s) → connected db sid x.
Proof.
  intros Hs [H|H%elem_of_list_to_set]%elem_of_union;
    [by apply (sound_seen _ Hs)|by apply (sound_frontier _ Hs)].
Qed.

Lemma overflowed_sound s m :
  sound s → map_ok m → (∀ k row, map_get m k = Some row →
    row ∈ sessions db ∧ s_session_id row = k ∧ connected db sid k) →
  sound (overflowed s m (seen s ∪ list_to_set (frontier s))).
Proof.
  intros Hs Hok Hm. constructor; simpl; [intros x; by apply visit_seen_sound| |done..|].
  - apply (sound_frontier _ Hs).
  - apply (sound_buckets _ Hs).
Qed.

Lemma visit_sound s : sound s → sound (visit db s).
Proof.
  intros Hs. pose proof (visit_members_sound s Hs) as [Hok Hm]. unfold visit.
  destruct (Nat.ltb 1000 (size _)); [apply overflowed_sound; [done|apply Hs|apply (sound_members _ Hs)]|].
  destruct (Nat.ltb 1000 (length (select_sessions _ _)));
    [apply overflowed_sound; [done|apply Hs|apply (sound_members _ Hs)]|].
  destruct (Nat.ltb 1000 (length (select_subagents _ _))); [by apply overflowed_sound|].
  constructor; simpl; [intros x; by apply visit_seen_sound| |done..|].
  - intros x [_ [[[]%elem_of_nil|(row & Hr & Hx)]%elem_of_gather|(b & Hb & Hx)]%elem_of_gather]%elem_of_bfilter.
    + by eapply selected_row.
    + by eapply selected_subagent.
  - intros k b [H|(Hin & _ & <-)]%(fold_set_from own_session bucket_key);
      [by apply (sound_buckets _ Hs)|]. split; [by eapply selected_subagent|done].
Qed.

(** Nothing an earlier round found is lost. *)
Lemma searched_mono s s' x :
  (∀ k, is_Some (map_get (members s) k) → is_Some (map_get (members s') k)) →
  (∀ k, is_Some (map_get (bucketRows s) k) → is_Some (map_get (bucketRows s') k)) →
  (∀ y, y ∈ seen s ∨ y ∈ frontier s → y ∈ seen s' ∨ y ∈ frontier s') →
  searched s x → searched s' x.
Proof. intros Hm Hb Hy [Hr Hs]. constructor; naive_solver. Qed.

Lemma visit_complete s : overflow s = false → search_complete s → search_complete (visit db s).
Proof.
  intros Ho Hc Ho' x Hx. specialize (Hc Ho). revert Ho' Hx. unfold visit.
  destruct (Nat.ltb 1000 (size _)); [done|].
  destruct (Nat.ltb 1000 (length (select_sessions _ _))) eqn:Er; [done|].
  destruct (Nat.ltb 1000 (length (select_subagents _ _))) eqn:Eb; [done|]. simpl. intros _ Hx.
  apply Nat.ltb_ge in Er, Eb.
  assert (Hsel : select_sessions db (frontier s) = bfilter (row_matches (frontier s)) (sessions db))
    by (unfold select_sessions in *; apply take_complete; lia).
  assert (Hsub : select_subagents db (frontier s) = bfilter (subagent_matches (frontier s)) (subagents db))
    by (unfold select_subagents in *; apply take_complete; lia).
  apply elem_of_union in Hx as [Hx|Hx%elem_of_list_to_set].
  { apply (searched_mono s); [..|by apply Hc]; simpl.
    - intros k. apply (fold_set_keeps (λ _, false) s_session_id).
    - intros k. apply (fold_set_keeps own_session bucket_key).
    - intros y [?|?]; left; set_solver. }
  set (sn := seen s ∪ list_to_set (frontier s)).
  assert (Hnext : ∀ l y, y ∈ l → y ∈ sn ∨ y ∈ bfilter (λ id, negb (bool_decide (id ∈ sn))) l).
  { intros l y Hy. destruct (decide (y ∈ sn)); [by left|right]. apply elem_of_bfilter.
    by rewrite bool_decide_eq_false_2. }
  constructor; simpl.
  - intros row Hrow Hm.
    assert (Hin : row ∈ select_sessions db (frontier s)).
    { rewrite Hsel. apply elem_of_bfilter. split; [|done]. apply row_matches_iff. by exists x. }
    split; [by apply (fold_set_has (λ _, false) s_session_id)|]. intros y Hy. apply Hnext.
    apply elem_of_gather. left. apply elem_of_gather. right. by exists row.
  - intros b Hb Hm.
    assert (Hin : b ∈ select_subagents db (frontier s)).
    { rewrite Hsub. apply elem_of_bfilter. split; [|done]. apply subagent_matches_iff. by exists x. }
    split; [|intros Hids; apply (fold_set_has own_session bucket_key); [done|];
             unfold subagent_ids in Hids; by destruct (_ && _)].
    intros y Hy. apply Hnext. apply elem_of_gather. right. by exists b.
Qed.

(** ** The loop ends *)

(** A round that does not give up enlarges the set of seen identifiers. *)
Lemma visit_grows s :
  fresh s → frontier s ≠ [] → overflow (visit db s) = false →
  fresh (visit db s) ∧ size (seen s) < size (seen (visit db s)) ≤ 1000.
Proof.
  intros Hf Hne. unfold visit.
  destruct (Nat.ltb 1000 (size _)) eqn:Esz; [done|].
  destruct (Nat.ltb 1000 (length (select_sessions _ _))); [done|].
  destruct (Nat.ltb 1000 (length (select_subagents _ _))); [done|]. simpl. intros _.
  apply Nat.ltb_ge in Esz. split.
  - intros x [Hx _]%elem_of_bfilter. by bool_hyps.
  - split; [|done]. destruct (frontier s) as [|x l] eqn:El; [done|].
    apply subset_size. split; [set_solver|]. intros Hsub. apply (Hf x); [rewrite El; left|].
    apply Hsub. simpl. set_solver.
Qed.

Lemma search_total fuel s :
  fresh s → size (seen s) ≤ 1000 → 1001 ≤ fuel + size (seen s) → is_Some (search fuel db s).
Proof.
  revert s. induction fuel as [|fuel IH]; intros s Hf Hle Hfuel; simpl; unfold finished.
  { lia. }
  destruct (frontier s) as [|x l] eqn:El; [by eexists|].
  destruct (overflow s); [by eexists|].
  destruct (overflow (visit db s)) eqn:Ev.
  { exists (visit db s). destruct fuel; simpl; unfold finished; rewrite Ev;
      by destruct (frontier (visit db s)). }
  destruct (visit_grows s Hf) as (Hf' & Hlt & Hle'); [by rewrite El|done|].
  apply IH; [done..|lia].
Qed.

Lemma visit_seen s : seen (visit db s) = seen s ∪ list_to_set (frontier s).
Proof. unfold visit. by repeat destruct (Nat.ltb _ _). Qed.

(** What a finished search is. *)
Lemma search_result fuel s s' :
  sound s → search_complete s → sid ∈ seen s ∨ sid ∈ frontier s → search fuel db s = Some s' →
  sound s' ∧ search_complete s' ∧ (sid ∈ seen s' ∨ sid ∈ frontier s') ∧ finished s' = true.
Proof.
  revert s. induction fuel as [|fuel IH]; intros s Hs Hc Hsid; simpl.
  { destruct (finished s) eqn:E; [|done]. by intros [= <-]. }
  destruct (finished s) eqn:E; [by intros [= <-]|]. apply IH; [by apply visit_sound| |].
  - apply visit_complete; [|done]. unfold finished in E. by destruct (frontier s).
  - left. rewrite visit_seen. set_solver.
Qed.
End search.

(** Stated once: comparing the two by unfolding runs the search. *)
Lemma component_search db sid : component db sid = search 1001 db (start_search sid).
Proof. reflexivity. Qed.

(** The search of a component ends, whatever the tables hold. *)
Lemma component_total db sid : is_Some (component db sid).
Proof.
  apply search_total; [intros x _; simpl; set_solver| |]; change (seen _) with (∅ : gset string);
    rewrite size_empty; lia.
Qed.

(** A search that ends without giving up has found the sessions connected with
    the first identifier and no other: the identifiers it saw are the connected
    ones, its members the rows of the connected sessions. *)
Lemma component_found db sid s :
  component db sid = Some s → overflow s = false →
  (∀ x, x ∈ seen s ↔ connected db sid x) ∧
  (∀ x, x ∈ seen s → searched db s x) ∧ frontier s = [].
Proof.
  rewrite component_search. generalize 1001%nat as fuel. intros fuel Hs Ho.
  destruct (search_result db sid _ _ _ (start_sound db sid) (start_complete db sid)
    ltac:(right; left) Hs) as (Hsound & Hc & Hsid & Hfin). specialize (Hc Ho).
  assert (Hfr : frontier s = []) by (unfold finished in Hfin; destruct (frontier s); congruence).
  rewrite Hfr in Hsid. split; [|by split]. intros x. split; [apply (sound_seen _ _ _ Hsound)|].
  induction 1 as [|row x y Hrow _ IH Hm Hy He|b x y Hb _ IH Hm Hy].
  - set_solver.
  - apply row_matches_names in Hm. assert (Hin : y ∈ row_ids row) by (by apply row_ids_names).
    destruct (searched_row _ _ _ (Hc x IH) row Hrow Hm) as [_ H]. destruct (H y Hin); [done|].
    rewrite Hfr in *. set_solver.
  - apply subagent_matches_names in Hm. apply subagent_ids_names in Hy.
    destruct (searched_subagent _ _ _ (Hc x IH) b Hb Hm) as [H _]. destruct (H y Hy); [done|].
    rewrite Hfr in *. set_solver.
Qed.

Lemma component_sound db sid s : component db sid = Some s → sound db sid s.
Proof.
  rewrite component_search. generalize 1001%nat as fuel. intros fuel Hs. by destruct (search_result db sid _ _ _ (start_sound db sid) (start_complete db sid)
    ltac:(right; left) Hs).
Qed.

Lemma row_matches_self row : row_matches [s_session_id row] row = true.
Proof. unfold row_matches, any_id. rewrite bool_decide_eq_true_2 by set_solver. done. Qed.

(** The search for the sessions that must be handled together ends on every
    database.  Unless it gave up on a component of more than 1000 rows, its
    members are exactly the stored sessions connected with the given one through
    parents, roots and subagents that are sessions: none is missed, and no
    unrelated session is drawn in. *)
Theorem component_exact db sid :
  unique_sessions db →
  ∃ s, component db sid = Some s ∧
    (overflow s = false → ∀ row, row ∈ sessions db →
      map_get (members s) (s_session_id row) = Some row ↔ connected db sid (s_session_id row)).
Proof.
  intros Hu. destruct (component_total db sid) as [s Hs]. exists s. split; [done|].
  intros Ho row Hrow. pose proof (component_sound _ _ _ Hs) as Hsound.
  destruct (component_found _ _ _ Hs Ho) as (Hseen & Hsearched & _). split.
  - by intros (_ & _ & ?)%(sound_members _ _ _ Hsound).
  - intros Hc%Hseen.
    destruct (searched_row _ _ _ (Hsearched _ Hc) row Hrow (row_matches_self row)) as [[row' Hr] _].
    destruct (sound_members _ _ _ Hsound _ _ Hr) as (Hin & Hid & _).
    rewrite Hr. f_equal. by apply Hu.
Qed.

(** ** The ancestry test *)

Section cyclic_facts.
Context (parents : string → list string).

(** [p] is a parent of [x]. *)
Definition ascends (x p : string) : Prop := p ∈ parents x.

Definition rooted (x : string) : Prop := Acc (flip ascends) x.

(** No chain of parents comes back to a rooted identifier. *)
Lemma rooted_no_cycle x : rooted x → ¬ tc ascends x x.
Proof.
  induction 1 as [x _ IH]. intros Hx. inversion Hx as [? ? Hs|? y ? Hs Hy]; subst.
  - by apply (IH x Hs).
  - apply (IH y Hs). eapply tc_r; eauto.
Qed.

Abbreviation State := (gset string * gset string)%type.

(** What a call answers: on [true] there is a cycle; on [false] the state only
    gains rooted identifiers. *)
Definition answer (vis don : gset string) (reached : list string) (r : bool * State) : Prop :=
  if fst r then ∃ x, tc ascends x x
  else fst (snd r) = vis ∧ don ⊆ snd (snd r) ∧
       (∀ x, x ∈ reached → x ∈ snd (snd r)) ∧ ∀ x, x ∈ snd (snd r) → rooted x.

Definition answers (f : string → State → option (bool * State)) : Prop :=
  ∀ id vis don r, (∀ x, x ∈ don → rooted x) → (∀ v, v ∈ vis → tc ascends v id) →
    f id (vis, don) = Some r → answer vis don [id] r.

Lemma visit_parents_answer f ps vis don r :
  answers f → (∀ x, x ∈ don → rooted x) → (∀ p v, p ∈ ps → v ∈ vis → tc ascends v p) →
  visit_parents f ps (vis, don) = Some r → answer vis don ps r.
Proof.
  intros Hf. revert don. induction ps as [|p ps IH]; intros don Hdon Hvis; simpl.
  { intros [= <-]. unfold answer. simpl. set_solver. }
  destruct (f p (vis, don)) as [[b [vis' don']]|] eqn:Ef; simpl; [|done].
  apply Hf in Ef; [|done|intros; apply Hvis; [left|done]]. unfold answer in Ef. simpl in Ef.
  destruct b; [by intros [= <-]|]. destruct Ef as (-> & Hsub & Hp & Hdon').
  intros H%IH; [|done|intros; apply Hvis; [by right|done]]. revert H. unfold answer.
  destruct r as [[] [vis'' don'']]; simpl; [done|]. intros (-> & Hs & Hr & Hd).
  split_and!; [done|set_solver| |done]. intros x [->|Hx]%elem_of_cons; [|auto].
  apply Hs, Hp. left.
Qed.

Lemma cyclic_answers fuel : answers (cyclic parents fuel).
Proof.
  induction fuel as [|fuel IH]; intros id vis don r Hdon Hvis; simpl; [done|].
  case_bool_decide as Hid; [intros [= <-]; exists id; auto|].
  case_bool_decide as Hd; [intros [= <-]; unfold answer; simpl; set_solver|].
  destruct (visit_parents _ _ _) as [[b [vis' don']]|] eqn:Ev; simpl; [|done].
  apply (visit_parents_answer _ _ _ _ _ IH Hdon) in Ev.
  2: { intros p v Hp [->%elem_of_singleton|Hv]%elem_of_union; [by apply tc_once|].
       eapply tc_r; [by apply Hvis|done]. }
  unfold answer in Ev. simpl in Ev.
  destruct b; [by intros [= <-]|]. destruct Ev as (-> & Hsub & Hps & Hdon').
  intros [= <-]. unfold answer. simpl. split_and!; [apply leibniz_equiv; set_solver|set_solver..|].
  intros x [->%elem_of_singleton|Hx]%elem_of_union; [|auto].
  constructor. intros p Hp. apply Hdon', Hps, Hp.
Qed.

(** The fuel is enough: every nested call but the last starts a new identifier
    that has parents. *)
Context (dom : gset string).

Definition enough (n : nat) (f : string → State → option (bool * State)) : Prop :=
  ∀ id vis don, size (dom ∖ vis) + 2 ≤ n →
    ∃ r, f id (vis, don) = Some r ∧ (fst r = false → fst (snd r) = vis).

Lemma visit_parents_enough n f ps vis don :
  enough n f → size (dom ∖ vis) + 2 ≤ n →
  ∃ r, visit_parents f ps (vis, don) = Some r ∧ (fst r = false → fst (snd r) = vis).
Proof.
  intros Hf Hn. revert don. induction ps as [|p ps IH]; intros don; simpl; [by eexists|].
  destruct (Hf p vis don Hn) as ([b [vis' don']] & -> & Hv). simpl in *.
  destruct b; [by eexists|]. rewrite (Hv eq_refl). apply IH.
Qed.

Hypothesis parents_dom : ∀ x, parents x ≠ [] → x ∈ dom.

Lemma cyclic_enough fuel : enough fuel (cyclic parents fuel).
Proof using parents_dom.
  induction fuel as [|fuel IH]; intros id vis don Hn; simpl; [lia|].
  case_bool_decide as Hid; [by eexists|]. case_bool_decide as Hd; [by eexists|].
  assert (∃ r, visit_parents (cyclic parents fuel) (parents id) ({[id]} ∪ vis, don) = Some r ∧
               (fst r = false → fst (snd r) = {[id]} ∪ vis)) as (r & -> & Hr).
  { destruct (parents id) as [|p ps] eqn:Ep; [by eexists|].
    apply (visit_parents_enough fuel); [done|].
    assert (id ∈ dom) by (apply parents_dom; by rewrite Ep).
    assert (size (dom ∖ ({[id]} ∪ vis)) < size (dom ∖ vis)); [|lia].
    apply subset_size. split; [set_solver|]. intros Hs. specialize (Hs id). set_solver. }
  simpl. destruct r as [[] [vis' don']]; simpl in *; [by eexists|].
  eexists. split; [done|]. simpl. intros _. rewrite (Hr eq_refl). apply leibniz_equiv. set_solver.
Qed.

Lemma some_cycle_spec fuel rows don :
  size dom + 2 ≤ fuel → (∀ x, x ∈ don → rooted x) →
  ∃ b, some_cycle parents fuel rows (∅, don) = Some b ∧
    if b then (∃ row, row ∈ rows ∧ s_parent_session_id row = Some (s_session_id row))
              ∨ ∃ x, tc ascends x x
    else ∀ row, row ∈ rows → s_parent_session_id row ≠ Some (s_session_id row) ∧ rooted (s_session_id row).
Proof using parents_dom.
  intros Hf. revert don. induction rows as [|row rows IH]; intros don Hdon; simpl.
  { exists false. split; [done|]. set_solver. }
  case_bool_decide as Hself; [exists true; split; [done|left; set_solver]|].
  destruct (cyclic_enough fuel (s_session_id row) ∅ don) as (r & Hc & _);
    [by replace (dom ∖ ∅) with dom by (apply leibniz_equiv; set_solver)|].
  rewrite Hc. simpl. apply cyclic_answers in Hc; [|done|set_solver]. unfold answer in Hc.
  destruct r as [[] [vis' don']]; simpl in *; [exists true; auto|]. destruct Hc as (-> & _ & Hrow & Hdon').
  destruct (IH don' Hdon') as (b & -> & Hb). exists b. split; [done|]. destruct b.
  - destruct Hb as [(r & ? & ?)|?]; [left; exists r; split; [by right|done]|by right].
  - intros r [->|Hr]%elem_of_cons; [|auto]. split; [done|]. apply Hdon', Hrow. left.
Qed.
End cyclic_facts.

Lemma ancestry_dom rows x :
  ancestry rows x ≠ [] → ∃ row, row ∈ rows ∧ s_session_id row = x.
Proof.
  unfold ancestry. destruct (map_get _ x) eqn:E; [|done]. intros _.
  apply map_get_Some_elem, map_of_elem in E as (row & ? & -> & _). by exists row.
Qed.

Lemma size_list_to_set_le (l : list string) : size (list_to_set l : gset string) ≤ length l.
Proof.
  induction l as [|x l IH]; cbn [length]; [by rewrite list_to_set_nil, size_empty|].
  rewrite list_to_set_cons, size_union_alt, size_singleton.
  pose proof (subseteq_size (list_to_set l ∖ {[x]}) (list_to_set l : gset string) ltac:(set_solver)). lia.
Qed.

(** The ancestry test ends, and answers whether a row is its own parent or some
    identifier is its own ancestor. *)
Lemma cycle_found_iff rows :
  ∃ b, cycle_found rows = Some b ∧
    (b = true ↔ (∃ row, row ∈ rows ∧ s_parent_session_id row = Some (s_session_id row))
                ∨ ∃ x, tc (ascends (ancestry rows)) x x).
Proof.
  set (dom := list_to_set (s_session_id <$> rows) : gset string).
  assert (Hdom : ∀ x, ancestry rows x ≠ [] → x ∈ dom).
  { intros x (row & ? & <-)%ancestry_dom. apply elem_of_list_to_set, list_elem_of_fmap. by exists row. }
  destruct (some_cycle_spec (ancestry rows) dom Hdom (S (S (length rows))) rows ∅) as (b & Hb & Hspec).
  { assert (size dom ≤ length rows); [|lia].
    rewrite <- (length_fmap s_session_id rows). apply size_list_to_set_le. }
  { set_solver. }
  exists b. split; [done|]. destruct b; [by split|]. split; [done|]. intros Hcy. exfalso.
  destruct Hcy as [(row & Hr & Hp)|(x & Hx)]; [by apply (Hspec row Hr)|].
  assert (ancestry rows x ≠ []) as (row & Hr & <-)%ancestry_dom.
  { assert (∃ y, ascends (ancestry rows) x y) as [y Hy] by (inversion Hx; eauto).
    unfold ascends in Hy. intros E. rewrite E in Hy. set_solver. }
  apply (rooted_no_cycle _ _ (proj2 (Hspec row Hr)) Hx).
Qed.
