(* ===== verification/LifecycleEligibility.v ===== *)
(** * LifecycleEligibility: the facts an archive or purge is decided on
    (relay/src/session-lifecycle/eligibility.ts).

    [inspect] is [inspectLifecycleEligibility]: it collects the component of a
    session ([LifecycleComponent]), reads with one statement whether anything
    is still pending for its members and when they were last active, and asks
    [evaluateLifecycle] for the prediction.  A table is a list of the columns
    the statement reads; times are in microseconds.

    The database formats times as text: [PgText] is what the code relies on in
    that text, [pg_text] an implementation that meets it.  The driver turns
    other time columns into [Date] objects, which keep milliseconds.  Answers
    of the clock and of ICU's collation are arguments.  The optional exact
    statistics, which no decision reads, are left out. *)

From S2P Require Import Prelude JsValue JsMap LifecycleTime LifecyclePolicy LifecycleComponent.

#[local] Open Scope Z_scope.

(** ** The text of times *)

(** [to_char(t AT TIME ZONE 'UTC', 'YYYY-MM-DD"T"HH24:MI:SS.US"Z"')] is never
    empty, and where it is read as a timestamp it is the time printed. *)
Class PgText := {
  to_char : Z → string;
  to_char_nonempty t : to_char t ≠ EmptyString;
  to_char_reads t v : timestampMicros (Text (to_char t)) = Returns v → v = t
}.

(** ** Tables *)

Record AdmissionRow : Type := {
  ad_state : string; ad_session_id : string; ad_canonical_session_id : option string;
  ad_session_aliases : list string }.
(** A row known by its session and its state. *)
Record StateRow : Type := { st_session_id : option string; st_state : string }.
Record OutboxRow : Type := { ob_session_id : option string; ob_delivered_at : option Z }.
Record EventRow : Type := {
  e_id : Z; e_session_id : string; e_event_type : string; e_created_at : option Z;
  e_effect_status : string }.
Record InboxEntry : Type := {
  i_session_id : option string; i_event_type : string; i_resync : option string;
  i_received_at : Z; i_status : Z; i_claimed_at : option Z }.
Record DocumentRow : Type := { d_session_id : string; d_committed_at : Z }.

Record LifecycleTables : Type := {
  hierarchy : Hierarchy;
  session_message_admissions : list AdmissionRow;
  quota_reservations : list StateRow;
  realtime_outbox : list OutboxRow;
  attention_items : list StateRow;
  session_document_uploads : list string;
  collaboration_calls : list StateRow;
  deleted_sessions : list string;
  extension_source_outbox : list (option string);
  events : list EventRow;
  attention_cursor : option Z;
  event_inbox : list InboxEntry;
  session_document_versions : list DocumentRow
}.

(** ** The statement of lines 61-84 *)

Definition quiet_types : list string :=
  ["session_discovered"; "session_status"; "session_meta"; "command_list"; "subagent_discovered"]%string.

Definition in_state (ids states : list string) (r : StateRow) : bool :=
  any_id ids (st_session_id r) && bool_decide (st_state r ∈ states).

Definition admission_open (ids : list string) (r : AdmissionRow) : bool :=
  bool_decide (ad_state r ∈ ["issued"; "uncertain"]%string) &&
  (any_id ids (Some (ad_session_id r)) || any_id ids (ad_canonical_session_id r)
   || existsb (λ a, any_id ids (Some a)) (ad_session_aliases r)).

Definition undelivered (ids : list string) (r : OutboxRow) : bool :=
  any_id ids (ob_session_id r) && bool_decide (ob_delivered_at r = None).

Definition unprojected (ids : list string) (cursor : option Z) (e : EventRow) : bool :=
  any_id ids (Some (e_session_id e)) && (default 0 cursor <? e_id e).

Definition effect_waits (ids : list string) (e : EventRow) : bool :=
  any_id ids (Some (e_session_id e)) && bool_decide (e_effect_status e = "pending"%string).

Definition inbox_waits (ids : list string) (r : InboxEntry) : bool :=
  any_id ids (i_session_id r) && bool_decide (i_status r ∈ [0; 1]).

Definition event_time (ids : list string) (e : EventRow) : option Z :=
  if any_id ids (Some (e_session_id e)) && negb (bool_decide (e_event_type e ∈ quiet_types))
  then e_created_at e else None.

Definition received_time (ids : list string) (r : InboxEntry) : option Z :=
  if any_id ids (i_session_id r) && negb (bool_decide (i_event_type r ∈ quiet_types))
     && negb (bool_decide (i_resync r = Some "true"%string))
  then Some (i_received_at r) else None.

Definition claimed_time (ids : list string) (r : InboxEntry) : option Z :=
  if any_id ids (i_session_id r) && (i_status r =? 1) then i_claimed_at r else None.

Definition committed_time (ids : list string) (r : DocumentRow) : option Z :=
  if any_id ids (Some (d_session_id r)) then Some (d_committed_at r) else None.

(** [max] of a column and GREATEST, which skip NULLs. *)
Definition newest (times : list Z) : option Z :=
  match times with [] => None | t :: ts => Some (foldl Z.max t ts) end.

Definition data_times (db : LifecycleTables) (ids : list string) : list Z :=
  omap (event_time ids) (events db) ++ omap (received_time ids) (event_inbox db)
  ++ omap (claimed_time ids) (event_inbox db)
  ++ omap (committed_time ids) (session_document_versions db).

(** The row [p]. *)
Record Pending : Type := {
  p_admission : bool; p_outbox : bool; p_attention : bool; p_uploads : bool;
  p_collaboration : bool; p_tombstone : bool; p_extension : bool; p_projection : bool;
  pending_effects : Z; pending_inbox : Z; latest_data_at : option string
}.

Section inspect.
Context `{PgText}.

Definition select_pending (db : LifecycleTables) (ids : list string) : Pending := {|
  p_admission := existsb (admission_open ids) (session_message_admissions db)
    || existsb (in_state ids ["pending"; "uncertain"]%string) (quota_reservations db);
  p_outbox := existsb (undelivered ids) (realtime_outbox db);
  p_attention := existsb (in_state ids ["open"; "snoozed"; "submitting"; "result_unknown"]%string)
    (attention_items db);
  p_uploads := existsb (λ s, any_id ids (Some s)) (session_document_uploads db);
  p_collaboration :=
    existsb (in_state ids ["pending"; "dispatched"; "accepted"; "blocked"; "uncertain"]%string)
      (collaboration_calls db);
  p_tombstone := existsb (λ s, any_id ids (Some s)) (deleted_sessions db);
  p_extension := existsb (any_id ids) (extension_source_outbox db);
  p_projection := existsb (unprojected ids (attention_cursor db)) (events db);
  pending_effects := len (bfilter (effect_waits ids) (events db));
  pending_inbox := len (bfilter (inbox_waits ids) (event_inbox db));
  latest_data_at := to_char <$> newest (data_times db ids)
|}.

(** ** Activity *)

(** A time column as the driver returns it. *)
Definition pg_date (t : Z) : Timestamp := DateValue (Some (t / 1000)).

Definition activity_time (row : MemberRow) : option string := to_char <$> s_last_activity_at row.

(** Truthiness of a source: NULL and the empty text are dropped. *)
Definition truthy_source (source : option Timestamp) : list Timestamp :=
  match source with
  | Some (Text s) => if bool_decide (s = EmptyString) then [] else [Text s]
  | Some (DateValue d) => [DateValue d]
  | None => []
  end.

(** Lines 93-97. *)
Definition activitySources (rows : list MemberRow) (bs : list SubagentRow) (p : Pending)
  : list (option Timestamp) :=
  flat_map (λ row, [Text <$> activity_time row; pg_date <$> s_last_business_activity_at row;
                    pg_date <$> s_turn_started_at row]) rows
  ++ map (λ b, pg_date <$> b_created_at b) bs
  ++ [Text <$> latest_data_at p]
  ++ flat_map (λ row, match present (activity_time row) with
                      | Some _ => if s_activity_verified row then [] else [pg_date <$> s_created_at row]
                      | None => [pg_date <$> s_created_at row]
                      end) rows.

(** [sources.map(timestampMicros)]: the first unreadable one throws. *)
Fixpoint read_all (l : list Timestamp) : outcome (list Z) :=
  match l with
  | [] => Returns []
  | t :: l' => try! v := timestampMicros t in try! vs := read_all l' in Returns (v :: vs)
  end.

(** [new Date(clock).getTime()] of a text with microseconds. *)
Definition date_ms (clock : string) : option Z :=
  match timestampMicros (Text clock) with Returns v => Some (v / 1000) | Throws _ => None end.

Definition inactive_states : list string :=
  ["idle"; "exited"; "completed"; "failed"; "stopped"; "terminated"; "abandoned"; "error"; "killed"]%string.
Definition active_states : list string :=
  ["running"; "busy"; "retry"; "waiting"; "waiting_approval"; "waiting_question"]%string.
Definition buckets : list string := ["claude_subagent"; "codex_subagent"; "zcode_subagent"]%string.

Definition status_in (set : list string) (st : option string) : bool := any_id set st.

(** Lines 102-105. *)
Definition stale_component (clock : string) (config : SessionLifecycleConfig) (latestMicros : option Z)
  (gave_up : bool) (root : option MemberRow) (rows : list MemberRow) (bs : list SubagentRow) : bool :=
  match latestMicros, date_ms clock, root with
  | Some m, Some now, Some r =>
      (archiveDays config * 86400000 <? now - m ÷ 1000) && negb gave_up
      && forallb (λ row, bool_decide (s_user_id row = s_user_id r)
                         && bool_decide (s_daemon_owner row = s_user_id r)) rows
      && forallb (λ row, status_in inactive_states (s_status row) || status_in active_states (s_status row)
                         || status_in ["unknown"; "disconnected"; "shell"]%string (s_status row)) rows
      && forallb (λ b, bool_decide (b_kind b ∈ buckets)
                       && (status_in inactive_states (b_status b) || status_in active_states (b_status b))) bs
  | _, _, _ => false
  end.

(** ** Reasons against *)

Definition known_owner (root : option MemberRow) : option Z :=
  match root with
  | Some r => match s_user_id r with Some u => if u =? 0 then None else Some u | None => None end
  | None => None
  end.

(** [options.ownCoolingEpochs?.get(id) === epoch]. *)
Definition own_cooling (own : jsmap string string) (id epoch : string) : bool :=
  bool_decide (map_get own id = Some epoch).

(** The body of the loop of lines 106-114. *)
Definition row_blockers (own : jsmap string string) (root : option MemberRow) (stale : bool)
  (blocked : list LifecycleBlocker) (row : MemberRow) : list LifecycleBlocker :=
  let b1 := add_if (match known_owner root with
                    | None => true
                    | Some u => negb (bool_decide (s_user_id row = Some u))
                                || negb (bool_decide (s_daemon_owner row = Some u))
                    end) owner_unknown blocked in
  let b2 := add_if (negb stale && negb (s_activity_verified row)) activity_unverified b1 in
  let b3 := if negb stale && (bool_decide (s_turn_started_at row ≠ None) || status_in active_states (s_status row))
            then add_reason b2 session_active
            else add_if (negb stale && negb (status_in inactive_states (s_status row))) status_unknown b2 in
  let b4 := add_if (bool_decide (s_content_state row = Deleting)) session_deleting b3 in
  let b5 := add_if (bool_decide (s_content_state row = Deleted)) session_deleted b4 in
  add_if (bool_decide (s_content_state row = Cooling)
          && negb (own_cooling own (s_session_id row) (s_epoch row))) cooling_pending b5.

(** Lines 115-119. *)
Definition bucket_blockers (stale : bool) (blocked : list LifecycleBlocker) (b : SubagentRow)
  : list LifecycleBlocker :=
  let b1 := add_if (negb (bool_decide (b_kind b ∈ buckets))) dependency_unknown blocked in
  if negb stale && status_in active_states (b_status b) then add_reason b1 session_active
  else add_if (negb stale && negb (status_in inactive_states (b_status b))) status_unknown b1.

(** Lines 120-121, in the order of the object's entries. *)
Definition protections (p : Pending) (stale : bool) : list (bool * LifecycleBlocker) :=
  [(p_admission p, admission_pending);
   ((0 <? pending_inbox p) && negb stale, inbox_pending);
   (p_outbox p, outbox_pending);
   ((0 <? pending_effects p) && negb stale, effect_pending);
   (p_attention p, attention_pending);
   (p_uploads p, document_upload_pending);
   (p_collaboration p, collaboration_pending);
   (p_tombstone p, session_deleted);
   (p_extension p, extension_pending);
   (p_projection p, attention_pending)].

Definition protect (blocked : list LifecycleBlocker) (fr : bool * LifecycleBlocker)
  : list LifecycleBlocker := add_if (fst fr) (snd fr) blocked.

(** ** Demonstration data *)

Definition isAppReviewDemoDaemon (daemonId : option string) : bool :=
  bool_decide (daemonId = Some "app-review-demo-host"%string).

Definition isAppReviewDemoSession (sessionId : string) : bool :=
  String.prefix "app-review-demo-" sessionId.

Definition is_demo (row : MemberRow) : bool :=
  bool_decide (s_source row = Some "app_review_demo"%string)
  || isAppReviewDemoSession (s_session_id row) || isAppReviewDemoDaemon (s_daemon_id row).

(** ** The inspection *)

(** [rows.some(row => row.activity_time && micros(row.activity_time) <
    micros(config.effectiveAt))], left to right; either reading may throw. *)
Fixpoint any_before (effective : string) (rows : list MemberRow) : outcome bool :=
  match rows with
  | [] => Returns false
  | row :: rows' =>
      match present (activity_time row) with
      | None => any_before effective rows'
      | Some s =>
          try! t := timestampMicros (Text s) in
          try! e := timestampMicros (Text effective) in
          if t <? e then Returns true else any_before effective rows'
      end
  end.

Definition is_historical (config : SessionLifecycleConfig) (rows : list MemberRow) : outcome bool :=
  match present (effectiveAt config) with
  | Some e => any_before e rows
  | None => Returns false
  end.

Record StaleEvidence : Type := {
  ev_stale_activityAt : option string;
  ev_pendingEffects : Z;
  ev_pendingInbox : Z;
  ev_states : jsmap string (option string)
}.

Record LifecycleEligibility : Type := {
  el_root : option MemberRow;
  el_members : list MemberRow;
  el_sessionIds : list string;
  el_evaluatedAt : string;
  el_prediction : LifecycleEvaluation;
  el_staleEvidence : option StaleEvidence
}.

Context (localeCompare : string → string → Z).

Definition collated (r r' : MemberRow) : Prop := localeCompare (s_session_id r) (s_session_id r') ≤ 0.

#[global] Instance collated_dec : RelDecision collated.
Proof. intros r r'. unfold collated. apply _. Defined.

(** [dependency_unknown] of lines 56-60: an incomplete or cyclic component. *)
Definition dependency_blocker (s : Search) (root : option MemberRow) (cyclic : bool)
  : list LifecycleBlocker :=
  add_if cyclic dependency_unknown
    (add_if (overflow s || match root with None => true | Some _ => false end
             || existsb (λ id, negb (map_has (members s) id)) (elements (seen s)))
       dependency_unknown []).

(** The input of lines 126-129. *)
Definition lifecycle_input (own : jsmap string string) (sessionId : string) (root : option MemberRow)
  (rows : list MemberRow) (latestAt : option string) (stale historical_rows : bool)
  (blocked : list LifecycleBlocker) : LifecycleInput := {|
  ownerUserId := r ← root; s_user_id r;
  scope := if existsb is_demo rows then Demo
           else if existsb s_team_bound rows then Team else Personal;
  activityAt := match latestAt with Some t => Some t | None => r ← root; activity_time r end;
  activityVerified := stale || match root with Some r => s_activity_verified r | None => false end;
  dependencyActivityAt := Some (if stale then [] else map activity_time rows);
  status := r ← root; s_status r;
  turnActive := match root with Some r => bool_decide (s_turn_started_at r ≠ None) | None => false end;
  staleSnapshot := stale;
  archiveReason := r ← root; s_archive_reason r;
  contentState := match root with
                  | Some r => if bool_decide (s_content_state r = Cooling)
                                 && own_cooling own sessionId (s_epoch r) then Hot
                              else s_content_state r
                  | None => Hot
                  end;
  historical := historical_rows;
  pinned := false;
  blockers := blocked |}.

Definition evidence (latestAt : option string) (p : Pending) (rows : list MemberRow)
  (bs : list SubagentRow) : StaleEvidence := {|
  ev_stale_activityAt := latestAt;
  ev_pendingEffects := pending_effects p;
  ev_pendingInbox := pending_inbox p;
  ev_states := map_of fst snd (map (λ r, (s_session_id r, s_status r)) rows
                               ++ map (λ b, (bucket_key b, b_status b)) bs) |}.

(** All reasons the inspection itself adds, in the order of the source. *)
Definition collect_blockers (own : jsmap string string) (s : Search) (root : option MemberRow)
  (rows : list MemberRow) (bs : list SubagentRow) (p : Pending) (stale cyclic : bool)
  : list LifecycleBlocker :=
  let b0 := dependency_blocker s root cyclic in
  let b1 := fold_left (row_blockers own root stale) rows b0 in
  let b2 := fold_left (bucket_blockers stale) bs b1 in
  fold_left protect (protections p stale) b2.

(** [inspectLifecycleEligibility]; the outer [option] is the fuel of the two
    searches. *)
Definition inspect (db : LifecycleTables) (sessionId : string) (config : SessionLifecycleConfig)
  (clock : string) (own : jsmap string string) : option (outcome LifecycleEligibility) :=
  s ← component (hierarchy db) sessionId;
  let root := map_get (members s) sessionId in
  let rows := merge_sort collated (map snd (members s)) in
  let ids := map s_session_id rows in
  let bs := map snd (bucketRows s) in
  cyc ← cycle_found rows;
  let p := select_pending db ids in
  Some (
    try! times := read_all (flat_map truthy_source (activitySources rows bs p)) in
    let latestMicros := newest times in
    try! latestAt := match latestMicros with
                     | None => Returns None
                     | Some m => try! t := microsTimestamp m in Returns (Some t)
                     end in
    let stale := stale_component clock config latestMicros (overflow s) root rows bs in
    let blocked := collect_blockers own s root rows bs p stale cyc in
    try! hist := is_historical config rows in
    try! prediction :=
      evaluateLifecycle (lifecycle_input own sessionId root rows latestAt stale hist blocked)
        (Text clock) config in
    Returns {|
      el_root := root; el_members := rows; el_sessionIds := ids; el_evaluatedAt := clock;
      el_prediction := prediction;
      el_staleEvidence := if stale then Some (evidence latestAt p rows bs) else None |}).
End inspect.
