(* ===== verification/LifecycleEligibilitySpec.v ===== *)
(** * LifecycleEligibilitySpec: what a prediction guarantees for every member

    An action predicted for one session reaches all sessions of its component:
    a purge deletes them together.  [eligibility_safe] states what is known of
    each of them when [inspect] predicts an action; it is proved against
    [PgText], what the code relies on in the database's time texts, and
    [component_found], the exactness of the component. *)

From stdpp Require Import relations.
From S2P Require Import Prelude JsValue JsMap LifecycleTime LifecyclePolicy LifecycleComponent LifecycleEligibility.

#[local] Open Scope Z_scope.

#[local] Arguments any_id : simpl never.
#[local] Arguments timestampMicros _ : simpl never.

(** ** No reason was added *)

(** A loop that only adds reasons ends empty only if no step added one. *)
Lemma fold_blockers_nil {A} (f : list LifecycleBlocker → A → list LifecycleBlocker) l acc :
  (∀ a x, f a x = [] → a = []) → fold_left f l acc = [] → acc = [] ∧ ∀ x, x ∈ l → f [] x = [].
Proof.
  intros Hf. revert acc; induction l as [|x l IH]; intros acc; simpl; [set_solver|].
  intros [Hx Hl]%IH. pose proof (Hf _ _ Hx) as ->. split; [done|].
  intros y [->|?]%elem_of_cons; auto.
Qed.

Lemma row_blockers_nil own root stale blocked row :
  row_blockers own root stale blocked row = [] →
  blocked = [] ∧
  (∃ u, known_owner root = Some u ∧ s_user_id row = Some u ∧ s_daemon_owner row = Some u) ∧
  (stale = true ∨ (s_activity_verified row = true ∧ s_turn_started_at row = None ∧
                   ∃ st, s_status row = Some st ∧ st ∈ inactive_states)) ∧
  s_content_state row ∉ [Deleting; Deleted] ∧
  (s_content_state row = Cooling → map_get own (s_session_id row) = Some (s_epoch row)).
Proof.
  unfold row_blockers. rewrite !add_if_nil. intros (Hc & Hd & Hg & Hb). bool_hyps.
  destruct (negb stale && _) eqn:Ea in Hb; [by apply add_reason_nonempty in Hb|].
  rewrite !add_if_nil in Hb. destruct Hb as (Hst & Hv & Ho & ->). split; [done|].
  split_and!.
  - destruct (known_owner root) as [u|]; [|done]. bool_hyps. by exists u.
  - destruct stale; [by left|right]. simpl in *. bool_hyps.
    split_and!; [done|apply dec_stable; naive_solver|]. unfold status_in in Hst.
    by apply any_id_iff in Hst as (st & -> & ?); exists st.
  - set_solver.
  - intros E. rewrite bool_decide_eq_true_2 in Hc by done.
    apply negb_false_iff in Hc. unfold own_cooling in Hc. by bool_hyps.
Qed.

Lemma bucket_blockers_nil stale blocked b :
  bucket_blockers stale blocked b = [] →
  blocked = [] ∧ b_kind b ∈ buckets ∧
  (stale = true ∨ ∃ st, b_status b = Some st ∧ st ∈ inactive_states).
Proof.
  unfold bucket_blockers. destruct (negb stale && _) eqn:Ea; [by intros ?%add_reason_nonempty|].
  rewrite !add_if_nil. intros (Hst & Hk & ->). bool_hyps. split_and!; [done..|].
  destruct stale; [by left|right]. simpl in Hst. bool_hyps.
  by apply any_id_iff in Hst as (st & -> & ?); exists st.
Qed.

(** ** The newest time *)

Lemma foldl_max_ge l a : a ≤ foldl Z.max a l ∧ ∀ x, x ∈ l → x ≤ foldl Z.max a l.
Proof.
  revert a; induction l as [|y l IH]; intros a; simpl; [split; [lia|set_solver]|].
  destruct (IH (Z.max a y)) as [H1 H2]. split; [lia|].
  intros x [->|Hx]%elem_of_cons; [lia|auto].
Qed.

Lemma newest_ge l x : x ∈ l → ∃ m, newest l = Some m ∧ x ≤ m.
Proof.
  destruct l as [|y l]; [set_solver|]. intros Hx. exists (foldl Z.max y l). split; [done|].
  destruct (foldl_max_ge l y) as [H1 H2]. apply elem_of_cons in Hx as [->|Hx]; [done|auto].
Qed.

Lemma read_all_elem l vs t :
  read_all l = Returns vs → t ∈ l → ∃ v, timestampMicros t = Returns v ∧ v ∈ vs.
Proof.
  revert vs; induction l as [|x l IH]; intros vs; cbn [read_all]; [set_solver|].
  destruct (timestampMicros x) as [v|] eqn:Ev; [|done].
  destruct (read_all l) as [vs'|] eqn:El; [|done]. intros [= <-] [->|Ht]%elem_of_cons.
  - exists v. split; [done|left].
  - destruct (IH _ eq_refl Ht) as (w & ? & ?). exists w. split; [done|by right].
Qed.

(** ** What is pending for a session *)

(** No protection holds a session back.  Its pending effects and its waiting
    inbox rows protect it only while the component is not stale. *)
Record unprotected (db : LifecycleTables) (stale : bool) (id : string) : Prop := {
  no_admission r : r ∈ session_message_admissions db → ad_state r ∈ ["issued"; "uncertain"]%string →
    ad_session_id r ≠ id ∧ ad_canonical_session_id r ≠ Some id ∧ id ∉ ad_session_aliases r;
  no_reservation r : r ∈ quota_reservations db → st_session_id r = Some id →
    st_state r ∉ ["pending"; "uncertain"]%string;
  all_delivered r : r ∈ realtime_outbox db → ob_session_id r = Some id → ob_delivered_at r ≠ None;
  no_attention r : r ∈ attention_items db → st_session_id r = Some id →
    st_state r ∉ ["open"; "snoozed"; "submitting"; "result_unknown"]%string;
  no_upload : id ∉ session_document_uploads db;
  no_call r : r ∈ collaboration_calls db → st_session_id r = Some id →
    st_state r ∉ ["pending"; "dispatched"; "accepted"; "blocked"; "uncertain"]%string;
  no_tombstone : id ∉ deleted_sessions db;
  no_extension : Some id ∉ extension_source_outbox db;
  all_projected e : e ∈ events db → e_session_id e = id → e_id e ≤ default 0 (attention_cursor db);
  no_effect e : stale = false → e ∈ events db → e_session_id e = id →
    e_effect_status e ≠ "pending"%string;
  no_inbox r : stale = false → r ∈ event_inbox db → i_session_id r = Some id → i_status r ∉ [0; 1]
}.

(** A time at which a datum of a session was stored that counts as activity:
    events and inbox rows of the quiet types, and inbox rows of a
    resynchronisation, do not. *)
Definition stored_at (db : LifecycleTables) (id : string) (t : Z) : Prop :=
  (∃ e, e ∈ events db ∧ e_session_id e = id ∧ e_event_type e ∉ quiet_types ∧ e_created_at e = Some t) ∨
  (∃ r, r ∈ event_inbox db ∧ i_session_id r = Some id ∧ i_event_type r ∉ quiet_types ∧
     i_resync r ≠ Some "true"%string ∧ i_received_at r = t) ∨
  (∃ r, r ∈ event_inbox db ∧ i_session_id r = Some id ∧ i_status r = 1 ∧ i_claimed_at r = Some t) ∨
  (∃ r, r ∈ session_document_versions db ∧ d_session_id r = id ∧ d_committed_at r = t).

(** The times of activity in a session's own row; the driver cuts the last two
    to milliseconds. *)
Definition row_active_at (row : MemberRow) (t : Z) : Prop :=
  s_last_activity_at row = Some t ∨
  ∃ t0, (s_last_business_activity_at row = Some t0 ∨ s_turn_started_at row = Some t0) ∧ t = t0 / 1000 * 1000.

Lemma any_id_in ids id : id ∈ ids → any_id ids (Some id) = true.
Proof. intros. by apply bool_decide_eq_true_2. Qed.

Lemma data_times_active db ids id t : id ∈ ids → stored_at db id t → t ∈ data_times db ids.
Proof.
  intros Hid%any_id_in [(e & He & <- & Hq & Ht)|[(r & Hr & Hs & Hq & Hn & Ht)|[(r & Hr & Hs & Hq & Ht)|(r & Hr & <- & Ht)]]];
    unfold data_times; rewrite !elem_of_app; [left|right; left|right; right; left|right; right; right];
    apply list_elem_of_omap.
  - exists e. split; [done|]. unfold event_time. by rewrite Hid, bool_decide_eq_false_2.
  - exists r. split; [done|]. unfold received_time. rewrite Hs, Hid, !bool_decide_eq_false_2 by done.
    simpl. by f_equal.
  - exists r. split; [done|]. unfold claimed_time. by rewrite Hs, Hid, Hq.
  - exists r. split; [done|]. unfold committed_time. rewrite Hid. by f_equal.
Qed.

(** ** The claim *)

Section safe.
Context `{PgText} (localeCompare : string → string → Z).

(** A member that may be acted on: it and its host belong to the owner, it is
    neither a demonstration nor a team's session, its content is not being
    moved by another operation, and unless the snapshot is stale it is known to
    be idle. *)
Definition may_act (own : jsmap string string) (owner : Z) (stale : bool) (row : MemberRow) : Prop :=
  s_user_id row = Some owner ∧ s_daemon_owner row = Some owner ∧
  s_source row ≠ Some "app_review_demo"%string ∧ starts_with (s_session_id row) "app-review-demo-" = false ∧
  s_daemon_id row ≠ Some "app-review-demo-host"%string ∧ s_team_bound row = false ∧
  s_content_state row ∉ [Deleting; Deleted] ∧
  (s_content_state row = Cooling → map_get own (s_session_id row) = Some (s_epoch row)) ∧
  (stale = true ∨ (s_activity_verified row = true ∧ s_turn_started_at row = None ∧
                   ∃ st, s_status row = Some st ∧ st ∈ inactive_states)).

Definition retention (act : LifecycleAction) (config : SessionLifecycleConfig) : Z :=
  match act with Purge => purgeDays config | _ => archiveDays config end.

Lemma in_state_not ids states r id :
  in_state ids states r = false → id ∈ ids → st_session_id r = Some id → st_state r ∉ states.
Proof.
  unfold in_state. intros Hf Hid%any_id_in Hs. rewrite Hs, Hid in Hf. simpl in Hf. by bool_hyps.
Qed.

(** What the statement of the inspection answers for a set of sessions holds of
    each of them. *)
Lemma protections_clear db stale ids id :
  id ∈ ids → (∀ fr, fr ∈ protections (select_pending db ids) stale → protect [] fr = []) →
  unprotected db stale id.
Proof.
  intros Hid Hp. pose proof (any_id_in _ _ Hid) as Hany.
  assert (Hf : Forall (λ fr, fst fr = false) (protections (select_pending db ids) stale)).
  { apply Forall_forall. intros fr Hin. by destruct (proj1 (add_if_nil _ _ _) (Hp fr Hin)). }
  unfold protections in Hf. rewrite !Forall_cons in Hf. simpl in Hf.
  destruct Hf as (Had & Hin & Hob & Hef & Hat & Hup & Hco & Hto & Hex & Hpr & _).
  apply orb_false_iff in Had as [Had Hqu].
  constructor.
  - intros r Hr Hs. pose proof (existsb_none _ _ _ Had Hr) as E. unfold admission_open in E.
    rewrite bool_decide_eq_true_2 in E by done. simpl in E. bool_hyps.
    split_and!; [intros <-; congruence|intros E'; congruence|].
    intros Ha. by pose proof (existsb_none _ _ _ H1 Ha); congruence.
  - intros r Hr Hs. by eapply in_state_not; [by eapply existsb_none| |].
  - intros r Hr Hs E. pose proof (existsb_none _ _ _ Hob Hr) as E'. unfold undelivered in E'.
    by rewrite Hs, E, Hany in E'.
  - intros r Hr Hs. by eapply in_state_not; [by eapply existsb_none| |].
  - intros Hr. pose proof (existsb_none _ _ _ Hup Hr) as E. simpl in E. congruence.
  - intros r Hr Hs. by eapply in_state_not; [by eapply existsb_none| |].
  - intros Hr. pose proof (existsb_none _ _ _ Hto Hr) as E. simpl in E. congruence.
  - intros Hr. pose proof (existsb_none _ _ _ Hex Hr) as E. congruence.
  - intros e He <-. pose proof (existsb_none _ _ _ Hpr He) as E. unfold unprojected in E.
    rewrite Hany in E. simpl in E. by bool_hyps.
  - intros e -> He <-. rewrite andb_true_r, Z.ltb_ge in Hef.
    assert (E : effect_waits ids e = false) by (eapply bfilter_none; [|done]; apply length_zero_iff_nil; lia).
    unfold effect_waits in E. rewrite Hany in E. simpl in E. by bool_hyps.
  - intros r -> Hr Hs. rewrite andb_true_r, Z.ltb_ge in Hin.
    assert (E : inbox_waits ids r = false) by (eapply bfilter_none; [|done]; apply length_zero_iff_nil; lia).
    unfold inbox_waits in E. rewrite Hs, Hany in E. simpl in E. by bool_hyps.
Qed.

Lemma collect_nil own s root rows bs p stale cyc :
  collect_blockers own s root rows bs p stale cyc = [] →
  (overflow s = false ∧ is_Some root ∧ (∀ id, id ∈ seen s → is_Some (map_get (members s) id)) ∧
   cyc = false) ∧
  (∀ row, row ∈ rows → row_blockers own root stale [] row = []) ∧
  (∀ b, b ∈ bs → bucket_blockers stale [] b = []) ∧
  (∀ fr, fr ∈ protections p stale → protect [] fr = []).
Proof.
  unfold collect_blockers. intros (Hc & Hp)%fold_blockers_nil;
    [|intros ? ? H'; by apply add_if_nil in H' as [_ ?]].
  apply fold_blockers_nil in Hc as (Hc & Hb); [|intros ? ? H'; by apply bucket_blockers_nil in H' as [? _]].
  apply fold_blockers_nil in Hc as (Hc & Hr); [|intros ? ? H'; by apply row_blockers_nil in H' as [? _]].
  unfold dependency_blocker in Hc. rewrite !add_if_nil in Hc. destruct Hc as (Hcyc & Hd & _). bool_hyps.
  split_and!; [done|by destruct root|..|done|done|done|done]. intros id Hid.
  destruct (map_get (members s) id) eqn:E; [by eexists|].
  assert (Hex : existsb (λ id, negb (map_has (members s) id)) (elements (seen s)) = true); [|congruence].
  apply existsb_exists. exists id. split; [by apply list_elem_of_In, elem_of_elements|].
  unfold map_has. by rewrite E.
Qed.

(** The newest activity is not older than any source of it. *)
Lemma newest_covers_source sources times source v :
  read_all (flat_map truthy_source sources) = Returns times → Some source ∈ sources →
  source ≠ Text EmptyString → (∀ v', timestampMicros source = Returns v' → v' = v) →
  ∃ m, newest times = Some m ∧ v ≤ m.
Proof.
  intros Hr Hin Hne Hv.
  assert (Hs : source ∈ flat_map truthy_source sources).
  { apply list_elem_of_In, in_flat_map. exists (Some source). split; [by apply list_elem_of_In|].
    destruct source; simpl; [rewrite bool_decide_eq_false_2 by congruence|]; by left. }
  destruct (read_all_elem _ _ _ Hr Hs) as (v' & Hv' & Hvs). apply Hv in Hv' as ->.
  by apply newest_ge.
Qed.

Lemma newest_covers_data db ids rows bs times t :
  read_all (flat_map truthy_source (activitySources rows bs (select_pending db ids))) = Returns times →
  t ∈ data_times db ids → ∃ m, newest times = Some m ∧ t ≤ m.
Proof.
  intros Hr (m0 & Hm0 & Ht)%newest_ge.
  destruct (newest_covers_source _ _ (Text (to_char m0)) m0 Hr) as (m & ? & ?).
  - unfold activitySources. rewrite !elem_of_app. right; right; left. simpl. rewrite Hm0. left.
  - intros [= E]. by apply to_char_nonempty in E.
  - apply to_char_reads.
  - exists m. split; [done|lia].
Qed.

Lemma newest_covers_row p rows bs times row t :
  read_all (flat_map truthy_source (activitySources rows bs p)) = Returns times →
  row ∈ rows → row_active_at row t → ∃ m, newest times = Some m ∧ t ≤ m.
Proof.
  intros Hr Hrow Ht.
  assert (Hin : ∀ x, x ∈ [Text <$> activity_time row; pg_date <$> s_last_business_activity_at row;
                          pg_date <$> s_turn_started_at row] → x ∈ activitySources rows bs p).
  { intros x Hx. unfold activitySources. apply elem_of_app. left.
    apply list_elem_of_In, in_flat_map. exists row. by split; apply list_elem_of_In. }
  destruct Ht as [Ht|(t0 & Ht & ->)].
  - apply (newest_covers_source _ _ (Text (to_char t)) t Hr).
    + apply Hin. unfold activity_time. rewrite Ht. left.
    + intros [= E]. by apply to_char_nonempty in E.
    + apply to_char_reads.
  - apply (newest_covers_source _ _ (pg_date t0) _ Hr); [|done|by intros v' [= <-]].
    apply Hin. destruct Ht as [->| ->]; [right; left|right; right; left].
Qed.

(** The inspection ends. *)
Lemma inspect_total db sid config clock own : is_Some (inspect localeCompare db sid config clock own).
Proof.
  unfold inspect. destruct (component_total (hierarchy db) sid) as [s ->]. simpl.
  destruct (cycle_found_iff (merge_sort (collated localeCompare) (map snd (members s)))) as (b & -> & _).
  by eexists.
Qed.

(** The parts of an inspection that returned. *)
Lemma inspect_parts db sid config clock own el :
  inspect localeCompare db sid config clock own = Some (Returns el) →
  ∃ s times latestAt hist,
    component (hierarchy db) sid = Some s ∧
    let rows := el_members el in
    let bs := map snd (bucketRows s) in
    let p := select_pending db (map s_session_id rows) in
    let stale := bool_decide (el_staleEvidence el ≠ None) in
    rows ≡ₚ map snd (members s) ∧
    el_root el = map_get (members s) sid ∧
    read_all (flat_map truthy_source (activitySources rows bs p)) = Returns times ∧
    (∀ m, newest times = Some m → ∃ t, microsTimestamp m = Returns t ∧ latestAt = Some t) ∧
    (∀ ev, el_staleEvidence el = Some ev → ev = evidence latestAt p rows bs) ∧
    ∃ cyc, cycle_found rows = Some cyc ∧
      evaluateLifecycle
        (lifecycle_input own sid (el_root el) rows latestAt stale hist
           (collect_blockers own s (el_root el) rows bs p stale cyc))
        (Text clock) config = Returns (el_prediction el).
Proof.
  unfold inspect. destruct (component (hierarchy db) sid) as [s|] eqn:Es; [|done]. simpl.
  set (rows := merge_sort (collated localeCompare) (map snd (members s))).
  destruct (cycle_found rows) as [cyc|] eqn:Ec; [|done]. simpl. intros [= Hel]. revert Hel.
  destruct (read_all _) as [times|] eqn:Et; [|done].
  destruct (match newest times with Some _ => _ | None => _ end) as [latestAt|] eqn:El; [|done].
  destruct (is_historical config rows) as [hist|]; [|done].
  set (stale := stale_component _ _ _ _ _ _ _).
  destruct (evaluateLifecycle _ _ _) as [pr|] eqn:Ev; [|done].
  intros [= <-]. exists s, times, latestAt, hist. split; [done|]. simpl.
  split; [apply merge_sort_Permutation|]. split; [done|]. split; [done|]. split.
  { intros m Hm. rewrite Hm in El. destruct (microsTimestamp m) as [t|]; [|done].
    injection El as <-. by exists t. }
  split; [by destruct stale; intros ev [= <-]|]. exists cyc. split; [done|].
  replace (bool_decide _) with stale by (destruct stale; symmetry; [by apply bool_decide_eq_true_2|by apply bool_decide_eq_false_2; intros []]).
  exact Ev.
Qed.

(** The reasons and activity of an inspection that predicts an action. *)
Lemma predicted_parts db sid config clock own el act :
  inspect localeCompare db sid config clock own = Some (Returns el) →
  action (el_prediction el) = Some act →
  let rows := el_members el in
  let stale := bool_decide (el_staleEvidence el ≠ None) in
  ∃ s current, component (hierarchy db) sid = Some s ∧ rows ≡ₚ map snd (members s) ∧
    el_root el = map_get (members s) sid ∧ timestampMicros (Text clock) = Returns current ∧
    cycle_found rows = Some false ∧
    existsb is_demo rows = false ∧ existsb s_team_bound rows = false ∧
    (overflow s = false ∧ is_Some (el_root el) ∧
     ∀ id, id ∈ seen s → is_Some (map_get (members s) id)) ∧
    (∀ row, row ∈ rows → row_blockers own (el_root el) stale [] row = []) ∧
    (∀ b, b ∈ map snd (bucketRows s) → bucket_blockers stale [] b = []) ∧
    (∀ id, id ∈ map s_session_id rows → unprotected db stale id) ∧
    (∀ ev, el_staleEvidence el = Some ev →
       ev_pendingEffects ev = len (bfilter (effect_waits (map s_session_id rows)) (events db)) ∧
       ev_pendingInbox ev = len (bfilter (inbox_waits (map s_session_id rows)) (event_inbox db))) ∧
    ∀ row t, row ∈ rows → stored_at db (s_session_id row) t ∨ row_active_at row t →
      t + retention act config * DAY_US < current.
Proof.
  intros Hin Hact rows stale.
  destruct (inspect_parts _ _ _ _ _ _ Hin) as (s & times & latestAt & hist & Hs & Hrows & Hroot & Ht & Hl & Hev & cyc & Hc & He).
  destruct (lifecycle_action_safe _ _ _ _ _ He Hact) as (current & Hcur & _ & Hun & _ & _ & Hsrc).
  destruct Hun as (Hbl & _ & Hsc & _). simpl in Hbl, Hsc.
  destruct (collect_nil _ _ _ _ _ _ _ _ Hbl) as ((Ho & Hr & Hseen & ->) & Hrow & Hb & Hp).
  exists s, current. split_and!; try done.
  - by destruct (existsb is_demo _).
  - by destruct (existsb is_demo _), (existsb s_team_bound _).
  - intros id Hid. by apply (protections_clear _ _ (map s_session_id rows)).
  - by intros ev ->%Hev.
  - intros row t Hr' Ha.
    assert (∃ m, newest times = Some m ∧ t ≤ m) as (m & Hm & Hle).
    { destruct Ha as [Ha|Ha]; [|by eapply newest_covers_row].
      eapply newest_covers_data; [exact Ht|]. eapply data_times_active; [|exact Ha].
      apply list_elem_of_fmap. by exists row. }
    destruct (Hl m Hm) as (text & Htext & ->).
    destruct (Hsrc (Some text)) as (text' & v & [= <-] & Hv & _ & Hold); [left|].
    apply (micros_reads m) in Hv as ->; [|done]. unfold retention. destruct act; lia.
Qed.

(** C35: The inspection always ends, and an action it predicts is safe for the
    whole component it would touch.  The session exists, its ancestry has no
    cycle, every identifier connected with it is a stored session, and every
    stored session connected with it is a member.  Each member and its host
    belong to the same owner; it is no demonstration or team session; its content
    is not being moved; no admission, reservation, undelivered event, open
    attention item, upload, call, tombstone, extension row or unprojected event
    protects it; unless the whole component is stale it is idle, with no
    pending effect and no waiting inbox row; and everything that counts as its
    activity (events and inbox rows that are not of a quiet type or a
    resynchronisation, claims, documents, and the three times of its row) is
    older than the retention period of the action.  Of a stale component the
    result reports the numbers of pending effects and waiting inbox rows, which
    the action abandons. *)
Theorem eligibility_safe db sid config clock own :
  unique_sessions (hierarchy db) →
  ∃ r, inspect localeCompare db sid config clock own = Some r ∧
  ∀ el act, r = Returns el → action (el_prediction el) = Some act →
    let stale := bool_decide (el_staleEvidence el ≠ None) in
    let ids := map s_session_id (el_members el) in
    ∃ root owner current,
      el_root el = Some root ∧ s_session_id root = sid ∧
      timestampMicros (Text clock) = Returns current ∧
      (¬ ∃ x, tc (ascends (ancestry (el_members el))) x x) ∧
      (∀ id, connected (hierarchy db) sid id → ∃ row, row ∈ el_members el ∧ s_session_id row = id) ∧
      (∀ row, row ∈ sessions (hierarchy db) → connected (hierarchy db) sid (s_session_id row) →
        row ∈ el_members el ∧ may_act own owner stale row ∧ unprotected db stale (s_session_id row) ∧
        ∀ t, stored_at db (s_session_id row) t ∨ row_active_at row t →
          t + retention act config * DAY_US < current) ∧
      ∀ ev, el_staleEvidence el = Some ev →
        ev_pendingEffects ev = len (bfilter (effect_waits ids) (events db)) ∧
        ev_pendingInbox ev = len (bfilter (inbox_waits ids) (event_inbox db)).
Proof.
  intros Hu. destruct (inspect_total db sid config clock own) as [r Hr]. exists r. split; [done|].
  intros el act -> Hact stale ids.
  destruct (predicted_parts _ _ _ _ _ _ _ Hr Hact)
    as (s & current & Hs & Hrows & Hroot & Hcur & Hcyc & Hdemo & Hteam & (Ho & [root Hsome] & Hseen)
        & Hrow & _ & Hpend & Hev & Hdata).
  destruct (component_found _ _ _ Hs Ho) as (Hconn & Hsearched & _).
  pose proof (component_sound _ _ _ Hs) as Hsound.
  assert (Hmem : ∀ id row, map_get (members s) id = Some row → row ∈ el_members el).
  { intros id row Hg%map_get_Some_elem. rewrite Hrows. apply list_elem_of_fmap. by exists (id, row). }
  assert (Hone : ∀ id, connected (hierarchy db) sid id →
            ∃ row, map_get (members s) id = Some row ∧ s_session_id row = id ∧ row ∈ sessions (hierarchy db)).
  { intros id [row Hg]%Hconn%Hseen. exists row. by destruct (sound_members _ _ _ Hsound _ _ Hg) as (? & ? & _). }
  assert (Hown : ∃ owner, known_owner (el_root el) = Some owner).
  { rewrite Hroot in Hsome. destruct (row_blockers_nil _ _ _ _ _ (Hrow root (Hmem _ _ Hsome)))
      as (_ & (u & ? & _) & _). by exists u. }
  destruct Hown as [owner Hown]. exists root, owner, current.
  split; [done|]. split; [|split; [done|split; [|split; [|split]]]].
  - rewrite Hroot in Hsome. by destruct (sound_members _ _ _ Hsound _ _ Hsome) as (_ & ? & _).
  - intros Hx. destruct (cycle_found_iff (el_members el)) as (b & Hb & Hiff).
    rewrite Hcyc in Hb. injection Hb as <-. by discriminate (proj2 Hiff (or_intror Hx)).
  - intros id (row & Hg & <- & _)%Hone. exists row. split; [by eapply Hmem|done].
  - intros row Hin Hc. destruct (Hone _ Hc) as (row' & Hg & Hid & Hin').
    assert (row' = row) as -> by auto. pose proof (Hmem _ _ Hg) as Hm.
    assert (Hids : s_session_id row ∈ map s_session_id (el_members el))
      by (apply list_elem_of_fmap; by exists row).
    destruct (row_blockers_nil _ _ _ _ _ (Hrow row Hm)) as (_ & (u & Hu' & ? & ?) & ? & ? & ?).
    assert (u = owner) as -> by congruence.
    split_and!; [done| |by apply Hpend|].
    + apply (existsb_none _ _ _ Hdemo) in Hm as Hd. unfold is_demo, isAppReviewDemoSession, isAppReviewDemoDaemon in Hd.
      bool_hyps. unfold may_act. split_and!; try done; by eapply existsb_none.
    + intros t Ht. by apply (Hdata row).
  - exact Hev.
Qed.
End safe.

(** ** A purge of two sessions *)

(** A database's time text that meets [PgText]: the printer of the relay. *)
Definition print_time (t : Z) : string :=
  match microsTimestamp t with Returns s => s | Throws _ => "infinity"%string end.

Lemma print_time_nonempty t : print_time t ≠ EmptyString.
Proof.
  unfold print_time, microsTimestamp. destruct (max_time <? _); [done|]. by destruct (iso_seconds _).
Qed.

Lemma print_time_reads t v : timestampMicros (Text (print_time t)) = Returns v → v = t.
Proof.
  unfold print_time. destruct (microsTimestamp t) as [s|] eqn:E; [by apply micros_reads|done].
Qed.

#[local] Instance pg_text : PgText := {|
  to_char := print_time; to_char_nonempty := print_time_nonempty; to_char_reads := print_time_reads |}.

Definition code_unit_compare (a b : string) : Z :=
  if bool_decide (a = b) then 0 else if bool_decide (String.le a b) then -1 else 1.

(** 2024-01-10, in microseconds. *)
Definition january : Z := 1704873600000000.

Definition sample_row (id : string) (parent : option string) : MemberRow := {|
  s_session_id := id; s_parent_session_id := parent; s_root_session_id := None;
  s_user_id := Some 7; s_daemon_owner := Some 7; s_daemon_id := Some "host"%string;
  s_source := Some "daemon"%string; s_status := Some "idle"%string; s_created_at := Some january;
  s_last_activity_at := Some january; s_last_business_activity_at := None; s_turn_started_at := None;
  s_activity_verified := true; s_archive_reason := Some Inactivity; s_content_state := Cold;
  s_epoch := "3"%string; s_team_bound := false |}.

Definition sample_tables : LifecycleTables := {|
  hierarchy := {| sessions := [sample_row "other" None; sample_row "child" (Some "main"%string);
                               sample_row "main" None];
                  subagents := [{| b_parent_session_id := "child"; b_agent_id := "a1";
                                   b_kind := "claude_subagent"; b_status := Some "completed"%string;
                                   b_created_at := Some january |}] |};
  session_message_admissions := []; quota_reservations := []; realtime_outbox := [];
  attention_items := []; session_document_uploads := []; collaboration_calls := [];
  deleted_sessions := []; extension_source_outbox := [];
  events := [{| e_id := 4; e_session_id := "child"; e_event_type := "agent_text";
                e_created_at := Some (january + 5); e_effect_status := "none" |}];
  attention_cursor := Some 9; event_inbox := []; session_document_versions := [] |}.

Lemma sample_unique : unique_sessions (hierarchy sample_tables).
Proof.
  intros r r'. simpl. rewrite !elem_of_cons, !elem_of_nil.
  intros [->|[->|[->|[]]]] [->|[->|[->|[]]]]; simpl; congruence.
Qed.

Lemma component_exact_witness :
  ∃ s, component (hierarchy sample_tables) "main" = Some s ∧
    map_get (members s) "child" = Some (sample_row "child" (Some "main"%string)) ∧
    ¬ connected (hierarchy sample_tables) "main" "other".
Proof.
  destruct (component_exact (hierarchy sample_tables) "main" sample_unique) as (s & Hs & Hex).
  exists s. split; [done|]. pose proof Hs as Hs'. vm_compute in Hs'. injection Hs' as <-.
  split; [reflexivity|]. intros Hc.
  apply (Hex eq_refl (sample_row "other" None)) in Hc; [|left]. by vm_compute in Hc.
Defined.

Lemma eligibility_safe_witness :
  ∃ el, inspect code_unit_compare sample_tables "main" sample_config "2024-04-12T00:00:00.000000Z" []
        = Some (Returns el) ∧
    action (el_prediction el) = Some Purge ∧
    map s_session_id (el_members el) = ["child"; "main"]%string ∧
    unprotected sample_tables true "child".
Proof.
  destruct (eligibility_safe code_unit_compare sample_tables "main" sample_config
    "2024-04-12T00:00:00.000000Z" [] sample_unique) as (r & Hr & Hsafe).
  destruct r as [el|]; [|vm_compute in Hr; discriminate]. exists el. split; [done|].
  assert (Ha : action (el_prediction el) = Some Purge) by (vm_compute in Hr; injection Hr as <-; reflexivity).
  assert (Hids : map s_session_id (el_members el) = ["child"; "main"]%string)
    by (vm_compute in Hr; injection Hr as <-; reflexivity).
  assert (Hst : bool_decide (el_staleEvidence el ≠ None) = true)
    by (vm_compute in Hr; injection Hr as <-; reflexivity).
  split; [done|]. split; [done|].
  destruct (Hsafe el Purge eq_refl Ha) as (root & owner & current & _ & _ & _ & _ & _ & Hall & _).
  rewrite Hst in Hall.
  destruct (Hall (sample_row "child" (Some "main"%string))) as (_ & _ & Hn & _); [right; left| |exact Hn].
  apply (connected_row _ _ (sample_row "child" (Some "main"%string)) "main").
  - right; left.
  - constructor.
  - right; left. reflexivity.
  - left. reflexivity.
  - left. reflexivity.
Defined.
