(* ===== verification/LifecycleJobs.v ===== *)
(** * LifecycleJobs: leased lifecycle operations and their journal
    (relay/src/session-lifecycle/repository.ts, and the tables and trigger of
    relay/src/session-lifecycle/schema.ts).

    A job is an archive, cooling or purge to be run once per session, epoch and
    policy.  [enqueue_job], [claim_job], [renew] and [finish] are the methods of
    [LifecycleJobRepository]: one statement each, at the database's time [now],
    with the random identifiers as arguments.  Every UPDATE of a job runs the
    trigger [journal], which keeps one row per attempt; its last part, which
    rewrites the notification of a cancelled operation, is left out. *)

From stdpp Require Import pretty.
From S2P Require Import Prelude JsValue LifecyclePolicy.

#[local] Open Scope Z_scope.

(** ** Data *)

Inductive LifecycleJobState : Type := Queued | Running | Succeeded | Partial | Failed | Cancelled.

#[global] Instance LifecycleJobState_eq : EqDecision LifecycleJobState.
Proof. solve_decision. Defined.
#[global] Instance LifecycleAction_eq : EqDecision LifecycleAction.
Proof. solve_decision. Defined.

(** A row of [session_lifecycle_jobs]; times in milliseconds. *)
Record JobRow : Type := {
  j_operation_id : string;
  j_user_id : Z;
  j_session_id : string;
  j_action : LifecycleAction;
  j_policy_version : string;
  j_activity_epoch : Z;
  j_maintenance_scheduled_at : option Z;
  j_state : LifecycleJobState;
  j_lease_owner : option string;
  j_lease_token : option string;
  j_lease_until : option Z;
  j_attempt : Z;
  j_next_attempt_at : Z;
  j_result : option string;
  j_created_at : Z
}.

(** The states of a row of [session_lifecycle_attempts]. *)
Inductive AttemptState : Type :=
| AttemptRunning
| AttemptExpired
| AttemptEnded (s : LifecycleJobState).

#[global] Instance AttemptState_eq : EqDecision AttemptState.
Proof. solve_decision. Defined.

Record AttemptRow : Type := {
  a_operation_id : string;
  a_attempt : Z;
  a_lease_token : string;
  a_worker : string;
  a_started_at : Z;
  a_finished_at : option Z;
  a_state : AttemptState;
  a_result : option string
}.

Record JobStore : Type := {
  jobs : list JobRow;
  attempts : list AttemptRow;
  (** The [operation_id]s of [session_lifecycle_deletions]. *)
  deletions : list string
}.

(** What a client holds: the fields of [LifecycleJob]. *)
Record LifecycleJob : Type := {
  operationId : string;
  userId : Z;
  sessionId : string;
  job_action : LifecycleAction;
  job_policyVersion : string;
  activityEpoch : string;
  state : LifecycleJobState;
  attempt : Z;
  leaseOwner : option string;
  leaseToken : option string;
  maintenanceScheduledAt : option Z
}.

Definition job (row : JobRow) : LifecycleJob := {|
  operationId := j_operation_id row; userId := j_user_id row; sessionId := j_session_id row;
  job_action := j_action row; job_policyVersion := j_policy_version row;
  activityEpoch := pretty (j_activity_epoch row); state := j_state row; attempt := j_attempt row;
  leaseOwner := j_lease_owner row; leaseToken := j_lease_token row;
  maintenanceScheduledAt := j_maintenance_scheduled_at row |}.

(** ** The trigger *)

Definition closes (old new : JobRow) : bool :=
  bool_decide (j_state old = Running) &&
  (negb (bool_decide (j_state new = Running)) || negb (bool_decide (j_lease_token new = j_lease_token old))).

Definition opens (old new : JobRow) : bool :=
  bool_decide (j_state new = Running) && negb (bool_decide (j_lease_token new = j_lease_token old)).

(** [UPDATE session_lifecycle_attempts ... WHERE ... AND state='running']. *)
Definition close_attempt (now : Z) (old new : JobRow) (a : AttemptRow) : AttemptRow :=
  if bool_decide (a_operation_id a = j_operation_id old) && (a_attempt a =? j_attempt old)
     && bool_decide (Some (a_lease_token a) = j_lease_token old) && bool_decide (a_state a = AttemptRunning)
  then let ended := bool_decide (j_state new = Running) in
       {| a_operation_id := a_operation_id a; a_attempt := a_attempt a; a_lease_token := a_lease_token a;
          a_worker := a_worker a; a_started_at := a_started_at a; a_finished_at := Some now;
          a_state := if ended then AttemptExpired else AttemptEnded (j_state new);
          a_result := if ended then None else j_result new |}
  else a.

Definition has_attempt (op : string) (n : Z) (a : AttemptRow) : bool :=
  bool_decide (a_operation_id a = op) && (a_attempt a =? n).

(** [journal_session_lifecycle_attempt]; the primary key and the NOT NULL
    columns may refuse the new row. *)
Definition journal (now : Z) (old new : JobRow) (log : list AttemptRow) : outcome (list AttemptRow) :=
  let log1 := if closes old new then map (close_attempt now old new) log else log in
  if opens old new then
    match j_lease_token new, j_lease_owner new with
    | Some token, Some owner =>
        if existsb (has_attempt (j_operation_id new) (j_attempt new)) log1
        then Throws "duplicate key value violates unique constraint"
        else Returns (log1 ++ [{| a_operation_id := j_operation_id new; a_attempt := j_attempt new;
                                  a_lease_token := token; a_worker := owner; a_started_at := now;
                                  a_finished_at := None; a_state := AttemptRunning; a_result := None |}])
    | _, _ => Throws "null value violates not-null constraint"
    end
  else Returns log1.

(** [UPDATE session_lifecycle_jobs SET f WHERE p RETURNING *]. *)
Fixpoint journal_all (now : Z) (f : JobRow → JobRow) (rows : list JobRow) (log : list AttemptRow)
  : outcome (list AttemptRow) :=
  match rows with
  | [] => Returns log
  | j :: rows' => try! log1 := journal now j (f j) log in journal_all now f rows' log1
  end.

Definition update_jobs (now : Z) (p : JobRow → bool) (f : JobRow → JobRow) (st : JobStore)
  : outcome (JobStore * list JobRow) :=
  try! log := journal_all now f (bfilter p (jobs st)) (attempts st) in
  Returns ({| jobs := map (λ j, if p j then f j else j) (jobs st); attempts := log;
              deletions := deletions st |}, map f (bfilter p (jobs st))).

(** ** Operations *)

Definition milliseconds (value maximum : Z) : outcome Z :=
  if negb (is_safe_integer value) || (value <? 0) || (maximum <? value)
  then Throws "invalid lifecycle duration" else Returns value.

(** [/^\d+$/] and the column's BIGINT. *)
Definition read_epoch (s : string) : outcome Z :=
  let '(v, n, rest) := take_digits s 0 0 in
  if bool_decide (n = O) || negb (bool_decide (rest = EmptyString)) then Throws "invalid lifecycle epoch"
  else if 9223372036854775807 <? v then Throws "bigint out of range" else Returns v.

Record EnqueueInput : Type := {
  in_userId : Z; in_sessionId : string; in_action : LifecycleAction; in_policyVersion : string;
  in_activityEpoch : string; in_scheduledAt : option Z }.

Definition same_key (user : Z) (session : string) (a : LifecycleAction) (epoch : Z) (policy : string)
  (j : JobRow) : bool :=
  (j_user_id j =? user) && bool_decide (j_session_id j = session) && bool_decide (j_action j = a)
  && (j_activity_epoch j =? epoch) && bool_decide (j_policy_version j = policy).

Definition new_job (now : Z) (uuid : string) (input : EnqueueInput) (epoch : Z) : JobRow := {|
  j_operation_id := uuid; j_user_id := in_userId input; j_session_id := in_sessionId input;
  j_action := in_action input; j_policy_version := in_policyVersion input; j_activity_epoch := epoch;
  j_maintenance_scheduled_at := in_scheduledAt input; j_state := Queued; j_lease_owner := None;
  j_lease_token := None; j_lease_until := None; j_attempt := 0; j_next_attempt_at := now;
  j_result := None; j_created_at := now |}.

(** [enqueue_job]: an equal job is found, not changed. *)
Definition enqueue_job (now : Z) (uuid : string) (input : EnqueueInput) (st : JobStore)
  : outcome (JobStore * LifecycleJob) :=
  try! epoch := read_epoch (in_activityEpoch input) in
  match bfilter (same_key (in_userId input) (in_sessionId input) (in_action input) epoch
                   (in_policyVersion input)) (jobs st) with
  | j :: _ => Returns (st, job j)
  | [] =>
      if existsb (λ j, bool_decide (j_operation_id j = uuid)) (jobs st)
      then Throws "duplicate key value violates unique constraint"
      else let j := new_job now uuid input epoch in
           Returns ({| jobs := jobs st ++ [j]; attempts := attempts st; deletions := deletions st |}, job j)
  end.

(** The optional filter of [claim_job]; [true] for purges. *)
Record ClaimFilter : Type := { f_policyVersion : string; f_purge : bool }.

Definition filter_passes (filter : option ClaimFilter) (j : JobRow) : bool :=
  match filter with
  | None => true
  | Some f => bool_decide (j_policy_version j = f_policyVersion f) &&
      (if f_purge f then bool_decide (j_action j = Purge) else bool_decide (j_action j ∈ [Archive; Cool]))
  end.

Definition lease_expired (now : Z) (j : JobRow) : bool :=
  match j_lease_until j with Some t => t <=? now | None => false end.

Definition claimable (now : Z) (filter : option ClaimFilter) (st : JobStore) (j : JobRow) : bool :=
  filter_passes filter j &&
  ((bool_decide (j_state j ∈ [Queued; Failed; Partial]) && (j_next_attempt_at j <=? now)
    && negb (bool_decide (j_operation_id j ∈ deletions st)))
   || (bool_decide (j_state j = Running) && lease_expired now j)).

(** [ORDER BY next_attempt_at, created_at, operation_id]. *)
Definition claim_before (a b : JobRow) : Prop :=
  j_next_attempt_at a < j_next_attempt_at b ∨
  (j_next_attempt_at a = j_next_attempt_at b ∧
   (j_created_at a < j_created_at b ∨
    (j_created_at a = j_created_at b ∧ String.le (j_operation_id a) (j_operation_id b)))).

#[global] Instance claim_before_dec : RelDecision claim_before.
Proof. intros a b. unfold claim_before. apply _. Defined.

(** The first claimable row no other transaction has locked. *)
Definition candidate (now : Z) (filter : option ClaimFilter) (locked : list string) (st : JobStore)
  : option JobRow :=
  head (merge_sort claim_before
    (bfilter (λ j, claimable now filter st j && negb (bool_decide (j_operation_id j ∈ locked))) (jobs st))).

Definition claimed_row (now : Z) (owner token : string) (leaseMs : Z) (j : JobRow) : JobRow := {|
  j_operation_id := j_operation_id j; j_user_id := j_user_id j; j_session_id := j_session_id j;
  j_action := j_action j; j_policy_version := j_policy_version j; j_activity_epoch := j_activity_epoch j;
  j_maintenance_scheduled_at := j_maintenance_scheduled_at j; j_state := Running;
  j_lease_owner := Some owner; j_lease_token := Some token; j_lease_until := Some (now + leaseMs);
  j_attempt := j_attempt j + 1; j_next_attempt_at := j_next_attempt_at j; j_result := j_result j;
  j_created_at := j_created_at j |}.

Definition claim_job (now : Z) (token owner : string) (leaseMs : Z) (filter : option ClaimFilter)
  (locked : list string) (st : JobStore) : outcome (JobStore * option LifecycleJob) :=
  if bool_decide (owner = EmptyString) || (128 <? str_len owner) then Throws "invalid lifecycle lease"
  else
    try! ms := milliseconds leaseMs 600000 in
    if ms =? 0 then Throws "invalid lifecycle lease"
    else match candidate now filter locked st with
    | None => Returns (st, None)
    | Some c =>
        try! r := update_jobs now (λ j, bool_decide (j_operation_id j = j_operation_id c))
                    (claimed_row now owner token leaseMs) st in
        Returns (fst r, job <$> head (snd r))
    end.

(** [WHERE operation_id=$1 AND state='running' AND lease_owner=$2 AND
    lease_token=$3 AND attempt=$4 AND lease_until>NOW()]. *)
Definition holds_lease (now : Z) (lease : LifecycleJob) (j : JobRow) : bool :=
  bool_decide (j_operation_id j = operationId lease) && bool_decide (j_state j = Running)
  && match j_lease_owner j, leaseOwner lease with Some a, Some b => bool_decide (a = b) | _, _ => false end
  && match j_lease_token j, leaseToken lease with Some a, Some b => bool_decide (a = b) | _, _ => false end
  && (j_attempt j =? attempt lease)
  && match j_lease_until j with Some t => now <? t | None => false end.

Definition renewed_row (now leaseMs : Z) (j : JobRow) : JobRow := {|
  j_operation_id := j_operation_id j; j_user_id := j_user_id j; j_session_id := j_session_id j;
  j_action := j_action j; j_policy_version := j_policy_version j; j_activity_epoch := j_activity_epoch j;
  j_maintenance_scheduled_at := j_maintenance_scheduled_at j; j_state := j_state j;
  j_lease_owner := j_lease_owner j; j_lease_token := j_lease_token j; j_lease_until := Some (now + leaseMs);
  j_attempt := j_attempt j; j_next_attempt_at := j_next_attempt_at j; j_result := j_result j;
  j_created_at := j_created_at j |}.

Definition renew (now : Z) (lease : LifecycleJob) (leaseMs : Z) (st : JobStore)
  : outcome (JobStore * bool) :=
  try! ms := milliseconds leaseMs 600000 in
  if ms =? 0 then Throws "invalid lifecycle lease"
  else
    try! r := update_jobs now (holds_lease now lease) (renewed_row now leaseMs) st in
    Returns (fst r, match snd r with [] => false | _ => true end).

Definition finished_row (now : Z) (s : LifecycleJobState) (result : string) (retryMs : Z) (j : JobRow)
  : JobRow := {|
  j_operation_id := j_operation_id j; j_user_id := j_user_id j; j_session_id := j_session_id j;
  j_action := j_action j; j_policy_version := j_policy_version j; j_activity_epoch := j_activity_epoch j;
  j_maintenance_scheduled_at := j_maintenance_scheduled_at j; j_state := s;
  j_lease_owner := None; j_lease_token := None; j_lease_until := None;
  j_attempt := j_attempt j; j_next_attempt_at := now + retryMs; j_result := Some result;
  j_created_at := j_created_at j |}.

(** [finish]; [serialized] is [JSON.stringify(result)]. *)
Definition finish (now : Z) (lease : LifecycleJob) (s : LifecycleJobState) (serialized : string)
  (retryMs : Z) (st : JobStore) : outcome (JobStore * bool) :=
  try! ms := milliseconds retryMs 86400000 in
  if 16384 <? utf8_length serialized then Throws "lifecycle result metadata too large"
  else
    try! r := update_jobs now (holds_lease now lease) (finished_row now s serialized ms) st in
    Returns (fst r, match snd r with [] => false | _ => true end).

(** ** Runs *)

(** One operation of some worker; [finish] is never given [Queued] or [Running]
    (its type excludes them), and a random token is not one of the journal. *)
Inductive jstep (st : JobStore) : JobStore → Prop :=
| step_enqueue now uuid input st' j :
    enqueue_job now uuid input st = Returns (st', j) → jstep st st'
| step_claim now token owner leaseMs filter locked st' r :
    (∀ a, a ∈ attempts st → a_lease_token a ≠ token) →
    claim_job now token owner leaseMs filter locked st = Returns (st', r) → jstep st st'
| step_renew now lease leaseMs st' b :
    renew now lease leaseMs st = Returns (st', b) → jstep st st'
| step_finish now lease s serialized retryMs st' b :
    s ∉ [Queued; Running] →
    finish now lease s serialized retryMs st = Returns (st', b) → jstep st st'
| step_delete ops :
    jstep st {| jobs := jobs st; attempts := attempts st; deletions := ops |}.

Definition no_jobs : JobStore := {| jobs := []; attempts := []; deletions := [] |}.
