(* ===== verification/LifecycleJobsSpec.v ===== *)
(** * LifecycleJobsSpec: leases are fenced and the journal is exact

    The invariant [store_ok] ties every job to its part of the journal: the
    attempts of a job are numbered 1, 2, ... without gaps, the last one is open
    exactly while the job is leased, and it names the holder.  All operations
    keep it ([jstep_ok]).  From it follow the two claims: the journal is exact,
    and a lease that was taken over can neither be renewed nor settle the job. *)

From stdpp Require Import relations.
From S2P Require Import Prelude JsValue LifecyclePolicy LifecycleJobs.

#[local] Open Scope Z_scope.

(** ** The invariant *)

Definition log_of (op : string) (log : list AttemptRow) : list AttemptRow :=
  bfilter (λ a, bool_decide (a_operation_id a = op)) log.

(** The CHECK of the table: a lease exactly while running. *)
Definition lease_shape (j : JobRow) : Prop :=
  if decide (j_state j = Running)
  then is_Some (j_lease_owner j) ∧ is_Some (j_lease_token j) ∧ is_Some (j_lease_until j)
  else j_lease_owner j = None ∧ j_lease_token j = None ∧ j_lease_until j = None.

Definition ended (a : AttemptRow) : Prop := a_state a ≠ AttemptRunning.

(** The attempts of a job: numbered from 1, and only the last may be open. *)
Definition logged (j : JobRow) (l : list AttemptRow) : Prop :=
  map a_attempt l = seqZ 1 (j_attempt j) ∧
  if decide (j_state j = Running)
  then ∃ l' a, l = l' ++ [a] ∧ Forall ended l' ∧ a_state a = AttemptRunning ∧
         j_lease_token j = Some (a_lease_token a) ∧ j_lease_owner j = Some (a_worker a)
  else Forall ended l.

Definition job_ok (log : list AttemptRow) (j : JobRow) : Prop :=
  0 ≤ j_attempt j ∧ lease_shape j ∧ logged j (log_of (j_operation_id j) log).

Record store_ok (st : JobStore) : Prop := {
  ok_ids : NoDup (j_operation_id <$> jobs st);
  ok_jobs j : j ∈ jobs st → job_ok (attempts st) j;
  ok_log a : a ∈ attempts st → a_operation_id a ∈ j_operation_id <$> jobs st
}.

(** ** Updating one row *)

Lemma update_one (p : JobRow → bool) (f : JobRow → JobRow) op l :
  NoDup (j_operation_id <$> l) → (∀ j, p j = true → j_operation_id j = op) →
  (bfilter p l = [] ∧ map (λ j, if p j then f j else j) l = l) ∨
  ∃ l1 j l2, l = l1 ++ j :: l2 ∧ p j = true ∧ bfilter p l = [j] ∧
    map (λ j, if p j then f j else j) l = l1 ++ f j :: l2.
Proof.
  intros Hnd Hp. induction l as [|j l IH]; [by left|]. simpl.
  apply NoDup_cons in Hnd as [Hj Hnd]. destruct (p j) eqn:Ej.
  - right. exists [], j, l.
    assert (Hno : ∀ x, x ∈ l → p x = false).
    { intros x Hx. apply not_true_is_false. intros Ex. apply Hj, list_elem_of_fmap. exists x.
      by rewrite (Hp _ Ej), (Hp _ Ex). }
    rewrite (bfilter_false p l Hno). split_and!; [done..|]. simpl. f_equal.
    clear -Hno. induction l as [|x l IH]; [done|]. simpl. rewrite (Hno x (list_elem_of_here _ _)), IH; [done|].
    intros y Hy. apply Hno. by right.
  - destruct (IH Hnd) as [[-> ->]|(l1 & x & l2 & -> & Hx & -> & ->)]; [by left|right].
    by exists (j :: l1), x, l2.
Qed.

Lemma log_of_app op l1 l2 : log_of op (l1 ++ l2) = log_of op l1 ++ log_of op l2.
Proof. apply bfilter_app. Qed.

Lemma close_op now old new a : a_operation_id (close_attempt now old new a) = a_operation_id a.
Proof. unfold close_attempt. by destruct (_ && _). Qed.

Lemma close_number now old new a : a_attempt (close_attempt now old new a) = a_attempt a.
Proof. unfold close_attempt. by destruct (_ && _). Qed.

Lemma log_of_close now old new op log :
  log_of op (map (close_attempt now old new) log) = map (close_attempt now old new) (log_of op log).
Proof.
  unfold log_of. induction log as [|a log IH]; [done|]. simpl. rewrite close_op.
  destruct (bool_decide _); simpl; by rewrite IH.
Qed.

Lemma close_other now old new op log :
  op ≠ j_operation_id old → map (close_attempt now old new) (log_of op log) = log_of op log.
Proof.
  intros Hop. unfold log_of. induction log as [|a log IH]; [done|]. simpl.
  case_bool_decide as Ha; [|done]. simpl. rewrite IH. f_equal. unfold close_attempt.
  rewrite bool_decide_eq_false_2 by congruence. done.
Qed.

(** The trigger touches only the journal of the updated job. *)
Lemma journal_frame now old new log log' op :
  journal now old new log = Returns log' → j_operation_id new = j_operation_id old →
  op ≠ j_operation_id old → log_of op log' = log_of op log.
Proof.
  intros Hj Hid Hop. unfold journal in Hj.
  assert (H1 : log_of op (if closes old new then map (close_attempt now old new) log else log) = log_of op log)
    by (destruct (closes old new); [rewrite log_of_close; by apply close_other|done]).
  destruct (opens old new); [|by injection Hj as <-].
  destruct (j_lease_token new), (j_lease_owner new); [|done..].
  destruct (existsb _ _); [done|]. injection Hj as <-. rewrite log_of_app, H1. unfold log_of. simpl.
  rewrite bool_decide_eq_false_2 by congruence. apply app_nil_r.
Qed.

Lemma journal_ops now old new log log' a :
  journal now old new log = Returns log' → a ∈ log' →
  a_operation_id a = j_operation_id new ∨ ∃ b, b ∈ log ∧ a_operation_id a = a_operation_id b.
Proof.
  intros Hj Ha. unfold journal in Hj.
  assert (H1 : ∀ a, a ∈ (if closes old new then map (close_attempt now old new) log else log) →
             ∃ b, b ∈ log ∧ a_operation_id a = a_operation_id b).
  { intros x. destruct (closes old new); [|by exists x].
    intros (b & -> & Hb)%list_elem_of_fmap. exists b. by rewrite close_op. }
  destruct (opens old new); [|injection Hj as <-; auto].
  destruct (j_lease_token new), (j_lease_owner new); [|done..].
  destruct (existsb _ _); [done|]. injection Hj as <-.
  apply elem_of_app in Ha as [Ha| ->%list_elem_of_singleton]; auto.
Qed.

(** An UPDATE of one row keeps the invariant if the row and its journal do. *)
Lemma update_jobs_ok now p f op st st' rows :
  store_ok st → (∀ j, p j = true → j_operation_id j = op) →
  (∀ j, j_operation_id (f j) = j_operation_id j) →
  (∀ j log', j ∈ jobs st → p j = true → job_ok (attempts st) j →
     journal now j (f j) (attempts st) = Returns log' → job_ok log' (f j)) →
  update_jobs now p f st = Returns (st', rows) → store_ok st'.
Proof.
  intros Hst Hp Hf Hjob. unfold update_jobs.
  destruct (update_one p f op (jobs st) (ok_ids _ Hst) Hp) as [[-> ->]|(l1 & j & l2 & El & Hpj & -> & ->)];
    simpl.
  { intros [= <- <-]. by destruct st. }
  destruct (journal now j (f j) (attempts st)) as [log'|] eqn:Ej; [|done]. intros [= <- <-].
  assert (Hj : j ∈ jobs st) by (rewrite El; set_solver).
  assert (Hids : j_operation_id <$> l1 ++ f j :: l2 = j_operation_id <$> jobs st)
    by (rewrite El, !fmap_app; simpl; by rewrite Hf).
  pose proof (ok_ids _ Hst) as Hnd. rewrite El, fmap_app in Hnd. simpl in Hnd.
  apply NoDup_app in Hnd as (_ & Hd1 & [Hd2 _]%NoDup_cons).
  constructor; simpl.
  - rewrite Hids. apply Hst.
  - intros x Hx. rewrite elem_of_app, elem_of_cons in Hx.
    assert (Hx' : x = f j ∨ x ∈ l1 ∨ x ∈ l2) by tauto. clear Hx.
    destruct Hx' as [->|Hx']; [by apply (Hjob j); [..|apply Hst|]|].
    assert (Hop : j_operation_id x ≠ j_operation_id j).
    { intros E. destruct Hx' as [H1|H2].
      - apply (Hd1 (j_operation_id x)); [by apply list_elem_of_fmap; exists x|]. rewrite E. left.
      - apply Hd2. rewrite <- E. apply list_elem_of_fmap. by exists x. }
    assert (Hok : job_ok (attempts st) x) by (apply Hst; rewrite El; set_solver).
    unfold job_ok in *. by rewrite (journal_frame _ _ _ _ _ _ Ej (Hf j) Hop).
  - intros a Ha. rewrite Hids. destruct (journal_ops _ _ _ _ _ _ Ej Ha) as [->|(b & Hb & ->)].
    + rewrite Hf. apply list_elem_of_fmap. by exists j.
    + by apply Hst.
Qed.

(** ** The three updates *)

Lemma seqZ_last (l : list AttemptRow) a n :
  map a_attempt (l ++ [a]) = seqZ 1 n → a_attempt a = n ∧ 1 ≤ n.
Proof.
  intros H. assert (Hl : len (l ++ [a]) = Z.max n 0).
  { pose proof (f_equal length H) as Hl. rewrite length_map, length_seqZ in Hl. lia. }
  rewrite length_app in Hl. simpl in Hl.
  assert (Hn : map a_attempt (l ++ [a]) !! length l = Some (a_attempt a)).
  { change (map a_attempt (l ++ [a])) with (a_attempt <$> (l ++ [a])).
    by rewrite list_lookup_fmap, list_lookup_middle. }
  rewrite H in Hn. apply lookup_seqZ in Hn as [Hn ?]. lia.
Qed.

Lemma seqZ_before (l : list AttemptRow) b n a :
  map a_attempt (l ++ [b]) = seqZ 1 n → a ∈ l → 1 ≤ a_attempt a < n.
Proof.
  intros H [i Hi]%list_elem_of_lookup. pose proof (seqZ_last _ _ _ H) as [_ Hn].
  assert (Hl : len (l ++ [b]) = n).
  { pose proof (f_equal length H) as Hl. rewrite length_map, length_seqZ in Hl. lia. }
  rewrite length_app in Hl. simpl in Hl. pose proof (lookup_lt_Some _ _ _ Hi).
  assert (Ha : map a_attempt (l ++ [b]) !! i = Some (a_attempt a)).
  { change (map a_attempt (l ++ [b])) with (a_attempt <$> (l ++ [b])).
    by rewrite list_lookup_fmap, lookup_app_l, Hi by done. }
  rewrite H in Ha. apply lookup_seqZ in Ha. lia.
Qed.

(** Closing ends the open attempt and no other. *)
Lemma close_ends now old new log :
  logged old (log_of (j_operation_id old) log) → j_state old = Running →
  Forall ended (map (close_attempt now old new) (log_of (j_operation_id old) log)).
Proof.
  intros [Hn Hl] Hr. rewrite decide_True in Hl by done.
  destruct Hl as (l & a & El & Hend & Ha & Ht & _). 
  assert (Hop : a_operation_id a = j_operation_id old).
  { assert (Hin : a ∈ log_of (j_operation_id old) log) by (rewrite El; set_solver).
    apply elem_of_bfilter in Hin as [Hin _]. by bool_hyps. }
  rewrite El in *. rewrite map_app. apply Forall_app. split.
  - apply Forall_map. eapply Forall_impl; [exact Hend|]. intros b Hb. unfold close_attempt, ended in *.
    rewrite (bool_decide_eq_false_2 (a_state b = _)) by done. by rewrite andb_false_r.
  - apply Forall_singleton. apply seqZ_last in Hn as [Hn _]. unfold close_attempt, ended.
    rewrite (bool_decide_eq_true_2 _ Hop), (bool_decide_eq_true_2 _ (eq_sym Ht)),
      (bool_decide_eq_true_2 _ Ha), Hn, Z.eqb_refl. simpl. by destruct (bool_decide _).
Qed.

Lemma map_close_numbers now old new l : map a_attempt (map (close_attempt now old new) l) = map a_attempt l.
Proof. rewrite map_map. apply map_ext. intros. apply close_number. Qed.

Lemma claim_job_ok at_time now owner token leaseMs j log log' :
  job_ok log j → (∀ a, a ∈ log → a_lease_token a ≠ token) →
  journal at_time j (claimed_row now owner token leaseMs j) log = Returns log' →
  job_ok log' (claimed_row now owner token leaseMs j).
Proof.
  intros (Hn & Hs & Hl) Hfresh. unfold journal.
  set (new := claimed_row now owner token leaseMs j).
  assert (Htok : j_lease_token new ≠ j_lease_token j).
  { unfold new, lease_shape, logged in *. simpl. destruct (decide (j_state j = Running)) as [Hr|Hr].
    - destruct Hl as [_ (l & a & El & _ & _ & -> & _)]. intros [= ->]. apply (Hfresh a); [|done].
      assert (Hin : a ∈ log_of (j_operation_id j) log) by (rewrite El; set_solver).
      by apply elem_of_bfilter in Hin as [_ ?].
    - by destruct Hs as (_ & -> & _). }
  unfold opens. rewrite (bool_decide_eq_false_2 _ Htok), (bool_decide_eq_true_2 (j_state new = _)) by done.
  simpl. destruct (existsb _ _); [done|]. intros [= <-].
  split_and!; [unfold new; simpl; lia|unfold lease_shape; simpl; split_and!; by eexists|].
  change (j_operation_id new) with (j_operation_id j). rewrite log_of_app. unfold log_of at 2. simpl.
  rewrite bool_decide_eq_true_2 by done. split.
  - rewrite map_app. simpl. replace (seqZ 1 (j_attempt j + 1)) with (seqZ 1 (j_attempt j) ++ [j_attempt j + 1]).
    + f_equal. rewrite <- (proj1 Hl). destruct (closes j new); [|done].
      by rewrite log_of_close, map_close_numbers.
    + rewrite (seqZ_app 1 (j_attempt j) 1) by lia. f_equal. unfold seqZ. simpl. f_equal. lia.
  - rewrite decide_True by done. eexists _, _. split; [done|]. simpl. split_and!; [|done..].
    unfold closes. rewrite (bool_decide_eq_false_2 _ Htok).
    rewrite orb_true_r, andb_true_r. case_bool_decide as Hr.
    + rewrite log_of_close. by apply close_ends.
    + destruct Hl as [_ Hl]. by rewrite decide_False in Hl.
Qed.

Lemma finish_job_ok at_time now s result retryMs j log log' :
  s ∉ [Queued; Running] → j_state j = Running → job_ok log j →
  journal at_time j (finished_row now s result retryMs j) log = Returns log' →
  job_ok log' (finished_row now s result retryMs j).
Proof.
  intros Hs Hr (Hn & _ & Hl). unfold journal.
  assert (Hsr : s ≠ Running) by set_solver.
  unfold opens, closes. cbn [j_state j_lease_token finished_row].
  rewrite (bool_decide_eq_false_2 _ Hsr), (bool_decide_eq_true_2 _ Hr). simpl. intros [= <-]. split_and!; [done|..].
  { unfold lease_shape. simpl. by rewrite decide_False. }
  split; simpl.
  - rewrite log_of_close, map_close_numbers. apply Hl.
  - rewrite decide_False, log_of_close by done. by apply close_ends.
Qed.

Lemma renew_job_ok at_time now leaseMs j log log' :
  j_state j = Running → job_ok log j →
  journal at_time j (renewed_row now leaseMs j) log = Returns log' → job_ok log' (renewed_row now leaseMs j).
Proof.
  intros Hr (Hn & Hs & Hl). unfold journal, closes, opens. simpl.
  rewrite !bool_decide_eq_true_2 by done. simpl. intros [= <-]. split_and!; [done| |done].
  unfold lease_shape in *. simpl in *. rewrite Hr in *. rewrite decide_True in * by done.
  destruct Hs as (? & ? & ?). by split_and!.
Qed.

(** ** Every operation keeps the invariant *)

Lemma holds_lease_facts now lease j :
  holds_lease now lease j = true →
  j_operation_id j = operationId lease ∧ j_state j = Running ∧ j_attempt j = attempt lease ∧
  j_lease_token j = leaseToken lease ∧ is_Some (j_lease_token j).
Proof.
  unfold holds_lease. intros H. bool_hyps.
  destruct (j_lease_token j), (leaseToken lease); try done. bool_hyps. subst. by split_and!.
Qed.

(** What the four statements do to the store. *)
Variant jupdate (st : JobStore) : (JobRow → bool) → (JobRow → JobRow) → Prop :=
| up_claim now token owner leaseMs filter locked c :
    (∀ a, a ∈ attempts st → a_lease_token a ≠ token) → candidate now filter locked st = Some c →
    jupdate st (λ j, bool_decide (j_operation_id j = j_operation_id c)) (claimed_row now owner token leaseMs)
| up_renew now lease leaseMs :
    jupdate st (holds_lease now lease) (renewed_row now leaseMs)
| up_finish now lease s result retryMs :
    s ∉ [Queued; Running] → jupdate st (holds_lease now lease) (finished_row now s result retryMs).

Lemma jstep_cases st st' :
  jstep st st' →
  st' = st ∨
  (∃ j, jobs st' = jobs st ++ [j] ∧ attempts st' = attempts st ∧
     j_operation_id j ∉ j_operation_id <$> jobs st ∧ j_attempt j = 0 ∧ lease_shape j ∧ j_state j = Queued) ∨
  (∃ now p f rows, jupdate st p f ∧ update_jobs now p f st = Returns (st', rows)) ∨
  (jobs st' = jobs st ∧ attempts st' = attempts st).
Proof.
  destruct 1 as [now uuid input st' j He|now token owner ms filter locked st' r Hf Hc
                |now lease ms st' b Hr|now lease s result ms st' b Hs Hf|ops].
  - unfold enqueue_job in He. destruct (read_epoch _) as [epoch|]; [|done].
    destruct (bfilter _ _) as [|k ks]; [|by injection He as <- _; left].
    destruct (existsb _ _) eqn:Ex; [done|]. injection He as <- _. right; left.
    exists (new_job now uuid input epoch). split_and!; try done. simpl.
    intros (k & -> & Hk)%list_elem_of_fmap.
    assert (Ht : existsb (λ j, bool_decide (j_operation_id j = j_operation_id k)) (jobs st) = true); [|congruence].
    apply existsb_exists. exists k. split; [by apply list_elem_of_In|]. by apply bool_decide_eq_true_2.
  - unfold claim_job in Hc. destruct (_ || _); [done|]. destruct (milliseconds _ _) as [m|]; [|done].
    destruct (m =? 0); [done|]. destruct (candidate _ _ _ _) as [c|] eqn:Ec; [|by injection Hc as <- _; left].
    destruct (update_jobs _ _ _ _) as [[st1 rows]|] eqn:Eu; [|done]. injection Hc as <- _.
    right; right; left. eexists _, _, _, _. split; [|exact Eu]. by econstructor.
  - unfold renew in Hr. destruct (milliseconds _ _) as [m|]; [|done]. destruct (m =? 0); [done|].
    destruct (update_jobs _ _ _ _) as [[st1 rows]|] eqn:Eu; [|done]. injection Hr as <- _.
    right; right; left. eexists _, _, _, _. split; [|exact Eu]. constructor.
  - unfold finish in Hf. destruct (milliseconds _ _) as [m|]; [|done]. destruct (_ <? _); [done|].
    destruct (update_jobs _ _ _ _) as [[st1 rows]|] eqn:Eu; [|done]. injection Hf as <- _.
    right; right; left. eexists _, _, _, _. split; [|exact Eu]. by constructor.
  - by right; right; right.
Qed.

Lemma one_job st j k :
  store_ok st → j ∈ jobs st → k ∈ jobs st → j_operation_id j = j_operation_id k → j = k.
Proof.
  intros Hst [i Hi]%list_elem_of_lookup [m Hm]%list_elem_of_lookup Hop.
  assert (i = m); [|congruence]. eapply (NoDup_lookup (j_operation_id <$> jobs st)); [apply Hst|..];
    rewrite list_lookup_fmap; [by rewrite Hi|rewrite Hm; simpl; by f_equal].
Qed.

(** An update selects one operation, keeps its identity and never lowers its
    attempt; what it selects is not settled. *)
Lemma jupdate_facts st p f :
  jupdate st p f → store_ok st →
  (∃ op, ∀ j, p j = true → j_operation_id j = op) ∧
  (∀ j, j_operation_id (f j) = j_operation_id j ∧ j_attempt j ≤ j_attempt (f j)) ∧
  (∀ j, j ∈ jobs st → p j = true → j_state j ∉ [Succeeded; Cancelled]) ∧
  (∀ now j log', j ∈ jobs st → p j = true → job_ok (attempts st) j →
     journal now j (f j) (attempts st) = Returns log' → job_ok log' (f j)).
Proof.
  intros Hu Hst. destruct Hu as [now token owner ms filter locked c Hf Hc|now lease ms|now lease s result ms Hs].
  - assert (Hcand : c ∈ jobs st ∧ claimable now filter st c = true).
    { unfold candidate in Hc. apply head_Some in Hc as [l Hl].
      assert (Hin : c ∈ merge_sort claim_before (bfilter (λ j, claimable now filter st j
        && negb (bool_decide (j_operation_id j ∈ locked))) (jobs st))) by (rewrite Hl; left).
      rewrite merge_sort_Permutation in Hin. apply elem_of_bfilter in Hin as [Hin ?]. by bool_hyps. }
    destruct Hcand as [Hin Hcl]. split_and!.
    + exists (j_operation_id c). intros j Hj. by bool_hyps.
    + intros j. simpl. split; [done|lia].
    + intros j Hj Hop. bool_hyps. 
      assert (j = c) as -> by (by apply (one_job st)).
      unfold claimable in Hcl. intros Hset. apply andb_true_iff in Hcl as [_ Hcl].
      rewrite !elem_of_cons, elem_of_nil in Hset.
      apply orb_true_iff in Hcl as [Hcl|Hcl]; bool_hyps; [|intuition congruence].
      assert (Hq : j_state c ∈ [Queued; Failed; Partial]) by done.
      rewrite !elem_of_cons, elem_of_nil in Hq. intuition congruence.
    + intros at_time j log' _ _ Hj. by apply claim_job_ok.
  - split_and!.
    + exists (operationId lease). by intros j (? & _)%holds_lease_facts.
    + intros j. simpl. split; [done|lia].
    + intros j _ (_ & -> & _)%holds_lease_facts. set_solver.
    + intros at_time j log' _ (_ & Hr & _)%holds_lease_facts Hj. by apply renew_job_ok.
  - split_and!.
    + exists (operationId lease). by intros j (? & _)%holds_lease_facts.
    + intros j. simpl. split; [done|lia].
    + intros j _ (_ & -> & _)%holds_lease_facts. set_solver.
    + intros at_time j log' _ (_ & Hr & _)%holds_lease_facts Hj. by apply finish_job_ok.
Qed.

Lemma store_ok_eq st st' : jobs st' = jobs st → attempts st' = attempts st → store_ok st → store_ok st'.
Proof. intros Hj Ha [H1 H2 H3]. constructor; by rewrite ?Hj, ?Ha. Qed.

Lemma jstep_ok st st' : jstep st st' → store_ok st → store_ok st'.
Proof.
  intros Hs Hst. destruct (jstep_cases _ _ Hs) as [->|[(j & Ej & Ea & Hop & Hat & Hsh & Hq)|[(now & p & f & rows & Hu & He)|[? ?]]]];
    [done|..|by eapply store_ok_eq].
  - constructor; rewrite Ej, ?Ea.
    + rewrite fmap_app. apply NoDup_app. split_and!; [apply Hst|set_solver|apply NoDup_singleton].
    + intros x [Hx| ->%list_elem_of_singleton]%elem_of_app; [by apply Hst|].
      split_and!; [lia|done|]. unfold logged, log_of. rewrite Hat, bfilter_false.
      { split; [done|]. rewrite decide_False by (by rewrite Hq). constructor. }
      intros a Ha. apply bool_decide_eq_false_2. intros E. apply Hop. rewrite <- E. by apply Hst.
    + intros a Ha. rewrite fmap_app. apply elem_of_app. left. by apply Hst.
  - destruct (jupdate_facts _ _ _ Hu Hst) as ([op Hp] & Hf & _ & Hjob).
    eapply update_jobs_ok; [done|exact Hp|intros j; apply Hf| |exact He]. intros j log'. apply Hjob.
Qed.

(** ** Jobs only move forward *)

Definition job_settled (j : JobRow) : Prop := j_state j ∈ [Succeeded; Cancelled].

Definition forward (j j' : JobRow) : Prop :=
  j_operation_id j' = j_operation_id j ∧ j_attempt j ≤ j_attempt j' ∧ (job_settled j → j' = j).

Lemma jstep_forward st st' j :
  jstep st st' → store_ok st → j ∈ jobs st → ∃ j', j' ∈ jobs st' ∧ forward j j'.
Proof.
  intros Hs Hst Hj.
  assert (Hsame : forward j j) by (split_and!; [done|lia|done]).
  destruct (jstep_cases _ _ Hs) as [->|[(k & Ej & _)|[(now & p & f & rows & Hu & He)|[Ej _]]]];
    [by exists j|exists j; rewrite Ej; set_solver| |exists j; by rewrite Ej].
  destruct (jupdate_facts _ _ _ Hu Hst) as (_ & Hf & Hset & _).
  unfold update_jobs in He. destruct (journal_all _ _ _ _); [|done]. injection He as <- _. simpl.
  exists (if p j then f j else j). split; [apply list_elem_of_fmap; by exists j|].
  destruct (p j) eqn:Ep; [|done]. split_and!; [apply Hf..|].
  intros Hsj. by destruct (Hset j Hj Ep).
Qed.

Lemma jsteps_forward st st' j :
  rtc jstep st st' → store_ok st → j ∈ jobs st → store_ok st' ∧ ∃ j', j' ∈ jobs st' ∧ forward j j'.
Proof.
  intros Hs. revert j. induction Hs as [st|st st1 st2 H1 _ IH]; intros j Hst Hj.
  { split; [done|]. exists j. split; [done|]. split_and!; [done|lia|done]. }
  destruct (jstep_forward _ _ _ H1 Hst Hj) as (j1 & Hj1 & Ho1 & Ha1 & Hs1).
  destruct (IH j1 (jstep_ok _ _ H1 Hst) Hj1) as (Hst2 & j2 & Hj2 & Ho2 & Ha2 & Hs2).
  split; [done|]. exists j2. split; [done|]. split_and!; [congruence|lia|].
  intros Hj0. pose proof (Hs1 Hj0) as ->. auto.
Qed.

Lemma no_jobs_ok : store_ok no_jobs.
Proof. constructor; simpl; [constructor|set_solver..]. Qed.

Lemma reachable_jobs_ok st : rtc jstep no_jobs st → store_ok st.
Proof.
  intros H. pose proof no_jobs_ok as H0. induction H as [|? ? ? H1 _ IH]; [done|].
  apply IH. by eapply jstep_ok.
Qed.

(** A lease of an attempt the job has left matches no row. *)
Lemma stale_lease_lost st now lease j :
  store_ok st → j ∈ jobs st → j_operation_id j = operationId lease → attempt lease ≠ j_attempt j →
  ∀ k, k ∈ jobs st → holds_lease now lease k = false.
Proof.
  intros Hst Hj Hop Hat k Hk. apply not_true_is_false. intros (Hko & _ & Hka & _)%holds_lease_facts.
  assert (k = j) by (apply (one_job st); [done..|congruence]). congruence.
Qed.

Lemma update_jobs_none now p f st :
  (∀ j, j ∈ jobs st → p j = false) → update_jobs now p f st = Returns (st, []).
Proof.
  intros H. unfold update_jobs. rewrite (bfilter_false p _ H). simpl.
  replace (map _ _) with (jobs st); [by destruct st|].
  rewrite <- (list_fmap_id (jobs st)) at 1. apply list_fmap_ext. intros i j Hj. simpl.
  by rewrite (H j) by (by eapply list_elem_of_lookup_2).
Qed.

Lemma milliseconds_valid ms maximum :
  0 ≤ ms ≤ maximum → maximum ≤ 86400000 → milliseconds ms maximum = Returns ms.
Proof.
  intros Hms Hmax. unfold milliseconds, is_safe_integer, max_safe.
  by replace (_ || _) with false by lia.
Qed.

(** ** Claims *)

(** The journal of lifecycle operations is exact in every run of any number
    of workers, with leases that expire and random tokens that do not repeat:
    the attempts of a job are numbered 1, 2, ... up to its attempt counter
    without gap or repetition, at most the last is open, and it is open exactly
    while the job is leased, with the token and the worker of the lease. *)
Theorem lifecycle_journal_exact st :
  rtc jstep no_jobs st →
  NoDup (j_operation_id <$> jobs st) ∧
  (∀ a, a ∈ attempts st → ∃ j, j ∈ jobs st ∧ j_operation_id j = a_operation_id a) ∧
  ∀ j, j ∈ jobs st →
    map a_attempt (log_of (j_operation_id j) (attempts st)) = seqZ 1 (j_attempt j) ∧
    ∀ a, a ∈ attempts st → a_operation_id a = j_operation_id j →
      (a_state a = AttemptRunning ↔ j_state j = Running ∧ a_attempt a = j_attempt j) ∧
      (a_state a = AttemptRunning →
         j_lease_token j = Some (a_lease_token a) ∧ j_lease_owner j = Some (a_worker a)).
Proof.
  intros Hst%reachable_jobs_ok. split; [apply Hst|]. split.
  { intros a Ha. apply (ok_log _ Hst) in Ha. apply list_elem_of_fmap in Ha as (j & ? & ?). by exists j. }
  intros j Hj. destruct (ok_jobs _ Hst j Hj) as (_ & _ & Hn & Hl). split; [done|].
  intros a Ha Hop.
  assert (Hin : a ∈ log_of (j_operation_id j) (attempts st))
    by (apply elem_of_bfilter; split; [by apply bool_decide_eq_true_2|done]).
  destruct (decide (j_state j = Running)) as [Hr|Hr].
  - destruct Hl as (l & b & El & Hend & Hb & Ht & Ho). rewrite El in Hin, Hn.
    rewrite elem_of_app, list_elem_of_singleton in Hin. destruct Hin as [Hin| ->].
    + rewrite Forall_forall in Hend. split; [|by intros ?%(Hend a Hin)].
      split; [by intros ?%(Hend a Hin)|]. intros [_ Hat].
      destruct (seqZ_before l b (j_attempt j) a Hn Hin). lia.
    + apply seqZ_last in Hn as [Hn _]. by split_and!.
  - rewrite Forall_forall in Hl. split; [|by intros ?%(Hl a Hin)].
    split; [by intros ?%(Hl a Hin)|by intros [? _]].
Qed.

(** A lease that another worker has taken over is powerless for ever: after
    a claim of the same job with a later attempt, and whatever happens next,
    renewing or finishing with the old lease returns false and changes nothing;
    and a job that succeeded or was cancelled is never claimed or changed
    again. *)
Theorem lifecycle_lease_fenced st1 st2 st3 now token owner leaseMs filter locked taken lease :
  rtc jstep no_jobs st1 →
  (∀ a, a ∈ attempts st1 → a_lease_token a ≠ token) →
  claim_job now token owner leaseMs filter locked st1 = Returns (st2, Some taken) →
  rtc jstep st2 st3 →
  operationId lease = operationId taken → attempt lease < attempt taken →
  (∀ at_time ms, 0 < ms ≤ 600000 → renew at_time lease ms st3 = Returns (st3, false)) ∧
  (∀ at_time s result retry, utf8_length result ≤ 16384 → 0 ≤ retry ≤ 86400000 →
     finish at_time lease s result retry st3 = Returns (st3, false)) ∧
  ∀ j, j ∈ jobs st2 → job_settled j → j ∈ jobs st3.
Proof.
  intros Hst1%reachable_jobs_ok Hfresh Hc H23 Hop Hlt.
  assert (H12 : jstep st1 st2) by (by eapply step_claim).
  pose proof (jstep_ok _ _ H12 Hst1) as Hst2.
  assert (∃ j, j ∈ jobs st2 ∧ taken = job j) as (j & Hj & ->).
  { unfold claim_job in Hc. destruct (_ || _); [done|]. destruct (milliseconds _ _) as [m|]; [|done].
    destruct (m =? 0); [done|]. destruct (candidate _ _ _ _); [|done]. unfold update_jobs in Hc.
    destruct (journal_all _ _ _ _); [|done]. injection Hc as <- Ht. simpl.
    destruct (bfilter _ (jobs st1)) as [|k l] eqn:Eb; [done|]. simpl in Ht. injection Ht as <-.
    assert (Hk : k ∈ k :: l) by left. rewrite <- Eb in Hk. apply elem_of_bfilter in Hk as [Hp Hk].
    eexists. split; [|done]. apply list_elem_of_fmap. exists k. by rewrite Hp. }
  destruct (jsteps_forward _ _ _ H23 Hst2 Hj) as (Hst3 & j' & Hj' & Ho & Ha & _). simpl in *.
  assert (Hno : ∀ at_time k, k ∈ jobs st3 → holds_lease at_time lease k = false)
    by (intros at_time; apply (stale_lease_lost st3 at_time lease j'); [done..|congruence|lia]).
  split_and!.
  - intros at_time ms Hms. unfold renew. rewrite milliseconds_valid by lia.
    rewrite (proj2 (Z.eqb_neq ms 0)) by lia. by rewrite update_jobs_none by (intros; by apply Hno).
  - intros at_time s result retry Hlen Hms. unfold finish. rewrite milliseconds_valid by lia.
    rewrite (proj2 (Z.ltb_ge 16384 _)) by done. by rewrite update_jobs_none by (intros; by apply Hno).
  - intros k Hk Hs. destruct (jsteps_forward _ _ _ H23 Hst2 Hk) as (_ & k' & Hk' & _ & _ & Hset).
    by rewrite <- (Hset Hs).
Qed.

(** *** Two workers and an expired lease *)

Definition sample_job_input : EnqueueInput := {|
  in_userId := 7; in_sessionId := "main"; in_action := Purge; in_policyVersion := "v1";
  in_activityEpoch := "3"; in_scheduledAt := None |}.

Definition after {A} (o : outcome (JobStore * A)) : JobStore :=
  match o with Returns r => fst r | Throws _ => no_jobs end.

Definition queued_store : JobStore := Eval vm_compute in after (enqueue_job 0 "op" sample_job_input no_jobs).
Definition first_store : JobStore := Eval vm_compute in after (claim_job 10 "t1" "w1" 1000 None [] queued_store).
Definition second_store : JobStore := Eval vm_compute in after (claim_job 5000 "t2" "w2" 1000 None [] first_store).

Lemma first_reachable : rtc jstep no_jobs first_store.
Proof.
  eapply rtc_l; [eapply (step_enqueue no_jobs 0 "op" sample_job_input); vm_compute; reflexivity|].
  eapply rtc_l; [|apply rtc_refl]. eapply (step_claim _ 10 "t1" "w1" 1000 None []);
    [simpl; set_solver|vm_compute; reflexivity].
Qed.

Definition first_lease : LifecycleJob := {|
  operationId := "op"; userId := 7; sessionId := "main"; job_action := Purge; job_policyVersion := "v1";
  activityEpoch := "3"; state := Running; attempt := 1; leaseOwner := Some "w1"%string;
  leaseToken := Some "t1"%string; maintenanceScheduledAt := None |}.

Lemma first_tokens_fresh a : a ∈ attempts first_store → a_lease_token a ≠ "t2"%string.
Proof. simpl. by intros ->%list_elem_of_singleton. Qed.

Lemma lifecycle_journal_exact_witness :
  rtc jstep no_jobs first_store ∧ NoDup (j_operation_id <$> jobs first_store) ∧
  map a_attempt (log_of "op" (attempts first_store)) = [1].
Proof.
  destruct (lifecycle_journal_exact first_store first_reachable) as (Hn & _).
  split; [exact first_reachable|]. split; [exact Hn|reflexivity].
Defined.

Lemma lifecycle_lease_fenced_witness :
  finish 5500 first_lease Succeeded "{}" 60000 second_store = Returns (second_store, false).
Proof.
  destruct (lifecycle_lease_fenced first_store second_store second_store 5000 "t2" "w2" 1000 None []
    {| operationId := "op"; userId := 7; sessionId := "main"; job_action := Purge;
       job_policyVersion := "v1"; activityEpoch := "3"; state := Running; attempt := 2;
       leaseOwner := Some "w2"%string; leaseToken := Some "t2"%string; maintenanceScheduledAt := None |}
    first_lease first_reachable first_tokens_fresh) as (_ & Hf & _).
  - vm_compute. reflexivity.
  - apply rtc_refl.
  - reflexivity.
  - simpl. lia.
  - apply Hf; [vm_compute; discriminate|lia].
Defined.
