(* ===== verification/Quota.v ===== *)
(** * Quota: concurrent-session slots and bound hosts
    (relay/src/quota.ts on the tables of relay/src/db.ts).

    A client that wants to create or resume a session first reserves a slot.
    The reservation is [Pending] while the grant is in flight, [Uncertain] when
    its outcome is unknown, and leaves the budget only when it is [Settled].
    Messages to a running session are admitted under an admission of their own,
    which holds a slot too (SessionAdmission).

    Statements run on the five tables of [QuotaDb] in the order of the source;
    transactions hold the account's advisory lock, so each operation is one
    step.  Clocks, random identifiers and limits are arguments.  A column that
    may be NULL is an [option], and [sql_eq] is SQL's equality, which never
    holds of NULL.

    The proofs are in QuotaSpec. *)

From S2P Require Import Prelude JsValue.

#[local] Open Scope Z_scope.

(** ** Tables *)

Inductive QuotaOperation : Type := CreateOp | ResumeOp.

Inductive ReservationState : Type := PendingGrant | UncertainGrant | SettledGrant.

Inductive AdmissionState : Type := IssuedMessage | CompletedMessage | UncertainMessage.

#[global] Instance QuotaOperation_eq : EqDecision QuotaOperation.
Proof. solve_decision. Defined.
#[global] Instance ReservationState_eq : EqDecision ReservationState.
Proof. solve_decision. Defined.
#[global] Instance AdmissionState_eq : EqDecision AdmissionState.
Proof. solve_decision. Defined.

(** A row of [quota_reservations]. *)
Record ReservationRow : Type := {
  q_id : string;
  q_user_id : Z;
  q_resource : string;
  q_operation : QuotaOperation;
  q_daemon_id : option string;
  q_session_id : option string;
  q_request_id : string;
  q_expires_at : Z;
  q_created_at : Z;
  q_state : ReservationState;
  q_settled_at : option Z;
  q_settlement_reason : option string;
  q_agent_type : option string;
  q_cwd : option string;
  q_command_hash : option string;
  q_project_id : option string
}.

(** A row of [session_message_admissions]. *)
Record MessageAdmissionRow : Type := {
  m_id : string;
  m_user_id : Z;
  m_daemon_id : string;
  m_session_id : string;
  m_canonical_session_id : option string;
  m_session_aliases : list string;
  m_request_id : string;
  m_msg_id : option string;
  m_command_hash : string;
  m_state : AdmissionState;
  m_expires_at : Z;
  m_completed_at : option Z;
  m_outcome : option string;
  m_claimed_outcome : option string
}.

(** The columns of [sessions] and [daemons] that quotas read. *)
Record QuotaSession : Type := {
  n_session_id : string;
  n_user_id : option Z;
  n_daemon_id : option string;
  n_status : option string;
  n_is_subagent : option bool;
  n_agent_type : option string;
  n_control_mode : option string;
  n_created_at : option Z;
  n_activity_epoch : Z
}.

Record QuotaDaemon : Type := {
  h_daemon_id : string;
  h_user_id : option Z;
  h_machine_id : option string;
  h_status : option string;
  h_hostname : option string
}.

Record QuotaDb : Type := {
  reservations : list ReservationRow;
  admissions : list MessageAdmissionRow;
  session_rows : list QuotaSession;
  daemon_rows : list QuotaDaemon;
  tombstones : list string
}.

Definition with_reservations (db : QuotaDb) (rows : list ReservationRow) : QuotaDb := {|
  reservations := rows; admissions := admissions db; session_rows := session_rows db;
  daemon_rows := daemon_rows db; tombstones := tombstones db |}.

Definition with_admissions (db : QuotaDb) (rows : list MessageAdmissionRow) : QuotaDb := {|
  reservations := reservations db; admissions := rows; session_rows := session_rows db;
  daemon_rows := daemon_rows db; tombstones := tombstones db |}.

(** [column = $n]. *)
Definition sql_eq {A} `{EqDecision A} (column : option A) (v : A) : bool :=
  match column with Some x => bool_decide (x = v) | None => false end.

(** ** Usage *)

Definition live_statuses : list string :=
  ["running"; "busy"; "retry"; "idle"; "waiting"; "waiting_approval"; "waiting_question"]%string.

Definition is_live (st : option string) : bool :=
  match st with Some s => bool_decide (s ∈ live_statuses) | None => false end.

(** The rows of [ACTIVE_ROOT_SESSION_SQL]. *)
Definition counts_active (userId : Z) (s : QuotaSession) : bool :=
  sql_eq (n_user_id s) userId && is_live (n_status s)
  && negb (default false (n_is_subagent s))
  && match n_agent_type s with
     | None => true
     | Some a => negb (bool_decide (a ∈ ["zcode"; "codex-desktop"]%string))
     end
  && negb (starts_with (n_session_id s) "pending-").

Definition active_count (db : QuotaDb) (userId : Z) : Z :=
  len (bfilter (counts_active userId) (session_rows db)).

Definition canonical_of (m : MessageAdmissionRow) : string :=
  match m_canonical_session_id m with Some s => s | None => m_session_id m end.

Definition unsettled (q : ReservationRow) : bool :=
  bool_decide (q_state q ≠ SettledGrant).

Definition outcome_open (m : MessageAdmissionRow) : bool :=
  bool_decide (m_state m ≠ CompletedMessage).

(** A slot: ['session:' || session_id], on the left, or ['create:' || id]. *)
Definition Slot : Type := (string + string)%type.

Definition reservation_slot (q : ReservationRow) : Slot :=
  match q_session_id q with Some s => inl s | None => inr (q_id q) end.

Definition holds_slot (userId : Z) (q : ReservationRow) : bool :=
  (q_user_id q =? userId) && bool_decide (q_resource q = "concurrent_session"%string) && unsettled q.

Definition holds_admission (userId : Z) (m : MessageAdmissionRow) : bool :=
  (m_user_id m =? userId) && outcome_open m.

(** The UNION of [UNSETTLED_RESERVATION_COUNT_SQL]. *)
Definition slots (db : QuotaDb) (userId : Z) : gset Slot :=
  list_to_set (map reservation_slot (bfilter (holds_slot userId) (reservations db)))
  ∪ list_to_set (map (λ m, inl (canonical_of m)) (bfilter (holds_admission userId) (admissions db))).

(** The NOT EXISTS: slots of sessions that count as active are not counted. *)
Definition uncovered (db : QuotaDb) (userId : Z) (slot : Slot) : bool :=
  match slot with
  | inl sid => negb (existsb (λ s, counts_active userId s && bool_decide (n_session_id s = sid))
                       (session_rows db))
  | inr _ => true
  end.

Definition reservation_count (db : QuotaDb) (userId : Z) : Z :=
  len (bfilter (uncovered db userId) (elements (slots db userId))).

(** ** Bindings *)

Record QuotaReservationBinding : Type := {
  reservationId : string;
  b_userId : Z;
  b_daemonId : string;
  b_requestId : string;
  b_operation : QuotaOperation;
  b_sessionId : option string
}.

Record QuotaTransitionResult : Type := { matched : bool; changed : bool }.

Definition SETTLEMENT_REASONS : list string :=
  ["session_created"; "session_create_failed"; "session_active"; "reconciled"; "user_deleted"]%string.

(** A text that is present and not empty. *)
Definition present_text (o : option string) : option string :=
  match o with
  | Some s => if bool_decide (s = EmptyString) then None else Some s
  | None => None
  end.

Definition some_text (o : option string) : bool :=
  match o with Some s => negb (bool_decide (s = EmptyString)) | None => false end.

Definition assertReservationBinding (b : QuotaReservationBinding) (reason : option string) : outcome unit :=
  let create := bool_decide (b_operation b = CreateOp) in
  if bool_decide (reservationId b = EmptyString) || negb (is_safe_integer (b_userId b)) || (b_userId b <=? 0)
     || bool_decide (b_daemonId b = EmptyString) || bool_decide (b_requestId b = EmptyString)
  then Throws "quota reservation transition requires reservation/user/daemon/request binding"
  else if negb create && negb (some_text (b_sessionId b))
  then Throws "resume quota reservation transition requires a session binding"
  else if bool_decide (reason = Some "session_created"%string) && (negb create || negb (some_text (b_sessionId b)))
  then Throws "session_created may only settle a create reservation with its created session"
  else if bool_decide (reason = Some "session_create_failed"%string)
          && (negb create || negb (bool_decide (b_sessionId b = None)))
  then Throws "session_create_failed may only settle an unbound create reservation"
  else if bool_decide (reason = Some "session_active"%string) && (create || negb (some_text (b_sessionId b)))
  then Throws "session_active may only settle a resume reservation for its bound session"
  else Returns tt.

Definition is_unlimited (b : QuotaReservationBinding) : bool := starts_with (reservationId b) "unlimited-".

(** The identity tuple every statement compares. *)
Definition binds (b : QuotaReservationBinding) (q : ReservationRow) : bool :=
  bool_decide (q_id q = reservationId b) && (q_user_id q =? b_userId b)
  && sql_eq (q_daemon_id q) (b_daemonId b) && bool_decide (q_request_id q = b_requestId b)
  && bool_decide (q_operation q = b_operation b).

(** [WITH target ..., updated AS (UPDATE ... FROM target WHERE guard)]. *)
Definition transition (db : QuotaDb) (target guard : ReservationRow → bool)
  (update : ReservationRow → ReservationRow) : QuotaDb * QuotaTransitionResult :=
  (with_reservations db (map (λ q, if target q && guard q then update q else q) (reservations db)),
   {| matched := existsb target (reservations db);
      changed := existsb (λ q, target q && guard q) (reservations db) |}).

(** ** Settlement *)

Definition session_since (db : QuotaDb) (b : QuotaReservationBinding) (sid : string) (since : option Z) : bool :=
  existsb (λ s, bool_decide (n_session_id s = sid) && sql_eq (n_user_id s) (b_userId b)
                && sql_eq (n_daemon_id s) (b_daemonId b)
                && match since with
                   | None => true
                   | Some t => match n_created_at s with Some c => t <=? c | None => false end
                   end) (session_rows db).

Definition settle_target (db : QuotaDb) (b : QuotaReservationBinding) (reason : string) (q : ReservationRow)
  : bool :=
  binds b q
  && match b_operation b, b_sessionId b with
     | CreateOp, None => bool_decide (q_session_id q = None)
     | CreateOp, Some sid => (bool_decide (q_session_id q = None) || sql_eq (q_session_id q) sid)
                             && session_since db b sid (Some (q_created_at q))
     | ResumeOp, Some sid => sql_eq (q_session_id q) sid && session_since db b sid None
     | ResumeOp, None => false
     end
  && (unsettled q
      || (sql_eq (q_settlement_reason q) reason && bool_decide (q_session_id q = b_sessionId b))).

Definition settled_row (now : Z) (b : QuotaReservationBinding) (reason : string) (q : ReservationRow)
  : ReservationRow := {|
  q_id := q_id q; q_user_id := q_user_id q; q_resource := q_resource q; q_operation := q_operation q;
  q_daemon_id := q_daemon_id q;
  q_session_id := match q_session_id q with Some s => Some s | None => b_sessionId b end;
  q_request_id := q_request_id q; q_expires_at := q_expires_at q; q_created_at := q_created_at q;
  q_state := SettledGrant; q_settled_at := Some now; q_settlement_reason := Some reason;
  q_agent_type := q_agent_type q; q_cwd := q_cwd q; q_command_hash := q_command_hash q;
  q_project_id := q_project_id q |}.

Definition no_transition : QuotaTransitionResult := {| matched := true; changed := false |}.

Definition settleQuotaReservation (now : Z) (b : QuotaReservationBinding) (reason : string) (db : QuotaDb)
  : outcome (QuotaDb * QuotaTransitionResult) :=
  if negb (bool_decide (reason ∈ SETTLEMENT_REASONS))
  then Throws "settleQuotaReservation requires an explicit known reason"
  else
    try! _ := assertReservationBinding b (Some reason) in
    if is_unlimited b then Returns (db, no_transition)
    else Returns (transition db (settle_target db b reason) unsettled (settled_row now b reason)).

(** ** Pinning a created session *)

Definition claim_target (b : QuotaReservationBinding) (sid : string) (q : ReservationRow) : bool :=
  binds b q
  && ((unsettled q && (bool_decide (q_session_id q = None) || sql_eq (q_session_id q) sid))
      || (negb (unsettled q) && sql_eq (q_session_id q) sid
          && sql_eq (q_settlement_reason q) "session_created"%string)).

Definition pin_row (sid : string) (q : ReservationRow) : ReservationRow := {|
  q_id := q_id q; q_user_id := q_user_id q; q_resource := q_resource q; q_operation := q_operation q;
  q_daemon_id := q_daemon_id q; q_session_id := Some sid;
  q_request_id := q_request_id q; q_expires_at := q_expires_at q; q_created_at := q_created_at q;
  q_state := q_state q; q_settled_at := q_settled_at q; q_settlement_reason := q_settlement_reason q;
  q_agent_type := q_agent_type q; q_cwd := q_cwd q; q_command_hash := q_command_hash q;
  q_project_id := q_project_id q |}.

Definition claimQuotaReservationSession (b : QuotaReservationBinding) (db : QuotaDb)
  : outcome (QuotaDb * QuotaTransitionResult) :=
  try! _ := assertReservationBinding b None in
  match b_operation b, present_text (b_sessionId b) with
  | CreateOp, Some sid =>
      if is_unlimited b then Returns (db, no_transition)
      else Returns (transition db (claim_target b sid) (λ q, bool_decide (q_session_id q = None)) (pin_row sid))
  | _, _ => Throws "quota create claim requires a canonical session binding"
  end.

(** ** Unknown outcomes *)

Definition uncertain_target (b : QuotaReservationBinding) (q : ReservationRow) : bool :=
  binds b q
  && match b_operation b with
     | CreateOp => bool_decide (q_session_id q = None)
     | ResumeOp => match b_sessionId b with Some sid => sql_eq (q_session_id q) sid | None => false end
     end
  && unsettled q.

Definition uncertain_row (reason : string) (q : ReservationRow) : ReservationRow := {|
  q_id := q_id q; q_user_id := q_user_id q; q_resource := q_resource q; q_operation := q_operation q;
  q_daemon_id := q_daemon_id q; q_session_id := q_session_id q;
  q_request_id := q_request_id q; q_expires_at := q_expires_at q; q_created_at := q_created_at q;
  q_state := UncertainGrant; q_settled_at := q_settled_at q; q_settlement_reason := Some reason;
  q_agent_type := q_agent_type q; q_cwd := q_cwd q; q_command_hash := q_command_hash q;
  q_project_id := q_project_id q |}.

Definition markQuotaReservationUncertain (b : QuotaReservationBinding) (reason : string) (db : QuotaDb)
  : outcome (QuotaDb * QuotaTransitionResult) :=
  try! _ := assertReservationBinding b None in
  if is_unlimited b then Returns (db, no_transition)
  else Returns (transition db (uncertain_target b) (λ q, bool_decide (q_state q = PendingGrant))
                  (uncertain_row reason)).

(** ** Recovery of a binding *)

Record RecoveredQuotaReservation : Type := {
  recovered_binding : QuotaReservationBinding;
  recovered_agentType : option string;
  recovered_cwd : option string;
  recovered_hostname : string
}.

Definition quota_binding_mismatch : string := "quota reservation binding mismatch".

(** [COALESCE(daemon.hostname, 'unknown')] of the LEFT JOIN, empty text included. *)
Definition host_name (db : QuotaDb) (q : ReservationRow) : string :=
  match bfilter (λ h, sql_eq (q_daemon_id q) (h_daemon_id h) && sql_eq (h_user_id h) (q_user_id q)) (daemon_rows db) with
  | h :: _ => match present_text (h_hostname h) with Some n => n | None => "unknown" end
  | [] => "unknown"
  end.

(** The comparison of the source, after the row of the request was read;
    [expected] is given as a binding whose [reservationId] is not read. *)
Definition recoverable (expected : QuotaReservationBinding) (reason : string) (q : ReservationRow) : bool :=
  bool_decide (q_resource q = "concurrent_session"%string)
  && bool_decide (q_operation q = b_operation expected)
  && bool_decide (q_daemon_id q = Some (b_daemonId expected))
  && match b_operation expected, b_sessionId expected with
     | ResumeOp, s => bool_decide (q_session_id q = s)
     | CreateOp, None => bool_decide (q_session_id q = None)
     | CreateOp, Some sid => bool_decide (q_session_id q = None) || bool_decide (q_session_id q = Some sid)
     end
  && (unsettled q
      || (bool_decide (q_settlement_reason q = Some reason)
          && bool_decide (q_session_id q = b_sessionId expected))).

Definition recoverQuotaReservation (expected : QuotaReservationBinding) (reason : string) (db : QuotaDb)
  : outcome (option RecoveredQuotaReservation) :=
  if negb (is_safe_integer (b_userId expected)) || (b_userId expected <=? 0)
     || bool_decide (b_daemonId expected = EmptyString) || bool_decide (b_requestId expected = EmptyString)
  then Returns None
  else if bool_decide (b_operation expected = ResumeOp) && negb (some_text (b_sessionId expected))
  then Returns None
  else match bfilter (λ q, (q_user_id q =? b_userId expected)
                           && bool_decide (q_request_id q = b_requestId expected)) (reservations db) with
  | [] => Returns None
  | q :: _ =>
      if recoverable expected reason q then
        Returns (Some {|
          recovered_binding := {| reservationId := q_id q; b_userId := b_userId expected;
            b_daemonId := b_daemonId expected; b_requestId := b_requestId expected;
            b_operation := b_operation expected; b_sessionId := b_sessionId expected |};
          recovered_agentType := q_agent_type q; recovered_cwd := q_cwd q;
          recovered_hostname := host_name db q |})
      else Throws quota_binding_mismatch
  end.

(** ** Reservation *)

Record ReserveInput : Type := {
  r_commandHash : option string;
  r_projectId : option string;
  r_userId : Z;
  r_requestId : string;
  r_operation : QuotaOperation;
  r_daemonId : string;
  r_sessionId : option string;
  r_limit : option Z;
  r_ttlMs : option Z;
  r_agentType : option string;
  r_cwd : option string
}.

Inductive QuotaDecision : Type :=
| Allowed (reservation : string) (expiresAt : Z) (reused : bool)
| QuotaExceeded (used reserved limit : Z)
| BindingConflict
| AlreadyFinalized.

(** 24 hours, in milliseconds. *)
Definition day_ms : Z := 86400000.

(** [DELETE ... state = 'settled' AND settled_at <= now - interval '24 hours']. *)
Definition purge_settled (now userId : Z) (rows : list ReservationRow) : list ReservationRow :=
  bfilter (λ q, negb ((q_user_id q =? userId) && negb (unsettled q)
                      && match q_settled_at q with Some t => t <=? now - day_ms | None => false end)) rows.

(** [text?.slice(0, 64) || null]. *)
Definition agent_type_column (a : option string) : option string :=
  match a with Some s => present_text (Some (String.substring 0 64 s)) | None => None end.

Definition same_binding (input : ReserveInput) (q : ReservationRow) : bool :=
  bool_decide (q_operation q = r_operation input)
  && bool_decide (q_daemon_id q = Some (r_daemonId input))
  && ((bool_decide (r_operation input = CreateOp) && negb (some_text (r_sessionId input)))
      || bool_decide (q_session_id q = r_sessionId input))
  && bool_decide (q_command_hash q = r_commandHash input)
  && bool_decide (q_project_id q = r_projectId input).

(** [COALESCE] of the metadata a repeated create may still add. *)
Definition fill_metadata (input : ReserveInput) (q : ReservationRow) : ReservationRow := {|
  q_id := q_id q; q_user_id := q_user_id q; q_resource := q_resource q; q_operation := q_operation q;
  q_daemon_id := q_daemon_id q; q_session_id := q_session_id q;
  q_request_id := q_request_id q; q_expires_at := q_expires_at q; q_created_at := q_created_at q;
  q_state := q_state q; q_settled_at := q_settled_at q; q_settlement_reason := q_settlement_reason q;
  q_agent_type := match q_agent_type q with Some a => Some a | None => agent_type_column (r_agentType input) end;
  q_cwd := match q_cwd q with Some c => Some c | None => r_cwd input end;
  q_command_hash := q_command_hash q; q_project_id := q_project_id q |}.

Definition of_request (userId : Z) (request : string) (q : ReservationRow) : bool :=
  (q_user_id q =? userId) && bool_decide (q_request_id q = request).

Definition reuse (input : ReserveInput) (q : ReservationRow) (db : QuotaDb) : QuotaDb * QuotaDecision :=
  let same := same_binding input q in
  let db' := if same && unsettled q && bool_decide (r_operation input = CreateOp)
             then with_reservations db
                    (map (λ r, if of_request (r_userId input) (r_requestId input) r
                               then fill_metadata input r else r) (reservations db))
             else db in
  (db', if negb same then BindingConflict
        else if negb (unsettled q) then AlreadyFinalized
        else Allowed (q_id q) (q_expires_at q) true).

(** The query [held]: the resumed session already has a slot. *)
Definition slot_held (db : QuotaDb) (input : ReserveInput) : bool :=
  match r_operation input, present_text (r_sessionId input) with
  | ResumeOp, Some sid =>
      existsb (λ q, holds_slot (r_userId input) q && sql_eq (q_session_id q) sid) (reservations db)
      || existsb (λ m, holds_admission (r_userId input) m && bool_decide (canonical_of m = sid)) (admissions db)
      || existsb (λ s, sql_eq (n_user_id s) (r_userId input) && is_live (n_status s)
                       && bool_decide (n_session_id s = sid)) (session_rows db)
  | _, _ => false
  end.

Definition new_reservation (nowDb now : Z) (uuid : string) (input : ReserveInput) : ReservationRow := {|
  q_id := uuid; q_user_id := r_userId input; q_resource := "concurrent_session";
  q_operation := r_operation input; q_daemon_id := Some (r_daemonId input);
  q_session_id := present_text (r_sessionId input); q_request_id := r_requestId input;
  q_expires_at := now + default 20000 (r_ttlMs input); q_created_at := nowDb;
  q_state := PendingGrant; q_settled_at := None; q_settlement_reason := None;
  q_agent_type := agent_type_column (r_agentType input); q_cwd := r_cwd input;
  q_command_hash := r_commandHash input; q_project_id := r_projectId input |}.

Definition over_limit (db : QuotaDb) (input : ReserveInput) : option QuotaDecision :=
  match r_limit input with
  | None => None
  | Some limit =>
      let used := active_count db (r_userId input) in
      let reserved := reservation_count db (r_userId input) in
      if negb (slot_held db input) && (limit <=? used + reserved)
      then Some (QuotaExceeded used reserved limit) else None
  end.

Definition duplicate_key {A} : outcome A := Throws "duplicate key value violates unique constraint".

(** [reserveConcurrentSessionInTransaction]; [nowDb] is the database's clock,
    [now] the relay's. *)
Definition reserveInTransaction (nowDb now : Z) (uuid : string) (input : ReserveInput) (db0 : QuotaDb)
  : outcome (QuotaDb * QuotaDecision) :=
  if negb (is_safe_integer (r_userId input)) || (r_userId input <=? 0)
     || bool_decide (r_requestId input = EmptyString) || bool_decide (r_daemonId input = EmptyString)
  then Throws "quota reservation requires user/request/daemon binding"
  else if bool_decide (r_operation input = ResumeOp) && negb (some_text (r_sessionId input))
  then Throws "resume quota reservation requires a session binding"
  else
    let db := with_reservations db0 (purge_settled now (r_userId input) (reservations db0)) in
    if existsb (λ m, (m_user_id m =? r_userId input) && bool_decide (m_request_id m = r_requestId input))
         (admissions db)
    then Returns (db, BindingConflict)
    else match bfilter (of_request (r_userId input) (r_requestId input)) (reservations db) with
    | q :: _ => Returns (reuse input q db)
    | [] =>
        match over_limit db input with
        | Some d => Returns (db, d)
        | None =>
            if existsb (λ q, bool_decide (q_id q = uuid)) (reservations db) then duplicate_key
            else let q := new_reservation nowDb now uuid input in
                 Returns (with_reservations db (reservations db ++ [q]),
                          Allowed uuid (q_expires_at q) false)
        end
    end.

(** [reserveConcurrentSession]: the transaction around it; an error rolls it
    back. *)
Definition reserveConcurrentSession (nowDb now : Z) (uuid : string) (input : ReserveInput) (db : QuotaDb)
  : QuotaDb * outcome QuotaDecision :=
  match reserveInTransaction nowDb now uuid input db with
  | Returns (db', d) => (db', Returns d)
  | Throws m => (db, Throws m)
  end.

(** [releaseQuotaReservation]. *)
Definition releaseQuotaReservation (now : Z) (b : QuotaReservationBinding) (reason : option string) (db : QuotaDb)
  : outcome QuotaDb :=
  try! r := settleQuotaReservation now b (default "reconciled"%string reason) db in Returns (fst r).

(** ** Bound hosts *)

Record ClaimHostInput : Type := {
  c_userId : Z;
  c_daemonId : string;
  c_machineId : option string;
  c_limit : option Z
}.

Inductive BoundDaemonDecision : Type :=
| HostAllowed (reconnect : bool) (used : Z)
| HostRefused (reason : string) (used : Z).

Definition is_hex (c : Ascii.ascii) : bool :=
  ((48 <=? code c) && (code c <=? 57)) || ((97 <=? code c) && (code c <=? 102)).

Definition hex_text (n : nat) (s : string) : bool :=
  Nat.eqb (String.length s) n && forallb is_hex (chars s).

(** [/^(?:machine-[a-f0-9]{32}|daemon-[a-f0-9]{8})$/]. *)
Definition isStableMachineID (m : option string) : bool :=
  match m with
  | Some s => (starts_with s "machine-" && hex_text 32 (String.substring 8 (String.length s - 8) s))
              || (starts_with s "daemon-" && hex_text 8 (String.substring 7 (String.length s - 7) s))
  | None => false
  end.

(** The other hosts of the account on the same machine. *)
Definition same_machine (input : ClaimHostInput) (machine : string) (h : QuotaDaemon) : bool :=
  sql_eq (h_user_id h) (c_userId input) && negb (bool_decide (h_daemon_id h = c_daemonId input))
  && (sql_eq (h_machine_id h) machine
      || (bool_decide (default EmptyString (h_machine_id h) ∈ [EmptyString; "unknown"%string])
          && bool_decide (h_daemon_id h = machine))).

Definition countBoundDaemonsLocked (db : QuotaDb) (userId : Z) : Z :=
  len (bfilter (λ h, sql_eq (h_user_id h) userId) (daemon_rows db)).

Definition add_host (input : ClaimHostInput) (db : QuotaDb) : QuotaDb :=
  if existsb (λ h, bool_decide (h_daemon_id h = c_daemonId input)) (daemon_rows db) then db
  else {| reservations := reservations db; admissions := admissions db; session_rows := session_rows db;
          daemon_rows := daemon_rows db ++ [{| h_daemon_id := c_daemonId input; h_user_id := Some (c_userId input);
            h_machine_id := if isStableMachineID (c_machineId input) then c_machineId input else None;
            h_status := Some "offline"%string; h_hostname := None |}];
          tombstones := tombstones db |}.

Definition claimBoundDaemonSlot (input : ClaimHostInput) (db : QuotaDb) : QuotaDb * BoundDaemonDecision :=
  let existing := bfilter (λ h, bool_decide (h_daemon_id h = c_daemonId input)) (daemon_rows db) in
  let owner := match existing with h :: _ => h_user_id h | [] => None end in
  if match owner with Some u => negb (u =? c_userId input) | None => false end
  then (db, HostRefused "daemon_owned_by_other_user" 0)
  else
    let reconnect := match owner with Some u => u =? c_userId input | None => false end in
    let machines := match c_machineId input with
                    | Some m => if negb reconnect && isStableMachineID (Some m)
                                then bfilter (same_machine input m) (daemon_rows db) else []
                    | None => []
                    end in
    if existsb (λ h, sql_eq (h_status h) "online"%string) machines
    then (db, HostRefused "machine_already_online" 0)
    else
      let replaces := existsb (λ h, sql_eq (h_status h) "offline"%string) machines in
      let used := countBoundDaemonsLocked db (c_userId input) in
      if negb reconnect && negb replaces
         && match c_limit input with Some l => l <=? used | None => false end
      then (db, HostRefused "host_quota_exceeded" used)
      else (if reconnect then db else add_host input db,
            HostAllowed reconnect (if reconnect || replaces then used else used + 1)).

(** ** The snapshot *)

Record QuotaResource : Type := {
  used : Z; limit : option Z; is_over_limit : bool; reserved : option Z }.

Definition exceeds (limit : option Z) (n : Z) : bool :=
  match limit with Some l => l <? n | None => false end.

Definition getQuotaSnapshot (userId : Z) (maxBoundDaemons maxConcurrentSessions : option Z) (db : QuotaDb)
  : QuotaResource * QuotaResource :=
  let hosts := countBoundDaemonsLocked db userId in
  let active := active_count db userId in
  let held := reservation_count db userId in
  ({| used := hosts; limit := maxBoundDaemons; is_over_limit := exceeds maxBoundDaemons hosts;
      reserved := None |},
   {| used := active; limit := maxConcurrentSessions;
      is_over_limit := exceeds maxConcurrentSessions (active + held); reserved := Some held |}).
