(* ===== verification/SessionAdmission.v ===== *)
(** * SessionAdmission: messages to running sessions
    (relay/src/session-message-admissions.ts).

    A message to a session that is live is admitted under an admission row, a
    message to one that is not needs a reservation to resume it (Quota).  The
    request identifier decides which: a request is in one of the two ledgers
    only.  [admitSessionMessage] is the transaction under the account's advisory
    lock; the other operations are single statements.  SHA-256 is an argument.
    [mutateContinueAdmissionSession], which only wraps another component's
    statement, is left out.  As in every object of the development, keys that are
    array indices, which JavaScript moves to the front, do not occur. *)

From S2P Require Import Prelude JsValue JsMap Quota.

#[local] Open Scope Z_scope.

(** ** The command hash *)

(** [canonical]: objects with their entries in the order of their keys. *)
Fixpoint canonical_command (v : jsval) : jsval :=
  match v with
  | JArr l => JArr (map canonical_command l)
  | JObj fields => JObj (sort_by_key (map (λ kv, (kv.1, canonical_command kv.2)) fields))
  | _ => v
  end.

Definition command_fields (command : jsval) : jsmap string jsval :=
  match command with JObj fields => fields | _ => [] end.

(** [{...command, session_id}]. *)
Definition with_session (command : jsval) (sid : string) : jsval :=
  JObj (map_set (command_fields command) "session_id" (JStr sid)).

Section admission.
Context (sha256 : string → string).

Definition messageCommandHash (command : jsval) : string :=
  sha256 (default "undefined"%string (stringify (canonical_command (JObj
    (bfilter (λ kv, negb (bool_decide (kv.1 ∈ ["quota_grant"; "request_id"]%string)))
       (command_fields command)))))).

(** ** Admission *)

Record ContinueAdmission : Type := {
  ca_id : string;
  ca_userId : Z;
  ca_daemonId : string;
  ca_sessionId : string;
  ca_requestId : string;
  ca_canonicalSessionId : option string;
  ca_state : AdmissionState;
  ca_expiresAt : Z
}.

Inductive MessageAdmissionDecision : Type :=
| ContinueSession (admission : ContinueAdmission) (reused : bool)
| ResumeSession (decision : QuotaDecision)
| AdmissionConflict
| AdmissionForbidden (reason : string).

Record AdmitInput : Type := {
  ai_userId : Z;
  ai_daemonId : string;
  ai_sessionId : string;
  ai_requestId : string;
  ai_command : jsval;
  ai_limit : option Z
}.

Definition with_admission_state (s : AdmissionState) (m : MessageAdmissionRow) : MessageAdmissionRow := {|
  m_id := m_id m; m_user_id := m_user_id m; m_daemon_id := m_daemon_id m; m_session_id := m_session_id m;
  m_canonical_session_id := m_canonical_session_id m; m_session_aliases := m_session_aliases m;
  m_request_id := m_request_id m; m_msg_id := m_msg_id m; m_command_hash := m_command_hash m;
  m_state := s; m_expires_at := m_expires_at m; m_completed_at := m_completed_at m;
  m_outcome := m_outcome m; m_claimed_outcome := m_claimed_outcome m |}.

(** The statement before the transaction: issued grants past their time become
    uncertain. *)
Definition expire_admissions (nowDb userId : Z) (db : QuotaDb) : QuotaDb :=
  with_admissions db (map (λ m, if (m_user_id m =? userId) && bool_decide (m_state m = IssuedMessage)
                                   && (m_expires_at m <=? nowDb)
                                then with_admission_state UncertainMessage m else m) (admissions db)).

(** [getSessionRuntimePolicy]: the session of this owner, unless provisional. *)
Definition session_policy (db : QuotaDb) (sid : string) (userId : Z) : option QuotaSession :=
  head (bfilter (λ s, bool_decide (n_session_id s = sid) && sql_eq (n_user_id s) userId
                      && negb (starts_with sid "pending-")) (session_rows db)).

(** [isObserverAgentType]. *)
Definition is_observer (agent : string) : bool := bool_decide (agent ∈ ["codex-desktop"; "zcode"]%string).

Definition owns_daemon (db : QuotaDb) (daemon : string) (userId : Z) : bool :=
  existsb (λ h, bool_decide (h_daemon_id h = daemon) && sql_eq (h_user_id h) userId) (daemon_rows db).

(** The guard of lines 70-72. *)
Definition may_message (db : QuotaDb) (input : AdmitInput) (policy : QuotaSession) : bool :=
  sql_eq (n_daemon_id policy) (ai_daemonId input) && owns_daemon db (ai_daemonId input) (ai_userId input)
  && negb (is_observer (default EmptyString (n_agent_type policy)))
  && negb (bool_decide (ai_sessionId input ∈ tombstones db))
  && negb (bool_decide (n_control_mode policy = Some "legacy_read_only"%string)).

(** [activity_epoch = activity_epoch + 1]. *)
Definition bump_epoch (sid : string) (db : QuotaDb) : QuotaDb := {|
  reservations := reservations db; admissions := admissions db;
  session_rows := map (λ s, if bool_decide (n_session_id s = sid) then {|
      n_session_id := n_session_id s; n_user_id := n_user_id s; n_daemon_id := n_daemon_id s;
      n_status := n_status s; n_is_subagent := n_is_subagent s; n_agent_type := n_agent_type s;
      n_control_mode := n_control_mode s; n_created_at := n_created_at s;
      n_activity_epoch := n_activity_epoch s + 1 |} else s) (session_rows db);
  daemon_rows := daemon_rows db; tombstones := tombstones db |}.

Definition admission_of (m : MessageAdmissionRow) : ContinueAdmission := {|
  ca_id := m_id m; ca_userId := m_user_id m; ca_daemonId := m_daemon_id m; ca_sessionId := m_session_id m;
  ca_requestId := m_request_id m; ca_canonicalSessionId := Some (canonical_of m);
  ca_state := m_state m; ca_expiresAt := m_expires_at m |}.

Definition text_field (v : jsval) : option string := match v with JStr s => Some s | _ => None end.

Definition admission_request (userId : Z) (request : string) (m : MessageAdmissionRow) : bool :=
  (m_user_id m =? userId) && bool_decide (m_request_id m = request).

(** A repeated request must be the same command for the same session. *)
Definition same_message (input : AdmitInput) (m : MessageAdmissionRow) : bool :=
  bool_decide (m_daemon_id m = ai_daemonId input) && bool_decide (canonical_of m = ai_sessionId input)
  && bool_decide (m_command_hash m = messageCommandHash (with_session (ai_command input) (m_session_id m)))
  && bool_decide (m_msg_id m = text_field (js_get (ai_command input) "msg_id")).

Definition resume_input (input : AdmitInput) : ReserveInput := {|
  r_commandHash := Some (messageCommandHash (ai_command input)); r_projectId := None;
  r_userId := ai_userId input; r_requestId := ai_requestId input; r_operation := ResumeOp;
  r_daemonId := ai_daemonId input; r_sessionId := Some (ai_sessionId input); r_limit := ai_limit input;
  r_ttlMs := None; r_agentType := None; r_cwd := None |}.

Definition new_admission (now : Z) (uuid : string) (input : AdmitInput) : MessageAdmissionRow := {|
  m_id := uuid; m_user_id := ai_userId input; m_daemon_id := ai_daemonId input;
  m_session_id := ai_sessionId input; m_canonical_session_id := Some (ai_sessionId input);
  m_session_aliases := []; m_request_id := ai_requestId input;
  m_msg_id := text_field (js_get (ai_command input) "msg_id");
  m_command_hash := messageCommandHash (ai_command input); m_state := IssuedMessage;
  m_expires_at := now + 20000; m_completed_at := None; m_outcome := None; m_claimed_outcome := None |}.

(** The session is not live, or the request already has a reservation. *)
Definition needs_resume (db : QuotaDb) (input : AdmitInput) (policy : QuotaSession) : bool :=
  negb (is_live (n_status policy))
  || existsb (of_request (ai_userId input) (ai_requestId input)) (reservations db).

Definition admitInTransaction (txDb now : Z) (uuid : string) (input : AdmitInput) (db : QuotaDb)
  : outcome (QuotaDb * MessageAdmissionDecision) :=
  match session_policy db (ai_sessionId input) (ai_userId input) with
  | None => Returns (db, AdmissionForbidden "session_not_found")
  | Some policy =>
      if negb (may_message db input policy)
      then Returns (db, AdmissionForbidden
             (if is_observer (default EmptyString (n_agent_type policy)) then "observer_read_only"
              else "session_not_found"))
      else match bfilter (admission_request (ai_userId input) (ai_requestId input)) (admissions db) with
      | m :: _ =>
          Returns (db, if same_message input m then ContinueSession (admission_of m) true
                       else AdmissionConflict)
      | [] =>
          if needs_resume db input policy then
            try! r := reserveInTransaction txDb now uuid (resume_input input) db in
            Returns (match snd r with
                     | Allowed _ _ false => bump_epoch (ai_sessionId input) (fst r)
                     | _ => fst r
                     end, ResumeSession (snd r))
          else if existsb (λ m, bool_decide (m_id m = uuid)) (admissions db) then duplicate_key
          else let m := new_admission now uuid input in
               Returns (bump_epoch (ai_sessionId input) (with_admissions db (admissions db ++ [m])),
                        ContinueSession {| ca_id := uuid; ca_userId := ai_userId input;
                          ca_daemonId := ai_daemonId input; ca_sessionId := ai_sessionId input;
                          ca_requestId := ai_requestId input; ca_canonicalSessionId := None;
                          ca_state := IssuedMessage; ca_expiresAt := m_expires_at m |} false)
      end
  end.

(** [admitSessionMessage]; [nowDb] and [txDb] are the database's clock at the
    first statement and in the transaction, [now] is the relay's. *)
Definition admitSessionMessage (nowDb txDb now : Z) (uuid : string) (input : AdmitInput) (db0 : QuotaDb)
  : QuotaDb * outcome MessageAdmissionDecision :=
  let db := expire_admissions nowDb (ai_userId input) db0 in
  match admitInTransaction txDb now uuid input db with
  | Returns (db', d) => (db', Returns d)
  | Throws m => (db, Throws m)
  end.

(** ** Outcomes *)

(** [session_active] and [accepted] may follow each other. *)
Definition compatible (before : option string) (outcome : string) : bool :=
  sql_eq before outcome
  || (match before with Some o => bool_decide (o ∈ ["session_active"; "accepted"]%string) | None => false end
      && bool_decide (outcome ∈ ["session_active"; "accepted"]%string)).

Definition known_ids (m : MessageAdmissionRow) : list string :=
  m_session_id m :: option_list (m_canonical_session_id m) ++ m_session_aliases m.

(** [recoverContinueAdmission]; [msgId] is [None] when it is not compared. *)
Definition recoverContinueAdmission (userId : Z) (daemonId sessionId requestId : string)
  (msgId : option (option string)) (result : string) (db : QuotaDb) : outcome (option ContinueAdmission) :=
  match bfilter (admission_request userId requestId) (admissions db) with
  | [] => Returns None
  | m :: _ =>
      if negb (bool_decide (m_daemon_id m = daemonId)) || negb (bool_decide (sessionId ∈ known_ids m))
         || match m_outcome m with
            | Some o => bool_decide (o ∈ ["user_deleted"; "daemon_deleted"]%string)
                        || (bool_decide (o = "rejected"%string) && negb (bool_decide (result = "rejected"%string)))
                        || (bool_decide (o ∈ ["accepted"; "session_active"]%string)
                            && bool_decide (result = "rejected"%string))
            | None => false
            end
         || match msgId with Some i => negb (bool_decide (m_msg_id m = i)) | None => false end
      then Throws quota_binding_mismatch
      else Returns (Some {| ca_id := m_id m; ca_userId := userId; ca_daemonId := daemonId;
        ca_sessionId := m_session_id m; ca_requestId := requestId;
        ca_canonicalSessionId := Some (canonical_of m); ca_state := m_state m;
        ca_expiresAt := m_expires_at m |})
  end.

(** The identity tuple of an admission. *)
Definition is_admission (a : ContinueAdmission) (m : MessageAdmissionRow) : bool :=
  bool_decide (m_id m = ca_id a) && (m_user_id m =? ca_userId a)
  && bool_decide (m_daemon_id m = ca_daemonId a) && bool_decide (m_session_id m = ca_sessionId a)
  && bool_decide (m_request_id m = ca_requestId a).

Definition session_is_live (db : QuotaDb) (sid : string) : bool :=
  existsb (λ s, bool_decide (n_session_id s = sid) && is_live (n_status s)) (session_rows db).

(** The owner's session on the owner's host. *)
Definition owned_session (db : QuotaDb) (m : MessageAdmissionRow) : bool :=
  existsb (λ s, bool_decide (n_session_id s = canonical_of m) && sql_eq (n_user_id s) (m_user_id m)
                && sql_eq (n_daemon_id s) (m_daemon_id m)
                && existsb (λ h, sql_eq (n_daemon_id s) (h_daemon_id h) && sql_eq (h_user_id h) (m_user_id m))
                     (daemon_rows db)) (session_rows db).

Definition complete_target (a : ContinueAdmission) (result : string) (db : QuotaDb) (m : MessageAdmissionRow)
  : bool :=
  is_admission a m && compatible (m_claimed_outcome m) result
  && (bool_decide (m_outcome m = None) || compatible (m_outcome m) result)
  && owned_session db m && negb (bool_decide (canonical_of m ∈ tombstones db)).

(** Accepted, but the session was not seen live: the outcome stays open. *)
Definition stays_open (result : string) (db : QuotaDb) (m : MessageAdmissionRow) : bool :=
  bool_decide (result = "accepted"%string) && negb (session_is_live db (canonical_of m))
  && negb (bool_decide (m_state m = CompletedMessage)).

Definition complete_row (nowDb : Z) (result : string) (db : QuotaDb) (m : MessageAdmissionRow)
  : MessageAdmissionRow := {|
  m_id := m_id m; m_user_id := m_user_id m; m_daemon_id := m_daemon_id m; m_session_id := m_session_id m;
  m_canonical_session_id := m_canonical_session_id m; m_session_aliases := m_session_aliases m;
  m_request_id := m_request_id m; m_msg_id := m_msg_id m; m_command_hash := m_command_hash m;
  m_state := if stays_open result db m then UncertainMessage else CompletedMessage;
  m_expires_at := m_expires_at m;
  m_completed_at := if stays_open result db m then None
                    else match m_completed_at m with Some t => Some t | None => Some nowDb end;
  m_outcome := if sql_eq (m_outcome m) "session_active"%string then m_outcome m else Some result;
  m_claimed_outcome := m_claimed_outcome m |}.

Definition update_admissions (db : QuotaDb) (p : MessageAdmissionRow → bool)
  (f : MessageAdmissionRow → MessageAdmissionRow) : outcome QuotaDb :=
  if existsb p (admissions db)
  then Returns (with_admissions db (map (λ m, if p m then f m else m) (admissions db)))
  else Throws quota_binding_mismatch.

Definition completeContinueAdmission (nowDb : Z) (a : ContinueAdmission) (result : string) (db : QuotaDb)
  : outcome QuotaDb :=
  update_admissions db (complete_target a result db) (complete_row nowDb result db).

(** [claimContinueAdmissionOutcome]. *)
Definition claim_outcome_target (a : ContinueAdmission) (result : string) (m : MessageAdmissionRow) : bool :=
  is_admission a m
  && (bool_decide (m_claimed_outcome m = None) || compatible (m_claimed_outcome m) result)
  && (bool_decide (m_outcome m = None) || compatible (m_outcome m) result).

Definition claim_outcome_row (result : string) (m : MessageAdmissionRow) : MessageAdmissionRow := {|
  m_id := m_id m; m_user_id := m_user_id m; m_daemon_id := m_daemon_id m; m_session_id := m_session_id m;
  m_canonical_session_id := m_canonical_session_id m; m_session_aliases := m_session_aliases m;
  m_request_id := m_request_id m; m_msg_id := m_msg_id m; m_command_hash := m_command_hash m;
  m_state := m_state m; m_expires_at := m_expires_at m; m_completed_at := m_completed_at m;
  m_outcome := m_outcome m;
  m_claimed_outcome := if sql_eq (m_claimed_outcome m) "session_active"%string then m_claimed_outcome m
                       else Some result |}.

Definition canonical_id (a : ContinueAdmission) : string :=
  match ca_canonicalSessionId a with Some s => s | None => ca_sessionId a end.

Definition claimContinueAdmissionOutcome (a : ContinueAdmission) (result : string) (db : QuotaDb)
  : outcome QuotaDb :=
  if existsb (λ m, bool_decide (m_id m = ca_id a) && negb (bool_decide (canonical_of m = canonical_id a)))
       (admissions db)
  then Throws "session renamed during admission recovery"
  else update_admissions db (claim_outcome_target a result) (claim_outcome_row result).

(** [resolveMessageSessionId]. *)
Definition resolveMessageSessionId (userId : Z) (command : jsval) (db : QuotaDb) : option string :=
  let requestId := if truthy (js_get command "request_id") then js_get command "request_id"
                   else js_get command "msg_id" in
  match requestId, js_get command "session_id" with
  | JStr request, JStr sid =>
      match bfilter (admission_request userId request) (admissions db) with
      | m :: _ =>
          if bool_decide (sid ∈ known_ids m)
             && match m_msg_id m with
                | Some i => is_str (js_get command "msg_id") i
                | None => is_nullish (js_get command "msg_id")
                end
             && bool_decide (m_command_hash m = messageCommandHash (with_session command (m_session_id m)))
          then Some (canonical_of m) else None
      | [] => None
      end
  | _, _ => None
  end.
End admission.

(** ** Deletions, renames and merged hosts
    (relay/src/db.ts, what its transactions do to these tables) *)

Definition with_rows (db : QuotaDb) (ss : list QuotaSession) (ms : list MessageAdmissionRow)
  (hs : list QuotaDaemon) (gone : list string) : QuotaDb := {|
  reservations := reservations db; admissions := ms; session_rows := ss; daemon_rows := hs; tombstones := gone |}.

Definition with_daemon_id (daemon : option string) (s : QuotaSession) : QuotaSession := {|
  n_session_id := n_session_id s; n_user_id := n_user_id s; n_daemon_id := daemon; n_status := n_status s;
  n_is_subagent := n_is_subagent s; n_agent_type := n_agent_type s; n_control_mode := n_control_mode s;
  n_created_at := n_created_at s; n_activity_epoch := n_activity_epoch s |}.

(** [state = 'completed'] with an outcome that no event reported. *)
Definition closed_row (completed : Z) (result : string) (m : MessageAdmissionRow) : MessageAdmissionRow := {|
  m_id := m_id m; m_user_id := m_user_id m; m_daemon_id := m_daemon_id m; m_session_id := m_session_id m;
  m_canonical_session_id := m_canonical_session_id m; m_session_aliases := m_session_aliases m;
  m_request_id := m_request_id m; m_msg_id := m_msg_id m; m_command_hash := m_command_hash m;
  m_state := CompletedMessage; m_expires_at := m_expires_at m; m_completed_at := Some completed;
  m_outcome := Some result; m_claimed_outcome := m_claimed_outcome m |}.

(** A session is deleted: its open messages are completed, its row goes, and a
    tombstone stays. *)
Definition delete_quota_session (nowDb : Z) (sid : string) (db : QuotaDb) : QuotaDb :=
  with_rows db
    (bfilter (λ s, negb (bool_decide (n_session_id s = sid))) (session_rows db))
    (map (λ m, if bool_decide (canonical_of m = sid) && outcome_open m then closed_row nowDb "user_deleted" m else m)
       (admissions db))
    (daemon_rows db)
    (if bool_decide (sid ∈ tombstones db) then tombstones db else tombstones db ++ [sid]).

Definition deleteDaemon (nowDb userId : Z) (daemonId : string) (db : QuotaDb) : QuotaDb * bool :=
  if existsb (λ h, bool_decide (h_daemon_id h = daemonId) && sql_eq (h_user_id h) userId) (daemon_rows db)
  then
    (with_rows db
       (map (λ s, if sql_eq (n_daemon_id s) daemonId then with_daemon_id None s else s) (session_rows db))
       (map (λ m, if (m_user_id m =? userId) && bool_decide (m_daemon_id m = daemonId)
                  then closed_row (default nowDb (m_completed_at m)) "daemon_deleted" m else m) (admissions db))
       (bfilter (λ h, negb (bool_decide (h_daemon_id h = daemonId))) (daemon_rows db))
       (tombstones db), true)
  else (db, false).

(** The account is deleted; its reservations and messages go with the row of
    [users] they refer to. *)
Definition delete_quota_account (userId : Z) (db : QuotaDb) : QuotaDb :=
  let ids := map n_session_id (bfilter (λ s, sql_eq (n_user_id s) userId) (session_rows db)) in {|
  reservations := bfilter (λ q, negb (q_user_id q =? userId)) (reservations db);
  admissions := bfilter (λ m, negb (m_user_id m =? userId)) (admissions db);
  session_rows := bfilter (λ s, negb (sql_eq (n_user_id s) userId)) (session_rows db);
  daemon_rows := bfilter (λ h, negb (sql_eq (h_user_id h) userId)) (daemon_rows db);
  tombstones := bfilter (λ t, negb (bool_decide (t ∈ ids))) (tombstones db) |}.

Record RenameInput : Type := {
  oldSessionId : string;
  newSessionId : string;
  rn_daemonId : string;
  rn_userId : option Z
}.

Definition daemonSessionAccessAllowed (s : QuotaSession) (i : RenameInput) : bool :=
  match rn_userId i with
  | Some u => bool_decide (n_user_id s = Some u)
              || (bool_decide (n_user_id s = None) && bool_decide (n_daemon_id s = Some (rn_daemonId i)))
  | None => bool_decide (n_user_id s = None) && bool_decide (n_daemon_id s = Some (rn_daemonId i))
  end.

Definition renamed_session (i : RenameInput) (s : QuotaSession) : QuotaSession := {|
  n_session_id := newSessionId i;
  n_user_id := match rn_userId i with Some u => Some u | None => n_user_id s end;
  n_daemon_id := Some (rn_daemonId i); n_status := n_status s;
  n_is_subagent := n_is_subagent s; n_agent_type := n_agent_type s; n_control_mode := n_control_mode s;
  n_created_at := n_created_at s; n_activity_epoch := n_activity_epoch s |}.

(** The messages of the session follow it; [user_id = NULL] holds of none. *)
Definition follows_rename (i : RenameInput) (m : MessageAdmissionRow) : bool :=
  bool_decide (canonical_of m = oldSessionId i) && sql_eq (rn_userId i) (m_user_id m)
  && bool_decide (m_daemon_id m = rn_daemonId i).

Definition renamed_admission (i : RenameInput) (m : MessageAdmissionRow) : MessageAdmissionRow := {|
  m_id := m_id m; m_user_id := m_user_id m; m_daemon_id := m_daemon_id m; m_session_id := m_session_id m;
  m_canonical_session_id := Some (newSessionId i);
  m_session_aliases := if bool_decide (oldSessionId i ∈ m_session_aliases m) then m_session_aliases m
                       else m_session_aliases m ++ [oldSessionId i];
  m_request_id := m_request_id m; m_msg_id := m_msg_id m; m_command_hash := m_command_hash m;
  m_state := m_state m; m_expires_at := m_expires_at m; m_completed_at := m_completed_at m;
  m_outcome := m_outcome m; m_claimed_outcome := m_claimed_outcome m |}.

Definition session_with_id (db : QuotaDb) (sid : string) : option QuotaSession :=
  head (bfilter (λ s, bool_decide (n_session_id s = sid)) (session_rows db)).

Definition renameOwnedDaemonSession (i : RenameInput) (db : QuotaDb) : outcome QuotaDb :=
  match session_with_id db (oldSessionId i), session_with_id db (newSessionId i) with
  | None, Some s => if daemonSessionAccessAllowed s i then Returns db else Throws "unknown daemon session"
  | None, None => Throws "unknown daemon session"
  | Some s, found =>
      if negb (daemonSessionAccessAllowed s i) then Throws "session ownership violation"
      else match found with
           | Some _ => Throws "session ownership violation"
           | None =>
               Returns (with_rows db
                 (map (λ s, if bool_decide (n_session_id s = oldSessionId i) then renamed_session i s else s)
                    (session_rows db))
                 (map (λ m, if follows_rename i m then renamed_admission i m else m) (admissions db))
                 (daemon_rows db) (tombstones db))
           end
  end.

Definition rebound_reservation (daemon : string) (q : ReservationRow) : ReservationRow := {|
  q_id := q_id q; q_user_id := q_user_id q; q_resource := q_resource q; q_operation := q_operation q;
  q_daemon_id := Some daemon; q_session_id := q_session_id q;
  q_request_id := q_request_id q; q_expires_at := q_expires_at q; q_created_at := q_created_at q;
  q_state := q_state q; q_settled_at := q_settled_at q; q_settlement_reason := q_settlement_reason q;
  q_agent_type := q_agent_type q; q_cwd := q_cwd q; q_command_hash := q_command_hash q;
  q_project_id := q_project_id q |}.

Definition rebound_admission (daemon : string) (m : MessageAdmissionRow) : MessageAdmissionRow := {|
  m_id := m_id m; m_user_id := m_user_id m; m_daemon_id := daemon; m_session_id := m_session_id m;
  m_canonical_session_id := m_canonical_session_id m; m_session_aliases := m_session_aliases m;
  m_request_id := m_request_id m; m_msg_id := m_msg_id m; m_command_hash := m_command_hash m;
  m_state := m_state m; m_expires_at := m_expires_at m; m_completed_at := m_completed_at m;
  m_outcome := m_outcome m; m_claimed_outcome := m_claimed_outcome m |}.

Definition daemon_in (ids : list string) (o : option string) : bool :=
  match o with Some s => bool_decide (s ∈ ids) | None => false end.

(** [consolidateOfflineMachineDaemons]: the offline hosts of a machine become
    the one that was activated on it. *)
Definition consolidateOfflineMachineDaemons (userId : Z) (daemonId machineId : string) (db : QuotaDb)
  : outcome QuotaDb :=
  if negb (isStableMachineID (Some machineId)) then Returns db
  else if negb (existsb (λ h, bool_decide (h_daemon_id h = daemonId) && sql_eq (h_user_id h) userId)
                  (daemon_rows db))
  then Throws ("activated daemon is no longer owned by user: " +:+ daemonId)
  else
    let candidate h :=
      same_machine {| c_userId := userId; c_daemonId := daemonId; c_machineId := Some machineId; c_limit := None |}
        machineId h && sql_eq (h_status h) "offline"%string in
    let old := map h_daemon_id (bfilter candidate (daemon_rows db)) in
    if bool_decide (old = []) then Returns db
    else Returns {|
      reservations := map (λ q, if (q_user_id q =? userId) && daemon_in old (q_daemon_id q)
                                then rebound_reservation daemonId q else q) (reservations db);
      admissions := map (λ m, if (m_user_id m =? userId) && bool_decide (m_daemon_id m ∈ old)
                              then rebound_admission daemonId m else m) (admissions db);
      session_rows := map (λ s, if daemon_in old (n_daemon_id s)
                                then with_daemon_id (if sql_eq (n_user_id s) userId then Some daemonId else None) s
                                else s) (session_rows db);
      daemon_rows := bfilter (λ h, negb (sql_eq (h_user_id h) userId && bool_decide (h_daemon_id h ∈ old)
                                         && sql_eq (h_status h) "offline"%string)) (daemon_rows db);
      tombstones := tombstones db |}.
