(* ===== verification/QuotaSpec.v ===== *)
(** * QuotaSpec: the slots an account takes never exceed its limit

    The code counts live sessions and unsettled slots with two SQL queries.
    [usage_occupied] shows that their sum is the size of one set, [occupied]:
    the slots of counted sessions together with the reserved ones.  The claims are
    stated with [in_use], which reads the states of the rows.  A
    session can come into use without asking: a daemon reports it, or a message
    goes to a live session that the count leaves out.  [outside_after] keeps the
    set of these, and every operation of Quota and SessionAdmission keeps the
    others within the limit ([quota_never_exceeded]); a reservation leaves the
    set only by a settlement that names it ([reservation_ledger]). *)

From stdpp Require Import relations.
From S2P Require Import Prelude JsValue JsMap Quota SessionAdmission.

#[local] Open Scope Z_scope.

(** ** Usage as a set *)

Definition active_slots (db : QuotaDb) (u : Z) : gset Slot :=
  list_to_set (map (λ s, inl (n_session_id s)) (bfilter (counts_active u) (session_rows db))).

Definition occupied (db : QuotaDb) (u : Z) : gset Slot := active_slots db u ∪ slots db u.

(** The number the code compares with the limit. *)
Definition usage (db : QuotaDb) (u : Z) : Z := active_count db u + reservation_count db u.

Lemma elem_of_active_slots db u x :
  x ∈ active_slots db u ↔ ∃ s, s ∈ session_rows db ∧ counts_active u s = true ∧ x = inl (n_session_id s).
Proof.
  unfold active_slots. rewrite elem_of_list_to_set.
  change (map ?f ?l) with (f <$> l). rewrite list_elem_of_fmap.
  setoid_rewrite elem_of_bfilter. naive_solver.
Qed.

Lemma elem_of_slots db u x :
  x ∈ slots db u ↔
  (∃ q, q ∈ reservations db ∧ holds_slot u q = true ∧ x = reservation_slot q) ∨
  (∃ m, m ∈ admissions db ∧ holds_admission u m = true ∧ x = inl (canonical_of m)).
Proof.
  unfold slots. rewrite elem_of_union, !elem_of_list_to_set.
  change (map ?f ?l) with (f <$> l). rewrite !list_elem_of_fmap.
  setoid_rewrite elem_of_bfilter. naive_solver.
Qed.

Lemma uncovered_spec db u x : uncovered db u x = true ↔ x ∉ active_slots db u.
Proof.
  rewrite elem_of_active_slots. unfold uncovered. destruct x as [sid|id].
  - rewrite negb_true_iff, <- not_true_iff_false, existsb_exists. apply not_iff_compat.
    split; intros (s & Hs & Hx); exists s.
    + apply andb_true_iff in Hx as [? Hx]. apply bool_decide_eq_true in Hx as <-.
      by rewrite list_elem_of_In.
    + destruct Hx as [Hc [= ->]]. rewrite <- list_elem_of_In, Hc, bool_decide_eq_true_2 by done. done.
  - split; [|done]. by intros _ (s & _ & _ & ?).
Qed.

Lemma size_list_to_set_NoDup {A} `{Countable A} (l : list A) :
  NoDup l → size (list_to_set l : gset A) = length l.
Proof.
  induction 1 as [|x l Hx _ IH]; [by rewrite list_to_set_nil, size_empty|].
  rewrite list_to_set_cons, size_union, size_singleton, IH; [done|]. set_solver.
Qed.

Lemma usage_occupied db u :
  NoDup (n_session_id <$> session_rows db) → usage db u = Z.of_nat (size (occupied db u)).
Proof.
  intros Hnd. unfold usage, active_count, reservation_count, occupied.
  rewrite size_union_alt. rewrite Nat2Z.inj_add. f_equal.
  - unfold active_slots. rewrite size_list_to_set_NoDup, length_map; [done|].
    change (map _ ?l) with ((inl ∘ n_session_id : _ → Slot) <$> l). rewrite list_fmap_compose.
    apply (NoDup_fmap_2 inl). eapply sublist_NoDup; [exact Hnd|].
    apply fmap_sublist, bfilter_sublist.
  - f_equal. rewrite <- (size_list_to_set_NoDup (bfilter (uncovered db u) (elements (slots db u)))).
    + f_equal. apply leibniz_equiv. intros x. rewrite elem_of_list_to_set, elem_of_bfilter, elem_of_elements,
        uncovered_spec. set_solver.
    + eapply sublist_NoDup; [apply (NoDup_elements (slots db u))|apply bfilter_sublist].
Qed.

(** ** Steps *)

(** Who acted. *)
Inductive QuotaEvent : Type :=
| Reserving (input : ReserveInput)
| Messaging (input : AdmitInput)
| Pinning (binding : QuotaReservationBinding)
| Renaming (input : RenameInput)
| AccountGone (userId : Z)
| DaemonReport
| Recording.

Definition with_sessions (db : QuotaDb) (rows : list QuotaSession) : QuotaDb := {|
  reservations := reservations db; admissions := admissions db; session_rows := rows;
  daemon_rows := daemon_rows db; tombstones := tombstones db |}.

Definition with_daemons (db : QuotaDb) (rows : list QuotaDaemon) : QuotaDb := {|
  reservations := reservations db; admissions := admissions db; session_rows := session_rows db;
  daemon_rows := rows; tombstones := tombstones db |}.

(** One operation of some process of the relay, or any change of the hosts, or
    of the sessions by the events of a daemon; sessions keep distinct
    identifiers. *)
Inductive quota_step (sha256 : string → string) (db : QuotaDb) : QuotaEvent → QuotaDb → Prop :=
| qs_reserve nowDb now uuid input r db' :
    reserveConcurrentSession nowDb now uuid input db = (db', r) → quota_step sha256 db (Reserving input) db'
| qs_admit nowDb txDb now uuid input r db' :
    admitSessionMessage sha256 nowDb txDb now uuid input db = (db', r) →
    quota_step sha256 db (Messaging input) db'
| qs_settle now b reason r db' :
    settleQuotaReservation now b reason db = Returns (db', r) → quota_step sha256 db Recording db'
| qs_pin b r db' :
    claimQuotaReservationSession b db = Returns (db', r) → quota_step sha256 db (Pinning b) db'
| qs_uncertain b reason r db' :
    markQuotaReservationUncertain b reason db = Returns (db', r) → quota_step sha256 db Recording db'
| qs_complete nowDb a result db' :
    completeContinueAdmission nowDb a result db = Returns db' → quota_step sha256 db Recording db'
| qs_claim_outcome a result db' :
    claimContinueAdmissionOutcome a result db = Returns db' → quota_step sha256 db Recording db'
| qs_host input r db' : claimBoundDaemonSlot input db = (db', r) → quota_step sha256 db Recording db'
| qs_delete nowDb sid : quota_step sha256 db Recording (delete_quota_session nowDb sid db)
| qs_delete_host nowDb u daemon r db' :
    deleteDaemon nowDb u daemon db = (db', r) → quota_step sha256 db Recording db'
| qs_account u : quota_step sha256 db (AccountGone u) (delete_quota_account u db)
| qs_rename i db' : renameOwnedDaemonSession i db = Returns db' → quota_step sha256 db (Renaming i) db'
| qs_merge u daemon machine db' :
    consolidateOfflineMachineDaemons u daemon machine db = Returns db' → quota_step sha256 db Recording db'
| qs_hosts rows : quota_step sha256 db Recording (with_daemons db rows)
| qs_sessions rows :
    NoDup (n_session_id <$> rows) → quota_step sha256 db DaemonReport (with_sessions db rows).

(** The account's session is live, but of a kind the limit does not count: a
    subagent, or one that is only observed. *)
Definition uncounted (u : Z) (sid : option string) (db : QuotaDb) : bool :=
  existsb (λ s, bool_decide (Some (n_session_id s) = sid) && sql_eq (n_user_id s) u && is_live (n_status s)
                && negb (counts_active u s)) (session_rows db).

Definition excused (u : Z) (sid : option string) (db : QuotaDb) : gset Slot :=
  match sid with Some s => if uncounted u sid db then {[inl s]} else ∅ | None => ∅ end.

(** The slots in use that were not taken from the limit: sessions that a daemon
    reported while they had no slot, until one is bound to them, renamed
    sessions whose old name keeps a slot, and uncounted live sessions that were
    resumed or sent a message. *)
Definition outside_after (u : Z) (ev : QuotaEvent) (db db' : QuotaDb) (out : gset Slot) : gset Slot :=
  (match ev with
   | DaemonReport => out ∪ (occupied db' u ∖ occupied db u)
   | Reserving input => out ∪ (excused u (r_sessionId input) db ∖ occupied db u)
   | Messaging input => out ∪ (excused u (Some (ai_sessionId input)) db ∖ occupied db u)
   | Pinning b =>
       match b_sessionId b with
       | Some sid => if bool_decide (inr (reservationId b) ∈ occupied db u ∖ occupied db' u)
                     then out ∖ {[inl sid]} else out
       | None => out
       end
   | Renaming i =>
       if bool_decide (inl (oldSessionId i) ∈ (occupied db u ∖ occupied db' u) ∖ out)
       then out else out ∪ ({[inl (newSessionId i)]} ∖ occupied db u)
   | AccountGone _ | Recording => out
   end) ∩ occupied db' u.

(** What account [u] asks for carries a limit of at most [limit]. *)
Definition asks_within (u limit : Z) (ev : QuotaEvent) : Prop :=
  match ev with
  | Reserving input => r_userId input = u → ∃ l, r_limit input = Some l ∧ l ≤ limit
  | Messaging input => ai_userId input = u → ∃ l, ai_limit input = Some l ∧ l ≤ limit
  | _ => True
  end.

Definition tracked_step (sha256 : string → string) (u limit : Z) (w w' : QuotaDb * gset Slot) : Prop :=
  ∃ ev, quota_step sha256 w.1 ev w'.1 ∧ asks_within u limit ev ∧ w'.2 = outside_after u ev w.1 w'.1 w.2.

(** The keys of the tables, and that a request is in one ledger only. *)
Record quota_ok (db : QuotaDb) : Prop := {
  ok_sessions : NoDup (n_session_id <$> session_rows db);
  ok_reservation_ids : NoDup (q_id <$> reservations db);
  ok_requests : NoDup ((λ q, (q_user_id q, q_request_id q)) <$> reservations db);
  ok_messages : NoDup ((λ m, (m_user_id m, m_request_id m)) <$> admissions db);
  ok_one_ledger q m : q ∈ reservations db → m ∈ admissions db →
    ¬ (q_user_id q = m_user_id m ∧ q_request_id q = m_request_id m)
}.

(** ** Rewriting rows *)

(** What an update of a reservation never touches. *)
Definition same_row (q q' : ReservationRow) : Prop :=
  q_id q' = q_id q ∧ q_user_id q' = q_user_id q ∧ q_resource q' = q_resource q ∧
  q_request_id q' = q_request_id q ∧ q_operation q' = q_operation q ∧ q_created_at q' = q_created_at q ∧
  ∀ sid, q_session_id q = Some sid → q_session_id q' = Some sid.

Definition same_admission (m m' : MessageAdmissionRow) : Prop :=
  m_user_id m' = m_user_id m ∧ m_request_id m' = m_request_id m ∧ canonical_of m' = canonical_of m ∧
  (outcome_open m' = true → outcome_open m = true).

Lemma same_row_refl q : same_row q q.
Proof. by unfold same_row. Qed.

Lemma same_row_trans q1 q2 q3 : same_row q1 q2 → same_row q2 q3 → same_row q1 q3.
Proof.
  intros (? & ? & ? & ? & ? & ? & Hs) (? & ? & ? & ? & ? & ? & Hs').
  unfold same_row. split_and!; try congruence. eauto.
Qed.

Lemma holds_slot_same u q q' :
  same_row q q' → unsettled q' = unsettled q → holds_slot u q' = holds_slot u q.
Proof. intros (_ & Hu & Hr & _) Hs. unfold holds_slot. by rewrite Hu, Hr, Hs. Qed.

Lemma if_same_row (b : bool) q q' : same_row q q' → same_row q (if b then q' else q).
Proof. intros. destruct b; [done|apply same_row_refl]. Qed.

Lemma map_keys {A B} (key : A → B) (g : A → A) (l : list A) :
  (∀ x, x ∈ l → key (g x) = key x) → key <$> map g l = key <$> l.
Proof.
  induction l as [|x l IH]; intros H; [done|]. cbn. rewrite (H x (list_elem_of_here _ _)). f_equal.
  apply IH. intros y Hy. apply H. by right.
Qed.

(** Rows replaced by others of the same keys, some of them deleted. *)
Lemma quota_ok_reservations db rows g p :
  quota_ok db → rows = map g (bfilter p (reservations db)) →
  (∀ q, q ∈ reservations db → same_row q (g q)) → quota_ok (with_reservations db rows).
Proof.
  intros [H1 H2 H3 H4 H5] -> Hg.
  assert (Hg' : ∀ q, q ∈ bfilter p (reservations db) → same_row q (g q))
    by (intros q [_ ?]%elem_of_bfilter; auto).
  constructor; simpl; [done|..|done|].
  - rewrite (map_keys q_id) by (intros q Hq; apply Hg', Hq).
    eapply sublist_NoDup; [exact H2|]. apply fmap_sublist, bfilter_sublist.
  - rewrite (map_keys (λ q, (q_user_id q, q_request_id q))).
    + eapply sublist_NoDup; [exact H3|]. apply fmap_sublist, bfilter_sublist.
    + intros q Hq. destruct (Hg' q Hq) as (_ & -> & _ & -> & _). done.
  - intros q' m (q & -> & Hq)%list_elem_of_fmap Hm. destruct (Hg' q Hq) as (_ & -> & _ & -> & _).
    apply elem_of_bfilter in Hq as [_ Hq]. by apply H5.
Qed.

Lemma quota_ok_map db g :
  quota_ok db → (∀ q, q ∈ reservations db → same_row q (g q)) →
  quota_ok (with_reservations db (map g (reservations db))).
Proof.
  intros Hok Hg. eapply (quota_ok_reservations db _ g (λ _, true)); [done| |done].
  by rewrite bfilter_true.
Qed.

Lemma quota_ok_admissions db g :
  quota_ok db → (∀ m, m ∈ admissions db → same_admission m (g m)) →
  quota_ok (with_admissions db (map g (admissions db))).
Proof.
  intros [H1 H2 H3 H4 H5] Hg. constructor; simpl; try done.
  - rewrite (map_keys (λ m, (m_user_id m, m_request_id m))); [done|].
    intros m Hm. by destruct (Hg m Hm) as (-> & -> & _).
  - intros q m' Hq (m & -> & Hm)%list_elem_of_fmap. destruct (Hg m Hm) as (-> & -> & _). by apply H5.
Qed.

(** Rows of both ledgers rewritten or deleted under the same keys. *)
Lemma quota_ok_frame db db' g p h p' :
  quota_ok db → NoDup (n_session_id <$> session_rows db') →
  reservations db' = map g (bfilter p (reservations db)) → (∀ q, q ∈ reservations db → same_row q (g q)) →
  admissions db' = map h (bfilter p' (admissions db)) →
  (∀ m, m_user_id (h m) = m_user_id m ∧ m_request_id (h m) = m_request_id m) → quota_ok db'.
Proof.
  intros Hok Hn Hr Hg Ha Hh. pose proof (quota_ok_reservations db _ g p Hok eq_refl Hg) as [_ H2 H3 _ H5].
  simpl in *. destruct Hok as [_ _ _ H4 _]. constructor; rewrite ?Hr, ?Ha; try done.
  - rewrite (map_keys (λ m, (m_user_id m, m_request_id m))).
    + eapply sublist_NoDup; [exact H4|]. apply fmap_sublist, bfilter_sublist.
    + intros m _. by destruct (Hh m) as [-> ->].
  - intros q m Hq (m0 & -> & [_ Hm]%elem_of_bfilter)%list_elem_of_fmap. destruct (Hh m0) as [-> ->].
    by apply (H5 q m0).
Qed.

Lemma quota_ok_sessions db rows :
  quota_ok db → NoDup (n_session_id <$> rows) → quota_ok (with_sessions db rows).
Proof. intros [H1 H2 H3 H4 H5] Hn. by constructor. Qed.

Lemma quota_ok_hosts db db' :
  reservations db' = reservations db → admissions db' = admissions db →
  session_rows db' = session_rows db → quota_ok db → quota_ok db'.
Proof. intros Hr Ha Hs [H1 H2 H3 H4 H5]. constructor; rewrite ?Hr, ?Ha, ?Hs; done. Qed.

(** ** The set of slots under each change *)

(** Fewer or settled reservations occupy no more, nor do sessions that counted. *)
Lemma occupied_frame db db' u :
  (∀ s', s' ∈ session_rows db' → counts_active u s' = true →
     ∃ s, s ∈ session_rows db ∧ counts_active u s = true ∧ n_session_id s = n_session_id s') →
  (∀ q', q' ∈ reservations db' → holds_slot u q' = true →
     ∃ q, q ∈ reservations db ∧ holds_slot u q = true ∧ reservation_slot q = reservation_slot q') →
  (∀ m', m' ∈ admissions db' → holds_admission u m' = true →
     ∃ m, m ∈ admissions db ∧ holds_admission u m = true ∧ canonical_of m = canonical_of m') →
  occupied db' u ⊆ occupied db u.
Proof.
  intros Hs Hq Hm x. unfold occupied. rewrite !elem_of_union, !elem_of_slots, !elem_of_active_slots.
  intros [(s' & Hin & Hc & ->)|[(q' & Hin & Hh & ->)|(m' & Hin & Hh & ->)]]; [left|right; left|right; right].
  - destruct (Hs s' Hin Hc) as (s & ? & ? & Hid). exists s. by rewrite Hid.
  - destruct (Hq q' Hin Hh) as (q & ? & ? & Hslot). exists q. by rewrite Hslot.
  - destruct (Hm m' Hin Hh) as (m & ? & ? & Hc). exists m. by rewrite Hc.
Qed.

Lemma occupied_shrinks db db' u :
  session_rows db' = session_rows db →
  (∀ q', q' ∈ reservations db' → holds_slot u q' = true →
     ∃ q, q ∈ reservations db ∧ holds_slot u q = true ∧ reservation_slot q = reservation_slot q') →
  (∀ m', m' ∈ admissions db' → holds_admission u m' = true →
     ∃ m, m ∈ admissions db ∧ holds_admission u m = true ∧ canonical_of m = canonical_of m') →
  occupied db' u ⊆ occupied db u.
Proof. intros Hs Hq Hm. apply occupied_frame; [|done..]. rewrite Hs. intros s ? ?. by exists s. Qed.

Lemma usage_mono db db' u :
  quota_ok db → quota_ok db' → occupied db' u ⊆ occupied db u → usage db' u ≤ usage db u.
Proof.
  intros Hok Hok' Hsub. rewrite !usage_occupied by (apply ok_sessions; done).
  apply inj_le, subseteq_size, Hsub.
Qed.

(** ** Transitions of a reservation *)

Lemma settle_same now b reason q : same_row q (settled_row now b reason q).
Proof. unfold same_row. simpl. split_and!; try done. by intros sid ->. Qed.

Lemma pin_same sid q : q_session_id q = None → same_row q (pin_row sid q).
Proof. intros Hn. unfold same_row. simpl. split_and!; try done. by rewrite Hn. Qed.

Lemma uncertain_same reason q : same_row q (uncertain_row reason q).
Proof. by unfold same_row. Qed.

Lemma fill_same input q : same_row q (fill_metadata input q).
Proof. by unfold same_row. Qed.

(** The three transitions as rewritings of the table. *)
Lemma settle_shape now b reason db db' r :
  settleQuotaReservation now b reason db = Returns (db', r) →
  db' = db ∨
  db' = with_reservations db (map (λ q, if settle_target db b reason q && unsettled q
                                        then settled_row now b reason q else q) (reservations db)).
Proof.
  unfold settleQuotaReservation. destruct (negb _); [done|]. destruct (assertReservationBinding _ _); [|done].
  destruct (is_unlimited b); intros [= <- _]; auto.
Qed.

Lemma pin_shape b db db' r :
  claimQuotaReservationSession b db = Returns (db', r) →
  db' = db ∨ ∃ sid, b_sessionId b = Some sid ∧
  db' = with_reservations db (map (λ q, if claim_target b sid q && bool_decide (q_session_id q = None)
                                        then pin_row sid q else q) (reservations db)).
Proof.
  unfold claimQuotaReservationSession. destruct (assertReservationBinding _ _); [|done].
  destruct (b_operation b); [|done]. destruct (present_text (b_sessionId b)) as [sid|] eqn:Es; [|done].
  destruct (is_unlimited b); intros [= <- _]; [by left|right]. exists sid. split; [|done].
  unfold present_text in Es. destruct (b_sessionId b); [|done]. by case_bool_decide; simplify_eq.
Qed.

Lemma uncertain_shape b reason db db' r :
  markQuotaReservationUncertain b reason db = Returns (db', r) →
  db' = db ∨
  db' = with_reservations db (map (λ q, if uncertain_target b q && bool_decide (q_state q = PendingGrant)
                                        then uncertain_row reason q else q) (reservations db)).
Proof.
  unfold markQuotaReservationUncertain. destruct (assertReservationBinding _ _); [|done].
  destruct (is_unlimited b); intros [= <- _]; auto.
Qed.

(** ** Reservations and admissions *)

Definition purged (now : Z) (input : ReserveInput) (db : QuotaDb) : QuotaDb :=
  with_reservations db (purge_settled now (r_userId input) (reservations db)).

Lemma purge_settled_only now u rows q :
  q ∈ purge_settled now u rows ↔
  q ∈ rows ∧ (q_user_id q = u → unsettled q = false → ∀ t, q_settled_at q = Some t → now - day_ms < t).
Proof.
  unfold purge_settled. rewrite elem_of_bfilter, negb_true_iff.
  destruct (q_user_id q =? u) eqn:Eu, (unsettled q) eqn:Es, (q_settled_at q) as [t|]; simpl;
    bool_hyps; rewrite ?Z.leb_gt; naive_solver.
Qed.

Lemma purged_keeps now u rows q : q ∈ rows → unsettled q = true → q ∈ purge_settled now u rows.
Proof. intros Hq Hu. apply purge_settled_only. split; [done|]. rewrite Hu. done. Qed.

Lemma purged_ok now input db : quota_ok db → quota_ok (purged now input db).
Proof.
  intros Hok. unfold purged, purge_settled. eapply (quota_ok_reservations db _ (λ q, q)); [done| |].
  - by rewrite map_id.
  - intros. apply same_row_refl.
Qed.

(** The row of a new request. *)
Definition fresh_reservation (db : QuotaDb) (q : ReservationRow) : Prop :=
  (∀ q', q' ∈ reservations db → q_id q' ≠ q_id q ∧
     ¬ (q_user_id q' = q_user_id q ∧ q_request_id q' = q_request_id q)) ∧
  ∀ m, m ∈ admissions db → ¬ (m_user_id m = q_user_id q ∧ m_request_id m = q_request_id q).

Lemma reserve_shape nowDb now uuid input db0 db' d :
  reserveInTransaction nowDb now uuid input db0 = Returns (db', d) →
  let db := purged now input db0 in
  let q := new_reservation nowDb now uuid input in
  (∃ p : ReservationRow → bool, db' = with_reservations db (map (λ r, if p r then fill_metadata input r else r) (reservations db))) ∨
  (db' = with_reservations db (reservations db ++ [q]) ∧ d = Allowed uuid (q_expires_at q) false ∧
   over_limit db input = None ∧ fresh_reservation db q).
Proof.
  unfold reserveInTransaction. destruct (_ || _); [done|]. destruct (_ && _); [done|].
  fold (purged now input db0). intros H. set (db := purged now input db0) in *. set (q := new_reservation nowDb now uuid input) in *.
  assert (Hsame : db = with_reservations db (map (λ r, if false then fill_metadata input r else r) (reservations db)))
    by (rewrite map_id; by destruct db).
  destruct (existsb _ (admissions _)) eqn:Ea; [left; exists (λ _, false); injection H as <- _; exact Hsame|].
  destruct (bfilter _ _) as [|r l] eqn:Er.
  2: { left. unfold reuse in H. injection H as <- _. destruct (_ && _); [by eexists|exists (λ _, false); exact Hsame]. }
  destruct (over_limit _ _) as [d'|] eqn:Eo; [left; exists (λ _, false); injection H as <- _; exact Hsame|].
  destruct (existsb _ (reservations _)) eqn:Ei; [done|]. injection H as <- <-. right.
  split_and!; [done..|]. split.
  - intros q' Hq'. split.
    + intros E. pose proof (existsb_none _ _ _ Ei Hq') as Hn. simpl in Hn. by bool_hyps.
    + intros [Eu Eq]. pose proof (bfilter_none _ _ _ Er Hq') as Hn. unfold of_request in Hn. simpl in Eu, Eq.
      by rewrite Eu, Z.eqb_refl, Eq, bool_decide_eq_true_2 in Hn.
  - intros m Hm [Eu Eq]. pose proof (existsb_none _ _ _ Ea Hm) as Hn. simpl in Eu, Eq, Hn.
    by rewrite Eu, Z.eqb_refl, Eq, bool_decide_eq_true_2 in Hn.
Qed.

Lemma quota_ok_add db q :
  quota_ok db → fresh_reservation db q → quota_ok (with_reservations db (reservations db ++ [q])).
Proof.
  intros [H1 H2 H3 H4 H5] [Hq Hm]. constructor; simpl; try done.
  - rewrite fmap_app. apply NoDup_app. split_and!; [done| |apply NoDup_singleton].
    intros x (q' & -> & Hin)%list_elem_of_fmap E%list_elem_of_singleton. by destruct (Hq q' Hin).
  - rewrite fmap_app. apply NoDup_app. split_and!; [done| |apply NoDup_singleton].
    intros x (q' & -> & Hin)%list_elem_of_fmap E%list_elem_of_singleton. destruct (Hq q' Hin) as [_ Hn].
    apply Hn. by injection E.
  - intros q' m [Hin| ->%list_elem_of_singleton]%elem_of_app Hin'; [by apply H5|].
    intros [? ?]. by apply (Hm m Hin').
Qed.

(** ** Messages *)

Lemma bump_ids sid db : n_session_id <$> session_rows (bump_epoch sid db) = n_session_id <$> session_rows db.
Proof. apply map_keys. intros s _. by destruct (bool_decide _). Qed.

(** The epoch is not read by any quota. *)
Lemma bump_counts u sid db : occupied (bump_epoch sid db) u = occupied db u.
Proof.
  unfold occupied. f_equal. apply leibniz_equiv. intros x. rewrite !elem_of_active_slots. split.
  - intros (s' & (s & -> & Hs)%list_elem_of_fmap & Hc & ->). exists s. split; [done|].
    by destruct (bool_decide (n_session_id s = sid)).
  - intros (s & Hs & Hc & ->). eexists. split; [apply list_elem_of_fmap; by exists s|].
    by destruct (bool_decide (n_session_id s = sid)).
Qed.

Lemma bump_epoch_ok sid db : quota_ok db → quota_ok (bump_epoch sid db).
Proof. intros [H1 H2 H3 H4 H5]. constructor; [rewrite bump_ids; done|done..]. Qed.

Lemma expire_same nowDb u m :
  same_admission m (if (m_user_id m =? u) && bool_decide (m_state m = IssuedMessage) && (m_expires_at m <=? nowDb)
                    then with_admission_state UncertainMessage m else m).
Proof.
  destruct ((m_user_id m =? u) && _ && _) eqn:E; [|by unfold same_admission].
  bool_hyps. unfold same_admission, outcome_open. split_and!; try done. intros _.
  apply bool_decide_eq_true_2. congruence.
Qed.

Lemma expire_admissions_ok nowDb u db : quota_ok db → quota_ok (expire_admissions nowDb u db).
Proof. intros Hok. apply quota_ok_admissions; [done|]. intros m _. apply expire_same. Qed.

(** Admissions rewritten without reopening any occupy no more. *)
Lemma occupied_admissions db g u :
  (∀ m, m ∈ admissions db → same_admission m (g m)) →
  occupied (with_admissions db (map g (admissions db))) u ⊆ occupied db u.
Proof.
  intros Hg. apply occupied_shrinks; [done|intros q ? ?; by exists q|].
  intros m' (m & -> & Hm)%list_elem_of_fmap Hh. destruct (Hg m Hm) as (Hu & _ & Hc & Hr). exists m.
  split; [done|]. split; [|done]. unfold holds_admission in *. rewrite Hu in Hh. bool_hyps.
  apply andb_true_iff. split; [by apply Z.eqb_eq|auto].
Qed.

Definition fresh_admission (db : QuotaDb) (m : MessageAdmissionRow) : Prop :=
  (∀ m', m' ∈ admissions db → ¬ (m_user_id m' = m_user_id m ∧ m_request_id m' = m_request_id m)) ∧
  ∀ q, q ∈ reservations db → ¬ (q_user_id q = m_user_id m ∧ q_request_id q = m_request_id m).

Lemma quota_ok_admit db m :
  quota_ok db → fresh_admission db m → quota_ok (with_admissions db (admissions db ++ [m])).
Proof.
  intros [H1 H2 H3 H4 H5] [Hm Hq]. constructor; simpl; try done.
  - rewrite fmap_app. apply NoDup_app. split_and!; [done| |apply NoDup_singleton].
    intros x (m' & -> & Hin)%list_elem_of_fmap E%list_elem_of_singleton. apply (Hm m' Hin). by injection E.
  - intros q m' Hin [Hin'| ->%list_elem_of_singleton]%elem_of_app; [by apply H5|by apply Hq].
Qed.

(** The ways an admission ends. *)
Lemma admit_shape sha256 txDb now uuid input db db' d :
  admitInTransaction sha256 txDb now uuid input db = Returns (db', d) →
  db' = db ∨
  ∃ s, session_policy db (ai_sessionId input) (ai_userId input) = Some s ∧ may_message db input s = true ∧
    ((∃ db1 r, reserveInTransaction txDb now uuid (resume_input sha256 input) db = Returns (db1, r) ∧
        (db' = db1 ∨ db' = bump_epoch (ai_sessionId input) db1)) ∨
     (is_live (n_status s) = true ∧ fresh_admission db (new_admission sha256 now uuid input) ∧
      db' = bump_epoch (ai_sessionId input)
              (with_admissions db (admissions db ++ [new_admission sha256 now uuid input])))).
Proof.
  unfold admitInTransaction. destruct (session_policy _ _ _) as [s|] eqn:Es; [|intros [= <- _]; by left].
  destruct (may_message db input s) eqn:Em; simpl; [|intros [= <- _]; by left].
  destruct (bfilter _ _) as [|m l] eqn:Ea; [|intros [= <- _]; by left].
  destruct (needs_resume db input s) eqn:En.
  - destruct (reserveInTransaction _ _ _ _ _) as [[db1 r]|] eqn:Er; [|done]. simpl. intros [= <- _]. right.
    exists s. split_and!; [done..|]. left. exists db1, r. split; [done|].
    destruct r as [? ? []| | |]; auto.
  - destruct (existsb _ (admissions db)); [done|]. intros [= <- _]. right.
    exists s. split_and!; [done..|]. right. unfold needs_resume in En. bool_hyps.
    split_and!; [done| |done]. split.
    + intros m' Hm' [Eu Eq]. pose proof (bfilter_none _ _ _ Ea Hm') as Hn. unfold admission_request in Hn.
      simpl in Eu, Eq. by rewrite Eu, Z.eqb_refl, Eq, bool_decide_eq_true_2 in Hn.
    + intros q Hq [Eu Eq]. match goal with H : existsb _ _ = false |- _ => pose proof (existsb_none _ _ _ H Hq) as Hn end.
      unfold of_request in Hn. simpl in Eu, Eq. by rewrite Eu, Z.eqb_refl, Eq, bool_decide_eq_true_2 in Hn.
Qed.

(** ** Deletions, renames and merged hosts *)

Lemma all_rows_kept {A} (l : list A) : l = map (λ x, x) (bfilter (λ _, true) l).
Proof. by rewrite map_id, bfilter_true. Qed.

Lemma all_rows_mapped {A} (f : A → A) l : map f l = map f (bfilter (λ _, true) l).
Proof. by rewrite bfilter_true. Qed.

Lemma closed_not_open u t result m : holds_admission u (closed_row t result m) = false.
Proof. unfold holds_admission, outcome_open. rewrite andb_comm. by rewrite bool_decide_eq_false_2 by naive_solver. Qed.

Lemma delete_session_ok nowDb sid db : quota_ok db → quota_ok (delete_quota_session nowDb sid db).
Proof.
  intros Hok. eapply (quota_ok_frame db); [done| |apply all_rows_kept|intros; apply same_row_refl|apply all_rows_mapped|].
  - eapply sublist_NoDup; [apply Hok|]. apply fmap_sublist, bfilter_sublist.
  - intros m. simpl. by case_match.
Qed.

Lemma delete_session_within nowDb sid db u :
  occupied (delete_quota_session nowDb sid db) u ⊆ occupied db u.
Proof.
  apply occupied_frame; simpl.
  - intros s [_ Hs]%elem_of_bfilter Hc. by exists s.
  - intros q ? ?. by exists q.
  - intros m' (m & -> & Hm)%list_elem_of_fmap. destruct (_ && _); [by rewrite closed_not_open|]. by exists m.
Qed.

Lemma delete_host_ok nowDb u daemon db db' r :
  deleteDaemon nowDb u daemon db = (db', r) → quota_ok db → quota_ok db'.
Proof.
  unfold deleteDaemon. destruct (existsb _ _); intros [= <- _] Hok; [|done].
  eapply (quota_ok_frame db); [done| |apply all_rows_kept|intros; apply same_row_refl|apply all_rows_mapped|].
  - simpl. rewrite (map_keys n_session_id); [apply Hok|]. intros s _. by destruct (sql_eq _ _).
  - intros m. simpl. by case_match.
Qed.

Lemma delete_host_within nowDb u0 daemon db db' r u :
  deleteDaemon nowDb u0 daemon db = (db', r) → occupied db' u ⊆ occupied db u.
Proof.
  unfold deleteDaemon. destruct (existsb _ _); intros [= <- _]; [|done].
  apply occupied_frame; simpl.
  - intros s' (s & -> & Hs)%list_elem_of_fmap Hc. exists s. by destruct (sql_eq _ _).
  - intros q ? ?. by exists q.
  - intros m' (m & -> & Hm)%list_elem_of_fmap. destruct (_ && _); [by rewrite closed_not_open|]. by exists m.
Qed.

Lemma account_ok u db : quota_ok db → quota_ok (delete_quota_account u db).
Proof.
  intros Hok. eapply (quota_ok_frame db _ (λ q, q) _ (λ m, m)); [done| |by rewrite map_id| |by rewrite map_id|done].
  - eapply sublist_NoDup; [apply Hok|]. apply fmap_sublist, bfilter_sublist.
  - intros. apply same_row_refl.
Qed.

Lemma account_within u0 db u : occupied (delete_quota_account u0 db) u ⊆ occupied db u.
Proof.
  apply occupied_frame; simpl; [intros x [_ Hx]%elem_of_bfilter Hc..]; by exists x.
Qed.

Lemma merge_ok u daemon machine db db' :
  consolidateOfflineMachineDaemons u daemon machine db = Returns db' → quota_ok db → quota_ok db'.
Proof.
  unfold consolidateOfflineMachineDaemons. destruct (negb _); [by intros [= <-]|]. destruct (negb _); [done|].
  case_bool_decide; intros [= <-] Hok; [done|].
  eapply (quota_ok_frame db); [done| |apply all_rows_mapped| |apply all_rows_mapped|].
  - simpl. rewrite (map_keys n_session_id); [apply Hok|]. intros s _. by destruct (daemon_in _ _).
  - intros q _. apply if_same_row. by unfold same_row.
  - intros m. simpl. by case_match.
Qed.

Lemma merge_within u0 daemon machine db db' u :
  consolidateOfflineMachineDaemons u0 daemon machine db = Returns db' → occupied db' u ⊆ occupied db u.
Proof.
  unfold consolidateOfflineMachineDaemons. destruct (negb _); [by intros [= <-]|]. destruct (negb _); [done|].
  case_bool_decide; intros [= <-]; [done|]. apply occupied_frame; simpl.
  - intros s' (s & -> & Hs)%list_elem_of_fmap Hc. exists s. by destruct (daemon_in _ _).
  - intros q' (q & -> & Hq)%list_elem_of_fmap Hh. exists q. by destruct (_ && _).
  - intros m' (m & -> & Hm)%list_elem_of_fmap Hh. exists m. by destruct (_ && _).
Qed.

(** A rename that took place: the new name was free. *)
Lemma rename_shape i db db' :
  renameOwnedDaemonSession i db = Returns db' →
  db' = db ∨
  (∀ s, s ∈ session_rows db → n_session_id s ≠ newSessionId i) ∧
  db' = with_rows db
    (map (λ s, if bool_decide (n_session_id s = oldSessionId i) then renamed_session i s else s) (session_rows db))
    (map (λ m, if follows_rename i m then renamed_admission i m else m) (admissions db))
    (daemon_rows db) (tombstones db).
Proof.
  unfold renameOwnedDaemonSession. destruct (session_with_id db (oldSessionId i)) as [s|].
  - destruct (negb _); [done|]. destruct (session_with_id db (newSessionId i)) eqn:En; [done|].
    intros [= <-]. right. split; [|done]. intros s' Hs' E. unfold session_with_id in En.
    apply head_None in En. pose proof (bfilter_none _ _ _ En Hs') as Hb. simpl in Hb. by bool_hyps.
  - destruct (session_with_id db (newSessionId i)) as [s|]; [|done].
    destruct (daemonSessionAccessAllowed s i); [|done]. intros [= <-]. by left.
Qed.

Lemma rename_ok i db db' : renameOwnedDaemonSession i db = Returns db' → quota_ok db → quota_ok db'.
Proof.
  intros [->|[Hfree ->]]%rename_shape Hok; [done|].
  eapply (quota_ok_frame db); [done| |apply all_rows_kept|intros; apply same_row_refl|apply all_rows_mapped|].
  - simpl. destruct Hok as [Hn _ _ _ _]. revert Hn Hfree. generalize (session_rows db) as l.
    induction l as [|s l IH]; intros Hn Hfree; [constructor|].
    apply NoDup_cons in Hn as [Hs Hn]. apply NoDup_cons.
    split; [|apply IH; [done|]; intros s' ?; apply Hfree; by right].
    intros (s' & Hid & (s0 & -> & Hin)%list_elem_of_fmap)%list_elem_of_fmap.
    assert (n_session_id s0 ≠ n_session_id s) by (intros E; apply Hs; rewrite <- E; by apply list_elem_of_fmap_2).
    pose proof (Hfree s (list_elem_of_here _ _)). pose proof (Hfree s0 (list_elem_of_further _ _ _ Hin)).
    repeat case_bool_decide; simpl in *; congruence.
  - intros m. simpl. by case_match.
Qed.

(** A rename brings at most the new name into use. *)
Lemma rename_within i db db' u :
  renameOwnedDaemonSession i db = Returns db' → occupied db' u ⊆ occupied db u ∪ {[inl (newSessionId i)]}.
Proof.
  intros [->|[_ ->]]%rename_shape; [set_solver|]. intros x. rewrite elem_of_union, elem_of_singleton.
  unfold occupied. rewrite !elem_of_union, !elem_of_slots, !elem_of_active_slots. simpl.
  intros [(s' & (s & -> & Hs)%list_elem_of_fmap & Hc & ->)|[Hq|(m' & (m & -> & Hm)%list_elem_of_fmap & Hh & ->)]].
  - case_bool_decide; [by right|left; left]. by exists s.
  - by left; right; left.
  - destruct (follows_rename i m); [by right|left; right; right]. by exists m.
Qed.

(** ** Every step keeps the tables well formed *)

Lemma reserve_ok nowDb now uuid input db db' d :
  quota_ok db → reserveInTransaction nowDb now uuid input db = Returns (db', d) → quota_ok db'.
Proof.
  intros Hok H. pose proof (purged_ok now input db Hok) as Hp.
  destruct (reserve_shape _ _ _ _ _ _ _ H) as [(p & ->)|(-> & _ & _ & Hf)].
  - apply quota_ok_map; [done|]. intros q _. apply if_same_row, fill_same.
  - by apply quota_ok_add.
Qed.

Lemma complete_same nowDb result db m : same_admission m (complete_row nowDb result db m).
Proof.
  unfold same_admission, outcome_open, complete_row. simpl. split_and!; try done.
  unfold stays_open. destruct (_ && _ && _) eqn:E; [|done]. bool_hyps. intros _.
  by apply bool_decide_eq_true_2.
Qed.

Lemma claim_outcome_same result m : same_admission m (claim_outcome_row result m).
Proof. by unfold same_admission. Qed.

Lemma update_admissions_shape db p f db' :
  update_admissions db p f = Returns db' →
  db' = with_admissions db (map (λ m, if p m then f m else m) (admissions db)).
Proof. unfold update_admissions. by destruct (existsb _ _); intros [= <-]. Qed.

Lemma if_same_admission (b : bool) m m' : same_admission m m' → same_admission m (if b then m' else m).
Proof. intros. by destruct b. Qed.

Lemma host_frame input db db' r :
  claimBoundDaemonSlot input db = (db', r) →
  reservations db' = reservations db ∧ admissions db' = admissions db ∧ session_rows db' = session_rows db.
Proof.
  unfold claimBoundDaemonSlot, add_host. intros H. repeat case_match; simplify_eq; by split_and!.
Qed.

Lemma admit_ok sha256 nowDb txDb now uuid input db db' r :
  quota_ok db → admitSessionMessage sha256 nowDb txDb now uuid input db = (db', r) → quota_ok db'.
Proof.
  intros Hok%(expire_admissions_ok nowDb (ai_userId input)). unfold admitSessionMessage.
  destruct (admitInTransaction _ _ _ _ _ _) as [[db1 d]|] eqn:E; intros [= <- _]; [|done].
  destruct (admit_shape _ _ _ _ _ _ _ _ E) as [->|(s & _ & _ & [(db2 & d' & Hr & Hd)|(_ & Hf & ->)])]; [done| |].
  - pose proof (reserve_ok _ _ _ _ _ _ _ Hok Hr). destruct Hd as [->| ->]; [done|by apply bump_epoch_ok].
  - by apply bump_epoch_ok, quota_ok_admit.
Qed.

Lemma quota_step_ok sha256 ev db db' : quota_step sha256 db ev db' → quota_ok db → quota_ok db'.
Proof.
  intros [nowDb now uuid input r db1 H|nowDb txDb now uuid input r db1 H|now b reason r db1 H|b r db1 H
         |b reason r db1 H|nowDb a result db1 H|a result db1 H|input r db1 H
         |nowDb sid|nowDb u0 daemon r db1 H|u0|i db1 H|u0 daemon machine db1 H|rows|rows Hn] Hok.
  - unfold reserveConcurrentSession in H. destruct (reserveInTransaction _ _ _ _ _) as [[db2 d]|] eqn:E;
      injection H as <- _; [by eapply reserve_ok|done].
  - by eapply admit_ok.
  - destruct (settle_shape _ _ _ _ _ _ H) as [->| ->]; [done|]. apply quota_ok_map; [done|].
    intros q _. apply if_same_row, settle_same.
  - destruct (pin_shape _ _ _ _ H) as [->|(sid & _ & ->)]; [done|]. apply quota_ok_map; [done|].
    intros q _. destruct (claim_target b sid q); [|apply same_row_refl]. simpl.
    case_bool_decide; [by apply pin_same|apply same_row_refl].
  - destruct (uncertain_shape _ _ _ _ _ H) as [->| ->]; [done|]. apply quota_ok_map; [done|].
    intros q _. apply if_same_row, uncertain_same.
  - rewrite (update_admissions_shape _ _ _ _ H). apply quota_ok_admissions; [done|].
    intros m _. apply if_same_admission, complete_same.
  - unfold claimContinueAdmissionOutcome in H. destruct (existsb _ _); [done|].
    rewrite (update_admissions_shape _ _ _ _ H). apply quota_ok_admissions; [done|].
    intros m _. apply if_same_admission, claim_outcome_same.
  - destruct (host_frame _ _ _ _ H) as (? & ? & ?). by eapply quota_ok_hosts.
  - by apply delete_session_ok.
  - by eapply delete_host_ok.
  - by apply account_ok.
  - by eapply rename_ok.
  - by eapply merge_ok.
  - by eapply (quota_ok_hosts db).
  - by apply quota_ok_sessions.
Qed.

(** ** Occupancy *)

Lemma occupied_map db g p u :
  (∀ q, q ∈ reservations db → holds_slot u (g q) = true →
     holds_slot u q = true ∧ reservation_slot q = reservation_slot (g q)) →
  occupied (with_reservations db (map g (bfilter p (reservations db)))) u ⊆ occupied db u.
Proof.
  intros Hg. apply occupied_shrinks; [done| |intros m ? ?; by exists m].
  intros q' (q & -> & [_ Hq]%elem_of_bfilter)%list_elem_of_fmap Hh. exists q.
  by destruct (Hg q Hq Hh).
Qed.

Lemma occupied_map_all db g u :
  (∀ q, q ∈ reservations db → holds_slot u (g q) = true →
     holds_slot u q = true ∧ reservation_slot q = reservation_slot (g q)) →
  occupied (with_reservations db (map g (reservations db))) u ⊆ occupied db u.
Proof. intros Hg. pose proof (occupied_map db g (λ _, true) u Hg) as H. by rewrite bfilter_true in H. Qed.

Lemma occupied_purged now input db u : occupied (purged now input db) u ⊆ occupied db u.
Proof.
  unfold purged, purge_settled. match goal with |- context [bfilter ?p] =>
    pose proof (occupied_map db (λ q, q) p u) as H end.
  rewrite map_id in H. apply H. by intros.
Qed.

Lemma occupied_add db q u :
  occupied (with_reservations db (reservations db ++ [q])) u
  ⊆ occupied db u ∪ (if q_user_id q =? u then {[reservation_slot q]} else ∅).
Proof.
  intros x. unfold occupied, active_slots. rewrite !elem_of_union, !elem_of_slots. simpl.
  intros [Hx|[(q' & [Hin| ->%list_elem_of_singleton]%elem_of_app & Hh & ->)|(m & Hin & Hh & ->)]].
  - by left; left.
  - left; right; left. by exists q'.
  - right. unfold holds_slot in Hh. destruct (q_user_id q =? u); [set_solver|done].
  - left; right; right. by exists m.
Qed.

Lemma counted_session u sid db s :
  uncounted u sid db = false → s ∈ session_rows db → sid = Some (n_session_id s) → n_user_id s = Some u →
  is_live (n_status s) = true → counts_active u s = true.
Proof.
  intros Hn Hs -> Hu Hl. pose proof (existsb_none _ _ _ Hn Hs) as H. simpl in H.
  rewrite bool_decide_eq_true_2, Hu, Hl in H by done. simpl in H.
  rewrite bool_decide_eq_true_2 in H by done. simpl in H. by apply negb_false_iff.
Qed.

Lemma slot_held_session db input :
  slot_held db input = true →
  ∃ sid, r_sessionId input = Some sid ∧ present_text (r_sessionId input) = Some sid.
Proof.
  unfold slot_held. destruct (r_operation input); [done|].
  destruct (present_text (r_sessionId input)) as [sid|] eqn:Et; [|done]. intros _. exists sid. split; [|done].
  unfold present_text in Et. destruct (r_sessionId input); [|done]. case_bool_decide; simplify_eq. done.
Qed.

Lemma slot_held_occupied db input sid :
  slot_held db input = true → r_sessionId input = Some sid →
  (∀ s, s ∈ session_rows db → n_session_id s = sid → n_user_id s = Some (r_userId input) →
     is_live (n_status s) = true → counts_active (r_userId input) s = true) →
  inl sid ∈ occupied db (r_userId input).
Proof.
  intros Hh Hs Hc. unfold slot_held in Hh. destruct (r_operation input); [done|].
  rewrite Hs in Hh. unfold present_text in Hh. destruct (bool_decide (sid = EmptyString)); [done|].
  unfold occupied. rewrite elem_of_union, elem_of_slots, elem_of_active_slots.
  apply orb_true_iff in Hh as [[Hh|Hh]%orb_true_iff|Hh]; apply existsb_exists in Hh as (x & Hx & Hh);
    apply list_elem_of_In in Hx; bool_hyps.
  - right; left. exists x. split_and!; [done..|]. unfold reservation_slot.
    destruct (q_session_id x); [|done]. simpl in *. bool_hyps. by subst.
  - right; right. exists x. by subst.
  - left. exists x. unfold sql_eq in *. destruct (n_user_id x) eqn:E; [|done]. bool_hyps. subst.
    split_and!; auto.
Qed.

(** A reservation takes no slot, or leaves no more than the limit in use. *)
Lemma reserve_within nowDb now uuid input db0 db' d u limit :
  quota_ok db0 → reserveInTransaction nowDb now uuid input db0 = Returns (db', d) →
  (r_userId input = u → ∃ l, r_limit input = Some l ∧ l ≤ limit) →
  occupied db' u ⊆ occupied db0 u ∪ excused u (r_sessionId input) db0 ∨ usage db' u ≤ limit.
Proof.
  intros Hok H Hlim. pose proof (reserve_ok _ _ _ _ _ _ _ Hok H) as Hok'.
  pose proof (purged_ok now input db0 Hok) as Hokp.
  pose proof (occupied_purged now input db0 u) as Hp.
  destruct (reserve_shape _ _ _ _ _ _ _ H) as [(p & ->)|(-> & _ & Hover & Hf)].
  { left. apply union_subseteq_l'. etrans; [|exact Hp]. apply occupied_map_all. intros q _. destruct (p q); [|done].
    by rewrite (holds_slot_same u q (fill_metadata input q)) by (done || apply fill_same). }
  set (db := purged now input db0) in *. set (q := new_reservation nowDb now uuid input) in *.
  pose proof (occupied_add db q u) as Hadd. change (q_user_id q) with (r_userId input) in Hadd.
  destruct (r_userId input =? u) eqn:Eu; [|left; set_solver].
  apply Z.eqb_eq in Eu. unfold over_limit in Hover. destruct (Hlim Eu) as (l & Hl & Hle).
  rewrite Hl, Eu in Hover. destruct (slot_held db input) eqn:Eh.
  - left. destruct (slot_held_session db input Eh) as (sid & Hs & Hslot).
    assert (Hin : inl sid ∈ occupied db u ∪ excused u (r_sessionId input) db0).
    { unfold excused. rewrite Hs. destruct (uncounted u (Some sid) db0) eqn:Ec; [set_solver|].
      apply elem_of_union_l. rewrite <- Eu. apply slot_held_occupied; [done..|]. intros s Hsin <- Hu Hlive.
      rewrite Eu in *. by eapply (counted_session u _ db0 s Ec). }
    change (reservation_slot q) with
      (match present_text (r_sessionId input) with Some s => inl s | None => inr uuid end : Slot) in Hadd.
    rewrite Hslot in Hadd. set_solver.
  - right. simpl in Hover. destruct (l <=? _) eqn:El; [done|]. bool_hyps. fold (usage db u) in El.
    rewrite usage_occupied in El |- * by (apply ok_sessions; done).
    pose proof (subseteq_size _ _ Hadd) as Hsz.
    pose proof (size_union_alt (occupied db u) {[reservation_slot q]}) as Hun.
    pose proof (subseteq_size ({[reservation_slot q]} ∖ occupied db u) {[reservation_slot q]} ltac:(set_solver)) as H1.
    rewrite size_singleton in H1. lia.
Qed.

Lemma size_exchange {A} `{Countable A} (X Y : gset A) (old new : A) :
  old ∈ X → Y ⊆ (X ∖ {[old]}) ∪ {[new]} → (size Y ≤ size X)%nat.
Proof.
  intros Hold Hsub. apply subseteq_size in Hsub. rewrite size_union_alt in Hsub.
  pose proof (subseteq_size ({[new]} ∖ (X ∖ {[old]})) {[new]} ltac:(set_solver)) as H1.
  pose proof (size_difference X {[old]} ltac:(set_solver)) as H2.
  pose proof (subseteq_size {[old]} X ltac:(set_solver)) as H3.
  rewrite size_singleton in H1, H2, H3. lia.
Qed.

(** Pinning a session exchanges the slot of a create for that of the session. *)
Lemma pin_within b db db' r u :
  quota_ok db → claimQuotaReservationSession b db = Returns (db', r) →
  occupied db' u ⊆ occupied db u ∨
  ∃ sid, b_sessionId b = Some sid ∧ inr (reservationId b) ∈ occupied db u ∧
    occupied db' u ⊆ (occupied db u ∖ {[inr (reservationId b)]}) ∪ {[inl sid]}.
Proof.
  intros Hok H. destruct (pin_shape _ _ _ _ H) as [->|(sid & Hsid & ->)]; [by left|].
  set (p := λ q, claim_target b sid q && bool_decide (q_session_id q = None)) in *.
  set (db' := with_reservations db (map (λ q, if p q then pin_row sid q else q) (reservations db))) in *.
  destruct (existsb (λ q, p q && holds_slot u q) (reservations db)) eqn:Ex.
  2: { left. apply occupied_map_all. intros q Hq.
       change (claim_target b sid q && bool_decide (q_session_id q = None)) with (p q).
       destruct (p q) eqn:Ep; [intros Hh|done].
       pose proof (existsb_none _ _ _ Ex Hq) as Hn. cbv beta in Hn. rewrite Ep in Hn. simpl in Hn.
       change (holds_slot u (pin_row sid q)) with (holds_slot u q) in Hh. congruence. }
  right. exists sid. split; [done|].
  apply existsb_exists in Ex as (q0 & Hq0%list_elem_of_In & [Hp0 Hh0]%andb_true_iff).
  assert (Hpid : ∀ q, p q = true → q_id q = reservationId b ∧ q_session_id q = None).
  { intros q Hp. unfold p, claim_target, binds in Hp. by bool_hyps. }
  destruct (Hpid q0 Hp0) as [Hid0 Hs0]. split.
  { unfold occupied. rewrite elem_of_union, elem_of_slots. right; left. exists q0. split_and!; [done..|].
    unfold reservation_slot. by rewrite Hs0, Hid0. }
  intros x. unfold occupied at 1, active_slots. rewrite elem_of_union, elem_of_slots.
  intros [Hx|[(q' & (q & -> & Hq)%list_elem_of_fmap & Hh & ->)|(m & Hm & Hh & ->)]].
  - assert (x ≠ inr (reservationId b)) by (apply elem_of_active_slots in Hx as (? & _ & _ & ->); done).
    unfold occupied, active_slots in *. set_solver.
  - change (claim_target b sid q && bool_decide (q_session_id q = None)) with (p q) in *.
    destruct (p q) eqn:Ep; [apply elem_of_union; right; by apply elem_of_singleton|].
    assert (Hne : reservation_slot q ≠ inr (reservationId b)).
    { unfold reservation_slot. destruct (q_session_id q) eqn:Es; [done|]. intros [= Eid].
      assert (q = q0); [|congruence].
      apply list_elem_of_lookup in Hq as [i Hi], Hq0 as [k Hk].
      assert (i = k); [|congruence]. eapply (NoDup_lookup (q_id <$> reservations db)); [apply Hok|..];
        rewrite list_lookup_fmap; [by rewrite Hi|rewrite Hk; simpl; congruence]. }
    apply elem_of_union; left. apply elem_of_difference. rewrite elem_of_singleton. split; [|done].
    unfold occupied. rewrite elem_of_union, elem_of_slots. right; left. by exists q.
  - apply elem_of_union; left. apply elem_of_difference. rewrite elem_of_singleton. split; [|done].
    unfold occupied. rewrite elem_of_union, elem_of_slots. right; right. by exists m.
Qed.

(** ** The limit holds *)

(** A slot is in use: a root session counts as live, a reservation is pending or
    uncertain, or the outcome of a message is open. *)
Definition in_use (u : Z) (db : QuotaDb) (x : Slot) : Prop :=
  (∃ s, s ∈ session_rows db ∧ counts_active u s = true ∧ x = inl (n_session_id s)) ∨
  (∃ q, q ∈ reservations db ∧ q_user_id q = u ∧ q_resource q = "concurrent_session"%string ∧
     (q_state q = PendingGrant ∨ q_state q = UncertainGrant) ∧
     x = match q_session_id q with Some sid => inl sid | None => inr (q_id q) end) ∨
  (∃ m, m ∈ admissions db ∧ m_user_id m = u ∧ (m_state m = IssuedMessage ∨ m_state m = UncertainMessage) ∧
     x = inl (canonical_of m)).

(** No more than [n] slots of the account are in use, those in [out] aside. *)
Definition within_slots (u n : Z) (out : gset Slot) (db : QuotaDb) : Prop :=
  ∀ xs, NoDup xs → (∀ x, x ∈ xs → in_use u db x ∧ x ∉ out) → len xs ≤ n.

Lemma holds_slot_spec u q :
  holds_slot u q = true ↔ q_user_id q = u ∧ q_resource q = "concurrent_session"%string ∧
    (q_state q = PendingGrant ∨ q_state q = UncertainGrant).
Proof.
  unfold holds_slot, unsettled. rewrite !andb_true_iff, Z.eqb_eq, !bool_decide_eq_true.
  destruct (q_state q); naive_solver.
Qed.

Lemma holds_admission_spec u m :
  holds_admission u m = true ↔ m_user_id m = u ∧ (m_state m = IssuedMessage ∨ m_state m = UncertainMessage).
Proof.
  unfold holds_admission, outcome_open. rewrite andb_true_iff, Z.eqb_eq, bool_decide_eq_true.
  destruct (m_state m); naive_solver.
Qed.

Lemma in_use_occupied u db x : in_use u db x ↔ x ∈ occupied db u.
Proof.
  unfold in_use, occupied. rewrite elem_of_union, elem_of_active_slots, elem_of_slots.
  setoid_rewrite holds_slot_spec. setoid_rewrite holds_admission_spec. unfold reservation_slot. naive_solver.
Qed.

Lemma within_size u n out db :
  within_slots u n out db ↔ Z.of_nat (size (occupied db u ∖ out)) ≤ n.
Proof.
  split.
  - intros H. apply (H (elements (occupied db u ∖ out)) (NoDup_elements _)).
    intros x Hx. apply elem_of_elements, elem_of_difference in Hx as [? ?]. by rewrite in_use_occupied.
  - intros H xs Hn Hx. unfold len. rewrite <- (size_list_to_set_NoDup xs Hn).
    etrans; [apply inj_le, subseteq_size|exact H]. intros x [Hu Ho]%elem_of_list_to_set%Hx.
    apply elem_of_difference. by rewrite <- in_use_occupied.
Qed.

(** The sum the code compares with the limit is the number of slots in use. *)
Lemma within_usage u n db : quota_ok db → within_slots u n ∅ db ↔ usage db u ≤ n.
Proof.
  intros Hok. rewrite within_size, usage_occupied by apply Hok. by rewrite difference_empty_L.
Qed.

(** Settlements and doubts never take a slot. *)
Lemma settle_within now b reason db db' r u :
  settleQuotaReservation now b reason db = Returns (db', r) → occupied db' u ⊆ occupied db u.
Proof.
  intros H. destruct (settle_shape _ _ _ _ _ _ H) as [->| ->]; [done|]. apply occupied_map_all.
  intros q _. destruct (_ && _); [|done]. unfold holds_slot. intros Hh. bool_hyps.
  match goal with H : unsettled (settled_row _ _ _ _) = true |- _ =>
    unfold unsettled in H; by rewrite bool_decide_eq_false_2 in H by (intros Hn; by apply Hn) end.
Qed.

Lemma uncertain_within b reason db db' r u :
  markQuotaReservationUncertain b reason db = Returns (db', r) → occupied db' u ⊆ occupied db u.
Proof.
  intros H. destruct (uncertain_shape _ _ _ _ _ H) as [->| ->]; [done|]. apply occupied_map_all.
  intros q _. destruct (_ && _) eqn:E; [|done]. unfold uncertain_target in E. bool_hyps.
  unfold holds_slot. intros Hh. bool_hyps. split; [|done]. repeat (apply andb_true_iff; split); try done.
  - by apply Z.eqb_eq.
  - by apply bool_decide_eq_true_2.
Qed.

(** A message reserves, or its session has a slot already. *)
Lemma admit_within sha256 nowDb txDb now uuid input db db' r u limit :
  quota_ok db → (ai_userId input = u → ∃ l, ai_limit input = Some l ∧ l ≤ limit) →
  admitSessionMessage sha256 nowDb txDb now uuid input db = (db', r) →
  occupied db' u ⊆ occupied db u ∪ excused u (Some (ai_sessionId input)) db ∨ usage db' u ≤ limit.
Proof.
  intros Hok Hlim. unfold admitSessionMessage. set (db1 := expire_admissions nowDb (ai_userId input) db).
  assert (Hok1 : quota_ok db1) by by apply expire_admissions_ok.
  assert (H1 : occupied db1 u ⊆ occupied db u) by (apply occupied_admissions; intros m _; apply expire_same).
  destruct (admitInTransaction _ _ _ _ _ _) as [[db2 d]|] eqn:E; intros [= <- _]; [|left; set_solver].
  destruct (admit_shape _ _ _ _ _ _ _ _ E) as [->|(s & Hpol & Hmsg & Hcase)]; [left; set_solver|].
  destruct Hcase as [(db3 & d' & Hr & Hd)|(Hlive & Hf & ->)].
  - pose proof (reserve_ok _ _ _ _ _ _ _ Hok1 Hr) as Hok3.
    assert (occupied db2 u = occupied db3 u ∧ usage db2 u = usage db3 u) as [Ho Hu].
    { destruct Hd as [->| ->]; [done|]. split; [apply bump_counts|].
      rewrite !usage_occupied by (apply ok_sessions; try apply bump_epoch_ok; done). by rewrite bump_counts. }
    rewrite Ho, Hu. destruct (reserve_within _ _ _ _ _ _ _ u limit Hok1 Hr Hlim) as [Hsub|?]; [left|by right].
    change (excused u _ db1) with (excused u (Some (ai_sessionId input)) db) in Hsub. set_solver.
  - left. rewrite bump_counts. etrans; [|apply union_mono_r, H1].
    intros x. unfold occupied at 1, active_slots. rewrite elem_of_union, elem_of_slots.
    rewrite elem_of_union. unfold occupied. rewrite elem_of_union, elem_of_slots.
    intros [Hx|[Hx|(m & [Hm| ->%list_elem_of_singleton]%elem_of_app & Hh & ->)]];
      [by left; left|by left; right; left|left; right; right; by exists m|].
    unfold excused. change (uncounted u _ db) with (uncounted u (Some (ai_sessionId input)) db1).
    destruct (uncounted u (Some (ai_sessionId input)) db1) eqn:Hcount; [right; set_solver|left; left].
    + apply elem_of_active_slots. unfold holds_admission in Hh. bool_hyps. simpl in *.
      unfold session_policy in Hpol. apply head_Some in Hpol as [l' Hl'].
      assert (Hs : s ∈ s :: l') by left. rewrite <- Hl' in Hs. apply elem_of_bfilter in Hs as [Hb Hs]. bool_hyps.
      exists s. unfold sql_eq in *. destruct (n_user_id s) eqn:Eu; [|done]. bool_hyps.
      split_and!; [done| |unfold canonical_of; simpl; congruence].
      apply (counted_session u (Some (ai_sessionId input)) db1); [done|done|congruence|congruence|done].
Qed.

Lemma bind_slot (X Y out : gset Slot) (old new : Slot) :
  Y ⊆ X ∪ {[new]} → old ∉ Y → Y ∖ ((out ∖ {[new]}) ∩ Y) ⊆ ((X ∖ out) ∖ {[old]}) ∪ {[new]}.
Proof.
  intros Hs Hold x [Hx Hn]%elem_of_difference. apply elem_of_union.
  destruct (decide (x = new)) as [->|Hne]; [right; by apply elem_of_singleton|left].
  pose proof (Hs x Hx) as Hin. rewrite elem_of_union, elem_of_singleton in Hin.
  destruct Hin as [Hin|?]; [|done]. apply elem_of_difference. split; [apply elem_of_difference; split; [done|]|].
  - intros Ho. apply Hn, elem_of_intersection. split; [|done]. apply elem_of_difference.
    by rewrite elem_of_singleton.
  - rewrite elem_of_singleton. by intros ->.
Qed.

Lemma move_slot (X Y out : gset Slot) (old new : Slot) :
  Y ⊆ X ∪ {[new]} → old ∉ Y → Y ∖ (out ∩ Y) ⊆ ((X ∖ out) ∖ {[old]}) ∪ {[new]}.
Proof.
  intros Hs Hold x [Hx Hn]%elem_of_difference. apply elem_of_union.
  pose proof (Hs x Hx) as Hin. apply elem_of_union in Hin as [Hin|Hin]; [left|by right].
  apply elem_of_difference. split; [apply elem_of_difference; split; [done|]|].
  - intros Ho. by apply Hn, elem_of_intersection.
  - rewrite elem_of_singleton. by intros ->.
Qed.

(** What a step does to the slots in use: it takes none, it frees one that it
    gives to a session, the slots it adds are outside, or the limit holds. *)
Lemma step_within sha256 u limit db ev db' out :
  quota_ok db → quota_step sha256 db ev db' → asks_within u limit ev → (∀ x, x ∈ out → ∃ sid, x = inl sid) →
  let out' := outside_after u ev db db' out in
  occupied db' u ∖ out' ⊆ occupied db u ∖ out ∨
  (∃ x sid, x ∈ occupied db u ∖ out ∧ x ∉ occupied db' u ∧
     occupied db' u ∖ out' ⊆ ((occupied db u ∖ out) ∖ {[x]}) ∪ {[inl sid]}) ∨
  usage db' u ≤ limit.
Proof.
  intros Hok Hstep Hask Hsess out'.
  assert (Hgrant : ∀ id : string, inr id ∈ occupied db u → inr id ∈ occupied db u ∖ out).
  { intros id Hin. apply elem_of_difference. split; [done|]. by intros [sid ?]%Hsess. }
  assert (Hkeep : ∀ o, occupied db' u ⊆ occupied db u → o = out ∩ occupied db' u →
    occupied db' u ∖ o ⊆ occupied db u ∖ out) by set_solver.
  assert (Hadd : ∀ X, occupied db' u ⊆ occupied db u ∪ X → out' = (out ∪ (X ∖ occupied db u)) ∩ occupied db' u →
    occupied db' u ∖ out' ⊆ occupied db u ∖ out).
  { intros X Hs -> x [Hx Hn]%elem_of_difference. destruct (decide (x ∈ occupied db u)); set_solver. }
  destruct Hstep as [nowDb now uuid input r db1 H|nowDb txDb now uuid input r db1 H|now b reason r db1 H|b r db1 H
         |b reason r db1 H|nowDb a result db1 H|a result db1 H|input r db1 H
         |nowDb sid|nowDb u0 daemon r db1 H|u0|i db1 H|u0 daemon machine db1 H|rows|rows Hn].
  - unfold reserveConcurrentSession in H. destruct (reserveInTransaction _ _ _ _ _) as [[db2 d]|] eqn:E;
      injection H as <- _; [|left; eapply Hadd; [|done]; set_solver].
    destruct (reserve_within _ _ _ _ _ _ _ u limit Hok E Hask); [left; by eapply Hadd|by right; right].
  - destruct (admit_within _ _ _ _ _ _ _ _ _ u limit Hok Hask H); [left; by eapply Hadd|by right; right].
  - left. apply Hkeep; [|done]. by eapply settle_within.
  - unfold out', outside_after. destruct (pin_within _ _ _ _ u Hok H) as [Hsub|(sid & Hs & Hin & Hsub)].
    + destruct (b_sessionId b) as [sid|]; [|left; by apply Hkeep].
      case_bool_decide as Hd; [|left; by apply Hkeep]. right; left.
      apply elem_of_difference in Hd as [? ?]. exists (inr (reservationId b)), sid. split_and!; [by apply Hgrant|done|].
      apply bind_slot; [by apply union_subseteq_l'|done].
    + assert (Hout : inr (reservationId b) ∉ occupied db1 u).
      { intros Ho%Hsub. by apply elem_of_union in Ho as [[_ Hno]%elem_of_difference|Ho%elem_of_singleton];
          [apply Hno, elem_of_singleton|]. }
      right; left. exists (inr (reservationId b)), sid. split_and!; [by apply Hgrant|done|]. rewrite Hs.
      rewrite bool_decide_eq_true_2 by (by apply elem_of_difference).
      apply bind_slot; [|done]. etrans; [exact Hsub|]. apply union_mono_r, subseteq_difference_l. done.
  - left. apply Hkeep; [|done]. by eapply uncertain_within.
  - left. apply Hkeep; [|done]. rewrite (update_admissions_shape _ _ _ _ H).
    apply occupied_admissions. intros m _. apply if_same_admission, complete_same.
  - left. apply Hkeep; [|done]. unfold claimContinueAdmissionOutcome in H. destruct (existsb _ _); [done|].
    rewrite (update_admissions_shape _ _ _ _ H).
    apply occupied_admissions. intros m _. apply if_same_admission, claim_outcome_same.
  - left. apply Hkeep; [|done]. destruct (host_frame _ _ _ _ H) as (Hr & Ha & Hs).
    apply occupied_shrinks; [done|..].
    + rewrite Hr. intros q ? ?. by exists q.
    + rewrite Ha. intros m ? ?. by exists m.
  - left. apply Hkeep; [|done]. apply delete_session_within.
  - left. apply Hkeep; [|done]. by eapply delete_host_within.
  - left. apply Hkeep; [|done]. apply account_within.
  - pose proof (rename_within _ _ _ u H) as Hsub. specialize (Hadd _ Hsub). unfold out', outside_after in *.
    case_bool_decide as Hd; [right; left|left; by apply Hadd].
    apply elem_of_difference in Hd as [[Hin Hno]%elem_of_difference Hout].
    exists (inl (oldSessionId i)), (newSessionId i). split_and!; [by apply elem_of_difference|done|].
    by apply move_slot.
  - left. apply Hkeep; [|done]. by eapply merge_within.
  - left. apply Hkeep; [|done]. by apply occupied_shrinks; [done|intros q ? ?; exists q|intros m ? ?; exists m].
  - left. apply (Hadd (occupied (with_sessions db rows) u)); [set_solver|done].
Qed.

(** The sets the claim speaks of. *)
Record tracked (u n : Z) (w : QuotaDb * gset Slot) : Prop := {
  tracked_ok : quota_ok w.1;
  tracked_use x : x ∈ w.2 → x ∈ occupied w.1 u ∧ ∃ sid, x = inl sid;
  tracked_size : Z.of_nat (size (occupied w.1 u ∖ w.2)) ≤ n
}.

Lemma excused_session u sid db x : x ∈ excused u sid db → ∃ s, x = inl s.
Proof. unfold excused. destruct sid as [s|]; [|set_solver]. destruct (uncounted _ _ _); set_solver. Qed.

(** A daemon's report can only bring sessions into use. *)
Lemma reported_session u rows db x :
  x ∈ occupied (with_sessions db rows) u ∖ occupied db u → ∃ s, x = inl s.
Proof.
  intros [Hx Hn]%elem_of_difference. unfold occupied at 1 in Hx.
  apply elem_of_union in Hx as [(s & _ & _ & ->)%elem_of_active_slots|Hx]; [by eexists|].
  destruct Hn. unfold occupied. apply elem_of_union. by right.
Qed.

Lemma outside_sessions sha256 u ev db db' out x :
  quota_step sha256 db ev db' → (∀ x, x ∈ out → ∃ sid, x = inl sid) →
  x ∈ outside_after u ev db db' out → x ∈ occupied db' u ∧ ∃ sid, x = inl sid.
Proof.
  unfold outside_after. intros Hstep Hout [Hx Hu]%elem_of_intersection. split; [done|].
  destruct Hstep as [| | | | | | | | | | | | | |rows Hn]; try by apply Hout.
  - apply elem_of_union in Hx as [Hx|[Hx _]%elem_of_difference]; [by apply Hout|by eapply excused_session].
  - apply elem_of_union in Hx as [Hx|[Hx _]%elem_of_difference]; [by apply Hout|by eapply excused_session].
  - destruct (b_sessionId b); [|by apply Hout]. destruct (bool_decide _); [|by apply Hout].
    apply elem_of_difference in Hx as [? _]. by apply Hout.
  - destruct (bool_decide _); [by apply Hout|].
    apply elem_of_union in Hx as [Hx|[Hx%elem_of_singleton _]%elem_of_difference]; [by apply Hout|by eexists].
  - apply elem_of_union in Hx as [Hx|Hx]; [by apply Hout|by eapply reported_session].
Qed.

Lemma tracked_preserved sha256 u limit n w w' :
  limit ≤ n → tracked_step sha256 u limit w w' → tracked u n w → tracked u n w'.
Proof.
  destruct w as [db out], w' as [db' out']. intros Hn (ev & Hstep & Hask & Eo) [Hok Hout Hsize]. simpl in *. subst out'.
  pose proof (quota_step_ok _ _ _ _ Hstep Hok) as Hok'.
  constructor; simpl; [done|intros x; eapply outside_sessions; [done|]; intros y Hy; by apply Hout|].
  destruct (step_within _ _ _ _ _ _ out Hok Hstep Hask) as [Hs|[(y & sid & Hin & Hno & Hs)|Hl]].
  - intros y Hy. by apply Hout.
  - apply subseteq_size in Hs. lia.
  - eapply size_exchange in Hs; [lia|done].
  - rewrite usage_occupied in Hl by apply Hok'.
    pose proof (subseteq_size (occupied db' u ∖ outside_after u ev db db' out) (occupied db' u) ltac:(set_solver)). lia.
Qed.

(** C37: However reservations, messages, settlements and arbitrary reports of
    daemons interleave, the slots an account takes stay within its limit, or
    within what was in use when the limit was set.  Each live root session,
    each reservation that is not settled and each message whose outcome is open
    has a slot, the same session once; left aside are only the slots in [out],
    all of sessions in use: those a daemon reported as live while nothing held a
    slot for them, renamed ones whose old name keeps a slot, and live subagents
    or observed sessions that were addressed.  A step that brings any other slot
    into use frees one taken before (a session is bound to its reservation, or
    renamed), or leaves the total, with [out], within the limit. *)
Theorem quota_never_exceeded sha256 u limit n db db' out :
  quota_ok db → within_slots u n ∅ db → limit ≤ n →
  rtc (tracked_step sha256 u limit) (db, ∅) (db', out) →
  quota_ok db' ∧ within_slots u n out db' ∧ (∀ x, x ∈ out → in_use u db' x ∧ ∃ sid, x = inl sid) ∧
  ∀ db'' out', tracked_step sha256 u limit (db', out) (db'', out') →
    (∀ x, in_use u db'' x → x ∉ out' → in_use u db' x ∧ x ∉ out) ∨
    (∃ x, in_use u db' x ∧ x ∉ out ∧ ¬ in_use u db'' x) ∨
    within_slots u limit ∅ db''.
Proof.
  intros Hok Hw Hn Hrun.
  assert (Ht : tracked u n (db', out)).
  { apply (rtc_ind_r (λ w, tracked u n w) (db, ∅)) in Hrun; [done| |].
    - constructor; simpl; [done|by intros x ?%elem_of_empty|by apply within_size].
    - intros w w' _ Hs Hw'. by eapply tracked_preserved. }
  destruct Ht as [Hok' Hout Hsize]. simpl in *. split; [done|]. split; [by apply within_size|].
  split; [intros x; rewrite in_use_occupied; apply Hout|].
  intros db'' out' (ev & Hstep & Hask & Eo). simpl in *. subst out'.
  destruct (step_within _ _ _ _ _ _ out Hok' Hstep Hask) as [Hs|[(y & sid & Hin & Hno & _)|Hl]].
  - intros y Hy. by apply Hout.
  - left. intros x. rewrite !in_use_occupied. intros Hx Hx'. apply elem_of_difference, Hs. by apply elem_of_difference.
  - right; left. exists y. rewrite !in_use_occupied. by apply elem_of_difference in Hin as [? ?].
  - right; right. apply within_usage; [by eapply quota_step_ok|done].
Qed.

(** ** The ledger *)

(** What a settlement must show: that the create never got a session, or that
    the session it got, or the one it resumed, is one of the account's on the
    daemon of the grant, not older than the grant when it was created by it. *)
Definition settlement_evidence (db : QuotaDb) (reason : string) (q : ReservationRow) (session : option string) : Prop :=
  match session with
  | None => q_operation q = CreateOp ∧ q_session_id q = None ∧
            reason ≠ "session_created"%string ∧ reason ≠ "session_active"%string
  | Some sid => (q_session_id q = Some sid ∨ q_operation q = CreateOp ∧ q_session_id q = None) ∧
      reason ≠ "session_create_failed"%string ∧
      ∃ s, s ∈ session_rows db ∧ n_session_id s = sid ∧ n_user_id s = Some (q_user_id q) ∧
        n_daemon_id s = q_daemon_id q ∧
        (q_operation q = CreateOp → ∃ t, n_created_at s = Some t ∧ q_created_at q ≤ t)
  end.

(** A settlement that names the reservation, by its whole binding. *)
Definition settled_by (db : QuotaDb) (q : ReservationRow) (db' : QuotaDb) : Prop :=
  ∃ now b reason r, settleQuotaReservation now b reason db = Returns (db', r) ∧
    reservationId b = q_id q ∧ b_userId b = q_user_id q ∧ Some (b_daemonId b) = q_daemon_id q ∧
    b_requestId b = q_request_id q ∧ b_operation b = q_operation q ∧
    settlement_evidence db reason q (b_sessionId b) ∧ settled_row now b reason q ∈ reservations db'.

Lemma sql_eq_spec {A} `{EqDecision A} (o : option A) v : sql_eq o v = true ↔ o = Some v.
Proof. destruct o; simpl; [rewrite bool_decide_eq_true|]; naive_solver. Qed.

Lemma binds_spec b q :
  binds b q = true → reservationId b = q_id q ∧ b_userId b = q_user_id q ∧ Some (b_daemonId b) = q_daemon_id q ∧
    b_requestId b = q_request_id q ∧ b_operation b = q_operation q.
Proof.
  unfold binds. intros H. bool_hyps.
  match goal with H : sql_eq _ _ = true |- _ => apply sql_eq_spec in H end. naive_solver.
Qed.

Lemma own_session_spec db b sid since :
  session_since db b sid since = true →
  ∃ s, s ∈ session_rows db ∧ n_session_id s = sid ∧ n_user_id s = Some (b_userId b) ∧
    n_daemon_id s = Some (b_daemonId b) ∧ ∀ t0, since = Some t0 → ∃ t, n_created_at s = Some t ∧ t0 ≤ t.
Proof.
  unfold session_since. intros (s & Hs%list_elem_of_In & H)%existsb_exists. bool_hyps. rewrite !sql_eq_spec in *.
  exists s. split_and!; [done..|]. intros t0 ->. destruct (n_created_at s); [|done]. bool_hyps. eauto.
Qed.

(** The binding an operation may give for a reason. *)
Lemma assert_binding b reason :
  assertReservationBinding b (Some reason) = Returns tt →
  (b_sessionId b = None → b_operation b = CreateOp ∧ reason ≠ "session_created"%string ∧
     reason ≠ "session_active"%string) ∧
  (∀ sid, b_sessionId b = Some sid → reason ≠ "session_create_failed"%string).
Proof.
  unfold assertReservationBinding. intros H.
  repeat match type of H with (if ?c then _ else _) = _ => destruct c eqn:?; [done|] end.
  destruct (b_operation b), (b_sessionId b) as [sid|]; simpl in *; repeat case_bool_decide; simplify_eq; simpl in *;
    split; intros; split_and?; congruence.
Qed.

Lemma settle_evidence now b reason db db' r q :
  settleQuotaReservation now b reason db = Returns (db', r) → settle_target db b reason q = true →
  unsettled q = true → settlement_evidence db reason q (b_sessionId b).
Proof.
  unfold settleQuotaReservation. destruct (negb _); [done|].
  destruct (assertReservationBinding _ _) as [[]|] eqn:Ea; [|done]. intros _ Ht Hu.
  apply assert_binding in Ea as [Hnone Hsome]. unfold settle_target in Ht. bool_hyps.
  match goal with H : binds _ _ = true |- _ => apply binds_spec in H as (Hid & Hus & Hd & Hreq & Hop) end.
  unfold settlement_evidence. destruct (b_sessionId b) as [sid|].
  - destruct (b_operation b); bool_hyps; match goal with H : session_since _ _ _ _ = true |- _ =>
      apply own_session_spec in H as (s & Hs & Hsid & Hsu & Hsd & Ht) end;
      (split_and!; [| by eapply Hsome|exists s; split_and!; [done..|congruence|congruence|]]).
    + match goal with H : bool_decide _ || _ = true |- _ => apply orb_true_iff in H as [H|H] end; bool_hyps; [auto|].
      left. by apply sql_eq_spec.
    + intros _. by apply Ht.
    + left. by apply sql_eq_spec.
    + by rewrite <- Hop.
  - destruct Hnone as (Ho & ? & ?); [done|]. rewrite Ho in *. bool_hyps. by split_and!.
Qed.

(** The row of [q] in [db'], still unsettled, what identifies it unchanged. *)
Definition survives (q : ReservationRow) (db' : QuotaDb) : Prop :=
  ∃ q', q' ∈ reservations db' ∧ same_row q q' ∧ unsettled q' = true.

Lemma survives_map db g q :
  q ∈ reservations db → same_row q (g q) → unsettled (g q) = true →
  survives q (with_reservations db (map g (reservations db))).
Proof. intros Hq Hs Hu. exists (g q). split_and!; [|done..]. by apply list_elem_of_fmap_2. Qed.

Lemma survives_same q db db' : reservations db' = reservations db → q ∈ reservations db → unsettled q = true → survives q db'.
Proof. intros He Hq Hu. exists q. rewrite He. split_and!; [done|apply same_row_refl|done]. Qed.

Lemma reserve_survives nowDb now uuid input db db' d q :
  reserveInTransaction nowDb now uuid input db = Returns (db', d) → q ∈ reservations db → unsettled q = true →
  survives q db'.
Proof.
  intros H Hq Hu. pose proof (purged_keeps now (r_userId input) _ _ Hq Hu) as Hp.
  destruct (reserve_shape _ _ _ _ _ _ _ H) as [(p & ->)|(-> & _)].
  - apply survives_map; [done| |]; [by apply if_same_row, fill_same|by destruct (p q)].
  - exists q. split_and!; [|apply same_row_refl|done]. apply elem_of_app. by left.
Qed.

Lemma admit_survives sha256 nowDb txDb now uuid input db db' r q :
  admitSessionMessage sha256 nowDb txDb now uuid input db = (db', r) → q ∈ reservations db → unsettled q = true →
  survives q db'.
Proof.
  unfold admitSessionMessage. intros H Hq Hu.
  destruct (admitInTransaction _ _ _ _ _ _) as [[db2 d]|] eqn:E; injection H as <- _;
    [|by eapply survives_same].
  destruct (admit_shape _ _ _ _ _ _ _ _ E) as [->|(s & _ & _ & [(db3 & d' & Hr & Hd)|(_ & _ & ->)])];
    [by eapply survives_same| |by eapply survives_same].
  destruct (reserve_survives _ _ _ _ _ _ _ q Hr) as (q' & ? & ? & ?); [done..|].
  exists q'. by destruct Hd as [->| ->].
Qed.

(** C25: A reservation leaves the budget only by a settlement of its own, or with its
    account: any other step, and any settlement of another binding, keeps its row unsettled, with
    the identity it was granted under and the session it was pinned to.  The
    settlement carries the whole binding and has [settlement_evidence] of the outcome. *)
Theorem reservation_ledger sha256 ev db db' q :
  quota_step sha256 db ev db' → q ∈ reservations db → unsettled q = true →
  survives q db' ∨ settled_by db q db' ∨ ev = AccountGone (q_user_id q).
Proof.
  intros Hstep Hq Hu.
  destruct Hstep as [nowDb now uuid input r db1 H|nowDb txDb now uuid input r db1 H|now b reason r db1 H|b r db1 H
         |b reason r db1 H|nowDb a result db1 H|a result db1 H|input r db1 H
         |nowDb sid|nowDb u0 daemon r db1 H|u0|i db1 H|u0 daemon machine db1 H|rows|rows Hn].
  - left. unfold reserveConcurrentSession in H. destruct (reserveInTransaction _ _ _ _ _) as [[db2 d]|] eqn:E;
      injection H as <- _; [by eapply reserve_survives|by eapply survives_same].
  - left. by eapply admit_survives.
  - destruct (settle_shape _ _ _ _ _ _ H) as [->| Hd]; [left; by eapply survives_same|].
    destruct (settle_target db b reason q) eqn:Et; [pose proof Et as Ht; right; left|left].
    + exists now, b, reason, r. pose proof (settle_evidence _ _ _ _ _ _ _ H Et Hu).
      unfold settle_target in Et. bool_hyps.
      match goal with H : binds _ _ = true |- _ => apply binds_spec in H as (? & ? & ? & ? & ?) end.
      split_and!; [done..|]. rewrite Hd. simpl. apply list_elem_of_fmap. exists q. by rewrite Ht, Hu.
    + rewrite Hd. apply survives_map; rewrite ?Et; [done|apply same_row_refl|done].
  - left. destruct (pin_shape _ _ _ _ H) as [->|(sid & _ & ->)]; [by eapply survives_same|].
    apply survives_map; [done|..]; destruct (claim_target b sid q); simpl; try done.
    + case_bool_decide; [by apply pin_same|apply same_row_refl].
    + by case_bool_decide.
  - left. destruct (uncertain_shape _ _ _ _ _ H) as [->| ->]; [by eapply survives_same|].
    apply survives_map; [done|apply if_same_row, uncertain_same|by destruct (_ && _)].
  - left. rewrite (update_admissions_shape _ _ _ _ H). by eapply survives_same.
  - left. unfold claimContinueAdmissionOutcome in H. destruct (existsb _ _); [done|].
    rewrite (update_admissions_shape _ _ _ _ H). by eapply survives_same.
  - left. destruct (host_frame _ _ _ _ H) as (Hr & _). by eapply survives_same.
  - left. by eapply survives_same.
  - left. unfold deleteDaemon in H. destruct (existsb _ _); injection H as <- _; by eapply survives_same.
  - destruct (decide (q_user_id q = u0)) as [<-|Hne]; [by right; right|left]. exists q.
    split_and!; [|apply same_row_refl|done]. apply elem_of_bfilter. split; [|done].
    by apply negb_true_iff, Z.eqb_neq.
  - left. destruct (rename_shape _ _ _ H) as [->|[_ ->]]; by eapply survives_same.
  - left. unfold consolidateOfflineMachineDaemons in H. destruct (negb _); [injection H as <-; by eapply survives_same|].
    destruct (negb _); [done|]. case_bool_decide; injection H as <-; [by eapply survives_same|].
    eexists. split; [by apply list_elem_of_fmap_2|]. split; [apply if_same_row; by unfold same_row|by destruct (_ && _)].
  - left. by eapply survives_same.
  - left. by eapply survives_same.
Qed.

(** ** Examples *)

Definition w_session : QuotaSession := {|
  n_session_id := "s1"; n_user_id := Some 1; n_daemon_id := Some "d1"%string; n_status := Some "running"%string;
  n_is_subagent := Some false; n_agent_type := Some "claude"%string; n_control_mode := None;
  n_created_at := Some 1500; n_activity_epoch := 0 |}.

Definition w_quota_db : QuotaDb := {|
  reservations := []; admissions := []; session_rows := [w_session]; daemon_rows := []; tombstones := [] |}.

Definition w_create (request : string) : ReserveInput := {|
  r_commandHash := None; r_projectId := None; r_userId := 1; r_requestId := request; r_operation := CreateOp;
  r_daemonId := "d1"; r_sessionId := None; r_limit := Some 2; r_ttlMs := None; r_agentType := None; r_cwd := None |}.

Definition w_reserved (n : string) (db : QuotaDb) : QuotaDb := fst (reserveConcurrentSession 1000 1000 n (w_create n) db).

Lemma w_quota_ok : quota_ok w_quota_db.
Proof.
  constructor; simpl; try apply NoDup_singleton; try apply NoDup_nil_2. intros q m Hq. by apply not_elem_of_nil in Hq.
Qed.

(** One session runs; of two creates the first is granted, the second refused. *)
Lemma quota_never_exceeded_witness :
  within_slots 1 2 ∅ (w_reserved "r2" (w_reserved "r1" w_quota_db)) ∧
  usage (w_reserved "r2" (w_reserved "r1" w_quota_db)) 1 = 2 ∧
  snd (reserveConcurrentSession 1000 1000 "r2" (w_create "r2") (w_reserved "r1" w_quota_db))
    = Returns (QuotaExceeded 1 1 2).
Proof.
  split; [|split; vm_compute; reflexivity].
  apply (quota_never_exceeded (λ s, s) 1 2 2 w_quota_db (w_reserved "r2" (w_reserved "r1" w_quota_db)) ∅).
  - exact w_quota_ok.
  - apply within_usage; [exact w_quota_ok|]. vm_compute. discriminate.
  - lia.
  - apply (rtc_l _ _ (w_reserved "r1" w_quota_db, ∅)); [|eapply rtc_l; [|apply rtc_refl]].
    + exists (Reserving (w_create "r1")). split; [|split].
      * apply (qs_reserve _ _ 1000 1000 "r1" (w_create "r1") (snd (reserveConcurrentSession 1000 1000 "r1"
          (w_create "r1") w_quota_db)) (w_reserved "r1" w_quota_db)). reflexivity.
      * intros _. exists 2. split; [reflexivity|lia].
      * symmetry. vm_compute. reflexivity.
    + exists (Reserving (w_create "r2")). split; [|split].
      * apply (qs_reserve _ _ 1000 1000 "r2" (w_create "r2") (snd (reserveConcurrentSession 1000 1000 "r2"
          (w_create "r2") (w_reserved "r1" w_quota_db))) (w_reserved "r2" (w_reserved "r1" w_quota_db))). reflexivity.
      * intros _. exists 2. split; [reflexivity|lia].
      * symmetry. vm_compute. reflexivity.
Defined.

Definition w_binding : QuotaReservationBinding := {|
  reservationId := "r1"; b_userId := 1; b_daemonId := "d1"; b_requestId := "r1"; b_operation := CreateOp;
  b_sessionId := Some "s1"%string |}.

Definition w_settled : QuotaDb :=
  match settleQuotaReservation 2000 w_binding "session_created" (w_reserved "r1" w_quota_db) with
  | Returns (db, _) => db | Throws _ => w_quota_db end.

Lemma reservation_ledger_witness :
  survives (new_reservation 1000 1000 "r1" (w_create "r1")) w_settled ∨
  settled_by (w_reserved "r1" w_quota_db) (new_reservation 1000 1000 "r1" (w_create "r1")) w_settled ∨
  Recording = AccountGone 1.
Proof.
  apply (reservation_ledger (λ s, s) Recording).
  - eapply (qs_settle _ _ 2000 w_binding "session_created"). reflexivity.
  - simpl. left.
  - reflexivity.
Defined.

Definition w_resume : ReserveInput := {|
  r_commandHash := None; r_projectId := None; r_userId := 1; r_requestId := "r3"; r_operation := ResumeOp;
  r_daemonId := "d1"; r_sessionId := Some "s1"%string; r_limit := Some 2; r_ttlMs := None; r_agentType := None;
  r_cwd := None |}.

Definition w_rename : RenameInput := {|
  oldSessionId := "s1"; newSessionId := "s2"; rn_daemonId := "d1"; rn_userId := Some 1 |}.

(** A rename moves the open messages of a session but not its reservations: a
    session resumed under its old name then has two slots. *)
Example renamed_counts_twice :
  let db := fst (reserveConcurrentSession 1000 1000 "r3" w_resume w_quota_db) in
  usage db 1 = 1 ∧
  match renameOwnedDaemonSession w_rename db with Returns db' => usage db' 1 = 2 | Throws _ => False end.
Proof. by vm_compute. Qed.
