(* ===== verification/RealtimeOutboxSpec.v ===== *)
(** * RealtimeOutboxSpec: no delivery is lost, and each is committed once

    A world is the tables, the open transactions of the consumers and, as ghost
    state, three lists of row identifiers: the deliveries the router took
    ([w_sent]), those whose mark was committed and those whose transaction was
    rolled back; and the deliveries that deletions of sessions, accounts and
    legacy events removed.  Writers, retention, deletions, other statements on
    the inbox and the consumers of several relay processes interleave in any
    order, and a transaction may be rolled back at any point. *)

From stdpp Require Import relations sorting.
From S2P Require Import Prelude JsValue JsMap EventPolicy InboxRepository RealtimeOutbox.

#[local] Open Scope Z_scope.

(** ** Worlds *)

(** A delivery a deletion removed, with the events that were deleted and the
    inbox row the delivery had. *)
Record DeletedDelivery : Type := {
  dd_why : Deletion;
  dd_events : list Z;
  dd_row : option InboxRow;
  dd_delivery : OutboxTableRow
}.

(** It was of the deleted session or account, or of a deleted event. *)
Definition deletion_ok (x : DeletedDelivery) : Prop :=
  (∃ r, dd_row x = Some r ∧ inboxId r = o_inbox_id (dd_delivery x) ∧ belongs (dd_why x) r = true) ∨
  (∃ e, o_event_id (dd_delivery x) = Some e ∧ e ∈ dd_events x) ∨
  (∃ u, dd_why x = OfAccount u ∧ o_user_id (dd_delivery x) = Some u).

Record World : Type := {
  w_db : OutboxDb;
  w_runs : list ActiveRun;
  w_sent : list Z;
  w_committed : list Z;
  w_aborted : list Z;
  w_deleted : list DeletedDelivery
}.

Definition set_db (w : World) (db : OutboxDb) : World := {|
  w_db := db; w_runs := w_runs w; w_sent := w_sent w; w_committed := w_committed w; w_aborted := w_aborted w;
  w_deleted := w_deleted w |}.

(** The ghost entries of a deletion. *)
Definition deleted_deliveries (why : Deletion) (events : list Z) (db : OutboxDb) : list DeletedDelivery :=
  map (λ o, {| dd_why := why; dd_events := events; dd_row := inbox_row db (o_inbox_id o); dd_delivery := o |})
    (bfilter (delivery_deleted why events db) (outbox db)).

Definition locks (w : World) : list Z := concat (run_locked <$> w_runs w).

Definition open_marks (w : World) : list Z := concat (run_marked <$> w_runs w).

Definition inbox_ids (db : OutboxDb) : list Z := inboxId <$> event_inbox (tables db).

(** The router took the row. *)
Definition accepted (answer : outcome bool) (r : RealtimeOutboxRow) : list Z :=
  match answer with Returns true => [ro_outboxId r] | _ => [] end.

Inductive outbox_step (w : World) : World → Prop :=
| os_complete now id ev ds worker n ending db' r :
    complete_with_deliveries now id ev ds worker n ending (w_db w) = (db', r) → outbox_step w (set_db w db')
| os_replay now batch worker ending db' r :
    outbox_transaction ending (completeReplayBatch now batch worker) (w_db w) = (db', r) →
    outbox_step w (set_db w db')
| os_tables t :
    (∀ id, id ∈ inbox_ids (w_db w) → id ∈ inboxId <$> event_inbox t) → NoDup (inboxId <$> event_inbox t) →
    outbox_step w (set_db w (with_inbox_tables (w_db w) t))
| os_retention now acc rows receipts ending db' r :
    run_retention now acc rows receipts ending (w_db w) = (db', r) → outbox_step w (set_db w db')
| os_delete why events :
    (** the deletion waits for the rows that open transactions have locked *)
    (∀ o, o ∈ outbox (w_db w) → delivery_deleted why events (w_db w) o = true → o_outbox_id o ∉ locks w) →
    outbox_step w {| w_db := delete_events why events (w_db w); w_runs := w_runs w; w_sent := w_sent w;
      w_committed := w_committed w; w_aborted := w_aborted w;
      w_deleted := w_deleted w ++ deleted_deliveries why events (w_db w) |}
| os_claim limit :
    outbox_step w {| w_db := w_db w; w_runs := claimUndelivered (locks w) limit (w_db w) :: w_runs w;
      w_sent := w_sent w; w_committed := w_committed w; w_aborted := w_aborted w; w_deleted := w_deleted w |}
| os_deliver l1 a l2 r rest answer a' :
    w_runs w = l1 ++ a :: l2 → run_rows a = r :: rest → deliver_next answer (w_db w) a = Returns a' →
    outbox_step w {| w_db := w_db w; w_runs := l1 ++ a' :: l2; w_sent := w_sent w ++ accepted answer r;
      w_committed := w_committed w; w_aborted := w_aborted w; w_deleted := w_deleted w |}
| os_throw l1 a l2 r rest answer m :
    w_runs w = l1 ++ a :: l2 → run_rows a = r :: rest → deliver_next answer (w_db w) a = Throws m →
    outbox_step w {| w_db := w_db w; w_runs := l1 ++ l2; w_sent := w_sent w ++ accepted answer r;
      w_committed := w_committed w; w_aborted := w_aborted w ++ run_marked a ++ accepted answer r; w_deleted := w_deleted w |}
| os_commit l1 a l2 now :
    w_runs w = l1 ++ a :: l2 → run_rows a = [] →
    outbox_step w {| w_db := commit_run now a (w_db w); w_runs := l1 ++ l2; w_sent := w_sent w;
      w_committed := w_committed w ++ run_marked a; w_aborted := w_aborted w; w_deleted := w_deleted w |}
| os_abort l1 a l2 :
    w_runs w = l1 ++ a :: l2 →
    outbox_step w {| w_db := w_db w; w_runs := l1 ++ l2; w_sent := w_sent w;
      w_committed := w_committed w; w_aborted := w_aborted w ++ run_marked a; w_deleted := w_deleted w |}.

(** ** The tables *)

Record outbox_ok (db : OutboxDb) : Prop := {
  oo_ids : NoDup (o_outbox_id <$> outbox db);
  oo_seq o : o ∈ outbox db → o_outbox_id o < outbox_id_seq db;
  oo_refs o : o ∈ outbox db → o_inbox_id o ∈ inbox_ids db;
  oo_inbox : NoDup (inbox_ids db)
}.

(** What writers do to the outbox: they add undelivered rows. *)
Record grows (db db' : OutboxDb) : Prop := {
  gr_seq : outbox_id_seq db ≤ outbox_id_seq db';
  gr_old o : o ∈ outbox db → o ∈ outbox db';
  gr_new o : o ∈ outbox db' → o ∈ outbox db ∨ (outbox_id_seq db ≤ o_outbox_id o ∧ not_delivered o = true)
}.

#[export] Instance grows_preorder : PreOrder grows.
Proof.
  split; [intros x; constructor; [lia|done|by left]|]. intros x y z [H1 H2 H3] [H4 H5 H6]. constructor; [lia|auto|].
  intros o Ho. destruct (H6 o Ho) as [Hy|[? ?]]; [destruct (H3 o Hy) as [|[? ?]]; auto; right; split; auto; lia|].
  right. split; [lia|done].
Qed.

Lemma grows_same db db' :
  outbox db' = outbox db → outbox_id_seq db ≤ outbox_id_seq db' → grows db db'.
Proof. intros H ?. constructor; rewrite ?H; auto. Qed.

Lemma insert_delivery_ok now d db :
  outbox_ok db → d.1 ∈ inbox_ids db →
  outbox_ok (insert_delivery now d db) ∧ grows db (insert_delivery now d db).
Proof.
  intros [H1 H2 H3 H4] Hd. unfold insert_delivery. destruct (existsb _ _).
  { split; [|apply grows_same; simpl; [done|lia]]. constructor; simpl; auto. intros o Ho. specialize (H2 o Ho). lia. }
  split; constructor; simpl; auto.
  - rewrite fmap_app. apply NoDup_app. split_and!; [done| |apply NoDup_singleton].
    intros x (o & -> & Ho)%list_elem_of_fmap E%list_elem_of_singleton. specialize (H2 o Ho). simpl in E. lia.
  - intros o [Ho| ->%list_elem_of_singleton]%elem_of_app; simpl; [specialize (H2 o Ho)|]; lia.
  - intros o [Ho| ->%list_elem_of_singleton]%elem_of_app; auto.
  - lia.
  - intros o Ho. apply elem_of_app. by left.
  - intros o [Ho| ->%list_elem_of_singleton]%elem_of_app; [by left|]. right. simpl. split; [lia|done].
Qed.

Lemma enqueue_deliveries_ok now ds db :
  outbox_ok db → (∀ d, d ∈ ds → d.1 ∈ inbox_ids db) →
  outbox_ok (enqueue_deliveries now ds db) ∧ grows db (enqueue_deliveries now ds db).
Proof.
  revert db. induction ds as [|d ds IH]; intros db Hok Hd; [done|]. simpl.
  destruct (insert_delivery_ok now d db Hok) as [Hok' Hg]; [apply Hd; left|].
  destruct (IH (insert_delivery now d db) Hok') as [? ?].
  - intros d' ?. apply (Hd d'). by right.
  - split; [done|]. by etrans.
Qed.

Lemma tables_ok db t :
  outbox_ok db → (∀ id, id ∈ inbox_ids db → id ∈ inboxId <$> event_inbox t) → NoDup (inboxId <$> event_inbox t) →
  outbox_ok (with_inbox_tables db t).
Proof. intros [H1 H2 H3 H4] Hi Hn. constructor; simpl; auto. Qed.

(** A body that keeps the tables well formed is a transaction that does. *)
Lemma transaction_grows {A} ending (body : OutboxDb → OutboxDb * outcome A) db db' r :
  outbox_ok db → (∀ db1 a, body db = (db1, Returns a) → outbox_ok db1 ∧ grows db db1) →
  (∀ db1 m, body db = (db1, Throws m) → outbox_id_seq db ≤ outbox_id_seq db1) →
  outbox_transaction ending body db = (db', r) → outbox_ok db' ∧ grows db db'.
Proof.
  intros Hok Hret Hthrow. unfold outbox_transaction. destruct (body db) as [db1 res] eqn:E.
  assert (Hundo : ∀ n, outbox_id_seq db ≤ n →
    let u := {| tables := tables db; outbox := outbox db; outbox_id_seq := n |} in outbox_ok u ∧ grows db u).
  { intros n Hn u. split; [|by apply grows_same]. destruct Hok as [H1 H2 H3 H4]. constructor; simpl; auto.
    intros o Ho. specialize (H2 o Ho). lia. }
  destruct res as [a|m]; [|intros [= <- _]; apply Hundo; by eapply Hthrow].
  destruct (Hret db1 a eq_refl) as [Hok1 Hg1].
  destruct ending; intros [= <- _]; auto. apply Hundo, Hg1.
Qed.

Lemma update_where_ids p f rows :
  (∀ r, inboxId (f r) = inboxId r) → inboxId <$> update_where p f rows = inboxId <$> rows.
Proof.
  intros Hf. unfold update_where. change (map ?g ?l) with (g <$> l). rewrite <- list_fmap_compose.
  apply list_fmap_ext. intros _ r _. simpl. destruct (p r); auto.
Qed.

Lemma holds_claim_inbox id worker n rows :
  len (bfilter (holds_claim id worker n) rows) = 1 → id ∈ inboxId <$> rows.
Proof.
  intros H. destruct (bfilter _ rows) as [|r l] eqn:E; [done|].
  assert (r ∈ r :: l) as Hr by left. rewrite <- E in Hr. apply elem_of_bfilter in Hr as [Hc Hr].
  unfold holds_claim in Hc. bool_hyps. apply list_elem_of_fmap. by exists r.
Qed.

Lemma complete_grows now id ev ds worker n ending db db' r :
  outbox_ok db → complete_with_deliveries now id ev ds worker n ending db = (db', r) →
  outbox_ok db' ∧ grows db db'.
Proof.
  intros Hok. apply transaction_grows; [done|..]; intros db1 x; cbv zeta; destruct (_ =? _) eqn:E; try done.
  - intros [= <- _]. apply Z.eqb_eq, holds_claim_inbox in E.
    set (done := with_inbox_tables db _).
    assert (Hids : inbox_ids done = inbox_ids db) by by apply update_where_ids.
    assert (Hokd : outbox_ok done).
    { apply tables_ok; [done| |]; simpl; rewrite update_where_ids by done; [done|apply Hok]. }
    destruct (enqueue_deliveries_ok now (map (λ d, (id, d)) ds) done Hokd) as [Hok' Hg].
    + intros d (x' & -> & _)%list_elem_of_fmap. by rewrite Hids.
    + split; [done|]. etrans; [|exact Hg]. apply grows_same; simpl; [done|lia].
  - intros [= <- _]. lia.
Qed.

Lemma replay_row_id now worker batch r : inboxId (replay_row now worker batch r) = inboxId r.
Proof. unfold replay_row. by destruct (replay_match _ _ _ _). Qed.

(** The entries of a batch whose fences all hold are rows of the inbox. *)
Lemma replay_all_matched now worker batch rows :
  NoDup (inboxId <$> rows) →
  len (bfilter (λ r, bool_decide (is_Some (replay_match now worker batch r))) rows) = len batch →
  ∀ c, c ∈ batch → rc_inboxId c ∈ inboxId <$> rows.
Proof.
  intros Hn Hlen c Hc. set (p := λ r, bool_decide (is_Some (replay_match now worker batch r))) in *.
  assert (Hsub : incl (rc_inboxId <$> batch) (inboxId <$> bfilter p rows)).
  { apply NoDup_length_incl.
    - apply NoDup_ListNoDup. eapply sublist_NoDup; [exact Hn|]. apply fmap_sublist, bfilter_sublist.
    - rewrite !length_fmap. lia.
    - intros x Hx%list_elem_of_In. apply list_elem_of_fmap in Hx as (r & -> & [Hp _]%elem_of_bfilter).
      apply bool_decide_eq_true in Hp as [c' Hc']. unfold replay_match in Hc'.
      destruct (find_first _ _) as [[i c'']|] eqn:Ef; [|done]. simplify_eq/=.
      apply find_first_Some in Ef as [Hin Hf]. apply list_elem_of_In, list_elem_of_fmap. exists c'.
      unfold replay_fence in Hf. bool_hyps. split; [done|].
      apply list_elem_of_lookup in Hin as [k Hk]. rewrite list_lookup_imap in Hk.
      destruct (batch !! k) eqn:Eb; simplify_eq/=. by eapply list_elem_of_lookup_2. }
  assert (Hin : rc_inboxId c ∈ inboxId <$> bfilter p rows).
  { apply list_elem_of_In, Hsub, list_elem_of_In, list_elem_of_fmap_2, Hc. }
  apply list_elem_of_fmap in Hin as (r & -> & [_ Hr]%elem_of_bfilter). by apply list_elem_of_fmap_2.
Qed.

Lemma replay_grows now batch worker ending db db' r :
  outbox_ok db → outbox_transaction ending (completeReplayBatch now batch worker) db = (db', r) →
  outbox_ok db' ∧ grows db db'.
Proof.
  intros Hok. apply transaction_grows; [done|..]; intros db1 x; unfold completeReplayBatch; cbv zeta.
  - destruct (last batch) as [f|]; [|by intros [= <- _]]. destruct batch as [|h t]; [by intros [= <- _]|].
    set (batch := h :: t). destruct (_ =? _) eqn:E; [|done]. intros [= <- _].
    apply Z.eqb_eq in E. set (done := with_inbox_tables db _).
    assert (Hids : inbox_ids done = inbox_ids db).
    { unfold inbox_ids, done. simpl. change (map ?g ?l) with (g <$> l). rewrite <- list_fmap_compose.
      apply list_fmap_ext. intros _ y _. apply replay_row_id. }
    assert (Hokd : outbox_ok done).
    { apply tables_ok; [done| |]; change (inboxId <$> _) with (inbox_ids done); rewrite Hids; [done|apply Hok]. }
    destruct (enqueue_deliveries_ok now (replay_deliveries batch) done Hokd) as [Hok' Hg].
    + intros d Hd. unfold replay_deliveries in Hd. apply list_elem_of_In, in_concat in Hd as (l & Hl & Hd).
      apply in_map_iff in Hl as (c & <- & Hc%list_elem_of_In). apply in_map_iff in Hd as (y & <- & _).
      rewrite Hids. eapply replay_all_matched; [apply Hok|exact E|done].
    + split; [done|]. etrans; [|exact Hg]. apply grows_same; simpl; [done|lia].
  - destruct (last batch); [|by intros [= <- _]]. destruct batch; [by intros [= <- _]|].
    destruct (_ =? _); [done|]. intros [= <- _]. simpl. lia.
Qed.

(** ** Retention *)

Lemma elem_of_take_sort {A} (R : relation A) `{!RelDecision R} n l x : x ∈ take n (merge_sort R l) → x ∈ l.
Proof.
  intros (i & Hi & _)%elem_of_take. apply list_elem_of_lookup_2 in Hi. by rewrite merge_sort_Permutation in Hi.
Qed.

(** Retention deletes rows of the outbox that were delivered, and nothing else
    of it. *)
Record shrinks (db db' : OutboxDb) : Prop := {
  sh_seq : outbox_id_seq db' = outbox_id_seq db;
  sh_sub o : o ∈ outbox db' → o ∈ outbox db;
  sh_keep o : o ∈ outbox db → not_delivered o = true → o ∈ outbox db'
}.

Lemma expired_delivered now acc locked db o :
  o ∈ outbox db → o_inbox_id o ∈ map inboxId (expired_rows now acc locked db) → not_delivered o = false.
Proof.
  intros Ho (r & Hid & Hr)%list_elem_of_fmap. apply elem_of_take_sort, elem_of_bfilter in Hr as [Hr _].
  bool_hyps. match goal with H : has_undelivered _ _ = false |- _ => pose proof (existsb_none _ _ _ H Ho) as Hn end.
  simpl in Hn. by rewrite Hid, Z.eqb_refl in Hn.
Qed.

Lemma retention_shrinks now acc rows receipts ending db db' r :
  outbox_ok db → run_retention now acc rows receipts ending db = (db', r) → outbox_ok db' ∧ shrinks db db'.
Proof.
  intros Hok. pose proof Hok as [H1 H2 H3 H4]. unfold run_retention, outbox_transaction. cbv zeta.
  assert (Hundo : ∀ n, n = outbox_id_seq db →
    let u := {| tables := tables db; outbox := outbox db; outbox_id_seq := n |} in outbox_ok u ∧ shrinks db u).
  { intros n -> u. split; by constructor. }
  set (ids := map inboxId (expired_rows now acc rows db)).
  set (db1 := delete_inbox ids db). set (db2 := delete_receipts _ db1).
  assert (Hdb2 : outbox_ok db2 ∧ shrinks db db2).
  { split; constructor; simpl; [| | | |done| |].
    - eapply sublist_NoDup; [exact H1|]. apply fmap_sublist, bfilter_sublist.
    - intros o [_ Ho]%elem_of_bfilter. auto.
    - intros o [Hn Ho]%elem_of_bfilter. bool_hyps. apply H3 in Ho.
      apply list_elem_of_fmap in Ho as (x & Hx & Hin). apply list_elem_of_fmap. exists x. split; [done|].
      apply elem_of_bfilter. split; [|done]. rewrite <- Hx. by apply negb_true_iff, bool_decide_eq_false_2.
    - eapply sublist_NoDup; [exact H4|]. apply fmap_sublist, bfilter_sublist.
    - by intros o [_ Ho]%elem_of_bfilter.
    - intros o Ho Hu. apply elem_of_bfilter. split; [|done]. apply negb_true_iff, bool_decide_eq_false_2.
      intros Hin. pose proof (expired_delivered _ _ _ _ _ Ho Hin). congruence. }
  destruct ending; intros [= <- _]; auto; by apply Hundo.
Qed.

(** ** Invariant *)

Record run_ok (a : ActiveRun) : Prop := {
  ru_nodup : NoDup ((ro_outboxId <$> run_rows a) ++ run_marked a);
  ru_locked id : id ∈ (ro_outboxId <$> run_rows a) ++ run_marked a → id ∈ run_locked a
}.

Record world_ok (w : World) : Prop := {
  wo_db : outbox_ok (w_db w);
  wo_runs a : a ∈ w_runs w → run_ok a;
  wo_locks : NoDup (locks w);
  wo_locked id : id ∈ locks w → ∃ o, o ∈ outbox (w_db w) ∧ o_outbox_id o = id ∧ not_delivered o = true;
  wo_delivered o : o ∈ outbox (w_db w) → not_delivered o = false → o_outbox_id o ∈ w_committed w;
  wo_committed id : id ∈ w_committed w → id < outbox_id_seq (w_db w);
  wo_final o : o ∈ outbox (w_db w) → o_outbox_id o ∈ w_committed w → not_delivered o = false;
  wo_once : NoDup (w_committed w);
  wo_sent : w_sent w ≡ₚ w_committed w ++ w_aborted w ++ open_marks w;
  wo_deletions x : x ∈ w_deleted w → deletion_ok x
}.

Lemma world_ok_grows w db' :
  world_ok w → outbox_ok db' → grows (w_db w) db' → world_ok (set_db w db').
Proof.
  intros [W1 W2 W3 W4 W5 W6 W7 W8 W9 W10] Hok [G1 G2 G3]. constructor; simpl; try done.
  - intros id Hid. destruct (W4 id Hid) as (o & ? & ? & ?). exists o. auto.
  - intros o Ho Hu. destruct (G3 o Ho) as [|[_ ?]]; [auto|congruence].
  - intros id Hid. specialize (W6 id Hid). lia.
  - intros o Ho Hc. destruct (G3 o Ho) as [|[Hs ?]]; [auto|]. specialize (W6 _ Hc). lia.
Qed.

Lemma world_ok_shrinks w db' :
  world_ok w → outbox_ok db' → shrinks (w_db w) db' → world_ok (set_db w db').
Proof.
  intros [W1 W2 W3 W4 W5 W6 W7 W8 W9 W10] Hok [S1 S2 S3]. constructor; simpl; try done.
  - intros id Hid. destruct (W4 id Hid) as (o & ? & ? & ?). exists o. auto.
  - auto.
  - intros id Hid. rewrite S1. auto.
  - auto.
Qed.

(** A deletion keeps the tables well formed, and what it does not reach. *)
Lemma elem_of_delete why events db o :
  o ∈ outbox (delete_events why events db) ↔ o ∈ outbox db ∧ delivery_deleted why events db o = false.
Proof.
  simpl. rewrite !elem_of_bfilter, !negb_true_iff. split; [tauto|]. intros [Ho Hd]. split_and!; [|done..].
  unfold delivery_deleted in Hd. bool_hyps. by apply bool_decide_eq_false_2.
Qed.

Lemma delete_ok why events db : outbox_ok db → outbox_ok (delete_events why events db).
Proof.
  intros [H1 H2 H3 H4]. constructor.
  - eapply sublist_NoDup; [exact H1|]. apply fmap_sublist. etrans; apply bfilter_sublist.
  - intros o [Ho _]%elem_of_delete. auto.
  - intros o [Ho Hd]%elem_of_delete. apply H3 in Ho. unfold delivery_deleted in Hd. bool_hyps.
    apply list_elem_of_fmap in Ho as (x & Hx & Hin). apply list_elem_of_fmap. exists x. split; [done|].
    apply elem_of_bfilter. split; [|done]. rewrite <- Hx. by apply negb_true_iff, bool_decide_eq_false_2.
  - eapply sublist_NoDup; [exact H4|]. apply fmap_sublist, bfilter_sublist.
Qed.

Lemma find_inbox_row rows r :
  NoDup (inboxId <$> rows) → r ∈ rows → find_first (λ x, inboxId x =? inboxId r) rows = Some r.
Proof.
  induction rows as [|x rows IH]; intros Hn Hr; [by apply not_elem_of_nil in Hr|].
  rewrite fmap_cons in Hn. apply NoDup_cons in Hn as [Hx Hn]. simpl.
  apply elem_of_cons in Hr as [->|Hr]; [by rewrite Z.eqb_refl|].
  destruct (Z.eqb_spec (inboxId x) (inboxId r)) as [E|_]; [|auto]. destruct Hx. rewrite E. by apply list_elem_of_fmap_2.
Qed.

Lemma deleted_deliveries_ok why events db x :
  NoDup (inbox_ids db) → x ∈ deleted_deliveries why events db → deletion_ok x.
Proof.
  intros Hn (o & -> & [Hd Ho]%elem_of_bfilter)%list_elem_of_fmap. unfold deletion_ok. simpl.
  unfold delivery_deleted in Hd. apply orb_true_iff in Hd as [[Hd|Hd]%orb_true_iff|Hd].
  - left. apply bool_decide_eq_true, list_elem_of_fmap in Hd as (r & Hid & [Hb Hr]%elem_of_bfilter).
    exists r. split_and!; [|done..]. unfold inbox_row. rewrite Hid. by apply find_inbox_row.
  - right; left. destruct (o_event_id o) as [e|]; [|done]. apply bool_decide_eq_true in Hd. by exists e.
  - right; right. destruct why as [|u|]; try done. apply bool_decide_eq_true in Hd. by exists u.
Qed.

Lemma world_ok_delete w why events :
  world_ok w →
  (∀ o, o ∈ outbox (w_db w) → delivery_deleted why events (w_db w) o = true → o_outbox_id o ∉ locks w) →
  world_ok {| w_db := delete_events why events (w_db w); w_runs := w_runs w; w_sent := w_sent w;
    w_committed := w_committed w; w_aborted := w_aborted w;
    w_deleted := w_deleted w ++ deleted_deliveries why events (w_db w) |}.
Proof.
  intros [W1 W2 W3 W4 W5 W6 W7 W8 W9 W10] Hfree. constructor; cbn [w_db w_runs w_sent w_committed w_aborted w_deleted];
    try done.
  - by apply delete_ok.
  - intros id Hid. destruct (W4 id Hid) as (o & Ho & <- & Hu). exists o. split_and!; [|done..].
    apply elem_of_delete. split; [done|]. apply not_true_iff_false. intros Hd. by apply (Hfree o Ho Hd).
  - intros o [Ho _]%elem_of_delete. auto.
  - intros o [Ho _]%elem_of_delete. auto.
  - intros x [Hx|Hx]%elem_of_app; [auto|]. eapply deleted_deliveries_ok; [apply W1|done].
Qed.

(** ** Consumers *)

Lemma claimable_spec locked limit db o :
  o ∈ claimable_rows locked limit db → o ∈ outbox db ∧ not_delivered o = true ∧ o_outbox_id o ∉ locked.
Proof. intros [Hb Ho]%elem_of_take_sort%elem_of_bfilter. bool_hyps. auto. Qed.

Lemma claimable_nodup locked limit db :
  NoDup (o_outbox_id <$> outbox db) → NoDup (o_outbox_id <$> claimable_rows locked limit db).
Proof.
  intros Hn. unfold claimable_rows. eapply sublist_NoDup; [|apply fmap_sublist, sublist_take].
  rewrite merge_sort_Permutation. eapply sublist_NoDup; [exact Hn|]. apply fmap_sublist, bfilter_sublist.
Qed.

Lemma claim_ids locked limit db :
  ro_outboxId <$> run_rows (claimUndelivered locked limit db) = o_outbox_id <$> claimable_rows locked limit db.
Proof. simpl. change (map ?f ?l) with (f <$> l). by rewrite <- list_fmap_compose. Qed.

Lemma world_ok_claim w limit :
  world_ok w →
  world_ok {| w_db := w_db w; w_runs := claimUndelivered (locks w) limit (w_db w) :: w_runs w;
    w_sent := w_sent w; w_committed := w_committed w; w_aborted := w_aborted w; w_deleted := w_deleted w |}.
Proof.
  intros [W1 W2 W3 W4 W5 W6 W7 W8 W9 W10]. set (a := claimUndelivered (locks w) limit (w_db w)).
  pose proof (claimable_nodup (locks w) limit (w_db w) (oo_ids _ W1)) as Hn.
  constructor; simpl; try done.
  - intros a' [-> |Ha]%elem_of_cons; [|auto]. constructor; unfold a; rewrite claim_ids, app_nil_r; [done|].
    simpl. intros id Hid. exact Hid.
  - change (NoDup ((o_outbox_id <$> claimable_rows (locks w) limit (w_db w)) ++ locks w)).
    apply NoDup_app. split_and!; [done| |done].
    intros id (o & -> & Ho)%list_elem_of_fmap. by apply claimable_spec in Ho as (_ & _ & ?).
  - change (∀ id, id ∈ (o_outbox_id <$> claimable_rows (locks w) limit (w_db w)) ++ locks w →
      ∃ o, o ∈ outbox (w_db w) ∧ o_outbox_id o = id ∧ not_delivered o = true).
    intros id [(o & -> & Ho)%list_elem_of_fmap|Hid]%elem_of_app; [|auto].
    apply claimable_spec in Ho as (? & ? & _). by exists o.
Qed.

(** What one turn of the loop does to a run. *)
Lemma deliver_next_shape answer db a a' r rest :
  run_rows a = r :: rest → deliver_next answer db a = Returns a' →
  run_rows a' = rest ∧ run_locked a' = run_locked a ∧ run_marked a' = run_marked a ++ accepted answer r.
Proof.
  unfold deliver_next, markDelivered, accepted. intros ->. destruct answer as [[]|]; simpl; try done.
  - destruct (_ =? 1); [|done]. by intros [= <-].
  - intros [= <-]. by rewrite app_nil_r.
Qed.

Lemma run_ok_next answer db a a' r rest :
  run_ok a → run_rows a = r :: rest → deliver_next answer db a = Returns a' → run_ok a'.
Proof.
  intros [R1 R2] Hr H. destruct (deliver_next_shape _ _ _ _ _ _ Hr H) as (Er & El & Em). rewrite Hr in R1, R2.
  assert (Hsub : (ro_outboxId <$> run_rows a') ++ run_marked a' ⊆+ (ro_outboxId <$> r :: rest) ++ run_marked a).
  { rewrite Er, Em. unfold accepted. destruct answer as [[]|]; rewrite ?app_nil_r; simpl;
      [|apply submseteq_cons; reflexivity..].
    apply Permutation_submseteq. rewrite app_assoc. symmetry. apply Permutation_cons_append. }
  constructor.
  - apply submseteq_Permutation in Hsub as [k Hk]. rewrite Hk in R1. by apply NoDup_app in R1 as (? & _ & _).
  - intros id Hid. rewrite El. apply R2. by eapply elem_of_submseteq.
Qed.

Lemma world_ok_deliver w l1 a l2 r rest answer a' :
  world_ok w → w_runs w = l1 ++ a :: l2 → run_rows a = r :: rest →
  deliver_next answer (w_db w) a = Returns a' →
  world_ok {| w_db := w_db w; w_runs := l1 ++ a' :: l2; w_sent := w_sent w ++ accepted answer r;
    w_committed := w_committed w; w_aborted := w_aborted w; w_deleted := w_deleted w |}.
Proof.
  intros [W1 W2 W3 W4 W5 W6 W7 W8 W9 W10] Hruns Hr H.
  destruct (deliver_next_shape _ _ _ _ _ _ Hr H) as (Er & El & Em).
  assert (Hlocks : concat (run_locked <$> l1 ++ a' :: l2) = locks w).
  { unfold locks. rewrite Hruns, !fmap_app, !fmap_cons. by rewrite El. }
  constructor; simpl; unfold locks, open_marks; simpl; rewrite ?Hlocks; try done.
  - intros x [Hx|[->|Hx]%elem_of_cons]%elem_of_app.
    + apply W2. rewrite Hruns. apply elem_of_app. by left.
    + eapply run_ok_next; [|done..]. apply W2. rewrite Hruns. apply elem_of_app. right. left.
    + apply W2. rewrite Hruns. apply elem_of_app. right. by right.
  - rewrite W9. unfold open_marks. rewrite Hruns, !fmap_app, !fmap_cons, !concat_app. simpl.
    rewrite Em, <- !app_assoc. do 4 apply Permutation_app_head. apply Permutation_app_comm.
Qed.

(** A run that ends: its locks are free, its marks are counted elsewhere. *)
Lemma run_ends w l1 a l2 :
  w_runs w = l1 ++ a :: l2 →
  locks w ≡ₚ run_locked a ++ concat (run_locked <$> l1 ++ l2) ∧
  open_marks w ≡ₚ run_marked a ++ concat (run_marked <$> l1 ++ l2).
Proof.
  intros Hruns. unfold locks, open_marks. rewrite Hruns, !fmap_app, !fmap_cons, !concat_app. simpl.
  split; apply Permutation_app_swap_app.
Qed.

Lemma world_ok_ends w l1 a l2 :
  world_ok w → w_runs w = l1 ++ a :: l2 →
  (∀ x, x ∈ l1 ++ l2 → run_ok x) ∧ NoDup (concat (run_locked <$> l1 ++ l2)) ∧
  (∀ id, id ∈ concat (run_locked <$> l1 ++ l2) → id ∈ locks w ∧ id ∉ run_marked a) ∧
  NoDup (run_marked a) ∧ ∀ id, id ∈ run_marked a → id ∈ locks w.
Proof.
  intros [W1 W2 W3 W4 W5 W6 W7 W8 W9 W10] Hruns. destruct (run_ends w l1 a l2 Hruns) as [Hl Hm].
  rewrite Hl in W3. apply NoDup_app in W3 as (N1 & N2 & N3).
  assert (Ha : run_ok a) by (apply W2; rewrite Hruns; apply elem_of_app; right; left).
  assert (Hma : ∀ id, id ∈ run_marked a → id ∈ run_locked a) by (intros; apply Ha, elem_of_app; by right).
  split_and!; [|done|..].
  - intros x Hx. apply W2. rewrite Hruns. apply elem_of_app in Hx as [Hx|Hx]; apply elem_of_app; [by left|].
    right. by right.
  - intros id Hid. rewrite Hl. split; [apply elem_of_app; by right|]. intros Hin%Hma. by apply (N2 id).
  - destruct Ha as [R1 _]. by apply NoDup_app in R1 as (_ & _ & ?).
  - intros id Hid. rewrite Hl. apply elem_of_app. left. auto.
Qed.

Lemma world_ok_abort w l1 a l2 extra :
  world_ok w → w_runs w = l1 ++ a :: l2 →
  world_ok {| w_db := w_db w; w_runs := l1 ++ l2; w_sent := w_sent w ++ extra;
    w_committed := w_committed w; w_aborted := w_aborted w ++ run_marked a ++ extra; w_deleted := w_deleted w |}.
Proof.
  intros Hw Hruns. destruct (world_ok_ends _ _ _ _ Hw Hruns) as (E1 & E2 & E3 & E4 & E5).
  destruct (run_ends w l1 a l2 Hruns) as [_ Hm]. destruct Hw as [W1 W2 W3 W4 W5 W6 W7 W8 W9 W10].
  constructor; simpl; unfold locks, open_marks; simpl; try done.
  - intros id Hid. apply W4. by apply E3.
  - rewrite W9, Hm, <- !app_assoc. do 3 apply Permutation_app_head. apply Permutation_app_comm.
Qed.

Lemma commit_ids now a db : o_outbox_id <$> outbox (commit_run now a db) = o_outbox_id <$> outbox db.
Proof.
  simpl. change (map ?g ?l) with (g <$> l). rewrite <- list_fmap_compose. apply list_fmap_ext.
  intros _ o _. simpl. by destruct (_ && _).
Qed.

Lemma elem_of_commit now a db o' :
  o' ∈ outbox (commit_run now a db) →
  ∃ o, o ∈ outbox db ∧ o_outbox_id o' = o_outbox_id o ∧ o_inbox_id o' = o_inbox_id o ∧
    not_delivered o' = not_delivered o && negb (bool_decide (o_outbox_id o ∈ run_marked a)).
Proof.
  intros (o & -> & Ho)%list_elem_of_fmap. exists o. split; [done|].
  destruct (bool_decide (o_outbox_id o ∈ run_marked a)), (not_delivered o) eqn:E; simpl; by rewrite ?E.
Qed.

Lemma commit_outbox_ok now a db : outbox_ok db → outbox_ok (commit_run now a db).
Proof.
  intros [O1 O2 O3 O4]. constructor; [by rewrite commit_ids| | |done].
  - intros o' (o & ? & -> & _)%elem_of_commit. auto.
  - intros o' (o & ? & _ & -> & _)%elem_of_commit. by apply O3.
Qed.

Lemma world_ok_commit w l1 a l2 now :
  world_ok w → w_runs w = l1 ++ a :: l2 →
  world_ok {| w_db := commit_run now a (w_db w); w_runs := l1 ++ l2; w_sent := w_sent w;
    w_committed := w_committed w ++ run_marked a; w_aborted := w_aborted w; w_deleted := w_deleted w |}.
Proof.
  intros Hw Hruns. destruct (world_ok_ends _ _ _ _ Hw Hruns) as (E1 & E2 & E3 & E4 & E5).
  destruct (run_ends w l1 a l2 Hruns) as [_ Hm]. destruct Hw as [W1 W2 W3 W4 W5 W6 W7 W8 W9 W10].
  assert (Hfresh : ∀ id, id ∈ run_marked a → id ∉ w_committed w).
  { intros id Hid Hc. destruct (W4 id (E5 id Hid)) as (o & Ho & <- & Hu). rewrite (W7 o Ho Hc) in Hu. done. }
  constructor; simpl; unfold locks, open_marks; simpl; try done.
  - by apply commit_outbox_ok.
  - intros id [Hl Hn]%E3. destruct (W4 id Hl) as (o & Ho & <- & Hu). exists o. split_and!; [|done..].
    apply list_elem_of_fmap. exists o. by rewrite bool_decide_eq_false_2.
  - intros o' (o & Ho & -> & _ & ->)%elem_of_commit Hu. apply elem_of_app.
    destruct (bool_decide_reflect (o_outbox_id o ∈ run_marked a)); [by right|]. left.
    rewrite andb_true_r in Hu. auto.
  - intros id [Hid|Hid]%elem_of_app; [auto|]. destruct (W4 id (E5 id Hid)) as (o & Ho & <- & _). by apply W1.
  - intros o' (o & Ho & -> & _ & ->)%elem_of_commit [Hc|Hc]%elem_of_app; [by rewrite (W7 o Ho Hc)|].
    by rewrite (bool_decide_eq_true_2 _ Hc), andb_false_r.
  - apply NoDup_app. split_and!; [done| |done]. intros id Hc Hid. by apply (Hfresh id).
  - rewrite W9, Hm, <- !app_assoc. apply Permutation_app_head. by rewrite Permutation_app_swap_app.
Qed.

Lemma outbox_step_ok w w' : world_ok w → outbox_step w w' → world_ok w'.
Proof.
  intros Hw Hstep. destruct Hstep as [now id ev ds worker n ending db' r H|now batch worker ending db' r H|t Hi Hn
    |now acc rows receipts ending db' r H|why events Hfree|limit|l1 a l2 r rest answer a' Hruns Hr H
    |l1 a l2 r rest answer m Hruns Hr H|l1 a l2 now Hruns _|l1 a l2 Hruns].
  - apply complete_grows in H as [? ?]; [|apply Hw]. by apply world_ok_grows.
  - apply replay_grows in H as [? ?]; [|apply Hw]. by apply world_ok_grows.
  - apply world_ok_grows; [done|apply tables_ok; [apply Hw|done..]|]. by apply grows_same.
  - apply retention_shrinks in H as [? ?]; [|apply Hw]. by apply world_ok_shrinks.
  - by apply world_ok_delete.
  - by apply world_ok_claim.
  - by eapply world_ok_deliver.
  - by eapply world_ok_abort.
  - by eapply world_ok_commit.
  - pose proof (world_ok_abort w l1 a l2 [] Hw Hruns) as Ha. by rewrite !app_nil_r in Ha.
Qed.

(** ** Exactly once *)

Lemma marks_nodup (runs : list ActiveRun) :
  (∀ a, a ∈ runs → run_ok a) → NoDup (concat (run_locked <$> runs)) →
  NoDup (concat (run_marked <$> runs)) ∧
  ∀ id, id ∈ concat (run_marked <$> runs) → id ∈ concat (run_locked <$> runs).
Proof.
  induction runs as [|a runs IH]; simpl; intros Hok Hn; [by split; [apply NoDup_nil_2|]|].
  apply NoDup_app in Hn as (N1 & N2 & N3). destruct IH as [IH1 IH2]; [intros; apply Hok; by right|done|].
  destruct (Hok a ltac:(left)) as [R1 R2]. apply NoDup_app in R1 as (_ & _ & R1).
  assert (Hm : ∀ id, id ∈ run_marked a → id ∈ run_locked a) by (intros; apply R2, elem_of_app; by right).
  split.
  - apply NoDup_app. split_and!; [done| |done]. intros id Hid Hid'. apply (N2 id); auto.
  - intros id [?|?]%elem_of_app; apply elem_of_app; auto.
Qed.

Lemma unmarked_stays now a db o :
  o ∈ outbox db → o_outbox_id o ∉ run_marked a → o ∈ outbox (commit_run now a db).
Proof.
  intros Ho Hn. apply list_elem_of_fmap. exists o. by rewrite bool_decide_eq_false_2.
Qed.

Lemma step_keeps w w' o :
  world_ok w → outbox_step w w' → o ∈ outbox (w_db w) → not_delivered o = true →
  o ∈ outbox (w_db w') ∨ o_outbox_id o ∈ w_committed w' ∨ o ∈ dd_delivery <$> w_deleted w'.
Proof.
  intros Hw Hstep Ho Hu. destruct Hstep as [now id ev ds worker n ending db' r H|now batch worker ending db' r H|t Hi Hn
    |now acc rows receipts ending db' r H|why events Hfree|limit|l1 a l2 r rest answer a' Hruns Hr H
    |l1 a l2 r rest answer m Hruns Hr H|l1 a l2 now Hruns _|l1 a l2 Hruns]; simpl; auto.
  - apply complete_grows in H as [_ Hg]; [|apply Hw]. left. by apply Hg.
  - apply replay_grows in H as [_ Hg]; [|apply Hw]. left. by apply Hg.
  - apply retention_shrinks in H as [_ Hs]; [|apply Hw]. left. by apply Hs.
  - destruct (delivery_deleted why events (w_db w) o) eqn:Hd; [|left; by apply elem_of_delete].
    right; right. rewrite fmap_app. apply elem_of_app. right. unfold deleted_deliveries.
    apply list_elem_of_fmap. eexists. split; [|apply list_elem_of_fmap; exists o; split; [done|]]; [done|].
    by apply elem_of_bfilter.
  - destruct (decide (o_outbox_id o ∈ run_marked a)); [right; left; apply elem_of_app; by right|].
    left. by apply unmarked_stays.
Qed.

Lemma step_history w w' :
  outbox_step w w' → w_committed w `prefix_of` w_committed w' ∧ w_deleted w `prefix_of` w_deleted w'.
Proof. intros []; simpl; split; try done; by eexists. Qed.

Lemma steps_history w w' :
  rtc outbox_step w w' → w_committed w `prefix_of` w_committed w' ∧ w_deleted w `prefix_of` w_deleted w'.
Proof.
  induction 1 as [w|w w1 w' [? ?]%step_history _ [? ?]]; [done|]. split; by etrans.
Qed.

(** C36: However writers, retention and the consumers of any number of processes
    interleave, crash or roll back: a delivery that was stored stays in the
    outbox, with the inbox row it needs to be claimed, until a consumer that
    handed it over has committed, unless a deletion removed it, and then it was
    of the session, account or events that were deleted; and of all deliveries
    the router ever took, each row has at most one that is committed or still
    open.  A row is handed over a second time only when the transaction of the
    first was rolled back. *)
Theorem outbox_exactly_once w w' :
  world_ok w → rtc outbox_step w w' →
  (∀ o, o ∈ outbox (w_db w) → not_delivered o = true →
     (o ∈ outbox (w_db w') ∧ o_inbox_id o ∈ inbox_ids (w_db w')) ∨ o_outbox_id o ∈ w_committed w' ∨
     ∃ x, x ∈ w_deleted w' ∧ dd_delivery x = o ∧ deletion_ok x) ∧
  w_sent w' ≡ₚ w_committed w' ++ w_aborted w' ++ open_marks w' ∧
  NoDup (w_committed w' ++ open_marks w').
Proof.
  intros Hw Hrun.
  assert (Hw' : world_ok w') by (induction Hrun; eauto using outbox_step_ok).
  split_and!.
  - intros o Ho Hu.
    assert (o ∈ outbox (w_db w') ∨ o_outbox_id o ∈ w_committed w' ∨ o ∈ dd_delivery <$> w_deleted w')
      as [?|[?|(x & -> & Hx)%list_elem_of_fmap]]; [|left; split; [done|]|by right; left
        |right; right; exists x; split_and!; [done|done|by apply Hw']].
    { clear Hw'. induction Hrun as [w|w w1 w' Hstep Hrun IH]; [by left|].
      destruct (steps_history _ _ Hrun) as [[k Hk] [l Hl]].
      destruct (step_keeps _ _ _ Hw Hstep Ho Hu) as [Ho1|Hc]; [apply IH; eauto using outbox_step_ok|].
      right. rewrite Hk, Hl, fmap_app, !elem_of_app. tauto. }
    by apply Hw'.
  - apply Hw'.
  - destruct Hw' as [W1 W2 W3 W4 W5 W6 W7 W8 W9 W10]. destruct (marks_nodup (w_runs w') W2 W3) as [M1 M2].
    apply NoDup_app. split_and!; [done| |done]. intros id Hc Hm.
    destruct (W4 id (M2 id Hm)) as (o & Ho & <- & Hu). by rewrite (W7 o Ho Hc) in Hu.
Qed.

(** ** Completion *)

Lemma insert_delivery_in now d db :
  ∃ o, o ∈ outbox (insert_delivery now d db) ∧ delivery_of d.1 (deliveryKey d.2) o = true.
Proof.
  unfold insert_delivery. simpl. destruct (existsb _ _) eqn:E.
  - apply existsb_exists in E as (o & Ho%list_elem_of_In & Hd). eauto.
  - eexists. split; [apply elem_of_app; right; by left|]. unfold delivery_of. simpl.
    by rewrite Z.eqb_refl, bool_decide_eq_true_2.
Qed.

Lemma insert_delivery_old now d db o : o ∈ outbox db → o ∈ outbox (insert_delivery now d db).
Proof. intros Ho. unfold insert_delivery. simpl. destruct (existsb _ _); [done|]. apply elem_of_app. by left. Qed.

Lemma enqueue_old now ds db o : o ∈ outbox db → o ∈ outbox (enqueue_deliveries now ds db).
Proof. revert db. induction ds as [|d ds IH]; simpl; intros db Ho; [done|]. by apply IH, insert_delivery_old. Qed.

Lemma enqueue_in now ds db d :
  d ∈ ds → ∃ o, o ∈ outbox (enqueue_deliveries now ds db) ∧ delivery_of d.1 (deliveryKey d.2) o = true.
Proof.
  revert db. induction ds as [|d' ds IH]; intros db Hd; [by apply not_elem_of_nil in Hd|]. simpl.
  apply elem_of_cons in Hd as [->|Hd]; [|by apply IH].
  destruct (insert_delivery_in now d' db) as (o & Ho & ?). exists o. split; [|done]. by apply enqueue_old.
Qed.

Lemma enqueue_tables now ds db : tables (enqueue_deliveries now ds db) = tables db.
Proof. revert db. induction ds as [|d ds IH]; simpl; intros db; [done|]. by rewrite IH. Qed.

(** Completion is all or nothing: either the inbox row is completed and every
    delivery has its row in the outbox, or neither table changed.  It succeeds
    for the holder of the claim only, and an error leaves the work to be done
    again unless the claim was the caller's and only the answer was lost. *)
Theorem completion_atomic now id ev ds worker n ending db db' r :
  complete_with_deliveries now id ev ds worker n ending db = (db', r) →
  (tables db' = tables db ∧ outbox db' = outbox db ∧ is_return r = false) ∨
  (len (bfilter (holds_claim id worker n) (event_inbox (tables db))) = 1 ∧
   event_inbox (tables db') = update_where (holds_claim id worker n) (completed_row now ev) (event_inbox (tables db)) ∧
   (∀ d, d ∈ ds → ∃ o, o ∈ outbox db' ∧ delivery_of id (deliveryKey d) o = true) ∧
   (is_return r = true ↔ ending = CommitOk)).
Proof.
  unfold complete_with_deliveries, outbox_transaction. cbv zeta. destruct (_ =? 1) eqn:E; [|intros [= <- <-]; by left].
  apply Z.eqb_eq in E. set (done := with_inbox_tables db _). set (es := map (λ d, (id, d)) ds).
  assert (Hin : ∀ d, d ∈ ds → ∃ o, o ∈ outbox (enqueue_deliveries now es done) ∧ delivery_of id (deliveryKey d) o = true).
  { intros d Hd. apply (enqueue_in now es done (id, d)). by apply (list_elem_of_fmap_2 (λ d, (id, d))). }
  destruct ending; intros [= <- <-]; [right|by left|right]; (split; [done|]); rewrite enqueue_tables;
    split_and!; try done.
Qed.

(** ** Progress *)

Section progress.
Context (accept : Z → bool) (batchSize : Z).

(** The router's answer, as long as it does not change. *)
Definition answers (r : RealtimeOutboxRow) : outcome bool := Returns (accept (ro_outboxId r)).

Lemma mark_succeeds db o a :
  NoDup (o_outbox_id <$> outbox db) → o ∈ outbox db → not_delivered o = true → o_outbox_id o ∉ run_marked a →
  markDelivered db (o_outbox_id o) a =
    Returns {| run_rows := run_rows a; run_locked := run_locked a; run_marked := run_marked a ++ [o_outbox_id o] |}.
Proof.
  intros Hn Ho Hu Hm. unfold markDelivered.
  assert (bfilter (λ x, (o_outbox_id x =? o_outbox_id o) && not_delivered x
      && negb (bool_decide (o_outbox_id o ∈ run_marked a))) (outbox db) = [o]) as ->; [|done].
  apply list_elem_of_split in Ho as (l1 & l2 & E). rewrite E in Hn |- *. rewrite fmap_app, fmap_cons in Hn.
  apply NoDup_app in Hn as (_ & Hn1 & [Hn2 _]%NoDup_cons).
  rewrite bfilter_app. cbn. rewrite Z.eqb_refl, Hu, (bool_decide_eq_false_2 _ Hm). cbn.
  rewrite !bfilter_false; [done|..]; intros x Hx; apply andb_false_iff; left; apply andb_false_iff; left;
    apply Z.eqb_neq; intros Ex.
  - apply Hn2. apply list_elem_of_fmap. by exists x.
  - apply (Hn1 (o_outbox_id x)); [by apply list_elem_of_fmap_2|]. rewrite Ex. left.
Qed.

Lemma deliver_rows_marks db rows a :
  NoDup (o_outbox_id <$> outbox db) → NoDup ((o_outbox_id <$> rows) ++ run_marked a) →
  (∀ o, o ∈ rows → o ∈ outbox db ∧ not_delivered o = true) → run_rows a = map (join_daemon db) rows →
  ∃ a', deliver_rows (length rows) answers db a = Returns a' ∧
    run_marked a' = run_marked a ++ bfilter accept (o_outbox_id <$> rows).
Proof.
  intros Hdb. revert a. induction rows as [|o rows IH]; intros a Hn Hrows Ha; simpl in *.
  { exists a. by rewrite app_nil_r. }
  rewrite Ha. unfold deliver_next at 1. rewrite Ha. unfold answers at 1. simpl.
  apply NoDup_cons in Hn as [Hno Hn]. destruct (Hrows o ltac:(left)) as [Ho Hu].
  destruct (accept (o_outbox_id o)) eqn:Ea.
  - rewrite mark_succeeds; [|done..|]; [|simpl; intros ?; apply Hno, elem_of_app; by right].
    simpl. destruct (IH {| run_rows := map (join_daemon db) rows; run_locked := run_locked a;
      run_marked := run_marked a ++ [o_outbox_id o] |}) as (a' & -> & Hm'); simpl; [|by intros; apply Hrows; right|done|].
    + rewrite app_assoc, <- Permutation_cons_append. by apply NoDup_cons.
    + exists a'. split; [done|]. rewrite Hm'. simpl. by rewrite <- app_assoc.
  - destruct (IH {| run_rows := map (join_daemon db) rows; run_locked := run_locked a;
      run_marked := run_marked a |}) as (a' & -> & Hm'); simpl; [done|by intros; apply Hrows; right|done|].
    by exists a'.
Qed.

Lemma deliver_once_marks now db :
  outbox_ok db →
  ∃ a, deliver_once now batchSize answers [] db = (commit_run now a db, Returns tt) ∧
    run_marked a = bfilter accept (o_outbox_id <$> claimable_rows [] batchSize db).
Proof.
  intros Hok. unfold deliver_once. simpl. rewrite length_map.
  destruct (deliver_rows_marks db (claimable_rows [] batchSize db) (claimUndelivered [] batchSize db)) as (a & -> & Hm).
  - apply Hok.
  - simpl. rewrite app_nil_r. apply claimable_nodup, Hok.
  - intros o (? & ? & _)%claimable_spec. done.
  - done.
  - by exists a.
Qed.

(** Runs one after the other, at the given times. *)
Definition run_all (times : list Z) (db : OutboxDb) : OutboxDb :=
  foldl (λ db now, fst (deliver_once now batchSize answers [] db)) db times.

(** When the oldest [batchSize] deliveries all wait for a recipient, every run
    claims exactly these again: nothing behind them is ever delivered, to
    whomever it belongs. *)
Theorem declined_batch_blocks times db :
  outbox_ok db →
  (∀ o, o ∈ claimable_rows [] batchSize db → accept (o_outbox_id o) = false) →
  run_all times db = db.
Proof.
  intros Hok Hd. induction times as [|now times IH]; [done|]. unfold run_all in *. simpl.
  destruct (deliver_once_marks now db Hok) as (a & -> & Hm). simpl.
  assert (commit_run now a db = db) as ->; [|done].
  unfold commit_run. rewrite Hm, bfilter_false by (intros id (o & -> & Ho)%list_elem_of_fmap; auto).
  trans (with_outbox db (map (λ o, o) (outbox db))); [by f_equal; apply map_ext|rewrite map_id; by destruct db].
Qed.

Definition waiting (db : OutboxDb) : list OutboxTableRow :=
  bfilter (λ o, not_delivered o && accept (o_outbox_id o)) (outbox db).

Definition declined (db : OutboxDb) : list OutboxTableRow :=
  bfilter (λ o, not_delivered o && negb (accept (o_outbox_id o))) (outbox db).

Lemma bfilter_map_le {A} (p : A → bool) (f : A → A) l :
  (∀ x, x ∈ l → p (f x) = true → p x = true) → (length (bfilter p (map f l)) ≤ length (bfilter p l))%nat.
Proof.
  induction l as [|x l IH]; intros H; [done|]. simpl.
  pose proof (IH ltac:(intros; apply H; [by right|done])). specialize (H x ltac:(left)).
  destruct (p (f x)); [rewrite H by done|]; destruct (p x); simpl; lia.
Qed.

Lemma bfilter_map_lt {A} (p : A → bool) (f : A → A) l x :
  (∀ x, x ∈ l → p (f x) = true → p x = true) → x ∈ l → p x = true → p (f x) = false →
  (length (bfilter p (map f l)) < length (bfilter p l))%nat.
Proof.
  intros H (l1 & l2 & ->)%list_elem_of_split Hp Hf. rewrite map_app, !bfilter_app, !length_app. simpl.
  rewrite Hp, Hf. simpl.
  pose proof (bfilter_map_le p f l1 ltac:(intros; apply H; [apply elem_of_app; by left|done])).
  pose proof (bfilter_map_le p f l2 ltac:(intros; apply H; [apply elem_of_app; right; by right|done])). lia.
Qed.

Lemma commit_waiting now a db o :
  outbox_ok db → o ∈ outbox db → not_delivered o = true → accept (o_outbox_id o) = true → o_outbox_id o ∈ run_marked a →
  (length (waiting (commit_run now a db)) < length (waiting db))%nat.
Proof.
  intros Hok Ho Hu Ha Hm. unfold waiting. simpl. eapply bfilter_map_lt; [|exact Ho|by rewrite Hu, Ha|].
  - intros x _. by destruct (bool_decide _), (not_delivered x) eqn:E; simpl; rewrite ?E.
  - by rewrite (bool_decide_eq_true_2 _ Hm), Hu.
Qed.

Lemma commit_declined now a db : (length (declined (commit_run now a db)) ≤ length (declined db))%nat.
Proof.
  apply bfilter_map_le. intros x _. by destruct (bool_decide _), (not_delivered x) eqn:E; simpl; rewrite ?E.
Qed.

(** All undelivered rows can be claimed. *)
Lemma claimable_all db :
  outbox_ok db → claimable_rows [] batchSize db =
    take (Z.to_nat (Z.max 1 batchSize)) (merge_sort outbox_le (bfilter not_delivered (outbox db))).
Proof.
  intros Hok. unfold claimable_rows. do 2 f_equal. apply bfilter_ext. intros o Ho.
  rewrite (bool_decide_eq_false_2 (_ ∈ [])) by apply not_elem_of_nil.
  rewrite bool_decide_eq_true_2, !andb_true_r; [done|]. unfold inbox_row.
  pose proof (oo_refs _ Hok o Ho) as Hr. apply list_elem_of_fmap in Hr as (r & Hid & Hr).
  destruct (find_first _ _) eqn:Ef; [done|]. apply find_first_None with (x := r) in Ef; [|done].
  by rewrite <- Hid, Z.eqb_refl in Ef.
Qed.

(** A claim without a row the router takes is the whole outbox, or as large as
    the declined rows. *)
Lemma claim_has_waiting db :
  outbox_ok db → waiting db ≠ [] → len (declined db) < Z.max 1 batchSize →
  ∃ o, o ∈ claimable_rows [] batchSize db ∧ accept (o_outbox_id o) = true.
Proof.
  intros Hok Hw Hd. destruct (existsb (λ o, accept (o_outbox_id o)) (claimable_rows [] batchSize db)) eqn:E.
  { apply existsb_exists in E as (o & Ho%list_elem_of_In & ?). by exists o. }
  exfalso. set (pending := merge_sort outbox_le (bfilter not_delivered (outbox db))).
  assert (Hdecl : claimable_rows [] batchSize db ⊆+ declined db).
  { apply NoDup_submseteq.
    - apply (NoDup_fmap_1 o_outbox_id), claimable_nodup, Hok.
    - intros o Ho. apply elem_of_bfilter. pose proof (existsb_none _ _ _ E Ho) as Ha. simpl in Ha.
      apply claimable_spec in Ho as (Ho & Hu & _). by rewrite Hu, Ha. }
  apply submseteq_length in Hdecl. rewrite claimable_all in Hdecl, E by done. fold pending in Hdecl, E.
  rewrite length_take in Hdecl.
  destruct (waiting db) as [|o l] eqn:El; [done|]. assert (Ho : o ∈ waiting db) by (rewrite El; left).
  apply elem_of_bfilter in Ho as [[Hu Ha]%andb_true_iff Ho].
  assert (Hp : o ∈ pending).
  { unfold pending. rewrite merge_sort_Permutation. by apply elem_of_bfilter. }
  rewrite take_ge in E by lia. pose proof (existsb_none _ _ _ E Hp) as Hn. simpl in Hn. congruence.
Qed.

(** As long as fewer than [batchSize] deliveries wait for a recipient, the
    consumer delivers everything else: after as many runs as there are such
    deliveries, none is left. *)
Theorem outbox_drains times db :
  outbox_ok db → len (declined db) < Z.max 1 batchSize → (length (waiting db) ≤ length times)%nat →
  ∀ o, o ∈ outbox (run_all times db) → not_delivered o = true → accept (o_outbox_id o) = false.
Proof.
  revert db. induction times as [|now times IH]; intros db Hok Hd Hl o; simpl.
  - intros Ho Hu. destruct (waiting db) eqn:E; [|simpl in Hl; lia].
    pose proof (bfilter_none _ _ _ E Ho) as Hn. simpl in Hn. by rewrite Hu in Hn.
  - destruct (deliver_once_marks now db Hok) as (a & -> & Hm). simpl. apply IH.
    + by apply commit_outbox_ok.
    + pose proof (commit_declined now a db). lia.
    + destruct (decide (waiting db = [])) as [Hw|Hw].
      { pose proof (bfilter_map_le (λ o, not_delivered o && accept (o_outbox_id o))
          (λ o, if bool_decide (o_outbox_id o ∈ run_marked a) && not_delivered o then set_delivered now o else o)
          (outbox db)) as Hle. unfold waiting in Hw |- *. simpl. rewrite Hw in Hle. simpl in Hle.
        etrans; [apply Hle|lia]. intros x _. by destruct (bool_decide _), (not_delivered x) eqn:E; simpl; rewrite ?E. }
      destruct (claim_has_waiting db Hok Hw Hd) as (o1 & Ho1 & Ha1).
      pose proof (claimable_spec _ _ _ _ Ho1) as (Ho & Hu & _).
      pose proof (commit_waiting now a db o1 Hok Ho Hu Ha1) as Hlt. rewrite Hm in Hlt.
      specialize (Hlt ltac:(apply elem_of_bfilter; split; [done|by apply list_elem_of_fmap_2])).
      simpl in Hl. lia.
Qed.
End progress.

(** ** Examples *)

Definition w_inbox_row : InboxRow := {|
  inboxId := 1; row_userId := Some 7; row_daemonId := "d1"; row_daemonGeneration := 1; row_seq := 1;
  row_dedupKey := "k"; row_sessionId := Some "s1"%string; row_eventType := "agent_text"; priorityClass := 1;
  schemaVersion := 1; occurredAt := None; row_receivedAt := 10; row_payload := JObj [];
  row_materializationContext := JObj []; status := 1; attempts := 1; availableAt := 10; claimedAt := Some 11;
  claimedBy := Some "w"%string; completedAt := None; materializedEventId := None; lastError := None |}.

Definition w_inbox_tables : DB := {|
  event_inbox := [w_inbox_row]; inbox_id_seq := 2; event_inbox_receipt := []; receipt_id_seq := 1;
  daemon_ack_checkpoint := ∅ |}.

Definition w_delivery (key : string) : MaterializedDelivery := {|
  deliveryKey := key; d_eventId := None; d_userId := Some 7; d_sessionId := Some "s1"%string; d_type := "agent_text";
  d_audience := "session"; d_requestId := None; d_payload := JObj [] |}.

Definition w_empty_outbox : OutboxDb := {| tables := w_inbox_tables; outbox := []; outbox_id_seq := 1 |}.

(** Two deliveries of one event are stored. *)
Definition w_outbox_db : OutboxDb :=
  fst (complete_with_deliveries 20 1 None [w_delivery "1:0"; w_delivery "1:1"] "w" 1 CommitOk w_empty_outbox).

Lemma completion_atomic_witness :
  complete_with_deliveries 20 1 None [w_delivery "1:0"; w_delivery "1:1"] "w" 1 CommitOk w_empty_outbox
    = (w_outbox_db, Returns 1) ∧
  ((tables w_outbox_db = tables w_empty_outbox ∧ outbox w_outbox_db = outbox w_empty_outbox ∧
    is_return (Returns 1) = false) ∨
   (len (bfilter (holds_claim 1 "w" 1) (event_inbox (tables w_empty_outbox))) = 1 ∧
    event_inbox (tables w_outbox_db) =
      update_where (holds_claim 1 "w" 1) (completed_row 20 None) (event_inbox (tables w_empty_outbox)) ∧
    (∀ d, d ∈ [w_delivery "1:0"; w_delivery "1:1"] →
       ∃ o, o ∈ outbox w_outbox_db ∧ delivery_of 1 (deliveryKey d) o = true) ∧
    (is_return (Returns 1) = true ↔ CommitOk = CommitOk))).
Proof.
  split; [reflexivity|].
  apply (completion_atomic 20 1 None [w_delivery "1:0"; w_delivery "1:1"] "w" 1 CommitOk w_empty_outbox). reflexivity.
Defined.

Lemma w_outbox_ok : outbox_ok w_outbox_db.
Proof.
  assert (Hok : outbox_ok w_empty_outbox).
  { constructor; simpl; [apply NoDup_nil_2|..|apply NoDup_singleton]; intros o Ho; by apply not_elem_of_nil in Ho. }
  eapply (complete_grows 20 1 None _ "w" 1 CommitOk w_empty_outbox); [exact Hok|reflexivity].
Qed.

Definition w_world : World := {|
  w_db := w_outbox_db; w_runs := []; w_sent := []; w_committed := []; w_aborted := []; w_deleted := [] |}.

Lemma w_world_ok : world_ok w_world.
Proof.
  constructor; try exact w_outbox_ok; try apply NoDup_nil_2;
    try (intros x Hx; by apply not_elem_of_nil in Hx); try (intros o _ Hc; by apply not_elem_of_nil in Hc); [|done].
  intros o Ho Hu. exfalso. revert Hu. apply not_false_iff_true.
  repeat (apply elem_of_cons in Ho as [->|Ho]; [reflexivity|]). by apply not_elem_of_nil in Ho.
Qed.

Definition w_run : ActiveRun := claimUndelivered [] 2 w_outbox_db.

Definition w_half_run : ActiveRun :=
  match deliver_next (Returns true) w_outbox_db w_run with Returns a => a | Throws _ => w_run end.

Definition w_claimed : World := {|
  w_db := w_outbox_db; w_runs := [w_run]; w_sent := []; w_committed := []; w_aborted := []; w_deleted := [] |}.

Definition w_row (id : Z) (key : string) : RealtimeOutboxRow :=
  join_daemon w_outbox_db (new_outbox_row 20 id 1 (w_delivery key)).

Definition w_delivering : World := {|
  w_db := w_outbox_db; w_runs := [w_half_run]; w_sent := [1]; w_committed := []; w_aborted := []; w_deleted := [] |}.

(** The consumer claims both rows, the router takes the first, and the process
    dies: both rows are still there. *)
Definition w_crashed : World := {|
  w_db := w_outbox_db; w_runs := []; w_sent := [1]; w_committed := []; w_aborted := [1]; w_deleted := [] |}.

Lemma outbox_exactly_once_witness :
  (∀ o, o ∈ outbox w_outbox_db → not_delivered o = true →
     (o ∈ outbox (w_db w_crashed) ∧ o_inbox_id o ∈ inbox_ids (w_db w_crashed)) ∨
     o_outbox_id o ∈ w_committed w_crashed ∨
     ∃ x, x ∈ w_deleted w_crashed ∧ dd_delivery x = o ∧ deletion_ok x) ∧
  w_sent w_crashed ≡ₚ w_committed w_crashed ++ w_aborted w_crashed ++ open_marks w_crashed ∧
  NoDup (w_committed w_crashed ++ open_marks w_crashed).
Proof.
  apply (outbox_exactly_once w_world w_crashed); [exact w_world_ok|].
  apply (rtc_l _ _ w_claimed); [exact (os_claim w_world 2)|]. apply (rtc_l _ _ w_delivering).
  - exact (os_deliver w_claimed [] w_run [] (w_row 1 "1:0") [w_row 2 "1:1"] (Returns true) w_half_run
             eq_refl eq_refl eq_refl).
  - apply rtc_once. exact (os_abort w_delivering [] w_half_run [] eq_refl).
Defined.

(** With one row per run and the first declined, the second is never sent. *)
Lemma declined_batch_blocks_witness :
  run_all (λ id, id =? 2) 1 [30; 40; 50] w_outbox_db = w_outbox_db.
Proof.
  apply (declined_batch_blocks (λ id, id =? 2) 1 [30; 40; 50] w_outbox_db w_outbox_ok).
  intros o Ho.
  change (claimable_rows [] 1 w_outbox_db) with [new_outbox_row 20 1 1 (w_delivery "1:0")] in Ho.
  apply list_elem_of_singleton in Ho as ->. reflexivity.
Defined.

(** With two rows per run it is. *)
Lemma outbox_drains_witness :
  len (waiting (λ id, id =? 2) w_outbox_db) = 1 ∧
  ∀ o, o ∈ outbox (run_all (λ id, id =? 2) 2 [30] w_outbox_db) → not_delivered o = true → (o_outbox_id o =? 2) = false.
Proof.
  split; [reflexivity|]. apply (outbox_drains (λ id, id =? 2) 2 [30] w_outbox_db w_outbox_ok).
  - vm_compute. reflexivity.
  - vm_compute. lia.
Defined.
