(* ===== verification/OutboxConsumer.v ===== *)
(** * OutboxConsumer: the timer and the subscription of the outbox consumer
    (class RealtimeOutboxConsumer of relay/src/materialization/realtime-outbox.ts).

    A run of the consumer is what RealtimeOutbox models; here it is started by a
    timer, which a notification brings forward, and its end sets the next timer.
    [start] and [stop] may overlap with runs and with each other: each start has
    a generation, and its continuation after an [await] looks at the generation
    again.  The steps are the synchronous pieces between the awaits, in any
    order; whether an awaited call succeeds is part of the step. *)

From stdpp Require Import relations.
From S2P Require Import Prelude.

#[local] Open Scope Z_scope.

(** Where a start waits: for [subscribe], or for the previous subscription to
    end. *)
Inductive StartPhase : Type := Subscribing | Replacing.

Record Consumer : Type := {
  stopped : bool;
  generation : Z;
  timer : option Z;
  activeSubscription : option Z;
  pendingStarts : list (Z * StartPhase);
  (** Runs begun by a timer whose [finally] is still to come. *)
  timerRuns : nat
}.

Definition new_consumer : Consumer := {|
  stopped := true; generation := 0; timer := None; activeSubscription := None; pendingStarts := []; timerRuns := 0 |}.

(** [pollIntervalMs], from the option given. *)
Definition poll_interval (option_ms : option Z) : Z := Z.max 1 (default 1000 option_ms).

Definition set_poll_timer (t : option Z) (c : Consumer) : Consumer := {|
  stopped := stopped c; generation := generation c; timer := t; activeSubscription := activeSubscription c;
  pendingStarts := pendingStarts c; timerRuns := timerRuns c |}.

Definition set_pending (l : list (Z * StartPhase)) (c : Consumer) : Consumer := {|
  stopped := stopped c; generation := generation c; timer := timer c; activeSubscription := activeSubscription c;
  pendingStarts := l; timerRuns := timerRuns c |}.

Definition schedule (delay : Z) (c : Consumer) : Consumer :=
  if stopped c || bool_decide (is_Some (timer c)) then c else set_poll_timer (Some delay) c.

(** The callback of the timer: [runOnce] begins. *)
Definition poll_timer_fires (c : Consumer) : Consumer := {|
  stopped := stopped c; generation := generation c; timer := None; activeSubscription := activeSubscription c;
  pendingStarts := pendingStarts c; timerRuns := S (timerRuns c) |}.

(** The [finally] of the callback. *)
Definition run_ends_timer (poll : Z) (c : Consumer) : Consumer :=
  schedule poll {| stopped := stopped c; generation := generation c; timer := timer c;
    activeSubscription := activeSubscription c; pendingStarts := pendingStarts c; timerRuns := pred (timerRuns c) |}.

Definition wake (g : Z) (c : Consumer) : Consumer :=
  if stopped c || negb (bool_decide (activeSubscription c = Some g)) then c
  else schedule 0 (set_poll_timer None c).

(** [start] up to its first [await]. *)
Definition start_consumer (c : Consumer) : Consumer :=
  if negb (stopped c) then c
  else {| stopped := false; generation := generation c + 1; timer := timer c;
          activeSubscription := activeSubscription c;
          pendingStarts := pendingStarts c ++ [(generation c + 1, Subscribing)]; timerRuns := timerRuns c |}.

(** The [catch] of a start. *)
Definition start_fails (g : Z) (c : Consumer) : Consumer :=
  if g =? generation c
  then {| stopped := true; generation := generation c; timer := timer c; activeSubscription := activeSubscription c;
          pendingStarts := pendingStarts c; timerRuns := timerRuns c |}
  else c.

(** The continuation after [subscribe]: the subscription is dropped when a stop
    or another start came first, otherwise it replaces the previous one. *)
Definition subscribed (g : Z) (l1 l2 : list (Z * StartPhase)) (c : Consumer) : Consumer :=
  if stopped c || negb (g =? generation c) then set_pending (l1 ++ l2) c
  else {| stopped := stopped c; generation := generation c; timer := timer c; activeSubscription := Some g;
          pendingStarts := l1 ++ (g, Replacing) :: l2; timerRuns := timerRuns c |}.

(** [stop] up to its first [await]; the rest of it only waits. *)
Definition stop_consumer (c : Consumer) : Consumer := {|
  stopped := true; generation := generation c + 1; timer := None; activeSubscription := None;
  pendingStarts := pendingStarts c; timerRuns := timerRuns c |}.

Inductive consumer_event : Type :=
| EvTimer | EvRunEnds | EvWake (g : Z) | EvStart | EvStop
| EvSubscribed (g : Z) | EvReplaced (g : Z) | EvStartFails (g : Z).

Inductive consumer_step (poll : Z) (c : Consumer) : consumer_event → Consumer → Prop :=
| cs_timer : is_Some (timer c) → consumer_step poll c EvTimer (poll_timer_fires c)
| cs_run_ends : (0 < timerRuns c)%nat → consumer_step poll c EvRunEnds (run_ends_timer poll c)
| cs_wake g : consumer_step poll c (EvWake g) (wake g c)
| cs_start : consumer_step poll c EvStart (start_consumer c)
| cs_stop : consumer_step poll c EvStop (stop_consumer c)
| cs_subscribed g l1 l2 :
    pendingStarts c = l1 ++ (g, Subscribing) :: l2 → consumer_step poll c (EvSubscribed g) (subscribed g l1 l2 c)
| cs_replaced g l1 l2 :
    pendingStarts c = l1 ++ (g, Replacing) :: l2 →
    consumer_step poll c (EvReplaced g) (schedule 0 (set_pending (l1 ++ l2) c))
| cs_start_fails g ph l1 l2 :
    pendingStarts c = l1 ++ (g, ph) :: l2 →
    consumer_step poll c (EvStartFails g) (start_fails g (set_pending (l1 ++ l2) c)).

(** ** Properties *)

(** The consumer runs, will run, or is still starting. *)
Definition alive (c : Consumer) : Prop :=
  is_Some (timer c) ∨ (0 < timerRuns c)%nat ∨ ∃ ph, (generation c, ph) ∈ pendingStarts c.

(** No start is of a later generation, and a consumer that is not stopped is
    alive. *)
Record consumer_ok (c : Consumer) : Prop := {
  co_pending g ph : (g, ph) ∈ pendingStarts c → g ≤ generation c;
  co_alive : stopped c = false → alive c
}.

Lemma schedule_timer delay c : stopped c = false → is_Some (timer (schedule delay c)).
Proof. intros Hs. unfold schedule. rewrite Hs. simpl. case_bool_decide; [done|]. simpl. eauto. Qed.

Lemma schedule_frame delay c :
  stopped (schedule delay c) = stopped c ∧ generation (schedule delay c) = generation c ∧
  pendingStarts (schedule delay c) = pendingStarts c ∧ activeSubscription (schedule delay c) = activeSubscription c ∧
  timerRuns (schedule delay c) = timerRuns c.
Proof. unfold schedule. by destruct (_ || _). Qed.

Lemma schedule_ok delay c : consumer_ok c → consumer_ok (schedule delay c).
Proof.
  intros [C1 C2]. destruct (schedule_frame delay c) as (Es & Eg & Ep & _). constructor; rewrite ?Es, ?Eg, ?Ep; [done|].
  intros Hs. left. by apply schedule_timer.
Qed.

(** A start that ends leaves the others; only a current one can matter. *)
Lemma set_pending_ok l1 x l2 c :
  consumer_ok c → pendingStarts c = l1 ++ x :: l2 → stopped c = true ∨ x.1 ≠ generation c ∨ is_Some (timer c) →
  consumer_ok (set_pending (l1 ++ l2) c).
Proof.
  intros [C1 C2] Hp Hcase. constructor; simpl.
  - intros g ph Hin. apply (C1 g ph). rewrite Hp. set_solver.
  - intros Hs. destruct Hcase as [?|Hcase]; [congruence|]. destruct Hcase as [Hx|Ht]; [|by left].
    destruct (C2 Hs) as [?|[?|(ph & Hph)]]; [by left|by right; left|]. right; right. exists ph. simpl.
    rewrite Hp in Hph. set_solver.
Qed.

Lemma consumer_step_ok poll c e c' : consumer_ok c → consumer_step poll c e c' → consumer_ok c'.
Proof.
  intros Hok Hstep. pose proof Hok as [C1 C2]. destruct Hstep as [Ht|Hr|g| | |g l1 l2 Hp|g l1 l2 Hp|g ph l1 l2 Hp].
  - constructor; simpl; [done|]. intros _. right; left. simpl. lia.
  - unfold run_ends_timer. set (c1 := {| stopped := _ |}). destruct (schedule_frame poll c1) as (Es & Eg & Ep & _).
    constructor; rewrite ?Es, ?Eg, ?Ep; [done|]. intros Hs. left. by apply schedule_timer.
  - unfold wake. destruct (_ || _) eqn:E; [done|]. destruct (schedule_frame 0 (set_poll_timer None c)) as (Es & Eg & Ep & _).
    constructor; rewrite ?Es, ?Eg, ?Ep; [done|]. intros Hs. left. by apply schedule_timer.
  - unfold start_consumer. destruct (negb (stopped c)); [done|]. constructor; simpl.
    + intros g ph [Hin|[= -> ->]%list_elem_of_singleton]%elem_of_app; [|lia]. specialize (C1 g ph Hin). lia.
    + intros _. right; right. exists Subscribing. simpl. set_solver.
  - constructor; simpl; [|done]. intros g ph Hin. specialize (C1 g ph Hin). lia.
  - unfold subscribed. destruct (_ || _) eqn:E.
    + eapply set_pending_ok; [done..|]. apply orb_true_iff in E as [?|E]; [by left|]. right; left. simpl. by bool_hyps.
    + bool_hyps. subst g. constructor; simpl.
      * intros g ph Hin. apply elem_of_app in Hin as [Hin|[[= -> ->]|Hin]%elem_of_cons]; [..|lia|].
        -- apply (C1 g ph). rewrite Hp. set_solver.
        -- apply (C1 g ph). rewrite Hp. set_solver.
      * intros _. right; right. exists Replacing. simpl. set_solver.
  - destruct (stopped c) eqn:Es.
    + apply schedule_ok. eapply set_pending_ok; [done..|by left].
    + destruct (schedule_frame 0 (set_pending (l1 ++ l2) c)) as (Es' & Eg & Ep & _).
      constructor; rewrite ?Es', ?Eg, ?Ep; simpl.
      * intros g' ph Hin. apply (C1 g' ph). rewrite Hp. set_solver.
      * intros _. left. by apply schedule_timer.
  - unfold start_fails. simpl. destruct (g =? generation c) eqn:E.
    + constructor; simpl; [|done]. intros g' ph' Hin. apply (C1 g' ph'). rewrite Hp. set_solver.
    + eapply set_pending_ok; [done..|]. right; left. simpl. by bool_hyps.
Qed.

(** Runs of the consumer, with the events that made them. *)
Inductive consumer_run (poll : Z) : Consumer → list consumer_event → Consumer → Prop :=
| cr_nil c : consumer_run poll c [] c
| cr_step c e c1 es c' : consumer_step poll c e c1 → consumer_run poll c1 es c' → consumer_run poll c (e :: es) c'.

Lemma stopped_stays poll c es c' :
  consumer_run poll c es c' → EvStart ∉ es → stopped c = true → timer c = None →
  stopped c' = true ∧ timer c' = None ∧ EvTimer ∉ es.
Proof.
  induction 1 as [c|c e c1 es c' Hstep Hrun IH]; intros Hno Hs Ht; [split_and!; [done..|apply not_elem_of_nil]|].
  apply not_elem_of_cons in Hno as [He Hno].
  assert (H1 : stopped c1 = true ∧ timer c1 = None ∧ e ≠ EvTimer).
  { destruct Hstep as [Ht'|Hr|g| | |g l1 l2 Hp|g l1 l2 Hp|g ph l1 l2 Hp]; try done.
    - rewrite Ht in Ht'. by destruct Ht'.
    - unfold run_ends_timer, schedule. simpl. rewrite Hs. done.
    - unfold wake. by rewrite Hs.
    - unfold subscribed. rewrite Hs. done.
    - unfold schedule. simpl. rewrite Hs. done.
    - unfold start_fails. simpl. by destruct (_ =? _). }
  destruct H1 as (Hs1 & Ht1 & He1). destruct (IH Hno Hs1 Ht1) as (? & ? & ?). split_and!; [done..|].
  by apply not_elem_of_cons.
Qed.

(** However starts, stops, notifications, runs and failures interleave: a
    consumer that is not stopped has a timer, a run that will set one, or a
    start that is under way; and after a stop no run begins until the next
    start. *)
Theorem consumer_lifecycle poll es1 es2 c c' :
  consumer_run poll new_consumer es1 c → consumer_run poll c es2 c' →
  (stopped c = false → alive c) ∧
  (last es1 = Some EvStop → EvStart ∉ es2 → EvTimer ∉ es2 ∧ timer c' = None).
Proof.
  intros H1 H2.
  assert (Hok : ∀ c0 es c1, consumer_run poll c0 es c1 → consumer_ok c0 → consumer_ok c1).
  { clear. induction 1; eauto using consumer_step_ok. }
  split.
  - apply (Hok _ _ _ H1). constructor; [|done]. intros g ph Hin. by apply not_elem_of_nil in Hin.
  - intros Hl Hno.
    assert (Hc : stopped c = true ∧ timer c = None).
    { clear -H1 Hl. induction H1 as [|c0 e c1 es c Hstep Hrun IH]; [done|].
      destruct es as [|e' es]; [|by apply IH]. simplify_eq/=. inversion Hrun; subst. by inversion Hstep. }
    destruct Hc. by destruct (stopped_stays _ _ _ _ H2 Hno) as (_ & ? & ?).
Qed.

Definition w_started : Consumer := schedule 0 (set_pending [] (subscribed 1 [] [] (start_consumer new_consumer))).

(** The timer fires, the consumer is stopped, and the run ends afterwards. *)
Lemma consumer_lifecycle_witness :
  (stopped (stop_consumer (poll_timer_fires w_started)) = false → alive (stop_consumer (poll_timer_fires w_started))) ∧
  (last [EvStart; EvSubscribed 1; EvReplaced 1; EvTimer; EvStop] = Some EvStop → EvStart ∉ [EvRunEnds] →
   EvTimer ∉ [EvRunEnds] ∧ timer (run_ends_timer 1000 (stop_consumer (poll_timer_fires w_started))) = None).
Proof.
  apply (consumer_lifecycle 1000 [EvStart; EvSubscribed 1; EvReplaced 1; EvTimer; EvStop] [EvRunEnds]).
  - eapply cr_step; [apply cs_start|]. eapply cr_step; [apply (cs_subscribed _ _ 1 [] []); reflexivity|].
    eapply cr_step; [apply (cs_replaced _ _ 1 [] []); reflexivity|].
    eapply cr_step; [apply cs_timer; by eexists|]. eapply cr_step; [apply cs_stop|]. apply cr_nil.
  - eapply cr_step; [apply cs_run_ends; simpl; lia|]. apply cr_nil.
Defined.
