(* ===== verification/AttentionInbox.v ===== *)
(** * AttentionInbox: approvals and questions offered to the user
    (relay/src/attention-inbox/action-mapper.ts and projector.ts).

    A daemon event becomes an item of the attention inbox together with the
    actions the client may take.  The event payload is untrusted; a security
    context counts only when the daemon has the capability for it.  Strings
    longer than 32 KiB are cut at a byte position: the character U+FFFD, which
    replaces half a character at the cut, lies outside the model's alphabet
    and is the argument [replacement].

    The theorem: the persistent approval is offered only under a trusted
    context that allows it, and an answer only while the question it answers
    has been kept. *)

From S2P Require Import Prelude JsValue LifecycleTime.

#[local] Open Scope Z_scope.

(** ** Data *)

Inductive AttentionActionID : Type := Once | Always | Reject | Cancel | Answer.

#[global] Instance AttentionActionID_eq : EqDecision AttentionActionID.
Proof. solve_decision. Defined.

Inductive ActionStyle : Type := Primary | Secondary | Danger.

Record AttentionAction : Type := {
  act_id : AttentionActionID;
  style : ActionStyle;
  destructive : bool;
  labelKey : string
}.

Inductive AttentionItemKind : Type := Approval | Question.

#[global] Instance AttentionItemKind_eq : EqDecision AttentionItemKind.
Proof. solve_decision. Defined.

Record ApprovalActionSource : Type := {
  src_teamPrivate : bool;
  src_provider : string;
  availableDecisions : list string;
  alwaysRules : list string;
  src_controlMode : option string;
  src_riskLevel : string;
  src_incomplete : bool;
  enforcedAllowedActions : option (list string)
}.

Definition ACTIONS (a : AttentionActionID) : AttentionAction :=
  match a with
  | Once => {| act_id := Once; style := Primary; destructive := false;
               labelKey := "attention.action.once" |}
  | Always => {| act_id := Always; style := Secondary; destructive := false;
                 labelKey := "attention.action.always" |}
  | Reject => {| act_id := Reject; style := Danger; destructive := true;
                 labelKey := "attention.action.reject" |}
  | Cancel => {| act_id := Cancel; style := Secondary; destructive := false;
                 labelKey := "attention.action.cancel" |}
  | Answer => {| act_id := Answer; style := Primary; destructive := false;
                 labelKey := "attention.action.answer" |}
  end.

Definition QUESTION_ACTIONS : list AttentionAction := [ACTIONS Answer; ACTIONS Reject].

Definition action_name (a : AttentionActionID) : string :=
  match a with
  | Once => "once" | Always => "always" | Reject => "reject" | Cancel => "cancel"
  | Answer => "answer"
  end%string.

(** ** Mapping approvals *)

Definition persistentScopeAllowed (source : ApprovalActionSource) : bool :=
  negb (src_incomplete source) && bool_decide (src_riskLevel source ∈ ["low"; "medium"]%string).

Definition codexAction (decision : string) : option AttentionActionID :=
  if bool_decide (decision ∈ ["accept"; "once"]%string) then Some Once
  else if bool_decide (decision ∈ ["acceptForSession"; "always"]%string) then Some Always
  else if bool_decide (decision ∈ ["decline"; "reject"]%string) then Some Reject
  else if bool_decide (decision = "cancel"%string) then Some Cancel
  else None.

(** [enforced.has(id)]. *)
Definition enforced_has (source : ApprovalActionSource) (a : AttentionActionID) : bool :=
  match enforcedAllowedActions source with
  | Some l => bool_decide (action_name a ∈ l)
  | None => false
  end.

Definition not_enforced (source : ApprovalActionSource) : bool :=
  match enforcedAllowedActions source with Some _ => false | None => true end.

(** The loop of lines 69-77. *)
Fixpoint codex_actions (source : ApprovalActionSource) (seen : list AttentionActionID)
  (decisions : list string) : list AttentionAction :=
  match decisions with
  | [] => []
  | decision :: decisions' =>
      match codexAction decision with
      | None => codex_actions source seen decisions'
      | Some a =>
          if bool_decide (a ∈ seen)
             || (bool_decide (a = Always) && negb (persistentScopeAllowed source))
             || (negb (not_enforced source) && negb (enforced_has source a))
             || (bool_decide (a = Always) && not_enforced source)
          then codex_actions source seen decisions'
          else ACTIONS a :: codex_actions source (a :: seen) decisions'
      end
  end.

Definition mapApprovalActions (source : ApprovalActionSource) : list AttentionAction :=
  if src_teamPrivate source && bool_decide (src_provider source = "claude-code"%string)
  then [ACTIONS Once; ACTIONS Reject]
  else if bool_decide (src_provider source = "codex"%string)
    || (src_teamPrivate source && bool_decide (src_provider source = "dsh"%string))
  then codex_actions source [] (availableDecisions source)
  else if bool_decide (src_provider source = "opencode"%string) then
    if negb (bool_decide (src_controlMode source = Some "managed"%string)) then []
    else
      (if not_enforced source || enforced_has source Once then [ACTIONS Once] else []) ++
      (if enforced_has source Always && persistentScopeAllowed source
          && (0 <? len (alwaysRules source)) then [ACTIONS Always] else []) ++
      (if not_enforced source || enforced_has source Reject then [ACTIONS Reject] else [])
  else [].

(** ** Mapping questions *)

Definition nonempty_string (v : jsval) : bool :=
  match v with JStr s => negb (bool_decide (s = EmptyString)) | _ => false end.

(** Lines 107-110; an array option has no [label] of its own. *)
Definition option_ok (option : jsval) : bool :=
  nonempty_string option
  || match option with JObj _ => nonempty_string (js_get option "label") | _ => false end.

Definition question_ok (raw : jsval) : bool :=
  match raw with
  | JObj _ =>
      is_true (js_get raw "custom")
      || match js_get raw "options" with
         | JArr options => negb (bool_decide (length options = 0%nat)) && forallb option_ok options
         | _ => false
         end
  | _ => false
  end.

Definition mapQuestionActions (provider : string) (controlMode : option string)
  (questions : list jsval) : list AttentionAction :=
  if bool_decide (length questions = 0%nat) then []
  else if negb (bool_decide (provider = "codex"%string)
    || (bool_decide (provider = "opencode"%string)
        && bool_decide (controlMode = Some "managed"%string))) then []
  else if (len questions <=? 16) && forallb question_ok questions then QUESTION_ACTIONS
  else [ACTIONS Reject].

(** ** The projector *)

(** The session status and the names of the daemon, which the projector does
    not read, are left out. *)
Record AttentionEventRow : Type := {
  eventId : Z;
  eventType : string;
  sessionId : string;
  payload : jsval;
  userId : option Z;
  daemonId : option string;
  provider : option string;
  controlMode : option string;
  capabilities : list string;
  sessionTitle : option string;
  createdAt : Z
}.

Definition stringValue (v : jsval) : string := match v with JStr s => s | _ => EmptyString end.

Definition stringArray (v : jsval) : list string :=
  match v with
  | JArr l => omap (λ x, match x with JStr s => Some s | _ => None end) l
  | _ => []
  end.

Definition supportedProvider (v : option string) (teamPrivate : bool) : option string :=
  match v with
  | Some p =>
      if bool_decide (p ∈ ["codex"; "opencode"]%string)
         || (teamPrivate && bool_decide (p ∈ ["claude-code"; "dsh"]%string))
      then Some p else None
  | None => None
  end.

Definition risk_levels : list string := ["low"; "medium"; "high"; "critical"]%string.

Definition riskLevel (p : jsval) : string :=
  match js_get p "risk_level" with
  | JStr s => if bool_decide (s ∈ risk_levels) then s else "high"
  | _ => "high"
  end.

Definition classificationIncomplete (p : jsval) : bool :=
  match js_get p "classification_incomplete" with JBool b => b | _ => true end.

Record TrustedSecurityContext : Type := {
  ctx_riskLevel : string;
  ctx_incomplete : bool;
  ctx_riskReasons : list string;
  ctx_allowedActions : list string
}.

Definition TRUSTED_RISK_REASONS : list string :=
  ["executes_command"; "changes_files"; "requests_permissions"; "requires_user_input"]%string.

Definition TRUSTED_APPROVAL_ACTIONS : list string := ["once"; "always"; "reject"; "cancel"]%string.

(** The loops of lines 68-73 and 90-94: known values once each, in order, four
    at most. *)
Fixpoint collect_known (known acc : list string) (l : list jsval) : list string :=
  match l with
  | [] => acc
  | JStr s :: l' =>
      if negb (bool_decide (s ∈ known)) || bool_decide (s ∈ acc) then collect_known known acc l'
      else
        let acc' := acc ++ [s] in
        if Nat.eqb (length acc') 4 then acc' else collect_known known acc' l'
  | _ :: l' => collect_known known acc l'
  end.

Definition riskReasons (p : jsval) : list string :=
  match js_get p "risk_reasons" with
  | JArr l => collect_known TRUSTED_RISK_REASONS [] l
  | _ => []
  end.

Definition trustedSecurityContext (row : AttentionEventRow) : option TrustedSecurityContext :=
  if negb (bool_decide ("trusted_action_policy_v1"%string ∈ capabilities row)) then None
  else
    let raw := js_get (payload row) "security_context" in
    match raw with
    | JObj _ =>
        if negb (is_number (js_get raw "schema_version") 1) then None
        else
          match js_get raw "risk_level", js_get raw "classification_incomplete",
                js_get raw "risk_reasons", js_get raw "allowed_actions" with
          | JStr level, JBool incomplete, JArr reasons, JArr allowed =>
              if bool_decide (level ∈ risk_levels) then
                Some {| ctx_riskLevel := level; ctx_incomplete := incomplete;
                        ctx_riskReasons := collect_known TRUSTED_RISK_REASONS [] reasons;
                        ctx_allowedActions := collect_known TRUSTED_APPROVAL_ACTIONS [] allowed |}
              else None
          | _, _, _, _ => None
          end
    | _ => None
    end.

Definition requestID (p : jsval) : string := stringValue (js_get p "request_id").

Definition MAX_CONTEXT_BYTES : Z := 131072.
Definition MAX_CONTEXT_STRING_BYTES : Z := 32768.

Definition expiry (row : AttentionEventRow) (kind : AttentionItemKind) : option (option Z) :=
  match kind, js_get (payload row) "auto_resolution_ms" with
  | Question, JNum ms =>
      if negb (is_safe_integer ms) || (ms <=? 0) then None
      else
        let t := createdAt row + ms in
        Some (if Z.abs t <=? max_time then Some t else None)
  | _, _ => None
  end.

Definition typed_field (k : string) (v : jsval) (ok : bool) : list (string * jsval) :=
  if ok then [(k, v)] else [].

Definition is_string (v : jsval) : bool := match v with JStr _ => true | _ => false end.
Definition is_boolean (v : jsval) : bool := match v with JBool _ => true | _ => false end.

Definition resolution (p : jsval) : jsval :=
  let field k ok := typed_field k (js_get p k) (ok (js_get p k)) in
  JObj ([("source"%string, JStr "daemon")] ++ field "action" is_string ++ field "approved" is_boolean
        ++ field "rejected" is_boolean ++ field "reason" is_string).

Record AttentionItemDraft : Type := {
  it_userId : Z;
  it_daemonId : string;
  it_sessionId : string;
  it_requestId : string;
  it_provider : string;
  it_kind : AttentionItemKind;
  it_riskLevel : string;
  it_incomplete : bool;
  it_riskReasons : list string;
  it_title : string;
  it_summary : string;
  it_context : jsval;
  allowedActions : list AttentionAction;
  sourceEventId : Z;
  sourceEventType : string;
  sourceEventKey : option string;
  expiresAt : option (option Z);
  it_createdAt : Z
}.

Record AttentionItemIdentity : Type := {
  id_userId : Z;
  id_daemonId : string;
  id_sessionId : string;
  id_requestId : string;
  id_kind : AttentionItemKind
}.

Inductive AttentionProjection : Type :=
| Upsert (item : AttentionItemDraft)
| Resolve (identity : AttentionItemIdentity) (resolutionEventId : Z) (res : jsval).

Section projector.
Context (replacement : string).

(** The characters whose UTF-8 bytes fit, and U+FFFD for half a character. *)
Fixpoint utf8_take (budget : Z) (s : string) : string :=
  match s with
  | EmptyString => EmptyString
  | String c s' =>
      let n := if code c <? 128 then 1 else 2 in
      if n <=? budget then String c (utf8_take (budget - n) s')
      else if 0 <? budget then replacement else EmptyString
  end.

Definition truncateString (s : string) : string :=
  if utf8_length s <=? MAX_CONTEXT_STRING_BYTES then s else utf8_take MAX_CONTEXT_STRING_BYTES s.

Fixpoint boundedValue (depth : nat) (v : jsval) {struct v} : jsval :=
  if Nat.ltb 12 depth then JNull
  else
    match v with
    | JStr s => JStr (truncateString s)
    | JArr l => JArr (take 64 (map (boundedValue (S depth)) l))
    | JObj fields => JObj (take 64 (map (λ kv, (fst kv, boundedValue (S depth) (snd kv))) fields))
    | _ => v
    end.

Definition boundedContext (context : jsval) : jsval :=
  let bounded := boundedValue 0 context in
  if json_bytes bounded <=? MAX_CONTEXT_BYTES then bounded
  else JObj [("context_truncated"%string, JBool true)].

Definition question_list (p : jsval) : list jsval :=
  match js_get p "questions" with JArr l => l | _ => [] end.

Definition contextFor (p : jsval) (kind : AttentionItemKind) : jsval :=
  match kind with
  | Question => boundedContext (JObj [("questions"%string, JArr (question_list p))])
  | Approval =>
      let text k := JStr (stringValue (js_get p k)) in
      let texts k := JArr (JStr <$> stringArray (js_get p k)) in
      boundedContext (JObj [
        ("approval_kind", text "approval_kind"); ("tool", text "tool");
        ("command", text "command"); ("cwd", text "cwd"); ("description", text "description");
        ("files", texts "files"); ("permission_name", text "permission_name");
        ("patterns", texts "patterns"); ("always_rules", texts "always");
        ("input", nullish (js_get p "input") JNull);
        ("metadata", nullish (js_get p "metadata") JNull)]%string)
  end.

(** [{...context, team_native_request: true}]: no context has the field. *)
Definition with_team_flag (context : jsval) (teamPrivate : bool) : jsval :=
  match context with
  | JObj fields =>
      if teamPrivate then JObj (fields ++ [("team_native_request"%string, JBool true)])
      else JObj fields
  | v => v
  end.

Definition is_array (v : jsval) : bool := match v with JArr _ => true | _ => false end.

(** Lines 201-250: a request. *)
Definition project_request (row : AttentionEventRow) (uid : Z) (did prov requestId : string)
  (teamPrivate : bool) (kind : AttentionItemKind) : option AttentionProjection :=
  let p := payload row in
  let securityContext :=
    match kind with Approval => trustedSecurityContext row | Question => None end in
  let untrusted := bool_decide (kind = Approval)
    && bool_decide ("trusted_action_policy_v1"%string ∈ capabilities row) in
  let level := match securityContext with
    | Some c => ctx_riskLevel c
    | None => if untrusted then "high"%string else riskLevel p end in
  let incomplete := match securityContext with
    | Some c => ctx_incomplete c
    | None => if untrusted then true else classificationIncomplete p end in
  let reasons := match securityContext with
    | Some c => ctx_riskReasons c | None => riskReasons p end in
  let questions := question_list p in
  let context := with_team_flag (contextFor p kind) teamPrivate in
  let actions0 := match kind with
    | Approval => mapApprovalActions {|
        src_teamPrivate := teamPrivate; src_provider := prov;
        availableDecisions := stringArray (js_get p "available_decisions");
        alwaysRules := stringArray (js_get p "always");
        src_controlMode := controlMode row; src_riskLevel := level; src_incomplete := incomplete;
        enforcedAllowedActions := ctx_allowedActions <$> securityContext |}
    | Question => mapQuestionActions prov (controlMode row) questions
    end in
  let actions :=
    if bool_decide (kind = Question) && negb (is_array (js_get context "questions"))
    then bfilter (λ a, negb (bool_decide (act_id a = Answer))) actions0 else actions0 in
  match actions with
  | [] => None
  | _ =>
      let title := sessionTitle row in
      Some (Upsert {|
        it_userId := uid; it_daemonId := did; it_sessionId := sessionId row;
        it_requestId := requestId; it_provider := prov; it_kind := kind;
        it_riskLevel := level; it_incomplete := incomplete; it_riskReasons := reasons;
        it_title := match kind with
          | Approval => "Approval required" | Question => "Answer required" end;
        it_summary := match title with
          | Some (String _ _ as t) => t
          | _ => match kind with
                 | Approval => "Approval request" | Question => "Question request" end
          end;
        it_context := context; allowedActions := actions;
        sourceEventId := eventId row; sourceEventType := eventType row;
        sourceEventKey := nonempty_str (js_get p "event_id");
        expiresAt := expiry row kind; it_createdAt := createdAt row |})
  end.

Definition projectAttentionEvent (row : AttentionEventRow) : option AttentionProjection :=
  match userId row, daemonId row with
  | Some uid, Some did =>
      if bool_decide (did = EmptyString) || bool_decide (sessionId row = EmptyString) then None
      else
        let teamPrivate := bool_decide ("team_private_interactions_v2"%string ∈ capabilities row) in
        match supportedProvider (provider row) teamPrivate with
        | None => None
        | Some prov =>
            if bool_decide (prov = "opencode"%string)
               && negb (bool_decide (controlMode row = Some "managed"%string)) then None
            else
              let requestId := requestID (payload row) in
              let resolve kind := Some (Resolve {|
                id_userId := uid; id_daemonId := did; id_sessionId := sessionId row;
                id_requestId := requestId; id_kind := kind |} (eventId row)
                (resolution (payload row))) in
              let request := project_request row uid did prov requestId teamPrivate in
              if bool_decide (requestId = EmptyString) then None
              else if bool_decide (eventType row = "approval_resolved"%string) then resolve Approval
              else if bool_decide (eventType row = "question_resolved"%string) then resolve Question
              else if bool_decide (eventType row = "approval_request"%string) then request Approval
              else if bool_decide (eventType row = "question_request"%string) then request Question
              else None
        end
  | _, _ => None
  end.
End projector.

(** ** Which actions are offered *)

Lemma codex_actions_ids source seen decisions a :
  a ∈ codex_actions source seen decisions →
  a = ACTIONS (act_id a) ∧ act_id a ≠ Answer ∧
  (act_id a = Always → persistentScopeAllowed source = true ∧ enforced_has source Always = true).
Proof.
  revert seen; induction decisions as [|d ds IH]; intros seen; [by intros ?%not_elem_of_nil|].
  cbn [codex_actions]. destruct (codexAction d) as [x|] eqn:Ed; [|apply IH].
  destruct (_ || _) eqn:E; [apply IH|]. intros [->|Ha]%elem_of_cons; [|by eapply IH].
  split; [by destruct x|]. split.
  - unfold codexAction in Ed. repeat (case_match; simplify_eq; try done).
  - intros Hx. assert (x = Always) as -> by by destruct x.
    rewrite !orb_false_iff in E. destruct E as (((_ & E1) & E2) & E3).
    rewrite bool_decide_true in E1, E3 by done. simpl in E1, E3. rewrite E3 in E2. simpl in E2.
    apply negb_false_iff in E1, E2. done.
Qed.

Lemma approval_actions_ids source a :
  a ∈ mapApprovalActions source →
  act_id a ≠ Answer ∧
  (act_id a = Always → persistentScopeAllowed source = true ∧ enforced_has source Always = true).
Proof.
  unfold mapApprovalActions. destruct (_ && _).
  { rewrite !elem_of_cons, elem_of_nil. by intros [->|[->|?]]. }
  destruct (_ || _); [by intros (_ & H)%codex_actions_ids|].
  case_bool_decide; [|by intros ?%not_elem_of_nil].
  destruct (negb _); [by intros ?%not_elem_of_nil|].
  rewrite !elem_of_app. intros [Ha|[Ha|Ha]].
  - destruct (_ || _); [|by apply not_elem_of_nil in Ha]. by apply list_elem_of_singleton in Ha as ->.
  - destruct (_ && _ && _) eqn:E; [|by apply not_elem_of_nil in Ha].
    bool_hyps. by apply list_elem_of_singleton in Ha as ->.
  - destruct (_ || _); [|by apply not_elem_of_nil in Ha]. by apply list_elem_of_singleton in Ha as ->.
Qed.

Lemma question_actions_ids prov mode questions a :
  a ∈ mapQuestionActions prov mode questions →
  act_id a ≠ Always ∧
  (act_id a = Answer → 0 < len questions ≤ 16 ∧ forallb question_ok questions = true).
Proof.
  unfold mapQuestionActions. case_bool_decide as H0; [by intros ?%not_elem_of_nil|].
  destruct (negb _); [by intros ?%not_elem_of_nil|]. destruct (_ && _) eqn:E.
  - bool_hyps. unfold QUESTION_ACTIONS. rewrite !elem_of_cons, elem_of_nil.
    intros [->|[->|?]]; [|done|done]. split; [done|]. intros _. split; [lia|done].
  - by intros ->%list_elem_of_singleton.
Qed.

Lemma project_request_actions repl row uid did prov rid team kind item a :
  project_request repl row uid did prov rid team kind = Some (Upsert item) →
  a ∈ allowedActions item →
  it_kind item = kind ∧
  match kind with
  | Approval => act_id a ≠ Answer ∧ (act_id a = Always →
      ∃ ctx, trustedSecurityContext row = Some ctx ∧ it_riskLevel item = ctx_riskLevel ctx ∧
        ctx_riskLevel ctx ∈ ["low"; "medium"]%string ∧ ctx_incomplete ctx = false ∧
        "always"%string ∈ ctx_allowedActions ctx)
  | Question => act_id a ≠ Always ∧ (act_id a = Answer →
      is_array (js_get (it_context item) "questions") = true ∧
      0 < len (question_list (payload row)) ≤ 16 ∧
      forallb question_ok (question_list (payload row)) = true)
  end.
Proof.
  unfold project_request. cbv zeta.
  match goal with |- context [match ?l with [] => None | _ :: _ => _ end] =>
    destruct l as [|a0 acts] eqn:Ea; [done|]; rewrite <- Ea; clear Ea end.
  intros [= <-]. simpl. intros Ha. split; [done|]. destruct kind; simpl in Ha.
  - apply approval_actions_ids in Ha as [H1 H2]. split; [done|]. intros Hid.
    destruct (H2 Hid) as [Hp He]. unfold enforced_has, persistentScopeAllowed in *. simpl in *.
    destruct (trustedSecurityContext row) as [ctx|]; [|done]. simpl in *. bool_hyps.
    by exists ctx.
  - destruct (is_array _) eqn:Earr; simpl in Ha.
    + apply question_actions_ids in Ha as [H1 H2]. split; [done|]. intros Hid. split; [done|]. by apply H2.
    + apply elem_of_bfilter in Ha as [Hn Ha]. bool_hyps. apply question_actions_ids in Ha as [H1 _].
      split; [done|]. intros Hid. done.
Qed.

(** "Always" is offered only for an approval whose daemon has the trusted
    policy capability and sent a valid security context that allows it, rates
    the request low or medium and is complete; nothing else in the payload can
    bring it about.  "Answer" is offered only for one to sixteen questions,
    each with a usable answer, that the stored context still contains. *)
Theorem attention_actions_safe repl row item a :
  projectAttentionEvent repl row = Some (Upsert item) → a ∈ allowedActions item →
  (act_id a = Always →
    it_kind item = Approval ∧ "trusted_action_policy_v1"%string ∈ capabilities row ∧
    ∃ ctx, trustedSecurityContext row = Some ctx ∧ it_riskLevel item = ctx_riskLevel ctx ∧
      ctx_riskLevel ctx ∈ ["low"; "medium"]%string ∧ ctx_incomplete ctx = false ∧
      "always"%string ∈ ctx_allowedActions ctx) ∧
  (act_id a = Answer →
    it_kind item = Question ∧ is_array (js_get (it_context item) "questions") = true ∧
    0 < len (question_list (payload row)) ≤ 16 ∧
    forallb question_ok (question_list (payload row)) = true).
Proof.
  unfold projectAttentionEvent.
  destruct (userId row) as [uid|]; [|done]. destruct (daemonId row) as [did|]; [|done].
  destruct (_ || _); [done|]. destruct (supportedProvider _ _) as [prov|]; [|done].
  destruct (_ && _); [done|]. do 3 (case_bool_decide; [done|]).
  intros Hreq Ha.
  assert (Hk : ∃ kind, project_request repl row uid did prov (requestID (payload row))
    (bool_decide ("team_private_interactions_v2"%string ∈ capabilities row)) kind = Some (Upsert item)).
  { case_bool_decide; [by exists Approval|]. case_bool_decide; [by exists Question|done]. }
  destruct Hk as [kind Hk]. destruct (project_request_actions _ _ _ _ _ _ _ _ _ _ Hk Ha) as [Ek Hid].
  destruct kind; destruct Hid as [Hn Hid]; (split; [|try done]); try done; intros E; (split; [done|]).
  - destruct (Hid E) as (ctx & Hctx & Hrest). split; [|by exists ctx].
    unfold trustedSecurityContext in Hctx. destruct (negb _) eqn:Ec; [done|]. by bool_hyps.
  - by apply Hid.
Qed.

(** *** A trusted approval that may be remembered *)

Definition sample_approval : AttentionEventRow := {|
  eventId := 5; eventType := "approval_request"; sessionId := "s";
  payload := JObj [("request_id", JStr "r"); ("available_decisions", JArr [JStr "accept"; JStr "always"]);
    ("security_context", JObj [("schema_version", JNum 1); ("risk_level", JStr "low");
      ("classification_incomplete", JBool false); ("risk_reasons", JArr []);
      ("allowed_actions", JArr [JStr "once"; JStr "always"])])]%string;
  userId := Some 7; daemonId := Some "d"%string; provider := Some "codex"%string;
  controlMode := None; capabilities := ["trusted_action_policy_v1"]%string;
  sessionTitle := None; createdAt := 0 |}.

Lemma attention_actions_safe_witness :
  ∃ item, projectAttentionEvent "?" sample_approval = Some (Upsert item) ∧
    ACTIONS Always ∈ allowedActions item ∧ it_kind item = Approval.
Proof.
  destruct (projectAttentionEvent "?" sample_approval) as [[item|]|] eqn:E;
    [|vm_compute in E; discriminate..].
  exists item. split; [done|].
  assert (Ha : ACTIONS Always ∈ allowedActions item).
  { vm_compute in E. injection E as <-. right. left. }
  split; [done|].
  by destruct (attention_actions_safe "?" sample_approval item (ACTIONS Always) E Ha) as [[H _] _].
Defined.
