(* ===== verification/AttentionStore.v ===== *)
(** * AttentionStore: the tables of the attention inbox
    (relay/src/attention-inbox/repository.ts on the schema of schema.ts).

    [attention_items] is a map from item ids to rows and
    [attention_action_receipts] a map from (user, item, idempotency key) to
    receipts.  Every method is one transaction or one statement and is a
    function on the tables; NOW() is its argument [now], in microseconds.  A
    failed transaction changes nothing.  Equality of JSONB documents is the
    argument [jsonb_eq], and ids are arguments where the source draws random
    ones.  [Notice] is a payload of [pg_notify].

    A row keeps what the projector wrote as an [AttentionItemDraft]; the columns
    that change over the life of an item form [Lifecycle]. *)

From S2P Require Import Prelude JsValue AttentionInbox.

#[local] Open Scope Z_scope.

(** ** Tables *)

Inductive AttentionItemState : Type :=
| AOpen | ASnoozed | ASubmitting | AResultUnknown | AResolved | AExpired.

#[global] Instance AttentionItemState_eq : EqDecision AttentionItemState.
Proof. solve_decision. Defined.

Record Lifecycle : Type := {
  lc_state : AttentionItemState;
  lc_revision : Z;
  lc_seen_at : option Z;
  lc_snoozed_until : option Z;
  lc_submitted_at : option Z;
  lc_deadline_at : option Z;
  lc_submission_key : option string;
  lc_resolved_at : option Z;
  lc_handled_at : option Z;
  lc_resolution : option (Z * jsval);
  lc_last_error : option string;
  lc_updated_at : Z
}.

Record ItemRow : Type := { row_draft : AttentionItemDraft; row_life : Lifecycle }.

Inductive ReceiptStatus : Type := RAccepted | RRejected | RResolvedElsewhere | RResultUnknown.

Record ActionReceipt : Type := {
  receipt_id : Z;
  action_id : AttentionActionID;
  request_hash : string;
  receipt_status : ReceiptStatus;
  previous_state : AttentionItemState;
  error_code : option string
}.

Record Tables : Type := {
  attention_items : gmap string ItemRow;
  attention_action_receipts : gmap (Z * string * string) ActionReceipt;
  next_receipt_id : Z
}.

Definition empty_tables : Tables := {|
  attention_items := ∅; attention_action_receipts := ∅; next_receipt_id := 1 |}.

Inductive Operation : Type := Changed | Removed.

Record Notice : Type := { n_user : Z; n_item : string; n_revision : Z; n_operation : Operation }.

Definition row_state (r : ItemRow) : AttentionItemState := lc_state (row_life r).
Definition row_revision (r : ItemRow) : Z := lc_revision (row_life r).
Definition row_user (r : ItemRow) : Z := it_userId (row_draft r).

Definition with_life (r : ItemRow) (l : Lifecycle) : ItemRow :=
  {| row_draft := row_draft r; row_life := l |}.

Definition with_item (d : Tables) (k : string) (r : ItemRow) : Tables := {|
  attention_items := <[k := r]> (attention_items d);
  attention_action_receipts := attention_action_receipts d;
  next_receipt_id := next_receipt_id d |}.

(** The event of [notifyChanged]. *)
Definition changed_notice (k : string) (r : ItemRow) : Notice :=
  {| n_user := row_user r; n_item := k; n_revision := row_revision r; n_operation := Changed |}.

Definition is_final (st : AttentionItemState) : bool :=
  bool_decide (st ∈ [AResolved; AExpired]).

(** ** [applyProjection] *)

(** The unique key (user_id, daemon_id, session_id, request_id, kind). *)
Definition same_identity (i : AttentionItemIdentity) (r : ItemRow) : bool :=
  let t := row_draft r in
  (it_userId t =? id_userId i) && bool_decide (it_daemonId t = id_daemonId i)
  && bool_decide (it_sessionId t = id_sessionId i) && bool_decide (it_requestId t = id_requestId i)
  && bool_decide (it_kind t = id_kind i).

Definition draft_identity (t : AttentionItemDraft) : AttentionItemIdentity := {|
  id_userId := it_userId t; id_daemonId := it_daemonId t; id_sessionId := it_sessionId t;
  id_requestId := it_requestId t; id_kind := it_kind t |}.

Definition find_item (d : Tables) (i : AttentionItemIdentity) : option (string * ItemRow) :=
  find_first (λ x, same_identity i x.2) (map_to_list (attention_items d)).

Section with_jsonb.
Context (jsonb_eq : jsval → jsval → bool).

#[local] Instance ActionStyle_eq : EqDecision ActionStyle.
Proof. solve_decision. Defined.
#[local] Instance AttentionAction_eq : EqDecision AttentionAction.
Proof. solve_decision. Defined.

(** [(stored columns) IS DISTINCT FROM (EXCLUDED columns)]. *)
Definition distinct_content (t u : AttentionItemDraft) : bool :=
  negb (bool_decide (it_provider t = it_provider u)
    && bool_decide (it_riskLevel t = it_riskLevel u)
    && bool_decide (it_incomplete t = it_incomplete u)
    && bool_decide (it_riskReasons t = it_riskReasons u)
    && bool_decide (it_title t = it_title u)
    && bool_decide (it_summary t = it_summary u)
    && jsonb_eq (it_context t) (it_context u)
    && bool_decide (allowedActions t = allowedActions u)
    && bool_decide (sourceEventType t = sourceEventType u)
    && bool_decide (sourceEventKey t = sourceEventKey u)
    && bool_decide (expiresAt t = expiresAt u)).

(** [DO UPDATE SET]: everything but the identity and [created_at]. *)
Definition updated_draft (old new : AttentionItemDraft) : AttentionItemDraft := {|
  it_userId := it_userId old; it_daemonId := it_daemonId old; it_sessionId := it_sessionId old;
  it_requestId := it_requestId old; it_kind := it_kind old; it_createdAt := it_createdAt old;
  it_provider := it_provider new; it_riskLevel := it_riskLevel new;
  it_incomplete := it_incomplete new; it_riskReasons := it_riskReasons new;
  it_title := it_title new; it_summary := it_summary new; it_context := it_context new;
  allowedActions := allowedActions new; sourceEventId := sourceEventId new;
  sourceEventType := sourceEventType new; sourceEventKey := sourceEventKey new;
  expiresAt := expiresAt new |}.

Definition new_life (now : Z) : Lifecycle := {|
  lc_state := AOpen; lc_revision := 1; lc_seen_at := None; lc_snoozed_until := None;
  lc_submitted_at := None; lc_deadline_at := None; lc_submission_key := None;
  lc_resolved_at := None; lc_handled_at := None; lc_resolution := None; lc_last_error := None;
  lc_updated_at := now |}.

(** [revision = revision + 1, updated_at = NOW()] and nothing else. *)
Definition bumped (l : Lifecycle) (now : Z) : Lifecycle := {|
  lc_state := lc_state l; lc_revision := lc_revision l + 1; lc_seen_at := lc_seen_at l;
  lc_snoozed_until := lc_snoozed_until l; lc_submitted_at := lc_submitted_at l;
  lc_deadline_at := lc_deadline_at l; lc_submission_key := lc_submission_key l;
  lc_resolved_at := lc_resolved_at l; lc_handled_at := lc_handled_at l;
  lc_resolution := lc_resolution l; lc_last_error := lc_last_error l; lc_updated_at := now |}.

(** The random [uuid] is used when a row is inserted. *)
Definition upsertRequest (now : Z) (uuid : string) (item : AttentionItemDraft) (d : Tables)
  : Tables * list Notice :=
  match find_item d (draft_identity item) with
  | None =>
      let r := {| row_draft := item; row_life := new_life now |} in
      (with_item d uuid r, [changed_notice uuid r])
  | Some (k, r) =>
      if negb (is_final (row_state r)) && distinct_content (row_draft r) item then
        let r' := {| row_draft := updated_draft (row_draft r) item;
                     row_life := bumped (row_life r) now |} in
        (with_item d k r', [changed_notice k r'])
      else (d, [])
  end.

Definition resolved_life (l : Lifecycle) (now eventId : Z) (res : jsval) : Lifecycle := {|
  lc_state := AResolved; lc_revision := lc_revision l + 1; lc_seen_at := lc_seen_at l;
  lc_snoozed_until := lc_snoozed_until l; lc_submitted_at := None; lc_deadline_at := None;
  lc_submission_key := None; lc_resolved_at := Some now; lc_handled_at := Some now;
  lc_resolution := Some (eventId, res); lc_last_error := None; lc_updated_at := now |}.

Definition resolveRequest (now : Z) (identity : AttentionItemIdentity) (eventId : Z) (res : jsval)
  (d : Tables) : Tables * list Notice :=
  match find_item d identity with
  | Some (k, r) =>
      if is_final (row_state r) then (d, [])
      else
        let r' := with_life r (resolved_life (row_life r) now eventId res) in
        (with_item d k r', [changed_notice k r'])
  | None => (d, [])
  end.

Definition applyProjection (now : Z) (uuid : string) (p : AttentionProjection) (d : Tables)
  : Tables * list Notice :=
  match p with
  | Upsert item => upsertRequest now uuid item d
  | Resolve identity eventId res => resolveRequest now identity eventId res d
  end.
End with_jsonb.

(** ** [claimAction] *)

Record AttentionActionRequest : Type := {
  expectedRevision : Z;
  actionId : AttentionActionID;
  answers : option (list (list string))
}.

Inductive AttentionActionClaim : Type :=
| Claimed (item : ItemRow) (receipt : Z)
| Idempotent (item : ItemRow) (receipt : Z) (status : ReceiptStatus) (error : option string)
| AlreadySubmitting (item : ItemRow)
| ResolvedElsewhere (item : ItemRow)
| NotFound
| StaleRevision (item : ItemRow)
| IdempotencyKeyReused (item : ItemRow)
| ActionNotAllowed (item : ItemRow)
| ProviderNotEnabled (item : ItemRow).

Definition provider_enabled (r : ItemRow) : bool :=
  let t := row_draft r in
  bool_decide (it_provider t ∈ ["codex"; "opencode"]%string)
  || (bool_decide (it_provider t ∈ ["claude-code"; "dsh"]%string)
      && is_true (js_get (it_context t) "team_native_request")).

Definition submitting_life (l : Lifecycle) (now : Z) (key : string) : Lifecycle := {|
  lc_state := ASubmitting; lc_revision := lc_revision l + 1; lc_seen_at := lc_seen_at l;
  lc_snoozed_until := lc_snoozed_until l; lc_submitted_at := Some now;
  lc_deadline_at := Some (now + 30000000); lc_submission_key := Some key;
  lc_resolved_at := lc_resolved_at l; lc_handled_at := lc_handled_at l;
  lc_resolution := lc_resolution l; lc_last_error := None; lc_updated_at := now |}.

Definition select_item (d : Tables) (userId : Z) (itemId : string) : option ItemRow :=
  match attention_items d !! itemId with
  | Some r => if row_user r =? userId then Some r else None
  | None => None
  end.

Definition claimAction (now userId : Z) (itemId key hash : string) (request : AttentionActionRequest)
  (d : Tables) : Tables * AttentionActionClaim * list Notice :=
  match select_item d userId itemId with
  | None => (d, NotFound, [])
  | Some r =>
      match attention_action_receipts d !! (userId, itemId, key) with
      | Some existing =>
          if negb (bool_decide (request_hash existing = hash)) then (d, IdempotencyKeyReused r, [])
          else if is_final (row_state r) then (d, ResolvedElsewhere r, [])
          else (d, Idempotent r (receipt_id existing) (receipt_status existing)
                     (error_code existing), [])
      | None =>
          if negb (provider_enabled r) then (d, ProviderNotEnabled r, [])
          else if is_final (row_state r) then (d, ResolvedElsewhere r, [])
          else if bool_decide (row_state r = ASubmitting) then (d, AlreadySubmitting r, [])
          else if negb (bool_decide (row_state r ∈ [AOpen; AResultUnknown])) then
            (d, ActionNotAllowed r, [])
          else if negb (row_revision r =? expectedRevision request) then (d, StaleRevision r, [])
          else if negb (existsb (λ a, bool_decide (act_id a = actionId request))
                          (allowedActions (row_draft r))) then (d, ActionNotAllowed r, [])
          else
            let r' := with_life r (submitting_life (row_life r) now key) in
            let rid := next_receipt_id d in
            ({| attention_items := <[itemId := r']> (attention_items d);
                attention_action_receipts :=
                  <[(userId, itemId, key) := {| receipt_id := rid; action_id := actionId request;
                      request_hash := hash; receipt_status := RAccepted;
                      previous_state := row_state r; error_code := None |}]>
                    (attention_action_receipts d);
                next_receipt_id := rid + 1 |},
             Claimed r' rid, [changed_notice itemId r'])
      end
  end.

(** ** [restoreSubmission] *)

Definition restored_life (l : Lifecycle) (now : Z) (previous : AttentionItemState) (err : string)
  : Lifecycle := {|
  lc_state := if bool_decide (previous = AResultUnknown) then AResultUnknown else AOpen;
  lc_revision := lc_revision l + 1; lc_seen_at := lc_seen_at l;
  lc_snoozed_until := lc_snoozed_until l; lc_submitted_at := None; lc_deadline_at := None;
  lc_submission_key := None; lc_resolved_at := lc_resolved_at l; lc_handled_at := lc_handled_at l;
  lc_resolution := lc_resolution l; lc_last_error := Some err; lc_updated_at := now |}.

Definition rejected_receipt (c : ActionReceipt) (err : string) : ActionReceipt := {|
  receipt_id := receipt_id c; action_id := action_id c; request_hash := request_hash c;
  receipt_status := RRejected; previous_state := previous_state c; error_code := Some err |}.

Definition restoreSubmission (now userId : Z) (itemId key err : string) (d : Tables)
  : Tables * list Notice :=
  match select_item d userId itemId, attention_action_receipts d !! (userId, itemId, key) with
  | Some r, Some c =>
      if bool_decide (row_state r = ASubmitting)
         && bool_decide (lc_submission_key (row_life r) = Some key)
      then
        let r' := with_life r (restored_life (row_life r) now (previous_state c) err) in
        ({| attention_items := <[itemId := r']> (attention_items d);
            attention_action_receipts :=
              <[(userId, itemId, key) := rejected_receipt c err]> (attention_action_receipts d);
            next_receipt_id := next_receipt_id d |}, [changed_notice itemId r'])
      else (d, [])
  | _, _ => (d, [])
  end.

(** ** [mutateMetadata] *)

Inductive MetadataOperation : Type := MarkSeen | Snooze | RestoreItem.

Inductive MetadataOutcome : Type :=
| MUpdated (item : ItemRow) | MNotFound | MStaleRevision (item : ItemRow) | MInvalid.

Definition seen_life (l : Lifecycle) (now : Z) : Lifecycle := {|
  lc_state := lc_state l; lc_revision := lc_revision l + 1; lc_seen_at := Some now;
  lc_snoozed_until := lc_snoozed_until l; lc_submitted_at := lc_submitted_at l;
  lc_deadline_at := lc_deadline_at l; lc_submission_key := lc_submission_key l;
  lc_resolved_at := lc_resolved_at l; lc_handled_at := lc_handled_at l;
  lc_resolution := lc_resolution l; lc_last_error := lc_last_error l; lc_updated_at := now |}.

Definition snooze_life (l : Lifecycle) (now : Z) (st : AttentionItemState) (until : option Z)
  : Lifecycle := {|
  lc_state := st; lc_revision := lc_revision l + 1; lc_seen_at := lc_seen_at l;
  lc_snoozed_until := until; lc_submitted_at := lc_submitted_at l;
  lc_deadline_at := lc_deadline_at l; lc_submission_key := lc_submission_key l;
  lc_resolved_at := lc_resolved_at l; lc_handled_at := lc_handled_at l;
  lc_resolution := lc_resolution l; lc_last_error := lc_last_error l; lc_updated_at := now |}.

(** [until]: the time value of [new Date(snoozedUntil)], none when the text is
    absent, empty or invalid; [nowMs] is [Date.now()]. *)
Definition snooze_allowed (until : option Z) (nowMs : Z) : option Z :=
  match until with
  | Some t =>
      if (t - nowMs <? 5 * 60000) || (7 * 24 * 60 * 60000 <? t - nowMs) then None else Some t
  | None => None
  end.

Definition mutateMetadata (now nowMs userId : Z) (itemId : string) (expected : Z)
  (operation : MetadataOperation) (until : option Z) (d : Tables)
  : Tables * MetadataOutcome * list Notice :=
  match select_item d userId itemId with
  | None => (d, MNotFound, [])
  | Some r =>
      let l := row_life r in
      let write l' :=
        let r' := with_life r l' in (with_item d itemId r', MUpdated r', [changed_notice itemId r']) in
      if negb (row_revision r =? expected) then (d, MStaleRevision r, [])
      else
        match operation with
        | MarkSeen =>
            match lc_seen_at l with Some _ => (d, MUpdated r, []) | None => write (seen_life l now) end
        | Snooze =>
            match snooze_allowed until nowMs with
            | Some t =>
                if bool_decide (row_state r = AOpen)
                then write (snooze_life l now ASnoozed (Some (t * 1000))) else (d, MInvalid, [])
            | None => (d, MInvalid, [])
            end
        | RestoreItem =>
            if bool_decide (row_state r = ASnoozed) then write (snooze_life l now AOpen None)
            else (d, MInvalid, [])
        end
  end.

(** ** [runMaintenance] *)

Definition due (o : option Z) (now : Z) : bool :=
  match o with Some t => t <=? now | None => false end.

(** The [expires_at] column of a draft. *)
Definition expires_column (t : AttentionItemDraft) : option Z :=
  match expiresAt t with Some (Some ms) => Some (ms * 1000) | _ => None end.

Definition expiry_due (r : ItemRow) (now : Z) : bool :=
  bool_decide (row_state r ∈ [AOpen; ASnoozed; AResultUnknown])
  && due (expires_column (row_draft r)) now.

Definition deadline_due (r : ItemRow) (now : Z) : bool :=
  bool_decide (row_state r = ASubmitting) && due (lc_deadline_at (row_life r)) now.

Definition snooze_due (r : ItemRow) (now : Z) : bool :=
  bool_decide (row_state r = ASnoozed) && due (lc_snoozed_until (row_life r)) now.

Definition maintenance_candidate (now : Z) (r : ItemRow) : bool :=
  snooze_due r now || deadline_due r now || expiry_due r now.

(** [UPDATE attention_items ... CASE ...] of one candidate. *)
Definition maintained_life (r : ItemRow) (now : Z) : Lifecycle :=
  let l := row_life r in {|
  lc_state := if expiry_due r now then AExpired
              else if deadline_due r now then AResultUnknown
              else if snooze_due r now then AOpen else lc_state l;
  lc_revision := lc_revision l + 1; lc_seen_at := lc_seen_at l;
  lc_snoozed_until := if snooze_due r now then None else lc_snoozed_until l;
  lc_submitted_at := lc_submitted_at l; lc_deadline_at := lc_deadline_at l;
  lc_submission_key := lc_submission_key l; lc_resolved_at := lc_resolved_at l;
  lc_handled_at := if expiry_due r now then Some now else lc_handled_at l;
  lc_resolution := lc_resolution l;
  lc_last_error := if deadline_due r now then Some "result_unknown"%string else lc_last_error l;
  lc_updated_at := now |}.

(** [COALESCE(submission_deadline_at, snoozed_until, expires_at), item_id]. *)
Definition maintenance_key (x : string * ItemRow) : option Z :=
  let l := row_life x.2 in
  match lc_deadline_at l, lc_snoozed_until l with
  | Some t, _ => Some t
  | None, Some t => Some t
  | None, None => expires_column (row_draft x.2)
  end.

(** [ORDER BY key, item_id], NULLs last. *)
Definition key_before (key : string * ItemRow → option Z) (x y : string * ItemRow) : Prop :=
  match key x, key y with
  | Some a, Some b => a < b ∨ (a = b ∧ String.le x.1 y.1)
  | Some _, None => True
  | None, Some _ => False
  | None, None => String.le x.1 y.1
  end.

#[global] Instance key_before_dec key x y : Decision (key_before key x y).
Proof. unfold key_before. destruct (key x), (key y); apply _. Defined.

(** The first rows by the order that satisfy the test and are not locked by
    another transaction. *)
Definition select_locked (test : ItemRow → bool) (key : string * ItemRow → option Z) (limit : nat)
  (locked : list string) (d : Tables) : list (string * ItemRow) :=
  take limit (merge_sort (key_before key)
    (bfilter (λ x, test x.2 && negb (bool_decide (x.1 ∈ locked))) (map_to_list (attention_items d)))).

Definition unknown_receipt (c : ActionReceipt) : ActionReceipt := {|
  receipt_id := receipt_id c; action_id := action_id c; request_hash := request_hash c;
  receipt_status := RResultUnknown; previous_state := previous_state c; error_code := error_code c |}.

(** One changed row, its receipt when its result became unknown, and its
    notice. *)
Definition maintain_row (now : Z) (acc : Tables * list Notice) (x : string * ItemRow)
  : Tables * list Notice :=
  let '(d, notices) := acc in
  let '(k, r) := x in
  let r' := with_life r (maintained_life r now) in
  let receipts :=
    match row_state r', lc_submission_key (row_life r') with
    | AResultUnknown, Some key =>
        alter unknown_receipt (row_user r', k, key) (attention_action_receipts d)
    | _, _ => attention_action_receipts d
    end in
  ({| attention_items := <[k := r']> (attention_items d);
      attention_action_receipts := receipts; next_receipt_id := next_receipt_id d |},
   notices ++ [changed_notice k r']).

Definition maintain (now : Z) (locked : list string) (d : Tables) : Tables * list Notice :=
  fold_left (maintain_row now) (select_locked (maintenance_candidate now) maintenance_key 100 locked d)
    (d, []).

(** Thirty days in microseconds. *)
Definition retention_us : Z := 30 * 86400 * 1000000.

Definition removable (now : Z) (r : ItemRow) : bool :=
  is_final (row_state r) &&
  match lc_handled_at (row_life r) with Some t => t <? now - retention_us | None => false end.

(** [ON DELETE CASCADE] takes the receipts of an item with it. *)
Definition remove_row (acc : Tables * list Notice) (x : string * ItemRow) : Tables * list Notice :=
  let '(d, notices) := acc in
  ({| attention_items := delete x.1 (attention_items d);
      attention_action_receipts := filter (λ c, c.1.1.2 ≠ x.1) (attention_action_receipts d);
      next_receipt_id := next_receipt_id d |},
   notices ++ [{| n_user := row_user x.2; n_item := x.1; n_revision := row_revision x.2;
                  n_operation := Removed |}]).

Definition remove_old (now : Z) (locked : list string) (d : Tables) : Tables * list Notice :=
  fold_left remove_row
    (select_locked (removable now) (λ x, lc_handled_at (row_life x.2)) 500 locked d) (d, []).

(** The two statements of [runMaintenance]; between them other transactions
    may run, so the second sees its own tables. *)
Definition runMaintenance (now1 now2 : Z) (locked1 locked2 : list string) (d : Tables)
  : Tables * list Notice * Z :=
  let '(d1, n1) := maintain now1 locked1 d in
  let '(d2, n2) := remove_old now2 locked2 d1 in
  (d2, n1 ++ n2, len n1 + len n2).
