(* ===== verification/AttentionSpec.v ===== *)
(** * AttentionSpec: the life of an attention item, and its refinement.

    The specification: an item is its state, its revision and the submission
    in flight; [item_step] lists the transitions a client may observe.  Every
    statement of the repository (AttentionStore) changes every item by at most
    one of these transitions: [store_refines].  Two consequences for runs are
    proved on the specification: revisions only grow, and an item that is
    resolved or expired stays so until it is removed. *)

From S2P Require Import Prelude JsValue AttentionInbox AttentionStore.

#[local] Open Scope Z_scope.

(** ** The specification *)

Record AbsItem : Type := {
  ab_user : Z;
  ab_state : AttentionItemState;
  ab_revision : Z;
  ab_submission : option string
}.

Abbreviation AbsInbox := (gmap string AbsItem).

Definition abs_next (a : AbsItem) (st : AttentionItemState) (key : option string) : AbsItem := {|
  ab_user := ab_user a; ab_state := st; ab_revision := ab_revision a + 1; ab_submission := key |}.

Inductive item_step : option AbsItem → option AbsItem → Prop :=
| It_created u :
    item_step None (Some {| ab_user := u; ab_state := AOpen; ab_revision := 1; ab_submission := None |})
| It_touched a : item_step (Some a) (Some (abs_next a (ab_state a) (ab_submission a)))
| It_snoozed a :
    ab_state a = AOpen → item_step (Some a) (Some (abs_next a ASnoozed None))
| It_woken a :
    ab_state a = ASnoozed → item_step (Some a) (Some (abs_next a AOpen None))
| It_claimed a key :
    ab_state a = AOpen ∨ ab_state a = AResultUnknown →
    item_step (Some a) (Some (abs_next a ASubmitting (Some key)))
| It_restored a key st :
    ab_state a = ASubmitting → ab_submission a = Some key → st = AOpen ∨ st = AResultUnknown →
    item_step (Some a) (Some (abs_next a st None))
| It_timed_out a :
    ab_state a = ASubmitting → item_step (Some a) (Some (abs_next a AResultUnknown None))
| It_resolved a :
    is_final (ab_state a) = false → item_step (Some a) (Some (abs_next a AResolved None))
| It_expired a :
    ab_state a = AOpen ∨ ab_state a = ASnoozed ∨ ab_state a = AResultUnknown →
    item_step (Some a) (Some (abs_next a AExpired None))
| It_removed a : is_final (ab_state a) = true → item_step (Some a) None.

(** The notice of a transition: the revision an item now has, or the last one
    it had. *)
Definition abs_notice (k : string) (before after : option AbsItem) : option Notice :=
  match after, before with
  | Some a, _ => Some {| n_user := ab_user a; n_item := k; n_revision := ab_revision a;
                         n_operation := Changed |}
  | None, Some a => Some {| n_user := ab_user a; n_item := k; n_revision := ab_revision a;
                            n_operation := Removed |}
  | None, None => None
  end.

Definition notices_of (k : string) (ns : list Notice) : list Notice :=
  bfilter (λ n, bool_decide (n_item n = k)) ns.

(** One step of the inbox: every item stays, silently, or takes one transition
    and sends one notice of it. *)
Definition inbox_step (ns : list Notice) (m m' : AbsInbox) : Prop :=
  ∀ k, (m' !! k = m !! k ∧ notices_of k ns = []) ∨
       (item_step (m !! k) (m' !! k) ∧
        notices_of k ns = option_list (abs_notice k (m !! k) (m' !! k))).

(** ** The abstraction *)

Definition abs_item (r : ItemRow) : AbsItem := {|
  ab_user := row_user r;
  ab_state := row_state r;
  ab_revision := row_revision r;
  ab_submission :=
    match row_state r with ASubmitting => lc_submission_key (row_life r) | _ => None end |}.

Definition abs_tables (d : Tables) : AbsInbox := abs_item <$> attention_items d.

(** ** The statements of the repository *)

Section steps.
Context (jsonb_eq : jsval → jsval → bool).

Inductive store_step : list Notice → Tables → Tables → Prop :=
| Ss_project d now uuid p :
    attention_items d !! uuid = None →
    store_step (applyProjection jsonb_eq now uuid p d).2 d (applyProjection jsonb_eq now uuid p d).1
| Ss_claim d now userId itemId key hash request :
    store_step (claimAction now userId itemId key hash request d).2 d
      (claimAction now userId itemId key hash request d).1.1
| Ss_restore d now userId itemId key err :
    store_step (restoreSubmission now userId itemId key err d).2 d
      (restoreSubmission now userId itemId key err d).1
| Ss_metadata d now nowMs userId itemId expected operation until :
    store_step (mutateMetadata now nowMs userId itemId expected operation until d).2 d
      (mutateMetadata now nowMs userId itemId expected operation until d).1.1
| Ss_maintain d now locked : store_step (maintain now locked d).2 d (maintain now locked d).1
| Ss_remove d now locked : store_step (remove_old now locked d).2 d (remove_old now locked d).1.
End steps.

(** *** One row at a time *)

Lemma inbox_step_refl m : inbox_step [] m m.
Proof. intros k. by left. Qed.

Lemma notices_of_one k k' n : n_item n = k' → notices_of k [n] = if decide (k = k') then [n] else [].
Proof.
  intros <-. unfold notices_of. simpl. case_bool_decide; case_decide; congruence.
Qed.

Lemma notices_of_app k l1 l2 : notices_of k (l1 ++ l2) = notices_of k l1 ++ notices_of k l2.
Proof. apply bfilter_app. Qed.

Lemma item_insert_step (m : gmap string ItemRow) k r' :
  item_step (abs_item <$> m !! k) (Some (abs_item r')) →
  inbox_step [changed_notice k r'] (abs_item <$> m) (abs_item <$> <[k := r']> m).
Proof.
  intros Hs k'. rewrite !lookup_fmap, (notices_of_one k' k) by done. case_decide as Hk; subst.
  - right. rewrite lookup_insert_eq. simpl. by split.
  - left. by rewrite lookup_insert_ne.
Qed.

Lemma find_item_lookup d i k r : find_item d i = Some (k, r) → attention_items d !! k = Some r.
Proof. unfold find_item. intros [H _]%find_first_Some. by apply elem_of_map_to_list in H. Qed.

Lemma select_item_Some d u k r :
  select_item d u k = Some r → attention_items d !! k = Some r ∧ row_user r = u.
Proof.
  unfold select_item. destruct (attention_items d !! k) as [r0|]; [|done].
  destruct (row_user r0 =? u) eqn:E; [|done]. intros [= <-]. by bool_hyps.
Qed.

(** A row whose state and key stay is touched. *)
Lemma touched_step r r' :
  row_user r' = row_user r → row_state r' = row_state r → row_revision r' = row_revision r + 1 →
  lc_submission_key (row_life r') = lc_submission_key (row_life r) →
  item_step (Some (abs_item r)) (Some (abs_item r')).
Proof.
  intros Hu Hs Hr Hk. replace (abs_item r') with
    (abs_next (abs_item r) (ab_state (abs_item r)) (ab_submission (abs_item r))); [constructor|].
  unfold abs_next, abs_item. simpl. by rewrite Hu, Hs, Hr, Hk.
Qed.

Lemma project_step jsonb_eq d now uuid p :
  attention_items d !! uuid = None →
  inbox_step (applyProjection jsonb_eq now uuid p d).2 (abs_tables d)
    (abs_tables (applyProjection jsonb_eq now uuid p d).1).
Proof.
  intros Hfresh. destruct p as [item|identity eid res]; simpl.
  - unfold upsertRequest. destruct (find_item d _) as [[k r]|] eqn:Ef.
    + destruct (_ && _); simpl; [|apply inbox_step_refl].
      apply item_insert_step. rewrite (find_item_lookup _ _ _ _ Ef). by apply touched_step.
    + apply item_insert_step. rewrite Hfresh. apply (It_created (it_userId item)).
  - unfold resolveRequest. destruct (find_item d _) as [[k r]|] eqn:Ef; [|apply inbox_step_refl].
    destruct (is_final (row_state r)) eqn:Efin; simpl; [apply inbox_step_refl|].
    apply item_insert_step. rewrite (find_item_lookup _ _ _ _ Ef). by apply (It_resolved (abs_item r)).
Qed.

Lemma claim_step now userId itemId key hash request d :
  inbox_step (claimAction now userId itemId key hash request d).2 (abs_tables d)
    (abs_tables (claimAction now userId itemId key hash request d).1.1).
Proof.
  unfold claimAction. destruct (select_item d userId itemId) as [r|] eqn:Es; [|apply inbox_step_refl].
  apply select_item_Some in Es as [Hk Hu].
  destruct (attention_action_receipts d !! _) as [c|]; [repeat case_match; apply inbox_step_refl|].
  destruct (negb (provider_enabled r)); [apply inbox_step_refl|].
  destruct (is_final (row_state r)); [apply inbox_step_refl|].
  destruct (bool_decide (row_state r = ASubmitting)); [apply inbox_step_refl|].
  destruct (bool_decide (row_state r ∈ [AOpen; AResultUnknown])) eqn:Est; [|apply inbox_step_refl].
  simpl. destruct (negb (row_revision r =? _)); [apply inbox_step_refl|].
  destruct (negb (existsb _ _)); [apply inbox_step_refl|].
  apply item_insert_step. rewrite Hk. apply (It_claimed (abs_item r) key).
  bool_hyps. rewrite !elem_of_cons, elem_of_nil in Est. simpl. tauto.
Qed.

Lemma restore_step now userId itemId key err d :
  inbox_step (restoreSubmission now userId itemId key err d).2 (abs_tables d)
    (abs_tables (restoreSubmission now userId itemId key err d).1).
Proof.
  unfold restoreSubmission. destruct (select_item d userId itemId) as [r|] eqn:Es; [|apply inbox_step_refl].
  apply select_item_Some in Es as [Hk Hu].
  destruct (attention_action_receipts d !! _) as [c|]; [|apply inbox_step_refl].
  destruct (_ && _) eqn:E; [|apply inbox_step_refl]. bool_hyps.
  apply item_insert_step. rewrite Hk.
  replace (abs_item (with_life r _)) with
    (abs_next (abs_item r) (if bool_decide (previous_state c = AResultUnknown) then AResultUnknown else AOpen) None).
  - apply (It_restored _ key); simpl; [done| |by case_bool_decide; auto].
    by rewrite H.
  - unfold abs_next, abs_item, row_state. simpl. by case_bool_decide.
Qed.

Lemma metadata_step now nowMs userId itemId expected operation until d :
  inbox_step (mutateMetadata now nowMs userId itemId expected operation until d).2 (abs_tables d)
    (abs_tables (mutateMetadata now nowMs userId itemId expected operation until d).1.1).
Proof.
  unfold mutateMetadata. destruct (select_item d userId itemId) as [r|] eqn:Es; [|apply inbox_step_refl].
  apply select_item_Some in Es as [Hk Hu]. destruct (negb _); [apply inbox_step_refl|].
  destruct operation.
  - destruct (lc_seen_at _); [apply inbox_step_refl|]. apply item_insert_step. rewrite Hk.
    by apply touched_step.
  - destruct (snooze_allowed _ _) as [t|]; [|apply inbox_step_refl].
    case_bool_decide as Hst; [|apply inbox_step_refl].
    apply item_insert_step. rewrite Hk. by apply (It_snoozed (abs_item r)).
  - case_bool_decide as Hst; [|apply inbox_step_refl].
    apply item_insert_step. rewrite Hk. by apply (It_woken (abs_item r)).
Qed.

(** *** The maintenance statements: every selected row is changed once *)

Lemma select_locked_elem test key limit locked d k r :
  (k, r) ∈ select_locked test key limit locked d → attention_items d !! k = Some r ∧ test r = true.
Proof.
  unfold select_locked. intros H. apply elem_of_take in H as (i & H & _).
  apply list_elem_of_lookup_2 in H. rewrite merge_sort_Permutation in H.
  apply elem_of_bfilter in H as [Ht H]. bool_hyps. by apply elem_of_map_to_list in H.
Qed.

Lemma select_locked_nodup test key limit locked d :
  NoDup (select_locked test key limit locked d).*1.
Proof.
  unfold select_locked. eapply sublist_NoDup; [|apply fmap_sublist, sublist_take].
  rewrite merge_sort_Permutation. eapply sublist_NoDup; [|apply fmap_sublist, bfilter_sublist].
  apply NoDup_fst_map_to_list.
Qed.

Section fold.
Context (step : Tables * list Notice → string * ItemRow → Tables * list Notice).
Context (h : ItemRow → option ItemRow) (test : ItemRow → bool).
Hypothesis step_items : ∀ acc k r,
  attention_items (step acc (k, r)).1 = partial_alter (λ _, h r) k (attention_items acc.1).
Hypothesis step_notice : ∀ acc k r,
  (step acc (k, r)).2
  = acc.2 ++ option_list (abs_notice k (Some (abs_item r)) (abs_item <$> h r)).

Lemma abs_notice_item k o o' : notices_of k (option_list (abs_notice k o o')) = option_list (abs_notice k o o').
Proof. destruct o, o'; unfold notices_of; simpl; by rewrite ?bool_decide_true by done. Qed.

Lemma abs_notice_other k k' o o' : k ≠ k' → notices_of k (option_list (abs_notice k' o o')) = [].
Proof. intros Hk. destruct o, o'; unfold notices_of; simpl; by rewrite ?bool_decide_false by done. Qed.

Lemma fold_rows_other xs acc k :
  k ∉ xs.*1 →
  attention_items (fold_left step xs acc).1 !! k = attention_items acc.1 !! k
  ∧ notices_of k (fold_left step xs acc).2 = notices_of k acc.2.
Proof using step_items step_notice.
  revert acc. induction xs as [|[k' r] xs IH]; intros acc Hk; [done|]. simpl in *.
  apply not_elem_of_cons in Hk as [Hne Hk]. destruct (IH (step acc (k', r)) Hk) as [-> ->].
  rewrite step_items, step_notice, lookup_partial_alter_ne by done.
  by rewrite notices_of_app, abs_notice_other, app_nil_r.
Qed.

Lemma fold_rows_selected xs acc k r :
  NoDup xs.*1 → (k, r) ∈ xs →
  attention_items (fold_left step xs acc).1 !! k = h r
  ∧ notices_of k (fold_left step xs acc).2
    = notices_of k acc.2 ++ option_list (abs_notice k (Some (abs_item r)) (abs_item <$> h r)).
Proof using step_items step_notice.
  revert acc. induction xs as [|[k' r'] xs IH]; intros acc Hnd Hin; [by apply not_elem_of_nil in Hin|].
  simpl in *. apply NoDup_cons in Hnd as [Hk Hnd]. apply elem_of_cons in Hin as [[= <- <-]|Hin].
  - destruct (fold_rows_other xs (step acc (k, r)) k Hk) as [-> ->].
    rewrite step_items, step_notice, lookup_partial_alter_eq. split; [done|].
    by rewrite notices_of_app, abs_notice_item.
  - destruct (IH (step acc (k', r')) Hnd Hin) as [-> ->]. rewrite step_notice.
    rewrite notices_of_app, abs_notice_other, app_nil_r; [done|]. intros ->. apply Hk.
    apply list_elem_of_fmap. by exists (k', r).
Qed.

Lemma fold_rows_step key limit locked d :
  (∀ r, test r = true → item_step (Some (abs_item r)) (abs_item <$> h r)) →
  inbox_step (fold_left step (select_locked test key limit locked d) (d, [])).2 (abs_tables d)
    (abs_tables (fold_left step (select_locked test key limit locked d) (d, [])).1).
Proof using step_items step_notice.
  intros Hh k. unfold abs_tables. rewrite !lookup_fmap.
  destruct (decide (k ∈ (select_locked test key limit locked d).*1)) as [Hk|Hk].
  - apply list_elem_of_fmap in Hk as ([k' r] & -> & Hk). simpl.
    pose proof (select_locked_elem _ _ _ _ _ _ _ Hk) as [Hl Ht]. right. rewrite Hl.
    destruct (fold_rows_selected _ (d, []) k' r (select_locked_nodup _ _ _ _ _) Hk) as [-> ->].
    split; [by apply Hh|done].
  - left. by destruct (fold_rows_other _ (d, []) k Hk) as [-> ->].
Qed.
End fold.

Lemma maintained_step now r :
  maintenance_candidate now r = true →
  item_step (Some (abs_item r)) (Some (abs_item (with_life r (maintained_life r now)))).
Proof.
  unfold maintenance_candidate. intros H.
  assert (Hab : abs_item (with_life r (maintained_life r now))
    = abs_next (abs_item r) (if expiry_due r now then AExpired
        else if deadline_due r now then AResultUnknown else AOpen) None).
  { unfold abs_next, abs_item, row_state. simpl.
    destruct (expiry_due r now); [done|]. destruct (deadline_due r now); [done|].
    by destruct (snooze_due r now). }
  rewrite Hab. destruct (expiry_due r now) eqn:Ee.
  - apply It_expired. unfold expiry_due in Ee. bool_hyps.
    match goal with H : _ ∈ _ |- _ => rewrite !elem_of_cons, elem_of_nil in H end. simpl. tauto.
  - destruct (deadline_due r now) eqn:Ed.
    + apply It_timed_out. unfold deadline_due in Ed. by bool_hyps.
    + apply It_woken. rewrite !orb_false_r in H. unfold snooze_due in H. by bool_hyps.
Qed.

Lemma maintain_step now locked d :
  inbox_step (maintain now locked d).2 (abs_tables d) (abs_tables (maintain now locked d).1).
Proof.
  apply (fold_rows_step (maintain_row now) (λ r, Some (with_life r (maintained_life r now)))).
  - by intros [d' n] k r.
  - by intros [d' n] k r.
  - intros r. apply maintained_step.
Qed.

Lemma remove_step now locked d :
  inbox_step (remove_old now locked d).2 (abs_tables d) (abs_tables (remove_old now locked d).1).
Proof.
  apply (fold_rows_step remove_row (λ _, None)).
  - by intros [d' n] k r.
  - by intros [d' n] k r.
  - intros r H. apply (It_removed (abs_item r)). unfold removable in H. by bool_hyps.
Qed.

Lemma store_step_inbox jsonb_eq ns d d' :
  store_step jsonb_eq ns d d' → inbox_step ns (abs_tables d) (abs_tables d').
Proof.
  destruct 1; [by apply project_step|apply claim_step|apply restore_step|apply metadata_step
    |apply maintain_step|apply remove_step].
Qed.

(** ** Runs *)

Inductive run {S : Type} (R : list Notice → S → S → Prop) : list (list Notice) → S → S → Prop :=
| Run_nil s : run R [] s s
| Run_cons s1 s2 s3 ns tr : R ns s1 s2 → run R tr s2 s3 → run R (ns :: tr) s1 s3.

(** *** Consequences of the specification *)

Lemma item_step_same a a' :
  item_step (Some a) (Some a') →
  ab_user a' = ab_user a ∧ ab_revision a' = ab_revision a + 1
  ∧ (is_final (ab_state a) = true → ab_state a' = ab_state a).
Proof.
  inversion 1; subst; (split; [done|]); (split; [done|]); simpl; intros Hf; try done;
    try (by rewrite Hf in *); exfalso;
    repeat match goal with H : _ ∨ _ |- _ => destruct H end;
    match goal with H : ab_state a = _ |- _ => by rewrite H in Hf end.
Qed.

Lemma inbox_step_grows ns m m' k a a' :
  inbox_step ns m m' → m !! k = Some a → m' !! k = Some a' →
  ab_user a' = ab_user a ∧ ab_revision a ≤ ab_revision a' ∧
  (is_final (ab_state a) = true → ab_state a' = ab_state a).
Proof.
  intros H Ha Ha'. specialize (H k). rewrite Ha, Ha' in H. destruct H as [[[= ->] _]|[H _]].
  - by split_and!.
  - apply item_step_same in H as (Hu & Hr & Hf). split_and!; [done|lia|done].
Qed.

Lemma inbox_step_created ns m m' k a' :
  inbox_step ns m m' → m !! k = None → m' !! k = Some a' →
  ab_revision a' = 1 ∧ ab_state a' = AOpen.
Proof.
  intros H Ha Ha'. specialize (H k). rewrite Ha, Ha' in H. destruct H as [[[=] _]|[H _]].
  by inversion H.
Qed.

(** C10: every run of the repository's statements is a run of the
    specification: after the abstraction each item only moves by [item_step],
    and the notices sent are exactly one per transition, carrying the revision
    reached. *)
Theorem store_refines jsonb_eq tr d d' :
  run (store_step jsonb_eq) tr d d' → run inbox_step tr (abs_tables d) (abs_tables d').
Proof.
  induction 1 as [|s1 s2 s3 ns tr Hs _ IH]; [constructor|].
  econstructor; [by eapply store_step_inbox|done].
Qed.

(** *** An approval that is projected and then claimed *)

Definition sample_projection : AttentionProjection :=
  match projectAttentionEvent "?" sample_approval with
  | Some p => p
  | None => Resolve {| id_userId := 0; id_daemonId := ""; id_sessionId := ""; id_requestId := "";
                       id_kind := Approval |} 0 JNull
  end.

Definition always_equal (_ _ : jsval) : bool := true.

Definition sample_open : Tables * list Notice :=
  applyProjection always_equal 10 "i" sample_projection empty_tables.

Definition sample_request : AttentionActionRequest :=
  {| expectedRevision := 1; actionId := Once; answers := None |}.

Definition sample_claimed : Tables * AttentionActionClaim * list Notice :=
  claimAction 20 7 "i" "k" "h" sample_request sample_open.1.

Lemma store_refines_witness :
  len sample_claimed.2 = 1 ∧
  run inbox_step [sample_open.2; sample_claimed.2] (abs_tables empty_tables) (abs_tables sample_claimed.1.1).
Proof.
  split; [by vm_compute|]. apply (store_refines always_equal).
  eapply Run_cons; [by apply (Ss_project always_equal empty_tables 10 "i" sample_projection)|].
  eapply Run_cons; [apply (Ss_claim always_equal sample_open.1 20 7 "i" "k" "h" sample_request)|].
  apply Run_nil.
Defined.
