(* ===== verification/AttentionService.v ===== *)
(** * AttentionService: answering an attention item from the inbox
    (relay/src/attention-inbox/service.ts).

    [submitAction] claims the item, checks the answers, routes one command to
    the daemon and restores the item when that fails.  Its steps between two
    awaits are functions; [sys_step] interleaves the steps of any number of
    submissions, on any number of relay processes, with each other, with every
    statement of the repository and with crashes.

    The HMAC of [requestHash] is the argument [hmac]; the answer of the router
    is an argument of the step that receives it. *)

From S2P Require Import Prelude JsValue AttentionInbox AttentionStore AttentionSpec.

#[local] Open Scope Z_scope.

(** ** Requests and answers *)

Definition answers_json (a : option (list (list string))) : jsval :=
  match a with
  | Some sel => JArr (map (λ s, JArr (map JStr s)) sel)
  | None => JNull
  end.

Definition requestHash (hmac : string → string → string) (request : AttentionActionRequest)
  (secret : string) : string :=
  hmac secret (default EmptyString (stringify (JObj
    [("expected_revision", JNum (expectedRevision request));
     ("action_id", JStr (action_name (actionId request)));
     ("answers", answers_json (answers request))]%string))).

Definition structurallyValidAnswers (answers : option (list (list string))) : bool :=
  match answers with
  | None => false
  | Some sel =>
      negb (len sel =? 0) && (len sel <=? 16)
      && forallb (λ selection,
           (0 <? len selection) && (len selection <=? 64)
           && forallb (λ answer, (0 <? str_len (trim answer)) && (utf8_length answer <=? 4096))
                selection) sel
  end.

Definition array_items (v : jsval) : list jsval := match v with JArr l => l | _ => [] end.

Definition is_object (v : jsval) : bool :=
  match v with JObj _ | JArr _ => true | _ => false end.

(** The label an option offers. *)
Definition option_label (v : jsval) : string :=
  match v with
  | JStr s => s
  | _ => match js_get v "label" with JStr s => s | _ => EmptyString end
  end.

Definition valid_selection (raw : jsval) (selection : list string) : bool :=
  is_object raw
  && (is_true (js_get raw "multiple") || (len selection =? 1))
  && (let options := array_items (js_get raw "options") in
      let labels := bfilter (λ s, negb (bool_decide (s = EmptyString))) (map option_label options) in
      (len options <=? 64)
      && forallb (λ a, bool_decide (a ∈ labels) || is_true (js_get raw "custom")) selection).

Definition validAnswersForItem (item : ItemRow) (answers : list (list string)) : bool :=
  let questions := array_items (js_get (it_context (row_draft item)) "questions") in
  bool_decide (it_kind (row_draft item) = Question)
  && negb (len questions =? 0) && (len questions =? len answers) && (len questions <=? 16)
  && forallb (λ qa, valid_selection qa.1 qa.2) (zip questions answers).

Inductive AttentionInteractionCommand : Type :=
| ApprovalResponse (session_id request_id : string) (action : AttentionActionID)
| QuestionResponse (session_id request_id : string) (answers : list (list string))
| QuestionReject (session_id request_id : string).

Definition commandFor (item : ItemRow) (request : AttentionActionRequest)
  : option AttentionInteractionCommand :=
  let t := row_draft item in
  match it_kind t with
  | Approval =>
      if bool_decide (actionId request = Answer) then None
      else Some (ApprovalResponse (it_sessionId t) (it_requestId t) (actionId request))
  | Question =>
      if bool_decide (actionId request = Reject) then
        Some (QuestionReject (it_sessionId t) (it_requestId t))
      else
        match bool_decide (actionId request = Answer), answers request with
        | true, Some a => Some (QuestionResponse (it_sessionId t) (it_requestId t) a)
        | _, _ => None
        end
  end.

(** ** [submitAction] *)

Inductive AttentionInboxMode : Type := MOff | MObserve | MOn.

Inductive AttentionSubmissionResult : Type :=
| Submitted (receiptId : Z) (item : ItemRow)
| AlreadySubmitted (receiptId : Z) (item : ItemRow)
| SubAlreadySubmitting (item : ItemRow)
| SubResolvedElsewhere (item : ItemRow)
| SubError (code : string) (item : option ItemRow).

Inductive AttentionInteractionRouteResult : Type :=
| RouteAccepted
| RouteRefused (code : string).

Record Submission : Type := {
  sub_user : Z;
  sub_item : string;
  sub_key : string;
  sub_request : AttentionActionRequest
}.

(** A submission whose item is claimed, with what the claim returned. *)
Record Claim : Type := { cl_sub : Submission; cl_row : ItemRow; cl_receipt : Z }.

Definition idempotent_error (code : option string) : string :=
  match code with
  | Some c =>
      if bool_decide (c ∈ ["daemon_unreachable"; "answers_invalid"; "observer_read_only"]%string)
      then c else "submission_failed"%string
  | None => "submission_failed"%string
  end.

(** The [switch] on the claim: a result, or the claimed item. *)
Definition on_claim (sub : Submission) (claim : AttentionActionClaim)
  : AttentionSubmissionResult + Claim :=
  match claim with
  | NotFound => inl (SubError "item_not_found" None)
  | StaleRevision item => inl (SubError "stale_revision" (Some item))
  | IdempotencyKeyReused item => inl (SubError "idempotency_key_reused" (Some item))
  | ActionNotAllowed item => inl (SubError "action_not_allowed" (Some item))
  | ProviderNotEnabled item => inl (SubError "provider_not_enabled" (Some item))
  | AlreadySubmitting item => inl (SubAlreadySubmitting item)
  | ResolvedElsewhere item => inl (SubResolvedElsewhere item)
  | Idempotent item receipt status error =>
      match status with
      | RRejected => inl (SubError (idempotent_error error) None)
      | _ => inl (AlreadySubmitted receipt item)
      end
  | Claimed item receipt => inr {| cl_sub := sub; cl_row := item; cl_receipt := receipt |}
  end.

Section service.
Context (mode : AttentionInboxMode) (hash : AttentionActionRequest → string).

(** Up to the end of [claimAction]; a claim that throws changes nothing and is
    [submission_failed]. *)
Definition submit_claim (now : Z) (sub : Submission) (d : Tables)
  : Tables * list Notice * (AttentionSubmissionResult + Claim) :=
  let request := sub_request sub in
  match mode with
  | MOff => (d, [], inl (SubError "feature_disabled" None))
  | MObserve => (d, [], inl (SubError "remote_response_disabled" None))
  | MOn =>
      if bool_decide (actionId request = Answer) && negb (structurallyValidAnswers (answers request))
      then (d, [], inl (SubError "answers_invalid" None))
      else
        let '(d', claim, ns) :=
          claimAction now (sub_user sub) (sub_item sub) (sub_key sub) (hash request) request d in
        (d', ns, on_claim sub claim)
  end.

(** What follows the claim: an error the item is restored with, or the command
    for the router. *)
Definition after_claim (c : Claim) : string + AttentionInteractionCommand :=
  let request := sub_request (cl_sub c) in
  if bool_decide (actionId request = Answer)
     && negb (match answers request with Some a => validAnswersForItem (cl_row c) a | None => false end)
  then inl "answers_invalid"%string
  else
    match commandFor (cl_row c) request with
    | None => inl "submission_failed"%string
    | Some command => inr command
    end.

(** What follows the router's answer: nothing, or an error the item is restored
    with. *)
Definition after_route (routed : AttentionInteractionRouteResult) : option string :=
  match routed with
  | RouteAccepted => None
  | RouteRefused code =>
      Some (if bool_decide (code ∈ ["daemon_unreachable"; "observer_read_only"]%string)
            then code else "submission_failed"%string)
  end.

Definition restore_claim (now : Z) (c : Claim) (err : string) (d : Tables) : Tables * list Notice :=
  restoreSubmission now (sub_user (cl_sub c)) (sub_item (cl_sub c)) (sub_key (cl_sub c)) err d.

(** One submission that nothing interrupts; the restoring statement runs at
    [now'], and [route] is the router, a throw of which is
    [RouteRefused "daemon_unreachable"]. *)
Definition submitAction (route : Z → AttentionInteractionCommand → AttentionInteractionRouteResult)
  (now now' : Z) (sub : Submission) (d : Tables)
  : Tables * list Notice * AttentionSubmissionResult :=
  let '(d1, n1, r) := submit_claim now sub d in
  match r with
  | inl result => (d1, n1, result)
  | inr c =>
      let give_back err :=
        let '(d2, n2) := restore_claim now' c err d1 in (d2, n1 ++ n2, SubError err None) in
      match after_claim c with
      | inl err => give_back err
      | inr command =>
          match after_route (route (sub_user sub) command) with
          | None => (d1, n1, Submitted (cl_receipt c) (cl_row c))
          | Some err => give_back err
          end
      end
  end.
End service.

(** ** Submissions of many processes *)

(** [sys_used]: the item ids ever drawn; [sys_claimed]: claims not yet routed
    or given back; [sys_waiting]: commands the router has not answered;
    [sys_routed]: every command handed to the router. *)
Record System : Type := {
  sys_tables : Tables;
  sys_used : gset string;
  sys_claimed : list Claim;
  sys_waiting : list Claim;
  sys_routed : list (Claim * AttentionInteractionCommand)
}.

Definition initial_system : System := {|
  sys_tables := empty_tables; sys_used := ∅; sys_claimed := []; sys_waiting := [];
  sys_routed := [] |}.

(** New ids are fresh: [randomUUID]. *)
Definition fresh_ids (used : gset string) (d d' : Tables) : Prop :=
  ∀ k, attention_items d !! k = None → is_Some (attention_items d' !! k) → k ∉ used.

Definition with_tables (s : System) (d : Tables) : System := {|
  sys_tables := d; sys_used := sys_used s ∪ dom (attention_items d);
  sys_claimed := sys_claimed s; sys_waiting := sys_waiting s; sys_routed := sys_routed s |}.

Section system.
Context (jsonb_eq : jsval → jsval → bool) (mode : AttentionInboxMode).
Context (hash : AttentionActionRequest → string).

Inductive sys_step : System → System → Prop :=
| Sys_store s ns d' :
    store_step jsonb_eq ns (sys_tables s) d' → fresh_ids (sys_used s) (sys_tables s) d' →
    sys_step s (with_tables s d')
| Sys_submit s now sub d' ns c :
    submit_claim mode hash now sub (sys_tables s) = (d', ns, inr c) →
    sys_step s {|
      sys_tables := d'; sys_used := sys_used s; sys_claimed := c :: sys_claimed s;
      sys_waiting := sys_waiting s; sys_routed := sys_routed s |}
| Sys_give_back s now l1 l2 c err :
    sys_claimed s = l1 ++ c :: l2 → after_claim c = inl err →
    sys_step s {|
      sys_tables := (restore_claim now c err (sys_tables s)).1; sys_used := sys_used s;
      sys_claimed := l1 ++ l2; sys_waiting := sys_waiting s; sys_routed := sys_routed s |}
| Sys_route s l1 l2 c command :
    sys_claimed s = l1 ++ c :: l2 → after_claim c = inr command →
    sys_step s {|
      sys_tables := sys_tables s; sys_used := sys_used s; sys_claimed := l1 ++ l2;
      sys_waiting := c :: sys_waiting s; sys_routed := (c, command) :: sys_routed s |}
| Sys_answer s now l1 l2 c routed :
    sys_waiting s = l1 ++ c :: l2 →
    sys_step s {|
      sys_tables :=
        match after_route routed with
        | Some err => (restore_claim now c err (sys_tables s)).1
        | None => sys_tables s
        end;
      sys_used := sys_used s; sys_claimed := sys_claimed s; sys_waiting := l1 ++ l2;
      sys_routed := sys_routed s |}
| Sys_crash s claimed waiting :
    claimed `sublist_of` sys_claimed s → waiting `sublist_of` sys_waiting s →
    sys_step s {|
      sys_tables := sys_tables s; sys_used := sys_used s; sys_claimed := claimed;
      sys_waiting := waiting; sys_routed := sys_routed s |}.
End system.

Definition claim_key (c : Claim) : Z * string * string :=
  (sub_user (cl_sub c), sub_item (cl_sub c), sub_key (cl_sub c)).

Definition claim_revision (c : Claim) : string * Z :=
  (sub_item (cl_sub c), expectedRevision (sub_request (cl_sub c))).

(** A claim is spent: its item is gone for good, or its receipt is kept and the
    item has left the revision it was made at. *)
Definition spent (d : Tables) (used : gset string) (c : Claim) : Prop :=
  sub_item (cl_sub c) ∈ used ∧
  ∀ r, attention_items d !! sub_item (cl_sub c) = Some r →
    is_Some (attention_action_receipts d !! claim_key c)
    ∧ expectedRevision (sub_request (cl_sub c)) < row_revision r.

(** A command is right for the item as it was claimed. *)
Definition well_routed (c : Claim) (command : AttentionInteractionCommand) : Prop :=
  let request := sub_request (cl_sub c) in
  row_user (cl_row c) = sub_user (cl_sub c)
  ∧ row_revision (cl_row c) = expectedRevision request + 1
  ∧ (∃ a, a ∈ allowedActions (row_draft (cl_row c)) ∧ act_id a = actionId request)
  ∧ provider_enabled (cl_row c) = true
  ∧ commandFor (cl_row c) request = Some command
  ∧ (∀ a, actionId request = Answer → answers request = Some a →
       structurallyValidAnswers (Some a) = true ∧ validAnswersForItem (cl_row c) a = true).

(** *** Receipts *)

Lemma alter_is_Some {K A} `{Countable K} (f : A → A) (i j : K) (m : gmap K A) :
  is_Some (m !! j) → is_Some (alter f i m !! j).
Proof.
  destruct (decide (i = j)) as [->|Hn].
  - rewrite lookup_alter_eq. by intros [x ->]; exists (f x).
  - by rewrite lookup_alter_ne.
Qed.

Lemma insert_is_Some_mono {K A} `{Countable K} (x : A) (i j : K) (m : gmap K A) :
  is_Some (m !! j) → is_Some (<[i := x]> m !! j).
Proof. rewrite lookup_insert_is_Some'. auto. Qed.

Lemma maintain_receipts now xs acc c :
  is_Some (attention_action_receipts acc.1 !! c) →
  is_Some (attention_action_receipts (fold_left (maintain_row now) xs acc).1 !! c).
Proof.
  revert acc. induction xs as [|[k r] xs IH]; intros [d ns] H; [done|]. simpl. apply IH. simpl in *.
  repeat case_match; try done. by apply alter_is_Some.
Qed.

Lemma remove_receipts xs acc c :
  is_Some (attention_action_receipts acc.1 !! c) → c.1.2 ∉ xs.*1 →
  is_Some (attention_action_receipts (fold_left remove_row xs acc).1 !! c).
Proof.
  revert acc. induction xs as [|[k r] xs IH]; intros [d ns] [x H] Hc; [by exists x|]. simpl in *.
  apply not_elem_of_cons in Hc as [Hne Hc]. apply IH; [|done]. simpl. exists x.
  by apply map_lookup_filter_Some_2.
Qed.

Lemma removed_items xs acc k :
  k ∈ xs.*1 → attention_items (fold_left remove_row xs acc).1 !! k = None.
Proof.
  revert acc. induction xs as [|[k' r] xs IH]; intros [d ns] Hk; [by apply not_elem_of_nil in Hk|].
  simpl in *. destruct (decide (k ∈ xs.*1)) as [Hin|Hin]; [by apply IH|].
  apply elem_of_cons in Hk as [->|Hk]; [|done].
  rewrite (proj1 (fold_rows_other remove_row (λ _, None) ltac:(by intros [? ?] ? ?)
    ltac:(by intros [? ?] ? ?) xs _ k' Hin)). apply lookup_delete_eq.
Qed.

(** A receipt is lost with its item only. *)
Lemma store_step_receipts jsonb_eq ns d d' c :
  store_step jsonb_eq ns d d' → is_Some (attention_action_receipts d !! c) →
  is_Some (attention_items d' !! c.1.2) → is_Some (attention_action_receipts d' !! c).
Proof.
  intros Hs Hc Hi. destruct Hs.
  - destruct p; simpl; [unfold upsertRequest|unfold resolveRequest]; by repeat case_match.
  - unfold claimAction in *. repeat case_match; simpl; try done. by apply insert_is_Some_mono.
  - unfold restoreSubmission in *. repeat case_match; simpl; try done. by apply insert_is_Some_mono.
  - unfold mutateMetadata in *. by repeat case_match.
  - by apply maintain_receipts.
  - apply remove_receipts; [done|]. intros Hk. unfold remove_old in Hi.
    rewrite removed_items in Hi by done. by destruct Hi.
Qed.

Lemma abs_lookup d k r : attention_items d !! k = Some r → abs_tables d !! k = Some (abs_item r).
Proof. intros H. unfold abs_tables. by rewrite lookup_fmap, H. Qed.

Lemma spent_store jsonb_eq ns d d' used c :
  store_step jsonb_eq ns d d' → fresh_ids used d d' → spent d used c → spent d' used c.
Proof.
  intros Hs Hf [Hu Hc]. split; [done|]. intros r' Hr'.
  destruct (attention_items d !! sub_item (cl_sub c)) as [r|] eqn:Hr.
  - destruct (Hc r eq_refl) as [Hk Hrev]. split.
    + eapply store_step_receipts; [done|done|]. simpl. by rewrite Hr'.
    + apply store_step_inbox in Hs.
      destruct (inbox_step_grows _ _ _ _ _ _ Hs (abs_lookup _ _ _ Hr) (abs_lookup _ _ _ Hr'))
        as (_ & Hle & _). simpl in Hle. lia.
  - destruct (Hf _ Hr); [by rewrite Hr'|done].
Qed.

Lemma spent_used d used used' c : used ⊆ used' → spent d used c → spent d used' c.
Proof. intros Hs [Hu Hc]. split; [set_solver|done]. Qed.

(** *** The claim *)

Lemma claimAction_Claimed now u k key h request d d' r' rid ns :
  claimAction now u k key h request d = (d', Claimed r' rid, ns) →
  ∃ r, select_item d u k = Some r ∧ attention_action_receipts d !! (u, k, key) = None ∧
    provider_enabled r = true ∧ row_revision r = expectedRevision request ∧
    (∃ a, a ∈ allowedActions (row_draft r) ∧ act_id a = actionId request) ∧
    r' = with_life r (submitting_life (row_life r) now key) ∧
    attention_items d' = <[k := r']> (attention_items d) ∧
    is_Some (attention_action_receipts d' !! (u, k, key)).
Proof.
  unfold claimAction. intros H. destruct (select_item d u k) as [r|] eqn:Es; [|done].
  destruct (attention_action_receipts d !! _) eqn:Er; [by repeat case_match|].
  destruct (negb (provider_enabled r)) eqn:Ep; [done|].
  destruct (is_final (row_state r)); [done|]. destruct (bool_decide (row_state r = ASubmitting)); [done|].
  destruct (negb (bool_decide _)); [done|]. destruct (negb (row_revision r =? _)) eqn:Ev; [done|].
  destruct (negb (existsb _ _)) eqn:Ea; [done|]. injection H as <- <- <- <-. exists r.
  apply negb_false_iff in Ep, Ev, Ea. apply existsb_exists in Ea as (a & Ha & Hid). bool_hyps.
  split_and!; try done; [|simpl; by rewrite lookup_insert_eq].
  exists a. split; [by apply list_elem_of_In|done].
Qed.

Lemma submit_claim_inr mode hash now sub d d' ns c :
  submit_claim mode hash now sub d = (d', ns, inr c) →
  cl_sub c = sub ∧
  claimAction now (sub_user sub) (sub_item sub) (sub_key sub) (hash (sub_request sub))
    (sub_request sub) d = (d', Claimed (cl_row c) (cl_receipt c), ns) ∧
  (∀ a, actionId (sub_request sub) = Answer → answers (sub_request sub) = Some a →
     structurallyValidAnswers (Some a) = true).
Proof.
  unfold submit_claim. destruct mode; [done..|].
  destruct (bool_decide _ && _) eqn:Ea; [done|].
  destruct (claimAction _ _ _ _ _ _ _) as [[d1 claim] n1] eqn:Ec. intros [= <- <- Hc].
  destruct claim; simpl in Hc; repeat case_match; try discriminate. injection Hc as <-.
  split_and!; [done|done|]. intros a Hact Ha. rewrite Hact, Ha in Ea.
  rewrite bool_decide_true in Ea by done. simpl in Ea. by apply negb_false_iff in Ea.
Qed.

(** ** The invariant *)

Definition tracked (s : System) : list Claim := sys_claimed s ++ (sys_routed s).*1.

(** What a claim is known to satisfy before its command is built. *)
Definition well_claimed (c : Claim) : Prop :=
  let request := sub_request (cl_sub c) in
  row_user (cl_row c) = sub_user (cl_sub c)
  ∧ row_revision (cl_row c) = expectedRevision request + 1
  ∧ (∃ a, a ∈ allowedActions (row_draft (cl_row c)) ∧ act_id a = actionId request)
  ∧ provider_enabled (cl_row c) = true
  ∧ (∀ a, actionId request = Answer → answers request = Some a →
       structurallyValidAnswers (Some a) = true).

Record sys_inv (s : System) : Prop := {
  inv_used : dom (attention_items (sys_tables s)) ⊆ sys_used s;
  inv_spent c : c ∈ tracked s → spent (sys_tables s) (sys_used s) c;
  inv_keys : NoDup (map claim_key (tracked s));
  inv_revisions : NoDup (map claim_revision (tracked s));
  inv_claimed c : c ∈ sys_claimed s → well_claimed c;
  inv_routed c command : (c, command) ∈ sys_routed s → well_routed c command
}.

Lemma submit_claim_facts mode hash now sub d d' ns c :
  submit_claim mode hash now sub d = (d', ns, inr c) →
  well_claimed c ∧ cl_sub c = sub ∧ dom (attention_items d') = dom (attention_items d) ∧
  attention_action_receipts d !! claim_key c = None ∧
  (∃ r, attention_items d !! sub_item sub = Some r ∧
     row_revision r = expectedRevision (sub_request sub)) ∧
  (∀ used, sub_item sub ∈ used → spent d' used c) ∧
  (∀ jsonb_eq, store_step jsonb_eq ns d d').
Proof.
  intros H. destruct (submit_claim_inr _ _ _ _ _ _ _ _ H) as (Hsub & Hc & Hans).
  pose proof (claimAction_Claimed _ _ _ _ _ _ _ _ _ _ _ Hc)
    as (r & Hsel & Hno & Hp & Hrev & Ha & Hrow & Hitems & Hrec).
  apply select_item_Some in Hsel as [Hr Hu]. rewrite Hrow in Hitems. split_and!.
  - unfold well_claimed. rewrite Hsub, Hrow. split_and!; try done.
    unfold row_revision in *. simpl. lia.
  - done.
  - rewrite Hitems, dom_insert_L. assert (sub_item sub ∈ dom (attention_items d)); [|set_solver].
    by apply elem_of_dom_2 in Hr.
  - unfold claim_key. by rewrite Hsub.
  - by exists r.
  - intros used Hin. split; [by rewrite Hsub|]. unfold claim_key. rewrite Hsub. intros r' Hr'.
    split; [done|]. rewrite Hitems, lookup_insert_eq in Hr'. injection Hr' as <-.
    unfold row_revision in *. simpl. lia.
  - intros jsonb_eq. pose proof (Ss_claim jsonb_eq d now (sub_user sub) (sub_item sub) (sub_key sub)
      (hash (sub_request sub)) (sub_request sub)) as Hs. by rewrite Hc in Hs.
Qed.

Lemma same_dom_fresh used d d' :
  dom (attention_items d') ⊆ dom (attention_items d) → fresh_ids used d d'.
Proof.
  intros Hd k Hn Hs. apply elem_of_dom in Hs. apply not_elem_of_dom in Hn. set_solver.
Qed.

Lemma restore_dom now u k key err d :
  dom (attention_items (restoreSubmission now u k key err d).1) ⊆ dom (attention_items d).
Proof.
  unfold restoreSubmission. destruct (select_item d u k) as [r|] eqn:Es; [|done].
  destruct (attention_action_receipts d !! _); [|done]. destruct (_ && _); [|done]. simpl.
  apply select_item_Some in Es as [Hr _]. apply elem_of_dom_2 in Hr.
  rewrite dom_insert_L. set_solver.
Qed.

(** Changing the tables by a statement keeps every claim spent. *)
Lemma inv_tables jsonb_eq s ns d' used' claimed waiting :
  sys_inv s → store_step jsonb_eq ns (sys_tables s) d' →
  fresh_ids (sys_used s) (sys_tables s) d' →
  sys_used s ⊆ used' → dom (attention_items d') ⊆ used' → claimed `sublist_of` sys_claimed s →
  sys_inv {| sys_tables := d'; sys_used := used'; sys_claimed := claimed; sys_waiting := waiting;
             sys_routed := sys_routed s |}.
Proof.
  intros [Hu Hsp Hk Hr Hc Hro] Hs Hf Hused Hdom Hsub.
  assert (Htr : claimed ++ (sys_routed s).*1 `sublist_of` tracked s).
  { by apply sublist_app. }
  split; simpl; try done.
  - intros c Hin. apply (spent_used _ (sys_used s)); [done|]. eapply (spent_store jsonb_eq ns (sys_tables s)); [done|done|].
    apply Hsp. by eapply elem_of_sublist.
  - eapply sublist_NoDup; [done|]. by apply fmap_sublist.
  - eapply sublist_NoDup; [done|]. by apply fmap_sublist.
  - intros c Hin. apply Hc. by eapply elem_of_sublist.
Qed.

Lemma tracked_move c l1 l2 (l : list Claim) : (l1 ++ c :: l2) ++ l ≡ₚ (l1 ++ l2) ++ c :: l.
Proof. by rewrite <- !Permutation_middle, <- app_comm_cons. Qed.

Lemma after_claim_command c command :
  well_claimed c → after_claim c = inr command → well_routed c command.
Proof.
  intros (Hu & Hr & Ha & Hp & Hans) H. unfold after_claim in H.
  destruct (bool_decide _ && _) eqn:Ev; [done|].
  destruct (commandFor _ _) as [cmd|] eqn:Ec; [|done]. injection H as <-.
  split_and!; try done. intros a Hact Hsome. split; [by apply Hans|].
  rewrite Hact, Hsome, bool_decide_true in Ev by done. simpl in Ev. by apply negb_false_iff in Ev.
Qed.

Lemma inv_route s l1 l2 c command :
  sys_inv s → sys_claimed s = l1 ++ c :: l2 → after_claim c = inr command →
  sys_inv {| sys_tables := sys_tables s; sys_used := sys_used s; sys_claimed := l1 ++ l2;
             sys_waiting := c :: sys_waiting s; sys_routed := (c, command) :: sys_routed s |}.
Proof.
  intros [Hu Hsp Hk Hr Hc Hro] Hcl Haf.
  assert (Hp : tracked s ≡ₚ (l1 ++ l2) ++ c :: (sys_routed s).*1).
  { unfold tracked. rewrite Hcl. apply tracked_move. }
  split; simpl; try done.
  - intros c' Hin. apply Hsp. by rewrite Hp.
  - unfold tracked. simpl. by rewrite <- Hp.
  - unfold tracked. simpl. by rewrite <- Hp.
  - intros c' Hin. apply Hc. rewrite Hcl. set_solver.
  - intros c' cmd [[= -> ->]|Hin]%elem_of_cons; [|by apply Hro].
    apply after_claim_command; [|done]. apply Hc. rewrite Hcl. set_solver.
Qed.

Lemma inv_submit mode hash s now sub d' ns c :
  sys_inv s → submit_claim mode hash now sub (sys_tables s) = (d', ns, inr c) →
  sys_inv {| sys_tables := d'; sys_used := sys_used s; sys_claimed := c :: sys_claimed s;
             sys_waiting := sys_waiting s; sys_routed := sys_routed s |}.
Proof.
  intros Hinv Hc.
  destruct (submit_claim_facts _ _ _ _ _ _ _ _ Hc)
    as (Hwell & Hsub & Hdom & Hno & (r & Hr & Hrev) & Hspent & Hstep).
  pose proof (inv_tables always_equal s ns d' (sys_used s) (sys_claimed s) (sys_waiting s) Hinv
    (Hstep always_equal) (same_dom_fresh _ _ _ ltac:(by rewrite Hdom)) ltac:(done)
    ltac:(rewrite Hdom; apply Hinv) ltac:(done)) as [Hu Hsp Hk Hre Hcl Hro].
  destruct Hinv as [Hu0 Hsp0 _ _ _ _]. simpl in *.
  split; simpl; try done.
  - intros c' [->|Hin]%elem_of_cons; [|by apply Hsp]. apply Hspent. apply Hu0.
    by apply elem_of_dom_2 in Hr.
  - constructor; [|done]. intros (c' & Hke & Hin)%list_elem_of_fmap.
    destruct (Hsp0 c' Hin) as [_ Hs]. injection Hke as E1 E2 E3. rewrite <- E2, Hsub in Hs.
    destruct (Hs r Hr) as [[x Hx] _]. unfold claim_key in Hno. rewrite E1, E2, E3 in Hno.
    unfold claim_key in Hx. congruence.
  - constructor; [|done]. intros (c' & Hke & Hin)%list_elem_of_fmap.
    destruct (Hsp0 c' Hin) as [_ Hs]. injection Hke as E1 E2. rewrite <- E1, Hsub in Hs.
    destruct (Hs r Hr) as [_ Hlt]. rewrite <- E2, Hsub in Hlt. lia.
  - by intros c' [->|Hin]%elem_of_cons; [|apply Hcl].
Qed.

Lemma inv_restore s now c err claimed waiting :
  sys_inv s → claimed `sublist_of` sys_claimed s →
  sys_inv {| sys_tables := (restore_claim now c err (sys_tables s)).1; sys_used := sys_used s;
             sys_claimed := claimed; sys_waiting := waiting; sys_routed := sys_routed s |}.
Proof.
  intros Hinv Hsub. unfold restore_claim.
  eapply (inv_tables always_equal); [done|apply Ss_restore|apply same_dom_fresh, restore_dom|done| |done].
  etrans; [apply restore_dom|apply Hinv].
Qed.

Lemma inv_forget s claimed waiting :
  sys_inv s → claimed `sublist_of` sys_claimed s →
  sys_inv {| sys_tables := sys_tables s; sys_used := sys_used s; sys_claimed := claimed;
             sys_waiting := waiting; sys_routed := sys_routed s |}.
Proof.
  intros [Hu Hsp Hk Hr Hc Hro] Hsub.
  assert (Htr : claimed ++ (sys_routed s).*1 `sublist_of` tracked s) by by apply sublist_app.
  split; simpl; try done.
  - intros c Hin. apply Hsp. by eapply elem_of_sublist.
  - eapply sublist_NoDup; [done|]. by apply fmap_sublist.
  - eapply sublist_NoDup; [done|]. by apply fmap_sublist.
  - intros c Hin. apply Hc. by eapply elem_of_sublist.
Qed.

Lemma drop_middle {A} (l1 l2 : list A) x : l1 ++ l2 `sublist_of` l1 ++ x :: l2.
Proof. apply sublist_app; [done|]. by constructor. Qed.

Lemma sys_step_inv jsonb_eq mode hash s s' :
  sys_step jsonb_eq mode hash s s' → sys_inv s → sys_inv s'.
Proof.
  intros Hs Hinv. destruct Hs.
  - eapply (inv_tables jsonb_eq); [done|done|done|set_solver|set_solver|done].
  - by eapply inv_submit.
  - apply inv_restore; [done|]. rewrite H. apply drop_middle.
  - by apply inv_route.
  - destruct (after_route routed); [by apply inv_restore|by apply inv_forget].
  - by apply inv_forget.
Qed.

Lemma initial_system_inv : sys_inv initial_system.
Proof.
  split; simpl; [set_solver|by intros c ?%not_elem_of_nil|constructor|constructor
    |by intros c ?%not_elem_of_nil|by intros c command ?%not_elem_of_nil].
Qed.

Lemma sys_reachable_inv jsonb_eq mode hash s :
  rtc (sys_step jsonb_eq mode hash) initial_system s → sys_inv s.
Proof.
  intros H. assert (Hinv := initial_system_inv). revert Hinv.
  induction H as [|s1 s2 s3 Hs _ IH]; [done|]. intros Hinv. by apply IH, (sys_step_inv _ _ _ _ _ Hs).
Qed.

(** C11: however submissions, projections, maintenance, router failures and
    crashes interleave, the router is given at most one command for one
    idempotency key of a user's item and at most one for one revision of an
    item; and each command is one its item allowed at that revision to its
    owner, of an enabled provider, with answers that fit the questions. *)
Theorem routed_at_most_once jsonb_eq mode hash s :
  rtc (sys_step jsonb_eq mode hash) initial_system s →
  NoDup (map (λ x, claim_key x.1) (sys_routed s)) ∧
  NoDup (map (λ x, claim_revision x.1) (sys_routed s)) ∧
  ∀ c command, (c, command) ∈ sys_routed s → well_routed c command.
Proof.
  intros [_ _ Hk Hr _ Hro]%sys_reachable_inv. unfold tracked in *. rewrite map_app in Hk, Hr.
  apply NoDup_app in Hk as (_ & _ & Hk), Hr as (_ & _ & Hr).
  rewrite map_map in Hk, Hr. by split_and!.
Qed.

Definition sample_submission : Submission :=
  {| sub_user := 7; sub_item := "i"; sub_key := "k"; sub_request := sample_request |}.

Definition sample_hash (_ : AttentionActionRequest) : string := "h"%string.

Definition sample_routed : System :=
  let s1 := with_tables initial_system sample_open.1 in
  let '(d, _, r) := submit_claim MOn sample_hash 20 sample_submission sample_open.1 in
  match r with
  | inr c => {| sys_tables := d; sys_used := sys_used s1; sys_claimed := []; sys_waiting := [c];
      sys_routed := match after_claim c with inr command => [(c, command)] | inl _ => [] end |}
  | inl _ => s1
  end.

Lemma sample_routed_reachable :
  rtc (sys_step always_equal MOn sample_hash) initial_system sample_routed.
Proof.
  eapply rtc_l; [apply (Sys_store always_equal MOn sample_hash initial_system sample_open.2 sample_open.1)|].
  - apply (Ss_project always_equal empty_tables 10 "i" sample_projection). done.
  - intros k _ _. set_solver.
  - unfold sample_routed.
    destruct (submit_claim MOn sample_hash 20 sample_submission sample_open.1) as [[d ns] r] eqn:E.
    destruct r as [res|c]; [vm_compute in E; discriminate|].
    eapply rtc_l; [by eapply Sys_submit|].
    destruct (after_claim c) as [err|command] eqn:Ea.
    + exfalso. vm_compute in E. injection E as <- <- <-. vm_compute in Ea. discriminate.
    + apply rtc_once. simpl.
      exact (Sys_route always_equal MOn sample_hash {| sys_tables := d;
        sys_used := sys_used (with_tables initial_system sample_open.1); sys_claimed := [c];
        sys_waiting := []; sys_routed := [] |} [] [] c command eq_refl Ea).
Qed.

Lemma routed_at_most_once_witness :
  len (sys_routed sample_routed) = 1 ∧ NoDup (map (λ x, claim_key x.1) (sys_routed sample_routed)).
Proof.
  split; [by vm_compute|]. by apply (routed_at_most_once _ _ _ _ sample_routed_reachable).
Defined.
