(* ===== verification/AttentionList.v ===== *)
(** * AttentionList: reading the inbox page by page
    (relay/src/attention-inbox/repository.ts, [listItems] and [getItem]).

    A page is the rows after the cursor in the order of the query; the cursor
    names the last row.  [date_of] is the conversion of the driver from a
    timestamp in microseconds to a JavaScript [Date] in milliseconds; the
    cursor keeps [toISOString()] of it.

    The theorem says which rows a client that follows the cursors reads: all
    but those that follow the last row of a page within its millisecond. *)

From S2P Require Import Prelude JsValue AttentionInbox AttentionStore.

#[local] Open Scope Z_scope.

Abbreviation Row := (string * ItemRow)%type.

Definition state_rank (st : AttentionItemState) : Z :=
  match st with
  | AOpen | AResultUnknown => 0
  | ASubmitting => 1
  | ASnoozed => 2
  | AResolved | AExpired => 3
  end.

Definition risk_rank (level : string) : Z :=
  if bool_decide (level = "critical"%string) then 0
  else if bool_decide (level = "high"%string) then 1
  else if bool_decide (level = "medium"%string) then 2 else 3.

Definition row_rank (x : Row) : Z := state_rank (row_state x.2).
Definition row_risk (x : Row) : Z := risk_rank (it_riskLevel (row_draft x.2)).
Definition row_updated (x : Row) : Z := lc_updated_at (row_life x.2).

(** [ORDER BY state_rank ASC, risk_rank ASC, updated_at DESC, item_id DESC]. *)
Definition list_le (x y : Row) : Prop :=
  row_rank x < row_rank y ∨
  row_rank x = row_rank y ∧
    (row_risk x < row_risk y ∨
     row_risk x = row_risk y ∧
       (row_updated y < row_updated x ∨
        row_updated x = row_updated y ∧ String.le y.1 x.1)).

#[global] Instance list_le_dec x y : Decision (list_le x y).
Proof. unfold list_le. apply _. Defined.

Record ListCursor : Type := {
  cur_state : Z;
  cur_risk : Z;
  cur_updated : Z; (* milliseconds *)
  cur_item : string
}.

(** The clause of the query; [$7::timestamptz] is the cursor's time in
    microseconds. *)
Definition past_cursor (c : ListCursor) (x : Row) : bool :=
  let t := cur_updated c * 1000 in
  (cur_state c <? row_rank x)
  || ((row_rank x =? cur_state c) && (cur_risk c <? row_risk x))
  || ((row_rank x =? cur_state c) && (row_risk x =? cur_risk c) && (row_updated x <? t))
  || ((row_rank x =? cur_state c) && (row_risk x =? cur_risk c) && (row_updated x =? t)
      && negb (bool_decide (String.le (cur_item c) x.1))).

Record ListInput : Type := {
  li_user : Z;
  li_daemon : option string;
  li_states : list AttentionItemState;
  li_limit : nat
}.

Record Counts : Type := {
  ct_actionable : Z; ct_open : Z; ct_snoozed : Z; ct_submitting : Z; ct_unknown : Z
}.

Record ListPage : Type := {
  pg_items : list Row; pg_counts : Counts; pg_next : option ListCursor
}.

Definition of_user (u : Z) (daemon : option string) (r : ItemRow) : bool :=
  (row_user r =? u)
  && match daemon with Some k => bool_decide (it_daemonId (row_draft r) = k) | None => true end.

Definition matches (i : ListInput) (x : Row) : bool :=
  of_user (li_user i) (li_daemon i) x.2 && bool_decide (row_state x.2 ∈ li_states i).

Definition count_if (p : ItemRow → bool) (l : list Row) : Z := len (bfilter (λ x, p x.2) l).

Definition counts (u : Z) (daemon : option string) (d : Tables) : Counts :=
  let l := bfilter (λ x, of_user u daemon x.2) (map_to_list (attention_items d)) in
  let state st r := bool_decide (row_state r = st) in {|
  ct_actionable := count_if (λ r, (state AOpen r || state AResultUnknown r)
                                  && (0 <? len (allowedActions (row_draft r)))) l;
  ct_open := count_if (state AOpen) l;
  ct_snoozed := count_if (state ASnoozed) l;
  ct_submitting := count_if (state ASubmitting) l;
  ct_unknown := count_if (state AResultUnknown) l |}.

Section list.
Context (date_of : Z → Z) (owned : string → Z → bool).

Definition cursor_of (x : Row) : ListCursor := {|
  cur_state := row_rank x; cur_risk := row_risk x; cur_updated := date_of (row_updated x);
  cur_item := x.1 |}.

Definition cursor_filter (cursor : option ListCursor) : Row → bool :=
  match cursor with Some c => past_cursor c | None => λ _, true end.

(** The ranked rows of the query, before [LIMIT]. *)
Definition ranked (i : ListInput) (cursor : option ListCursor) (d : Tables) : list Row :=
  merge_sort list_le
    (bfilter (cursor_filter cursor) (bfilter (matches i) (map_to_list (attention_items d)))).

(** The error [daemon_not_found] is [None]. *)
Definition listItems (i : ListInput) (cursor : option ListCursor) (d : Tables) : option ListPage :=
  if match li_daemon i with Some k => negb (owned k (li_user i)) | None => false end then None
  else
    let rows := take (S (li_limit i)) (ranked i cursor d) in
    let hasMore := bool_decide (li_limit i < length rows)%nat in
    let pageRows := take (li_limit i) rows in
    Some {|
      pg_items := pageRows;
      pg_counts := counts (li_user i) (li_daemon i) d;
      pg_next := if hasMore then cursor_of <$> last pageRows else None |}.

(** The rows a client sees that follows the cursors. *)
Fixpoint follow (fuel : nat) (i : ListInput) (cursor : option ListCursor) (d : Tables) : list Row :=
  match fuel with
  | O => []
  | S fuel' =>
      match listItems i cursor d with
      | None => []
      | Some page =>
          match pg_next page with
          | None => pg_items page
          | Some c => pg_items page ++ follow fuel' i (Some c) d
          end
      end
  end.

(** The rows the cursors on the way are made of. *)
Fixpoint page_ends (fuel : nat) (i : ListInput) (cursor : option ListCursor) (d : Tables) : list Row :=
  match fuel with
  | O => []
  | S fuel' =>
      match listItems i cursor d with
      | None => []
      | Some page =>
          match pg_next page, last (pg_items page) with
          | Some c, Some x => x :: page_ends fuel' i (Some c) d
          | _, _ => []
          end
      end
  end.
End list.

Definition getItem (userId : Z) (itemId : string) (revision : option Z) (d : Tables)
  : option ItemRow :=
  match select_item d userId itemId with
  | Some r =>
      match revision with
      | Some v => if v <=? row_revision r then Some r else None
      | None => Some r
      end
  | None => None
  end.

(** ** The order *)

#[global] Instance list_le_trans : Transitive list_le.
Proof.
  intros x y z H1 H2. unfold list_le in *.
  assert (String.le z.1 y.1 → String.le y.1 x.1 → String.le z.1 x.1) by (intros; by etrans).
  intuition (try lia).
Qed.

#[global] Instance list_le_total : Total list_le.
Proof.
  intros x y. unfold list_le. destruct (total String.le x.1 y.1);
    destruct (Z.lt_trichotomy (row_rank x) (row_rank y)) as [?|[?|?]]; try tauto;
    destruct (Z.lt_trichotomy (row_risk x) (row_risk y)) as [?|[?|?]]; try (intuition lia);
    destruct (Z.lt_trichotomy (row_updated x) (row_updated y)) as [?|[?|?]]; intuition lia.
Qed.

Lemma list_le_id x y : list_le x y → list_le y x → x.1 = y.1.
Proof.
  unfold list_le. intros H1 H2.
  assert (String.le x.1 y.1 → String.le y.1 x.1 → x.1 = y.1) by (apply (anti_symm String.le)).
  intuition lia.
Qed.

(** ** Following the cursors *)

(** In the order of the query [y] follows [x], in the same ranks and not before
    the time that the cursor of [x] keeps. *)
Definition skipped (date_of : Z → Z) (x y : Row) : Prop :=
  let t := date_of (row_updated x) * 1000 in
  x ≠ y ∧ list_le x y ∧ row_rank y = row_rank x ∧ row_risk y = row_risk x ∧
  t ≤ row_updated y ∧ (row_updated y = t → String.le x.1 y.1).

(** The rows of a page come before the rest of the list, and are not in it. *)
Lemma page_split p x tail :
  strict_rows list_le (p ++ x :: tail) → StronglySorted list_le (p ++ x :: tail) → NoDup (p ++ x :: tail) →
  (∀ y, y ∈ p ++ [x] → ∀ z, z ∈ tail → list_le z y → z = y) ∧ (∀ z, z ∈ tail → z ∉ p ++ [x]) ∧
  (∀ z, z ∈ tail → list_le x z) ∧ (∀ y, y ∈ p ++ [x] → list_le x y → x = y).
Proof.
  intros Hu Hs Hd. rewrite (app_assoc p [x] tail : p ++ x :: tail = (p ++ [x]) ++ tail) in *.
  apply StronglySorted_app in Hs as (Hall & Hp & Ht). apply NoDup_app in Hd as (Hd1 & Hd2 & _).
  apply StronglySorted_app in Hp as (Hlast & _ & _). split_and!.
  - intros y Hy z Hz Hle. apply Hu; [set_solver|set_solver|done|by apply Hall].
  - intros z Hz Hin. by apply (Hd2 z).
  - intros z Hz. apply Hall; [set_solver|done].
  - intros y [Hy| ->%list_elem_of_singleton]%elem_of_app Hle; [|done].
    apply Hu; [set_solver|set_solver|done|]. apply Hlast; [done|by left].
Qed.

Section complete.
Context (date_of : Z → Z) (owned : string → Z → bool) (i : ListInput) (d : Tables).

(** The milliseconds of a timestamp are not past it. *)
Hypothesis date_floor : ∀ t, date_of t * 1000 ≤ t.

Abbreviation M := (bfilter (matches i) (map_to_list (attention_items d))).
Abbreviation L := (merge_sort list_le M).
Abbreviation past x := (past_cursor (cursor_of date_of x)).

Lemma rows_nodup : NoDup L.
Proof.
  rewrite merge_sort_Permutation. eapply sublist_NoDup; [apply NoDup_map_to_list|apply bfilter_sublist].
Qed.

Lemma rows_strict : strict_rows list_le M.
Proof.
  intros [k r] [k' r'] [_ Hx]%elem_of_bfilter [_ Hy]%elem_of_bfilter H1 H2.
  pose proof (list_le_id _ _ H1 H2) as Hk. simpl in Hk. subst k'.
  apply elem_of_map_to_list in Hx, Hy. congruence.
Qed.

Lemma ranked_filter cursor : ranked i cursor d = bfilter (cursor_filter cursor) L.
Proof. unfold ranked. by rewrite sort_filter by (try apply _; apply rows_strict). Qed.

Lemma ranked_first : ranked i None d = L.
Proof. rewrite ranked_filter. by apply bfilter_true. Qed.

Lemma ranked_nodup cursor : NoDup (ranked i cursor d).
Proof. rewrite ranked_filter. eapply sublist_NoDup; [apply rows_nodup|apply bfilter_sublist]. Qed.

Lemma ranked_sorted cursor : StronglySorted list_le (ranked i cursor d).
Proof. by apply StronglySorted_merge_sort; try apply _. Qed.

Lemma elem_of_ranked cursor x : x ∈ ranked i cursor d ↔ cursor_filter cursor x = true ∧ x ∈ M.
Proof. unfold ranked. by rewrite merge_sort_Permutation, elem_of_bfilter. Qed.

(** What lies past the cursor of a row follows the row. *)
Lemma past_after x y : past x y = true → ¬ list_le y x.
Proof using date_floor.
  pose proof (date_floor (row_updated x)) as Hd. unfold past_cursor, list_le. simpl.
  rewrite !orb_true_iff, !andb_true_iff, negb_true_iff, bool_decide_eq_false, !Z.ltb_lt, !Z.eqb_eq.
  intros H. destruct (decide (String.le x.1 y.1)) as [HP|HP].
  - assert (String.le x.1 y.1 ↔ True) as E by tauto. rewrite E in *. lia.
  - assert (String.le x.1 y.1 ↔ False) as E by tauto. rewrite E in *. lia.
Qed.

(** What follows the row and is not past its cursor is skipped. *)
Lemma skipped_iff x y : x ≠ y → list_le x y → skipped date_of x y ↔ past x y = false.
Proof using date_floor.
  pose proof (date_floor (row_updated x)) as Hd. intros Hne Hle.
  rewrite <- not_true_iff_false. unfold skipped, past_cursor. simpl.
  rewrite !orb_true_iff, !andb_true_iff, negb_true_iff, bool_decide_eq_false, !Z.ltb_lt, !Z.eqb_eq.
  split.
  - intros (_ & _ & H1 & H2 & H3 & H4). intuition lia.
  - intros H. split; [done|]. split; [done|]. unfold list_le in Hle.
    destruct (decide (String.le x.1 y.1)) as [HP|HP].
    + split_and!; [lia..|done].
    + assert (row_rank y = row_rank x) by lia. assert (row_risk y = row_risk x) by lia.
      split_and!; [done|done|lia|]. intros Ht. destruct H. by right.
Qed.

(** A cursor further on passes fewer rows. *)
Lemma past_trans cursor x y :
  cursor_filter cursor x = true → past x y = true → cursor_filter cursor y = true.
Proof using date_floor.
  destruct cursor as [c|]; [|done]. pose proof (date_floor (row_updated x)) as Hd.
  unfold cursor_filter, past_cursor. simpl.
  rewrite !orb_true_iff, !andb_true_iff, !negb_true_iff, !bool_decide_eq_false, !Z.ltb_lt, !Z.eqb_eq.
  assert (¬ String.le (cur_item c) x.1 → ¬ String.le x.1 y.1 → ¬ String.le (cur_item c) y.1) as Hs.
  { intros H1 H2 H3. destruct (total String.le x.1 y.1) as [?|H4]; [done|]. apply H1. by etrans. }
  destruct (decide (String.le (cur_item c) y.1)) as [H|H].
  - assert (String.le (cur_item c) x.1 ∨ String.le x.1 y.1) as [Hx|Hx].
    { destruct (decide (String.le (cur_item c) x.1)); [by left|]. right. by apply dec_stable; intros ?; apply Hs. }
    + intuition lia.
    + intuition lia.
  - assert (String.le (cur_item c) y.1 ↔ False) as -> by tauto. intuition lia.
Qed.

Hypothesis owned_daemon : match li_daemon i with Some k => owned k (li_user i) = true | None => True end.

Lemma listItems_page cursor :
  listItems date_of owned i cursor d = Some {|
    pg_items := take (li_limit i) (ranked i cursor d);
    pg_counts := counts (li_user i) (li_daemon i) d;
    pg_next := if bool_decide (li_limit i < length (ranked i cursor d))%nat
               then cursor_of date_of <$> last (take (li_limit i) (ranked i cursor d)) else None |}.
Proof using owned_daemon.
  unfold listItems. destruct (li_daemon i) as [k|]; [rewrite owned_daemon|]; simpl;
    rewrite take_take, Nat.min_l by lia; do 2 f_equal;
    rewrite (bool_decide_ext _ (li_limit i < length (ranked i cursor d))%nat); try done;
    rewrite length_take; lia.
Qed.

Hypothesis limit_pos : (0 < li_limit i)%nat.

Abbreviation read fuel cursor := (follow date_of owned fuel i cursor d).
Abbreviation ends fuel cursor := (page_ends date_of owned fuel i cursor d).

(** One page: it is the last one, or its last row names the next. *)
Lemma follow_page fuel cursor :
  let rest := ranked i cursor d in
  (length rest ≤ li_limit i)%nat ∧ read (S fuel) cursor = rest ∧ ends (S fuel) cursor = [] ∨
  ∃ p x tail, rest = p ++ x :: tail ∧
    read (S fuel) cursor = (p ++ [x]) ++ read fuel (Some (cursor_of date_of x)) ∧
    ends (S fuel) cursor = x :: ends fuel (Some (cursor_of date_of x)).
Proof using owned_daemon limit_pos.
  intros rest. simpl. rewrite listItems_page. simpl. fold rest. case_bool_decide as Hm.
  - right. destruct (last (take (li_limit i) rest)) as [x|] eqn:Hlast.
    + pose proof Hlast as Hl. apply last_Some in Hlast as [p Hp]. exists p, x, (drop (li_limit i) rest).
      split; [|by rewrite <- Hp]. transitivity (take (li_limit i) rest ++ drop (li_limit i) rest).
      * by rewrite take_drop.
      * rewrite Hp, <- app_assoc. done.
    + apply last_None in Hlast. rewrite <- (length_zero_iff_nil (take _ _)), length_take in Hlast. lia.
  - left. split_and!; [lia|apply take_ge; lia|done].
Qed.

(** The next query reads what is past the cursor among the rows that follow. *)
Lemma next_rows cursor p x tail :
  ranked i cursor d = p ++ x :: tail → ranked i (Some (cursor_of date_of x)) d = bfilter (past x) tail.
Proof using date_floor owned_daemon limit_pos.
  intros Hr. pose proof (ranked_sorted cursor) as Hs. rewrite Hr in Hs.
  assert (Hx : cursor_filter cursor x = true).
  { assert (x ∈ ranked i cursor d) as Hin by (rewrite Hr; set_solver). by apply elem_of_ranked in Hin as [? _]. }
  rewrite ranked_filter. rewrite (bfilter_narrow (cursor_filter cursor) (past x)).
  - rewrite <- ranked_filter, Hr, bfilter_app. simpl.
    apply StronglySorted_app in Hs as (Hp & _ & _). rewrite (bfilter_false (past x) p); simpl.
    + destruct (past x x) eqn:E; [|done]. apply past_after in E. destruct E. by destruct (total list_le x x).
    + intros y Hy. destruct (past x y) eqn:E; [|done]. apply past_after in E. destruct E. by apply Hp; [|left].
  - intros y. simpl. destruct (past x y) eqn:E; [|by rewrite andb_false_r].
    by rewrite (past_trans cursor x y Hx E).
Qed.

Lemma ranked_strict cursor : strict_rows list_le (ranked i cursor d).
Proof.
  intros x y [_ Hx]%elem_of_ranked [_ Hy]%elem_of_ranked. by apply rows_strict.
Qed.

Lemma follow_rows fuel : ∀ cursor, (length (ranked i cursor d) < fuel)%nat →
  read fuel cursor `sublist_of` ranked i cursor d ∧
  (∀ x, x ∈ ends fuel cursor → x ∈ ranked i cursor d) ∧
  (∀ y, y ∈ ranked i cursor d →
     y ∈ read fuel cursor ↔ ¬ ∃ x, x ∈ ends fuel cursor ∧ skipped date_of x y).
Proof using date_floor owned_daemon limit_pos.
  induction fuel as [|fuel IH]; intros cursor Hf; [lia|].
  destruct (follow_page fuel cursor) as [(_ & -> & ->)|(p & x & tail & Hr & -> & ->)].
  { split_and!; [done|by intros x ?%elem_of_nil|]. intros y Hy. split; [|done].
    intros _ (x & Hx & _). by apply elem_of_nil in Hx. }
  pose proof (next_rows _ _ _ _ Hr) as Hn. pose proof (ranked_sorted cursor) as Hs.
  pose proof (ranked_nodup cursor) as Hd. rewrite Hr in Hf, Hs, Hd |- *.
  rewrite length_app in Hf. simpl in Hf.
  destruct (IH (Some (cursor_of date_of x))) as (H1 & H2 & H3).
  { rewrite Hn. pose proof (bfilter_length (past x) tail). lia. }
  rewrite Hn in H1, H2, H3. clear IH.
  pose proof (ranked_strict cursor) as Hu. rewrite Hr in Hu. destruct (page_split p x tail Hu Hs Hd) as (Hfar & Hnew & Htail & Hback).
  split_and!.
  - rewrite (app_assoc p [x] tail : p ++ x :: tail = (p ++ [x]) ++ tail).
    apply sublist_app; [done|]. etrans; [exact H1|apply bfilter_sublist].
  - intros z [->|Hz]%elem_of_cons; [set_solver|]. apply H2, elem_of_bfilter in Hz as [_ Hz]. set_solver.
  - intros y Hy. assert (y ∈ p ++ [x] ∨ y ∈ tail) as [Hin|Hin] by set_solver.
    + split; [|by rewrite elem_of_app; left]. intros _ (z & Hz & Hne & Hle & _).
      apply elem_of_cons in Hz as [->|Hz]; [by apply Hne, Hback|].
      apply H2, elem_of_bfilter in Hz as [_ Hz]. destruct (Hnew z Hz). by rewrite (Hfar y Hin z Hz Hle).
    + assert (Hskip : skipped date_of x y ↔ past x y = false).
      { apply skipped_iff; [|by apply Htail]. intros ->. destruct (Hnew y Hin). set_solver. }
      destruct (past x y) eqn:Ep.
      * assert (Hy' : y ∈ bfilter (past x) tail) by (by apply elem_of_bfilter). rewrite elem_of_app.
        rewrite (H3 y Hy'). split.
        -- intros [?|Hno]; [by destruct (Hnew y Hin)|]. intros (z & [->|Hz]%elem_of_cons & Hz'); [|eauto].
           by apply Hskip in Hz'.
        -- intros Hno. right. intros (z & Hz & Hz'). apply Hno. exists z. split; [by right|done].
      * split; [|intros Hno; destruct Hno; exists x; split; [by left|by apply Hskip]].
        intros [?|Hz]%elem_of_app; [by destruct (Hnew y Hin)|]. intros _.
        pose proof (elem_of_sublist _ _ _ Hz H1) as Hc. apply elem_of_bfilter in Hc as [Hc _]. congruence.
Qed.
End complete.

(** C34: a client follows the cursors of an unchanged inbox, with any positive
    page size.  What it reads is in the order of the query, no row twice; and a
    matching row is left out exactly when it follows the last row of a page
    that was read, in the same ranks, and is not earlier than that row's time cut to
    milliseconds (where they are the same, the row's name not smaller). *)
Theorem list_reads_exactly date_of owned i d :
  (∀ t, date_of t * 1000 ≤ t) →
  match li_daemon i with Some k => owned k (li_user i) = true | None => True end →
  (0 < li_limit i)%nat →
  let rows := bfilter (matches i) (map_to_list (attention_items d)) in
  let fuel := S (length rows) in
  let read := follow date_of owned fuel i None d in
  let ends := page_ends date_of owned fuel i None d in
  read `sublist_of` merge_sort list_le rows ∧ NoDup read ∧
  (∀ y, y ∈ rows → y ∈ read ↔ ¬ ∃ x, x ∈ ends ∧ skipped date_of x y).
Proof.
  intros Hd Ho Hl rows fuel read ends.
  destruct (follow_rows date_of owned i d Hd Ho Hl fuel None) as (H1 & _ & H3).
  { rewrite ranked_first, merge_sort_Permutation. unfold fuel, rows. lia. }
  rewrite ranked_first in H1, H3. split_and!; [done| |].
  - eapply sublist_NoDup; [apply rows_nodup|exact H1].
  - intros y Hy. apply H3. by rewrite merge_sort_Permutation.
Qed.

(** *** Two approvals projected by one transaction, and at whole milliseconds *)

Definition approval_event (request : string) : AttentionEventRow := {|
  eventId := 5; eventType := "approval_request"; sessionId := "s";
  payload := JObj [("request_id", JStr request); ("available_decisions", JArr [JStr "accept"])]%string;
  userId := Some 7; daemonId := Some "d"%string; provider := Some "codex"%string;
  controlMode := None; capabilities := []; sessionTitle := None; createdAt := 0 |}.

Definition project_approval (now : Z) (uuid request : string) (d : Tables) : Tables :=
  match projectAttentionEvent "?" (approval_event request) with
  | Some p => (applyProjection (λ _ _, true) now uuid p d).1
  | None => d
  end.

Definition two_items (t1 t2 : Z) : Tables :=
  project_approval t2 "b" "r2" (project_approval t1 "a" "r1" empty_tables).

Definition open_items (limit : nat) : ListInput := {|
  li_user := 7; li_daemon := None; li_states := [AOpen]; li_limit := limit |}.

Definition to_ms (t : Z) : Z := t / 1000.

Definition no_daemons (_ : string) (_ : Z) : bool := false.

Definition row_of (d : Tables) (k : string) : option Row :=
  r ← attention_items d !! k; Some (k, r).

(** Both rows are read where their times are whole milliseconds; at [5000900]
    the second one lies in the millisecond of the first and is skipped. *)
Lemma list_reads_exactly_witness :
  let d := two_items 5000900 5000900 in
  let rows := bfilter (matches (open_items 1)) (map_to_list (attention_items d)) in
  map fst (follow to_ms no_daemons 3 (open_items 1) None (two_items 5000000 6000000)) = ["b"; "a"]%string ∧
  map fst (follow to_ms no_daemons 3 (open_items 1) None d) = ["b"]%string ∧
  map fst (page_ends to_ms no_daemons 3 (open_items 1) None d) = ["b"]%string ∧ length rows = 2%nat ∧
  ∀ y, y ∈ rows → y ∈ follow to_ms no_daemons 3 (open_items 1) None d ↔
    ¬ ∃ x, x ∈ page_ends to_ms no_daemons 3 (open_items 1) None d ∧ skipped to_ms x y.
Proof.
  intros d rows. split; [by vm_compute|]. split; [by vm_compute|]. split; [by vm_compute|].
  split; [by vm_compute|].
  apply (list_reads_exactly to_ms no_daemons (open_items 1) d).
  - intros t. unfold to_ms. Z.to_euclidean_division_equations. lia.
  - exact I.
  - simpl. lia.
Defined.
