(* ===== verification/StrictJson.v ===== *)
(** * StrictJson: reading JSON
    (memory/src/git-sync/strict-json.ts, and the built-in [JSON.parse]).

    The parser is a function of the text that is left: the source's [offset] is
    the position where it begins.  [Rules] are what distinguishes the strict
    parser from [JSON.parse], which shares the grammar.  Numbers are rounded to
    doubles as [Number] does; one that is not integral keeps its text.  An
    object keeps its fields in the order of the text.

    Strings are in the alphabet of JsValue; a text with other characters ends in
    [OutsideAlphabet], which stands for no behaviour of the source. *)

From Stdlib Require Import Ascii.
From S2P Require Import Prelude JsValue.

#[local] Open Scope Z_scope.

Inductive JsonError : Type :=
| InvalidJson | InvalidUnicode | DocumentTooDeep | DuplicateJsonKey | InvalidNumber
| FileTooLarge | BomNotAllowed | InvalidUtf8 | InvalidJsonValue | OutsideAlphabet | OutOfFuel.

#[global] Instance JsonError_eq : EqDecision JsonError.
Proof. solve_decision. Defined.

Abbreviation res A := (JsonError + A)%type.

Definition bind_res {A B} (m : res A) (f : A → res B) : res B :=
  match m with inl e => inl e | inr x => f x end.

Declare Scope json_scope.
Notation "'let!' x := m 'in' f" := (bind_res m (λ x, f))
  (at level 200, x pattern, m at level 100, f at level 200) : json_scope.
#[local] Open Scope json_scope.

(** ** UTF-8 *)

Definition is_cont (c : ascii) : bool := (128 <=? code c) && (code c <? 192).
Definition between (lo hi : Z) (c : ascii) : bool := (lo <=? code c) && (code c <=? hi).

(** The code points of well-formed UTF-8 ([TextDecoder] with [fatal]). *)
Fixpoint utf8_points (s : string) : option (list Z) :=
  match s with
  | EmptyString => Some []
  | String a s1 =>
      if code a <? 128 then cons (code a) <$> utf8_points s1
      else
        match s1 with
        | String b s2 =>
            if between 194 223 a && is_cont b then
              cons ((code a - 192) * 64 + (code b - 128)) <$> utf8_points s2
            else
              match s2 with
              | String c s3 =>
                  if between 224 239 a && is_cont b && is_cont c
                     && negb ((code a =? 224) && (code b <? 160))
                     && negb ((code a =? 237) && (160 <=? code b)) then
                    cons ((code a - 224) * 4096 + (code b - 128) * 64 + (code c - 128))
                      <$> utf8_points s3
                  else
                    match s3 with
                    | String d s4 =>
                        if between 240 244 a && is_cont b && is_cont c && is_cont d
                           && negb ((code a =? 240) && (code b <? 144))
                           && negb ((code a =? 244) && (144 <=? code b)) then
                          cons ((code a - 240) * 262144 + (code b - 128) * 4096
                                + (code c - 128) * 64 + (code d - 128)) <$> utf8_points s4
                        else None
                    | EmptyString => None
                    end
              | EmptyString => None
              end
        | EmptyString => None
        end
  end.

Definition char_of (k : Z) : ascii := ascii_of_N (Z.to_N k).

(** The text of code units in the alphabet. *)
Fixpoint text_of (units : list Z) : option string :=
  match units with
  | [] => Some EmptyString
  | u :: us => if u <? 256 then String (char_of u) <$> text_of us else None
  end.

Fixpoint utf8_encode (s : string) : string :=
  match s with
  | EmptyString => EmptyString
  | String c s' =>
      if code c <? 128 then String c (utf8_encode s')
      else String (char_of (192 + code c / 64)) (String (char_of (128 + code c mod 64)) (utf8_encode s'))
  end.

(** [GIT_INPUT_LIMITS]. *)
Definition maxFileBytes : Z := 256 * 1024.
Definition maxDepth : nat := 32.

Definition has_bom (bytes : string) : bool :=
  match bytes with
  | String a (String b (String c _)) => (code a =? 239) && (code b =? 187) && (code c =? 191)
  | _ => false
  end.

Definition decodeUtf8 (bytes : string) : res string :=
  if maxFileBytes <? str_len bytes then inl FileTooLarge
  else if has_bom bytes then inl BomNotAllowed
  else
    match utf8_points bytes with
    | None => inl InvalidUtf8
    | Some points => match text_of points with Some t => inr t | None => inl OutsideAlphabet end
    end.

(** ** Strings *)

Definition quote : ascii := ascii_of_nat 34.
Definition backslash : ascii := ascii_of_nat 92.

Fixpoint whitespace (s : string) : string :=
  match s with
  | String c s' =>
      if (code c =? 32) || (code c =? 9) || (code c =? 13) || (code c =? 10) then whitespace s' else s
  | EmptyString => EmptyString
  end.

(** The token up to its closing quote, without it, and what follows. *)
Fixpoint scan_string (s : string) : res (string * string) :=
  match s with
  | EmptyString => inl InvalidJson
  | String c s' =>
      if Ascii.eqb c quote then inr (EmptyString, s')
      else if code c <? 32 then inl InvalidJson
      else if Ascii.eqb c backslash then
        match s' with
        | EmptyString => inl InvalidJson
        | String e s'' => let! (body, rest) := scan_string s'' in inr (String c (String e body), rest)
        end
      else let! (body, rest) := scan_string s' in inr (String c body, rest)
  end.

Definition hex_value (c : ascii) : option Z := digit_of_radix 16 c.

Definition escape_unit (c : ascii) : option Z :=
  let k := code c in
  if (k =? 34) || (k =? 92) || (k =? 47) then Some k
  else if k =? 98 then Some 8 else if k =? 102 then Some 12 else if k =? 110 then Some 10
  else if k =? 114 then Some 13 else if k =? 116 then Some 9 else None.

(** [JSON.parse] of one string token: its code units. *)
Fixpoint unescape (s : string) : option (list Z) :=
  match s with
  | EmptyString => Some []
  | String c s' =>
      if (code c <? 32) || Ascii.eqb c quote then None
      else if Ascii.eqb c backslash then
        match s' with
        | EmptyString => None
        | String e s'' =>
            if code e =? 117 then
              match s'' with
              | String h1 (String h2 (String h3 (String h4 r))) =>
                  match hex_value h1, hex_value h2, hex_value h3, hex_value h4 with
                  | Some a, Some b, Some c', Some d =>
                      cons (((a * 16 + b) * 16 + c') * 16 + d) <$> unescape r
                  | _, _, _, _ => None
                  end
              | _ => None
              end
            else u ← escape_unit e; cons u <$> unescape s''
        end
      else cons (code c) <$> unescape s'
  end.

Definition high_surrogate (u : Z) : bool := (55296 <=? u) && (u <=? 56319).
Definition low_surrogate (u : Z) : bool := (56320 <=? u) && (u <=? 57343).

(** [/[\uD800-\uDFFF]/u]: a surrogate outside a pair. *)
Fixpoint lone_surrogate (us : list Z) : bool :=
  match us with
  | [] => false
  | u :: us' =>
      if high_surrogate u then
        match us' with
        | v :: us'' => if low_surrogate v then lone_surrogate us'' else true
        | [] => true
        end
      else if low_surrogate u then true else lone_surrogate us'
  end.

(** ** Numbers *)

Inductive number : Type := NInt (z : Z) | NFrac | NInf.

(** The nearest integer to [n / d], ties to even. *)
Definition round_even (n d : Z) : Z :=
  let q := n / d in
  let r := n mod d in
  if 2 * r <? d then q else if d <? 2 * r then q + 1 else if Z.even q then q else q + 1.

(** The double nearest to the positive rational [n / d]. *)
Definition to_double (n d : Z) : number :=
  let l := Z.log2 n - Z.log2 d in
  let below := if 0 <=? l then n <? d * 2 ^ l else n * 2 ^ (- l) <? d in
  let e := Z.max (-1074) ((if below then l - 1 else l) - 52) in
  if 0 <=? e then
    let z := round_even n (d * 2 ^ e) * 2 ^ e in
    if 2 ^ 1024 <=? z then NInf else NInt z
  else
    let m := round_even (n * 2 ^ (- e)) d in
    if m mod 2 ^ (- e) =? 0 then NInt (m / 2 ^ (- e)) else NFrac.

(** [Number] of the decimal [sign * m * 10^e]. *)
Definition decimal_double (sign m e : Z) : number :=
  if m =? 0 then NInt 0
  else
    match (if 0 <=? e then to_double (m * 10 ^ e) 1 else to_double m (10 ^ (- e))) with
    | NInt z => NInt (sign * z)
    | n => n
    end.

Fixpoint digits_text (s : string) : string * string :=
  match s with
  | String c s' =>
      match digit c with
      | Some _ => let '(t, r) := digits_text s' in (String c t, r)
      | None => (EmptyString, s)
      end
  | EmptyString => (EmptyString, EmptyString)
  end.

Definition digits_value (t : string) : Z := (take_digits t 0 0).1.1.

(** [(?:\.\d+)?]: the digits and what follows. *)
Definition fraction_part (s : string) : string * string :=
  match s with
  | String c s' =>
      if code c =? 46 then
        match digits_text s' with
        | (EmptyString, _) => (EmptyString, s)
        | (t, r) => (t, r)
        end
      else (EmptyString, s)
  | EmptyString => (EmptyString, s)
  end.

(** [(?:[eE][+-]?\d+)?]: the exponent and what follows. *)
Definition exponent_part (s : string) : Z * string :=
  match s with
  | String c s' =>
      if (code c =? 101) || (code c =? 69) then
        let '(sg, r) := take_sign s' in
        match digits_text r with
        | (EmptyString, _) => (0, s)
        | (t, r') => (sg * digits_value t, r')
        end
      else (0, s)
  | EmptyString => (0, s)
  end.

(** An optional minus, and zero or digits that do not begin with it. *)
Definition integer_part (s : string) : option (Z * string * string) :=
  let '(sg, s1) :=
    match s with String c s' => if code c =? 45 then (-1, s') else (1, s) | _ => (1, s) end in
  match s1 with
  | String c s2 =>
      if code c =? 48 then Some (sg, String c EmptyString, s2)
      else match digits_text s1 with (EmptyString, _) => None | (t, r) => Some (sg, t, r) end
  | EmptyString => None
  end.

(** The number token at the head of the text, its value, and what follows. *)
Definition number_token (s : string) : option (number * string) :=
  match integer_part s with
  | None => None
  | Some (sg, ip, r1) =>
      let '(fp, r2) := fraction_part r1 in
      let '(e, r3) := exponent_part r2 in
      Some (decimal_double sg (digits_value (ip +:+ fp)) (e - str_len fp), r3)
  end.

(** The text a token takes, up to what follows. *)
Definition consumed (s rest : string) : string :=
  String.substring 0 (String.length s - String.length rest) s.

Definition safe_integer (z : Z) : bool := Z.abs z <? 2 ^ 53.

(** ** Values *)

Record Rules : Type := {
  depth_limit : option nat;
  unique_keys : bool;
  safe_numbers : bool;
  whole_unicode : bool
}.

(** [parseStrictJson] and [JSON.parse]. *)
Definition strict_rules : Rules :=
  {| depth_limit := Some maxDepth; unique_keys := true; safe_numbers := true; whole_unicode := true |}.

Definition builtin_rules : Rules :=
  {| depth_limit := None; unique_keys := false; safe_numbers := false; whole_unicode := false |}.

Definition has_key (k : string) (entries : list (string * jsval)) : bool :=
  existsb (λ e, bool_decide (e.1 = k)) entries.

(** A new property goes last; one that is there is overwritten in place. *)
Fixpoint set_field (k : string) (v : jsval) (entries : list (string * jsval))
  : list (string * jsval) :=
  match entries with
  | [] => [(k, v)]
  | e :: es => if bool_decide (e.1 = k) then (k, v) :: es else e :: set_field k v es
  end.

Section parser.
Context (rules : Rules).

(** After the opening quote. *)
Definition parse_string (s : string) : res (string * string) :=
  let! (body, rest) := scan_string s in
  match unescape body with
  | None => inl InvalidJson
  | Some us =>
      if whole_unicode rules && lone_surrogate us then inl InvalidUnicode
      else match text_of us with Some t => inr (t, rest) | None => inl OutsideAlphabet end
  end.

Definition parse_number (s : string) : res (jsval * string) :=
  match number_token s with
  | None => inl InvalidJson
  | Some (n, rest) =>
      match n with
      | NInt z =>
          if safe_numbers rules && negb (safe_integer z) then inl InvalidNumber
          else inr (JNum z, rest)
      | NFrac => inr (JFrac (consumed s rest), rest)
      | NInf =>
          if safe_numbers rules then inl InvalidNumber
          else inr (JFrac (if starts_with s "-" then "-Infinity" else "Infinity"), rest)
      end
  end.

Definition strip_prefix (p s : string) : option string :=
  if starts_with s p
  then Some (String.substring (String.length p) (String.length s - String.length p) s) else None.

Definition parse_scalar (s : string) : res (jsval * string) :=
  match strip_prefix "true" s, strip_prefix "false" s, strip_prefix "null" s with
  | Some r, _, _ => inr (JBool true, r)
  | None, Some r, _ => inr (JBool false, r)
  | None, None, Some r => inr (JNull, r)
  | None, None, None => parse_number s
  end.

Definition too_deep (depth : nat) : bool :=
  match depth_limit rules with Some d => Nat.leb d depth | None => false end.

Definition close_of (object : bool) : ascii := if object then "}"%char else "]"%char.

Definition container (object : bool) (entries : list (string * jsval)) : jsval :=
  if object then JObj entries else JArr (map snd entries).

Definition add_entry (object : bool) (k : string) (v : jsval) (entries : list (string * jsval))
  : list (string * jsval) :=
  if object && negb (unique_keys rules) then set_field k v entries else entries ++ [(k, v)].

(** [value(depth)], and the loop of its object or array; the elements of an
    array are kept with empty keys. *)
Fixpoint parse_value (fuel depth : nat) (s : string) : res (jsval * string) :=
  match fuel with
  | O => inl OutOfFuel
  | S fuel' =>
      match whitespace s with
      | EmptyString => inl InvalidJson
      | String c s' as t =>
          if Ascii.eqb c "{" || Ascii.eqb c "[" then
            if too_deep depth then inl DocumentTooDeep
            else
              let object := Ascii.eqb c "{" in
              match whitespace s' with
              | String c2 s2 as t2 =>
                  if Ascii.eqb c2 (close_of object) then inr (container object [], s2)
                  else parse_items fuel' depth object [] t2
              | EmptyString => inl InvalidJson
              end
          else if Ascii.eqb c quote then let! (str, rest) := parse_string s' in inr (JStr str, rest)
          else parse_scalar t
      end
  end
with parse_items (fuel depth : nat) (object : bool) (entries : list (string * jsval)) (s : string)
  : res (jsval * string) :=
  match fuel with
  | O => inl OutOfFuel
  | S fuel' =>
      let! (k, s1) :=
        (if object then
           match whitespace s with
           | String c s' =>
               if Ascii.eqb c quote then
                 let! (key, s2) := parse_string s' in
                 if unique_keys rules && has_key key entries then inl DuplicateJsonKey
                 else
                   match whitespace s2 with
                   | String c2 s3 => if Ascii.eqb c2 ":" then inr (key, s3) else inl InvalidJson
                   | EmptyString => inl InvalidJson
                   end
               else inl InvalidJson
           | EmptyString => inl InvalidJson
           end
         else inr (EmptyString, s)) in
      let! (v, s4) := parse_value fuel' (S depth) s1 in
      match whitespace s4 with
      | EmptyString => inl InvalidJson
      | String c s5 =>
          let entries' := add_entry object k v entries in
          if Ascii.eqb c (close_of object) then inr (container object entries', s5)
          else if Ascii.eqb c "," then parse_items fuel' depth object entries' s5
          else inl InvalidJson
      end
  end.

(** Enough for every text: two calls for each character. *)
Definition fuel_for (s : string) : nat := S (S (2 * String.length s)).

Definition parse_document (s : string) : res jsval :=
  let! (v, rest) := parse_value (fuel_for s) 0 s in
  match whitespace rest with EmptyString => inr v | _ => inl InvalidJson end.
End parser.

Definition parseStrictJson (bytes : string) : res jsval :=
  let! source := decodeUtf8 bytes in parse_document strict_rules source.

(** [JSON.parse]; [None] is a [SyntaxError]. *)
Definition JSON_parse (s : string) : option jsval :=
  match parse_document builtin_rules s with inr v => Some v | inl _ => None end.

(** The code units of a string. *)
Definition units_of (s : string) : list Z := map code (String.list_ascii_of_string s).

(** [assertJsonValue] of a string. *)
Definition assert_string (s : string) : option JsonError :=
  if lone_surrogate (units_of s) then Some InvalidUnicode else None.

(** [assertJsonValue]: the first error, if any. *)
Fixpoint assertJsonValue (depth : nat) (v : jsval) : option JsonError :=
  match v with
  | JStr s => assert_string s
  | JNull | JBool _ => None
  | JNum z => if safe_integer z then None else Some InvalidNumber
  | JFrac t =>
      if bool_decide (t ∈ ["NaN"; "Infinity"; "-Infinity"]%string) then Some InvalidNumber else None
  | JArr l =>
      if Nat.leb maxDepth depth then Some DocumentTooDeep
      else
        (fix go (l : list jsval) : option JsonError :=
           match l with
           | [] => None
           | x :: l' => match assertJsonValue (S depth) x with Some e => Some e | None => go l' end
           end) l
  | JObj fields =>
      if Nat.leb maxDepth depth then Some DocumentTooDeep
      else
        (fix go (l : list (string * jsval)) : option JsonError :=
           match l with
           | [] => None
           | kv :: l' =>
               match assert_string (fst kv) with
               | Some e => Some e
               | None => match assertJsonValue (S depth) (snd kv) with Some e => Some e | None => go l' end
               end
           end) fields
  | JUndef => Some InvalidJsonValue
  end.
