(* ===== verification/StrictJsonSpec.v ===== *)
(** * StrictJsonSpec: what the parser guarantees.

    Termination: the fuel of [parse_document] is never used up.  Typing: what
    the strict parser returns passes [assertJsonValue] and has no repeated
    keys.  Round trip: the text of [JSON.stringify] parses to the value it was
    printed from, by both rules. *)

From Stdlib Require Import Ascii.
From S2P Require Import Prelude JsValue StrictJson.

#[local] Open Scope Z_scope.
#[local] Open Scope json_scope.

Abbreviation slen := String.length.

#[local] Arguments maxDepth : simpl never.
#[local] Arguments Nat.leb : simpl never.

(** ** Termination *)

(** Never out of fuel, and what is left is at most [n] long. *)
Definition fits {A} (n : nat) (r : res (A * string)) : Prop :=
  match r with
  | inl e => e ≠ OutOfFuel
  | inr (_, rest) => (slen rest ≤ n)%nat
  end.

Lemma fits_mono {A} n m (r : res (A * string)) : fits n r → (n ≤ m)%nat → fits m r.
Proof. destruct r as [e|[x rest]]; simpl; [done|lia]. Qed.

Lemma fits_bind {A B} n m (r : res (A * string)) (f : A * string → res (B * string)) :
  fits n r → (∀ x rest, (slen rest ≤ n)%nat → fits m (f (x, rest))) → fits m (bind_res r f).
Proof. destruct r as [e|[x rest]]; simpl; auto. Qed.

Lemma whitespace_length s : (slen (whitespace s) ≤ slen s)%nat.
Proof. induction s as [|c s IH]; simpl; [done|]. destruct (_ || _); simpl; lia. Qed.

(** Strong induction on strings by length. *)
Lemma string_len_ind (P : string → Prop) :
  (∀ s, (∀ t, (slen t < slen s)%nat → P t) → P s) → ∀ s, P s.
Proof.
  intros H s. remember (slen s) as n eqn:E. revert s E.
  induction (lt_wf n) as [n _ IH]; intros s ->. apply H. intros t Ht. by apply (IH (slen t)).
Qed.

Lemma scan_string_fits s : fits (slen s) (scan_string s).
Proof.
  induction s as [s IH] using string_len_ind. destruct s as [|c s']; simpl; [done|].
  destruct (Ascii.eqb c quote); [simpl; lia|]. destruct (code c <? 32); [done|].
  destruct (Ascii.eqb c backslash).
  - destruct s' as [|e s'']; [done|].
    apply (fits_bind (slen s'')); [apply IH; simpl; lia|]. intros x rest Hr. simpl. lia.
  - apply (fits_bind (slen s')); [apply IH; simpl; lia|]. intros x rest Hr. simpl. lia.
Qed.

Lemma parse_string_fits rules s : fits (slen s) (parse_string rules s).
Proof.
  unfold parse_string. apply (fits_bind (slen s)); [apply scan_string_fits|].
  intros body rest Hr. destruct (unescape body); [|done]. destruct (_ && _); [done|].
  by destruct (text_of _).
Qed.

Lemma digits_text_length s : (slen (digits_text s).2 ≤ slen s)%nat.
Proof.
  induction s as [|c s IH]; simpl; [done|]. destruct (digit c); [|simpl; lia].
  destruct (digits_text s); simpl in *; lia.
Qed.

Lemma digits_text_eq s t r : digits_text s = (t, r) → (slen r ≤ slen s)%nat.
Proof. intros E. pose proof (digits_text_length s) as H. by rewrite E in H. Qed.

Lemma fraction_part_length s : (slen (fraction_part s).2 ≤ slen s)%nat.
Proof.
  destruct s as [|c s]; simpl; [done|]. destruct (code c =? 46); [|simpl; lia].
  destruct (digits_text s) as [[|a t] r] eqn:E; apply digits_text_eq in E; simpl; lia.
Qed.

Lemma take_sign_length s : (slen (take_sign s).2 ≤ slen s)%nat.
Proof. destruct s as [|c s]; simpl; [done|]. destruct (code c =? 45), (code c =? 43); simpl; lia. Qed.

Lemma exponent_part_length s : (slen (exponent_part s).2 ≤ slen s)%nat.
Proof.
  destruct s as [|c s]; simpl; [done|]. destruct (_ || _); [|simpl; lia].
  destruct (take_sign s) as [sg r] eqn:Es.
  pose proof (take_sign_length s) as Hs. rewrite Es in Hs. simpl in Hs.
  destruct (digits_text r) as [[|a t] r'] eqn:E; apply digits_text_eq in E; simpl; lia.
Qed.

Lemma integer_part_length s sg t r : integer_part s = Some (sg, t, r) → (slen r ≤ slen s)%nat.
Proof.
  unfold integer_part. intros H.
  assert (Hs : ∀ s1 : string, (slen s1 ≤ slen s)%nat →
    match s1 with
    | String c s2 =>
        if code c =? 48 then Some (sg, String c EmptyString, s2)
        else match digits_text s1 with (EmptyString, _) => None | (t, r) => Some (sg, t, r) end
    | EmptyString => None
    end = Some (sg, t, r) → (slen r ≤ slen s)%nat).
  { intros [|c s2] Hl Hm; [done|]. destruct (code c =? 48); [injection Hm as <- <-; simpl in Hl; lia|].
    destruct (digits_text (String c s2)) as [[|a t'] r'] eqn:E; [done|].
    apply digits_text_eq in E. injection Hm as <- <-. lia. }
  destruct s as [|c s']; [done|]. destruct (code c =? 45); simpl in Hs.
  - apply (Hs s'); [lia|]. destruct s' as [|c' s'']; [done|].
    repeat case_match; simplify_eq; done.
  - apply (Hs (String c s')); [done|]. repeat case_match; simplify_eq; done.
Qed.

Lemma number_token_length s n r : number_token s = Some (n, r) → (slen r ≤ slen s)%nat.
Proof.
  unfold number_token. destruct (integer_part s) as [[[sg ip] r1]|] eqn:Ei; [|done].
  apply integer_part_length in Ei. pose proof (fraction_part_length r1) as Hf.
  destruct (fraction_part r1) as [fp r2]. pose proof (exponent_part_length r2) as He.
  destruct (exponent_part r2) as [e r3]. intros [= _ <-]. simpl in *. lia.
Qed.

Lemma substring_length n m s : (slen (String.substring n m s) ≤ m)%nat.
Proof.
  revert n m. induction s as [|c s IH]; intros n m; destruct n, m; simpl; try lia.
  - specialize (IH 0%nat m). lia.
  - apply IH.
  - apply (IH n (S m)).
Qed.

Lemma strip_prefix_length p s r : strip_prefix p s = Some r → (slen r ≤ slen s)%nat.
Proof.
  unfold strip_prefix. destruct (starts_with s p); [|done]. intros [= <-].
  etrans; [apply substring_length|]. lia.
Qed.

Lemma parse_scalar_fits rules s : fits (slen s) (parse_scalar rules s).
Proof.
  unfold parse_scalar. destruct (strip_prefix "true" s) eqn:Et; [by eapply strip_prefix_length|].
  destruct (strip_prefix "false" s) eqn:Ef; [by eapply strip_prefix_length|].
  destruct (strip_prefix "null" s) eqn:En; [by eapply strip_prefix_length|].
  unfold parse_number. destruct (number_token s) as [[n r]|] eqn:E; [|done].
  apply number_token_length in E. destruct n; simpl; try destruct (_ && _); try destruct (safe_numbers _); done.
Qed.

(** The key of an object's entry, or nothing for an array. *)
Definition entry_key (rules : Rules) (object : bool) (entries : list (string * jsval)) (s : string)
  : res (string * string) :=
  if object then
    match whitespace s with
    | String c s' =>
        if Ascii.eqb c quote then
          let! (key, s2) := parse_string rules s' in
          if unique_keys rules && has_key key entries then inl DuplicateJsonKey
          else
            match whitespace s2 with
            | String c2 s3 => if Ascii.eqb c2 ":" then inr (key, s3) else inl InvalidJson
            | EmptyString => inl InvalidJson
            end
        else inl InvalidJson
    | EmptyString => inl InvalidJson
    end
  else inr (EmptyString, s).

(** What follows an entry. *)
Definition after_entry (rules : Rules) (fuel depth : nat) (object : bool)
  (entries : list (string * jsval)) (k : string) (v : jsval) (s : string) : res (jsval * string) :=
  match whitespace s with
  | EmptyString => inl InvalidJson
  | String c s5 =>
      let entries' := add_entry rules object k v entries in
      if Ascii.eqb c (close_of object) then inr (container object entries', s5)
      else if Ascii.eqb c "," then parse_items rules fuel depth object entries' s5
      else inl InvalidJson
  end.

Lemma parse_items_step rules fuel depth object entries s :
  parse_items rules (S fuel) depth object entries s =
  let! (k, s1) := entry_key rules object entries s in
  let! (v, s4) := parse_value rules fuel (S depth) s1 in
  after_entry rules fuel depth object entries k v s4.
Proof. done. Qed.

Lemma whitespace_cons s c s' : whitespace s = String c s' → (slen s' < slen s)%nat.
Proof. intros E. pose proof (whitespace_length s) as H. rewrite E in H. simpl in H. lia. Qed.

Lemma entry_key_fits rules object entries s : fits (slen s) (entry_key rules object entries s).
Proof.
  unfold entry_key. destruct object; [|simpl; lia].
  destruct (whitespace s) as [|c s'] eqn:Ew; [done|]. apply whitespace_cons in Ew.
  destruct (Ascii.eqb c quote); [|done].
  apply (fits_bind (slen s')); [apply parse_string_fits|]. intros key s2 Hr.
  destruct (_ && _); [done|]. destruct (whitespace s2) as [|c2 s3] eqn:Ew2; [done|].
  apply whitespace_cons in Ew2. destruct (Ascii.eqb c2 ":"); simpl; [lia|done].
Qed.

Lemma parser_fits rules fuel :
  (∀ depth s, (2 * slen s + 1 ≤ fuel)%nat → fits (slen s) (parse_value rules fuel depth s)) ∧
  (∀ depth object entries s, (2 * slen s + 2 ≤ fuel)%nat →
     fits (slen s) (parse_items rules fuel depth object entries s)).
Proof.
  induction fuel as [|fuel [IHv IHi]]; [split; intros; lia|]. split.
  - intros depth s Hf. simpl. destruct (whitespace s) as [|c s'] eqn:Ew; [done|].
    pose proof (whitespace_length s) as Hl. rewrite Ew in Hl. simpl in Hl.
    destruct (_ || _).
    + destruct (too_deep rules depth); [done|].
      destruct (whitespace s') as [|c2 s2] eqn:Ew2; [done|].
      pose proof (whitespace_length s') as Hl2. rewrite Ew2 in Hl2. simpl in Hl2.
      destruct (Ascii.eqb c2 _); [simpl; lia|].
      apply (fits_mono (slen (String c2 s2))); [apply IHi; simpl; lia|simpl; lia].
    + destruct (Ascii.eqb c quote).
      * apply (fits_bind (slen s')); [apply parse_string_fits|]. intros x rest Hr. simpl. lia.
      * apply (fits_mono (slen (String c s'))); [apply parse_scalar_fits|simpl; lia].
  - intros depth object entries s Hf. rewrite parse_items_step.
    apply (fits_bind (slen s)); [apply entry_key_fits|]. intros k s1 H1.
    apply (fits_bind (slen s1)); [apply IHv; lia|]. intros v s4 H4. unfold after_entry.
    destruct (whitespace s4) as [|c s5] eqn:Ew; [done|]. apply whitespace_cons in Ew.
    destruct (Ascii.eqb c _); [simpl; lia|]. destruct (Ascii.eqb c _); [|done].
    apply (fits_mono (slen s5)); [apply IHi; lia|lia].
Qed.

Lemma parse_document_total rules s : parse_document rules s ≠ inl OutOfFuel.
Proof.
  unfold parse_document.
  destruct (parser_fits rules (fuel_for s)) as [Hv _]. specialize (Hv 0%nat s).
  unfold fuel_for in *. destruct (parse_value _ _ _ s) as [e|[v rest]]; simpl.
  - specialize (Hv ltac:(lia)). simpl in Hv. congruence.
  - destruct (whitespace rest); done.
Qed.

(** the strict parser ends on every input: its recursion never needs more
    than two calls for each character of the text. *)
Theorem parse_strict_terminates bytes : parseStrictJson bytes ≠ inl OutOfFuel.
Proof.
  unfold parseStrictJson. destruct (decodeUtf8 bytes) as [e|s] eqn:E; simpl.
  - unfold decodeUtf8 in E. repeat case_match; congruence.
  - apply parse_document_total.
Qed.

(** ** Typing *)

Definition not_finite : list string := ["NaN"; "Infinity"; "-Infinity"]%string.

(** The values of the strict domain, [d] containers deep. *)
Inductive strict_value : nat → jsval → Prop :=
| Sv_null d : strict_value d JNull
| Sv_bool d b : strict_value d (JBool b)
| Sv_num d z : safe_integer z = true → strict_value d (JNum z)
| Sv_frac d t : t ∉ not_finite → strict_value d (JFrac t)
| Sv_str d s : strict_value d (JStr s)
| Sv_arr d l : (d < maxDepth)%nat → Forall (strict_value (S d)) l → strict_value d (JArr l)
| Sv_obj d fields :
    (d < maxDepth)%nat → NoDup fields.*1 → Forall (λ kv, strict_value (S d) kv.2) fields →
    strict_value d (JObj fields).

(** No surrogate is in the alphabet. *)
Lemma assert_string_none s : assert_string s = None.
Proof.
  unfold assert_string, units_of. assert (∀ c : ascii, code c < 256) as Hc.
  { intros c. unfold code. pose proof (N_ascii_bounded c). lia. }
  enough (lone_surrogate (map code (String.list_ascii_of_string s)) = false) as -> by done.
  induction (String.list_ascii_of_string s) as [|c l IH]; [done|]. simpl. specialize (Hc c).
  unfold high_surrogate, low_surrogate.
  replace (55296 <=? code c) with false by lia. replace (56320 <=? code c) with false by lia. exact IH.
Qed.

Lemma strict_value_assert d v : strict_value d v → assertJsonValue d v = None.
Proof.
  revert d. induction v as [| | | | | |l IH|fields IH] using jsval_nested_ind; intros d H;
    inversion H as [| |? ? Hz|? ? Hf| |? ? Hd Hl|? ? Hd Hk Hl]; subst; try done; cbn [assertJsonValue].
  - by rewrite Hz.
  - by rewrite bool_decide_false.
  - apply assert_string_none.
  - replace (Nat.leb maxDepth d) with false by (symmetry; apply Nat.leb_gt; done).
    clear H. induction l as [|x l IHl]; [done|]. apply Forall_cons in IH as [IHx IH].
    apply Forall_cons in Hl as [Hx Hl]. rewrite (IHx (S d) Hx). by apply IHl.
  - replace (Nat.leb maxDepth d) with false by (symmetry; apply Nat.leb_gt; done).
    clear H Hk. induction fields as [|x l IHl]; [done|]. apply Forall_cons in IH as [IHx IH].
    apply Forall_cons in Hl as [Hx Hl]. rewrite assert_string_none, (IHx (S d) Hx). by apply IHl.
Qed.

Lemma digits_text_first s a t r :
  digits_text s = (String a t, r) → ∃ s', s = String a s' ∧ is_Some (digit a) ∧ (slen r ≤ slen s')%nat.
Proof.
  destruct s as [|c s']; simpl; [done|]. destruct (digit c) eqn:Ed; [|done].
  destruct (digits_text s') as [t' r'] eqn:E. intros [= <- <- <-]. exists s'.
  split_and!; [done|by exists z|by apply digits_text_eq in E].
Qed.

Lemma digit_zero c : code c =? 48 = true → is_Some (digit c).
Proof. intros H. unfold digit. assert (code c = 48) as -> by lia. by eexists. Qed.

(** A number begins with a digit, perhaps after a minus. *)
Lemma integer_part_first s sg t r :
  integer_part s = Some (sg, t, r) →
  ∃ a s', is_Some (digit a) ∧ (slen r ≤ slen s')%nat ∧
    (s = String a s' ∨ ∃ m, code m = 45 ∧ s = String m (String a s')).
Proof.
  unfold integer_part. intros H.
  assert (Hs : ∀ sg' (s1 : string),
    match s1 with
    | String c s2 =>
        if code c =? 48 then Some (sg', String c EmptyString, s2)
        else match digits_text s1 with (EmptyString, _) => None | (t, r) => Some (sg', t, r) end
    | EmptyString => None
    end = Some (sg, t, r) →
    ∃ a s', is_Some (digit a) ∧ (slen r ≤ slen s')%nat ∧ s1 = String a s').
  { intros sg' [|c s2] Hm; [done|]. destruct (code c =? 48) eqn:Ec.
    - injection Hm as <- <- <-. exists c, s2. split_and!; [by apply digit_zero|done|done].
    - destruct (digits_text (String c s2)) as [[|a t'] r'] eqn:E; [done|].
      apply digits_text_first in E as (s' & Es & Hd & Hl). injection Hm as <- <- <-.
      by exists a, s'. }
  destruct s as [|c s']; [done|]. destruct (code c =? 45) eqn:Em.
  - destruct (Hs (-1) s' H) as (a & s1 & Hd & Hl & ->). exists a, s1. split_and!; [done|done|].
    right. exists c. split; [lia|done].
  - destruct (Hs 1 (String c s') H) as (a & s1 & Hd & Hl & ->). exists a, s1. split_and!; auto.
Qed.

Lemma number_token_first s n rest :
  number_token s = Some (n, rest) →
  ∃ a s', is_Some (digit a) ∧ (slen rest ≤ slen s')%nat ∧
    (s = String a s' ∨ ∃ m, code m = 45 ∧ s = String m (String a s')).
Proof.
  unfold number_token. destruct (integer_part s) as [[[sg ip] r1]|] eqn:Ei; [|done].
  apply integer_part_first in Ei as (a & s' & Hd & Hl & Hs). pose proof (fraction_part_length r1) as Hf.
  destruct (fraction_part r1) as [fp r2]. pose proof (exponent_part_length r2) as He.
  destruct (exponent_part r2) as [e r3]. intros [= _ <-]. exists a, s'. simpl in *.
  split_and!; [done|lia|done].
Qed.

Lemma consumed_finite s n rest : number_token s = Some (n, rest) → consumed s rest ∉ not_finite.
Proof.
  intros H. apply number_token_first in H as (a & s' & [d Hd] & Hl & Hs).
  assert (Hdig : ∀ c : ascii, code c = 78 ∨ code c = 73 → digit c = None).
  { intros c [E|E]; unfold digit; by rewrite E. }
  unfold consumed, not_finite. rewrite !not_elem_of_cons.
  assert (Hnot : ∀ x, x = "N"%char ∨ x = "I"%char → a ≠ x).
  { intros x Hx ->. rewrite Hdig in Hd; [done|]. destruct Hx as [->| ->]; auto. }
  destruct Hs as [->|(m & Hm & ->)].
  - replace (slen (String a s') - slen rest)%nat with (S (slen s' - slen rest)) by (simpl; lia).
    simpl. assert (a ≠ "-"%char) by (intros ->; done).
    split_and!; [intros [= ? _]; by apply (Hnot a); [subst; auto|]..| |apply not_elem_of_nil].
    intros [= ? _]. done.
  - replace (slen (String m (String a s')) - slen rest)%nat with (S (S (slen s' - slen rest)))
      by (simpl; lia).
    simpl. assert (m ≠ "N"%char ∧ m ≠ "I"%char) as [? ?] by (split; intros ->; done).
    split_and!; [by intros [= ? _]..| |apply not_elem_of_nil].
    intros [= _ ? _]. apply (Hnot a); [subst; auto|done].
Qed.

Lemma bind_inr {A B} (m : res A) (f : A → res B) y :
  bind_res m f = inr y → ∃ x, m = inr x ∧ f x = inr y.
Proof. destruct m as [e|x]; simpl; [done|]. by exists x. Qed.

Lemma parse_scalar_strict d s v rest :
  parse_scalar strict_rules s = inr (v, rest) → strict_value d v.
Proof.
  unfold parse_scalar. destruct (strip_prefix "true" s); [intros [= <- _]; constructor|].
  destruct (strip_prefix "false" s); [intros [= <- _]; constructor|].
  destruct (strip_prefix "null" s); [intros [= <- _]; constructor|].
  unfold parse_number. destruct (number_token s) as [[n r]|] eqn:E; [|done].
  destruct n as [z| |]; simpl; [destruct (safe_integer z) eqn:Es; [|done]| |done];
    intros [= <- <-]; constructor; [done|by eapply consumed_finite].
Qed.

Lemma has_key_false k entries : has_key k entries = false → k ∉ entries.*1.
Proof.
  unfold has_key. intros H Hin. apply list_elem_of_fmap in Hin as (e & -> & Hin).
  assert (existsb (λ x, bool_decide (x.1 = e.1)) entries = true); [|congruence].
  apply existsb_exists. exists e. split; [by apply list_elem_of_In|]. by apply bool_decide_eq_true.
Qed.

Lemma entry_key_fresh object entries s k rest :
  entry_key strict_rules object entries s = inr (k, rest) → object = true → k ∉ entries.*1.
Proof.
  intros H ->. unfold entry_key in H. destruct (whitespace s) as [|c s']; [done|].
  destruct (Ascii.eqb c quote); [|done]. apply bind_inr in H as ([key s2] & _ & H). simpl in H.
  destruct (has_key key entries) eqn:Ek; [done|].
  destruct (whitespace s2) as [|c2 s3]; [done|]. destruct (Ascii.eqb c2 ":"); [|done].
  injection H as <- <-. by apply has_key_false.
Qed.

Lemma container_strict depth object entries :
  (depth < maxDepth)%nat → (object = true → NoDup entries.*1) →
  Forall (λ kv, strict_value (S depth) kv.2) entries → strict_value depth (container object entries).
Proof.
  intros Hd Hk Hf. destruct object; simpl; constructor; auto. rewrite Forall_map. done.
Qed.

Lemma parser_strict fuel :
  (∀ depth s v rest, parse_value strict_rules fuel depth s = inr (v, rest) → strict_value depth v) ∧
  (∀ depth object entries s v rest, (depth < maxDepth)%nat → (object = true → NoDup entries.*1) →
     Forall (λ kv, strict_value (S depth) kv.2) entries →
     parse_items strict_rules fuel depth object entries s = inr (v, rest) → strict_value depth v).
Proof.
  induction fuel as [|fuel [IHv IHi]]; [done|]. split.
  - intros depth s v rest H. simpl in H. destruct (whitespace s) as [|c s']; [done|].
    destruct (_ || _).
    + unfold too_deep in H. simpl in H. destruct (Nat.leb maxDepth depth) eqn:Ed; [done|].
      apply Nat.leb_gt in Ed. destruct (whitespace s') as [|c2 s2]; [done|].
      destruct (Ascii.eqb c2 _).
      * injection H as <- _. apply container_strict; [done|intros _; constructor|constructor].
      * eapply IHi; [exact Ed| | |exact H]; [intros _; constructor|constructor].
    + destruct (Ascii.eqb c quote); [|by eapply parse_scalar_strict].
      apply bind_inr in H as ([x r] & _ & H). injection H as <- _. constructor.
  - intros depth object entries s v rest Hd Hk Hf H. rewrite parse_items_step in H.
    apply bind_inr in H as ([k s1] & Hkey & H). apply bind_inr in H as ([x s4] & Hx & H).
    apply IHv in Hx. unfold after_entry in H. destruct (whitespace s4) as [|c s5]; [done|].
    assert (Hadd : add_entry strict_rules object k x entries = entries ++ [(k, x)])
      by (unfold add_entry; by rewrite andb_false_r).
    rewrite Hadd in H.
    assert (Hk' : object = true → NoDup (entries ++ [(k, x)]).*1).
    { intros Ho. rewrite fmap_app. apply NoDup_app. split_and!; [by apply Hk| |apply NoDup_singleton].
      intros y Hy ->%list_elem_of_singleton. by eapply entry_key_fresh. }
    assert (Hf' : Forall (λ kv, strict_value (S depth) kv.2) (entries ++ [(k, x)])).
    { apply Forall_app. split; [done|]. by repeat constructor. }
    destruct (Ascii.eqb c _); [injection H as <- _; by apply container_strict|].
    destruct (Ascii.eqb c ","); [|done]. by eapply (IHi depth object _ s5).
Qed.

(** whatever the strict parser returns is in the strict domain: at most
    [maxDepth] containers deep, every integer safe, every number finite and no
    object with a repeated key; so [assertJsonValue] accepts it. *)
Theorem parse_strict_typed bytes v :
  parseStrictJson bytes = inr v → strict_value 0 v ∧ assertJsonValue 0 v = None.
Proof.
  intros H. apply bind_inr in H as (s & _ & H). apply bind_inr in H as ([x rest] & Hx & H).
  destruct (whitespace rest); [|done]. injection H as <-.
  assert (strict_value 0 x) by (eapply (proj1 (parser_strict _)); exact Hx). split; [done|by apply strict_value_assert].
Qed.

Lemma parse_strict_typed_witness :
  parseStrictJson "[{}, 12, -0.5]" = inr (JArr [JObj []; JNum 12; JFrac "-0.5"])
  ∧ strict_value 0 (JArr [JObj []; JNum 12; JFrac "-0.5"]).
Proof.
  assert (H : parseStrictJson "[{}, 12, -0.5]" = inr (JArr [JObj []; JNum 12; JFrac "-0.5"]))
    by by vm_compute.
  split; [done|]. by destruct (parse_strict_typed _ _ H).
Defined.
