(* ===== verification/JsonRoundTrip.v ===== *)
(** * JsonRoundTrip: [JSON.stringify] and the parsers are inverse.

    Strings, integers and nesting are treated in turn; the result is that the
    text of a value in the strict domain, without fractions, parses to the value
    itself, by the strict rules and by those of [JSON.parse]. *)

From Stdlib Require Import Ascii.
From stdpp Require Import pretty.
From S2P Require Import Prelude JsValue StrictJson StrictJsonSpec.

#[local] Open Scope Z_scope.
#[local] Open Scope json_scope.

#[local] Arguments String.append : simpl nomatch.

Lemma sapp_assoc (a b c : string) : (a +:+ b) +:+ c = a +:+ (b +:+ c).
Proof. induction a as [|x a IH]; simpl; [done|by rewrite IH]. Qed.

Lemma sapp_nil_r (a : string) : a +:+ "" = a.
Proof. induction a as [|x a IH]; simpl; [done|by rewrite IH]. Qed.

Lemma sapp_nil_l (a : string) : "" +:+ a = a.
Proof. done. Qed.

Lemma sapp_length (a b : string) : slen (a +:+ b) = (slen a + slen b)%nat.
Proof. induction a as [|x a IH]; simpl; [done|by rewrite IH]. Qed.

(** ** Strings *)

Lemma scan_json_char c x :
  scan_string (json_char c +:+ x)
  = let! (body, rest) := scan_string x in inr (json_char c +:+ body, rest).
Proof.
  destruct c as [[] [] [] [] [] [] [] []]; simpl; destruct (scan_string x) as [e|[b r]]; reflexivity.
Qed.

Lemma unescape_json_char c x : unescape (json_char c +:+ x) = cons (code c) <$> unescape x.
Proof. destruct c as [[] [] [] [] [] [] [] []]; simpl; destruct (unescape x); reflexivity. Qed.

Lemma scan_json_chars s rest :
  scan_string (json_chars s +:+ String quote rest) = inr (json_chars s, rest).
Proof.
  induction s as [|c s IH]; [done|]. simpl json_chars.
  rewrite sapp_assoc, scan_json_char, IH. done.
Qed.

Fixpoint units (s : string) : list Z :=
  match s with
  | EmptyString => []
  | String c s' => code c :: units s'
  end.

Lemma unescape_json_chars s : unescape (json_chars s) = Some (units s).
Proof. induction s as [|c s IH]; [done|]. simpl json_chars. by rewrite unescape_json_char, IH. Qed.

Lemma code_range c : 0 ≤ code c < 256.
Proof.
  unfold code. pose proof (N_ascii_bounded c). lia.
Qed.

Lemma char_of_code c : char_of (code c) = c.
Proof. unfold char_of, code. rewrite N2Z.id. apply ascii_N_embedding. Qed.

Lemma text_of_units s : text_of (units s) = Some s.
Proof.
  induction s as [|c s IH]; [done|]. simpl. pose proof (code_range c).
  destruct (code c <? 256) eqn:E; [|lia]. by rewrite IH, char_of_code.
Qed.

Lemma lone_units s : lone_surrogate (units s) = false.
Proof.
  induction s as [|c s IH]; [done|]. simpl. pose proof (code_range c).
  unfold high_surrogate, low_surrogate.
  destruct (_ && _) eqn:E; [lia|]. destruct ((56320 <=? _) && _) eqn:E2; [lia|done].
Qed.

Lemma parse_string_print rules s rest :
  parse_string rules (json_chars s +:+ String quote rest) = inr (s, rest).
Proof.
  unfold parse_string. rewrite scan_json_chars. simpl.
  by rewrite unescape_json_chars, lone_units, andb_false_r, text_of_units.
Qed.

(** ** Integers *)

Fixpoint all_digits (s : string) : bool :=
  match s with
  | EmptyString => true
  | String c s' => match digit c with Some _ => all_digits s' | None => false end
  end.

(** The text does not begin with a character a number could go on with. *)
Definition ends_number (s : string) : bool :=
  match s with
  | EmptyString => true
  | String c _ =>
      match digit c with
      | Some _ => false
      | None => negb ((code c =? 46) || (code c =? 101) || (code c =? 69))
      end
  end.

Lemma digits_text_app t rest :
  all_digits t = true → ends_number rest = true → digits_text (t +:+ rest) = (t, rest).
Proof.
  intros Ht Hr. induction t as [|c t IH].
  - destruct rest as [|c rest]; [done|]. simpl in *. by destruct (digit c).
  - change (String c t +:+ rest) with (String c (t +:+ rest)). simpl in *.
    destruct (digit c); [|done]. by rewrite IH.
Qed.

Lemma ends_number_fraction rest : ends_number rest = true → fraction_part rest = (EmptyString, rest).
Proof.
  destruct rest as [|c rest]; [done|]. simpl. destruct (digit c); [done|]. intros H.
  by destruct (code c =? 46).
Qed.

Lemma ends_number_exponent rest : ends_number rest = true → exponent_part rest = (0, rest).
Proof.
  destruct rest as [|c rest]; [done|]. simpl. destruct (digit c); [done|]. intros H.
  destruct (code c =? 101), (code c =? 69), (code c =? 46); done.
Qed.

Lemma take_digits_value t acc n :
  all_digits t = true →
  (take_digits t acc n).1.1 = acc * 10 ^ Z.of_nat (slen t) + digits_value t.
Proof.
  unfold digits_value. revert acc n. induction t as [|c t IH]; intros acc n Ht; [simpl; lia|].
  simpl in Ht. cbn [take_digits slen]. destruct (digit c) as [d|] eqn:Ed; [|done].
  rewrite (IH (acc * 10 + d) (S n) Ht), (IH (0 * 10 + d) 1%nat Ht).
  rewrite Nat2Z.inj_succ, Z.pow_succ_r by lia. ring.
Qed.

Lemma pretty_digit n : (n < 10)%N → digit (pretty_N_char n) = Some (Z.of_N n).
Proof.
  intros H.
  assert (n = 0 ∨ n = 1 ∨ n = 2 ∨ n = 3 ∨ n = 4 ∨ n = 5 ∨ n = 6 ∨ n = 7 ∨ n = 8 ∨ n = 9)%N as Hc by lia.
  repeat destruct Hc as [->|Hc]; try subst n; reflexivity.
Qed.

Lemma digits_value_cons c t d :
  digit c = Some d → all_digits t = true →
  digits_value (String c t) = d * 10 ^ Z.of_nat (slen t) + digits_value t.
Proof.
  intros Hd Ht. unfold digits_value at 1. cbn [take_digits]. rewrite Hd.
  by rewrite take_digits_value.
Qed.

(** The printed digits: digits all, with the value printed, not beginning with
    zero. *)
Lemma pretty_N_go_digits n s :
  all_digits s = true →
  all_digits (pretty_N_go n s) = true ∧
  digits_value (pretty_N_go n s) = Z.of_N n * 10 ^ Z.of_nat (slen s) + digits_value s ∧
  ((0 < n)%N → ∃ c t d, pretty_N_go n s = String c t ∧ digit c = Some d ∧ d ≠ 0).
Proof.
  revert s. induction (N.lt_wf_0 n) as [n _ IH]; intros s Hs.
  destruct (decide (n = 0)%N) as [->|Hn].
  { rewrite pretty_N_go_0. split_and!; [done|lia|lia]. }
  rewrite pretty_N_go_step by lia.
  assert (Hm : (n `mod` 10 < 10)%N) by (apply N.mod_lt; lia).
  pose proof (pretty_digit _ Hm) as Hd. pose proof (N.div_mod n 10 ltac:(lia)) as Hdm.
  destruct (IH (n `div` 10)%N (N.div_lt n 10 ltac:(lia) ltac:(lia))
    (String (pretty_N_char (n `mod` 10)) s)) as (H1 & H2 & H3); [simpl; by rewrite Hd|].
  split_and!; [done| |].
  - rewrite H2, (digits_value_cons _ _ _ Hd Hs). cbn [slen].
    rewrite Nat2Z.inj_succ, Z.pow_succ_r by lia.
    assert (Z.of_N n = 10 * Z.of_N (n `div` 10) + Z.of_N (n `mod` 10)) as -> by lia. ring.
  - intros _. destruct (decide (n `div` 10 = 0)%N) as [E|E]; [|apply H3; lia].
    rewrite E, pretty_N_go_0. exists (pretty_N_char (n `mod` 10)), s, (Z.of_N (n `mod` 10)).
    split_and!; [done|done|]. lia.
Qed.

Lemma round_even_exact n d : 0 < d → round_even (n * d) d = n.
Proof.
  intros Hd. unfold round_even. rewrite Z.div_mul, Z.mod_mul by lia.
  destruct (2 * 0 <? d) eqn:E; [done|lia].
Qed.

Lemma log2_bounds z : 0 < z < 2 ^ 53 → 0 ≤ Z.log2 z ≤ 52.
Proof.
  intros H. split; [apply Z.log2_nonneg|]. assert (Z.log2 z < 53); [|lia]. apply Z.log2_lt_pow2; lia.
Qed.

(** An integer below 2^53 is a double. *)
Lemma to_double_exact z : 0 < z < 2 ^ 53 → to_double z 1 = NInt z.
Proof.
  intros Hz. pose proof (log2_bounds z Hz) as Hl. unfold to_double.
  change (Z.log2 1) with 0. rewrite Z.sub_0_r.
  destruct (0 <=? Z.log2 z) eqn:E0; [|lia].
  destruct (z <? 1 * 2 ^ Z.log2 z) eqn:Eb.
  { pose proof (Z.log2_spec z ltac:(lia)). lia. }
  rewrite Z.max_r by lia. destruct (0 <=? Z.log2 z - 52) eqn:Ee.
  - assert (Z.log2 z - 52 = 0) as -> by lia. change (2 ^ 0) with 1.
    rewrite !Z.mul_1_r. rewrite <- (Z.mul_1_r z) at 1. rewrite <- (Z.mul_1_r z) at 2.
    rewrite round_even_exact by lia. destruct (2 ^ 1024 <=? z) eqn:Eb'; [|done].
    assert (2 ^ 53 < 2 ^ 1024) by (apply Z.pow_lt_mono_r; lia). lia.
  - assert (Hp : 0 < 2 ^ (- (Z.log2 z - 52))) by (apply Z.pow_pos_nonneg; lia).
    set (p := 2 ^ (- (Z.log2 z - 52))) in *.
    rewrite <- (Z.mul_1_r (z * p)), round_even_exact by lia.
    rewrite Z.mod_mul by lia. simpl. by rewrite Z.div_mul by lia.
Qed.

Lemma decimal_double_int sg m : 0 ≤ m < 2 ^ 53 → decimal_double sg m 0 = NInt (sg * m).
Proof.
  intros Hm. unfold decimal_double. destruct (m =? 0) eqn:E; [f_equal; lia|]. simpl.
  change (10 ^ 0) with 1. by rewrite Z.mul_1_r, to_double_exact by lia.
Qed.

Lemma pretty_N_head (n : N) :
  ∃ c t d, pretty n = String c t ∧ digit c = Some d ∧ all_digits t = true ∧
    digits_value (pretty n) = Z.of_N n ∧ ((0 < n)%N → d ≠ 0) ∧ (n = 0%N → t = EmptyString ∧ d = 0).
Proof.
  unfold pretty, pretty_N. destruct (decide (n = 0)%N) as [->|Hn].
  { exists "0"%char, EmptyString, 0. split_and!; try done; lia. }
  destruct (pretty_N_go_digits n "" eq_refl) as (H1 & H2 & H3).
  destruct (H3 ltac:(lia)) as (c & t & d & Hp & Hd & Hd0). exists c, t, d.
  rewrite Hp in *. simpl in H1. rewrite Hd in H1. split_and!; try done.
  change (digits_value "") with 0 in H2. change (slen "") with 0%nat in H2. lia.
Qed.

Lemma digit_code c d : digit c = Some d → code c = d + 48 ∧ 0 ≤ d ≤ 9.
Proof. unfold digit. destruct (_ && _) eqn:E; [|done]. intros [= <-]. lia. Qed.

(** The integer part of a printed natural number, with any sign before it. *)
Lemma natural_part (sg : Z) (n : N) (rest : string) :
  ends_number rest = true →
  match pretty n +:+ rest with
  | String c s2 =>
      if code c =? 48 then Some (sg, String c EmptyString, s2)
      else match digits_text (pretty n +:+ rest) with
           | (EmptyString, _) => None
           | (t, r) => Some (sg, t, r)
           end
  | EmptyString => None
  end = Some (sg, pretty n, rest).
Proof.
  intros Hr. destruct (pretty_N_head n) as (c & t & d & Hp & Hd & Ht & _ & Hpos & Hz).
  rewrite Hp. simpl String.append. pose proof (digit_code _ _ Hd) as [Hc _].
  destruct (code c =? 48) eqn:E.
  - destruct (decide (n = 0)%N) as [Hn|Hn]; [|exfalso; apply (Hpos ltac:(lia)); lia].
    by destruct (Hz Hn) as [-> _].
  - change (String c (t +:+ rest)) with (String c t +:+ rest). rewrite digits_text_app; [done| |done].
    simpl. by rewrite Hd.
Qed.

Lemma integer_part_print z rest :
  ends_number rest = true →
  integer_part (pretty z +:+ rest)
  = Some (if z <? 0 then -1 else 1, pretty (Z.to_N (Z.abs z)), rest).
Proof.
  intros Hr. unfold integer_part.
  destruct (Z.ltb_spec z 0) as [Hz|Hz].
  - destruct z as [|p|p]; [lia|lia|].
    change (pretty (Z.neg p) +:+ rest) with (String "-" (pretty (Npos p) +:+ rest)).
    exact (natural_part (-1) (Npos p) rest Hr).
  - assert (Hp : pretty z = pretty (Z.to_N (Z.abs z))) by (destruct z; [done|done|lia]).
    rewrite Hp. pose proof (natural_part 1 (Z.to_N (Z.abs z)) rest Hr) as Hn.
    destruct (pretty_N_head (Z.to_N (Z.abs z))) as (c & t & d & Hpt & Hd & _).
    rewrite Hpt in *. simpl String.append in *. pose proof (digit_code _ _ Hd) as [Hc Hd9].
    destruct (code c =? 45) eqn:E; [lia|]. exact Hn.
Qed.

Lemma number_token_print z rest :
  safe_integer z = true → ends_number rest = true →
  number_token (pretty z +:+ rest) = Some (NInt z, rest).
Proof.
  intros Hs Hr. unfold number_token, safe_integer in *. rewrite integer_part_print by done.
  rewrite ends_number_fraction, ends_number_exponent by done.
  destruct (pretty_N_head (Z.to_N (Z.abs z))) as (_ & _ & _ & _ & _ & _ & Hv & _).
  rewrite sapp_nil_r, Hv. change (0 - str_len "") with 0.
  rewrite decimal_double_int by lia. do 3 f_equal. destruct (Z.ltb_spec z 0); lia.
Qed.

(** ** Values *)

(** The text of a number that is no integer, as a JSON token. *)
Definition frac_text (t : string) : bool :=
  match number_token t with Some (NFrac, EmptyString) => true | _ => false end.

(** Every fraction in the value has such a text. *)
Fixpoint printed (v : jsval) : bool :=
  match v with
  | JFrac t => frac_text t
  | JArr l => forallb printed l
  | JObj fields => forallb (λ kv, printed kv.2) fields
  | _ => true
  end.

(** [JSON.stringify(v)] of a defined value. *)
Definition json_text (v : jsval) : string := default EmptyString (stringify v).

Lemma stringify_text d v : strict_value d v → stringify v = Some (json_text v).
Proof. destruct 1 as [|? []| | | | |]; done. Qed.

(** What may follow a value. *)
Definition delim (s : string) : bool :=
  match s with
  | EmptyString => true
  | String c _ => Ascii.eqb c "," || Ascii.eqb c "]" || Ascii.eqb c "}"
  end.

Lemma delim_ends_number s : delim s = true → ends_number s = true.
Proof.
  destruct s as [|c s]; [done|]. simpl. intros H.
  repeat (apply orb_true_iff in H as [H|H]); apply Ascii.eqb_eq in H; by subst.
Qed.

Lemma delim_whitespace c s : delim (String c s) = true → whitespace (String c s) = String c s.
Proof.
  simpl. intros H. repeat (apply orb_true_iff in H as [H|H]); apply Ascii.eqb_eq in H; by subst.
Qed.

(** A token is read as it stands, whatever follows the value. *)
Lemma digits_text_any s rest :
  delim rest = true → digits_text (s +:+ rest) = ((digits_text s).1, (digits_text s).2 +:+ rest).
Proof.
  intros Hr. induction s as [|c s IH].
  - rewrite sapp_nil_l. exact (digits_text_app "" rest eq_refl (delim_ends_number _ Hr)).
  - change (String c s +:+ rest) with (String c (s +:+ rest)). simpl. destruct (digit c); [|done].
    rewrite IH. by destruct (digits_text s).
Qed.

Lemma fraction_part_any s rest :
  delim rest = true → fraction_part (s +:+ rest) = ((fraction_part s).1, (fraction_part s).2 +:+ rest).
Proof.
  intros Hr. destruct s as [|c s].
  - rewrite sapp_nil_l. exact (ends_number_fraction rest (delim_ends_number _ Hr)).
  - change (String c s +:+ rest) with (String c (s +:+ rest)). simpl. destruct (code c =? 46); [|done].
    rewrite digits_text_any by done. by destruct (digits_text s) as [[] ?].
Qed.

Lemma take_sign_any s rest :
  delim rest = true → take_sign (s +:+ rest) = ((take_sign s).1, (take_sign s).2 +:+ rest).
Proof.
  intros Hr. destruct s as [|c s].
  - rewrite sapp_nil_l. destruct rest as [|c rest]; [done|]. simpl in Hr.
    repeat (apply orb_true_iff in Hr as [Hr|Hr]); apply Ascii.eqb_eq in Hr; by subst.
  - change (String c s +:+ rest) with (String c (s +:+ rest)). simpl. by destruct (code c =? 45), (code c =? 43).
Qed.

Lemma exponent_part_any s rest :
  delim rest = true → exponent_part (s +:+ rest) = ((exponent_part s).1, (exponent_part s).2 +:+ rest).
Proof.
  intros Hr. destruct s as [|c s].
  - rewrite sapp_nil_l. exact (ends_number_exponent rest (delim_ends_number _ Hr)).
  - change (String c s +:+ rest) with (String c (s +:+ rest)). simpl. destruct (_ || _); [|done].
    rewrite take_sign_any by done. destruct (take_sign s) as [sg r]. simpl.
    rewrite digits_text_any by done. by destruct (digits_text r) as [[] ?].
Qed.

Lemma integer_part_any s sg t r rest :
  delim rest = true → integer_part s = Some (sg, t, r) → integer_part (s +:+ rest) = Some (sg, t, r +:+ rest).
Proof.
  intros Hr. unfold integer_part.
  assert (Hnat : ∀ sg0 s1,
    match s1 with
    | String c s2 => if code c =? 48 then Some (sg0, String c EmptyString, s2)
        else match digits_text s1 with (EmptyString, _) => None | (t, r) => Some (sg0, t, r) end
    | EmptyString => None
    end = Some (sg, t, r) →
    match s1 +:+ rest with
    | String c s2 => if code c =? 48 then Some (sg0, String c EmptyString, s2)
        else match digits_text (s1 +:+ rest) with (EmptyString, _) => None | (t, r) => Some (sg0, t, r) end
    | EmptyString => None
    end = Some (sg, t, r +:+ rest)).
  { intros sg0 [|c s2]; [done|]. rewrite (digits_text_any (String c s2)) by done.
    change (String c s2 +:+ rest) with (String c (s2 +:+ rest)). cbv beta iota. destruct (code c =? 48); [intros H; by simplify_eq|].
    destruct (digits_text (String c s2)) as [[] ?]; cbn [fst snd]; [done|]. intros H. by simplify_eq. }
  destruct s as [|c s]; [done|]. change (String c s +:+ rest) with (String c (s +:+ rest)). cbv beta iota.
  destruct (code c =? 45); [exact (Hnat (-1) s)|exact (Hnat 1 (String c s))].
Qed.

Lemma number_token_any s n r rest :
  delim rest = true → number_token s = Some (n, r) → number_token (s +:+ rest) = Some (n, r +:+ rest).
Proof.
  intros Hr. unfold number_token. destruct (integer_part s) as [[[sg ip] r1]|] eqn:E; [|done].
  rewrite (integer_part_any _ _ _ _ _ Hr E), fraction_part_any by done. destruct (fraction_part r1) as [fp r2]. simpl.
  rewrite exponent_part_any by done. destruct (exponent_part r2) as [e r3]. simpl. by intros [= <- <-].
Qed.

(** A character that begins a value: no white space and no closing bracket. *)
Definition begins (c : ascii) : bool :=
  negb ((code c =? 32) || (code c =? 9) || (code c =? 13) || (code c =? 10)
        || (code c =? 93) || (code c =? 125)).

Lemma begins_whitespace c s : begins c = true → whitespace (String c s) = String c s.
Proof.
  unfold begins. simpl. intros H.
  destruct (code c =? 32), (code c =? 9), (code c =? 13), (code c =? 10); done.
Qed.

Lemma begins_not_close c object : begins c = true → Ascii.eqb c (close_of object) = false.
Proof.
  intros H. apply Ascii.eqb_neq. intros ->. by destruct object.
Qed.

Lemma digit_begins c d : digit c = Some d → begins c = true.
Proof. intros [H ?]%digit_code. unfold begins. rewrite H. lia. Qed.

Lemma pretty_Z_head (z : Z) :
  ∃ c t, pretty z = String c t ∧ begins c = true ∧ (code c = 45 ∨ 48 ≤ code c ≤ 57).
Proof.
  assert (Hn : ∀ n : N, ∃ c t, pretty n = String c t ∧ begins c = true ∧ (code c = 45 ∨ 48 ≤ code c ≤ 57)).
  { intros n. destruct (pretty_N_head n) as (c & t & d & Hp & Hd & _). exists c, t.
    split_and!; [done|by eapply digit_begins|]. apply digit_code in Hd. lia. }
  destruct z as [|p|p]; [apply (Hn 0%N)|apply (Hn (Npos p))|].
  exists "-"%char, (pretty (Npos p)). split_and!; [done|done|]. by left.
Qed.

Lemma frac_text_head t :
  frac_text t = true → ∃ c t', t = String c t' ∧ begins c = true ∧ (code c = 45 ∨ 48 ≤ code c ≤ 57).
Proof.
  unfold frac_text, number_token, integer_part. destruct t as [|c t]; [done|].
  destruct (Z.eqb_spec (code c) 45) as [E|E].
  - intros _. exists c, t. split_and!; [done| |by left]. unfold begins. by rewrite E.
  - destruct (Z.eqb_spec (code c) 48) as [E0|E0].
    + intros _. exists c, t. split_and!; [done| |right; lia]. unfold begins. by rewrite E0.
    + simpl. destruct (digit c) as [d|] eqn:Hd; [|done]. intros _. exists c, t.
      split_and!; [done|by eapply digit_begins|right]. apply digit_code in Hd. lia.
Qed.

Lemma json_frac_text t : t ∉ not_finite → json_text (JFrac t) = t.
Proof. intros H. unfold json_text. simpl. unfold json_frac. by rewrite bool_decide_false. Qed.

Lemma consumed_app t rest : consumed (t +:+ rest) rest = t.
Proof.
  unfold consumed. rewrite sapp_length. replace (slen t + slen rest - slen rest)%nat with (slen t) by lia.
  induction t as [|c t IH]; simpl; [by destruct rest|]. by rewrite IH.
Qed.

Lemma json_text_head d v :
  strict_value d v → printed v = true → ∃ c t, json_text v = String c t ∧ begins c = true.
Proof.
  destruct 1 as [|? []|? z|? t Ht| | |]; intros Hf; try (by eexists _, _).
  - destruct (pretty_Z_head z) as (c & t & Hp & Hb & _). exists c, t. by rewrite <- Hp.
  - destruct (frac_text_head t Hf) as (c & t' & -> & Hb & _). exists c, t'. split; [|done]. by apply json_frac_text.
Qed.

Lemma strip_prefix_app p s : strip_prefix p (p +:+ s) = Some s.
Proof.
  unfold strip_prefix, starts_with.
  assert (String.prefix p (p +:+ s) = true) as ->.
  { induction p as [|c p IH]; simpl; [by destruct s|]. destruct (ascii_dec c c); [done|done]. }
  f_equal. rewrite sapp_length. replace (slen p + slen s - slen p)%nat with (slen s) by lia.
  induction p as [|c p IH]; simpl; [|done]. induction s as [|c s IH]; simpl; [done|by rewrite IH].
Qed.

Lemma strip_prefix_other a p c s : a ≠ c → strip_prefix (String a p) (String c s) = None.
Proof.
  intros H. unfold strip_prefix, starts_with. simpl. by destruct (ascii_dec a c).
Qed.

Section round_trip.
Context (rules : Rules).

Lemma value_char fuel d c s :
  begins c = true →
  parse_value rules (S fuel) d (String c s) =
  if Ascii.eqb c "{" || Ascii.eqb c "[" then
    if too_deep rules d then inl DocumentTooDeep
    else
      match whitespace s with
      | String c2 s2 as t2 =>
          if Ascii.eqb c2 (close_of (Ascii.eqb c "{")) then inr (container (Ascii.eqb c "{") [], s2)
          else parse_items rules fuel d (Ascii.eqb c "{") [] t2
      | EmptyString => inl InvalidJson
      end
  else if Ascii.eqb c quote then let! (str, rest) := parse_string rules s in inr (JStr str, rest)
  else parse_scalar rules (String c s).
Proof. intros Hb. cbn [parse_value]. by rewrite begins_whitespace. Qed.

(** The value is read back, whatever follows it. *)
Definition reads (d : nat) (v : jsval) : Prop :=
  ∀ rest fuel, delim rest = true → (2 * slen (json_text v +:+ rest) + 1 ≤ fuel)%nat →
    parse_value rules fuel d (json_text v +:+ rest) = inr (v, rest).

Lemma reads_number d z : safe_integer z = true → reads d (JNum z).
Proof.
  intros Hs rest fuel Hr Hf. destruct fuel as [|fuel]; [lia|].
  destruct (pretty_Z_head z) as (c & t & Hp & Hb & Hc).
  change (json_text (JNum z)) with (pretty z) in *.
  assert (Hne : ∀ x, 57 < code x ∨ code x = 34 → Ascii.eqb c x = false).
  { intros x Hx. apply Ascii.eqb_neq. intros ->. lia. }
  assert (Hv : parse_value rules (S fuel) d (pretty z +:+ rest) = parse_scalar rules (pretty z +:+ rest)).
  { rewrite Hp. simpl String.append. rewrite value_char by done.
    rewrite (Hne "{"%char), (Hne "["%char), (Hne quote) by (vm_compute; auto). done. }
  rewrite Hv. unfold parse_scalar. rewrite Hp. simpl String.append.
  assert (Hlt : ∀ x, 57 < code x → x ≠ c) by (intros x Hx ->; lia).
  rewrite !strip_prefix_other by (apply Hlt; by vm_compute).
  change (String c (t +:+ rest)) with (String c t +:+ rest). rewrite <- Hp. unfold parse_number.
  rewrite number_token_print by (try done; by apply delim_ends_number).
  by rewrite Hs, andb_false_r.
Qed.

Lemma reads_fraction d t : t ∉ not_finite → frac_text t = true → reads d (JFrac t).
Proof.
  intros Hnf Ht rest fuel Hr Hf. destruct fuel as [|fuel]; [lia|]. rewrite json_frac_text in * by done.
  destruct (frac_text_head t Ht) as (c & t' & E & Hb & Hc).
  assert (Hne : ∀ x, 57 < code x ∨ code x = 34 → Ascii.eqb c x = false).
  { intros x Hx. apply Ascii.eqb_neq. intros ->. lia. }
  assert (Hv : parse_value rules (S fuel) d (t +:+ rest) = parse_scalar rules (t +:+ rest)).
  { rewrite E. simpl String.append. rewrite value_char by done.
    rewrite (Hne "{"%char), (Hne "["%char), (Hne quote) by (vm_compute; auto). done. }
  rewrite Hv. unfold parse_scalar. rewrite E. simpl String.append.
  assert (Hlt : ∀ x, 57 < code x → x ≠ c) by (intros x Hx ->; lia).
  rewrite !strip_prefix_other by (apply Hlt; by vm_compute).
  change (String c (t' +:+ rest)) with (String c t' +:+ rest). rewrite <- E. unfold parse_number, frac_text in *.
  destruct (number_token t) as [[n r]|] eqn:En; [|done]. destruct n; try done. destruct r; [|done].
  rewrite (number_token_any _ _ _ _ Hr En), sapp_nil_l. by rewrite consumed_app.
Qed.

Lemma reads_string d s : reads d (JStr s).
Proof.
  intros rest fuel Hr Hf. destruct fuel as [|fuel]; [lia|].
  change (json_text (JStr s) +:+ rest) with (String quote ((json_chars s +:+ dquote) +:+ rest)).
  rewrite sapp_assoc. change (dquote +:+ rest) with (String quote rest).
  rewrite value_char by done. simpl. by rewrite parse_string_print.
Qed.

Lemma reads_literal d v p c t :
  json_text v = String c t → begins c = true → Ascii.eqb c "{" || Ascii.eqb c "[" = false →
  Ascii.eqb c quote = false → p = json_text v →
  (∀ rest, parse_scalar rules (p +:+ rest) = inr (v, rest)) → reads d v.
Proof.
  intros Ht Hb H1 H2 -> Hp rest fuel _ Hf. destruct fuel as [|fuel]; [lia|].
  rewrite <- Hp. rewrite Ht. simpl String.append. by rewrite value_char, H1, H2 by done.
Qed.

Lemma reads_null d : reads d JNull.
Proof.
  eapply (reads_literal d JNull "null"); [done..|]. intros rest. unfold parse_scalar.
  simpl String.append. rewrite !strip_prefix_other by done.
  change (String "n" (String "u" (String "l" (String "l" rest)))) with ("null" +:+ rest).
  by rewrite strip_prefix_app.
Qed.

Lemma reads_bool d b : reads d (JBool b).
Proof.
  destruct b.
  - eapply (reads_literal d (JBool true) "true"); [done..|]. intros rest. unfold parse_scalar.
    by rewrite strip_prefix_app.
  - eapply (reads_literal d (JBool false) "false"); [done..|]. intros rest. unfold parse_scalar.
    simpl String.append. rewrite strip_prefix_other by done.
    change (String "f" (String "a" (String "l" (String "s" (String "e" rest))))) with ("false" +:+ rest).
    by rewrite strip_prefix_app.
Qed.

(** The texts of the entries of a container. *)
Definition entry_text (object : bool) (kv : string * jsval) : string :=
  (if object then json_quote kv.1 +:+ ":" else "") +:+ json_text kv.2.

Lemma join_cons sep x y l : join sep (x :: y :: l) = x +:+ sep +:+ join sep (y :: l).
Proof. done. Qed.

Lemma set_field_fresh k v entries : k ∉ entries.*1 → set_field k v entries = entries ++ [(k, v)].
Proof.
  induction entries as [|e es IH]; simpl; intros H; [done|].
  apply not_elem_of_cons in H as [Hne H]. rewrite bool_decide_false by done. by rewrite IH.
Qed.

Lemma has_key_fresh k entries : k ∉ entries.*1 → has_key k entries = false.
Proof.
  intros H. unfold has_key. apply not_true_iff_false. intros (e & He & Hk)%existsb_exists.
  apply bool_decide_eq_true in Hk. apply H. apply list_elem_of_fmap. exists e.
  split; [done|by apply list_elem_of_In].
Qed.

Lemma add_entry_fresh object k v entries :
  (object = true → k ∉ entries.*1) → add_entry rules object k v entries = entries ++ [(k, v)].
Proof.
  unfold add_entry. destruct object, (unique_keys rules); try done. simpl. intros H.
  apply set_field_fresh. by apply H.
Qed.

Lemma entry_key_print object entries kv s :
  (object = true → kv.1 ∉ entries.*1) → (object = false → kv.1 = EmptyString) →
  entry_key rules object entries (entry_text object kv +:+ s) = inr (kv.1, json_text kv.2 +:+ s).
Proof.
  intros Hk He. destruct kv as [k v]. unfold entry_key, entry_text. destruct object; simpl in *.
  - unfold json_quote. rewrite !sapp_assoc.
    change (dquote +:+ ?x) with (String quote x). simpl whitespace.
    rewrite parse_string_print. simpl. by rewrite has_key_fresh, andb_false_r by auto.
  - by rewrite (He eq_refl).
Qed.

Lemma parse_items_print d object l entries rest fuel :
  l ≠ [] → Forall (λ kv, reads (S d) kv.2) l → NoDup (entries ++ l).*1 ∨ object = false →
  (object = false → Forall (λ kv, kv.1 = EmptyString) l) →
  (2 * slen (join "," (map (entry_text object) l) +:+ String (close_of object) rest) + 2 ≤ fuel)%nat →
  parse_items rules fuel d object entries
    (join "," (map (entry_text object) l) +:+ String (close_of object) rest)
  = inr (container object (entries ++ l), rest).
Proof.
  revert entries fuel. induction l as [|kv l IH]; intros entries fuel Hne Hr Hnd Hem Hf; [done|].
  destruct fuel as [|fuel]; [lia|]. apply Forall_cons in Hr as [Hkv Hr].
  set (tail := match l with
               | [] => String (close_of object) rest
               | _ => String "," (join "," (map (entry_text object) l) +:+ String (close_of object) rest)
               end).
  assert (Hs : join "," (map (entry_text object) (kv :: l)) +:+ String (close_of object) rest
               = entry_text object kv +:+ tail).
  { unfold tail. destruct l as [|kv' l]; [done|]. cbn [map]. rewrite join_cons, !sapp_assoc. done. }
  rewrite Hs in *. rewrite parse_items_step.
  assert (Hfresh : object = true → kv.1 ∉ entries.*1).
  { intros ->. destruct Hnd as [Hnd|]; [|done]. rewrite fmap_app in Hnd.
    apply NoDup_app in Hnd as (_ & Hd & _). intros Hin. apply (Hd _ Hin). simpl. set_solver. }
  rewrite entry_key_print; [|done|intros Ho; by destruct (Forall_cons_1 _ _ _ (Hem Ho))].
  assert (Hlen : (slen (json_text kv.2 +:+ tail) ≤ slen (entry_text object kv +:+ tail))%nat).
  { unfold entry_text. rewrite !sapp_length. lia. }
  cbn [bind_res]. rewrite (Hkv tail fuel); [|by unfold tail; destruct l, object|lia].
  cbn [bind_res]. unfold after_entry. rewrite add_entry_fresh by done.
  replace (kv.1, kv.2) with kv by by destruct kv. unfold tail. destruct l as [|kv' l].
  - rewrite delim_whitespace by by destruct object. by rewrite Ascii.eqb_refl.
  - rewrite delim_whitespace by done. replace (Ascii.eqb "," (close_of object)) with false
      by by destruct object. rewrite Ascii.eqb_refl.
    rewrite IH; [by rewrite <- app_assoc|done|done| | |].
    + rewrite <- app_assoc. done.
    + intros Ho. by destruct (Forall_cons_1 _ _ _ (Hem Ho)).
    + unfold tail in Hf. rewrite sapp_length in Hf. cbn [slen] in Hf. lia.
Qed.
Hypothesis depth_ok : ∀ d, (d < maxDepth)%nat → too_deep rules d = false.

Lemma reads_container (d : nat) (v : jsval) (object : bool) (l : list (string * jsval)) :
  json_text v = String (if object then "{"%char else "["%char)
    (join "," (map (entry_text object) l) +:+ String (close_of object) EmptyString) →
  v = container object l → (d < maxDepth)%nat →
  Forall (λ kv, reads (S d) kv.2) l → NoDup l.*1 ∨ object = false →
  (object = false → Forall (λ kv, kv.1 = EmptyString) l) →
  (∀ kv, kv ∈ l → ∃ c t, json_text kv.2 = String c t ∧ begins c = true) → reads d v.
Proof using depth_ok.
  intros Ht Hv Hd Hr Hnd Hem Hhead rest fuel _ Hf. rewrite Ht in *. simpl String.append in *.
  destruct fuel as [|fuel]; [lia|]. rewrite sapp_assoc in *. simpl String.append in *.
  rewrite value_char by by destruct object. rewrite depth_ok by done.
  assert (Hobj : Ascii.eqb (if object then "{"%char else "["%char) "{" = object) by by destruct object.
  assert (Hor : object || Ascii.eqb (if object then "{"%char else "["%char) "[" = true) by by destruct object.
  rewrite Hobj, Hor. destruct l as [|kv l].
  - change (join "," (map (entry_text object) []) +:+ ?x) with x.
    rewrite (delim_whitespace (close_of object)) by by destruct object.
    rewrite Ascii.eqb_refl. by rewrite Hv.
  - assert (Hc : ∃ c t, join "," (map (entry_text object) (kv :: l)) +:+ String (close_of object) rest
                   = String c t ∧ begins c = true).
    { destruct (Hhead kv ltac:(set_solver)) as (c & t & Hct & Hb).
      assert (∃ c t, entry_text object kv = String c t ∧ begins c = true) as (c' & t' & Hct' & Hb').
      { unfold entry_text. destruct object; [by eexists _, _|]. by exists c, t. }
      destruct l as [|kv' l]; cbn [map]; [|rewrite join_cons]; simpl join; rewrite Hct'; by eexists _, _. }
    destruct Hc as (c & t & Hct & Hb). rewrite Hct. rewrite begins_whitespace by done.
    rewrite begins_not_close by done. rewrite <- Hct.
    rewrite parse_items_print; [by rewrite Hv|done|done|done|done|].
    cbn [slen] in Hf. lia.
Qed.

Lemma flat_map_texts d fields :
  Forall (λ kv, strict_value d kv.2) fields →
  flat_map (λ kv : string * jsval, match stringify kv.2 with
    | Some t => [json_quote kv.1 +:+ ":" +:+ t]
    | None => [] end) fields = map (entry_text true) fields.
Proof.
  induction 1 as [|kv l Hkv _ IH]; [done|]. cbn [flat_map map].
  rewrite (stringify_text _ _ Hkv), IH. cbn [app]. f_equal.
  unfold entry_text. by rewrite !sapp_assoc.
Qed.

Lemma map_texts d l :
  Forall (strict_value d) l →
  map (λ x, default "null"%string (stringify x)) l = map (entry_text false) (map (pair EmptyString) l).
Proof.
  induction 1 as [|v l Hv _ IH]; [done|]. simpl. by rewrite (stringify_text _ _ Hv), IH.
Qed.

Lemma reads_strict d v : strict_value d v → printed v = true → reads d v.
Proof using depth_ok.
  revert d. induction v as [| | | | | |l IH|fields IH] using jsval_nested_ind; intros d Hs Hf;
    inversion Hs as [| |? ? Hz|? ? Hnf| |? ? Hd Hl|? ? Hd Hk Hl]; subst; try done.
  - apply reads_null.
  - apply reads_bool.
  - by apply reads_number.
  - by apply reads_fraction.
  - apply reads_string.
  - simpl in Hf. rewrite forallb_forall in Hf.
    assert (Hin : ∀ x, x ∈ l → printed x = true) by (intros x Hx; by apply Hf, list_elem_of_In).
    rewrite Forall_forall in IH, Hl.
    apply (reads_container d _ false (map (pair EmptyString) l)).
    + unfold json_text. cbn [stringify default]. rewrite (map_texts (S d)); [done|by apply Forall_forall].
    + unfold container. rewrite map_map. by rewrite map_id.
    + done.
    + apply Forall_map, Forall_forall. intros x Hx. simpl. auto.
    + by right.
    + intros _. apply Forall_map, Forall_forall. done.
    + intros kv (x & -> & Hx)%list_elem_of_fmap. simpl. apply (json_text_head (S d)); auto.
  - simpl in Hf. rewrite forallb_forall in Hf.
    assert (Hin : ∀ x, x ∈ fields → printed x.2 = true) by (intros x Hx; by apply Hf, list_elem_of_In).
    rewrite Forall_forall in IH, Hl.
    apply (reads_container d _ true fields).
    + unfold json_text. cbn [stringify default]. rewrite (flat_map_texts (S d)); [done|by apply Forall_forall].
    + done.
    + done.
    + apply Forall_forall. intros x Hx. auto.
    + by left.
    + done.
    + intros kv Hx. apply (json_text_head (S d)); auto.
Qed.

Lemma parse_document_print v :
  strict_value 0 v → printed v = true → parse_document rules (json_text v) = inr v.
Proof using depth_ok.
  intros Hs Hf. unfold parse_document. pose proof (reads_strict 0 v Hs Hf "" (fuel_for (json_text v))) as H.
  rewrite sapp_nil_r in H. unfold fuel_for in *. rewrite H; [done|done|lia].
Qed.
End round_trip.

(** ** Bytes *)

Lemma utf8_points_char c x :
  utf8_points (utf8_encode (String c x)) = cons (code c) <$> utf8_points (utf8_encode x).
Proof. destruct c as [[] [] [] [] [] [] [] []]; reflexivity. Qed.

Lemma utf8_points_encode s : utf8_points (utf8_encode s) = Some (units s).
Proof. induction s as [|c s IH]; [done|]. by rewrite utf8_points_char, IH. Qed.

Lemma utf8_encode_no_bom s : has_bom (utf8_encode s) = false.
Proof.
  destruct s as [|c s]; [done|].
  destruct c as [[] [] [] [] [] [] [] []]; simpl; repeat case_match; done.
Qed.

Lemma decodeUtf8_encode s : str_len (utf8_encode s) ≤ maxFileBytes → decodeUtf8 (utf8_encode s) = inr s.
Proof.
  intros H. unfold decodeUtf8. destruct (_ <? _) eqn:E; [lia|].
  by rewrite utf8_encode_no_bom, utf8_points_encode, text_of_units.
Qed.

Lemma strict_depth_ok d : (d < maxDepth)%nat → too_deep strict_rules d = false.
Proof. intros H. by apply Nat.leb_gt. Qed.

Lemma JSON_parse_text v :
  strict_value 0 v → printed v = true → JSON_parse (json_text v) = Some v.
Proof. intros Hs Hf. unfold JSON_parse. by rewrite parse_document_print. Qed.

(** C24: the bytes of [JSON.stringify] of any value of the strict domain (depth at
    most the limit, distinct keys, safe integers, fractions finite and written
    as JSON numbers, text of the characters U+0000 to U+00FF) that stay within
    256 KB are read back to that value by the strict parser and by
    [JSON.parse]. *)
Theorem json_roundtrip v :
  strict_value 0 v → printed v = true → str_len (utf8_encode (json_text v)) ≤ maxFileBytes →
  parseStrictJson (utf8_encode (json_text v)) = inr v ∧ JSON_parse (json_text v) = Some v.
Proof.
  intros Hs Hf Hl. split; [|by apply JSON_parse_text].
  unfold parseStrictJson. rewrite decodeUtf8_encode by done. simpl.
  apply parse_document_print; [apply strict_depth_ok|done|done].
Qed.

Definition sample_json : jsval :=
  JObj [("a", JArr [JNum (-12); JFrac "-1.5e-7"; JNull; JBool true]); ("b", JStr "x
y")]%string.

Lemma json_roundtrip_witness :
  strict_value 0 sample_json ∧ parseStrictJson (utf8_encode (json_text sample_json)) = inr sample_json.
Proof.
  assert (Hs : strict_value 0 sample_json).
  { repeat first [constructor | apply NoDup_cons_2 | by vm_compute | set_solver | lia]. }
  split; [done|]. apply (json_roundtrip sample_json Hs); vm_compute; done.
Defined.
