(* ===== verification/FeedCursor.v ===== *)
(** * FeedCursor: the signed cursors of the extension feeds
    (relay/src/extensions/cursor.ts).

    A token is the base64url text of a JSON document, a dot and the HMAC of that
    text.  The digests are arguments of the functions.  [Buffer.from(_,
    'base64url')] skips characters outside its alphabet and ends at [=]; bytes
    that are not UTF-8 in the alphabet of JsValue are outside the model and end
    like a JSON syntax error. *)

From Stdlib Require Import Ascii.
From stdpp Require Import pretty.
From S2P Require Import Prelude JsValue StrictJson StrictJsonSpec JsonRoundTrip.

#[local] Open Scope Z_scope.

(** ** base64url *)

Definition b64_char (n : Z) : ascii :=
  char_of (if n <? 26 then 65 + n else if n <? 52 then 71 + n else if n <? 62 then n - 4
           else if n =? 62 then 45 else 95).

(** Both alphabets are read: [-] and [+], [_] and [/]. *)
Definition b64_value (c : ascii) : option Z :=
  let k := code c in
  if (65 <=? k) && (k <=? 90) then Some (k - 65)
  else if (97 <=? k) && (k <=? 122) then Some (k - 71)
  else if (48 <=? k) && (k <=? 57) then Some (k + 4)
  else if (k =? 45) || (k =? 43) then Some 62
  else if (k =? 95) || (k =? 47) then Some 63 else None.

Fixpoint b64_encode (s : string) : string :=
  match s with
  | EmptyString => EmptyString
  | String a EmptyString =>
      String (b64_char (code a / 4)) (String (b64_char (code a mod 4 * 16)) EmptyString)
  | String a (String b EmptyString) =>
      String (b64_char (code a / 4)) (String (b64_char (code a mod 4 * 16 + code b / 16))
        (String (b64_char (code b mod 16 * 4)) EmptyString))
  | String a (String b (String c s')) =>
      String (b64_char (code a / 4)) (String (b64_char (code a mod 4 * 16 + code b / 16))
        (String (b64_char (code b mod 16 * 4 + code c / 64)) (String (b64_char (code c mod 64))
          (b64_encode s'))))
  end.

(** The digits up to a [=]. *)
Fixpoint b64_digits (s : string) : list Z :=
  match s with
  | EmptyString => []
  | String c s' =>
      if code c =? 61 then []
      else match b64_value c with Some n => n :: b64_digits s' | None => b64_digits s' end
  end.

Fixpoint b64_bytes (l : list Z) : string :=
  match l with
  | w :: x :: y :: z :: l' =>
      String (char_of (w * 4 + x / 16)) (String (char_of (x mod 16 * 16 + y / 4))
        (String (char_of (y mod 4 * 64 + z)) (b64_bytes l')))
  | [w; x; y] => String (char_of (w * 4 + x / 16)) (String (char_of (x mod 16 * 16 + y / 4)) EmptyString)
  | [w; x] => String (char_of (w * 4 + x / 16)) EmptyString
  | _ => EmptyString
  end.

Definition b64_decode (s : string) : string := b64_bytes (b64_digits s).

(** ** Tokens *)

Fixpoint xor_all (a b : string) (diff : Z) : Z :=
  match a, b with
  | String x a', String y b' => xor_all a' b' (Z.lor diff (Z.lxor (code x) (code y)))
  | _, _ => diff
  end.

Definition timingSafeEqualString (a b : string) : bool :=
  (str_len a =? str_len b) && (xor_all a b 0 =? 0).

(** [lastIndexOf('.')] and the two slices around it. *)
Fixpoint split_last_dot (s : string) : option (string * string) :=
  match s with
  | EmptyString => None
  | String c s' =>
      match split_last_dot s' with
      | Some (p, q) => Some (String c p, q)
      | None => if code c =? 46 then Some (EmptyString, s') else None
      end
  end.

Definition json_payload (v : jsval) : string := b64_encode (utf8_encode (json_text v)).

(** The document of a payload, as [JSON.parse] reads it. *)
Definition payload_json (payload : string) : option jsval :=
  points ← utf8_points (b64_decode payload); text ← text_of points; JSON_parse text.

(** [/^[0-9]+$/.test(x)]. *)
Definition digits_only (v : jsval) : bool :=
  let s := js_String v in negb (bool_decide (s = EmptyString)) && all_digits s.

(** What a decoder does: reject, throw a [TypeError] on [null], or return. *)
Inductive Decoded : Type := DNull | DThrow | DCursor (cursor : jsval).

Definition is_text (v : jsval) : bool := match v with JStr _ => true | _ => false end.

Section tokens.
Context (hmac : string → string → string).
(** [exp * 1000 <= now] for a number that is not integral. *)
Context (frac_expired : string → Z → bool).

Definition sign (secret : string) (v : jsval) : string :=
  let payload := json_payload v in payload +:+ "." +:+ hmac secret payload.

(** The signed payload of a token. *)
Definition verified_payload (token secret : string) : option string :=
  match split_last_dot token with
  | None => None
  | Some (payload, signature) =>
      if bool_decide (payload = EmptyString) then None
      else if timingSafeEqualString signature (hmac secret payload) then Some payload else None
  end.

Definition within_length (token : string) : bool :=
  negb (str_len token =? 0) && (str_len token <=? 2048).

(** [typeof exp === 'number' && Number.isFinite(exp)], and not expired. *)
Definition live (v : jsval) (now : Z) : bool :=
  match v with
  | JNum z => negb (z * 1000 <=? now)
  | JFrac t => negb (bool_decide (t ∈ not_finite)) && negb (frac_expired t now)
  | _ => false
  end.

(** *** The session feed *)

Record FeedCursorV1 : Type := {
  installation_id : string; feed_id : string; lease_epoch : string; config_version : string;
  filter_hash : string; exp : Z
}.

Definition feed_json (c : FeedCursorV1) : jsval :=
  JObj [("v", JNum 1); ("installation_id", JStr (installation_id c)); ("feed_id", JStr (feed_id c));
        ("lease_epoch", JStr (lease_epoch c)); ("config_version", JStr (config_version c));
        ("filter_hash", JStr (filter_hash c)); ("exp", JNum (exp c))]%string.

Definition encodeFeedCursor (c : FeedCursorV1) (secret : string) : string := sign secret (feed_json c).

Definition feed_ok (v : jsval) : bool :=
  is_number (js_get v "v") 1 && is_text (js_get v "installation_id")
  && digits_only (js_get v "feed_id") && digits_only (js_get v "lease_epoch")
  && digits_only (js_get v "config_version") && is_text (js_get v "filter_hash").

Definition decodeFeedCursor (token secret : string) (now : Z) : Decoded :=
  if negb (within_length token) then DNull
  else
    match verified_payload token secret with
    | None => DNull
    | Some payload =>
        match payload_json payload with
        | None => DNull
        | Some v =>
            if is_nullish v then DThrow
            else if feed_ok v && live (js_get v "exp") now then DCursor v else DNull
        end
    end.

(** *** The scope feed *)

Record ScopeFeedCursorV2 : Type := {
  s_installation_id : string; s_feed_id : string; s_lease_epoch : string;
  s_config_version : string; authorization_epoch : string; s_exp : Z
}.

Definition scope_json (c : ScopeFeedCursorV2) : jsval :=
  JObj [("v", JNum 2); ("installation_id", JStr (s_installation_id c));
        ("feed_id", JStr (s_feed_id c)); ("lease_epoch", JStr (s_lease_epoch c));
        ("config_version", JStr (s_config_version c));
        ("authorization_epoch", JStr (authorization_epoch c)); ("exp", JNum (s_exp c))]%string.

Definition scope_secret (secret : string) : string := secret +:+ ":scope-feed".

Definition encodeScopeFeedCursor (c : ScopeFeedCursorV2) (secret : string) : string :=
  sign (scope_secret secret) (scope_json c).

Definition scope_ok (v : jsval) : bool :=
  is_number (js_get v "v") 2 && is_text (js_get v "installation_id")
  && digits_only (js_get v "feed_id") && digits_only (js_get v "lease_epoch")
  && digits_only (js_get v "config_version") && digits_only (js_get v "authorization_epoch").

Definition decodeScopeFeedCursor (token secret : string) (now : Z) : Decoded :=
  if negb (within_length token) then DNull
  else
    match verified_payload token (scope_secret secret) with
    | None => DNull
    | Some payload =>
        match payload_json payload with
        | None => DNull
        | Some v =>
            if is_nullish v then DThrow
            else if scope_ok v && live (js_get v "exp") now then DCursor v else DNull
        end
    end.

(** *** The withdrawal feed *)

Record DeliveryWithdrawalCursor : Type := {
  consumer_id : string; sequence : string; w_lease_epoch : string; w_exp : Z
}.

Definition withdrawal_json (c : DeliveryWithdrawalCursor) : jsval :=
  JObj [("v", JNum 1); ("consumer_id", JStr (consumer_id c)); ("sequence", JStr (sequence c));
        ("lease_epoch", JStr (w_lease_epoch c)); ("exp", JNum (w_exp c))]%string.

Definition withdrawal_secret (secret : string) : string := secret +:+ ":delivery-withdrawal-v1".

Definition encodeDeliveryWithdrawalCursor (c : DeliveryWithdrawalCursor) (secret : string) : string :=
  sign (withdrawal_secret secret) (withdrawal_json c).

Definition lower_hex (c : ascii) : bool :=
  ((48 <=? code c) && (code c <=? 57)) || ((97 <=? code c) && (code c <=? 102)).

(** Groups of hexadecimal digits separated by hyphens, to the end. *)
Fixpoint hex_groups (test : ascii → bool) (group : nat) (groups : list nat) (s : string) : bool :=
  match group, s with
  | S n, String c s' => test c && hex_groups test n groups s'
  | O, EmptyString => match groups with [] => true | _ => false end
  | O, String c s' =>
      match groups with g :: gs => (code c =? 45) && hex_groups test g gs s' | [] => false end
  | S _, EmptyString => false
  end.

Definition is_uuid (s : string) : bool := hex_groups lower_hex 8 [4; 4; 4; 12]%nat s.

(** [/^(0|[1-9][0-9]{0,18})$/] and at most 2^63 - 1. *)
Definition decimal (v : jsval) : bool :=
  match v with
  | JStr s =>
      match s with
      | String c s' =>
          all_digits s && (negb (code c =? 48) || bool_decide (s' = EmptyString))
          && (str_len s <=? 19) && (digits_value s <=? 9223372036854775807)
      | EmptyString => false
      end
  | _ => false
  end.

Definition withdrawal_ok (v : jsval) : bool :=
  is_number (js_get v "v") 1
  && match js_get v "consumer_id" with JStr s => is_uuid s | _ => false end
  && decimal (js_get v "sequence") && decimal (js_get v "lease_epoch").

Definition decodeDeliveryWithdrawalCursor (token secret : string) (now : Z) : Decoded :=
  if 2048 <? str_len token then DNull
  else
    match verified_payload token (withdrawal_secret secret) with
    | None => DNull
    | Some payload =>
        match payload_json payload with
        | None => DNull
        | Some v =>
            if withdrawal_ok v
               && match js_get v "exp" with
                  | JNum z => safe_integer z && negb (z * 1000 <=? now)
                  | _ => false
                  end
            then DCursor v else DNull
        end
    end.

(** ** Fingerprints *)

Context (sha256_hex : string → string).

Definition sortedStringArray (v : jsval) : list string :=
  match v with
  | JArr l => merge_sort String.le (omap (λ x, match x with JStr s => Some s | _ => None end) l)
  | _ => []
  end.

Definition filterHashForInstallation (eventFilter : jsval) : string :=
  String.substring 0 32 (sha256_hex (json_text (JObj
    [("daemon_ids", JArr (map JStr (sortedStringArray (js_get eventFilter "daemon_ids"))));
     ("agent_types", JArr (map JStr (sortedStringArray (js_get eventFilter "agent_types"))))]%string))).

(** The digest is compared as bytes; its hexadecimal text determines them. *)
Definition leaseBindingHash (installationId : string) (leaseEpoch : Z) (leaseToken : string)
  (cursorFeedId : Z) : string :=
  sha256_hex (installationId +:+ ":" +:+ pretty leaseEpoch +:+ ":" +:+ leaseToken +:+ ":"
    +:+ pretty cursorFeedId).
End tokens.

(** * Correctness: tokens that cannot be altered, confused or outlived.

    A cursor decodes to what was signed; whatever decodes carries the HMAC of
    its own payload and has not expired; no token is a cursor of both feeds.
    The comparison that does not leak timing is equality. *)

#[local] Arguments String.append : simpl nomatch.

(** ** base64url *)

Lemma b64_digit n : 0 ≤ n < 64 → code (b64_char n) ≠ 61 ∧ b64_value (b64_char n) = Some n.
Proof.
  intros Hn.
  assert (Hall : forallb (λ n, negb (code (b64_char (Z.of_nat n)) =? 61)
    && bool_decide (b64_value (b64_char (Z.of_nat n)) = Some (Z.of_nat n))) (seq 0 64) = true)
    by by vm_compute.
  rewrite forallb_forall in Hall. specialize (Hall (Z.to_nat n)). rewrite Z2Nat.id in Hall by lia.
  destruct (andb_prop _ _ (Hall ltac:(apply in_seq; lia))) as [H1 H2]. bool_hyps. split; [lia|done].
Qed.

Lemma b64_digits_cons n s : 0 ≤ n < 64 → b64_digits (String (b64_char n) s) = n :: b64_digits s.
Proof.
  intros [H1 H2]%b64_digit. simpl. destruct (code (b64_char n) =? 61) eqn:E; [lia|]. by rewrite H2.
Qed.

Lemma char_of_eq k c : k = code c → char_of k = c.
Proof. intros ->. apply char_of_code. Qed.

Ltac b64_arith := Z.to_euclidean_division_equations; lia.

Lemma b64_decode_encode s : b64_decode (b64_encode s) = s.
Proof.
  unfold b64_decode. induction s as [s IH] using string_len_ind.
  destruct s as [|a [|b [|c s]]]; [done| | |].
  - pose proof (code_range a). cbn [b64_encode].
    rewrite !b64_digits_cons by b64_arith. simpl.
    rewrite (char_of_eq _ a) by b64_arith. done.
  - pose proof (code_range a). pose proof (code_range b). cbn [b64_encode].
    rewrite !b64_digits_cons by b64_arith. simpl.
    rewrite (char_of_eq _ a), (char_of_eq _ b) by b64_arith. done.
  - pose proof (code_range a). pose proof (code_range b). pose proof (code_range c). cbn [b64_encode].
    rewrite !b64_digits_cons by b64_arith. cbn [b64_bytes].
    rewrite (char_of_eq _ a), (char_of_eq _ b), (char_of_eq _ c) by b64_arith.
    rewrite IH; [done|simpl; lia].
Qed.

Lemma payload_json_print v :
  strict_value 0 v → printed v = true → payload_json (json_payload v) = Some v.
Proof.
  intros Hs Hf. unfold payload_json, json_payload. rewrite b64_decode_encode, utf8_points_encode.
  simpl. rewrite text_of_units. simpl. by apply JSON_parse_text.
Qed.

(** ** The comparison *)

Lemma xor_all_zero a b d :
  str_len a = str_len b → xor_all a b d = 0 ↔ d = 0 ∧ a = b.
Proof.
  revert b d. induction a as [|x a IH]; intros [|y b] d Hl; unfold str_len in *; simpl in *; try lia.
  - split; [done|by intros [-> _]].
  - rewrite IH by lia. rewrite Z.lor_eq_0_iff, Z.lxor_eq_0_iff. split.
    + intros [[-> Hc] ->]. split; [done|]. f_equal. by rewrite <- (char_of_code x), Hc, char_of_code.
    + by intros [-> [= -> ->]].
Qed.

Lemma timing_safe_eq a b : timingSafeEqualString a b = bool_decide (a = b).
Proof.
  unfold timingSafeEqualString. apply eq_iff_eq_true.
  rewrite andb_true_iff, Z.eqb_eq, Z.eqb_eq, bool_decide_eq_true. split.
  - intros [Hl H]. by apply xor_all_zero in H as [_ ->].
  - intros ->. split; [done|]. by apply xor_all_zero.
Qed.

(** ** Splitting *)

Definition dot_free (s : string) : bool := forallb (λ c, negb (code c =? 46)) (chars s).

Lemma split_dot_free s : dot_free s = true → split_last_dot s = None.
Proof.
  unfold dot_free. induction s as [|c s IH]; simpl; [done|]. intros [Hc Hs]%andb_prop.
  rewrite IH by done. by destruct (code c =? 46).
Qed.

Lemma split_last_dot_app p q : dot_free q = true → split_last_dot (p +:+ "." +:+ q) = Some (p, q).
Proof.
  intros Hq. induction p as [|c p IH].
  - change ("" +:+ "." +:+ q) with (String "." q). simpl. by rewrite split_dot_free.
  - change (String c p +:+ "." +:+ q) with (String c (p +:+ "." +:+ q)).
    cbn [split_last_dot]. by rewrite IH.
Qed.

Lemma split_last_dot_eq s p q : split_last_dot s = Some (p, q) → s = p +:+ "." +:+ q.
Proof.
  revert p q. induction s as [|c s IH]; simpl; intros p q H; [done|].
  destruct (split_last_dot s) as [[p' q']|].
  - injection H as <- <-. simpl. f_equal. by apply IH.
  - destruct (code c =? 46) eqn:E; [|done]. injection H as <- <-.
    assert (c = "."%char) as ->; [|done]. rewrite <- (char_of_code c). by assert (code c = 46) as -> by lia.
Qed.

Section tokens.
Context (hmac : string → string → string) (frac_expired : string → Z → bool).

Lemma verified_payload_sound token secret payload :
  verified_payload hmac token secret = Some payload →
  token = payload +:+ "." +:+ hmac secret payload ∧ payload ≠ EmptyString.
Proof.
  unfold verified_payload. destruct (split_last_dot token) as [[p q]|] eqn:E; [|done].
  apply split_last_dot_eq in E. case_bool_decide as Hp; [done|]. rewrite timing_safe_eq.
  case_bool_decide as Hq; [|done]. intros [= <-]. by subst.
Qed.

Lemma verified_payload_signed secret payload :
  dot_free (hmac secret payload) = true → payload ≠ EmptyString →
  verified_payload hmac (payload +:+ "." +:+ hmac secret payload) secret = Some payload.
Proof.
  intros Hd Hp. unfold verified_payload. rewrite split_last_dot_app by done.
  by rewrite bool_decide_false, timing_safe_eq, bool_decide_true.
Qed.

Lemma json_payload_nonempty v c t : json_text v = String c t → json_payload v ≠ EmptyString.
Proof.
  unfold json_payload. intros ->. simpl utf8_encode.
  destruct (code c <? 128); [destruct (utf8_encode t) as [|? [|? ?]]|destruct (utf8_encode t)]; done.
Qed.

Definition all_decimal (s : string) : bool := negb (bool_decide (s = EmptyString)) && all_digits s.

(** A cursor the routes issue. *)
Definition issued (c : FeedCursorV1) (now : Z) : bool :=
  all_decimal (feed_id c) && all_decimal (lease_epoch c) && all_decimal (config_version c)
  && safe_integer (exp c) && (now <? exp c * 1000).

Lemma feed_json_strict c : safe_integer (exp c) = true → strict_value 0 (feed_json c).
Proof.
  intros He. constructor; [unfold maxDepth; lia| |].
  - cbn. repeat (apply NoDup_cons_2; [set_solver|]). apply NoDup_nil_2.
  - repeat (constructor; [by constructor|]). constructor.
Qed.

Lemma feed_json_ok c now :
  issued c now = true →
  feed_ok (feed_json c) && live frac_expired (js_get (feed_json c) "exp") now = true.
Proof.
  unfold issued. intros H. apply andb_prop in H as [H He]. apply andb_prop in H as [H Hs].
  change (feed_ok (feed_json c)) with (all_decimal (feed_id c) && all_decimal (lease_epoch c)
    && all_decimal (config_version c) && true).
  change (live frac_expired (js_get (feed_json c) "exp") now) with (negb (exp c * 1000 <=? now)).
  rewrite H. simpl. lia.
Qed.

Lemma decode_encode c secret now :
  (∀ p, dot_free (hmac secret p) = true) → issued c now = true →
  within_length (encodeFeedCursor hmac c secret) = true →
  decodeFeedCursor hmac frac_expired (encodeFeedCursor hmac c secret) secret now
  = DCursor (feed_json c).
Proof.
  intros Hd Hi Hl. unfold decodeFeedCursor. rewrite Hl. simpl negb.
  unfold encodeFeedCursor, sign. cbv zeta.
  rewrite verified_payload_signed; [|done|by eapply json_payload_nonempty].
  assert (He : safe_integer (exp c) = true).
  { unfold issued in Hi. by repeat (apply andb_prop in Hi as [Hi ?]). }
  rewrite payload_json_print; [|by apply feed_json_strict|done].
  by rewrite feed_json_ok.
Qed.

Lemma decode_feed_inv token secret now v :
  decodeFeedCursor hmac frac_expired token secret now = DCursor v →
  ∃ payload, verified_payload hmac token secret = Some payload ∧ payload_json payload = Some v ∧
    feed_ok v = true ∧ live frac_expired (js_get v "exp") now = true.
Proof.
  unfold decodeFeedCursor. destruct (negb _); [done|].
  destruct (verified_payload hmac token secret) as [p|]; [|done].
  destruct (payload_json p) as [w|] eqn:Ep; [|done]. destruct (is_nullish w); [done|].
  destruct (_ && _) eqn:E; [|done]. intros [= <-]. apply andb_prop in E as [? ?]. by exists p.
Qed.
End tokens.

(** the decoder returns exactly the cursor that was encoded, while it has
    not expired; the HMAC is any function whose text has no dot. *)
Theorem feed_cursor_roundtrip hmac frac_expired c secret now :
  (∀ p, dot_free (hmac secret p) = true) → issued c now = true →
  within_length (encodeFeedCursor hmac c secret) = true →
  decodeFeedCursor hmac frac_expired (encodeFeedCursor hmac c secret) secret now
  = DCursor (feed_json c).
Proof. apply decode_encode. Qed.

(** A toy digest: the text without its dots. *)
Fixpoint undotted (s : string) : string :=
  match s with
  | EmptyString => EmptyString
  | String c s' => if code c =? 46 then undotted s' else String c (undotted s')
  end.

Definition toy_hmac (secret payload : string) : string := undotted (secret +:+ payload).

Lemma undotted_free s : dot_free (undotted s) = true.
Proof.
  unfold dot_free. induction s as [|c s IH]; simpl; [done|].
  destruct (code c =? 46) eqn:E; [done|]. simpl. by rewrite E.
Qed.

Definition never (_ : string) (_ : Z) : bool := false.

Definition sample_cursor : FeedCursorV1 := {|
  installation_id := "i"; feed_id := "42"; lease_epoch := "3"; config_version := "1";
  filter_hash := "f"; exp := 2 |}.

Lemma feed_cursor_roundtrip_witness :
  decodeFeedCursor toy_hmac never (encodeFeedCursor toy_hmac sample_cursor "k") "k" 1999
  = DCursor (feed_json sample_cursor).
Proof.
  apply feed_cursor_roundtrip; [intros p; apply undotted_free|by vm_compute|by vm_compute].
Defined.

(** a token that decodes is a payload followed by the HMAC of that payload
    under the feed's secret, its document is the payload's, it is still live,
    and the same token is never a cursor of the scope feed. *)
Theorem feed_cursor_sound hmac frac_expired token secret now v :
  decodeFeedCursor hmac frac_expired token secret now = DCursor v →
  (∃ payload, token = payload +:+ "." +:+ hmac secret payload ∧ payload_json payload = Some v)
  ∧ feed_ok v = true ∧ live frac_expired (js_get v "exp") now = true
  ∧ ∀ now' w, decodeScopeFeedCursor hmac frac_expired token secret now' ≠ DCursor w.
Proof.
  intros (p & Hp & Hj & Hok & Hl)%decode_feed_inv.
  pose proof (verified_payload_sound hmac _ _ _ Hp) as [Ht _].
  split_and!; [by exists p|done|done|]. intros now' w H. unfold decodeScopeFeedCursor in H.
  destruct (negb _); [done|].
  destruct (verified_payload hmac token (scope_secret secret)) as [q|] eqn:Hq; [|done].
  assert (q = p) as ->.
  { unfold verified_payload in Hp, Hq. destruct (split_last_dot token) as [[a b]|]; [|done].
    destruct (bool_decide _); [done|]. repeat case_match; congruence. }
  rewrite Hj in H. destruct (is_nullish v); [done|].
  unfold feed_ok, scope_ok in *. destruct (js_get v "v"); try done. simpl in *.
  destruct (z =? 1) eqn:E1; [|done]. destruct (z =? 2) eqn:E2; [lia|done].
Qed.

Lemma feed_cursor_sound_witness :
  live never (js_get (feed_json sample_cursor) "exp") 1999 = true
  ∧ ∀ now' w, decodeScopeFeedCursor toy_hmac never (encodeFeedCursor toy_hmac sample_cursor "k") "k" now'
      ≠ DCursor w.
Proof.
  assert (H : decodeFeedCursor toy_hmac never (encodeFeedCursor toy_hmac sample_cursor "k") "k" 1999
    = DCursor (feed_json sample_cursor)).
  { apply decode_encode; [intros p; apply undotted_free|by vm_compute|by vm_compute]. }
  destruct (feed_cursor_sound _ _ _ _ _ _ H) as (_ & _ & Hl & Hn). by split.
Defined.
