(* ===== verification/FeedDelivery.v ===== *)
(** * FeedDelivery: the extension feed of one owner's sessions
    (relay/src/extensions: journal.ts, feed-projector.ts, envelope.ts,
    feed-repository.ts, feed-routes.ts, retention.ts,
    installation-repository.ts, installation-routes.ts; the statements of
    purge-routes.ts, provider-installation-routes.ts and db.ts on the same
    tables).

    Canonical events are journaled, projected to [extension_feed] in the order
    of their sequence numbers, pulled by providers under a lease and
    acknowledged.  The tables are one record; every handler is a transaction and
    a function of it, and one that fails changes nothing.

    Arguments stand for: the digests; [date_ok], whether [Date.parse] accepts a
    text; [team_control], the SQL test of a content-free Team privacy packet
    (feed-repository.ts 194-231, team-delivery-revocation-filter.ts); the table
    of sessions; the random lease token; the clocks, in milliseconds.  Feed ids
    and epochs are exact integers. *)

From Stdlib Require Import Ascii.
From stdpp Require Import pretty.
From S2P Require Import Prelude JsValue StrictJson StrictJsonSpec JsonRoundTrip FeedCursor.

#[local] Open Scope Z_scope.

(** ** Topics and scopes *)

Definition extensionTopicForEventType (eventType : string) : string :=
  if bool_decide (eventType = "turn_status") then "turn.lifecycle.v1"
  else if bool_decide (eventType ∈ ["session_created"; "session_discovered"; "session_status"])
  then "session.lifecycle.v1" else "session.event.v1".

Definition requiredExtensionScopeForTopic (topic : string) : string :=
  if bool_decide (topic = "session.deleted.v1") || bool_decide (topic = "session.access.revoked.v1")
  then "session:deletion:read" else "session:events:read".

Definition extensionTopicForSource (source_kind event_type : string) : string :=
  if bool_decide (source_kind = "session_deleted") then "session.deleted.v1"
  else if bool_decide (source_kind = "session_access_revoked") then "session.access.revoked.v1"
  else extensionTopicForEventType event_type.

(** ** Tables *)

Record ExtensionSourceRow : Type := {
  source_seq : Z; source_kind : string; source_id : string; so_owner : Z;
  so_session : option string; so_event_type : string; so_payload : jsval; so_recorded : string
}.

Record FeedRow : Type := {
  fr_id : Z; fr_owner : Z; fr_topic : string; fr_kind : string; fr_source : string;
  fr_session : option string; fr_turn : option string; fr_payload : jsval; fr_created : Z
}.

Inductive InstallationStatus : Type := Pending | Active | Paused | Revoking | Revoked.

#[global] Instance InstallationStatus_eq : EqDecision InstallationStatus.
Proof. solve_decision. Defined.

Record Installation : Type := {
  in_provider : string; in_owner : option Z; in_personal : bool; in_status : InstallationStatus;
  granted_scopes : list string; subscriptions : list string; event_filter : jsval;
  start_feed_id : Z; in_config_version : Z
}.

Record Checkpoint : Type := {
  ack_feed_id : Z; cp_lease_epoch : Z; lease_token_hash : option string;
  lease_expires_at : option Z; snapshot_required : bool
}.

(** The row [INSERT INTO extension_checkpoints (installation_id)] makes. *)
Definition new_checkpoint : Checkpoint := {|
  ack_feed_id := 0; cp_lease_epoch := 0; lease_token_hash := None; lease_expires_at := None;
  snapshot_required := false |}.

Record Db : Type := {
  outbox : list ExtensionSourceRow; next_seq : Z;
  feed : list FeedRow; next_feed : Z;
  installations : gmap string Installation;
  checkpoints : gmap string Checkpoint
}.

(** ** The journal *)

Definition same_source (kind id : string) (r : ExtensionSourceRow) : bool :=
  bool_decide (source_kind r = kind) && bool_decide (source_id r = id).

(** [sanitized] is the payload after [sanitizeJSONBPayload]; a conflict still
    draws a sequence number. *)
Definition appendCanonicalEvent (sourceEventId owner : Z) (session eventType : string)
  (sanitized : jsval) (recorded : string) (d : Db) : Db :=
  let id := "event:" +:+ pretty sourceEventId in
  let row := {| source_seq := next_seq d; source_kind := "canonical_event"; source_id := id;
    so_owner := owner; so_session := Some session; so_event_type := eventType;
    so_payload := sanitized; so_recorded := recorded |} in {|
  outbox := if existsb (same_source "canonical_event" id) (outbox d) then outbox d
            else outbox d ++ [row];
  next_seq := next_seq d + 1; feed := feed d; next_feed := next_feed d;
  installations := installations d; checkpoints := checkpoints d |}.

(** ** Provenance and envelopes *)

Definition identifier_first (c : ascii) : bool :=
  ((97 <=? code c) && (code c <=? 122)) || ((65 <=? code c) && (code c <=? 90))
  || ((48 <=? code c) && (code c <=? 57)).

Definition identifier_rest (c : ascii) : bool :=
  identifier_first c || (code c =? 46) || (code c =? 95) || (code c =? 58) || (code c =? 47)
  || (code c =? 45).

Definition identifier (v : jsval) : bool :=
  match v with
  | JStr (String c s) => identifier_first c && forallb identifier_rest (chars s) && (str_len s <=? 255)
  | _ => false
  end.

Definition member (v : jsval) (values : list string) : bool :=
  match v with JStr s => bool_decide (s ∈ values) | _ => false end.

(** [/^[1-9][0-9]{0,19}$/]. *)
Definition positive_decimal (s : string) : bool :=
  match s with
  | String c s' => negb (code c =? 48) && all_digits s && (str_len s' <=? 19)
  | EmptyString => false
  end.

Definition is_defined (v : jsval) : bool := match v with JUndef => false | _ => true end.

Definition optional_field (k : string) (v : jsval) : list (string * jsval) :=
  if truthy v then [(k, v)] else [].

Definition parseMemorySourceProvenance (raw : jsval) : option (list (string * jsval)) :=
  match raw with
  | JObj _ =>
      let p := js_get raw in
      if negb (is_number (p "version") 1)
         || negb (member (p "producer") ["codex"; "opencode"; "claude"])
         || negb (identifier (p "session_id")) || negb (identifier (p "turn_id"))
         || negb (identifier (p "event_id")) || negb (identifier (p "invocation_id"))
         || negb (match p "sequence" with JStr s => positive_decimal s | _ => false end)
         || negb (member (p "source_role") ["user"; "assistant"; "tool"; "summary"; "system"])
         || negb (member (p "skill_state") ["non_skill"; "skill"; "unknown"])
         || negb (match p "lineage_complete" with JBool _ => true | _ => false end)
         || (is_defined (p "parent_invocation_id") && negb (identifier (p "parent_invocation_id")))
         || (is_defined (p "skill_invocation_id") && negb (identifier (p "skill_invocation_id")))
         || negb (match p "derived_from_event_ids" with
                  | JArr l => (len l <=? 32)%Z && forallb identifier l
                  | _ => false
                  end)
      then None
      else Some ((
        [("version", JNum 1); ("producer", p "producer"); ("session_id", p "session_id");
         ("turn_id", p "turn_id"); ("event_id", p "event_id"); ("sequence", p "sequence");
         ("invocation_id", p "invocation_id")]
        ++ optional_field "parent_invocation_id" (p "parent_invocation_id")
        ++ [("source_role", p "source_role"); ("skill_state", p "skill_state")]
        ++ optional_field "skill_invocation_id" (p "skill_invocation_id")
        ++ [("lineage_complete", p "lineage_complete");
            ("derived_from_event_ids", p "derived_from_event_ids")])%list)
  | _ => None
  end%string.

Definition turn_of (payload : jsval) : option string :=
  match nonempty_str (js_get payload "turn_id") with
  | Some t => Some t
  | None => nonempty_str (js_get payload "source_turn_id")
  end.

Definition opt_json (o : option string) : jsval := match o with Some s => JStr s | None => JNull end.

Definition classification_texts (payload : jsval) : list (string * jsval) :=
  flat_map (λ k, match js_get payload k with JStr s => [(k, JStr s)] | _ => [] end)
    ["actor_scope"; "flow_scope"; "content_class"; "classifier_version"]%string.

Definition memory_source (row : ExtensionSourceRow) : list (string * jsval) :=
  if bool_decide (source_kind row = "canonical_event"%string) then
    match parseMemorySourceProvenance (js_get (so_payload row) "memory_source") with
    | Some proof =>
        let seq := pretty (source_seq row) in
        if strict_eq (lookup_field "session_id" proof) (opt_json (so_session row))
           && match turn_of (so_payload row) with
              | Some t => strict_eq (lookup_field "turn_id" proof) (JStr t)
              | None => false
              end
           && positive_decimal seq
        then [("memory_source"%string, JObj (set_field "sequence" (JStr seq) proof))] else []
    | None => []
    end
  else [].

Definition buildStoredFeedPayload (row : ExtensionSourceRow) : list (string * jsval) :=
  [("envelope_version", JNum 1);
   ("topic", JStr (extensionTopicForSource (source_kind row) (so_event_type row)));
   ("source", JObj [("kind", JStr (source_kind row)); ("id", JStr (source_id row));
      ("recorded_at", JStr (so_recorded row))]);
   ("subject", JObj ([("session_id", opt_json (so_session row))]
      ++ match turn_of (so_payload row) with Some t => [("turn_id", JStr t)] | None => [] end
      ++ [("event_type", JStr (so_event_type row))])%list);
   ("classification", JObj (classification_texts (so_payload row) ++ memory_source row)%list);
   ("data", so_payload row)]%string.

(** ** The projector *)

Definition same_feed_key (kind id topic : string) (r : FeedRow) : bool :=
  bool_decide (fr_kind r = kind) && bool_decide (fr_source r = id) && bool_decide (fr_topic r = topic).

(** [NULLIF(_, '')]. *)
Definition nullif_empty (o : option string) : option string :=
  match o with Some EmptyString => None | _ => o end.

(** [INSERT ... ON CONFLICT DO NOTHING] of one row at [now]. *)
Definition insert_feed_row (now : Z) (acc : list FeedRow * Z) (row : ExtensionSourceRow)
  : list FeedRow * Z :=
  let '(l, next) := acc in
  let topic := extensionTopicForSource (source_kind row) (so_event_type row) in
  if existsb (same_feed_key (source_kind row) (source_id row) topic) l then (l, next + 1)
  else (l ++ [{| fr_id := next; fr_owner := so_owner row; fr_topic := topic;
                 fr_kind := source_kind row; fr_source := source_id row;
                 fr_session := nullif_empty (so_session row);
                 fr_turn := nullif_empty (turn_of (so_payload row));
                 fr_payload := JObj (buildStoredFeedPayload row); fr_created := now |}], next + 1).

(** The first rows by sequence number that no other transaction has locked. *)
Definition claimSourceBatch (locked : list Z) (limit : nat) (d : Db) : list ExtensionSourceRow :=
  take limit (bfilter (λ r, negb (bool_decide (source_seq r ∈ locked))) (outbox d)).

(** [acquired]: the advisory lock, which makes the projector single-active. *)
Definition projectFeedBatch (now : Z) (acquired : bool) (locked : list Z) (batchSize : nat) (d : Db)
  : Db * (Z * bool) :=
  if negb acquired then (d, (0, true))
  else
    let rows := claimSourceBatch locked batchSize d in
    let '(feed', next') := fold_left (insert_feed_row now) rows (feed d, next_feed d) in
    ({| outbox := bfilter (λ r, negb (bool_decide (source_seq r ∈ map source_seq rows))) (outbox d);
        next_seq := next_seq d; feed := feed'; next_feed := next';
        installations := installations d; checkpoints := checkpoints d |},
     (len rows, false)).

(** ** Pulling *)

Inductive ExtensionErrorCode : Type :=
| Unauthorized | Forbidden | NotFound | InvalidRequest | StaleLease | CursorExpired
| InstallationPaused | InstallationRevoked | FeatureDisabled | InternalError.

Record FeedRouteDeps : Type := {
  enabled : bool; cursorSecret : string; leaseTtlSeconds : Z; maxResponseBytes : Z; maxItems : Z
}.

(** [pq_limit]: [Number(query.limit)] when it is a safe integer. *)
Record PullRequest : Type := {
  pq_provider : option string; pq_installation : string; pq_limit : option Z;
  pq_cursor : option string; pq_quarantine : bool
}.

Record PullResponse : Type := {
  pr_items : list (Z * jsval); pr_cursor : FeedCursorV1; pr_lease_token : string;
  pr_lease_expires : Z
}.

Definition any_hex (c : ascii) : bool := lower_hex c || ((65 <=? code c) && (code c <=? 70)).

Definition is_installation_id (s : string) : bool := hex_groups any_hex 8 [4; 4; 4; 12]%nat s.

Definition pull_limit (deps : FeedRouteDeps) (raw : option Z) : Z :=
  match raw with Some n => Z.min (Z.max 1 n) (maxItems deps) | None => maxItems deps end.

(** [filter.daemon_ids], when it is an array. *)
Definition filter_values (filter : jsval) (k : string) : list string :=
  match js_get filter k with JArr l => map js_String l | _ => [] end.

Definition field_number (v : jsval) (k : string) : Z := default 0 (js_Number (js_get v k)).

(** What the queries read of a session. *)
Record SessionInfo : Type := { se_user : Z; se_daemon : string; se_agent : string }.

Section delivery.
Context (hmac : string → string → string) (sha256_hex : string → string).
Context (frac_expired : string → Z → bool) (date_ok : string → bool).
Context (sessions : string → option SessionInfo) (team_control : FeedRow → bool).
Context (deps : FeedRouteDeps).

(** A filter of the content of sessions; tombstones pass. *)
Definition passes (values : list string) (field : SessionInfo → string) (r : FeedRow) : bool :=
  bool_decide (values = []) || negb (bool_decide (fr_kind r = "canonical_event"%string))
  || match s ← fr_session r; sessions s with
     | Some s => bool_decide (field s ∈ values)
     | None => false
     end.

Definition mandatory (i : Installation) : bool :=
  bool_decide (in_provider i = "pocketctl-memory"%string) && in_personal i.

(** The [WHERE] clause of [queryFeedRows], but for the position. *)
Definition wanted (i : Installation) (r : FeedRow) : bool :=
  bool_decide (in_owner i = Some (fr_owner r))
  && (bool_decide (fr_topic r ∈ subscriptions i) || (mandatory i && team_control r))
  && passes (filter_values (event_filter i) "daemon_ids") se_daemon r
  && passes (filter_values (event_filter i) "agent_types") se_agent r.

Definition queryFeedRows (i : Installation) (afterFeedId limit : Z) (d : Db) : list FeedRow :=
  take (Z.to_nat (Z.max 1 limit))
    (bfilter (λ r, wanted i r && (afterFeedId <? fr_id r)) (feed d)).

Definition bounded_text (v : jsval) : bool :=
  match v with
  | JStr s =>
      (0 <? str_len s) && (str_len s <=? 256)
      && forallb (λ c, identifier_rest c || (code c =? 64)) (chars s)
  | _ => false
  end.

Definition content_events : list string :=
  ["agent_text"; "user_message"; "user_text"; "user_goal"; "tool_call"; "tool_result";
   "command_list"; "session_agent_list"]%string.

Definition oversizedContentEnvelope (envelope : jsval) (originalBytes : Z) : option jsval :=
  let subject := js_get envelope "subject" in
  let source := js_get envelope "source" in
  if negb (is_number (js_get envelope "envelope_version") 1)
     || negb (is_str (js_get envelope "topic") "session.event.v1")
     || negb (truthy subject) || negb (truthy source)
     || negb (is_str (js_get source "kind") "canonical_event")
     || negb (bounded_text (js_get source "id")) || negb (bounded_text (js_get subject "session_id"))
     || (is_defined (js_get subject "turn_id") && negb (bounded_text (js_get subject "turn_id")))
     || negb (bool_decide (js_String (js_get subject "event_type") ∈ content_events))
     || negb (match js_get source "recorded_at" with
              | JStr s => (str_len s <=? 64) && date_ok s
              | _ => false
              end)
  then None
  else Some (JObj
    [("envelope_version", JNum 1); ("feed_id", js_get envelope "feed_id");
     ("topic", js_get envelope "topic");
     ("source", JObj [("kind", JStr "canonical_event"); ("id", js_get source "id");
        ("recorded_at", js_get source "recorded_at")]);
     ("subject", JObj ([("session_id", js_get subject "session_id")]
        ++ optional_field "turn_id" (js_get subject "turn_id")
        ++ [("event_type", js_get subject "event_type")])%list);
     ("classification", JObj []); ("data", JObj []);
     ("quarantine", JObj [("reason", JStr "oversized_content");
        ("original_bytes", JNum originalBytes);
        ("original_sha256", JStr (sha256_hex (json_text envelope)))])]%string).

(** [{...row.payload, feed_id: String(row.feed_id)}]. *)
Definition envelope_of (r : FeedRow) : jsval :=
  let id := JStr (pretty (fr_id r)) in
  match fr_payload r with
  | JObj fields => JObj (set_field "feed_id" id fields)
  | _ => JObj [("feed_id"%string, id)]
  end.

Definition delivered_envelope (quarantine : bool) (r : FeedRow) : jsval :=
  let envelope := envelope_of r in
  let size := json_bytes envelope in
  if (maxResponseBytes deps <? size) && quarantine then
    default envelope (oversizedContentEnvelope envelope size)
  else envelope.

(** The loop over the rows; [None] is the error of an item beyond the budget. *)
Fixpoint fill (quarantine : bool) (rows : list FeedRow) (budget last : Z)
  : option (list (Z * jsval) * Z) :=
  match rows with
  | [] => Some ([], last)
  | r :: rows' =>
      let envelope := delivered_envelope quarantine r in
      let size := json_bytes envelope in
      if maxResponseBytes deps <? size then None
      else if budget <? size then Some ([], last)
      else
        match fill quarantine rows' (budget - size) (fr_id r) with
        | None => None
        | Some (items, last') => Some ((fr_id r, envelope) :: items, last')
        end
  end.

(** The installation of the provider and its checkpoint, made if it is missing. *)
Definition getInstallationWithCheckpoint (d : Db) (id provider : string)
  : option (Installation * Checkpoint) :=
  match installations d !! id with
  | Some i =>
      if bool_decide (in_provider i = provider)
      then Some (i, default new_checkpoint (checkpoints d !! id)) else None
  | None => None
  end.

(** Where to read from and under which epoch. *)
Definition pull_position (nowMs : Z) (id : string) (i : Installation) (cp : Checkpoint)
  (cursorToken : option string) : ExtensionErrorCode + (Z * Z) :=
  match cursorToken with
  | None => inr (Z.max (ack_feed_id cp) (start_feed_id i), cp_lease_epoch cp + 1)
  | Some token =>
      match decodeFeedCursor hmac frac_expired token (cursorSecret deps) nowMs with
      | DThrow => inl InternalError
      | DNull => inl CursorExpired
      | DCursor v =>
          if negb (is_str (js_get v "installation_id") id)
             || negb (is_str (js_get v "filter_hash")
                        (filterHashForInstallation sha256_hex (event_filter i)))
             || negb (is_str (js_get v "config_version") (pretty (in_config_version i)))
          then inl CursorExpired
          else if field_number v "lease_epoch" <? cp_lease_epoch cp then inl StaleLease
          else inr (field_number v "feed_id", field_number v "lease_epoch")
      end
  end.

Definition active (i : Installation) : Installation := {|
  in_provider := in_provider i; in_owner := in_owner i; in_personal := in_personal i;
  in_status := match in_status i with Pending => Active | st => st end;
  granted_scopes := granted_scopes i; subscriptions := subscriptions i;
  event_filter := event_filter i; start_feed_id := start_feed_id i;
  in_config_version := in_config_version i |}.

Definition leased (cp : Checkpoint) (epoch : Z) (hash : string) (expires : Z) : Checkpoint := {|
  ack_feed_id := ack_feed_id cp; cp_lease_epoch := epoch; lease_token_hash := Some hash;
  lease_expires_at := Some expires; snapshot_required := snapshot_required cp |}.

Definition CURSOR_TTL_SECONDS : Z := 900.

(** The checks on the installation, in the order of the handler. *)
Definition pull_refusal (i : Installation) (cp : Checkpoint) : option ExtensionErrorCode :=
  match in_owner i with
  | None => Some NotFound
  | Some _ =>
      match in_status i with
      | Paused => Some InstallationPaused
      | Revoking | Revoked => Some InstallationRevoked
      | _ =>
          if snapshot_required cp then Some CursorExpired
          else if bool_decide (subscriptions i = []) && negb (mandatory i) then Some InvalidRequest
          else if negb (forallb (λ t, bool_decide (requiredExtensionScopeForTopic t ∈ granted_scopes i))
                          (subscriptions i)) then Some Forbidden
          else None
      end
  end.

(** [GET /api/extensions/v1/feed], after the rate limiter; [token] is the random
    lease token. *)
Definition pull_feed (nowMs : Z) (token : string) (q : PullRequest) (d : Db)
  : Db * (ExtensionErrorCode + PullResponse) :=
  if negb (enabled deps) then (d, inl FeatureDisabled)
  else
    match pq_provider q with
    | None => (d, inl Unauthorized)
    | Some provider =>
        let id := pq_installation q in
        if negb (is_installation_id id) then (d, inl InvalidRequest)
        else
          match getInstallationWithCheckpoint d id provider with
          | None => (d, inl NotFound)
          | Some (i, cp) =>
              match pull_refusal i cp with
              | Some e => (d, inl e)
              | None =>
                  match pull_position nowMs id i cp (pq_cursor q) with
                  | inl e => (d, inl e)
                  | inr (afterFeedId, leaseEpoch) =>
                      match fill (pq_quarantine q)
                              (queryFeedRows i afterFeedId (pull_limit deps (pq_limit q)) d)
                              (maxResponseBytes deps) afterFeedId with
                      | None => (d, inl InvalidRequest)
                      | Some (items, lastFeedId) =>
                          let expires := nowMs + leaseTtlSeconds deps * 1000 in
                          let hash := leaseBindingHash sha256_hex id leaseEpoch token lastFeedId in
                          ({| outbox := outbox d; next_seq := next_seq d; feed := feed d;
                              next_feed := next_feed d;
                              installations := <[id := active i]> (installations d);
                              checkpoints :=
                                <[id := leased cp leaseEpoch hash expires]> (checkpoints d) |},
                           inr {| pr_items := items;
                                  pr_cursor := {|
                                    installation_id := id; feed_id := pretty lastFeedId;
                                    lease_epoch := pretty leaseEpoch;
                                    config_version := pretty (in_config_version i);
                                    filter_hash :=
                                      filterHashForInstallation sha256_hex (event_filter i);
                                    exp := nowMs / 1000 + CURSOR_TTL_SECONDS |};
                                  pr_lease_token := token; pr_lease_expires := expires |})
                      end
                  end
              end
          end
    end.

(** ** Acknowledging *)

Definition ackCheckpoint (now : Z) (id : string) (epoch : Z) (hash : string) (newAck : Z) (d : Db)
  : Db * option Z :=
  match checkpoints d !! id with
  | Some cp =>
      if (cp_lease_epoch cp =? epoch) && bool_decide (lease_token_hash cp = Some hash)
         && match lease_expires_at cp with Some t => now <? t | None => false end
      then
        let ack := Z.max (ack_feed_id cp) newAck in
        ({| outbox := outbox d; next_seq := next_seq d; feed := feed d; next_feed := next_feed d;
            installations := installations d;
            checkpoints := <[id := {| ack_feed_id := ack; cp_lease_epoch := cp_lease_epoch cp;
              lease_token_hash := lease_token_hash cp; lease_expires_at := lease_expires_at cp;
              snapshot_required := snapshot_required cp |}]> (checkpoints d) |}, Some ack)
      else (d, None)
  | None => (d, None)
  end.

Record AckRequest : Type := {
  aq_provider : option string; aq_installation : string; aq_cursor : string; aq_lease_token : string
}.

Definition with_checkpoint (d : Db) (id : string) (cp : Checkpoint) : Db := {|
  outbox := outbox d; next_seq := next_seq d; feed := feed d; next_feed := next_feed d;
  installations := installations d; checkpoints := <[id := cp]> (checkpoints d) |}.

(** [POST /api/extensions/v1/feed/ack], after the rate limiter.  A refused
    acknowledgement is committed: the checkpoint row it made stays. *)
Definition ack_feed (nowMs nowDb : Z) (q : AckRequest) (d : Db) : Db * (ExtensionErrorCode + Z) :=
  if negb (enabled deps) then (d, inl FeatureDisabled)
  else
    match aq_provider q with
    | None => (d, inl Unauthorized)
    | Some provider =>
        let id := aq_installation q in
        if negb (is_installation_id id) || bool_decide (aq_cursor q = EmptyString)
           || bool_decide (aq_lease_token q = EmptyString) then (d, inl InvalidRequest)
        else
          match decodeFeedCursor hmac frac_expired (aq_cursor q) (cursorSecret deps) nowMs with
          | DThrow => (d, inl InternalError)
          | DNull => (d, inl CursorExpired)
          | DCursor v =>
              if negb (is_str (js_get v "installation_id") id) then (d, inl CursorExpired)
              else
                match getInstallationWithCheckpoint d id provider with
                | None => (d, inl NotFound)
                | Some (i, cp) =>
                    match in_status i with
                    | Paused => (d, inl InstallationPaused)
                    | Revoking | Revoked => (d, inl InstallationRevoked)
                    | _ =>
                        if negb (is_str (js_get v "config_version") (pretty (in_config_version i)))
                           || negb (is_str (js_get v "filter_hash")
                                      (filterHashForInstallation sha256_hex (event_filter i)))
                        then (d, inl CursorExpired)
                        else
                          let position := field_number v "feed_id" in
                          let epoch := field_number v "lease_epoch" in
                          let hash := leaseBindingHash sha256_hex id epoch (aq_lease_token q) position in
                          let '(d', acked) :=
                            ackCheckpoint nowDb id epoch hash position (with_checkpoint d id cp) in
                          (d', match acked with Some a => inr a | None => inl StaleLease end)
                    end
                end
          end
    end.

(** ** Retention *)

(** The installation still reads rows like this one: the conditions both passes
    share, the filters on arrays. *)
Definition needs (i : Installation) (r : FeedRow) : bool :=
  let own := match s ← fr_session r; sessions s with
             | Some s => bool_decide (in_owner i = Some (se_user s)) | None => true end in
  bool_decide (in_owner i = Some (fr_owner r))
  && bool_decide (in_status i ∈ [Pending; Active; Paused])
  && bool_decide (fr_topic r ∈ subscriptions i)
  && bool_decide (requiredExtensionScopeForTopic (fr_topic r) ∈ granted_scopes i)
  && (negb (bool_decide (fr_kind r = "canonical_event"%string))
      || ((bool_decide (filter_values (event_filter i) "daemon_ids" = [])
           || (own && passes (filter_values (event_filter i) "daemon_ids") se_daemon r))
          && (bool_decide (filter_values (event_filter i) "agent_types" = [])
              || (own && passes (filter_values (event_filter i) "agent_types") se_agent r)))).

Definition flagged (d : Db) (k : string) : bool :=
  match checkpoints d !! k with Some cp => snapshot_required cp | None => false end.

(** [COALESCE(c.ack_feed_id, i.start_feed_id)]. *)
Definition consumed_up_to (d : Db) (k : string) (i : Installation) : Z :=
  match checkpoints d !! k with Some cp => ack_feed_id cp | None => start_feed_id i end.

Definition lagging (d : Db) (r : FeedRow) (x : string * Installation) : bool :=
  needs x.2 r && negb (flagged d x.1) && (consumed_up_to d x.1 x.2 <? fr_id r).

(** [Math.max(1, Math.trunc(days))] of whole days, in milliseconds. *)
Definition interval_ms (days : Z) : Z := Z.max 1 days * 86400000.

Definition delete_rows (victims : list Z) (d : Db) : Db := {|
  outbox := outbox d; next_seq := next_seq d;
  feed := bfilter (λ r, negb (bool_decide (fr_id r ∈ victims))) (feed d);
  next_feed := next_feed d; installations := installations d; checkpoints := checkpoints d |}.

(** The first rows the test selects that are not locked. *)
Definition victims_of (test : FeedRow → bool) (locked : list Z) (batch : nat) (d : Db) : list Z :=
  map fr_id (take batch (bfilter (λ r, test r && negb (bool_decide (fr_id r ∈ locked))) (feed d))).

Definition soft_pass (now retentionDays : Z) (locked : list Z) (batch : nat) (d : Db) : Db :=
  delete_rows (victims_of (λ r, (fr_created r <? now - interval_ms retentionDays)
    && negb (existsb (lagging d r) (map_to_list (installations d)))) locked batch d) d.

Definition flag (cp : Checkpoint) : Checkpoint := {|
  ack_feed_id := ack_feed_id cp; cp_lease_epoch := cp_lease_epoch cp;
  lease_token_hash := lease_token_hash cp; lease_expires_at := lease_expires_at cp;
  snapshot_required := true |}.

(** The installations behind a row past the hard limit. *)
Definition to_flag (now hardMaxDays : Z) (d : Db) : list string :=
  map fst (bfilter (λ x, existsb (λ r, (fr_created r <? now - interval_ms hardMaxDays)
                                       && lagging d r x) (feed d))
             (map_to_list (installations d))).

Definition mark_pass (now hardMaxDays : Z) (d : Db) : Db := {|
  outbox := outbox d; next_seq := next_seq d; feed := feed d; next_feed := next_feed d;
  installations := installations d;
  checkpoints := fold_left (λ m k, <[k := flag (default new_checkpoint (m !! k))]> m)
                   (to_flag now hardMaxDays d) (checkpoints d) |}.

Definition hard_pass (now hardMaxDays : Z) (locked : list Z) (batch : nat) (d : Db) : Db :=
  delete_rows (victims_of (λ r, fr_created r <? now - interval_ms hardMaxDays) locked batch d) d.

(** The three statements, each at its own [NOW()]. *)
Definition runFeedRetentionOnce (now1 now2 now3 retentionDays hardMaxDays : Z)
  (locked1 locked3 : list Z) (batch : nat) (d : Db) : Db :=
  hard_pass now3 hardMaxDays locked3 batch
    (mark_pass now2 hardMaxDays (soft_pass now1 retentionDays locked1 batch d)).

(** ** Replay *)

(** [resetCheckpointForReplay]; a missing checkpoint stays missing. *)
Definition resetCheckpointForReplay (id : string) (ackFeedId startFeedId : Z) (d : Db) : Db * Z := (
  {| outbox := outbox d; next_seq := next_seq d; feed := feed d; next_feed := next_feed d;
     installations := alter (λ i, {|
       in_provider := in_provider i; in_owner := in_owner i; in_personal := in_personal i;
       in_status := in_status i; granted_scopes := granted_scopes i;
       subscriptions := subscriptions i; event_filter := event_filter i;
       start_feed_id := Z.min (start_feed_id i) startFeedId;
       in_config_version := in_config_version i |}) id (installations d);
     checkpoints := alter (λ cp, {|
       ack_feed_id := ackFeedId; cp_lease_epoch := cp_lease_epoch cp + 1;
       lease_token_hash := None; lease_expires_at := None; snapshot_required := false |}) id
       (checkpoints d) |},
  match checkpoints d !! id with Some cp => cp_lease_epoch cp + 1 | None => 0 end).
End delivery.

(** ** Installations *)

Definition with_installations (d : Db) (m : gmap string Installation) : Db := {|
  outbox := outbox d; next_seq := next_seq d; feed := feed d; next_feed := next_feed d;
  installations := m; checkpoints := checkpoints d |}.

Definition ALLOWED_TRANSITIONS (from : InstallationStatus) : list InstallationStatus :=
  match from with
  | Pending => [Active; Paused; Revoking]
  | Active => [Paused; Revoking]
  | Paused => [Active; Revoking]
  | Revoking => [Revoked]
  | Revoked => []
  end.

Definition canTransitionInstallation (from to : InstallationStatus) : bool :=
  bool_decide (to ∈ ALLOWED_TRANSITIONS from).

(** What [SELECT COALESCE(MAX(feed_id), 0)] gives. *)
Definition feed_head (d : Db) : Z := foldr Z.max 0 (map fr_id (feed d)).

Record CreateInstallationInput : Type := {
  ci_owner : Z; ci_provider : string; ci_scopes : list string; ci_subscriptions : list string;
  ci_filter : jsval; ci_from_now : bool
}.

Inductive InstallationError : Type := InstallConflict | InstallNotFound | InstallTransition | InstallVersion.

(** [createInstallation]: the head is read by an earlier statement, on [before];
    [id] is the random identifier. *)
Definition createInstallation (id : string) (input : CreateInstallationInput) (before d : Db)
  : Db * (InstallationError + Installation) :=
  let taken := existsb (λ x : string * Installation,
    bool_decide (in_owner x.2 = Some (ci_owner input)) && bool_decide (in_provider x.2 = ci_provider input)
    && bool_decide (in_status x.2 ∈ [Pending; Active; Paused; Revoking])) (map_to_list (installations d)) in
  if taken then (d, inl InstallConflict)
  else
    let i := {| in_provider := ci_provider input; in_owner := Some (ci_owner input); in_personal := true;
      in_status := Pending; granted_scopes := ci_scopes input; subscriptions := ci_subscriptions input;
      event_filter := ci_filter input; start_feed_id := if ci_from_now input then feed_head before else 0;
      in_config_version := 1 |} in
    (with_installations d (<[id := i]> (installations d)), inr i).

Record UpdateInstallationPatch : Type := {
  up_status : option InstallationStatus; up_scopes : option (list string);
  up_subscriptions : option (list string); up_filter : option jsval
}.

Definition patched (p : UpdateInstallationPatch) (i : Installation) : Installation := {|
  in_provider := in_provider i; in_owner := in_owner i; in_personal := in_personal i;
  in_status := default (in_status i) (up_status p);
  granted_scopes := default (granted_scopes i) (up_scopes p);
  subscriptions := default (subscriptions i) (up_subscriptions p);
  event_filter := default (event_filter i) (up_filter p);
  start_feed_id := start_feed_id i; in_config_version := in_config_version i + 1 |}.

(** The row of an owner. *)
Definition owned (owner : Z) (id : string) (d : Db) : option Installation :=
  match installations d !! id with
  | Some i => if bool_decide (in_owner i = Some owner) then Some i else None
  | None => None
  end.

Definition canTransitionTo (owner : Z) (id : string) (to : InstallationStatus) (d : Db)
  : option InstallationError :=
  match owned owner id d with
  | None => Some InstallNotFound
  | Some i => if canTransitionInstallation (in_status i) to then None else Some InstallTransition
  end.

(** [updateInstallation]: the transition is checked by an earlier statement, on
    [before]; the [UPDATE] is fenced by the configuration version. *)
Definition updateInstallation (owner : Z) (id : string) (expected : Z) (p : UpdateInstallationPatch)
  (before d : Db) : Db * (InstallationError + Installation) :=
  match match up_status p with Some to => canTransitionTo owner id to before | None => None end with
  | Some e => (d, inl e)
  | None =>
      match owned owner id d with
      | None => (d, inl InstallNotFound)
      | Some i =>
          if in_config_version i =? expected
          then (with_installations d (<[id := patched p i]> (installations d)), inr (patched p i))
          else (d, inl InstallVersion)
      end
  end.

(** [SET status = ..., config_version = config_version + 1]. *)
Definition restatus (st : InstallationStatus) (i : Installation) : Installation := {|
  in_provider := in_provider i; in_owner := in_owner i; in_personal := in_personal i; in_status := st;
  granted_scopes := granted_scopes i; subscriptions := subscriptions i; event_filter := event_filter i;
  start_feed_id := start_feed_id i; in_config_version := in_config_version i + 1 |}.

(** The [UPDATE] of [revokeInstallation]. *)
Definition revokeInstallation (owner : Z) (id : string) (d : Db) : Db * (InstallationError + unit) :=
  match owned owner id d with
  | Some i =>
      if bool_decide (in_status i = Revoked) then (d, inl InstallNotFound)
      else (with_installations d (<[id := restatus Revoking i]> (installations d)), inr tt)
  | None => (d, inl InstallNotFound)
  end.

(** The last [UPDATE] of an acknowledged purge: an uninstall is complete. *)
Definition finish_uninstall (provider id : string) (d : Db) : Db :=
  match installations d !! id with
  | Some i =>
      if bool_decide (in_provider i = provider) && bool_decide (in_status i = Revoking)
      then with_installations d (<[id := restatus Revoked i]> (installations d)) else d
  | None => d
  end.

(** An account is deleted: its installations end, and its feed goes. *)
Definition disowns (owner : Z) (i : Installation) : bool :=
  bool_decide (in_owner i = Some owner) && negb (bool_decide (in_status i = Revoked)).

Definition disowned (owner : Z) (i : Installation) : Installation :=
  if disowns owner i then {|
    in_provider := in_provider i; in_owner := None; in_personal := in_personal i; in_status := Revoked;
    granted_scopes := granted_scopes i; subscriptions := subscriptions i; event_filter := event_filter i;
    start_feed_id := start_feed_id i; in_config_version := in_config_version i + 1 |}
  else i.

Definition revokeExtensionDataForUser (owner : Z) (d : Db) : Db := {|
  outbox := bfilter (λ r, negb (so_owner r =? owner)) (outbox d); next_seq := next_seq d;
  feed := bfilter (λ r, negb (fr_owner r =? owner)) (feed d); next_feed := next_feed d;
  installations := disowned owner <$> installations d; checkpoints := checkpoints d |}.

(** A session is deleted: its content leaves the journal and the feed. *)
Definition erase_session (session : string) (d : Db) : Db := {|
  outbox := bfilter (λ r, negb (bool_decide (so_session r = Some session)
    && bool_decide (source_kind r = "canonical_event"%string))) (outbox d);
  next_seq := next_seq d;
  feed := bfilter (λ r, negb (bool_decide (fr_session r = Some session)
    && bool_decide (fr_kind r = "canonical_event"%string))) (feed d);
  next_feed := next_feed d; installations := installations d; checkpoints := checkpoints d |}.

(** [POST .../replay], its transaction; [ackFeedId] is 0 or the position of the
    cursor the user gave. *)
Definition replay_installation (owner : Z) (id : string) (ackFeedId : Z) (d : Db)
  : Db * (InstallationError + unit) :=
  match owned owner id d with
  | Some i =>
      if bool_decide (in_status i ∈ [Pending; Active; Paused]) then
        let d1 := (resetCheckpointForReplay id ackFeedId ackFeedId d).1 in
        (with_installations d1 (alter (restatus Active) id (installations d1)), inr tt)
      else (d, inl InstallTransition)
  | None => (d, inl InstallNotFound)
  end.

(** [POST .../reconciled]: the provider has taken its snapshot. *)
Definition reconcile_installation (provider id : string) (d : Db) : Db * option ExtensionErrorCode :=
  match getInstallationWithCheckpoint d id provider with
  | None => (d, Some NotFound)
  | Some (i, cp) =>
      if bool_decide (in_status i ∈ [Revoking; Revoked]) then (d, Some InstallationRevoked)
      else (with_checkpoint d id {|
              ack_feed_id := ack_feed_id cp; cp_lease_epoch := cp_lease_epoch cp;
              lease_token_hash := lease_token_hash cp; lease_expires_at := lease_expires_at cp;
              snapshot_required := false |}, None)
  end.
