(* ===== verification/FeedDeliverySpec.v ===== *)
(** * FeedDeliverySpec: nothing is acknowledged that was not served.

    The providers of an owner pull and acknowledge in any order, with any
    cursors they hold, while events are journaled and projected.  The checkpoint
    of an installation never passes a row it wants that was in no response to
    it; acknowledgements are fenced by the lease; retention deletes a row only
    when it is consumed or its reader is told to take a snapshot, but for a row
    that grows old between two of its statements. *)

From Stdlib Require Import Ascii.
From stdpp Require Import pretty.
From S2P Require Import Prelude JsValue StrictJson StrictJsonSpec JsonRoundTrip FeedCursor FeedDelivery.

#[local] Open Scope Z_scope.

#[local] Arguments String.append : simpl nomatch.

(** ** Numbers in cursors *)

Lemma space_not_plain c : is_space c = true → plain c = false.
Proof. unfold is_space, plain. intros H. lia. Qed.

Lemma trim_pretty (z : Z) : trim (pretty z) = pretty z.
Proof.
  apply trim_clean. intros c Hc. destruct (is_space c) eqn:E; [|done].
  apply space_not_plain in E. by apply (pretty_Z_plain z c) in E.
Qed.

Lemma take_digits_all t acc n :
  all_digits t = true →
  take_digits t acc n = (acc * 10 ^ Z.of_nat (slen t) + digits_value t, (n + slen t)%nat, EmptyString).
Proof.
  intros Ht. assert (Hv := take_digits_value t acc n Ht). revert Hv.
  assert (∀ acc n, ((take_digits t acc n).1.2, (take_digits t acc n).2) = ((n + slen t)%nat, EmptyString))
    as Hr.
  { clear acc n. induction t as [|c t IH]; intros acc n; simpl in *; [by rewrite Nat.add_0_r|].
    destruct (digit c) as [d|]; [|done]. rewrite IH by done. f_equal. lia. }
  specialize (Hr acc n). destruct (take_digits t acc n) as [[a b] c]. simpl in *.
  injection Hr as -> ->. by intros ->.
Qed.

Lemma decimal_natural (n : N) (sg : Z) :
  let '(ip, ni, r1) := take_digits (pretty n) 0 0 in
  ip = Z.of_N n ∧ (0 < ni)%nat ∧ r1 = EmptyString.
Proof.
  destruct (pretty_N_head n) as (c & t & d & Hp & Hd & Ht & Hv & _).
  rewrite take_digits_all by (rewrite Hp; simpl; by rewrite Hd).
  rewrite Hv, Hp. simpl. split_and!; [lia|lia|done].
Qed.

Lemma decimal_number_pretty (z : Z) : decimal_number (pretty z) = Some z.
Proof.
  unfold decimal_number.
  assert (Hsign : take_sign (pretty z) = (if z <? 0 then -1 else 1, pretty (Z.to_N (Z.abs z)))).
  { destruct (Z.ltb_spec z 0) as [Hz|Hz]; [by destruct z|].
    assert (pretty z = pretty (Z.to_N (Z.abs z))) as -> by (destruct z; [done|done|lia]).
    destruct (pretty_N_head (Z.to_N (Z.abs z))) as (c & t & d & Hp & Hd & _). rewrite Hp. simpl.
    apply digit_code in Hd as [Hc ?]. destruct (code c =? 45) eqn:E1; [lia|].
    by destruct (code c =? 43) eqn:E2; [lia|]. }
  rewrite Hsign. pose proof (decimal_natural (Z.to_N (Z.abs z)) 1) as Hn.
  destruct (take_digits (pretty (Z.to_N (Z.abs z))) 0 0) as [[ip ni] r1].
  destruct Hn as (-> & Hni & ->). destruct ni as [|ni]; [lia|]. simpl.
  unfold scale10. simpl. f_equal. destruct (Z.ltb_spec z 0); lia.
Qed.

(** A printed number of at least two characters does not begin with a zero. *)
Lemma pretty_no_zero (z : Z) a b s : pretty z = String a (String b s) → code a =? 48 = false.
Proof.
  intros H. destruct z as [|p|p]; [done| |].
  - change (pretty (Z.pos p)) with (pretty (Npos p)) in H.
    destruct (pretty_N_head (Npos p)) as (c & t & d & Hp & Hd & _ & _ & Hpos & _).
    rewrite Hp in H. injection H as <- _. apply digit_code in Hd as [Hc ?].
    specialize (Hpos ltac:(lia)). lia.
  - change (pretty (Z.neg p)) with (String "-" (pretty (Npos p))) in H. by injection H as <- _.
Qed.

Lemma number_of_pretty (z : Z) : js_Number (JStr (pretty z)) = Some z.
Proof.
  simpl. unfold string_to_number. rewrite trim_pretty. pose proof (decimal_number_pretty z) as Hd.
  destruct (pretty z) as [|a [|b [|c s]]] eqn:E; try exact Hd.
  - destruct (pretty_Z_head z) as (? & ? & Hp & _). congruence.
  - by rewrite (pretty_no_zero z a b (String c s)).
Qed.

(** ** The system *)

(** [fs_sessions]: the table of sessions; [fs_issued]: the cursors of every
    response; [fs_served]: the rows of every response, by installation;
    [fs_passed]: the rows a response left out because the installation did not
    want them, with the sessions as they were; [fs_base]: where the checkpoint
    of an installation stood when its configuration last changed. *)
Record FeedSystem : Type := {
  fs_db : Db;
  fs_sessions : string → option SessionInfo;
  fs_issued : list FeedCursorV1;
  fs_served : list (string * Z);
  fs_passed : list (string * Z * (string → option SessionInfo));
  fs_base : gmap string Z
}.

Definition at_tables (s : FeedSystem) (d : Db) : FeedSystem := {|
  fs_db := d; fs_sessions := fs_sessions s; fs_issued := fs_issued s; fs_served := fs_served s;
  fs_passed := fs_passed s; fs_base := fs_base s |}.

Definition acked (d : Db) (k : string) : Z := ack_feed_id (default new_checkpoint (checkpoints d !! k)).

(** The configuration of [k] changes: its base moves to its checkpoint. *)
Definition rebased (s : FeedSystem) (k : string) (d : Db) : FeedSystem := {|
  fs_db := d; fs_sessions := fs_sessions s; fs_issued := fs_issued s; fs_served := fs_served s;
  fs_passed := fs_passed s; fs_base := <[k := acked d k]> (fs_base s) |}.

(** The configuration of every installation of an account changes. *)
Definition rebased_account (s : FeedSystem) (owner : Z) (d : Db) : FeedSystem := {|
  fs_db := d; fs_sessions := fs_sessions s; fs_issued := fs_issued s; fs_served := fs_served s;
  fs_passed := fs_passed s;
  fs_base := map_imap (λ k i, Some (if disowns owner i then acked d k else default 0 (fs_base s !! k)))
    (installations (fs_db s)) ∪ fs_base s |}.

Definition base_of (s : FeedSystem) (k : string) : Z := default 0 (fs_base s !! k).

(** The position of a cursor. *)
Definition cursor_position (c : FeedCursorV1) : Z := default 0 (js_Number (JStr (feed_id c))).

(** Another writer of the journal. *)
Definition other_source (row : ExtensionSourceRow) (d : Db) : Db := {|
  outbox := outbox d ++ [row]; next_seq := next_seq d + 1; feed := feed d; next_feed := next_feed d;
  installations := installations d; checkpoints := checkpoints d |}.

Section system.
Context (hmac : string → string → string) (sha256_hex : string → string).
Context (frac_expired : string → Z → bool) (date_ok : string → bool).
Context (team_control : FeedRow → bool).
Context (deps : FeedRouteDeps).

(** A provider cannot make an HMAC: a token that decodes was issued. *)
Definition presents (s : FeedSystem) (token : string) : Prop :=
  ∀ now v, decodeFeedCursor hmac frac_expired token (cursorSecret deps) now = DCursor v →
    ∃ c, c ∈ fs_issued s ∧ v = feed_json c.

(** The rows between two positions that the installation does not want. *)
Definition unwanted (s : FeedSystem) (i : Installation) (after upto : Z) : list FeedRow :=
  bfilter (λ r, (after <? fr_id r) && (fr_id r <=? upto) && negb (wanted (fs_sessions s) team_control i r))
    (feed (fs_db s)).

(** A response to [k]: its cursor, its rows, and the rows it passes over. *)
Definition answered (s : FeedSystem) (k : string) (i : Installation) (after : Z) (d : Db) (r : PullResponse)
  : FeedSystem := {|
  fs_db := d; fs_sessions := fs_sessions s; fs_issued := pr_cursor r :: fs_issued s;
  fs_served := map (λ x, (k, x.1)) (pr_items r) ++ fs_served s;
  fs_passed := map (λ x, (k, fr_id x, fs_sessions s)) (unwanted s i after (cursor_position (pr_cursor r)))
               ++ fs_passed s;
  fs_base := fs_base s |}.

Inductive feed_step (s : FeedSystem) : FeedSystem → Prop :=
| Fe_journal eid owner session eventType payload recorded :
    feed_step s (at_tables s (appendCanonicalEvent eid owner session eventType payload recorded (fs_db s)))
| Fe_source row : feed_step s (at_tables s (other_source row (fs_db s)))
| Fe_project now acquired locked batch :
    feed_step s (at_tables s (projectFeedBatch now acquired locked batch (fs_db s)).1)
| Fe_sessions sessions :
    feed_step s {| fs_db := fs_db s; fs_sessions := sessions; fs_issued := fs_issued s;
                   fs_served := fs_served s; fs_passed := fs_passed s; fs_base := fs_base s |}
| Fe_pull nowMs token q d' r i after epoch :
    match pq_cursor q with Some t => presents s t | None => True end →
    pull_feed hmac sha256_hex frac_expired date_ok (fs_sessions s) team_control deps nowMs token q (fs_db s)
    = (d', inr r) →
    (** what the handler read: the installation and the position it begins at *)
    installations (fs_db s) !! pq_installation q = Some i →
    pull_position hmac sha256_hex frac_expired deps nowMs (pq_installation q) i
      (default new_checkpoint (checkpoints (fs_db s) !! pq_installation q)) (pq_cursor q) = inr (after, epoch) →
    feed_step s (answered s (pq_installation q) i after d' r)
| Fe_ack nowMs nowDb q :
    presents s (aq_cursor q) →
    feed_step s (at_tables s (ack_feed hmac sha256_hex frac_expired deps nowMs nowDb q (fs_db s)).1)
| Fe_create id input before d' i :
    (** a random identifier, and a head read from the same sequence *)
    installations (fs_db s) !! id = None → checkpoints (fs_db s) !! id = None →
    feed_head before < next_feed (fs_db s) →
    createInstallation id input before (fs_db s) = (d', inr i) → feed_step s (rebased s id d')
| Fe_update owner id expected p before d' i :
    updateInstallation owner id expected p before (fs_db s) = (d', inr i) → feed_step s (rebased s id d')
| Fe_revoke owner id d' :
    revokeInstallation owner id (fs_db s) = (d', inr tt) → feed_step s (rebased s id d')
| Fe_uninstalled provider id i :
    installations (fs_db s) !! id = Some i → in_provider i = provider → in_status i = Revoking →
    feed_step s (rebased s id (finish_uninstall provider id (fs_db s)))
| Fe_replay owner id target d' :
    (** from the start, or from a cursor of the installation *)
    target = 0 ∨ (∃ c, c ∈ fs_issued s ∧ installation_id c = id ∧ target = cursor_position c) →
    replay_installation owner id target (fs_db s) = (d', inr tt) → feed_step s (rebased s id d')
| Fe_account owner : feed_step s (rebased_account s owner (revokeExtensionDataForUser owner (fs_db s)))
| Fe_erase session : feed_step s (at_tables s (erase_session session (fs_db s)))
| Fe_reconciled provider id : feed_step s (at_tables s (reconcile_installation provider id (fs_db s)).1)
| Fe_retention now1 now2 now3 retentionDays hardMaxDays locked1 locked3 batch :
    feed_step s (at_tables s (runFeedRetentionOnce (fs_sessions s) now1 now2 now3 retentionDays hardMaxDays
                                locked1 locked3 batch (fs_db s))).

(** Every row up to [p] that came after the installation was configured has been
    served to it, or a response passed over it when it was not wanted. *)
Definition covered (s : FeedSystem) (k : string) (p : Z) : Prop :=
  ∀ i r, installations (fs_db s) !! k = Some i → r ∈ feed (fs_db s) →
    Z.max (base_of s k) (start_feed_id i) < fr_id r ≤ p →
    (k, fr_id r) ∈ fs_served s ∨
    ∃ sessions, (k, fr_id r, sessions) ∈ fs_passed s ∧ wanted sessions team_control i r = false.

(** A cursor speaks for the configuration it was issued under. *)
Definition cursor_ok (s : FeedSystem) (c : FeedCursorV1) : Prop :=
  ∃ p v i, feed_id c = pretty p ∧ 0 ≤ p < next_feed (fs_db s) ∧ config_version c = pretty v ∧
    installations (fs_db s) !! installation_id c = Some i ∧ v ≤ in_config_version i ∧
    (v = in_config_version i → covered s (installation_id c) p).

Record feed_inv (s : FeedSystem) : Prop := {
  fi_sorted : StronglySorted (by_key fr_id) (feed (fs_db s));
  fi_next r : r ∈ feed (fs_db s) → 0 < fr_id r < next_feed (fs_db s);
  fi_start k i : installations (fs_db s) !! k = Some i → start_feed_id i < next_feed (fs_db s);
  fi_ack k cp : checkpoints (fs_db s) !! k = Some cp →
    0 ≤ ack_feed_id cp < next_feed (fs_db s) ∧ covered s k (ack_feed_id cp);
  fi_zero : 0 < next_feed (fs_db s);
  fi_issued c : c ∈ fs_issued s → cursor_ok s c
}.

(** *** The projector appends *)

Lemma insert_feed_rows_append now rows l next :
  let '(l', next') := fold_left (insert_feed_row now) rows (l, next) in
  ∃ added, l' = l ++ added ∧ next ≤ next' ∧ StronglySorted (by_key fr_id) added ∧
    ∀ r, r ∈ added → next ≤ fr_id r < next'.
Proof.
  revert l next. induction rows as [|row rows IH]; intros l next; simpl.
  { exists []. split_and!; [by rewrite app_nil_r|lia|constructor|set_solver]. }
  destruct (existsb _ l).
  - specialize (IH l (next + 1)). destruct (fold_left _ _ _) as [l' next'].
    destruct IH as (added & -> & Hn & Hs & Hb). exists added. split_and!; [done|lia|done|].
    intros r Hr. specialize (Hb r Hr). lia.
  - match goal with |- context [l ++ [?x]] => set (new := x) end.
    specialize (IH (l ++ [new]) (next + 1)). destruct (fold_left _ _ _) as [l' next'].
    destruct IH as (added & -> & Hn & Hs & Hb). exists (new :: added).
    split_and!; [by rewrite <- app_assoc|lia| |].
    + constructor; [done|]. apply Forall_forall. intros r Hr. specialize (Hb r Hr).
      unfold by_key. simpl. lia.
    + intros r [->|Hr]%elem_of_cons; [simpl; lia|]. specialize (Hb r Hr). lia.
Qed.

(** Rows added at the end or deleted, with no checkpoint moved. *)
Record tables_move (d d' : Db) : Prop := {
  tm_sorted : StronglySorted (by_key fr_id) (feed d');
  tm_rows r : r ∈ feed d' → r ∈ feed d ∨ next_feed d ≤ fr_id r < next_feed d';
  tm_next : next_feed d ≤ next_feed d';
  tm_inst : installations d' = installations d;
  tm_cp k cp : checkpoints d' !! k = Some cp → ack_feed_id cp = acked d k
}.

(** The checkpoint of an installation, also when it has no row yet. *)
Lemma acked_inv s k : feed_inv s → 0 ≤ acked (fs_db s) k < next_feed (fs_db s) ∧ covered s k (acked (fs_db s) k).
Proof.
  intros [Hs Hn Hst Hack Hz Hiss]. unfold acked. destruct (checkpoints (fs_db s) !! k) as [cp|] eqn:E; [by apply Hack|].
  simpl. split; [lia|]. intros i r _ Hr Hlt. specialize (Hn r Hr). lia.
Qed.

Lemma feed_inv_tables s d' : feed_inv s → tables_move (fs_db s) d' → feed_inv (at_tables s d').
Proof.
  intros Hinv [Ts Tr Tn Ti Tc]. pose proof (λ k, acked_inv s k Hinv) as Ha. destruct Hinv as [Hs Hn Hst Hack Hz Hiss].
  assert (Hcov : ∀ k p, p < next_feed (fs_db s) → covered s k p → covered (at_tables s d') k p).
  { intros k p Hp Hc i r Hi Hr Hlt. simpl in *. rewrite Ti in Hi.
    destruct (Tr r Hr) as [Hr'|Hnew]; [|lia]. by apply (Hc i r). }
  split; simpl; [done| | | |lia|].
  - intros r Hr. destruct (Tr r Hr) as [Hr'|Hnew]; [specialize (Hn r Hr')|]; lia.
  - intros k i Hi. rewrite Ti in Hi. specialize (Hst k i Hi). lia.
  - intros k cp Hcp. rewrite (Tc k cp Hcp). destruct (Ha k) as [Hb Hc]. split; [lia|]. apply Hcov; [lia|done].
  - intros c Hc. destruct (Hiss c Hc) as (p & v & i & Hp & Hb & Hv & Hi & Hle & Hok). exists p, v, i.
    split_and!; [done|lia|simpl; lia|done|simpl; by rewrite Ti|done|]. intros E. apply Hcov; [lia|auto].
Qed.

Lemma project_move now acquired locked batch s :
  feed_inv s → tables_move (fs_db s) (projectFeedBatch now acquired locked batch (fs_db s)).1.
Proof.
  intros [Hs Hn _ _ Hz _]. unfold projectFeedBatch. destruct acquired; simpl.
  - pose proof (insert_feed_rows_append now (claimSourceBatch locked batch (fs_db s)) (feed (fs_db s)) (next_feed (fs_db s))) as H.
    destruct (fold_left _ _ _) as [l' next']. destruct H as (added & -> & Hn' & Hs' & Hb). split; simpl; try done.
    + apply StronglySorted_app_2; [|done|done]. intros x y Hx Hy. unfold by_key.
      specialize (Hn x Hx). specialize (Hb y Hy). lia.
    + intros r [Hr|Hr]%elem_of_app; [by left|right; by apply Hb].
    + intros k cp Hcp. unfold acked. by rewrite Hcp.
  - split; try done; [by left|]. intros k cp Hcp. unfold acked. by rewrite Hcp.
Qed.

(** The same feed or less of it, and the same checkpoints. *)
Lemma shrink_move s d' (test : FeedRow → bool) :
  feed_inv s → feed d' = bfilter test (feed (fs_db s)) → next_feed d' = next_feed (fs_db s) →
  installations d' = installations (fs_db s) →
  (∀ k cp, checkpoints d' !! k = Some cp → ack_feed_id cp = acked (fs_db s) k) → tables_move (fs_db s) d'.
Proof.
  intros [Hs _ _ _ _ _] Hf Hn Hi Hc. split; [rewrite Hf; by apply (sorted_bfilter fr_id)| |lia|done|done].
  intros r Hr. left. rewrite Hf in Hr. by apply elem_of_bfilter in Hr as [_ ?].
Qed.

Lemma all_rows {A} (l : list A) : l = bfilter (λ _, true) l.
Proof. induction l as [|x l IH]; simpl; [done|by rewrite <- IH]. Qed.

Lemma acked_same d d' k cp : checkpoints d' = checkpoints d → checkpoints d' !! k = Some cp → ack_feed_id cp = acked d k.
Proof. intros E H. unfold acked. by rewrite <- E, H. Qed.

(** Flags do not move a checkpoint. *)
Lemma flag_acks ks (m : gmap string Checkpoint) k :
  ack_feed_id (default new_checkpoint
    (fold_left (λ m k, <[k := flag (default new_checkpoint (m !! k))]> m) ks m !! k))
  = ack_feed_id (default new_checkpoint (m !! k)).
Proof.
  revert m. induction ks as [|k' ks IH]; intros m; [done|]. simpl. rewrite IH.
  destruct (decide (k' = k)) as [->|Hne]; [by rewrite lookup_insert_eq|by rewrite lookup_insert_ne].
Qed.

Lemma bfilter_bfilter {A} (p q : A → bool) l : bfilter p (bfilter q l) = bfilter (λ x, q x && p x) l.
Proof. induction l as [|x l IH]; simpl; [done|]. destruct (q x); simpl; [by rewrite IH|done]. Qed.

Lemma retention_move s now1 now2 now3 soft hard locked1 locked3 batch :
  feed_inv s →
  tables_move (fs_db s) (runFeedRetentionOnce (fs_sessions s) now1 now2 now3 soft hard locked1 locked3 batch (fs_db s)).
Proof.
  intros Hinv. eapply shrink_move; [done| |done|done|].
  - simpl. apply bfilter_bfilter.
  - intros k cp Hcp. simpl in Hcp. unfold acked. rewrite <- (flag_acks (to_flag (fs_sessions s) now2 hard
      (soft_pass (fs_sessions s) now1 soft locked1 batch (fs_db s)))). by rewrite Hcp.
Qed.

(** *** Configurations *)

(** An installation that a step leaves alone. *)
Definition untouched (s s' : FeedSystem) (j : string) : Prop :=
  installations (fs_db s') !! j = installations (fs_db s) !! j ∧
  checkpoints (fs_db s') !! j = checkpoints (fs_db s) !! j ∧ base_of s' j = base_of s j.

(** One that it configures anew. *)
Definition configured (s s' : FeedSystem) (j : string) : Prop :=
  ∃ i', installations (fs_db s') !! j = Some i' ∧ start_feed_id i' < next_feed (fs_db s') ∧
    (∀ i, installations (fs_db s) !! j = Some i → in_config_version i < in_config_version i') ∧
    base_of s' j = acked (fs_db s') j ∧ 0 ≤ acked (fs_db s') j < next_feed (fs_db s').

Lemma inv_config s s' test :
  feed_inv s → feed (fs_db s') = bfilter test (feed (fs_db s)) → next_feed (fs_db s') = next_feed (fs_db s) →
  fs_issued s' = fs_issued s → fs_served s' = fs_served s → fs_passed s' = fs_passed s →
  (∀ j, untouched s s' j ∨ configured s s' j) → feed_inv s'.
Proof.
  intros [Hs Hn Hst Hack Hz Hiss] Ef En Ei Es Ep Hj.
  assert (Hin : ∀ r, r ∈ feed (fs_db s') → r ∈ feed (fs_db s)).
  { intros r Hr. rewrite Ef in Hr. by apply elem_of_bfilter in Hr as [_ ?]. }
  assert (Hcov : ∀ j p, untouched s s' j → covered s j p → covered s' j p).
  { intros j p (U1 & _ & U3) Hc i r Hi Hr Hlt. rewrite U1 in Hi. rewrite U3 in Hlt. rewrite Es, Ep. by apply (Hc i r); auto. }
  assert (Hnew : ∀ j, configured s s' j → covered s' j (acked (fs_db s') j)).
  { intros j (i' & _ & _ & _ & Hb & _) i r _ _ Hlt. lia. }
  split.
  - rewrite Ef. by apply (sorted_bfilter fr_id).
  - intros r Hr. rewrite En. auto.
  - intros k i Hi. destruct (Hj k) as [(U1 & _)|(i' & Hi' & Hlt & _)]; [rewrite En; apply (Hst k); congruence|].
    rewrite Hi in Hi'. by injection Hi' as <-.
  - intros k cp Hcp. destruct (Hj k) as [U|C].
    + pose proof U as (_ & U2 & _). rewrite U2 in Hcp. destruct (Hack k cp Hcp). rewrite En. split; [done|]. by apply Hcov.
    + pose proof C as (i' & _ & _ & _ & _ & Hb).
      assert (Ea : acked (fs_db s') k = ack_feed_id cp) by (unfold acked; by rewrite Hcp).
      rewrite <- Ea. split; [done|]. by apply Hnew.
  - lia.
  - intros c Hc. rewrite Ei in Hc. destruct (Hiss c Hc) as (p & v & i & Hp & Hb & Hv & Hi & Hle & Hok).
    destruct (Hj (installation_id c)) as [U|C].
    + exists p, v, i. pose proof U as (U1 & _). split_and!; [done|lia|lia|done|by rewrite U1|done|]. intros E. by apply Hcov; auto.
    + destruct C as (i' & Hi' & _ & Hlt & _). specialize (Hlt i Hi). exists p, v, i'.
      split_and!; [done|lia|lia|done|done|lia|lia].
Qed.

(** *** A pull serves a prefix *)

Lemma fill_prefix quarantine rows budget after items p :
  fill sha256_hex date_ok deps quarantine rows budget after = Some (items, p) →
  ∃ n, map fst items = map fr_id (take n rows) ∧ p = default after (fr_id <$> last (take n rows)).
Proof.
  revert budget after items. induction rows as [|r rows IH]; intros budget after items H; simpl in H.
  { injection H as <- <-. by exists 0%nat. }
  destruct (maxResponseBytes deps <? _); [done|].
  destruct (budget <? _); [injection H as <- <-; by exists 0%nat|].
  destruct (fill _ _ _ _ rows _ _) as [[its p']|] eqn:E; [|done]. injection H as <- <-.
  destruct (IH _ _ _ E) as (n & Hi & ->). exists (S n). simpl. rewrite Hi. split; [done|].
  rewrite last_cons. by destruct (last (take n rows)).
Qed.

(** The rows up to the last one served are those served. *)
Lemma prefix_covers (test : FeedRow → bool) l n after r :
  StronglySorted (by_key fr_id) l → r ∈ bfilter test l → after < fr_id r →
  fr_id r ≤ default after (fr_id <$> last (take n (bfilter test l))) →
  r ∈ take n (bfilter test l).
Proof.
  intros Hs Hr Ha Hle. apply (sorted_bfilter fr_id test) in Hs. revert Hs Hr Hle.
  generalize (bfilter test l) as k. intros k Hs Hr Hle.
  rewrite <- (take_drop n k) in Hr, Hs. apply elem_of_app in Hr as [Hr|Hr]; [done|exfalso].
  destruct (last (take n k)) as [x|] eqn:Hl; simpl in Hle; [|lia].
  apply last_Some_elem_of in Hl. apply StronglySorted_app in Hs as (Hlt & _ & _).
  specialize (Hlt x r Hl Hr). unfold by_key in Hlt. lia.
Qed.

Lemma pull_feed_ok sessions nowMs token q d d' r :
  pull_feed hmac sha256_hex frac_expired date_ok sessions team_control deps nowMs token q d
  = (d', inr r) →
  ∃ i cp after epoch n hash expires,
    let k := pq_installation q in
    let rows := bfilter (λ r, wanted sessions team_control i r && (after <? fr_id r)) (feed d) in
    let p := default after (fr_id <$> last (take n rows)) in
    installations d !! k = Some i ∧ cp = default new_checkpoint (checkpoints d !! k) ∧
    pull_position hmac sha256_hex frac_expired deps nowMs k i cp (pq_cursor q) = inr (after, epoch) ∧
    map fst (pr_items r) = map fr_id (take n rows) ∧
    installation_id (pr_cursor r) = k ∧ feed_id (pr_cursor r) = pretty p ∧
    config_version (pr_cursor r) = pretty (in_config_version i) ∧
    d' = {| outbox := outbox d; next_seq := next_seq d; feed := feed d; next_feed := next_feed d;
            installations := <[k := active i]> (installations d);
            checkpoints := <[k := leased cp epoch hash expires]> (checkpoints d) |}.
Proof.
  unfold pull_feed. destruct (negb (enabled deps)); [done|].
  destruct (pq_provider q) as [provider|]; [|done]. destruct (negb (is_installation_id _)); [done|].
  unfold getInstallationWithCheckpoint.
  destruct (installations d !! pq_installation q) as [i|] eqn:Hi; [|done].
  destruct (bool_decide (in_provider i = provider)); [|done].
  destruct (pull_refusal i _); [done|].
  destruct (pull_position _ _ _ _ _ _ _ _ _) as [e|[after epoch]] eqn:Hp; [done|].
  destruct (fill _ _ _ _ _ _ _) as [[items p]|] eqn:Hf; [|done].
  intros [= <- <-]. apply fill_prefix in Hf as (n & Hit & ->). unfold queryFeedRows in *.
  rewrite take_take in *. eexists i, _, after, epoch, _, _, _. simpl. split_and!; try done.
Qed.

(** What a cursor that the handlers accept says: it is of this installation, of
    its present configuration, and its position is covered. *)
Lemma accepted_cursor s k i c :
  feed_inv s → c ∈ fs_issued s → installations (fs_db s) !! k = Some i →
  is_str (js_get (feed_json c) "installation_id") k = true →
  is_str (js_get (feed_json c) "config_version") (pretty (in_config_version i)) = true →
  let p := field_number (feed_json c) "feed_id" in
  0 ≤ p < next_feed (fs_db s) ∧ covered s k p.
Proof.
  intros [_ _ _ _ _ Hiss] Hc Hi Hid Hv. destruct (Hiss c Hc) as (p & v & i0 & Hp & Hb & Hv0 & Hi0 & _ & Hok).
  cbn in Hid, Hv. apply bool_decide_eq_true in Hid, Hv. rewrite Hid in Hi0, Hok.
  change (field_number (feed_json c) "feed_id") with (default 0 (js_Number (JStr (feed_id c)))).
  rewrite Hp, number_of_pretty. simpl. split; [done|]. apply Hok.
  rewrite Hi in Hi0. injection Hi0 as <-. apply (inj pretty). congruence.
Qed.

(** Where a pull begins is covered. *)
Lemma pull_position_covered s nowMs k i tok after epoch :
  feed_inv s → installations (fs_db s) !! k = Some i →
  match tok with Some t => presents s t | None => True end →
  pull_position hmac sha256_hex frac_expired deps nowMs k i
    (default new_checkpoint (checkpoints (fs_db s) !! k)) tok = inr (after, epoch) →
  0 ≤ after < next_feed (fs_db s) ∧ covered s k after.
Proof.
  intros Hinv Hi Hpres H. unfold pull_position in H. destruct tok as [t|].
  - destruct (decodeFeedCursor hmac frac_expired t (cursorSecret deps) nowMs) as [| |v] eqn:Hd; [done..|].
    destruct (Hpres _ _ Hd) as (c & Hc & ->). destruct (_ || _) eqn:Eb; [done|].
    destruct (_ <? _); [done|]. injection H as <- _. apply orb_false_iff in Eb as [[Eb _]%orb_false_iff Ev].
    apply negb_false_iff in Eb, Ev. by apply (accepted_cursor s k i c).
  - injection H as <- _. destruct (acked_inv s k Hinv) as [Hb Hc]. unfold acked in Hb, Hc.
    pose proof (fi_start s Hinv k i Hi). split; [lia|]. intros i' r Hi' Hr Hlt.
    assert (i' = i) as -> by congruence. apply (Hc i r); [done|done|lia].
Qed.

(** *** Invariance *)

(** Answering keeps what is covered, and activation changes no configuration. *)
Lemma answered_covered s k i after d' r j p :
  installations (fs_db s) !! k = Some i → feed d' = feed (fs_db s) →
  installations d' = <[k := active i]> (installations (fs_db s)) →
  covered s j p → covered (answered s k i after d' r) j p.
Proof.
  intros Hi Hf Hins Hc i' x Hi' Hx Hlt. simpl in *. rewrite Hins in Hi'. rewrite Hf in Hx.
  assert (∃ i0, installations (fs_db s) !! j = Some i0 ∧ start_feed_id i' = start_feed_id i0 ∧
    ∀ sessions y, wanted sessions team_control i' y = wanted sessions team_control i0 y) as (i0 & Hi0 & Es & Ew).
  { destruct (decide (k = j)) as [<-|Hn].
    - rewrite lookup_insert_eq in Hi'. injection Hi' as <-. by exists i.
    - rewrite lookup_insert_ne in Hi' by done. by exists i'. }
  rewrite Es in Hlt. destruct (Hc i0 x Hi0 Hx Hlt) as [Hs|(sessions & Hp & Hw)].
  - left. apply elem_of_app. by right.
  - right. exists sessions. rewrite Ew. split; [|done]. apply elem_of_app. by right.
Qed.

(** What a response covers. *)
Lemma response_covers s k i after d' r n :
  let rows := bfilter (λ x, wanted (fs_sessions s) team_control i x && (after <? fr_id x)) (feed (fs_db s)) in
  let p := default after (fr_id <$> last (take n rows)) in
  feed_inv s → installations (fs_db s) !! k = Some i → feed d' = feed (fs_db s) →
  installations d' = <[k := active i]> (installations (fs_db s)) →
  map fst (pr_items r) = map fr_id (take n rows) → cursor_position (pr_cursor r) = p →
  covered s k after → covered (answered s k i after d' r) k p.
Proof.
  intros rows p [Hs Hn _ _ _ _] Hi Hf Hins Hit Hpos Hcov i' x Hi' Hx Hlt.
  destruct (Z.le_gt_cases (fr_id x) after) as [Hle|Hgt].
  { apply (answered_covered s k i after d' r k after Hi Hf Hins Hcov i' x Hi' Hx). split; [apply Hlt|done]. }
  simpl in *.
  rewrite Hins, lookup_insert_eq in Hi'. injection Hi' as <-. rewrite Hf in Hx.
  destruct (wanted (fs_sessions s) team_control i x) eqn:Hw.
  - left. apply elem_of_app. left.
    assert (Hin : x ∈ take n rows).
    { apply (prefix_covers _ _ n after); [done| |lia|exact (proj2 Hlt)].
      apply elem_of_bfilter. split; [rewrite Hw; simpl; lia|done]. }
    replace (map (λ x, (k, x.1)) (pr_items r)) with (map (pair k) (map fst (pr_items r))) by by rewrite map_map.
    rewrite Hit. apply list_elem_of_fmap. exists (fr_id x). split; [done|]. apply list_elem_of_fmap. by exists x.
  - right. exists (fs_sessions s). split; [|done]. apply elem_of_app. left. apply list_elem_of_fmap. exists x.
    split; [done|]. apply elem_of_bfilter. rewrite Hpos, Hw. split; [|done]. lia.
Qed.

Lemma inv_pull s nowMs token q d' r i after epoch :
  feed_inv s → match pq_cursor q with Some t => presents s t | None => True end →
  pull_feed hmac sha256_hex frac_expired date_ok (fs_sessions s) team_control deps nowMs token q (fs_db s)
  = (d', inr r) →
  installations (fs_db s) !! pq_installation q = Some i →
  pull_position hmac sha256_hex frac_expired deps nowMs (pq_installation q) i
    (default new_checkpoint (checkpoints (fs_db s) !! pq_installation q)) (pq_cursor q) = inr (after, epoch) →
  feed_inv (answered s (pq_installation q) i after d' r).
Proof.
  intros Hinv Hpres Hpull Hi Hpos.
  destruct (pull_position_covered _ _ _ _ _ _ _ Hinv Hi Hpres Hpos) as [Hafter Hcov].
  destruct (pull_feed_ok _ _ _ _ _ _ _ Hpull) as (i0 & cp & after0 & epoch0 & n & hash & expires
    & Hi0 & -> & Hpos0 & Hitems & Hid & Hfid & Hcv & Hd').
  rewrite Hi in Hi0. injection Hi0 as <-. rewrite Hpos in Hpos0. injection Hpos0 as <- <-.
  set (k := pq_installation q) in *. set (s' := answered s k i after d' r). cbv zeta in Hitems, Hfid.
  match type of Hfid with _ = pretty ?x => set (p := x) in * end.
  assert (Hins : installations d' = <[k := active i]> (installations (fs_db s))) by by rewrite Hd'.
  assert (Hfeed : feed d' = feed (fs_db s)) by by rewrite Hd'.
  assert (Hnext : next_feed d' = next_feed (fs_db s)) by by rewrite Hd'.
  assert (Hcp : ∀ j cp, checkpoints d' !! j = Some cp → ack_feed_id cp = acked (fs_db s) j).
  { intros j cp. rewrite Hd'. simpl. destruct (decide (k = j)) as [<-|Hne].
    - rewrite lookup_insert_eq. by intros [= <-].
    - rewrite lookup_insert_ne by done. intros E. unfold acked. by rewrite E. }
  assert (Hmono : ∀ j x, covered s j x → covered s' j x) by (intros j x; by apply answered_covered).
  assert (Hcpos : cursor_position (pr_cursor r) = p) by (unfold cursor_position; by rewrite Hfid, number_of_pretty).
  assert (Hp : 0 ≤ p < next_feed (fs_db s)).
  { unfold p. destruct (last _) as [x|] eqn:Hl; simpl; [|done]. apply last_Some_elem_of in Hl.
    apply elem_of_take in Hl as (m & Hl & _). apply list_elem_of_lookup_2 in Hl.
    apply elem_of_bfilter in Hl as [_ Hl]. pose proof (fi_next s Hinv x Hl). lia. }
  pose proof (λ j, acked_inv s j Hinv) as Hack. pose proof Hinv as [Hs Hn Hst _ Hz Hiss].
  assert (Hsame : ∀ j i', installations (fs_db s) !! j = Some i' →
    ∃ i2, installations d' !! j = Some i2 ∧ in_config_version i2 = in_config_version i' ∧ start_feed_id i2 = start_feed_id i').
  { intros j i' Hj. rewrite Hins. destruct (decide (k = j)) as [<-|Hne]; [|rewrite lookup_insert_ne by done; by exists i'].
    rewrite lookup_insert_eq. exists (active i). assert (i' = i) as -> by congruence. done. }
  split; unfold s'; simpl; rewrite ?Hfeed, ?Hnext; try done.
  - intros j i' Hj. rewrite Hins in Hj. destruct (decide (k = j)) as [<-|Hne].
    + rewrite lookup_insert_eq in Hj. injection Hj as <-. exact (Hst k i Hi).
    + rewrite lookup_insert_ne in Hj by done. by apply (Hst j).
  - intros j cp' Hj. rewrite (Hcp j cp' Hj). destruct (Hack j). split; [done|by apply Hmono].
  - intros c [->|Hc]%elem_of_cons.
    + exists p, (in_config_version i), (active i). simpl. rewrite Hid, Hnext, Hins, lookup_insert_eq.
      split_and!; [exact Hfid|apply Hp|apply Hp|exact Hcv|done|done|]. intros _. by apply response_covers.
    + destruct (Hiss c Hc) as (x & v & i1 & Hx & Hb & Hv & Hi1 & Hle & Hok).
      destruct (Hsame _ _ Hi1) as (i2 & Hi2 & Ecv & _). exists x, v, i2. simpl. rewrite Hnext, Ecv.
      split_and!; try done; [lia|lia|]. intros E. apply Hmono. auto.
Qed.

Lemma ack_feed_checkpoints nowMs nowDb q d :
  let d' := (ack_feed hmac sha256_hex frac_expired deps nowMs nowDb q d).1 in
  let k := aq_installation q in
  d' = d ∨
  ∃ cp' v i, decodeFeedCursor hmac frac_expired (aq_cursor q) (cursorSecret deps) nowMs = DCursor v ∧
    is_str (js_get v "installation_id") k = true ∧ installations d !! k = Some i ∧
    is_str (js_get v "config_version") (pretty (in_config_version i)) = true ∧
    d' = with_checkpoint d k cp' ∧
    (ack_feed_id cp' = acked d k ∨ ack_feed_id cp' = Z.max (acked d k) (field_number v "feed_id")).
Proof.
  unfold ack_feed, acked. destruct (negb (enabled deps)); [by left|].
  destruct (aq_provider q) as [provider|]; [|by left]. destruct (_ || _); [by left|].
  destruct (decodeFeedCursor hmac frac_expired (aq_cursor q) (cursorSecret deps) nowMs) as [| |v] eqn:Hd;
    [by left..|].
  destruct (is_str (js_get v "installation_id") (aq_installation q)) eqn:Ev; [|by left]. simpl.
  unfold getInstallationWithCheckpoint.
  destruct (installations d !! aq_installation q) as [i|]; [|by left].
  destruct (bool_decide (in_provider i = provider)); [|by left].
  destruct (in_status i); try (by left);
    (destruct (is_str (js_get v "config_version") (pretty (in_config_version i))) eqn:Ec; [|by left]; simpl;
     destruct (negb _); [by left|]);
    right; unfold ackCheckpoint, with_checkpoint; simpl; rewrite lookup_insert_eq;
    (destruct (_ && _); simpl; [rewrite insert_insert_eq|]); eexists _, v, i; (split_and!; [done..|]);
    simpl; auto.
Qed.

Lemma inv_ack s nowMs nowDb q :
  feed_inv s → presents s (aq_cursor q) →
  feed_inv (at_tables s (ack_feed hmac sha256_hex frac_expired deps nowMs nowDb q (fs_db s)).1).
Proof.
  intros Hinv Hpres.
  destruct (ack_feed_checkpoints nowMs nowDb q (fs_db s)) as [->|(cp' & v & i & Hd & Hv & Hi & Hcv & -> & Hack')].
  { by destruct s. }
  destruct (Hpres _ _ Hd) as (c & Hc & ->). set (k := aq_installation q) in *.
  destruct (accepted_cursor s k i c Hinv Hc Hi Hv Hcv) as [Hp Hcov]. destruct (acked_inv s k Hinv) as [Ha Hca].
  destruct Hinv as [Hs Hn Hst Hack Hz Hiss]. split; simpl; try done.
  intros j cp Hj. destruct (decide (k = j)) as [<-|Hne];
    [|rewrite lookup_insert_ne in Hj by done; by apply Hack].
  rewrite lookup_insert_eq in Hj. injection Hj as <-. destruct Hack' as [->| ->]; [by split|].
  destruct (Z.max_spec (acked (fs_db s) k) (field_number (feed_json c) "feed_id")) as [[_ ->]|[_ ->]]; by split.
Qed.

(** *** Steps that configure an installation *)

(** One installation gets a new row, with a higher version. *)
Lemma inv_rebased s k d' i' :
  feed_inv s → feed d' = feed (fs_db s) → next_feed d' = next_feed (fs_db s) →
  installations d' = <[k := i']> (installations (fs_db s)) → start_feed_id i' < next_feed (fs_db s) →
  (∀ i, installations (fs_db s) !! k = Some i → in_config_version i < in_config_version i') →
  (∀ j, j ≠ k → checkpoints d' !! j = checkpoints (fs_db s) !! j) →
  0 ≤ acked d' k < next_feed (fs_db s) → feed_inv (rebased s k d').
Proof.
  intros Hinv Hf Hn Hi Hst Hcv Hcp Ha. apply (inv_config s _ (λ _, true)); try done.
  - simpl. rewrite Hf. apply all_rows.
  - intros j. destruct (decide (j = k)) as [->|Hne].
    + right. exists i'. simpl. rewrite Hi, Hn, lookup_insert_eq. unfold base_of. simpl. rewrite lookup_insert_eq. done.
    + left. unfold untouched, base_of. simpl. rewrite Hi, !lookup_insert_ne by done. auto.
Qed.

(** The common case: the checkpoints stay. *)
Lemma inv_reconfigured s k i i' :
  feed_inv s → installations (fs_db s) !! k = Some i → start_feed_id i' = start_feed_id i →
  in_config_version i' = in_config_version i + 1 →
  feed_inv (rebased s k (with_installations (fs_db s) (<[k := i']> (installations (fs_db s))))).
Proof.
  intros Hinv Hi Hst Hcv. apply (inv_rebased s k _ i'); try done.
  - rewrite Hst. by apply (fi_start s Hinv k).
  - intros i0 H0. rewrite Hi in H0. injection H0 as <-. lia.
  - by apply acked_inv.
Qed.

Lemma owned_some owner id d i : owned owner id d = Some i → installations d !! id = Some i.
Proof. unfold owned. destruct (installations d !! id); [|done]. by destruct (bool_decide _). Qed.

Lemma inv_create s id input before d' i :
  feed_inv s → installations (fs_db s) !! id = None → checkpoints (fs_db s) !! id = None →
  feed_head before < next_feed (fs_db s) →
  createInstallation id input before (fs_db s) = (d', inr i) → feed_inv (rebased s id d').
Proof.
  intros Hinv Hi Hc Hh. unfold createInstallation. destruct (existsb _ _); [done|]. intros [= <- <-].
  pose proof (fi_zero s Hinv). eapply inv_rebased; try done; simpl.
  - destruct (ci_from_now input); lia.
  - intros i0 H0. congruence.
  - by apply acked_inv.
Qed.

Lemma inv_update s owner id expected p before d' i :
  feed_inv s → updateInstallation owner id expected p before (fs_db s) = (d', inr i) → feed_inv (rebased s id d').
Proof.
  intros Hinv. unfold updateInstallation. destruct (match up_status p with Some _ => _ | None => _ end); [done|].
  destruct (owned owner id (fs_db s)) as [i0|] eqn:E; [|done]. destruct (_ =? _); [|done]. intros [= <- <-].
  apply owned_some in E. by apply (inv_reconfigured s id i0).
Qed.

Lemma inv_revoke s owner id d' :
  feed_inv s → revokeInstallation owner id (fs_db s) = (d', inr tt) → feed_inv (rebased s id d').
Proof.
  intros Hinv. unfold revokeInstallation. destruct (owned owner id (fs_db s)) as [i|] eqn:E; [|done].
  destruct (bool_decide _); [done|]. intros [= <-]. apply owned_some in E. by apply (inv_reconfigured s id i).
Qed.

Lemma inv_replay s owner id target d' :
  feed_inv s → target = 0 ∨ (∃ c, c ∈ fs_issued s ∧ installation_id c = id ∧ target = cursor_position c) →
  replay_installation owner id target (fs_db s) = (d', inr tt) → feed_inv (rebased s id d').
Proof.
  intros Hinv Ht. unfold replay_installation. destruct (owned owner id (fs_db s)) as [i|] eqn:E; [|done].
  apply owned_some in E. destruct (bool_decide _); [|done]. intros [= <-].
  assert (Hb : 0 ≤ target < next_feed (fs_db s)).
  { destruct Ht as [->|(c & Hc & _ & ->)]; [pose proof (fi_zero s Hinv); lia|].
    destruct (fi_issued s Hinv c Hc) as (p & v & i0 & Hp & Hb & _). unfold cursor_position.
    by rewrite Hp, number_of_pretty. }
  set (i1 := {| in_provider := in_provider i; in_owner := in_owner i; in_personal := in_personal i;
    in_status := in_status i; granted_scopes := granted_scopes i; subscriptions := subscriptions i;
    event_filter := event_filter i; start_feed_id := Z.min (start_feed_id i) target;
    in_config_version := in_config_version i |}).
  eapply (inv_rebased s id _ (restatus Active i1)); try done; simpl.
  - apply map_eq. intros j. destruct (decide (j = id)) as [->|Hne].
    + by rewrite lookup_insert_eq, !lookup_alter_eq, E.
    + by rewrite lookup_insert_ne, !lookup_alter_ne by done.
  - lia.
  - intros i0 H0. rewrite E in H0. injection H0 as <-. lia.
  - intros j Hj. by rewrite lookup_alter_ne by done.
  - unfold acked. simpl. rewrite lookup_alter_eq. destruct (checkpoints (fs_db s) !! id); simpl; [done|lia].
Qed.

Lemma inv_account s owner :
  feed_inv s → feed_inv (rebased_account s owner (revokeExtensionDataForUser owner (fs_db s))).
Proof.
  intros Hinv. pose proof (λ j, acked_inv s j Hinv) as Ha.
  eapply (inv_config s _ (λ r, negb (fr_owner r =? owner))); try done.
  intros j. unfold untouched, configured, base_of. simpl. rewrite lookup_fmap, lookup_union, map_lookup_imap.
  destruct (installations (fs_db s) !! j) as [i|] eqn:Hi; simpl.
  - unfold disowned. destruct (disowns owner i), (fs_base s !! j); simpl; [right|right|by left..];
    (eexists; split; [done|]; simpl; split; [by apply (fi_start s Hinv j)|];
     split; [intros i0 [= <-]; lia|]; split; [done|apply (Ha j)]).
  - left. split_and!; [done|done|]. by destruct (fs_base s !! j).
Qed.

(** *** Every step *)

Lemma feed_step_inv s s' : feed_step s s' → feed_inv s → feed_inv s'.
Proof.
  destruct 1 as [eid owner session eventType payload recorded|row|now acquired locked batch|sessions
    |nowMs token q d' r i after epoch Hp Hq Hi Ha|nowMs nowDb q Hp|id input before d' i Hi Hc Hh Hd
    |owner id expected p before d' i Hd|owner id d' Hd|provider id i Hi Hp Hs|owner id target d' Ht Hd|owner|session
    |provider id|now1 now2 now3 soft hard locked1 locked3 batch]; intros Hinv.
  - apply feed_inv_tables; [done|]. apply (shrink_move s _ (λ _, true)); try done; [apply all_rows|].
    intros k cp. by apply acked_same.
  - apply feed_inv_tables; [done|]. apply (shrink_move s _ (λ _, true)); try done; [apply all_rows|].
    intros k cp. by apply acked_same.
  - apply feed_inv_tables; [done|]. by apply project_move.
  - destruct Hinv as [Hs Hn Hst Hack Hz Hiss]. by split.
  - by eapply inv_pull.
  - by apply inv_ack.
  - by eapply inv_create.
  - by eapply inv_update.
  - by eapply inv_revoke.
  - unfold finish_uninstall. rewrite Hi, Hp, Hs, !bool_decide_eq_true_2 by done. simpl.
    by apply (inv_reconfigured s id i).
  - by eapply inv_replay.
  - by apply inv_account.
  - apply feed_inv_tables; [done|]. eapply shrink_move; try done. intros k cp. by apply acked_same.
  - apply feed_inv_tables; [done|]. unfold reconcile_installation, getInstallationWithCheckpoint.
    assert (Hsame : tables_move (fs_db s) (fs_db s)).
    { apply (shrink_move s _ (λ _, true)); try done; [apply all_rows|]. intros k cp. by apply acked_same. }
    destruct (installations (fs_db s) !! id) as [i|]; [|done]. destruct (bool_decide _); [|done].
    destruct (bool_decide _); [done|]. apply (shrink_move s _ (λ _, true)); try done; [apply all_rows|].
    intros k cp. simpl. destruct (decide (id = k)) as [<-|Hne].
    + rewrite lookup_insert_eq. by intros [= <-].
    + rewrite lookup_insert_ne by done. intros E. unfold acked. by rewrite E.
  - apply feed_inv_tables; [done|]. by apply retention_move.
Qed.

(** Before any pull: no checkpoint, no cursor; the rows in order, and no
    installation starts beyond them. *)
Definition fresh_feed (s : FeedSystem) : Prop :=
  StronglySorted (by_key fr_id) (feed (fs_db s)) ∧
  (∀ r, r ∈ feed (fs_db s) → 0 < fr_id r < next_feed (fs_db s)) ∧
  (∀ k i, installations (fs_db s) !! k = Some i → start_feed_id i < next_feed (fs_db s)) ∧
  0 < next_feed (fs_db s) ∧ checkpoints (fs_db s) = ∅ ∧ fs_issued s = [].

Lemma fresh_feed_inv s : fresh_feed s → feed_inv s.
Proof.
  intros (Hs & Hr & Hi & Hz & Hc & His). split; try done.
  - intros k cp H. by rewrite Hc in H.
  - intros c H. rewrite His in H. by apply not_elem_of_nil in H.
Qed.

Lemma feed_reachable_inv s s' : fresh_feed s → rtc feed_step s s' → feed_inv s'.
Proof.
  intros Hf Hr. apply fresh_feed_inv in Hf.
  induction Hr as [|s1 s2 s3 Hs _ IH]; [done|]. by apply IH, (feed_step_inv s1).
Qed.

(** C23: however providers pull, repeat, take over and acknowledge, with any
    cursors the relay issued, and however owners create, change, replay and
    revoke installations, sessions change and retention deletes meanwhile: every
    row between the position at which an installation was last configured and
    its checkpoint was in a response to it, or a response passed over it and it
    was not wanted, by the present configuration and the sessions of that
    moment. *)
Theorem ack_never_skips s s' k i cp r :
  fresh_feed s → rtc feed_step s s' →
  installations (fs_db s') !! k = Some i → checkpoints (fs_db s') !! k = Some cp →
  r ∈ feed (fs_db s') → Z.max (base_of s' k) (start_feed_id i) < fr_id r ≤ ack_feed_id cp →
  (k, fr_id r) ∈ fs_served s' ∨
  ∃ sessions, (k, fr_id r, sessions) ∈ fs_passed s' ∧ wanted sessions team_control i r = false.
Proof.
  intros Hf Hr Hi Hc Hin Hlt. destruct (fi_ack s' (feed_reachable_inv s s' Hf Hr) k cp Hc) as [_ Hcov].
  by apply (Hcov i r).
Qed.

(** an acknowledgement is accepted only from the holder of the current
    lease: the stored epoch is the cursor's, the stored binding is the digest of
    exactly this installation, epoch, token and position, the lease has not
    expired, and the checkpoint moves to the larger of the two positions, never
    back. *)
Theorem ack_is_fenced nowMs nowDb q d d' a :
  ack_feed hmac sha256_hex frac_expired deps nowMs nowDb q d = (d', inr a) →
  ∃ v cp, decodeFeedCursor hmac frac_expired (aq_cursor q) (cursorSecret deps) nowMs = DCursor v ∧
    checkpoints d !! aq_installation q = Some cp ∧
    cp_lease_epoch cp = field_number v "lease_epoch" ∧
    lease_token_hash cp = Some (leaseBindingHash sha256_hex (aq_installation q)
      (field_number v "lease_epoch") (aq_lease_token q) (field_number v "feed_id")) ∧
    (∃ t, lease_expires_at cp = Some t ∧ nowDb < t) ∧
    a = Z.max (ack_feed_id cp) (field_number v "feed_id") ∧
    ack_feed_id <$> checkpoints d' !! aq_installation q = Some a.
Proof.
  unfold ack_feed. destruct (negb (enabled deps)); [done|].
  destruct (aq_provider q) as [provider|]; [|done]. destruct (_ || _); [done|].
  destruct (decodeFeedCursor hmac frac_expired (aq_cursor q) (cursorSecret deps) nowMs) as [| |v] eqn:Hd;
    [done..|].
  destruct (negb (is_str _ _)); [done|]. unfold getInstallationWithCheckpoint.
  destruct (installations d !! aq_installation q) as [i|]; [|done].
  destruct (bool_decide (in_provider i = provider)); [|done]. intros H.
  assert (Hack : ackCheckpoint nowDb (aq_installation q) (field_number v "lease_epoch")
    (leaseBindingHash sha256_hex (aq_installation q) (field_number v "lease_epoch") (aq_lease_token q)
      (field_number v "feed_id")) (field_number v "feed_id")
    (with_checkpoint d (aq_installation q) (default new_checkpoint (checkpoints d !! aq_installation q)))
    = (d', Some a)).
  { destruct (in_status i); try done; (destruct (_ || _); [done|]);
      destruct (ackCheckpoint _ _ _ _ _ _) as [d1 [a1|]]; by simplify_eq. }
  clear H. exists v. unfold ackCheckpoint, with_checkpoint in Hack. simpl in Hack.
  rewrite lookup_insert_eq in Hack. destruct (_ && _) eqn:E; [|done]. injection Hack as <- <-.
  apply andb_prop in E as [E Ht]. apply andb_prop in E as [Ee Eh]. bool_hyps.
  destruct (checkpoints d !! aq_installation q) as [cp|] eqn:Ec; [|done]. exists cp. simpl in *.
  split_and!; try done; [|by rewrite insert_insert_eq, lookup_insert_eq].
  destruct (lease_expires_at cp) as [t|]; [|done]. exists t. split; [done|lia].
Qed.
End system.

(** *** One event, pulled and acknowledged *)

Lemma encoded_presents hmac frac_expired deps s c :
  (∀ p, dot_free (hmac (cursorSecret deps) p) = true) → safe_integer (exp c) = true →
  c ∈ fs_issued s → presents hmac frac_expired deps s (encodeFeedCursor hmac c (cursorSecret deps)).
Proof.
  intros Hd He Hc now v H. exists c. split; [done|].
  apply decode_feed_inv in H as (p & Hp & Hj & _). unfold encodeFeedCursor, sign in Hp. cbv zeta in Hp.
  rewrite verified_payload_signed in Hp; [|done|by eapply json_payload_nonempty].
  injection Hp as <-. rewrite payload_json_print in Hj; [|by apply feed_json_strict|done]. congruence.
Qed.

Definition sample_deps : FeedRouteDeps := {|
  enabled := true; cursorSecret := "k"; leaseTtlSeconds := 60; maxResponseBytes := 524288;
  maxItems := 100 |}.

Definition sample_id : string := "00000000-0000-4000-8000-000000000000".

Definition sample_installation : Installation := {|
  in_provider := "p"; in_owner := Some 7; in_personal := true; in_status := Pending;
  granted_scopes := ["session:events:read"%string]; subscriptions := ["session.event.v1"%string];
  event_filter := JObj []; start_feed_id := 0; in_config_version := 1 |}.

Definition no_sessions (_ : string) : option SessionInfo := None.

Definition sample_empty : FeedSystem := {|
  fs_db := {| outbox := []; next_seq := 1; feed := []; next_feed := 1;
              installations := {[ sample_id := sample_installation ]}; checkpoints := ∅ |};
  fs_sessions := no_sessions; fs_issued := []; fs_served := []; fs_passed := []; fs_base := ∅ |}.

Definition no_control (_ : FeedRow) : bool := false.
Definition any_date (_ : string) : bool := true.
Definition plain_sha (s : string) : string := s.

Definition sample_journaled : Db :=
  appendCanonicalEvent 1 7 "s" "agent_text" (JObj []) "2026-01-01T00:00:00.000Z" (fs_db sample_empty).

Definition sample_projected : Db := (projectFeedBatch 1000 true [] 50 sample_journaled).1.

Definition sample_query : PullRequest := {|
  pq_provider := Some "p"%string; pq_installation := sample_id; pq_limit := None; pq_cursor := None;
  pq_quarantine := false |}.

Definition sample_pull : Db * (ExtensionErrorCode + PullResponse) :=
  pull_feed toy_hmac plain_sha never any_date no_sessions no_control sample_deps 5000 "t"
    sample_query sample_projected.

Definition sample_pulled_cursor : FeedCursorV1 := {|
  installation_id := sample_id; feed_id := "1"; lease_epoch := "1"; config_version := "1";
  filter_hash := filterHashForInstallation plain_sha (JObj []); exp := 905 |}.

Definition sample_ack : AckRequest := {|
  aq_provider := Some "p"%string; aq_installation := sample_id;
  aq_cursor := encodeFeedCursor toy_hmac sample_pulled_cursor "k"; aq_lease_token := "t" |}.

Definition sample_acked : Db * (ExtensionErrorCode + Z) :=
  ack_feed toy_hmac plain_sha never sample_deps 6000 6000 sample_ack sample_pull.1.

Lemma sample_pull_ok :
  ∃ r, sample_pull.2 = inr r ∧ pr_cursor r = sample_pulled_cursor ∧ map fst (pr_items r) = [1].
Proof.
  destruct (sample_pull.2) as [e|r] eqn:E; [vm_compute in E; discriminate|].
  exists r. split; [done|]. vm_compute in E. injection E as <-. split; by vm_compute.
Qed.

Definition at_db (d : Db) : FeedSystem := at_tables sample_empty d.

Abbreviation sample_step := (feed_step toy_hmac plain_sha never any_date no_control sample_deps).

Lemma sample_pull_step :
  ∃ r, pr_cursor r = sample_pulled_cursor ∧
    sample_step (at_db sample_projected)
      (answered no_control (at_db sample_projected) sample_id sample_installation 0 sample_pull.1 r).
Proof.
  destruct sample_pull_ok as (r & Hr & Hc & _). exists r. split; [done|].
  assert (H : sample_pull = (sample_pull.1, inr r)) by (rewrite <- Hr; by destruct sample_pull).
  exact (Fe_pull _ _ _ _ _ _ (at_db sample_projected) 5000 "t" sample_query sample_pull.1 r sample_installation 0 1
           I H eq_refl eq_refl).
Qed.

Lemma sample_feed_reachable :
  ∃ s', rtc sample_step sample_empty s' ∧ fs_db s' = sample_acked.1 ∧ fs_base s' = ∅ ∧ fs_passed s' = [].
Proof.
  destruct sample_pull_step as (r & Hc & Hp). eexists. split.
  - eapply rtc_l; [apply (Fe_journal _ _ _ _ _ _ sample_empty 1 7 "s" "agent_text" (JObj [])
      "2026-01-01T00:00:00.000Z")|]. fold sample_journaled. fold (at_db sample_journaled).
    eapply rtc_l; [apply (Fe_project _ _ _ _ _ _ (at_db sample_journaled) 1000 true [] 50)|].
    eapply rtc_l; [exact Hp|]. eapply rtc_once.
    apply (Fe_ack _ _ _ _ _ _ _ 6000 6000 sample_ack).
    apply (encoded_presents toy_hmac never sample_deps); [intros p; apply undotted_free|by vm_compute|].
    simpl. rewrite Hc. left.
  - split_and!; [done|done|]. simpl. rewrite Hc. by vm_compute.
Qed.

Lemma sample_fresh : fresh_feed sample_empty.
Proof.
  unfold fresh_feed, sample_empty. cbn [fs_db feed next_feed installations checkpoints fs_issued].
  split; [constructor|]. split; [by intros x ?%not_elem_of_nil|].
  split; [|by split_and!]. intros k j [_ <-]%lookup_singleton_Some. simpl. lia.
Qed.

Lemma ack_never_skips_witness :
  ∃ s' cp, checkpoints (fs_db s') !! sample_id = Some cp ∧ ack_feed_id cp = 1 ∧
    (sample_id, 1) ∈ fs_served s'.
Proof.
  destruct sample_feed_reachable as (s' & Hr & Hdb & Hbase & Hpass). exists s'. rewrite Hdb.
  destruct (checkpoints sample_acked.1 !! sample_id) as [cp|] eqn:Hc; [|vm_compute in Hc; discriminate].
  destruct (installations sample_acked.1 !! sample_id) as [i|] eqn:Hi; [|vm_compute in Hi; discriminate].
  destruct (feed sample_acked.1) as [|r l] eqn:Hf; [vm_compute in Hf; discriminate|].
  assert (Ha : ack_feed_id cp = 1) by (vm_compute in Hc; by injection Hc as <-).
  exists cp. split_and!; [done|done|].
  assert (Hid : fr_id r = 1) by (vm_compute in Hf; by injection Hf as <- _).
  rewrite <- Hid. destruct (ack_never_skips toy_hmac plain_sha never any_date no_control
    sample_deps sample_empty s' sample_id i cp r) as [H|(sessions & H & _)]; [exact sample_fresh|exact Hr
    |by rewrite Hdb|by rewrite Hdb|rewrite Hdb, Hf; left| |exact H|].
  - unfold base_of. rewrite Hbase, Hid, Ha. vm_compute in Hi. injection Hi as <-. vm_compute. split; congruence.
  - rewrite Hpass in H. destruct (not_elem_of_nil _ H).
Defined.

(** The owner adds a topic between the pull and the acknowledgement: the cursor
    of the old configuration is refused, and the checkpoint stays where the new
    one began. *)
Definition widened : UpdateInstallationPatch := {|
  up_status := None; up_scopes := None; up_filter := None;
  up_subscriptions := Some ["session.event.v1"; "turn.lifecycle.v1"]%string |}.

Example stale_cursor_refused :
  let d := (updateInstallation 7 sample_id 1 widened sample_pull.1 sample_pull.1).1 in
  (in_config_version <$> installations d !! sample_id) = Some 2 ∧
  (ack_feed toy_hmac plain_sha never sample_deps 6000 6000 sample_ack d).2 = inl CursorExpired.
Proof. by vm_compute. Qed.

Lemma ack_is_fenced_witness :
  sample_acked.2 = inr 1 ∧
  ∃ v cp, checkpoints sample_pull.1 !! sample_id = Some cp ∧
    cp_lease_epoch cp = field_number v "lease_epoch" ∧ 1 = Z.max (ack_feed_id cp) (field_number v "feed_id").
Proof.
  assert (H : sample_acked.2 = inr 1) by by vm_compute. split; [done|].
  assert (Hp : sample_acked = (sample_acked.1, inr 1)).
  { rewrite <- H. by destruct sample_acked. }
  destruct (ack_is_fenced _ _ _ _ _ _ _ _ _ _ Hp) as (v & cp & _ & Hc & He & _ & _ & Ha & _).
  exists v, cp. split; [exact Hc|]. split; [exact He|exact Ha].
Defined.

(** * Retention: what feed retention may delete
    (relay/src/extensions/retention.ts).

    A deleted row was consumed by, or a snapshot is demanded of, every
    installation whose subscriptions select it, when no row passes the hard limit
    between the statement that marks and the one that deletes.  Two executions
    show what is left out: a row that does pass it there, and the Team privacy
    rows that reach an installation without a subscription. *)

(** Keys are distinct in a list sorted by them. *)
Lemma by_key_inj {A} (f : A → Z) l x y :
  StronglySorted (by_key f) l → x ∈ l → y ∈ l → f x = f y → x = y.
Proof.
  induction 1 as [|z l _ IH Hz]; intros Hx Hy E; [by apply not_elem_of_nil in Hx|].
  rewrite Forall_forall in Hz. unfold by_key in Hz.
  apply elem_of_cons in Hx as [->|Hx]; apply elem_of_cons in Hy as [->|Hy]; [done| | |by apply IH].
  - specialize (Hz y Hy). lia.
  - specialize (Hz x Hx). lia.
Qed.

Section retention.
Context (sessions : string → option SessionInfo).

Lemma flag_fold_keeps ks (m : gmap string Checkpoint) k :
  match m !! k with Some cp => snapshot_required cp | None => false end = true →
  match fold_left (λ m k, <[k := flag (default new_checkpoint (m !! k))]> m) ks m !! k with
  | Some cp => snapshot_required cp | None => false end = true.
Proof.
  revert m. induction ks as [|k' ks IH]; intros m H; [done|]. simpl. apply IH.
  destruct (decide (k' = k)) as [->|Hn]; [by rewrite lookup_insert_eq|by rewrite lookup_insert_ne].
Qed.

Lemma flag_fold_sets ks (m : gmap string Checkpoint) k :
  k ∈ ks →
  match fold_left (λ m k, <[k := flag (default new_checkpoint (m !! k))]> m) ks m !! k with
  | Some cp => snapshot_required cp | None => false end = true.
Proof.
  revert m. induction ks as [|k' ks IH]; intros m H; [by apply not_elem_of_nil in H|]. simpl.
  apply elem_of_cons in H as [<-|H]; [|by apply IH].
  apply flag_fold_keeps. by rewrite lookup_insert_eq.
Qed.

Lemma victim_or_kept test locked batch d r :
  StronglySorted (by_key fr_id) (feed d) → r ∈ feed d →
  test r = true ∨ r ∈ feed (delete_rows (victims_of test locked batch d) d).
Proof.
  intros Hs Hr.
  destruct (decide (fr_id r ∈ victims_of test locked batch d)) as [Hv|Hv].
  - unfold victims_of in Hv. apply list_elem_of_fmap in Hv as (r' & Hid & Hv).
    apply elem_of_take in Hv as (n & Hv & _). apply list_elem_of_lookup_2 in Hv.
    apply elem_of_bfilter in Hv as [Ht Hr']. apply andb_prop in Ht as [Ht _].
    left. assert (r' = r) as ->; [|done].
    by apply (by_key_inj fr_id (feed d)).
  - right. apply elem_of_bfilter. split; [|done]. by rewrite bool_decide_false.
Qed.

Lemma lagging_cases d r k i :
  existsb (lagging sessions d r) (map_to_list (installations d)) = false →
  installations d !! k = Some i → needs sessions i r = true →
  flagged d k = true ∨ fr_id r ≤ consumed_up_to d k i.
Proof.
  intros He Hi Hn. assert (Hl : lagging sessions d r (k, i) = false).
  { apply not_true_iff_false. intros Hl. apply (not_true_iff_false _) in He. apply He.
    apply existsb_exists. exists (k, i). split; [|done].
    by apply list_elem_of_In, elem_of_map_to_list. }
  unfold lagging in Hl. simpl in Hl. rewrite Hn in Hl. destruct (flagged d k); [by left|]. right.
  simpl in Hl. lia.
Qed.

(** when no row passes the hard limit between the statement that marks and
    the one that deletes, a row that retention deletes was consumed by every
    installation whose subscriptions, scopes and filters select it, or that
    installation is told to take a snapshot. *)
Theorem retention_safe now1 now2 now3 retentionDays hardMaxDays locked1 locked3 batch d r k i :
  let d' := runFeedRetentionOnce sessions now1 now2 now3 retentionDays hardMaxDays
              locked1 locked3 batch d in
  StronglySorted (by_key fr_id) (feed d) →
  (∀ x, x ∈ feed d → fr_created x < now3 - interval_ms hardMaxDays →
        fr_created x < now2 - interval_ms hardMaxDays) →
  r ∈ feed d → r ∉ feed d' → installations d !! k = Some i → needs sessions i r = true →
  flagged d' k = true ∨ fr_id r ≤ consumed_up_to d k i.
Proof.
  intros d' Hs Hwin Hr Hgone Hi Hn. unfold d', runFeedRetentionOnce, hard_pass in *. clear d'.
  set (d1 := soft_pass sessions now1 retentionDays locked1 batch d) in *.
  assert (Hc1 : checkpoints d1 = checkpoints d ∧ installations d1 = installations d) by done.
  destruct Hc1 as [Hcp Hin].
  assert (Hkeep : flagged d k = true → flagged (mark_pass sessions now2 hardMaxDays d1) k = true).
  { intros H. unfold flagged, mark_pass in *. simpl. by apply flag_fold_keeps. }
  assert (Hcons : consumed_up_to d1 k i = consumed_up_to d k i) by done.
  destruct (victim_or_kept (λ r, (fr_created r <? now1 - interval_ms retentionDays)
    && negb (existsb (lagging sessions d r) (map_to_list (installations d)))) locked1 batch d r Hs Hr)
    as [Hd1|Hd1]; [|fold (soft_pass sessions now1 retentionDays locked1 batch d) in Hd1; fold d1 in Hd1].
  2: {
    assert (Hs1 : StronglySorted (by_key fr_id) (feed d1)) by by apply (sorted_bfilter fr_id).
    destruct (victim_or_kept (λ r, fr_created r <? now3 - interval_ms hardMaxDays) locked3 batch
      (mark_pass sessions now2 hardMaxDays d1) r Hs1 Hd1) as [Hv|Hv]; [|done].
    assert (Hold : fr_created r < now2 - interval_ms hardMaxDays) by (apply Hwin; [done|lia]).
    destruct (lagging sessions d1 r (k, i)) eqn:El.
    + left. unfold flagged, delete_rows, mark_pass. simpl. apply flag_fold_sets. unfold to_flag.
      apply list_elem_of_fmap. exists (k, i). split; [done|]. apply elem_of_bfilter. split.
      * apply existsb_exists. exists r. split; [by apply list_elem_of_In|]. rewrite El. simpl. lia.
      * apply elem_of_map_to_list. by rewrite Hin.
    + unfold lagging in El. simpl in El. rewrite Hn, Hcons in El.
      destruct (flagged d1 k) eqn:Ef; [left; by apply Hkeep|].
      right. simpl in El. lia. }
  apply andb_prop in Hd1 as [_ Hl]. apply negb_true_iff in Hl.
  destruct (lagging_cases d r k i Hl Hi Hn) as [Hf|Hf]; [left; by apply Hkeep|by right].
Qed.
End retention.

(** *** Executions *)

Definition memory_installation (topics : list string) : Installation := {|
  in_provider := "pocketctl-memory"; in_owner := Some 7; in_personal := true; in_status := Active;
  granted_scopes := ["session:events:read"; "session:deletion:read"]%string; subscriptions := topics;
  event_filter := JObj []; start_feed_id := 0; in_config_version := 1 |}.

Definition feed_row (id created : Z) (topic kind : string) : FeedRow := {|
  fr_id := id; fr_owner := 7; fr_topic := topic; fr_kind := kind; fr_source := "x";
  fr_session := Some "s"%string; fr_turn := None; fr_payload := JObj []; fr_created := created |}.

Definition retention_db (topics : list string) (rows : list FeedRow) : Db := {|
  outbox := []; next_seq := 1; feed := rows; next_feed := 10;
  installations := {[ "i"%string := memory_installation topics ]}; checkpoints := ∅ |}.

Definition day : Z := 86400000.

Definition event_row : FeedRow := feed_row 1 0 "session.event.v1" "canonical_event".

Definition nobody (_ : string) : option SessionInfo := None.

Lemma retention_safe_witness :
  flagged (runFeedRetentionOnce nobody (20 * day) (20 * day) (20 * day) 5 10 [] [] 500
             (retention_db ["session.event.v1"%string] [event_row])) "i" = true
  ∨ fr_id event_row ≤ consumed_up_to (retention_db ["session.event.v1"%string] [event_row]) "i"
                        (memory_installation ["session.event.v1"%string]).
Proof.
  apply (retention_safe nobody (20 * day) (20 * day) (20 * day) 5 10 [] [] 500
    (retention_db ["session.event.v1"%string] [event_row]) event_row "i").
  - repeat constructor.
  - done.
  - left.
  - vm_compute. intros H. inversion H.
  - done.
  - by vm_compute.
Defined.

Definition control_row : FeedRow := feed_row 1 0 "session.access.revoked.v1" "session_access_revoked".

(** What retention does not guard: a row that passes the hard limit
    between marking and deleting, and a Team privacy row that the first-party
    Memory installation must receive without a subscription.  Both are deleted
    although the installation wants them and has not consumed them, and no
    snapshot is demanded of it. *)
Theorem retention_exceptions :
  let d := retention_db ["session.event.v1"%string] [event_row] in
  let d' := runFeedRetentionOnce nobody (10 * day) (10 * day) (10 * day + 1) 5 10 [] [] 500 d in
  let e := retention_db [] [control_row] in
  let e' := runFeedRetentionOnce nobody (6 * day) (6 * day) (6 * day) 5 10 [] [] 500 e in
  (wanted nobody (λ _, false) (memory_installation ["session.event.v1"%string]) event_row = true ∧
   consumed_up_to d "i" (memory_installation ["session.event.v1"%string]) < fr_id event_row ∧
   feed d' = [] ∧ flagged d' "i" = false) ∧
  (wanted nobody (λ _, true) (memory_installation []) control_row = true ∧
   consumed_up_to e "i" (memory_installation []) < fr_id control_row ∧
   feed e' = [] ∧ flagged e' "i" = false).
Proof. vm_compute. done. Qed.
