(* ===== verification/DeliveryContract.v ===== *)
(** * DeliveryContract: the input checks of team deliveries
    (relay/src/team/delivery-contract.ts).

    A check either passes or throws; [team A] is the result of a function that
    throws a [TeamRepositoryError], a database error, or the [TypeError] of
    reading a property of [null].  The SHA-256 digest and ICU's [localeCompare] are arguments of the
    functions that use them. *)

From Stdlib Require Import Ascii.
From S2P Require Import Prelude JsValue JsMap StrictJson StrictJsonSpec JsonRoundTrip FeedCursor FeedDelivery.

#[local] Open Scope Z_scope.

Inductive TeamError : Type :=
| TeamRepositoryError (code message : string) (currentRevision : option Z)
| DatabaseError (sqlstate : string)
| TypeError.

Definition team_error (code message : string) : TeamError :=
  TeamRepositoryError code message None.

Definition team (A : Type) : Type := TeamError + A.

Definition bind_team {A B} (m : team A) (k : A → team B) : team B :=
  match m with inl e => inl e | inr a => k a end.

(** [if (!ok) throw error], then the rest. *)
Definition require {A} (ok : bool) (error : TeamError) (rest : team A) : team A :=
  if ok then rest else inl error.

Declare Scope team_scope.
Notation "'get!' x := m 'in' k" := (bind_team m (λ x, k))
  (at level 10, x name, m at level 100, k at level 200) : team_scope.
Notation "'do!' m 'in' k" := (bind_team m (λ _ : unit, k))
  (at level 10, m at level 100, k at level 200) : team_scope.
Notation "'need!' b 'else' e 'in' k" := (require b e k)
  (at level 10, b at level 100, e at level 100, k at level 200) : team_scope.
#[local] Open Scope team_scope.

Lemma require_ok {A} b e (m : team A) x : require b e m = inr x → b = true ∧ m = inr x.
Proof. destruct b; [done|]. done. Qed.

Lemma bind_team_ok {A B} (m : team A) (k : A → team B) x :
  bind_team m k = inr x → ∃ a, m = inr a ∧ k a = inr x.
Proof. destruct m as [e|a]; [done|]. by exists a. Qed.

(** Read off every check of a function that returned. *)
Ltac team_ok :=
  repeat match goal with
  | H : require _ _ _ = inr _ |- _ => apply require_ok in H; destruct H
  | H : bind_team _ _ = inr _ |- _ =>
      let a := fresh "a" in apply bind_team_ok in H; destruct H as (a & ? & H)
  end.

(** ** Limits *)

Definition max_artifacts : Z := 16.
Definition max_artifact_bytes : Z := 2 * 1024 * 1024.
Definition max_checks : Z := 32.

Definition deliveryInvalid (message : string) : TeamError :=
  team_error "invalid_request" message.

(** ** Scalar checks *)

Definition has_nul (s : string) : bool := existsb (λ c, code c =? 0) (chars s).

Definition boundedText (v : jsval) (name : string) (max : Z) (empty : bool) : team string :=
  match v with
  | JStr s =>
      need! (empty || negb (bool_decide (trim s = ""%string))) && (str_len s <=? max)
            && negb (has_nul s)
      else deliveryInvalid (name +:+ " is invalid") in inr s
  | _ => inl (deliveryInvalid (name +:+ " is invalid"))
  end.

(** [Number.isSafeInteger(v)]. *)
Definition safe_number (v : jsval) : option Z :=
  match v with JNum z => if is_safe_integer z then Some z else None | _ => None end.

Definition positiveRevision (v : jsval) : team Z :=
  match safe_number v with
  | Some z => need! 1 <=? z else deliveryInvalid "revision must be a positive integer" in inr z
  | None => inl (deliveryInvalid "revision must be a positive integer")
  end.

Fixpoint texts (name : string) (max : Z) (l : list jsval) : team (list string) :=
  match l with
  | [] => inr []
  | v :: l' =>
      get! s := boundedText v name max false in
      get! rest := texts name max l' in inr (s :: rest)
  end.

Definition stringList (v : jsval) (name : string) : team (list string) :=
  match v with
  | JArr l =>
      need! Z.of_nat (length l) <=? max_checks else deliveryInvalid (name +:+ " is invalid") in
      get! items := texts name 120 l in
      need! bool_decide (NoDup items) else deliveryInvalid (name +:+ " must be unique") in inr items
  | _ => inl (deliveryInvalid (name +:+ " is invalid"))
  end.

(** ** Review policies *)

Record TaskReviewPolicy : Type := {
  reviewer_user_id : Z; primary_offer_id : string; required_checks : list string
}.

Definition keys_allowed (fields : list (string * jsval)) (allowed : list string) : bool :=
  forallb (λ kv, bool_decide (kv.1 ∈ allowed)) fields.

Definition validateReviewPolicy (v : jsval) : team TaskReviewPolicy :=
  match v with
  | JObj fields =>
      need! keys_allowed fields ["reviewer_user_id"; "primary_offer_id"; "required_checks"]%string
      else deliveryInvalid "unexpected review policy field" in
      get! offer := boundedText (js_get v "primary_offer_id") "primary_offer_id" 128 false in
      get! reviewer := positiveRevision (js_get v "reviewer_user_id") in
      get! checks := stringList (js_get v "required_checks") "required_checks" in
      inr {| reviewer_user_id := reviewer; primary_offer_id := offer; required_checks := checks |}
  | _ => inl (deliveryInvalid "review policy required")
  end.

(** ** Submissions *)

(** [/^[a-zA-Z0-9_-]{1,80}$/]. *)
Definition id_char (c : ascii) : bool :=
  let k := code c in
  ((97 <=? k) && (k <=? 122)) || ((65 <=? k) && (k <=? 90)) || ((48 <=? k) && (k <=? 57))
  || (k =? 95) || (k =? 45).

Definition safe_id (s : string) : bool :=
  (1 <=? str_len s) && (str_len s <=? 80) && forallb id_char (chars s).

(** [/^[a-f0-9]{64}$/]. *)
Definition is_sha256 (s : string) : bool := (str_len s =? 64) && forallb lower_hex (chars s).

Definition path_char (c : ascii) : bool :=
  (code c =? 47) || (code c =? 92) || (code c =? 13) || (code c =? 10).

Definition artifact_types : list string :=
  ["text/plain"; "text/markdown"; "text/html"; "text/x-diff"; "application/json";
   "application/pdf"]%string.

Definition object_value (v : jsval) : bool := match v with JObj _ | JArr _ => true | _ => false end.

Definition one_of (v : jsval) (l : list string) : bool :=
  match v with JStr s => bool_decide (s ∈ l) | _ => false end.

Definition is_bool (v : jsval) : bool := match v with JBool _ => true | _ => false end.

Definition fresh_id (v : jsval) (ids : list string) : option string :=
  match v with
  | JStr s => if safe_id s && negb (bool_decide (s ∈ ids)) then Some s else None
  | _ => None
  end.

Definition validate_artifact (v : jsval) (ids : list string) : team (list string) :=
  need! object_value v else deliveryInvalid "invalid artifact" in
  match fresh_id (js_get v "id") ids with
  | None => inl (deliveryInvalid "artifact IDs must be unique safe identifiers")
  | Some id =>
      get! name := boundedText (js_get v "name") "artifact name" 240 false in
      need! negb (existsb path_char (chars name)) && negb (bool_decide (name ∈ ["."; ".."]%string))
      else deliveryInvalid "artifact name must not contain a path" in
      need! one_of (js_get v "mime_type") artifact_types
      else deliveryInvalid "unsupported artifact type" in
      need! match safe_number (js_get v "byte_size") with
            | Some n => (1 <=? n) && (n <=? max_artifact_bytes) | None => false end
      else deliveryInvalid "artifact byte limit exceeded" in
      need! match js_get v "sha256" with JStr h => is_sha256 h | _ => false end
            && is_bool (js_get v "required")
      else deliveryInvalid "artifact hash or required flag invalid" in
      inr (ids ++ [id])
  end.

Fixpoint validate_artifacts (l : list jsval) (ids : list string) : team (list string) :=
  match l with
  | [] => inr ids
  | v :: l' => get! ids' := validate_artifact v ids in validate_artifacts l' ids'
  end.

Definition validate_evidence (code_revision : jsval) (ids : list string) (v : jsval)
    (checks : list string) : team (list string) :=
  need! object_value v else deliveryInvalid "invalid evidence" in
  get! check_id := boundedText (js_get v "check_id") "check_id" 120 false in
  need! negb (bool_decide (check_id ∈ checks)) && one_of (js_get v "artifact_id") ids
  else deliveryInvalid "duplicate check or unknown evidence artifact" in
  need! one_of (js_get v "result") ["passed"; "failed"; "unverified"]%string
        && is_str (js_get v "source_kind") "agent_claim"
  else deliveryInvalid "trusted evidence cannot be supplied by this endpoint" in
  need! strict_eq (js_get v "code_revision") code_revision
  else deliveryInvalid "evidence code version mismatch" in
  inr (checks ++ [check_id]).

Fixpoint validate_evidences (code_revision : jsval) (ids : list string) (l : list jsval)
    (checks : list string) : team (list string) :=
  match l with
  | [] => inr checks
  | v :: l' =>
      get! checks' := validate_evidence code_revision ids v checks in
      validate_evidences code_revision ids l' checks'
  end.

(** Reading a property of [null] or [undefined] throws a [TypeError]. *)
Definition validateMutation (v : jsval) : team (string * Z) :=
  need! negb (is_nullish v) else TypeError in
  get! request := boundedText (js_get v "request_id") "request_id" 128 false in
  get! revision := positiveRevision (js_get v "expected_revision") in
  inr (request, revision).

(** [/^[a-f0-9]{8}-(?:[a-f0-9]{4}-){3}[a-f0-9]{12}$/i]. *)
Definition delivery_uuid (s : string) : bool := hex_groups any_hex 8 [4; 4; 4; 12]%nat s.

(** The artifact and check identifiers a valid submission names. *)
Definition validateSubmission (v : jsval) : team (list string * list string) :=
  get! mutation := validateMutation v in
  get! spec := positiveRevision (js_get v "spec_revision") in
  get! call := boundedText (js_get v "source_call_id") "source_call_id" 128 false in
  get! summary := boundedText (js_get v "summary") "summary" 16000 false in
  do! match js_get v "code_revision" with
      | JNull => inr ()
      | c => get! r := boundedText c "code_revision" 200 false in inr ()
      end in
  need! is_str (js_get v "publish_scope") "team"
  else deliveryInvalid "explicit team publication scope required" in
  match js_get v "artifacts" with
  | JArr artifacts =>
      need! (1 <=? Z.of_nat (length artifacts)) && (Z.of_nat (length artifacts) <=? max_artifacts)
      else deliveryInvalid "1-16 artifacts required" in
      get! contributions := stringList (js_get v "contribution_ids") "contribution_ids" in
      need! forallb delivery_uuid contributions else deliveryInvalid "invalid contribution ID" in
      get! ids := validate_artifacts artifacts [] in
      match js_get v "evidence" with
      | JArr evidence =>
          need! Z.of_nat (length evidence) <=? max_checks
          else deliveryInvalid "invalid evidence list" in
          get! checks := validate_evidences (js_get v "code_revision") ids evidence [] in
          inr (ids, checks)
      | _ => inl (deliveryInvalid "invalid evidence list")
      end
  | _ => inl (deliveryInvalid "1-16 artifacts required")
  end.

(** The decision and the verified checks of a valid acceptance. *)
Definition validateAcceptance (v : jsval) : team (bool * list string) :=
  get! mutation := validateMutation v in
  get! submission := boundedText (js_get v "submission_id") "submission_id" 128 false in
  need! delivery_uuid submission else deliveryInvalid "invalid submission ID" in
  get! spec := positiveRevision (js_get v "spec_revision") in
  need! one_of (js_get v "decision") ["accepted"; "changes_requested"]%string
  else deliveryInvalid "invalid acceptance decision" in
  get! reason := boundedText (js_get v "reason") "reason" 8000
                   (is_str (js_get v "decision") "accepted") in
  get! checks := stringList (js_get v "verified_checks") "verified_checks" in
  inr (is_str (js_get v "decision") "accepted", checks).

(** ** Canonical JSON *)

Section canonical.
Context (localeCompare : string → string → Z).

Definition locale_le {A} (x y : string * A) : Prop := localeCompare x.1 y.1 ≤ 0.

#[global] Instance locale_le_dec {A} : RelDecision (@locale_le A).
Proof. intros x y. unfold locale_le. apply _. Defined.

(** Objects are rebuilt with their entries in the order of their keys.  (An
    engine lists keys that are array indices before all others; the objects
    digested here have names as keys.) *)
Fixpoint canonical (v : jsval) : jsval :=
  match v with
  | JArr l => JArr (map canonical l)
  | JObj fields => JObj (merge_sort locale_le (map (λ kv, (kv.1, canonical kv.2)) fields))
  | _ => v
  end.

Definition stableJSON (v : jsval) : string := json_text (canonical v).

Definition stableDigest (sha256 : string → string) (v : jsval) : string := sha256 (stableJSON v).
End canonical.

(** ** What a valid submission is *)

Lemma boundedText_ok v name max empty s :
  boundedText v name max empty = inr s → v = JStr s ∧ str_len s ≤ max ∧ has_nul s = false.
Proof.
  destruct v; simpl; try done. intros H. team_ok. bool_hyps. by simplify_eq.
Qed.

Lemma texts_ok name max l items : texts name max l = inr items → l = JStr <$> items.
Proof.
  revert items. induction l as [|v l IH]; intros items H; simpl in H; [by simplify_eq|].
  team_ok. simplify_eq/=. f_equal; [|by apply IH].
  by eapply boundedText_ok.
Qed.

Lemma stringList_ok v name items :
  stringList v name = inr items →
  v = JArr (JStr <$> items) ∧ NoDup items ∧ Z.of_nat (length items) ≤ max_checks.
Proof.
  destruct v; simpl; try done. intros H. team_ok. bool_hyps. simplify_eq.
  match goal with Ht : texts _ _ _ = _ |- _ => apply texts_ok in Ht as -> end.
  rewrite length_fmap in *. done.
Qed.


(** ** Canonical JSON determines the fields *)

Section canonical_facts.
Context (localeCompare : string → string → Z).

Lemma canonical_fields fields :
  ∃ fields', canonical localeCompare (JObj fields) = JObj fields' ∧
    fields' ≡ₚ (λ kv, (kv.1, canonical localeCompare kv.2)) <$> fields.
Proof. eexists. split; [reflexivity|]. apply merge_sort_Permutation. Qed.

Lemma canonical_strict d v : strict_value d v → strict_value d (canonical localeCompare v).
Proof.
  revert d. induction v as [| | | | | |l IH|fields IH] using jsval_nested_ind; intros d H;
    inversion H as [| |? ? Hz|? ? Hf| |? ? Hd Hl|? ? Hd Hk Hl]; subst; try by constructor.
  - constructor; [done|]. apply Forall_map. rewrite Forall_forall in *. naive_solver.
  - destruct (canonical_fields fields) as (fields' & -> & Hp). constructor; [done| |].
    + rewrite Hp, <- list_fmap_compose. done.
    + rewrite Hp. apply Forall_map. rewrite Forall_forall in *. simpl. naive_solver.
Qed.

Lemma canonical_printed v : printed v = true → printed (canonical localeCompare v) = true.
Proof.
  induction v as [| | | | | |l IH|fields IH] using jsval_nested_ind; intros H; try done;
    simpl in H; rewrite forallb_forall in H.
  - simpl. apply forallb_forall. intros x (y & <- & Hy)%in_map_iff.
    rewrite Forall_forall in IH. apply IH; [by apply list_elem_of_In|by apply H].
  - destruct (canonical_fields fields) as (fields' & -> & Hp). simpl.
    apply forallb_forall. intros x Hx%list_elem_of_In. rewrite Hp in Hx.
    apply list_elem_of_fmap in Hx as (y & -> & Hy). simpl.
    rewrite Forall_forall in IH. apply IH; [done|]. by apply H, list_elem_of_In.
Qed.

Lemma stableJSON_inj v w :
  strict_value 0 v → printed v = true → strict_value 0 w → printed w = true →
  stableJSON localeCompare v = stableJSON localeCompare w →
  canonical localeCompare v = canonical localeCompare w.
Proof.
  intros Hv Hfv Hw Hfw E. unfold stableJSON in E.
  apply canonical_strict, JSON_parse_text in Hv; [|by apply canonical_printed].
  apply canonical_strict, JSON_parse_text in Hw; [|by apply canonical_printed].
  rewrite E in Hv. congruence.
Qed.

(** Each field of the canonical object is the canonical field. *)
Lemma canonical_get fields k v :
  NoDup fields.*1 → (k, v) ∈ fields →
  js_get (canonical localeCompare (JObj fields)) k = canonical localeCompare v.
Proof.
  intros Hnd Hin. destruct (canonical_fields fields) as (fields' & -> & Hp). simpl.
  apply lookup_field_elem; [by rewrite Hp, <- list_fmap_compose|]. rewrite Hp.
  apply list_elem_of_fmap. by exists (k, v).
Qed.

(** Objects with the same canonical form have the same canonical fields. *)
Lemma canonical_field_eq f g k v w :
  canonical localeCompare (JObj f) = canonical localeCompare (JObj g) →
  NoDup f.*1 → NoDup g.*1 → (k, v) ∈ f → (k, w) ∈ g →
  canonical localeCompare v = canonical localeCompare w.
Proof.
  intros E Hf Hg Hv Hw. rewrite <- (canonical_get f k v Hf Hv), <- (canonical_get g k w Hg Hw).
  by rewrite E.
Qed.

Lemma canonical_strings (l : list string) :
  canonical localeCompare (JArr (map JStr l)) = JArr (map JStr l).
Proof. simpl. f_equal. rewrite map_map. by apply map_ext. Qed.
End canonical_facts.

#[global] Instance JStr_inj : Inj (=) (=) JStr.
Proof. intros s t H. by inv H. Qed.

Lemma map_JStr_inj (l k : list string) : map JStr l = map JStr k → l = k.
Proof. apply (inj (fmap JStr)). Qed.
