(* ===== verification/TaskPlan.v ===== *)
(** * TaskPlan: the contract of team task plans (relay/src/team/plan-contract.ts).

    A plan is a set of steps with dependencies.  [validateTaskPlan] checks the
    untrusted input and orders the steps so that every step follows what it
    depends on; [requireUnchangedStartedSteps] fixes the definition of every
    step that has been started. *)

From Stdlib Require Import Ascii.
From S2P Require Import Prelude JsValue JsMap JsonRoundTrip DeliveryContract.

#[local] Open Scope Z_scope.
#[local] Open Scope team_scope.

Definition max_steps : Z := 32.
Definition max_plan_revisions : Z := 100.
Definition max_plan_bytes : Z := 128 * 1024.

Record TaskPlanStep : Type := {
  step_id : string;
  title : string;
  instruction : string;
  acceptance : string;
  required : bool;
  depends_on : list string;
  review_policy : TaskReviewPolicy
}.

Record TaskPlanInput : Type := {
  plan_request_id : string;
  expected_revision : Z;
  team_session_id : string;
  context_version : Z;
  spec_revision : Z;
  plan_steps : list TaskPlanStep
}.

Definition plan_invalid (message : string) : TeamError :=
  team_error "invalid_request" message.

(** [object(value, allowed)]. *)
Definition plan_object (v : jsval) (allowed : list string) : team (list (string * jsval)) :=
  match v with
  | JObj fields => need! keys_allowed fields allowed
                   else plan_invalid "unexpected plan fields" in inr fields
  | _ => inl (plan_invalid "unexpected plan fields")
  end.

Definition nonneg_integer (v : jsval) (name : string) : team Z :=
  match safe_number v with
  | Some z => need! 0 <=? z else plan_invalid (name +:+ " must be a nonnegative integer") in inr z
  | None => inl (plan_invalid (name +:+ " must be a nonnegative integer"))
  end.

(** ** One step *)

Definition all_strings (l : list jsval) : option (list string) :=
  mapM (λ v, match v with JStr s => Some s | _ => None end) l.

Definition dependencies (v : jsval) : team (list string) :=
  match v with
  | JArr l =>
      match all_strings l with
      | Some ids =>
          need! (Z.of_nat (length ids) <=? max_steps) && bool_decide (NoDup ids)
          else plan_invalid "dependencies must be unique step IDs" in inr ids
      | None => inl (plan_invalid "dependencies must be unique step IDs")
      end
  | _ => inl (plan_invalid "dependencies must be unique step IDs")
  end.

Definition as_bool (v : jsval) : team bool :=
  match v with JBool b => inr b | _ => inl (plan_invalid "required must be boolean") end.

Definition step_fields : list string :=
  ["step_id"; "title"; "instruction"; "acceptance"; "required"; "depends_on";
   "review_policy"]%string.

Definition read_step (raw : jsval) (seen : list string) : team TaskPlanStep :=
  get! fields := plan_object raw step_fields in
  match fresh_id (js_get raw "step_id") seen with
  | None => inl (plan_invalid "step IDs must be unique safe identifiers")
  | Some id =>
      get! t := boundedText (js_get raw "title") "step title" 120 false in
      get! i := boundedText (js_get raw "instruction") "step instruction" 16000 false in
      get! a := boundedText (js_get raw "acceptance") "step acceptance" 8000 false in
      get! r := as_bool (js_get raw "required") in
      get! policy := validateReviewPolicy (js_get raw "review_policy") in
      get! deps := dependencies (js_get raw "depends_on") in
      inr {| step_id := id; title := t; instruction := i; acceptance := a; required := r;
             depends_on := deps; review_policy := policy |}
  end.

(** The loop that fills the map of steps. *)
Fixpoint read_steps (raws : list jsval) (steps : jsmap string TaskPlanStep)
    : team (jsmap string TaskPlanStep) :=
  match raws with
  | [] => inr steps
  | raw :: raws' =>
      get! s := read_step raw steps.*1 in read_steps raws' (map_set steps (step_id s) s)
  end.

(** ** The order of the steps *)

Definition deps_of (steps : jsmap string TaskPlanStep) (id : string) : list string :=
  match map_get steps id with Some s => depends_on s | None => [] end.

Definition is_ready (steps : jsmap string TaskPlanStep) (pending : list string) (id : string)
    : bool :=
  forallb (λ parent, negb (bool_decide (parent ∈ pending))) (deps_of steps id).

Definition ready (steps : jsmap string TaskPlanStep) (pending : list string) : list string :=
  merge_sort String.le (bfilter (is_ready steps pending) pending).

Definition without (pending ids : list string) : list string :=
  bfilter (λ x, negb (bool_decide (x ∈ ids))) pending.

(** [while (pending.size)]: [None] when the fuel runs out before the loop
    ends. *)
Fixpoint order_steps (fuel : nat) (steps : jsmap string TaskPlanStep)
    (pending order : list string) : option (team (list string)) :=
  match pending with
  | [] => Some (inr order)
  | _ =>
      match fuel with
      | O => None
      | S fuel' =>
          match ready steps pending with
          | [] => Some (inl (plan_invalid "plan contains a dependency cycle"))
          | ids => order_steps fuel' steps (without pending ids) (order ++ ids)
          end
      end
  end.

Definition known_dependencies (steps : jsmap string TaskPlanStep) : bool :=
  forallb (λ s, forallb (λ d, map_has steps d && negb (bool_decide (d = step_id s)))
    (depends_on s)) steps.*2.

Definition plan_fields : list string :=
  ["request_id"; "expected_revision"; "team_session_id"; "context_version"; "spec_revision";
   "steps"]%string.

(** Everything that is checked before the steps are ordered. *)
Definition read_plan (v : jsval) : team (TaskPlanInput * jsmap string TaskPlanStep) :=
  get! fields := plan_object v plan_fields in
  get! request := boundedText (js_get v "request_id") "request_id" 128 false in
  get! session := boundedText (js_get v "team_session_id") "team_session_id" 128 false in
  get! expected := nonneg_integer (js_get v "expected_revision") "expected_revision" in
  get! context := nonneg_integer (js_get v "context_version") "context_version" in
  get! spec := positiveRevision (js_get v "spec_revision") in
  match js_get v "steps" with
  | JArr raws =>
      need! (1 <=? Z.of_nat (length raws)) && (Z.of_nat (length raws) <=? max_steps)
      else plan_invalid "plan requires 1-32 steps" in
      need! json_bytes v <=? max_plan_bytes else plan_invalid "plan byte limit exceeded" in
      get! steps := read_steps raws [] in
      need! existsb required steps.*2 else plan_invalid "at least one required step is needed" in
      need! known_dependencies steps
      else plan_invalid "dependency must refer to another step in this task plan" in
      inr ({| plan_request_id := request; expected_revision := expected;
              team_session_id := session; context_version := context; spec_revision := spec;
              plan_steps := steps.*2 |}, steps)
  | _ => inl (plan_invalid "plan requires 1-32 steps")
  end.

Definition validateTaskPlan (v : jsval) : option (team (list string)) :=
  match read_plan v with
  | inl e => Some (inl e)
  | inr (_, steps) => order_steps (length steps) steps steps.*1 []
  end.

(** ** Digests of steps *)

Definition policy_value (p : TaskReviewPolicy) : jsval :=
  JObj [("reviewer_user_id", JNum (reviewer_user_id p));
        ("primary_offer_id", JStr (primary_offer_id p));
        ("required_checks", JArr (map JStr (required_checks p)))]%string.

Definition step_value (s : TaskPlanStep) : jsval :=
  JObj [("step_id", JStr (step_id s)); ("title", JStr (title s));
        ("instruction", JStr (instruction s)); ("acceptance", JStr (acceptance s));
        ("required", JBool (required s)); ("depends_on", JArr (map JStr (depends_on s)));
        ("review_policy", policy_value (review_policy s))]%string.

(** [{...step, depends_on: [...].sort(), review_policy: {..., required_checks:
    [...].sort()}}]. *)
Definition sorted_step (s : TaskPlanStep) : TaskPlanStep := {|
  step_id := step_id s; title := title s; instruction := instruction s;
  acceptance := acceptance s; required := required s;
  depends_on := merge_sort String.le (depends_on s);
  review_policy := {|
    reviewer_user_id := reviewer_user_id (review_policy s);
    primary_offer_id := primary_offer_id (review_policy s);
    required_checks := merge_sort String.le (required_checks (review_policy s)) |} |}.

Section digest.
Context (localeCompare : string → string → Z) (sha256 : string → string).

Definition stepDigest (s : TaskPlanStep) : string :=
  stableDigest localeCompare sha256 (step_value (sorted_step s)).

(** [new Map(steps.map(...))]: a later step with the same identifier wins. *)
Definition requireUnchangedStartedSteps (steps : list TaskPlanStep)
    (started : list (string * TaskPlanStep)) : team unit :=
  let next := map_of step_id stepDigest steps in
  need! forallb (λ st, bool_decide (map_get next st.1 = Some (stepDigest st.2))) started
  else team_error "invalid_state" "a started step cannot be changed or removed" in
  inr ().
End digest.
