(* ===== verification/TaskPlanSpec.v ===== *)
(** * TaskPlanSpec: task plans are ordered by their dependencies.

    The loop of [validateTaskPlan] ends within as many rounds as there are
    steps; it returns an order exactly when the dependencies are acyclic, and
    the order does not depend on how the input lists the steps. *)

From stdpp Require Import relations.
From S2P Require Import Prelude JsValue JsMap JsonRoundTrip DeliveryContract TaskPlan.

#[local] Open Scope nat_scope.

(** [depends_upon steps b a]: step [b] depends on step [a]. *)
Definition depends_upon (steps : jsmap string TaskPlanStep) (b a : string) : Prop :=
  a ∈ deps_of steps b.

Definition acyclic (steps : jsmap string TaskPlanStep) : Prop :=
  Irreflexive (tc (depends_upon steps)).

(** Every step comes after the steps it depends on. *)
Definition topological (steps : jsmap string TaskPlanStep) (order : list string) : Prop :=
  ∀ l1 b l2, order = l1 ++ b :: l2 → deps_of steps b ⊆ l1.

Definition cycle_error : TeamError := plan_invalid "plan contains a dependency cycle".

(** ** Rounds *)

Section rounds.
Context (steps : jsmap string TaskPlanStep).

Lemma elem_of_ready pending id :
  id ∈ ready steps pending ↔ id ∈ pending ∧ (∀ a, depends_upon steps id a → a ∉ pending).
Proof.
  unfold ready. rewrite merge_sort_Permutation, elem_of_bfilter. unfold is_ready, depends_upon.
  rewrite forallb_forall. split.
  - intros [H ?]. split; [done|]. intros a Ha. apply list_elem_of_In, H in Ha. by bool_hyps.
  - intros [? H]. split; [|done]. intros a Ha%list_elem_of_In%H.
    by apply negb_true_iff, bool_decide_eq_false.
Qed.

Lemma elem_of_without pending ids x : x ∈ without pending ids ↔ x ∈ pending ∧ x ∉ ids.
Proof.
  unfold without. rewrite elem_of_bfilter. split.
  - intros [H ?]. by bool_hyps.
  - intros [? H]. split; [|done]. by apply negb_true_iff, bool_decide_eq_false.
Qed.

Lemma without_shorter pending ids x :
  x ∈ pending → x ∈ ids → length (without pending ids) < length pending.
Proof.
  intros Hx Hi. unfold without. induction pending as [|y pending IH]; [by inv Hx|]. simpl.
  pose proof (bfilter_length (λ x, negb (bool_decide (x ∈ ids))) pending).
  case_bool_decide as Hy; simpl; [lia|].
  apply elem_of_cons in Hx as [->|Hx]; [done|]. specialize (IH Hx). lia.
Qed.

Lemma ready_head pending id ids :
  ready steps pending = id :: ids → id ∈ pending ∧ id ∈ ready steps pending.
Proof.
  intros E. assert (Hin : id ∈ ready steps pending) by (rewrite E; left).
  split; [|done]. by apply elem_of_ready in Hin as [? _].
Qed.

(** A round with something ready leaves fewer steps pending. *)
Lemma round_progress pending id ids :
  ready steps pending = id :: ids →
  length (without pending (id :: ids)) < length pending.
Proof. intros E. apply (without_shorter _ _ id); [by eapply ready_head|left]. Qed.

Lemma order_steps_total fuel pending order :
  length pending ≤ fuel → is_Some (order_steps fuel steps pending order).
Proof.
  revert pending order. induction fuel as [|fuel IH]; intros pending order Hlen.
  { destruct pending; simpl in *; [by eexists|lia]. }
  destruct pending as [|p pending]; [by eexists|]. cbn -[ready without].
  destruct (ready steps (p :: pending)) as [|id ids] eqn:E; [by eexists|].
  apply IH. apply round_progress in E. lia.
Qed.

(** ** Soundness *)

Lemma topological_app order ids :
  topological steps order → (∀ b, b ∈ ids → deps_of steps b ⊆ order) →
  topological steps (order ++ ids).
Proof.
  intros Ht Hids l1 b l2 E.
  apply app_eq_inv in E as [(k & -> & E)|(k & -> & E)].
  - destruct k as [|c k]; simplify_eq/=.
    + rewrite app_nil_r in *. apply Hids. subst. left.
    + by eapply Ht.
  - assert (Hb : b ∈ ids) by (rewrite E; set_solver). specialize (Hids b Hb). set_solver.
Qed.

Lemma without_perm pending ids :
  NoDup pending → NoDup ids → ids ⊆ pending → ids ++ without pending ids ≡ₚ pending.
Proof.
  intros Hp Hi Hsub. apply NoDup_Permutation; [|done|].
  - apply NoDup_app. split; [done|]. split.
    + intros x Hx Hw. by apply elem_of_without in Hw as [_ ?].
    + eapply sublist_NoDup; [exact Hp|apply bfilter_sublist].
  - intros x. rewrite elem_of_app, elem_of_without. split; [intros [?|[? _]]; [by apply Hsub|done]|].
    intros Hx. destruct (decide (x ∈ ids)); [by left|by right].
Qed.

Lemma ready_NoDup pending : NoDup pending → NoDup (ready steps pending).
Proof.
  intros H. unfold ready. rewrite merge_sort_Permutation.
  eapply sublist_NoDup; [done|apply bfilter_sublist].
Qed.

Lemma order_steps_sound fuel pending order result :
  NoDup pending → topological steps order →
  (∀ b, b ∈ pending → deps_of steps b ⊆ order ++ pending) →
  order_steps fuel steps pending order = Some (inr result) →
  result ≡ₚ order ++ pending ∧ topological steps result.
Proof.
  revert pending order. induction fuel as [|fuel IH]; intros pending order Hnd Ht Hk H.
  { destruct pending; simplify_eq/=. by rewrite app_nil_r. }
  destruct pending as [|p pending']; [simplify_eq/=; by rewrite app_nil_r|].
  cbn -[ready without] in H. revert H Hnd Hk. generalize (p :: pending') as pending.
  intros pending H Hnd Hk.
  destruct (ready steps pending) as [|id ids] eqn:E; [done|]. rewrite <- E in H.
  assert (Hsub : ready steps pending ⊆ pending) by (intros x Hx; by apply elem_of_ready in Hx as [? _]).
  pose proof (without_perm _ _ Hnd (ready_NoDup _ Hnd) Hsub) as Hperm.
  apply IH in H as [Hr Htop].
  - split; [|done]. by rewrite Hr, <- (assoc_L (++)), Hperm.
  - eapply sublist_NoDup; [done|apply bfilter_sublist].
  - apply topological_app; [done|]. intros b Hb a Ha.
    apply elem_of_ready in Hb as [Hb Hfree].
    specialize (Hk b Hb a Ha). apply elem_of_app in Hk as [?|?]; [done|].
    by apply Hfree in Ha.
  - intros b Hb. apply elem_of_without in Hb as [Hb _].
    rewrite <- (assoc_L (++)), Hperm. by apply Hk.
Qed.

(** The only way to fail is a round in which nothing is ready. *)
Lemma order_steps_error fuel pending order e :
  order_steps fuel steps pending order = Some (inl e) →
  e = cycle_error ∧ ∃ stuck, stuck ≠ [] ∧ stuck ⊆ pending ∧ ready steps stuck = [].
Proof.
  revert pending order. induction fuel as [|fuel IH]; intros [|p pending] order H; try done.
  cbn -[ready without] in H.
  destruct (ready steps (p :: pending)) as [|id ids] eqn:E.
  { simplify_eq. split; [done|]. by exists (p :: pending). }
  apply IH in H as (He & stuck & Hne & Hsub & Hr). split; [done|]. exists stuck.
  split; [done|]. split; [|done]. intros x Hx%Hsub. by apply elem_of_without in Hx as [? _].
Qed.

(** ** Cycles *)

(** Nothing is ready only when the pending steps contain a cycle. *)
Lemma acyclic_ready pending :
  acyclic steps → (∀ b, b ∈ steps.*1 → deps_of steps b ⊆ steps.*1) → pending ⊆ steps.*1 →
  pending ≠ [] → ready steps pending ≠ [].
Proof.
  intros Hac Hclosed Hsub Hne Hr.
  destruct pending as [|p pending'] eqn:Ep; [done|]. rewrite <- Ep in *.
  assert (Hp : p ∈ pending) by (rewrite Ep; left). clear Ep Hne.
  assert (Hsn : sn (depends_upon steps) p).
  { apply tc_finite_sn; [exact Hac|]. exists steps.*1. intros y Hy.
    apply Hsub in Hp. clear Hr Hsub.
    induction Hy as [x y Hxy|x y z Hxy _ IH]; [by eapply Hclosed|].
    apply IH. by eapply Hclosed. }
  induction Hsn as [p _ IH]. unfold flip in IH.
  destruct (decide (Exists (.∈ pending) (deps_of steps p))) as [Hex|Hno].
  - apply Exists_exists in Hex as (a & Ha & Hin). by apply (IH a Ha).
  - assert (p ∈ ready steps pending) as Hin; [|rewrite Hr in Hin; by inv Hin].
    apply elem_of_ready. split; [done|]. intros a Ha Hin. apply Hno, Exists_exists. by exists a.
Qed.

Lemma topological_before order l1 b l2 a :
  topological steps order → order = l1 ++ b :: l2 → tc (depends_upon steps) b a → a ∈ l1.
Proof.
  intros Ht E Hba. revert l1 l2 E.
  induction Hba as [b a Hab|b c a Hbc _ IH]; intros l1 l2 E; [by eapply Ht|].
  assert (Hc : c ∈ l1) by (by eapply Ht).
  apply list_elem_of_split in Hc as (k1 & k2 & ->).
  assert (a ∈ k1); [|set_solver]. apply (IH k1 (k2 ++ b :: l2)). by rewrite E, <- (assoc_L (++)).
Qed.

Lemma topological_acyclic order :
  NoDup order → topological steps order → (∀ b a, depends_upon steps b a → b ∈ order) → acyclic steps.
Proof.
  intros Hnd Ht Hall x Hxx.
  assert (Hx : x ∈ order) by (inv Hxx; by eapply Hall).
  apply list_elem_of_split in Hx as (l1 & l2 & ->).
  pose proof (topological_before _ _ _ _ _ Ht eq_refl Hxx).
  apply NoDup_app in Hnd as (_ & Hd & _). apply (Hd x); [done|left].
Qed.
End rounds.

(** ** The map of steps *)

(** Keys are the identifiers of the steps, each once. *)
Definition steps_wf (steps : jsmap string TaskPlanStep) : Prop :=
  map_ok steps ∧ ∀ k s, (k, s) ∈ steps → k = step_id s.

Lemma read_step_fresh raw seen s : read_step raw seen = inr s → step_id s ∉ seen.
Proof.
  unfold read_step. intros H. team_ok. destruct (fresh_id _ _) as [id|] eqn:E; [|done].
  team_ok. simplify_eq/=. unfold fresh_id in E. destruct (js_get raw "step_id"); try done.
  destruct (safe_id _ && _) eqn:Hb; [|done]. simplify_eq. by bool_hyps.
Qed.

Lemma read_steps_wf raws steps0 steps :
  steps_wf steps0 → read_steps raws steps0 = inr steps →
  steps_wf steps ∧ length steps = (length steps0 + length raws).
Proof.
  revert steps0. induction raws as [|raw raws IH]; intros steps0 Hwf H; simpl in H.
  { simplify_eq. split; [done|]. simpl. lia. }
  team_ok. match goal with Hr : read_step _ _ = inr ?s |- _ => rename s into st; pose proof (read_step_fresh _ _ _ Hr) as Hfresh end.
  apply IH in H as [Hw Hl].
  - split; [done|]. rewrite map_set_length_out in Hl by done. simpl. lia.
  - destruct Hwf as [Hok Hkeys]. split; [by apply map_set_ok|]. intros k s Hin.
    apply map_get_elem in Hin; [|by apply map_set_ok]. rewrite map_get_set in Hin.
    case_decide; simplify_eq; [done|]. by apply map_get_Some_elem, Hkeys in Hin.
Qed.

Lemma known_closed steps :
  steps_wf steps → known_dependencies steps = true →
  ∀ b, deps_of steps b ⊆ steps.*1.
Proof.
  intros [Hok Hkeys] Hk b a Ha. unfold deps_of in Ha.
  destruct (map_get steps b) as [s|] eqn:E; [|by inv Ha]. apply map_get_Some_elem in E.
  unfold known_dependencies in Hk. rewrite forallb_forall in Hk.
  assert (Hs : In s steps.*2) by (apply list_elem_of_In, list_elem_of_fmap; by exists (b, s)).
  specialize (Hk s Hs). rewrite forallb_forall in Hk.
  apply list_elem_of_In, Hk in Ha. bool_hyps. unfold map_has in *.
  apply map_get_is_Some. by destruct (map_get steps a).
Qed.

Lemma depends_key steps b a : depends_upon steps b a → b ∈ steps.*1.
Proof.
  unfold depends_upon, deps_of. intros H. apply map_get_is_Some.
  destruct (map_get steps b); [by eexists|by inv H].
Qed.

Lemma read_plan_wf v input steps :
  read_plan v = inr (input, steps) →
  steps_wf steps ∧ (∀ b, deps_of steps b ⊆ steps.*1) ∧ plan_steps input = steps.*2 ∧
  existsb required (plan_steps input) = true ∧ (1 ≤ length steps ≤ 32)%nat.
Proof.
  unfold read_plan. intros H. team_ok. destruct (js_get v "steps"); try done. team_ok.
  simplify_eq/=. match goal with Hr : read_steps _ _ = _ |- _ => apply read_steps_wf in Hr as [Hwf Hl] end.
  2: { split; [constructor|]. intros k s Hin. by inv Hin. }
  split; [done|]. split; [by apply known_closed|]. split; [done|]. split; [done|].
  unfold max_steps in *. bool_hyps. simpl in Hl. lia.
Qed.

(** ** The order is right *)

Lemma keys_are_ids steps : steps_wf steps → steps.*1 = step_id <$> steps.*2.
Proof.
  intros [_ Hkeys]. induction steps as [|[k s] steps IH]; [done|]. simpl. f_equal.
  - apply (Hkeys k s). left.
  - apply IH. intros k' s' H. apply Hkeys. by right.
Qed.

Lemma order_whole_plan v input steps :
  read_plan v = inr (input, steps) →
  ∃ r, validateTaskPlan v = Some r ∧
    match r with
    | inr order => order ≡ₚ step_id <$> plan_steps input ∧ topological steps order ∧ acyclic steps
    | inl e => e = cycle_error ∧ ¬ acyclic steps
    end.
Proof.
  intros Hread. pose proof (read_plan_wf _ _ _ Hread) as (Hwf & Hclosed & Hsteps & _).
  unfold validateTaskPlan. rewrite Hread.
  destruct (order_steps_total steps (length steps) steps.*1 []) as [r Hr].
  { rewrite length_fmap. lia. }
  exists r. split; [done|]. destruct r as [e|order].
  - apply order_steps_error in Hr as (He & stuck & Hne & Hsub & Hstuck). split; [done|].
    intros Hac. by apply (acyclic_ready steps stuck Hac).
  - apply order_steps_sound in Hr as [Hperm Htop];
      [|apply Hwf|by intros [] ? ?|intros b _; apply Hclosed].
    simpl in Hperm. rewrite Hsteps, <- keys_are_ids by done. split; [done|]. split; [done|].
    apply (topological_acyclic steps order); [rewrite Hperm; apply Hwf|done|].
    intros b a Hba. rewrite Hperm. by eapply depends_key.
Qed.

(** C30: for every plan that passes the field checks the validation ends, and it
    returns an order exactly when the dependencies are acyclic: the order has
    every step once, after all the steps it depends on; a cyclic plan is
    rejected with the cycle error. *)
Theorem plan_order_correct v input steps :
  read_plan v = inr (input, steps) →
  (acyclic steps ↔ ∃ order, validateTaskPlan v = Some (inr order)) ∧
  (∀ order, validateTaskPlan v = Some (inr order) →
     order ≡ₚ step_id <$> plan_steps input ∧ topological steps order) ∧
  (¬ acyclic steps → validateTaskPlan v = Some (inl cycle_error)).
Proof.
  intros Hread. destruct (order_whole_plan _ _ _ Hread) as ([e|order] & -> & H).
  - destruct H as [-> Hno]. split; [|done]. split; [done|]. by intros [? ?].
  - destruct H as (Hp & Ht & Hac). split; [split; [by exists order|done]|].
    split; [intros o [= <-]; done|done].
Qed.

(** ** The order is deterministic *)

Section reordering.
Context (steps steps' : jsmap string TaskPlanStep).
Hypothesis same_steps : ∀ id, map_get steps id = map_get steps' id.

Lemma is_ready_perm pending pending' id :
  pending ≡ₚ pending' → is_ready steps pending id = is_ready steps' pending' id.
Proof using same_steps.
  intros Hp. unfold is_ready, deps_of. rewrite same_steps.
  induction (match map_get steps' id with Some s => depends_on s | None => [] end) as [|d l IH];
    [done|]. simpl. f_equal; [|done]. f_equal. apply bool_decide_ext. by rewrite Hp.
Qed.

Lemma ready_perm pending pending' : pending ≡ₚ pending' → ready steps pending = ready steps' pending'.
Proof using same_steps.
  intros Hp. unfold ready. apply (StronglySorted_unique String.le).
  - by apply StronglySorted_merge_sort; apply _.
  - by apply StronglySorted_merge_sort; apply _.
  - rewrite !merge_sort_Permutation, (bfilter_ext _ (is_ready steps' pending')), Hp; [done|].
    intros x _. by apply is_ready_perm.
Qed.

Lemma order_steps_perm fuel pending pending' order :
  pending ≡ₚ pending' →
  order_steps fuel steps pending order = order_steps fuel steps' pending' order.
Proof using same_steps.
  revert pending pending' order. induction fuel as [|fuel IH]; intros pending pending' order Hp.
  - destruct pending as [|p pending]; [by apply Permutation_nil in Hp as ->|].
    destruct pending'; [by apply Permutation_length in Hp|done].
  - destruct pending as [|p pending]; [by apply Permutation_nil in Hp as ->|].
    destruct pending' as [|p' pending']; [by apply Permutation_length in Hp|].
    cbn -[ready without]. rewrite <- (ready_perm _ _ Hp).
    destruct (ready steps (p :: pending)); [done|]. apply IH. unfold without. by rewrite Hp.
Qed.
End reordering.

Lemma steps_wf_get steps steps' :
  steps_wf steps → steps_wf steps' → steps.*2 ≡ₚ steps'.*2 →
  ∀ id, map_get steps id = map_get steps' id.
Proof.
  assert (Hone : ∀ a b id s, steps_wf a → steps_wf b → a.*2 ≡ₚ b.*2 → map_get a id = Some s →
    map_get b id = Some s).
  { intros a b id s [Ha Hka] [Hb Hkb] Hp Hg. apply map_get_Some_elem in Hg.
    pose proof (Hka _ _ Hg) as ->. apply (list_elem_of_fmap_2 snd) in Hg. simpl in Hg.
    rewrite Hp in Hg. apply list_elem_of_fmap in Hg as ([k s'] & Hs & Hin). simpl in Hs. subst s'.
    pose proof (Hkb _ _ Hin) as ->. by apply map_get_elem. }
  intros Hw Hw' Hp id. destruct (map_get steps id) as [s|] eqn:E.
  - symmetry. by apply (Hone steps).
  - destruct (map_get steps' id) as [s|] eqn:E'; [|done].
    apply (Hone steps' steps) in E'; [congruence|done|done|by symmetry].
Qed.

(** the order depends only on the set of steps: two accepted inputs that
    list the same steps in different orders get the same answer. *)
Theorem plan_order_deterministic v v' input input' steps steps' :
  read_plan v = inr (input, steps) → read_plan v' = inr (input', steps') →
  plan_steps input ≡ₚ plan_steps input' → validateTaskPlan v = validateTaskPlan v'.
Proof.
  intros Hr Hr' Hp. unfold validateTaskPlan. rewrite Hr, Hr'.
  apply read_plan_wf in Hr as (Hw & _ & Hs & _). apply read_plan_wf in Hr' as (Hw' & _ & Hs' & _).
  rewrite Hs, Hs' in Hp. pose proof (Permutation_length Hp) as Hl. rewrite !length_fmap in Hl.
  rewrite Hl. apply order_steps_perm; [by apply steps_wf_get|].
  rewrite !keys_are_ids by done. by rewrite Hp.
Qed.

(** ** Started steps keep their definition *)

(** Equal up to the order of the dependencies and of the required checks. *)
Record same_definition (s t : TaskPlanStep) : Prop := {
  same_id : step_id s = step_id t;
  same_text : title s = title t ∧ instruction s = instruction t ∧ acceptance s = acceptance t;
  same_required : required s = required t;
  same_deps : depends_on s ≡ₚ depends_on t;
  same_reviewer : reviewer_user_id (review_policy s) = reviewer_user_id (review_policy t);
  same_offer : primary_offer_id (review_policy s) = primary_offer_id (review_policy t);
  same_checks : required_checks (review_policy s) ≡ₚ required_checks (review_policy t)
}.

Definition reviewer_safe (s : TaskPlanStep) : Prop :=
  is_safe_integer (reviewer_user_id (review_policy s)) = true.

Lemma positiveRevision_safe v z : positiveRevision v = inr z → is_safe_integer z = true.
Proof.
  unfold positiveRevision, safe_number. destruct v; try done.
  destruct (is_safe_integer _) eqn:E; [|done]. intros H. team_ok. by simplify_eq.
Qed.

Lemma read_step_safe raw seen s : read_step raw seen = inr s → reviewer_safe s.
Proof.
  unfold read_step. intros H. team_ok. destruct (fresh_id _ _); [|done]. team_ok.
  simplify_eq. unfold reviewer_safe. simpl.
  match goal with Hp : validateReviewPolicy _ = inr ?p |- _ => unfold validateReviewPolicy in Hp;
    destruct (js_get raw "review_policy"); try done; team_ok; simplify_eq end.
  simpl. by eapply positiveRevision_safe.
Qed.

Lemma read_steps_safe raws steps0 steps :
  Forall reviewer_safe steps0.*2 → read_steps raws steps0 = inr steps →
  Forall reviewer_safe steps.*2.
Proof.
  revert steps0. induction raws as [|raw raws IH]; intros steps0 Hs H; simpl in H; [by simplify_eq|].
  team_ok. match goal with Hr : read_step _ _ = inr ?s |- _ => rename s into st; rename Hr into Hst end.
  apply IH in H; [done|]. apply Forall_forall. intros s Hin.
  apply list_elem_of_fmap in Hin as ([k s'] & -> & Hin). simpl.
  apply map_set_elem in Hin as [Hin|Hin]; simplify_eq; [by eapply read_step_safe|].
  rewrite Forall_forall in Hs. apply Hs, list_elem_of_fmap. by exists (k, s').
Qed.

Lemma read_plan_safe v input steps :
  read_plan v = inr (input, steps) → Forall reviewer_safe (plan_steps input).
Proof.
  unfold read_plan. intros H. team_ok. destruct (js_get v "steps"); try done. team_ok.
  simplify_eq/=. eapply read_steps_safe; [|done]. constructor.
Qed.

Lemma strings_strict d l : (d < StrictJson.maxDepth)%nat → StrictJsonSpec.strict_value d (JArr (map JStr l)).
Proof. intros Hd. constructor; [done|]. apply Forall_map, Forall_forall. intros x _. constructor. Qed.

Lemma step_value_strict s : reviewer_safe s → StrictJsonSpec.strict_value 0 (step_value s).
Proof.
  intros Hs. assert (Hz : StrictJson.safe_integer (reviewer_user_id (review_policy s)) = true).
  { unfold reviewer_safe, is_safe_integer, max_safe in Hs. unfold StrictJson.safe_integer.
    bool_hyps. apply Z.ltb_lt. lia. }
  constructor; [unfold StrictJson.maxDepth; lia|by apply (bool_decide_unpack _)|].
  repeat first [apply Forall_cons_2 | apply Forall_nil_2]; simpl; try constructor;
    try (unfold StrictJson.maxDepth; lia).
  - apply Forall_map, Forall_forall. intros x _. constructor.
  - by apply (bool_decide_unpack _).
  - repeat first [apply Forall_cons_2 | apply Forall_nil_2]; simpl; try by constructor.
    apply strings_strict. unfold StrictJson.maxDepth. lia.
Qed.

Lemma strings_printed l : forallb printed (map JStr l) = true.
Proof. by induction l. Qed.

Lemma step_value_printed s : printed (step_value s) = true.
Proof. simpl. by rewrite !strings_printed. Qed.

Section started.
Context (localeCompare : string → string → Z) (sha256 : string → string).

(** Compare two objects with literal fields at a key. *)
Local Ltac field E k :=
  let F := fresh "F" in
  epose proof (canonical_field_eq localeCompare _ _ k _ _ E) as F;
  match type of F with
  | ?A → ?B → ?C → ?D → _ =>
      let HA := fresh in let HB := fresh in let HC := fresh in let HD := fresh in
      assert (HA : A) by (by apply (bool_decide_unpack _));
      assert (HB : B) by (by apply (bool_decide_unpack _));
      assert (HC : C) by (repeat first [apply list_elem_of_here | apply list_elem_of_further]);
      assert (HD : D) by (repeat first [apply list_elem_of_here | apply list_elem_of_further]);
      specialize (F HA HB HC HD); clear HA HB HC HD
  end; rewrite ?canonical_strings in F.

Lemma canonical_policy_inj p q :
  canonical localeCompare (policy_value p) = canonical localeCompare (policy_value q) → p = q.
Proof.
  intros E. unfold policy_value in E. field E "reviewer_user_id"%string.
  field E "primary_offer_id"%string. field E "required_checks"%string.
  clear E. destruct p, q. simpl in *. by simplify_eq.
Qed.

(** Two steps with the same canonical value are the same step. *)
Lemma canonical_step_inj s t :
  canonical localeCompare (step_value s) = canonical localeCompare (step_value t) → s = t.
Proof.
  intros E. unfold step_value in E.
  field E "step_id"%string. field E "title"%string. field E "instruction"%string.
  field E "acceptance"%string. field E "required"%string. field E "depends_on"%string.
  field E "review_policy"%string.
  match goal with H : _ = canonical _ (policy_value _) |- _ => apply canonical_policy_inj in H end.
  clear E. destruct s, t. simpl in *. by simplify_eq.
Qed.

Lemma sort_perm (l k : list string) : merge_sort String.le l = merge_sort String.le k → l ≡ₚ k.
Proof. intros E. by rewrite <- (merge_sort_Permutation String.le l), E, merge_sort_Permutation. Qed.

Lemma sorted_step_same s t : sorted_step s = sorted_step t → same_definition s t.
Proof.
  intros E. unfold sorted_step in E. injection E. intros.
  constructor; try done; by apply sort_perm.
Qed.

Definition step_text (s : TaskPlanStep) : string :=
  stableJSON localeCompare (step_value (sorted_step s)).

Lemma step_text_inj s t :
  reviewer_safe s → reviewer_safe t → step_text s = step_text t → same_definition s t.
Proof.
  intros Hs Ht E.
  apply stableJSON_inj in E; try apply step_value_strict; try apply step_value_printed; [|done|done].
  by apply canonical_step_inj, sorted_step_same in E.
Qed.

(** The digest has no collision between two of the given texts. *)
Definition collision_free (texts : list string) : Prop :=
  ∀ a b, a ∈ texts → b ∈ texts → sha256 a = sha256 b → a = b.

(** When a plan edit is let through, every started step is still in the
    plan with the same definition: identifier, texts, required flag, reviewer
    and offer are equal, dependencies and required checks are the same sets. *)
Lemma started_steps_unchanged steps started :
  collision_free (map step_text (steps ++ started.*2)) →
  Forall reviewer_safe steps → Forall reviewer_safe started.*2 →
  requireUnchangedStartedSteps localeCompare sha256 steps started = inr () →
  ∀ id def, (id, def) ∈ started →
    ∃ s, s ∈ steps ∧ step_id s = id ∧ same_definition s def.
Proof.
  intros Hcf Hsafe Hst H id def Hin. unfold requireUnchangedStartedSteps in H. team_ok.
  match goal with Hf : forallb _ _ = true |- _ => rewrite forallb_forall in Hf;
    specialize (Hf (id, def) (proj1 (list_elem_of_In _ _) Hin)) end.
  bool_hyps. simpl in *.
  match goal with Hg : map_get _ _ = Some _ |- _ =>
    apply map_get_Some_elem, map_of_elem in Hg as (s & Hs & -> & Hd) end.
  assert (Hdef : def ∈ started.*2) by (apply list_elem_of_fmap; by exists (step_id s, def)).
  exists s. split; [done|]. split; [done|]. rewrite Forall_forall in *.
  apply step_text_inj; [by apply Hsafe|by apply Hst|]. apply Hcf; [..|by symmetry];
    apply list_elem_of_fmap_2, elem_of_app; auto.
Qed.
End started.

(** ** Examples *)

Definition demo_step (id : string) (deps : list string) : TaskPlanStep := {|
  step_id := id; title := id; instruction := "Implement"; acceptance := "Review";
  required := true; depends_on := deps;
  review_policy := {| reviewer_user_id := 2; primary_offer_id := "offer";
                      required_checks := ["unit"%string] |} |}.

Definition demo_steps : list TaskPlanStep :=
  [demo_step "join" ["left"; "right"]; demo_step "right" ["root"]; demo_step "root" [];
   demo_step "left" ["root"]]%string.

Definition plan_value (steps : list TaskPlanStep) : jsval :=
  JObj [("request_id", JStr "save"); ("expected_revision", JNum 0);
        ("team_session_id", JStr "session"); ("context_version", JNum 0);
        ("spec_revision", JNum 1); ("steps", JArr (map step_value steps))]%string.

Definition demo_input (steps : list TaskPlanStep) : TaskPlanInput := {|
  plan_request_id := "save"; expected_revision := 0; team_session_id := "session";
  context_version := 0; spec_revision := 1; plan_steps := steps |}.

Definition keyed (steps : list TaskPlanStep) : jsmap string TaskPlanStep :=
  (λ s, (step_id s, s)) <$> steps.

Lemma plan_order_correct_witness :
  validateTaskPlan (plan_value demo_steps) = Some (inr ["root"; "left"; "right"; "join"]%string) ∧
  topological (keyed demo_steps) ["root"; "left"; "right"; "join"]%string ∧
  acyclic (keyed demo_steps).
Proof.
  assert (Hread : read_plan (plan_value demo_steps) = inr (demo_input demo_steps, keyed demo_steps))
    by (vm_compute; reflexivity).
  destruct (plan_order_correct _ _ _ Hread) as ([_ Hac] & Horder & _).
  assert (Hv : validateTaskPlan (plan_value demo_steps)
               = Some (inr ["root"; "left"; "right"; "join"]%string)) by (vm_compute; reflexivity).
  split; [exact Hv|]. split; [exact (proj2 (Horder _ Hv))|]. apply Hac. eexists. exact Hv.
Defined.

Lemma plan_order_deterministic_witness :
  demo_steps ≡ₚ rev demo_steps ∧
  validateTaskPlan (plan_value demo_steps) = validateTaskPlan (plan_value (rev demo_steps)).
Proof.
  assert (Hp : demo_steps ≡ₚ rev demo_steps) by apply Permutation_rev.
  split; [exact Hp|].
  apply (plan_order_deterministic _ _ (demo_input demo_steps) (demo_input (rev demo_steps))
    (keyed demo_steps) (keyed (rev demo_steps))); [vm_compute; reflexivity|vm_compute; reflexivity|exact Hp].
Defined.

Definition code_compare (a b : string) : Z :=
  match String.compare a b with Lt => -1 | Eq => 0 | Gt => 1 end.

Lemma started_steps_unchanged_witness :
  ∃ s, s ∈ demo_steps ∧ step_id s = "join"%string ∧
    same_definition s (demo_step "join" ["right"; "left"]%string).
Proof.
  apply (started_steps_unchanged code_compare (λ x, x) demo_steps
    [("join", demo_step "join" ["right"; "left"])]%string).
  - intros a b _ _ E. exact E.
  - repeat constructor.
  - repeat constructor.
  - vm_compute. reflexivity.
  - apply list_elem_of_here.
Defined.
