(* ===== verification/PlanService.v ===== *)
(** * PlanService: the draft plans of team tasks (relay/src/team/plan-service.ts).

    [PlanTables] holds the tables the service writes (relay/src/team/
    plan-schema.ts) and the step attempts it reads; [TeamView] the tables of
    accounts, teams, sessions and agents it only reads, in the state the
    transaction sees.  The join that finds callable agents is a set of
    (session, team, offer) triples, one row each.  A call runs as one transaction under the
    task's row lock; when its COMMIT reports an error the changes may or may not
    have been kept. *)

From S2P Require Import Prelude JsValue JsMap JsonRoundTrip DeliveryContract TaskPlan.

#[local] Open Scope Z_scope.
#[local] Open Scope team_scope.

(** ** Tables *)

Record TaskRow : Type := { task_team : string; creator_user_id : Z; task_state : string }.

Record SessionRow : Type := {
  session_team : string; session_active : bool; session_task : option string;
  current_context_version : Z
}.

Record TeamView : Type := {
  users : gmap Z bool;                        (* team_enabled *)
  tasks : gmap string TaskRow;
  active_teams : gset string;
  roles : gmap (string * Z) string;           (* of active memberships *)
  sessions : gmap string SessionRow;
  participants : gset (string * Z);           (* active ones: session, user *)
  linked_sessions : gset (string * string);   (* calls and template sources: task, session *)
  delivery_specs : gmap string Z;             (* team_task_delivery_heads *)
  context_hashes : gmap (string * Z) string;  (* session, version *)
  callable : gset (string * string * string)  (* session, team, offer *)
}.

Record PlanRevision : Type := {
  pr_session : string; pr_context_version : Z; pr_context_hash : option string;
  pr_spec_revision : Z; plan_hash : string; created_by_user_id : Z
}.

Record StepRow : Type := {
  sr_task : string; sr_revision : Z; sr_step : string; position : Z;
  definition : TaskPlanStep; step_hash : string
}.

Record PlanResponse : Type := {
  resp_task : string; resp_revision : Z; resp_plan_hash : string
}.

Record PlanReceipt : Type := { request_hash : string; response : PlanResponse }.

Record StepAttempt : Type := { at_task : string; at_revision : Z; at_step : string }.

Record PlanTables : Type := {
  revisions : gmap (string * Z) PlanRevision;
  step_rows : list StepRow;
  heads : gmap string Z;
  plan_receipts : gmap (string * Z * string) PlanReceipt;
  attempts : list StepAttempt
}.

(** ** Access *)

Section plan_service.
Context (localeCompare : string → string → Z) (sha256 : string → string).
Context (writesEnabledForTeam : string → bool).

Definition teamAccountsEnabled (w : TeamView) (userIds : list Z) : bool :=
  let ids := remove_dups userIds in
  negb (bool_decide (ids = []))
  && forallb (λ id, is_safe_integer id && (0 <? id)) ids
  && forallb (λ id, bool_decide (users w !! id = Some true)) ids.

Definition requireTeamAccess (w : TeamView) (userId : Z) : team unit :=
  need! teamAccountsEnabled w [userId]
  else team_error "team_access_denied" "Team is not enabled for this account" in inr ().

Definition may_write (role : string) (task : TaskRow) (actor : Z) : bool :=
  negb (bool_decide (role = "viewer"%string))
  && (bool_decide (role = "admin"%string) || (creator_user_id task =? actor)).

Definition not_found : TeamError := team_error "team_not_found" "task not found".

(** [access(client, taskId, actor, write)]: the task and the actor's role. *)
Definition plan_access (w : TeamView) (taskId : string) (actor : Z) (write : bool)
    : team (TaskRow * string) :=
  get! id := boundedText (JStr taskId) "task_id" 128 false in
  do! requireTeamAccess w actor in
  match tasks w !! taskId with
  | None => inl not_found
  | Some task =>
      match roles w !! (task_team task, actor) with
      | Some role =>
          need! bool_decide (task_team task ∈ active_teams w) else not_found in
          need! negb write || may_write role task actor
          else team_error "creator_required" "task creator or Team admin required" in
          need! negb write || writesEnabledForTeam (task_team task)
          else team_error "team_feature_disabled" "task plan draft writes disabled for this Team" in
          inr (task, role)
      | None => inl not_found
      end
  end.

(** ** Reading a plan *)

Definition position_le (x y : StepRow) : Prop := position x ≤ position y.

#[global] Instance position_le_dec : RelDecision position_le.
Proof. intros x y. unfold position_le. apply _. Defined.

Definition in_plan (taskId : string) (revision : Z) (r : StepRow) : bool :=
  bool_decide (sr_task r = taskId) && (sr_revision r =? revision).

Definition plan_rows (d : PlanTables) (taskId : string) (revision : Z) : list StepRow :=
  merge_sort position_le (bfilter (in_plan taskId revision) (step_rows d)).

Definition snapshot (d : PlanTables) (taskId : string) (revision : Z)
    : option (PlanRevision * list TaskPlanStep) :=
  match revisions d !! (taskId, revision) with
  | Some plan => Some (plan, map definition (plan_rows d taskId revision))
  | None => None
  end.

Definition live_task (w : TeamView) (taskId : string) : team TaskRow :=
  match tasks w !! taskId with
  | Some t => need! negb (bool_decide (task_state t = "deleted"%string)) else not_found in inr t
  | None => inl not_found
  end.

Record PlanReply : Type := {
  reply_revision : Z; reply_plan : option (PlanRevision * list TaskPlanStep);
  writes_enabled : bool
}.

Definition getPlan (w : TeamView) (d : PlanTables) (taskId : string) (actor : Z)
    (revision : option Z) : team PlanReply :=
  need! match revision with
        | Some r => is_safe_integer r && (1 <=? r)
        | None => true
        end
  else team_error "invalid_request" "invalid plan revision" in
  get! access := plan_access w taskId actor false in
  get! currentTask := live_task w taskId in
  let current := default 0 (heads d !! taskId) in
  let plan := if current =? 0 then None else snapshot d taskId (default current revision) in
  need! match revision, plan with Some _, None => false | _, _ => true end
  else team_error "team_not_found" "plan revision not found" in
  inr {| reply_revision := current; reply_plan := plan;
         writes_enabled := writesEnabledForTeam (task_team access.1)
                           && may_write access.2 access.1 actor |}.

Definition lookupReceipt (w : TeamView) (d : PlanTables) (taskId : string) (actor : Z)
    (requestId : string) : team (option PlanResponse) :=
  get! request := boundedText (JStr requestId) "request_id" 128 false in
  get! access := plan_access w taskId actor false in
  get! task := live_task w taskId in
  inr (response <$> plan_receipts d !! (taskId, actor, requestId)).

(** ** Saving a draft *)

(** The started steps: the attempts of the task joined with the rows of the
    revision each attempt was made in. *)
Definition started_steps (d : PlanTables) (taskId : string) : list (string * TaskPlanStep) :=
  flat_map (λ a, map (λ r, (sr_step r, definition r))
    (bfilter (λ r, in_plan taskId (at_revision a) r && bool_decide (sr_step r = at_step a))
      (step_rows d)))
    (bfilter (λ a, bool_decide (at_task a = taskId)) (attempts d)).

Definition step_of (input : TaskPlanInput) (id : string) : option TaskPlanStep :=
  find_first (λ s, bool_decide (step_id s = id)) (plan_steps input).

Definition opt_text (o : option string) : jsval :=
  match o with Some s => JStr s | None => JNull end.

Definition planHash (input : TaskPlanInput) (context : option string) (steps : list TaskPlanStep)
    : string :=
  stableDigest localeCompare sha256
    (JObj [("team_session_id", JStr (team_session_id input));
           ("context_version", JNum (context_version input)); ("context_hash", opt_text context);
           ("spec_revision", JNum (spec_revision input));
           ("steps", JArr (map (λ s, JObj [("step_id", JStr (step_id s));
                                           ("hash", JStr (stepDigest localeCompare sha256 s))])
                             steps))]%string).

Definition new_rows (taskId : string) (revision : Z) (steps : list TaskPlanStep) : list StepRow :=
  imap (λ i s, {| sr_task := taskId; sr_revision := revision; sr_step := step_id s;
                  position := Z.of_nat i; definition := s;
                  step_hash := stepDigest localeCompare sha256 s |}) steps.

(** The INSERTs; a row that exists already is a unique violation (23505).  Step
    rows reference their revision, so a new revision has none yet. *)
Definition insert_plan (taskId : string) (actor : Z) (request : string) (hash : string)
    (revision : Z) (plan : PlanRevision) (steps : list TaskPlanStep) (d : PlanTables)
    : team (PlanResponse * PlanTables) :=
  let resp := {| resp_task := taskId; resp_revision := revision;
                 resp_plan_hash := plan_hash plan |} in
  need! bool_decide (revisions d !! (taskId, revision) = None) else DatabaseError "23505" in
  need! bool_decide (plan_receipts d !! (taskId, actor, request) = None)
  else DatabaseError "23505" in
  inr (resp, {|
    revisions := <[(taskId, revision) := plan]> (revisions d);
    step_rows := step_rows d ++ new_rows taskId revision steps;
    heads := <[taskId := revision]> (heads d);
    plan_receipts := <[(taskId, actor, request) := {| request_hash := hash; response := resp |}]>
                       (plan_receipts d);
    attempts := attempts d |}).

(** The checks and writes after the request was found to be new. *)
Definition save_new (w : TeamView) (d : PlanTables) (taskId : string) (actor : Z)
    (hash : string) (input : TaskPlanInput) (order : list string) (teamId : string)
    (session : SessionRow) (currentTask : TaskRow) : team (PlanResponse * PlanTables) :=
  need! bool_decide (task_state currentTask ∈ ["open"; "in_progress"]%string)
  else team_error "invalid_state" "restore or reopen task before editing plan" in
  need! bool_decide (session_task session = Some taskId)
        || bool_decide ((taskId, team_session_id input) ∈ linked_sessions w)
  else team_error "invalid_request" "session does not belong to this task" in
  let revision := default 0 (heads d !! taskId) in
  need! revision =? expected_revision input
  else TeamRepositoryError "revision_conflict" "plan revision changed" (Some revision) in
  need! revision <? max_plan_revisions
  else team_error "invalid_state" "plan revision limit reached" in
  need! bool_decide (delivery_specs w !! taskId = Some (spec_revision input))
  else team_error "revision_conflict" "task specification changed" in
  need! current_context_version session =? context_version input
  else team_error "context_revision_conflict" "shared Context version changed" in
  let context := if context_version input =? 0 then None
                 else context_hashes w !! (team_session_id input, context_version input) in
  need! negb (0 <? context_version input) || bool_decide (context ≠ None)
  else team_error "context_revision_conflict" "shared Context version unavailable" in
  do! requireUnchangedStartedSteps localeCompare sha256 (plan_steps input)
        (started_steps d taskId) in
  let reviewers := remove_dups (map (λ s, reviewer_user_id (review_policy s)) (plan_steps input)) in
  need! teamAccountsEnabled w reviewers
  else team_error "reviewer_required" "reviewer account unavailable" in
  need! forallb (λ u, match roles w !! (teamId, u) with
                      | Some role => negb (bool_decide (role = "viewer"%string))
                      | None => false
                      end) reviewers
  else team_error "reviewer_required" "reviewers must be writable members of this Team" in
  need! forallb (λ s, bool_decide
          ((team_session_id input, teamId, primary_offer_id (review_policy s)) ∈ callable w))
          (plan_steps input)
  else team_error "agent_unavailable"
         "each step needs an active bound Agent with delivery capability" in
  let steps := omap (step_of input) order in
  let plan := {| pr_session := team_session_id input; pr_context_version := context_version input;
                 pr_context_hash := context; pr_spec_revision := spec_revision input;
                 plan_hash := planHash input context steps; created_by_user_id := actor |} in
  insert_plan taskId actor (plan_request_id input) hash (revision + 1) plan steps d.

Definition save_validated (w : TeamView) (d : PlanTables) (taskId : string) (actor : Z)
    (v : jsval) (input : TaskPlanInput) (order : list string) : team (PlanResponse * PlanTables) :=
  let hash := stableDigest localeCompare sha256 v in
  get! access := plan_access w taskId actor true in
  let teamId := task_team access.1 in
  match sessions w !! team_session_id input with
  | None => inl (team_error "team_not_found" "active shared session not found")
  | Some session =>
      need! bool_decide (session_team session = teamId) && session_active session
      else team_error "team_not_found" "active shared session not found" in
      need! bool_decide ((team_session_id input, actor) ∈ participants w)
      else team_error "participant_required" "active session participant required" in
      get! currentTask := live_task w taskId in
      match plan_receipts d !! (taskId, actor, plan_request_id input) with
      | Some prior =>
          need! bool_decide (request_hash prior = hash)
          else team_error "idempotency_conflict" "request ID reused with different content" in
          inr (response prior, d)
      | None => save_new w d taskId actor hash input order teamId session currentTask
      end
  end.

(** [None] would be a validation that does not end. *)
Definition saveDraftInTransaction (w : TeamView) (d : PlanTables) (taskId : string) (actor : Z)
    (v : jsval) : option (team (PlanResponse * PlanTables)) :=
  match validateTaskPlan v with
  | None => None
  | Some (inl e) => Some (inl e)
  | Some (inr order) =>
      match read_plan v with
      | inl e => Some (inl e)
      | inr (input, _) => Some (save_validated w d taskId actor v input order)
      end
  end.

(** ** Transactions *)

Inductive Commit : Type := Committed | CommitLost | CommitFailed.

(** [CommitLost]: the changes are kept, but the caller sees an error. *)
Definition run_transaction {A} (commit : Commit) (d : PlanTables) (r : team (A * PlanTables))
    : team A * PlanTables :=
  match r with
  | inl e => (inl e, d)
  | inr (a, d') =>
      match commit with
      | Committed => (inr a, d')
      | CommitLost => (inl (DatabaseError "08006"), d')
      | CommitFailed => (inl (DatabaseError "08006"), d)
      end
  end.

Definition saveDraft (w : TeamView) (commit : Commit) (d : PlanTables) (taskId : string)
    (actor : Z) (v : jsval) : option (team PlanResponse * PlanTables) :=
  run_transaction commit d <$> saveDraftInTransaction w d taskId actor v.
End plan_service.
