(* ===== verification/PlanServiceSpec.v ===== *)
(** * PlanServiceSpec: drafts are numbered, ordered and saved once.

    The invariant [plan_wf] of the plan tables under every sequence of saves
    and step reservations, what a save stores and leaves alone, and that a
    repeated request is answered from its receipt. *)

From S2P Require Import Prelude JsValue JsMap JsonRoundTrip DeliveryContract TaskPlan TaskPlanSpec PlanService.

#[local] Open Scope Z_scope.

(** Every step comes after the steps it depends on. *)
Definition plan_ordered (steps : list TaskPlanStep) : Prop :=
  NoDup (step_id <$> steps) ∧
  ∀ l1 s l2, steps = l1 ++ s :: l2 → depends_on s ⊆ step_id <$> l1.

(** ** The steps of an order *)

Section ordering.
Context (v : jsval) (input : TaskPlanInput) (steps : jsmap string TaskPlanStep).
Hypothesis Hread : read_plan v = inr (input, steps).

Lemma step_of_get id : step_of input id = map_get steps id.
Proof using Hread.
  apply read_plan_wf in Hread as ([_ Hkeys] & _ & Hs & _). unfold step_of. rewrite Hs. clear Hs.
  induction steps as [|[k s] m IH]; [done|]. simpl.
  assert (k = step_id s) as -> by (apply Hkeys; left).
  unfold bool_decide. repeat case_decide; subst; try done.
  apply IH. intros k' s' Hin. apply Hkeys. by right.
Qed.

Lemma step_of_id id s : step_of input id = Some s → step_id s = id ∧ s ∈ plan_steps input.
Proof.
  unfold step_of. intros H. apply find_first_Some in H as [Hin H]. by bool_hyps.
Qed.

Lemma ordered_ids order :
  order ⊆ step_id <$> plan_steps input → step_id <$> omap (step_of input) order = order.
Proof using Hread.
  induction order as [|id order IH]; intros Hsub; [done|]. simpl.
  destruct (step_of input id) as [s|] eqn:E.
  - simpl. f_equal; [by apply step_of_id in E as [? _]|]. apply IH. set_solver.
  - exfalso. rewrite step_of_get in E. apply map_get_None in E. apply E.
    apply read_plan_wf in Hread as (Hwf & _ & Hs & _). rewrite keys_are_ids, <- Hs by done.
    apply Hsub. left.
Qed.

Lemma ordered_steps order :
  validateTaskPlan v = Some (inr order) →
  plan_ordered (omap (step_of input) order) ∧ omap (step_of input) order ≡ₚ plan_steps input.
Proof using Hread.
  intros Hv. destruct (order_whole_plan _ _ _ Hread) as (r & Hr & H). rewrite Hv in Hr.
  simplify_eq. destruct H as (Hp & Ht & _).
  pose proof (read_plan_wf _ _ _ Hread) as ([Hok Hkeys] & _ & Hs & _).
  assert (Hids : step_id <$> omap (step_of input) order = order)
    by (apply ordered_ids; intros x; by rewrite Hp).
  assert (Hnd : NoDup (step_id <$> plan_steps input)).
  { rewrite Hs, <- keys_are_ids by done. done. }
  split; [split|].
  - by rewrite Hids, Hp.
  - intros l1 s l2 E. rewrite E, fmap_app in Hids.
    assert (Hget : map_get steps (step_id s) = Some s).
    { rewrite <- step_of_get. assert (Hin : s ∈ omap (step_of input) order) by (rewrite E; set_solver).
      apply list_elem_of_omap in Hin as (id & _ & Hid). by pose proof (step_of_id _ _ Hid) as [<- _]. }
    specialize (Ht (step_id <$> l1) (step_id s) (step_id <$> l2)). unfold deps_of in Ht.
    rewrite Hget in Ht. apply Ht. by rewrite <- Hids.
  - apply NoDup_Permutation; [by apply (NoDup_fmap_1 step_id); rewrite Hids, Hp|
      by apply (NoDup_fmap_1 step_id)|].
    intros s. split.
    + intros Hin. apply list_elem_of_omap in Hin as (id & _ & Hid). by apply step_of_id in Hid as [_ ?].
    + intros Hin. apply list_elem_of_omap. exists (step_id s).
      split; [rewrite Hp; by apply list_elem_of_fmap_2|].
      rewrite step_of_get. rewrite Hs in Hin. apply list_elem_of_fmap in Hin as ([k s'] & -> & Hin).
      simpl. pose proof (Hkeys _ _ Hin) as ->. by apply map_get_elem.
Qed.
End ordering.

(** ** The rows of a plan *)

Section store.
Context (localeCompare : string → string → Z) (sha256 : string → string).
Context (writesEnabledForTeam : string → bool).

Abbreviation rows_of := (new_rows localeCompare sha256).
Abbreviation save_tx := (saveDraftInTransaction localeCompare sha256 writesEnabledForTeam).
Abbreviation save := (saveDraft localeCompare sha256 writesEnabledForTeam).

Lemma elem_of_new_rows r t k steps :
  r ∈ rows_of t k steps →
  sr_task r = t ∧ sr_revision r = k ∧ sr_step r = step_id (definition r) ∧
  definition r ∈ steps ∧ step_hash r = stepDigest localeCompare sha256 (definition r).
Proof.
  intros H. apply elem_of_lookup_imap in H as (i & s & -> & Hs). simpl.
  by repeat split; try eapply list_elem_of_lookup_2.
Qed.

Lemma new_rows_in_plan t k steps r :
  r ∈ rows_of t k steps → in_plan t k r = true.
Proof.
  intros (<- & <- & _)%elem_of_new_rows. unfold in_plan. rewrite bool_decide_true by done.
  by rewrite Z.eqb_refl.
Qed.

Lemma new_rows_other t k t' k' steps :
  (t', k') ≠ (t, k) → bfilter (in_plan t' k') (rows_of t k steps) = [].
Proof.
  intros Hne. apply bfilter_false. intros r (<- & <- & _)%elem_of_new_rows. unfold in_plan.
  case_bool_decide; [|done]. simpl. destruct (Z.eqb_spec (sr_revision r) k'); [|done]. congruence.
Qed.

Lemma new_rows_defs t k steps : map definition (rows_of t k steps) = steps.
Proof.
  unfold PlanService.new_rows. change (map definition) with (fmap (M:=list) definition).
  rewrite fmap_imap. simpl. apply list_eq. intros i. rewrite list_lookup_imap. simpl.
  by destruct (steps !! i).
Qed.

#[local] Instance position_le_trans : Transitive position_le.
Proof. intros x y z. unfold position_le. lia. Qed.

#[local] Instance position_le_total : Total position_le.
Proof. intros x y. unfold position_le. lia. Qed.

(** Rows numbered in order are what reading by position gives back. *)
Lemma new_rows_sorted t k steps : merge_sort position_le (rows_of t k steps) = rows_of t k steps.
Proof.
  apply (Sorted_unique_strong position_le).
  - intros r1 r2 H1 H2 L1 L2. rewrite merge_sort_Permutation in H1.
    apply elem_of_lookup_imap in H1 as (i & s & -> & Hs).
    apply elem_of_lookup_imap in H2 as (j & s' & -> & Hs'). unfold position_le in *. simpl in *.
    assert (i = j) as -> by lia. by simplify_eq.
  - apply Sorted_merge_sort, _.
  - apply StronglySorted_Sorted. unfold PlanService.new_rows.
    assert (Hgen : ∀ n, StronglySorted position_le (imap (λ i s, {| sr_task := t; sr_revision := k;
      sr_step := step_id s; position := Z.of_nat (n + i); definition := s;
      step_hash := stepDigest localeCompare sha256 s |}) steps)); [|apply (Hgen 0%nat)].
    induction steps as [|s steps IH]; intros n; [constructor|]. simpl. constructor.
    + specialize (IH (S n)). erewrite imap_ext; [exact IH|]. intros i x _. simpl. f_equal. lia.
    + apply Forall_forall. intros r Hr. apply elem_of_lookup_imap in Hr as (i & s' & -> & _).
      unfold position_le. simpl. lia.
  - apply merge_sort_Permutation.
Qed.

(** ** The invariant *)

Record plan_wf (d : PlanTables) : Prop := {
  wf_revisions : ∀ t k, is_Some (revisions d !! (t, k)) ↔ 1 ≤ k ≤ default 0 (heads d !! t);
  wf_limit : ∀ t k, heads d !! t = Some k → 1 ≤ k ≤ max_plan_revisions;
  wf_rows : ∀ r, r ∈ step_rows d → is_Some (revisions d !! (sr_task r, sr_revision r)) ∧
    sr_step r = step_id (definition r) ∧ reviewer_safe (definition r);
  wf_plans : ∀ t k, is_Some (revisions d !! (t, k)) → ∃ steps,
    plan_rows d t k = rows_of t k steps ∧ plan_ordered steps;
  wf_attempts : ∀ a, a ∈ attempts d → ∃ r, r ∈ step_rows d ∧ sr_task r = at_task a ∧
    sr_revision r = at_revision a ∧ sr_step r = at_step a
}.

(** What a save of a new request does. *)
Record saved (d : PlanTables) (t : string) (actor : Z) (v : jsval) (input : TaskPlanInput)
    (resp : PlanResponse) (d' : PlanTables) : Prop := {
  saved_expected : expected_revision input = default 0 (heads d !! t);
  saved_limit : default 0 (heads d !! t) < max_plan_revisions;
  saved_started : requireUnchangedStartedSteps localeCompare sha256 (plan_steps input)
    (started_steps d t) = inr ();
  saved_absent : revisions d !! (t, expected_revision input + 1) = None;
  saved_tables : ∃ plan steps,
    plan_ordered steps ∧ steps ≡ₚ plan_steps input ∧ Forall reviewer_safe steps ∧ pr_session plan = team_session_id input ∧
    resp = {| resp_task := t; resp_revision := expected_revision input + 1;
              resp_plan_hash := plan_hash plan |} ∧
    d' = {|
      revisions := <[(t, expected_revision input + 1) := plan]> (revisions d);
      step_rows := step_rows d ++ rows_of t (expected_revision input + 1) steps;
      heads := <[t := expected_revision input + 1]> (heads d);
      plan_receipts := <[(t, actor, plan_request_id input) :=
        {| request_hash := stableDigest localeCompare sha256 v; response := resp |}]> (plan_receipts d);
      attempts := attempts d |}
}.

(** A save that returns either answers from a receipt or stores the plan. *)
Lemma save_cases w d t actor v resp d' :
  save_tx w d t actor v = Some (inr (resp, d')) →
  ∃ input steps, read_plan v = inr (input, steps) ∧
    match plan_receipts d !! (t, actor, plan_request_id input) with
    | Some prior => request_hash prior = stableDigest localeCompare sha256 v ∧
        resp = response prior ∧ d' = d
    | None => saved d t actor v input resp d'
    end.
Proof.
  unfold PlanService.saveDraftInTransaction.
  destruct (validateTaskPlan v) as [[e|order]|] eqn:Hv; try done.
  destruct (read_plan v) as [e|[input steps]] eqn:Hread; [done|]. intros [= H].
  exists input, steps. split; [done|]. unfold save_validated in H. team_ok.
  destruct (sessions w !! _) as [session|]; [|done]. team_ok.
  destruct (plan_receipts d !! _) as [prior|].
  { team_ok. bool_hyps. by simplify_eq. }
  unfold save_new, insert_plan in *. team_ok. bool_hyps.
  pose proof (ordered_steps _ _ _ Hread _ Hv) as [Hord Hperm].
  simplify_eq. match goal with Hu : requireUnchangedStartedSteps _ _ _ _ = inr ?u |- _ => destruct u end.
  match goal with H : default 0 _ = expected_revision input |- _ => rename H into He end.
  constructor; [by symmetry|lia|done|by rewrite <- He|]. rewrite <- He.
  eexists _, _. split; [exact Hord|]. split; [exact Hperm|].
  split; [rewrite Hperm; by eapply read_plan_safe|]. split; [|split; reflexivity]. done.
Qed.

(** ** Preservation *)

Lemma no_rows_yet d t k :
  plan_wf d → revisions d !! (t, k) = None → bfilter (in_plan t k) (step_rows d) = [].
Proof.
  intros Hwf Hnone. apply bfilter_false. intros r Hr. apply (wf_rows _ Hwf) in Hr as [[p Hp] _].
  unfold in_plan. case_bool_decide; [|done]. simpl.
  destruct (Z.eqb_spec (sr_revision r) k); [|done]. simplify_eq.
Qed.

Definition add_rows (d : PlanTables) (rows : list StepRow) : list StepRow := step_rows d ++ rows.

Lemma plan_rows_new d d' t k steps :
  plan_wf d → revisions d !! (t, k) = None → step_rows d' = add_rows d (rows_of t k steps) →
  plan_rows d' t k = rows_of t k steps.
Proof.
  intros Hwf Hnone E. unfold plan_rows. rewrite E. unfold add_rows.
  rewrite bfilter_app, no_rows_yet, bfilter_true, app_nil_l by (done || apply new_rows_in_plan).
  apply new_rows_sorted.
Qed.

Lemma plan_rows_other d d' t k t' k' steps :
  (t', k') ≠ (t, k) → step_rows d' = add_rows d (rows_of t k steps) →
  plan_rows d' t' k' = plan_rows d t' k'.
Proof.
  intros Hne E. unfold plan_rows. rewrite E. unfold add_rows.
  by rewrite bfilter_app, new_rows_other, app_nil_r by done.
Qed.

Lemma head_of d t : plan_wf d → 0 ≤ default 0 (heads d !! t).
Proof.
  intros Hwf. destruct (heads d !! t) as [k|] eqn:E; simpl; [|lia]. apply (wf_limit _ Hwf) in E. lia.
Qed.

Lemma saved_wf d t actor v input resp d' :
  plan_wf d → saved d t actor v input resp d' → plan_wf d'.
Proof.
  intros Hwf [He Hl _ Hnone (plan & steps & Hord & _ & Hsafe & _ & _ & ->)].
  pose proof (head_of d t Hwf) as Hpos. set (n := expected_revision input + 1) in *.
  constructor; simpl.
  - intros t' k. destruct (decide (t' = t)) as [->|Hne].
    + rewrite lookup_insert_eq. simpl. destruct (decide (k = n)) as [->|Hk].
      * rewrite lookup_insert_eq. split; [lia|by eexists].
      * rewrite lookup_insert_ne by congruence. rewrite (wf_revisions _ Hwf). lia.
    + rewrite !lookup_insert_ne by congruence. apply (wf_revisions _ Hwf).
  - intros t' k. destruct (decide (t' = t)) as [->|Hne].
    + rewrite lookup_insert_eq. intros [= <-]. lia.
    + rewrite lookup_insert_ne by done. apply (wf_limit _ Hwf).
  - intros r Hr. apply elem_of_app in Hr as [Hr|Hr].
    + apply (wf_rows _ Hwf) in Hr as [Hr ?]. split; [|done]. by apply lookup_insert_is_Some'; right.
    + apply elem_of_new_rows in Hr as (-> & -> & ? & Hdef & _). rewrite lookup_insert_eq.
      split; [by eexists|]. split; [done|]. rewrite Forall_forall in Hsafe. by apply Hsafe.
  - intros t' k Hk. destruct (decide ((t', k) = (t, n))) as [[= -> ->]|Hne].
    + exists steps. split; [|done]. by apply (plan_rows_new d).
    + rewrite lookup_insert_ne in Hk by done. apply (wf_plans _ Hwf) in Hk as (st & Hst & ?).
      exists st. split; [|done]. rewrite <- Hst. by apply (plan_rows_other d _ t n _ _ steps).
  - intros a Ha. apply (wf_attempts _ Hwf) in Ha as (r & Hr & ?). exists r.
    split; [|done]. apply elem_of_app. by left.
Qed.

Lemma save_wf w d t actor v resp d' :
  plan_wf d → save_tx w d t actor v = Some (inr (resp, d')) → plan_wf d'.
Proof.
  intros Hwf H. apply save_cases in H as (input & steps & _ & H).
  destruct (plan_receipts d !! _); [by destruct H as (_ & _ & ->)|]. by eapply saved_wf.
Qed.

(** ** Histories *)

Definition empty_plans : PlanTables :=
  {| revisions := ∅; step_rows := []; heads := ∅; plan_receipts := ∅; attempts := [] |}.

Definition add_attempt (a : StepAttempt) (d : PlanTables) : PlanTables :=
  {| revisions := revisions d; step_rows := step_rows d; heads := heads d;
     plan_receipts := plan_receipts d; attempts := attempts d ++ [a] |}.

(** A save with any outcome of its COMMIT, seen against any state of the other
    tables, or the reservation of a stored step. *)
Inductive plan_step (d : PlanTables) : PlanTables → Prop :=
| Step_save w commit t actor v r d' :
    save w commit d t actor v = Some (r, d') → plan_step d d'
| Step_attempt a row :
    row ∈ step_rows d → sr_task row = at_task a → sr_revision row = at_revision a →
    sr_step row = at_step a → plan_step d (add_attempt a d).

Lemma save_outcome w commit d t actor v r d' :
  save w commit d t actor v = Some (r, d') →
  d' = d ∨ ∃ resp, save_tx w d t actor v = Some (inr (resp, d')).
Proof.
  unfold PlanService.saveDraft. destruct (PlanService.saveDraftInTransaction _ _ _ _ _ _ _ _) as [[e|[resp d1]]|];
    intros [= H]; simplify_eq; [by left|].
  destruct commit; simpl in H; simplify_eq; first [by left | right; by eexists].
Qed.

Lemma plan_step_wf d d' : plan_wf d → plan_step d d' → plan_wf d'.
Proof.
  intros Hwf [w commit t actor v r d1 H|a row Hrow Ht Hk Hs].
  - apply save_outcome in H as [->|[resp H]]; [done|by eapply save_wf].
  - destruct Hwf as [H1 H2 H3 H4 H5]. constructor; try done. simpl. intros a' Ha'.
    apply elem_of_app in Ha' as [?|Ha']; [by apply H5|].
    apply list_elem_of_singleton in Ha' as ->. by exists row.
Qed.

Lemma plan_reachable_wf d : rtc plan_step empty_plans d → plan_wf d.
Proof.
  intros H. assert (He : plan_wf empty_plans).
  { constructor; simpl; try done.
    - intros t k. rewrite !lookup_empty. simpl. split; [by intros []|lia].
    - intros r Hr. by inv Hr.
    - intros t k []. done.
    - intros a Ha. by inv Ha. }
  revert He. induction H as [|x y z Hxy _ IH]; [done|]. intros Hx. apply IH. by eapply plan_step_wf.
Qed.

(** Every attempt is among the started steps of its task. *)
Lemma wf_started d a :
  plan_wf d → a ∈ attempts d → ∃ def, (at_step a, def) ∈ started_steps d (at_task a).
Proof.
  intros Hwf Ha. destruct (wf_attempts _ Hwf _ Ha) as (r & Hr & Ht & Hk & Hs).
  exists (definition r). unfold started_steps. apply list_elem_of_In, in_flat_map. exists a. split.
  - apply list_elem_of_In, elem_of_bfilter. split; [by apply bool_decide_eq_true|done].
  - apply in_map_iff. exists r. split; [by rewrite Hs|]. apply list_elem_of_In, elem_of_bfilter.
    split; [|done]. unfold in_plan. rewrite Ht, Hk, Hs, Z.eqb_refl, !bool_decide_true by done. done.
Qed.

Lemma started_safe d t : plan_wf d → Forall reviewer_safe (started_steps d t).*2.
Proof.
  intros Hwf. apply Forall_forall. intros def Hdef. apply list_elem_of_fmap in Hdef as ([id df] & -> & Hin).
  apply list_elem_of_In, in_flat_map in Hin as (a & _ & Hin). apply in_map_iff in Hin as (r & [= <- <-] & Hr).
  apply list_elem_of_In, elem_of_bfilter in Hr as [_ Hr]. by apply (wf_rows _ Hwf) in Hr as (_ & _ & ?).
Qed.

(** after every history of saves and step reservations the revisions of a
    task are numbered 1 to its head, at most 100; the steps read back for a
    revision are unique and in an order in which every step follows its
    dependencies; every attempt belongs to a stored step. *)
Theorem plan_store_invariant d :
  rtc plan_step empty_plans d →
  (∀ t k, is_Some (snapshot d t k) ↔ 1 ≤ k ≤ default 0 (heads d !! t)) ∧
  (∀ t, default 0 (heads d !! t) ≤ 100) ∧
  (∀ t k plan steps, snapshot d t k = Some (plan, steps) → plan_ordered steps) ∧
  (∀ a, a ∈ attempts d → ∃ def, (at_step a, def) ∈ started_steps d (at_task a)).
Proof.
  intros Hreach%plan_reachable_wf. split; [|split; [|split]].
  - intros t k. rewrite <- (wf_revisions _ Hreach). unfold snapshot.
    destruct (revisions d !! (t, k)); [split; by eexists|]. by split; intros [].
  - intros t. destruct (heads d !! t) as [k|] eqn:E; simpl; [|lia].
    apply (wf_limit _ Hreach) in E. unfold max_plan_revisions in E. lia.
  - intros t k plan steps H. unfold snapshot in H. destruct (revisions d !! (t, k)) eqn:E; [|done].
    simplify_eq. destruct (wf_plans _ Hreach t k) as (st & -> & ?); [by eexists|].
    by rewrite new_rows_defs.
  - intros a Ha. by apply wf_started.
Qed.

(** ** One save *)

Lemma committed_saved w d t actor v resp d' input steps :
  read_plan v = inr (input, steps) →
  plan_receipts d !! (t, actor, plan_request_id input) = None →
  save w Committed d t actor v = Some (inr resp, d') → saved d t actor v input resp d'.
Proof.
  intros Hread Hnone H.
  assert (Htx : save_tx w d t actor v = Some (inr (resp, d'))).
  { unfold PlanService.saveDraft in H.
    destruct (PlanService.saveDraftInTransaction _ _ _ _ _ _ _ _) as [[e|[r d1]]|]; simplify_eq/=.
    by simplify_eq. }
  apply save_cases in Htx as (input' & steps' & Hread' & Hcase). rewrite Hread in Hread'. simplify_eq.
  by rewrite Hnone in Hcase.
Qed.

(** a committed save of a new request was made against the current
    revision; it stores the next revision with exactly the steps of the input,
    each after its dependencies, and leaves every other revision of every task
    as it was. *)
Theorem save_stores_next_revision w d t actor v resp d' input steps :
  rtc plan_step empty_plans d → read_plan v = inr (input, steps) →
  plan_receipts d !! (t, actor, plan_request_id input) = None →
  save w Committed d t actor v = Some (inr resp, d') →
  expected_revision input = default 0 (heads d !! t) ∧
  resp_revision resp = expected_revision input + 1 ∧
  heads d' = <[t := resp_revision resp]> (heads d) ∧
  (∃ plan stored, snapshot d' t (resp_revision resp) = Some (plan, stored) ∧
     plan_hash plan = resp_plan_hash resp ∧ stored ≡ₚ plan_steps input ∧ plan_ordered stored) ∧
  (∀ t' k, (t', k) ≠ (t, resp_revision resp) → snapshot d' t' k = snapshot d t' k).
Proof.
  intros Hwf%plan_reachable_wf Hread Hnone H.
  destruct (committed_saved _ _ _ _ _ _ _ _ _ Hread Hnone H) as [He _ _ Habs (plan & stored & Hord & Hperm & _ & _ & -> & ->)]. simpl.
  split; [done|]. split; [done|]. split; [done|]. split.
  - exists plan, stored. split; [|done]. unfold snapshot. simpl. rewrite lookup_insert_eq.
    rewrite (plan_rows_new d _ t _ stored) by done. by rewrite new_rows_defs.
  - intros t' k Hne. unfold snapshot. simpl. rewrite lookup_insert_ne by done.
    by rewrite (plan_rows_other d _ t (expected_revision input + 1) _ _ stored).
Qed.

Lemma save_total w d t actor v : is_Some (save_tx w d t actor v).
Proof.
  unfold PlanService.saveDraftInTransaction. destruct (read_plan v) as [e|[input steps]] eqn:Hread.
  - unfold validateTaskPlan. rewrite Hread. by eexists.
  - destruct (order_whole_plan _ _ _ Hread) as ([e|order] & -> & _); by eexists.
Qed.

(** a request whose save was kept, even when the caller saw the COMMIT
    fail, is answered by a repetition with the response of the first call and
    changes nothing; the same request identifier with content of another digest
    is refused. *)
Theorem save_is_idempotent w d t actor v resp d' :
  save_tx w d t actor v = Some (inr (resp, d')) →
  save_tx w d' t actor v = Some (inr (resp, d')) ∧
  (∀ v' input input' steps steps', read_plan v = inr (input, steps) →
     read_plan v' = inr (input', steps') → plan_request_id input' = plan_request_id input →
     stableDigest localeCompare sha256 v' ≠ stableDigest localeCompare sha256 v →
     ∀ w' commit, ∃ e, save w' commit d' t actor v' = Some (inl e, d')).
Proof.
  intros H. pose proof (save_cases _ _ _ _ _ _ _ H) as (input & steps & Hread & Hcase).
  assert (Hrec : plan_receipts d' !! (t, actor, plan_request_id input) =
    Some {| request_hash := stableDigest localeCompare sha256 v; response := resp |}).
  { destruct (plan_receipts d !! (t, actor, plan_request_id input)) as [prior|] eqn:E.
    - destruct Hcase as (<- & -> & ->). rewrite E. by destruct prior.
    - destruct Hcase as [_ _ _ _ (plan & stored & _ & _ & _ & _ & _ & ->)]. apply lookup_insert_eq. }
  split.
  - revert H. unfold PlanService.saveDraftInTransaction.
    destruct (validateTaskPlan v) as [[e|order]|]; try done. rewrite Hread. unfold save_validated.
    destruct (plan_access _ _ _ _ _) as [e|acc]; [done|]. simpl.
    destruct (sessions w !! _) as [session|]; [|done].
    destruct (_ && _); [|done]. simpl. case_bool_decide; [|done]. simpl.
    destruct (live_task w t) as [e|task]; [done|]. simpl. intros _. rewrite Hrec. simpl.
    by rewrite bool_decide_true.
  - intros v' input0 input' steps0 steps' Hr0 Hr' Hid Hne w' commit. rewrite Hread in Hr0. simplify_eq.
    destruct (save_total w' d' t actor v') as [[e|[resp' d2]] Htx].
    + exists e. unfold PlanService.saveDraft. by rewrite Htx.
    + apply save_cases in Htx as (input2 & steps2 & Hr2 & Hcase2). rewrite Hr' in Hr2. simplify_eq.
      rewrite Hid, Hrec in Hcase2. by destruct Hcase2 as [? _].
Qed.

(** C26: a committed save of a new request stores the next revision of the task as
    its head, with exactly the steps of the input, each after its dependencies,
    and every other revision of every task stays as it was; and the stored
    revision keeps every step that any attempt of the task was made for, with
    the same definition, provided the digest has no collision among the steps
    that are compared. *)
Theorem save_keeps_started_steps w d t actor v resp d' input steps :
  rtc plan_step empty_plans d → read_plan v = inr (input, steps) →
  plan_receipts d !! (t, actor, plan_request_id input) = None →
  collision_free sha256 (map (step_text localeCompare) (plan_steps input ++ (started_steps d t).*2)) →
  save w Committed d t actor v = Some (inr resp, d') →
  ∃ plan stored, heads d' !! t = Some (resp_revision resp) ∧
    snapshot d' t (resp_revision resp) = Some (plan, stored) ∧
    stored ≡ₚ plan_steps input ∧ plan_ordered stored ∧
    (∀ t' k, (t', k) ≠ (t, resp_revision resp) → snapshot d' t' k = snapshot d t' k) ∧
    ∀ a, a ∈ attempts d → at_task a = t →
    ∃ def s, (at_step a, def) ∈ started_steps d t ∧ s ∈ stored ∧
      step_id s = at_step a ∧ same_definition s def.
Proof.
  intros Hreach Hread Hnone Hcf H.
  destruct (save_stores_next_revision _ _ _ _ _ _ _ _ _ Hreach Hread Hnone H)
    as (_ & _ & Hh & (plan & stored & Hsnap & _ & Hperm & Hord) & Hother).
  exists plan, stored. split; [rewrite Hh; apply lookup_insert_eq|]. split_and!; [done..|].
  intros a Ha Ht. apply plan_reachable_wf in Hreach.
  assert (Hsaved : saved d t actor v input resp d') by (by eapply committed_saved).
  destruct (wf_started _ _ Hreach Ha) as [def Hdef]. rewrite Ht in Hdef. exists def.
  destruct (started_steps_unchanged localeCompare sha256 (plan_steps input) (started_steps d t)
    Hcf (read_plan_safe _ _ _ Hread) (started_safe _ _ Hreach)
    (saved_started _ _ _ _ _ _ _ Hsaved) _ _ Hdef) as (s & Hs & ? & ?). exists s. by rewrite Hperm.
Qed.
End store.

(** ** Examples *)

Definition demo_view : TeamView := {|
  users := {[1 := true; 2 := true]};
  tasks := {["task"%string := {| task_team := "team"; creator_user_id := 1; task_state := "open" |}]};
  active_teams := {["team"%string]};
  roles := {[("team"%string, 1) := "member"%string; ("team"%string, 2) := "member"%string]};
  sessions := {["session"%string := {| session_team := "team"; session_active := true;
    session_task := Some "task"%string; current_context_version := 0 |}]};
  participants := {[("session"%string, 1)]};
  linked_sessions := ∅;
  delivery_specs := {["task"%string := 1]};
  context_hashes := ∅;
  callable := {[("session", "team", "offer")%string]} |}.

Definition demo_plan (request : string) (expected : Z) (steps : list TaskPlanStep) : jsval :=
  JObj [("request_id", JStr request); ("expected_revision", JNum expected);
        ("team_session_id", JStr "session"); ("context_version", JNum 0);
        ("spec_revision", JNum 1); ("steps", JArr (map step_value steps))]%string.

Definition demo_save (d : PlanTables) (v : jsval) : option (team PlanResponse * PlanTables) :=
  saveDraft code_compare (λ x, x) (λ _, true) demo_view Committed d "task" 1 v.

Definition tables_after (r : option (team PlanResponse * PlanTables)) : PlanTables :=
  match r with Some (_, d) => d | None => empty_plans end.

Definition demo_saved : PlanTables := tables_after (demo_save empty_plans (demo_plan "save" 0 demo_steps)).

Definition demo_started : PlanTables :=
  add_attempt {| at_task := "task"; at_revision := 1; at_step := "root" |} demo_saved.

Definition demo_edit : jsval :=
  demo_plan "edit" 1 [demo_step "tail" ["root"]; demo_step "root" []]%string.

Lemma demo_saved_returns :
  ∃ resp, demo_save empty_plans (demo_plan "save" 0 demo_steps) = Some (inr resp, demo_saved).
Proof. eexists. vm_compute. reflexivity. Qed.

Lemma demo_started_reachable :
  rtc (plan_step code_compare (λ x, x) (λ _, true)) empty_plans demo_started.
Proof.
  destruct demo_saved_returns as [resp H].
  eapply rtc_l; [by eapply Step_save|]. eapply rtc_l; [|apply rtc_refl].
  eapply Step_attempt; [vm_compute; apply list_elem_of_here|reflexivity..].
Qed.

Lemma plan_store_invariant_witness :
  default 0 (heads demo_started !! "task"%string) ≤ 100 ∧
  ∃ def, ("root"%string, def) ∈ started_steps demo_started "task".
Proof.
  destruct (plan_store_invariant code_compare (λ x, x) (λ _, true) demo_started
    demo_started_reachable) as (_ & Hl & _ & Ha).
  split; [exact (Hl "task"%string)|].
  apply (Ha {| at_task := "task"; at_revision := 1; at_step := "root" |}).
  vm_compute. apply list_elem_of_here.
Defined.

Lemma demo_edit_returns :
  ∃ resp, resp_revision resp = 2 ∧
    demo_save demo_started demo_edit = Some (inr resp, tables_after (demo_save demo_started demo_edit)).
Proof. eexists. split; [|vm_compute; reflexivity]. reflexivity. Qed.

Definition edit_input : TaskPlanInput := {|
  plan_request_id := "edit"; expected_revision := 1; team_session_id := "session";
  context_version := 0; spec_revision := 1;
  plan_steps := [demo_step "tail" ["root"]; demo_step "root" []]%string |}.

Lemma demo_edit_read : read_plan demo_edit = inr (edit_input, keyed (plan_steps edit_input)).
Proof. vm_compute. reflexivity. Qed.

Lemma demo_edit_new : plan_receipts demo_started !! ("task"%string, 1, plan_request_id edit_input) = None.
Proof. vm_compute. reflexivity. Qed.

Lemma save_stores_next_revision_witness :
  ∃ plan stored, snapshot (tables_after (demo_save demo_started demo_edit)) "task" 2
    = Some (plan, stored) ∧ stored ≡ₚ plan_steps edit_input.
Proof.
  destruct demo_edit_returns as (resp & Hr & H).
  destruct (save_stores_next_revision _ _ _ _ _ _ _ _ _ _ _ _ demo_started_reachable demo_edit_read
    demo_edit_new H) as (_ & _ & _ & (plan & stored & Hs & _ & Hp & _) & _).
  rewrite Hr in Hs. exists plan, stored. split; [exact Hs|exact Hp].
Defined.

Lemma save_keeps_started_steps_witness :
  ∃ plan stored def s, snapshot (tables_after (demo_save demo_started demo_edit)) "task" 2 = Some (plan, stored) ∧
    ("root"%string, def) ∈ started_steps demo_started "task" ∧ s ∈ stored ∧ same_definition s def.
Proof.
  destruct demo_edit_returns as (resp & Hr & H).
  destruct (save_keeps_started_steps _ _ _ _ _ _ _ _ _ _ _ _ demo_started_reachable demo_edit_read
    demo_edit_new (λ a b _ _ E, E) H) as (plan & stored & _ & Hsnap & _ & _ & _ & Hkept).
  destruct (Hkept {| at_task := "task"; at_revision := 1; at_step := "root" |}) as (def & s & Hd & Hs & _ & Hsame).
  - vm_compute. apply list_elem_of_here.
  - reflexivity.
  - rewrite Hr in Hsnap. exists plan, stored, def, s. split; [exact Hsnap|]. split; [exact Hd|]. split; [exact Hs|exact Hsame].
Defined.

Lemma save_is_idempotent_witness :
  ∃ resp d, saveDraftInTransaction code_compare (λ x, x) (λ _, true) demo_view demo_started "task" 1
    demo_edit = Some (inr (resp, d)) ∧
  saveDraftInTransaction code_compare (λ x, x) (λ _, true) demo_view d "task" 1 demo_edit
    = Some (inr (resp, d)).
Proof.
  eexists _, _. assert (H : saveDraftInTransaction code_compare (λ x, x) (λ _, true) demo_view
    demo_started "task" 1 demo_edit = Some (inr (_, tables_after (demo_save demo_started demo_edit))))
    by (vm_compute; reflexivity).
  split; [exact H|]. exact (proj1 (save_is_idempotent _ _ _ _ _ _ _ _ _ _ H)).
Defined.
