(* ===== verification/StepWakeup.v ===== *)
(** * StepWakeup: the queue that drives the steps of a plan
    (relay/src/team/step-wakeup-repository.ts, relay/src/team/step-worker.ts and
    the trigger functions of relay/src/team/plan-schema.ts).

    Every change of a plan, its runtime, attempts or calls signals its task: the
    generation of the task's wakeup grows.  A worker leases a wakeup, works in a
    transaction, and acknowledges the generation it leased when the lease still
    holds at the end of that transaction; later signals leave the task pending.

    [processClaim] is split at the work it carries: [lease_valid] is tested when
    the transaction begins and [settle_wakeup] when it ends, and anything may
    happen between.  The proofs are in StepWakeupSpec. *)

From S2P Require Import Prelude JsValue JsMap FeedCursor DeliveryContract.

#[local] Open Scope Z_scope.

(** ** Tables *)

(** A row of [team_step_wakeups]; its [updated_at] is never read. *)
Record WakeupRow : Type := {
  wk_task_id : string;
  wk_generation : Z;
  wk_acknowledged : Z;
  wk_lease_token : Z;
  wk_lease_owner : option string;
  wk_lease_until : option Z;
  wk_available_at : Z;
  wk_last_error : option string
}.

(** What the queue reads of [team_tasks], [collaboration_teams] and
    [team_task_plan_heads]. *)
Record QueueTask : Type := { qt_task_id : string; qt_team_id : string; qt_state : string }.

Record WakeupDb : Type := {
  wakeups : list WakeupRow;
  queue_tasks : list QueueTask;
  active_teams : list string;
  planned_tasks : list string
}.

Definition with_wakeups (db : WakeupDb) (rows : list WakeupRow) : WakeupDb := {|
  wakeups := rows; queue_tasks := queue_tasks db; active_teams := active_teams db;
  planned_tasks := planned_tasks db |}.

(** ** Signals *)

Definition new_wakeup (now : Z) (task : string) : WakeupRow := {|
  wk_task_id := task; wk_generation := 1; wk_acknowledged := 0; wk_lease_token := 0; wk_lease_owner := None;
  wk_lease_until := None; wk_available_at := now; wk_last_error := None |}.

Definition bump_wakeup (now : Z) (r : WakeupRow) : WakeupRow := {|
  wk_task_id := wk_task_id r; wk_generation := wk_generation r + 1; wk_acknowledged := wk_acknowledged r;
  wk_lease_token := wk_lease_token r; wk_lease_owner := wk_lease_owner r; wk_lease_until := wk_lease_until r;
  wk_available_at := Z.min (wk_available_at r) now; wk_last_error := wk_last_error r |}.

Definition is_task (task : string) (r : WakeupRow) : bool := bool_decide (wk_task_id r = task).

(** [signal_team_step_wakeup]: nothing happens to a task without a plan. *)
Definition signal_team_step_wakeup (now : Z) (task : string) (db : WakeupDb) : WakeupDb :=
  if negb (bool_decide (task ∈ planned_tasks db)) then db
  else if existsb (is_task task) (wakeups db)
  then with_wakeups db (map (λ r, if is_task task r then bump_wakeup now r else r) (wakeups db))
  else with_wakeups db (wakeups db ++ [new_wakeup now task]).

(** ** Leases *)

Record StepWakeupClaim : Type := {
  cl_task_id : string;
  cl_generation : Z;
  cl_lease_token : Z;
  cl_lease_owner : string
}.

(** [/^[a-zA-Z0-9_-]{1,128}$/]. *)
Definition queue_id (s : string) : bool :=
  (1 <=? str_len s) && (str_len s <=? 128) && forallb id_char (chars s).

(** A task of a listed, active team that is open or in progress. *)
Definition task_eligible (db : WakeupDb) (teamIds : list string) (task : string) : bool :=
  existsb (λ t, bool_decide (qt_task_id t = task) && bool_decide (qt_state t ∈ ["open"; "in_progress"]%string)
                && bool_decide (qt_team_id t ∈ active_teams db) && bool_decide (qt_team_id t ∈ teamIds))
    (queue_tasks db).

Definition lease_free (now : Z) (r : WakeupRow) : bool :=
  match wk_lease_until r with None => true | Some t => t <=? now end.

Definition claimable_wakeup (now : Z) (db : WakeupDb) (teamIds : list string) (locked : list string) (r : WakeupRow)
  : bool :=
  task_eligible db teamIds (wk_task_id r) && (wk_acknowledged r <? wk_generation r)
  && (wk_available_at r <=? now) && lease_free now r && negb (bool_decide (wk_task_id r ∈ locked)).

(** [ORDER BY q.available_at, q.task_id], identifiers by their code units. *)
Definition wakeup_le (r s : WakeupRow) : Prop :=
  wk_available_at r < wk_available_at s
  ∨ (wk_available_at r = wk_available_at s ∧ String.le (wk_task_id r) (wk_task_id s)).

#[global] Instance wakeup_le_dec : RelDecision wakeup_le.
Proof. intros r s. unfold wakeup_le. apply _. Defined.

Definition lease_wakeup (now leaseMs : Z) (owner : string) (r : WakeupRow) : WakeupRow := {|
  wk_task_id := wk_task_id r; wk_generation := wk_generation r; wk_acknowledged := wk_acknowledged r;
  wk_lease_token := wk_lease_token r + 1; wk_lease_owner := Some owner; wk_lease_until := Some (now + leaseMs);
  wk_available_at := wk_available_at r; wk_last_error := wk_last_error r |}.

(** [claim]; [owner] is the random identifier, [locked] are the rows other
    transactions hold. *)
Definition claim_wakeup (now : Z) (locked : list string) (owner : string) (teamIds : list string) (leaseMs : Z)
  (db : WakeupDb) : outcome (WakeupDb * option StepWakeupClaim) :=
  if (100 <? len teamIds) || negb (forallb queue_id teamIds) then Throws "invalid wakeup Team allowlist"
  else if (leaseMs <? 100) || (60000 <? leaseMs) then Throws "invalid wakeup lease duration"
  else if bool_decide (teamIds = []) then Returns (db, None)
  else match merge_sort wakeup_le (bfilter (claimable_wakeup now db teamIds locked) (wakeups db)) with
  | [] => Returns (db, None)
  | c :: _ =>
      Returns (with_wakeups db (map (λ r, if is_task (wk_task_id c) r then lease_wakeup now leaseMs owner r else r)
                                  (wakeups db)),
               Some {| cl_task_id := wk_task_id c; cl_generation := wk_generation c;
                       cl_lease_token := wk_lease_token c + 1; cl_lease_owner := owner |})
  end.

(** ** Processing *)

(** The test of [parameters]: identifiers and positive numbers of at most 19
    digits. *)
Definition claim_parameters (c : StepWakeupClaim) : outcome unit :=
  if queue_id (cl_task_id c) && hex_groups lower_hex 8 [4; 4; 4; 12]%nat (cl_lease_owner c)
     && (1 <=? cl_lease_token c) && (cl_lease_token c <? 10 ^ 19) && (1 <=? cl_generation c)
     && (cl_generation c <? 10 ^ 19)
  then Returns tt else Throws "invalid wakeup claim".

(** The row of the claim under a live lease. *)
Definition holds_lease_of (now : Z) (c : StepWakeupClaim) (r : WakeupRow) : bool :=
  is_task (cl_task_id c) r && bool_decide (wk_lease_owner r = Some (cl_lease_owner c))
  && (wk_lease_token r =? cl_lease_token c) && (wk_acknowledged r <? cl_generation c)
  && match wk_lease_until r with Some t => now <? t | None => false end.

(** The fence of [processClaim], before and after the work. *)
Definition lease_valid (now : Z) (c : StepWakeupClaim) (r : WakeupRow) : bool :=
  holds_lease_of now c r && (cl_generation c <=? wk_generation r).

Definition lease_lost : string := "step wakeup lease lost".

Definition acknowledge (c : StepWakeupClaim) (r : WakeupRow) : WakeupRow := {|
  wk_task_id := wk_task_id r; wk_generation := wk_generation r; wk_acknowledged := cl_generation c;
  wk_lease_token := wk_lease_token r; wk_lease_owner := None; wk_lease_until := None;
  wk_available_at := wk_available_at r; wk_last_error := None |}.

(** The [SELECT] that begins the work. *)
Definition begin_process (now : Z) (c : StepWakeupClaim) (db : WakeupDb) : outcome unit :=
  try! _ := claim_parameters c in
  if existsb (lease_valid now c) (wakeups db) then Returns tt else Throws lease_lost.

(** The [UPDATE] that ends it, in the transaction of the work. *)
Definition settle_wakeup (now : Z) (c : StepWakeupClaim) (db : WakeupDb) : outcome WakeupDb :=
  if len (bfilter (lease_valid now c) (wakeups db)) =? 1
  then Returns (with_wakeups db (map (λ r, if lease_valid now c r then acknowledge c r else r) (wakeups db)))
  else Throws lease_lost.

Definition retry_codes : list string :=
  ["retry_pending"; "authorization_changed"; "dependency_unavailable"; "budget_exhausted"]%string.

Definition release_wakeup (now : Z) (c : StepWakeupClaim) (errorCode : string) (delayMs : Z) (r : WakeupRow)
  : WakeupRow := {|
  wk_task_id := wk_task_id r; wk_generation := wk_generation r; wk_acknowledged := wk_acknowledged r;
  wk_lease_token := wk_lease_token r; wk_lease_owner := None; wk_lease_until := None;
  wk_available_at := if cl_generation c <? wk_generation r then now else now + delayMs;
  wk_last_error := Some errorCode |}.

(** [retry]. *)
Definition retry_wakeup (now : Z) (c : StepWakeupClaim) (errorCode : string) (delayMs : Z) (db : WakeupDb)
  : outcome (WakeupDb * bool) :=
  if negb (bool_decide (errorCode ∈ retry_codes)) || (delayMs <? 0) || (60000 <? delayMs)
  then Throws "invalid wakeup retry"
  else
    try! _ := claim_parameters c in
    Returns (with_wakeups db (map (λ r, if holds_lease_of now c r then release_wakeup now c errorCode delayMs r else r)
                                (wakeups db)),
             len (bfilter (holds_lease_of now c) (wakeups db)) =? 1).

(** ** The worker *)

(** How the work of a claim ended: committed, the lease lost, or an error with
    its code. *)
Inductive StepResult : Type :=
| Advanced (call_id : option string)
| LeaseLost
| StepFailed (code : option string).

(** The retry code for the code of an error. *)
Definition retry_code (code : option string) : string :=
  match code with
  | None => "retry_pending"
  | Some c =>
      if bool_decide (c = "budget_exhausted"%string) then "budget_exhausted"
      else if bool_decide (c ∈ ["creator_required"; "participant_required"; "team_access_denied";
                                "team_feature_disabled"]%string) then "authorization_changed"
      else if bool_decide (c ∈ ["reviewer_required"; "capability_not_supported"; "agent_unavailable";
                                "artifact_unavailable"; "acceptance_required"; "evidence_required";
                                "input_limit_exceeded"]%string) then "dependency_unavailable"
      else "retry_pending"
  end.

Definition retry_delay (code : string) : Z := if bool_decide (code = "retry_pending"%string) then 1000 else 30000.

(** What [processOne] does once its claim was worked on: an error goes back to
    the queue, a new call is announced; [announced] tells whether [onCall]
    returned. *)
Inductive WorkerEffect : Type := AnnounceCall (call_id : string) | ReportError (code : string).

Definition after_process (announced : string → bool) (now : Z) (c : StepWakeupClaim) (result : StepResult)
  (db : WakeupDb) : outcome (WakeupDb * list WorkerEffect) :=
  match result with
  | LeaseLost => Returns (db, [])
  | StepFailed code =>
      let retry := retry_code code in
      try! r := retry_wakeup now c retry (retry_delay retry) db in Returns (fst r, [ReportError retry])
  | Advanced (Some id) =>
      if bool_decide (id = ""%string) then Returns (db, [])
      else Returns (db, AnnounceCall id :: if announced id then [] else [ReportError "dispatch_notification_failed"])
  | Advanced None => Returns (db, [])
  end.
