(* ===== verification/StepWakeupSpec.v ===== *)
(** * StepWakeupSpec: no wakeup is lost, and leases exclude each other

    Any number of workers claim, process, retry and crash while signals keep
    arriving.  A process remembers the generation it began at: all signals up to
    it were committed before, so the work has seen what they signalled. *)

From stdpp Require Import relations.
From S2P Require Import Prelude JsValue JsMap FeedCursor DeliveryContract StepWakeup.

#[local] Open Scope Z_scope.

(** ** Worlds *)

(** A transaction of [processClaim] that began, with the number of signals of its
    task that were committed then. *)
Record OpenProcess : Type := { op_claim : StepWakeupClaim; op_seen : Z }.

(** The signals of tasks that have a plan, the claims that were handed out, the
    transactions under way and, in order, those that committed. *)
Record QueueWorld : Type := {
  q_db : WakeupDb;
  q_signals : list string;
  q_claims : list StepWakeupClaim;
  q_open : list OpenProcess;
  q_done : list OpenProcess
}.

Definition set_queue (w : QueueWorld) (db : WakeupDb) : QueueWorld := {|
  q_db := db; q_signals := q_signals w; q_claims := q_claims w; q_open := q_open w; q_done := q_done w |}.

Definition signals_of (task : string) (w : QueueWorld) : Z := len (bfilter (λ t, bool_decide (t = task)) (q_signals w)).

Definition signal_queue (now : Z) (task : string) (w : QueueWorld) : QueueWorld := {|
  q_db := signal_team_step_wakeup now task (q_db w);
  q_signals := if bool_decide (task ∈ planned_tasks (q_db w)) then task :: q_signals w else q_signals w;
  q_claims := q_claims w; q_open := q_open w; q_done := q_done w |}.

Inductive queue_step (w : QueueWorld) : QueueWorld → Prop :=
| qu_signal now task : queue_step w (signal_queue now task w)
| qu_tables tasks teams plans :
    queue_step w (set_queue w {| wakeups := wakeups (q_db w); queue_tasks := tasks; active_teams := teams;
                                 planned_tasks := plans |})
| qu_claim now locked owner teams leaseMs db' c :
    claim_wakeup now locked owner teams leaseMs (q_db w) = Returns (db', Some c) →
    queue_step w {| q_db := db'; q_signals := q_signals w; q_claims := c :: q_claims w; q_open := q_open w; q_done := q_done w |}
| qu_begin now c :
    c ∈ q_claims w → begin_process now c (q_db w) = Returns tt →
    queue_step w {| q_db := q_db w; q_signals := q_signals w; q_claims := q_claims w;
      q_open := {| op_claim := c; op_seen := signals_of (cl_task_id c) w |} :: q_open w; q_done := q_done w |}
| qu_commit now l1 p l2 db' :
    q_open w = l1 ++ p :: l2 → settle_wakeup now (op_claim p) (q_db w) = Returns db' →
    queue_step w {| q_db := db'; q_signals := q_signals w; q_claims := q_claims w; q_open := l1 ++ l2; q_done := q_done w ++ [p] |}
| qu_rollback l1 p l2 :
    q_open w = l1 ++ p :: l2 →
    queue_step w {| q_db := q_db w; q_signals := q_signals w; q_claims := q_claims w; q_open := l1 ++ l2; q_done := q_done w |}
| qu_retry announced now c result db' effects :
    c ∈ q_claims w → after_process announced now c result (q_db w) = Returns (db', effects) →
    queue_step w (set_queue w db').

(** ** Invariant *)

Definition done_for (task : string) (w : QueueWorld) : list OpenProcess :=
  bfilter (λ p, bool_decide (cl_task_id (op_claim p) = task)) (q_done w).

Definition last_ack (task : string) (w : QueueWorld) : Z :=
  match last (done_for task w) with Some p => cl_generation (op_claim p) | None => 0 end.

(** The row of a claim: its generation is one the task has had, its lease token
    one it has given out. *)
Definition claim_known (db : WakeupDb) (c : StepWakeupClaim) : Prop :=
  ∃ r, r ∈ wakeups db ∧ wk_task_id r = cl_task_id c ∧ cl_generation c ≤ wk_generation r ∧
    cl_lease_token c ≤ wk_lease_token r.

Record queue_ok (w : QueueWorld) : Prop := {
  qo_tasks : NoDup (wk_task_id <$> wakeups (q_db w));
  qo_rows r : r ∈ wakeups (q_db w) → 0 ≤ wk_acknowledged r ≤ wk_generation r ∧
    wk_acknowledged r = last_ack (wk_task_id r) w ∧ 0 ≤ wk_lease_token r ∧ 1 ≤ wk_generation r;
  qo_claims c : c ∈ q_claims w → claim_known (q_db w) c;
  qo_open p : p ∈ q_open w → claim_known (q_db w) (op_claim p) ∧ cl_generation (op_claim p) ≤ op_seen p;
  qo_done p : p ∈ q_done w → cl_generation (op_claim p) ≤ op_seen p ∧ claim_known (q_db w) (op_claim p);
  (** Commits of a task acknowledge growing generations under growing tokens. *)
  qo_order task : StronglySorted (λ p q, cl_generation (op_claim p) < cl_generation (op_claim q) ∧
    cl_lease_token (op_claim p) < cl_lease_token (op_claim q)) (done_for task w);
  (** The token of a commit was given back. *)
  qo_spent p r : p ∈ q_done w → r ∈ wakeups (q_db w) → wk_task_id r = cl_task_id (op_claim p) →
    cl_lease_token (op_claim p) < wk_lease_token r ∨ wk_lease_owner r = None
}.

(** The generation of a task counts its signals. *)
Record queue_counts (w : QueueWorld) : Prop := {
  qc_rows r : r ∈ wakeups (q_db w) → wk_generation r = signals_of (wk_task_id r) w;
  qc_none task : (∀ r, r ∈ wakeups (q_db w) → wk_task_id r ≠ task) → signals_of task w = 0;
  qc_seen p : p ∈ q_open w ++ q_done w → op_seen p ≤ signals_of (cl_task_id (op_claim p)) w
}.

Lemma row_of_task (rows : list WakeupRow) r r' :
  NoDup (wk_task_id <$> rows) → r ∈ rows → r' ∈ rows → wk_task_id r = wk_task_id r' → r = r'.
Proof.
  intros Hn [i Hi]%list_elem_of_lookup [k Hk]%list_elem_of_lookup E.
  assert (i = k); [|congruence]. eapply (NoDup_lookup (wk_task_id <$> rows)); [done|..]; rewrite list_lookup_fmap;
    [by rewrite Hi|rewrite Hk; simpl; by f_equal].
Qed.

(** A row changes so: its counters only grow, and a lease that is taken is not
    one that was given back before. *)
Record row_moves (r r' : WakeupRow) : Prop := {
  rm_task : wk_task_id r' = wk_task_id r;
  rm_generation : wk_generation r ≤ wk_generation r';
  rm_token : wk_lease_token r ≤ wk_lease_token r';
  rm_ack : wk_acknowledged r' = wk_acknowledged r;
  rm_owner : wk_lease_owner r' = wk_lease_owner r ∨ wk_lease_owner r' = None ∨ wk_lease_token r < wk_lease_token r'
}.

Lemma row_moves_refl r : row_moves r r.
Proof. constructor; auto; lia. Qed.

Lemma map_ids (g : WakeupRow → WakeupRow) rows :
  (∀ r, wk_task_id (g r) = wk_task_id r) → wk_task_id <$> map g rows = wk_task_id <$> rows.
Proof.
  intros Hg. change (map g rows) with (g <$> rows). rewrite <- list_fmap_compose. apply list_fmap_ext. intros _ r _. apply Hg.
Qed.

Lemma claim_known_moves db g c :
  (∀ r, row_moves r (g r)) → claim_known db c → claim_known (with_wakeups db (map g (wakeups db))) c.
Proof.
  intros Hg (r & Hr & Ht & Hgen & Htok). destruct (Hg r) as [M1 M2 M3 _ _]. exists (g r).
  split; [by apply list_elem_of_fmap_2|]. split_and!; [congruence|lia|lia].
Qed.

(** Changes of rows that acknowledge nothing keep the invariant. *)
Lemma queue_ok_moves w g :
  queue_ok w → (∀ r, row_moves r (g r)) →
  queue_ok (set_queue w (with_wakeups (q_db w) (map g (wakeups (q_db w))))).
Proof.
  intros [Q1 Q2 Q3 Q4 Q5 Q6 Q7] Hg. constructor; simpl.
  - rewrite map_ids; [done|]. intros r. apply Hg.
  - intros r' (r & -> & Hr)%list_elem_of_fmap. destruct (Q2 r Hr) as ([? ?] & Ha & ?).
    destruct (Hg r) as [M1 M2 M3 M4 _]. rewrite M1, M4. split_and!; done || lia.
  - intros c Hc. apply (claim_known_moves _ g); auto.
  - intros p Hp. destruct (Q4 p Hp). split; [|done]. by apply (claim_known_moves _ g).
  - intros p Hp. destruct (Q5 p Hp). split; [done|]. by apply (claim_known_moves _ g).
  - done.
  - intros p r' Hp (r & -> & Hr)%list_elem_of_fmap Ht. destruct (Hg r) as [M1 M2 M3 M4 M5]. rewrite M1 in Ht.
    destruct (Q7 p r Hp Hr Ht) as [?|Ho]; [left; lia|]. destruct M5 as [->|[?|?]]; [by right|by right|].
    left. destruct (Q5 p Hp) as [_ (r0 & Hr0 & Ht0 & _ & Htok)].
    rewrite (row_of_task _ r r0 Q1 Hr Hr0) in * by congruence. lia.
Qed.

Lemma bump_moves now r : row_moves r (bump_wakeup now r).
Proof. constructor; simpl; auto; lia. Qed.

Lemma lease_moves now leaseMs owner r : row_moves r (lease_wakeup now leaseMs owner r).
Proof. constructor; simpl; auto; lia. Qed.

Lemma release_moves now c code delay r : row_moves r (release_wakeup now c code delay r).
Proof. constructor; simpl; auto; lia. Qed.

Lemma if_moves (b : bool) r r' : row_moves r r' → row_moves r (if b then r' else r).
Proof. intros. destruct b; [done|apply row_moves_refl]. Qed.

Lemma done_known w task :
  queue_ok w → (∀ r, r ∈ wakeups (q_db w) → wk_task_id r ≠ task) → done_for task w = [].
Proof.
  intros [Q1 Q2 Q3 Q4 Q5 Q6 Q7] Hno. apply bfilter_false. intros p Hp. apply bool_decide_eq_false. intros <-.
  destruct (Q5 p Hp) as [_ (r & Hr & Ht & _)]. by apply (Hno r Hr).
Qed.

(** The invariant does not look at the signals. *)
Lemma queue_ok_signals w' sig w :
  w' = {| q_db := q_db w; q_signals := sig; q_claims := q_claims w; q_open := q_open w; q_done := q_done w |} →
  queue_ok w → queue_ok w'.
Proof. intros -> [Q1 Q2 Q3 Q4 Q5 Q6 Q7]. by constructor. Qed.

Lemma queue_ok_signal w now task :
  queue_ok w → queue_ok (signal_queue now task w).
Proof.
  intros Hok. apply (queue_ok_signals _ (q_signals (signal_queue now task w))
    (set_queue w (signal_team_step_wakeup now task (q_db w)))); [done..|].
  unfold signal_team_step_wakeup. destruct (negb _); [by destruct w|]. destruct (existsb _ _) eqn:E.
  { apply queue_ok_moves; [done|]. intros r. apply if_moves, bump_moves. }
  assert (Hno : ∀ r, r ∈ wakeups (q_db w) → wk_task_id r ≠ task).
  { intros r Hr Ht. pose proof (existsb_none _ _ _ E Hr) as Hn. unfold is_task in Hn. by bool_hyps. }
  pose proof (done_known w task Hok Hno) as Hd. destruct Hok as [Q1 Q2 Q3 Q4 Q5 Q6 Q7].
  assert (Hk : ∀ c, claim_known (q_db w) c →
    claim_known (with_wakeups (q_db w) (wakeups (q_db w) ++ [new_wakeup now task])) c).
  { intros c (r & Hr & ?). exists r. split; [apply elem_of_app; by left|done]. }
  constructor; simpl.
  - rewrite fmap_app. apply NoDup_app. split_and!; [done| |apply NoDup_singleton].
    intros x (r & -> & Hr)%list_elem_of_fmap Hx%list_elem_of_singleton. by apply (Hno r).
  - intros r [Hr| ->%list_elem_of_singleton]%elem_of_app; [by apply Q2|]. simpl. split_and!; try lia.
    unfold last_ack. change (done_for task (set_queue w _)) with (done_for task w). by rewrite Hd.
  - auto.
  - intros p Hp. destruct (Q4 p Hp). auto.
  - intros p Hp. destruct (Q5 p Hp). auto.
  - done.
  - intros p r Hp [Hr| ->%list_elem_of_singleton]%elem_of_app Ht; [by apply Q7|by right].
Qed.

Lemma claim_shape now locked owner teams leaseMs db db' c :
  claim_wakeup now locked owner teams leaseMs db = Returns (db', Some c) →
  ∃ r, r ∈ wakeups db ∧ claimable_wakeup now db teams locked r = true ∧
    c = {| cl_task_id := wk_task_id r; cl_generation := wk_generation r; cl_lease_token := wk_lease_token r + 1;
           cl_lease_owner := owner |} ∧
    db' = with_wakeups db (map (λ x, if is_task (wk_task_id r) x then lease_wakeup now leaseMs owner x else x) (wakeups db)).
Proof.
  unfold claim_wakeup. destruct (_ || _); [done|]. destruct (_ || _); [done|]. case_bool_decide; [done|].
  destruct (merge_sort _ _) as [|r l] eqn:E; [done|]. intros [= <- <-]. exists r.
  assert (Hr : r ∈ merge_sort wakeup_le (bfilter (claimable_wakeup now db teams locked) (wakeups db)))
    by (rewrite E; left).
  rewrite merge_sort_Permutation in Hr. by apply elem_of_bfilter in Hr as [? ?].
Qed.

Lemma queue_ok_claim w now locked owner teams leaseMs db' c :
  queue_ok w → claim_wakeup now locked owner teams leaseMs (q_db w) = Returns (db', Some c) →
  queue_ok {| q_db := db'; q_signals := q_signals w; q_claims := c :: q_claims w; q_open := q_open w; q_done := q_done w |}.
Proof.
  intros Hok (r & Hr & _ & -> & ->)%claim_shape.
  set (g := λ x, if is_task (wk_task_id r) x then lease_wakeup now leaseMs owner x else x).
  destruct (queue_ok_moves w g Hok) as [Q1 Q2 Q3 Q4 Q5 Q6 Q7].
  { intros x. apply if_moves, lease_moves. }
  constructor; try done. simpl in *. intros c [->|Hc]%elem_of_cons; [|by apply Q3].
  exists (g r). split; [by apply list_elem_of_fmap_2|]. unfold g, is_task.
  rewrite bool_decide_eq_true_2 by done. simpl. split_and!; [done|lia|lia].
Qed.

Lemma begin_valid now c db : begin_process now c db = Returns tt → ∃ r, r ∈ wakeups db ∧ lease_valid now c r = true.
Proof.
  unfold begin_process. destruct (claim_parameters c); [|done]. destruct (existsb _ _) eqn:E; [|done].
  apply existsb_exists in E as (r & Hr%list_elem_of_In & ?). eauto.
Qed.

Lemma lease_valid_spec now c r :
  lease_valid now c r = true →
  wk_task_id r = cl_task_id c ∧ wk_lease_owner r = Some (cl_lease_owner c) ∧ wk_lease_token r = cl_lease_token c ∧
  wk_acknowledged r < cl_generation c ≤ wk_generation r ∧ ∃ t, wk_lease_until r = Some t ∧ now < t.
Proof.
  unfold lease_valid, holds_lease_of, is_task. intros H. destruct (wk_lease_until r) as [t|]; bool_hyps; [|done].
  split_and!; try done. exists t. split; [done|]. by bool_hyps.
Qed.

Lemma queue_ok_begin w now c :
  queue_ok w → queue_counts w → c ∈ q_claims w → begin_process now c (q_db w) = Returns tt →
  queue_ok {| q_db := q_db w; q_signals := q_signals w; q_claims := q_claims w;
    q_open := {| op_claim := c; op_seen := signals_of (cl_task_id c) w |} :: q_open w; q_done := q_done w |}.
Proof.
  intros [Q1 Q2 Q3 Q4 Q5 Q6 Q7] [C1 _ _] Hc Hb. constructor; try done. simpl.
  intros p [->|Hp]%elem_of_cons; [|by apply Q4]. simpl. split; [by apply Q3|].
  destruct (begin_valid _ _ _ Hb) as (r' & Hr' & Hv). apply lease_valid_spec in Hv as (<- & _ & _ & ? & _).
  rewrite <- C1 by done. lia.
Qed.

Lemma queue_ok_open w l1 p l2 :
  queue_ok w → q_open w = l1 ++ p :: l2 →
  queue_ok {| q_db := q_db w; q_signals := q_signals w; q_claims := q_claims w; q_open := l1 ++ l2; q_done := q_done w |}.
Proof.
  intros [Q1 Q2 Q3 Q4 Q5 Q6 Q7] Ho. constructor; try done. simpl. intros x Hx. apply Q4. rewrite Ho.
  apply elem_of_app in Hx as [?|?]; apply elem_of_app; [by left|right; by right].
Qed.

(** ** Commits *)

(** The row a commit acknowledges, and the table it leaves. *)
Lemma settle_wakeup_shape now c db db' :
  settle_wakeup now c db = Returns db' →
  (∃ r, r ∈ wakeups db ∧ lease_valid now c r = true) ∧
  db' = with_wakeups db (map (λ r, if lease_valid now c r then acknowledge c r else r) (wakeups db)).
Proof.
  unfold settle_wakeup. destruct (Z.eqb_spec (len (bfilter (lease_valid now c) (wakeups db))) 1) as [E|]; [|done].
  intros [= <-]. split; [|done]. destruct (bfilter _ _) as [|r l] eqn:Ef; [done|]. exists r.
  apply and_comm, elem_of_bfilter. rewrite Ef. left.
Qed.

Lemma done_for_snoc w w' p task :
  q_done w' = q_done w ++ [p] →
  done_for task w' = if bool_decide (cl_task_id (op_claim p) = task) then done_for task w ++ [p] else done_for task w.
Proof.
  intros E. unfold done_for. rewrite E, bfilter_app. simpl. case_bool_decide; [done|by rewrite app_nil_r].
Qed.

(** What the earlier commits of the task of a live lease say about it. *)
Lemma done_before w now c r p :
  queue_ok w → r ∈ wakeups (q_db w) → lease_valid now c r = true → p ∈ done_for (cl_task_id c) w →
  cl_generation (op_claim p) < cl_generation c ∧ cl_lease_token (op_claim p) < cl_lease_token c.
Proof.
  intros [Q1 Q2 Q3 Q4 Q5 Q6 Q7] Hr (Ht & Ho & Htok & Hgen & _)%lease_valid_spec Hp.
  destruct (Q2 r Hr) as (_ & Ha & _). rewrite Ht in Ha. split.
  - enough (cl_generation (op_claim p) ≤ last_ack (cl_task_id c) w) by lia. unfold last_ack.
    specialize (Q6 (cl_task_id c)). destruct (done_for _ w) as [|q l _] using rev_ind; [by apply elem_of_nil in Hp|].
    rewrite last_snoc.
    apply elem_of_app in Hp as [Hp| ->%list_elem_of_singleton]; [|lia].
    apply StronglySorted_app in Q6 as (Hlt & _ & _). specialize (Hlt p q Hp ltac:(left)). lia.
  - unfold done_for in Hp. apply elem_of_bfilter in Hp as [Hpt Hp]. bool_hyps.
    destruct (Q7 p r Hp Hr) as [?|?]; [congruence|lia|congruence].
Qed.

(** The table after a commit: the row of the claim is acknowledged, with its
    counters, and the others are as they were. *)
Lemma settle_rows now c db :
  NoDup (wk_task_id <$> wakeups db) → (∃ r, r ∈ wakeups db ∧ lease_valid now c r = true) →
  ∀ r, r ∈ wakeups db → lease_valid now c r = bool_decide (wk_task_id r = cl_task_id c).
Proof.
  intros Hn (r0 & Hr0 & Hv) r Hr. case_bool_decide as Ht.
  - pose proof (lease_valid_spec _ _ _ Hv) as (Ht0 & _). by rewrite (row_of_task _ r r0 Hn Hr Hr0) by congruence.
  - destruct (lease_valid now c r) eqn:E; [|done]. apply lease_valid_spec in E. naive_solver.
Qed.

Lemma claim_known_settle now c db c' :
  claim_known db c' →
  claim_known (with_wakeups db (map (λ r, if lease_valid now c r then acknowledge c r else r) (wakeups db))) c'.
Proof.
  intros (r & Hr & ?). eexists. split; [by apply list_elem_of_fmap_2|]. by destruct (lease_valid now c r).
Qed.

Lemma queue_ok_commit w now l1 p l2 db' :
  queue_ok w → q_open w = l1 ++ p :: l2 → settle_wakeup now (op_claim p) (q_db w) = Returns db' →
  queue_ok {| q_db := db'; q_signals := q_signals w; q_claims := q_claims w; q_open := l1 ++ l2; q_done := q_done w ++ [p] |}.
Proof.
  intros Hok Ho [(r0 & Hr0 & Hv) ->]%settle_wakeup_shape. pose proof (done_before w now (op_claim p) r0) as Hbefore.
  assert (Hp : p ∈ q_open w) by (rewrite Ho; apply elem_of_app; right; left).
  destruct (queue_ok_open w l1 p l2 Hok Ho) as [_ _ _ Qopen _ _ _]. specialize (Hbefore).
  pose proof Hok as [Q1 Q2 Q3 Q4 Q5 Q6 Q7]. destruct (Q4 p Hp) as [Hk Hseen].
  pose proof (settle_rows now (op_claim p) (q_db w) Q1 (ex_intro _ r0 (conj Hr0 Hv))) as Hsel.
  pose proof (lease_valid_spec _ _ _ Hv) as (Ht0 & _ & Htok0 & Hg0 & _).
  assert (Hsnoc := λ w' task E, done_for_snoc w w' p task E).
  constructor; simpl.
  - rewrite map_ids; [done|]. intros r. by destruct (lease_valid _ _ r).
  - intros r' (r & -> & Hr)%list_elem_of_fmap. destruct (Q2 r Hr) as (Hle & Ha & ?). unfold last_ack.
    erewrite Hsnoc by done. rewrite (Hsel r Hr). case_bool_decide as Ht; simpl.
    + rewrite bool_decide_eq_true_2, last_snoc by done. assert (r = r0) as -> by (eapply row_of_task; eauto; congruence).
      split_and!; lia.
    + rewrite bool_decide_eq_false_2 by done. done.
  - intros c Hc. apply claim_known_settle, Q3, Hc.
  - intros q Hq. destruct (Qopen q Hq). split; [by apply claim_known_settle|done].
  - intros q [Hq| ->%list_elem_of_singleton]%elem_of_app; [destruct (Q5 q Hq)|]; (split; [done|by apply claim_known_settle]).
  - intros task. erewrite Hsnoc by done. case_bool_decide as Ht; [|done]. subst task.
    apply StronglySorted_app_2; [|done|repeat constructor]. intros q p' Hq ->%list_elem_of_singleton. by apply Hbefore.
  - intros q r' Hq (r & -> & Hr)%list_elem_of_fmap. rewrite (Hsel r Hr). case_bool_decide as Ht; simpl; [by right|].
    intros Htq. apply elem_of_app in Hq as [Hq| ->%list_elem_of_singleton]; [by apply Q7|by destruct Ht].
Qed.

Lemma after_process_rows announced now c result db db' effects :
  after_process announced now c result db = Returns (db', effects) →
  ∃ g, db' = with_wakeups db (map g (wakeups db)) ∧
    ∀ r, row_moves r (g r) ∧ wk_task_id (g r) = wk_task_id r ∧ wk_generation (g r) = wk_generation r.
Proof.
  assert (Hid : ∃ g, db = with_wakeups db (map g (wakeups db)) ∧
    ∀ r, row_moves r (g r) ∧ wk_task_id (g r) = wk_task_id r ∧ wk_generation (g r) = wk_generation r).
  { exists id. rewrite map_id. split; [by destruct db|]. intros r. split; [apply row_moves_refl|done]. }
  unfold after_process. destruct result as [[id|]| |code]; [case_bool_decide|..]; intros Hret; simplify_eq; try done.
  unfold retry_wakeup in Hret. destruct (_ || _); [done|]. destruct (claim_parameters c); [|done]. simplify_eq/=.
  eexists. split; [done|]. intros r. simpl. split; [apply if_moves, release_moves|by destruct (holds_lease_of _ _ _)].
Qed.

(** ** Signals are counted *)

Lemma signals_of_signal now task t w :
  signals_of t (signal_queue now task w) =
  signals_of t w + (if bool_decide (task ∈ planned_tasks (q_db w)) && bool_decide (task = t) then 1 else 0).
Proof.
  unfold signals_of. simpl. case_bool_decide; cbn [andb bfilter]; [|lia].
  destruct (bool_decide (task = t)); [rewrite length_cons|]; lia.
Qed.

Lemma queue_counts_signal w now task : queue_counts w → queue_counts (signal_queue now task w).
Proof.
  intros [C1 C2 C3]. pose proof (λ t, signals_of_signal now task t w) as Hs. constructor.
  - intros r Hr. rewrite Hs. simpl in Hr. unfold signal_team_step_wakeup in Hr.
    case_bool_decide as Hp; simpl in Hr |- *; [|rewrite C1 by done; lia].
    destruct (existsb _ _) eqn:E; simpl in Hr.
    + apply list_elem_of_fmap in Hr as (x & -> & Hx). unfold is_task. pose proof (C1 x Hx).
      repeat case_bool_decide; simpl in *; congruence || lia.
    + apply elem_of_app in Hr as [Hr| ->%list_elem_of_singleton]; simpl.
      * rewrite C1, bool_decide_eq_false_2; [lia| |done]. intros ->.
        pose proof (existsb_none _ _ _ E Hr) as Hn. unfold is_task in Hn. by bool_hyps.
      * rewrite bool_decide_eq_true_2, C2; [done| |done]. intros r Hr Ht.
        pose proof (existsb_none _ _ _ E Hr) as Hn. unfold is_task in Hn. by bool_hyps.
  - intros t Ht. rewrite Hs, C2.
    + case_bool_decide as Hp; [|done]. simpl. case_bool_decide; [|done]. subst t. exfalso.
      simpl in Ht. unfold signal_team_step_wakeup in Ht. rewrite bool_decide_eq_true_2 in Ht by done. simpl in Ht.
      destruct (existsb _ _) eqn:E; simpl in Ht.
      * apply existsb_exists in E as (r & Hr%list_elem_of_In & Hi). eapply Ht; [by apply list_elem_of_fmap_2|].
        simpl. rewrite Hi. unfold is_task in Hi. by bool_hyps.
      * eapply Ht; [apply elem_of_app; right; by left|done].
    + intros r Hr Hrt. simpl in Ht. unfold signal_team_step_wakeup in Ht.
      destruct (negb _); [by apply (Ht r)|]. destruct (existsb _ _); simpl in Ht.
      * eapply Ht; [by apply list_elem_of_fmap_2|]. simpl. by destruct (is_task task r).
      * apply (Ht r); [apply elem_of_app; by left|done].
  - intros p Hp. rewrite Hs. specialize (C3 p Hp). destruct (_ && _); lia.
Qed.

(** Changes of rows that signal nothing keep the counts. *)
Lemma queue_counts_moves w w' g :
  queue_counts w → q_signals w' = q_signals w → wakeups (q_db w') = map g (wakeups (q_db w)) →
  (∀ r, wk_task_id (g r) = wk_task_id r ∧ wk_generation (g r) = wk_generation r) →
  (∀ p, p ∈ q_open w' ++ q_done w' → p ∈ q_open w ++ q_done w ∨ op_seen p = signals_of (cl_task_id (op_claim p)) w) →
  queue_counts w'.
Proof.
  intros [C1 C2 C3] Hsig Hrows Hg Hseen. assert (Hs : ∀ t, signals_of t w' = signals_of t w).
  { intros t. unfold signals_of. by rewrite Hsig. }
  constructor.
  - intros r'. rewrite Hrows. intros (r & -> & Hr)%list_elem_of_fmap. destruct (Hg r) as [-> ->]. rewrite Hs. by apply C1.
  - intros t Ht. rewrite Hs. apply C2. intros r Hr <-. apply (Ht (g r)); [|apply Hg]. rewrite Hrows.
    by apply list_elem_of_fmap_2.
  - intros p Hp. rewrite Hs. destruct (Hseen p Hp) as [?| ->]; [by apply C3|lia].
Qed.

Lemma queue_counts_step w w' : queue_counts w → queue_step w w' → queue_counts w'.
Proof.
  intros Hc [].
  - by apply queue_counts_signal.
  - by destruct Hc; constructor.
  - destruct (claim_shape _ _ _ _ _ _ _ _ H) as (r & _ & _ & _ & ->). eapply queue_counts_moves; eauto.
    intros x. simpl. by case_match.
  - eapply (queue_counts_moves _ _ id); eauto; [by rewrite map_id|]. simpl. set_solver.
  - apply settle_wakeup_shape in H0 as [_ ->]. eapply queue_counts_moves; eauto; [intros x; simpl; by case_match|].
    simpl. rewrite H. set_solver.
  - eapply (queue_counts_moves _ _ id); eauto; [by rewrite map_id|]. simpl. rewrite H. set_solver.
  - edestruct after_process_rows as (g & -> & Hg); [done|]. eapply queue_counts_moves; eauto. intros r. apply Hg.
Qed.

Lemma queue_step_ok w w' : queue_counts w → queue_ok w → queue_step w w' → queue_ok w'.
Proof.
  intros Hc Hok [].
  - by apply queue_ok_signal.
  - by destruct Hok; constructor.
  - by eapply queue_ok_claim.
  - by eapply queue_ok_begin.
  - by eapply queue_ok_commit.
  - by eapply queue_ok_open.
  - edestruct after_process_rows as (g & -> & Hg); [done|]. apply queue_ok_moves; [done|]. intros r. apply Hg.
Qed.

Lemma queue_reachable w w' :
  queue_counts w → queue_ok w → rtc queue_step w w' → queue_counts w' ∧ queue_ok w'.
Proof. intros Hc Hok. induction 1; eauto using queue_step_ok, queue_counts_step. Qed.

Definition idle_queue (db : WakeupDb) : QueueWorld := {|
  q_db := db; q_signals := []; q_claims := []; q_open := []; q_done := [] |}.

Lemma idle_queue_ok db : wakeups db = [] → queue_counts (idle_queue db) ∧ queue_ok (idle_queue db).
Proof.
  intros E. split; constructor; simpl; rewrite ?E; try set_solver; try constructor.
Qed.

(** ** Theorems *)

Lemma acknowledged_by w r :
  queue_ok w → r ∈ wakeups (q_db w) → wk_acknowledged r ≠ 0 →
  ∃ p, p ∈ q_done w ∧ cl_task_id (op_claim p) = wk_task_id r ∧ cl_generation (op_claim p) = wk_acknowledged r ∧
    wk_acknowledged r ≤ op_seen p.
Proof.
  intros [_ Q2 _ _ Q5 _ _] Hr Hz. destruct (Q2 r Hr) as (_ & Ha & _). unfold last_ack in Ha.
  destruct (last _) as [p|] eqn:E; [|done]. exists p. apply last_Some_elem_of, elem_of_bfilter in E as [Ht Hp].
  bool_hyps. destruct (Q5 p Hp). split_and!; [done..|lia].
Qed.

(** C40: A task is pending, or a transaction that began after all its signals has
    committed.  The commits of a task are ordered: each acknowledges more than
    the ones before it, under a later lease, so a lease commits at most once. *)
Theorem no_lost_wakeup db w :
  wakeups db = [] → rtc queue_step (idle_queue db) w →
  (∀ r, r ∈ wakeups (q_db w) →
    wk_acknowledged r < wk_generation r ∨
    ∃ p, p ∈ q_done w ∧ cl_task_id (op_claim p) = wk_task_id r ∧ op_seen p = signals_of (wk_task_id r) w) ∧
  (∀ task, StronglySorted (λ p q, cl_generation (op_claim p) < cl_generation (op_claim q) ∧
    cl_lease_token (op_claim p) < cl_lease_token (op_claim q)) (done_for task w)) ∧
  (∀ task, 0 < signals_of task w → ∃ r, r ∈ wakeups (q_db w) ∧ wk_task_id r = task).
Proof.
  intros E Hr. destruct (idle_queue_ok db E) as [Hc0 Ho0]. destruct (queue_reachable _ _ Hc0 Ho0 Hr) as [[C1 C2 C3] Hok].
  split_and!; [|apply Hok|].
  - intros r Hin. destruct (qo_rows _ Hok r Hin) as (Hle & Ha & _ & Hpos). destruct (decide (wk_acknowledged r < wk_generation r)) as [|Hge];
      [by left|right]. 
    destruct (decide (wk_acknowledged r = 0)) as [Hz|Hz].
    { lia. }
    destruct (acknowledged_by w r Hok Hin Hz) as (p & Hp & Ht & Hgen & Hseen). exists p. split_and!; [done..|].
    specialize (C3 p ltac:(set_solver)). rewrite Ht in C3. rewrite <- (C1 r Hin) in *. lia.
  - intros task Hpos. destruct (decide (Exists (λ r, wk_task_id r = task) (wakeups (q_db w)))) as [(r & ? & ?)%Exists_exists|Hn];
      [eauto|]. rewrite C2 in Hpos; [lia|]. intros r Hin Ht. apply Hn, Exists_exists. eauto.
Qed.

#[local] Instance wakeup_le_trans : Transitive wakeup_le.
Proof.
  intros r s t [?|[? H1]] [?|[? H2]]; unfold wakeup_le; [left; lia..|right]. split; [lia|]. by transitivity (wk_task_id s).
Qed.

#[local] Instance wakeup_le_total : Total wakeup_le.
Proof.
  intros r s. unfold wakeup_le. destruct (Z.lt_trichotomy (wk_available_at r) (wk_available_at s)) as [?|[?|?]]; auto.
  destruct (total String.le (wk_task_id r) (wk_task_id s)); auto.
Qed.

(** What a valid poll does when something can be claimed: the first of the
    claimable wakeups is leased. *)
Lemma claim_least now locked owner teams leaseMs db r :
  len teams ≤ 100 → forallb queue_id teams = true → 100 ≤ leaseMs ≤ 60000 → r ∈ wakeups db →
  claimable_wakeup now db teams locked r = true →
  ∃ c, c ∈ wakeups db ∧ claimable_wakeup now db teams locked c = true ∧ wakeup_le c r ∧
    claim_wakeup now locked owner teams leaseMs db = Returns
      (with_wakeups db (map (λ x, if is_task (wk_task_id c) x then lease_wakeup now leaseMs owner x else x) (wakeups db)),
       Some {| cl_task_id := wk_task_id c; cl_generation := wk_generation c; cl_lease_token := wk_lease_token c + 1;
               cl_lease_owner := owner |}).
Proof.
  intros Hlen Hids Hms Hr Hc. unfold claim_wakeup. rewrite (proj2 (Z.ltb_ge _ _) Hlen), Hids. simpl.
  rewrite (proj2 (Z.ltb_ge leaseMs 100)), (proj2 (Z.ltb_ge 60000 leaseMs)) by lia. simpl. case_bool_decide as E.
  { subst teams. exfalso. unfold claimable_wakeup, task_eligible in Hc. bool_hyps.
    match goal with H : existsb _ _ = true |- _ => apply existsb_exists in H as (t & _ & Ht) end. bool_hyps. set_solver. }
  set (rows := bfilter (claimable_wakeup now db teams locked) (wakeups db)).
  assert (Hin : r ∈ merge_sort wakeup_le rows) by (rewrite merge_sort_Permutation; by apply elem_of_bfilter).
  pose proof (StronglySorted_merge_sort wakeup_le rows) as Hs. destruct (merge_sort wakeup_le rows) as [|c l] eqn:Em.
  { by apply elem_of_nil in Hin. }
  exists c. assert (Hc' : c ∈ merge_sort wakeup_le rows) by (rewrite Em; left).
  rewrite merge_sort_Permutation in Hc'. apply elem_of_bfilter in Hc' as [? ?]. split_and!; try done.
  apply elem_of_cons in Hin as [->|Hin]; [by destruct (total wakeup_le c c)|].
  apply StronglySorted_inv in Hs as [_ Hall]. by rewrite Forall_forall in Hall; apply Hall.
Qed.

(** One row has the task of a row of the table. *)
Lemma task_rows (rows : list WakeupRow) r (f : WakeupRow → bool) :
  NoDup (wk_task_id <$> rows) → r ∈ rows → (∀ x, x ∈ rows → f x = bool_decide (wk_task_id x = wk_task_id r)) →
  bfilter f rows = [r].
Proof.
  induction rows as [|x rows IH]; [by intros _ ?%elem_of_nil|]. rewrite fmap_cons. intros [Hx Hn]%NoDup_cons Hr Hf. simpl.
  rewrite (Hf x) by left. case_bool_decide as E.
  - apply elem_of_cons in Hr as [->|Hr]; [|by destruct Hx; rewrite E; apply list_elem_of_fmap_2]. f_equal.
    apply bfilter_false. intros y Hy. rewrite (Hf y) by (by right). apply bool_decide_eq_false. intros Ey.
    destruct Hx. rewrite <- Ey. by apply list_elem_of_fmap_2.
  - apply elem_of_cons in Hr as [->|Hr]; [done|]. apply IH; auto. intros y Hy. apply Hf. by right.
Qed.

Definition queue_bounds (r : WakeupRow) : Prop :=
  queue_id (wk_task_id r) = true ∧ 0 ≤ wk_acknowledged r ∧ wk_generation r < 10 ^ 19 ∧ 0 ≤ wk_lease_token r < 10 ^ 19 - 1.

Lemma lease_is_valid now now1 leaseMs owner r :
  wk_acknowledged r < wk_generation r → now1 < now + leaseMs →
  lease_valid now1 {| cl_task_id := wk_task_id r; cl_generation := wk_generation r;
    cl_lease_token := wk_lease_token r + 1; cl_lease_owner := owner |} (lease_wakeup now leaseMs owner r) = true.
Proof.
  intros Ha Hn. unfold lease_valid, holds_lease_of, is_task. simpl. rewrite !bool_decide_eq_true_2 by done.
  rewrite Z.eqb_refl, Z.leb_refl, (proj2 (Z.ltb_lt _ _) Ha), (proj2 (Z.ltb_lt _ _) Hn). done.
Qed.

(** A pending task of an enabled team that waits for nothing is claimed, no task
    that is later in the queue before it, and work that ends within the lease
    acknowledges the generation of the claim. *)
Theorem pending_is_served now now1 now2 locked owner teams leaseMs db r :
  NoDup (wk_task_id <$> wakeups db) → Forall queue_bounds (wakeups db) →
  hex_groups lower_hex 8 [4; 4; 4; 12]%nat owner = true → len teams ≤ 100 → forallb queue_id teams = true →
  100 ≤ leaseMs ≤ 60000 → r ∈ wakeups db → claimable_wakeup now db teams locked r = true →
  now1 < now + leaseMs → now2 < now + leaseMs →
  ∃ x c db1 db2, x ∈ wakeups db ∧ wakeup_le x r ∧ cl_task_id c = wk_task_id x ∧ cl_generation c = wk_generation x ∧
    claim_wakeup now locked owner teams leaseMs db = Returns (db1, Some c) ∧
    begin_process now1 c db1 = Returns tt ∧ settle_wakeup now2 c db1 = Returns db2 ∧
    wakeups db2 = map (λ y, if is_task (wk_task_id x) y then acknowledge c (lease_wakeup now leaseMs owner y) else y)
                    (wakeups db).
Proof.
  intros Hn Hb Ho Hlen Hids Hms Hr Hc H1 H2.
  destruct (claim_least now locked owner teams leaseMs db r Hlen Hids Hms Hr Hc) as (x & Hx & Hcx & Hle & Hclaim).
  set (c := {| cl_task_id := _ |}) in Hclaim. set (g := λ y, if is_task (wk_task_id x) y then _ else y) in Hclaim.
  rewrite Forall_forall in Hb. destruct (Hb x Hx) as (Hq & Ha0 & Hg & Htok).
  assert (Ha : wk_acknowledged x < wk_generation x) by (unfold claimable_wakeup in Hcx; by bool_hyps).
  assert (Hgx : g x = lease_wakeup now leaseMs owner x) by (unfold g, is_task; by rewrite bool_decide_eq_true_2).
  assert (Hn1 : NoDup (wk_task_id <$> map g (wakeups db))).
  { rewrite map_ids; [done|]. intros y. unfold g. by case_match. }
  assert (Hin : g x ∈ map g (wakeups db)) by by apply list_elem_of_fmap_2.
  assert (Hv : ∀ t, t < now + leaseMs → ∀ y, y ∈ map g (wakeups db) → lease_valid t c y = bool_decide (wk_task_id y = wk_task_id (g x))).
  { intros t Ht. rewrite Hgx. apply (settle_rows t c (with_wakeups db (map g (wakeups db))) Hn1). exists (g x).
    split; [done|]. rewrite Hgx. by apply lease_is_valid. }
  eexists x, c, _, _. split_and!; [done..| | |].
  - unfold begin_process, claim_parameters, c. simpl. rewrite Hq, Ho. simpl.
    rewrite (proj2 (Z.leb_le _ _)), !(proj2 (Z.ltb_lt _ _)), (proj2 (Z.leb_le _ _)) by lia. simpl.
    rewrite (proj2 (existsb_exists _ _)); [done|]. exists (g x). split; [by apply list_elem_of_In|].
    rewrite Hgx. by apply lease_is_valid.
  - unfold settle_wakeup. simpl. rewrite (task_rows _ (g x)) by auto. done.
  - simpl. rewrite map_map. apply map_ext_in. intros y Hy%list_elem_of_In.
    rewrite (Hv now2 H2 (g y)) by by apply list_elem_of_fmap_2. rewrite Hgx. unfold g, is_task.
    destruct (bool_decide (wk_task_id y = wk_task_id x)) eqn:E; simpl; by rewrite E.
Qed.

(** *** Witnesses *)

Definition wakeup_owner : string := "0f0f0f0f-0000-4000-8000-00000000000a".

Definition wakeup_db (rows : list WakeupRow) : WakeupDb := {|
  wakeups := rows; queue_tasks := [{| qt_task_id := "t"; qt_team_id := "team"; qt_state := "open" |}];
  active_teams := ["team"%string]; planned_tasks := ["t"%string] |}.

Definition wakeup_claim : StepWakeupClaim :=
  {| cl_task_id := "t"; cl_generation := 1; cl_lease_token := 1; cl_lease_owner := wakeup_owner |}.

(** A signal arrives while the work of the first is under way: the task stays
    pending after the commit. *)
Definition wakeup_run : QueueWorld := {|
  q_db := wakeup_db [ {| wk_task_id := "t"; wk_generation := 2; wk_acknowledged := 1; wk_lease_token := 1;
                         wk_lease_owner := None; wk_lease_until := None; wk_available_at := 0; wk_last_error := None |} ];
  q_signals := ["t"%string; "t"%string]; q_claims := [wakeup_claim]; q_open := [];
  q_done := [{| op_claim := wakeup_claim; op_seen := 1 |}] |}.

Lemma wakeup_run_reachable : rtc queue_step (idle_queue (wakeup_db [])) wakeup_run.
Proof.
  eapply rtc_l; [apply (qu_signal _ 0 "t")|]. cbn.
  eapply rtc_l; [eapply (qu_claim _ 5 [] wakeup_owner ["team"%string] 30000); vm_compute; reflexivity|].
  eapply rtc_l; [apply (qu_begin _ 6 wakeup_claim); [left|vm_compute; reflexivity]|].
  eapply rtc_l; [apply (qu_signal _ 7 "t")|].
  eapply rtc_l; [eapply (qu_commit _ 8 [] _ []); vm_compute; reflexivity|]. apply rtc_refl.
Defined.

Example no_lost_wakeup_witness :
  wakeups (wakeup_db []) = [] ∧
  StronglySorted (λ p q, cl_generation (op_claim p) < cl_generation (op_claim q) ∧
    cl_lease_token (op_claim p) < cl_lease_token (op_claim q)) (done_for "t" wakeup_run).
Proof. split; [reflexivity|]. apply (no_lost_wakeup (wakeup_db []) wakeup_run); [reflexivity|apply wakeup_run_reachable]. Defined.

Example pending_is_served_witness :
  NoDup (wk_task_id <$> wakeups (wakeup_db [new_wakeup 0 "t"])) ∧
  ∃ x c db1 db2, x ∈ wakeups (wakeup_db [new_wakeup 0 "t"]) ∧ wakeup_le x (new_wakeup 0 "t") ∧
    cl_task_id c = wk_task_id x ∧ cl_generation c = wk_generation x ∧
    claim_wakeup 5 [] wakeup_owner ["team"%string] 30000 (wakeup_db [new_wakeup 0 "t"]) = Returns (db1, Some c) ∧
    begin_process 6 c db1 = Returns tt ∧ settle_wakeup 7 c db1 = Returns db2 ∧
    wakeups db2 = map (λ y, if is_task (wk_task_id x) y then acknowledge c (lease_wakeup 5 30000 wakeup_owner y) else y)
                    (wakeups (wakeup_db [new_wakeup 0 "t"])).
Proof.
  split; [apply NoDup_singleton|].
  apply (pending_is_served 5 6 7 [] wakeup_owner ["team"%string] 30000 (wakeup_db [new_wakeup 0 "t"]) (new_wakeup 0 "t"));
    try reflexivity; try lia; try (apply NoDup_singleton); try left; try (simpl; lia).
  repeat constructor; simpl; lia.
Defined.
