(* ===== verification/StepExecution.v ===== *)
(** * StepExecution: carrying out a task plan (relay/src/team/step-scheduler.ts,
    plan-inputs.ts, budget-service.ts, and the step part of
    relay/src/team/delivery-service.ts).

    [TaskExec] holds the execution tables of one task; every operation is one
    transaction under the task's row lock.  The tables it only reads are the
    [TeamView] and [PlanTables] of PlanService.  Arguments ([StepEnv]) are what
    the rest of the relay answers within the transaction: the join that finds a
    callable agent, whether its session is busy, [appendMessage] with the calls
    it creates, row locks that are taken ([55P03]), clocks and random
    identifiers.  Texts of messages and the digests, context and trusted
    evidence copied into frozen inputs are left out. *)

From S2P Require Import Prelude JsValue JsMap JsonRoundTrip FeedCursor FeedDelivery DeliveryContract TaskPlan PlanService.

#[local] Open Scope Z_scope.
#[local] Open Scope team_scope.

(** ** States *)

Inductive StepAttemptState : Type :=
| Reserved | Dispatched | AttemptRunning | Unknown | AttemptFailed | AwaitingReview | AttemptAccepted | AttemptCancelled.

#[global] Instance attempt_state_eq : EqDecision StepAttemptState.
Proof. solve_decision. Defined.

Inductive CallState : Type :=
| CallPending | CallDispatched | CallAccepted | CallUncertain | CallCompleted | CallFailed | CallBlocked | CallCancelled.

#[global] Instance call_state_eq : EqDecision CallState.
Proof. solve_decision. Defined.

(** [['accepted','failed','cancelled','awaiting_review'].includes(state)]. *)
Definition attempt_settled (s : StepAttemptState) : bool :=
  bool_decide (s ∈ [AttemptAccepted; AttemptFailed; AttemptCancelled; AwaitingReview]).

Definition reconciledAttemptState (s : StepAttemptState) (call : CallState) : StepAttemptState :=
  if attempt_settled s then s
  else match call with
  | CallPending => Reserved
  | CallDispatched => Dispatched
  | CallAccepted => AttemptRunning
  | CallUncertain => Unknown
  | CallCompleted => AwaitingReview
  | CallFailed => AttemptFailed
  | CallBlocked => AttemptFailed
  | CallCancelled => AttemptCancelled
  end.

(** ** Tables of a task *)

Record Artifact : Type := { ma_id : string; ma_size : Z; ma_sha : string; ma_required : bool }.

Record Evidence : Type := { ev_check : string; ev_artifact : string; ev_result : string }.

Record FrozenPlanInput : Type := {
  fi_step : string;
  fi_attempt : string;
  fi_submission : string;
  fi_plan_revision : Z;
  fi_call : string;
  fi_version : Z;
  fi_spec_revision : Z;
  fi_decision : string;
  fi_reviewer : Z;
  fi_checks : list string;
  fi_artifacts : list Artifact;
  fi_evidence : list Evidence
}.

Record StepAttemptRow : Type := {
  ar_id : string;
  ar_step : string;
  ar_revision : Z;
  ar_no : Z;
  ar_state : StepAttemptState;
  ar_call : string;
  ar_lease_token : Z;
  ar_inputs : list FrozenPlanInput;
  ar_accepted : option string
}.

Record TaskSubmission : Type := {
  su_id : string;
  su_call : string;
  su_spec : Z;
  su_published : bool;
  su_primary : bool;
  su_offer : string;
  su_version : Z;
  su_owner : Z;
  su_manifest : list Artifact;
  su_evidence : list Evidence
}.

Record AcceptanceDecision : Type := {
  de_id : string;
  de_accepted : bool;
  de_spec : Z;
  de_reviewer : Z;
  de_checks : list string
}.

Record SpecRow : Type := { sp_offer : string; sp_reviewer : Z; sp_checks : list string; sp_creator : Z }.

Record StoredFile : Type := { sf_size : Z; sf_sha : string; sf_digest : string; sf_revoked : bool }.

Record DeliveryHead : Type := { dh_spec : Z; dh_revision : Z; dh_latest : option string }.

Record TaskBudgetPolicy : Type := {
  max_concurrent_calls : option Z;
  max_duration_seconds : option Z;
  token_warning_limit : option Z
}.

Inductive RuntimeState : Type := RuntimeActive | RuntimePaused | RuntimeCancelled.

#[global] Instance runtime_state_eq : EqDecision RuntimeState.
Proof. solve_decision. Defined.

Record RuntimeRow : Type := {
  rt_plan_revision : Z;
  rt_revision : Z;
  rt_state : RuntimeState;
  rt_initiator : Z;
  rt_limit : Z;
  rt_budget : TaskBudgetPolicy
}.

(** What a delivery operation answered. *)
Inductive DeliveryReply : Type :=
| ReplyPublished (submission : string) (version revision : Z)
| ReplyDecided (decision submission : string) (accepted : bool) (revision : Z).

Record TaskExec : Type := {
  ex_runtime : option RuntimeRow;
  ex_attempts : list StepAttemptRow;
  ex_calls : gmap string CallState;
  ex_call_specs : gmap string Z;
  ex_specs : gmap Z SpecRow;
  ex_heads : gmap string DeliveryHead;
  ex_submissions : list TaskSubmission;
  ex_decisions : gmap string AcceptanceDecision;
  ex_files : gmap (string * string) StoredFile;
  ex_receipts : gmap (Z * string) (string * DeliveryReply);
  ex_task_state : string;
  ex_events : list string
}.

Definition with_attempts (ex : TaskExec) (l : list StepAttemptRow) : TaskExec := {|
  ex_runtime := ex_runtime ex; ex_attempts := l; ex_calls := ex_calls ex; ex_call_specs := ex_call_specs ex;
  ex_specs := ex_specs ex; ex_heads := ex_heads ex; ex_submissions := ex_submissions ex;
  ex_decisions := ex_decisions ex; ex_files := ex_files ex; ex_receipts := ex_receipts ex;
  ex_task_state := ex_task_state ex; ex_events := ex_events ex |}.

Definition set_state (s : StepAttemptState) (a : StepAttemptRow) : StepAttemptRow := {|
  ar_id := ar_id a; ar_step := ar_step a; ar_revision := ar_revision a; ar_no := ar_no a; ar_state := s;
  ar_call := ar_call a; ar_lease_token := ar_lease_token a; ar_inputs := ar_inputs a; ar_accepted := ar_accepted a |}.

(** [UPDATE team_task_step_attempts SET state=... WHERE attempt_id=...]. *)
Definition update_state (id : string) (s : StepAttemptState) (l : list StepAttemptRow) : list StepAttemptRow :=
  map (λ a, if bool_decide (ar_id a = id) then set_state s a else a) l.

Definition attempt_by (ex : TaskExec) (id : string) : option StepAttemptRow :=
  find_first (λ a, bool_decide (ar_id a = id)) (ex_attempts ex).

Definition submission_by (ex : TaskExec) (id : string) : option TaskSubmission :=
  find_first (λ s, bool_decide (su_id s = id)) (ex_submissions ex).

(** The definition of a step in a revision of the plan. *)
Definition plan_definition (d : PlanTables) (taskId : string) (revision : Z) (id : string) : option TaskPlanStep :=
  definition <$> find_first (λ r, in_plan taskId revision r && bool_decide (sr_step r = id)) (step_rows d).

(** ** Frozen inputs *)

(** Step, attempt and the attempt's [accepted_submission_id]. *)
Notation PlanInputSelection := (string * (string * option string))%type.

Record InputLimits : Type := { il_files : Z; il_bytes : Z; il_canonical : Z }.

Definition STEP_INPUT_LIMITS : InputLimits :=
  {| il_files := 128; il_bytes := 64 * 1024 * 1024; il_canonical := 128 * 1024 |}.

Section execution.
Context (localeCompare : string → string → Z) (sha256 : string → string).
(** The bytes of [stableJSON(inputs)]. *)
Context (canonical_bytes : list FrozenPlanInput → Z).

(** The row of the join: the attempt, its definition then and now, its accepted
    submission and the decision on it. *)
Definition accepted_row (d : PlanTables) (ex : TaskExec) (taskId : string) (revision : Z) (step attempt submission : string)
  : option (StepAttemptRow * TaskPlanStep * TaskPlanStep * TaskSubmission * AcceptanceDecision) :=
  match find_first (λ a, bool_decide (ar_id a = attempt) && bool_decide (ar_step a = step)) (ex_attempts ex) with
  | None => None
  | Some a =>
      match plan_definition d taskId (ar_revision a) step, plan_definition d taskId revision step,
            find_first (λ s, bool_decide (su_id s = submission) && bool_decide (su_call s = ar_call a)) (ex_submissions ex) with
      | Some old, Some current, Some s =>
          match ex_decisions ex !! su_id s with
          | Some dec =>
              if bool_decide (ar_accepted a = Some (su_id s)) && bool_decide (ex_call_specs ex !! ar_call a = Some (su_spec s))
                 && (de_spec dec =? su_spec s)
              then Some (a, old, current, s, dec) else None
          | None => None
          end
      | _, _, _ => None
      end
  end.

Definition check_passed (dec : AcceptanceDecision) (s : TaskSubmission) (check : string) : bool :=
  bool_decide (check ∈ de_checks dec)
  && existsb (λ e, bool_decide (ev_check e = check) && bool_decide (ev_result e ∈ ["passed"; "unverified"]%string)) (su_evidence s).

Definition file_intact (ex : TaskExec) (submission : string) (m : Artifact) : bool :=
  match ex_files ex !! (submission, ma_id m) with
  | Some f => negb (sf_revoked f) && (sf_size f =? ma_size m) && bool_decide (sf_sha f = ma_sha m)
              && bool_decide (sf_digest f = ma_sha m)
  | None => false
  end.

Definition freeze_one (d : PlanTables) (ex : TaskExec) (taskId : string) (revision : Z) (sel : PlanInputSelection)
  : team FrozenPlanInput :=
  let '(step, (attempt, submission)) := sel in
  need! delivery_uuid attempt && match submission with Some s => delivery_uuid s | None => false end
  else team_error "invalid_request" "invalid input identity" in
  match accepted_row d ex taskId revision step attempt (default EmptyString submission) with
  | None => inl (team_error "acceptance_required" "dependency needs an accepted delivery from the selected attempt")
  | Some (a, old, current, s, dec) =>
      need! bool_decide (ar_state a = AttemptAccepted) && su_published s && de_accepted dec && su_primary s
      else team_error "acceptance_required" "dependency needs an accepted delivery from the selected attempt" in
      need! bool_decide (stepDigest localeCompare sha256 old = stepDigest localeCompare sha256 current)
      else team_error "revision_conflict" "dependency definition changed across plan revisions" in
      need! (de_reviewer dec =? reviewer_user_id (review_policy old))
            && bool_decide (su_offer s = primary_offer_id (review_policy old))
            && forallb (check_passed dec s) (required_checks (review_policy old))
      else team_error "evidence_required" "accepted input does not satisfy the frozen step policy" in
      need! forallb (file_intact ex (su_id s)) (su_manifest s)
      else team_error "artifact_unavailable" "dependency files are missing, revoked or corrupt" in
      inr {| fi_step := step; fi_attempt := attempt; fi_submission := su_id s; fi_plan_revision := ar_revision a;
             fi_call := ar_call a; fi_version := su_version s; fi_spec_revision := su_spec s; fi_decision := de_id dec;
             fi_reviewer := de_reviewer dec; fi_checks := de_checks dec; fi_artifacts := su_manifest s;
             fi_evidence := su_evidence s |}
  end.

Fixpoint freeze_all (d : PlanTables) (ex : TaskExec) (taskId : string) (revision : Z) (sels : list PlanInputSelection)
  : team (list FrozenPlanInput) :=
  match sels with
  | [] => inr []
  | sel :: sels =>
      get! i := freeze_one d ex taskId revision sel in
      get! rest := freeze_all d ex taskId revision sels in inr (i :: rest)
  end.

Definition freezeAcceptedPlanInputs (d : PlanTables) (ex : TaskExec) (taskId : string) (revision : Z) (stepId : string)
  (sels : list PlanInputSelection) : team (list FrozenPlanInput) :=
  match plan_definition d taskId revision stepId with
  | None => inl (team_error "invalid_request" "step does not belong to this plan revision")
  | Some target =>
      need! (len sels =? len (depends_on target)) && bool_decide (NoDup sels.*1)
            && forallb (λ s, bool_decide (s ∈ depends_on target)) sels.*1
      else team_error "invalid_request" "freeze requires exactly one explicit accepted input per dependency" in
      freeze_all d ex taskId revision (merge_sort (locale_le localeCompare) sels)
  end.

Definition requireBoundedStepInputs (inputs : list FrozenPlanInput) : team unit :=
  let files := flat_map fi_artifacts inputs in
  need! (len files <=? il_files STEP_INPUT_LIMITS)
        && (foldr Z.add 0 (map ma_size files) <=? il_bytes STEP_INPUT_LIMITS)
        && (canonical_bytes inputs <=? il_canonical STEP_INPUT_LIMITS)
  else team_error "input_limit_exceeded" "step inputs exceed the bounded materialization limit" in inr ().

(** ** Budgets *)

Definition call_live (s : CallState) : bool :=
  bool_decide (s ∈ [CallPending; CallDispatched; CallAccepted; CallUncertain]).

Definition attempt_live (s : StepAttemptState) : bool :=
  bool_decide (s ∈ [Reserved; Dispatched; AttemptRunning; Unknown]).

(** [in_flight] of the budget snapshot. *)
Definition in_flight (ex : TaskExec) : Z :=
  len (bfilter (λ a, match ex_calls ex !! ar_call a with
                     | Some c => call_live c | None => attempt_live (ar_state a) end) (ex_attempts ex)).

Definition requireTaskBudgetCapacity (ex : TaskExec) (rt : RuntimeRow) (duration_exhausted : bool) : team unit :=
  need! len (ex_attempts ex) <? rt_limit rt
  else team_error "budget_exhausted" "plan invocation limit exhausted" in
  need! match max_concurrent_calls (rt_budget rt) with Some n => (n =? 0) || (in_flight ex <? n) | None => true end
  else team_error "budget_exhausted" "plan concurrent reservation limit reached" in
  need! negb duration_exhausted
  else team_error "budget_exhausted" "plan duration limit reached; issued Calls are not stopped" in inr ().

(** ** Advancing a plan *)

Record StepEnv : Type := {
  se_enabled : string → bool;
  (** Team, initiator and session, as read before the locks were taken. *)
  se_identity : option (string * Z * string);
  se_view : TeamView;
  (** The task's calls are locked by another transaction. *)
  se_calls_locked : bool;
  (** The binding of a callable offer: session, team, offer. *)
  se_offer : string → string → string → team (option string);
  se_binding_busy : string → bool;
  se_attempt_id : string → string;
  (** [appendMessage] for a step, offer and attempt: the calls it created. *)
  se_append : TaskPlanStep → string → string → team (list string);
  se_exhausted : bool;
  se_exhausted_late : bool
}.

Record RetryRequest : Type := {
  rq_actor : Z;
  rq_attempt : string;
  rq_delivery_revision : Z;
  rq_new_version : option string
}.

Inductive StepAdvanceResult : Type := StepInactive | StepWaiting | StepReconciled | StepReserved (attempt call : string).

(** [ORDER BY step_id, attempt_no DESC]. *)
Definition attempt_le (a b : StepAttemptRow) : Prop :=
  (String.le (ar_step a) (ar_step b) ∧ ar_step a ≠ ar_step b) ∨ (ar_step a = ar_step b ∧ ar_no b ≤ ar_no a).

#[global] Instance attempt_le_dec : RelDecision attempt_le.
Proof. intros a b. unfold attempt_le. apply _. Defined.

Definition sorted_attempts (ex : TaskExec) : list StepAttemptRow := merge_sort attempt_le (ex_attempts ex).

(** The latest attempt of a step. *)
Definition latest (ex : TaskExec) (step : string) : option StepAttemptRow :=
  find_first (λ a, bool_decide (ar_step a = step)) (sorted_attempts ex).

(** The states that the calls of unsettled attempts give them. *)
Definition changes (ex : TaskExec) : list (string * StepAttemptState) :=
  omap (λ a, if attempt_settled (ar_state a) then None
             else match ex_calls ex !! ar_call a with
             | Some c => let s := reconciledAttemptState (ar_state a) c in
                         if bool_decide (s = ar_state a) then None else Some (ar_id a, s)
             | None => None
             end) (sorted_attempts ex).

Definition apply_changes (l : list (string * StepAttemptState)) (ex : TaskExec) : TaskExec :=
  with_attempts ex (fold_left (λ rows c, update_state c.1 c.2 rows) l (ex_attempts ex)).

(** The checks on the attempt a retry names. *)
Definition check_retry (ex : TaskExec) (rq : RetryRequest) : team StepAttemptRow :=
  match attempt_by ex (rq_attempt rq) with
  | None => inl (team_error "revision_conflict" "retry requires the latest step attempt")
  | Some a =>
      need! bool_decide (ar_id <$> latest ex (ar_step a) = Some (rq_attempt rq))
      else team_error "revision_conflict" "retry requires the latest step attempt" in
      match ex_heads ex !! rq_attempt rq with
      | None => inl (team_error "revision_conflict" "step delivery changed before retry")
      | Some head =>
          need! dh_revision head =? rq_delivery_revision rq
          else team_error "revision_conflict" "step delivery changed before retry" in
          let call := ex_calls ex !! ar_call a in
          let completed := bool_decide (call = Some CallCompleted) in
          let dec := match dh_latest head with Some s => ex_decisions ex !! s | None => None end in
          let rejected := completed && bool_decide (ar_state a = AwaitingReview)
            && match dec with Some x => negb (de_accepted x) | None => false end in
          let accepted := completed && bool_decide (ar_state a = AttemptAccepted)
            && bool_decide (ar_accepted a = dh_latest head) && match dec with Some x => de_accepted x | None => false end in
          need! match rq_new_version rq with
                | Some _ => accepted
                | None => negb (bool_decide (ar_state a = AttemptAccepted))
                          && match call with
                             | Some c => bool_decide (c ∈ [CallFailed; CallBlocked; CallCancelled]) || rejected
                             | None => false
                             end
                end
          else team_error "invalid_state"
                 "reconcile the original Call; retry requires a known failure, cancellation or requested changes" in
          need! match call with Some c => bool_decide (reconciledAttemptState (ar_state a) c = ar_state a) | None => false end
          else team_error "invalid_state" "reconcile the original Call before retry" in
          inr a
      end
  end.

(** The steps that may be reserved: without an attempt, or the one to retry,
    and with accepted dependencies. *)
Definition ready_steps (ex : TaskExec) (retried : option StepAttemptRow) (steps : list TaskPlanStep) : list TaskPlanStep :=
  bfilter (λ s, match retried with
                | Some a => bool_decide (step_id s = ar_step a)
                | None => bool_decide (latest ex (step_id s) = None)
                end
                && forallb (λ p, bool_decide (ar_state <$> latest ex p = Some AttemptAccepted)) (depends_on s)) steps.

Record Selected : Type := {
  sl_step : TaskPlanStep;
  sl_offer : string;
  sl_inputs : list FrozenPlanInput;
  sl_attempt : string;
  sl_call : string
}.

Definition error_code (e : TeamError) : string :=
  match e with TeamRepositoryError c _ _ => c | DatabaseError s => s | TypeError => "" end.

(** The errors after which the next candidate is tried. *)
Definition blocked_codes : list string :=
  ["55P03"; "reviewer_required"; "capability_not_supported"; "agent_unavailable"; "artifact_unavailable";
   "acceptance_required"; "evidence_required"; "revision_conflict"; "team_feature_disabled"; "offer_owner_required";
   "no_callable_agent"; "input_limit_exceeded"]%string.

Definition selections (ex : TaskExec) (step : TaskPlanStep) : list PlanInputSelection :=
  map (λ p, (p, match latest ex p with Some a => (ar_id a, ar_accepted a) | None => (EmptyString, None) end)) (depends_on step).

(** One candidate, within its savepoint. *)
Definition step_candidate (env : StepEnv) (d : PlanTables) (ex : TaskExec) (taskId teamId session : string) (revision : Z)
  (step : TaskPlanStep) : team Selected :=
  let w := se_view env in
  let reviewer := reviewer_user_id (review_policy step) in
  need! teamAccountsEnabled w [reviewer]
        && match roles w !! (teamId, reviewer) with Some r => negb (bool_decide (r = "viewer"%string)) | None => false end
  else team_error "reviewer_required" "step reviewer unavailable" in
  get! offer := se_offer env session teamId (primary_offer_id (review_policy step)) in
  match offer with
  | None => inl (team_error "capability_not_supported" "selected Agent cannot execute steps")
  | Some binding =>
      need! negb (se_binding_busy env binding)
      else team_error "agent_unavailable" "selected native session is busy; retry the same wakeup" in
      get! inputs := freezeAcceptedPlanInputs d ex taskId revision (step_id step) (selections ex step) in
      do! requireBoundedStepInputs inputs in
      let attempt := se_attempt_id env (step_id step) in
      get! calls := se_append env step (primary_offer_id (review_policy step)) attempt in
      match calls with
      | [call] => inr {| sl_step := step; sl_offer := primary_offer_id (review_policy step); sl_inputs := inputs;
                         sl_attempt := attempt; sl_call := call |}
      | _ => inl (team_error "" "step requires exactly one Call")
      end
  end.

(** The first candidate that is not blocked, or the last error. *)
Fixpoint select_step (try : TaskPlanStep → team Selected) (steps : list TaskPlanStep) (last : TeamError) : team Selected :=
  match steps with
  | [] => inl last
  | s :: steps =>
      match try s with
      | inr x => inr x
      | inl e => if bool_decide (error_code e ∈ blocked_codes) then select_step try steps e else inl e
      end
  end.

(** [SELECT COALESCE(MAX(revision),0)+1]. *)
Definition next_spec (ex : TaskExec) : Z := foldr Z.max 0 (map fst (map_to_list (ex_specs ex))) + 1.

(** The writes of a reservation, with the unique keys of the attempts, of the
    specification of a call and of the delivery head. *)
Definition reserve_step (revision lease_token actor : Z) (retried : option StepAttemptRow) (x : Selected) (ex : TaskExec)
  : team TaskExec :=
  let step := sl_step x in
  let spec := next_spec ex in
  let no := match retried with Some a => ar_no a + 1 | None => 1 end in
  need! bool_decide (ex_call_specs ex !! sl_call x = None) && bool_decide (ex_heads ex !! sl_attempt x = None)
        && forallb (λ a, negb (bool_decide (ar_id a = sl_attempt x)) && negb (bool_decide (ar_call a = sl_call x))
                         && negb (bool_decide (ar_step a = step_id step) && (ar_no a =? no))) (ex_attempts ex)
  else DatabaseError "23505" in
  inr {|
    ex_runtime := ex_runtime ex;
    ex_attempts := ex_attempts ex ++ [{| ar_id := sl_attempt x; ar_step := step_id step; ar_revision := revision; ar_no := no;
      ar_state := Reserved; ar_call := sl_call x; ar_lease_token := lease_token; ar_inputs := sl_inputs x;
      ar_accepted := None |}];
    ex_calls := <[sl_call x := CallPending]> (ex_calls ex);
    ex_call_specs := <[sl_call x := spec]> (ex_call_specs ex);
    ex_specs := <[spec := {| sp_offer := sl_offer x; sp_reviewer := reviewer_user_id (review_policy step);
                             sp_checks := required_checks (review_policy step); sp_creator := actor |}]> (ex_specs ex);
    ex_heads := <[sl_attempt x := {| dh_spec := spec; dh_revision := 1; dh_latest := None |}]> (ex_heads ex);
    ex_submissions := ex_submissions ex; ex_decisions := ex_decisions ex; ex_files := ex_files ex;
    ex_receipts := ex_receipts ex; ex_task_state := "in_progress";
    ex_events := ex_events ex ++ ["step_reserved"%string] |}.

(** Reserving one of the steps that are ready. *)
Definition reserve_ready (env : StepEnv) (d : PlanTables) (taskId teamId session : string) (lease_token actor : Z)
  (rt : RuntimeRow) (rq : option RetryRequest) (ex : TaskExec) : team (TaskExec * StepAdvanceResult) :=
  match revisions d !! (taskId, rt_plan_revision rt) with
  | None => inl TypeError
  | Some plan =>
      need! bool_decide (pr_session plan = session) else team_error "revision_conflict" "plan session changed" in
      let steps := map definition (plan_rows d taskId (rt_plan_revision rt)) in
      get! retried := match rq with Some r => get! a := check_retry ex r in inr (Some a) | None => inr None end in
      match ready_steps ex retried steps with
      | [] =>
          match rq with
          | Some _ => inl (team_error "acceptance_required" "retry dependencies are not accepted")
          | None => inr (ex, StepWaiting)
          end
      | ready =>
          do! requireTaskBudgetCapacity ex rt (se_exhausted env) in
          get! x := select_step (step_candidate env d ex taskId teamId session (rt_plan_revision rt)) ready TypeError in
          get! ex' := reserve_step (rt_plan_revision rt) lease_token actor retried x ex in
          need! negb (se_exhausted_late env)
          else team_error "budget_exhausted" "plan duration limit reached; issued Calls are not stopped" in
          inr (ex', StepReserved (sl_attempt x) (sl_call x))
      end
  end.

(** [advance]. *)
Definition advance (env : StepEnv) (d : PlanTables) (taskId : string) (lease_token : Z) (rq : option RetryRequest)
  (ex : TaskExec) : team (TaskExec * StepAdvanceResult) :=
  match se_identity env with
  | None => inr (ex, StepInactive)
  | Some (teamId, initiator, session) =>
      let w := se_view env in
      if negb (se_enabled env teamId) then inr (ex, StepInactive)
      else
        let actor := match rq with Some r => rq_actor r | None => initiator end in
        do! requireTeamAccess w actor in
        match tasks w !! taskId, roles w !! (teamId, actor) with
        | Some task, Some role =>
            need! bool_decide (teamId ∈ active_teams w) && may_write role task actor
            else team_error "creator_required" "plan initiator is no longer authorized" in
            match ex_runtime ex, sessions w !! session with
            | Some rt, Some sess =>
                need! bool_decide (rq ≠ None) || (rt_initiator rt =? actor)
                else team_error "revision_conflict" "plan controller changed; re-read before advancing" in
                if negb (bool_decide (ex_task_state ex ∈ ["open"; "in_progress"]%string)) || negb (session_active sess)
                then inr (ex, StepInactive)
                else
                  need! bool_decide ((session, actor) ∈ participants w)
                  else team_error "participant_required" "plan initiator left the session" in
                  need! negb (se_calls_locked env) else DatabaseError "55P03" in
                  if negb (bool_decide (changes ex = [])) && bool_decide (rq = None)
                  then inr (apply_changes (changes ex) ex, StepReconciled)
                  else if negb (bool_decide (rt_state rt = RuntimeActive)) then inr (ex, StepInactive)
                  else reserve_ready env d taskId teamId session lease_token actor rt rq ex
            | _, _ => inl TypeError
            end
        | _, _ => inl (team_error "creator_required" "plan initiator is no longer authorized")
        end
  end.

(** [process]: a locked call is a busy source. *)
Definition process_step (env : StepEnv) (d : PlanTables) (taskId : string) (lease_token : Z) (ex : TaskExec)
  : team (TaskExec * StepAdvanceResult) :=
  match advance env d taskId lease_token None ex with
  | inl e => if bool_decide (error_code e = "55P03"%string)
             then inl (team_error "source_busy" "step source is busy; retry the original wakeup") else inl e
  | r => r
  end.
End execution.

(** ** Delivering a step *)

Record DeliveryEnv : Type := {
  dv_view : TeamView;
  dv_writes : string → bool;
  dv_step_writes : string → bool;
  (** [requireDeliverySource] for the source call. *)
  dv_source : string → team unit;
  dv_decision_id : string
}.

(** [task(client, taskId, actor, true)] for an attempt. *)
Definition delivery_access (env : DeliveryEnv) (taskId attemptId : string) (actor : Z) (ex : TaskExec) : team unit :=
  let w := dv_view env in
  do! requireTeamAccess w actor in
  match tasks w !! taskId with
  | None => inl not_found
  | Some task =>
      match roles w !! (task_team task, actor) with
      | None => inl not_found
      | Some role =>
          need! bool_decide (task_team task ∈ active_teams w) else not_found in
          need! negb (bool_decide (role = "viewer"%string)) else team_error "team_access_denied" "read-only Team member" in
          need! dv_writes env (task_team task)
          else team_error "team_feature_disabled" "task delivery writes disabled for this Team" in
          need! dv_step_writes env (task_team task)
          else team_error "team_feature_disabled" "step delivery writes disabled for this Team" in
          need! negb (bool_decide (ex_task_state ex = "deleted"%string)) else not_found in
          need! bool_decide (is_Some (attempt_by ex attemptId)) else team_error "team_not_found" "step attempt not found" in
          inr ()
      end
  end.

(** [requireActiveAttempt]: only the latest attempt of a step takes deliveries. *)
Definition requireActiveAttempt (acceptance : bool) (attemptId : string) (ex : TaskExec) : team unit :=
  match attempt_by ex attemptId with
  | None => inl (team_error "invalid_state" "step attempt cannot accept new delivery writes in its current state")
  | Some a =>
      need! bool_decide (ar_state a ∈ if acceptance then [AwaitingReview] else [Reserved; Dispatched; AttemptRunning; AwaitingReview])
      else team_error "invalid_state" "step attempt cannot accept new delivery writes in its current state" in
      need! negb (existsb (λ b, bool_decide (ar_step b = ar_step a) && (ar_no a <? ar_no b)) (ex_attempts ex))
      else team_error "invalid_state" "superseded step attempt retains history only" in inr ()
  end.

(** [requireCallScope]. *)
Definition call_in_scope (attemptId : string) (ex : TaskExec) (s : TaskSubmission) : bool :=
  bool_decide (ar_id <$> find_first (λ a, bool_decide (ar_call a = su_call s)) (ex_attempts ex) = Some attemptId).

Definition scoped_submission (attemptId submissionId : string) (ex : TaskExec) : team TaskSubmission :=
  match submission_by ex submissionId with
  | None => inl (team_error "team_not_found" "submission not found")
  | Some s =>
      need! call_in_scope attemptId ex s
      else team_error "invalid_request" "delivery Call belongs to a different execution scope" in inr s
  end.

Definition file_available (ex : TaskExec) (s : TaskSubmission) (id : string) : bool :=
  match find_first (λ m, bool_decide (ma_id m = id)) (su_manifest s), ex_files ex !! (su_id s, id) with
  | Some m, Some f => negb (sf_revoked f) && (sf_size f =? ma_size m) && bool_decide (sf_digest f = ma_sha m)
  | _, _ => false
  end.

Definition artifact_unavailable : TeamError :=
  team_error "artifact_unavailable" "required artifact missing, revoked or corrupt".

(** The delivery tables of the task after a change of an attempt's delivery. *)
Definition delivered (ex : TaskExec) (attempts : list StepAttemptRow) (subs : list TaskSubmission)
  (decs : gmap string AcceptanceDecision) (heads : gmap string DeliveryHead) (state : string) (event : string) : TaskExec := {|
  ex_runtime := ex_runtime ex; ex_attempts := attempts; ex_calls := ex_calls ex; ex_call_specs := ex_call_specs ex;
  ex_specs := ex_specs ex; ex_heads := heads; ex_submissions := subs; ex_decisions := decs; ex_files := ex_files ex;
  ex_receipts := ex_receipts ex; ex_task_state := state; ex_events := ex_events ex ++ [event] |}.

Definition publish_submission (version : Z) (s : TaskSubmission) : TaskSubmission := {|
  su_id := su_id s; su_call := su_call s; su_spec := su_spec s; su_published := true; su_primary := su_primary s;
  su_offer := su_offer s; su_version := version; su_owner := su_owner s; su_manifest := su_manifest s;
  su_evidence := su_evidence s |}.

(** The body of [publish]. *)
Definition publish_body (env : DeliveryEnv) (actor : Z) (attemptId submissionId : string) (head : DeliveryHead) (ex : TaskExec)
  : team (TaskExec * DeliveryReply) :=
  get! s := scoped_submission attemptId submissionId ex in
  need! su_owner s =? actor else team_error "offer_owner_required" "submission owner required" in
  need! negb (su_published s) && (su_spec s =? dh_spec head)
  else TeamRepositoryError "revision_conflict" "submission is published or specification changed" (Some (dh_revision head)) in
  do! dv_source env (su_call s) in
  need! negb (su_primary s && match dh_latest head with
                              | Some l => match ex_decisions ex !! l with
                                          | Some dec => de_accepted dec && (de_spec dec =? dh_spec head) | None => false end
                              | None => false end)
  else team_error "invalid_state" "accepted main delivery cannot be replaced implicitly" in
  need! forallb (λ m, file_available ex s (ma_id m)) (su_manifest s) else artifact_unavailable in
  let version := foldr Z.max 0 (map su_version (ex_submissions ex)) + 1 in
  inr (delivered ex (update_state attemptId AwaitingReview (ex_attempts ex))
         (map (λ x, if bool_decide (su_id x = submissionId) then publish_submission version x else x) (ex_submissions ex))
         (ex_decisions ex)
         (<[attemptId := {| dh_spec := dh_spec head; dh_revision := dh_revision head + 1;
                            dh_latest := if su_primary s then Some submissionId else dh_latest head |}]> (ex_heads ex))
         "in_progress" "submission_published",
       ReplyPublished submissionId version (dh_revision head + 1)).

Record AcceptanceInput : Type := {
  ai_submission : string;
  ai_spec : Z;
  ai_accepted : bool;
  ai_checks : list string
}.

Definition accept_attempt (submission : string) (a : StepAttemptRow) : StepAttemptRow := {|
  ar_id := ar_id a; ar_step := ar_step a; ar_revision := ar_revision a; ar_no := ar_no a; ar_state := AttemptAccepted;
  ar_call := ar_call a; ar_lease_token := ar_lease_token a + 1; ar_inputs := ar_inputs a; ar_accepted := Some submission |}.

(** The evidence of a required check, and the files it and the delivery need. *)
Definition evidence_for (s : TaskSubmission) (check : string) : option Evidence :=
  find_first (λ e, bool_decide (ev_check e = check)) (su_evidence s).

Definition acceptance_checks (spec : SpecRow) (s : TaskSubmission) (input : AcceptanceInput) (ex : TaskExec) : team unit :=
  need! (len (ai_checks input) =? len (sp_checks spec)) && forallb (λ c, bool_decide (c ∈ ai_checks input)) (sp_checks spec)
  else team_error "evidence_required" "reviewer must explicitly verify every required check" in
  need! forallb (λ c, match evidence_for s c with
                      | Some e => negb (bool_decide (ev_result e = "failed"%string)) | None => false end) (sp_checks spec)
  else team_error "evidence_required" "required check has missing or failed evidence" in
  need! forallb (λ m, file_available ex s (ma_id m)) (bfilter ma_required (su_manifest s))
        && forallb (λ c, match evidence_for s c with Some e => file_available ex s (ev_artifact e) | None => true end)
             (sp_checks spec)
  else artifact_unavailable in inr ().

(** The body of [decide]. *)
Definition decide_body (env : DeliveryEnv) (actor : Z) (attemptId : string) (input : AcceptanceInput) (head : DeliveryHead)
  (ex : TaskExec) : team (TaskExec * DeliveryReply) :=
  need! (ai_spec input =? dh_spec head) && bool_decide (dh_latest head = Some (ai_submission input))
  else TeamRepositoryError "revision_conflict" "only the current delivery and specification can be reviewed"
         (Some (dh_revision head)) in
  match ex_specs ex !! dh_spec head with
  | None => inl TypeError
  | Some spec =>
      need! sp_reviewer spec =? actor else team_error "reviewer_required" "current designated reviewer required" in
      get! s := scoped_submission attemptId (ai_submission input) ex in
      need! su_published s && (su_spec s =? dh_spec head)
      else TeamRepositoryError "revision_conflict" "submission specification changed" (Some (dh_revision head)) in
      need! bool_decide (ex_decisions ex !! ai_submission input = None)
      else team_error "invalid_state" "submission already reviewed; submit a new version" in
      do! if ai_accepted input then acceptance_checks spec s input ex else inr () in
      inr (delivered ex
             (if ai_accepted input
              then map (λ a, if bool_decide (ar_id a = attemptId) then accept_attempt (ai_submission input) a else a) (ex_attempts ex)
              else ex_attempts ex)
             (ex_submissions ex)
             (<[ai_submission input := {| de_id := dv_decision_id env; de_accepted := ai_accepted input;
                                          de_spec := dh_spec head; de_reviewer := actor; de_checks := ai_checks input |}]>
               (ex_decisions ex))
             (<[attemptId := {| dh_spec := dh_spec head; dh_revision := dh_revision head + 1; dh_latest := dh_latest head |}]>
               (ex_heads ex))
             (ex_task_state ex) "acceptance_decided",
           ReplyDecided (dv_decision_id env) (ai_submission input) (ai_accepted input) (dh_revision head + 1))
  end.

Definition with_receipt (ex : TaskExec) (key : Z * string) (hash : string) (reply : DeliveryReply) : TaskExec := {|
  ex_runtime := ex_runtime ex; ex_attempts := ex_attempts ex; ex_calls := ex_calls ex; ex_call_specs := ex_call_specs ex;
  ex_specs := ex_specs ex; ex_heads := ex_heads ex; ex_submissions := ex_submissions ex; ex_decisions := ex_decisions ex;
  ex_files := ex_files ex; ex_receipts := <[key := (hash, reply)]> (ex_receipts ex);
  ex_task_state := ex_task_state ex; ex_events := ex_events ex |}.

Record DeliveryMutation : Type := { dm_request_id : string; dm_expected_revision : Z; dm_hash : string }.

(** [mutate]; [dm_hash] is the fingerprint of operation, input and attempt. *)
Definition mutate_step (env : DeliveryEnv) (acceptance : bool) (taskId attemptId : string) (actor : Z) (m : DeliveryMutation)
  (run : DeliveryHead → TaskExec → team (TaskExec * DeliveryReply)) (ex : TaskExec) : team (TaskExec * DeliveryReply) :=
  get! request := boundedText (JStr (dm_request_id m)) "request_id" 128 false in
  get! revision := positiveRevision (JNum (dm_expected_revision m)) in
  do! delivery_access env taskId attemptId actor ex in
  match ex_receipts ex !! (actor, dm_request_id m) with
  | Some (hash, reply) =>
      need! bool_decide (hash = dm_hash m)
      else team_error "idempotency_conflict" "request ID reused with different content" in inr (ex, reply)
  | None =>
      need! bool_decide (ex_task_state ex ∈ ["open"; "in_progress"]%string)
      else team_error "invalid_state" "restore or reopen task before editing delivery" in
      do! requireActiveAttempt acceptance attemptId ex in
      match ex_heads ex !! attemptId with
      | None => inl (team_error "capability_not_supported" "task has no delivery contract")
      | Some head =>
          need! dh_revision head =? dm_expected_revision m
          else TeamRepositoryError "revision_conflict" "delivery revision changed" (Some (dh_revision head)) in
          get! r := run head ex in
          inr (with_receipt r.1 (actor, dm_request_id m) (dm_hash m) r.2, r.2)
      end
  end.

Definition publish_step (env : DeliveryEnv) (taskId attemptId : string) (actor : Z) (submissionId : string)
  (m : DeliveryMutation) (ex : TaskExec) : team (TaskExec * DeliveryReply) :=
  mutate_step env false taskId attemptId actor m (publish_body env actor attemptId submissionId) ex.

Definition decide_step (env : DeliveryEnv) (taskId attemptId : string) (actor : Z) (input : AcceptanceInput)
  (m : DeliveryMutation) (ex : TaskExec) : team (TaskExec * DeliveryReply) :=
  mutate_step env true taskId attemptId actor m (decide_body env actor attemptId input) ex.
