(* ===== verification/PlanControl.v ===== *)
(** * PlanControl: activating, pausing, adopting, cancelling and recovering a plan
    (relay/src/team/plan-execution-service.ts).

    [control] is one transaction under the locks of the session and the task.
    Its receipts make a repeated request answer as before.  Reading functions
    without effect are left out. *)

From S2P Require Import Prelude JsValue JsMap JsonRoundTrip FeedCursor DeliveryContract TaskPlan PlanService StepExecution.

#[local] Open Scope Z_scope.
#[local] Open Scope team_scope.

Inductive ControlAction : Type :=
| Activate | Pause | Resume | AdoptRevision | CancelPlan | Retry | Reconcile | NewVersion.

#[global] Instance control_action_eq : EqDecision ControlAction.
Proof. solve_decision. Defined.

Record PlanControlInput : Type := {
  ci_request_id : string;
  ci_expected_revision : Z;
  ci_plan_revision : Z;
  ci_action : ControlAction;
  ci_invocation_limit : option Z;
  ci_budget : option TaskBudgetPolicy;
  ci_attempt_id : option string;
  ci_delivery_revision : option Z;
  ci_reason : option string
}.

(** What a recovery did. *)
Inductive Recovery : Type :=
| RecoveredRetry (previous attempt call : string)
| RecoveredState (attempt call : string) (call_state : CallState) (state : StepAttemptState).

Record ControlResponse : Type := {
  cr_revision : Z;
  cr_plan_revision : Z;
  cr_state : RuntimeState;
  cr_limit : Z;
  cr_budget : TaskBudgetPolicy;
  cr_recovery : option Recovery
}.

(** The execution tables of a task with the receipts of its control requests:
    actor and request. *)
Record PlanExec : Type := {
  pe_exec : TaskExec;
  pe_receipts : gmap (Z * string) (string * ControlResponse)
}.

(** ** Input checks *)

Definition limit_ok (max : Z) (v : option Z) : bool :=
  match v with Some z => is_safe_integer z && (1 <=? z) && (z <=? max) | None => true end.

Definition validateTaskBudget (p : TaskBudgetPolicy) : bool :=
  limit_ok 32 (max_concurrent_calls p) && limit_ok 604800 (max_duration_seconds p)
  && limit_ok 1000000000000 (token_warning_limit p).

Definition step_action (a : ControlAction) : bool := bool_decide (a ∈ [Retry; Reconcile; NewVersion]).

Definition control_invalid (message : string) : TeamError := team_error "invalid_request" message.

(** A field is given exactly for the actions that take it. *)
Definition given {A} (needed : bool) (v : option A) (ok : A → bool) : bool :=
  match v with Some x => needed && ok x | None => negb needed end.

Definition check_control (taskId : string) (i : PlanControlInput) : team unit :=
  let a := ci_action i in
  get! task := boundedText (JStr taskId) "task_id" 128 false in
  get! request := boundedText (JStr (ci_request_id i)) "request_id" 128 false in
  need! is_safe_integer (ci_expected_revision i) && (0 <=? ci_expected_revision i)
        && is_safe_integer (ci_plan_revision i) && (1 <=? ci_plan_revision i)
  else control_invalid "invalid plan control request" in
  need! given (bool_decide (a = Activate)) (ci_invocation_limit i) (λ n, limit_ok 128 (Some n))
  else control_invalid "activation requires an explicit invocation limit; later controls cannot reset it" in
  need! match ci_budget i with Some _ => bool_decide (a = Activate) | None => true end
  else control_invalid "an activated plan budget cannot be reset" in
  need! match ci_budget i with Some p => validateTaskBudget p | None => true end
  else control_invalid "invalid task budget limit" in
  do! match ci_reason i with
      | Some r => if bool_decide (a = NewVersion)
                  then get! t := boundedText (JStr r) "reason" 1000 false in inr ()
                  else inl (control_invalid "reason is only valid for new versions")
      | None => if bool_decide (a = NewVersion) then inl (control_invalid "reason is invalid") else inr ()
      end in
  need! given (step_action a) (ci_attempt_id i) is_uuid
  else control_invalid "step recovery requires an exact attempt identity" in
  need! given (bool_decide (a ∈ [Retry; NewVersion])) (ci_delivery_revision i) (λ n, is_safe_integer n && (1 <=? n))
  else control_invalid "retry requires the current step delivery revision" in
  inr ().

Section control.
Context (localeCompare : string → string → Z) (sha256 : string → string).
Context (canonical_bytes : list FrozenPlanInput → Z).
(** [stableDigest(input)]. *)
Context (control_hash : PlanControlInput → string).

Record ControlEnv : Type := {
  (** What [advance] meets when it is called within the transaction. *)
  ce_step : StepEnv;
  (** The call of an attempt is locked by another transaction. *)
  ce_call_locked : bool;
  (** Agents that can execute steps: session, team, offer. *)
  ce_available : string → string → string → bool
}.

(** The identity [advance] reads: the locks are held already. *)
Definition identity_of (w : TeamView) (d : PlanTables) (taskId : string) (ex : TaskExec) : option (string * Z * string) :=
  match ex_runtime ex, tasks w !! taskId with
  | Some rt, Some task =>
      match revisions d !! (taskId, rt_plan_revision rt) with
      | Some plan => Some (task_team task, rt_initiator rt, pr_session plan)
      | None => None
      end
  | _, _ => None
  end.

Definition locked_env (env : StepEnv) (d : PlanTables) (taskId : string) (ex : TaskExec) : StepEnv := {|
  se_enabled := se_enabled env; se_identity := identity_of (se_view env) d taskId ex; se_view := se_view env;
  se_calls_locked := se_calls_locked env; se_offer := se_offer env; se_binding_busy := se_binding_busy env;
  se_attempt_id := se_attempt_id env; se_append := se_append env; se_exhausted := se_exhausted env;
  se_exhausted_late := se_exhausted_late env |}.

(** *** Recovery of a step *)

Definition control_retry (env : ControlEnv) (d : PlanTables) (taskId : string) (actor : Z) (i : PlanControlInput)
  (attempt : string) (sess : SessionRow) (rt : RuntimeRow) (teamId : string) (ex : TaskExec) : team (TaskExec * Recovery) :=
  let senv := ce_step env in
  need! se_enabled senv teamId else team_error "team_feature_disabled" "plan execution disabled" in
  need! bool_decide (rt_state rt = RuntimeActive) && bool_decide (ex_task_state ex ∈ ["open"; "in_progress"]%string)
        && session_active sess
  else team_error "invalid_state" "retry requires active task, session and plan" in
  get! r := advance localeCompare sha256 canonical_bytes (locked_env senv d taskId ex) d taskId 0
    (Some {| rq_actor := actor; rq_attempt := attempt; rq_delivery_revision := default 0 (ci_delivery_revision i);
             rq_new_version := if bool_decide (ci_action i = NewVersion) then ci_reason i else None |}) ex in
  match r.2 with
  | StepReserved a call => inr (r.1, RecoveredRetry attempt a call)
  | _ => inl (team_error "invalid_state" "step retry did not reserve_step work")
  end.

Definition control_reconcile (env : ControlEnv) (attempt : string) (ex : TaskExec) : team (TaskExec * Recovery) :=
  match attempt_by ex attempt with
  | None => inl (team_error "team_not_found" "step attempt not found")
  | Some a =>
      need! negb (ce_call_locked env) else DatabaseError "55P03" in
      match ex_calls ex !! ar_call a with
      | None => inl (team_error "invalid_state" "original step Call is unavailable")
      | Some c =>
          let s := reconciledAttemptState (ar_state a) c in
          inr (if bool_decide (s = ar_state a) then ex else with_attempts ex (update_state (ar_id a) s (ex_attempts ex)),
               RecoveredState (ar_id a) (ar_call a) c s)
      end
  end.

(** *** Enabling work *)

Definition started_definitions (d : PlanTables) (taskId : string) (ex : TaskExec) : list (string * TaskPlanStep) :=
  omap (λ a, pair (ar_step a) <$> plan_definition d taskId (ar_revision a) (ar_step a)) (ex_attempts ex).

Definition writable (w : TeamView) (teamId : string) (user : Z) : bool :=
  match roles w !! (teamId, user) with Some r => negb (bool_decide (r = "viewer"%string)) | None => false end.

Definition check_enable (env : ControlEnv) (d : PlanTables) (taskId : string) (actor : Z) (i : PlanControlInput)
  (plan : PlanRevision) (sess : SessionRow) (rt : option RuntimeRow) (teamId : string) (ex : TaskExec) : team unit :=
  let w := se_view (ce_step env) in
  need! se_enabled (ce_step env) teamId else team_error "team_feature_disabled" "plan execution disabled" in
  need! bool_decide (ex_task_state ex ∈ ["open"; "in_progress"]%string) && session_active sess
  else team_error "invalid_state" "task and session must be active" in
  need! bool_decide ((pr_session plan, actor) ∈ participants w)
  else team_error "participant_required" "active session participant required" in
  need! bool_decide (ci_action i = Resume) || bool_decide (heads d !! taskId = Some (ci_plan_revision i))
  else team_error "revision_conflict" "activate the current draft revision explicitly" in
  need! match rt with
        | Some r => (rt_plan_revision r =? ci_plan_revision i)
            || bool_decide (pr_session <$> revisions d !! (taskId, rt_plan_revision r) = Some (pr_session plan))
        | None => true
        end
  else control_invalid "an active plan cannot migrate shared sessions" in
  need! bool_decide (delivery_specs w !! taskId = Some (pr_spec_revision plan))
  else team_error "revision_conflict" "task specification changed since plan save" in
  need! current_context_version sess =? pr_context_version plan
  else team_error "context_revision_conflict" "shared Context changed since plan save" in
  let steps := map definition (plan_rows d taskId (ci_plan_revision i)) in
  do! requireUnchangedStartedSteps localeCompare sha256 steps (started_definitions d taskId ex) in
  let reviewers := remove_dups (map (λ s, reviewer_user_id (review_policy s)) steps) in
  need! teamAccountsEnabled w reviewers else team_error "reviewer_required" "reviewer unavailable" in
  need! forallb (writable w teamId) reviewers
  else team_error "reviewer_required" "reviewer must be a writable Team member" in
  need! forallb (λ s, ce_available env (pr_session plan) teamId (primary_offer_id (review_policy s))) steps
  else team_error "capability_not_supported" "each selected Agent must support step execution" in
  let unstarted := bfilter (λ s, negb (existsb (λ a, bool_decide (ar_step a = step_id s)) (ex_attempts ex))) steps in
  let limit := match rt with Some r => rt_limit r | None => default 0 (ci_invocation_limit i) end in
  need! len (ex_attempts ex) + len unstarted <=? limit
  else team_error "budget_exhausted" "plan invocation limit cannot cover the planned work" in
  need! negb (bool_decide (ci_action i = Activate) && existsb (λ c, call_live c.2) (map_to_list (ex_calls ex)))
  else team_error "invalid_state" "reconcile outstanding execution before activation" in
  inr ().

(** *** The request *)

Definition no_budget : TaskBudgetPolicy :=
  {| max_concurrent_calls := None; max_duration_seconds := None; token_warning_limit := None |}.

Definition with_runtime (ex : TaskExec) (rt : RuntimeRow) : TaskExec := {|
  ex_runtime := Some rt; ex_attempts := ex_attempts ex; ex_calls := ex_calls ex; ex_call_specs := ex_call_specs ex;
  ex_specs := ex_specs ex; ex_heads := ex_heads ex; ex_submissions := ex_submissions ex; ex_decisions := ex_decisions ex;
  ex_files := ex_files ex; ex_receipts := ex_receipts ex; ex_task_state := ex_task_state ex;
  ex_events := ex_events ex ++ ["plan_control_changed"%string] |}.

Definition enables_work (a : ControlAction) : bool := bool_decide (a ∈ [Activate; Resume; AdoptRevision]).

Definition next_state (a : ControlAction) (rt : option RuntimeRow) : RuntimeState :=
  if step_action a then match rt with Some r => rt_state r | None => RuntimeActive end
  else match a with
  | CancelPlan => RuntimeCancelled
  | Pause | AdoptRevision => RuntimePaused
  | _ => RuntimeActive
  end.

(** The state tests before any effect. *)
Definition check_state (i : PlanControlInput) (rt : option RuntimeRow) : team unit :=
  let a := ci_action i in
  let revision := match rt with Some r => rt_revision r | None => 0 end in
  need! revision =? ci_expected_revision i
  else TeamRepositoryError "revision_conflict" "plan execution control changed" (Some revision) in
  need! if bool_decide (a = Activate) then bool_decide (rt = None) else bool_decide (is_Some rt)
  else team_error "invalid_state" "plan activation state does not match request" in
  need! match rt with Some r => negb (bool_decide (rt_state r = RuntimeCancelled)) || bool_decide (a = Reconcile) | None => true end
  else team_error "invalid_state" "cancelled plan execution cannot be resumed" in
  need! match rt with
        | Some r => bool_decide (a = AdoptRevision) || (rt_plan_revision r =? ci_plan_revision i) | None => true end
  else team_error "revision_conflict" "active plan revision changed" in
  need! match rt with
        | Some r => negb (bool_decide (a = Pause) && negb (bool_decide (rt_state r = RuntimeActive)))
                    && negb (bool_decide (a ∈ [Resume; AdoptRevision]) && negb (bool_decide (rt_state r = RuntimePaused)))
        | None => true
        end
  else team_error "invalid_state" "pause or resume boundary changed" in
  inr ().

Definition control_new (env : ControlEnv) (d : PlanTables) (taskId : string) (actor : Z) (i : PlanControlInput)
  (plan : PlanRevision) (sess : SessionRow) (teamId : string) (pe : PlanExec) : team (PlanExec * ControlResponse) :=
  let ex := pe_exec pe in
  let rt := ex_runtime ex in
  let a := ci_action i in
  do! check_state i rt in
  get! recovered := match rt, ci_attempt_id i with
    | Some r, Some attempt =>
        if bool_decide (a = Reconcile) then get! x := control_reconcile env attempt ex in inr (x.1, Some x.2)
        else get! x := control_retry env d taskId actor i attempt sess r teamId ex in inr (x.1, Some x.2)
    | _, _ => inr (ex, None)
    end in
  do! if enables_work a then check_enable env d taskId actor i plan sess rt teamId ex else inr () in
  let limit := match rt with Some r => rt_limit r | None => default 0 (ci_invocation_limit i) end in
  let budget := match rt with Some r => rt_budget r | None => default no_budget (ci_budget i) end in
  let rt' := {|
    rt_plan_revision := ci_plan_revision i;
    rt_revision := match rt with Some r => rt_revision r + 1 | None => 1 end;
    rt_state := next_state a rt;
    rt_initiator := match rt with Some r => if step_action a then rt_initiator r else actor | None => actor end;
    rt_limit := limit; rt_budget := budget |} in
  let resp := {| cr_revision := rt_revision rt'; cr_plan_revision := ci_plan_revision i; cr_state := rt_state rt';
                 cr_limit := limit; cr_budget := budget; cr_recovery := recovered.2 |} in
  inr ({| pe_exec := with_runtime recovered.1 rt';
          pe_receipts := <[(actor, ci_request_id i) := (control_hash i, resp)]> (pe_receipts pe) |}, resp).

(** [control] without the mapping of a busy call to [source_busy]. *)
Definition control_body (env : ControlEnv) (d : PlanTables) (taskId : string) (actor : Z) (i : PlanControlInput) (pe : PlanExec)
  : team (PlanExec * ControlResponse) :=
  let w := se_view (ce_step env) in
  do! check_control taskId i in
  do! requireTeamAccess w actor in
  match tasks w !! taskId with
  | None => inl not_found
  | Some task =>
      let teamId := task_team task in
      match roles w !! (teamId, actor) with
      | None => inl not_found
      | Some role =>
          need! bool_decide (teamId ∈ active_teams w) else not_found in
          match revisions d !! (taskId, ci_plan_revision i) with
          | None => inl (team_error "team_not_found" "plan not found")
          | Some plan =>
              match sessions w !! pr_session plan with
              | None => inl not_found
              | Some sess =>
                  need! bool_decide (session_team sess = teamId)
                        && negb (bool_decide (ex_task_state (pe_exec pe) = "deleted"%string)) else not_found in
                  need! may_write role task actor
                  else team_error "creator_required" "task creator or Team admin required" in
                  match pe_receipts pe !! (actor, ci_request_id i) with
                  | Some (hash, resp) =>
                      need! bool_decide (hash = control_hash i)
                      else team_error "idempotency_conflict" "request ID reused" in inr (pe, resp)
                  | None => control_new env d taskId actor i plan sess teamId pe
                  end
              end
          end
      end
  end.

Definition control (env : ControlEnv) (d : PlanTables) (taskId : string) (actor : Z) (i : PlanControlInput) (pe : PlanExec)
  : team (PlanExec * ControlResponse) :=
  match control_body env d taskId actor i pe with
  | inl e => if bool_decide (error_code e = "55P03"%string)
             then inl (team_error "source_busy" "original Call is busy; retry the same control request") else inl e
  | r => r
  end.
End control.
