(* ===== verification/StepExecutionSpec.v ===== *)
(** * StepExecutionSpec: what holds while a plan is carried out

    Workers advance the plan, users control it, agents deliver and reviewers
    decide, in any order, while calls, files, submissions and drafts change
    under them. *)

From stdpp Require Import relations.
From S2P Require Import Prelude JsValue JsMap JsonRoundTrip FeedCursor FeedDelivery DeliveryContract TaskPlan PlanService PlanServiceSpec StepExecution PlanControl.

#[local] Open Scope Z_scope.
#[local] Open Scope team_scope.

Section spec.
Context (localeCompare : string → string → Z) (sha256 : string → string).
Context (canonical_bytes : list FrozenPlanInput → Z) (control_hash : PlanControlInput → string).
Context (taskId : string).

(** ** Worlds *)

Record ExecWorld : Type := { xw_plans : PlanTables; xw_exec : PlanExec }.

Definition set_exec (w : ExecWorld) (ex : TaskExec) : ExecWorld :=
  {| xw_plans := xw_plans w; xw_exec := {| pe_exec := ex; pe_receipts := pe_receipts (xw_exec w) |} |}.

(** Revisions of a plan are never changed. *)
Definition plans_grow (d d' : PlanTables) : Prop :=
  ∀ revision step def, plan_definition d taskId revision step = Some def → plan_definition d' taskId revision step = Some def.

Inductive exec_step (w : ExecWorld) : ExecWorld → Prop :=
| xs_advance env token ex' r :
    process_step localeCompare sha256 canonical_bytes env (xw_plans w) taskId token (pe_exec (xw_exec w)) = inr (ex', r) →
    exec_step w (set_exec w ex')
| xs_control env actor i pe' r :
    control localeCompare sha256 canonical_bytes control_hash env (xw_plans w) taskId actor i (xw_exec w) = inr (pe', r) →
    exec_step w {| xw_plans := xw_plans w; xw_exec := pe' |}
| xs_publish env attempt actor submission m ex' r :
    publish_step env taskId attempt actor submission m (pe_exec (xw_exec w)) = inr (ex', r) →
    exec_step w (set_exec w ex')
| xs_decide env attempt actor input m ex' r :
    decide_step env taskId attempt actor input m (pe_exec (xw_exec w)) = inr (ex', r) →
    exec_step w (set_exec w ex')
| xs_other ex' :
    ex_runtime ex' = ex_runtime (pe_exec (xw_exec w)) → ex_attempts ex' = ex_attempts (pe_exec (xw_exec w)) →
    exec_step w (set_exec w ex')
| xs_drafts d' : plans_grow (xw_plans w) d' → exec_step w {| xw_plans := d'; xw_exec := xw_exec w |}.

(** Saving a draft only adds a revision, so it is such a step. *)
Lemma find_first_app {A} (p : A → bool) l k x : find_first p l = Some x → find_first p (l ++ k) = Some x.
Proof. induction l as [|y l IH]; simpl; [done|]. by destruct (p y). Qed.

Lemma save_grows writes view commit d t actor v r d' :
  saveDraft localeCompare sha256 writes view commit d t actor v = Some (r, d') → plans_grow d d'.
Proof.
  intros H. assert (Hrows : ∃ rows, step_rows d' = step_rows d ++ rows).
  { apply save_outcome in H as [->|[resp H]]; [exists []; by rewrite app_nil_r|].
    apply save_cases in H as (input & steps & _ & H). destruct (plan_receipts d !! _).
    - destruct H as (_ & _ & ->). exists []. by rewrite app_nil_r.
    - destruct (saved_tables _ _ _ _ _ _ _ _ _ H) as (plan & rows & _ & _ & _ & _ & _ & ->). by eexists. }
  destruct Hrows as [rows Hrows]. intros revision step def. unfold plan_definition. rewrite Hrows.
  intros (x & Hx & ->)%fmap_Some. by rewrite (find_first_app _ _ _ _ Hx).
Qed.

(** ** Invariant *)

Definition of_step (step : string) (l : list StepAttemptRow) : list StepAttemptRow :=
  bfilter (λ a, bool_decide (ar_step a = step)) l.

(** An input is the accepted submission of an accepted attempt. *)
Definition input_accepted (l : list StepAttemptRow) (i : FrozenPlanInput) : Prop :=
  ∃ b, b ∈ l ∧ ar_id b = fi_attempt i ∧ ar_step b = fi_step i ∧ ar_state b = AttemptAccepted ∧
    ar_accepted b = Some (fi_submission i) ∧ ar_call b = fi_call i.

Definition inputs_ok (d : PlanTables) (l : list StepAttemptRow) (a : StepAttemptRow) : Prop :=
  ∃ def, plan_definition d taskId (ar_revision a) (ar_step a) = Some def ∧
    fi_step <$> ar_inputs a ≡ₚ depends_on def ∧ ∀ i, i ∈ ar_inputs a → input_accepted l i.

Record attempts_ok (d : PlanTables) (l : list StepAttemptRow) : Prop := {
  eo_ids : NoDup (ar_id <$> l);
  eo_calls : NoDup (ar_call <$> l);
  eo_numbers step : ar_no <$> of_step step l = Z.of_nat <$> seq 1 (length (of_step step l));
  eo_settled a b : a ∈ l → b ∈ l → ar_step a = ar_step b → ar_no a < ar_no b → attempt_settled (ar_state a) = true;
  eo_inputs a : a ∈ l → inputs_ok d l a
}.

Record exec_ok (d : PlanTables) (ex : TaskExec) : Prop := {
  eo_attempts : attempts_ok d (ex_attempts ex);
  eo_limit : match ex_runtime ex with Some rt => len (ex_attempts ex) ≤ rt_limit rt | None => ex_attempts ex = [] end
}.

(** ** Changes of attempts *)

(** What an attempt keeps: all but its state; and accepted attempts do not
    change. *)
Record attempt_moves (a a' : StepAttemptRow) : Prop := {
  mv_id : ar_id a' = ar_id a;
  mv_step : ar_step a' = ar_step a;
  mv_revision : ar_revision a' = ar_revision a;
  mv_no : ar_no a' = ar_no a;
  mv_call : ar_call a' = ar_call a;
  mv_inputs : ar_inputs a' = ar_inputs a;
  mv_settled : attempt_settled (ar_state a) = true → attempt_settled (ar_state a') = true;
  mv_accepted : ar_state a = AttemptAccepted → a' = a
}.

Definition rows_move (l l' : list StepAttemptRow) : Prop := Forall2 attempt_moves l l'.

Lemma attempt_moves_refl a : attempt_moves a a.
Proof. by constructor. Qed.

Lemma rows_move_refl l : rows_move l l.
Proof. apply Forall2_same_length_lookup_2; [done|]. intros i x y Hx Hy. simplify_eq. apply attempt_moves_refl. Qed.

Lemma rows_move_map l (g : StepAttemptRow → StepAttemptRow) :
  (∀ a, a ∈ l → attempt_moves a (g a)) → rows_move l (map g l).
Proof.
  unfold rows_move. induction l as [|a l IH]; intros H; [constructor|]. simpl. constructor; [apply H; left|].
  apply IH. intros x Hx. apply H. by right.
Qed.

Lemma rows_move_fmap {B} (f : StepAttemptRow → B) l l' :
  (∀ a a', attempt_moves a a' → f a' = f a) → rows_move l l' → f <$> l' = f <$> l.
Proof. intros Hf. induction 1 as [|a a' l l' H _ IH]; [done|]. rewrite !fmap_cons, IH. by rewrite (Hf a a' H). Qed.

Lemma rows_move_elem l l' a' : rows_move l l' → a' ∈ l' → ∃ a, a ∈ l ∧ attempt_moves a a'.
Proof.
  induction 1 as [|x x' l l' H _ IH]; [by intros ?%elem_of_nil|]. intros [->|Ha]%elem_of_cons.
  - exists x. split; [left|done].
  - destruct (IH Ha) as (a & ? & ?). exists a. split; [by right|done].
Qed.

Lemma rows_move_elem_r l l' a : rows_move l l' → a ∈ l → ∃ a', a' ∈ l' ∧ attempt_moves a a'.
Proof.
  induction 1 as [|x x' l l' H _ IH]; [by intros ?%elem_of_nil|]. intros [->|Ha]%elem_of_cons.
  - exists x'. split; [left|done].
  - destruct (IH Ha) as (a' & ? & ?). exists a'. split; [by right|done].
Qed.

Lemma rows_move_of_step step l l' : rows_move l l' → rows_move (of_step step l) (of_step step l').
Proof.
  unfold rows_move, of_step. induction 1 as [|a a' l l' H _ IH]; [constructor|]. simpl. rewrite (mv_step _ _ H).
  case_bool_decide; [by constructor|done].
Qed.

Lemma input_accepted_move l l' i : rows_move l l' → input_accepted l i → input_accepted l' i.
Proof.
  intros Hm (b & Hb & H1 & H2 & H3 & H4). destruct (rows_move_elem_r l l' b Hm Hb) as (b' & Hb' & Mb).
  rewrite (mv_accepted _ _ Mb H3) in Hb'. by exists b.
Qed.

Lemma attempts_ok_move d l l' : attempts_ok d l → rows_move l l' → attempts_ok d l'.
Proof.
  intros [E1 E2 E3 E4 E5] Hm. constructor.
  - rewrite (rows_move_fmap ar_id l l'); [done|by intros ? ? []|done].
  - rewrite (rows_move_fmap ar_call l l'); [done|by intros ? ? []|done].
  - intros step. pose proof (rows_move_of_step step l l' Hm) as Hs.
    rewrite (rows_move_fmap ar_no _ _ ltac:(by intros ? ? []) Hs), <- (Forall2_length _ _ _ Hs). apply E3.
  - intros a' b' Ha Hb Hst Hlt. destruct (rows_move_elem l l' a' Hm Ha) as (a & Hal & Ma).
    destruct (rows_move_elem l l' b' Hm Hb) as (b & Hbl & Mb). apply (mv_settled _ _ Ma). apply (E4 a b); try done.
    + destruct Ma, Mb. congruence.
    + destruct Ma, Mb. lia.
  - intros a' Ha. destruct (rows_move_elem l l' a' Hm Ha) as (a & Hal & Ma).
    destruct (E5 a Hal) as (def & Hd & Hp & Hi). exists def. destruct Ma as [_ M2 M3 _ _ M6 _ _]. rewrite M2, M3, M6.
    split_and!; [done..|]. intros i Hin. by apply (input_accepted_move l l'), Hi.
Qed.

Lemma attempts_ok_plans d d' l : attempts_ok d l → plans_grow d d' → attempts_ok d' l.
Proof.
  intros [E1 E2 E3 E4 E5] Hg. constructor; try done. intros a Ha. destruct (E5 a Ha) as (def & Hd & ?). exists def.
  split; [by apply Hg|done].
Qed.

Lemma attempt_moves_trans a b c : attempt_moves a b → attempt_moves b c → attempt_moves a c.
Proof.
  intros M N. constructor; try (destruct M, N; congruence); [destruct M, N; auto|].
  intros Ha. rewrite <- (mv_accepted _ _ M Ha). apply (mv_accepted _ _ N). by rewrite (mv_accepted _ _ M Ha).
Qed.

Lemma rows_move_trans l1 l2 l3 : rows_move l1 l2 → rows_move l2 l3 → rows_move l1 l3.
Proof.
  unfold rows_move. intros H. revert l3. induction H as [|a b l1 l2 Hab _ IH]; intros l3 H3.
  - by apply Forall2_nil_inv_l in H3 as ->.
  - apply Forall2_cons_inv_l in H3 as (c & l3' & Hbc & H3 & ->). constructor; eauto using attempt_moves_trans.
Qed.

(** A state that is written to attempts which may take it. *)
Lemma update_moves l id s :
  (∀ a, a ∈ l → ar_id a = id → ar_state a ≠ AttemptAccepted ∧
    (attempt_settled (ar_state a) = true → attempt_settled s = true)) →
  rows_move l (update_state id s l).
Proof.
  intros H. apply rows_move_map. intros a Ha. case_bool_decide as E; [|apply attempt_moves_refl].
  destruct (H a Ha E). by constructor.
Qed.

Lemma unsettled_not_accepted s : attempt_settled s = false → s ≠ AttemptAccepted.
Proof. by intros H ->. Qed.

Lemma fold_moves cs l :
  NoDup cs.*1 → (∀ c a, c ∈ cs → a ∈ l → ar_id a = c.1 → attempt_settled (ar_state a) = false) →
  rows_move l (fold_left (λ rows c, update_state c.1 c.2 rows) cs l).
Proof.
  revert l. induction cs as [|c cs IH]; intros l Hn Hu; [apply rows_move_refl|]. apply NoDup_cons in Hn as [Hc Hn]. simpl.
  eapply rows_move_trans; [apply (update_moves l c.1 c.2)|apply IH; [done|]].
  - intros a Ha E. pose proof (Hu c a ltac:(left) Ha E) as Hs. split; [by apply unsettled_not_accepted|congruence].
  - intros c' a' Hc' (a & -> & Ha)%list_elem_of_fmap. case_bool_decide as E; simpl; intros E'.
    + exfalso. apply Hc. rewrite <- E, E'. by apply list_elem_of_fmap_2.
    + apply (Hu c' a); [by right|done|done].
Qed.

Lemma unique_row {B} (f : StepAttemptRow → B) l a b : NoDup (f <$> l) → a ∈ l → b ∈ l → f a = f b → a = b.
Proof.
  intros Hn [i Hi]%list_elem_of_lookup [k Hk]%list_elem_of_lookup E.
  assert (i = k); [|congruence]. eapply (NoDup_lookup (f <$> l)); [done|..]; rewrite list_lookup_fmap;
    [by rewrite Hi|rewrite Hk; simpl; by f_equal].
Qed.

Lemma sorted_elem ex a : a ∈ sorted_attempts ex ↔ a ∈ ex_attempts ex.
Proof. unfold sorted_attempts. by rewrite merge_sort_Permutation. Qed.

(** What a reconciliation changes. *)
Lemma changes_elem ex id s :
  (id, s) ∈ changes ex → ∃ a, a ∈ ex_attempts ex ∧ ar_id a = id ∧ attempt_settled (ar_state a) = false.
Proof.
  unfold changes. rewrite list_elem_of_omap. intros (a & Ha%sorted_elem & E). exists a. split; [done|].
  destruct (attempt_settled (ar_state a)) eqn:Es; [done|]. destruct (ex_calls ex !! ar_call a); [|done].
  case_bool_decide; [done|]. by simplify_eq.
Qed.

Lemma omap_NoDup {A} (f : StepAttemptRow → option (string * A)) l :
  (∀ a c, f a = Some c → c.1 = ar_id a) → NoDup (ar_id <$> l) → NoDup (omap f l).*1.
Proof.
  intros Hf. induction l as [|a l IH]; intros Hn; [constructor|]. rewrite fmap_cons in Hn. apply NoDup_cons in Hn as [Ha Hn].
  simpl. destruct (f a) as [c|] eqn:E; [|by apply IH]. rewrite fmap_cons. apply NoDup_cons. split; [|by apply IH].
  intros (c' & E' & (b & Hb & Hfb)%list_elem_of_omap)%list_elem_of_fmap. apply Ha.
  rewrite <- (Hf a c E), E', (Hf b c' Hfb). by apply list_elem_of_fmap_2.
Qed.

Lemma apply_changes_moves ex :
  NoDup (ar_id <$> ex_attempts ex) → rows_move (ex_attempts ex) (ex_attempts (apply_changes (changes ex) ex)).
Proof.
  intros Hn. apply fold_moves.
  - unfold changes. apply omap_NoDup.
    + intros a c. destruct (attempt_settled _); [done|]. destruct (ex_calls ex !! _); [|done]. case_bool_decide; [done|].
      by intros [= <-].
    + unfold sorted_attempts. by rewrite merge_sort_Permutation.
  - intros [id s] a Hc Ha E. destruct (changes_elem ex id s Hc) as (b & Hb & Eb & Hs). simpl in E.
    by rewrite (unique_row ar_id _ a b Hn Ha Hb) by congruence.
Qed.

Lemma attempt_by_spec ex id a : attempt_by ex id = Some a → a ∈ ex_attempts ex ∧ ar_id a = id.
Proof. unfold attempt_by. intros [Ha E]%find_first_Some. by bool_hyps. Qed.

(** The body of a delivery operation, when it was not a repeated request. *)
Lemma mutate_shape env acceptance attempt actor m run ex ex' r :
  mutate_step env acceptance taskId attempt actor m run ex = inr (ex', r) →
  ex' = ex ∨
  ∃ a head x, attempt_by ex attempt = Some a ∧
    ar_state a ∈ (if acceptance then [AwaitingReview] else [Reserved; Dispatched; AttemptRunning; AwaitingReview]) ∧
    run head ex = inr x ∧ ex_attempts ex' = ex_attempts x.1 ∧ ex_runtime ex' = ex_runtime x.1.
Proof.
  unfold mutate_step. intros H. team_ok. destruct (ex_receipts ex !! _) as [[h rep]|].
  { team_ok. simplify_eq. by left. }
  team_ok. destruct (ex_heads ex !! attempt) as [head|]; [|done]. team_ok. simplify_eq. right.
  unfold requireActiveAttempt in *. destruct (attempt_by ex attempt) as [att|]; [|done]. team_ok. bool_hyps.
  exists att, head. eexists. split_and!; done.
Qed.

(** Accepted attempts take no deliveries. *)
Lemma accepted_closed (acceptance : bool) :
  AttemptAccepted ∉ if acceptance then [AwaitingReview] else [Reserved; Dispatched; AttemptRunning; AwaitingReview].
Proof. destruct acceptance; apply (bool_decide_eq_false_1 _); reflexivity. Qed.

Lemma publish_moves env attempt actor submission m ex ex' r :
  NoDup (ar_id <$> ex_attempts ex) → publish_step env taskId attempt actor submission m ex = inr (ex', r) →
  rows_move (ex_attempts ex) (ex_attempts ex') ∧ ex_runtime ex' = ex_runtime ex.
Proof.
  intros Hn [->|(a & head & x & Ha & Hs & Hrun & -> & ->)]%mutate_shape; [split; [apply rows_move_refl|done]|].
  unfold publish_body in Hrun. team_ok. simplify_eq. simpl. split; [|done]. apply update_moves. intros b Hb E.
  apply attempt_by_spec in Ha as [Ha Ea]. rewrite (unique_row ar_id _ b a Hn Hb Ha) by congruence. split; [|done].
  intros Hacc. rewrite Hacc in Hs. by apply (accepted_closed false) in Hs.
Qed.

Lemma decide_moves env attempt actor input m ex ex' r :
  NoDup (ar_id <$> ex_attempts ex) → decide_step env taskId attempt actor input m ex = inr (ex', r) →
  rows_move (ex_attempts ex) (ex_attempts ex') ∧ ex_runtime ex' = ex_runtime ex.
Proof.
  intros Hn [->|(a & head & x & Ha & Hs & Hrun & -> & ->)]%mutate_shape; [split; [apply rows_move_refl|done]|].
  unfold decide_body in Hrun. team_ok. destruct (ex_specs ex !! _) as [spec|]; [|done]. team_ok. simplify_eq. simpl.
  split; [|done]. destruct (ai_accepted input); [|apply rows_move_refl]. apply rows_move_map. intros b Hb.
  destruct (bool_decide (ar_id b = attempt)) eqn:E; [|apply attempt_moves_refl]. apply bool_decide_eq_true in E.
  apply attempt_by_spec in Ha as [Ha Ea]. rewrite (unique_row ar_id _ b a Hn Hb Ha) by congruence. constructor; try done. intros Hacc. rewrite Hacc in Hs.
  by apply (accepted_closed true) in Hs.
Qed.

(** ** Latest attempts *)

#[local] Instance attempt_le_trans : Transitive attempt_le.
Proof.
  intros a b c. unfold attempt_le. intros [[H1 H2]|[H1 H2]] [[H3 H4]|[H3 H4]]; rewrite ?H1, <- ?H3 in *; auto.
  - left. split; [by transitivity (ar_step b)|]. intros E. rewrite E in H1. apply H4. by apply (anti_symm String.le).
  - right. split; [done|lia].
Qed.

#[local] Instance attempt_le_total : Total attempt_le.
Proof.
  intros a b. unfold attempt_le. destruct (decide (ar_step a = ar_step b)) as [E|E].
  - rewrite E. destruct (Z.le_ge_cases (ar_no a) (ar_no b)); auto.
  - destruct (total String.le (ar_step a) (ar_step b)); auto.
Qed.

Lemma find_first_split {A} (p : A → bool) l x :
  find_first p l = Some x → ∃ l1 l2, l = l1 ++ x :: l2 ∧ p x = true ∧ ∀ y, y ∈ l1 → p y = false.
Proof.
  induction l as [|z l IH]; [done|]. simpl. destruct (p z) eqn:E.
  - intros [= <-]. exists [], l. split_and!; [done..|]. by intros y ?%elem_of_nil.
  - intros (l1 & l2 & -> & Hx & Hl)%IH. exists (z :: l1), l2. split_and!; [done..|]. by intros y [->|Hy]%elem_of_cons; auto.
Qed.

Lemma latest_spec ex step a :
  latest ex step = Some a →
  a ∈ ex_attempts ex ∧ ar_step a = step ∧ ∀ b, b ∈ ex_attempts ex → ar_step b = step → ar_no b ≤ ar_no a.
Proof.
  unfold latest. intros (l1 & l2 & E & Hs%bool_decide_eq_true & Hl1)%find_first_split.
  assert (Ha : a ∈ sorted_attempts ex) by (rewrite E; apply elem_of_app; right; left).
  split_and!; [by apply sorted_elem|done|]. intros b Hb%sorted_elem Hbs. rewrite E in Hb.
  apply elem_of_app in Hb as [Hb|[->|Hb]%elem_of_cons]; [|lia|].
  - specialize (Hl1 b Hb). by apply bool_decide_eq_false in Hl1.
  - pose proof (StronglySorted_merge_sort attempt_le (ex_attempts ex)) as Hss. fold (sorted_attempts ex) in Hss.
    rewrite E in Hss. apply StronglySorted_app in Hss as (_ & _ & [_ Hall]%StronglySorted_inv).
    rewrite Forall_forall in Hall. destruct (Hall b Hb) as [[_ Hne]|[_ ?]]; [congruence|done].
Qed.

Lemma latest_none ex step : latest ex step = None → of_step step (ex_attempts ex) = [].
Proof.
  unfold latest, of_step. intros H. apply bfilter_false. intros a Ha%sorted_elem. exact (find_first_None _ _ H a Ha).
Qed.

Lemma elem_of_step a step l : a ∈ of_step step l ↔ ar_step a = step ∧ a ∈ l.
Proof. unfold of_step. rewrite elem_of_bfilter. by rewrite bool_decide_eq_true. Qed.

(** The latest attempt has the last number. *)
Lemma latest_number d ex step a :
  attempts_ok d (ex_attempts ex) → latest ex step = Some a → ar_no a = len (of_step step (ex_attempts ex)).
Proof.
  intros Hok (Ha & Hs & Hmax)%latest_spec. pose proof (eo_numbers _ _ Hok step) as Hn.
  assert (Hin : a ∈ of_step step (ex_attempts ex)) by by apply elem_of_step.
  assert (Hle : ∀ b, b ∈ of_step step (ex_attempts ex) → 1 ≤ ar_no b ≤ len (of_step step (ex_attempts ex))).
  { intros b Hb. apply (list_elem_of_fmap_2 ar_no) in Hb. rewrite Hn in Hb.
    apply list_elem_of_fmap in Hb as (k & -> & Hk%elem_of_seq). lia. }
  pose proof (Hle a Hin). assert (Hlast : len (of_step step (ex_attempts ex)) ∈ ar_no <$> of_step step (ex_attempts ex)).
  { rewrite Hn. apply list_elem_of_fmap. eexists. split; [done|]. apply elem_of_seq. lia. }
  apply list_elem_of_fmap in Hlast as (b & Eb & [Hb1 Hb2]%elem_of_step). specialize (Hmax b Hb2 Hb1). lia.
Qed.

(** ** Frozen inputs *)

Lemma freeze_one_ok d ex revision sel i :
  freeze_one localeCompare sha256 d ex taskId revision sel = inr i →
  fi_step i = sel.1 ∧ input_accepted (ex_attempts ex) i.
Proof.
  destruct sel as [step [attempt submission]]. unfold freeze_one. intros H. team_ok.
  destruct (accepted_row _ _ _ _ _ _ _) as [[[[[a old] current] s] dec]|] eqn:E; [|done]. team_ok. simplify_eq. simpl.
  split; [done|]. exists a. bool_hyps. unfold accepted_row in E. destruct (find_first _ (ex_attempts ex)) as [b|] eqn:Ef; [|done].
  destruct (plan_definition d taskId (ar_revision b) step); [|done]. destruct (plan_definition d taskId revision step); [|done].
  destruct (find_first _ (ex_submissions ex)); [|done]. destruct (ex_decisions ex !! _); [|done].
  destruct (_ && _) eqn:Ec; [|done]. simplify_eq. apply find_first_Some in Ef as [Hb Hp]. bool_hyps. by split_and!.
Qed.

Lemma freeze_all_ok d ex revision sels inputs :
  freeze_all localeCompare sha256 d ex taskId revision sels = inr inputs →
  fi_step <$> inputs = sels.*1 ∧ ∀ i, i ∈ inputs → input_accepted (ex_attempts ex) i.
Proof.
  revert inputs. induction sels as [|sel sels IH]; intros inputs H; simpl in H.
  - simplify_eq. split; [done|]. by intros i ?%elem_of_nil.
  - team_ok. simplify_eq. destruct (IH _ ltac:(done)) as [Hm Hi].
    destruct (freeze_one_ok _ _ _ _ _ ltac:(done)) as [Hs Ha]. split; [rewrite !fmap_cons; by f_equal|].
    intros i [->|Hin]%elem_of_cons; auto.
Qed.

Lemma freeze_ok d ex revision step sels inputs :
  freezeAcceptedPlanInputs localeCompare sha256 d ex taskId revision step sels = inr inputs →
  ∃ def, plan_definition d taskId revision step = Some def ∧ fi_step <$> inputs ≡ₚ depends_on def ∧
    ∀ i, i ∈ inputs → input_accepted (ex_attempts ex) i.
Proof.
  unfold freezeAcceptedPlanInputs. destruct (plan_definition d taskId revision step) as [def|] eqn:E; [|done]. intros H.
  team_ok. exists def. split; [done|]. destruct (freeze_all_ok _ _ _ _ _ ltac:(done)) as [Hm Hi]. split; [|done].
  bool_hyps. rewrite Hm, merge_sort_Permutation. apply submseteq_length_Permutation.
  - apply NoDup_submseteq; [done|]. intros x Hx.
    match goal with F : forallb _ _ = true |- _ => apply (bool_decide_eq_true_1 _), (proj1 (forallb_forall _ _) F x) end.
    by apply list_elem_of_In.
  - rewrite length_fmap. lia.
Qed.

(** ** Reservations *)

(** What [advance] knows of the step it reserves. *)
Record reservable (d : PlanTables) (ex : TaskExec) (revision : Z) (retried : option StepAttemptRow) (x : Selected) : Prop := {
  rv_retried : latest ex (step_id (sl_step x)) = retried;
  rv_settled a : retried = Some a → attempt_settled (ar_state a) = true;
  rv_dependencies p : p ∈ depends_on (sl_step x) → ar_state <$> latest ex p = Some AttemptAccepted;
  rv_inputs : ∃ def, plan_definition d taskId revision (step_id (sl_step x)) = Some def ∧
    fi_step <$> sl_inputs x ≡ₚ depends_on def ∧ ∀ i, i ∈ sl_inputs x → input_accepted (ex_attempts ex) i
}.

(** A retry names the latest attempt of its step, which is settled. *)
Lemma check_retry_ok ex rq a :
  NoDup (ar_id <$> ex_attempts ex) → check_retry ex rq = inr a →
  latest ex (ar_step a) = Some a ∧ attempt_settled (ar_state a) = true ∧ a ∈ ex_attempts ex.
Proof.
  unfold check_retry. intros Hn H. destruct (attempt_by ex (rq_attempt rq)) as [b|] eqn:E; [|done]. team_ok. bool_hyps.
  destruct (ex_heads ex !! rq_attempt rq) as [head|]; [|done]. team_ok. simplify_eq.
  apply attempt_by_spec in E as [Ha Ea]. split_and!; [| |done].
  - destruct (latest ex (ar_step a)) as [c|] eqn:El; [|done]. apply latest_spec in El as (Hc & _ & _). f_equal.
    apply (unique_row ar_id (ex_attempts ex)); try done. simpl in *. congruence.
  - destruct (ex_calls ex !! ar_call a) as [call|]; [|done]. bool_hyps.
    destruct (attempt_settled (ar_state a)) eqn:Es; [done|].
    match goal with F : reconciledAttemptState _ _ = _ |- _ => unfold reconciledAttemptState in F; rewrite Es in F end.
    destruct (rq_new_version rq); bool_hyps; [by rewrite <- Es; match goal with F : ar_state a = AttemptAccepted |- _ => rewrite F end|].
    destruct call; try (match goal with F : _ = ar_state a |- _ => by rewrite <- F in Es end);
      match goal with F : (_ || _) = true |- _ => revert F; simpl; intros; bool_hyps end; done.
Qed.

Lemma select_step_ok try steps last x : select_step try steps last = inr x → ∃ s, s ∈ steps ∧ try s = inr x.
Proof.
  revert last. induction steps as [|s steps IH]; intros last H; [done|]. simpl in H. destruct (try s) as [e|y] eqn:E.
  - case_bool_decide; [|done]. destruct (IH _ H) as (t & ? & ?). exists t. split; [by right|done].
  - simplify_eq. exists s. split; [left|done].
Qed.

Lemma candidate_ok env d ex team session revision step x :
  step_candidate localeCompare sha256 canonical_bytes env d ex taskId team session revision step = inr x →
  sl_step x = step ∧
  freezeAcceptedPlanInputs localeCompare sha256 d ex taskId revision (step_id step) (selections ex step) = inr (sl_inputs x).
Proof.
  unfold step_candidate. intros H. team_ok. match goal with F : match ?o with Some _ => _ | None => _ end = inr _ |- _ => destruct o as [binding|]; [|done] end.
  team_ok. match goal with F : match ?l with [] => _ | _ => _ end = inr _ |- _ => destruct l as [|call [|? ?]]; try done end.
  by simplify_eq.
Qed.

Lemma of_step_snoc step l a :
  of_step step (l ++ [a]) = if bool_decide (ar_step a = step) then of_step step l ++ [a] else of_step step l.
Proof. unfold of_step. rewrite bfilter_app. simpl. case_bool_decide; [done|by rewrite app_nil_r]. Qed.

Lemma inputs_ok_snoc d l a b : inputs_ok d l a → inputs_ok d (l ++ [b]) a.
Proof.
  intros (def & Hd & Hp & Hi). exists def. split_and!; [done..|]. intros i Hin. destruct (Hi i Hin) as (c & Hc & ?).
  exists c. split; [apply elem_of_app; by left|done].
Qed.

(** A new attempt with the next number of its step keeps the invariant, when
    the earlier ones are settled. *)
Lemma attempts_ok_snoc d l a :
  attempts_ok d l → ar_id a ∉ ar_id <$> l → ar_call a ∉ ar_call <$> l →
  ar_no a = len (of_step (ar_step a) l) + 1 →
  (∀ b, b ∈ l → ar_step b = ar_step a → attempt_settled (ar_state b) = true) → inputs_ok d l a →
  attempts_ok d (l ++ [a]).
Proof.
  intros [E1 E2 E3 E4 E5] Hid Hcall Hno Hset Hin.
  assert (Hnum : ∀ b, b ∈ l → ar_step b = ar_step a → ar_no b ≤ len (of_step (ar_step a) l)).
  { intros b Hb Hs. assert (Hb' : b ∈ of_step (ar_step a) l) by by apply elem_of_step.
    apply (list_elem_of_fmap_2 ar_no) in Hb'. rewrite E3 in Hb'. apply list_elem_of_fmap in Hb' as (k & -> & Hk%elem_of_seq). lia. }
  constructor.
  - rewrite fmap_app. apply NoDup_app. split_and!; [done|by intros y Hy ->%list_elem_of_singleton|apply NoDup_singleton].
  - rewrite fmap_app. apply NoDup_app. split_and!; [done|by intros y Hy ->%list_elem_of_singleton|apply NoDup_singleton].
  - intros step. rewrite of_step_snoc. case_bool_decide as Es; [|apply E3]. subst step.
    rewrite length_app, fmap_app, E3. simpl. rewrite seq_app, fmap_app. simpl. repeat f_equal. lia.
  - intros x y Hx Hy Hs Hlt. apply elem_of_app in Hx as [Hx| ->%list_elem_of_singleton];
      apply elem_of_app in Hy as [Hy| ->%list_elem_of_singleton].
    + by apply (E4 x y).
    + by apply Hset.
    + specialize (Hnum y Hy ltac:(done)). lia.
    + lia.
  - intros x [Hx| ->%list_elem_of_singleton]%elem_of_app; apply inputs_ok_snoc; [by apply E5|done].
Qed.

Lemma not_elem_fmap {B} `{EqDecision B} (f : StepAttemptRow → B) l x (p : StepAttemptRow → bool) :
  forallb p l = true → (∀ a, p a = true → f a ≠ x) → x ∉ f <$> l.
Proof.
  intros Hp Hne (a & -> & Ha)%list_elem_of_fmap. apply (Hne a); [|done].
  by apply (proj1 (forallb_forall _ _) Hp), list_elem_of_In.
Qed.

Lemma reserve_step_ok d ex revision token actor retried x ex' :
  attempts_ok d (ex_attempts ex) → reservable d ex revision retried x →
  reserve_step revision token actor retried x ex = inr ex' →
  attempts_ok d (ex_attempts ex') ∧ ex_runtime ex' = ex_runtime ex ∧ len (ex_attempts ex') = len (ex_attempts ex) + 1.
Proof.
  intros Hok [R1 R2 R3 R4] H. unfold reserve_step in H. team_ok. simplify_eq. simpl. bool_hyps.
  split_and!; [|done|rewrite length_app; simpl; lia].
  match goal with F : forallb _ (ex_attempts ex) = true |- _ => rename F into Huniq end.
  apply attempts_ok_snoc; simpl; [done|..].
  - eapply not_elem_fmap; [done|]. simpl. intros a ?. by bool_hyps.
  - eapply not_elem_fmap; [done|]. simpl. intros a ?. by bool_hyps.
  - destruct (latest ex _) as [a|] eqn:El; [by rewrite (latest_number d ex _ a Hok El)|].
    by rewrite (latest_none ex _ El).
  - intros b Hb Hs. destruct (latest ex (step_id (sl_step x))) as [a|] eqn:El.
    + pose proof (latest_spec ex _ a El) as (Ha & Has & Hmax). specialize (Hmax b Hb Hs).
      destruct (decide (ar_no b = ar_no a)) as [E|E].
      * assert (b = a) as ->; [|by apply R2]. apply (unique_row ar_no (of_step (step_id (sl_step x)) (ex_attempts ex)));
          [|by apply elem_of_step..|done].
        rewrite (eo_numbers _ _ Hok). apply (NoDup_fmap_2 _), NoDup_seq.
      * apply (eo_settled _ _ Hok b a); try done; [congruence|lia].
    + pose proof (latest_none ex _ El) as Hnil. assert (Hin : b ∈ of_step (step_id (sl_step x)) (ex_attempts ex))
        by by apply elem_of_step. rewrite Hnil in Hin. by apply elem_of_nil in Hin.
  - destruct R4 as (def & Hd & Hp & Hi). exists def. by split_and!.
Qed.

Lemma ready_steps_ok ex retried steps s :
  s ∈ ready_steps ex retried steps →
  (match retried with Some a => step_id s = ar_step a | None => latest ex (step_id s) = None end) ∧
  ∀ p, p ∈ depends_on s → ar_state <$> latest ex p = Some AttemptAccepted.
Proof.
  unfold ready_steps. intros [H _]%elem_of_bfilter. apply andb_prop in H as [H1 H2]. split.
  - destruct retried; by bool_hyps.
  - intros p Hp. apply (bool_decide_eq_true_1 _), (proj1 (forallb_forall _ _) H2 p). by apply list_elem_of_In.
Qed.

(** What a reservation was made from. *)
Definition reserved_from (d : PlanTables) (ex : TaskExec) (rq : option RetryRequest) (ex' : TaskExec) (r : StepAdvanceResult)
  : Prop :=
  ∃ rt retried x token actor, ex_runtime ex = Some rt ∧ rt_state rt = RuntimeActive ∧ len (ex_attempts ex) < rt_limit rt ∧
    reservable d ex (rt_plan_revision rt) retried x ∧ reserve_step (rt_plan_revision rt) token actor retried x ex = inr ex' ∧
    r = StepReserved (sl_attempt x) (sl_call x) ∧ (rq = None → retried = None).

Lemma reserve_ready_ok env d team session token actor rt rq ex ex' r :
  attempts_ok d (ex_attempts ex) → ex_runtime ex = Some rt → rt_state rt = RuntimeActive →
  reserve_ready localeCompare sha256 canonical_bytes env d taskId team session token actor rt rq ex = inr (ex', r) →
  (ex' = ex ∧ r = StepWaiting) ∨ reserved_from d ex rq ex' r.
Proof.
  intros Hok Hrt Hact H. unfold reserve_ready in H. destruct (revisions d !! _) as [plan|]; [|done]. team_ok.
  match goal with F : match rq with Some _ => _ | None => _ end = inr ?a |- _ => rename F into Hrq; rename a into retried end.
  assert (Hret : match retried with
    | Some a => latest ex (ar_step a) = Some a ∧ attempt_settled (ar_state a) = true | None => rq = None end).
  { destruct rq as [q|]; [|by simplify_eq]. apply bind_team_ok in Hrq as (att & Ha & E). injection E as <-.
    destruct (check_retry_ok ex q att (eo_ids _ _ Hok) Ha) as (? & ? & _). done. }
  destruct (ready_steps ex retried _) as [|s0 ready] eqn:Er; [destruct rq; [done|]; simplify_eq; by left|].
  right. team_ok. simplify_eq.
  match goal with F : select_step _ _ _ = inr ?y |- _ => apply select_step_ok in F as (s & Hs & Hcand); rename y into x end.
  apply candidate_ok in Hcand as [<- Hfreeze]. rewrite <- Er in Hs. apply ready_steps_ok in Hs as [Hsel Hdeps].
  match goal with F : requireTaskBudgetCapacity _ _ _ = inr _ |- _ => unfold requireTaskBudgetCapacity in F; team_ok; bool_hyps end.
  exists rt, retried, x, token, actor. split_and!; try done.
  - split; [|by intros att Ha; rewrite Ha in Hret; destruct Hret|done|by eapply freeze_ok].
    destruct retried as [att|]; [|done]. rewrite Hsel. by destruct Hret.
  - intros ->. clear -Hrq. by simplify_eq/=.
Qed.

Lemma advance_shape env d token rq ex ex' r :
  attempts_ok d (ex_attempts ex) →
  advance localeCompare sha256 canonical_bytes env d taskId token rq ex = inr (ex', r) →
  (rows_move (ex_attempts ex) (ex_attempts ex') ∧ ex_runtime ex' = ex_runtime ex ∧ ∀ a c, r ≠ StepReserved a c) ∨
  reserved_from d ex rq ex' r.
Proof.
  intros Hok H. unfold advance in H.
  assert (Hid : ∀ q, inr (ex, q) = inr (ex', r) :> team _ → (∀ a c, q ≠ StepReserved a c) →
    rows_move (ex_attempts ex) (ex_attempts ex') ∧ ex_runtime ex' = ex_runtime ex ∧ ∀ a c, r ≠ StepReserved a c).
  { intros q [= -> ->] Hq. split_and!; [apply rows_move_refl|done..]. }
  destruct (se_identity env) as [[[team initiator] session]|]; [|left; by eapply Hid].
  destruct (negb (se_enabled env team)); [left; by eapply Hid|]. team_ok.
  destruct (tasks (se_view env) !! taskId) as [task|]; [|done].
  destruct (roles (se_view env) !! _) as [role|]; [|done]. team_ok.
  destruct (ex_runtime ex) as [rt|] eqn:Hrt; [|done]. destruct (sessions (se_view env) !! session) as [sess|]; [|done]. team_ok.
  destruct (negb _ || negb _); [left; by eapply Hid|]. team_ok. destruct (_ && bool_decide (rq = None)).
  { left. simplify_eq. split_and!; [apply apply_changes_moves, Hok|done|done]. }
  destruct (negb (bool_decide (rt_state rt = RuntimeActive))) eqn:Hact; [left; by eapply Hid|]. bool_hyps.
  match goal with F : _ = inr (ex', r) |- _ =>
    destruct (reserve_ready_ok _ _ _ _ _ _ _ _ _ _ _ Hok Hrt Hact F) as [[-> ->]|?]; [left|by right] end.
  split_and!; [apply rows_move_refl|done..].
Qed.

(** ** Control *)

Lemma reconcile_moves env attempt ex ex' rec :
  NoDup (ar_id <$> ex_attempts ex) → control_reconcile env attempt ex = inr (ex', rec) →
  rows_move (ex_attempts ex) (ex_attempts ex').
Proof.
  intros Hn H. unfold control_reconcile in H. destruct (attempt_by ex attempt) as [b|] eqn:Eb; [|done]. team_ok.
  destruct (ex_calls ex !! ar_call b) as [c|]; [|done]. simplify_eq. apply attempt_by_spec in Eb as [Hb _].
  destruct (bool_decide (reconciledAttemptState (ar_state b) c = ar_state b)) eqn:E; [apply rows_move_refl|].
  apply bool_decide_eq_false in E. apply update_moves. intros x Hx Ex. rewrite (unique_row ar_id _ x b Hn Hx Hb Ex).
  unfold reconciledAttemptState in E. destruct (attempt_settled (ar_state b)) eqn:Es; [done|].
  split; [by apply unsettled_not_accepted|done].
Qed.

(** What a new control request did. *)
Record controlled (d : PlanTables) (i : PlanControlInput) (ex ex1 : TaskExec) (rt' : RuntimeRow) : Prop := {
  ct_attempts : rows_move (ex_attempts ex) (ex_attempts ex1) ∨ ∃ rq r, reserved_from d ex rq ex1 r;
  ct_limit : match ex_runtime ex with
    | Some rt => rt_limit rt' = rt_limit rt | None => len (ex_attempts ex1) ≤ rt_limit rt' end;
  ct_cancelled rt : ex_runtime ex = Some rt → rt_state rt = RuntimeCancelled →
    rt_state rt' = RuntimeCancelled ∧ rows_move (ex_attempts ex) (ex_attempts ex1);
  ct_revision : rt_revision rt' = match ex_runtime ex with Some rt => rt_revision rt | None => 0 end + 1;
  ct_expected : ci_expected_revision i = match ex_runtime ex with Some rt => rt_revision rt | None => 0 end
}.

Lemma check_state_ok i rt :
  check_state i rt = inr () →
  ci_expected_revision i = match rt with Some r => rt_revision r | None => 0 end ∧
  (ci_action i = Activate ↔ rt = None) ∧
  (∀ r, rt = Some r → rt_state r = RuntimeCancelled → ci_action i = Reconcile).
Proof.
  unfold check_state. intros H. team_ok. destruct rt as [r|]; bool_hyps; (split; [done|split; [split|]]); try done.
  - intros E. match goal with F : (if bool_decide (ci_action i = Activate) then _ else _) = true |- _ => rename F into Hif end.
    by rewrite (bool_decide_eq_true_2 _ E) in Hif.
  - intros r' [= <-] Hc. match goal with F : (_ || bool_decide (ci_action i = Reconcile)) = true |- _ => rename F into Hrec end.
    rewrite (bool_decide_eq_true_2 _ Hc) in Hrec. simpl in Hrec. by apply bool_decide_eq_true in Hrec.
  - intros _. destruct (bool_decide (ci_action i = Activate)) eqn:E; by bool_hyps.
Qed.

Lemma recovered_ok env d actor i attempt sess rt team ex x :
  attempts_ok d (ex_attempts ex) →
  (if bool_decide (ci_action i = Reconcile) then get! y := control_reconcile env attempt ex in inr (y.1, Some y.2)
   else get! y := control_retry localeCompare sha256 canonical_bytes env d taskId actor i attempt sess rt team ex in
        inr (y.1, Some y.2)) = inr x →
  (rows_move (ex_attempts ex) (ex_attempts x.1) ∨ ∃ rq r, reserved_from d ex rq x.1 r) ∧
  (ci_action i = Reconcile → rows_move (ex_attempts ex) (ex_attempts x.1)).
Proof.
  intros Hok H. destruct (bool_decide (ci_action i = Reconcile)) eqn:E; apply bind_team_ok in H as ([ex1 rec] & H & Ex);
    injection Ex as <-; simpl.
  - apply reconcile_moves in H; [|apply Hok]. auto.
  - apply bool_decide_eq_false in E. split; [|done]. unfold control_retry in H. team_ok.
    match goal with F : advance _ _ _ _ _ _ _ _ _ = inr ?y |- _ => rename F into Hadv; destruct y as [ex2 r] end.
    simpl in *. destruct r as [| | |a0 c0]; try done. simplify_eq. apply advance_shape in Hadv as [(_ & _ & Hno)|?]; [|by eauto|done].
    by destruct (Hno a0 c0).
Qed.

Lemma control_new_ok env d actor i plan sess team pe pe' resp :
  attempts_ok d (ex_attempts (pe_exec pe)) →
  control_new localeCompare sha256 canonical_bytes control_hash env d taskId actor i plan sess team pe = inr (pe', resp) →
  ∃ ex1 rt', pe_exec pe' = with_runtime ex1 rt' ∧ controlled d i (pe_exec pe) ex1 rt'.
Proof.
  intros Hok H. unfold control_new in H. set (ex := pe_exec pe) in *. team_ok.
  match goal with F : check_state _ _ = inr ?u |- _ => destruct u; apply check_state_ok in F as (Hexp & Hact & Hcan) end.
  match goal with F : match ex_runtime ex with Some _ => _ | None => _ end = inr ?y |- _ => rename F into Hrec; rename y into x end.
  simplify_eq. eexists x.1, _. split; [reflexivity|].
  assert (Hx : (rows_move (ex_attempts ex) (ex_attempts x.1) ∨ ∃ rq r, reserved_from d ex rq x.1 r) ∧
    (ci_action i = Reconcile → rows_move (ex_attempts ex) (ex_attempts x.1)) ∧
    (ex_runtime ex = None → x.1 = ex)).
  { destruct (ex_runtime ex) as [rt|]; [destruct (ci_attempt_id i) as [attempt|]|].
    - apply recovered_ok in Hrec as [? ?]; [|done]. done.
    - injection Hrec as <-. split_and!; [left| |done]; intros; apply rows_move_refl.
    - injection Hrec as <-. split_and!; [left| |done]; intros; apply rows_move_refl. }
  destruct Hx as (Hmv & Hrc & Hnone). constructor; simpl.
  - done.
  - destruct (ex_runtime ex) as [rt|] eqn:Hrt; [done|]. rewrite (Hnone eq_refl).
    assert (ci_action i = Activate) as Ha by by apply Hact.
    match goal with F : (if enables_work _ then _ else _) = inr _ |- _ => rewrite Ha in F; simpl in F; unfold check_enable in F; team_ok end.
    bool_hyps. lia.
  - intros rt Hrt Hc. pose proof (Hcan rt Hrt Hc) as Ha. rewrite Ha, Hrt. simpl. split; [done|by apply Hrc].
  - destruct (ex_runtime ex); lia.
  - done.
Qed.

Lemma control_ok env d actor i pe pe' resp :
  attempts_ok d (ex_attempts (pe_exec pe)) →
  control localeCompare sha256 canonical_bytes control_hash env d taskId actor i pe = inr (pe', resp) →
  pe' = pe ∨ ∃ ex1 rt', pe_exec pe' = with_runtime ex1 rt' ∧ controlled d i (pe_exec pe) ex1 rt'.
Proof.
  intros Hok H. unfold control in H. destruct (control_body _ _ _ _ _ _ _ _ _ _) as [e|y] eqn:E; [by destruct (bool_decide _)|].
  simplify_eq. unfold control_body in E. team_ok. destruct (tasks _ !! taskId) as [task|]; [|done].
  destruct (roles _ !! _) as [role|]; [|done]. team_ok. destruct (revisions d !! _) as [plan|]; [|done].
  destruct (sessions _ !! _) as [sess|]; [|done]. team_ok. destruct (pe_receipts pe !! _) as [[hash r]|].
  - team_ok. simplify_eq. by left.
  - right. by eapply control_new_ok.
Qed.

(** ** Runs *)

Lemma reserved_ok d ex rq ex' r :
  exec_ok d ex → reserved_from d ex rq ex' r →
  attempts_ok d (ex_attempts ex') ∧ ex_runtime ex' = ex_runtime ex ∧
  ∃ rt, ex_runtime ex = Some rt ∧ len (ex_attempts ex') ≤ rt_limit rt.
Proof.
  intros [Ha _] (rt & retried & x & token & actor & Hrt & _ & Hlt & Hres & Hw & _).
  destruct (reserve_step_ok d ex _ _ _ _ _ _ Ha Hres Hw) as (? & ? & Hlen). split_and!; [done..|]. exists rt. split; [done|lia].
Qed.

Lemma exec_ok_moves d ex ex' :
  exec_ok d ex → rows_move (ex_attempts ex) (ex_attempts ex') → ex_runtime ex' = ex_runtime ex → exec_ok d ex'.
Proof.
  intros [Ha Hl] Hm Hr. pose proof (Forall2_length _ _ _ Hm) as Hlen. split; [by eapply attempts_ok_move|].
  rewrite Hr. destruct (ex_runtime ex); [lia|]. rewrite Hl in Hlen. by apply nil_length_inv.
Qed.

Lemma exec_ok_reserved d ex rq ex' r : exec_ok d ex → reserved_from d ex rq ex' r → exec_ok d ex'.
Proof.
  intros Hok Hres. destruct (reserved_ok d ex rq ex' r Hok Hres) as (? & Hr & rt & Hrt & ?). split; [done|]. by rewrite Hr, Hrt.
Qed.

Lemma exec_ok_control d i ex ex1 rt' : exec_ok d ex → controlled d i ex ex1 rt' → exec_ok d (with_runtime ex1 rt').
Proof.
  intros Hok [C1 C2 _ _ _]. destruct C1 as [Hm|(rq & r & Hres)].
  - split; [apply (attempts_ok_move d (ex_attempts ex)); [apply Hok|done]|]. simpl. destruct (ex_runtime ex) as [rt|] eqn:Hrt; [|done].
    pose proof (eo_limit _ _ Hok) as Hl. rewrite Hrt in Hl. rewrite C2, <- (Forall2_length _ _ _ Hm). done.
  - destruct (reserved_ok d ex rq ex1 r Hok Hres) as (Ha & _ & rt & Hrt & Hl). split; [done|]. simpl. rewrite Hrt in C2. lia.
Qed.

Definition world_ok (w : ExecWorld) : Prop := exec_ok (xw_plans w) (pe_exec (xw_exec w)).

Lemma process_advance env d token ex y :
  process_step localeCompare sha256 canonical_bytes env d taskId token ex = inr y →
  advance localeCompare sha256 canonical_bytes env d taskId token None ex = inr y.
Proof. unfold process_step. destruct (advance _ _ _ _ _ _ _ _ _) as [e|z]; [by destruct (bool_decide _)|done]. Qed.

Lemma world_ok_step w w' : world_ok w → exec_step w w' → world_ok w'.
Proof.
  unfold world_ok. intros Hok Hstep. pose proof (eo_attempts _ _ Hok) as Ha. pose proof (eo_ids _ _ Ha) as Hn.
  destruct Hstep as [env token ex' r H|env actor i pe' r H|env attempt actor submission m ex' r H
    |env attempt actor input m ex' r H|ex' Hr Hat|d' Hg]; simpl.
  - apply process_advance, advance_shape in H as [(Hm & Hr & _)|Hres]; [by eapply exec_ok_moves|by eapply exec_ok_reserved|done].
  - apply control_ok in H as [->|(ex1 & rt' & -> & Hc)]; [done|by eapply exec_ok_control|done].
  - apply publish_moves in H as [Hm Hr]; [by eapply exec_ok_moves|done].
  - apply decide_moves in H as [Hm Hr]; [by eapply exec_ok_moves|done].
  - apply (exec_ok_moves _ _ _ Hok); [rewrite Hat; apply rows_move_refl|done].
  - split; [by eapply attempts_ok_plans|apply Hok].
Qed.

Definition idle_plan (w : ExecWorld) : Prop :=
  ex_runtime (pe_exec (xw_exec w)) = None ∧ ex_attempts (pe_exec (xw_exec w)) = [].

Lemma idle_plan_ok w : idle_plan w → world_ok w.
Proof.
  intros [Hr Ha]. split; [|by rewrite Hr]. rewrite Ha.
  constructor; [apply NoDup_nil_2..|done| |]; by intros a ?%elem_of_nil || intros a b ?%elem_of_nil.
Qed.

Lemma exec_reachable_ok w w' : world_ok w → rtc exec_step w w' → world_ok w'.
Proof. intros Hok. induction 1; eauto using world_ok_step. Qed.

(** A cancelled plan. *)
Definition cancelled (w : ExecWorld) : Prop :=
  rt_state <$> ex_runtime (pe_exec (xw_exec w)) = Some RuntimeCancelled.

Lemma cancelled_step w w' :
  world_ok w → cancelled w → exec_step w w' →
  cancelled w' ∧ rows_move (ex_attempts (pe_exec (xw_exec w))) (ex_attempts (pe_exec (xw_exec w'))).
Proof.
  unfold cancelled. intros Hok Hc Hstep. pose proof (eo_attempts _ _ Hok) as Ha. pose proof (eo_ids _ _ Ha) as Hn.
  destruct (ex_runtime (pe_exec (xw_exec w))) as [rt|] eqn:Hrt; [|done]. simpl in Hc. injection Hc as Hc.
  assert (Hno : ∀ rq ex' r, ¬ reserved_from (xw_plans w) (pe_exec (xw_exec w)) rq ex' r).
  { intros rq ex' r (rt1 & ? & ? & ? & ? & E & Hact & _). rewrite Hrt in E. simplify_eq. congruence. }
  destruct Hstep as [env token ex' r H|env actor i pe' r H|env attempt actor submission m ex' r H
    |env attempt actor input m ex' r H|ex' Hr Hat|d' Hg]; simpl.
  - apply process_advance, advance_shape in H as [(Hm & Hr & _)|Hres]; [|by destruct (Hno _ _ _ Hres)|done].
    rewrite Hr, Hrt. simpl. by rewrite Hc.
  - apply control_ok in H as [->|(ex1 & rt' & -> & Hct)]; [rewrite Hrt; simpl; rewrite Hc; split; [done|apply rows_move_refl]| |done].
    destruct (ct_cancelled _ _ _ _ _ Hct rt Hrt Hc) as [Hs Hm]. simpl. by rewrite Hs.
  - apply publish_moves in H as [Hm Hr]; [|done]. rewrite Hr, Hrt. simpl. by rewrite Hc.
  - apply decide_moves in H as [Hm Hr]; [|done]. rewrite Hr, Hrt. simpl. by rewrite Hc.
  - rewrite Hr, Hrt, Hat. simpl. rewrite Hc. split; [done|apply rows_move_refl].
  - rewrite Hrt. simpl. rewrite Hc. split; [done|apply rows_move_refl].
Qed.
End spec.

(** ** Theorems *)

(** C28: Every attempt of a step works on one accepted submission for each
    dependency of its definition: the submission that was accepted of an
    accepted attempt of that dependency.  This stays so whatever is retried,
    replaced, delivered or controlled afterwards. *)
Theorem steps_run_on_accepted_inputs localeCompare sha256 canonical_bytes control_hash taskId w w' :
  idle_plan w → rtc (exec_step localeCompare sha256 canonical_bytes control_hash taskId) w w' →
  ∀ a, a ∈ ex_attempts (pe_exec (xw_exec w')) →
  ∃ def, plan_definition (xw_plans w') taskId (ar_revision a) (ar_step a) = Some def ∧
    fi_step <$> ar_inputs a ≡ₚ depends_on def ∧
    ∀ i, i ∈ ar_inputs a → ∃ b, b ∈ ex_attempts (pe_exec (xw_exec w')) ∧ ar_id b = fi_attempt i ∧
      ar_step b = fi_step i ∧ ar_state b = AttemptAccepted ∧ ar_accepted b = Some (fi_submission i) ∧ ar_call b = fi_call i.
Proof.
  intros Hi Hr. pose proof (exec_reachable_ok _ _ _ _ _ _ _ (idle_plan_ok taskId w Hi) Hr) as [[_ _ _ _ Hin] _]. exact Hin.
Qed.

(** C29: The attempts of a step are numbered without gaps, each has its own call, all
    but the last are settled, and all together are within the invocation limit
    the plan was activated with. *)
Theorem attempts_exact localeCompare sha256 canonical_bytes control_hash taskId w w' :
  idle_plan w → rtc (exec_step localeCompare sha256 canonical_bytes control_hash taskId) w w' →
  let ex := pe_exec (xw_exec w') in
  NoDup (ar_call <$> ex_attempts ex) ∧
  (∀ step, ar_no <$> of_step step (ex_attempts ex) = Z.of_nat <$> seq 1 (length (of_step step (ex_attempts ex)))) ∧
  (∀ a b, a ∈ ex_attempts ex → b ∈ ex_attempts ex → ar_step a = ar_step b → ar_no a < ar_no b →
    attempt_settled (ar_state a) = true) ∧
  (∀ rt, ex_runtime ex = Some rt → len (ex_attempts ex) ≤ rt_limit rt).
Proof.
  intros Hi Hr ex. pose proof (exec_reachable_ok _ _ _ _ _ _ _ (idle_plan_ok taskId w Hi) Hr) as [[_ H2 H3 H4 _] Hl].
  split_and!; [done..|]. intros rt Hrt. unfold ex in Hrt. by rewrite Hrt in Hl.
Qed.

(** A plan that was cancelled stays so, and no step is reserved any more. *)
Theorem cancelled_is_final localeCompare sha256 canonical_bytes control_hash taskId w w1 w2 :
  idle_plan w → rtc (exec_step localeCompare sha256 canonical_bytes control_hash taskId) w w1 → cancelled w1 →
  rtc (exec_step localeCompare sha256 canonical_bytes control_hash taskId) w1 w2 →
  cancelled w2 ∧ ar_id <$> ex_attempts (pe_exec (xw_exec w2)) = ar_id <$> ex_attempts (pe_exec (xw_exec w1)).
Proof.
  intros Hi Hr Hc H2. pose proof (exec_reachable_ok _ _ _ _ _ _ _ (idle_plan_ok taskId w Hi) Hr) as Hok. clear Hi Hr.
  induction H2 as [w1|w1 w2 w3 Hstep _ IH]; [done|].
  destruct (cancelled_step _ _ _ _ _ _ _ Hok Hc Hstep) as [Hc' Hm].
  destruct (IH Hc' (world_ok_step _ _ _ _ _ _ _ Hok Hstep)) as [? ->]. split; [done|].
  apply (rows_move_fmap ar_id); [by intros ? ? []|done].
Qed.

(** *** A run: two steps, the second after the first *)

Module PlanRun.

Definition policy : TaskReviewPolicy := {| reviewer_user_id := 2; primary_offer_id := "o"; required_checks := [] |}.

Definition step (id : string) (deps : list string) : TaskPlanStep := {|
  step_id := id; title := "t"; instruction := "i"; acceptance := "a"; required := true; depends_on := deps;
  review_policy := policy |}.

Definition plans : PlanTables := {|
  revisions := {[("T"%string, 1) := {| pr_session := "S"; pr_context_version := 0; pr_context_hash := None;
    pr_spec_revision := 1; plan_hash := "h"; created_by_user_id := 1 |}]};
  step_rows := [ {| sr_task := "T"; sr_revision := 1; sr_step := "s1"; position := 0; definition := step "s1" []; step_hash := "x" |};
                 {| sr_task := "T"; sr_revision := 1; sr_step := "s2"; position := 1; definition := step "s2" ["s1"%string];
                    step_hash := "y" |} ];
  heads := {["T"%string := 1]}; plan_receipts := ∅; attempts := [] |}.

Definition view : TeamView := {|
  users := {[1 := true; 2 := true]};
  tasks := {["T"%string := {| task_team := "team"; creator_user_id := 1; task_state := "open" |}]};
  active_teams := {["team"%string]};
  roles := {[("team"%string, 1) := "admin"%string; ("team"%string, 2) := "member"%string]};
  sessions := {["S"%string := {| session_team := "team"; session_active := true; session_task := Some "T"%string;
                                 current_context_version := 0 |}]};
  participants := {[("S"%string, 1)]};
  linked_sessions := ∅; delivery_specs := {["T"%string := 1]}; context_hashes := ∅; callable := ∅ |}.

Definition attempt1 : string := "aaaaaaaa-0000-4000-8000-000000000001".
Definition attempt2 : string := "aaaaaaaa-0000-4000-8000-000000000002".
Definition delivery1 : string := "bbbbbbbb-0000-4000-8000-000000000001".

Definition env (attempt call : string) : StepEnv := {|
  se_enabled := λ _, true; se_identity := Some ("team"%string, 1, "S"%string); se_view := view; se_calls_locked := false;
  se_offer := λ _ _ _, inr (Some "binding"%string); se_binding_busy := λ _, false; se_attempt_id := λ _, attempt;
  se_append := λ _ _ _, inr [call]; se_exhausted := false; se_exhausted_late := false |}.

Definition control_env : ControlEnv :=
  {| ce_step := env attempt1 "c1"; ce_call_locked := false; ce_available := λ _ _ _, true |}.

Definition request (n : Z) (id : string) (a : ControlAction) : PlanControlInput := {|
  ci_request_id := id; ci_expected_revision := n; ci_plan_revision := 1; ci_action := a;
  ci_invocation_limit := if bool_decide (a = Activate) then Some 2 else None; ci_budget := None; ci_attempt_id := None;
  ci_delivery_revision := None; ci_reason := None |}.

Definition delivery_env : DeliveryEnv := {|
  dv_view := view; dv_writes := λ _, true; dv_step_writes := λ _, true; dv_source := λ _, inr ();
  dv_decision_id := "d1" |}.

Definition idle : ExecWorld := {| xw_plans := plans; xw_exec := {|
  pe_exec := {| ex_runtime := None; ex_attempts := []; ex_calls := ∅; ex_call_specs := ∅;
    ex_specs := {[1 := {| sp_offer := "o"; sp_reviewer := 2; sp_checks := []; sp_creator := 1 |}]}; ex_heads := ∅;
    ex_submissions := []; ex_decisions := ∅; ex_files := ∅; ex_receipts := ∅; ex_task_state := "open"; ex_events := [] |};
  pe_receipts := ∅ |} |}.

Definition hash (i : PlanControlInput) : string := ci_request_id i.

(** The operations of the run, from the state an operation returns. *)
Definition after {A} (m : team (TaskExec * A)) (w : ExecWorld) : ExecWorld :=
  match m with inr (ex, _) => set_exec w ex | inl _ => w end.

Definition do_control (i : PlanControlInput) (w : ExecWorld) : ExecWorld :=
  match control (λ _ _, 0) id (λ _, 0) hash control_env plans "T" 1 i (xw_exec w) with
  | inr (pe, _) => {| xw_plans := plans; xw_exec := pe |} | inl _ => w end.

Definition do_advance (attempt call : string) (w : ExecWorld) : ExecWorld :=
  after (process_step (λ _ _, 0) id (λ _, 0) (env attempt call) plans "T" 1 (pe_exec (xw_exec w))) w.

(** The agent finishes its call and prepares a submission. *)
Definition worked (w : ExecWorld) : TaskExec :=
  let ex := pe_exec (xw_exec w) in {|
  ex_runtime := ex_runtime ex; ex_attempts := ex_attempts ex; ex_calls := <["c1"%string := CallCompleted]> (ex_calls ex);
  ex_call_specs := ex_call_specs ex; ex_specs := ex_specs ex; ex_heads := ex_heads ex;
  ex_submissions := [ {| su_id := delivery1; su_call := "c1"; su_spec := 2; su_published := false; su_primary := true;
    su_offer := "o"; su_version := 0; su_owner := 1; su_manifest := []; su_evidence := [] |} ];
  ex_decisions := ex_decisions ex; ex_files := ex_files ex; ex_receipts := ex_receipts ex;
  ex_task_state := ex_task_state ex; ex_events := ex_events ex |}.

Definition activated : ExecWorld := do_control (request 0 "r1" Activate) idle.
Definition first_reserved : ExecWorld := do_advance attempt1 "c1" activated.
Definition prepared : ExecWorld := set_exec first_reserved (worked first_reserved).
Definition reconciled : ExecWorld := do_advance attempt2 "c2" prepared.

Definition published : ExecWorld :=
  after (publish_step delivery_env "T" attempt1 1 delivery1
    {| dm_request_id := "p1"; dm_expected_revision := 1; dm_hash := "p" |} (pe_exec (xw_exec reconciled))) reconciled.

Definition accepted : ExecWorld :=
  after (decide_step delivery_env "T" attempt1 2
    {| ai_submission := delivery1; ai_spec := 2; ai_accepted := true; ai_checks := [] |}
    {| dm_request_id := "a1"; dm_expected_revision := 2; dm_hash := "a" |} (pe_exec (xw_exec published))) published.

Definition second_reserved : ExecWorld := do_advance attempt2 "c2" accepted.
Definition stopped : ExecWorld := do_control (request 1 "r2" CancelPlan) second_reserved.

Abbreviation run := (rtc (exec_step (λ _ _, 0) id (λ _, 0) hash "T")).

Lemma second_reserved_reachable : run idle second_reserved.
Proof.
  eapply rtc_l; [eapply (xs_control _ _ _ _ _ idle control_env 1 (request 0 "r1" Activate)); vm_compute; reflexivity|].
  eapply rtc_l; [eapply (xs_advance _ _ _ _ _ activated (env attempt1 "c1") 1); vm_compute; reflexivity|].
  eapply rtc_l; [apply (xs_other _ _ _ _ _ first_reserved (worked first_reserved)); reflexivity|].
  eapply rtc_l; [eapply (xs_advance _ _ _ _ _ prepared (env attempt2 "c2") 1); vm_compute; reflexivity|].
  eapply rtc_l; [eapply (xs_publish _ _ _ _ _ reconciled delivery_env attempt1 1 delivery1
    {| dm_request_id := "p1"; dm_expected_revision := 1; dm_hash := "p" |}); vm_compute; reflexivity|].
  eapply rtc_l; [eapply (xs_decide _ _ _ _ _ published delivery_env attempt1 2
    {| ai_submission := delivery1; ai_spec := 2; ai_accepted := true; ai_checks := [] |}
    {| dm_request_id := "a1"; dm_expected_revision := 2; dm_hash := "a" |}); vm_compute; reflexivity|].
  eapply rtc_l; [eapply (xs_advance _ _ _ _ _ accepted (env attempt2 "c2") 1); vm_compute; reflexivity|]. apply rtc_refl.
Defined.
End PlanRun.

Lemma steps_run_on_accepted_inputs_witness :
  (λ a, (ar_step a, ar_no a, fi_submission <$> ar_inputs a)) <$> ex_attempts (pe_exec (xw_exec PlanRun.second_reserved))
    = [("s1"%string, 1, []); ("s2"%string, 1, [PlanRun.delivery1])] ∧
  ∀ a, a ∈ ex_attempts (pe_exec (xw_exec PlanRun.second_reserved)) →
  ∃ def, plan_definition PlanRun.plans "T" (ar_revision a) (ar_step a) = Some def ∧ fi_step <$> ar_inputs a ≡ₚ depends_on def ∧
    ∀ i, i ∈ ar_inputs a → ∃ b, b ∈ ex_attempts (pe_exec (xw_exec PlanRun.second_reserved)) ∧ ar_id b = fi_attempt i ∧
      ar_step b = fi_step i ∧ ar_state b = AttemptAccepted ∧ ar_accepted b = Some (fi_submission i) ∧ ar_call b = fi_call i.
Proof.
  split; [vm_compute; reflexivity|].
  apply (steps_run_on_accepted_inputs (λ _ _, 0) id (λ _, 0) PlanRun.hash "T" PlanRun.idle PlanRun.second_reserved);
    [split; reflexivity|apply PlanRun.second_reserved_reachable].
Defined.

Lemma attempts_exact_witness :
  len (ex_attempts (pe_exec (xw_exec PlanRun.second_reserved))) = 2 ∧
  NoDup (ar_call <$> ex_attempts (pe_exec (xw_exec PlanRun.second_reserved))).
Proof.
  split; [vm_compute; reflexivity|].
  apply (attempts_exact (λ _ _, 0) id (λ _, 0) PlanRun.hash "T" PlanRun.idle PlanRun.second_reserved);
    [split; reflexivity|apply PlanRun.second_reserved_reachable].
Defined.

Lemma cancelled_is_final_witness :
  rt_state <$> ex_runtime (pe_exec (xw_exec PlanRun.stopped)) = Some RuntimeCancelled ∧
  cancelled PlanRun.stopped ∧
  ar_id <$> ex_attempts (pe_exec (xw_exec PlanRun.stopped)) = ar_id <$> ex_attempts (pe_exec (xw_exec PlanRun.stopped)).
Proof.
  split; [vm_compute; reflexivity|].
  apply (cancelled_is_final (λ _ _, 0) id (λ _, 0) PlanRun.hash "T" PlanRun.idle PlanRun.stopped PlanRun.stopped);
    [split; reflexivity| |vm_compute; reflexivity|apply rtc_refl].
  transitivity PlanRun.second_reserved; [apply PlanRun.second_reserved_reachable|].
  eapply rtc_l; [eapply (xs_control _ _ _ _ _ PlanRun.second_reserved PlanRun.control_env 1 (PlanRun.request 1 "r2" CancelPlan));
    vm_compute; reflexivity|apply rtc_refl].
Defined.
