(* ===== verification/ContentStream.v ===== *)
(** * ContentStream: the reassembly of streamed agent output
    (web/src/utils/contentStream.ts).

    Chunks of a stream arrive in any order and possibly more than once; the
    assembler keeps early chunks, joins what is contiguous and bounds what it
    buffers.  The state object of a stream is changed in place while it is in
    the map; no other reference to it survives a call, so it is a value here.
    Only the number of buffered chunks and the sum of their sizes depend on
    [chunks.values()], so maps are finite maps. *)

From Stdlib Require Import Ascii.
From S2P Require Import Prelude JsValue StrictJson.

#[local] Open Scope Z_scope.

(** ** Display names *)

(** The text up to the first colon, and what follows it. *)
Fixpoint until_colon (s : string) : option (string * string) :=
  match s with
  | EmptyString => None
  | String c s' =>
      if code c =? 58 then Some (EmptyString, s')
      else match until_colon s' with
           | Some (seg, rest) => Some (String c seg, rest)
           | None => None
           end
  end.

(** [([^:]+):], then the rest. *)
Definition segment (s : string) : option string :=
  match until_colon s with
  | Some (String _ _, rest) => Some rest
  | _ => None
  end.

(** [.+] to the end: no line terminator. *)
Definition one_line (s : string) : bool :=
  negb (bool_decide (s = EmptyString))
  && forallb (λ c, negb ((code c =? 10) || (code c =? 13))) (chars s).

(** [(agent_text|agent_reasoning):([^:]+):([^:]+):(.+)]. *)
Definition stream_name (s : string) : bool :=
  let rest := match strip_prefix "agent_text:" s with
              | Some r => Some r
              | None => strip_prefix "agent_reasoning:" s
              end in
  match rest with
  | Some r => match segment r with
              | Some r' => match segment r' with Some last => one_line last | None => false end
              | None => false
              end
  | None => false
  end.

(** [codex:<generation>:stream:<name>] is shown as [codex:stream:<name>]. *)
Definition contentStreamDisplayId (id : string) : string :=
  match strip_prefix "codex:" id with
  | Some r =>
      match digits_text r with
      | (String _ _, r') =>
          match strip_prefix ":stream:" r' with
          | Some name => if stream_name name then "codex:stream:" +:+ name else id
          | None => id
          end
      | _ => id
      end
  | None => id
  end.

(** ** Data *)

(** [sequence] is [None] for a number that is not an integer. *)
Record ContentStreamChunk : Type := {
  streamId : string;
  sequence : option Z;
  byteOffset : Z;
  content : string;
  final : bool;
  totalBytes : option Z
}.

Record ContentStreamUpdate : Type := {
  u_appended : string;
  u_content : string;
  u_changed : bool;
  u_completed : bool;
  u_transitionedToComplete : bool;
  u_incomplete : bool;
  u_truncated : bool;
  u_receivedBytes : Z
}.

Record BufferedChunk : Type := {
  b_byteOffset : Z; b_content : string; b_final : bool; b_totalBytes : option Z
}.

#[global] Instance BufferedChunk_eq : EqDecision BufferedChunk.
Proof. solve_decision. Defined.

Record ContentStreamState : Type := {
  nextSequence : Z;
  chunks : gmap Z BufferedChunk;
  s_content : string;
  finalSequence : option Z;
  finalTotalBytes : option Z;
  receivedBytes : Z;
  retainedBytes : Z;
  truncated : bool
}.

Record ContentStreamLimits : Type := {
  maxBufferedChunksPerStream : Z;
  maxBufferedBytes : Z;
  maxActiveStreams : Z;
  maxCompletedStreams : Z
}.

Record Assembler : Type := {
  streams : gmap string ContentStreamState;
  completedStreams : gset string;
  completedOrder : list string;
  bufferedBytes : Z
}.

(** The constructor's limits: each option has a default and a floor. *)
Definition make_limits (chunks_ bytes_ active_ completed_ : option Z) : ContentStreamLimits := {|
  maxBufferedChunksPerStream := Z.max 1 (default 64 chunks_);
  maxBufferedBytes := Z.max 0 (default (8 * 1024 * 1024) bytes_);
  maxActiveStreams := Z.max 1 (default 32 active_);
  maxCompletedStreams := Z.max 0 (default 2048 completed_)
|}.

Definition reset : Assembler :=
  {| streams := ∅; completedStreams := ∅; completedOrder := []; bufferedBytes := 0 |}.

(** ** Prefixes of UTF-8 *)

(** [new TextDecoder('utf-8', {fatal: true}).decode(bytes)]; [None] throws. *)
Definition decode_fatal (bytes : string) : option string :=
  match utf8_points bytes with Some points => text_of points | None => None end.

(** [for (let end = first; end >= last; end -= 1)], [n] further rounds. *)
Fixpoint decode_from (encoded : string) (end_ : Z) (n : nat) : string :=
  match decode_fatal (String.substring 0 (Z.to_nat end_) encoded) with
  | Some t => t
  | None => match n with O => EmptyString | S n' => decode_from encoded (end_ - 1) n' end
  end.

Definition retainUtf8Prefix (text : string) (byteLimit : Z) : string :=
  if (byteLimit <=? 0) || bool_decide (text = EmptyString) then EmptyString
  else
    let encoded := utf8_encode text in
    if str_len encoded <=? byteLimit then text
    else
      let firstCandidate := Z.min byteLimit (str_len encoded) in
      let lastCandidate := Z.max 0 (firstCandidate - 3) in
      decode_from encoded firstCandidate (Z.to_nat (firstCandidate - lastCandidate)).

(** ** The assembler *)

Section assembler.
Context (maxPreviewBytes : Z) (limits : ContentStreamLimits).

Definition encoded_bytes (s : string) : Z := str_len (utf8_encode s).

Definition fresh_state : ContentStreamState := {|
  nextSequence := 0; chunks := ∅; s_content := EmptyString; finalSequence := None;
  finalTotalBytes := None; receivedBytes := 0; retainedBytes := 0; truncated := false |}.

(** [while (completedOrder.length > max) completedStreams.delete(completedOrder.shift())]. *)
Fixpoint expire (order : list string) (done : gset string) : list string * gset string :=
  match order with
  | [] => ([], done)
  | expired :: rest =>
      if maxCompletedStreams limits <? Z.of_nat (length order)
      then expire rest (done ∖ {[expired]}) else (order, done)
  end.

Definition rememberCompleted (id : string) (a : Assembler) : Assembler :=
  if maxCompletedStreams limits =? 0 then a
  else
    let '(order, done) := expire (completedOrder a ++ [id]) (completedStreams a ∪ {[id]}) in
    {| streams := streams a; completedStreams := done; completedOrder := order;
       bufferedBytes := bufferedBytes a |}.

Definition pending_bytes (m : gmap Z BufferedChunk) : Z :=
  sumZ (λ kv, encoded_bytes (b_content kv.2)) (map_to_list m).

Definition finishUpdate (id : string) (st : ContentStreamState) (appended : string)
    (changed : bool) (a : Assembler) : ContentStreamUpdate * Assembler :=
  let reachedFinal := match finalSequence st with Some f => f <? nextSequence st | None => false end in
  let totalMatches := match finalTotalBytes st with
                      | Some t => t =? receivedBytes st
                      | None => true
                      end in
  let completed := reachedFinal && totalMatches in
  let update := {|
    u_appended := appended; u_content := s_content st; u_changed := changed;
    u_completed := completed; u_transitionedToComplete := completed;
    u_incomplete := bool_decide (finalSequence st ≠ None) && negb completed;
    u_truncated := truncated st; u_receivedBytes := receivedBytes st |} in
  if completed then
    (update, rememberCompleted id
       {| streams := delete id (streams a); completedStreams := completedStreams a;
          completedOrder := completedOrder a;
          bufferedBytes := bufferedBytes a - pending_bytes (chunks st) |})
  else
    (update, {| streams := <[id := st]> (streams a); completedStreams := completedStreams a;
                completedOrder := completedOrder a; bufferedBytes := bufferedBytes a |}).

(** One round of the loop that joins contiguous chunks. *)
Definition take_next (st : ContentStreamState) (next : BufferedChunk)
    : ContentStreamState * string :=
  let retained := retainUtf8Prefix (b_content next) (maxPreviewBytes - retainedBytes st) in
  ({| nextSequence := nextSequence st + 1;
      chunks := delete (nextSequence st) (chunks st);
      s_content := s_content st +:+ retained;
      finalSequence := finalSequence st;
      finalTotalBytes := finalTotalBytes st;
      receivedBytes := receivedBytes st + encoded_bytes (b_content next);
      retainedBytes := retainedBytes st + encoded_bytes retained;
      truncated := truncated st || negb (bool_decide (retained = b_content next)) |}, retained).

Record Drained : Type := {
  d_state : ContentStreamState; d_buffered : Z; d_appended : string; d_changed : bool
}.

(** [while (chunks.has(nextSequence))]; every round removes a chunk, so the
    number of chunks is enough fuel. *)
Fixpoint join_chunks (fuel : nat) (d : Drained) : Drained :=
  match fuel with
  | O => d
  | S fuel' =>
      let st := d_state d in
      match chunks st !! nextSequence st with
      | None => d
      | Some next =>
          if negb (b_byteOffset next =? receivedBytes st) then d
          else
            let '(st', retained) := take_next st next in
            let d' := {| d_state := st';
                         d_buffered := d_buffered d - encoded_bytes (b_content next);
                         d_appended := d_appended d +:+ retained;
                         d_changed := d_changed d || negb (bool_decide (retained = EmptyString)) |} in
            if b_final next then d' else join_chunks fuel' d'
      end
  end.

Definition buffered_of (c : ContentStreamChunk) : BufferedChunk :=
  {| b_byteOffset := byteOffset c; b_content := content c; b_final := final c;
     b_totalBytes := totalBytes c |}.

(** Storing a chunk in its stream. *)
Definition put_chunk (st : ContentStreamState) (seq : Z) (c : ContentStreamChunk)
    : ContentStreamState := {|
  nextSequence := nextSequence st;
  chunks := <[seq := buffered_of c]> (chunks st);
  s_content := s_content st;
  finalSequence := if final c then Some seq else finalSequence st;
  finalTotalBytes := if final c then totalBytes c else finalTotalBytes st;
  receivedBytes := receivedBytes st;
  retainedBytes := retainedBytes st;
  truncated := truncated st |}.

Definition set_total (st : ContentStreamState) (total : option Z) : ContentStreamState := {|
  nextSequence := nextSequence st; chunks := chunks st; s_content := s_content st;
  finalSequence := finalSequence st; finalTotalBytes := total;
  receivedBytes := receivedBytes st; retainedBytes := retainedBytes st;
  truncated := truncated st |}.

Definition with_buffered (a : Assembler) (bytes : Z) : Assembler :=
  {| streams := streams a; completedStreams := completedStreams a;
     completedOrder := completedOrder a; bufferedBytes := bytes |}.

(** A chunk the state does not have yet. *)
Definition accept_new (c : ContentStreamChunk) (seq : Z) (st : ContentStreamState) (a : Assembler)
    : option ContentStreamUpdate * Assembler :=
  let existing := chunks st !! seq in
  let chunkBytes := encoded_bytes (content c) in
  let existingBytes := match existing with Some e => encoded_bytes (b_content e) | None => 0 end in
  let drainsImmediately := (seq =? nextSequence st) && (byteOffset c =? receivedBytes st) in
  if (bool_decide (existing = None) && negb drainsImmediately
        && (maxBufferedChunksPerStream limits <=? Z.of_nat (size (chunks st))))
     || (maxBufferedBytes limits <? chunkBytes)
     || (negb drainsImmediately
           && (maxBufferedBytes limits <? bufferedBytes a - existingBytes + chunkBytes))
  then (None, a)
  else
    let st' := put_chunk st seq c in
    let d := join_chunks (size (chunks st'))
               {| d_state := st'; d_buffered := bufferedBytes a + (chunkBytes - existingBytes);
                  d_appended := EmptyString; d_changed := false |} in
    let '(update, a') := finishUpdate (streamId c) (d_state d) (d_appended d) (d_changed d)
                           (with_buffered a (d_buffered d)) in
    (Some update, a').

Definition accept_in (c : ContentStreamChunk) (seq : Z) (st : ContentStreamState) (a : Assembler)
    : option ContentStreamUpdate * Assembler :=
  if seq <? nextSequence st then
    if final c && bool_decide (Some seq = finalSequence st) then
      let '(update, a') := finishUpdate (streamId c) (set_total st (totalBytes c)) EmptyString false a in
      (Some update, a')
    else
      (Some {| u_appended := EmptyString; u_content := s_content st; u_changed := false;
               u_completed := false; u_transitionedToComplete := false;
               u_incomplete := bool_decide (finalSequence st ≠ None);
               u_truncated := truncated st; u_receivedBytes := receivedBytes st |}, a)
  else if bool_decide (chunks st !! seq = Some (buffered_of c)) then
    let '(update, a') := finishUpdate (streamId c) st EmptyString false a in (Some update, a')
  else accept_new c seq st a.

Definition already_completed : ContentStreamUpdate := {|
  u_appended := EmptyString; u_content := EmptyString; u_changed := false; u_completed := true;
  u_transitionedToComplete := false; u_incomplete := false; u_truncated := false;
  u_receivedBytes := 0 |}.

(** [None] is the result [null]. *)
Definition accept (c : ContentStreamChunk) (a : Assembler)
    : option ContentStreamUpdate * Assembler :=
  match sequence c with
  | None => (None, a)
  | Some seq =>
      if bool_decide (streamId c = EmptyString) || (seq <? 0) then (None, a)
      else if bool_decide (streamId c ∈ completedStreams a) then (Some already_completed, a)
      else
        match streams a !! streamId c with
        | Some st => accept_in c seq st a
        | None =>
            if maxActiveStreams limits <=? Z.of_nat (size (streams a)) then (None, a)
            else accept_in c seq fresh_state a
        end
  end.
End assembler.
