(* ===== verification/ContentStreamSpec.v ===== *)
(** * ContentStreamSpec: bounds of the stream assembler.

    [retainUtf8Prefix] keeps the longest prefix that fits; the byte counter
    agrees with what is buffered, and every limit holds after every chunk. *)

From Stdlib Require Import Ascii.
From S2P Require Import Prelude JsValue StrictJson JsonRoundTrip ContentStream.

#[local] Open Scope Z_scope.
#[local] Arguments String.append : simpl nomatch.

(** ** Display names *)

(** The generation does not matter, and a display name is its own display
    name. *)
Lemma display_id_generation g name :
  all_digits g = true → g ≠ EmptyString → stream_name name = true →
  contentStreamDisplayId ("codex:" +:+ (g +:+ (":stream:" +:+ name))) = "codex:stream:" +:+ name.
Proof.
  intros Hd Hne Hn. unfold contentStreamDisplayId. rewrite strip_prefix_app, digits_text_app by done.
  destruct g as [|c g]; [done|]. by rewrite strip_prefix_app, Hn.
Qed.

Lemma display_id_idempotent name :
  contentStreamDisplayId ("codex:stream:" +:+ name) = "codex:stream:" +:+ name.
Proof. reflexivity. Qed.

(** ** The longest prefix that fits *)

Definition char_bytes (c : ascii) : Z := if code c <? 128 then 1 else 2.

Fixpoint fit (s : string) (n : Z) : string :=
  match s with
  | EmptyString => EmptyString
  | String c s' =>
      if char_bytes c <=? n then String c (fit s' (n - char_bytes c)) else EmptyString
  end.

Lemma encoded_length s : encoded_bytes s = utf8_length s.
Proof.
  unfold encoded_bytes, str_len. induction s as [|c s IH]; [done|]. simpl.
  destruct (code c <? 128); cbn [String.length]; lia.
Qed.

Lemma utf8_length_app s t : utf8_length (s +:+ t) = utf8_length s + utf8_length t.
Proof. induction s as [|c s IH]; [done|]. simpl. rewrite IH. lia. Qed.

Lemma char_bytes_pos c : 1 ≤ char_bytes c ≤ 2.
Proof. unfold char_bytes. destruct (code c <? 128); lia. Qed.

Lemma fit_prefix s n : ∃ rest, s = fit s n +:+ rest.
Proof.
  revert n. induction s as [|c s IH]; intros n; simpl; [by exists EmptyString|].
  destruct (_ <=? _); [|by eexists]. destruct (IH (n - char_bytes c)) as [rest E].
  exists rest. simpl. by f_equal.
Qed.

Lemma fit_all s n : utf8_length s ≤ n → fit s n = s.
Proof.
  revert n. induction s as [|c s IH]; intros n H; [done|]. cbn [utf8_length] in H.
  fold (char_bytes c) in H. pose proof (utf8_length_nonneg s). simpl.
  destruct (Z.leb_spec (char_bytes c) n); [|lia]. rewrite IH; [done|lia].
Qed.

Lemma fit_bound s n : utf8_length (fit s n) ≤ Z.max 0 n.
Proof.
  revert n. induction s as [|c s IH]; intros n; simpl; [lia|].
  destruct (Z.leb_spec (char_bytes c) n); simpl; [|lia]. fold (char_bytes c).
  specialize (IH (n - char_bytes c)). pose proof (char_bytes_pos c). lia.
Qed.

(** Every longer prefix is too long. *)
Lemma fit_longest s n p rest :
  s = p +:+ rest → utf8_length p ≤ n → ∃ q, fit s n = p +:+ q.
Proof.
  revert s n. induction p as [|c p IH]; intros s n -> H; [by eexists|]. simpl in *.
  fold (char_bytes c) in H. pose proof (utf8_length_nonneg p).
  destruct (Z.leb_spec (char_bytes c) n); [|lia].
  destruct (IH (p +:+ rest) (n - char_bytes c) eq_refl) as [q E]; [lia|]. exists q. by rewrite E.
Qed.

Lemma fit_zero s n : n ≤ 0 → fit s n = EmptyString.
Proof.
  intros H. destruct s as [|c s]; [done|]. simpl. pose proof (char_bytes_pos c).
  destruct (Z.leb_spec (char_bytes c) n); [lia|done].
Qed.

(** Within the text the prefix fills the limit up to half a character. *)
Lemma fit_tight s n :
  0 ≤ n ≤ utf8_length s →
  utf8_length (fit s n) = n ∨ (utf8_length (fit s n) = n - 1 ∧ fit s (n - 1) = fit s n).
Proof.
  revert n. induction s as [|c s IH]; intros n H; simpl in *; [left; lia|].
  fold (char_bytes c) in *. pose proof (char_bytes_pos c).
  destruct (Z.leb_spec (char_bytes c) n).
  - destruct (IH (n - char_bytes c)) as [E|[E E']]; [lia|left; simpl; fold (char_bytes c); lia|].
    right. simpl. fold (char_bytes c). split; [lia|].
    pose proof (utf8_length_nonneg (fit s (n - char_bytes c))).
    destruct (Z.leb_spec (char_bytes c) (n - 1)); [|lia].
    f_equal. rewrite <- E'. f_equal. lia.
  - destruct (decide (n = 0)); [by left|]. right. simpl. split; [lia|].
    destruct (Z.leb_spec (char_bytes c) (n - 1)); [lia|done].
Qed.

(** ** Decoding cut text *)

Lemma decode_cons c bytes :
  decode_fatal (utf8_encode (String c EmptyString) +:+ bytes) = String c <$> decode_fatal bytes.
Proof.
  unfold decode_fatal.
  destruct c as [[] [] [] [] [] [] [] []]; simpl; destruct (utf8_points bytes) as [us|]; simpl; done.
Qed.

Lemma encode_cons c s : utf8_encode (String c s) = utf8_encode (String c EmptyString) +:+ utf8_encode s.
Proof. simpl. by destruct (code c <? 128). Qed.

Lemma encode_one c : String.length (utf8_encode (String c EmptyString)) = Z.to_nat (char_bytes c).
Proof. unfold char_bytes. simpl. by destruct (code c <? 128). Qed.

Lemma substring_app a b n :
  (String.length a ≤ n)%nat →
  String.substring 0 n (a +:+ b) = a +:+ String.substring 0 (n - String.length a) b.
Proof.
  revert n. induction a as [|c a IH]; intros n H; simpl in *.
  - by replace (n - 0)%nat with n by lia.
  - destruct n as [|n]; [lia|]. simpl. f_equal. apply IH. lia.
Qed.

Lemma decode_half c s : char_bytes c = 2 →
  decode_fatal (String.substring 0 1 (utf8_encode (String c s))) = None.
Proof. destruct c as [[] [] [] [] [] [] [] []]; try done. Qed.

Lemma decode_cut s n :
  0 ≤ n ≤ utf8_length s →
  decode_fatal (String.substring 0 (Z.to_nat n) (utf8_encode s))
  = if utf8_length (fit s n) =? n then Some (fit s n) else None.
Proof.
  revert n. induction s as [|c s IH]; intros n Hn.
  { simpl in Hn. by replace n with 0 by lia. }
  cbn [utf8_length] in Hn. fold (char_bytes c) in Hn. pose proof (char_bytes_pos c).
  pose proof (utf8_length_nonneg s).
  cbn [fit]. destruct (Z.leb_spec (char_bytes c) n) as [Hle|Hlt].
  - rewrite encode_cons, substring_app, decode_cons, encode_one by (rewrite encode_one; lia).
    replace (Z.to_nat n - Z.to_nat (char_bytes c))%nat with (Z.to_nat (n - char_bytes c)) by lia.
    rewrite IH by lia. simpl. fold (char_bytes c).
    destruct (Z.eqb_spec (utf8_length (fit s (n - char_bytes c))) (n - char_bytes c)) as [E|E];
      destruct (Z.eqb_spec (char_bytes c + utf8_length (fit s (n - char_bytes c))) n); simpl; (lia || done).
  - destruct (decide (n = 0)) as [->|Hn0].
    + replace (String.substring 0 (Z.to_nat 0) (utf8_encode (String c s))) with EmptyString; [done|].
      simpl. by destruct (code c <? 128).
    + assert (char_bytes c = 2 ∧ n = 1) as [Hc ->] by lia.
      rewrite decode_half by done. done.
Qed.

Lemma retain_fit s n : retainUtf8Prefix s n = fit s n.
Proof.
  unfold retainUtf8Prefix. destruct (Z.leb_spec n 0); [by rewrite fit_zero|].
  case_bool_decide as He; [by subst|]. simpl. change (str_len (utf8_encode s)) with (encoded_bytes s).
  rewrite encoded_length. destruct (Z.leb_spec (utf8_length s) n); [by rewrite fit_all|].
  rewrite Z.min_l by lia. destruct (fit_tight s n) as [E|[E E']]; [lia| |].
  - destruct (Z.to_nat _) as [|k]; cbn [decode_from];
      rewrite decode_cut, E, Z.eqb_refl by lia; done.
  - destruct (Z.to_nat (n - Z.max 0 (n - 3))) as [|k] eqn:Ek; [lia|]. cbn [decode_from].
    rewrite decode_cut, E by lia. destruct (Z.eqb_spec (n - 1) n); [lia|].
    destruct k; cbn [decode_from]; rewrite decode_cut, E', E, Z.eqb_refl by lia; done.
Qed.

(** [retainUtf8Prefix] is the longest prefix of the text, in whole
    characters, whose UTF-8 encoding fits the byte limit: it is a prefix, it
    fits, and every prefix that fits is a prefix of it. *)
Theorem retain_is_longest_prefix s n :
  (∃ rest, s = retainUtf8Prefix s n +:+ rest) ∧
  encoded_bytes (retainUtf8Prefix s n) ≤ Z.max 0 n ∧
  (∀ p rest, s = p +:+ rest → encoded_bytes p ≤ n → ∃ q, retainUtf8Prefix s n = p +:+ q).
Proof.
  rewrite retain_fit. split; [apply fit_prefix|]. rewrite encoded_length. split; [apply fit_bound|].
  intros p rest E H. rewrite encoded_length in H. by eapply fit_longest.
Qed.

(** ** Sums over finite maps *)

Section map_sums.
Context `{Countable K} {A : Type} (f : A → Z).

Definition sum_map (m : gmap K A) : Z := sumZ (λ kv, f kv.2) (map_to_list m).

Lemma sum_map_empty : sum_map ∅ = 0.
Proof. unfold sum_map. by rewrite map_to_list_empty. Qed.

Lemma sum_map_insert m k x : m !! k = None → sum_map (<[k := x]> m) = f x + sum_map m.
Proof.
  intros Hk. unfold sum_map. rewrite (sumZ_perm _ _ _ (map_to_list_insert m k x Hk)). done.
Qed.

Lemma sum_map_delete m k x : m !! k = Some x → sum_map (delete k m) = sum_map m - f x.
Proof.
  intros Hk. rewrite <- (insert_delete_id m k x Hk) at 2.
  rewrite sum_map_insert by apply lookup_delete_eq. lia.
Qed.

Definition weight_at (m : gmap K A) (k : K) : Z :=
  match m !! k with Some x => f x | None => 0 end.

Lemma sum_map_delete_at m k : sum_map (delete k m) = sum_map m - weight_at m k.
Proof.
  unfold weight_at. destruct (m !! k) as [x|] eqn:E; [by apply sum_map_delete|].
  rewrite delete_id by done. lia.
Qed.

Lemma sum_map_set m k x : sum_map (<[k := x]> m) = sum_map m - weight_at m k + f x.
Proof.
  rewrite <- insert_delete_eq, sum_map_insert by apply lookup_delete_eq.
  rewrite sum_map_delete_at. lia.
Qed.

Lemma sum_map_nonneg m : (∀ x, 0 ≤ f x) → 0 ≤ sum_map m.
Proof. intros Hf. apply sumZ_nonneg. intros. apply Hf. Qed.
End map_sums.

Lemma size_delete_le `{Countable K} {A} (m : gmap K A) k : (size (delete k m) ≤ size m)%nat.
Proof. rewrite map_size_delete. destruct (m !! k); simpl; lia. Qed.

Lemma size_pos `{Countable K} {A} (m : gmap K A) k x : m !! k = Some x → (0 < size m)%nat.
Proof.
  intros Hk. destruct (size m) eqn:E; [|lia]. apply map_size_empty_inv in E.
  by rewrite E, lookup_empty in Hk.
Qed.

(** ** Limits *)

Section bounds.
Context (maxPreviewBytes : Z) (limits : ContentStreamLimits).

Definition chunk_weight (b : BufferedChunk) : Z := encoded_bytes (b_content b).
Definition stream_weight (st : ContentStreamState) : Z := pending_bytes (chunks st).

Lemma chunk_weight_nonneg b : 0 ≤ chunk_weight b.
Proof. unfold chunk_weight. rewrite encoded_length. auto with pc. Qed.

Lemma pending_sum m : pending_bytes m = sum_map chunk_weight m.
Proof. done. Qed.

Lemma pending_nonneg m : 0 ≤ pending_bytes m.
Proof. rewrite pending_sum. apply sum_map_nonneg, chunk_weight_nonneg. Qed.

Record stream_ok (st : ContentStreamState) : Prop := {
  so_size : Z.of_nat (size (chunks st)) ≤ maxBufferedChunksPerStream limits;
  so_retained : retainedBytes st = encoded_bytes (s_content st);
  so_preview : retainedBytes st ≤ Z.max 0 maxPreviewBytes
}.

Record assembler_ok (a : Assembler) : Prop := {
  ao_counter : bufferedBytes a = sum_map stream_weight (streams a);
  ao_bytes : bufferedBytes a ≤ maxBufferedBytes limits;
  ao_active : Z.of_nat (size (streams a)) ≤ maxActiveStreams limits;
  ao_streams : map_Forall (λ _, stream_ok) (streams a);
  ao_set : completedStreams a = list_to_set (completedOrder a);
  ao_order : NoDup (completedOrder a);
  ao_completed : Z.of_nat (length (completedOrder a)) ≤ maxCompletedStreams limits
}.

(** *** Draining *)

(** What each round keeps. *)
Lemma join_keeps fuel d :
  retainedBytes (d_state d) = encoded_bytes (s_content (d_state d)) →
  retainedBytes (d_state d) ≤ Z.max 0 maxPreviewBytes →
  let d' := join_chunks maxPreviewBytes fuel d in
  d_buffered d' - stream_weight (d_state d') = d_buffered d - stream_weight (d_state d) ∧
  d_buffered d' ≤ d_buffered d ∧
  (size (chunks (d_state d')) ≤ size (chunks (d_state d)))%nat ∧
  retainedBytes (d_state d') = encoded_bytes (s_content (d_state d')) ∧
  retainedBytes (d_state d') ≤ Z.max 0 maxPreviewBytes.
Proof.
  revert d. induction fuel as [|fuel IH]; intros d Hr Hp; [simpl; lia|]. cbn [join_chunks].
  destruct (chunks (d_state d) !! _) as [next|] eqn:Hn; [|simpl; lia].
  destruct (negb _); [simpl; lia|]. cbn [take_next].
  set (retained := retainUtf8Prefix _ _).
  set (d1 := {| d_state := _ |}).
  assert (H1 : retainedBytes (d_state d1) = encoded_bytes (s_content (d_state d1))).
  { simpl. rewrite Hr, !encoded_length, utf8_length_app. done. }
  assert (H2 : retainedBytes (d_state d1) ≤ Z.max 0 maxPreviewBytes).
  { simpl. unfold retained. rewrite retain_fit, encoded_length.
    pose proof (fit_bound (b_content next) (maxPreviewBytes - retainedBytes (d_state d))). lia. }
  assert (H3 : stream_weight (d_state d1) = stream_weight (d_state d) - chunk_weight next).
  { exact (sum_map_delete chunk_weight _ _ _ Hn). }
  assert (H4 : (size (chunks (d_state d1)) ≤ size (chunks (d_state d)))%nat) by apply size_delete_le.
  pose proof (chunk_weight_nonneg next) as H5. unfold chunk_weight in *.
  destruct (b_final next); [|specialize (IH d1 H1 H2)]; simpl in *; lia.
Qed.

(** A chunk that drains immediately does not stay in the buffer. *)
Lemma join_immediate fuel d next :
  (0 < fuel)%nat → chunks (d_state d) !! nextSequence (d_state d) = Some next →
  b_byteOffset next = receivedBytes (d_state d) →
  retainedBytes (d_state d) = encoded_bytes (s_content (d_state d)) →
  retainedBytes (d_state d) ≤ Z.max 0 maxPreviewBytes →
  let d' := join_chunks maxPreviewBytes fuel d in
  d_buffered d' ≤ d_buffered d - chunk_weight next ∧
  (size (chunks (d_state d')) < size (chunks (d_state d)))%nat.
Proof.
  intros Hf Hn Ho Hr Hp. destruct fuel as [|fuel]; [lia|]. cbn [join_chunks]. rewrite Hn.
  rewrite Ho, Z.eqb_refl. cbn [negb take_next].
  set (retained := retainUtf8Prefix _ _). set (d1 := {| d_state := _ |}).
  assert (Hsz : size (chunks (d_state d1)) = pred (size (chunks (d_state d)))).
  { simpl. by rewrite map_size_delete, Hn. }
  pose proof (size_pos _ _ _ Hn) as Hpos.
  destruct (b_final next); [simpl in *; unfold chunk_weight; lia|].
  destruct (join_keeps fuel d1) as (_ & H1 & H2 & _).
  - simpl. rewrite Hr, !encoded_length, utf8_length_app. done.
  - simpl. unfold retained. rewrite retain_fit, encoded_length.
    pose proof (fit_bound (b_content next) (maxPreviewBytes - retainedBytes (d_state d))). lia.
  - simpl in *. unfold chunk_weight. lia.
Qed.

Hypothesis limits_ok : 1 ≤ maxBufferedChunksPerStream limits ∧ 0 ≤ maxBufferedBytes limits ∧
  1 ≤ maxActiveStreams limits ∧ 0 ≤ maxCompletedStreams limits.

(** *** Completed streams *)

Lemma expire_ok order ids :
  NoDup order → ids = list_to_set order →
  let r := expire limits order ids in
  NoDup r.1 ∧ r.2 = list_to_set r.1 ∧ Z.of_nat (length r.1) ≤ maxCompletedStreams limits.
Proof using limits_ok.
  revert ids. induction order as [|x order IH]; intros ids Hnd ->; cbn [expire]; [simpl; split; [done|]; split; [done|lia]|].
  destruct (Z.ltb_spec (maxCompletedStreams limits) (Z.of_nat (length (x :: order)))); [|simpl in *; by split].
  apply NoDup_cons in Hnd as [Hx Hnd]. apply IH; [done|]. simpl.
  rewrite difference_union_distr_l_L, difference_diag_L, union_empty_l_L.
  apply difference_disjoint_L. apply disjoint_singleton_r. by rewrite elem_of_list_to_set.
Qed.

(** The map without the finished stream, and the identifier remembered. *)
Lemma remember_ok id a :
  assembler_ok a → id ∉ completedStreams a → assembler_ok (rememberCompleted limits id a).
Proof using limits_ok.
  intros [H1 H2 H3 H4 H5 H6 H7] Hid. unfold rememberCompleted.
  destruct (_ =? 0); [by constructor|].
  destruct (expire_ok (completedOrder a ++ [id]) (completedStreams a ∪ {[id]})) as (Hn & Hs & Hl).
  - apply NoDup_app. split; [done|]. split; [|apply NoDup_singleton]. intros x Hx Hi.
    apply list_elem_of_singleton in Hi as ->. apply Hid. rewrite H5. by apply elem_of_list_to_set.
  - rewrite H5, list_to_set_app_L. simpl. by rewrite union_empty_r_L.
  - destruct (expire _ _ _) as [order ids]. by constructor.
Qed.

(** *** One update *)

(** The counter when the stream [id] is about to be stored as [st]. *)
Definition counted (id : string) (st : ContentStreamState) (a : Assembler) : Prop :=
  bufferedBytes a = sum_map stream_weight (streams a) - weight_at stream_weight (streams a) id
    + stream_weight st ∧
  bufferedBytes a ≤ maxBufferedBytes limits ∧
  (streams a !! id = None → Z.of_nat (size (streams a)) < maxActiveStreams limits) ∧
  Z.of_nat (size (streams a)) ≤ maxActiveStreams limits ∧
  map_Forall (λ _, stream_ok) (streams a) ∧ stream_ok st ∧
  completedStreams a = list_to_set (completedOrder a) ∧ NoDup (completedOrder a) ∧
  Z.of_nat (length (completedOrder a)) ≤ maxCompletedStreams limits ∧ id ∉ completedStreams a.

Lemma finish_ok id st appended changed a :
  counted id st a → assembler_ok (finishUpdate limits id st appended changed a).2.
Proof using limits_ok.
  intros (H1 & H2 & Hnew & H3 & H4 & Hst & H5 & H6 & H7 & Hid). unfold finishUpdate.
  destruct (_ && _).
  - cbn [snd]. apply remember_ok; [|done]. constructor; simpl; try done.
    + rewrite sum_map_delete_at. unfold stream_weight in *. lia.
    + pose proof (pending_nonneg (chunks st)). lia.
    + pose proof (size_delete_le (streams a) id). lia.
    + by apply map_Forall_delete.
  - cbn [snd]. constructor; simpl; try done.
    + rewrite sum_map_set. lia.
    + rewrite map_size_insert. destruct (streams a !! id) eqn:E; simpl; [done|]. specialize (Hnew eq_refl). lia.
    + by apply map_Forall_insert_2.
Qed.

(** *** Every chunk *)

(** The state a chunk works on: the stored one, or a fresh one when there is
    room for another stream. *)
Definition working (id : string) (st : ContentStreamState) (a : Assembler) : Prop :=
  streams a !! id = Some st ∨
  (streams a !! id = None ∧ st = fresh_state ∧ Z.of_nat (size (streams a)) < maxActiveStreams limits).

Lemma working_counted id st a :
  assembler_ok a → id ∉ completedStreams a → working id st a → counted id st a.
Proof using limits_ok.
  intros [H1 H2 H3 H4 H5 H6 H7] Hid Hw. unfold counted, weight_at.
  destruct Hw as [E|(E & -> & Hlt)]; rewrite E.
  - split; [lia|]. split; [done|]. split; [done|]. split; [done|]. split; [done|].
    split; [by apply (H4 id)|]. done.
  - split; [change (stream_weight fresh_state) with 0; lia|]. split; [done|]. split; [done|].
    split; [lia|]. split; [done|]. split; [|done]. constructor; simpl; [rewrite map_size_empty; lia|done|lia].
Qed.

Lemma counted_set_total id st a total : counted id st a → counted id (set_total st total) a.
Proof.
  unfold counted. intros (H1 & H2 & H3 & H4 & H5 & [Hs Hr Hp] & H6).
  split; [done|]. split; [done|]. split; [done|]. split; [done|]. split; [done|].
  split; [by constructor|done].
Qed.

Lemma put_weight st seq c :
  stream_weight (put_chunk st seq c)
  = stream_weight st - weight_at chunk_weight (chunks st) seq + encoded_bytes (content c).
Proof. exact (sum_map_set chunk_weight (chunks st) seq (buffered_of c)). Qed.

(** A counted state stays counted when its stream and the counter change by the
    same amount and the limits hold. *)
Lemma counted_update id st st' a bytes :
  counted id st a → bytes - stream_weight st' = bufferedBytes a - stream_weight st →
  bytes ≤ maxBufferedBytes limits → stream_ok st' → counted id st' (with_buffered a bytes).
Proof.
  unfold counted. intros (H1 & H2 & H3 & H4 & H5 & _ & H6) Hb Hle Hok. simpl. split; [lia|]. done.
Qed.

Lemma accept_new_ok c seq st a :
  counted (streamId c) st a → assembler_ok a →
  assembler_ok (accept_new maxPreviewBytes limits c seq st a).2.
Proof using limits_ok.
  intros Hset Ha. pose proof Hset as (_ & Hle & _ & _ & _ & [Hsz Hr Hp] & _).
  unfold accept_new. fold (chunk_weight (buffered_of c)).
  set (existing := chunks st !! seq).
  set (immediate := (seq =? nextSequence st) && (byteOffset c =? receivedBytes st)).
  change (match existing with Some e => encoded_bytes (b_content e) | None => 0 end)
    with (weight_at chunk_weight (chunks st) seq).
  set (B := weight_at chunk_weight (chunks st) seq).
  destruct (_ || _) eqn:Hguard; [done|].
  set (st' := put_chunk st seq c).
  set (d0 := {| d_state := st' |}).
  assert (HB : 0 ≤ B).
  { unfold B, weight_at. destruct (chunks st !! seq) as [e|]; [apply (chunk_weight_nonneg e)|lia]. }
  pose proof (put_weight st seq c) as Hput. fold st' B in Hput.
  pose proof (join_keeps (size (chunks st')) d0 Hr Hp) as (Hw & Hb & Hs & Hr' & Hp').
  assert (Hsize : size (chunks st') = match existing with Some _ => size (chunks st) | None => S (size (chunks st)) end).
  { unfold st', put_chunk, existing. simpl. rewrite map_size_insert. by destruct (chunks st !! seq). }
  set (d := join_chunks maxPreviewBytes (size (chunks st')) d0) in *.
  assert (Hbounds : d_buffered d ≤ maxBufferedBytes limits ∧
    Z.of_nat (size (chunks (d_state d))) ≤ maxBufferedChunksPerStream limits).
  { apply orb_false_iff in Hguard as [Hguard Hg3]. apply orb_false_iff in Hguard as [Hg1 Hg2].
    destruct immediate eqn:Hi; unfold immediate in Hi.
    - bool_hyps. subst seq.
      destruct (join_immediate (size (chunks st')) d0 (buffered_of c)) as [Hd1 Hd2];
        [eapply size_pos, lookup_insert_eq|simpl; apply lookup_insert_eq|done|done|done|].
      fold d in Hd1, Hd2. unfold chunk_weight in Hd1. cbn [d0 d_state d_buffered buffered_of b_content] in Hd1, Hd2.
      split; [lia|].
      destruct existing; lia.
    - simpl in Hg1, Hg3. rewrite andb_true_r in Hg1. cbn [d0 d_state d_buffered] in Hb, Hs. bool_hyps. split; [lia|].
      destruct existing eqn:Ee; [lia|]. rewrite bool_decide_true in Hg1 by done. simpl in Hg1. bool_hyps. lia. }
  pose proof (finish_ok (streamId c) (d_state d) (d_appended d) (d_changed d) (with_buffered a (d_buffered d))) as Hfin.
  destruct (finishUpdate _ _ _ _ _ _) as [u a']. simpl in *. apply Hfin.
  destruct Hbounds. eapply counted_update; [done| |done|by constructor].
  simpl in Hw. unfold chunk_weight in *. simpl in *. lia.
Qed.

Lemma accept_in_ok c seq st a :
  counted (streamId c) st a → assembler_ok a →
  assembler_ok (accept_in maxPreviewBytes limits c seq st a).2.
Proof using limits_ok.
  intros Hset Ha. unfold accept_in. destruct (seq <? _).
  - destruct (_ && _); [|done].
    pose proof (finish_ok (streamId c) (set_total st (totalBytes c)) EmptyString false a) as Hfin.
    destruct (finishUpdate _ _ _ _ _ _). by apply Hfin, counted_set_total.
  - case_bool_decide; [|by apply accept_new_ok].
    pose proof (finish_ok (streamId c) st EmptyString false a) as Hfin.
    destruct (finishUpdate _ _ _ _ _ _). by apply Hfin.
Qed.

Lemma accept_chunk_ok c a : assembler_ok a → assembler_ok (accept maxPreviewBytes limits c a).2.
Proof using limits_ok.
  intros Ha. unfold accept. destruct (sequence c) as [seq|]; [|done].
  destruct (_ || _); [done|]. case_bool_decide as Hc; [done|].
  destruct (streams a !! streamId c) as [st|] eqn:E.
  - apply accept_in_ok; [|done]. apply working_counted; [done|done|by left].
  - destruct (Z.leb_spec (maxActiveStreams limits) (Z.of_nat (size (streams a)))); [done|].
    apply accept_in_ok; [|done]. apply working_counted; [done|done|by right].
Qed.

Lemma reset_ok : assembler_ok reset.
Proof using limits_ok.
  destruct limits_ok as (? & ? & ? & ?). constructor; simpl.
  - by rewrite sum_map_empty.
  - done.
  - rewrite map_size_empty. lia.
  - apply map_Forall_empty.
  - done.
  - constructor.
  - done.
Qed.
End bounds.

(** ** Runs *)

(** The results of a sequence of chunks and the state after it. *)
Fixpoint run (maxPreviewBytes : Z) (limits : ContentStreamLimits) (cs : list ContentStreamChunk)
    (a : Assembler) : list (option ContentStreamUpdate) * Assembler :=
  match cs with
  | [] => ([], a)
  | c :: cs' =>
      let '(r, a') := accept maxPreviewBytes limits c a in
      let '(rs, a'') := run maxPreviewBytes limits cs' a' in (r :: rs, a'')
  end.

Lemma make_limits_ok c b s d :
  let l := make_limits c b s d in
  1 ≤ maxBufferedChunksPerStream l ∧ 0 ≤ maxBufferedBytes l ∧ 1 ≤ maxActiveStreams l ∧
  0 ≤ maxCompletedStreams l.
Proof. unfold make_limits. simpl. lia. Qed.

Lemma run_ok maxPreview limits cs a :
  1 ≤ maxBufferedChunksPerStream limits ∧ 0 ≤ maxBufferedBytes limits ∧
  1 ≤ maxActiveStreams limits ∧ 0 ≤ maxCompletedStreams limits →
  assembler_ok maxPreview limits a → assembler_ok maxPreview limits (run maxPreview limits cs a).2.
Proof.
  intros Hl. revert a. induction cs as [|c cs IH]; intros a Ha; [done|]. simpl.
  pose proof (accept_chunk_ok maxPreview limits Hl c a Ha) as Ha'.
  destruct (accept maxPreview limits c a) as [r a']. specialize (IH a' Ha').
  by destruct (run maxPreview limits cs a').
Qed.

(** C31: with any options, after any sequence of chunks, well formed or not, the
    byte counter is the size of what is buffered and within its limit; every
    stream has at most its limit of buffered chunks and a preview within the
    preview limit; the streams in progress and the remembered identifiers are
    within theirs. *)
Theorem assembler_bounded maxPreview c b s d cs :
  let limits := make_limits c b s d in
  let a := (run maxPreview limits cs reset).2 in
  bufferedBytes a = sum_map (λ st, pending_bytes (chunks st)) (streams a) ∧
  bufferedBytes a ≤ maxBufferedBytes limits ∧
  Z.of_nat (size (streams a)) ≤ maxActiveStreams limits ∧
  Z.of_nat (length (completedOrder a)) ≤ maxCompletedStreams limits ∧
  completedStreams a = list_to_set (completedOrder a) ∧
  (∀ id st, streams a !! id = Some st →
     Z.of_nat (size (chunks st)) ≤ maxBufferedChunksPerStream limits ∧
     encoded_bytes (s_content st) ≤ Z.max 0 maxPreview).
Proof.
  intros limits a. pose proof (make_limits_ok c b s d) as Hl.
  destruct (run_ok maxPreview limits cs reset Hl (reset_ok maxPreview limits Hl)) as [H1 H2 H3 H4 H5 _ H6].
  split; [exact H1|]. split; [done|]. split; [done|]. split; [done|]. split; [done|].
  intros id st Hst. destruct (H4 id st Hst) as [Hs Hr Hp]. split; [done|]. lia.
Qed.
