(* ===== verification/ContentStreamOrder.v ===== *)
(** * ContentStreamOrder: streams are reassembled in order.

    The chunks of one text may arrive in any order, be repeated, lost, or mixed
    with chunks of other streams: what is shown is always a prefix of the text,
    and the text is complete as soon as every chunk has been accepted. *)

From Stdlib Require Import Ascii.
From S2P Require Import Prelude JsValue StrictJson JsonRoundTrip ContentStream ContentStreamSpec.

#[local] Open Scope Z_scope.
#[local] Arguments String.append : simpl nomatch.

(** ** The parts of a text *)

Definition concat_text (l : list string) : string := foldr String.append EmptyString l.

Lemma concat_text_snoc l s : concat_text (l ++ [s]) = concat_text l +:+ s.
Proof.
  induction l as [|x l IH]; simpl; [by rewrite sapp_nil_r|]. by rewrite IH, sapp_assoc.
Qed.

Lemma concat_text_app l k : concat_text (l ++ k) = concat_text l +:+ concat_text k.
Proof. induction l as [|x l IH]; simpl; [done|]. by rewrite IH, sapp_assoc. Qed.

Section parts.
Context (parts : list string).

Abbreviation n := (length parts).

(** The text of the first [k] parts. *)
Definition upto (k : nat) : string := concat_text (take k parts).

Lemma upto_step k p : parts !! k = Some p → upto (S k) = upto k +:+ p.
Proof. intros H. unfold upto. by rewrite (take_S_r _ _ _ H), concat_text_snoc. Qed.

Lemma upto_bytes_le k p :
  parts !! k = Some p → encoded_bytes (upto k) + encoded_bytes p ≤ encoded_bytes (upto n).
Proof.
  intros H. assert (E : upto n = upto k +:+ (p +:+ concat_text (drop (S k) parts))).
  { unfold upto. rewrite take_ge by done. rewrite <- (take_drop_middle parts k p H) at 1.
    by rewrite concat_text_app. }
  rewrite E, !encoded_length, !utf8_length_app.
  pose proof (utf8_length_nonneg (concat_text (drop (S k) parts))). lia.
Qed.

(** A chunk that carries part [i] as the daemon numbers it. *)
Record carries (i : nat) (b : BufferedChunk) : Prop := {
  ca_part : parts !! i = Some (b_content b);
  ca_offset : b_byteOffset b = encoded_bytes (upto i);
  ca_final : b_final b = bool_decide (S i = n);
  ca_total : b_final b = true → b_totalBytes b = None ∨ b_totalBytes b = Some (encoded_bytes (upto n))
}.

Definition honest (c : ContentStreamChunk) : Prop :=
  ∃ i, sequence c = Some (Z.of_nat i) ∧ carries i (buffered_of c).

Lemma carries_lt i b : carries i b → (i < n)%nat.
Proof. intros [H _ _ _]. by apply lookup_lt_Some in H. Qed.

(** ** The state of an honest stream *)

Context (maxPreviewBytes : Z) (limits : ContentStreamLimits).
Hypothesis fits : encoded_bytes (upto n) ≤ maxPreviewBytes.

Record joined (k : nat) (st : ContentStreamState) : Prop := {
  jo_next : nextSequence st = Z.of_nat k;
  jo_le : (k ≤ n)%nat;
  jo_content : s_content st = upto k;
  jo_received : receivedBytes st = encoded_bytes (upto k);
  jo_retained : retainedBytes st = encoded_bytes (upto k);
  jo_truncated : truncated st = false;
  jo_chunks : ∀ j b, chunks st !! j = Some b → ∃ i, j = Z.of_nat i ∧ (k ≤ i)%nat ∧ carries i b;
  jo_final : finalSequence st = None ∨ finalSequence st = Some (Z.of_nat n - 1);
  jo_total : finalTotalBytes st = None ∨ finalTotalBytes st = Some (encoded_bytes (upto n));
  jo_last : k = n ∨ is_Some (chunks st !! (Z.of_nat n - 1)) → finalSequence st = Some (Z.of_nat n - 1)
}.

Lemma take_next_joined k st next :
  joined k st → chunks st !! Z.of_nat k = Some next →
  joined (S k) (take_next maxPreviewBytes st next).1 ∧
  (take_next maxPreviewBytes st next).2 = b_content next.
Proof using fits.
  intros [H1 H2 H3 H4 H5 H6 H7 H8 H9 H10] Hn.
  destruct (H7 _ _ Hn) as (i & Hi & _ & Hc). assert (i = k) as -> by lia.
  pose proof (carries_lt _ _ Hc) as Hlt. pose proof (ca_part _ _ Hc) as Hp.
  assert (Hret : retainUtf8Prefix (b_content next) (maxPreviewBytes - retainedBytes st) = b_content next).
  { rewrite retain_fit, H5. apply fit_all. pose proof (upto_bytes_le _ _ Hp).
    rewrite <- encoded_length. lia. }
  unfold take_next. rewrite Hret. split; [|done]. cbn [fst].
  assert (Hbytes : encoded_bytes (upto (S k)) = encoded_bytes (upto k) + encoded_bytes (b_content next)).
  { by rewrite (upto_step _ _ Hp), !encoded_length, utf8_length_app. }
  constructor; simpl; try done; try lia.
  - by rewrite H3, (upto_step _ _ Hp).
  - by rewrite H6, bool_decide_true.
  - intros j b Hj. rewrite lookup_delete_Some in Hj. destruct Hj as [Hne Hj].
    destruct (H7 _ _ Hj) as (i & -> & ? & ?). exists i. split; [done|]. split; [lia|done].
  - intros [E|Hl]; apply H10; right.
    + replace (Z.of_nat n - 1) with (Z.of_nat k) by lia. by eexists.
    + destruct Hl as [b Hl]. rewrite lookup_delete_Some in Hl. destruct Hl. by eexists.
Qed.

Lemma join_joined fuel k d :
  joined k (d_state d) → (size (chunks (d_state d)) ≤ fuel)%nat →
  let st' := d_state (join_chunks maxPreviewBytes fuel d) in
  ∃ k', joined k' st' ∧ chunks st' !! Z.of_nat k' = None ∧
    (∀ i : nat, (i < k)%nat ∨ is_Some (chunks (d_state d) !! Z.of_nat i) →
       (i < k')%nat ∨ is_Some (chunks st' !! Z.of_nat i)).
Proof using fits.
  revert k d. induction fuel as [|fuel IH]; intros k d Hj Hs; cbn [join_chunks].
  { exists k. split; [done|]. split; [|done].
    assert (E : size (chunks (d_state d)) = 0%nat) by lia. apply map_size_empty_inv in E. by rewrite E. }
  pose proof Hj as [H1 H2 H3 H4 H5 H6 H7 H8 H9 H10]. rewrite H1.
  destruct (chunks (d_state d) !! Z.of_nat k) as [next|] eqn:Hn; [|by exists k].
  destruct (H7 _ _ Hn) as (i & Hi & _ & Hc). assert (i = k) as -> by lia.
  rewrite (ca_offset _ _ Hc), H4, Z.eqb_refl. cbn [negb].
  pose proof (take_next_joined _ _ _ Hj Hn) as [Hj' _].
  destruct (take_next maxPreviewBytes (d_state d) next) as [st1 retained] eqn:Et. cbn [fst] in Hj'.
  assert (Hch : chunks st1 = delete (Z.of_nat k) (chunks (d_state d))).
  { unfold take_next in Et. rewrite H1 in Et. by simplify_eq. }
  assert (Hmove : ∀ i : nat, (i < k)%nat ∨ is_Some (chunks (d_state d) !! Z.of_nat i) →
    (i < S k)%nat ∨ is_Some (chunks st1 !! Z.of_nat i)).
  { intros i [?|Hi']; [left; lia|]. destruct (decide (i = k)) as [->|Hne]; [left; lia|].
    right. rewrite Hch, lookup_delete_ne by lia. done. }
  destruct (b_final next) eqn:Hf.
  - exists (S k). cbn [d_state]. split; [done|]. split; [|done].
    pose proof (ca_final _ _ Hc) as Hfin. rewrite Hf in Hfin. symmetry in Hfin. bool_hyps.
    destruct (chunks st1 !! Z.of_nat (S k)) as [b|] eqn:Eb; [|done].
    destruct (jo_chunks _ _ Hj' _ _ Eb) as (i & Hik & _ & Hci). apply carries_lt in Hci. lia.
  - set (d1 := {| d_state := st1 |}).
    destruct (IH (S k) d1 Hj') as (k' & Hk' & Hd & Hm).
    + simpl. rewrite Hch, map_size_delete, Hn. simpl. lia.
    + exists k'. split; [done|]. split; [done|]. intros i Hi'. apply Hm, Hmove, Hi'.
Qed.

(** ** One chunk *)

Context (id : string).

(** What an update about the first [k] parts says. *)
Record shows (k : nat) (u : ContentStreamUpdate) : Prop := {
  sh_le : (k ≤ n)%nat;
  sh_content : u_content u = upto k;
  sh_received : u_receivedBytes u = encoded_bytes (upto k);
  sh_truncated : u_truncated u = false;
  sh_completed : u_completed u = bool_decide (k = n);
  sh_transition : u_transitionedToComplete u = bool_decide (k = n)
}.

(** The stream is absent, or joined up to a missing part; [seen] are the parts
    it has accepted. *)
Definition stream_inv (seen : list nat) (a : Assembler) : Prop :=
  match streams a !! id with
  | None => seen = []
  | Some st => ∃ k, (k < n)%nat ∧ joined k st ∧ chunks st !! Z.of_nat k = None ∧
      ∀ i, i ∈ seen → (i < k)%nat ∨ is_Some (chunks st !! Z.of_nat i)
  end.

Lemma rememberCompleted_streams i a : streams (rememberCompleted limits i a) = streams a.
Proof. unfold rememberCompleted. destruct (_ =? 0); [done|]. by destruct (expire _ _ _). Qed.

Lemma finish_joined k st appended changed a seen :
  joined k st → chunks st !! Z.of_nat k = None →
  (∀ i, i ∈ seen → (i < k)%nat ∨ is_Some (chunks st !! Z.of_nat i)) →
  let r := finishUpdate limits id st appended changed a in
  shows k r.1 ∧ (k = n → streams r.2 !! id = None) ∧
  ((k < n)%nat → stream_inv seen r.2 ∧ completedStreams r.2 = completedStreams a).
Proof.
  intros Hj Hd Hseen. pose proof Hj as [H1 H2 H3 H4 H5 H6 H7 H8 H9 H10]. unfold finishUpdate.
  set (completed := match finalSequence st with Some f => f <? nextSequence st | None => false end
    && match finalTotalBytes st with Some t => t =? receivedBytes st | None => true end).
  assert (Hc : completed = bool_decide (k = n)).
  { unfold completed. case_bool_decide as Hk.
    - rewrite (H10 (or_introl Hk)), H1. subst k.
      destruct (Z.ltb_spec (Z.of_nat n - 1) (Z.of_nat n)); [|lia].
      destruct H9 as [->| ->]; [done|]. by rewrite H4, Z.eqb_refl.
    - destruct H8 as [->| ->]; [done|]. rewrite H1.
      destruct (Z.ltb_spec (Z.of_nat n - 1) (Z.of_nat k)); [lia|done]. }
  assert (Hshow : ∀ ap ch inc, shows k {| u_appended := ap; u_content := s_content st; u_changed := ch;
    u_completed := completed; u_transitionedToComplete := completed; u_incomplete := inc;
    u_truncated := truncated st; u_receivedBytes := receivedBytes st |}) by (intros; by constructor).
  destruct completed; symmetry in Hc; bool_hyps; cbn [fst snd]; split; try apply Hshow.
  - split; [|lia]. intros _. rewrite rememberCompleted_streams. apply lookup_delete_eq.
  - split; [lia|]. intros Hlt. split; [|done]. unfold stream_inv. cbn [streams].
    rewrite lookup_insert_eq. by exists k.
Qed.

Hypothesis nonempty : parts ≠ [].

Lemma parts_pos : (0 < n)%nat.
Proof using nonempty fits. destruct parts; [done|]. apply Nat.lt_0_succ. Qed.

Lemma fresh_joined : joined 0 fresh_state.
Proof using nonempty fits.
  pose proof parts_pos. constructor; simpl; try done; try lia; try by left.
  intros [?|[b Hb]]; [lia|done].
Qed.

Lemma put_joined k st i c :
  joined k st → (k ≤ i)%nat → carries i (buffered_of c) → joined k (put_chunk st (Z.of_nat i) c).
Proof.
  intros [H1 H2 H3 H4 H5 H6 H7 H8 H9 H10] Hki Hc. pose proof (carries_lt _ _ Hc) as Hlt.
  pose proof (ca_final _ _ Hc) as Hf. pose proof (ca_total _ _ Hc) as Ht. simpl in Hf, Ht.
  assert (Hfin : final c = true → Z.of_nat i = Z.of_nat n - 1).
  { intros E. rewrite E in Hf. symmetry in Hf. bool_hyps. lia. }
  constructor; simpl; try done.
  - intros j b. destruct (decide (j = Z.of_nat i)) as [->|Hne].
    + rewrite lookup_insert_eq. intros [= <-]. by exists i.
    + rewrite lookup_insert_ne by done. apply H7.
  - destruct (final c) eqn:E; [right; by rewrite Hfin|done].
  - destruct (final c) eqn:E; [by apply Ht|done].
  - destruct (final c) eqn:E; [intros _; by rewrite Hfin|]. intros Hl. apply H10.
    destruct Hl as [?|Hl]; [by left|right]. rewrite lookup_insert_ne in Hl; [done|].
    symmetry in Hf. bool_hyps. lia.
Qed.

(** What an honest chunk of the stream does. *)
Definition honest_step (i : nat) (seen : list nat) (a : Assembler)
    (r : option ContentStreamUpdate * Assembler) : Prop :=
  match r with
  | (None, a') => a' = a
  | (Some u, a') =>
      (u = already_completed ∧ a' = a ∧ id ∈ completedStreams a) ∨
      ∃ k, shows k u ∧ (k = n → streams a' !! id = None) ∧
        ((k < n)%nat → stream_inv (i :: seen) a' ∧ completedStreams a' = completedStreams a)
  end.

Lemma finish_step k st appended changed a a0 i seen :
  joined k st → chunks st !! Z.of_nat k = None →
  (∀ j, j ∈ i :: seen → (j < k)%nat ∨ is_Some (chunks st !! Z.of_nat j)) →
  completedStreams a = completedStreams a0 →
  honest_step i seen a0 (let '(u, a') := finishUpdate limits id st appended changed a in (Some u, a')).
Proof.
  intros Hj Hd Hseen Hcs.
  pose proof (finish_joined k st appended changed a (i :: seen) Hj Hd Hseen) as (Hs & Hn & Hi).
  destruct (finishUpdate _ _ _ _ _ _) as [u a']. simpl in *. right. exists k. rewrite <- Hcs. done.
Qed.

Lemma set_total_joined k st total :
  joined k st → total = None ∨ total = Some (encoded_bytes (upto n)) → joined k (set_total st total).
Proof. intros [] Ht. by constructor. Qed.

Lemma accept_new_step k st a i seen c :
  streamId c = id → carries i (buffered_of c) → (k ≤ i)%nat → joined k st →
  (∀ j, j ∈ seen → (j < k)%nat ∨ is_Some (chunks st !! Z.of_nat j)) →
  honest_step i seen a (accept_new maxPreviewBytes limits c (Z.of_nat i) st a).
Proof using fits.
  intros Hid Hc Hki Hj Hseen. unfold accept_new. destruct (_ || _); [done|].
  set (d0 := {| d_state := put_chunk st (Z.of_nat i) c |}).
  destruct (join_joined (size (chunks (d_state d0))) k d0) as (k' & Hj' & Hd' & Hmove);
    [by apply put_joined|done|].
  rewrite Hid. apply (finish_step k'); [done|done| |done]. intros j Hin. apply Hmove.
  apply elem_of_cons in Hin as [->|Hin].
  - right. simpl. rewrite lookup_insert_eq. by eexists.
  - destruct (Hseen _ Hin) as [?|Hj0]; [by left|right]. simpl. by apply lookup_insert_is_Some'; right.
Qed.

(** A chunk against the stored state, or against a fresh one. *)
Lemma accept_in_step k st a i seen c :
  streamId c = id → carries i (buffered_of c) →
  (k < n)%nat → joined k st → chunks st !! Z.of_nat k = None →
  (∀ j, j ∈ seen → (j < k)%nat ∨ is_Some (chunks st !! Z.of_nat j)) →
  streams a !! id = Some st ∨ k = 0%nat →
  honest_step i seen a (accept_in maxPreviewBytes limits c (Z.of_nat i) st a).
Proof using fits.
  intros Hid Hc Hk Hj Hd Hseen Hst. unfold accept_in. rewrite (jo_next _ _ Hj).
  destruct (Z.ltb_spec (Z.of_nat i) (Z.of_nat k)) as [Hlt|Hge].
  - assert (Hf : final c = false).
    { change (final c) with (b_final (buffered_of c)). rewrite (ca_final _ _ Hc).
      apply bool_decide_eq_false. lia. }
    rewrite Hf. simpl. right. exists k. split; [|split; [lia|]].
    + constructor; simpl; [lia|apply Hj|apply Hj|apply Hj|..]; symmetry; apply bool_decide_eq_false; lia.
    + intros _. split; [|done]. destruct Hst as [Hst|]; [|lia]. unfold stream_inv. rewrite Hst.
      exists k. split; [done|]. split; [done|]. split; [done|].
      intros j [->|Hin]%elem_of_cons; [left; lia|by apply Hseen].
  - case_bool_decide as He; [|apply (accept_new_step k); (done || lia)].
    rewrite Hid. apply (finish_step k); [done|done| |done].
    intros j [->|Hin]%elem_of_cons; [right; rewrite He; by eexists|by apply Hseen].
Qed.

Lemma accept_honest a seen c i :
  streamId c = id → id ≠ EmptyString → sequence c = Some (Z.of_nat i) → carries i (buffered_of c) →
  stream_inv seen a → honest_step i seen a (accept maxPreviewBytes limits c a).
Proof using fits nonempty.
  intros Hid Hne Hseq Hc Hinv. unfold accept. rewrite Hseq, Hid.
  rewrite bool_decide_false by done. destruct (Z.ltb_spec (Z.of_nat i) 0); [lia|]. cbn [orb].
  case_bool_decide as Hdone; [by left|]. unfold stream_inv in Hinv.
  destruct (streams a !! id) as [st|] eqn:E.
  - destruct Hinv as (k & Hk & Hj & Hd & Hseen). apply (accept_in_step k); try done. by left.
  - destruct (_ <=? _); [done|]. subst seen.
    apply (accept_in_step 0); try done; [apply parts_pos|apply fresh_joined| |by right].
    intros j Hj. by inv Hj.
Qed.

(** ** Chunks of other streams *)

Lemma expire_sub order ids : (expire limits order ids).2 ⊆ ids.
Proof.
  revert ids. induction order as [|x order IH]; intros ids; cbn [expire]; [done|].
  destruct (_ <? _); [|done]. etrans; [apply IH|]. by apply subseteq_difference_l.
Qed.

Lemma finish_other i st ap ch a :
  i ≠ id → streams (finishUpdate limits i st ap ch a).2 !! id = streams a !! id ∧
  (id ∈ completedStreams (finishUpdate limits i st ap ch a).2 → id ∈ completedStreams a).
Proof.
  intros Hne. unfold finishUpdate. destruct (_ && _); cbn [snd].
  - rewrite rememberCompleted_streams. simpl. split; [by apply lookup_delete_ne|].
    unfold rememberCompleted. destruct (_ =? 0); [done|].
    pose proof (expire_sub (completedOrder a ++ [i]) (completedStreams a ∪ {[i]})) as Hs.
    simpl. destruct (expire _ _ _) as [o ids]. simpl in *. intros Hin. apply Hs, elem_of_union in Hin as [?|Hin]; [done|].
    apply elem_of_singleton in Hin. by subst.
  - simpl. split; [by apply lookup_insert_ne|done].
Qed.

Lemma accept_other c a :
  streamId c ≠ id →
  streams (accept maxPreviewBytes limits c a).2 !! id = streams a !! id ∧
  (id ∈ completedStreams (accept maxPreviewBytes limits c a).2 → id ∈ completedStreams a).
Proof.
  intros Hne.
  assert (Hin : ∀ seq st, streams (accept_in maxPreviewBytes limits c seq st a).2 !! id = streams a !! id ∧
    (id ∈ completedStreams (accept_in maxPreviewBytes limits c seq st a).2 → id ∈ completedStreams a)).
  { intros seq st. unfold accept_in, accept_new.
    destruct (seq <? _); [destruct (_ && _); [|done]|case_bool_decide; [|destruct (_ || _); [done|]]];
    match goal with |- context [finishUpdate limits ?i ?st ?ap ?ch ?a1] =>
      pose proof (finish_other i st ap ch a1 Hne); destruct (finishUpdate limits i st ap ch a1); done end. }
  unfold accept. destruct (sequence c) as [seq|]; [|done]. destruct (_ || _); [done|].
  case_bool_decide; [done|]. destruct (streams a !! streamId c); [apply Hin|].
  destruct (_ <=? _); [done|apply Hin].
Qed.

(** ** Whole runs *)

Hypothesis named : id ≠ EmptyString.

(** The chunks of a run with their results. *)
Definition answers (cs : list ContentStreamChunk) (a : Assembler)
    : list (ContentStreamChunk * option ContentStreamUpdate) :=
  zip cs (run maxPreviewBytes limits cs a).1.

Lemma answers_cons c cs a :
  answers (c :: cs) a
  = (c, (accept maxPreviewBytes limits c a).1) :: answers cs (accept maxPreviewBytes limits c a).2.
Proof.
  unfold answers. cbn [run]. destruct (accept maxPreviewBytes limits c a) as [r a']. cbn [fst snd].
  by destruct (run maxPreviewBytes limits cs a').
Qed.

Definition honest_run (cs : list ContentStreamChunk) : Prop :=
  ∀ c, c ∈ cs → streamId c = id → honest c.

Lemma honest_run_cons c cs :
  honest_run (c :: cs) → (streamId c = id → honest c) ∧ honest_run cs.
Proof. intros H. split; [apply H; left|]. intros c' Hc. apply H. by right. Qed.

Lemma stream_inv_weaken seen a : stream_inv seen a → stream_inv [] a.
Proof.
  unfold stream_inv. destruct (streams a !! id); [|done]. intros (k & ? & ? & ? & _).
  exists k. split; [done|]. split; [done|]. split; [done|]. intros i Hi. by inv Hi.
Qed.

Lemma run_shows cs a c u :
  stream_inv [] a → honest_run cs → (c, Some u) ∈ answers cs a → streamId c = id →
  u = already_completed ∨ ∃ k, shows k u.
Proof using fits nonempty named.
  revert a. induction cs as [|c0 cs IH]; intros a Hinv Hh Hin Hid; [by inv Hin|].
  rewrite answers_cons in Hin. apply honest_run_cons in Hh as [Hc0 Hh].
  destruct (decide (streamId c0 = id)) as [Heq|Hne].
  - destruct (Hc0 Heq) as (i & Hseq & Hc).
    pose proof (accept_honest a [] c0 i Heq named Hseq Hc Hinv) as Hstep.
    destruct (accept maxPreviewBytes limits c0 a) as [r a']. cbn [fst snd] in Hin.
    destruct r as [u0|]; simpl in Hstep.
    + assert (Hinv' : stream_inv [] a').
      { destruct Hstep as [(_ & -> & _)|(k & Hs & Hend & Hgo)]; [done|].
        destruct (decide (k = n)) as [Hk|Hk]; [unfold stream_inv; by rewrite (Hend Hk)|].
        pose proof (sh_le _ _ Hs). destruct Hgo as [Hi _]; [lia|]. by eapply stream_inv_weaken. }
      apply elem_of_cons in Hin as [E|Hin]; [|by apply (IH a')]. simplify_eq.
      destruct Hstep as [(-> & _)|(k & Hs & _)]; [by left|right; by exists k].
    + subst a'. apply elem_of_cons in Hin as [E|Hin]; [done|]. by apply (IH a).
  - apply elem_of_cons in Hin as [E|Hin]; [by simplify_eq|].
    pose proof (accept_other c0 a Hne) as [Hs _]. apply (IH (accept maxPreviewBytes limits c0 a).2); try done.
    unfold stream_inv in *. by rewrite Hs.
Qed.

(** Either the stream completes or some part was never accepted. *)
Lemma run_completes cs a seen :
  stream_inv seen a → id ∉ completedStreams a → honest_run cs →
  (∃ c u, (c, Some u) ∈ answers cs a ∧ streamId c = id ∧ u_transitionedToComplete u = true) ∨
  (∃ i, (i < n)%nat ∧ i ∉ seen ∧
    ∀ c u, (c, Some u) ∈ answers cs a → streamId c = id → sequence c ≠ Some (Z.of_nat i)).
Proof using fits nonempty named.
  revert a seen. induction cs as [|c0 cs IH]; intros a seen Hinv Hnc Hh.
  { right. unfold stream_inv in Hinv. destruct (streams a !! id) as [st|].
    - destruct Hinv as (k & Hk & _ & Hd & Hseen). exists k. split; [done|].
      split; [|intros c u Hin; by inv Hin]. intros Hin. destruct (Hseen k Hin) as [?|[b Hb]]; [lia|congruence].
    - subst seen. exists 0%nat. split; [apply parts_pos|]. split; [apply not_elem_of_nil|]. intros c u Hin. by inv Hin. }
  rewrite answers_cons. apply honest_run_cons in Hh as [Hc0 Hh].
  destruct (decide (streamId c0 = id)) as [Heq|Hne].
  - destruct (Hc0 Heq) as (i & Hseq & Hc).
    pose proof (accept_honest a seen c0 i Heq named Hseq Hc Hinv) as Hstep.
    destruct (accept maxPreviewBytes limits c0 a) as [[u0|] a']; cbn [fst snd]; simpl in Hstep.
    + destruct Hstep as [(_ & _ & ?)|(k & Hs & _ & Hgo)]; [done|].
      destruct (decide (k = n)) as [Hk|Hk].
      { left. exists c0, u0. split; [left|]. split; [done|]. rewrite (sh_transition _ _ Hs).
        by apply bool_decide_eq_true. }
      pose proof (sh_le _ _ Hs). destruct Hgo as [Hi Hcs]; [lia|].
      destruct (IH a' (i :: seen) Hi) as [(c & u & Hin & ?)|(j & Hj & Hnot & Hno)]; [by rewrite Hcs|done| |].
      * left. exists c, u. split; [by right|done].
      * right. exists j. apply not_elem_of_cons in Hnot as [Hji Hnot]. split; [done|]. split; [done|].
        intros c u [E|Hin]%elem_of_cons ?; [simplify_eq; rewrite Hseq; intros [= ?]; lia|by eapply Hno].
    + subst a'. destruct (IH a seen Hinv Hnc Hh) as [(c & u & Hin & ?)|(j & Hj & Hnot & Hno)].
      * left. exists c, u. split; [by right|done].
      * right. exists j. split; [done|]. split; [done|].
        intros c u [E|Hin]%elem_of_cons ?; [done|by eapply Hno].
  - pose proof (accept_other c0 a Hne) as [Hs Hcs].
    destruct (IH (accept maxPreviewBytes limits c0 a).2 seen) as [(c & u & Hin & ?)|(j & Hj & Hnot & Hno)].
    + unfold stream_inv in *. by rewrite Hs.
    + auto.
    + done.
    + left. exists c, u. split; [by right|done].
    + right. exists j. split; [done|]. split; [done|].
      intros c u [E|Hin]%elem_of_cons ?; [by simplify_eq|by eapply Hno].
Qed.

(** C27: let the chunks of a text that fits the preview arrive in any order, with
    repetitions and losses, among arbitrary chunks of other streams.  Every
    update about the stream shows the first [k] parts joined, untruncated, with
    their byte count, and is complete exactly when these are all parts (or it
    repeats that the stream is complete); and once every part has been
    accepted, some update has completed the stream. *)
Theorem stream_reassembled cs :
  honest_run cs →
  (∀ c u, (c, Some u) ∈ answers cs reset → streamId c = id →
     u = already_completed ∨
     ∃ k, (k ≤ n)%nat ∧ u_content u = upto k ∧ u_receivedBytes u = encoded_bytes (upto k) ∧
       u_truncated u = false ∧ (u_completed u = true ↔ k = n)) ∧
  ((∀ i, (i < n)%nat → ∃ c u, (c, Some u) ∈ answers cs reset ∧ streamId c = id ∧
      sequence c = Some (Z.of_nat i)) →
   ∃ c u, (c, Some u) ∈ answers cs reset ∧ streamId c = id ∧ u_transitionedToComplete u = true ∧
     u_content u = concat_text parts).
Proof using fits nonempty named.
  intros Hh. split.
  - intros c u Hin Hid. destruct (run_shows cs reset c u) as [->|[k [H1 H2 H3 H4 H5 _]]]; try done; [by left|].
    right. exists k. split; [done|]. split; [done|]. split; [done|]. split; [done|].
    rewrite H5. apply bool_decide_eq_true.
  - intros Hall. destruct (run_completes cs reset []) as [(c & u & Hin & Hid & Ht)|(i & Hi & _ & Hno)]; try done.
    + exists c, u. split; [done|]. split; [done|]. split; [done|].
      destruct (run_shows cs reset c u) as [->|[k [H1 H2 _ _ _ H6]]]; try done.
      rewrite H6 in Ht. bool_hyps. rewrite H2, Ht. unfold upto. by rewrite take_ge.
    + destruct (Hall i Hi) as (c & u & Hin & Hid & Hs). by destruct (Hno c u Hin Hid).
Qed.
End parts.

(** ** Examples *)

(** The chunk of part [i] of a text. *)
Definition chunk_of (id : string) (parts : list string) (i : nat) : ContentStreamChunk := {|
  streamId := id; sequence := Some (Z.of_nat i); byteOffset := encoded_bytes (upto parts i);
  content := default EmptyString (parts !! i); final := bool_decide (S i = length parts);
  totalBytes := if bool_decide (S i = length parts) then Some (encoded_bytes (concat_text parts))
                else None |}.

Lemma chunk_of_honest id parts i : (i < length parts)%nat → honest parts (chunk_of id parts i).
Proof.
  intros Hi. exists i. split; [done|]. destruct (lookup_lt_is_Some_2 parts i Hi) as [p Hp].
  constructor; simpl; [by rewrite Hp|done|done|]. intros ->. right. unfold upto. by rewrite take_ge.
Qed.

Definition default_limits : ContentStreamLimits := make_limits None None None None.

Definition demo_parts : list string := ["ab"; "c"; "d"]%string.

Definition demo_chunks : list ContentStreamChunk :=
  [chunk_of "s" demo_parts 1; chunk_of "other" ["x"; "y"] 1; chunk_of "s" demo_parts 0;
   chunk_of "s" demo_parts 0; chunk_of "s" demo_parts 2]%string.

Lemma stream_reassembled_witness :
  ∃ c u, (c, Some u) ∈ answers 1024 default_limits demo_chunks reset ∧ streamId c = "s"%string ∧
    u_transitionedToComplete u = true ∧ u_content u = "abcd"%string.
Proof.
  apply (stream_reassembled demo_parts 1024 default_limits ltac:(vm_compute; discriminate) "s"
    ltac:(discriminate) ltac:(discriminate) demo_chunks).
  - intros c Hc Hid. repeat (apply elem_of_cons in Hc as [->|Hc];
      [first [discriminate Hid | apply chunk_of_honest; vm_compute; lia]|]). by inv Hc.
  - intros i Hi. assert (i = 0 ∨ i = 1 ∨ i = 2)%nat as [->|[->| ->]] by (simpl in Hi; lia).
    + exists (chunk_of "s" demo_parts 0). eexists. split; [vm_compute; right; right; left|by split].
    + exists (chunk_of "s" demo_parts 1). eexists. split; [vm_compute; left|by split].
    + exists (chunk_of "s" demo_parts 2). eexists. split; [vm_compute; right; right; right; right; left|by split].
Defined.

(** A text whose second part does not fit the five bytes of the preview that
    are left, and whose third part does. *)
Definition wide_parts : list string :=
  ["abcd"; String (ascii_of_nat 233) EmptyString; "x"]%string.

(** a preview is not always a prefix of the stream: when a part is cut at
    the preview limit in the middle of a character, the next part can still fit
    the bytes left, and the text shown then lacks a character in its middle. *)
Theorem preview_skips_a_character :
  let '(rs, _) := run 5 default_limits
    [chunk_of "s" wide_parts 0; chunk_of "s" wide_parts 1; chunk_of "s" wide_parts 2] reset in
  ∃ u, last rs = Some (Some u) ∧ u_completed u = true ∧ u_content u = "abcdx"%string ∧
    String.prefix (u_content u) (concat_text wide_parts) = false.
Proof. vm_compute. eexists. split; [reflexivity|]. by repeat split. Qed.
