(* ===== verification/GitCodec.v ===== *)
(** * GitCodec: repository paths and files of the memory service's Git sync
    (memory/src/git-sync/paths.ts).

    In the alphabet of JsValue every text is in normal form C, and lower case is
    the mapping of Latin-1 letters. *)

From Stdlib Require Import Ascii.
From S2P Require Import Prelude JsValue JsMap StrictJson StrictJsonSpec JsonRoundTrip.

#[local] Open Scope Z_scope.

Definition KNOWLEDGE_ROOT : string := ".pocketctl/knowledge".

Definition maxFiles : Z := 256.
Definition maxTotalBytes : Z := 8 * 1024 * 1024.
Definition maxSegmentChars : Z := 128.
Definition maxPathBytes : Z := 512.

Record RepositoryFile : Type := { file_path : string; file_mode : string; file_bytes : string }.

(** ** Text *)

(** [toLowerCase] on U+0000..U+00FF. *)
Definition lower_char (c : ascii) : ascii :=
  let k := code c in
  if ((65 <=? k) && (k <=? 90)) || ((192 <=? k) && (k <=? 222) && negb (k =? 215))
  then char_of (k + 32) else c.

Fixpoint to_lower (s : string) : string :=
  match s with
  | EmptyString => EmptyString
  | String c s' => String (lower_char c) (to_lower s')
  end.

(** [s.split('/')]. *)
Fixpoint split_slash (s : string) : list string :=
  match s with
  | EmptyString => [EmptyString]
  | String c s' =>
      if code c =? 47 then EmptyString :: split_slash s'
      else match split_slash s' with
           | seg :: segs => String c seg :: segs
           | [] => [String c EmptyString]
           end
  end.

Fixpoint last_char (s : string) : option ascii :=
  match s with
  | EmptyString => None
  | String c EmptyString => Some c
  | String _ s' => last_char s'
  end.

(** ** Paths *)

(** The characters no path may contain: the backslash and controls. *)
Definition bad_path_char (c : ascii) : bool :=
  let k := code c in (k =? 92) || (k <=? 31) || ((127 <=? k) && (k <=? 159)).

Definition bad_segment (seg : string) : bool :=
  bool_decide (seg ∈ [""; "."; ".."]%string)
  || bool_decide (to_lower seg = ".git"%string)
  || (maxSegmentChars <? str_len seg)
  || match last_char seg with Some c => (code c =? 46) || (code c =? 32) | None => false end.

Definition validateRepositoryPath (path root : string) : outcome string :=
  if starts_with path "/" || existsb bad_path_char (chars path) || (maxPathBytes <? utf8_length path)
  then Throws "invalid_path"
  else if existsb bad_segment (split_slash path) then Throws "invalid_path"
  else if negb (starts_with path (root +:+ "/")) then Throws "outside_bound_root"
  else Returns (to_lower path).

Definition normalizedPathsOverlap (left right : string) : bool :=
  bool_decide (left = right) || starts_with left (right +:+ "/") || starts_with right (left +:+ "/").

(** ** Bundles *)

Definition lfs_header : string := "version https://git-lfs.github.com/spec/v1".

(** The loop over the files; [paths] and [total] are its variables. *)
Fixpoint validate_files (files : list RepositoryFile) (root : string) (paths : list string)
    (total : Z) : outcome unit :=
  match files with
  | [] => Returns ()
  | f :: files' =>
      try! normalized := validateRepositoryPath (file_path f) root in
      if existsb (λ p, normalizedPathsOverlap p normalized) paths then Throws "path_collision"
      else if negb (bool_decide (file_mode f = "100644"%string)) then Throws "unsupported_file_mode"
      else if maxFileBytes <? str_len (file_bytes f) then Throws "file_too_large"
      else
        let total' := total + str_len (file_bytes f) in
        if maxTotalBytes <? total' then Throws "bundle_too_large"
        else if starts_with (file_bytes f) lfs_header then Throws "lfs_pointer"
        else validate_files files' root (paths ++ [normalized]) total'
  end.

Definition validateRepositoryFiles (files : list RepositoryFile) (root : string) : outcome unit :=
  if maxFiles <? Z.of_nat (length files) then Throws "too_many_files"
  else validate_files files root [] 0.

(** The paths and identities of a set of assets, given as (key, path). *)
Fixpoint validate_asset_paths (assets : list (string * string)) (root : string)
    (ids paths : list string) : outcome unit :=
  match assets with
  | [] => Returns ()
  | (key, path) :: assets' =>
      try! normalized := validateRepositoryPath path root in
      if bool_decide (key ∈ ids) then Throws "duplicate_asset_id"
      else if existsb (λ p, normalizedPathsOverlap p normalized) paths then Throws "path_collision"
      else validate_asset_paths assets' root (ids ++ [key]) (paths ++ [normalized])
  end.

(** ** Facts *)

Lemma overlap_sym a b : normalizedPathsOverlap a b = normalizedPathsOverlap b a.
Proof.
  unfold normalizedPathsOverlap. rewrite (bool_decide_ext (a = b) (b = a)) by done.
  destruct (bool_decide _), (starts_with a _), (starts_with b _); done.
Qed.

Lemma validate_files_disjoint files root paths total :
  validate_files files root paths total = Returns () →
  ∃ normal, Forall2 (λ f p, validateRepositoryPath (file_path f) root = Returns p) files normal ∧
    ∀ l1 p l2, normal = l1 ++ p :: l2 →
      Forall (λ q, normalizedPathsOverlap q p = false) (paths ++ l1).
Proof.
  revert paths total. induction files as [|f files IH]; intros paths total H; simpl in H.
  { exists []. split; [constructor|]. by intros [] ? ?. }
  destruct (validateRepositoryPath (file_path f) root) as [p|] eqn:Ep; [|done].
  destruct (existsb _ paths) eqn:Eo; [done|]. repeat (case_match; try done).
  apply IH in H as (normal & Hf & Hd). exists (p :: normal). split; [by constructor|].
  intros [|p' l1] q l2 E; simplify_eq/=.
  - rewrite app_nil_r. apply Forall_forall. intros x Hx.
    destruct (normalizedPathsOverlap x q) eqn:Ex; [|done].
    assert (existsb (λ p, normalizedPathsOverlap p q) paths = true); [|congruence].
    apply existsb_exists. exists x. split; [by apply list_elem_of_In|done].
  - specialize (Hd l1 q l2 eq_refl). by rewrite <- (assoc_L (++)) in Hd.
Qed.

(** * Canonical JSON and the files of an asset
    (memory/src/inbox/canonical-json.ts, memory/src/git-sync/codec.ts).

    Assets are JSON documents.  The zod schema [PortableAssetSchema] and SHA-256
    are arguments; a document the schema refuses throws. *)

(** ** Canonical JSON *)

(** [serialize]: keys sorted, undefined fields dropped, arrays in order. *)
Fixpoint serialize (v : jsval) : string :=
  match v with
  | JArr l => "[" +:+ join "," (map serialize l) +:+ "]"
  | JObj fields =>
      "{" +:+ join "," (map (λ kv, json_quote kv.1 +:+ ":" +:+ kv.2)
        (sort_by_key (flat_map (λ kv, match snd kv with
                                      | JUndef => []
                                      | _ => [(fst kv, serialize (snd kv))]
                                      end) fields))) +:+ "}"
  | _ => default "null" (stringify v)
  end%string.

Definition canonicalJsonString (v : jsval) : string := serialize v.

Definition canonicalPayloadHash (sha256 : string → string) (v : jsval) : string :=
  sha256 (utf8_encode (canonicalJsonString v)).

(** The value [JSON.parse(canonicalJsonString(v))]. *)
Fixpoint canon (v : jsval) : jsval :=
  match v with
  | JUndef => JNull
  | JArr l => JArr (map canon l)
  | JObj fields =>
      JObj (sort_by_key (flat_map (λ kv, match snd kv with
                                         | JUndef => []
                                         | _ => [(fst kv, canon (snd kv))]
                                         end) fields))
  | _ => v
  end.

(** ** Indented JSON *)

Definition newline : string := String (ascii_of_nat 10) EmptyString.

Fixpoint spaces (n : nat) : string :=
  match n with O => EmptyString | S n' => String " " (spaces n') end.

Definition block (open close : string) (indent : nat) (items : list string) : string :=
  match items with
  | [] => open +:+ close
  | _ => open +:+ newline +:+ spaces (S (S indent))
         +:+ join ("," +:+ newline +:+ spaces (S (S indent))) items
         +:+ newline +:+ spaces indent +:+ close
  end%string.

(** [JSON.stringify(v, null, 2)] of a parsed document, at an indentation. *)
Fixpoint indented (indent : nat) (v : jsval) : string :=
  match v with
  | JArr l => block "[" "]" indent (map (indented (S (S indent))) l)
  | JObj fields =>
      block "{" "}" indent
        (map (λ kv, json_quote (fst kv) +:+ ": " +:+ indented (S (S indent)) (snd kv)) fields)
  | _ => default "null" (stringify v)
  end%string.

Definition jsonBytes (v : jsval) : string := utf8_encode (indented 0 (canon v) +:+ newline).

(** ** Fields of assets *)

Definition elems (v : jsval) : list jsval := match v with JArr l => l | _ => [] end.

Definition str_of (v : jsval) : string := match v with JStr s => s | _ => EmptyString end.

Definition asset_path (a : jsval) : string := str_of (js_get a "path").
Definition asset_key (a : jsval) : jsval := js_get a "key".
Definition asset_kind (a : jsval) : string := str_of (js_get (asset_key a) "kind").
Definition asset_id (a : jsval) : string := str_of (js_get (asset_key a) "id").

(** [{...v}] without the field [k]. *)
Definition omit (k : string) (v : jsval) : jsval :=
  match v with
  | JObj fields => JObj (bfilter (λ kv, negb (bool_decide (kv.1 = k))) fields)
  | _ => v
  end.

(** [{...v, [k]: x}]. *)
Definition with_field (k : string) (x : jsval) (v : jsval) : jsval :=
  match v with JObj fields => JObj (set_field k x fields) | _ => JObj [(k, x)] end.

Definition map_arr (f : jsval → jsval) (v : jsval) : jsval := JArr (map f (elems v)).

Fixpoint last_slash (s : string) : option nat :=
  match s with
  | EmptyString => None
  | String c s' =>
      match last_slash s' with
      | Some n => Some (S n)
      | None => if code c =? 47 then Some O else None
      end
  end.

(** [path.slice(0, path.lastIndexOf('/'))]; without a slash the index is -1,
    which drops the last character. *)
Definition directory_of (path : string) : string :=
  match last_slash path with
  | Some n => String.substring 0 n path
  | None => String.substring 0 (pred (String.length path)) path
  end.

(** ** Encoding *)

Section codec.
Context (schema : jsval → option jsval) (sha256 : string → string).

Definition ends_with (s suffix : string) : bool :=
  bool_decide (String.substring (String.length s - String.length suffix) (String.length suffix) s
               = suffix) && (String.length suffix <=? String.length s)%nat.

Definition validateAsset (a : jsval) : outcome jsval :=
  match assertJsonValue 0 a with
  | Some _ => Throws "invalid_json"
  | None =>
      match schema a with
      | None => Throws "schema"
      | Some parsed =>
          try! checked := validate_asset_paths
            [(asset_kind parsed +:+ ":" +:+ asset_id parsed, asset_path parsed)]
            KNOWLEDGE_ROOT [] [] in
          if ends_with (asset_path parsed) ".yaml" then Returns parsed
          else Throws "invalid_metadata_path"
      end
  end.

Definition blob (path bytes : string) : RepositoryFile :=
  {| file_path := path; file_mode := "100644"; file_bytes := bytes |}.

(** [/<!--\s*\/?pocketctl:/] matched at the start of a text. *)
Definition marker_at (s : string) : bool :=
  match strip_prefix "<!--" s with
  | Some r =>
      let r' := trim_start r in
      starts_with r' "pocketctl:" || starts_with r' "/pocketctl:"
  | None => false
  end.

Fixpoint has_marker (s : string) : bool :=
  marker_at s || match s with EmptyString => false | String _ s' => has_marker s' end.

Definition sectionMarker (section : jsval) : string :=
  "<!-- pocketctl:section "
  +:+ json_text (JObj [("sectionId", js_get section "sectionId");
                       ("sectionKey", js_get section "sectionKey")]%string)
  +:+ " -->" +:+ newline.

Definition END_SECTION : string := newline +:+ "<!-- /pocketctl:section -->" +:+ newline.

Fixpoint page_body (sections : list jsval) (body : string) : outcome string :=
  match sections with
  | [] => Returns body
  | s :: rest =>
      let markdown := str_of (js_get s "markdown") in
      if has_marker markdown then Throws "wiki_marker_invalid"
      else page_body rest (body +:+ sectionMarker s +:+ markdown +:+ END_SECTION)
  end.

Definition has_slash (s : string) : bool := existsb (λ c, code c =? 47) (chars s).

(** The page files; [origins] are the immutable pages, position by position. *)
Fixpoint page_files (id directory : string) (pages origins : list jsval)
    : outcome (list RepositoryFile) :=
  match pages, origins with
  | [], _ => Returns []
  | page :: pages', origin :: origins' =>
      let pageKey := str_of (js_get origin "pageKey") in
      if has_slash pageKey then Throws "invalid_page_key"
      else
        let path := directory +:+ "/" +:+ pageKey +:+ ".md" in
        try! valid := validateRepositoryPath path KNOWLEDGE_ROOT in
        try! body := page_body (elems (js_get page "sections"))
          ("<!-- pocketctl:page "
           +:+ json_text (JObj [("assetId", JStr id); ("pageId", js_get page "pageId")]%string)
           +:+ " -->" +:+ newline) in
        try! rest := page_files id directory pages' origins' in
        Returns (blob path (utf8_encode body) :: rest)
  | _ :: _, [] => Throws "TypeError"
  end.

Definition without_markdown (page : jsval) : jsval :=
  with_field "sections" (map_arr (omit "markdown") (js_get page "sections")) page.

Definition asset_files (asset : jsval) : outcome (list RepositoryFile) :=
  let portable := omit "serverOnly" asset in
  if bool_decide (asset_kind asset = "wiki"%string) then
    let directory := directory_of (asset_path asset) in
    let pages := js_get (js_get asset "editable") "pages" in
    let editable := JObj [("pages"%string, map_arr without_markdown pages)] in
    try! page_blobs := page_files (asset_id asset) directory (elems pages)
      (elems (js_get (js_get asset "immutable") "pages")) in
    Returns (blob (asset_path asset) (jsonBytes (with_field "editable" editable portable))
             :: page_blobs)
  else Returns [blob (asset_path asset) (jsonBytes portable)].

Definition encodeAsset (input : jsval) : outcome (list RepositoryFile) :=
  try! asset := validateAsset input in
  try! files := asset_files asset in
  try! checked := validateRepositoryFiles files KNOWLEDGE_ROOT in
  Returns files.

(** ** Content hash *)

Fixpoint hash_pages (pages origins : list jsval) : outcome (list jsval) :=
  match pages, origins with
  | [], _ => Returns []
  | page :: pages', origin :: origins' =>
      try! rest := hash_pages pages' origins' in
      Returns (JObj [("pageKey", js_get origin "pageKey"); ("title", js_get page "title");
                     ("sections", map_arr (omit "sectionId") (js_get page "sections"))]%string
               :: rest)
  | _ :: _, [] => Throws "TypeError"
  end.

Definition assetContentHash (input : jsval) : outcome string :=
  try! asset := validateAsset input in
  try! editable :=
    (if bool_decide (asset_kind asset = "wiki"%string) then
       try! pages := hash_pages (elems (js_get (js_get asset "editable") "pages"))
                       (elems (js_get (js_get asset "immutable") "pages")) in
       Returns (JObj [("pages"%string, JArr pages)])
     else Returns (js_get asset "editable")) in
  Returns (canonicalPayloadHash sha256
    (JObj [("kind"%string, JStr (asset_kind asset)); ("editable"%string, editable)])).
End codec.

(** ** Canonical JSON determines the value *)

(** The fields that are kept. *)
Definition live_fields {A} (f : jsval → A) (fields : list (string * jsval)) : list (string * A) :=
  flat_map (λ kv, match snd kv with JUndef => [] | _ => [(fst kv, f (snd kv))] end) fields.

Lemma live_fields_elem {A} (f : jsval → A) fields k x :
  (k, x) ∈ live_fields f fields ↔ ∃ v, (k, v) ∈ fields ∧ v ≠ JUndef ∧ x = f v.
Proof.
  unfold live_fields. rewrite list_elem_of_In, in_flat_map. split.
  - intros ([k' v] & Hin & Hx). simpl in Hx. exists v. rewrite list_elem_of_In.
    by destruct v; simpl in Hx; try done; destruct Hx as [[= <- <-]|[]]; split.
  - intros (v & Hin & Hv & ->). exists (k, v). rewrite <- list_elem_of_In. split; [done|].
    destruct v; simpl; auto.
Qed.

Lemma live_fields_all {A} (f : jsval → A) fields :
  Forall (λ kv, kv.2 ≠ JUndef) fields → live_fields f fields = map (λ kv, (kv.1, f kv.2)) fields.
Proof.
  unfold live_fields. induction 1 as [|[k v] fields Hv _ IH]; [done|]. simpl in *.
  rewrite IH. by destruct v.
Qed.

Lemma strict_defined d v : strict_value d v → v ≠ JUndef.
Proof. by intros [] [=]. Qed.

Lemma strict_deeper d v : strict_value (S d) v → strict_value d v.
Proof.
  revert d. induction v as [| | | | | |l IH|fields IH] using jsval_nested_ind; intros d H;
    inversion H as [| |? ? Hz|? ? Hf| |? ? Hd Hl|? ? Hd Hk Hl]; subst; try by constructor.
  - constructor; [lia|]. rewrite Forall_forall in *. naive_solver.
  - constructor; [lia|done|]. rewrite Forall_forall in *. naive_solver.
Qed.

Lemma strict_top d v : strict_value d v → strict_value 0 v.
Proof. induction d as [|d IH]; [done|]. intros H. by apply IH, strict_deeper. Qed.

Lemma live_fields_strict {A} (f : jsval → A) d fields :
  Forall (λ kv, strict_value d kv.2) fields →
  live_fields f fields = map (λ kv, (kv.1, f kv.2)) fields.
Proof.
  intros H. apply live_fields_all. eapply Forall_impl; [exact H|]. intros kv. apply strict_defined.
Qed.
