(* ===== verification/GitMerge.v ===== *)
(** * GitMerge: planning a merge of memory assets with a Git tree
    (memory/src/git-sync/merge.ts).

    [base] is the registered snapshot, [memory] the current one, [git] an edit
    made against the base.  The zod schema, SHA-256 and ICU's [localeCompare]
    are arguments. *)

From Stdlib Require Import Ascii.
From S2P Require Import Prelude JsValue JsMap StrictJson GitCodec.

#[local] Open Scope Z_scope.

(** ** Data *)

Record AssetSnapshot : Type := { asset : jsval; contentHash : string; deleted : bool }.

Inductive ConflictReason : Type := both_modified | delete_edit | rename_collision | locked.

Record FieldConflict : Type := { field : string; reason : ConflictReason }.

Inductive MergeResult : Type :=
| Noop (s : AssetSnapshot)
| Export (s : AssetSnapshot)
| Proposal (s : AssetSnapshot)
| Conflict (conflicts : list FieldConflict).

Record AssetMergePlan : Type := { plan_key : jsval; plan_result : MergeResult }.

(** ** Comparisons *)

Definition json_equal (a b : jsval) : bool :=
  match a, b with
  | JUndef, JUndef => true
  | JUndef, _ | _, JUndef => false
  | _, _ => bool_decide (canonicalJsonString a = canonicalJsonString b)
  end.

Definition is_record (v : jsval) : bool := match v with JObj _ => true | _ => false end.

Definition object_keys (v : jsval) : list string :=
  match v with JObj fields => fields.*1 | _ => [] end.

(** ** Fields *)

(** How deep a value is nested; recursion follows the base. *)
Fixpoint nesting (v : jsval) : nat :=
  match v with
  | JArr l => S (list_max (map nesting l))
  | JObj fields => S (list_max (map (λ kv, nesting (snd kv)) fields))
  | _ => O
  end.

Definition field_reason (name : string) : ConflictReason :=
  if bool_decide (name = "path"%string) || ends_with name ".sectionKey"
  then rename_collision else both_modified.

Definition merged_keys (base memory git : jsval) : list string :=
  merge_sort String.le (remove_dups (object_keys base ++ object_keys memory ++ object_keys git)).

(** The value and the conflicts, in the order they are found.  The fuel is more
    than the nesting of the base, which bounds the recursion. *)
Fixpoint merge_field (fuel : nat) (base memory git : jsval) (name : string)
    : jsval * list FieldConflict :=
  if json_equal memory git || json_equal base git then (memory, [])
  else if json_equal base memory then (git, [])
  else if is_record base && is_record memory && is_record git then
    match fuel with
    | O => (memory, [])
    | S fuel' =>
        let parts := map (λ k, (k, merge_field fuel' (js_get base k) (js_get memory k)
                                     (js_get git k) (name +:+ "." +:+ k)))
                       (merged_keys base memory git) in
        (JObj (flat_map (λ p, match fst (snd p) with
                              | JUndef => []
                              | v => [(fst p, v)]
                              end) parts),
         flat_map (λ p, snd (snd p)) parts)
    end
  else (memory, [{| field := name; reason := field_reason name |}]).

Definition mergeField (base memory git : jsval) (name : string) : jsval * list FieldConflict :=
  merge_field (S (nesting base)) base memory git name.

(** ** Wikis *)

Definition editable_of (a : jsval) : jsval := js_get a "editable".
Definition immutable_of (a : jsval) : jsval := js_get a "immutable".

Fixpoint find_index {A} (p : A → bool) (l : list A) : option nat :=
  match l with
  | [] => None
  | x :: l' => if p x then Some O else S <$> find_index p l'
  end.

(** [{...s, sectionId: undefined}]: [canonicalJsonString] drops the field. *)
Definition anonymous (s : jsval) : jsval := omit "sectionId" s.

Definition section_fields : list string := ["sectionKey"; "heading"; "markdown"; "coverage"]%string.

Fixpoint merge_section_fields (names : list string) (bs ms gi target : jsval) (prefix : string)
    (conflicts : list FieldConflict) : jsval * list FieldConflict :=
  match names with
  | [] => (target, conflicts)
  | k :: names' =>
      let '(v, cs) := mergeField (js_get bs k) (js_get ms k) (js_get gi k) (prefix +:+ "." +:+ k) in
      merge_section_fields names' bs ms gi (with_field k v target) prefix (conflicts ++ cs)
  end.

Record WikiState : Type := {
  w_sections : list jsval;          (* of the target page *)
  used_sections : list string;
  w_conflicts : list FieldConflict
}.

Definition conflict (f : string) (r : ConflictReason) : FieldConflict := {| field := f; reason := r |}.

Definition add_conflict (c : FieldConflict) (w : WikiState) : WikiState :=
  {| w_sections := w_sections w; used_sections := used_sections w;
     w_conflicts := w_conflicts w ++ [c] |}.

(** One section [bs] of a base page, with its counterpart [gi] and origin. *)
Definition merge_section (prefix : string) (current : list jsval) (ms_metas : list jsval)
    (bs gi bsMeta : jsval) (w : WikiState) : WikiState :=
  let by_id := λ s, strict_eq (js_get s "sectionId") (js_get bs "sectionId") in
  let by_key := λ s, strict_eq (js_get s "sectionKey") (js_get bs "sectionKey") in
  let test := if existsb by_id current then by_id else by_key in
  match bfilter test current with
  | [ms] =>
      let id := str_of (js_get ms "sectionId") in
      if bool_decide (id ∈ used_sections w)
      then add_conflict (conflict (prefix +:+ ".sections") delete_edit) w
      else
        let index := default O (find_index test current) in
        let msMeta := nth index ms_metas JUndef in
        let name := prefix +:+ ".sections." +:+ js_String (js_get bs "sectionKey") in
        let changed := negb (json_equal (anonymous bs) (anonymous gi)) in
        let w' := {| w_sections := w_sections w; used_sections := used_sections w ++ [id];
                     w_conflicts := w_conflicts w |} in
        if changed
           && (is_str (js_get bsMeta "authority") "locked"
               || is_str (js_get msMeta "authority") "locked"
               || negb (strict_eq (js_get bsMeta "authority") (js_get msMeta "authority"))
               || negb (strict_eq (js_get bsMeta "lockVersion") (js_get msMeta "lockVersion")))
        then add_conflict (conflict name locked) w'
        else
          let '(target, cs) := merge_section_fields section_fields bs ms gi
                                 (nth index (w_sections w) JUndef) name (w_conflicts w) in
          {| w_sections := <[index := target]> (w_sections w);
             used_sections := used_sections w ++ [id]; w_conflicts := cs |}
  | _ => add_conflict (conflict (prefix +:+ ".sections") delete_edit) w
  end.

Fixpoint merge_sections (prefix : string) (current ms_metas : list jsval)
    (before incoming metas : list jsval) (w : WikiState) : WikiState :=
  match before with
  | [] => w
  | bs :: before' =>
      merge_sections prefix current ms_metas before' (tail incoming) (tail metas)
        (merge_section prefix current ms_metas bs (default JUndef (head incoming))
           (default JUndef (head metas)) w)
  end.

Record PagesState : Type := {
  p_output : list jsval; p_used : list string; p_conflicts : list FieldConflict
}.

(** One page of the base, at position [bi]. *)
Definition merge_page (base memory git : jsval) (bi : nat) (bp : jsval) (p : PagesState)
    : PagesState :=
  let origins := elems (js_get (immutable_of memory) "pages") in
  match find_index (λ q, strict_eq (js_get q "pageKey") (js_get bp "pageKey")) origins with
  | None =>
      {| p_output := p_output p; p_used := p_used p;
         p_conflicts := p_conflicts p ++ [conflict "editable.pages" delete_edit] |}
  | Some mi =>
      let before := nth bi (elems (js_get (editable_of base) "pages")) JUndef in
      let current := nth mi (elems (js_get (editable_of memory) "pages")) JUndef in
      let incoming := nth bi (elems (js_get (editable_of git) "pages")) JUndef in
      let target := nth mi (p_output p) JUndef in
      let prefix := "editable.pages." +:+ js_String (js_get bp "pageKey") in
      let '(title, cs) := mergeField (js_get before "title") (js_get current "title")
                            (js_get incoming "title") (prefix +:+ ".title") in
      let target' := with_field "title" title target in
      let conflicts := p_conflicts p ++ cs in
      let bsecs := elems (js_get before "sections") in
      let msecs := elems (js_get current "sections") in
      if negb (Nat.eqb (length bsecs) (length msecs)) then
        {| p_output := <[mi := target']> (p_output p); p_used := p_used p;
           p_conflicts := conflicts ++ [conflict (prefix +:+ ".sections") delete_edit] |}
      else
        let w := merge_sections prefix msecs (elems (js_get (nth mi origins JUndef) "sections"))
                   bsecs (elems (js_get incoming "sections")) (elems (js_get bp "sections"))
                   {| w_sections := elems (js_get target' "sections");
                      used_sections := p_used p; w_conflicts := conflicts |} in
        {| p_output := <[mi := with_field "sections" (JArr (w_sections w)) target']> (p_output p);
           p_used := used_sections w; p_conflicts := w_conflicts w |}
  end.

Fixpoint merge_pages (base memory git : jsval) (bi : nat) (bps : list jsval) (p : PagesState)
    : PagesState :=
  match bps with
  | [] => p
  | bp :: bps' => merge_pages base memory git (S bi) bps' (merge_page base memory git bi bp p)
  end.

Definition section_keys (pages : list jsval) : list string :=
  flat_map (λ page, map (λ s, str_of (js_get s "sectionKey")) (elems (js_get page "sections"))) pages.

Definition mergeWiki (base memory git : jsval) (conflicts : list FieldConflict)
    : jsval * list FieldConflict :=
  let output := elems (js_get (editable_of memory) "pages") in
  let bps := elems (js_get (immutable_of base) "pages") in
  if negb (Nat.eqb (length bps) (length (elems (js_get (immutable_of memory) "pages")))) then
    (editable_of memory, conflicts ++ [conflict "editable.pages" delete_edit])
  else
    let p := merge_pages base memory git O bps
               {| p_output := output; p_used := []; p_conflicts := conflicts |} in
    (with_field "pages" (JArr (p_output p)) (editable_of memory),
     p_conflicts p ++ (if bool_decide (NoDup (section_keys (p_output p))) then []
                       else [conflict "editable.sectionKeys" rename_collision])).

(** ** One asset *)

Section merge.
Context (schema : jsval → option jsval) (sha256 : string → string)
        (localeCompare : string → string → Z).

Definition asAssetSnapshot (a : jsval) (deleted : bool) : outcome AssetSnapshot :=
  try! hash := assetContentHash schema sha256 a in
  Returns {| asset := a; contentHash := hash; deleted := deleted |}.

(** The exact input fence. *)
Definition snapshotDigest (s : AssetSnapshot) : string :=
  canonicalPayloadHash sha256 (JObj [("asset", asset s); ("deleted", JBool (deleted s))]%string).

Definition same_snapshot (a b : AssetSnapshot) : outcome bool :=
  if negb (bool_decide (deleted a = deleted b)) then Returns false
  else if deleted a then Returns true
  else if negb (strict_eq (js_get (asset a) "path") (js_get (asset b) "path")) then Returns false
  else
    try! ha := assetContentHash schema sha256 (asset a) in
    try! hb := assetContentHash schema sha256 (asset b) in
    Returns (bool_decide (ha = hb)).

Definition immutable_fields : list string :=
  ["schemaVersion"; "key"; "connectionId"; "exportId"; "baseVersionId"; "baseRevision";
   "sourceDigest"; "immutable"; "serverOnly"]%string.

(** The page and section identities of a wiki, in order. *)
Definition wiki_shape (a : jsval) : jsval :=
  map_arr (λ p, JArr [js_get p "pageId"; map_arr (λ s, js_get s "sectionId") (js_get p "sections")])
    (js_get (editable_of a) "pages").

Definition source_tokens (a : jsval) : jsval :=
  js_get (js_get (editable_of a) "document") "source_tokens".

Definition validateGitEdit (base git : jsval) : outcome unit :=
  if forallb (λ f, json_equal (js_get base f) (js_get git f)) immutable_fields
     && (negb (bool_decide (asset_kind base = "skill"%string))
         || json_equal (source_tokens base) (source_tokens git))
     && (negb (bool_decide (asset_kind base = "wiki"%string))
         || json_equal (wiki_shape base) (wiki_shape git))
  then Returns () else Throws "immutable_field_changed".

Definition check_snapshot (s : AssetSnapshot) : outcome unit :=
  match schema (asset s) with
  | None => Throws "schema"
  | Some _ =>
      try! hash := assetContentHash schema sha256 (asset s) in
      if bool_decide (contentHash s = hash) then Returns () else Throws "git_snapshot_hash_mismatch"
  end.

Definition owner (a : jsval) : jsval :=
  JArr [js_get (immutable_of a) "installationId"; js_get (immutable_of a) "ownerScopeKind";
        js_get (immutable_of a) "ownerScopeId"].

Definition has_locked (a : jsval) : bool :=
  existsb (λ p, existsb (λ s, is_str (js_get s "authority") "locked") (elems (js_get p "sections")))
    (elems (js_get (immutable_of a) "pages")).

Definition conflict_le (x y : string * FieldConflict) : Prop :=
  localeCompare (field x.2) (field y.2) ≤ 0.

#[global] Instance conflict_le_dec : RelDecision conflict_le.
Proof. intros x y. unfold conflict_le. apply _. Defined.

(** One conflict per field, the last one found, sorted by field. *)
Definition report (conflicts : list FieldConflict) : list FieldConflict :=
  (merge_sort conflict_le (map_of field (λ c, c) conflicts)).*2.

(** The field-wise merge of two live snapshots. *)
Definition merge_live (base memory git : AssetSnapshot) : outcome MergeResult :=
  let '(path, c1) := mergeField (js_get (asset base) "path") (js_get (asset memory) "path")
                       (js_get (asset git) "path") "path" in
  let '(editable, conflicts) :=
    if bool_decide (asset_kind (asset base) = "wiki"%string)
    then mergeWiki (asset base) (asset memory) (asset git) c1
    else let '(e, c2) := mergeField (editable_of (asset base)) (editable_of (asset memory))
                           (editable_of (asset git)) "editable" in (e, c1 ++ c2) in
  match conflicts with
  | _ :: _ => Returns (Conflict (report conflicts))
  | [] =>
      match schema (with_field "editable" editable (with_field "path" path (asset memory))) with
      | None => Throws "schema"
      | Some parsed =>
          try! next := asAssetSnapshot parsed false in
          try! unchanged := same_snapshot next memory in
          Returns (if unchanged then Noop next else Proposal next)
      end
  end.

Definition merge_deleted (base memory git : AssetSnapshot) : outcome MergeResult :=
  try! mg := same_snapshot memory git in
  if mg then Returns (Noop memory)
  else
    try! bm := same_snapshot base memory in
    if negb bm then Returns (Conflict [conflict "deleted" delete_edit])
    else if bool_decide (asset_kind (asset base) = "wiki"%string)
            && (has_locked (asset base) || has_locked (asset memory))
    then Returns (Conflict [conflict "deleted" locked])
    else try! s := asAssetSnapshot (asset memory) true in Returns (Proposal s).

Definition planAssetMerge (base memory git : AssetSnapshot) : outcome MergeResult :=
  try! cb := check_snapshot base in
  try! cm := check_snapshot memory in
  try! cg := check_snapshot git in
  try! edit := validateGitEdit (asset base) (asset git) in
  if negb (json_equal (asset_key (asset base)) (asset_key (asset memory)))
     || negb (strict_eq (js_get (asset base) "connectionId") (js_get (asset memory) "connectionId"))
     || negb (json_equal (owner (asset base)) (owner (asset memory)))
  then Throws "immutable_field_changed"
  else if deleted base && (negb (deleted memory) || negb (deleted git)) then Throws "base_deleted"
  else
    try! bg := same_snapshot base git in
    if bg then
      try! bm := same_snapshot base memory in
      Returns (if bm then Noop memory else Export memory)
    else if deleted memory || deleted git then merge_deleted base memory git
    else merge_live base memory git.

(** ** The namespace of a tree *)

Definition is_conflict (p : AssetMergePlan) : bool :=
  match plan_result p with Conflict _ => true | _ => false end.

(** The snapshot whose files a plan leaves in the tree. *)
Definition plan_snapshot (memory : list AssetSnapshot) (p : AssetMergePlan) : outcome AssetSnapshot :=
  match plan_result p with
  | Conflict _ =>
      match find_first (λ m, json_equal (asset_key (asset m)) (plan_key p)) memory with
      | Some m => Returns m
      | None => Throws "TypeError"
      end
  | Noop s | Export s | Proposal s => Returns s
  end.

Fixpoint normalize_all (files : list RepositoryFile) : outcome (list string) :=
  match files with
  | [] => Returns []
  | f :: files' =>
      try! p := validateRepositoryPath (file_path f) KNOWLEDGE_ROOT in
      try! ps := normalize_all files' in Returns (p :: ps)
  end.

(** The normalized paths of the files a plan leaves. *)
Definition plan_paths (memory : list AssetSnapshot) (p : AssetMergePlan) : outcome (list string) :=
  try! s := plan_snapshot memory p in
  if deleted s then Returns []
  else try! files := encodeAsset schema (asset s) in normalize_all files.

(** The collisions one path adds. *)
Definition hits (reserved : list string) (occupied : list (string * nat)) (index : nat)
    (path : string) : gset nat :=
  (if existsb (normalizedPathsOverlap path) reserved then {[index]} else ∅)
  ∪ list_to_set (flat_map (λ o, if normalizedPathsOverlap path o.1 then [index; o.2] else []) occupied).

Fixpoint scan_paths (reserved : list string) (index : nat) (paths : list string)
    (occupied : list (string * nat)) (collisions : gset nat) : list (string * nat) * gset nat :=
  match paths with
  | [] => (occupied, collisions)
  | p :: paths' =>
      scan_paths reserved index paths' (occupied ++ [(p, index)])
        (collisions ∪ hits reserved occupied index p)
  end.

Fixpoint scan_plans (memory : list AssetSnapshot) (reserved : list string) (index : nat)
    (plans : list AssetMergePlan) (occupied : list (string * nat)) (collisions : gset nat)
    : outcome (gset nat) :=
  match plans with
  | [] => Returns collisions
  | p :: plans' =>
      try! paths := plan_paths memory p in
      let '(occupied', collisions') := scan_paths reserved index paths occupied collisions in
      scan_plans memory reserved (S index) plans' occupied' collisions'
  end.

Definition collide (p : AssetMergePlan) : AssetMergePlan :=
  let prior := match plan_result p with Conflict cs => cs | _ => [] end in
  {| plan_key := plan_key p;
     plan_result := Conflict (bfilter (λ c, negb (bool_decide (field c = "path"%string))) prior
                              ++ [conflict "path" rename_collision]) |}.

Definition apply_collisions (collisions : gset nat) (plans : list AssetMergePlan)
    : list AssetMergePlan :=
  imap (λ i p, if bool_decide (i ∈ collisions) then collide p else p) plans.

Definition round_changed (collisions : gset nat) (plans : list AssetMergePlan) : bool :=
  existsb (λ x, x) (imap (λ i p, bool_decide (i ∈ collisions) && negb (is_conflict p)) plans).

(** [for (let round = 0; round <= output.length; round++)]. *)
Fixpoint close_rounds (rounds : nat) (memory : list AssetSnapshot) (reserved : list string)
    (plans : list AssetMergePlan) : outcome (list AssetMergePlan) :=
  match rounds with
  | O => Throws "git_namespace_unstable"
  | S rounds' =>
      try! collisions := scan_plans memory reserved O plans [] ∅ in
      let plans' := apply_collisions collisions plans in
      if round_changed collisions plans then close_rounds rounds' memory reserved plans'
      else Returns plans'
  end.

Fixpoint normalize_reserved (paths : list string) : outcome (list string) :=
  match paths with
  | [] => Returns []
  | p :: paths' =>
      try! q := validateRepositoryPath p KNOWLEDGE_ROOT in
      try! qs := normalize_reserved paths' in Returns (q :: qs)
  end.

Definition closeAssetNamespace (plans : list AssetMergePlan) (memory : list AssetSnapshot)
    (reservedPaths : list string) : outcome (list AssetMergePlan) :=
  try! reserved := normalize_reserved reservedPaths in
  close_rounds (S (length plans)) memory reserved plans.

(** ** A tree of assets *)

Definition keyOf (s : AssetSnapshot) : string :=
  asset_kind (asset s) +:+ ":" +:+ asset_id (asset s).

Fixpoint check_paths (trees : list AssetSnapshot) : outcome unit :=
  match trees with
  | [] => Returns ()
  | s :: rest =>
      try! p := validateRepositoryPath (asset_path (asset s)) KNOWLEDGE_ROOT in check_paths rest
  end.

Fixpoint plan_all (base memory git : list AssetSnapshot) : outcome (list AssetMergePlan) :=
  match base with
  | [] => Returns []
  | b :: base' =>
      match find_first (λ m, bool_decide (keyOf m = keyOf b)) memory,
            find_first (λ g, bool_decide (keyOf g = keyOf b)) git with
      | Some m, Some g =>
          try! r := planAssetMerge b m g in
          try! rest := plan_all base' memory git in
          Returns ({| plan_key := asset_key (asset b); plan_result := r |} :: rest)
      | _, _ => Throws "TypeError"
      end
  end.

Definition sorted_keys (l : list AssetSnapshot) : list string := merge_sort String.le (map keyOf l).

Definition planAssetTreeMerge (base memory git : list AssetSnapshot)
    : outcome (list AssetMergePlan) :=
  try! valid := check_paths (base ++ memory ++ git) in
  let keys := sorted_keys base in
  if negb (bool_decide (NoDup keys)) || negb (bool_decide (keys = sorted_keys memory))
     || negb (bool_decide (keys = sorted_keys git))
  then Throws "git_tree_identity"
  else
    try! plans := plan_all base memory git in
    closeAssetNamespace plans memory [].
End merge.
