(* ===== verification/GitMergeSpec.v ===== *)
(** * GitMergeSpec: the namespace of a merged tree.

    [closeAssetNamespace] ends with a result whenever the files of every plan
    and of its fallback can be encoded, and no file of an asset it lets through
    overlaps a reserved path or a file of another asset. *)

From Stdlib Require Import Ascii.
From S2P Require Import Prelude JsValue JsMap StrictJson GitCodec GitMerge.

Section namespace.
Context (schema : jsval → option jsval) (memory : list AssetSnapshot).

Abbreviation paths_of := (plan_paths schema memory).

(** ** Scanning *)

Lemma hits_reserved reserved occupied index p :
  existsb (normalizedPathsOverlap p) reserved = true → index ∈ hits reserved occupied index p.
Proof. intros H. unfold hits. rewrite H. set_solver. Qed.

Lemma hits_occupied reserved occupied index p o :
  o ∈ occupied → normalizedPathsOverlap p o.1 = true →
  index ∈ hits reserved occupied index p ∧ o.2 ∈ hits reserved occupied index p.
Proof.
  intros Ho Hp. unfold hits.
  assert (∀ x, x ∈ [index; o.2] → x ∈ flat_map (λ o, if normalizedPathsOverlap p o.1 then [index; o.2] else []) occupied) as Hin.
  { intros x Hx. apply list_elem_of_In, in_flat_map. exists o. split; [by apply list_elem_of_In|].
    rewrite Hp. by apply list_elem_of_In. }
  split; apply elem_of_union_r, elem_of_list_to_set, Hin; set_solver.
Qed.

Lemma scan_paths_spec reserved index paths occupied collisions :
  let r := scan_paths reserved index paths occupied collisions in
  r.1 = occupied ++ map (λ p, (p, index)) paths ∧ collisions ⊆ r.2 ∧
  (∀ p, p ∈ paths → existsb (normalizedPathsOverlap p) reserved = true → index ∈ r.2) ∧
  (∀ p o, p ∈ paths → o ∈ occupied → normalizedPathsOverlap p o.1 = true →
     index ∈ r.2 ∧ o.2 ∈ r.2).
Proof.
  revert occupied collisions. induction paths as [|q paths IH]; intros occupied collisions; simpl.
  { rewrite app_nil_r. split; [done|]. split; [done|]. split; intros p; [intros Hp; by inv Hp|intros o Hp; by inv Hp]. }
  destruct (IH (occupied ++ [(q, index)]) (collisions ∪ hits reserved occupied index q)) as (E & Hsub & Hres & Hocc).
  split; [rewrite E, <- (assoc_L (++)); done|]. split; [set_solver|]. split.
  - intros p [->|Hp]%elem_of_cons H; [|by eapply Hres].
    apply Hsub, elem_of_union_r. by apply hits_reserved.
  - intros p o [->|Hp]%elem_of_cons Ho H.
    + destruct (hits_occupied reserved occupied index q o Ho H).
      split; apply Hsub, elem_of_union_r; done.
    + apply (Hocc p o Hp); [apply elem_of_app; by left|done].
Qed.

(** What the collisions of a round cover. *)
Record covered (reserved : list string) (occupied : list (string * nat)) (index : nat)
    (pathss : list (list string)) (collisions : gset nat) : Prop := {
  cv_reserved : ∀ i ps p, pathss !! i = Some ps → p ∈ ps →
    existsb (normalizedPathsOverlap p) reserved = true → index + i ∈ collisions;
  cv_occupied : ∀ i ps p o, pathss !! i = Some ps → p ∈ ps → o ∈ occupied →
    normalizedPathsOverlap p o.1 = true → index + i ∈ collisions ∧ o.2 ∈ collisions;
  cv_pairs : ∀ i j ps qs p q, j < i → pathss !! i = Some ps → pathss !! j = Some qs →
    p ∈ ps → q ∈ qs → normalizedPathsOverlap p q = true →
    index + i ∈ collisions ∧ index + j ∈ collisions
}.

Lemma scan_plans_spec reserved index plans occupied collisions result :
  scan_plans schema memory reserved index plans occupied collisions = Returns result →
  collisions ⊆ result ∧
  ∃ pathss, Forall2 (λ p ps, paths_of p = Returns ps) plans pathss ∧
    covered reserved occupied index pathss result.
Proof.
  revert index occupied collisions. induction plans as [|pl plans IH]; intros index occupied collisions H; simpl in H.
  { simplify_eq. split; [done|]. exists []. split; [constructor|]. by constructor. }
  destruct (paths_of pl) as [ps|] eqn:Eps; [|done].
  pose proof (scan_paths_spec reserved index ps occupied collisions) as (E & Hsub & Hres & Hocc).
  destruct (scan_paths reserved index ps occupied collisions) as [occ' col']. simpl in *.
  apply IH in H as (Hsub' & pathss & Hf & [H1 H2 H3]). split; [set_solver|].
  exists (ps :: pathss). split; [by constructor|].
  assert (Hshift : ∀ i, S index + i = index + S i) by (intros; lia).
  constructor.
  - intros [|i] qs p Hq Hp Ho; simpl in Hq; simplify_eq.
    + rewrite Nat.add_0_r. apply Hsub'. by eapply Hres.
    + rewrite <- Hshift. by eapply H1.
  - intros [|i] qs p o Hq Hp Ho Hov; simpl in Hq; simplify_eq.
    + rewrite Nat.add_0_r. destruct (Hocc p o Hp Ho Hov). split; by apply Hsub'.
    + rewrite <- Hshift. eapply H2; [done|done| |done]. subst. apply elem_of_app. by left.
  - intros [|i] [|j] qs rs p q Hij Hq Hr Hp Hin Hov; simpl in Hq, Hr; simplify_eq; try lia.
    + rewrite <- Hshift, Nat.add_0_r. apply (H2 i qs p (q, index)); [done|done| |done].
      subst. apply elem_of_app. right. apply list_elem_of_fmap. by exists q.
    + rewrite <- !Hshift. eapply H3; [|exact Hq|exact Hr|exact Hp|exact Hin|exact Hov]. lia.
Qed.

Lemma scan_plans_total reserved index plans occupied collisions :
  Forall (λ p, is_return (paths_of p) = true) plans →
  ∃ result, scan_plans schema memory reserved index plans occupied collisions = Returns result.
Proof.
  revert index occupied collisions. induction plans as [|pl plans IH]; intros index occupied collisions H; simpl.
  { by eexists. }
  apply Forall_cons in H as [Hp H]. destruct (paths_of pl) as [ps|]; [|done].
  destruct (scan_paths _ _ _ _ _). by apply IH.
Qed.

(** ** Rounds *)

Lemma collide_conflict p : is_conflict (collide p) = true.
Proof. done. Qed.

(** A conflict keeps the paths of the current asset. *)
Lemma collide_paths p : is_conflict p = true → paths_of (collide p) = paths_of p.
Proof. unfold plan_paths, plan_snapshot, is_conflict. simpl. by destruct (plan_result p). Qed.

Definition encodable (p : AssetMergePlan) : Prop :=
  is_return (paths_of p) = true ∧ is_return (paths_of (collide p)) = true.

Lemma collide_encodable p : encodable p → encodable (collide p).
Proof. intros [_ H]. split; [done|]. by rewrite collide_paths. Qed.

Lemma apply_lookup collisions plans i :
  apply_collisions collisions plans !! i
  = (λ p, if bool_decide (i ∈ collisions) then collide p else p) <$> plans !! i.
Proof. unfold apply_collisions. by rewrite list_lookup_imap. Qed.

Lemma apply_encodable collisions plans :
  Forall encodable plans → Forall encodable (apply_collisions collisions plans).
Proof.
  rewrite !Forall_lookup. intros H i p Hp. rewrite apply_lookup in Hp.
  destruct (plans !! i) as [q|] eqn:E; simplify_eq/=. specialize (H i q E).
  case_bool_decide; [by apply collide_encodable|done].
Qed.

(** The plans that are not in conflict. *)
Definition live_plans (plans : list AssetMergePlan) : nat := length (bfilter (λ p, negb (is_conflict p)) plans).

Lemma apply_cons collisions p plans :
  apply_collisions collisions (p :: plans)
  = (if bool_decide (0 ∈ collisions) then collide p else p)
    :: apply_collisions (set_map pred (collisions ∖ {[0]})) plans.
Proof.
  unfold apply_collisions. simpl. f_equal. apply imap_ext. intros i x _. simpl.
  rewrite (bool_decide_ext (S i ∈ collisions) (i ∈ (set_map pred (collisions ∖ {[0]}) : gset nat))); [done|].
  rewrite elem_of_map. split.
  - intros H. exists (S i). split; [done|]. set_solver.
  - intros (x' & -> & H). destruct x'; set_solver.
Qed.

Lemma round_cons collisions p plans :
  round_changed collisions (p :: plans)
  = (bool_decide (0 ∈ collisions) && negb (is_conflict p))
    || round_changed (set_map pred (collisions ∖ {[0]})) plans.
Proof.
  unfold round_changed. simpl. f_equal. f_equal. apply imap_ext. intros i x _. simpl.
  rewrite (bool_decide_ext (S i ∈ collisions) (i ∈ (set_map pred (collisions ∖ {[0]}) : gset nat))); [done|].
  rewrite elem_of_map. split.
  - intros H. exists (S i). split; [done|]. set_solver.
  - intros (x' & -> & H). destruct x'; set_solver.
Qed.

Lemma live_plans_apply collisions plans :
  live_plans (apply_collisions collisions plans) ≤ live_plans plans ∧
  (round_changed collisions plans = true → live_plans (apply_collisions collisions plans) < live_plans plans).
Proof.
  revert collisions. induction plans as [|p plans IH]; intros collisions; [done|].
  rewrite apply_cons, round_cons. destruct (IH (set_map pred (collisions ∖ {[0]}))) as [H1 H2].
  unfold live_plans in *. simpl. case_bool_decide; simpl.
  - destruct (is_conflict p); simpl; [split; [lia|intros H3; specialize (H2 H3); lia]|split; lia].
  - destruct (is_conflict p); simpl; split; try lia; intros H3; specialize (H2 H3); lia.
Qed.

Lemma not_changed collisions plans i p :
  round_changed collisions plans = false → plans !! i = Some p → i ∈ collisions → is_conflict p = true.
Proof.
  unfold round_changed. intros H Hp Hi. destruct (is_conflict p) eqn:E; [done|].
  assert (existsb (λ x, x) (imap (λ i p, bool_decide (i ∈ collisions) && negb (is_conflict p)) plans) = true);
    [|congruence].
  apply existsb_exists. exists true. split; [|done]. apply list_elem_of_In, elem_of_lookup_imap.
  exists i, p. split; [by rewrite bool_decide_true, E|done].
Qed.

(** A plan in the result is its input, or a conflict about the same asset. *)
Definition kept (p q : AssetMergePlan) : Prop :=
  q = p ∨ (is_conflict q = true ∧ plan_key q = plan_key p).

Lemma apply_kept collisions plans : Forall2 kept plans (apply_collisions collisions plans).
Proof.
  apply Forall2_lookup. intros i. rewrite apply_lookup. destruct (plans !! i) as [p|]; simpl; constructor.
  case_bool_decide; [by right|by left].
Qed.

#[local] Instance kept_trans : Transitive kept.
Proof. intros p q r [->|[? ?]] [->|[? ?]]; [by left|by right|by right|right; split; congruence]. Qed.

(** No file of a plan let through meets a reserved path or another plan's file. *)
Definition separate (reserved : list string) (plans : list AssetMergePlan) : Prop :=
  ∀ i p ps, plans !! i = Some p → is_conflict p = false → paths_of p = Returns ps →
    (∀ a r, a ∈ ps → r ∈ reserved → normalizedPathsOverlap a r = false) ∧
    (∀ j q qs a b, j ≠ i → plans !! j = Some q → paths_of q = Returns qs →
       a ∈ ps → b ∈ qs → normalizedPathsOverlap a b = false).

Lemma apply_paths collisions plans i p q :
  round_changed collisions plans = false → plans !! i = Some p →
  apply_collisions collisions plans !! i = Some q → paths_of q = paths_of p.
Proof.
  intros Hch Hp Hq. rewrite apply_lookup, Hp in Hq. simplify_eq/=.
  case_bool_decide as Hi; [|done]. apply collide_paths. by eapply not_changed.
Qed.

Lemma last_round_separate reserved plans collisions :
  scan_plans schema memory reserved 0 plans [] ∅ = Returns collisions →
  round_changed collisions plans = false → separate reserved (apply_collisions collisions plans).
Proof.
  intros Hscan Hch. apply scan_plans_spec in Hscan as (_ & pathss & Hf & [Hres _ Hpairs]).
  assert (Hread : ∀ i p qs, apply_collisions collisions plans !! i = Some p → paths_of p = Returns qs →
    pathss !! i = Some qs).
  { intros i p qs Hp Hqs. destruct (plans !! i) as [p0|] eqn:E0.
    - rewrite (apply_paths _ _ _ _ _ Hch E0 Hp) in Hqs.
      destruct (Forall2_lookup_l _ _ _ _ _ Hf E0) as (ps & Hps & Hq). congruence.
    - by rewrite apply_lookup, E0 in Hp. }
  intros i p ps Hp Hnc Hps. pose proof (Hread _ _ _ Hp Hps) as Hi.
  assert (Hni : i ∉ collisions).
  { intros Hin. rewrite apply_lookup in Hp. destruct (plans !! i); simplify_eq/=.
    rewrite bool_decide_true in Hnc by done. done. }
  split.
  - intros a r Ha Hr. destruct (normalizedPathsOverlap a r) eqn:Eo; [|done]. destruct Hni.
    apply (Hres i ps a Hi Ha). apply existsb_exists. exists r. split; [by apply list_elem_of_In|done].
  - intros j q qs a b Hne Hq Hqs Ha Hb. pose proof (Hread _ _ _ Hq Hqs) as Hj.
    destruct (normalizedPathsOverlap a b) eqn:Eo; [|done]. destruct Hni.
    destruct (decide (j < i)); [by apply (Hpairs i j ps qs a b)|].
    rewrite overlap_sym in Eo. assert (Hij : i < j) by lia. by apply (Hpairs j i qs ps b a Hij).
Qed.

Lemma close_rounds_ok rounds reserved plans :
  live_plans plans < rounds → Forall encodable plans →
  ∃ out, close_rounds schema rounds memory reserved plans = Returns out ∧
    Forall2 kept plans out ∧ separate reserved out.
Proof.
  revert plans. induction rounds as [|rounds IH]; intros plans Hlive Henc; [lia|]. cbn [close_rounds].
  destruct (scan_plans_total reserved 0 plans [] ∅) as [collisions Hscan].
  { eapply Forall_impl; [exact Henc|]. by intros p [? _]. }
  rewrite Hscan. destruct (round_changed collisions plans) eqn:Hch.
  - destruct (IH (apply_collisions collisions plans)) as (out & Hout & Hk & Hs).
    + apply live_plans_apply in Hch. lia.
    + by apply apply_encodable.
    + exists out. split; [done|]. split; [|done]. etrans; [apply apply_kept|done].
  - eexists. split; [done|]. split; [apply apply_kept|by apply last_round_separate].
Qed.

(** C33: when the files of every plan, and of the current asset behind it, can be
    encoded, closing the namespace ends with a result: each plan stays as it is
    or becomes a conflict about the same asset, and no file of a plan that is
    not a conflict overlaps a reserved path or a file left by another plan. *)
Theorem namespace_closed plans reservedPaths reserved :
  normalize_reserved reservedPaths = Returns reserved → Forall encodable plans →
  ∃ out, closeAssetNamespace schema plans memory reservedPaths = Returns out ∧
    Forall2 kept plans out ∧ separate reserved out.
Proof.
  intros Hr Henc. unfold closeAssetNamespace. rewrite Hr. apply close_rounds_ok; [|done].
  unfold live_plans. pose proof (bfilter_length (λ p, negb (is_conflict p)) plans). lia.
Qed.
End namespace.

(** ** Example *)

Definition demo_asset (id path : string) : jsval :=
  JObj [("key", JObj [("kind", JStr "claim"); ("id", JStr id)]);
        ("path", JStr (".pocketctl/knowledge/" +:+ path)); ("editable", JObj [])]%string.

Definition demo_snapshot (id path : string) : AssetSnapshot :=
  {| asset := demo_asset id path; contentHash := ""; deleted := false |}.

Definition proposed (id path : string) : AssetMergePlan :=
  {| plan_key := asset_key (demo_asset id path); plan_result := Proposal (demo_snapshot id path) |}.

Definition demo_memory : list AssetSnapshot :=
  [demo_snapshot "1" "a.yaml"; demo_snapshot "2" "b.yaml"; demo_snapshot "3" "c.yaml"]%string.

(** The first plan takes the path the second keeps, so it falls back to its old
    path, which the third plan wants. *)
Definition demo_plans : list AssetMergePlan :=
  [proposed "1" "B.yaml"; proposed "2" "b.yaml"; proposed "3" "a.yaml"]%string.

Lemma namespace_closed_witness :
  ∃ out, closeAssetNamespace Some demo_plans demo_memory [] = Returns out ∧
    map is_conflict out = [true; true; true] ∧ separate Some demo_memory [] out.
Proof.
  destruct (namespace_closed Some demo_memory demo_plans [] [] eq_refl) as (out & Hout & _ & Hs).
  - repeat constructor; vm_compute; reflexivity.
  - exists out. split; [exact Hout|]. split; [|exact Hs].
    assert (E : match closeAssetNamespace Some demo_plans demo_memory [] with
                | Returns o => map is_conflict o | Throws _ => [] end = [true; true; true])
      by (vm_compute; reflexivity).
    rewrite Hout in E. exact E.
Defined.
