(* ===== verification/GitFieldMerge.v ===== *)
(** * GitFieldMerge: the three-way merge of editable fields.

    Canonical JSON decides equality of documents; a merge without conflicts
    loses no change of either side at any path, and every conflict names a path
    that both sides changed differently. *)

From Stdlib Require Import Ascii.
From S2P Require Import Prelude JsValue JsMap StrictJson StrictJsonSpec JsonRoundTrip GitCodec GitMerge.

(** ** Sorting by key *)

Lemma sort_by_key_map {A B} (f : A → B) (l : list (string * A)) :
  NoDup l.*1 →
  sort_by_key (map (λ kv, (kv.1, f kv.2)) l) = map (λ kv, (kv.1, f kv.2)) (sort_by_key l).
Proof.
  intros Hnd. set (g := λ kv : string * A, (kv.1, f kv.2)).
  assert (Hp : sort_by_key (map g l) ≡ₚ map g (sort_by_key l)).
  { rewrite sort_by_key_perm. change (g <$> l ≡ₚ g <$> sort_by_key l). by rewrite sort_by_key_perm. }
  assert (Hkeys : NoDup (map g (sort_by_key l)).*1).
  { change (NoDup (fst <$> (g <$> sort_by_key l))). rewrite <- list_fmap_compose.
    change (NoDup (sort_by_key l).*1). by rewrite sort_by_key_perm. }
  apply (Sorted_unique_strong key_le); [| | |done].
  - intros x y Hx Hy Hxy Hyx. assert (E : x.1 = y.1) by (by apply (anti_symm String.le)).
    rewrite Hp in Hx. destruct x as [k a], y as [k' b]. simpl in E. subst k'.
    apply (map_get_elem _ _ _ Hkeys) in Hx. apply (map_get_elem _ _ _ Hkeys) in Hy. congruence.
  - apply Sorted_merge_sort, _.
  - apply (Sorted_fmap g key_le key_le); [done|]. apply Sorted_merge_sort, _.
Qed.

(** ** Canonical values *)

Lemma canon_fields d fields :
  Forall (λ kv, strict_value d kv.2) fields →
  canon (JObj fields) = JObj (sort_by_key (map (λ kv, (kv.1, canon kv.2)) fields)).
Proof. intros H. change (canon (JObj fields)) with (JObj (sort_by_key (live_fields canon fields))).
  by rewrite (live_fields_strict canon d). Qed.

Lemma canon_strict d v : strict_value d v → strict_value d (canon v).
Proof.
  revert d. induction v as [| | | | | |l IH|fields IH] using jsval_nested_ind; intros d H;
    inversion H as [| |? ? Hz|? ? Hf| |? ? Hd Hl|? ? Hd Hk Hl]; subst; try by constructor.
  - constructor; [done|]. apply Forall_map. rewrite Forall_forall in *. naive_solver.
  - rewrite (canon_fields (S d)) by done. constructor; [done| |].
    + rewrite sort_by_key_perm. change (NoDup (fst <$> ((λ kv, (kv.1, canon kv.2)) <$> fields))).
      by rewrite <- list_fmap_compose.
    + rewrite sort_by_key_perm. apply Forall_map. rewrite Forall_forall in *. simpl. naive_solver.
Qed.

Lemma canon_printed d v : strict_value d v → printed v = true → printed (canon v) = true.
Proof.
  revert d. induction v as [| | | | | |l IH|fields IH] using jsval_nested_ind; intros d Hs H; try done;
    inversion Hs as [| | | | |? ? Hd Hl|? ? Hd Hk Hl]; subst; simpl in H; rewrite forallb_forall in H;
    rewrite Forall_forall in IH.
  - simpl. apply forallb_forall. intros x (y & <- & Hy)%in_map_iff. rewrite Forall_forall in Hl.
    apply list_elem_of_In in Hy. apply (IH y Hy (S d)); [by apply Hl|]. by apply H, list_elem_of_In.
  - rewrite (canon_fields (S d)) by done. simpl. apply forallb_forall. intros x Hx%list_elem_of_In.
    rewrite sort_by_key_perm in Hx. apply list_elem_of_fmap in Hx as (kv & -> & Hkv). simpl.
    rewrite Forall_forall in Hl. apply (IH kv Hkv (S d)); [by apply Hl|]. by apply H, list_elem_of_In.
Qed.

(** Canonical JSON is the text of the canonical value. *)
Lemma serialize_canon d v : strict_value d v → serialize v = json_text (canon v).
Proof.
  revert d. induction v as [| | | | | |l IH|fields IH] using jsval_nested_ind; intros d H;
    inversion H as [| |? ? Hz|? ? Hf| |? ? Hd Hl|? ? Hd Hk Hl]; subst; try done.
  - destruct b; done.
  - cbn [serialize canon json_text stringify default]. unfold json_text. simpl. do 3 f_equal.
    rewrite map_map. apply map_ext_in. intros x Hx%list_elem_of_In. rewrite Forall_forall in IH, Hl.
    rewrite (IH x Hx (S d) (Hl x Hx)).
    by rewrite (stringify_text (S d) (canon x)) by (by apply canon_strict, Hl).
  - rewrite (canon_fields (S d)) by done.
    change (serialize (JObj fields)) with ("{" +:+ join "," (map (λ kv, json_quote kv.1 +:+ ":" +:+ kv.2)
      (sort_by_key (live_fields serialize fields))) +:+ "}")%string.
    rewrite (live_fields_strict serialize (S d)) by done.
    unfold json_text. simpl. do 3 f_equal.
    assert (Hser : map (λ kv, (kv.1, serialize kv.2)) fields
      = map (λ kv, (kv.1, json_text kv.2)) (map (λ kv, (kv.1, canon kv.2)) fields)).
    { rewrite map_map. apply map_ext_in. intros kv Hkv%list_elem_of_In. simpl. f_equal.
      rewrite Forall_forall in IH, Hl. by apply (IH kv Hkv (S d)), Hl. }
    rewrite Hser, sort_by_key_map.
    2: { change (NoDup (fst <$> ((λ kv, (kv.1, canon kv.2)) <$> fields))). by rewrite <- list_fmap_compose. }
    rewrite map_map. simpl.
    assert (Hst : Forall (λ kv, strict_value (S d) kv.2) (sort_by_key (map (λ kv, (kv.1, canon kv.2)) fields))).
    { rewrite sort_by_key_perm. apply Forall_map. eapply Forall_impl; [exact Hl|]. intros kv. apply canon_strict. }
    induction Hst as [|kv l Hkv _ IHl]; [done|]. simpl. rewrite IHl.
    by rewrite (stringify_text (S d)).
Qed.

(** ** Equality of documents *)

(** Absent, or a document of the strict domain, its fractions written as JSON
    numbers. *)
Definition document (d : nat) (v : jsval) : Prop :=
  v = JUndef ∨ (strict_value d v ∧ printed v = true).

Definition same_json (a b : jsval) : Prop :=
  (a = JUndef ↔ b = JUndef) ∧ canon a = canon b.

#[local] Instance same_json_equiv : Equivalence same_json.
Proof.
  split.
  - by intros a.
  - intros a b [H E]. by split.
  - intros a b c [H E] [H' E']. split; [by rewrite H|congruence].
Qed.

Lemma document_text_inj a b :
  strict_value 0 a → printed a = true → strict_value 0 b → printed b = true →
  serialize a = serialize b → canon a = canon b.
Proof.
  intros Ha Fa Hb Fb E. rewrite !(serialize_canon 0) in E by done.
  pose proof (JSON_parse_text (canon a) (canon_strict _ _ Ha) (canon_printed _ _ Ha Fa)) as Pa.
  pose proof (JSON_parse_text (canon b) (canon_strict _ _ Hb) (canon_printed _ _ Hb Fb)) as Pb.
  rewrite E in Pa. congruence.
Qed.

Lemma json_equal_same d a b :
  document d a → document d b → json_equal a b = true ↔ same_json a b.
Proof.
  intros [->|[Ha Fa]] [->|[Hb Fb]].
  - by split.
  - pose proof (strict_defined _ _ Hb). split; [by destruct b|]. intros [[H' _] _]. by rewrite H' in H.
  - pose proof (strict_defined _ _ Ha). split; [by destruct a|]. intros [[_ H'] _]. by rewrite H' in H.
  - pose proof (strict_defined _ _ Ha) as Da. pose proof (strict_defined _ _ Hb) as Db.
    apply strict_top in Ha, Hb.
    assert (json_equal a b = bool_decide (serialize a = serialize b)) as -> by (by destruct a, b).
    rewrite bool_decide_eq_true. split.
    + intros E. split; [by split|]. by apply document_text_inj.
    + intros [_ E]. by rewrite !(serialize_canon 0), E.
Qed.

Lemma document_get d v k : document d v → document (S d) (js_get v k).
Proof.
  intros [->|[Hs Hf]]; [by left|]. destruct v as [| | | | | | |fields]; try by left.
  simpl. destruct (decide (k ∈ fields.*1)) as [Hk|Hk]; [|left; by apply lookup_field_absent].
  apply lookup_field_present in Hk. right. inversion Hs as [| | | | | |? ? Hd Hnd Hl]; subst.
  rewrite Forall_forall in Hl. split; [by apply (Hl _ Hk)|].
  simpl in Hf. rewrite forallb_forall in Hf. apply list_elem_of_In, Hf in Hk. done.
Qed.

(** What the canonical value knows of a field. *)
Lemma canon_lookup d fields k :
  strict_value d (JObj fields) →
  js_get (canon (JObj fields)) k
  = if decide (k ∈ fields.*1) then canon (lookup_field k fields) else JUndef.
Proof.
  intros Hs. inversion Hs as [| | | | | |? ? Hd Hnd Hl]; subst. rewrite (canon_fields (S d)) by done.
  set (l := sort_by_key _). assert (Hkeys : l.*1 ≡ₚ fields.*1).
  { unfold l. rewrite sort_by_key_perm. change (fst <$> ((λ kv, (kv.1, canon kv.2)) <$> fields) ≡ₚ fields.*1).
    by rewrite <- list_fmap_compose. }
  simpl. case_decide as Hk.
  - apply lookup_field_present in Hk.
    apply (lookup_field_elem k _ l); [by rewrite Hkeys|]. unfold l. rewrite sort_by_key_perm.
    apply list_elem_of_fmap. by exists (k, lookup_field k fields).
  - apply lookup_field_absent. by rewrite Hkeys.
Qed.

Lemma canon_defined v : canon v ≠ JUndef.
Proof. by destruct v. Qed.

Lemma canon_record a b : canon a = canon b → is_record a = is_record b.
Proof. by destruct a, b. Qed.

(** Documents with the same canonical form have the same fields. *)
Lemma same_json_get d a b k :
  document d a → document d b → same_json a b → same_json (js_get a k) (js_get b k).
Proof.
  intros Ha Hb [Hu E]. destruct (is_record a) eqn:Hra; pose proof (canon_record _ _ E) as Hrb; rewrite Hra in Hrb.
  2: { assert (js_get a k = JUndef) as -> by (by destruct a). assert (js_get b k = JUndef) as -> by (by destruct b).
       reflexivity. }
  destruct a as [| | | | | | |fa], b as [| | | | | | |fb]; try done.
  destruct Ha as [?|[Ha _]]; [done|]. destruct Hb as [?|[Hb _]]; [done|].
  pose proof (canon_lookup _ _ k Ha) as La. pose proof (canon_lookup _ _ k Hb) as Lb. rewrite E in La.
  rewrite La in Lb. simpl. pose proof (canon_defined (lookup_field k fa)). pose proof (canon_defined (lookup_field k fb)).
  repeat case_decide; try congruence.
  - split; [|done]. inversion Ha as [| | | | | |? ? ? Hna Hla]; subst. inversion Hb as [| | | | | |? ? ? Hnb Hlb]; subst.
    rewrite Forall_forall in Hla, Hlb. split; intros Hx; exfalso.
    + by apply (strict_defined _ _ (Hla _ (lookup_field_present _ _ H1))).
    + by apply (strict_defined _ _ (Hlb _ (lookup_field_present _ _ H2))).
  - by rewrite !lookup_field_absent.
Qed.

(** ** Paths *)

Definition at_path (v : jsval) (path : list string) : jsval := foldl js_get v path.

Lemma document_path d v p : document d v → ∃ d', document d' (at_path v p).
Proof.
  revert d v. induction p as [|k p IH]; intros d v H; [by exists d|]. by eapply IH, document_get.
Qed.

Lemma same_json_path d a b p :
  document d a → document d b → same_json a b → same_json (at_path a p) (at_path b p).
Proof.
  revert d a b. induction p as [|k p IH]; intros d a b Ha Hb H; [done|]. simpl.
  apply (IH (S d)); [by apply document_get..|]. by apply (same_json_get d).
Qed.

(** ** Built objects *)

(** An object with the fields [f] gives the keys. *)
Definition build (f : string → jsval) (keys : list string) : list (string * jsval) :=
  flat_map (λ k, match f k with JUndef => [] | v => [(k, v)] end) keys.

Lemma build_elem f keys k v : (k, v) ∈ build f keys ↔ k ∈ keys ∧ f k = v ∧ v ≠ JUndef.
Proof.
  unfold build. rewrite list_elem_of_In, in_flat_map. setoid_rewrite <- list_elem_of_In. split.
  - intros (x & Hx & Hin). destruct (f x) eqn:E; simpl in Hin; apply list_elem_of_In in Hin;
      first [by inv Hin | apply list_elem_of_singleton in Hin; by simplify_eq].
  - intros (Hk & <- & Hne). exists k. split; [done|]. destruct (f k); try done; apply list_elem_of_here.
Qed.

Lemma build_keys f keys : (build f keys).*1 `sublist_of` keys.
Proof.
  unfold build. induction keys as [|k keys IH]; [constructor|]. simpl. rewrite fmap_app.
  destruct (f k); simpl; by constructor.
Qed.

Lemma build_lookup f keys k :
  NoDup keys → (k ∉ keys → f k = JUndef) → lookup_field k (build f keys) = f k.
Proof.
  intros Hnd Hout. assert (f k = JUndef ∨ f k ≠ JUndef) as [E|E] by (destruct (f k); auto).
  - rewrite E. apply lookup_field_absent. intros Hin. apply list_elem_of_fmap in Hin as ([k' v] & -> & Hin).
    apply build_elem in Hin as (_ & Hv & Hne). simpl in *. congruence.
  - apply lookup_field_elem; [eapply sublist_NoDup; [done|apply build_keys]|].
    apply build_elem. split; [|done]. destruct (decide (k ∈ keys)) as [|Hk]; [done|by apply Hout in Hk].
Qed.

Lemma merge_parts fuel b m g name keys :
  let parts := map (λ k, (k, merge_field fuel (js_get b k) (js_get m k) (js_get g k) (name +:+ "." +:+ k))) keys in
  flat_map (λ p, match fst (snd p) with JUndef => [] | v => [(fst p, v)] end) parts
  = build (λ k, (merge_field fuel (js_get b k) (js_get m k) (js_get g k) (name +:+ "." +:+ k)).1) keys.
Proof. unfold build. induction keys as [|k keys IH]; [done|]. simpl in *. by rewrite IH. Qed.

Lemma merged_keys_elem b m g k :
  k ∈ merged_keys b m g ↔ k ∈ object_keys b ∨ k ∈ object_keys m ∨ k ∈ object_keys g.
Proof. unfold merged_keys. rewrite merge_sort_Permutation, elem_of_remove_dups, !elem_of_app. done. Qed.

Lemma merged_keys_NoDup b m g : NoDup (merged_keys b m g).
Proof. unfold merged_keys. rewrite merge_sort_Permutation. apply NoDup_remove_dups. Qed.

Lemma js_get_absent v k : k ∉ object_keys v → js_get v k = JUndef.
Proof. destruct v; try done. apply lookup_field_absent. Qed.

Lemma merge_undef fuel name : merge_field fuel JUndef JUndef JUndef name = (JUndef, []).
Proof. by destruct fuel. Qed.

Lemma nesting_get b k : is_record b = true → nesting (js_get b k) < nesting b.
Proof.
  destruct b as [| | | | | | |fields]; try done. intros _. simpl.
  destruct (decide (k ∈ fields.*1)) as [Hk|Hk]; [|rewrite lookup_field_absent by done; simpl; lia].
  apply lookup_field_present in Hk.
  assert (nesting (lookup_field k fields) ≤ list_max (map (λ kv, nesting kv.2) fields)); [|lia].
  pose proof (proj1 (list_max_le (map (λ kv, nesting kv.2) fields) _) (Nat.le_refl _)) as Hmax.
  rewrite List.Forall_forall in Hmax. apply Hmax, in_map_iff. exists (k, lookup_field k fields).
  split; [done|by apply list_elem_of_In].
Qed.

(** ** The merge *)

(** Neither side loses a change, and what both agree on stays. *)
Definition keeps_changes (b m g r : jsval) : Prop :=
  ∀ p, (same_json (at_path b p) (at_path g p) → same_json (at_path r p) (at_path m p)) ∧
       (same_json (at_path b p) (at_path m p) → same_json (at_path r p) (at_path g p)) ∧
       (same_json (at_path m p) (at_path g p) → same_json (at_path r p) (at_path m p)).

Lemma keeps_memory d b m g :
  document d b → document d m → document d g → same_json m g ∨ same_json b g → keeps_changes b m g m.
Proof.
  intros Hb Hm Hg H p. split_and!; [done| |done]. intros Hbm.
  destruct H as [H|H]; [by apply (same_json_path d)|].
  etrans; [symmetry; exact Hbm|]. by apply (same_json_path d).
Qed.

Lemma keeps_git d b m g :
  document d b → document d m → document d g → same_json b m → keeps_changes b m g g.
Proof.
  intros Hb Hm Hg H p. split_and!; [|done|by symmetry]. intros Hbg.
  etrans; [symmetry; exact Hbg|]. by apply (same_json_path d).
Qed.

Lemma merge_clean fuel : ∀ d b m g name r,
  document d b → document d m → document d g → nesting b < fuel →
  merge_field fuel b m g name = (r, []) → document d r ∧ keeps_changes b m g r.
Proof.
  induction fuel as [|fuel IH]; intros d b m g name r Hb Hm Hg Hfuel H; [lia|].
  cbn [merge_field] in H. destruct (_ || _) eqn:E1.
  { simplify_eq. split; [done|]. apply (keeps_memory d); try done.
    apply orb_true_iff in E1. rewrite !(json_equal_same d) in E1 by done. done. }
  destruct (json_equal b m) eqn:E2.
  { simplify_eq. split; [done|]. apply (keeps_git d); try done. by apply (json_equal_same d). }
  destruct (_ && _) eqn:E3; [|done]. cbv zeta in H. rewrite merge_parts in H.
  set (keys := merged_keys b m g) in *.
  set (f := λ k, merge_field fuel (js_get b k) (js_get m k) (js_get g k) (name +:+ "." +:+ k)) in *.
  injection H as Hr Hcs. bool_hyps.
  assert (Hpart : ∀ k, (f k).2 = []).
  { intros k. destruct (decide (k ∈ keys)) as [Hk|Hk].
    - destruct ((f k).2) as [|c cs] eqn:Ec; [done|]. exfalso.
      assert (Hin : c ∈ flat_map (λ p, snd (snd p)) (map (λ k, (k, f k)) keys)); [|unfold f in Hin; rewrite Hcs in Hin; by inv Hin].
      apply list_elem_of_In, in_flat_map. exists (k, f k). split; [apply in_map_iff; exists k; split; [done|by apply list_elem_of_In]|].
      simpl. rewrite Ec. by left.
    - unfold keys in Hk. rewrite merged_keys_elem in Hk. unfold f. rewrite !js_get_absent by tauto.
      by rewrite merge_undef. }
  assert (Hsub : ∀ k, document (S d) (f k).1 ∧ keeps_changes (js_get b k) (js_get m k) (js_get g k) (f k).1).
  { intros k. apply (IH (S d) _ _ _ (name +:+ "." +:+ k)); try by apply document_get.
    - assert (nesting (js_get b k) < nesting b) by (by apply nesting_get). lia.
    - unfold f in *. specialize (Hpart k). destruct (merge_field _ _ _ _ _). simpl in *. congruence. }
  assert (Hget : ∀ k, js_get r k = (f k).1).
  { intros k. subst r. simpl. apply (build_lookup (λ k, (f k).1)); [apply merged_keys_NoDup|].
    intros Hk. unfold keys in Hk. rewrite merged_keys_elem in Hk. unfold f. rewrite !js_get_absent by tauto.
    by rewrite merge_undef. }
  split.
  - subst r. right. split.
    + constructor.
      * destruct Hb as [->|[Hb _]]; [done|]. destruct b; try done. by inversion Hb.
      * eapply sublist_NoDup; [apply (merged_keys_NoDup b m g)|apply build_keys].
      * apply Forall_forall. intros [k v] Hin. apply build_elem in Hin as (_ & <- & Hne). simpl.
        destruct (Hsub k) as [[?|[? _]] _]; [done|done].
    + simpl. apply forallb_forall. intros [k v] Hin%list_elem_of_In. apply build_elem in Hin as (_ & <- & Hne).
      simpl. destruct (Hsub k) as [[?|[_ ?]] _]; [done|done].
  - intros [|k p].
    + simpl.
      split_and!; intros Hs; apply (json_equal_same d) in Hs; try done; congruence.
    + simpl. rewrite Hget. apply Hsub.
Qed.

(** A conflict is reported only where both sides changed a value differently. *)
Definition field_path (name : string) (p : list string) : string :=
  foldl (λ n k, n +:+ "." +:+ k) name p.

Lemma conflicts_real fuel : ∀ b m g name c,
  c ∈ (merge_field fuel b m g name).2 →
  ∃ p, field c = field_path name p ∧ json_equal (at_path b p) (at_path m p) = false ∧
    json_equal (at_path b p) (at_path g p) = false ∧ json_equal (at_path m p) (at_path g p) = false.
Proof.
  assert (Hleaf : ∀ b m g name c, json_equal m g || json_equal b g = false → json_equal b m = false →
    c ∈ [{| field := name; reason := field_reason name |}] →
    ∃ p, field c = field_path name p ∧ json_equal (at_path b p) (at_path m p) = false ∧
      json_equal (at_path b p) (at_path g p) = false ∧ json_equal (at_path m p) (at_path g p) = false).
  { intros b m g name c H1 H2 Hc. apply list_elem_of_singleton in Hc as ->. apply orb_false_iff in H1 as [? ?].
    by exists []. }
  induction fuel as [|fuel IH]; intros b m g name c Hc; cbn [merge_field] in Hc;
    (destruct (_ || _) eqn:E1; [by inv Hc|]); (destruct (json_equal b m) eqn:E2; [by inv Hc|]);
    destruct (_ && _) eqn:E3.
  - by inv Hc.
  - by apply Hleaf.
  - cbn [snd] in Hc. apply list_elem_of_In, in_flat_map in Hc as (part & Hp & Hc).
    apply in_map_iff in Hp as (k & <- & Hk). cbn [snd] in Hc. apply list_elem_of_In in Hc.
    apply IH in Hc as (p & ? & ?). by exists (k :: p).
  - by apply Hleaf.
Qed.

(** C32: merging documents [memory] and [git] edited from [base]: when no
    conflict is reported, at every path where Git left the base alone the result
    has the value of memory, at every path where memory left it alone the value
    of Git, and at every path where the two agree, the same edit of both
    included, the value they agree on; and every conflict reported is at a path
    where the three values are pairwise different. *)
Theorem three_way_merge d base memory git name :
  document d base → document d memory → document d git →
  let '(result, conflicts) := mergeField base memory git name in
  (conflicts = [] → ∀ p,
     (json_equal (at_path base p) (at_path git p) = true →
        json_equal (at_path result p) (at_path memory p) = true) ∧
     (json_equal (at_path base p) (at_path memory p) = true →
        json_equal (at_path result p) (at_path git p) = true) ∧
     (json_equal (at_path memory p) (at_path git p) = true →
        json_equal (at_path result p) (at_path memory p) = true)) ∧
  (∀ c, c ∈ conflicts → ∃ p, field c = field_path name p ∧
     json_equal (at_path base p) (at_path memory p) = false ∧
     json_equal (at_path base p) (at_path git p) = false ∧
     json_equal (at_path memory p) (at_path git p) = false).
Proof.
  intros Hb Hm Hg. destruct (mergeField base memory git name) as [result conflicts] eqn:E. unfold mergeField in E.
  split.
  - intros ->. destruct (merge_clean _ d _ _ _ _ _ Hb Hm Hg (Nat.lt_succ_diag_r _) E) as [Hr Hk]. intros p.
    assert (Hd : ∀ v, document d v → document (d + length p) (at_path v p)).
    { clear. revert d. induction p as [|k p IH]; intros d v H; simpl; [by rewrite Nat.add_0_r|].
      replace (d + S (length p)) with (S d + length p) by lia. by apply IH, document_get. }
    rewrite !(json_equal_same (d + length p)) by auto. apply Hk.
  - intros c Hc. apply (conflicts_real (S (nesting base))). by rewrite E.
Qed.

(** ** Example *)

Definition demo_document (b d : string) : jsval :=
  JObj [("a", JFrac "0.5"); ("b", JStr b); ("c", JObj [("d", JStr d); ("e", JNull)])]%string.

Lemma demo_document_ok b d : document 0 (demo_document b d).
Proof.
  right. split; [|by vm_compute].
  repeat first [constructor | apply NoDup_cons_2 | by vm_compute | set_solver | lia].
Qed.

Lemma three_way_merge_witness :
  mergeField (demo_document "x" "y") (demo_document "x" "M") (demo_document "G" "y") "editable"
  = (demo_document "G" "M", []) ∧
  json_equal (at_path (demo_document "G" "M") ["c"; "d"]%string) (JStr "M") = true.
Proof.
  assert (E : mergeField (demo_document "x" "y") (demo_document "x" "M") (demo_document "G" "y") "editable"
    = (demo_document "G" "M", [])) by (vm_compute; reflexivity).
  split; [exact E|].
  pose proof (three_way_merge 0 (demo_document "x" "y") (demo_document "x" "M") (demo_document "G" "y")
    "editable" (demo_document_ok _ _) (demo_document_ok _ _) (demo_document_ok _ _)) as H.
  rewrite E in H. destruct H as [H _]. destruct (H eq_refl ["c"; "d"]%string) as [Hm _].
  apply Hm. vm_compute. reflexivity.
Defined.
