(* ===== verification/EmailChallenge.v ===== *)
(** * EmailChallenge: verification codes for logging in and binding an address
    (relay/src/config/verification.ts and the challenge functions of
    relay/src/db.ts), and the accounts that logging in creates
    (relay/src/email-user.ts).

    A challenge holds the digest of the code that was mailed last and the budget
    of wrong guesses; sending again keeps the budget.  Sending takes several
    statements, between which other processes work ([others] below); verifying
    and binding hold the row's lock and are one step each.  The HMAC is an
    argument, and so is a failing transaction. *)

From Stdlib Require Import Ascii.
From stdpp Require Import pretty.
From S2P Require Import Prelude JsValue GitCodec AuthRateLimit.

#[local] Open Scope Z_scope.

(** ** Codes and addresses *)

Definition CODE_TTL_MS : Z := 60000.
Definition SEND_COOLDOWN_MS : Z := 60000.
Definition MAX_VERIFY_ATTEMPTS : Z := 5.
Definition FAILURE_WINDOW_MS : Z := 15 * 60000.
Definition LOCKOUT_MS : Z := 15 * 60000.
Definition CODE_HMAC_LENGTH : Z := 64.

Inductive EmailChallengePurpose : Type := PurposeLogin | PurposeBindEmail.

Definition purpose_text (p : EmailChallengePurpose) : string :=
  match p with PurposeLogin => "login" | PurposeBindEmail => "bind_email" end.

(** What is signed to name a challenge. *)
Definition challenge_text (p : EmailChallengePurpose) (email : string) (userId : option Z) : string :=
  purpose_text p +:+ ":" +:+ email +:+ ":" +:+ match userId with Some id => pretty id | None => "anon" end.

Definition challengeKey (hmac : string → string) (p : EmailChallengePurpose) (email : string) (userId : option Z)
  : string := hmac (challenge_text p email userId).

Definition digestEquals (presented stored : string) : bool :=
  (utf8_length presented =? CODE_HMAC_LENGTH) && (utf8_length stored =? CODE_HMAC_LENGTH)
  && bool_decide (presented = stored).

(** *** [normalizeEmailAddress] *)

Definition lower_alnum (c : ascii) : bool :=
  ((97 <=? code c) && (code c <=? 122)) || ((48 <=? code c) && (code c <=? 57)).

(** [!#$%&'*+/=?^_`{|}~.-] besides letters and digits. *)
Definition mailbox_char (c : ascii) : bool :=
  lower_alnum c || bool_decide (code c ∈ [33; 35; 36; 37; 38; 39; 42; 43; 47; 61; 63; 94; 95; 96; 123; 124; 125; 126; 46; 45]).

Definition domain_char (c : ascii) : bool := lower_alnum c || (code c =? 45).

Definition at_sign : ascii := ascii_of_nat 64.
Definition dot : ascii := ascii_of_nat 46.

(** The text cut at every [sep]. *)
Fixpoint split_on (sep : ascii) (l : list ascii) : list (list ascii) :=
  match l with
  | [] => [[]]
  | c :: l =>
      if bool_decide (c = sep) then [] :: split_on sep l
      else match split_on sep l with [] => [[c]] | w :: ws => (c :: w) :: ws end
  end.

(** [[a-z0-9]([a-z0-9-]*[a-z0-9])?]. *)
Definition domain_label (w : list ascii) : bool :=
  match w with
  | [] => false
  | c :: _ => lower_alnum c && forallb domain_char w && match last w with Some d => lower_alnum d | None => false end
  end.

Definition valid_domain (l : list ascii) : bool :=
  let ls := split_on dot l in (2 <=? len ls) && forallb domain_label ls.

Definition control_or_space (c : ascii) : bool := is_space c || (code c <? 32) || (code c =? 127).

Definition normalizeEmailAddress (raw : jsval) : option string :=
  match raw with
  | JStr s =>
      let email := to_lower (trim s) in
      if (str_len email <? 3) || (254 <? str_len email) then None
      else if existsb control_or_space (chars email) then None
      else match split_on at_sign (chars email) with
      | [mailbox; domain] =>
          if bool_decide (mailbox = []) || (64 <? len mailbox) then None
          else if negb (forallb mailbox_char mailbox) then None
          else if negb (valid_domain domain) then None
          else Some email
      | _ => None
      end
  | _ => None
  end.

(** ** Tables *)

Record Challenge : Type := {
  ch_purpose : EmailChallengePurpose;
  ch_email : string;
  ch_user_id : option Z;
  code_hmac : string;
  ch_expires_at : Z;
  last_sent_at : Z;
  failed_attempts : Z;
  failure_window_started_at : option Z;
  locked_until : option Z
}.

(** [email_verification_challenges] by key, and the addresses of [users]. *)
Record EmailDb : Type := {
  challenges : gmap string Challenge;
  account_emails : gmap Z (option string)
}.

Definition with_challenges (db : EmailDb) (m : gmap string Challenge) : EmailDb :=
  {| challenges := m; account_emails := account_emails db |}.

(** ** Sending *)

Record SendParams : Type := {
  sp_challengeKey : string;
  sp_purpose : EmailChallengePurpose;
  sp_email : string;
  sp_userId : option Z;
  sp_codeHmac : string;
  sp_now : Z
}.

(** [INSERT ... ON CONFLICT DO NOTHING]; whether a row was inserted. *)
Definition insert_challenge (ttlMs : Z) (p : SendParams) (db : EmailDb) : EmailDb * bool :=
  match challenges db !! sp_challengeKey p with
  | Some _ => (db, false)
  | None =>
      (with_challenges db (<[sp_challengeKey p := {|
         ch_purpose := sp_purpose p; ch_email := sp_email p; ch_user_id := sp_userId p; code_hmac := sp_codeHmac p;
         ch_expires_at := sp_now p + ttlMs; last_sent_at := sp_now p; failed_attempts := 0;
         failure_window_started_at := None; locked_until := None |}]> (challenges db)), true)
  end.

Definition refreshed (ttlMs : Z) (p : SendParams) (c : Challenge) : Challenge := {|
  ch_purpose := ch_purpose c; ch_email := ch_email c; ch_user_id := ch_user_id c; code_hmac := sp_codeHmac p;
  ch_expires_at := sp_now p + ttlMs; last_sent_at := sp_now p; failed_attempts := failed_attempts c;
  failure_window_started_at := failure_window_started_at c; locked_until := locked_until c |}.

(** The guarded [UPDATE]; whether it changed a row. *)
Definition refresh_challenge (ttlMs cooldownMs : Z) (p : SendParams) (db : EmailDb) : EmailDb * bool :=
  match challenges db !! sp_challengeKey p with
  | Some c =>
      if last_sent_at c <=? sp_now p - cooldownMs
      then (with_challenges db (<[sp_challengeKey p := refreshed ttlMs p c]> (challenges db)), true)
      else (db, false)
  | None => (db, false)
  end.

Definition cooldown_left (cooldownMs : Z) (p : SendParams) (db : EmailDb) : Z :=
  match challenges db !! sp_challengeKey p with
  | Some c => Z.max 1000 (cooldownMs - (sp_now p - last_sent_at c))
  | None => cooldownMs
  end.

Inductive EmailChallengeSendDecision : Type := SendCreated | SendCooldown (retryAfterMs : Z).

(** [upsertEmailChallenge]; [others] are the changes other processes make before
    the second and the third statement. *)
Definition upsertEmailChallenge (others : nat → EmailDb → EmailDb) (ttlMs cooldownMs : Z) (p : SendParams) (db : EmailDb)
  : EmailDb * EmailChallengeSendDecision :=
  match insert_challenge ttlMs p db with
  | (db1, true) => (db1, SendCreated)
  | (db1, false) =>
      match refresh_challenge ttlMs cooldownMs p (others 0%nat db1) with
      | (db2, true) => (db2, SendCreated)
      | (db2, false) => let db3 := others 1%nat db2 in (db3, SendCooldown (cooldown_left cooldownMs p db3))
      end
  end.

(** ** Verifying *)

Inductive EmailChallengeVerifyStatus : Type := VerifyOk | VerifyInvalid | VerifyExpired | VerifyLocked | VerifyNotFound.

(** The budget of wrong guesses: [maxAttempts], [windowMs], [lockoutMs]. *)
Record Budget : Type := { maxAttempts : Z; windowMs : Z; lockoutMs : Z }.

Definition default_budget : Budget :=
  {| maxAttempts := MAX_VERIFY_ATTEMPTS; windowMs := FAILURE_WINDOW_MS; lockoutMs := LOCKOUT_MS |}.

Definition is_locked (now : Z) (c : Challenge) : bool :=
  match locked_until c with Some t => now <? t | None => false end.

Definition is_past (now : Z) (c : Challenge) : bool := ch_expires_at c <=? now.

Definition code_matches (presented : string) (c : Challenge) : bool :=
  digestEquals presented (String.substring 0 (Z.to_nat CODE_HMAC_LENGTH) (code_hmac c)).

(** A wrong code takes from the budget, and locks when it is used up. *)
Definition burned (b : Budget) (now : Z) (c : Challenge) : Challenge :=
  let within := match failure_window_started_at c with Some ws => now - ws <=? windowMs b | None => false end in
  let nextAttempts := if within then failed_attempts c + 1 else 1 in
  {| ch_purpose := ch_purpose c; ch_email := ch_email c; ch_user_id := ch_user_id c; code_hmac := code_hmac c;
     ch_expires_at := ch_expires_at c; last_sent_at := last_sent_at c; failed_attempts := nextAttempts;
     failure_window_started_at := if within then failure_window_started_at c else Some now;
     locked_until := if maxAttempts b <=? nextAttempts then Some (now + lockoutMs b) else None |}.

(** The end of a transaction: it commits, or it fails with or without effect. *)
Definition tx_ended {A} (fault : DbFault) (db0 : EmailDb) (r : EmailDb * A) : EmailDb * outcome A :=
  match fault with
  | None => (r.1, Returns r.2)
  | Some took => (if took : bool then r.1 else db0, Throws "connection terminated")
  end.

(** [consumeEmailChallenge]. *)
Definition consume_challenge (b : Budget) (key presented : string) (now : Z) (db : EmailDb) : EmailDb * EmailChallengeVerifyStatus :=
  match challenges db !! key with
  | None => (db, VerifyNotFound)
  | Some c =>
      if is_locked now c then (db, VerifyLocked)
      else if is_past now c then (db, VerifyExpired)
      else if code_matches presented c then (with_challenges db (delete key (challenges db)), VerifyOk)
      else (with_challenges db (<[key := burned b now c]> (challenges db)), VerifyInvalid)
  end.

Definition consumeEmailChallenge (fault : DbFault) (b : Budget) (key presented : string) (now : Z) (db : EmailDb)
  : EmailDb * outcome EmailChallengeVerifyStatus := tx_ended fault db (consume_challenge b key presented now db).

(** ** Binding *)

Inductive EmailBindResult : Type := BindOk | BindConflict | BindInvalidCode | BindInvalidUser.

(** An address that another account has. *)
Definition email_taken (db : EmailDb) (userId : Z) (email : string) : bool :=
  existsb (λ u, bool_decide (u.2 = Some email) && negb (u.1 =? userId)) (map_to_list (account_emails db)).

(** [bindUserEmailWithChallenge]; [raced] when the unique index refuses the
    address that the statement found free. *)
Definition bind_email (raced : bool) (b : Budget) (userId : Z) (email key presented : string) (now : Z) (db : EmailDb)
  : EmailDb * EmailBindResult :=
  match challenges db !! key with
  | None => (db, BindInvalidCode)
  | Some c =>
      if is_locked now c || is_past now c then (db, BindInvalidCode)
      else if negb (code_matches presented c)
      then (with_challenges db (<[key := burned b now c]> (challenges db)), BindInvalidCode)
      else if negb (bool_decide (is_Some (account_emails db !! userId))) then (db, BindInvalidUser)
      else if email_taken db userId email || raced then (db, BindConflict)
      else ({| challenges := delete key (challenges db);
               account_emails := <[userId := Some email]> (account_emails db) |}, BindOk)
  end.

Definition bindUserEmailWithChallenge (fault : DbFault) (raced : bool) (b : Budget) (userId : Z)
  (email key presented : string) (now : Z) (db : EmailDb) : EmailDb * outcome EmailBindResult :=
  tx_ended fault db (bind_email raced b userId email key presented now db).

(** ** Cleanup *)

Definition reap_ms : Z := 24 * 3600000.

Definition reapable (now : Z) (c : Challenge) : Prop :=
  ch_expires_at c < now - reap_ms ∧ match locked_until c with None => True | Some t => t < now - reap_ms end.

#[global] Instance reapable_dec now c : Decision (reapable now c).
Proof. unfold reapable. destruct (locked_until c); apply _. Defined.

Definition cleanExpiredEmailChallenges (now : Z) (db : EmailDb) : EmailDb :=
  with_challenges db (filter (λ kc, ¬ reapable now kc.2) (challenges db)).

(** ** Accounts *)

Definition with_accounts (db : EmailDb) (m : gmap Z (option string)) : EmailDb :=
  {| challenges := challenges db; account_emails := m |}.

Definition getUserByEmail (email : string) (db : EmailDb) : option Z :=
  fst <$> head (bfilter (λ u, bool_decide (u.2 = Some email)) (map_to_list (account_emails db))).

(** The row of [users] that [createUserWithWelcomeEmail] inserts, under the
    [id] of the sequence; [None] when the unique index refuses the address. *)
Definition insert_user (id : Z) (email : string) (db : EmailDb) : option EmailDb :=
  match getUserByEmail email db, account_emails db !! id with
  | None, None => Some (with_accounts db (<[id := Some email]> (account_emails db)))
  | _, _ => None
  end.

(** [others] are the changes other processes make before the second and the
    third statement. *)
Definition findOrCreateEmailUser (others : nat → EmailDb → EmailDb) (id : Z) (email : string) (db : EmailDb)
  : EmailDb * outcome Z :=
  let normalizedEmail := to_lower (trim email) in
  match getUserByEmail normalizedEmail db with
  | Some u => (db, Returns u)
  | None =>
      let db1 := others 0%nat db in
      match insert_user id normalizedEmail db1 with
      | Some db2 => (db2, Returns id)
      | None =>
          let db2 := others 1%nat db1 in
          (db2, match getUserByEmail normalizedEmail db2 with
                | Some u => Returns u
                | None => Throws "duplicate key value violates unique constraint"
                end)
      end
  end.

(** What deleting an account does to these tables: challenges do not refer to
    the account. *)
Definition delete_email_account (userId : Z) (db : EmailDb) : EmailDb :=
  with_accounts db (delete userId (account_emails db)).
