(* ===== verification/EmailChallengeSpec.v ===== *)
(** * EmailChallengeSpec: codes cannot be guessed, reused or redirected

    The operations of all processes in any order, with any clocks: sends by
    their statements, verifications, bindings, failing transactions and the
    cleanup. *)

From Stdlib Require Import Ascii.
From stdpp Require Import pretty relations.
From S2P Require Import Prelude JsValue GitCodec AuthRateLimit EmailChallenge.

#[local] Open Scope Z_scope.

(** ** Runs *)

Inductive EmailOp : Type :=
| SendInsert (p : SendParams)
| SendRefresh (p : SendParams)
| Verify (fault : DbFault) (key presented : string) (now : Z)
| Bind (fault : DbFault) (raced : bool) (userId : Z) (email key presented : string) (now : Z)
| Reap (now : Z)
| Accounts (emails : gmap Z (option string)).

Definition op_time (op : EmailOp) : option Z :=
  match op with
  | SendInsert p | SendRefresh p => Some (sp_now p)
  | Verify _ _ _ now | Bind _ _ _ _ _ _ now | Reap now => Some now
  | Accounts _ => None
  end.

Definition timed (P : Z → Prop) (op : EmailOp) : Prop := ∀ t, op_time op = Some t → P t.

Section runs.
Context (b : Budget) (ttlMs cooldownMs : Z).

Definition email_op (op : EmailOp) (db : EmailDb) : EmailDb :=
  match op with
  | SendInsert p => (insert_challenge ttlMs p db).1
  | SendRefresh p => (refresh_challenge ttlMs cooldownMs p db).1
  | Verify fault key presented now => (consumeEmailChallenge fault b key presented now db).1
  | Bind fault raced userId email key presented now =>
      (bindUserEmailWithChallenge fault raced b userId email key presented now db).1
  | Reap now => cleanExpiredEmailChallenges now db
  | Accounts emails => {| challenges := challenges db; account_emails := emails |}
  end.

Definition email_run (ops : list EmailOp) (db : EmailDb) : EmailDb := fold_left (λ db op, email_op op db) ops db.

(** What an operation presents for a key, and when. *)
Definition guess_of (k : string) (op : EmailOp) : option (string * Z) :=
  match op with
  | Verify _ key presented now | Bind _ _ _ _ key presented now => if bool_decide (key = k) then Some (presented, now) else None
  | _ => None
  end.

Definition op_fault (op : EmailOp) : DbFault :=
  match op with Verify fault _ _ _ | Bind fault _ _ _ _ _ _ => fault | _ => None end.

(** The code is compared: the challenge is there, not locked and not expired. *)
Definition compared (k : string) (op : EmailOp) (db : EmailDb) : option (string * Challenge) :=
  match guess_of k op, challenges db !! k with
  | Some (presented, now), Some c => if is_locked now c || is_past now c then None else Some (presented, c)
  | _, _ => None
  end.

(** A wrong code whose answer was given. *)
Definition wrong_guess (k : string) (op : EmailOp) (db : EmailDb) : bool :=
  match compared k op db with
  | Some (presented, c) => negb (code_matches presented c) && bool_decide (op_fault op = None)
  | None => false
  end.

(** A code that was accepted: its challenge is gone. *)
Definition accepted (k : string) (op : EmailOp) (db : EmailDb) : bool :=
  match compared k op db with
  | Some (presented, c) => code_matches presented c && bool_decide (challenges (email_op op db) !! k = None)
  | None => false
  end.

(** A statement that put a new code into the challenge. *)
Definition sends (k : string) (op : EmailOp) (db : EmailDb) : option SendParams :=
  match op with
  | SendInsert p => if bool_decide (sp_challengeKey p = k) && (insert_challenge ttlMs p db).2 then Some p else None
  | SendRefresh p => if bool_decide (sp_challengeKey p = k) && (refresh_challenge ttlMs cooldownMs p db).2 then Some p else None
  | _ => None
  end.

Fixpoint count_ops (f : EmailOp → EmailDb → bool) (ops : list EmailOp) (db : EmailDb) : Z :=
  match ops with
  | [] => 0
  | op :: ops => (if f op db then 1 else 0) + count_ops f ops (email_op op db)
  end.

(** *** What an operation does to a challenge *)

(** All ways in which the row of a key can change. *)
Inductive row_step (k : string) (op : EmailOp) (db : EmailDb) : option Challenge → Prop :=
| row_same : wrong_guess k op db = false → sends k op db = None → row_step k op db (challenges db !! k)
| row_inserted p :
    op = SendInsert p → sp_challengeKey p = k → challenges db !! k = None → sends k op db = Some p →
    row_step k op db (challenges (insert_challenge ttlMs p db).1 !! k)
| row_refreshed p c :
    op = SendRefresh p → sp_challengeKey p = k → challenges db !! k = Some c → sends k op db = Some p →
    row_step k op db (Some (refreshed ttlMs p c))
| row_burned now presented c :
    guess_of k op = Some (presented, now) → challenges db !! k = Some c → is_past now c = false →
    is_locked now c = false → code_matches presented c = false →
    row_step k op db (Some (burned b now c))
| row_accepted now presented c :
    guess_of k op = Some (presented, now) → challenges db !! k = Some c → is_past now c = false →
    is_locked now c = false → code_matches presented c = true → accepted k op db = true →
    row_step k op db None
| row_reaped now c :
    op = Reap now → challenges db !! k = Some c → reapable now c → row_step k op db None.

Lemma guess_of_other k op : guess_of k op = None → ∀ db, wrong_guess k op db = false.
Proof. intros H db. unfold wrong_guess, compared. by rewrite H. Qed.

Lemma row_kept k op db :
  challenges (email_op op db) !! k = challenges db !! k → wrong_guess k op db = false → sends k op db = None →
  row_step k op db (challenges (email_op op db) !! k).
Proof. intros -> H. by apply row_same. Qed.

Lemma guess_sends k op db g : guess_of k op = Some g → sends k op db = None.
Proof. by destruct op. Qed.

(** The row of a guess in a transaction that took effect. *)
Definition guessed_row (presented : string) (now : Z) (c : Challenge) (row : option Challenge) : Prop :=
  if is_locked now c || is_past now c then row = Some c
  else if code_matches presented c then row = None ∨ row = Some c else row = Some (burned b now c).

Lemma consume_row key presented now db c :
  challenges db !! key = Some c → guessed_row presented now c (challenges (consume_challenge b key presented now db).1 !! key).
Proof.
  intros Hc. unfold guessed_row, consume_challenge. rewrite Hc.
  destruct (is_locked now c), (is_past now c), (code_matches presented c); simpl; try done;
    rewrite ?lookup_delete_eq, ?lookup_insert_eq; auto.
Qed.

Lemma bind_row raced userId email key presented now db c :
  challenges db !! key = Some c →
  guessed_row presented now c (challenges (bind_email raced b userId email key presented now db).1 !! key).
Proof.
  intros Hc. unfold guessed_row, bind_email. rewrite Hc.
  destruct (is_locked now c), (is_past now c), (code_matches presented c); simpl; try done;
    rewrite ?lookup_insert_eq; auto.
  repeat case_match; simpl; rewrite ?lookup_delete_eq; auto.
Qed.

Lemma tx_ended_row {A} fault db (r : EmailDb * A) k :
  challenges (tx_ended fault db r).1 !! k = challenges r.1 !! k ∨
  (fault ≠ None ∧ challenges (tx_ended fault db r).1 !! k = challenges db !! k).
Proof. destruct fault as [[]|]; [by left|by right|by left]. Qed.

Lemma guess_row k op db presented now c :
  guess_of k op = Some (presented, now) → challenges db !! k = Some c →
  guessed_row presented now c (challenges (email_op op db) !! k) ∨
  (op_fault op ≠ None ∧ challenges (email_op op db) !! k = Some c).
Proof.
  intros Hg Hc. destruct op as [| |fault key pr t|fault raced u e key pr t| |]; simpl in Hg; try done; case_bool_decide;
    simplify_eq; simpl.
  - unfold consumeEmailChallenge. destruct (tx_ended_row fault db (consume_challenge b k presented now db) k) as [->|[Hf ->]]; [left; by apply consume_row|by right].
  - unfold bindUserEmailWithChallenge. destruct (tx_ended_row fault db (bind_email raced b u e k presented now db) k) as [->|[Hf ->]]; [left; by apply bind_row|by right].
Qed.

Lemma row_guessed k op db presented now c :
  guess_of k op = Some (presented, now) → challenges db !! k = Some c →
  row_step k op db (challenges (email_op op db) !! k).
Proof.
  intros Hg Hc. pose proof (guess_sends k op db _ Hg) as Hs. assert (Hcmp : compared k op db = if is_locked now c || is_past now c then None else Some (presented, c)).
  { unfold compared. by rewrite Hg, Hc. }
  destruct (guess_row k op db presented now c Hg Hc) as [Hr|[Hf Hr]].
  2: { apply row_kept; [by rewrite Hr| |done]. unfold wrong_guess. rewrite Hcmp. destruct (_ || _); [done|].
       by rewrite (bool_decide_eq_false_2 _ Hf), andb_false_r. }
  unfold guessed_row in Hr. destruct (is_locked now c) eqn:Hl; [|destruct (is_past now c) eqn:Hp]; simpl in *.
  1,2: apply row_kept; [by rewrite Hr|unfold wrong_guess; by rewrite Hcmp|done].
  destruct (code_matches presented c) eqn:Hm; [destruct Hr as [Hr|Hr]|].
  - rewrite Hr. eapply row_accepted; try done. unfold accepted. rewrite Hcmp, Hm. by apply bool_decide_eq_true.
  - apply row_kept; [by rewrite Hr| |done]. unfold wrong_guess. by rewrite Hcmp, Hm.
  - rewrite Hr. by eapply row_burned.
Qed.

Lemma row_step_total k op db : row_step k op db (challenges (email_op op db) !! k).
Proof.
  destruct (guess_of k op) as [[presented now]|] eqn:Hg.
  - destruct (challenges db !! k) as [c|] eqn:Hc.
    + by eapply row_guessed.
    + apply row_kept; [|unfold wrong_guess, compared; by rewrite Hg, Hc|by eapply guess_sends]. rewrite Hc.
      destruct op as [| |fault key pr t|fault raced u e key pr t| |]; simpl in *; try done; case_bool_decide; simplify_eq;
        unfold consumeEmailChallenge, bindUserEmailWithChallenge, tx_ended, consume_challenge, bind_email; rewrite Hc; by destruct fault as [[]|].
  - pose proof (guess_of_other k op Hg db) as Hw.
    destruct op as [p|p|fault key pr t|fault raced u e key pr t|t|]; simpl in Hg |- *.
    + destruct (bool_decide (sp_challengeKey p = k) && (insert_challenge ttlMs p db).2) eqn:E.
      * assert (Hs : sends k (SendInsert p) db = Some p) by (simpl; by rewrite E).
        apply andb_prop in E as [Hk%bool_decide_eq_true E]. eapply row_inserted; try done.
        unfold insert_challenge in E. rewrite Hk in E. by destruct (challenges db !! k).
      * apply row_kept; [|done|simpl; by rewrite E]. simpl. revert E. unfold insert_challenge.
        case_match; [done|]. rewrite andb_true_r. intros Hk%bool_decide_eq_false. simpl. by rewrite lookup_insert_ne.
    + destruct (bool_decide (sp_challengeKey p = k) && (refresh_challenge ttlMs cooldownMs p db).2) eqn:E.
      * assert (Hs : sends k (SendRefresh p) db = Some p) by (simpl; by rewrite E).
        apply andb_prop in E as [<-%bool_decide_eq_true E]. revert E. unfold refresh_challenge.
        destruct (challenges db !! _) as [c|] eqn:Hc; [|done]. destruct (_ <=? _); [|done]. intros _. simpl.
        rewrite lookup_insert_eq. by eapply row_refreshed.
      * apply row_kept; [|done|simpl; by rewrite E]. simpl. revert E. unfold refresh_challenge.
        repeat case_match; try done. rewrite andb_true_r. intros Hk%bool_decide_eq_false. simpl. by rewrite lookup_insert_ne.
    + case_bool_decide; [done|]. apply row_kept; [|done|done]. simpl. unfold consumeEmailChallenge, tx_ended, consume_challenge.
      repeat case_match; simpl; try done; by rewrite ?lookup_insert_ne, ?lookup_delete_ne.
    + case_bool_decide; [done|]. apply row_kept; [|done|done]. simpl. unfold bindUserEmailWithChallenge, tx_ended, bind_email.
      repeat case_match; simpl; try done; by rewrite ?lookup_insert_ne, ?lookup_delete_ne.
    + destruct (filter (λ kc, ¬ reapable t kc.2) (challenges db) !! k) as [c|] eqn:E.
      * apply map_lookup_filter_Some in E as [E _]. rewrite <- E. by apply row_same.
      * apply map_lookup_filter_None in E as [E|E]; [rewrite <- E; by apply row_same|].
        destruct (challenges db !! k) as [c|] eqn:Hc; [|rewrite <- Hc; by apply row_same].
        eapply row_reaped; [done..|]. specialize (E c eq_refl). simpl in E. by destruct (decide (reapable t c)).
    + by apply row_same.
Qed.

(** ** Where a code comes from *)

(** The code of the row was sent by a statement of the run, and no code was sent
    or accepted since. *)
Definition current_code (k : string) (ops : list EmailOp) (db0 : EmailDb) (c : Challenge) : Prop :=
  ∃ l1 s l2 p, ops = l1 ++ s :: l2 ∧ sends k s (email_run l1 db0) = Some p ∧
    code_hmac c = sp_codeHmac p ∧ ch_expires_at c = sp_now p + ttlMs ∧
    ∀ l3 o l4, l2 = l3 ++ o :: l4 →
      let db := email_run (l1 ++ s :: l3) db0 in sends k o db = None ∧ accepted k o db = false.

Lemma email_run_snoc ops op db : email_run (ops ++ [op]) db = email_op op (email_run ops db).
Proof. unfold email_run. by rewrite fold_left_app. Qed.

Lemma code_sent k ops op db0 p c :
  sends k op (email_run ops db0) = Some p → code_hmac c = sp_codeHmac p → ch_expires_at c = sp_now p + ttlMs →
  current_code k (ops ++ [op]) db0 c.
Proof. intros Hs Hh He. exists ops, op, [], p. split_and!; try done. intros l3 o l4 E. by destruct l3. Qed.

Lemma code_kept k ops op db0 c c' :
  current_code k ops db0 c → sends k op (email_run ops db0) = None → accepted k op (email_run ops db0) = false →
  code_hmac c' = code_hmac c → ch_expires_at c' = ch_expires_at c → current_code k (ops ++ [op]) db0 c'.
Proof.
  intros (l1 & s & l2 & p & -> & Hs & Hh & He & Hq) Hno Hacc Hh' He'. exists l1, s, (l2 ++ [op]), p.
  rewrite <- app_assoc. split_and!; try done; [congruence..|]. intros l3 o l4 E.
  destruct l4 as [|x l4 _] using rev_ind.
  - apply app_inj_tail in E as [-> ->]. done.
  - rewrite app_comm_cons, app_assoc in E. apply app_inj_tail in E as [-> ->]. by eapply Hq.
Qed.

Lemma code_current k ops db0 c :
  challenges db0 !! k = None → challenges (email_run ops db0) !! k = Some c → current_code k ops db0 c.
Proof.
  intros H0. revert c. induction ops as [|op ops IH] using rev_ind; intros c; [simpl; congruence|].
  rewrite email_run_snoc. intros Hrow. set (db := email_run ops db0) in *.
  assert (Hacc : accepted k op db = false).
  { unfold accepted. destruct (compared k op db) as [[pr cc]|]; [|done]. rewrite Hrow, bool_decide_eq_false_2 by done.
    apply andb_false_r. }
  pose proof (row_step_total k op db) as Hstep. rewrite Hrow in Hstep.
  inversion Hstep as [Hno Hs Hr|p Hop Hk Hc Hs Hr|p c0 Hop Hk Hc Hs Hr|now presented c0 Hg Hc Hp Hl Hm Hr| |]; simplify_eq.
  - apply (code_kept k ops op db0 c); auto.
  - simpl in Hrow. unfold insert_challenge in Hrow. rewrite Hc in Hrow. simpl in Hrow. rewrite lookup_insert_eq in Hrow.
    simplify_eq. by eapply code_sent.
  - by eapply code_sent.
  - apply (code_kept k ops op db0 c0); auto. by eapply guess_sends.
Qed.

(** ** Guessing *)

(** Wrong guesses that are still possible in [a, a + windowMs). *)
Definition guesses_left (a : Z) (row : option Challenge) : Z :=
  match row with
  | None => maxAttempts b
  | Some c =>
      if match locked_until c with Some t => a + windowMs b <=? t | None => false end then 0
      else match failure_window_started_at c with
      | None => maxAttempts b
      | Some ws =>
          if a <=? ws then Z.max 1 (maxAttempts b - failed_attempts c)
          else Z.max 0 (maxAttempts b - 1 - failed_attempts c) + maxAttempts b
      end
  end.

(** A window that began in the interval belongs to a challenge that expires in
    it or later, so that it is not cleaned up. *)
Definition window_live (a : Z) (row : option Challenge) : Prop :=
  ∀ c ws, row = Some c → failure_window_started_at c = Some ws → a ≤ ws → a ≤ ch_expires_at c.

Context (Hmax : 1 ≤ maxAttempts b) (Hlock : windowMs b ≤ lockoutMs b) (Hday : windowMs b ≤ reap_ms) (Httl : 0 ≤ ttlMs).

Lemma guesses_left_bounds a row : 0 ≤ guesses_left a row.
Proof using Type*. unfold guesses_left. repeat case_match; lia. Qed.

Lemma burned_left a now c :
  a ≤ now < a + windowMs b → is_locked now c = false →
  1 + guesses_left a (Some (burned b now c)) ≤ guesses_left a (Some c).
Proof using Type*.
  intros Hnow Hl. unfold is_locked in Hl. unfold guesses_left, burned. simpl.
  assert (Hopen : match locked_until c with Some t => a + windowMs b <=? t | None => false end = false).
  { destruct (locked_until c); [|done]. bool_hyps. apply Z.leb_gt. lia. }
  rewrite Hopen. destruct (failure_window_started_at c) as [ws|].
  - destruct (Z.leb_spec (now - ws) (windowMs b)); destruct (Z.leb_spec a ws); try lia;
      destruct (Z.leb_spec (maxAttempts b) (failed_attempts c + 1)); destruct (Z.leb_spec (maxAttempts b) 1);
      repeat case_match; bool_hyps; lia.
  - destruct (Z.leb_spec (maxAttempts b) 1); repeat case_match; bool_hyps; lia.
Qed.

Lemma guess_step a k op db :
  timed (λ t, a ≤ t < a + windowMs b) op → window_live a (challenges db !! k) →
  let db' := email_op op db in
  window_live a (challenges db' !! k) ∧
  (if wrong_guess k op db then 1 else 0) + guesses_left a (challenges db' !! k)
  ≤ guesses_left a (challenges db !! k) + maxAttempts b * (if accepted k op db then 1 else 0).
Proof using Type*.
  intros Ht Hlive. cbv zeta. assert (Hif : 0 ≤ maxAttempts b * (if accepted k op db then 1 else 0)) by (case_match; lia).
  assert (Hw : ∀ presented now c, guess_of k op = Some (presented, now) → challenges db !! k = Some c →
    code_matches presented c = true → wrong_guess k op db = false).
  { intros presented now c Hg Hc Hm. unfold wrong_guess, compared. rewrite Hg, Hc. destruct (_ || _); [done|]. by rewrite Hm. }
  assert (Hg0 : guess_of k op = None → wrong_guess k op db = false) by (intros; by apply guess_of_other).
  assert (Htime : ∀ presented now, guess_of k op = Some (presented, now) → a ≤ now < a + windowMs b).
  { intros presented now Hg. apply Ht. destruct op; simpl in *; try done; case_bool_decide; congruence. }
  destruct (row_step_total k op db) as [Hno _|p -> Hk Hc _|p c -> Hk Hc _|now presented c Hg Hc Hp Hl Hm|now presented c Hg Hc Hp Hl Hm Ha|now c -> Hc Hr].
  - split; [done|]. rewrite Hno. lia.
  - rewrite Hg0 by done. unfold insert_challenge. rewrite Hk, Hc. simpl. rewrite lookup_insert_eq. split; [|simpl; lia].
    intros c ws [= <-] [=].
  - rewrite Hg0, Hc by done. split; [|unfold guesses_left; simpl; lia]. intros c' ws [= <-] Hws Ha. simpl.
    specialize (Ht _ eq_refl). simpl in Ht. lia.
  - specialize (Htime _ _ Hg). rewrite Hc. pose proof (burned_left a now c Htime Hl). split; [|destruct (wrong_guess k op db); lia].
    intros c' ws [= <-] _ _. simpl. unfold is_past in Hp. bool_hyps. lia.
  - rewrite (Hw _ _ _ Hg Hc Hm), Ha. split; [by intros ? ? [=]|]. pose proof (guesses_left_bounds a (challenges db !! k)).
    simpl. lia.
  - rewrite Hg0, Hc by done. split; [by intros ? ? [=]|]. specialize (Ht _ eq_refl). simpl in Ht. destruct Hr as [He Hlk].
    rewrite Hc in Hlive. unfold guesses_left.
    assert (Hopen : match locked_until c with Some t => a + windowMs b <=? t | None => false end = false).
    { destruct (locked_until c); [|done]. apply Z.leb_gt. lia. }
    rewrite Hopen. destruct (failure_window_started_at c) as [ws|] eqn:Ews; [|lia].
    destruct (Z.leb_spec a ws) as [Hge|]; [|lia]. specialize (Hlive c ws eq_refl Ews Hge). lia.
Qed.

Lemma guesses_in_window a k ops db :
  Forall (timed (λ t, a ≤ t < a + windowMs b)) ops → window_live a (challenges db !! k) →
  count_ops (wrong_guess k) ops db ≤ guesses_left a (challenges db !! k) + maxAttempts b * count_ops (accepted k) ops db.
Proof using Type*.
  intros Hops. revert db. induction Hops as [|op ops Ht _ IH]; intros db Hlive; simpl.
  { pose proof (guesses_left_bounds a (challenges db !! k)). lia. }
  destruct (guess_step a k op db Ht Hlive) as [Hlive' Hle]. specialize (IH _ Hlive'). lia.
Qed.

(** Before the interval: windows began earlier, with at least one failure. *)
Definition window_before (a : Z) (row : option Challenge) : Prop :=
  ∀ c ws, row = Some c → failure_window_started_at c = Some ws → ws < a ∧ 1 ≤ failed_attempts c.

Lemma window_before_step a k op db :
  timed (λ t, t < a) op → window_before a (challenges db !! k) → window_before a (challenges (email_op op db) !! k).
Proof.
  intros Ht Hb. assert (Htime : ∀ presented now, guess_of k op = Some (presented, now) → now < a).
  { intros presented now Hg. apply Ht. destruct op; simpl in *; try done; case_bool_decide; congruence. }
  destruct (row_step_total k op db) as [Hno _|p -> Hk Hc _|p c -> Hk Hc _|now presented c Hg Hc Hp Hl Hm|now presented c Hg Hc Hp Hl Hm Ha|now c -> Hc Hr];
    try done.
  - unfold insert_challenge. rewrite Hk, Hc. simpl. rewrite lookup_insert_eq. intros c ws [= <-] [=].
  - intros c' ws [= <-]. simpl. by apply Hb.
  - intros c' ws [= <-] Hws. specialize (Htime _ _ Hg). unfold burned in Hws |- *. simpl in Hws |- *.
    destruct (failure_window_started_at c) as [ws0|] eqn:E0; [|simplify_eq; lia].
    destruct (_ <=? _); simplify_eq; [|lia]. rewrite Hc in Hb. specialize (Hb c ws eq_refl E0). lia.
Qed.

Lemma window_before_run a k ops db :
  Forall (timed (λ t, t < a)) ops → window_before a (challenges db !! k) → window_before a (challenges (email_run ops db) !! k).
Proof.
  intros Hops. revert db. induction Hops as [|op ops Ht _ IH]; intros db Hb; [done|]. simpl.
  by apply IH, window_before_step.
Qed.

End runs.

Definition no_challenges : EmailDb := {| challenges := ∅; account_emails := ∅ |}.

(** C38: In any interval as long as the failure window, the codes of a challenge
    survive at most [2 * maxAttempts - 2] wrong guesses (and [maxAttempts] more
    for every code that is accepted), however many processes verify, resend,
    bind, fail and clean up, and whatever their clocks say. *)
Theorem guesses_bounded b ttlMs cooldownMs a k before within :
  2 ≤ maxAttempts b → windowMs b ≤ lockoutMs b → windowMs b ≤ reap_ms → 0 ≤ ttlMs →
  Forall (timed (λ t, t < a)) before → Forall (timed (λ t, a ≤ t < a + windowMs b)) within →
  let db := email_run b ttlMs cooldownMs before no_challenges in
  count_ops b ttlMs cooldownMs (wrong_guess k) within db
  ≤ 2 * maxAttempts b - 2 + maxAttempts b * count_ops b ttlMs cooldownMs (accepted b ttlMs cooldownMs k) within db.
Proof.
  intros Hm Hl Hd Ht Hb Hw db.
  assert (Hbefore : window_before a (challenges db !! k)) by (apply window_before_run; [done|intros c ws [=]]).
  etransitivity; [apply (guesses_in_window b ttlMs cooldownMs ltac:(lia) Hl Hd Ht a k within db Hw)|].
  - intros c ws Hc Hws Ha. destruct (Hbefore c ws Hc Hws). lia.
  - apply Z.add_le_mono_r. unfold guesses_left. destruct (challenges db !! k) as [c|] eqn:Hc; [|lia].
    case_match; [lia|]. destruct (failure_window_started_at c) as [ws|] eqn:Hws; [|lia].
    destruct (Hbefore c ws eq_refl Hws). destruct (Z.leb_spec a ws); lia.
Qed.

(** A code is accepted only while it is the last one that was sent, before it
    expires, and only once. *)
Theorem code_single_use b ttlMs cooldownMs k ops op presented now :
  guess_of k op = Some (presented, now) →
  accepted b ttlMs cooldownMs k op (email_run b ttlMs cooldownMs ops no_challenges) = true →
  ∃ l1 s l2 p, ops = l1 ++ s :: l2 ∧
    sends ttlMs cooldownMs k s (email_run b ttlMs cooldownMs l1 no_challenges) = Some p ∧
    presented = String.substring 0 64 (sp_codeHmac p) ∧ now < sp_now p + ttlMs ∧
    ∀ l3 o l4, l2 = l3 ++ o :: l4 →
      let db := email_run b ttlMs cooldownMs (l1 ++ s :: l3) no_challenges in
      sends ttlMs cooldownMs k o db = None ∧ accepted b ttlMs cooldownMs k o db = false.
Proof.
  intros Hg Ha. unfold accepted, compared in Ha. rewrite Hg in Ha.
  destruct (challenges _ !! k) as [c|] eqn:Hc; [|done]. destruct (is_locked now c) eqn:Hl; [done|].
  destruct (is_past now c) eqn:Hp; [done|]. simpl in Ha. bool_hyps.
  apply code_current in Hc as (l1 & s & l2 & p & -> & Hs & Hh & He & Hq); [|done]. exists l1, s, l2, p.
  unfold code_matches, digestEquals, is_past in *. bool_hyps. rewrite <- Hh. split_and!; try done. lia.
Qed.

(** ** Addresses *)

Lemma split_on_elem sep l c : c ∈ l → c = sep ∨ ∃ w, w ∈ split_on sep l ∧ c ∈ w.
Proof.
  induction l as [|x l IH]; [by intros ?%elem_of_nil|]. simpl. intros [->|Hc]%elem_of_cons.
  - case_bool_decide; [by left|]. right. destruct (split_on sep l) as [|w ws]; eexists; (split; [left|left]).
  - destruct (IH Hc) as [?|(w & Hw & Hcw)]; [by left|]. right. case_bool_decide.
    + exists w. split; [by right|done].
    + destruct (split_on sep l) as [|v ws]; [by apply elem_of_nil in Hw|]. apply elem_of_cons in Hw as [->|Hw].
      * exists (x :: v). split; [left|by right].
      * exists w. split; [by right|done].
Qed.

Definition address_char (c : ascii) : bool := mailbox_char c || domain_char c || bool_decide (c ∈ [at_sign; dot]).

Lemma address_char_check :
  forallb (λ c, implb (address_char c) (bool_decide (lower_char c = c) && negb (is_space c) && negb (code c =? 58)))
    (all_ascii_below 256) = true.
Proof. vm_compute. reflexivity. Qed.

Lemma address_char_spec c : address_char c = true → lower_char c = c ∧ is_space c = false ∧ code c ≠ 58.
Proof.
  intros H. pose proof (proj1 (forallb_forall _ _) address_char_check c) as Hc.
  specialize (Hc (proj1 (list_elem_of_In _ _) (all_ascii c))). cbv beta in Hc. rewrite H in Hc. simpl in Hc. by bool_hyps.
Qed.

Lemma domain_label_chars w c : domain_label w = true → c ∈ w → domain_char c = true.
Proof.
  destruct w as [|d w]; [done|]. cbn [domain_label]. intros H Hc. bool_hyps.
  eapply forallb_forall; [|by apply list_elem_of_In]. done.
Qed.

Lemma valid_domain_chars l c : valid_domain l = true → c ∈ l → address_char c = true.
Proof.
  unfold valid_domain. intros [_ H]%andb_prop Hc. unfold address_char.
  destruct (split_on_elem dot l c Hc) as [->|(w & Hw & Hcw)]; [apply orb_true_r|].
  rewrite (domain_label_chars w c); [by rewrite orb_true_r|..|done].
  eapply forallb_forall; [|by apply list_elem_of_In]. done.
Qed.

Lemma address_chars s e : normalizeEmailAddress s = Some e → ∀ c, c ∈ chars e → address_char c = true.
Proof.
  unfold normalizeEmailAddress. destruct s as [| | | | |s| |]; try done. destruct (_ || _); [done|].
  destruct (existsb _ _); [done|]. destruct (split_on at_sign _) as [|mailbox [|domain [|? ?]]] eqn:E; try done.
  destruct (_ || _); [done|]. destruct (forallb mailbox_char mailbox) eqn:Hm; [|done].
  destruct (valid_domain domain) eqn:Hd; [|done]. simpl. intros [= <-] c Hc.
  destruct (split_on_elem at_sign _ c Hc) as [->|(w & Hw & Hcw)]; [done|]. rewrite E in Hw.
  apply elem_of_cons in Hw as [->|Hw]; [|apply list_elem_of_singleton in Hw as ->; by eapply valid_domain_chars].
  unfold address_char. rewrite (proj1 (forallb_forall _ _) Hm); [done|by apply list_elem_of_In].
Qed.

Lemma to_lower_same s : (∀ c, c ∈ chars s → lower_char c = c) → to_lower s = s.
Proof.
  induction s as [|c s IH]; intros H; [done|]. simpl. rewrite (H c) by left. rewrite IH; [done|]. intros d Hd. apply H. by right.
Qed.

(** Normalising again changes nothing: an address has one normal form. *)
Theorem normalize_idempotent raw e :
  normalizeEmailAddress raw = Some e → normalizeEmailAddress (JStr e) = Some e.
Proof.
  intros H. pose proof (address_chars raw e H) as Hc. unfold normalizeEmailAddress in H |- *.
  destruct raw as [| | | | |s| |]; try done.
  assert (Hs : to_lower (trim s) = e) by (repeat case_match; congruence). rewrite Hs in H.
  rewrite (trim_clean e), (to_lower_same e); [done|..]; intros c ?%Hc%address_char_spec; naive_solver.
Qed.

(** ** Codes belong to one purpose, address and account *)

Lemma no_colon_address s e : normalizeEmailAddress s = Some e → ascii_of_nat 58 ∉ chars e.
Proof. intros H ?%(address_chars s e H)%address_char_spec. naive_solver. Qed.

Lemma challenge_text_inj p1 e1 u1 p2 e2 u2 s1 s2 :
  normalizeEmailAddress s1 = Some e1 → normalizeEmailAddress s2 = Some e2 →
  challenge_text p1 e1 u1 = challenge_text p2 e2 u2 → p1 = p2 ∧ e1 = e2 ∧ u1 = u2.
Proof.
  intros H1%no_colon_address H2%no_colon_address E. unfold challenge_text in E. apply (f_equal chars) in E.
  rewrite !chars_app in E. change (chars ":") with [ascii_of_nat 58] in E. simpl in E.
  apply split_first_inj in E as [Ep E]; [|destruct p1; simpl; set_solver|destruct p2; simpl; set_solver].
  apply split_first_inj in E as [Ee Eu]; [|done..]. split_and!; [by destruct p1, p2|by apply chars_inj|].
  apply chars_inj in Eu. assert (Hanon : ∀ z : Z, pretty z ≠ "anon"%string).
  { intros z Hz. assert (Ha : ascii_of_nat 97 ∈ chars (pretty z)) by (rewrite Hz; left). revert Ha.
    by apply pretty_Z_plain. }
  destruct u1, u2; try done; [by apply (inj pretty) in Eu as ->|by destruct (Hanon _ Eu)|by destruct (Hanon z)].
Qed.

(** ** Binding *)

Definition emails_unique (db : EmailDb) : Prop :=
  ∀ u v e, account_emails db !! u = Some (Some e) → account_emails db !! v = Some (Some e) → u = v.

Lemma email_taken_false db u e v :
  email_taken db u e = false → account_emails db !! v = Some (Some e) → v = u.
Proof.
  unfold email_taken. intros H Hv. destruct (decide (v = u)) as [|Hne]; [done|]. exfalso.
  pose proof (existsb_none _ _ (v, Some e) H) as Hn. rewrite elem_of_map_to_list in Hn. specialize (Hn Hv). simpl in Hn.
  rewrite bool_decide_eq_true_2 in Hn by done. simpl in Hn. by apply negb_false_iff, Z.eqb_eq in Hn.
Qed.

(** Binding changes the address of the given account only, to an address that
    no other account has, after a code of a live challenge was presented, which
    is then gone; every other outcome changes no account. *)
Lemma bind_accounts raced b userId email key presented now db :
  let (db', r) := bind_email raced b userId email key presented now db in
  (r ≠ BindOk ∧ account_emails db' = account_emails db) ∨
  (r = BindOk ∧ account_emails db' = <[userId := Some email]> (account_emails db) ∧ email_taken db userId email = false ∧
   challenges db' = delete key (challenges db) ∧
   ∃ c, challenges db !! key = Some c ∧ is_locked now c = false ∧ is_past now c = false ∧ code_matches presented c = true).
Proof.
  unfold bind_email. destruct (challenges db !! key) as [c|] eqn:Hc; [|by left].
  destruct (is_locked now c) eqn:Hl; [by left|]. destruct (is_past now c) eqn:Hp; [by left|]. simpl.
  destruct (code_matches presented c) eqn:Hm; [|by left]. simpl. case_bool_decide; [|by left]. simpl.
  destruct (email_taken db userId email) eqn:Ht; [by left|]. destruct raced; [by left|]. simpl. right. split_and!; eauto 10.
Qed.

Lemma unique_insert (m : gmap Z (option string)) u e :
  (∀ x y a, m !! x = Some (Some a) → m !! y = Some (Some a) → x = y) → (∀ v, m !! v = Some (Some e) → v = u) →
  ∀ x y a, <[u := Some e]> m !! x = Some (Some a) → <[u := Some e]> m !! y = Some (Some a) → x = y.
Proof.
  intros Hm Hfree x y a. rewrite !lookup_insert_Some. intros [[<- [= <-]]|[Hx H1]] [[<- E]|[Hy H2]]; try done.
  - symmetry. by apply Hfree.
  - simplify_eq. by apply Hfree.
  - by eapply Hm.
Qed.

(** *** Every way an account gets an address *)

Section ownership.
Context (hmac : string → string) (b : Budget) (ttlMs cooldownMs : Z).

Abbreviation run ops := (email_run b ttlMs cooldownMs ops no_challenges).

(** The operations so far, and the addresses of login requests whose code was
    accepted and that have not found or created their account yet. *)
Record OwnWorld : Type := { ow_ops : list EmailOp; ow_verified : list string }.

Definition did (op : EmailOp) (w : OwnWorld) : OwnWorld :=
  {| ow_ops := ow_ops w ++ [op]; ow_verified := ow_verified w |}.

(** A code is mailed to the address that names its challenge. *)
Definition well_addressed (p : SendParams) : Prop :=
  sp_challengeKey p = challengeKey hmac (sp_purpose p) (sp_email p) (sp_userId p) ∧
  ∃ raw, normalizeEmailAddress raw = Some (sp_email p).

Inductive own_step (w : OwnWorld) : OwnWorld → Prop :=
| own_insert p : well_addressed p → own_step w (did (SendInsert p) w)
| own_refresh p : well_addressed p → own_step w (did (SendRefresh p) w)
| own_login fault raw e presented now :
    normalizeEmailAddress raw = Some e →
    let key := challengeKey hmac PurposeLogin e None in
    own_step w {|
      ow_ops := ow_ops w ++ [Verify fault key presented now];
      ow_verified := match (consumeEmailChallenge fault b key presented now (run (ow_ops w))).2 with
                     | Returns VerifyOk => e :: ow_verified w
                     | _ => ow_verified w
                     end |}
| own_found l1 e l2 u :
    ow_verified w = l1 ++ e :: l2 → getUserByEmail (to_lower (trim e)) (run (ow_ops w)) = Some u →
    own_step w {| ow_ops := ow_ops w; ow_verified := l1 ++ l2 |}
| own_create l1 e l2 id db' :
    ow_verified w = l1 ++ e :: l2 → insert_user id (to_lower (trim e)) (run (ow_ops w)) = Some db' →
    own_step w {| ow_ops := ow_ops w ++ [Accounts (account_emails db')]; ow_verified := l1 ++ l2 |}
| own_bind fault raced u raw e presented now :
    normalizeEmailAddress raw = Some e →
    own_step w (did (Bind fault raced u e (challengeKey hmac PurposeBindEmail e (Some u)) presented now) w)
| own_delete u :
    own_step w (did (Accounts (account_emails (delete_email_account u (run (ow_ops w))))) w)
| own_reap now : own_step w (did (Reap now) w).

Definition no_accounts : OwnWorld := {| ow_ops := []; ow_verified := [] |}.

(** At some point of the run the holder of [e] showed control of it: an
    operation presented, in time, the code last sent to [e] for this purpose and
    account, which no other operation had used, and it was accepted. *)
Definition shown (ops : list EmailOp) (purpose : EmailChallengePurpose) (e : string) (who : option Z) : Prop :=
  let key := challengeKey hmac purpose e who in
  ∃ l1 s l2 o l3 p presented now, ops = l1 ++ s :: l2 ++ o :: l3 ∧
    sends ttlMs cooldownMs key s (run l1) = Some p ∧
    sp_purpose p = purpose ∧ sp_email p = e ∧ sp_userId p = who ∧
    (∀ l4 x l5, l2 = l4 ++ x :: l5 →
       sends ttlMs cooldownMs key x (run (l1 ++ s :: l4)) = None ∧
       accepted b ttlMs cooldownMs key x (run (l1 ++ s :: l4)) = false) ∧
    guess_of key o = Some (presented, now) ∧ presented = String.substring 0 64 (sp_codeHmac p) ∧
    now < sp_now p + ttlMs ∧ accepted b ttlMs cooldownMs key o (run (l1 ++ s :: l2)) = true.

Hypothesis names_apart : ∀ p1 e1 u1 p2 e2 u2,
  challengeKey hmac p1 e1 u1 = challengeKey hmac p2 e2 u2 → challenge_text p1 e1 u1 = challenge_text p2 e2 u2.

Lemma shown_later ops l purpose e who : shown ops purpose e who → shown (ops ++ l) purpose e who.
Proof.
  intros (l1 & s & l2 & o & l3 & p & presented & now & -> & H). exists l1, s, l2, o, (l3 ++ l), p, presented, now.
  split; [|exact H]. by rewrite <- app_assoc, <- app_comm_cons, <- app_assoc, <- app_comm_cons.
Qed.

Lemma sends_addressed k s db p :
  sends ttlMs cooldownMs k s db = Some p → (s = SendInsert p ∨ s = SendRefresh p) ∧ sp_challengeKey p = k.
Proof.
  destruct s; simpl; try done; destruct (_ && _) eqn:Ek; intros [= <-];
    apply andb_prop in Ek as [Ek%bool_decide_eq_true _]; auto.
Qed.

(** An accepted code was shown. *)
Lemma accepted_shown ops op purpose e who raw presented now :
  (∀ p, SendInsert p ∈ ops ∨ SendRefresh p ∈ ops → well_addressed p) → normalizeEmailAddress raw = Some e →
  let key := challengeKey hmac purpose e who in
  guess_of key op = Some (presented, now) → accepted b ttlMs cooldownMs key op (run ops) = true →
  shown (ops ++ [op]) purpose e who.
Proof using names_apart.
  intros Hsends He key Hg Ha.
  destruct (code_single_use b ttlMs cooldownMs key ops op presented now Hg Ha)
    as (l1 & s & l2 & p & -> & Hs & Hcode & Hnow & Hlast).
  destruct (sends_addressed _ _ _ _ Hs) as [Hop Hkey].
  destruct (Hsends p) as [Hk [sent Hsent]]; [destruct Hop as [->| ->]; set_solver|].
  rewrite Hkey in Hk. destruct (challenge_text_inj _ _ _ _ _ _ _ _ He Hsent (names_apart _ _ _ _ _ _ Hk)) as (-> & -> & ->).
  exists l1, s, l2, op, [], p, presented, now. split_and!; try done. by rewrite <- app_assoc, <- app_comm_cons.
Qed.

Lemma taken_by_none e db v : getUserByEmail e db = None → account_emails db !! v ≠ Some (Some e).
Proof.
  unfold getUserByEmail. intros H Hv. destruct (bfilter _ _) as [|x l] eqn:E; [|done].
  pose proof (bfilter_none _ _ (v, Some e) E) as Hn. rewrite elem_of_map_to_list in Hn. specialize (Hn Hv). simpl in Hn.
  by rewrite bool_decide_eq_true_2 in Hn.
Qed.

(** What holds of every reachable world. *)
Record owned_ok (w : OwnWorld) : Prop := {
  own_sends p : SendInsert p ∈ ow_ops w ∨ SendRefresh p ∈ ow_ops w → well_addressed p;
  own_unique : emails_unique (run (ow_ops w));
  own_logins e : e ∈ ow_verified w → to_lower (trim e) = e ∧ shown (ow_ops w) PurposeLogin e None;
  own_shown u e : account_emails (run (ow_ops w)) !! u = Some (Some e) →
    shown (ow_ops w) PurposeBindEmail e (Some u) ∨ shown (ow_ops w) PurposeLogin e None
}.

Lemma run_snoc ops op : run (ops ++ [op]) = email_op b ttlMs cooldownMs op (run ops).
Proof. apply email_run_snoc. Qed.

(** An operation that leaves the accounts alone. *)
Lemma accounts_kept w op verified :
  owned_ok w → (∀ p, op = SendInsert p ∨ op = SendRefresh p → well_addressed p) →
  account_emails (email_op b ttlMs cooldownMs op (run (ow_ops w))) = account_emails (run (ow_ops w)) →
  (∀ e, e ∈ verified → to_lower (trim e) = e ∧ shown (ow_ops w ++ [op]) PurposeLogin e None) →
  owned_ok {| ow_ops := ow_ops w ++ [op]; ow_verified := verified |}.
Proof.
  intros [H1 H2 H3 H4] Hop Hacc Hv. constructor; simpl; [|unfold emails_unique|done|]; rewrite ?run_snoc, ?Hacc; try done.
  - intros p [[H|H]%elem_of_app|[H|H]%elem_of_app]; auto; apply list_elem_of_singleton in H; auto.
  - intros u e Hu. destruct (H4 u e Hu); [left|right]; by apply shown_later.
Qed.

Lemma logins_later w op : owned_ok w → ∀ e, e ∈ ow_verified w →
  to_lower (trim e) = e ∧ shown (ow_ops w ++ [op]) PurposeLogin e None.
Proof. intros Hok e He. destruct (own_logins w Hok e He). split; [done|by apply shown_later]. Qed.

(** Addresses after an account got one. *)
Lemma accounts_insert w op verified u e :
  owned_ok w → (∀ p, op ≠ SendInsert p ∧ op ≠ SendRefresh p) →
  account_emails (email_op b ttlMs cooldownMs op (run (ow_ops w))) = <[u := Some e]> (account_emails (run (ow_ops w))) →
  (∀ v, account_emails (run (ow_ops w)) !! v = Some (Some e) → v = u) →
  shown (ow_ops w ++ [op]) PurposeBindEmail e (Some u) ∨ shown (ow_ops w ++ [op]) PurposeLogin e None →
  (∀ e, e ∈ verified → to_lower (trim e) = e ∧ shown (ow_ops w ++ [op]) PurposeLogin e None) →
  owned_ok {| ow_ops := ow_ops w ++ [op]; ow_verified := verified |}.
Proof.
  intros [H1 H2 H3 H4] Hop Hacc Hfree Hsh Hv.
  constructor; simpl; [|unfold emails_unique|done|]; rewrite ?run_snoc, ?Hacc.
  - intros p Hp. apply H1. rewrite !elem_of_app, !list_elem_of_singleton in Hp. destruct (Hop p). naive_solver.
  - by apply unique_insert.
  - intros v a. rewrite lookup_insert_Some. intros [[<- [= <-]]|[_ Hv']]; [done|].
    destruct (H4 v a Hv'); [left|right]; by apply shown_later.
Qed.

Lemma login_outcome fault key presented now db :
  (consumeEmailChallenge fault b key presented now db).2 = Returns VerifyOk →
  accepted b ttlMs cooldownMs key (Verify fault key presented now) db = true.
Proof.
  unfold consumeEmailChallenge, tx_ended. destruct fault as [took|]; [done|]. unfold accepted, compared. simpl.
  rewrite bool_decide_eq_true_2 by done. unfold consumeEmailChallenge, tx_ended. unfold consume_challenge.
  destruct (challenges db !! key) as [c|]; [|done]. destruct (is_locked now c); [done|]. destruct (is_past now c); [done|].
  simpl. destruct (code_matches presented c); simpl; [|done]. intros _. rewrite lookup_delete_eq. done.
Qed.

Lemma normal_same raw e : normalizeEmailAddress raw = Some e → to_lower (trim e) = e.
Proof.
  intros H%normalize_idempotent. unfold normalizeEmailAddress in H. repeat case_match; congruence.
Qed.

Lemma verify_accounts fault key presented now db :
  account_emails (email_op b ttlMs cooldownMs (Verify fault key presented now) db) = account_emails db.
Proof. simpl. unfold consumeEmailChallenge, tx_ended, consume_challenge. repeat case_match; done. Qed.

Lemma send_accounts p db :
  account_emails (email_op b ttlMs cooldownMs (SendInsert p) db) = account_emails db ∧
  account_emails (email_op b ttlMs cooldownMs (SendRefresh p) db) = account_emails db.
Proof. simpl. unfold insert_challenge, refresh_challenge. repeat case_match; done. Qed.

Lemma bind_preserved w fault raced u raw e presented now :
  owned_ok w → normalizeEmailAddress raw = Some e →
  owned_ok (did (Bind fault raced u e (challengeKey hmac PurposeBindEmail e (Some u)) presented now) w).
Proof using names_apart.
  intros Hok He. set (key := challengeKey hmac PurposeBindEmail e (Some u)).
  set (op := Bind fault raced u e key presented now). unfold did.
  assert (Hop : email_op b ttlMs cooldownMs op (run (ow_ops w)) = run (ow_ops w) ∨
    email_op b ttlMs cooldownMs op (run (ow_ops w)) = (bind_email raced b u e key presented now (run (ow_ops w))).1).
  { simpl. unfold bindUserEmailWithChallenge, tx_ended. destruct fault as [[]|]; auto. }
  pose proof (bind_accounts raced b u e key presented now (run (ow_ops w))) as Hb.
  destruct (bind_email raced b u e key presented now (run (ow_ops w))) as [db1 r] eqn:Eb. cbn [fst] in Hop.
  destruct Hop as [Hop|Hop]; [apply accounts_kept; [done|naive_solver|by rewrite Hop|by apply logins_later]|].
  destruct Hb as [[_ Eacc]|(_ & Eacc & Hfree & Hdel & c & Hc & Hl & Hp & Hm)].
  { apply accounts_kept; [done|naive_solver|by rewrite Hop|by apply logins_later]. }
  apply (accounts_insert _ _ _ u e); [done|by intros p|by rewrite Hop| | |by apply logins_later].
  - intros v Hv. by eapply email_taken_false.
  - left. eapply accepted_shown; [apply Hok|exact He| |].
    + simpl. fold key. by rewrite bool_decide_eq_true_2.
    + fold key. unfold accepted, compared, op at 1. cbn [guess_of]. rewrite bool_decide_eq_true_2, Hc, Hl, Hp by done.
      simpl orb. cbv iota. rewrite Hm, Hop, Hdel, lookup_delete_eq. done.
Qed.

Lemma own_preserved w w' : own_step w w' → owned_ok w → owned_ok w'.
Proof using names_apart.
  intros [p Hp|p Hp|fault raw e presented now He key|l1 e l2 u Hv Hu|l1 e l2 id db' Hv Hi|fault raced u raw e presented now He|u|now] Hok.
  - apply accounts_kept; [done|naive_solver|apply send_accounts|by apply logins_later].
  - apply accounts_kept; [done|naive_solver|apply send_accounts|by apply logins_later].
  - apply accounts_kept; [done|naive_solver|apply verify_accounts|].
    destruct (_.2) as [[]|] eqn:E; try by apply logins_later.
    intros a [->|Ha]%elem_of_cons; [|by apply logins_later]. split; [by eapply normal_same|].
    eapply accepted_shown; [apply Hok|exact He| |by apply login_outcome]. simpl. by rewrite bool_decide_eq_true_2.
  - destruct Hok as [H1 H2 H3 H4]. constructor; simpl; try done. intros a Ha. apply H3. rewrite Hv. set_solver.
  - assert (Hin : e ∈ ow_verified w) by (rewrite Hv; set_solver).
    destruct (own_logins w Hok e Hin) as [Hn Hsh]. rewrite Hn in Hi. unfold insert_user in Hi.
    destruct (getUserByEmail e _) eqn:Eg; [done|]. destruct (account_emails _ !! id); [done|]. injection Hi as <-.
    apply (accounts_insert _ _ _ id e); [done|by intros p|done| |right; by apply shown_later|].
    + intros v Hv'. by apply taken_by_none with (v := v) in Eg.
    + intros a Ha. apply logins_later; [done|]. rewrite Hv. set_solver.
  - by eapply bind_preserved.
  - destruct Hok as [H1 H2 H3 H4]. constructor; simpl; rewrite ?run_snoc; simpl.
    + intros p Hp. apply H1. rewrite !elem_of_app, !list_elem_of_singleton in Hp. naive_solver.
    + intros x y a Hx Hy. simpl in Hx, Hy. apply lookup_delete_Some in Hx as [_ Hx], Hy as [_ Hy]. by eapply H2.
    + intros a Ha. destruct (H3 a Ha). split; [done|by apply shown_later].
    + intros v a [_ Hv]%lookup_delete_Some. destruct (H4 v a Hv); [left|right]; by apply shown_later.
  - apply accounts_kept; [done|naive_solver|done|by apply logins_later].
Qed.

(** C39: Whatever codes are sent, guessed, used to log in or to bind an address,
    in whatever order, and whatever accounts are created and deleted: no two
    accounts have the same address, and the address of every account was shown
    to be under control.  Somebody presented, before it expired, the last code
    sent to that address for binding it to this very account, or for logging in
    with it, and no operation had used that code before.  The HMAC keeps the
    names of challenges apart. *)
Theorem email_ownership w :
  rtc own_step no_accounts w →
  emails_unique (run (ow_ops w)) ∧
  ∀ u e, account_emails (run (ow_ops w)) !! u = Some (Some e) →
    shown (ow_ops w) PurposeBindEmail e (Some u) ∨ shown (ow_ops w) PurposeLogin e None.
Proof using names_apart.
  intros Hrun. assert (Hok : owned_ok w).
  { apply (rtc_ind_r owned_ok no_accounts) in Hrun; [done| |].
    - constructor; simpl; try by intros ? ?%elem_of_nil.
      + intros p [?%elem_of_nil|?%elem_of_nil]; done.
      + intros x y a Hx. change ((∅ : gmap Z (option string)) !! x = Some (Some a)) in Hx. by rewrite lookup_empty in Hx.
      + intros x a Hx. change ((∅ : gmap Z (option string)) !! x = Some (Some a)) in Hx. by rewrite lookup_empty in Hx.
    - intros w1 w2 _ Hs. by apply own_preserved. }
  split; apply Hok.
Qed.
End ownership.

(** ** Witnesses *)

Definition digest_of (n : nat) : string := String.string_of_list_ascii (repeat (ascii_of_nat n) 64).

Definition sent_code (p : EmailChallengePurpose) (u : option Z) (n : nat) (now : Z) : SendParams := {|
  sp_challengeKey := challengeKey id p "ann@mail.org" u; sp_purpose := p; sp_email := "ann@mail.org"; sp_userId := u;
  sp_codeHmac := digest_of n; sp_now := now |}.

Definition login_key : string := challengeKey id PurposeLogin "ann@mail.org" None.

Definition guesses (times : list Z) : list EmailOp := map (λ t, Verify None login_key (digest_of 98) t) times.

(** One wrong guess before the interval, and a new code near its end. *)
Definition guessing_before : list EmailOp := SendInsert (sent_code PurposeLogin None 97 0) :: guesses [0].

Definition guessing_within : list EmailOp :=
  guesses [20; 21; 22] ++ SendRefresh (sent_code PurposeLogin None 97 900001)
    :: guesses [900002; 900003; 900004; 900005; 900006; 900007; 900008].

Lemma timed_check (f : Z → bool) (P : Z → Prop) ops :
  (∀ t, f t = true → P t) → forallb (λ op, match op_time op with Some t => f t | None => true end) ops = true →
  Forall (timed P) ops.
Proof.
  intros Hf H. apply Forall_forall. intros op Hop t Ht. apply Hf.
  pose proof (proj1 (forallb_forall _ _) H op (proj1 (list_elem_of_In _ _) Hop)) as E. simpl in E. by rewrite Ht in E.
Qed.

(** The bound is met: eight wrong guesses within the window. *)
Lemma guesses_bounded_witness :
  let db := email_run default_budget CODE_TTL_MS SEND_COOLDOWN_MS guessing_before no_challenges in
  let wrong := count_ops default_budget CODE_TTL_MS SEND_COOLDOWN_MS (wrong_guess login_key) guessing_within db in
  wrong = 8 ∧ wrong ≤ 2 * 5 - 2 + 5 * count_ops default_budget CODE_TTL_MS SEND_COOLDOWN_MS
    (accepted default_budget CODE_TTL_MS SEND_COOLDOWN_MS login_key) guessing_within db.
Proof.
  split; [vm_compute; reflexivity|].
  apply (guesses_bounded default_budget CODE_TTL_MS SEND_COOLDOWN_MS 11 login_key guessing_before guessing_within);
    try (vm_compute; discriminate).
  - apply (timed_check (λ t, t <? 11)); [intros t; apply Z.ltb_lt|vm_compute; reflexivity].
  - apply (timed_check (λ t, (11 <=? t) && (t <? 11 + 900000))); [|vm_compute; reflexivity].
    intros t H. apply andb_prop in H as [?%Z.leb_le ?%Z.ltb_lt]. done.
Defined.

Definition sign_in : list EmailOp := [SendInsert (sent_code PurposeLogin None 97 0); Verify None login_key (digest_of 98) 5].

Lemma code_single_use_witness :
  guess_of login_key (Verify None login_key (digest_of 97) 10) = Some (digest_of 97, 10) ∧
  ∃ l1 s l2 p, sign_in = l1 ++ s :: l2 ∧
    sends CODE_TTL_MS SEND_COOLDOWN_MS login_key s (email_run default_budget CODE_TTL_MS SEND_COOLDOWN_MS l1 no_challenges) = Some p ∧
    digest_of 97 = String.substring 0 64 (sp_codeHmac p) ∧ 10 < sp_now p + CODE_TTL_MS ∧
    ∀ l3 o l4, l2 = l3 ++ o :: l4 →
      let db := email_run default_budget CODE_TTL_MS SEND_COOLDOWN_MS (l1 ++ s :: l3) no_challenges in
      sends CODE_TTL_MS SEND_COOLDOWN_MS login_key o db = None ∧
      accepted default_budget CODE_TTL_MS SEND_COOLDOWN_MS login_key o db = false.
Proof.
  split; [vm_compute; reflexivity|].
  apply (code_single_use default_budget CODE_TTL_MS SEND_COOLDOWN_MS login_key sign_in
    (Verify None login_key (digest_of 97) 10)); vm_compute; reflexivity.
Defined.

(** Ann logs in, which creates account 7; later she binds another address. *)
Definition bind_code : SendParams := {|
  sp_challengeKey := challengeKey id PurposeBindEmail "ann@work.org" (Some 7); sp_purpose := PurposeBindEmail;
  sp_email := "ann@work.org"; sp_userId := Some 7; sp_codeHmac := digest_of 99; sp_now := 20 |}.

Definition ann_login : OwnWorld := {|
  ow_ops := [SendInsert (sent_code PurposeLogin None 97 0); Verify None login_key (digest_of 97) 10];
  ow_verified := ["ann@mail.org"%string] |}.

Definition ann_db : EmailDb := {| challenges := ∅; account_emails := {[7 := Some "ann@mail.org"%string]} |}.

Definition ann_account : OwnWorld := {|
  ow_ops := ow_ops ann_login ++ [Accounts (account_emails ann_db)]; ow_verified := [] ++ [] |}.

Definition ann_bound : OwnWorld :=
  did (Bind None false 7 "ann@work.org" (challengeKey id PurposeBindEmail "ann@work.org" (Some 7)) (digest_of 99) 30)
    (did (SendInsert bind_code) ann_account).

Abbreviation ann_run ops := (email_run default_budget CODE_TTL_MS SEND_COOLDOWN_MS ops no_challenges).

Lemma email_ownership_witness :
  account_emails (ann_run (ow_ops ann_bound)) !! 7 = Some (Some "ann@work.org"%string) ∧
  emails_unique (ann_run (ow_ops ann_bound)).
Proof.
  split; [vm_compute; reflexivity|].
  apply (email_ownership id default_budget CODE_TTL_MS SEND_COOLDOWN_MS ltac:(intros; assumption) ann_bound).
  apply (rtc_l _ _ (did (SendInsert (sent_code PurposeLogin None 97 0)) no_accounts)).
  { apply own_insert. split; [reflexivity|]. exists (JStr "ann@mail.org"). vm_compute. reflexivity. }
  apply (rtc_l _ _ ann_login).
  { apply (own_login id default_budget CODE_TTL_MS SEND_COOLDOWN_MS
      (did (SendInsert (sent_code PurposeLogin None 97 0)) no_accounts) None (JStr " Ann@Mail.org") "ann@mail.org"
      (digest_of 97) 10). vm_compute. reflexivity. }
  apply (rtc_l _ _ ann_account).
  { apply (own_create id default_budget CODE_TTL_MS SEND_COOLDOWN_MS ann_login [] "ann@mail.org" [] 7 ann_db); [reflexivity|].
    vm_compute. reflexivity. }
  apply (rtc_l _ _ (did (SendInsert bind_code) ann_account)).
  { apply own_insert. split; [reflexivity|]. exists (JStr "ann@work.org"). vm_compute. reflexivity. }
  apply rtc_once. apply (own_bind _ _ _ _ _ None false 7 (JStr "ann@work.org")). vm_compute. reflexivity.
Defined.
