(* ===== verification/MemoryJobs.v ===== *)
(** * MemoryJobs: the fenced job queue of the memory service
    (memory/src/jobs/types.ts, memory/src/jobs/repository.ts).

    A row of [memory_jobs] is claimed by a worker under a lease and a
    [claim_epoch] that grows with every claim; renewing, completing, deferring
    and rescheduling name the triple of job, worker and epoch.  Each method is
    one transaction and one definition.  [claimJobs] runs under an advisory
    lock: it puts expired claims back, counts the live ones, numbers the
    candidates within their installation and type, and claims the first rows
    within the global, installation and type limits that no other transaction
    has locked.  The projection of feeds, episodes and extraction reschedules a
    job by an upsert that marks a running row [rerun_required]
    ([schedule_rerun] and its three callers).

    Times are milliseconds of the database clock: [txn] is [NOW()], the start of
    the transaction, [now] the [clock_timestamp()] of a statement.  Random
    identifiers and SHA-256 are arguments.  Row locks taken only to order
    transactions, the foreign key to installations and the widths of counters
    are left out. *)

From stdpp Require Import pretty.
From S2P Require Import Prelude JsValue JsMap.

#[local] Open Scope Z_scope.

(** ** Job types *)

Inductive JobType : Type :=
| consolidate_task
| curate_conclusions
| evaluate_claim_lifecycle
| reclaim_claim_history
| execute_publication_delegation
| evaluate_review_shadow
| git_ingest
| git_export
| git_reconcile
| expire_promotion_candidates
| index_shared_claim
| invalidate_scope_authorization
| transfer_scope_claims
| project_feed
| compile_episode
| snapshot_reconcile
| session_purge
| installation_purge
| report_status
| report_usage
| extract_candidates
| index_claim_version
| rebuild_claim_index
| expire_claims
| recompile_extraction_policy
| compile_context_shadow
| record_context_delivery
| invalidate_context_packs
| parse_code_snapshot
| build_wiki
| extract_skill_candidate.

#[global] Instance JobType_eq : EqDecision JobType.
Proof. solve_decision. Defined.

Definition JOB_PRIORITIES (t : JobType) : Z :=
  match t with
  | consolidate_task => 84
  | curate_conclusions => 86
  | evaluate_claim_lifecycle => 96
  | reclaim_claim_history => 97
  | execute_publication_delegation => 61
  | evaluate_review_shadow => 86
  | git_ingest => 79
  | git_export => 79
  | git_reconcile => 79
  | expire_promotion_candidates => 40
  | index_shared_claim => 60
  | invalidate_scope_authorization => 10
  | transfer_scope_claims => 30
  | project_feed => 50
  | compile_episode => 80
  | snapshot_reconcile => 20
  | session_purge => 0
  | installation_purge => 0
  | report_status => 100
  | report_usage => 100
  | extract_candidates => 85
  | index_claim_version => 90
  | rebuild_claim_index => 95
  | expire_claims => 95
  | recompile_extraction_policy => 84
  | compile_context_shadow => 88
  | record_context_delivery => 100
  | invalidate_context_packs => 10
  | parse_code_snapshot => 70
  | build_wiki => 75
  | extract_skill_candidate => 78
  end.

Definition JOB_DEAD_LETTER_ATTEMPTS : Z := 12.

Inductive JobDeferReason : Type := budget_exceeded | budget_unavailable | source_not_ready.

Definition reason_code (r : JobDeferReason) : string :=
  match r with
  | budget_exceeded => "budget_exceeded"
  | budget_unavailable => "budget_unavailable"
  | source_not_ready => "source_not_ready"
  end.

(** ** Retry delays *)

Definition RETRY_LADDER_MS : list Z := [1000; 5000; 15000; 45000].
Definition RETRY_CAP_MS : Z := 300000.

(** [RETRY_LADDER_MS[attempts - 1]] is [undefined] below the first attempt. *)
Definition retryDelayMs (attempts : Z) : option Z :=
  if attempts <=? len RETRY_LADDER_MS
  then if attempts <? 1 then None else RETRY_LADDER_MS !! Z.to_nat (attempts - 1)
  else Some RETRY_CAP_MS.

(** [min(cap, round(delay * (0.8 + 0.4 * sample)))] in exact arithmetic, the
    random sample being the fraction [p/q]; [None] is NaN. *)
Definition retryDelayWithJitterMs (attempts : Z) (sample : Z * Z) : outcome (option Z) :=
  let '(p, q) := sample in
  if (q <=? 0) || (p <? 0) || (q <? p) then Throws "invalid_retry_jitter"
  else Returns (match retryDelayMs attempts with
                | None => None
                | Some d => Some (Z.min RETRY_CAP_MS ((2 * d * (8 * q + 4 * p) + 10 * q) / (20 * q)))
                end).

(** ** Tables *)

Inductive JobState : Type := JobPending | JobRunning | JobCompleted | JobDead.

#[global] Instance JobState_eq : EqDecision JobState.
Proof. solve_decision. Defined.

(** A row of [memory_jobs]. *)
Record MemoryJob : Type := {
  job_id : string;
  installation_id : option string;
  job_type : JobType;
  idempotency_key : string;
  priority : Z;
  payload : jsval;
  job_state : JobState;
  job_attempts : Z;
  available_at : Z;
  claimed_by : option string;
  claim_epoch : Z;
  claim_expires_at : option Z;
  last_error_code : option string;
  created_at : Z;
  completed_at : option Z
}.

(** A row of [memory_dead_letters]. *)
Record DeadLetter : Type := {
  dl_job_id : string;
  dl_installation_id : option string;
  dl_job_type : JobType;
  dl_attempts : Z;
  dl_error_code : string;
  dl_payload_hash : string
}.

(** The columns of the tables a dead job closes. *)
Record SourceSnapshot : Type := {
  ss_installation_id : string; ss_snapshot_id : string; ss_state : string; ss_completed_at : option Z }.
Record WikiBuildRun : Type := {
  wr_installation_id : string; wr_run_id : string; wr_state : string; wr_error_code : option string;
  wr_completed_at : option Z; wr_generation_run_id : option string }.
Record GenerationRun : Type := {
  gr_run_id : string; gr_state : string; gr_error_code : option string; gr_completed_at : option Z }.
Record SkillTaskRun : Type := {
  sr_installation_id : string; sr_task_id : string; sr_generation : Z; sr_state : string;
  sr_error_code : option string; sr_completed_at : option Z; sr_generation_run_id : option string }.
Record SkillTask : Type := {
  st_installation_id : string; st_task_id : string; st_current_generation : Z; st_state : string;
  st_updated_at : Z }.

Record JobTables : Type := {
  memory_jobs : list MemoryJob;
  memory_dead_letters : list DeadLetter;
  memory_source_snapshots : list SourceSnapshot;
  memory_wiki_build_runs : list WikiBuildRun;
  memory_generation_runs : list GenerationRun;
  memory_skill_task_runs : list SkillTaskRun;
  memory_skill_tasks : list SkillTask
}.

Definition with_jobs (st : JobTables) (rows : list MemoryJob) : JobTables := {|
  memory_jobs := rows; memory_dead_letters := memory_dead_letters st;
  memory_source_snapshots := memory_source_snapshots st;
  memory_wiki_build_runs := memory_wiki_build_runs st;
  memory_generation_runs := memory_generation_runs st;
  memory_skill_task_runs := memory_skill_task_runs st; memory_skill_tasks := memory_skill_tasks st |}.

(** [UPDATE memory_jobs SET f WHERE p]. *)
Definition update_rows (p : MemoryJob → bool) (f : MemoryJob → MemoryJob) (st : JobTables) : JobTables :=
  with_jobs st (map (λ j, if p j then f j else j) (memory_jobs st)).

(** ** Claims *)

Record JobClaim : Type := {
  c_job_id : string;
  c_installation_id : option string;
  c_job_type : JobType;
  c_idempotency_key : string;
  c_payload : jsval;
  c_attempts : Z;
  c_claim_epoch : Z
}.

Definition toClaim (row : MemoryJob) : JobClaim := {|
  c_job_id := job_id row; c_installation_id := installation_id row; c_job_type := job_type row;
  c_idempotency_key := idempotency_key row; c_payload := nullish (payload row) (JObj []);
  c_attempts := job_attempts row; c_claim_epoch := claim_epoch row |}.

Record JobFence : Type := { jobId : string; claimedBy : string; claimEpoch : Z }.

(** ** enqueueJob *)

Record JobInput : Type := {
  i_installationId : option string; i_jobType : JobType; i_idempotencyKey : string;
  i_priority : option Z; i_payload : option jsval; i_availableAt : option Z }.

(** The unique constraint on installation, type and key, and the partial index
    of the rows without an installation. *)
Definition same_job (inst : option string) (t : JobType) (key : string) (j : MemoryJob) : bool :=
  bool_decide (installation_id j = inst) && bool_decide (job_type j = t)
  && bool_decide (idempotency_key j = key).

Definition queued_row (txn : Z) (uuid : string) (i : JobInput) : MemoryJob := {|
  job_id := uuid; installation_id := i_installationId i; job_type := i_jobType i;
  idempotency_key := i_idempotencyKey i; priority := default (JOB_PRIORITIES (i_jobType i)) (i_priority i);
  payload := default (JObj []) (i_payload i); job_state := JobPending; job_attempts := 0;
  available_at := default txn (i_availableAt i); claimed_by := None; claim_epoch := 0;
  claim_expires_at := None; last_error_code := None; created_at := txn; completed_at := None |}.

(** [INSERT ... ON CONFLICT DO NOTHING]. *)
Definition enqueueJob (txn : Z) (uuid : string) (i : JobInput) (st : JobTables) : JobTables :=
  if existsb (λ j, bool_decide (job_id j = uuid)
                   || same_job (i_installationId i) (i_jobType i) (i_idempotencyKey i) j) (memory_jobs st)
  then st
  else with_jobs st (memory_jobs st ++ [queued_row txn uuid i]).

(** ** claimJobs *)

Record ClaimInput : Type := {
  workerId : string; limit : Z; leaseMs : Z;
  globalLimit : option Z; perInstallationLimit : option Z; typeLimits : list (JobType * Z) }.

Definition int4_max : Z := 2147483647.

(** Lexicographic order of keys, ending in a last comparison. *)
Fixpoint lex_le (a b : list Z) (last : Prop) : Prop :=
  match a, b with
  | x :: a', y :: b' => x < y ∨ (x = y ∧ lex_le a' b' last)
  | _, _ => last
  end.

#[global] Instance lex_le_dec a b last : Decision last → Decision (lex_le a b last).
Proof. intros Hl. revert b. induction a as [|x a IH]; intros [|y b]; simpl; apply _. Defined.

Definition live_claim (now : Z) (j : MemoryJob) : bool :=
  bool_decide (job_state j = JobRunning)
  && match claim_expires_at j with Some t => now <? t | None => false end.

(** [UPDATE ... SET state='pending' ... WHERE state='running' AND
    claim_expires_at<=clock_timestamp()]. *)
Definition lease_over (now : Z) (j : MemoryJob) : bool :=
  bool_decide (job_state j = JobRunning)
  && match claim_expires_at j with Some t => t <=? now | None => false end.

Definition released_row (j : MemoryJob) : MemoryJob := {|
  job_id := job_id j; installation_id := installation_id j; job_type := job_type j;
  idempotency_key := idempotency_key j; priority := priority j; payload := payload j;
  job_state := JobPending; job_attempts := job_attempts j; available_at := available_at j;
  claimed_by := None; claim_epoch := claim_epoch j; claim_expires_at := None;
  last_error_code := last_error_code j; created_at := created_at j; completed_at := completed_at j |}.

(** [COALESCE(t.n,0)] and [COALESCE(k.n,0)]: live claims of an installation
    ([IS NOT DISTINCT FROM]) and of a type. *)
Definition tenant_live (now : Z) (rows : list MemoryJob) (inst : option string) : Z :=
  len (bfilter (λ j, live_claim now j && bool_decide (installation_id j = inst)) rows).
Definition type_live (now : Z) (rows : list MemoryJob) (t : JobType) : Z :=
  len (bfilter (λ j, live_claim now j && bool_decide (job_type j = t)) rows).
Definition all_live (now : Z) (rows : list MemoryJob) : Z := len (bfilter (live_claim now) rows).

Definition type_limit (limits : list (JobType * Z)) (t : JobType) : Z :=
  default int4_max (map_get limits t).

Section claim.
Context (now tenantLimit : Z) (limits : list (JobType * Z)) (rows : list MemoryJob).

Definition active_tenant (j : MemoryJob) : Z := tenant_live now rows (installation_id j).
Definition tenant_room (j : MemoryJob) : Z := tenantLimit - active_tenant j.
Definition type_room (j : MemoryJob) : Z := type_limit limits (job_type j) - type_live now rows (job_type j).

(** The WHERE clause of the query [ranked]. *)
Definition ranked_row (j : MemoryJob) : bool :=
  bool_decide (job_state j = JobPending) && (available_at j <=? now)
  && (type_live now rows (job_type j) <? type_limit limits (job_type j))
  && (active_tenant j <? tenantLimit).

(** The rows of [ranked]. *)
Definition due_rows : list MemoryJob := bfilter ranked_row rows.

Definition tenant_order (a b : MemoryJob) : Prop :=
  lex_le [priority a; available_at a; created_at a] [priority b; available_at b; created_at b]
    (String.le (job_id a) (job_id b)).
Definition type_order (a b : MemoryJob) : Prop :=
  lex_le [priority a; active_tenant a; available_at a; created_at a]
    [priority b; active_tenant b; available_at b; created_at b] (String.le (job_id a) (job_id b)).

#[global] Instance tenant_order_dec : RelDecision tenant_order.
Proof. intros a b. unfold tenant_order. apply _. Defined.
#[global] Instance type_order_dec : RelDecision type_order.
Proof. intros a b. unfold type_order. apply _. Defined.

(** [ROW_NUMBER()] of a row in sorted rows, counted from one. *)
Fixpoint row_number (id : string) (sorted : list MemoryJob) : Z :=
  match sorted with
  | [] => 1
  | j :: sorted' => if bool_decide (job_id j = id) then 1 else 1 + row_number id sorted'
  end.

Definition tenant_rank (j : MemoryJob) : Z :=
  row_number (job_id j)
    (merge_sort tenant_order (bfilter (λ k, bool_decide (installation_id k = installation_id j)) due_rows)).
Definition type_rank (j : MemoryJob) : Z :=
  row_number (job_id j)
    (merge_sort type_order (bfilter (λ k, bool_decide (job_type k = job_type j)) due_rows)).

(** [ORDER BY priority, active_tenant, tenant_rank, available_at, created_at,
    job_id]. *)
Definition pick_order (a b : MemoryJob) : Prop :=
  lex_le [priority a; active_tenant a; tenant_rank a; available_at a; created_at a]
    [priority b; active_tenant b; tenant_rank b; available_at b; created_at b]
    (String.le (job_id a) (job_id b)).

#[global] Instance pick_order_dec : RelDecision pick_order.
Proof. intros a b. unfold pick_order. apply _. Defined.

Definition within_rooms (j : MemoryJob) : bool :=
  (tenant_rank j <=? tenant_room j) && (type_rank j <=? type_room j).

(** [FOR UPDATE OF j SKIP LOCKED LIMIT LEAST($3, GREATEST(0, $4 - live))]. *)
Definition picked (locked : list string) (lim global : Z) : list MemoryJob :=
  take (Z.to_nat (Z.min lim (Z.max 0 (global - all_live now rows))))
    (bfilter (λ j, negb (bool_decide (job_id j ∈ locked)))
       (merge_sort pick_order (bfilter within_rooms due_rows))).
End claim.

Definition running_row (now : Z) (worker : string) (lease : Z) (j : MemoryJob) : MemoryJob := {|
  job_id := job_id j; installation_id := installation_id j; job_type := job_type j;
  idempotency_key := idempotency_key j; priority := priority j; payload := payload j;
  job_state := JobRunning; job_attempts := job_attempts j + 1; available_at := available_at j;
  claimed_by := Some worker; claim_epoch := claim_epoch j + 1; claim_expires_at := Some (now + lease);
  last_error_code := None; created_at := created_at j; completed_at := completed_at j |}.

Definition invalid_claim_limits (i : ClaimInput) : bool :=
  (limit i <? 0) || (1000 <? limit i) || (leaseMs i <=? 0)
  || (default int4_max (globalLimit i) <? 1) || (default int4_max (perInstallationLimit i) <? 1)
  || existsb (λ kv, kv.2 <? 0) (typeLimits i).

(** The two UPDATEs read the clock at [now1] and [now2]. *)
Definition claimJobs (now1 now2 : Z) (locked : list string) (i : ClaimInput) (st : JobTables)
  : outcome (JobTables * list JobClaim) :=
  if limit i =? 0 then Returns (st, [])
  else if invalid_claim_limits i then Throws "invalid_claim_limits"
  else
    let st1 := update_rows (lease_over now1) released_row st in
    let ids := map job_id (picked now2 (default int4_max (perInstallationLimit i)) (typeLimits i)
                 (memory_jobs st1) locked (limit i) (default int4_max (globalLimit i))) in
    let p := λ j, bool_decide (job_id j ∈ ids) in
    let f := running_row now2 (workerId i) (leaseMs i) in
    Returns (update_rows p f st1, map (λ j, toClaim (f j)) (bfilter p (memory_jobs st1))).

(** ** Fenced operations *)

(** [WHERE job_id=$1 AND claimed_by=$2 AND claim_epoch=$3 AND state='running'
    AND claim_expires_at>clock_timestamp()]. *)
Definition fenced (now : Z) (f : JobFence) (j : MemoryJob) : bool :=
  bool_decide (job_id j = jobId f) && bool_decide (claimed_by j = Some (claimedBy f))
  && (claim_epoch j =? claimEpoch f) && live_claim now j.

Definition owns (now : Z) (f : JobFence) (st : JobTables) : bool :=
  existsb (fenced now f) (memory_jobs st).

Definition rerun_wanted (j : MemoryJob) : bool :=
  bool_decide (last_error_code j = Some "rerun_required").

Definition extended_row (now lease : Z) (j : MemoryJob) : MemoryJob := {|
  job_id := job_id j; installation_id := installation_id j; job_type := job_type j;
  idempotency_key := idempotency_key j; priority := priority j; payload := payload j;
  job_state := job_state j; job_attempts := job_attempts j; available_at := available_at j;
  claimed_by := claimed_by j; claim_epoch := claim_epoch j; claim_expires_at := Some (now + lease);
  last_error_code := last_error_code j; created_at := created_at j; completed_at := completed_at j |}.

Definition renewClaim (now : Z) (f : JobFence) (lease : Z) (st : JobTables) : JobTables * bool :=
  (update_rows (fenced now f) (extended_row now lease) st, owns now f st).

Definition done_row (txn : Z) (j : MemoryJob) : MemoryJob :=
  let again := rerun_wanted j in {|
  job_id := job_id j; installation_id := installation_id j; job_type := job_type j;
  idempotency_key := idempotency_key j; priority := priority j; payload := payload j;
  job_state := if again then JobPending else JobCompleted;
  job_attempts := if again then 0 else job_attempts j; available_at := available_at j;
  claimed_by := if again then None else claimed_by j; claim_epoch := claim_epoch j;
  claim_expires_at := None; last_error_code := None; created_at := created_at j;
  completed_at := if again then None else Some txn |}.

Definition completeJob (txn now : Z) (f : JobFence) (st : JobTables) : JobTables * bool :=
  (update_rows (fenced now f) (done_row txn) st, owns now f st).

(** [payload->>k]. *)
Definition member_text (v : jsval) : option string :=
  match v with
  | JUndef | JNull => None
  | JStr s => Some s
  | _ => stringify v
  end.

(** [~ '^[0-9]{1,9}$'], then the number plus one up to 999999999, else one. *)
Definition wait_count (v : jsval) : Z :=
  match member_text v with
  | Some s =>
      let '(n, digits, rest) := take_digits s 0 0 in
      if bool_decide (rest = EmptyString) && (1 <=? Z.of_nat digits) && (Z.of_nat digits <=? 9)
      then Z.min 999999999 (n + 1) else 1
  | None => 1
  end.

(** [jsonb_set(payload, ARRAY[k], ...)], an error outside objects. *)
Definition count_wait (k : string) (v : jsval) : outcome jsval :=
  match v with
  | JObj fields => Returns (JObj (map_set fields k (JNum (wait_count (lookup_field k fields)))))
  | _ => Throws "cannot set path in scalar"
  end.

Definition wait_key (r : JobDeferReason) : string :=
  match r with source_not_ready => "source_wait_count" | _ => "budget_wait_count" end.

Definition deferred_row (now at_ : Z) (r : JobDeferReason) (v : jsval) (j : MemoryJob) : MemoryJob :=
  let again := rerun_wanted j in {|
  job_id := job_id j; installation_id := installation_id j; job_type := job_type j;
  idempotency_key := idempotency_key j; priority := priority j; payload := v;
  job_state := JobPending; job_attempts := if again then 0 else Z.max 0 (job_attempts j - 1);
  available_at := if again then now + 1000 else Z.max at_ (now + 1000);
  claimed_by := None; claim_epoch := claim_epoch j; claim_expires_at := None;
  last_error_code := if again then Some "rerun_required" else Some (reason_code r);
  created_at := created_at j; completed_at := None |}.

(** [availableAt] is [None] for an invalid Date. *)
Definition deferJob (now : Z) (f : JobFence) (r : JobDeferReason) (availableAt : option Z) (st : JobTables)
  : outcome (JobTables * bool) :=
  match availableAt with
  | None => Throws "invalid_defer_clock"
  | Some at_ =>
      match bfilter (fenced now f) (memory_jobs st) with
      | [] => Returns (st, false)
      | j :: _ =>
          try! v := count_wait (wait_key r) (payload j) in
          Returns (update_rows (fenced now f) (deferred_row now at_ r v) st, true)
      end
  end.

(** ** rescheduleJob *)

Definition rerun_row (code : string) (j : MemoryJob) : MemoryJob := {|
  job_id := job_id j; installation_id := installation_id j; job_type := job_type j;
  idempotency_key := idempotency_key j; priority := priority j; payload := payload j;
  job_state := JobPending; job_attempts := 0; available_at := available_at j;
  claimed_by := None; claim_epoch := claim_epoch j; claim_expires_at := None;
  last_error_code := Some code; created_at := created_at j; completed_at := None |}.

Definition dead_row (txn : Z) (code : string) (j : MemoryJob) : MemoryJob := {|
  job_id := job_id j; installation_id := installation_id j; job_type := job_type j;
  idempotency_key := idempotency_key j; priority := priority j; payload := payload j;
  job_state := JobDead; job_attempts := job_attempts j; available_at := available_at j;
  claimed_by := claimed_by j; claim_epoch := claim_epoch j; claim_expires_at := None;
  last_error_code := Some code; created_at := created_at j; completed_at := Some txn |}.

Definition retry_row (at_ : Z) (code : string) (j : MemoryJob) : MemoryJob := {|
  job_id := job_id j; installation_id := installation_id j; job_type := job_type j;
  idempotency_key := idempotency_key j; priority := priority j; payload := payload j;
  job_state := JobPending; job_attempts := job_attempts j; available_at := at_;
  claimed_by := None; claim_epoch := claim_epoch j; claim_expires_at := None;
  last_error_code := Some code; created_at := created_at j; completed_at := completed_at j |}.

(** [column = $n] where the parameter may be NULL. *)
Definition column_is (column : string) (param : option string) : bool := bool_decide (param = Some column).

(** [typeof payload.k === 'string']. *)
Definition payload_string (k : string) (v : jsval) : option string :=
  match js_get v k with JStr s => Some s | _ => None end.

Definition fail_snapshot (txn : Z) (inst : option string) (id : string) (s : SourceSnapshot) : SourceSnapshot :=
  if column_is (ss_installation_id s) inst && bool_decide (ss_snapshot_id s = id)
     && bool_decide (ss_state s ∈ ["ready"; "parsing"])
  then {| ss_installation_id := ss_installation_id s; ss_snapshot_id := ss_snapshot_id s;
          ss_state := "failed"; ss_completed_at := Some txn |}
  else s.

Definition wiki_run_of (inst : option string) (id : string) (w : WikiBuildRun) : bool :=
  column_is (wr_installation_id w) inst && bool_decide (wr_run_id w = id).

Definition fail_wiki_run (txn : Z) (inst : option string) (id code : string) (w : WikiBuildRun) : WikiBuildRun :=
  if wiki_run_of inst id w && bool_decide (wr_state w ∈ ["queued"; "running"; "validating"])
  then {| wr_installation_id := wr_installation_id w; wr_run_id := wr_run_id w; wr_state := "failed";
          wr_error_code := Some code; wr_completed_at := Some txn;
          wr_generation_run_id := wr_generation_run_id w |}
  else w.

Definition fail_generation (txn : Z) (ids : list (option string)) (code : string) (g : GenerationRun)
  : GenerationRun :=
  if bool_decide (Some (gr_run_id g) ∈ ids) && bool_decide (gr_state g ∈ ["queued"; "running"])
  then {| gr_run_id := gr_run_id g; gr_state := "failed"; gr_error_code := Some code;
          gr_completed_at := Some txn |}
  else g.

Definition skill_run_of (inst : option string) (task generation : string) (r : SkillTaskRun) : bool :=
  column_is (sr_installation_id r) inst && bool_decide (sr_task_id r = task)
  && bool_decide (pretty (sr_generation r) = generation).

Definition fail_skill_run (txn : Z) (inst : option string) (task generation code : string) (r : SkillTaskRun)
  : SkillTaskRun :=
  if skill_run_of inst task generation r && bool_decide (sr_state r ∈ ["pending"; "running"])
  then {| sr_installation_id := sr_installation_id r; sr_task_id := sr_task_id r;
          sr_generation := sr_generation r; sr_state := "failed"; sr_error_code := Some code;
          sr_completed_at := Some txn; sr_generation_run_id := sr_generation_run_id r |}
  else r.

Definition kill_skill_task (txn : Z) (inst : option string) (task generation : string) (t : SkillTask)
  : SkillTask :=
  if column_is (st_installation_id t) inst && bool_decide (st_task_id t = task)
     && bool_decide (pretty (st_current_generation t) = generation)
  then {| st_installation_id := st_installation_id t; st_task_id := st_task_id t;
          st_current_generation := st_current_generation t; st_state := "dead"; st_updated_at := txn |}
  else t.

Definition close_snapshot (txn : Z) (inst : option string) (t : JobType) (v : jsval) (st : JobTables)
  : JobTables :=
  match t, payload_string "snapshot_id" v with
  | parse_code_snapshot, Some id =>
      {| memory_jobs := memory_jobs st; memory_dead_letters := memory_dead_letters st;
         memory_source_snapshots := map (fail_snapshot txn inst id) (memory_source_snapshots st);
         memory_wiki_build_runs := memory_wiki_build_runs st;
         memory_generation_runs := memory_generation_runs st;
         memory_skill_task_runs := memory_skill_task_runs st; memory_skill_tasks := memory_skill_tasks st |}
  | _, _ => st
  end.

Definition close_wiki_run (txn : Z) (inst : option string) (t : JobType) (v : jsval) (code : string)
  (st : JobTables) : JobTables :=
  match t, payload_string "run_id" v with
  | build_wiki, Some id =>
      let runs := map (fail_wiki_run txn inst id code) (memory_wiki_build_runs st) in
      {| memory_jobs := memory_jobs st; memory_dead_letters := memory_dead_letters st;
         memory_source_snapshots := memory_source_snapshots st; memory_wiki_build_runs := runs;
         memory_generation_runs :=
           map (fail_generation txn (map wr_generation_run_id (bfilter (wiki_run_of inst id) runs)) code)
             (memory_generation_runs st);
         memory_skill_task_runs := memory_skill_task_runs st; memory_skill_tasks := memory_skill_tasks st |}
  | _, _ => st
  end.

Definition close_skill_task (txn : Z) (inst : option string) (t : JobType) (v : jsval) (code : string)
  (st : JobTables) : JobTables :=
  match t, payload_string "task_id" v with
  | extract_skill_candidate, Some task =>
      let generation := js_String (js_get v "generation") in
      let runs := map (fail_skill_run txn inst task generation code) (memory_skill_task_runs st) in
      {| memory_jobs := memory_jobs st; memory_dead_letters := memory_dead_letters st;
         memory_source_snapshots := memory_source_snapshots st;
         memory_wiki_build_runs := memory_wiki_build_runs st;
         memory_generation_runs :=
           map (fail_generation txn (map sr_generation_run_id (bfilter (skill_run_of inst task generation) runs))
                  code) (memory_generation_runs st);
         memory_skill_task_runs := runs;
         memory_skill_tasks := map (kill_skill_task txn inst task generation) (memory_skill_tasks st) |}
  | _, _ => st
  end.

(** [INSERT INTO memory_dead_letters ... ON CONFLICT (job_id) DO NOTHING]. *)
Definition add_dead_letter (d : DeadLetter) (st : JobTables) : JobTables :=
  if existsb (λ x, bool_decide (dl_job_id x = dl_job_id d)) (memory_dead_letters st) then st
  else {| memory_jobs := memory_jobs st; memory_dead_letters := memory_dead_letters st ++ [d];
          memory_source_snapshots := memory_source_snapshots st;
          memory_wiki_build_runs := memory_wiki_build_runs st;
          memory_generation_runs := memory_generation_runs st;
          memory_skill_task_runs := memory_skill_task_runs st; memory_skill_tasks := memory_skill_tasks st |}.

Section reschedule.
Context (sha256 : string → string).

Definition letter_of (j : MemoryJob) (code : string) : DeadLetter := {|
  dl_job_id := job_id j; dl_installation_id := installation_id j; dl_job_type := job_type j;
  dl_attempts := job_attempts j; dl_error_code := code;
  dl_payload_hash := sha256 (default EmptyString (stringify (nullish (payload j) (JObj [])))) |}.

(** The dead letter and what the dead job was building. *)
Definition bury (txn : Z) (j : MemoryJob) (code : string) (st : JobTables) : JobTables :=
  let inst := installation_id j in
  close_skill_task txn inst (job_type j) (payload j) code
    (close_wiki_run txn inst (job_type j) (payload j) code
      (close_snapshot txn inst (job_type j) (payload j)
        (add_dead_letter (letter_of j code)
          (update_rows (λ k, bool_decide (job_id k = job_id j)) (dead_row txn code) st)))).

(** [true] when the job moved to the dead letters. *)
Definition rescheduleJob (txn now : Z) (f : JobFence) (code : string) (terminal : bool) (sample : Z * Z)
  (st : JobTables) : outcome (JobTables * bool) :=
  match bfilter (fenced now f) (memory_jobs st) with
  | [] => Returns (st, false)
  | j :: _ =>
      let this := λ k, bool_decide (job_id k = job_id j) in
      if rerun_wanted j && negb terminal then Returns (update_rows this (rerun_row code) st, false)
      else if terminal || (JOB_DEAD_LETTER_ATTEMPTS <=? job_attempts j)
      then Returns (bury txn j code st, true)
      else
        try! delay := retryDelayWithJitterMs (job_attempts j) sample in
        match delay with
        | None => Throws "interval out of range"
        | Some ms => Returns (update_rows this (retry_row (txn + ms) code) st, false)
        end
  end.
End reschedule.

(** ** Scheduling a job again *)

(** What the ON CONFLICT clauses have in common; [zero] says when the attempts
    start again, [v] is a new payload. *)
Definition rescheduled_row (at_ : Z) (zero : JobState → bool) (v : option jsval) (j : MemoryJob) : MemoryJob :=
  let over := bool_decide (job_state j ∈ [JobCompleted; JobDead]) in {|
  job_id := job_id j; installation_id := installation_id j; job_type := job_type j;
  idempotency_key := idempotency_key j; priority := priority j; payload := default (payload j) v;
  job_state := if over then JobPending else job_state j;
  job_attempts := if zero (job_state j) then 0 else job_attempts j;
  available_at := at_; claimed_by := if over then None else claimed_by j; claim_epoch := claim_epoch j;
  claim_expires_at := if over then None else claim_expires_at j;
  last_error_code := if bool_decide (job_state j = JobRunning) then Some "rerun_required" else None;
  created_at := created_at j; completed_at := if over then None else completed_at j |}.

Definition schedule_rerun (txn : Z) (uuid : string) (i : JobInput) (zero : JobState → bool)
  (v : option jsval) (st : JobTables) : outcome JobTables :=
  let same := same_job (i_installationId i) (i_jobType i) (i_idempotencyKey i) in
  if existsb same (memory_jobs st)
  then Returns (update_rows same (rescheduled_row (default txn (i_availableAt i)) zero v) st)
  else if existsb (λ j, bool_decide (job_id j = uuid)) (memory_jobs st)
  then Throws "duplicate key value violates unique constraint"
  else Returns (with_jobs st (memory_jobs st ++ [queued_row txn uuid i])).

Definition unless_running (s : JobState) : bool := negb (bool_decide (s = JobRunning)).
Definition when_over (s : JobState) : bool := bool_decide (s ∈ [JobCompleted; JobDead]).

(** source-projector.ts: an event of a turn delays its episode. *)
Definition schedule_compile (txn : Z) (uuid inst turn_id : string) (stabilizationMs : Z) (st : JobTables)
  : outcome JobTables :=
  schedule_rerun txn uuid
    {| i_installationId := Some inst; i_jobType := compile_episode;
       i_idempotencyKey := "compile_episode:" +:+ turn_id; i_priority := Some 80;
       i_payload := Some (JObj []); i_availableAt := Some (txn + stabilizationMs) |}
    unless_running None st.

(** episodes/repository.ts: a new packet replaces the payload. *)
Definition schedule_extract (txn : Z) (uuid inst turnId : string) (v : jsval) (extractionDebounceMs : Z)
  (st : JobTables) : outcome JobTables :=
  schedule_rerun txn uuid
    {| i_installationId := Some inst; i_jobType := extract_candidates;
       i_idempotencyKey := "extract:" +:+ turnId; i_priority := Some 85;
       i_payload := Some v; i_availableAt := Some (txn + extractionDebounceMs) |}
    unless_running (Some v) st.

(** inbox/repository.ts: redelivered feed rows wake the projection. *)
Definition schedule_project (txn : Z) (uuid inst : string) (maxFeedId : Z) (st : JobTables)
  : outcome JobTables :=
  schedule_rerun txn uuid
    {| i_installationId := Some inst; i_jobType := project_feed;
       i_idempotencyKey := "project:" +:+ inst +:+ ":" +:+ pretty maxFeedId; i_priority := Some 50;
       i_payload := Some (JObj []); i_availableAt := None |}
    when_over None st.
