(* ===== verification/MemoryJobsSpec.v ===== *)
(** * MemoryJobsSpec: what the fenced job queue promises.

    [run_ops] executes any sequence of calls by any workers: the clock never
    goes back, a call that throws changes nothing, workers stop, lose their
    lease or use old fences at will, and all workers share the limits
    [globalLimit], [perInstallationLimit] and [typeLimits].  A log notes what
    happened to the jobs. *)

From stdpp Require Import pretty.
From S2P Require Import Prelude JsValue JsMap MemoryJobs.

#[local] Open Scope Z_scope.

(** ** Histories *)

Inductive EndKind : Type := EndCompleted | EndDeferred | EndRetried | EndBuried.

Inductive JobEvent : Type :=
| Claimed (id worker : string) (epoch : Z)
| Ended (id worker : string) (epoch : Z) (kind : EndKind)
| Requested (id : string).

(** The callers that schedule a job again. *)
Inductive RerunCall : Type :=
| RerunCompile (turn_id : string) (stabilizationMs : Z)
| RerunExtract (turnId : string) (v : jsval) (extractionDebounceMs : Z)
| RerunProject (maxFeedId : Z).

Definition rerun_call (txn : Z) (uuid inst : string) (c : RerunCall) (st : JobTables) : outcome JobTables :=
  match c with
  | RerunCompile turn ms => schedule_compile txn uuid inst turn ms st
  | RerunExtract turn v ms => schedule_extract txn uuid inst turn v ms st
  | RerunProject feed => schedule_project txn uuid inst feed st
  end.

(** The job a caller schedules. *)
Definition rerun_job (inst : string) (c : RerunCall) : MemoryJob → bool :=
  match c with
  | RerunCompile turn _ => same_job (Some inst) compile_episode ("compile_episode:" +:+ turn)
  | RerunExtract turn _ _ => same_job (Some inst) extract_candidates ("extract:" +:+ turn)
  | RerunProject feed => same_job (Some inst) project_feed ("project:" +:+ inst +:+ ":" +:+ pretty feed)
  end.

Inductive JobOp : Type :=
| OpWait
| OpEnqueue (txn : Z) (uuid : string) (i : JobInput)
| OpClaim (worker : string) (lim lease later : Z) (locked : list string)
| OpRenew (f : JobFence) (lease : Z)
| OpComplete (txn : Z) (f : JobFence)
| OpDefer (f : JobFence) (r : JobDeferReason) (at_ : option Z)
| OpReschedule (txn : Z) (f : JobFence) (code : string) (terminal : bool) (sample : Z * Z)
| OpRerun (txn : Z) (uuid inst : string) (c : RerunCall).

Record QueueWorld : Type := { q_now : Z; q_tables : JobTables; q_log : list JobEvent }.

(** The entry of a fenced call: something happened only to the owner. *)
Definition ended (now : Z) (f : JobFence) (k : EndKind) (st : JobTables) : list JobEvent :=
  if owns now f st then [Ended (jobId f) (claimedBy f) (claimEpoch f) k] else [].

Definition claimed_event (worker : string) (c : JobClaim) : JobEvent :=
  Claimed (c_job_id c) worker (c_claim_epoch c).

Definition requested (inst : string) (c : RerunCall) (st : JobTables) : list JobEvent :=
  map (λ j, Requested (job_id j)) (bfilter (rerun_job inst c) (memory_jobs st)).

Section histories.
Context (sha256 : string → string) (globalCap tenantCap : Z) (caps : list (JobType * Z)).

Definition claim_input (worker : string) (lim lease : Z) : ClaimInput := {|
  workerId := worker; limit := lim; leaseMs := lease; globalLimit := Some globalCap;
  perInstallationLimit := Some tenantCap; typeLimits := caps |}.

(** One call at time [now]: the new tables and the log entries. *)
Definition run_op (now : Z) (o : JobOp) (st : JobTables) : JobTables * list JobEvent :=
  match o with
  | OpWait => (st, [])
  | OpEnqueue txn uuid i => (enqueueJob txn uuid i st, [])
  | OpClaim worker lim lease later locked =>
      match claimJobs now (now + Z.max 0 later) locked (claim_input worker lim lease) st with
      | Returns (st', claims) => (st', map (claimed_event worker) claims)
      | Throws _ => (st, [])
      end
  | OpRenew f lease => ((renewClaim now f lease st).1, [])
  | OpComplete txn f => ((completeJob txn now f st).1, ended now f EndCompleted st)
  | OpDefer f r at_ =>
      match deferJob now f r at_ st with
      | Returns (st', _) => (st', ended now f EndDeferred st)
      | Throws _ => (st, [])
      end
  | OpReschedule txn f code terminal sample =>
      match rescheduleJob sha256 txn now f code terminal sample st with
      | Returns (st', dead) => (st', ended now f (if dead then EndBuried else EndRetried) st)
      | Throws _ => (st, [])
      end
  | OpRerun txn uuid inst c =>
      match rerun_call txn uuid inst c st with
      | Returns st' => (st', requested inst c st')
      | Throws _ => (st, [])
      end
  end.

(** When a call is over: the claim reads the clock twice. *)
Definition op_end (now : Z) (o : JobOp) : Z :=
  match o with OpClaim _ _ _ later _ => now + Z.max 0 later | _ => now end.

Definition step_world (w : QueueWorld) (d : Z * JobOp) : QueueWorld :=
  let now := q_now w + Z.max 0 d.1 in
  let '(st, evs) := run_op now d.2 (q_tables w) in
  {| q_now := op_end now d.2; q_tables := st; q_log := q_log w ++ evs |}.

Definition run_ops (w : QueueWorld) (l : list (Z * JobOp)) : QueueWorld := fold_left step_world l w.
End histories.

Definition no_jobs (now : Z) : QueueWorld := {|
  q_now := now;
  q_tables := {| memory_jobs := []; memory_dead_letters := []; memory_source_snapshots := [];
                 memory_wiki_build_runs := []; memory_generation_runs := []; memory_skill_task_runs := [];
                 memory_skill_tasks := [] |};
  q_log := [] |}.

(** ** The abstract lease of a job *)

Definition event_id (e : JobEvent) : string :=
  match e with Claimed id _ _ | Ended id _ _ _ | Requested id => id end.

Definition about (id : string) (e : JobEvent) : bool := bool_decide (event_id e = id).

(** What happened to one job. *)
Definition history (id : string) (log : list JobEvent) : list JobEvent := bfilter (about id) log.

(** The epoch of the last claim and its holder, while it has not ended. *)
Record Lease : Type := { l_epoch : Z; l_holder : option string }.

(** Epochs grow; only the holder of the last claim ends it, once. *)
Definition lease_step (s : option Lease) (e : JobEvent) : option Lease :=
  match s, e with
  | None, _ => None
  | Some l, Claimed _ worker epoch =>
      if l_epoch l <? epoch then Some {| l_epoch := epoch; l_holder := Some worker |} else None
  | Some l, Ended _ worker epoch _ =>
      if bool_decide (l_holder l = Some worker) && (epoch =? l_epoch l)
      then Some {| l_epoch := l_epoch l; l_holder := None |} else None
  | Some l, Requested _ => Some l
  end.

Definition lease_after (h : list JobEvent) : option Lease :=
  fold_left lease_step h (Some {| l_epoch := 0; l_holder := None |}).

(** Whether a run that was asked for has not begun: since the last request the
    job was neither claimed nor given up. *)
Definition wanted_step (b : bool) (e : JobEvent) : bool :=
  match e with
  | Requested _ => true
  | Claimed _ _ _ | Ended _ _ _ EndBuried => false
  | Ended _ _ _ _ => b
  end.

Definition run_wanted (h : list JobEvent) : bool := fold_left wanted_step h false.

(** ** Lists of rows with distinct identifiers *)

Abbreviation ids rows := (map job_id rows).

Lemma same_row rows j k : NoDup (ids rows) → j ∈ rows → k ∈ rows → job_id j = job_id k → j = k.
Proof.
  intros Hnd Hj Hk Hid. apply list_elem_of_lookup in Hj as [a Ha]. apply list_elem_of_lookup in Hk as [b Hb].
  assert (a = b) as ->; [|congruence].
  apply (NoDup_lookup (ids rows) a b (job_id j)); [done|by rewrite list_lookup_fmap, Ha|].
  by rewrite list_lookup_fmap, Hb, Hid.
Qed.

Lemma only_row rows j : NoDup (ids rows) → j ∈ rows →
  bfilter (λ k, bool_decide (job_id k = job_id j)) rows = [j].
Proof.
  induction rows as [|x rows IH]; intros Hnd Hj; [set_solver|]. simpl in *.
  apply NoDup_cons in Hnd as [Hx Hnd]. apply elem_of_cons in Hj as [->|Hj].
  - rewrite bool_decide_true by done. f_equal. apply bfilter_false. intros k Hk.
    apply bool_decide_eq_false. intros E. apply Hx. rewrite <- E. by apply list_elem_of_fmap_2.
  - rewrite bool_decide_false; [by apply IH|]. intros E. apply Hx. rewrite E. by apply list_elem_of_fmap_2.
Qed.

Lemma no_row rows id : id ∉ ids rows → bfilter (λ k, bool_decide (job_id k = id)) rows = [].
Proof.
  intros Hid. apply bfilter_false. intros k Hk. apply bool_decide_eq_false. intros <-.
  apply Hid. by apply list_elem_of_fmap_2.
Qed.

(** The entries a statement writes, one for each row it changes. *)
Lemma history_map id (ev : MemoryJob → JobEvent) p rows :
  (∀ j, event_id (ev j) = job_id j) →
  history id (map ev (bfilter p rows)) = map ev (bfilter p (bfilter (λ k, bool_decide (job_id k = id)) rows)).
Proof.
  intros Hev. induction rows as [|x rows IH]; simpl; [done|].
  destruct (bool_decide (job_id x = id)) eqn:E; simpl; destruct (p x); simpl; rewrite <- ?IH; try done;
    unfold history; simpl; unfold about; by rewrite Hev, E.
Qed.

Lemma history_row (ev : MemoryJob → JobEvent) p rows j :
  (∀ j, event_id (ev j) = job_id j) → NoDup (ids rows) → j ∈ rows →
  history (job_id j) (map ev (bfilter p rows)) = if p j then [ev j] else [].
Proof.
  intros Hev Hnd Hj. rewrite history_map by done. rewrite only_row by done. simpl. by destruct (p j).
Qed.

Lemma history_no_row id (ev : MemoryJob → JobEvent) p rows :
  (∀ j, event_id (ev j) = job_id j) → id ∉ ids rows → history id (map ev (bfilter p rows)) = [].
Proof. intros Hev Hid. rewrite history_map, no_row by done. done. Qed.

(** ** What one call does to one row *)

Inductive row_change (now now' : Z) (j : MemoryJob) : MemoryJob → list JobEvent → Prop :=
| RowSame : row_change now now' j j []
| RowReleased : lease_over now j = true → row_change now now' j (released_row j) []
| RowClaimed k worker lease :
    k = j ∨ (lease_over now j = true ∧ k = released_row j) → job_state k = JobPending →
    row_change now now' j (running_row now' worker lease k) [Claimed (job_id j) worker (claim_epoch j + 1)]
| RowRenewed lease : live_claim now j = true → row_change now now' j (extended_row now lease j) []
| RowEnded k worker kind :
    live_claim now j = true → claimed_by j = Some worker →
    job_id k = job_id j → installation_id k = installation_id j → job_type k = job_type j →
    claim_epoch k = claim_epoch j → job_state k ≠ JobRunning →
    (rerun_wanted j = true → kind ≠ EndBuried → job_state k = JobPending) →
    row_change now now' j k [Ended (job_id j) worker (claim_epoch j) kind]
| RowRequested at_ zero v : row_change now now' j (rescheduled_row at_ zero v j) [Requested (job_id j)].

(** A row an upsert or an enqueue adds. *)
Definition fresh_row (rows : list MemoryJob) (x : MemoryJob) : Prop :=
  job_state x = JobPending ∧ claim_epoch x = 0 ∧ job_id x ∉ ids rows.

Definition rows_change (now now' : Z) (rows rows' : list MemoryJob) (evs : list JobEvent) : Prop :=
  ∃ g extra, rows' = map g rows ++ extra
  ∧ (∀ j, j ∈ rows → row_change now now' j (g j) (history (job_id j) evs))
  ∧ (extra = [] ∨ ∃ x, extra = [x] ∧ fresh_row rows x
                  ∧ (history (job_id x) evs = [] ∨ history (job_id x) evs = [Requested (job_id x)]))
  ∧ (∀ id, id ∉ ids rows' → history id evs = []).

Lemma rows_same now now' rows : rows_change now now' rows rows [].
Proof.
  exists id, []. rewrite app_nil_r, map_id. repeat split; [|by left]. intros j Hj. constructor.
Qed.

Lemma fenced_parts now f j : fenced now f j = true →
  job_id j = jobId f ∧ claimed_by j = Some (claimedBy f) ∧ claim_epoch j = claimEpoch f ∧ live_claim now j = true.
Proof. unfold fenced. intros H. bool_hyps. done. Qed.

Lemma fenced_fresh now f rows id k : id ∉ ids rows →
  history id (if existsb (fenced now f) rows then [Ended (jobId f) (claimedBy f) (claimEpoch f) k] else []) = [].
Proof.
  intros Hid. destruct (existsb _ _) eqn:E; [|done]. apply existsb_exists in E as (j & Hj & Hf).
  apply fenced_parts in Hf as (Hi & _). unfold history. simpl. unfold about. simpl.
  rewrite bool_decide_false; [done|]. intros <-. apply Hid. rewrite <- Hi.
  apply list_elem_of_fmap_2. by apply list_elem_of_In.
Qed.

(** A fenced UPDATE: [h] is what it does to the row of the fence. *)
Lemma rows_ended now now' f h k st p :
  NoDup (ids (memory_jobs st)) →
  (∀ j, j ∈ memory_jobs st → p j = fenced now f j) →
  (∀ j, j ∈ memory_jobs st → fenced now f j = true →
     job_id (h j) = job_id j ∧ installation_id (h j) = installation_id j ∧ job_type (h j) = job_type j
     ∧ claim_epoch (h j) = claim_epoch j ∧ job_state (h j) ≠ JobRunning
     ∧ (rerun_wanted j = true → k ≠ EndBuried → job_state (h j) = JobPending)) →
  rows_change now now' (memory_jobs st) (memory_jobs (update_rows p h st)) (ended now f k st).
Proof.
  intros Hnd Hp Hh. exists (λ j, if p j then h j else j), []. rewrite app_nil_r.
  split; [done|]. split_and!; [|by left|].
  - intros j Hj. rewrite Hp by done. unfold ended, owns. destruct (fenced now f j) eqn:Hf.
    + rewrite (proj2 (existsb_exists _ _)) by (exists j; split; [by apply list_elem_of_In|done]).
      destruct (Hh j Hj Hf) as (? & ? & ? & ? & ? & ?). apply fenced_parts in Hf as (Hi & Hc & He & Hl).
      unfold history. simpl. unfold about. simpl. rewrite bool_decide_true by done.
      rewrite <- Hi, <- He. by constructor.
    + unfold history. destruct (existsb _ _) eqn:E; simpl; [|constructor]. unfold about. simpl.
      rewrite bool_decide_false; [constructor|]. intros Hi. apply existsb_exists in E as (j' & Hj' & Hf').
      apply list_elem_of_In in Hj'. pose proof (fenced_parts _ _ _ Hf') as (Hi' & _).
      rewrite (same_row _ j j' Hnd Hj Hj') in Hf by congruence. congruence.
  - intros id Hid. apply fenced_fresh. intros Hin. apply Hid. simpl.
    apply list_elem_of_fmap in Hin as (j & -> & Hj). apply list_elem_of_fmap.
    exists (if p j then h j else j). split; [|by apply (list_elem_of_fmap_2 (λ j, if p j then h j else j))].
    destruct (p j) eqn:Hpj; [|done]. rewrite Hp in Hpj by done. by destruct (Hh j Hj Hpj) as (-> & _).
Qed.

(** ** What one call does to all rows *)

Lemma fresh_exists rows q id : (∀ j, q j = false → job_id j ≠ id) → existsb q rows = false → id ∉ ids rows.
Proof.
  intros Hq Hf Hin. apply list_elem_of_fmap in Hin as (j & Hid & Hj).
  by apply (Hq j (existsb_none _ _ _ Hf Hj)).
Qed.

Lemma rows_added now now' rows x evs :
  fresh_row rows x →
  (∀ id, id ∉ ids rows → history id evs = if bool_decide (job_id x = id) then history id evs else []) →
  (∀ j, j ∈ rows → history (job_id j) evs = []) →
  history (job_id x) evs = [] ∨ history (job_id x) evs = [Requested (job_id x)] →
  rows_change now now' rows (rows ++ [x]) evs.
Proof.
  intros Hx Hno Hold Hev. exists id, [x]. rewrite map_id. split; [done|]. split_and!.
  - intros j Hj. rewrite Hold by done. constructor.
  - right. by exists x.
  - intros id Hid. rewrite map_app in Hid. rewrite Hno by set_solver.
    rewrite bool_decide_false; [done|]. set_solver.
Qed.

Lemma enqueue_rows now now' txn uuid i st :
  rows_change now now' (memory_jobs st) (memory_jobs (enqueueJob txn uuid i st)) [].
Proof.
  unfold enqueueJob. destruct (existsb _ _) eqn:E; [apply rows_same|]. simpl.
  apply rows_added; [|by intros; case_bool_decide|done|by left].
  repeat split. revert E. apply fresh_exists. intros j Hj. by bool_hyps.
Qed.

(** The upserts are one statement. *)
Lemma rerun_call_shape txn uuid inst c : ∃ i zero v,
  rerun_job inst c = same_job (i_installationId i) (i_jobType i) (i_idempotencyKey i)
  ∧ ∀ st, rerun_call txn uuid inst c st = schedule_rerun txn uuid i zero v st.
Proof. destruct c; simpl; do 3 eexists; (split; [|intros; reflexivity]); reflexivity. Qed.

Lemma same_job_kept inst t key (g : MemoryJob → MemoryJob) j :
  installation_id (g j) = installation_id j → job_type (g j) = job_type j →
  idempotency_key (g j) = idempotency_key j → same_job inst t key (g j) = same_job inst t key j.
Proof. unfold same_job. by intros -> -> ->. Qed.

Lemma rerun_rows now now' txn uuid inst c st st' :
  NoDup (ids (memory_jobs st)) → rerun_call txn uuid inst c st = Returns st' →
  rows_change now now' (memory_jobs st) (memory_jobs st') (requested inst c st').
Proof.
  intros Hnd. unfold requested. destruct (rerun_call_shape txn uuid inst c) as (i & zero & v & -> & ->).
  set (same := same_job _ _ _). unfold schedule_rerun. fold same.
  set (g := λ j, if same j then rescheduled_row (default txn (i_availableAt i)) zero v j else j).
  assert (Hg : ∀ j, same (g j) = same j) by (intros j; unfold g; destruct (same j) eqn:E; by rewrite ?E).
  assert (Hid : ∀ j, job_id (g j) = job_id j) by (intros j; unfold g; by destruct (same j)).
  destruct (existsb same _) eqn:Es; [|destruct (existsb (λ j, bool_decide (job_id j = uuid)) _) eqn:Eu];
    intros H; simplify_eq; simpl.
  - change (map (λ j, if same j then _ else j) (memory_jobs st)) with (map g (memory_jobs st)).
    assert (Hids : ids (map g (memory_jobs st)) = ids (memory_jobs st)).
    { rewrite map_map. by apply map_ext. }
    exists g, []. rewrite app_nil_r. split; [done|]. split_and!; [|by left|].
    + intros j Hj. rewrite <- (Hid j), history_row; [|done|by rewrite Hids|by apply list_elem_of_fmap_2].
      rewrite Hg, Hid. unfold g. destruct (same j); constructor.
    + intros id Hn. by apply history_no_row.
  - assert (Hf : job_id (queued_row txn uuid i) ∉ ids (memory_jobs st)).
    { revert Eu. apply fresh_exists. intros j Hj. simpl. simpl in Hj. bool_hyps. done. }
    rewrite bfilter_app, map_app. unfold history. rewrite (bfilter_false same (memory_jobs st))
      by (intros j Hj; by apply (existsb_none same _ _ Es)). simpl.
    assert (Hs : same (queued_row txn uuid i) = true) by (unfold same, same_job; simpl; by rewrite !bool_decide_true).
    rewrite Hs. simpl. apply rows_added; [done| | |].
    + intros id Hn. unfold history. simpl. unfold about. simpl. by case_bool_decide.
    + intros j Hj. unfold history. simpl. unfold about. simpl. rewrite bool_decide_false; [done|].
      intros E. apply Hf. simpl. rewrite E. by apply list_elem_of_fmap_2.
    + right. unfold history. simpl. unfold about. simpl. by rewrite bool_decide_true.
Qed.

Lemma renew_rows now now' f lease st :
  rows_change now now' (memory_jobs st) (memory_jobs (renewClaim now f lease st).1) [].
Proof.
  exists (λ j, if fenced now f j then extended_row now lease j else j), []. rewrite app_nil_r.
  split; [done|]. split_and!; [|by left|done]. intros j Hj.
  destruct (fenced now f j) eqn:Hf; [|constructor]. constructor.
  by apply fenced_parts in Hf as (_ & _ & _ & Hl).
Qed.

Lemma complete_rows now now' txn f st : NoDup (ids (memory_jobs st)) →
  rows_change now now' (memory_jobs st) (memory_jobs (completeJob txn now f st).1) (ended now f EndCompleted st).
Proof.
  intros Hnd. apply rows_ended; [done..|]. intros j Hj _. split_and!; try done; simpl.
  - by destruct (rerun_wanted j).
  - by intros ->.
Qed.

(** Without an owner nothing is noted. *)
Lemma not_owner now f k st : bfilter (fenced now f) (memory_jobs st) = [] → ended now f k st = [].
Proof.
  intros E. unfold ended, owns. destruct (existsb _ _) eqn:Ex; [|done].
  apply existsb_exists in Ex as (j & Hj & Hf). apply list_elem_of_In in Hj.
  by rewrite (bfilter_none _ _ _ E Hj) in Hf.
Qed.

Lemma defer_rows now now' f r at_ st st' b : NoDup (ids (memory_jobs st)) →
  deferJob now f r at_ st = Returns (st', b) →
  rows_change now now' (memory_jobs st) (memory_jobs st') (ended now f EndDeferred st).
Proof.
  intros Hnd H. unfold deferJob in H. destruct at_ as [at_|]; [|done].
  destruct (bfilter _ _) as [|j l] eqn:E.
  - simplify_eq. rewrite not_owner by done. apply rows_same.
  - destruct (count_wait _ _) as [v|]; [|done]. simplify_eq. apply rows_ended; [done..|].
    intros k Hk _. by split_and!.
Qed.

Lemma close_snapshot_jobs txn inst t v st : memory_jobs (close_snapshot txn inst t v st) = memory_jobs st.
Proof. unfold close_snapshot. destruct t; try done; by destruct (payload_string _ _). Qed.
Lemma close_wiki_run_jobs txn inst t v code st : memory_jobs (close_wiki_run txn inst t v code st) = memory_jobs st.
Proof. unfold close_wiki_run. destruct t; try done; by destruct (payload_string _ _). Qed.
Lemma close_skill_task_jobs txn inst t v code st :
  memory_jobs (close_skill_task txn inst t v code st) = memory_jobs st.
Proof. unfold close_skill_task. destruct t; try done; by destruct (payload_string _ _). Qed.
Lemma add_dead_letter_jobs d st : memory_jobs (add_dead_letter d st) = memory_jobs st.
Proof. unfold add_dead_letter. by destruct (existsb _ _). Qed.

Lemma bury_jobs sha txn j code st :
  memory_jobs (bury sha txn j code st) =
  memory_jobs (update_rows (λ k, bool_decide (job_id k = job_id j)) (dead_row txn code) st).
Proof.
  unfold bury. by rewrite close_skill_task_jobs, close_wiki_run_jobs, close_snapshot_jobs, add_dead_letter_jobs.
Qed.

(** The rows with the identifier of the fenced row are the fenced row. *)
Lemma this_is_fenced now f st j l k : NoDup (ids (memory_jobs st)) →
  bfilter (fenced now f) (memory_jobs st) = j :: l → k ∈ memory_jobs st →
  bool_decide (job_id k = job_id j) = fenced now f k.
Proof.
  intros Hnd E Hk. assert (Hj : fenced now f j = true ∧ j ∈ memory_jobs st).
  { apply elem_of_bfilter. rewrite E. by left. }
  destruct Hj as [Hf Hj]. case_bool_decide as Hid.
  - by rewrite (same_row _ k j Hnd Hk Hj Hid).
  - symmetry. apply not_true_is_false. intros Hfk. apply Hid.
    apply fenced_parts in Hf as (-> & _). by apply fenced_parts in Hfk as (-> & _).
Qed.

Lemma reschedule_rows sha now now' txn f code terminal sample st st' dead : NoDup (ids (memory_jobs st)) →
  rescheduleJob sha txn now f code terminal sample st = Returns (st', dead) →
  rows_change now now' (memory_jobs st) (memory_jobs st')
    (ended now f (if dead then EndBuried else EndRetried) st).
Proof.
  intros Hnd H. unfold rescheduleJob in H. destruct (bfilter _ _) as [|j l] eqn:E.
  { simplify_eq. rewrite not_owner by done. apply rows_same. }
  pose proof (λ k, this_is_fenced _ _ _ _ _ k Hnd E) as Hthis.
  destruct (rerun_wanted j && _) eqn:Er; [|destruct (terminal || _) eqn:Et].
  - simplify_eq. apply rows_ended; [done..|]. intros k Hk _. by split_and!.
  - simplify_eq. rewrite bury_jobs. apply rows_ended; [done..|]. intros k Hk _. by split_and!.
  - destruct (retryDelayWithJitterMs _ _) as [[ms|]|]; simplify_eq.
    apply rows_ended; [done..|]. intros k Hk _. by split_and!.
Qed.

(** ** Claims *)

Lemma picked_ranked now tl limits rows locked lim global j :
  j ∈ picked now tl limits rows locked lim global → ranked_row now tl limits rows j = true ∧ j ∈ rows.
Proof.
  unfold picked. intros Hj. apply (subseteq_take _ (bfilter _ _)) in Hj.
  apply elem_of_bfilter in Hj as [_ Hj]. rewrite merge_sort_Permutation in Hj.
  apply elem_of_bfilter in Hj as [_ Hj]. unfold due_rows in Hj. by apply elem_of_bfilter in Hj.
Qed.

Lemma ranked_pending now tl limits rows j : ranked_row now tl limits rows j = true →
  job_state j = JobPending ∧ available_at j ≤ now.
Proof. unfold ranked_row. intros H. bool_hyps. done. Qed.

Lemma release_ids now rows :
  ids (map (λ j, if lease_over now j then released_row j else j) rows) = ids rows.
Proof. rewrite map_map. apply map_ext. intros j. by destruct (lease_over now j). Qed.

Section claim_rows.
Context (now now' tl global lim lease : Z) (limits : list (JobType * Z)) (locked : list string)
  (worker : string) (rows : list MemoryJob).

Definition released_rows : list MemoryJob := map (λ j, if lease_over now j then released_row j else j) rows.
Definition picked_ids : list string := ids (picked now' tl limits released_rows locked lim global).
Definition is_picked (j : MemoryJob) : bool := bool_decide (job_id j ∈ picked_ids).
Definition claim_of (j : MemoryJob) : MemoryJob :=
  if is_picked j then running_row now' worker lease j else j.
Definition claim_event (j : MemoryJob) : JobEvent := Claimed (job_id j) worker (claim_epoch j + 1).

Lemma picked_rows j : NoDup (ids rows) → j ∈ released_rows → is_picked j = true →
  job_state j = JobPending ∧ available_at j ≤ now'.
Proof.
  intros Hnd Hj Hp. unfold is_picked, picked_ids in Hp. bool_hyps.
  apply list_elem_of_fmap in Hp as (k & Hid & Hk). apply picked_ranked in Hk as [Hr Hk].
  rewrite (same_row released_rows j k); [by apply ranked_pending in Hr| |done..].
  by unfold released_rows; rewrite release_ids.
Qed.

Lemma claim_rows_change : NoDup (ids rows) →
  rows_change now now' rows (map claim_of released_rows) (map claim_event (bfilter is_picked released_rows)).
Proof.
  intros Hnd. set (rel := λ j, if lease_over now j then released_row j else j).
  assert (Hnd1 : NoDup (ids released_rows)) by (unfold released_rows; by rewrite release_ids).
  exists (λ j, claim_of (rel j)), []. rewrite app_nil_r. split; [unfold released_rows; by rewrite map_map|].
  split_and!; [|by left|].
  - intros j Hj. assert (Hin : rel j ∈ released_rows) by (by apply (list_elem_of_fmap_2 rel)).
    assert (Hid : job_id (rel j) = job_id j) by (unfold rel; by destruct (lease_over now j)).
    assert (He : claim_epoch (rel j) = claim_epoch j) by (unfold rel; by destruct (lease_over now j)).
    rewrite <- Hid, history_row by done. unfold claim_of.
    destruct (is_picked (rel j)) eqn:Hp.
    + unfold claim_event. rewrite Hid, He.
      apply RowClaimed; [|by apply picked_rows in Hp as [? _]]. unfold rel.
      destruct (lease_over now j) eqn:Hl; [by right|by left].
    + unfold rel. destruct (lease_over now j) eqn:Hl; by constructor.
  - intros id Hid. apply history_no_row; [done|]. intros Hin. apply Hid. rewrite map_map.
    apply list_elem_of_fmap in Hin as (j & -> & Hj). apply list_elem_of_fmap. exists j. split; [|done].
    unfold claim_of. by destruct (is_picked j).
Qed.
End claim_rows.

(** [claimJobs] in those terms. *)
Lemma claimJobs_shape now now' locked i st st' claims :
  claimJobs now now' locked i st = Returns (st', claims) →
  (st' = st ∧ claims = []) ∨
  (invalid_claim_limits i = false ∧
   let tl := default int4_max (perInstallationLimit i) in
   let global := default int4_max (globalLimit i) in
   let p := is_picked now now' tl global (limit i) (typeLimits i) locked (memory_jobs st) in
   let rows1 := released_rows now (memory_jobs st) in
   memory_jobs st' = map (claim_of now now' tl global (limit i) (leaseMs i) (typeLimits i) locked (workerId i)
                            (memory_jobs st)) rows1
   ∧ claims = map (λ j, toClaim (running_row now' (workerId i) (leaseMs i) j)) (bfilter p rows1)).
Proof.
  unfold claimJobs. destruct (limit i =? 0); [intros; simplify_eq; by left|].
  destruct (invalid_claim_limits i) eqn:Ei; [done|]. intros H. simplify_eq. right. done.
Qed.

(** ** Every call *)

Section invariant.
Context (sha256 : string → string) (globalCap tenantCap : Z) (caps : list (JobType * Z)).
Local Abbreviation run_op := (run_op sha256 globalCap tenantCap caps).

Lemma op_rows now o st : NoDup (ids (memory_jobs st)) →
  rows_change now (op_end now o) (memory_jobs st) (memory_jobs (run_op now o st).1) (run_op now o st).2.
Proof.
  intros Hnd. destruct o as [|txn uuid i|worker lim lease later locked|f lease|txn f|f r at_|txn f code terminal sample
    |txn uuid inst c]; simpl.
  - apply rows_same.
  - apply enqueue_rows.
  - destruct (claimJobs _ _ _ _ _) as [[st' claims]|] eqn:E; [|apply rows_same].
    apply claimJobs_shape in E as [[-> ->]|(_ & Hr & ->)]; [apply rows_same|]. simpl in *.
    rewrite Hr, map_map. by apply claim_rows_change.
  - apply renew_rows.
  - by apply complete_rows.
  - destruct (deferJob _ _ _ _ _) as [[st' b]|] eqn:E; [|apply rows_same]. by eapply defer_rows.
  - destruct (rescheduleJob _ _ _ _ _ _ _ _) as [[st' b]|] eqn:E; [|apply rows_same]. by eapply reschedule_rows.
  - destruct (rerun_call _ _ _ _ _) as [st'|] eqn:E; [|apply rows_same]. by eapply rerun_rows.
Qed.
End invariant.

(** ** The lease of every job *)

Lemma history_app id l1 l2 : history id (l1 ++ l2) = history id l1 ++ history id l2.
Proof. apply bfilter_app. Qed.

(** A row agrees with its history [h]. *)
Definition job_ok (h : list JobEvent) (j : MemoryJob) : Prop :=
  (∃ holder, lease_after h = Some {| l_epoch := claim_epoch j; l_holder := holder |}
     ∧ (job_state j = JobRunning → claimed_by j = holder ∧ is_Some holder))
  ∧ (run_wanted h = true → job_state j = JobPending ∨ (job_state j = JobRunning ∧ rerun_wanted j = true)).

Definition queue_inv (rows : list MemoryJob) (log : list JobEvent) : Prop :=
  NoDup (ids rows) ∧ (∀ j, j ∈ rows → job_ok (history (job_id j) log) j)
  ∧ (∀ id, id ∉ ids rows → history id log = []).

Lemma row_change_id now now' j k evs : row_change now now' j k evs → job_id k = job_id j.
Proof. destruct 1; simpl; try done. destruct H as [->|[_ ->]]; done. Qed.

Lemma live_running now j : live_claim now j = true → job_state j = JobRunning.
Proof. unfold live_claim. intros H. by bool_hyps. Qed.
Lemma over_running now j : lease_over now j = true → job_state j = JobRunning.
Proof. unfold lease_over. intros H. by bool_hyps. Qed.

Lemma job_ok_change now now' j k evs h : row_change now now' j k evs → job_ok h j → job_ok (h ++ evs) k.
Proof.
  intros Hc [(holder & Hl & Hr) Hw]. unfold job_ok, lease_after, run_wanted in *.
  rewrite !fold_left_app, Hl. destruct Hc as [|Hov|k worker lease Hk Hp|lease Hlive
    |k worker kind Hlive Hby Hid Hi Ht He Hs Hre|at_ zero v]; simpl.
  - split; [by exists holder|done].
  - split; [by exists holder|by left].
  - assert (Hek : claim_epoch k = claim_epoch j) by (by destruct Hk as [->|[_ ->]]).
    rewrite (proj2 (Z.ltb_lt _ _)) by lia. rewrite Hek. split; [|done]. by exists (Some worker).
  - split; [by exists holder|done].
  - destruct (Hr (live_running _ _ Hlive)) as [Hh _].
    rewrite bool_decide_true, Z.eqb_refl by congruence. simpl. rewrite He. split; [by exists None|].
    intros E. assert (kind ≠ EndBuried) by (by intros ->).
    left. apply Hre; [|done]. destruct Hw as [Hp|[_ ?]]; [by destruct kind| |done].
    apply live_running in Hlive. congruence.
  - split; [exists holder; split; [done|]|].
    + unfold rescheduled_row. simpl. destruct (job_state j) eqn:E; simpl; by auto.
    + intros _. unfold rerun_wanted. simpl. destruct (job_state j) eqn:E; simpl; auto.
Qed.

Lemma job_ok_fresh x h : job_state x = JobPending → claim_epoch x = 0 →
  h = [] ∨ h = [Requested (job_id x)] → job_ok h x.
Proof.
  intros Hs He Hh. unfold job_ok. rewrite He, Hs. split; [|by left]. exists None.
  split; [|done]. by destruct Hh as [->| ->].
Qed.

Lemma queue_inv_change now now' rows rows' log evs :
  queue_inv rows log → rows_change now now' rows rows' evs → queue_inv rows' (log ++ evs).
Proof.
  intros (Hnd & Hok & Hno) (g & extra & -> & Hg & Hx & Hev).
  assert (Hids : ids (map g rows) = ids rows).
  { rewrite map_map. apply map_ext_in. intros j Hj. apply list_elem_of_In in Hj.
    exact (row_change_id _ _ _ _ _ (Hg j Hj)). }
  split_and!.
  - rewrite map_app, Hids. destruct Hx as [->|(x & -> & (_ & _ & Hf) & _)]; [by rewrite app_nil_r|].
    apply NoDup_app. split_and!; [done| |apply NoDup_singleton].
    intros id Hid Hin. apply list_elem_of_singleton in Hin as ->. done.
  - intros j Hj. rewrite history_app. apply elem_of_app in Hj as [Hj|Hj].
    + apply list_elem_of_fmap in Hj as (k & -> & Hk). pose proof (Hg k Hk) as Hc.
      rewrite (row_change_id _ _ _ _ _ Hc). eapply job_ok_change; [done|]. by apply Hok.
    + destruct Hx as [->|(x & -> & (Hs & He & Hf) & Hh)]; [set_solver|].
      apply list_elem_of_singleton in Hj as ->. rewrite Hno by done. by apply job_ok_fresh.
  - intros id Hid. rewrite history_app, Hev, Hno; [done| |done].
    intros Hin. apply Hid. rewrite map_app, Hids. set_solver.
Qed.

(** ** Reachable worlds *)

Section reachable.
Context (sha256 : string → string) (globalCap tenantCap : Z) (caps : list (JobType * Z)).
Local Abbreviation run := (run_ops sha256 globalCap tenantCap caps).

Lemma step_world_parts w d :
  let now := q_now w + Z.max 0 d.1 in
  step_world sha256 globalCap tenantCap caps w d =
  {| q_now := op_end now d.2; q_tables := (run_op sha256 globalCap tenantCap caps now d.2 (q_tables w)).1;
     q_log := q_log w ++ (run_op sha256 globalCap tenantCap caps now d.2 (q_tables w)).2 |}.
Proof. unfold step_world. by destruct (run_op _ _ _ _ _ _ _). Qed.

Lemma run_inv w l : queue_inv (memory_jobs (q_tables w)) (q_log w) →
  queue_inv (memory_jobs (q_tables (run w l))) (q_log (run w l)).
Proof.
  revert w. induction l as [|d l IH]; intros w Hw; [done|]. apply IH. rewrite step_world_parts. simpl.
  eapply queue_inv_change; [done|]. apply op_rows. by destruct Hw.
Qed.

Lemma reachable_inv t l :
  queue_inv (memory_jobs (q_tables (run (no_jobs t) l))) (q_log (run (no_jobs t) l)).
Proof. apply run_inv. split_and!; simpl; [constructor|set_solver|done]. Qed.

(** The owner of a job is the holder of its lease. *)
Lemma owner_holds now f rows log : queue_inv rows log → existsb (fenced now f) rows = true →
  lease_after (history (jobId f) log) = Some {| l_epoch := claimEpoch f; l_holder := Some (claimedBy f) |}.
Proof.
  intros (_ & Hok & _) H. apply existsb_exists in H as (j & Hj & Hf). apply list_elem_of_In in Hj.
  apply fenced_parts in Hf as (Hi & Hb & He & Hl). destruct (Hok j Hj) as [(holder & Ha & Hr) _].
  destruct (Hr (live_running _ _ Hl)) as [Hh _]. rewrite <- Hi, Ha, He. congruence.
Qed.

Lemma not_owner_refused now f st : owns now f st = false →
  (∀ lease, renewClaim now f lease st = (st, false))
  ∧ (∀ txn, completeJob txn now f st = (st, false))
  ∧ (∀ r at_, deferJob now f r (Some at_) st = Returns (st, false))
  ∧ (∀ txn code terminal sample, rescheduleJob sha256 txn now f code terminal sample st = Returns (st, false)).
Proof.
  intros Ho. assert (Hn : ∀ j, j ∈ memory_jobs st → fenced now f j = false).
  { intros j Hj. by apply (existsb_none _ _ _ Ho). }
  assert (Hu : ∀ h, update_rows (fenced now f) h st = st).
  { intros h. unfold update_rows. replace (map _ _) with (memory_jobs st); [by destruct st|].
    rewrite <- (map_id (memory_jobs st)) at 1. apply map_ext_in. intros j Hj. apply list_elem_of_In in Hj.
    by rewrite Hn. }
  unfold renewClaim, completeJob, deferJob, rescheduleJob. rewrite Ho, (bfilter_false _ _ Hn).
  split_and!; intros; by rewrite ?Hu.
Qed.

(** C16: Whatever workers do, the history of every job is a run of the abstract
    lease: epochs grow with every claim, and a claim is completed, deferred,
    retried or buried at most once, by the worker that holds it and before the
    job is claimed again.  A fence that is not the current lease of its job is
    refused by every operation, which then changes nothing. *)
Theorem job_fenced t l :
  let w := run (no_jobs t) l in
  (∀ id, is_Some (lease_after (history id (q_log w))))
  ∧ ∀ f now,
    lease_after (history (jobId f) (q_log w))
      ≠ Some {| l_epoch := claimEpoch f; l_holder := Some (claimedBy f) |} →
    (∀ lease, renewClaim now f lease (q_tables w) = (q_tables w, false))
    ∧ (∀ txn, completeJob txn now f (q_tables w) = (q_tables w, false))
    ∧ (∀ r at_, deferJob now f r (Some at_) (q_tables w) = Returns (q_tables w, false))
    ∧ (∀ txn code terminal sample,
         rescheduleJob sha256 txn now f code terminal sample (q_tables w) = Returns (q_tables w, false)).
Proof.
  intros w. pose proof (reachable_inv t l) as Hinv. fold w in Hinv. split.
  - intros id. destruct Hinv as (_ & Hok & Hno).
    destruct (decide (id ∈ ids (memory_jobs (q_tables w)))) as [Hin|Hin]; [|by rewrite Hno].
    apply list_elem_of_fmap in Hin as (j & -> & Hj). destruct (Hok j Hj) as [(holder & -> & _) _]. done.
  - intros f now Hf. apply not_owner_refused. apply not_true_is_false. intros E.
    apply Hf. by eapply owner_holds.
Qed.

(** C19: A run that was asked for is never lost: until the job is claimed again
    or given up, it is pending, or running with a mark that makes it pending
    when the run ends. *)
Theorem rerun_never_lost t l id :
  let w := run (no_jobs t) l in
  run_wanted (history id (q_log w)) = true →
  ∃ j, j ∈ memory_jobs (q_tables w) ∧ job_id j = id
  ∧ (job_state j = JobPending ∨ (job_state j = JobRunning ∧ rerun_wanted j = true)).
Proof.
  intros w Hw. destruct (reachable_inv t l) as (_ & Hok & Hno). fold w in Hok, Hno.
  destruct (decide (id ∈ ids (memory_jobs (q_tables w)))) as [Hin|Hin]; [|by rewrite Hno in Hw].
  apply list_elem_of_fmap in Hin as (j & -> & Hj). destruct (Hok j Hj) as [_ Hr]. exists j.
  split_and!; [done..|by apply Hr].
Qed.
End reachable.

(** ** A run *)

(** Worker [A] loses its lease to [B] while the turn changes; [B] completes,
    and the job is due again. *)
Module JobsRun.
Definition compile_input : JobInput := {|
  i_installationId := Some "inst"; i_jobType := compile_episode; i_idempotencyKey := "compile_episode:t1";
  i_priority := None; i_payload := None; i_availableAt := None |}.
Definition fence_A : JobFence := {| jobId := "j1"; claimedBy := "A"; claimEpoch := 1 |}.
Definition fence_B : JobFence := {| jobId := "j1"; claimedBy := "B"; claimEpoch := 2 |}.

Definition until_B : list (Z * JobOp) :=
  [(0, OpEnqueue 0 "j1" compile_input); (10, OpClaim "A" 4 1000 0 []); (500, OpRenew fence_A 1000);
   (2000, OpClaim "B" 4 1000 5 [])].
Definition changed : list (Z * JobOp) :=
  until_B ++ [(100, OpRerun 2600 "j2" "inst" (RerunCompile "t1" 50)); (100, OpComplete 0 fence_A);
              (100, OpComplete 2800 fence_B)].

Definition run (l : list (Z * JobOp)) : QueueWorld :=
  run_ops (λ s, s) 2 1 [(compile_episode, 1)] (no_jobs 0) l.

Example run_log : q_log (run changed) =
  [Claimed "j1" "A" 1; Claimed "j1" "B" 2; Requested "j1"; Ended "j1" "B" 2 EndCompleted].
Proof. vm_compute. reflexivity. Qed.
End JobsRun.

Lemma job_fenced_witness :
  let w := JobsRun.run JobsRun.until_B in
  completeJob 2600 2600 JobsRun.fence_A (q_tables w) = (q_tables w, false).
Proof.
  intros w. apply (job_fenced (λ s, s) 2 1 [(compile_episode, 1)] 0 JobsRun.until_B).
  vm_compute. discriminate.
Defined.

Lemma rerun_never_lost_witness :
  ∃ j, j ∈ memory_jobs (q_tables (JobsRun.run JobsRun.changed)) ∧ job_id j = "j1"
  ∧ (job_state j = JobPending ∨ (job_state j = JobRunning ∧ rerun_wanted j = true)).
Proof.
  apply (rerun_never_lost (λ s, s) 2 1 [(compile_episode, 1)] 0 JobsRun.changed "j1"). vm_compute. reflexivity.
Defined.
