(* ===== verification/MemoryJobsLimits.v ===== *)
(** * MemoryJobsLimits: how many jobs the workers of the memory service run.

    [claimJobs] ranks the candidates of an installation and of a type so that
    one claim fills, but never overfills, the global, installation and type
    limits, and takes the most urgent jobs first. *)

From S2P Require Import Prelude JsValue JsMap MemoryJobs MemoryJobsSpec.

#[local] Open Scope Z_scope.

(** ** Counting live claims *)

Definition live_count (now : Z) (q : MemoryJob → bool) (rows : list MemoryJob) : Z :=
  len (bfilter (λ j, live_claim now j && q j) rows).

(** A class of jobs: no call moves a job into or out of it. *)
Definition stable (q : MemoryJob → bool) : Prop :=
  ∀ j k, installation_id j = installation_id k → job_type j = job_type k → q j = q k.

Lemma nodup_len {A} (l k : list A) : NoDup l → (∀ x, x ∈ l → x ∈ k) → len l ≤ len k.
Proof. intros Hnd Hs. apply inj_le, submseteq_length, NoDup_submseteq; done. Qed.

Lemma filter_count {A} (p q : A → bool) l :
  (∀ x, x ∈ l → p x = true → q x = true) → len (bfilter p l) ≤ len (bfilter q l).
Proof.
  induction l as [|x l IH]; intros H; simpl; [done|].
  assert (len (bfilter p l) ≤ len (bfilter q l)) by (apply IH; intros; apply H; [by right|done]).
  pose proof (H x (list_elem_of_here _ _)). destruct (p x), (q x); simpl; try lia; naive_solver.
Qed.

Lemma filter_map_count {A B} (f : A → B) p q l :
  (∀ x, x ∈ l → p (f x) = true → q x = true) → len (bfilter p (map f l)) ≤ len (bfilter q l).
Proof.
  intros H. assert (E : len (bfilter p (map f l)) = len (bfilter (λ x, p (f x)) l)).
  { induction l as [|x l IH]; simpl; [done|].
    assert (len (bfilter p (map f l)) = len (bfilter (λ x, p (f x)) l)) by (apply IH; intros; apply H; [by right|done]).
    destruct (p (f x)); simpl; lia. }
  rewrite E. by apply filter_count.
Qed.

Lemma filter_split {A} (p q : A → bool) l :
  len (bfilter p l) = len (bfilter (λ x, p x && q x) l) + len (bfilter (λ x, p x && negb (q x)) l).
Proof. induction l as [|x l IH]; simpl; [done|]. destruct (p x), (q x); simpl; lia. Qed.

Lemma live_earlier now now' j : now ≤ now' → live_claim now' j = true → live_claim now j = true.
Proof.
  unfold live_claim. intros Hle H. bool_hyps. rewrite bool_decide_true by done.
  destruct (claim_expires_at j); [|done]. bool_hyps. simpl. apply Z.ltb_lt. lia.
Qed.

(** Apart from claims, no call makes a job live. *)
Lemma live_change now now' j k evs : now ≤ now' → row_change now now' j k evs →
  (∀ worker epoch, Claimed (job_id j) worker epoch ∉ evs) → live_claim now' k = true →
  live_claim now j = true ∧ installation_id k = installation_id j ∧ job_type k = job_type j.
Proof.
  intros Hle Hc Hn Hl. destruct Hc as [|Hov|k worker lease Hk Hp|lease Hlive
    |k worker kind Hlive Hby Hid Hi Ht He Hs Hre|at_ zero v]; try done.
  - by apply (live_earlier now) in Hl.
  - by exfalso; apply (Hn worker (claim_epoch j + 1)); left.
  - apply (live_earlier now) in Hl; [|done]. split; [|done].
    unfold live_claim in *. simpl in *. destruct (job_state j) eqn:E; simpl in *; try done;
      by rewrite ?bool_decide_true in *.
Qed.

Lemma count_change now now' q rows rows' evs : now ≤ now' → stable q → rows_change now now' rows rows' evs →
  (∀ id worker epoch, Claimed id worker epoch ∉ evs) → live_count now' q rows' ≤ live_count now q rows.
Proof.
  intros Hle Hq (g & extra & -> & Hg & Hx & _) Hn. unfold live_count. rewrite bfilter_app, len_app.
  assert (bfilter (λ j, live_claim now' j && q j) extra = []) as ->.
  { destruct Hx as [->|(x & -> & (Hs & _) & _)]; [done|]. simpl. unfold live_claim. by rewrite Hs. }
  simpl. rewrite Z.add_0_r. apply filter_map_count. intros j Hj H. bool_hyps.
  destruct (live_change now now' j (g j) _ Hle (Hg j Hj)) as (Hl & Hi & Ht); [|done|].
  - intros worker epoch Hin. apply elem_of_bfilter in Hin as [_ Hin]. by apply Hn in Hin.
  - by rewrite Hl, <- (Hq (g j) j).
Qed.

(** ** The limits of one claim *)

Lemma row_number_take id S k : id ∈ ids S → row_number id S ≤ k → id ∈ ids (take (Z.to_nat k) S).
Proof.
  revert k. induction S as [|x S IH]; intros k Hid Hk; [by apply not_elem_of_nil in Hid|].
  simpl in *. case_bool_decide as E.
  - destruct (Z.to_nat k) eqn:Ek; [lia|]. simpl. rewrite E. left.
  - apply elem_of_cons in Hid as [?|Hid]; [congruence|].
    assert (1 ≤ row_number id S).
    { clear. induction S as [|y S IH]; simpl; [done|]. case_bool_decide; lia. }
    destruct (Z.to_nat k) eqn:Ek; [lia|]. simpl. right.
    replace n with (Z.to_nat (k - 1)) by lia. apply IH; [done|lia].
Qed.

(** At most [room] rows have a rank within [room]. *)
Lemma ranks_count (l S : list MemoryJob) room :
  NoDup (ids l) → (∀ j, j ∈ l → j ∈ S ∧ row_number (job_id j) S ≤ room) → len l ≤ Z.max 0 room.
Proof.
  intros Hnd H. assert (Hl : len l = len (ids l)) by (by rewrite length_map). rewrite Hl.
  transitivity (len (ids (take (Z.to_nat room) S))).
  - apply nodup_len; [done|]. intros id Hid. apply list_elem_of_fmap in Hid as (j & -> & Hj).
    destruct (H j Hj). apply row_number_take; [by apply list_elem_of_fmap_2|done].
  - rewrite length_map, length_take. lia.
Qed.

Lemma nodup_ids_sublist l k : l `sublist_of` k → NoDup (ids k) → NoDup (ids l).
Proof. intros Hs Hnd. eapply sublist_NoDup; [exact Hnd|]. by apply (fmap_sublist job_id). Qed.

Section claim_limits.
Context (now tl : Z) (limits : list (JobType * Z)) (rows : list MemoryJob) (locked : list string) (lim global : Z).
Hypothesis Hnd : NoDup (ids rows).
Local Abbreviation taken := (picked now tl limits rows locked lim global).

Lemma picked_within j : j ∈ taken → within_rooms now tl limits rows j = true ∧ j ∈ due_rows now tl limits rows.
Proof.
  unfold picked. intros Hj. apply (subseteq_take _ (bfilter _ _)) in Hj.
  apply elem_of_bfilter in Hj as [_ Hj]. rewrite merge_sort_Permutation in Hj. by apply elem_of_bfilter in Hj.
Qed.

Lemma picked_nodup : NoDup (ids taken).
Proof using Hnd.
  unfold picked. eapply nodup_ids_sublist; [apply sublist_take|].
  eapply nodup_ids_sublist; [apply bfilter_sublist|].
  rewrite merge_sort_Permutation. eapply nodup_ids_sublist; [apply bfilter_sublist|].
  unfold due_rows. by eapply nodup_ids_sublist; [apply bfilter_sublist|].
Qed.

Lemma picked_total : len taken ≤ Z.max 0 (Z.min lim (global - all_live now rows)).
Proof. unfold picked. rewrite length_take. lia. Qed.

Lemma picked_tenant inst :
  len (bfilter (λ j, bool_decide (installation_id j = inst)) taken) ≤ Z.max 0 (tl - tenant_live now rows inst).
Proof using Hnd.
  apply (ranks_count _ (merge_sort tenant_order
    (bfilter (λ k, bool_decide (installation_id k = inst)) (due_rows now tl limits rows)))).
  - eapply nodup_ids_sublist; [apply bfilter_sublist|]. apply picked_nodup.
  - intros j Hj. apply elem_of_bfilter in Hj as [E Hj]. apply picked_within in Hj as [Hw Hr].
    bool_hyps. unfold within_rooms in Hw. bool_hyps. unfold tenant_rank, tenant_room, active_tenant in *.
    rewrite E in *. split; [|done]. rewrite merge_sort_Permutation. apply elem_of_bfilter.
    by rewrite bool_decide_true.
Qed.

Lemma picked_type t :
  len (bfilter (λ j, bool_decide (job_type j = t)) taken)
  ≤ Z.max 0 (type_limit limits t - type_live now rows t).
Proof using Hnd.
  apply (ranks_count _ (merge_sort (type_order now rows)
    (bfilter (λ k, bool_decide (job_type k = t)) (due_rows now tl limits rows)))).
  - eapply nodup_ids_sublist; [apply bfilter_sublist|]. apply picked_nodup.
  - intros j Hj. apply elem_of_bfilter in Hj as [E Hj]. apply picked_within in Hj as [Hw Hr].
    bool_hyps. unfold within_rooms in Hw. bool_hyps. unfold type_rank, type_room in *.
    rewrite E in *. split; [|done]. rewrite merge_sort_Permutation. apply elem_of_bfilter.
    by rewrite bool_decide_true.
Qed.
End claim_limits.

(** ** The limits of every history *)

Section claim_count.
Context (now now' tl global lim lease : Z) (limits : list (JobType * Z)) (locked : list string)
  (worker : string) (rows : list MemoryJob).
Hypothesis (Hle : now ≤ now') (Hnd : NoDup (ids rows)).
Local Abbreviation R := (released_rows now rows).
Local Abbreviation taken := (picked now' tl limits R locked lim global).
Local Abbreviation after := (map (claim_of now now' tl global lim lease limits locked worker rows) R).

Lemma released_nodup : NoDup (ids R).
Proof using Hnd. unfold released_rows. by rewrite release_ids. Qed.

Lemma is_picked_taken j : j ∈ R → is_picked now now' tl global lim limits locked rows j = true ↔ j ∈ taken.
Proof using Hnd.
  intros Hj. unfold is_picked, picked_ids. rewrite bool_decide_eq_true. split.
  - intros Hp. apply list_elem_of_fmap in Hp as (k & Hid & Hk).
    pose proof (proj2 (picked_ranked _ _ _ _ _ _ _ _ Hk)) as HkR.
    by rewrite (same_row R j k released_nodup Hj HkR Hid).
  - intros Hp. by apply list_elem_of_fmap_2.
Qed.

Lemma released_count q : stable q → live_count now' q R ≤ live_count now q rows.
Proof using Hle.
  intros Hq. apply filter_map_count. intros j _ H. bool_hyps.
  destruct (lease_over now j) eqn:E; [done|]. by rewrite (live_earlier now now').
Qed.

Lemma claim_count q : stable q → live_count now' q after ≤ live_count now' q R + len (bfilter q taken).
Proof using Hnd.
  intros Hq. set (p := is_picked now now' tl global lim limits locked rows).
  set (C := claim_of now now' tl global lim lease limits locked worker rows).
  unfold live_count at 1.
  etransitivity; [apply (filter_map_count C _ (λ j, live_claim now' (C j) && q (C j))); auto|].
  rewrite (filter_split _ p). fold C p.
  assert (len (bfilter (λ j, live_claim now' (C j) && q (C j) && p j) R) ≤ len (bfilter q taken)).
  { apply nodup_len.
    - apply (NoDup_fmap_1 job_id). eapply nodup_ids_sublist; [apply bfilter_sublist|]. apply released_nodup.
    - intros j Hj. apply elem_of_bfilter in Hj as [H Hj]. bool_hyps. apply elem_of_bfilter.
      split; [|by apply is_picked_taken]. rewrite (Hq j (C j)); [done|..];
        unfold C, claim_of; by destruct (is_picked _ _ _ _ _ _ _ _ j). }
  assert (len (bfilter (λ j, live_claim now' (C j) && q (C j) && negb (p j)) R) ≤ live_count now' q R).
  { apply filter_count. intros j _ H'. apply andb_true_iff in H' as [H' Hp]. apply negb_true_iff in Hp.
    unfold C, claim_of in H'. fold (p j) in H'. by rewrite Hp in H'. }
  lia.
Qed.

(** A class whose claims are limited stays within its limit. *)
Lemma claim_capped q cap : stable q → live_count now q rows ≤ Z.max 0 cap →
  len (bfilter q taken) ≤ Z.max 0 (cap - live_count now' q R) → live_count now' q after ≤ Z.max 0 cap.
Proof using Hle Hnd.
  intros Hq H1 H2. pose proof (claim_count q Hq). pose proof (released_count q Hq). lia.
Qed.
End claim_count.

Section capped.
Context (sha256 : string → string) (globalCap tenantCap : Z) (caps : list (JobType * Z)).
Local Abbreviation run := (run_ops sha256 globalCap tenantCap caps).

Definition everything (j : MemoryJob) : bool := true.
Definition of_tenant (inst : option string) (j : MemoryJob) : bool := bool_decide (installation_id j = inst).
Definition of_type (t : JobType) (j : MemoryJob) : bool := bool_decide (job_type j = t).

Lemma everything_stable : stable everything.
Proof. done. Qed.
Lemma of_tenant_stable inst : stable (of_tenant inst).
Proof. unfold of_tenant. by intros j k -> _. Qed.
Lemma of_type_stable t : stable (of_type t).
Proof. unfold of_type. by intros j k _ ->. Qed.

Lemma all_live_count now rows : all_live now rows = live_count now everything rows.
Proof.
  unfold all_live, live_count. do 2 f_equal. apply bfilter_ext. intros j _. symmetry. apply andb_true_r.
Qed.

Definition within_caps (now : Z) (rows : list MemoryJob) : Prop :=
  live_count now everything rows ≤ Z.max 0 globalCap
  ∧ (∀ inst, live_count now (of_tenant inst) rows ≤ Z.max 0 tenantCap)
  ∧ (∀ t, live_count now (of_type t) rows ≤ Z.max 0 (type_limit caps t)).

Lemma within_caps_less now rows now' rows' :
  (∀ q, stable q → live_count now' q rows' ≤ live_count now q rows) → within_caps now rows → within_caps now' rows'.
Proof.
  intros H (Ha & Ht & Hy). split_and!; [|intros inst|intros t].
  - etransitivity; [apply H, everything_stable|done].
  - etransitivity; [apply H, of_tenant_stable|done].
  - etransitivity; [apply H, of_type_stable|done].
Qed.

Lemma op_caps now now0 o st : now0 ≤ now → NoDup (ids (memory_jobs st)) → within_caps now0 (memory_jobs st) →
  within_caps (op_end now o) (memory_jobs (run_op sha256 globalCap tenantCap caps now o st).1).
Proof.
  intros Hle Hnd H0.
  assert (H : within_caps now (memory_jobs st)).
  { revert H0. apply within_caps_less. intros q _. apply filter_count. intros j _ H. bool_hyps.
    by rewrite (live_earlier now0 now). }
  assert (Hend : now ≤ op_end now o) by (destruct o; simpl; lia).
  assert (Hother : (∀ id worker epoch, Claimed id worker epoch ∉ (run_op sha256 globalCap tenantCap caps now o st).2) →
    within_caps (op_end now o) (memory_jobs (run_op sha256 globalCap tenantCap caps now o st).1)).
  { intros Hn. revert H. apply within_caps_less. intros q Hq. eapply count_change; [done..| |done].
    by apply op_rows. }
  destruct o as [|txn uuid i|worker lim lease later locked|f lease|txn f|f r at_|txn f code terminal sample
    |txn uuid inst c]; try (apply Hother; intros id wk e Hin; simpl in Hin;
      repeat case_match; unfold ended, requested in Hin; repeat case_match;
      simpl in Hin; try apply list_elem_of_fmap in Hin as (? & ? & ?); set_solver); clear Hother.
  simpl in *.
  assert (Hsame : within_caps (now + Z.max 0 later) (memory_jobs st)).
  { revert H. apply within_caps_less. intros q _. apply filter_count. intros j _ H. bool_hyps.
    by rewrite (live_earlier now (now + Z.max 0 later)). }
  destruct (claimJobs _ _ _ _ _) as [[st' claims]|] eqn:E; [|done].
  apply claimJobs_shape in E as [[-> ->]|(_ & Hr & _)]; simpl in *; [done|]. rewrite Hr.
  destruct H as (Ha & Ht & Hy). pose proof (released_nodup now (memory_jobs st) Hnd) as Hnd1.
  split_and!; [|intros inst|intros t]; apply claim_capped; try done.
  - rewrite bfilter_true by done. rewrite <- all_live_count.
    etransitivity; [apply picked_total|]. lia.
  - apply of_tenant_stable.
  - by apply picked_tenant.
  - apply of_type_stable.
  - by apply picked_type.
Qed.

Lemma run_caps w l : queue_inv (memory_jobs (q_tables w)) (q_log w) →
  within_caps (q_now w) (memory_jobs (q_tables w)) →
  within_caps (q_now (run w l)) (memory_jobs (q_tables (run w l))).
Proof.
  revert w. induction l as [|d l IH]; intros w Hq Hw; [done|]. apply IH; rewrite step_world_parts; simpl.
  - eapply queue_inv_change; [done|]. apply op_rows. by destruct Hq.
  - apply (op_caps _ (q_now w)); [lia|by destruct Hq|done].
Qed.

(** C17: However workers claim, crash, renew and finish jobs, at no time do more
    jobs run under a live lease than the limit for all, for their installation
    and for their type allows. *)
Theorem concurrency_capped t l :
  let w := run (no_jobs t) l in
  all_live (q_now w) (memory_jobs (q_tables w)) ≤ Z.max 0 globalCap
  ∧ (∀ inst, tenant_live (q_now w) (memory_jobs (q_tables w)) inst ≤ Z.max 0 tenantCap)
  ∧ (∀ ty, type_live (q_now w) (memory_jobs (q_tables w)) ty ≤ Z.max 0 (type_limit caps ty)).
Proof.
  intros w. rewrite all_live_count. apply run_caps; [|split_and!; intros; unfold live_count; simpl; lia].
  apply (reachable_inv sha256 globalCap tenantCap caps t []).
Qed.
End capped.

(** ** The orders of a claim *)

Lemma lex_le_trans a b c (P Q T : Prop) : length a = length b → length b = length c →
  (P → Q → T) → lex_le a b P → lex_le b c Q → lex_le a c T.
Proof.
  revert b c. induction a as [|x a IH]; intros [|y b] [|z c] Hab Hbc HT; simpl; try done; auto.
  intros [H1|[-> H1]] [H2|[-> H2]]; [left; lia|by left|by left|right].
  split; [done|]. simpl in *. by apply (IH b c); [lia|lia|..].
Qed.

Lemma lex_le_total a b (P Q : Prop) : length a = length b → P ∨ Q → lex_le a b P ∨ lex_le b a Q.
Proof.
  revert b. induction a as [|x a IH]; intros [|y b] Hl HPQ; simpl; try done.
  destruct (Z.lt_total x y) as [?|[->|?]]; [by left; left| |by right; left].
  simpl in Hl. destruct (IH b) as [?|?]; [lia|done|left|right]; by right.
Qed.

Lemma lex_le_antisym a b (P Q : Prop) : length a = length b → lex_le a b P → lex_le b a Q → a = b ∧ P ∧ Q.
Proof.
  revert b. induction a as [|x a IH]; intros [|y b] Hl; simpl; try done.
  intros [H1|[-> H1]] [H2|[H2 H3]]; try lia. simpl in Hl.
  destruct (IH b) as (-> & ? & ?); [lia|done..].
Qed.

(** An order of rows by a key of fixed length, then by identifier. *)
Definition by_key (key : MemoryJob → list Z) (a b : MemoryJob) : Prop :=
  lex_le (key a) (key b) (String.le (job_id a) (job_id b)).

Section by_key.
Context (key : MemoryJob → list Z) (n : nat) (Hlen : ∀ j, length (key j) = n).

Lemma by_key_trans : Transitive (by_key key).
Proof using Hlen.
  intros a b c. unfold by_key. apply lex_le_trans; [by rewrite !Hlen..|]. apply (transitivity (R := String.le)).
Qed.
Lemma by_key_total : Total (by_key key).
Proof using Hlen. intros a b. apply lex_le_total; [by rewrite !Hlen|]. apply (total String.le). Qed.

Lemma by_key_strict rows : NoDup (ids rows) → strict_rows (by_key key) rows.
Proof using Hlen.
  intros Hnd a b Ha Hb H1 H2. destruct (lex_le_antisym _ _ _ _ ltac:(by rewrite !Hlen) H1 H2) as (_ & H3 & H4).
  apply (same_row rows); [done..|]. by apply (anti_symm String.le).
Qed.
End by_key.

Section orders.
Context (now tl : Z) (limits : list (JobType * Z)) (rows : list MemoryJob).

#[local] Instance tenant_order_trans : Transitive tenant_order.
Proof. by apply (by_key_trans (λ a, [priority a; available_at a; created_at a]) 3). Qed.
#[local] Instance tenant_order_total : Total tenant_order.
Proof. by apply (by_key_total (λ a, [priority a; available_at a; created_at a]) 3). Qed.
#[local] Instance type_order_trans : Transitive (type_order now rows).
Proof. by apply (by_key_trans (λ a, [priority a; active_tenant now rows a; available_at a; created_at a]) 4). Qed.
#[local] Instance type_order_total : Total (type_order now rows).
Proof. by apply (by_key_total (λ a, [priority a; active_tenant now rows a; available_at a; created_at a]) 4). Qed.
#[local] Instance pick_order_trans : Transitive (pick_order now tl limits rows).
Proof.
  by apply (by_key_trans (λ a, [priority a; active_tenant now rows a; tenant_rank now tl limits rows a;
    available_at a; created_at a]) 5).
Qed.
#[local] Instance pick_order_total : Total (pick_order now tl limits rows).
Proof.
  by apply (by_key_total (λ a, [priority a; active_tenant now rows a; tenant_rank now tl limits rows a;
    available_at a; created_at a]) 5).
Qed.

Lemma type_order_strict l : NoDup (ids l) → strict_rows (type_order now rows) l.
Proof. by apply (by_key_strict (λ a, [priority a; active_tenant now rows a; available_at a; created_at a]) 4). Qed.
Lemma tenant_order_strict l : NoDup (ids l) → strict_rows tenant_order l.
Proof. by apply (by_key_strict (λ a, [priority a; available_at a; created_at a]) 3). Qed.

(** Within an installation the two orders are the same. *)
Lemma orders_agree a b : installation_id a = installation_id b → type_order now rows a b → tenant_order a b.
Proof.
  unfold type_order, tenant_order, active_tenant. intros ->. simpl. intuition lia.
Qed.

Lemma sort_orders_agree l inst : NoDup (ids l) → (∀ j, j ∈ l → installation_id j = inst) →
  merge_sort tenant_order l = merge_sort (type_order now rows) l.
Proof.
  intros Hnd Hi. apply (StronglySorted_unique_strong tenant_order).
  - intros x y Hx Hy. rewrite merge_sort_Permutation in Hx, Hy. by apply (tenant_order_strict l).
  - by apply StronglySorted_merge_sort; apply _.
  - assert (Hs : StronglySorted (type_order now rows) (merge_sort (type_order now rows) l))
      by (apply StronglySorted_merge_sort; apply _).
    assert (Hall : ∀ j, j ∈ merge_sort (type_order now rows) l → installation_id j = inst)
      by (intros j Hj; rewrite merge_sort_Permutation in Hj; auto).
    induction Hs as [|x k Hs IH Hx]; constructor.
    + apply IH. intros j Hj. apply Hall. by right.
    + rewrite Forall_forall in *. intros y Hy. apply orders_agree; [|by apply Hx].
      rewrite !Hall; [done|by right|by left].
  - by rewrite !merge_sort_Permutation.
Qed.

(** The first candidate in the order of types is the first of its type and of
    its installation, so a claim always has room for it. *)
Lemma first_fits m rest : NoDup (ids rows) →
  merge_sort (type_order now rows) (due_rows now tl limits rows) = m :: rest →
  within_rooms now tl limits rows m = true ∧ m ∈ due_rows now tl limits rows.
Proof.
  intros Hnd Hm.
  assert (Hin : m ∈ due_rows now tl limits rows).
  { rewrite <- (merge_sort_Permutation (type_order now rows)), Hm. by left. }
  assert (Hndr : NoDup (ids (due_rows now tl limits rows)))
    by (unfold due_rows; by eapply nodup_ids_sublist; [apply bfilter_sublist|]).
  split; [|done]. unfold within_rooms, type_rank, tenant_rank.
  rewrite (sort_orders_agree _ (installation_id m)).
  - rewrite !(sort_filter (type_order now rows)) by (by apply type_order_strict).
    rewrite Hm. simpl. rewrite !bool_decide_true by done. simpl. rewrite !bool_decide_true by done.
    unfold due_rows in Hin. apply elem_of_bfilter in Hin as [Hr _]. unfold ranked_row in Hr. bool_hyps.
    unfold tenant_room, type_room. apply andb_true_iff. rewrite !Z.leb_le. lia.
  - by eapply nodup_ids_sublist; [apply bfilter_sublist|].
  - intros j Hj. apply elem_of_bfilter in Hj as [Hj _]. by bool_hyps.
Qed.

(** The rows taken come before the candidates that are left. *)
Lemma picked_first locked lim global j k :
  within_rooms now tl limits rows j = true → j ∈ due_rows now tl limits rows → job_id j ∉ locked →
  j ∉ picked now tl limits rows locked lim global →
  (len (picked now tl limits rows locked lim global) = Z.max 0 (Z.min lim (Z.max 0 (global - all_live now rows))))
  ∧ (k ∈ picked now tl limits rows locked lim global → pick_order now tl limits rows k j).
Proof.
  intros Hw Hr Hl Hj. unfold picked in *.
  set (n := Z.to_nat _) in *. set (C := bfilter (λ j, negb _) _) in *.
  assert (HC : StronglySorted (pick_order now tl limits rows) C)
    by (apply sorted_filter; [..|apply StronglySorted_merge_sort]; apply _).
  assert (HjC : j ∈ C).
  { apply elem_of_bfilter. rewrite bool_decide_false by done. split; [done|].
    rewrite merge_sort_Permutation. by apply elem_of_bfilter. }
  assert (Hjd : j ∈ drop n C).
  { rewrite <- (take_drop n C) in HjC. by apply elem_of_app in HjC as [?|?]. }
  split.
  - assert (n < length C)%nat.
    { destruct (drop n C) eqn:E; [set_solver|]. assert (length (drop n C) ≠ 0)%nat by (by rewrite E).
      rewrite length_drop in *. lia. }
    rewrite length_take. lia.
  - intros Hk. rewrite <- (take_drop n C) in HC. apply StronglySorted_app in HC as (H & _ & _). by apply H.
Qed.
End orders.

(** The rows the UPDATE finds are the rows picked. *)
Lemma picked_perm now now' tl global lim limits locked rows : NoDup (ids rows) →
  bfilter (is_picked now now' tl global lim limits locked rows) (released_rows now rows)
  ≡ₚ picked now' tl limits (released_rows now rows) locked lim global.
Proof.
  intros Hnd. pose proof (released_nodup now rows Hnd) as HR. apply NoDup_Permutation.
  - apply (NoDup_fmap_1 job_id). by eapply nodup_ids_sublist; [apply bfilter_sublist|].
  - apply (NoDup_fmap_1 job_id). by apply picked_nodup.
  - intros j. rewrite elem_of_bfilter. split.
    + intros [Hp Hj]. by apply (is_picked_taken now now' tl global lim limits locked rows Hnd).
    + intros Hj. pose proof (proj2 (picked_ranked _ _ _ _ _ _ _ _ Hj)) as HjR.
      split; [|done]. by apply (is_picked_taken now now' tl global lim limits locked rows Hnd).
Qed.

(** What a valid claim returns. *)
Lemma claims_are_picked now now' locked i st :
  NoDup (ids (memory_jobs st)) → invalid_claim_limits i = false → 0 < limit i →
  let taken := picked now' (default int4_max (perInstallationLimit i)) (typeLimits i)
    (released_rows now (memory_jobs st)) locked (limit i) (default int4_max (globalLimit i)) in
  ∃ st' claims, claimJobs now now' locked i st = Returns (st', claims)
  ∧ map c_job_id claims ≡ₚ ids taken ∧ len claims = len taken.
Proof.
  intros Hnd Hv Hlim taken. unfold claimJobs. rewrite (proj2 (Z.eqb_neq (limit i) 0)), Hv by lia.
  do 2 eexists. split; [done|].
  pose proof (picked_perm now now' (default int4_max (perInstallationLimit i)) (default int4_max (globalLimit i))
    (limit i) (typeLimits i) locked _ Hnd) as Hp.
  unfold taken. split; [rewrite map_map|rewrite length_map]; rewrite <- Hp; done.
Qed.

Lemma not_taken now tl limits R locked lim global j claims :
  map c_job_id claims ≡ₚ ids (picked now tl limits R locked lim global) → job_id j ∉ map c_job_id claims →
  j ∉ picked now tl limits R locked lim global.
Proof. intros Hids Hno Hin. apply Hno. rewrite Hids. by apply list_elem_of_fmap_2. Qed.

(** C18: While there is room under the global limit and some pending job is due
    with room for its installation and type, a claim is not empty unless rows
    are locked by others.  A candidate within the rooms that is left behind
    means that the claim is full, with jobs at least as urgent. *)
Theorem claim_progress now now' locked i st j :
  let R := released_rows now (memory_jobs st) in
  let tl := default int4_max (perInstallationLimit i) in
  let global := default int4_max (globalLimit i) in
  NoDup (ids (memory_jobs st)) → invalid_claim_limits i = false → 0 < limit i →
  all_live now' R < global → j ∈ R → ranked_row now' tl (typeLimits i) R j = true →
  ∃ st' claims, claimJobs now now' locked i st = Returns (st', claims)
  ∧ (locked = [] → claims ≠ [])
  ∧ (within_rooms now' tl (typeLimits i) R j = true → job_id j ∉ locked → job_id j ∉ map c_job_id claims →
     len claims = Z.min (limit i) (global - all_live now' R)
     ∧ ∀ k, k ∈ R → job_id k ∈ map c_job_id claims → priority k ≤ priority j).
Proof.
  intros R tl global Hnd Hv Hlim Hlive Hj Hrank. pose proof (released_nodup now (memory_jobs st) Hnd) as HR.
  destruct (claims_are_picked now now' locked i st Hnd Hv Hlim) as (st' & claims & E & Hids & Hlen).
  fold tl global R in Hids, Hlen, HR. exists st', claims. split; [done|].
  assert (Hjr : j ∈ due_rows now' tl (typeLimits i) R) by (by apply elem_of_bfilter). split.
  - intros -> ->. destruct (merge_sort (type_order now' R) (due_rows now' tl (typeLimits i) R)) as [|m rest] eqn:Em.
    { rewrite <- (merge_sort_Permutation (type_order now' R)), Em in Hjr. set_solver. }
    destruct (first_fits now' tl (typeLimits i) R m rest HR Em) as [Hw Hm].
    destruct (picked_first now' tl (typeLimits i) R [] (limit i) global m m Hw Hm) as [Hn _]; [set_solver| |].
    + eapply not_taken; [done|]. simpl. set_solver.
    + simpl in Hlen. lia.
  - intros Hw Hl Hno. pose proof (not_taken _ _ _ _ _ _ _ _ _ Hids Hno) as Hj'.
    split; [destruct (picked_first now' tl (typeLimits i) R locked (limit i) global j j); try done; lia|].
    intros k Hk Hin. rewrite Hids in Hin. apply list_elem_of_fmap in Hin as (k' & Hid & Hk').
    rewrite (same_row R k k' HR Hk (proj2 (picked_ranked _ _ _ _ _ _ _ _ Hk')) Hid).
    destruct (picked_first now' tl (typeLimits i) R locked (limit i) global j k') as [_ Hord]; [done..|].
    specialize (Hord Hk'). unfold pick_order in Hord. simpl in Hord. lia.
Qed.

(** Two jobs wait, one of them urgent, and one slot is free. *)
Module ClaimRun.
Definition waiting (uuid : string) (t : JobType) : MemoryJob :=
  queued_row 0 uuid {| i_installationId := Some "inst"; i_jobType := t; i_idempotencyKey := uuid;
                    i_priority := None; i_payload := None; i_availableAt := None |}.
Definition tables : JobTables :=
  with_jobs (q_tables (no_jobs 0)) [waiting "a" report_usage; waiting "b" session_purge].
Definition one_slot : ClaimInput := {|
  workerId := "A"; limit := 3; leaseMs := 1000; globalLimit := Some 1; perInstallationLimit := Some 2;
  typeLimits := [] |}.
End ClaimRun.

Lemma claim_progress_witness : ∃ st' claims,
  claimJobs 5 6 [] ClaimRun.one_slot ClaimRun.tables = Returns (st', claims) ∧ map c_job_id claims = ["b"]
  ∧ len claims = 1 ∧ claims ≠ [].
Proof.
  destruct (claim_progress 5 6 [] ClaimRun.one_slot ClaimRun.tables (ClaimRun.waiting "a" report_usage))
    as (st' & claims & E & Hne & Hfull); try (vm_compute; reflexivity).
  - vm_compute. apply (bool_decide_unpack _). vm_compute. exact I.
  - vm_compute. left.
  - exists st', claims. split; [done|]. assert (Hc : map c_job_id claims = ["b"]).
    { vm_compute in E. injection E as <- <-. reflexivity. }
    split; [done|]. split; [|by apply Hne]. apply Hfull; [vm_compute; reflexivity|set_solver|rewrite Hc; set_solver].
Defined.
