(* ===== verification/ProviderBudget.v ===== *)
(** * ProviderBudget: what the memory service may spend on models
    (memory/src/model/provider-budget.ts).

    [reserve] books the worst case of a call before it is made, under a lock on
    the budget's key, and [settle] replaces it by the usage the provider
    reported.  [generateJson] and [embed] are the guarded providers, each split
    at the call of the provider, which is where other requests interleave: a
    call that never returns keeps its reservation.  The database clock, random
    identifiers and SHA-256 (as 64 hexadecimal digits) are arguments; sums are
    exact. *)

From S2P Require Import Prelude JsValue.

#[local] Open Scope Z_scope.

Inductive ProviderKind : Type := TextKind | EmbeddingKind.

#[global] Instance ProviderKind_eq : EqDecision ProviderKind.
Proof. solve_decision. Defined.

Definition provider_text (k : ProviderKind) : string :=
  match k with TextKind => "text" | EmbeddingKind => "embedding" end.

Inductive ProviderBudgetDimension : Type :=
| text_requests | text_input_tokens | text_output_tokens | embedding_requests | embedding_tokens.

Inductive BudgetWindow : Type := lifetime | daily_asia_shanghai.

(** A row of [memory_provider_budget_reservations]. *)
Record Reservation : Type := {
  reservation_id : string;
  budget_key : string;
  provider_kind : ProviderKind;
  settled : bool;
  reserved_input_tokens : Z;
  reserved_output_tokens : Z;
  actual_input_tokens : Z;
  actual_output_tokens : Z;
  reserved_at : Z
}.

Inductive ProviderBudgetReservation : Type :=
| Reserved (reservationId : string)
| Exceeded (dimension : ProviderBudgetDimension) (retryAt : option Z)
| ResultUnknown (dimension : ProviderBudgetDimension).

(** The limits of a budget. *)
Record BudgetLimits : Type := {
  maxRequests : Z; maxInputTokens : Z; maxOutputTokens : Z; window : BudgetWindow }.

Record BudgetRequest : Type := {
  r_key : string; r_requestKey : option string; r_kind : ProviderKind;
  r_inputTokens : Z; r_outputTokens : Z }.

(** ** Windows *)

Definition budget_day_ms : Z := 86400000.
Definition dayOffsetMs : Z := 8 * 60 * 60 * 1000.

Definition day_start (t : Z) : Z := (t + dayOffsetMs) / budget_day_ms * budget_day_ms - dayOffsetMs.

Definition dayStart (w : BudgetWindow) (t : Z) : option Z :=
  match w with lifetime => None | daily_asia_shanghai => Some (day_start t) end.
Definition dayEnd (w : BudgetWindow) (t : Z) : option Z :=
  (λ s, s + budget_day_ms) <$> dayStart w t.

(** [windowClause]: whether a row counts in the window of time [t]. *)
Definition in_window (w : BudgetWindow) (t : Z) (r : Reservation) : bool :=
  match dayStart w t with
  | None => true
  | Some s => (s <=? reserved_at r) && (reserved_at r <? s + budget_day_ms)
  end.

(** ** Totals *)

Definition input_charge (r : Reservation) : Z :=
  if settled r then actual_input_tokens r else reserved_input_tokens r.
Definition output_charge (r : Reservation) : Z :=
  if settled r then actual_output_tokens r else reserved_output_tokens r.

Definition of_budget (key : string) (k : ProviderKind) (r : Reservation) : bool :=
  bool_decide (budget_key r = key) && bool_decide (provider_kind r = k).

(** The rows of the SELECT. *)
Definition in_budget (key : string) (k : ProviderKind) (w : BudgetWindow) (t : Z) (rows : list Reservation)
  : list Reservation := bfilter (λ r, of_budget key k r && in_window w t r) rows.

(** ** reserve *)

Section store.
Context (sha256hex : string → string).

(** The identifier of a call with a request key: the first half of the digest
    as a UUID. *)
Definition request_id (key : string) (k : ProviderKind) (requestKey : string) : string :=
  let digest := String.substring 0 32 (sha256hex (default EmptyString
    (stringify (JArr [JStr key; JStr (provider_text k); JStr requestKey])))) in
  String.substring 0 8 digest +:+ "-" +:+ String.substring 8 4 digest +:+ "-" +:+ String.substring 12 4 digest +:+ "-"
  +:+ String.substring 16 4 digest +:+ "-" +:+ String.substring 20 12 digest.

(** [input.requestKey ? ... : randomUUID()], and whether it is stable. *)
Definition reservation_of (uuid : string) (i : BudgetRequest) : string * bool :=
  match r_requestKey i with
  | Some rk => if bool_decide (rk = EmptyString) then (uuid, false)
               else (request_id (r_key i) (r_kind i) rk, true)
  | None => (uuid, false)
  end.

Definition requests_dimension (k : ProviderKind) : ProviderBudgetDimension :=
  match k with TextKind => text_requests | EmbeddingKind => embedding_requests end.

Definition has_reservation (id : string) (rows : list Reservation) : bool :=
  existsb (λ r, bool_decide (reservation_id r = id)) rows.

(** The first limit that is exceeded. *)
Definition exceeded (l : BudgetLimits) (i : BudgetRequest) (rows : list Reservation)
  : option ProviderBudgetDimension :=
  let requests := maxRequests l <? len rows + 1 in
  let input := maxInputTokens l <? sumZ input_charge rows + r_inputTokens i in
  let output := maxOutputTokens l <? sumZ output_charge rows + r_outputTokens i in
  match r_kind i with
  | TextKind => if requests then Some text_requests else if input then Some text_input_tokens
                else if output then Some text_output_tokens else None
  | EmbeddingKind => if requests then Some embedding_requests else if input then Some embedding_tokens
                     else None
  end.

Definition reserved_row (t : Z) (id : string) (i : BudgetRequest) : Reservation := {|
  reservation_id := id; budget_key := r_key i; provider_kind := r_kind i; settled := false;
  reserved_input_tokens := r_inputTokens i; reserved_output_tokens := r_outputTokens i;
  actual_input_tokens := 0; actual_output_tokens := 0; reserved_at := t |}.

(** The CHECK constraints of the table. *)
Definition row_allowed (r : Reservation) : bool :=
  (1 <=? str_len (budget_key r)) && (str_len (budget_key r) <=? 128)
  && (0 <=? reserved_input_tokens r) && (0 <=? reserved_output_tokens r).

Definition reserve (t : Z) (uuid : string) (l : BudgetLimits) (i : BudgetRequest) (rows : list Reservation)
  : outcome (list Reservation * ProviderBudgetReservation) :=
  let '(id, stable) := reservation_of uuid i in
  if stable && has_reservation id rows
  then Returns (rows, ResultUnknown (requests_dimension (r_kind i)))
  else match exceeded l i (in_budget (r_key i) (r_kind i) (window l) t rows) with
  | Some d => Returns (rows, Exceeded d (dayEnd (window l) t))
  | None =>
      let r := reserved_row t id i in
      if negb (row_allowed r) then Throws "check constraint violated"
      else if has_reservation id rows then Throws "duplicate key value violates unique constraint"
      else Returns (rows ++ [r], Reserved id)
  end.

(** ** settle *)

Record Usage : Type := { u_inputTokens : Z; u_outputTokens : Z }.

Definition billed_row (u : Usage) (r : Reservation) : Reservation := {|
  reservation_id := reservation_id r; budget_key := budget_key r; provider_kind := provider_kind r;
  settled := true; reserved_input_tokens := reserved_input_tokens r;
  reserved_output_tokens := reserved_output_tokens r; actual_input_tokens := u_inputTokens u;
  actual_output_tokens := u_outputTokens u; reserved_at := reserved_at r |}.

Definition open_row (id : string) (r : Reservation) : bool :=
  bool_decide (reservation_id r = id) && negb (settled r).

Definition settle (id : string) (u : Usage) (rows : list Reservation) : outcome (list Reservation) :=
  if existsb (open_row id) rows && ((u_inputTokens u <? 0) || (u_outputTokens u <? 0))
  then Throws "check constraint violated"
  else Returns (map (λ r, if open_row id r then billed_row u r else r) rows).

(** ** The guarded text generator *)

Record GenerateInput : Type := {
  g_requestKey : option string; g_system : string; g_document : jsval; g_schema : jsval }.

Definition line_feed : string := String (Ascii.ascii_of_nat 10) EmptyString.
Definition schema_heading : string := line_feed +:+ line_feed +:+ "Output JSON Schema:" +:+ line_feed.

(** [Buffer.byteLength(JSON.stringify(v))]; undefined throws. *)
Definition json_length (v : jsval) : outcome Z :=
  match stringify v with
  | Some s => Returns (utf8_length s)
  | None => Throws "The string argument must be of type string"
  end.

Definition text_input_bound (i : GenerateInput) : outcome Z :=
  try! d := json_length (g_document i) in
  try! s := json_length (g_schema i) in
  Returns (utf8_length (g_system i) + d + s + utf8_length schema_heading + 1024).

(** What [generateJson] does before the provider: answer, or call it. *)
Inductive TextStart : Type :=
| BudgetUnavailable
| ProviderResultUnknown
| BudgetExceeded (detail : ProviderBudgetDimension) (retryAt : option Z)
| CallProvider (reservationId : string).

Definition generateJson_start (t : Z) (uuid : string) (key : string) (l : BudgetLimits)
  (maxOutputTokensPerRequest : Z) (i : GenerateInput) (rows : list Reservation)
  : outcome (list Reservation * TextStart) :=
  try! bound := text_input_bound i in
  match reserve t uuid l {| r_key := key; r_requestKey := g_requestKey i; r_kind := TextKind;
          r_inputTokens := bound; r_outputTokens := maxOutputTokensPerRequest |} rows with
  | Throws _ => Returns (rows, BudgetUnavailable)
  | Returns (rows', Reserved id) => Returns (rows', CallProvider id)
  | Returns (rows', Exceeded d at_) => Returns (rows', BudgetExceeded d at_)
  | Returns (rows', ResultUnknown _) => Returns (rows', ProviderResultUnknown)
  end.

(** After the provider's answer: settle its usage, or say that billing is
    uncertain. *)
Definition generateJson_finish (id : string) (usage : option Usage) (rows : list Reservation)
  : outcome (list Reservation * bool) :=
  match usage with
  | Some u => try! rows' := settle id u rows in Returns (rows', false)
  | None => Returns (rows, true)
  end.

(** ** The guarded embedding provider *)

Definition embed_start (t : Z) (uuid key : string) (l : BudgetLimits) (texts : list string)
  (rows : list Reservation) : outcome (list Reservation * ProviderBudgetReservation) :=
  reserve t uuid l {| r_key := key; r_requestKey := None; r_kind := EmbeddingKind;
    r_inputTokens := sumZ utf8_length texts; r_outputTokens := 0 |} rows.

Definition embed_finish (id : string) (tokens : Z) (rows : list Reservation) : outcome (list Reservation) :=
  settle id {| u_inputTokens := tokens; u_outputTokens := 0 |} rows.
End store.

(** * Correctness: spending stays within the budget.

    [run_calls] executes any sequence of starts and ends of guarded calls by any
    processes, at any times; every budget has its limits in the configuration
    [limits].  A log notes each call of a provider. *)

Inductive BudgetOp : Type :=
| StartText (t : Z) (uuid key : string) (perRequest : Z) (i : GenerateInput)
| EndText (id : string) (usage : option Usage)
| StartEmbed (t : Z) (uuid key : string) (texts : list string)
| EndEmbed (id : string) (tokens : Z).

Record ProviderCall : Type := { call_key : string; call_kind : ProviderKind; call_request : option string }.

Record BudgetWorld : Type := { reservations : list Reservation; calls : list ProviderCall }.

Section histories.
Context (sha256hex : string → string) (limits : string → ProviderKind → BudgetLimits).

(** One step: the table and the calls made. *)
Definition budget_step (w : BudgetWorld) (o : BudgetOp) : BudgetWorld :=
  match o with
  | StartText t uuid key perRequest i =>
      match generateJson_start sha256hex t uuid key (limits key TextKind) perRequest i (reservations w) with
      | Returns (rows, CallProvider _) =>
          {| reservations := rows;
             calls := calls w ++ [{| call_key := key; call_kind := TextKind; call_request := g_requestKey i |}] |}
      | Returns (rows, _) => {| reservations := rows; calls := calls w |}
      | Throws _ => w
      end
  | EndText id usage =>
      match generateJson_finish id usage (reservations w) with
      | Returns (rows, _) => {| reservations := rows; calls := calls w |}
      | Throws _ => w
      end
  | StartEmbed t uuid key texts =>
      match embed_start sha256hex t uuid key (limits key EmbeddingKind) texts (reservations w) with
      | Returns (rows, Reserved _) =>
          {| reservations := rows;
             calls := calls w ++ [{| call_key := key; call_kind := EmbeddingKind; call_request := None |}] |}
      | Returns (rows, _) => {| reservations := rows; calls := calls w |}
      | Throws _ => w
      end
  | EndEmbed id tokens =>
      match embed_finish id tokens (reservations w) with
      | Returns rows => {| reservations := rows; calls := calls w |}
      | Throws _ => w
      end
  end.

Definition run_calls (l : list BudgetOp) : BudgetWorld :=
  fold_left budget_step l {| reservations := []; calls := [] |}.
End histories.

(** What a provider billed beyond the worst case that was reserved. *)
Definition input_overrun (r : Reservation) : Z :=
  if settled r then Z.max 0 (actual_input_tokens r - reserved_input_tokens r) else 0.
Definition output_overrun (r : Reservation) : Z :=
  if settled r then Z.max 0 (actual_output_tokens r - reserved_output_tokens r) else 0.

(** ** Steps on the table *)

(** A step adds one reservation within the limits, settles one, or does nothing. *)
Inductive table_step (limits : string → ProviderKind → BudgetLimits)
  : list Reservation → list Reservation → Prop :=
| TableSame rows : table_step limits rows rows
| TableReserve rows t id i :
    exceeded (limits (r_key i) (r_kind i)) i
      (in_budget (r_key i) (r_kind i) (window (limits (r_key i) (r_kind i))) t rows) = None →
    has_reservation id rows = false →
    table_step limits rows (rows ++ [reserved_row t id i])
| TableSettle rows id u :
    table_step limits rows (map (λ r, if open_row id r then billed_row u r else r) rows).

Lemma reserve_table sha limits t uuid i rows rows' res :
  reserve sha t uuid (limits (r_key i) (r_kind i)) i rows = Returns (rows', res) →
  (rows' = rows ∧ ∀ id, res ≠ Reserved id) ∨
  ∃ id, res = Reserved id ∧ id = (reservation_of sha uuid i).1 ∧ has_reservation id rows = false
    ∧ rows' = rows ++ [reserved_row t id i] ∧ table_step limits rows rows'.
Proof.
  unfold reserve. destruct (reservation_of sha uuid i) as [id stable] eqn:Ei.
  destruct (stable && _); [intros; simplify_eq; by left|].
  destruct (exceeded _ _ _) eqn:Ex; [intros; simplify_eq; by left|].
  destruct (negb _); [done|]. destruct (has_reservation id rows) eqn:Eh; [done|]. intros H. simplify_eq.
  right. exists id. split_and!; [done..|]. by constructor.
Qed.

Lemma settle_step limits id u rows rows' : settle id u rows = Returns rows' → table_step limits rows rows'.
Proof. unfold settle. destruct (_ && _); [done|]. intros H. simplify_eq. constructor. Qed.

(** ** Windows *)

Lemma same_window w t t' r : in_window w t r = true → reserved_at r = t' →
  ∀ r', in_window w t r' = in_window w t' r'.
Proof.
  unfold in_window. destruct w; simpl; [done|]. intros H <- r'. bool_hyps.
  assert (day_start (reserved_at r) = day_start t) as ->; [|done]. unfold day_start in *.
  f_equal. f_equal. symmetry. apply (Z.div_unique _ _ _ (reserved_at r + dayOffsetMs - (t + dayOffsetMs) / budget_day_ms * budget_day_ms));
    unfold budget_day_ms in *; lia.
Qed.

Lemma now_in_window w t id i : in_window w t (reserved_row t id i) = true.
Proof.
  unfold in_window. destruct w; simpl; [done|]. unfold day_start. apply andb_true_iff.
  rewrite Z.leb_le, Z.ltb_lt. unfold budget_day_ms. pose proof (Z.mod_pos_bound (t + dayOffsetMs) 86400000 eq_refl).
  rewrite Z.mod_eq in H by done. lia.
Qed.

(** ** The limits hold *)

(** A column summed over a window, up to what was overrun. *)
Definition column_ok (charge overrun : Reservation → Z) (cap : Z) (rows : list Reservation) : Prop :=
  sumZ charge rows ≤ Z.max 0 cap + sumZ overrun rows.

Definition window_ok (l : BudgetLimits) (k : ProviderKind) (rows : list Reservation) : Prop :=
  len rows ≤ Z.max 0 (maxRequests l)
  ∧ column_ok input_charge input_overrun (maxInputTokens l) rows
  ∧ (k = TextKind → column_ok output_charge output_overrun (maxOutputTokens l) rows).

Lemma overrun_nonneg rows : 0 ≤ sumZ input_overrun rows ∧ 0 ≤ sumZ output_overrun rows.
Proof.
  unfold input_overrun, output_overrun.
  split; apply sumZ_nonneg; intros r _; destruct (settled r); lia.
Qed.

Lemma within_limits l i rows t id : exceeded l i rows = None →
  window_ok l (r_kind i) rows → window_ok l (r_kind i) (rows ++ [reserved_row t id i]).
Proof.
  intros Hx (Hr & Hi & Ho). unfold exceeded in Hx. unfold window_ok, column_ok in *.
  destruct (overrun_nonneg rows) as [Hoi Hoo]. rewrite len_app, !sumZ_app. simpl.
  unfold input_charge at 2, output_charge at 2, input_overrun at 2, output_overrun at 2. simpl.
  destruct (r_kind i); repeat case_match; try done; bool_hyps; split_and!; intros; try done; lia.
Qed.

(** Settling keeps the rows of a window and never raises a column beyond what
    it overruns. *)
Lemma settle_window id u p rows : (∀ r, p (billed_row u r) = p r) →
  bfilter p (map (λ r, if open_row id r then billed_row u r else r) rows)
  = map (λ r, if open_row id r then billed_row u r else r) (bfilter p rows).
Proof.
  intros Hp. induction rows as [|r rows IH]; simpl; [done|]. rewrite IH.
  destruct (open_row id r) eqn:E; rewrite ?Hp; destruct (p r); simpl; by rewrite ?E.
Qed.

Lemma settle_column id u rows :
  let rows' := map (λ r, if open_row id r then billed_row u r else r) rows in
  sumZ input_charge rows' - sumZ input_overrun rows' ≤ sumZ input_charge rows - sumZ input_overrun rows
  ∧ sumZ output_charge rows' - sumZ output_overrun rows' ≤ sumZ output_charge rows - sumZ output_overrun rows.
Proof.
  intros rows'. subst rows'. induction rows as [|r rows IH]; simpl; [lia|].
  destruct (open_row id r) eqn:E; [|lia]. unfold open_row in E. bool_hyps.
  unfold input_charge at 1 3, output_charge at 1 3, input_overrun at 1 3, output_overrun at 1 3. simpl.
  rewrite H0. lia.
Qed.

Section limits.
Context (limits : string → ProviderKind → BudgetLimits).

Definition budgets_ok (rows : list Reservation) : Prop :=
  ∀ key k t, window_ok (limits key k) k (in_budget key k (window (limits key k)) t rows).

Lemma table_step_ok rows rows' : table_step limits rows rows' → budgets_ok rows → budgets_ok rows'.
Proof.
  destruct 1 as [rows|rows t0 id i Hx Hid|rows id u]; intros Hok key k t; [by apply Hok| |].
  - specialize (Hok key k t). unfold in_budget in *. rewrite bfilter_app. simpl.
    destruct (of_budget key k (reserved_row t0 id i) && _) eqn:E; [|by rewrite app_nil_r].
    apply andb_true_iff in E as [Eb Ew]. unfold of_budget in Eb. simpl in Eb. bool_hyps. subst key k.
    apply within_limits; [|done]. rewrite <- Hx. f_equal. apply bfilter_ext. intros r _. f_equal.
    by apply (same_window _ _ _ _ Ew).
  - destruct (Hok key k t) as (Hr & Hi & Ho). unfold in_budget in *. rewrite settle_window by done.
    destruct (settle_column id u (bfilter (λ r, of_budget key k r && in_window (window (limits key k)) t r) rows))
      as [H1 H2].
    unfold window_ok, column_ok in *. rewrite length_map. split_and!; [done|lia|]. intros Hk. specialize (Ho Hk). lia.
Qed.
End limits.


(** ** Calls and reservations *)

Definition call_of (key : string) (k : ProviderKind) (c : ProviderCall) : bool :=
  bool_decide (call_key c = key) && bool_decide (call_kind c = k).

(** A call with a request key. *)
Definition keyed (c : ProviderCall) : bool :=
  match call_request c with Some rk => negb (bool_decide (rk = EmptyString)) | None => false end.

Section calls.
Context (sha256hex : string → string) (limits : string → ProviderKind → BudgetLimits).
Local Abbreviation run := (run_calls sha256hex limits).

(** The identifier under which a keyed call was reserved. *)
Definition call_id (c : ProviderCall) : string :=
  request_id sha256hex (call_key c) (call_kind c) (default EmptyString (call_request c)).

Definition call_for (i : BudgetRequest) : ProviderCall := {|
  call_key := r_key i; call_kind := r_kind i; call_request := r_requestKey i |}.

(** The provider is called exactly when a reservation was added. *)
Inductive world_step (w w' : BudgetWorld) : Prop :=
| WorldQuiet : calls w' = calls w → len (reservations w') = len (reservations w) →
    (∀ key k, len (bfilter (of_budget key k) (reservations w')) = len (bfilter (of_budget key k) (reservations w))) →
    (∀ id, has_reservation id (reservations w) = true → has_reservation id (reservations w') = true) →
    table_step limits (reservations w) (reservations w') → world_step w w'
| WorldCall t uuid id i : id = (reservation_of sha256hex uuid i).1 → has_reservation id (reservations w) = false →
    reservations w' = reservations w ++ [reserved_row t id i] → calls w' = calls w ++ [call_for i] →
    table_step limits (reservations w) (reservations w') → world_step w w'.

Lemma quiet_same w : world_step w w.
Proof. apply WorldQuiet; try done. constructor. Qed.

Lemma quiet_settle w id u rows : settle id u (reservations w) = Returns rows →
  world_step w {| reservations := rows; calls := calls w |}.
Proof.
  intros H. pose proof (settle_step limits _ _ _ _ H) as Ht. unfold settle in H.
  destruct (_ && _); [done|]. simplify_eq. apply WorldQuiet; simpl; [done|by rewrite length_map| | |done].
  - intros key k. by rewrite settle_window, length_map.
  - intros id' Hid. unfold has_reservation in *. rewrite existsb_exists in Hid |- *.
    destruct Hid as (r & Hr & Hd). exists (if open_row id r then billed_row u r else r).
    split; [|by destruct (open_row id r)]. by apply (in_map (λ r, if open_row id r then billed_row u r else r)).
Qed.

Lemma step_is_world_step w o : world_step w (budget_step sha256hex limits w o).
Proof.
  destruct o as [t uuid key perRequest i|id [u|]|t uuid key texts|id tokens]; simpl.
  - unfold generateJson_start. destruct (text_input_bound i) as [bound|]; [|apply quiet_same].
    set (ri := {| r_key := key; r_requestKey := g_requestKey i; r_kind := TextKind; r_inputTokens := bound;
                  r_outputTokens := perRequest |}).
    destruct (reserve _ _ _ _ _ _) as [[rows res]|] eqn:E; [|destruct w; apply quiet_same].
    apply (reserve_table _ limits _ _ ri) in E as [[-> Hno]|(id & -> & Hid & Hh & -> & Ht)].
    + destruct res as [id|d at_|d]; [by destruct (Hno id)|destruct w; apply quiet_same..].
    + by apply (WorldCall _ _ t uuid id ri).
  - destruct (settle id u _) as [rows|] eqn:E; [by eapply quiet_settle|apply quiet_same].
  - destruct w; apply quiet_same.
  - unfold embed_start.
    set (ri := {| r_key := key; r_requestKey := None; r_kind := EmbeddingKind;
                  r_inputTokens := sumZ utf8_length texts; r_outputTokens := 0 |}).
    destruct (reserve _ _ _ _ _ _) as [[rows res]|] eqn:E; [|apply quiet_same].
    apply (reserve_table _ limits _ _ ri) in E as [[-> Hno]|(id & -> & Hid & Hh & -> & Ht)].
    + destruct res as [id|d at_|d]; [by destruct (Hno id)|destruct w; apply quiet_same..].
    + by apply (WorldCall _ _ t uuid id ri).
  - unfold embed_finish. destruct (settle id _ _) as [rows|] eqn:E; [by eapply quiet_settle|apply quiet_same].
Qed.

Definition world_ok (w : BudgetWorld) : Prop :=
  budgets_ok limits (reservations w)
  ∧ (∀ key k, len (bfilter (call_of key k) (calls w)) = len (bfilter (of_budget key k) (reservations w)))
  ∧ (∀ c, c ∈ calls w → keyed c = true → has_reservation (call_id c) (reservations w) = true)
  ∧ NoDup (bfilter keyed (calls w)).

Lemma keyed_id uuid i : keyed (call_for i) = true → (reservation_of sha256hex uuid i).1 = call_id (call_for i).
Proof.
  unfold keyed, reservation_of, call_id. simpl. destruct (r_requestKey i) as [rk|]; [|done].
  by destruct (bool_decide _).
Qed.

Lemma has_reservation_app id rows r : has_reservation id (rows ++ [r]) =
  has_reservation id rows || bool_decide (reservation_id r = id).
Proof. unfold has_reservation. rewrite existsb_app. simpl. by rewrite orb_false_r. Qed.

Lemma world_step_ok w w' : world_step w w' → world_ok w → world_ok w'.
Proof.
  intros Hs (Hb & Hn & Hr & Hd).
  destruct Hs as [Hc _ Hlen Hkeep Ht|t uuid id i Hid Hh Hrows Hc Ht];
    (split; [by eapply table_step_ok|]).
  - rewrite Hc. split_and!; [intros; by rewrite Hn, Hlen|auto|done].
  - rewrite Hrows, Hc. split_and!.
    + intros key k. rewrite !bfilter_app, !len_app, Hn. f_equal. simpl.
      change (of_budget key k (reserved_row t id i)) with (call_of key k (call_for i)).
      by destruct (call_of key k (call_for i)).
    + intros c Hin Hk. rewrite has_reservation_app. apply elem_of_app in Hin as [Hin|Hin].
      * by rewrite (Hr c Hin Hk).
      * apply list_elem_of_singleton in Hin as ->. simpl. rewrite Hid, (keyed_id uuid) by done.
        rewrite bool_decide_true by done. apply orb_true_r.
    + rewrite bfilter_app. simpl. destruct (keyed (call_for i)) eqn:Hk; [|by rewrite app_nil_r].
      apply NoDup_app. split_and!; [done| |apply NoDup_singleton].
      intros c Hin Hc'. apply list_elem_of_singleton in Hc' as ->. apply elem_of_bfilter in Hin as [_ Hin].
      pose proof (Hr _ Hin Hk) as Hres. rewrite <- (keyed_id uuid), <- Hid in Hres by done. congruence.
Qed.

Lemma run_calls_ok l : world_ok (run l).
Proof.
  unfold run_calls. assert (H0 : world_ok {| reservations := []; calls := [] |}).
  { split_and!; [|done|set_solver|constructor].
    intros key k t. unfold window_ok, column_ok. simpl. split_and!; intros; lia. }
  revert H0. generalize {| reservations := []; calls := [] |}.
  induction l as [|o l IH]; intros w Hw; [done|]. apply IH. eapply world_step_ok; [|done].
  apply step_is_world_step.
Qed.

(** C20: Whatever calls start, end or never return, in every window of a budget
    the reservations are within the request limit, and the tokens charged,
    reserved for open calls and reported for settled ones, exceed the token
    limits by no more than providers reported beyond the reserved worst case.
    A provider is called exactly once per reservation. *)
Theorem budget_never_exceeded l key k t :
  let w := run l in
  let rows := in_budget key k (window (limits key k)) t (reservations w) in
  len rows ≤ Z.max 0 (maxRequests (limits key k))
  ∧ sumZ input_charge rows ≤ Z.max 0 (maxInputTokens (limits key k)) + sumZ input_overrun rows
  ∧ (k = TextKind →
     sumZ output_charge rows ≤ Z.max 0 (maxOutputTokens (limits key k)) + sumZ output_overrun rows)
  ∧ len (bfilter (call_of key k) (calls w)) = len (bfilter (of_budget key k) (reservations w)).
Proof. intros w rows. destruct (run_calls_ok l) as (Hb & Hn & _). destruct (Hb key k t) as (? & ? & ?). done. Qed.

(** A request with a key is sent to the provider at most once in all
    histories, whatever crashes, retries or other processes do. *)
Theorem request_sent_once l : NoDup (bfilter keyed (calls (run l))).
Proof. by destruct (run_calls_ok l) as (_ & _ & _ & ?). Qed.
End calls.

(** ** A run *)

(** Three requests on one day under a limit of two, then one on the next day;
    the second is repeated with its key. *)
Module BudgetRun.
Definition limits (key : string) (k : ProviderKind) : BudgetLimits := {|
  maxRequests := 2; maxInputTokens := 10000; maxOutputTokens := 400; window := daily_asia_shanghai |}.
Definition request (rk : string) : GenerateInput := {|
  g_requestKey := Some rk; g_system := "s"; g_document := JStr rk; g_schema := JObj [] |}.
(** A stand-in for the digest: the text itself, padded to 32 characters. *)
Definition digest (s : string) : string := String.substring 0 32 (s +:+ "00000000000000000000000000000000").
Definition first : string := request_id digest "b" TextKind "r1".

Definition history : list BudgetOp :=
  [StartText 1000 "u1" "b" 200 (request "r1"); StartText 2000 "u2" "b" 200 (request "r2");
   EndText first (Some {| u_inputTokens := 300; u_outputTokens := 250 |});
   StartText 3000 "u3" "b" 200 (request "r2"); StartText 4000 "u4" "b" 200 (request "r3");
   StartText 57600000 "u5" "b" 200 (request "r3")].

Example history_calls : map call_request (calls (run_calls digest limits history)) = [Some "r1"; Some "r2"; Some "r3"].
Proof. vm_compute. reflexivity. Qed.
End BudgetRun.

Lemma budget_never_exceeded_witness :
  let rows := in_budget "b" TextKind daily_asia_shanghai 5000
    (reservations (run_calls BudgetRun.digest BudgetRun.limits BudgetRun.history)) in
  len rows = 2 ∧ sumZ output_charge rows = 450 ∧ sumZ output_charge rows ≤ 400 + sumZ output_overrun rows.
Proof.
  intros rows. split; [vm_compute; reflexivity|]. split; [vm_compute; reflexivity|].
  apply (budget_never_exceeded BudgetRun.digest BudgetRun.limits BudgetRun.history "b" TextKind 5000). reflexivity.
Defined.
