(* ===== verification/ReviewPolicy.v ===== *)
(** * ReviewPolicy: who must agree before a memory is shared
    (memory/src/governance/review-policy.ts, memory/src/governance/authority.ts).

    A review policy is a document of bounds and switches.  Documents are stored
    as immutable versions of the policy set of an installation; the head names
    the active one and has a revision for compare-and-set.  The policy in force
    joins the default of the scope with the stored document and, for a team,
    with the layer of its organization.  [evaluateQuorum] decides on the
    decisions of the members that are still entitled to review.

    Tables are lists of rows in the order of insertion; row locks are left out,
    an operation being one transaction.  Random identifiers and SHA-256 are
    arguments. *)

From S2P Require Import Prelude JsValue JsMap.

#[local] Open Scope Z_scope.

(** ** Documents *)

Record ReviewPolicyDocument : Type := {
  minimum_approvals : Z;
  require_independent_reviewer : bool;
  require_publisher : bool;
  publisher_may_count_as_reviewer : bool;
  allow_self_publish : bool;
  candidate_ttl_days : Z;
  max_shared_evidence : Z;
  retention_days_after_revoke : Z;
  allow_parallel_conflicts : bool
}.

#[global] Instance ReviewPolicyDocument_eq : EqDecision ReviewPolicyDocument.
Proof. solve_decision. Defined.

Definition DEFAULT_TEAM_REVIEW_POLICY : ReviewPolicyDocument := {|
  minimum_approvals := 1; require_independent_reviewer := true; require_publisher := true;
  publisher_may_count_as_reviewer := true; allow_self_publish := false; candidate_ttl_days := 30;
  max_shared_evidence := 8; retention_days_after_revoke := 90; allow_parallel_conflicts := true |}.

Definition DEFAULT_ORGANIZATION_REVIEW_POLICY : ReviewPolicyDocument := {|
  minimum_approvals := 2; require_independent_reviewer := true; require_publisher := true;
  publisher_may_count_as_reviewer := true; allow_self_publish := false; candidate_ttl_days := 30;
  max_shared_evidence := 8; retention_days_after_revoke := 90; allow_parallel_conflicts := true |}.

(** The document as the JSON object that is stored. *)
Definition document_json (d : ReviewPolicyDocument) : jsval := JObj [
  ("schema_version", JNum 1);
  ("minimum_approvals", JNum (minimum_approvals d));
  ("require_independent_reviewer", JBool (require_independent_reviewer d));
  ("require_publisher", JBool (require_publisher d));
  ("publisher_may_count_as_reviewer", JBool (publisher_may_count_as_reviewer d));
  ("allow_self_publish", JBool (allow_self_publish d));
  ("candidate_ttl_days", JNum (candidate_ttl_days d));
  ("max_shared_evidence", JNum (max_shared_evidence d));
  ("retention_days_after_revoke", JNum (retention_days_after_revoke d));
  ("allow_parallel_conflicts", JBool (allow_parallel_conflicts d))].

Definition expectedKeys : list string :=
  ["schema_version"; "minimum_approvals"; "require_independent_reviewer"; "require_publisher";
   "publisher_may_count_as_reviewer"; "allow_self_publish"; "candidate_ttl_days"; "max_shared_evidence";
   "retention_days_after_revoke"; "allow_parallel_conflicts"].

(** A number entry within [POLICY_BOUNDS]. *)
Definition bounded_entry (fields : list (string * jsval)) (k : string) (lo hi : Z) : option Z :=
  match lookup_field k fields with
  | JNum z => if (z <? lo) || (hi <? z) then None else Some z
  | _ => None
  end.

Definition boolean_entry (fields : list (string * jsval)) (k : string) : option bool :=
  match lookup_field k fields with JBool b => Some b | _ => None end.

Definition parseReviewPolicyDocument (input : jsval) : option ReviewPolicyDocument :=
  match input with
  | JObj fields =>
      if negb (len fields.*1 =? len expectedKeys)
         || negb (forallb (λ k, bool_decide (k ∈ fields.*1)) expectedKeys) then None
      else if negb (is_number (lookup_field "schema_version" fields) 1) then None
      else
        approvals ← bounded_entry fields "minimum_approvals" 1 10;
        ttl ← bounded_entry fields "candidate_ttl_days" 1 365;
        evidence ← bounded_entry fields "max_shared_evidence" 1 8;
        retention ← bounded_entry fields "retention_days_after_revoke" 1 3650;
        independent ← boolean_entry fields "require_independent_reviewer";
        publisher ← boolean_entry fields "require_publisher";
        counts ← boolean_entry fields "publisher_may_count_as_reviewer";
        parallel ← boolean_entry fields "allow_parallel_conflicts";
        match lookup_field "allow_self_publish" fields with
        | JBool false =>
            if negb independent || negb publisher then None
            else Some {| minimum_approvals := approvals; require_independent_reviewer := independent;
                         require_publisher := publisher; publisher_may_count_as_reviewer := counts;
                         allow_self_publish := false; candidate_ttl_days := ttl;
                         max_shared_evidence := evidence; retention_days_after_revoke := retention;
                         allow_parallel_conflicts := parallel |}
        | _ => None
        end
  | _ => None
  end.

(** [JSON.stringify(document, Object.keys(document).sort())]. *)
Definition canonical_json (d : ReviewPolicyDocument) : string := default EmptyString (stringify (JObj [
  ("allow_parallel_conflicts", JBool (allow_parallel_conflicts d));
  ("allow_self_publish", JBool (allow_self_publish d));
  ("candidate_ttl_days", JNum (candidate_ttl_days d));
  ("max_shared_evidence", JNum (max_shared_evidence d));
  ("minimum_approvals", JNum (minimum_approvals d));
  ("publisher_may_count_as_reviewer", JBool (publisher_may_count_as_reviewer d));
  ("require_independent_reviewer", JBool (require_independent_reviewer d));
  ("require_publisher", JBool (require_publisher d));
  ("retention_days_after_revoke", JNum (retention_days_after_revoke d));
  ("schema_version", JNum 1)])).

Definition canonicalReviewPolicyHash (sha256hex : string → string) (d : ReviewPolicyDocument) : string :=
  sha256hex (canonical_json d).

Definition resolveEffectivePolicy (parent child : ReviewPolicyDocument) : ReviewPolicyDocument := {|
  minimum_approvals := Z.max (minimum_approvals parent) (minimum_approvals child);
  require_independent_reviewer := require_independent_reviewer parent || require_independent_reviewer child;
  require_publisher := require_publisher parent || require_publisher child;
  publisher_may_count_as_reviewer :=
    publisher_may_count_as_reviewer parent && publisher_may_count_as_reviewer child;
  allow_self_publish := false;
  candidate_ttl_days := Z.min (candidate_ttl_days parent) (candidate_ttl_days child);
  max_shared_evidence := Z.min (max_shared_evidence parent) (max_shared_evidence child);
  retention_days_after_revoke := Z.max (retention_days_after_revoke parent) (retention_days_after_revoke child);
  allow_parallel_conflicts := allow_parallel_conflicts parent && allow_parallel_conflicts child |}.

(** ** Tables *)

Record PolicySet : Type := { set_policy_id : string; set_installation_id : string }.
Record PolicyVersion : Type := {
  policy_version_id : string; version_policy_id : string; version_number : Z; version_document : jsval;
  content_hash : string; created_by_membership_id : option string }.
Record PolicyHead : Type := { head_policy_id : string; active_version_id : string; head_revision : Z }.

(** A row of [memory_owner_scopes] joined with its installation. *)
Record OwnerScope : Type := {
  scope_installation_id : string;
  owner_scope_kind : string;
  owner_scope_id : string;
  parent_organization_id : option string;
  scope_state : string;
  authorization_epoch : Z;
  relay_status : string;
  local_status : string
}.
Record ScopeTombstone : Type := { tomb_kind : string; tomb_id : string; tomb_epoch : Z }.

Record PolicyTables : Type := {
  policy_sets : list PolicySet;
  policy_versions : list PolicyVersion;
  policy_heads : list PolicyHead;
  owner_scopes : list OwnerScope;
  scope_tombstones : list ScopeTombstone
}.

Definition with_policies (st : PolicyTables) (sets : list PolicySet) (versions : list PolicyVersion)
  (heads : list PolicyHead) : PolicyTables := {|
  policy_sets := sets; policy_versions := versions; policy_heads := heads;
  owner_scopes := owner_scopes st; scope_tombstones := scope_tombstones st |}.

(** [SELECT ... LIMIT 1]: the first row that matches. *)
Definition first_row {A} (p : A → bool) (rows : list A) : option A := head (bfilter p rows).

Definition set_of (st : PolicyTables) (inst : string) : option PolicySet :=
  first_row (λ s, bool_decide (set_installation_id s = inst)) (policy_sets st).
Definition policy_head (st : PolicyTables) (policy : string) : option PolicyHead :=
  first_row (λ h, bool_decide (head_policy_id h = policy)) (policy_heads st).
Definition version_of (st : PolicyTables) (id : string) : option PolicyVersion :=
  first_row (λ v, bool_decide (policy_version_id v = id)) (policy_versions st).

(** [heads h JOIN sets s USING(policy_id) WHERE s.installation_id = $1]. *)
Definition installation_head (st : PolicyTables) (inst : string) : option PolicyHead :=
  s ← set_of st inst; policy_head st (set_policy_id s).

(** ** Heads *)

Section policies.
Context (sha256hex : string → string).

(** [INSERT INTO memory_review_policy_sets ... ON CONFLICT (installation_id) DO
    NOTHING]. *)
Definition insert_set (policyUuid inst : string) (sets : list PolicySet) : outcome (list PolicySet) :=
  if existsb (λ s, bool_decide (set_installation_id s = inst)) sets then Returns sets
  else if existsb (λ s, bool_decide (set_policy_id s = policyUuid)) sets
  then Throws "duplicate key value violates unique constraint"
  else Returns (sets ++ [{| set_policy_id := policyUuid; set_installation_id := inst |}]).

(** [ensurePolicyHead] with the identifiers it may need. *)
Definition ensurePolicyHead (policyUuid versionUuid inst : string) (document : ReviewPolicyDocument)
  (st : PolicyTables) : outcome PolicyTables :=
  match installation_head st inst with
  | Some _ => Returns st
  | None =>
      try! sets := insert_set policyUuid inst (policy_sets st) in
      match first_row (λ s, bool_decide (set_installation_id s = inst)) sets with
      | None => Throws "review policy set missing"
      | Some s =>
          let policy := set_policy_id s in
          match policy_head st policy with
          | Some _ => Returns (with_policies st sets (policy_versions st) (policy_heads st))
          | None =>
              if existsb (λ v, bool_decide (policy_version_id v = versionUuid)) (policy_versions st)
                 || existsb (λ v, bool_decide (version_policy_id v = policy) && (version_number v =? 1))
                      (policy_versions st)
              then Throws "duplicate key value violates unique constraint"
              else Returns (with_policies st sets
                (policy_versions st ++ [{| policy_version_id := versionUuid; version_policy_id := policy;
                   version_number := 1; version_document := document_json document;
                   content_hash := canonicalReviewPolicyHash sha256hex document;
                   created_by_membership_id := None |}])
                (policy_heads st ++ [{| head_policy_id := policy; active_version_id := versionUuid;
                                        head_revision := 1 |}]))
          end
      end
  end.

Definition readPolicyHead (inst : string) (st : PolicyTables)
  : outcome (option (string * ReviewPolicyDocument)) :=
  match (h ← installation_head st inst; v ← version_of st (active_version_id h); Some (h, v)) with
  | None => Returns None
  | Some (h, v) =>
      match parseReviewPolicyDocument (version_document v) with
      | None => Throws "review policy document invalid"
      | Some d => Returns (Some (active_version_id h, d))
      end
  end.

(** ** The policy in force *)

Definition alive (st : PolicyTables) (s : OwnerScope) : bool :=
  bool_decide (scope_state s = "active") && bool_decide (relay_status s = "active")
  && negb (bool_decide (local_status s ∈ ["purging"; "purged"; "integrity_error"]))
  && negb (existsb (λ t, bool_decide (tomb_kind t = owner_scope_kind s) && bool_decide (tomb_id t = owner_scope_id s)
                         && (authorization_epoch s <=? tomb_epoch t)) (scope_tombstones st)).

Inductive ScopeKind : Type := TeamScope | OrganizationScope.

Record EffectiveReviewPolicySnapshot : Type := {
  scopeKind : ScopeKind;
  activeVersionId : string;
  parentActiveVersionId : option string;
  policy : ReviewPolicyDocument
}.

Definition scope_kind (s : string) : option ScopeKind :=
  if bool_decide (s = "team") then Some TeamScope
  else if bool_decide (s = "organization") then Some OrganizationScope else None.

Definition default_policy (k : ScopeKind) : ReviewPolicyDocument :=
  match k with OrganizationScope => DEFAULT_ORGANIZATION_REVIEW_POLICY | TeamScope => DEFAULT_TEAM_REVIEW_POLICY end.

(** The installation of a team's organization; [Throws] when it is stale. *)
Definition parent_installation (st : PolicyTables) (k : ScopeKind) (row : OwnerScope) : outcome (option string) :=
  match k, parent_organization_id row with
  | TeamScope, Some org =>
      match first_row (λ s, bool_decide (owner_scope_kind s = "organization")
                            && bool_decide (owner_scope_id s = org)) (owner_scopes st) with
      | Some p => if alive st p then Returns (Some (scope_installation_id p))
                  else Throws "review_policy_scope_stale"
      | None =>
          if existsb (λ t, bool_decide (tomb_kind t = "organization") && bool_decide (tomb_id t = org))
               (scope_tombstones st)
          then Throws "review_policy_scope_stale" else Returns None
      end
  | _, _ => Returns None
  end.

(** [ensure] carries the identifiers of the heads it may create. *)
Definition ensure_head (ensure : option (string * string)) (inst : string) (d : ReviewPolicyDocument)
  (st : PolicyTables) : outcome PolicyTables :=
  match ensure with Some (p, v) => ensurePolicyHead p v inst d st | None => Returns st end.

Definition loadEffectiveReviewPolicySnapshot (ensure : option ((string * string) * (string * string)))
  (inst : string) (st : PolicyTables) : outcome (PolicyTables * EffectiveReviewPolicySnapshot) :=
  match first_row (λ s, bool_decide (scope_installation_id s = inst)) (owner_scopes st) with
  | None => Throws "review_policy_scope_stale"
  | Some row =>
      match (if alive st row then scope_kind (owner_scope_kind row) else None) with
      | None => Throws "review_policy_scope_stale"
      | Some kind =>
          try! parentInst := parent_installation st kind row in
          try! st1 := match parentInst with
                      | Some p => ensure_head (fst <$> ensure) p DEFAULT_ORGANIZATION_REVIEW_POLICY st
                      | None => Returns st end in
          try! parent := match parentInst with Some p => readPolicyHead p st1 | None => Returns None end in
          try! st2 := ensure_head (snd <$> ensure) inst (default_policy kind) st1 in
          try! target := readPolicyHead inst st2 in
          match target with
          | None => Throws "review policy head missing"
          | Some (version, document) =>
              let targetPolicy := resolveEffectivePolicy (default_policy kind) document in
              let layered := match kind, parent_organization_id row with
                             | TeamScope, Some _ => true | _, _ => false end in
              Returns (st2, {|
                scopeKind := kind; activeVersionId := version; parentActiveVersionId := fst <$> parent;
                policy := if layered
                  then resolveEffectivePolicy
                         (match parent with
                          | Some (_, d) => resolveEffectivePolicy DEFAULT_ORGANIZATION_REVIEW_POLICY d
                          | None => DEFAULT_ORGANIZATION_REVIEW_POLICY end) targetPolicy
                  else targetPolicy |})
          end
      end
  end.

(** ** The repository *)

Record PolicySetResult : Type := { res_policyId : string; res_policyVersionId : string; res_versionNumber : Z }.

Definition ensurePolicySet (policyUuid versionUuid inst : string) (document : ReviewPolicyDocument)
  (st : PolicyTables) : outcome (PolicyTables * PolicySetResult) :=
  try! st1 := ensurePolicyHead policyUuid versionUuid inst document st in
  match (h ← installation_head st1 inst; v ← version_of st1 (active_version_id h); Some (h, v)) with
  | None => Throws "review policy head missing"
  | Some (h, v) => Returns (st1, {| res_policyId := head_policy_id h; res_policyVersionId := active_version_id h;
                                    res_versionNumber := version_number v |})
  end.

Definition getHead (inst : string) (st : PolicyTables) : option (string * string * Z) :=
  h ← installation_head st inst; Some (head_policy_id h, active_version_id h, head_revision h).

(** [COALESCE(MAX(version_number), 0) + 1]. *)
Definition next_number (st : PolicyTables) (policy : string) : Z :=
  1 + foldr Z.max 0 (map version_number
        (bfilter (λ v, bool_decide (version_policy_id v = policy)) (policy_versions st))).

(** [UPDATE heads SET active_version_id, revision = revision + 1 WHERE
    policy_id = $1 AND revision = $3]. *)
Definition cas_head (policy version : string) (expected : Z) (heads : list PolicyHead)
  : option (list PolicyHead) :=
  let this := λ h, bool_decide (head_policy_id h = policy) && (head_revision h =? expected) in
  if existsb this heads
  then Some (map (λ h, if this h then {| head_policy_id := head_policy_id h; active_version_id := version;
                                         head_revision := head_revision h + 1 |} else h) heads)
  else None.

Definition revision_conflict : string := "review policy head revision mismatch".

Definition publishVersion (uuid inst : string) (input : jsval) (by_ : option string) (expectedRevision : Z)
  (st : PolicyTables) : outcome (PolicyTables * (string * Z)) :=
  match parseReviewPolicyDocument input with
  | None => Throws "review policy document failed validation"
  | Some document =>
      match installation_head st inst with
      | None => Throws revision_conflict
      | Some current =>
          if negb (head_revision current =? expectedRevision) then Throws revision_conflict
          else
            let policy := head_policy_id current in
            let number := next_number st policy in
            if existsb (λ v, bool_decide (policy_version_id v = uuid)) (policy_versions st)
            then Throws "duplicate key value violates unique constraint"
            else
              let v := {| policy_version_id := uuid; version_policy_id := policy; version_number := number;
                          version_document := document_json document;
                          content_hash := canonicalReviewPolicyHash sha256hex document;
                          created_by_membership_id := by_ |} in
              match cas_head policy uuid expectedRevision (policy_heads st) with
              | None => Throws revision_conflict
              | Some heads => Returns (with_policies st (policy_sets st) (policy_versions st ++ [v]) heads,
                                       (uuid, number))
              end
      end
  end.

(** The foreign key of [active_version_id] is all that restricts the target. *)
Definition rollback (inst targetVersionId : string) (expectedRevision : Z) (st : PolicyTables)
  : outcome (PolicyTables * (string * Z)) :=
  match installation_head st inst with
  | None => Throws revision_conflict
  | Some current =>
      match cas_head (head_policy_id current) targetVersionId expectedRevision (policy_heads st) with
      | None => Throws revision_conflict
      | Some heads =>
          if negb (existsb (λ v, bool_decide (policy_version_id v = targetVersionId)) (policy_versions st))
          then Throws "insert or update violates foreign key constraint"
          else Returns (with_policies st (policy_sets st) (policy_versions st) heads,
                        (targetVersionId, expectedRevision + 1))
      end
  end.

(** Rows in the order of their numbers. *)
Definition number_le (a b : PolicyVersion) : Prop := version_number a ≤ version_number b.

#[global] Instance number_le_dec : RelDecision number_le.
Proof. intros a b. unfold number_le. apply _. Defined.

Definition listVersions (inst : string) (st : PolicyTables)
  : list (string * Z * option ReviewPolicyDocument * string) :=
  match set_of st inst with
  | None => []
  | Some s => map (λ v, (policy_version_id v, version_number v, parseReviewPolicyDocument (version_document v),
                         content_hash v))
      (merge_sort number_le (bfilter (λ v, bool_decide (version_policy_id v = set_policy_id s)) (policy_versions st)))
  end.

Definition getActiveDocument (inst : string) (st : PolicyTables) : option ReviewPolicyDocument :=
  h ← installation_head st inst; v ← version_of st (active_version_id h);
  parseReviewPolicyDocument (version_document v).
End policies.

(** ** Quorum *)

Inductive ReviewDecisionKind : Type := approve | request_changes | reject.

#[global] Instance ReviewDecisionKind_eq : EqDecision ReviewDecisionKind.
Proof. solve_decision. Defined.

Record BoundReviewDecision : Type := {
  decisionId : string; d_membershipId : string; d_membershipRevision : string; decision : ReviewDecisionKind }.

Record CurrentMembershipFact : Type := {
  membershipId : string; membershipRevision : string; m_state : string; roles : list string }.

Definition can_review (m : CurrentMembershipFact) : bool :=
  existsb (λ r, bool_decide (r ∈ ["reviewer"; "publisher"; "scope_administrator"])) (roles m).

(** [new Map(memberships.map(...))]: the last fact of a membership counts. *)
Definition currentReviewDecisions (decisions : list BoundReviewDecision) (memberships : list CurrentMembershipFact)
  : list BoundReviewDecision :=
  let current := map_of membershipId (λ m, m) memberships in
  bfilter (λ d, match map_get current (d_membershipId d) with
                | Some m => bool_decide (m_state m = "active") && can_review m
                            && bool_decide (membershipRevision m = d_membershipRevision d)
                | None => false
                end) decisions.

Inductive QuorumReason : Type :=
| quorum_ok | insufficient_approvals | missing_independent_reviewer | pending_change_request | rejected.

Record QuorumEvaluation : Type := {
  q_ok : bool; q_reason : QuorumReason; countedDecisionMemberships : list string }.

Definition refused (r : QuorumReason) : QuorumEvaluation := {|
  q_ok := false; q_reason := r; countedDecisionMemberships := [] |}.

(** The memberships of the approvals that count, each once. *)
Definition counted_approvals (decisions : list BoundReviewDecision) (p : ReviewPolicyDocument)
  (publisher : option string) : list string :=
  (map_of d_membershipId (λ d, d)
     (bfilter (λ d, bool_decide (decision d = approve)
                    && (publisher_may_count_as_reviewer p
                        || negb (bool_decide (Some (d_membershipId d) = publisher)))) decisions)).*1.

Definition evaluateQuorum (decisions : list BoundReviewDecision) (p : ReviewPolicyDocument)
  (proposer publisher : option string) : QuorumEvaluation :=
  if existsb (λ d, bool_decide (decision d = reject)) decisions then refused rejected
  else if existsb (λ d, bool_decide (decision d = request_changes)) decisions then refused pending_change_request
  else
    let counted := counted_approvals decisions p publisher in
    let independent := existsb (λ m, negb (bool_decide (Some m = proposer))) counted in
    if require_independent_reviewer p && negb independent then refused missing_independent_reviewer
    else if bool_decide (proposer = publisher) && negb (allow_self_publish p)
            && forallb (λ m, bool_decide (Some m = proposer)) counted
    then refused missing_independent_reviewer
    else if len counted <? minimum_approvals p
    then {| q_ok := false; q_reason := insufficient_approvals; countedDecisionMemberships := counted |}
    else {| q_ok := true; q_reason := quorum_ok; countedDecisionMemberships := counted |}.
