(* ===== verification/ReviewPolicySpec.v ===== *)
(** * ReviewPolicySpec: no memory is shared without the review it needs.

    [at_least] orders documents by strictness; [resolveEffectivePolicy] is its
    join.  The policy in force is at least as strict as every layer and as the
    floor of the code, whatever is stored, and a quorum under it means enough
    distinct entitled people agreed, one of them independent. *)

From S2P Require Import Prelude JsValue JsMap ReviewPolicy.

#[local] Open Scope Z_scope.

(** ** Strictness *)

(** [q] is at least as strict as [p]. *)
Definition at_least (p q : ReviewPolicyDocument) : Prop :=
  minimum_approvals p ≤ minimum_approvals q
  ∧ (require_independent_reviewer p = true → require_independent_reviewer q = true)
  ∧ (require_publisher p = true → require_publisher q = true)
  ∧ (publisher_may_count_as_reviewer q = true → publisher_may_count_as_reviewer p = true)
  ∧ (allow_self_publish q = true → allow_self_publish p = true)
  ∧ candidate_ttl_days q ≤ candidate_ttl_days p
  ∧ max_shared_evidence q ≤ max_shared_evidence p
  ∧ retention_days_after_revoke p ≤ retention_days_after_revoke q
  ∧ (allow_parallel_conflicts q = true → allow_parallel_conflicts p = true).

#[global] Instance at_least_preorder : PreOrder at_least.
Proof.
  split.
  - intros p. unfold at_least. by split_and!.
  - intros p q r. unfold at_least. intros. destruct_and!. split_and!; auto; lia.
Qed.

#[global] Instance at_least_antisym : AntiSymm (=) at_least.
Proof.
  intros p q. unfold at_least. intros. destruct_and!. destruct p as [a1 b1 c1 d1 e1 f1 g1 h1 i1],
    q as [a2 b2 c2 d2 e2 f2 g2 h2 i2]; simpl in *.
  f_equal; try lia; apply eq_true_iff_eq; by split.
Qed.

(** The join of two layers: the least document at least as strict as both. *)
Lemma resolve_lub p c r : allow_self_publish r = false →
  at_least (resolveEffectivePolicy p c) r ↔ at_least p r ∧ at_least c r.
Proof.
  intros Hs. unfold at_least. simpl. rewrite Hs, !orb_true_iff, !andb_true_iff. split.
  - intros. destruct_and!. split; split_and!; try lia; naive_solver.
  - intros [? ?]. destruct_and!. split_and!; try lia; naive_solver.
Qed.

Lemma resolve_upper p c : at_least p (resolveEffectivePolicy p c) ∧ at_least c (resolveEffectivePolicy p c).
Proof. by apply resolve_lub. Qed.

(** ** Valid documents *)

Definition valid_policy (d : ReviewPolicyDocument) : Prop :=
  1 ≤ minimum_approvals d ≤ 10 ∧ 1 ≤ candidate_ttl_days d ≤ 365 ∧ 1 ≤ max_shared_evidence d ≤ 8
  ∧ 1 ≤ retention_days_after_revoke d ≤ 3650
  ∧ require_independent_reviewer d = true ∧ require_publisher d = true ∧ allow_self_publish d = false.

Lemma bounded_entry_Some fields k lo hi z : bounded_entry fields k lo hi = Some z → lo ≤ z ≤ hi.
Proof.
  unfold bounded_entry. destruct (lookup_field k fields); try done.
  destruct (_ || _) eqn:E; [done|]. intros H. simplify_eq. bool_hyps. lia.
Qed.

Lemma parse_valid v d : parseReviewPolicyDocument v = Some d → valid_policy d.
Proof.
  unfold parseReviewPolicyDocument. destruct v as [| | | | | | |fields]; try done.
  destruct (_ || _); [done|]. destruct (negb _); [done|]. intros H.
  repeat match type of H with
  | mbind _ ?o = Some _ => let E := fresh "E" in destruct o eqn:E; [simpl in H|done]
  end.
  destruct (lookup_field "allow_self_publish" fields) as [| |[]| | | | |]; try done.
  destruct (negb _ || _) eqn:Ef; [done|]. simplify_eq. bool_hyps.
  repeat match goal with E : bounded_entry _ _ _ _ = Some _ |- _ => apply bounded_entry_Some in E end.
  unfold valid_policy. simpl. by split_and!; try lia.
Qed.

(** Storing a valid document and parsing it back. *)
Lemma parse_stored d : valid_policy d → parseReviewPolicyDocument (document_json d) = Some d.
Proof.
  intros (? & ? & ? & ? & Hi & Hp & Hs). destruct d as [a b c e f g h i j]; simpl in *. subst.
  unfold parseReviewPolicyDocument, bounded_entry. simpl.
  repeat (rewrite (proj2 (Z.ltb_ge _ _)) by lia; simpl). done.
Qed.

Lemma resolve_valid p c : valid_policy p → valid_policy c → valid_policy (resolveEffectivePolicy p c).
Proof.
  unfold valid_policy. simpl. intros (? & ? & ? & ? & -> & -> & _) (? & ? & ? & ? & _). simpl.
  by split_and!; try lia.
Qed.

Lemma default_valid k : valid_policy (default_policy k).
Proof. destruct k; unfold valid_policy; simpl; by split_and!; try lia. Qed.

(** ** The policy in force *)

Section snapshots.
Context (sha256hex : string → string).

Lemma read_head_valid inst st v d : readPolicyHead inst st = Returns (Some (v, d)) →
  valid_policy d ∧ ∃ h pv, installation_head st inst = Some h ∧ active_version_id h = v
    ∧ version_of st v = Some pv ∧ parseReviewPolicyDocument (version_document pv) = Some d.
Proof.
  unfold readPolicyHead. destruct (installation_head st inst) as [h|] eqn:Eh; simpl; [|done].
  destruct (version_of st (active_version_id h)) as [pv|] eqn:Ev; simpl; [|done].
  destruct (parseReviewPolicyDocument _) eqn:Ep; [|done]. intros H. simplify_eq.
  split; [by eapply parse_valid|]. by exists h, pv.
Qed.

(** What the snapshot of an installation was computed from. *)
Inductive snapshot_of (inst : string) (st : PolicyTables) (s : EffectiveReviewPolicySnapshot) : Prop :=
| SnapshotPlain d :
    readPolicyHead inst st = Returns (Some (activeVersionId s, d)) →
    policy s = resolveEffectivePolicy (default_policy (scopeKind s)) d → snapshot_of inst st s
| SnapshotLayered d floor :
    scopeKind s = TeamScope → readPolicyHead inst st = Returns (Some (activeVersionId s, d)) →
    at_least DEFAULT_ORGANIZATION_REVIEW_POLICY floor → valid_policy floor →
    policy s = resolveEffectivePolicy floor (resolveEffectivePolicy DEFAULT_TEAM_REVIEW_POLICY d) →
    snapshot_of inst st s.

Definition has_organization (inst : string) (st : PolicyTables) : bool :=
  match first_row (λ s, bool_decide (scope_installation_id s = inst)) (owner_scopes st) with
  | Some row => bool_decide (owner_scope_kind row = "organization")
                || match parent_organization_id row with Some _ => true | None => false end
  | None => false
  end.

Lemma load_shape ensure inst st st' s :
  loadEffectiveReviewPolicySnapshot sha256hex ensure inst st = Returns (st', s) →
  snapshot_of inst st' s ∧ (has_organization inst st = true → at_least DEFAULT_ORGANIZATION_REVIEW_POLICY (policy s)).
Proof.
  unfold loadEffectiveReviewPolicySnapshot, has_organization.
  destruct (first_row _ _) as [row|]; [|done]. destruct (alive st row); [|done].
  destruct (scope_kind (owner_scope_kind row)) as [kind|] eqn:Ek; [|done].
  destruct (parent_installation st kind row) as [pi|]; [|done].
  destruct (match pi with Some p => _ | None => Returns st end) as [st1|]; [|done].
  destruct (match pi with Some p => _ | None => Returns None end) as [parent|] eqn:Ep; [|done].
  destruct (ensure_head _ _ _ _ st1) as [st2|]; [|done].
  destruct (readPolicyHead inst st2) as [[[v d]|]|] eqn:Et; try done. intros H. simplify_eq.
  set (floor := match parent with Some _ => _ | None => _ end).
  assert (Hfloor : at_least DEFAULT_ORGANIZATION_REVIEW_POLICY floor ∧ valid_policy floor).
  { unfold floor. destruct parent as [[pv pd]|]; [|split; [done|apply (default_valid OrganizationScope)]].
    destruct pi as [p|]; [|done]. apply read_head_valid in Ep as [Hv _].
    split; [apply resolve_upper|]. by apply resolve_valid; [apply (default_valid OrganizationScope)|]. }
  destruct Hfloor as [Hf Hv]. destruct kind, (parent_organization_id row) as [org|] eqn:Eorg; simpl.
  - split; [by eapply SnapshotLayered|]. intros _. etransitivity; [exact Hf|]. apply resolve_upper.
  - split; [by eapply SnapshotPlain|]. intros Ho. exfalso. unfold scope_kind in Ek. rewrite orb_false_r in Ho.
    bool_hyps. by rewrite Ho in Ek.
  - split; [by eapply SnapshotPlain|]. intros _. apply resolve_upper.
  - split; [by eapply SnapshotPlain|]. intros _. apply resolve_upper.
Qed.

(** The snapshot is valid and at least as strict as the active document. *)
Lemma snapshot_strict inst st s : snapshot_of inst st s →
  valid_policy (policy s) ∧ ∃ d, readPolicyHead inst st = Returns (Some (activeVersionId s, d))
    ∧ at_least d (policy s) ∧ at_least (default_policy (scopeKind s)) (policy s).
Proof.
  intros [d Hr ->|d floor Hk Hr Hf Hv ->]; pose proof (read_head_valid _ _ _ _ Hr) as [Hd _].
  - split; [apply resolve_valid; [apply default_valid|done]|]. exists d. split; [done|].
    destruct (resolve_upper (default_policy (scopeKind s)) d). done.
  - assert (valid_policy (resolveEffectivePolicy DEFAULT_TEAM_REVIEW_POLICY d))
      by (apply resolve_valid; [apply (default_valid TeamScope)|done]).
    split; [by apply resolve_valid|]. exists d. split; [done|]. rewrite Hk. simpl.
    destruct (resolve_upper floor (resolveEffectivePolicy DEFAULT_TEAM_REVIEW_POLICY d)) as [_ Hu].
    destruct (resolve_upper DEFAULT_TEAM_REVIEW_POLICY d). split; by etransitivity.
Qed.
End snapshots.

(** ** Quorum *)

(** A decision of a member who is entitled now, at the revision it was made. *)
Definition entitled (ms : list CurrentMembershipFact) (d : BoundReviewDecision) : Prop :=
  ∃ m, m ∈ ms ∧ membershipId m = d_membershipId d ∧ m_state m = "active" ∧ can_review m = true
  ∧ membershipRevision m = d_membershipRevision d.

Lemma current_entitled ds ms d : d ∈ currentReviewDecisions ds ms → d ∈ ds ∧ entitled ms d.
Proof.
  unfold currentReviewDecisions. intros Hd. apply elem_of_bfilter in Hd as [Hm Hd]. split; [done|].
  destruct (map_get _ _) as [m|] eqn:E; [|done]. bool_hyps.
  apply map_get_Some_elem in E. apply map_of_elem in E as (m' & Hin & Hk & ->). by exists m'.
Qed.

Lemma counted_elem ds p pub m : m ∈ counted_approvals ds p pub →
  ∃ d, d ∈ ds ∧ decision d = approve ∧ d_membershipId d = m.
Proof.
  unfold counted_approvals. intros Hm. apply list_elem_of_fmap in Hm as ([k d] & -> & Hd).
  apply map_of_elem in Hd as (x & Hx & -> & ->). apply elem_of_bfilter in Hx as [Hb Hx]. bool_hyps. by exists x.
Qed.

Lemma counted_nodup ds p pub : NoDup (counted_approvals ds p pub).
Proof. apply map_of_ok. Qed.

Lemma quorum_parts ds p proposer publisher :
  q_ok (evaluateQuorum ds p proposer publisher) = true →
  let counted := countedDecisionMemberships (evaluateQuorum ds p proposer publisher) in
  counted = counted_approvals ds p publisher ∧ minimum_approvals p ≤ len counted
  ∧ (require_independent_reviewer p = true → ∃ m, m ∈ counted ∧ Some m ≠ proposer)
  ∧ ∀ d, d ∈ ds → decision d = approve.
Proof.
  unfold evaluateQuorum. destruct (existsb _ ds) eqn:Er; [done|].
  destruct (existsb (λ d, bool_decide (decision d = request_changes)) ds) eqn:Ec; [done|].
  destruct (require_independent_reviewer p && _) eqn:Ei; [done|]. destruct (_ && _ && _); [done|].
  destruct (_ <? _) eqn:El; [done|]. simpl. intros _. bool_hyps. split_and!; [done|done| |].
  - intros Hi. rewrite Hi in Ei. simpl in Ei. apply negb_false_iff, existsb_exists in Ei as (m & Hm & Hn).
    exists m. split; [by apply list_elem_of_In|]. by bool_hyps.
  - intros d Hd. pose proof (existsb_none _ _ _ Er Hd). pose proof (existsb_none _ _ _ Ec Hd). simpl in *. bool_hyps.
    by destruct (decision d).
Qed.

(** C21: When the quorum of a publication is met under the policy in force, the
    counted approvals are of distinct people, at least as many as the active
    document asks for, at least two for an organization or a team that belongs
    to one; one of them is not the proposer; each is an approval by a member who
    is active and may review at the very revision of the membership at which it
    was given; and nobody entitled asked for changes or rejected. *)
Theorem shared_only_after_review sha256hex ensure inst st st' s ds ms proposer publisher :
  loadEffectiveReviewPolicySnapshot sha256hex ensure inst st = Returns (st', s) →
  let q := evaluateQuorum (currentReviewDecisions ds ms) (policy s) proposer publisher in
  let counted := countedDecisionMemberships q in
  q_ok q = true →
  NoDup counted
  ∧ (∃ d, readPolicyHead inst st' = Returns (Some (activeVersionId s, d)) ∧ minimum_approvals d ≤ len counted)
  ∧ (has_organization inst st = true → 2 ≤ len counted)
  ∧ (∃ m, m ∈ counted ∧ Some m ≠ proposer)
  ∧ (∀ m, m ∈ counted → ∃ d, d ∈ ds ∧ decision d = approve ∧ d_membershipId d = m ∧ entitled ms d)
  ∧ (∀ d, d ∈ currentReviewDecisions ds ms → decision d = approve).
Proof.
  intros Hload q counted Hq. destruct (load_shape _ _ _ _ _ _ Hload) as [Hs Horg].
  destruct (snapshot_strict _ _ _ Hs) as [(_ & _ & _ & _ & Hind & _) (d & Hd & Hat & _)].
  destruct (quorum_parts _ _ _ _ Hq) as (Hc & Hmin & Hi & Hall). fold q in Hc, Hmin, Hi. fold counted in Hc, Hmin, Hi.
  split_and!.
  - rewrite Hc. apply counted_nodup.
  - exists d. split; [done|]. destruct Hat as [Hm _]. lia.
  - intros Ho. destruct (Horg Ho) as [Hm _]. simpl in Hm. lia.
  - by apply Hi.
  - intros m Hm. rewrite Hc in Hm. apply counted_elem in Hm as (x & Hx & Ha & Hid).
    apply current_entitled in Hx as [Hx He]. by exists x.
  - done.
Qed.

(** ** Histories of the policy store *)

Inductive PolicyOp : Type :=
| PEnsure (policyUuid versionUuid inst : string) (k : ScopeKind)
| PPublish (uuid inst : string) (input : jsval) (by_ : option string) (expected : Z)
| PRollback (inst target : string) (expected : Z)
| PLoad (ensure : option ((string * string) * (string * string))) (inst : string).

(** The tables, and the changes that moved a head, in order: the policy, and the
    revision the caller based the change on. *)
Record PolicyWorld : Type := { pw_tables : PolicyTables; pw_moves : list (string * Z) }.

Definition moved (inst : string) (expected : Z) (st : PolicyTables) : list (string * Z) :=
  match installation_head st inst with Some h => [(head_policy_id h, expected)] | None => [] end.

Section store.
Context (sha256hex : string → string).

Definition policy_step (w : PolicyWorld) (o : PolicyOp) : PolicyWorld :=
  let st := pw_tables w in
  match o with
  | PEnsure p v inst k =>
      match ensurePolicySet sha256hex p v inst (default_policy k) st with
      | Returns (st', _) => {| pw_tables := st'; pw_moves := pw_moves w |}
      | Throws _ => w
      end
  | PPublish uuid inst input by_ expected =>
      match publishVersion sha256hex uuid inst input by_ expected st with
      | Returns (st', _) => {| pw_tables := st'; pw_moves := pw_moves w ++ moved inst expected st |}
      | Throws _ => w
      end
  | PRollback inst target expected =>
      match rollback inst target expected st with
      | Returns (st', _) => {| pw_tables := st'; pw_moves := pw_moves w ++ moved inst expected st |}
      | Throws _ => w
      end
  | PLoad ensure inst =>
      match loadEffectiveReviewPolicySnapshot sha256hex ensure inst st with
      | Returns (st', _) => {| pw_tables := st'; pw_moves := pw_moves w |}
      | Throws _ => w
      end
  end.

Definition run_policies (w : PolicyWorld) (l : list PolicyOp) : PolicyWorld := fold_left policy_step l w.

(** Scopes without any policy. *)
Definition no_policies (scopes : list OwnerScope) (tombs : list ScopeTombstone) : PolicyWorld := {|
  pw_tables := {| policy_sets := []; policy_versions := []; policy_heads := []; owner_scopes := scopes;
                  scope_tombstones := tombs |};
  pw_moves := [] |}.

Definition versions_of (policy : string) (st : PolicyTables) : list PolicyVersion :=
  bfilter (λ v, bool_decide (version_policy_id v = policy)) (policy_versions st).

(** The revisions the changes of a policy were based on. *)
Definition changes_of (policy : string) (moves : list (string * Z)) : list Z :=
  map snd (bfilter (λ m, bool_decide (m.1 = policy)) moves).

Definition moves_of (policy : string) (moves : list (string * Z)) : Z := len (changes_of policy moves).

(** A stored version: a valid document with its digest. *)
Definition version_ok (v : PolicyVersion) : Prop :=
  ∃ d, valid_policy d ∧ version_document v = document_json d
  ∧ content_hash v = canonicalReviewPolicyHash sha256hex d.

Definition store_ok (st : PolicyTables) (moves : list (string * Z)) : Prop :=
  NoDup (map policy_version_id (policy_versions st))
  ∧ (∀ policy, map version_number (versions_of policy st) = seqZ 1 (len (versions_of policy st)))
  ∧ (∀ v, v ∈ policy_versions st → version_ok v)
  ∧ NoDup (map head_policy_id (policy_heads st))
  ∧ (∀ h, h ∈ policy_heads st → active_version_id h ∈ map policy_version_id (policy_versions st)
      ∧ head_revision h = 1 + moves_of (head_policy_id h) moves)
  ∧ (∀ p, p ∈ moves.*1 ++ map version_policy_id (policy_versions st) → p ∈ map head_policy_id (policy_heads st))
  ∧ (∀ policy, changes_of policy moves = seqZ 1 (moves_of policy moves)).

(** What a step does to versions, heads and moves. *)
Inductive store_step (st st' : PolicyTables) : list (string * Z) → Prop :=
| StoreSame : policy_versions st' = policy_versions st → policy_heads st' = policy_heads st → store_step st st' []
| StoreFirst policy uuid d :
    policy_head st policy = None → uuid ∉ map policy_version_id (policy_versions st) → valid_policy d →
    policy_versions st' = policy_versions st ++ [{| policy_version_id := uuid; version_policy_id := policy;
      version_number := 1; version_document := document_json d;
      content_hash := canonicalReviewPolicyHash sha256hex d; created_by_membership_id := None |}] →
    policy_heads st' = policy_heads st ++ [{| head_policy_id := policy; active_version_id := uuid;
                                              head_revision := 1 |}] →
    store_step st st' []
| StoreMove policy target expected extra :
    policy ∈ map head_policy_id (policy_heads st) →
    target ∈ map policy_version_id (policy_versions st ++ extra) →
    cas_head policy target expected (policy_heads st) = Some (policy_heads st') →
    policy_versions st' = policy_versions st ++ extra →
    extra = [] ∨ (∃ d by_, target ∉ map policy_version_id (policy_versions st) ∧ valid_policy d ∧
      extra = [{| policy_version_id := target; version_policy_id := policy; version_number := next_number st policy;
                  version_document := document_json d; content_hash := canonicalReviewPolicyHash sha256hex d;
                  created_by_membership_id := by_ |}]) →
    store_step st st' [(policy, expected)].

Lemma not_in_map {A} (f : A → string) x l : existsb (λ v, bool_decide (f v = x)) l = false → x ∉ map f l.
Proof.
  intros H Hin. apply list_elem_of_fmap in Hin as (v & -> & Hv).
  pose proof (existsb_none _ _ _ H Hv) as E. simpl in E. by bool_hyps.
Qed.

Lemma ensure_step p v inst d st st' : valid_policy d →
  ensurePolicyHead sha256hex p v inst d st = Returns st' → store_step st st' [].
Proof.
  intros Hd. unfold ensurePolicyHead. destruct (installation_head st inst); [intros; simplify_eq; by constructor|].
  destruct (insert_set _ _ _) as [sets|]; [|done]. destruct (first_row _ _) as [s|]; [|done].
  destruct (policy_head st _) eqn:Eh; [intros; simplify_eq; by constructor|].
  destruct (_ || _) eqn:Ed; [done|]. intros H. simplify_eq. apply orb_false_iff in Ed as [Ed _].
  eapply StoreFirst; [done|by eapply not_in_map|done|done|done].
Qed.

Lemma head_in st inst h : installation_head st inst = Some h → h ∈ policy_heads st.
Proof.
  unfold installation_head. destruct (set_of st inst) as [s|]; simpl; [|done].
  unfold policy_head, first_row. destruct (bfilter _ _) as [|x l] eqn:E; [done|]. intros H. simplify_eq/=.
  assert (Hin : h ∈ h :: l) by (by left). rewrite <- E in Hin. by apply elem_of_bfilter in Hin as [_ ?].
Qed.

Lemma publish_store uuid inst input by_ expected st st' r :
  publishVersion sha256hex uuid inst input by_ expected st = Returns (st', r) → store_step st st' (moved inst expected st).
Proof.
  unfold publishVersion, moved. destruct (parseReviewPolicyDocument input) as [d|] eqn:Ep; [|done].
  destruct (installation_head st inst) as [h|] eqn:Eh; [|done]. destruct (negb _); [done|].
  destruct (existsb _ _) eqn:Ed; [done|]. destruct (cas_head _ _ _ _) as [heads|] eqn:Ec; [|done].
  intros H. simplify_eq. eapply (StoreMove _ _ _ uuid expected); [| |exact Ec|reflexivity|].
  - apply list_elem_of_fmap_2. by eapply head_in.
  - rewrite map_app. apply elem_of_app. right. simpl. by left.
  - right. exists d, by_. split_and!; [by eapply not_in_map|by eapply parse_valid|done].
Qed.

Lemma rollback_step inst target expected st st' r :
  rollback inst target expected st = Returns (st', r) → store_step st st' (moved inst expected st).
Proof.
  unfold rollback, moved. destruct (installation_head st inst) as [h|] eqn:Eh; [|done].
  destruct (cas_head _ _ _ _) as [heads|] eqn:Ec; [|done]. destruct (negb _) eqn:Ex; [done|].
  intros H. simplify_eq. apply negb_false_iff, existsb_exists in Ex as (v & Hv & Hid). bool_hyps.
  eapply (StoreMove _ _ _ target expected []).
  - apply list_elem_of_fmap_2. by eapply head_in.
  - rewrite app_nil_r, <- Hid. apply list_elem_of_fmap_2. by apply list_elem_of_In.
  - done.
  - simpl. by rewrite app_nil_r.
  - by left.
Qed.
Lemma ensure_head_step ensure inst k st st' :
  ensure_head sha256hex ensure inst (default_policy k) st = Returns st' → store_step st st' [].
Proof.
  unfold ensure_head. destruct ensure as [[p v]|]; [|intros; simplify_eq; by constructor].
  apply ensure_step, default_valid.
Qed.

Lemma load_step ensure inst st st' s :
  loadEffectiveReviewPolicySnapshot sha256hex ensure inst st = Returns (st', s) →
  ∃ st1, store_step st st1 [] ∧ store_step st1 st' [].
Proof.
  unfold loadEffectiveReviewPolicySnapshot. destruct (first_row _ _) as [row|]; [|done].
  destruct (alive st row); [|done]. destruct (scope_kind _) as [kind|]; [|done].
  destruct (parent_installation st kind row) as [pi|]; [|done].
  destruct (match pi with Some p => _ | None => Returns st end) as [st1|] eqn:E1; [|done].
  destruct (match pi with Some p => _ | None => Returns None end) as [parent|]; [|done].
  destruct (ensure_head _ _ inst _ st1) as [st2|] eqn:E2; [|done].
  destruct (readPolicyHead inst st2) as [[[v d]|]|]; try done. intros H. simplify_eq.
  exists st1. split; [|by eapply ensure_head_step].
  destruct pi as [p|]; [by apply (ensure_head_step _ _ OrganizationScope) in E1|]. simplify_eq. by constructor.
Qed.

(** ** Preservation *)

Lemma cas_head_ids policy target expected heads heads' :
  cas_head policy target expected heads = Some heads' → map head_policy_id heads' = map head_policy_id heads.
Proof.
  unfold cas_head. destruct (existsb _ _); [|done]. intros H. simplify_eq. rewrite map_map. apply map_ext.
  intros h. by destruct (_ && _).
Qed.

Lemma moves_of_app policy l k : moves_of policy (l ++ k) = moves_of policy l + moves_of policy k.
Proof. unfold moves_of, changes_of. by rewrite bfilter_app, map_app, len_app. Qed.

Lemma moves_of_one policy p r : moves_of policy [(p, r)] = if bool_decide (p = policy) then 1 else 0.
Proof. unfold moves_of, changes_of. simpl. by destruct (bool_decide _). Qed.

(** A change is based on the revision of the head, which counts the changes. *)
Lemma changes_snoc st st' moves policy target expected :
  (∀ h, h ∈ policy_heads st → head_revision h = 1 + moves_of (head_policy_id h) moves) →
  (∀ policy, changes_of policy moves = seqZ 1 (moves_of policy moves)) →
  cas_head policy target expected (policy_heads st) = Some st' →
  ∀ p, changes_of p (moves ++ [(policy, expected)]) = seqZ 1 (moves_of p (moves ++ [(policy, expected)])).
Proof.
  intros Hrev Hch Hcas p. unfold cas_head in Hcas. destruct (existsb _ _) eqn:E; [|done]. clear Hcas.
  apply existsb_exists in E as (h & Hh%list_elem_of_In & Eh). bool_hyps. rewrite moves_of_app, moves_of_one.
  unfold changes_of. rewrite bfilter_app, map_app. fold (changes_of p moves). rewrite Hch. simpl.
  case_bool_decide as Ep; simpl; [|by rewrite app_nil_r, Z.add_0_r].
  rewrite seqZ_app by (unfold moves_of; lia). f_equal. rewrite seqZ_cons by lia. simpl. f_equal.
  pose proof (Hrev h Hh). congruence || (subst; lia).
Qed.

Lemma max_seqZ n m : 0 ≤ n → 0 ≤ m → foldr Z.max 0 (seqZ m n) = if n =? 0 then 0 else m + n - 1.
Proof.
  intros Hn. revert m. pattern n. apply natlike_ind; [done| |done]. clear n Hn. intros n Hn IH m Hm.
  rewrite seqZ_cons by lia. simpl. rewrite Z.pred_succ, IH by lia.
  destruct (Z.eqb_spec n 0), (Z.eqb_spec (Z.succ n) 0); lia.
Qed.

Lemma next_number_len st policy :
  map version_number (versions_of policy st) = seqZ 1 (len (versions_of policy st)) →
  next_number st policy = len (versions_of policy st) + 1.
Proof.
  intros H. unfold next_number. fold (versions_of policy st). rewrite H, max_seqZ by lia.
  destruct (Z.eqb_spec (len (versions_of policy st)) 0); lia.
Qed.

(** Appending the next version of a policy keeps every numbering. *)
Lemma numbers_snoc st st' v :
  (∀ policy, map version_number (versions_of policy st) = seqZ 1 (len (versions_of policy st))) →
  policy_versions st' = policy_versions st ++ [v] →
  version_number v = len (versions_of (version_policy_id v) st) + 1 →
  ∀ policy, map version_number (versions_of policy st') = seqZ 1 (len (versions_of policy st')).
Proof.
  intros Hn Hv Hnum policy. unfold versions_of. rewrite Hv, bfilter_app. simpl. fold (versions_of policy st).
  case_bool_decide as E; [|by rewrite app_nil_r]. rewrite map_app, len_app, seqZ_app, Hn by (simpl; lia).
  f_equal. simpl. rewrite seqZ_cons by lia. simpl. f_equal. rewrite E in Hnum. lia.
Qed.

Lemma moved_head policy target expected st heads' moves h :
  cas_head policy target expected (policy_heads st) = Some heads' →
  NoDup (map head_policy_id (policy_heads st)) → policy ∈ map head_policy_id (policy_heads st) →
  (∀ h, h ∈ policy_heads st → head_revision h = 1 + moves_of (head_policy_id h) moves) → h ∈ heads' →
  (active_version_id h = target ∨ ∃ h0, h0 ∈ policy_heads st ∧ active_version_id h = active_version_id h0)
  ∧ head_revision h = 1 + moves_of (head_policy_id h) (moves ++ [(policy, expected)]).
Proof.
  unfold cas_head. destruct (existsb _ _) eqn:E; [|done]. intros H Hnd Hin Hrev Hh. simplify_eq.
  apply existsb_exists in E as (h1 & Hh1 & E1). apply list_elem_of_In in Hh1. bool_hyps.
  apply list_elem_of_fmap in Hh as (h0 & -> & Hh0). rewrite moves_of_app, moves_of_one.
  destruct (bool_decide (head_policy_id h0 = policy) && _) eqn:E0; simpl.
  - bool_hyps. rewrite bool_decide_true by done. split; [by left|]. rewrite (Hrev h0 Hh0). lia.
  - split; [right; by exists h0|]. rewrite bool_decide_false; [rewrite (Hrev h0 Hh0); lia|].
    intros Heq. rewrite Heq, bool_decide_true in E0 by done. simpl in E0.
    assert (h1 = h0) as ->.
    { apply list_elem_of_lookup in Hh1 as [i Hi]. apply list_elem_of_lookup in Hh0 as [j Hj].
      assert (i = j) as ->; [|congruence]. apply (NoDup_lookup (map head_policy_id (policy_heads st)) i j policy);
      [done|by rewrite list_lookup_fmap, Hi, <- H|by rewrite list_lookup_fmap, Hj, Heq]. }
    by bool_hyps.
Qed.
Lemma no_head st policy : policy_head st policy = None → policy ∉ map head_policy_id (policy_heads st).
Proof.
  unfold policy_head, first_row. destruct (bfilter _ _) eqn:E; [|done]. intros _ Hin.
  apply list_elem_of_fmap in Hin as (h & -> & Hh). pose proof (bfilter_none _ _ _ E Hh) as Hf. simpl in Hf. by bool_hyps.
Qed.

Lemma nodup_snoc {A} (l : list A) x : NoDup l → x ∉ l → NoDup (l ++ [x]).
Proof.
  intros Hl Hx. apply NoDup_app. split_and!; [done| |apply NoDup_singleton].
  intros y Hy Hin. apply list_elem_of_singleton in Hin as ->. done.
Qed.

Lemma first_ok st st' moves policy uuid d :
  store_ok st moves → policy_head st policy = None → uuid ∉ map policy_version_id (policy_versions st) →
  valid_policy d →
  policy_versions st' = policy_versions st ++ [{| policy_version_id := uuid; version_policy_id := policy;
    version_number := 1; version_document := document_json d;
    content_hash := canonicalReviewPolicyHash sha256hex d; created_by_membership_id := None |}] →
  policy_heads st' = policy_heads st ++ [{| head_policy_id := policy; active_version_id := uuid; head_revision := 1 |}] →
  store_ok st' moves.
Proof.
  intros (Hid & Hnum & Hver & Hhd & Hact & Hown & Hch) Hno Hfresh Hd Hv Hh. apply no_head in Hno.
  assert (Hempty : versions_of policy st = []).
  { apply bfilter_false. intros v Hin. apply bool_decide_eq_false. intros E. apply Hno. apply Hown.
    apply elem_of_app. right. rewrite <- E. by apply list_elem_of_fmap_2. }
  assert (Hmoves : moves_of policy moves = 0).
  { unfold moves_of, changes_of. rewrite bfilter_false; [done|]. intros p Hp. apply bool_decide_eq_false. intros <-.
    apply Hno, Hown, elem_of_app. left. by apply list_elem_of_fmap_2. }
  split_and!.
  - rewrite Hv, map_app. by apply nodup_snoc.
  - eapply numbers_snoc; [done..|]. simpl. by rewrite Hempty.
  - intros v Hin. rewrite Hv in Hin. apply elem_of_app in Hin as [Hin|Hin]; [by apply Hver|].
    apply list_elem_of_singleton in Hin as ->. by exists d.
  - rewrite Hh, map_app. by apply nodup_snoc.
  - intros h Hin. rewrite Hv, map_app. rewrite Hh in Hin. apply elem_of_app in Hin as [Hin|Hin].
    + destruct (Hact h Hin). split; [|done]. apply elem_of_app. by left.
    + apply list_elem_of_singleton in Hin as ->. simpl. rewrite Hmoves. split; [|done].
      apply elem_of_app. right. by left.
  - intros p Hp. rewrite Hh, map_app, elem_of_app. rewrite Hv, map_app, app_assoc, elem_of_app in Hp.
    destruct Hp as [Hp|Hp]; [left; by apply Hown|right]. by simpl in *.
  - done.
Qed.

Lemma move_ok st st' moves policy target expected extra :
  store_ok st moves → policy ∈ map head_policy_id (policy_heads st) →
  target ∈ map policy_version_id (policy_versions st ++ extra) →
  cas_head policy target expected (policy_heads st) = Some (policy_heads st') →
  policy_versions st' = policy_versions st ++ extra →
  extra = [] ∨ (∃ d by_, target ∉ map policy_version_id (policy_versions st) ∧ valid_policy d ∧
    extra = [{| policy_version_id := target; version_policy_id := policy; version_number := next_number st policy;
                version_document := document_json d; content_hash := canonicalReviewPolicyHash sha256hex d;
                created_by_membership_id := by_ |}]) →
  store_ok st' (moves ++ [(policy, expected)]).
Proof.
  intros (Hid & Hnum & Hver & Hhd & Hact & Hown & Hch) Hp Ht Hcas Hv Hx.
  pose proof (cas_head_ids _ _ _ _ _ Hcas) as Hids.
  assert (Hextra : ∀ v, v ∈ extra → version_ok v ∧ version_policy_id v = policy).
  { destruct Hx as [->|(d & by_ & _ & Hd & ->)]; [set_solver|]. intros v Hin.
    apply list_elem_of_singleton in Hin as ->. split; [by exists d|done]. }
  split_and!.
  - rewrite Hv, map_app. destruct Hx as [->|(d & by_ & Hf & _ & ->)]; simpl; [by rewrite app_nil_r|by apply nodup_snoc].
  - destruct Hx as [->|(d & by_ & _ & _ & ->)].
    + unfold versions_of. rewrite Hv, app_nil_r. exact Hnum.
    + eapply numbers_snoc; [done..|]. simpl. by apply next_number_len.
  - intros v Hin. rewrite Hv in Hin. apply elem_of_app in Hin as [Hin|Hin]; [by apply Hver|by apply Hextra].
  - by rewrite Hids.
  - intros h Hin. destruct (moved_head _ _ _ _ _ moves h Hcas Hhd Hp (λ h Hh, proj2 (Hact h Hh)) Hin) as [Ha Hr].
    split; [|done]. rewrite Hv. destruct Ha as [->|(h0 & Hh0 & ->)]; [done|].
    rewrite map_app, elem_of_app. left. by apply Hact.
  - intros p Hpin. rewrite Hids. apply elem_of_app in Hpin as [Hm|Hm].
    + rewrite fmap_app in Hm. apply elem_of_app in Hm as [Hm|Hm]; [apply Hown, elem_of_app; by left|].
      apply list_elem_of_singleton in Hm as ->. exact Hp.
    + rewrite Hv, map_app in Hm. apply elem_of_app in Hm as [Hm|Hm]; [apply Hown, elem_of_app; by right|].
      apply list_elem_of_fmap in Hm as (v & -> & Hin). by destruct (Hextra v Hin) as [_ ->].
  - by eapply changes_snoc; [intros h Hh; apply Hact| |exact Hcas].
Qed.

Lemma store_keeps st st' moves m : store_step st st' m → store_ok st moves → store_ok st' (moves ++ m).
Proof.
  intros [Hv Hh|policy uuid d ? ? ? ? ?|policy target expected extra ? ? ? ? ?] Hok.
  - rewrite app_nil_r. unfold store_ok, versions_of in *. by rewrite Hv, Hh.
  - rewrite app_nil_r. by eapply first_ok.
  - by eapply move_ok.
Qed.

Lemma store_step_prefix st st' m : store_step st st' m → policy_versions st `prefix_of` policy_versions st'.
Proof.
  intros [-> _|policy uuid d _ _ _ -> _|policy target expected extra _ _ _ -> _]; [done|by eexists..].
Qed.

Lemma policy_step_ok w o : store_ok (pw_tables w) (pw_moves w) →
  store_ok (pw_tables (policy_step w o)) (pw_moves (policy_step w o))
  ∧ policy_versions (pw_tables w) `prefix_of` policy_versions (pw_tables (policy_step w o)).
Proof.
  assert (Hone : ∀ st st' m moves, store_step st st' m → store_ok st moves →
    store_ok st' (moves ++ m) ∧ policy_versions st `prefix_of` policy_versions st').
  { intros st st' m moves Hs Hok. split; [by eapply store_keeps|by eapply store_step_prefix]. }
  intros Hok. destruct o as [p v inst k|uuid inst input by_ expected|inst target expected|ensure inst]; simpl.
  - unfold ensurePolicySet. destruct (ensurePolicyHead _ _ _ _ _ _) as [st1|] eqn:E; [|done].
    destruct (_ ← _; _) as [[h pv]|]; [|done]. simpl. rewrite <- (app_nil_r (pw_moves w)).
    apply (Hone (pw_tables w)); [|done]. eapply ensure_step; [|done]. apply default_valid.
  - destruct (publishVersion _ _ _ _ _ _ _) as [[st1 r]|] eqn:E; [|done]. apply (Hone (pw_tables w)); [|done].
    by eapply publish_store.
  - destruct (rollback _ _ _ _) as [[st1 r]|] eqn:E; [|done]. apply (Hone (pw_tables w)); [|done].
    by eapply rollback_step.
  - destruct (loadEffectiveReviewPolicySnapshot _ _ _ _) as [[st1 r]|] eqn:E; [|done].
    apply load_step in E as (stm & H1 & H2). simpl.
    destruct (Hone _ _ _ _ H1 Hok) as [Hm Hp1]. destruct (Hone _ _ _ _ H2 Hm) as [Hm2 Hp2].
    rewrite !app_nil_r in Hm2. split; [done|by etransitivity].
Qed.

Lemma run_policies_ok w l : store_ok (pw_tables w) (pw_moves w) →
  store_ok (pw_tables (run_policies w l)) (pw_moves (run_policies w l))
  ∧ policy_versions (pw_tables w) `prefix_of` policy_versions (pw_tables (run_policies w l)).
Proof.
  revert w. induction l as [|o l IH]; intros w Hok; [done|]. destruct (policy_step_ok w o Hok) as [H1 H2].
  destruct (IH (policy_step w o) H1) as [H3 H4]. split; [done|]. by etransitivity.
Qed.

Lemma changes_nodup moves :
  (∀ policy, changes_of policy moves = seqZ 1 (moves_of policy moves)) → NoDup moves.
Proof.
  intros H. apply NoDup_alt. intros i j [p r] Hi Hj. destruct (decide (i = j)) as [|Hne]; [done|]. exfalso.
  assert (Hnd : NoDup (changes_of p moves)) by (rewrite H; apply NoDup_seqZ). clear H.
  unfold changes_of in Hnd. apply NoDup_fmap_1 in Hnd. revert i j Hi Hj Hne Hnd.
  induction moves as [|m moves IH]; intros [|i] [|j] Hi Hj Hne Hnd; simplify_eq/=.
  - rewrite bool_decide_true in Hnd by done. apply NoDup_cons in Hnd as [Hn _]. apply Hn, elem_of_bfilter.
    split; [by apply bool_decide_eq_true|by eapply list_elem_of_lookup_2].
  - rewrite bool_decide_true in Hnd by done. apply NoDup_cons in Hnd as [Hn _]. apply Hn, elem_of_bfilter.
    split; [by apply bool_decide_eq_true|by eapply list_elem_of_lookup_2].
  - apply (IH i j); [done|done|lia|]. destruct (bool_decide (m.1 = p)); [by apply NoDup_cons in Hnd as [_ ?]|done].
Qed.

(** C22: Whatever administrators publish, roll back and race on, stored versions
    are never changed or removed and are numbered 1, 2, ... within their policy;
    each is a valid document with its own digest; every head names a stored
    version; and changes are compare-and-swap: the changes of a policy that
    succeeded were based on the revisions 1, 2, ... in this order, each on the
    one its predecessor left, so of any number of changes based on the same
    revision at most one ever succeeds. *)
Theorem policy_history scopes tombs l1 l2 :
  let w1 := run_policies (no_policies scopes tombs) l1 in
  let w2 := run_policies w1 l2 in
  policy_versions (pw_tables w1) `prefix_of` policy_versions (pw_tables w2)
  ∧ (∀ policy, map version_number (versions_of policy (pw_tables w2))
               = seqZ 1 (len (versions_of policy (pw_tables w2))))
  ∧ (∀ v, v ∈ policy_versions (pw_tables w2) → version_ok v)
  ∧ (∀ h, h ∈ policy_heads (pw_tables w2) →
       active_version_id h ∈ map policy_version_id (policy_versions (pw_tables w2))
       ∧ head_revision h = 1 + moves_of (head_policy_id h) (pw_moves w2))
  ∧ (∀ policy, changes_of policy (pw_moves w2) = seqZ 1 (moves_of policy (pw_moves w2)))
  ∧ NoDup (pw_moves w2)
  ∧ NoDup (map head_policy_id (policy_heads (pw_tables w2))).
Proof.
  intros w1 w2. assert (H0 : store_ok (pw_tables (no_policies scopes tombs)) []).
  { unfold store_ok, versions_of. simpl. split_and!; try constructor; set_solver. }
  destruct (run_policies_ok (no_policies scopes tombs) l1 H0) as [H1 _].
  destruct (run_policies_ok w1 l2 H1) as [(_ & Hn & Hv & Hd & Ha & _ & Hc) Hp].
  split_and!; try done. by apply changes_nodup.
Qed.
End store.

(** ** A run *)

(** A team of an organization: its document asks for one approval, the floor of
    the organization for two. *)
Module ReviewRun.
Definition digest (s : string) : string := s.
Definition scope (inst kind id : string) (parent : option string) : OwnerScope := {|
  scope_installation_id := inst; owner_scope_kind := kind; owner_scope_id := id;
  parent_organization_id := parent; scope_state := "active"; authorization_epoch := 1;
  relay_status := "active"; local_status := "ready" |}.
Definition scopes : list OwnerScope := [scope "team" "team" "t1" (Some "o1"); scope "org" "organization" "o1" None].

Definition started : PolicyWorld := run_policies digest (no_policies scopes [])
  [PLoad (Some (("p1", "v1"), ("p2", "v2"))) "team";
   PPublish "v3" "team" (document_json DEFAULT_TEAM_REVIEW_POLICY) (Some "admin") 1;
   PPublish "v4" "team" (document_json DEFAULT_TEAM_REVIEW_POLICY) (Some "other") 1;
   PRollback "team" "v2" 2].

Example started_moves : pw_moves started = [("p2", 1); ("p2", 2)].
Proof. vm_compute. reflexivity. Qed.
Example started_head : getHead "team" (pw_tables started) = Some ("p2", "v2", 3).
Proof. vm_compute. reflexivity. Qed.

(** [rollback] accepts the version of another installation's policy. *)
Example rollback_takes_foreign_version :
  getHead "team" (pw_tables (run_policies digest started [PRollback "team" "v1" 3])) = Some ("p2", "v1", 4)
  ∧ (version_policy_id <$> version_of (pw_tables started) "v1") = Some "p1".
Proof. vm_compute. split; reflexivity. Qed.

Definition reviewer_fact (id : string) (revision : string) : CurrentMembershipFact := {|
  membershipId := id; membershipRevision := revision; m_state := "active"; roles := ["reviewer"] |}.
Definition approval (m : string) (revision : string) : BoundReviewDecision := {|
  decisionId := "d-" +:+ m; d_membershipId := m; d_membershipRevision := revision; decision := approve |}.

Definition team_snapshot : EffectiveReviewPolicySnapshot := {|
  scopeKind := TeamScope; activeVersionId := "v2"; parentActiveVersionId := Some "v1";
  policy := DEFAULT_ORGANIZATION_REVIEW_POLICY |}.
Definition members : list CurrentMembershipFact := [reviewer_fact "ann" "1"; reviewer_fact "bob" "2"; reviewer_fact "eve" "5"].
(** The decision of [eve] was made at an older revision of her membership. *)
Definition decisions : list BoundReviewDecision := [approval "ann" "1"; approval "eve" "4"; approval "bob" "2"].
End ReviewRun.

Lemma shared_only_after_review_witness :
  let q := evaluateQuorum (currentReviewDecisions ReviewRun.decisions ReviewRun.members)
    (policy ReviewRun.team_snapshot) (Some "ann") (Some "ann") in
  countedDecisionMemberships q = ["ann"; "bob"] ∧ 2 ≤ len (countedDecisionMemberships q)
  ∧ ∃ m, m ∈ countedDecisionMemberships q ∧ Some m ≠ Some "ann".
Proof.
  intros q. split; [vm_compute; reflexivity|].
  destruct (shared_only_after_review ReviewRun.digest None "team" (pw_tables ReviewRun.started)
    (pw_tables ReviewRun.started) ReviewRun.team_snapshot ReviewRun.decisions ReviewRun.members (Some "ann") (Some "ann"))
    as (_ & _ & H2 & Hm & _); [vm_compute; reflexivity..|].
  split; [apply H2; vm_compute; reflexivity|exact Hm].
Defined.
