(* ===== verification/TeamRun.v ===== *)
(** * TeamRun: automatic collaboration runs (relay/src/team/run-repository.ts,
    run-decision.ts, run-worker.ts, run-service.ts, agent-offers.ts, the calls of
    dispatch-repository.ts and external-stop.ts that move a run's calls, and the
    statements of session-service.ts and account-lifecycle.ts that stop runs).

    A run lets a coordinator agent call other agents of a shared session within
    a frozen budget.  [RunDb] holds the tables the code writes; a run's row is
    kept with its calls ([RunFile]), and a call's [cl_messages] are the
    [agent_message] events that refer to it, in the order of their sequence
    numbers.  Every repository call is one transaction: it returns the new
    tables or an error that leaves them as they were.  Arguments ([RunEnv]) are
    the database's and the process's clocks, the tables a call only reads, the
    identifiers it draws, the configuration [freeze] of
    agent-config-service.ts answers and the switch [TEAM_DISCUSSIONS_V2].  A pass
    of the worker is the program [Prog] of repository calls it makes, so that
    passes, users and the dispatcher interleave between the calls.  Column
    [updated_at], the identifiers of events, the columns that address an agent's
    native session, metrics and notifications are left out. *)

From S2P Require Import Prelude JsValue JsMap StrictJson JsonRoundTrip DeliveryContract TaskPlan PlanService StepExecution.

#[local] Open Scope Z_scope.

(** ** States *)

Inductive SessionState : Type := SessionActive | SessionPaused | SessionEnded | SessionArchived.

#[global] Instance session_state_eq : EqDecision SessionState.
Proof. solve_decision. Defined.

Inductive RunMode : Type := Discussion | Review | Execute.

#[global] Instance run_mode_eq : EqDecision RunMode.
Proof. solve_decision. Defined.

Inductive RunState : Type :=
| RunReady | RunRunning | RunWaiting | RunBlocked | RunPaused | RunCompleted | RunFailed | RunCancelled.

#[global] Instance run_state_eq : EqDecision RunState.
Proof. solve_decision. Defined.

(** [['completed','failed','cancelled'].includes(state)]. *)
Definition terminal_run (s : RunState) : bool :=
  bool_decide (s ∈ [RunCompleted; RunFailed; RunCancelled]).

(** [state IN ('waiting_input','blocked','paused')]. *)
Definition dormant_run (s : RunState) : bool :=
  bool_decide (s ∈ [RunWaiting; RunBlocked; RunPaused]).

(** [state IN ('ready','running')]. *)
Definition open_run (s : RunState) : bool := bool_decide (s ∈ [RunReady; RunRunning]).

Inductive RunRole : Type := Coordinator | Worker.

#[global] Instance run_role_eq : EqDecision RunRole.
Proof. solve_decision. Defined.

Inductive BudgetDimension : Type := BudgetCalls | BudgetDuration | BudgetConcurrency | BudgetRounds.

Inductive RunError : Type :=
| RunTeamError (e : TeamError)
| TeamRunSessionStateError (s : SessionState)
| TeamRunAuthorityError
| TeamRunBudgetError (d : BudgetDimension)
| RunLeaseLost.

Definition runm (A : Type) : Type := RunError + A.

Definition bind_run {A B} (m : runm A) (k : A → runm B) : runm B :=
  match m with inl e => inl e | inr a => k a end.

Definition require_run {A} (ok : bool) (error : RunError) (rest : runm A) : runm A :=
  if ok then rest else inl error.

Definition run_error (code message : string) : RunError := RunTeamError (team_error code message).

Definition lift_team {A} (m : team A) : runm A :=
  match m with inl e => inl (RunTeamError e) | inr a => inr a end.

Declare Scope run_scope.
Notation "'get?' x := m 'in' k" := (bind_run m (λ x, k))
  (at level 10, x pattern, m at level 100, k at level 200) : run_scope.
Notation "'need?' b 'else' e 'in' k" := (require_run b e k)
  (at level 10, b at level 100, e at level 100, k at level 200) : run_scope.
#[local] Open Scope run_scope.

(** ** Tables *)

Record TeamRunBudget : Type := {
  bg_max_calls : Z; bg_max_concurrent_calls : Z; bg_max_duration_seconds : Z
}.

Record StructuredResult : Type := {
  rs_conclusion : string; rs_todo : list string; rs_disagreements : list string; rs_reason : string
}.

(** What is fixed when the run is created. *)
Record RunTerms : Type := {
  tm_mode : option RunMode;
  tm_participants : option (list string);
  tm_max_rounds : option Z;
  tm_session : string;
  tm_initiator : Z;
  tm_coordinator : string;
  tm_context : Z;
  tm_budget : TeamRunBudget;
  tm_deadline : Z;
  tm_created : Z
}.

Record RunStatus : Type := {
  st_state : RunState;
  st_stop : bool;
  st_question : option string;
  st_reason : option string
}.

Record RunProgress : Type := {
  pg_calls : Z;
  pg_next_step : Z;
  pg_processed : Z;
  pg_rounds : Z;
  pg_no_progress : Z
}.

(** The columns [teamRunView] shows. *)
Record TeamRun : Type := {
  rn_terms : RunTerms;
  rn_status : RunStatus;
  rn_progress : RunProgress;
  rn_result : option StructuredResult;
  rn_revision : Z;
  rn_started : option Z;
  rn_finished : option Z
}.

Record FrozenConfig : Type := { fz_hash : string; fz_revision : Z }.

#[global] Instance frozen_config_eq : EqDecision FrozenConfig.
Proof. solve_decision. Defined.

Record RunLease : Type := {
  le_owner : option string;
  le_token : Z;
  le_expires : option Z;
  le_wake : Z
}.

Record RunRow : Type := {
  teamRunView : TeamRun;
  row_lease : RunLease;
  row_input_through : option Z;
  row_configs : option (gmap string FrozenConfig);
  row_progress_hash : option string
}.

Record RunCall : Type := {
  cl_step : Z;
  cl_role : RunRole;
  cl_offer : string;
  cl_binding : string;
  cl_context : Z;
  cl_instruction : string;         (* content of its event *)
  cl_history : Z;
  cl_config : option FrozenConfig;
  cl_mode : option RunMode;
  cl_state : CallState;
  cl_outcome : option string;
  cl_accepted : option Z;
  cl_messages : list string
}.

Record RunFile : Type := { rf_run : RunRow; rf_calls : list RunCall }.

Record TeamSession : Type := {
  ts_team : string; ts_state : SessionState; ts_creator : Z; ts_context : Z; ts_latest_seq : Z
}.

Inductive TeamEventKind : Type := MemberMessage | AgentMessage | StatusEvent | RunEvent.

#[global] Instance event_kind_eq : EqDecision TeamEventKind.
Proof. solve_decision. Defined.

Record TeamEvent : Type := {
  ev_session : string;
  ev_seq : Z;
  ev_kind : TeamEventKind;
  ev_author : option Z;
  ev_context : option Z;
  ev_content : string
}.

Record TeamRunMutation : Type := {
  mu_id : string;
  mu_run : TeamRun;
  mu_event : TeamEvent;
  mu_participants : list Z;
  mu_replayed : bool
}.

Record RunReceipt : Type := { rq_hash : string; rq_response : TeamRunMutation }.

Record RunDb : Type := {
  db_sessions : gmap string TeamSession;
  db_runs : gmap string RunFile;
  db_events : list TeamEvent;
  db_receipts : gmap (Z * string * string) RunReceipt
}.

Definition with_runs (db : RunDb) (runs : gmap string RunFile) : RunDb :=
  {| db_sessions := db_sessions db; db_runs := runs; db_events := db_events db;
     db_receipts := db_receipts db |}.

Definition put_run (db : RunDb) (id : string) (f : RunFile) : RunDb :=
  with_runs db (<[id := f]> (db_runs db)).

Definition put_row (db : RunDb) (id : string) (f : RunFile) (r : RunRow) : RunDb :=
  put_run db id {| rf_run := r; rf_calls := rf_calls f |}.

Definition put_receipt (db : RunDb) (key : Z * string * string) (hash : string)
    (m : TeamRunMutation) : RunDb :=
  {| db_sessions := db_sessions db; db_runs := db_runs db; db_events := db_events db;
     db_receipts := <[key := {| rq_hash := hash; rq_response := m |}]> (db_receipts db) |}.

(** ** Agents that can be called *)

Record DaemonAgentEvidence : Type := {
  da_status : string;
  da_agents : jsval;
  da_capabilities : jsval;
  da_team : option string
}.

Record OfferEvidence : Type := {
  oe_offer_active : bool;
  oe_member_active : bool;
  oe_owner_enabled : bool;
  oe_provider : string;
  oe_daemon : DaemonAgentEvidence
}.

(** A binding of a session with the row its joins find, when they find one. *)
Record AgentBinding : Type := {
  bd_id : string; bd_owner : Z; bd_active : bool; bd_evidence : option OfferEvidence
}.

Definition agentRecords (v : jsval) : list jsval :=
  match v with
  | JArr items =>
      flat_map (λ item, match item with
        | JStr s => [JObj [("type"%string, JStr s); ("manageable"%string, JBool true)]]
        | JObj _ | JArr _ => [item]
        | _ => []
        end) items
  | _ => []
  end.

Definition installedAgent (agents : jsval) (provider : string) : option jsval :=
  find_first (λ agent, is_str (js_get agent "type") provider) (agentRecords agents).

Definition includes_string (v : jsval) (s : string) : bool :=
  match v with JArr items => existsb (λ x, is_str x s) items | _ => false end.

(** [candidateForProvider(...).managed_callable]. *)
Definition managed_callable (d : DaemonAgentEvidence) (provider team : string)
    (externalEnabled : bool) : bool :=
  let installed := installedAgent (da_agents d) provider in
  let occupied := match da_team d with
    | Some t => negb (bool_decide (t = ""%string)) && negb (bool_decide (t = team))
    | None => false
    end in
  let manageable := bool_decide (provider = "dsh"%string) || match installed with
    | Some agent => negb (strict_eq (js_get agent "manageable") (JBool false))
    | None => true
    end in
  let caps := da_capabilities d in
  let dispatchSupported :=
    includes_string caps "team_collaboration_dispatch_v1"
    && includes_string caps "team_collaboration_context_v1"
    && (negb (bool_decide (provider = "agentteams"%string))
        || (externalEnabled && includes_string caps "team_external_agentteams_v1"))
    && (negb (bool_decide (provider = "dsh"%string))
        || includes_string caps "team_collaboration_dsh_v1") in
  bool_decide (is_Some installed) && bool_decide (da_status d = "online"%string) && manageable
  && dispatchSupported && negb occupied.

Definition binding_callable (externalEnabledForTeam : string → bool) (b : AgentBinding)
    (o : OfferEvidence) (team : string) : bool :=
  bd_active b && oe_offer_active o && oe_member_active o && oe_owner_enabled o
  && managed_callable (oe_daemon o) (oe_provider o) team (externalEnabledForTeam team).

(** ** What a transaction reads *)

Record RunEnv : Type := {
  re_now : Z;                                  (* NOW() *)
  re_clock : Z;                                (* Date.now() *)
  re_view : TeamView;                          (* accounts, teams, members, participants *)
  re_bindings : gmap (string * string) AgentBinding;   (* session, offer *)
  re_external : string → bool;                 (* externalEnabledForTeam *)
  re_freeze : string → string → Z → option RunMode → team (option FrozenConfig);
  re_discussions : bool;
  re_run_id : string;
  re_locked : string → bool                    (* rows SKIP LOCKED passes over *)
}.

(** ** Access *)

Definition authorizedSession (e : RunEnv) (db : RunDb) (sessionId : string) (actor : Z)
    : runm TeamSession :=
  let w := re_view e in
  get? _ := lift_team (requireTeamAccess w actor) in
  match db_sessions db !! sessionId with
  | None => inl (run_error "team_not_found" "shared session not found")
  | Some session =>
      match roles w !! (ts_team session, actor) with
      | None => inl (run_error "team_not_found" "shared session not found")
      | Some role =>
          need? bool_decide (ts_team session ∈ active_teams w)
                && bool_decide ((sessionId, actor) ∈ participants w)
          else run_error "team_not_found" "shared session not found" in
          need? negb (bool_decide (role = "viewer"%string))
          else run_error "team_access_denied" "read-only team member" in
          inr session
      end
  end.

Definition authorizedRun (e : RunEnv) (db : RunDb) (runId : string) (actor : Z)
    : runm (RunFile * TeamSession) :=
  match db_runs db !! runId with
  | None => inl (run_error "team_not_found" "collaboration run not found")
  | Some f =>
      get? session := authorizedSession e db (tm_session (rn_terms (teamRunView (rf_run f)))) actor in
      inr (f, session)
  end.

(** [['team_not_found','team_access_denied'].includes(error.code)]. *)
Definition authority_code (err : RunError) : bool :=
  match err with
  | RunTeamError (TeamRepositoryError code _ _) =>
      bool_decide (code ∈ ["team_not_found"; "team_access_denied"]%string)
  | _ => false
  end.

Definition continuationSession (e : RunEnv) (db : RunDb) (t : RunTerms) : runm TeamSession :=
  match authorizedSession e db (tm_session t) (tm_initiator t) with
  | inl err => inl (if authority_code err then TeamRunAuthorityError else err)
  | inr session =>
      need? bool_decide (ts_state session = SessionActive)
      else TeamRunSessionStateError (ts_state session) in inr session
  end.

(** [participants(db, sessionId)]. *)
Definition run_participants (e : RunEnv) (sessionId : string) : list Z :=
  map snd (bfilter (λ p, bool_decide (p.1 = sessionId)) (elements (participants (re_view e)))).

Definition append_to_session (db : RunDb) (sessionId : string) (kind : TeamEventKind)
    (author contextVersion : option Z) (content : string) : runm (RunDb * TeamEvent) :=
  match db_sessions db !! sessionId with
  | None => inl (RunTeamError TypeError)
  | Some s =>
      let seq := ts_latest_seq s + 1 in
      let event := {| ev_session := sessionId; ev_seq := seq; ev_kind := kind; ev_author := author;
                      ev_context := contextVersion; ev_content := content |} in
      let session := {| ts_team := ts_team s; ts_state := ts_state s; ts_creator := ts_creator s;
                        ts_context := ts_context s; ts_latest_seq := seq |} in
      inr ({| db_sessions := <[sessionId := session]> (db_sessions db); db_runs := db_runs db;
              db_events := db_events db ++ [event]; db_receipts := db_receipts db |}, event)
  end.

Definition appendEvent (db : RunDb) (sessionId : string) (contextVersion : Z)
    (author : option Z) (content : string) : runm (RunDb * TeamEvent) :=
  append_to_session db sessionId RunEvent author (Some contextVersion) content.

(** [... WHERE team_session_id=$1 AND kind='run' ORDER BY event_seq DESC LIMIT 1]. *)
Definition last_run_event (db : RunDb) (sessionId : string) : runm TeamEvent :=
  let rows := bfilter (λ ev, bool_decide (ev_session ev = sessionId)
                             && bool_decide (ev_kind ev = RunEvent)) (db_events db) in
  let later (best ev : TeamEvent) := if ev_seq best <? ev_seq ev then ev else best in
  match rows with
  | [] => inl (RunTeamError TypeError)
  | ev :: rest => inr (fold_left later rest ev)
  end.

(** A receipt of the same request: replayed when its content is the same. *)
Definition prior_receipt (db : RunDb) (key : Z * string * string) (hash what : string)
    : option (runm TeamRunMutation) :=
  match db_receipts db !! key with
  | None => None
  | Some prior => Some (
      need? bool_decide (rq_hash prior = hash)
      else run_error "idempotency_conflict" ("request_id was reused with different " +:+ what) in
      inr {| mu_id := mu_id (rq_response prior); mu_run := mu_run (rq_response prior);
             mu_event := mu_event (rq_response prior);
             mu_participants := mu_participants (rq_response prior); mu_replayed := true |})
  end.

Definition mutation_of (e : RunEnv) (id : string) (r : RunRow) (event : TeamEvent) (replayed : bool)
    : TeamRunMutation :=
  {| mu_id := id; mu_run := teamRunView r; mu_event := event;
     mu_participants := run_participants e (tm_session (rn_terms (teamRunView r)));
     mu_replayed := replayed |}.

Definition row_terms (r : RunRow) : RunTerms := rn_terms (teamRunView r).
Definition row_status (r : RunRow) : RunStatus := rn_status (teamRunView r).
Definition row_progress (r : RunRow) : RunProgress := rn_progress (teamRunView r).
Definition run_row_state (r : RunRow) : RunState := st_state (row_status r).

(** ** Requests of users *)

Section runs.
Context (sha256 : string → string).

Definition canonicalHash (v : jsval) : string := sha256 (json_text v).

Record CreateRun : Type := {
  cr_session : string;
  cr_actor : Z;
  cr_coordinator : string;
  cr_context : Z;
  cr_mode : option RunMode;
  cr_participants : list string;     (* participantOfferIds ?? [] *)
  cr_max_rounds : Z;                 (* maxRounds ?? 3 *)
  cr_budget : TeamRunBudget;
  cr_request : string
}.

Definition mode_name (m : RunMode) : string :=
  match m with Discussion => "discussion" | Review => "review" | Execute => "execute" end.

Definition budget_value (b : TeamRunBudget) : jsval :=
  JObj [("max_calls", JNum (bg_max_calls b));
        ("max_concurrent_calls", JNum (bg_max_concurrent_calls b));
        ("max_duration_seconds", JNum (bg_max_duration_seconds b))]%string.

Definition sorted_ids (ids : list string) : list string := merge_sort String.le ids.

Definition create_value (input : CreateRun) : jsval :=
  JObj ([("coordinator_offer_id"%string, JStr (cr_coordinator input));
         ("context_version"%string, JNum (cr_context input));
         ("budget"%string, budget_value (cr_budget input))] ++
        match cr_mode input with
        | Some m => [("mode"%string, JStr (mode_name m));
                     ("participants"%string, JArr (map JStr (sorted_ids (cr_participants input))));
                     ("max_rounds"%string, JNum (cr_max_rounds input))]
        | None => []
        end).

Fixpoint freeze_participants (e : RunEnv) (input : CreateRun) (m : RunMode) (offers : list string)
    (acc : gmap string FrozenConfig) : runm (gmap string FrozenConfig) :=
  match offers with
  | [] => inr acc
  | offer :: rest =>
      get? frozen := lift_team (re_freeze e (cr_session input) offer (cr_actor input) (Some m)) in
      match frozen with
      | None => inl (run_error "capability_not_supported" "Run mode requires v2 Agent configuration")
      | Some config => freeze_participants e input m rest (<[offer := config]> acc)
      end
  end.

Definition participant_configs (e : RunEnv) (input : CreateRun)
    : runm (option (gmap string FrozenConfig)) :=
  match cr_mode input with
  | None => inr None
  | Some m =>
      let ids := cr_participants input in
      let rounds := cr_max_rounds input in
      need? (2 <=? len ids) && bool_decide (NoDup ids) && bool_decide (cr_coordinator input ∈ ids)
            && is_safe_integer rounds && (1 <=? rounds) && (rounds <=? 20)
      else run_error "invalid_state" "at least two distinct participants and a valid round limit required" in
      get? configs := freeze_participants e input m (sorted_ids ids) ∅ in inr (Some configs)
  end.

Definition new_run (e : RunEnv) (input : CreateRun) (latest_seq : Z)
    (configs : option (gmap string FrozenConfig)) : RunRow :=
  let with_mode {A} (a : A) : option A := match cr_mode input with Some _ => Some a | None => None end in
  {| teamRunView := {|
       rn_terms := {| tm_mode := cr_mode input; tm_participants := with_mode (cr_participants input);
                      tm_max_rounds := with_mode (cr_max_rounds input); tm_session := cr_session input;
                      tm_initiator := cr_actor input; tm_coordinator := cr_coordinator input;
                      tm_context := cr_context input; tm_budget := cr_budget input;
                      tm_deadline := re_now e + 1000 * bg_max_duration_seconds (cr_budget input);
                      tm_created := re_now e |};
       rn_status := {| st_state := RunReady; st_stop := false; st_question := None; st_reason := None |};
       rn_progress := {| pg_calls := 0; pg_next_step := 1; pg_processed := 0; pg_rounds := 0;
                         pg_no_progress := 0 |};
       rn_result := None; rn_revision := 1; rn_started := None; rn_finished := None |};
     row_lease := {| le_owner := None; le_token := 0; le_expires := None; le_wake := re_now e |};
     row_input_through := with_mode latest_seq;
     row_configs := configs;
     row_progress_hash := None |}.

(** [uq_collaboration_active_run_session]. *)
Definition active_in_session (db : RunDb) (sessionId : string) : bool :=
  existsb (λ kf, bool_decide (tm_session (row_terms (rf_run kf.2)) = sessionId)
                 && negb (terminal_run (run_row_state (rf_run kf.2)))) (map_to_list (db_runs db)).

Definition createRun (e : RunEnv) (db : RunDb) (input : CreateRun) : runm (RunDb * TeamRunMutation) :=
  let sid := cr_session input in
  let key := (cr_actor input, "team.run.create:" +:+ sid, cr_request input)%string in
  let hash := canonicalHash (create_value input) in
  get? session := authorizedSession e db sid (cr_actor input) in
  need? ts_creator session =? cr_actor input
  else run_error "creator_required" "shared session creator authority required" in
  match prior_receipt db key hash "run content" with
  | Some replay => get? m := replay in inr (db, m)
  | None =>
      need? bool_decide (ts_state session = SessionActive)
      else run_error "invalid_state" "shared session is not active" in
      need? ts_context session =? cr_context input
      else RunTeamError (TeamRepositoryError "context_revision_conflict"
             "context changed before run creation" (Some (ts_context session))) in
      match (b ← re_bindings e !! (sid, cr_coordinator input); o ← bd_evidence b; Some (b, o)) with
      | None => inl (run_error "team_not_found" "coordinator Agent binding not found")
      | Some (b, o) =>
          need? binding_callable (re_external e) b o (ts_team session)
          else run_error "agent_unavailable" "coordinator Agent is not callable" in
          get? configs := participant_configs e input in
          let id := re_run_id e in
          need? negb (active_in_session db sid) && negb (bool_decide (is_Some (db_runs db !! id)))
          else run_error "invalid_state" "shared session already has an active run" in
          let row := new_run e input (ts_latest_seq session) configs in
          get? (db1, event) := appendEvent (put_run db id {| rf_run := row; rf_calls := [] |}) sid
            (cr_context input) (Some (cr_actor input))
            ("Automatic collaboration run " +:+ id +:+ " created with a frozen budget of "
             +:+ js_String (JNum (bg_max_calls (cr_budget input))) +:+ " calls.") in
          let m := mutation_of e id row event false in
          inr (put_receipt db1 key hash m, m)
      end
  end.

Inductive RunAction : Type := ActionPause | ActionResume | ActionCancel.

#[global] Instance run_action_eq : EqDecision RunAction.
Proof. solve_decision. Defined.

Definition run_action_name (a : RunAction) : string :=
  match a with ActionPause => "pause" | ActionResume => "resume" | ActionCancel => "cancel" end.

(** The row after [UPDATE ... SET] of [control]. *)
Definition row_controlled (now : Z) (a : RunAction) (r : RunRow) : RunRow :=
  let run := teamRunView r in
  let st := rn_status run in
  let next := match a with ActionPause => RunPaused | ActionResume => RunRunning
              | ActionCancel => st_state st end in
  let stop := match a with ActionCancel => true | ActionResume => false | ActionPause => st_stop st end in
  let kept {A} (o : option A) := if bool_decide (next = RunRunning) then None else o in
  {| teamRunView := {|
       rn_terms := rn_terms run;
       rn_status := {| st_state := next; st_stop := stop; st_question := kept (st_question st);
                       st_reason := kept (st_reason st) |};
       rn_progress := rn_progress run; rn_result := rn_result run;
       rn_revision := rn_revision run + 1; rn_started := rn_started run;
       rn_finished := rn_finished run |};
     row_lease := {| le_owner := None; le_token := le_token (row_lease r) + 1; le_expires := None;
                     le_wake := now |};
     row_input_through := row_input_through r; row_configs := row_configs r;
     row_progress_hash := row_progress_hash r |}.

Definition reason_is (o : option string) (s : string) : bool := bool_decide (o = Some s).

Definition uncertain_call (f : RunFile) : bool :=
  existsb (λ c, bool_decide (cl_state c = CallUncertain)) (rf_calls f).

(** The checks of [control] before its update. *)
Definition control_guard (f : RunFile) (session : TeamSession) (a : RunAction) (expected : Z)
    : runm unit :=
  let r := rf_run f in
  let st := row_status r in
  need? rn_revision (teamRunView r) =? expected
  else RunTeamError (TeamRepositoryError "revision_conflict" "revision mismatch"
                       (Some (rn_revision (teamRunView r)))) in
  need? negb (terminal_run (st_state st))
  else run_error "invalid_state" "collaboration run is terminal" in
  match a with
  | ActionResume =>
      need? negb (reason_is (st_reason st) "no_progress")
      else run_error "invalid_state" "supplement new input before resuming a no-progress Run" in
      need? bool_decide (ts_state session = SessionActive)
      else run_error "invalid_state" "shared session is not active" in
      need? dormant_run (st_state st)
      else run_error "invalid_state" "collaboration run cannot resume from its current state" in
      need? negb (uncertain_call f)
      else run_error "dispatch_uncertain" "uncertain calls must be reconciled before resume" in
      inr ()
  | _ => inr ()
  end.

Definition control_text (a : RunAction) : string :=
  match a with
  | ActionCancel => "Run stop requested; accepted calls will be reconciled before cancellation."
  | _ => "Run " +:+ run_action_name a +:+ " requested."
  end.

Definition controlRun (e : RunEnv) (db : RunDb) (runId : string) (actor : Z) (a : RunAction)
    (expected : Z) (requestId : string) : runm (RunDb * TeamRunMutation) :=
  let key := (actor, "team.run." +:+ run_action_name a +:+ ":" +:+ runId, requestId)%string in
  let hash := canonicalHash (JObj [("expected_revision"%string, JNum expected)]) in
  get? (f, session) := authorizedRun e db runId actor in
  need? ts_creator session =? actor
  else run_error "creator_required" "shared session creator authority required" in
  match prior_receipt db key hash "run control content" with
  | Some replay => get? m := replay in inr (db, m)
  | None =>
      let r := rf_run f in
      let sid := tm_session (row_terms r) in
      if terminal_run (run_row_state r) && bool_decide (a = ActionCancel)
      then
        get? event := last_run_event db sid in
        let m := mutation_of e runId r event true in inr (put_receipt db key hash m, m)
      else
        get? _ := control_guard f session a expected in
        let r' := row_controlled (re_now e) a r in
        get? (db1, event) := appendEvent (put_row db runId f r') sid (tm_context (row_terms r))
          (Some actor) (control_text a) in
        let m := mutation_of e runId r' event false in inr (put_receipt db1 key hash m, m)
  end.

(** The rows after the two updates of [supplement]. *)
Definition supplemented (now seq : Z) (r : RunRow) : RunRow :=
  let run := teamRunView r in
  let pg := rn_progress run in
  {| teamRunView := {|
       rn_terms := rn_terms run;
       rn_status := {| st_state := RunRunning; st_stop := st_stop (rn_status run);
                       st_question := None; st_reason := None |};
       rn_progress := {| pg_calls := pg_calls pg; pg_next_step := pg_next_step pg;
                         pg_processed := pg_processed pg; pg_rounds := pg_rounds pg;
                         pg_no_progress := 0 |};
       rn_result := rn_result run; rn_revision := rn_revision run + 1;
       rn_started := rn_started run; rn_finished := rn_finished run |};
     row_lease := {| le_owner := None; le_token := le_token (row_lease r) + 1; le_expires := None;
                     le_wake := now |};
     row_input_through := match tm_mode (rn_terms run) with
                          | Some _ => Some seq | None => row_input_through r end;
     row_configs := row_configs r; row_progress_hash := None |}.

(** [state = 'waiting_input'], or blocked for want of progress. *)
Definition takes_input (st : RunStatus) : bool :=
  bool_decide (st_state st = RunWaiting)
  || (bool_decide (st_state st = RunBlocked) && reason_is (st_reason st) "no_progress").

Definition supplement (e : RunEnv) (db : RunDb) (runId : string) (actor : Z) (content : string)
    (expected : Z) (requestId : string) : runm (RunDb * TeamRunMutation) :=
  let key := (actor, "team.run.input:" +:+ runId, requestId)%string in
  let hash := canonicalHash (JObj [("content"%string, JStr content);
                                   ("expected_revision"%string, JNum expected)]) in
  get? (f, session) := authorizedRun e db runId actor in
  match prior_receipt db key hash "run input" with
  | Some replay => get? m := replay in inr (db, m)
  | None =>
      let r := rf_run f in
      need? bool_decide (ts_state session = SessionActive)
      else run_error "invalid_state" "shared session is not active" in
      need? takes_input (row_status r)
      else run_error "invalid_state" "collaboration run is not waiting for input" in
      need? rn_revision (teamRunView r) =? expected
      else RunTeamError (TeamRepositoryError "revision_conflict" "revision mismatch"
                           (Some (rn_revision (teamRunView r)))) in
      get? (db1, event) := append_to_session db (tm_session (row_terms r)) MemberMessage (Some actor)
        (Some (tm_context (row_terms r))) content in
      let r' := supplemented (re_now e) (ev_seq event) r in
      let m := mutation_of e runId r' event false in
      inr (put_receipt (put_row db1 runId f r') key hash m, m)
  end.

(** ** Leases *)

(** A dormant run whose session ended or whose initiator lost access. *)
Definition abandoned (e : RunEnv) (db : RunDb) (t : RunTerms) : bool :=
  let w := re_view e in
  match db_sessions db !! tm_session t, users w !! tm_initiator t with
  | Some s, Some enabled =>
      bool_decide (ts_state s ∈ [SessionEnded; SessionArchived])
      || negb (bool_decide (ts_team s ∈ active_teams w))
      || negb enabled
      || negb (bool_decide (is_Some (roles w !! (ts_team s, tm_initiator t))))
      || negb (bool_decide ((tm_session t, tm_initiator t) ∈ participants w))
  | _, _ => false
  end.

Definition run_claimable (e : RunEnv) (db : RunDb) (r : RunRow) : bool :=
  let st := row_status r in
  let t := row_terms r in
  (open_run (st_state st)
   || (st_stop st && dormant_run (st_state st))
   || (dormant_run (st_state st) && (tm_deadline t <=? re_now e)
       && negb (reason_is (st_reason st) "run_deadline_reconcile_required"))
   || (dormant_run (st_state st) && abandoned e db t))
  && (le_wake (row_lease r) <=? re_now e)
  && match le_expires (row_lease r) with None => true | Some x => x <? re_now e end.

(** [ORDER BY next_wake_at, created_at]. *)
Definition claims_before (x y : string * RunFile) : bool :=
  let wake (k : string * RunFile) := le_wake (row_lease (rf_run k.2)) in
  let created (k : string * RunFile) := tm_created (row_terms (rf_run k.2)) in
  (wake x <? wake y) || ((wake x =? wake y) && (created x <? created y)).

Definition run_candidates (e : RunEnv) (db : RunDb) : list (string * RunFile) :=
  bfilter (λ kf, run_claimable e db (rf_run kf.2) && negb (re_locked e kf.1)) (map_to_list (db_runs db)).

Definition first_claim (l : list (string * RunFile)) : option (string * RunFile) :=
  match l with
  | [] => None
  | x :: rest => Some (fold_left (λ best y, if claims_before y best then y else best) rest x)
  end.

Definition claimed (now : Z) (workerId : string) (leaseMs : Z) (r : RunRow) : RunRow :=
  {| teamRunView := teamRunView r;
     row_lease := {| le_owner := Some workerId; le_token := le_token (row_lease r) + 1;
                     le_expires := Some (now + leaseMs); le_wake := le_wake (row_lease r) |};
     row_input_through := row_input_through r; row_configs := row_configs r;
     row_progress_hash := row_progress_hash r |}.

Definition claimNext (e : RunEnv) (db : RunDb) (workerId : string) (leaseMs : Z)
    : option (RunDb * (string * Z)) :=
  match first_claim (run_candidates e db) with
  | None => None
  | Some (id, f) =>
      let r := claimed (re_now e) workerId leaseMs (rf_run f) in
      Some (put_row db id f r, (id, le_token (row_lease r)))
  end.

(** [lease_token = $2 AND lease_expires_at > now]. *)
Definition lease_held (now token : Z) (r : RunRow) : bool :=
  (le_token (row_lease r) =? token)
  && match le_expires (row_lease r) with Some x => now <? x | None => false end.

(** The lease given back by an update, with its next wake-up. *)
Definition lease_released (r : RunRow) (wake : Z) : RunLease :=
  {| le_owner := None; le_token := le_token (row_lease r); le_expires := None; le_wake := wake |}.

(** ** What a pass reads *)

(** [ORDER BY run_step DESC LIMIT 1]. *)
Definition latest_call (calls : list RunCall) : option RunCall :=
  match calls with
  | [] => None
  | c :: rest => Some (fold_left (λ best y, if cl_step best <? cl_step y then y else best) rest c)
  end.

(** [string_agg(content, '' ORDER BY event_seq)]; no row gives NULL. *)
Definition call_response (c : RunCall) : option string :=
  match cl_messages c with [] => None | l => Some (join "" l) end.

Inductive BlockReason : Type := BlockSessionEnded | BlockInitiator.

Definition block_reason_text (b : BlockReason) : string :=
  match b with BlockSessionEnded => "session_ended" | BlockInitiator => "initiator_unavailable" end.

Record TeamRunWorkSnapshot : Type := {
  wk_run : TeamRun;
  wk_bindings : list (string * bool);          (* offer, callable *)
  wk_latest : option RunCall;
  wk_member_input : option string;
  wk_block : option BlockReason
}.

Definition initiator_authorized (e : RunEnv) (s : TeamSession) (t : RunTerms) : bool :=
  let w := re_view e in
  bool_decide (users w !! tm_initiator t = Some true)
  && bool_decide (ts_team s ∈ active_teams w)
  && bool_decide (is_Some (roles w !! (ts_team s, tm_initiator t)))
  && bool_decide ((tm_session t, tm_initiator t) ∈ participants w).

Definition run_bindings (e : RunEnv) (t : RunTerms) (team : string) : list (string * bool) :=
  flat_map (λ kb : (string * string) * AgentBinding,
    if bool_decide (kb.1.1 = tm_session t)
       && match tm_participants t with Some ids => bool_decide (kb.1.2 ∈ ids) | None => true end
    then match bd_evidence kb.2 with
         | Some o => [(kb.1.2, binding_callable (re_external e) kb.2 o team)]
         | None => []
         end
    else []) (map_to_list (re_bindings e)).

(** The last member message the run may see. *)
Definition latest_member (db : RunDb) (r : RunRow) : option string :=
  let seen := bfilter (λ ev, bool_decide (ev_session ev = tm_session (row_terms r))
      && bool_decide (ev_kind ev = MemberMessage)
      && match row_input_through r with Some n => ev_seq ev <=? n | None => true end) (db_events db) in
  let later (best ev : TeamEvent) := if ev_seq best <? ev_seq ev then ev else best in
  match seen with [] => None | ev :: rest => Some (ev_content (fold_left later rest ev)) end.

(** The first query of [loadWork]: the leased run. *)
Definition load_run (e : RunEnv) (db : RunDb) (runId : string) (token : Z) : option RunRow :=
  match db_runs db !! runId with
  | Some f => if lease_held (re_now e) token (rf_run f) then Some (rf_run f) else None
  | None => None
  end.

(** The queries that follow it. *)
Definition load_rest (e : RunEnv) (db : RunDb) (runId : string) (r : RunRow)
    : option TeamRunWorkSnapshot :=
  let t := row_terms r in
  match db_sessions db !! tm_session t, users (re_view e) !! tm_initiator t with
  | Some s, Some _ =>
      let calls := match db_runs db !! runId with Some f => rf_calls f | None => [] end in
      Some {| wk_run := teamRunView r;
              wk_bindings := run_bindings e t (ts_team s);
              wk_latest := latest_call calls;
              wk_member_input := latest_member db r;
              wk_block := if bool_decide (ts_state s ∈ [SessionEnded; SessionArchived])
                          then Some BlockSessionEnded
                          else if initiator_authorized e s t then None else Some BlockInitiator |}
  | _, _ => None
  end.

Definition loadWork (e : RunEnv) (db : RunDb) (runId : string) (token : Z)
    : option TeamRunWorkSnapshot :=
  r ← load_run e db runId token; load_rest e db runId r.

(** ** What a pass writes *)

Record ScheduleInput : Type := {
  si_offer : string; si_role : RunRole; si_content : string; si_processed : Z
}.

Definition active_call (s : CallState) : bool :=
  bool_decide (s ∈ [CallPending; CallDispatched; CallAccepted; CallUncertain]).

Definition active_calls (calls : list RunCall) : Z := len (bfilter (λ c, active_call (cl_state c)) calls).

Definition scheduled (now processed : Z) (r : RunRow) : RunRow :=
  let run := teamRunView r in
  let pg := rn_progress run in
  {| teamRunView := {|
       rn_terms := rn_terms run;
       rn_status := {| st_state := RunRunning; st_stop := st_stop (rn_status run);
                       st_question := st_question (rn_status run);
                       st_reason := st_reason (rn_status run) |};
       rn_progress := {| pg_calls := pg_calls pg + 1; pg_next_step := pg_next_step pg + 1;
                         pg_processed := Z.max (pg_processed pg) processed;
                         pg_rounds := pg_rounds pg; pg_no_progress := pg_no_progress pg |};
       rn_result := rn_result run; rn_revision := rn_revision run + 1;
       rn_started := Some (default now (rn_started run)); rn_finished := rn_finished run |};
     row_lease := lease_released r (now + 500);
     row_input_through := row_input_through r; row_configs := row_configs r;
     row_progress_hash := row_progress_hash r |}.

(** The limits of [scheduleCall] on the run's own counters. *)
Definition budget_guard (e : RunEnv) (f : RunFile) : runm unit :=
  let t := row_terms (rf_run f) in
  need? pg_calls (row_progress (rf_run f)) <? bg_max_calls (tm_budget t) else TeamRunBudgetError BudgetCalls in
  need? re_clock e <? tm_deadline t else TeamRunBudgetError BudgetDuration in
  need? active_calls (rf_calls f) <? bg_max_concurrent_calls (tm_budget t)
  else TeamRunBudgetError BudgetConcurrency in inr ().

(** The agent a call may go to, with its configuration. *)
Definition call_target (e : RunEnv) (f : RunFile) (offer : string)
    : runm (AgentBinding * option FrozenConfig) :=
  let t := row_terms (rf_run f) in
  match re_bindings e !! (tm_session t, offer) with
  | None => inl (run_error "agent_unavailable" "run target Agent binding is unavailable")
  | Some b =>
      need? bd_active b && teamAccountsEnabled (re_view e) [bd_owner b]
      else run_error "agent_unavailable" "run target Agent binding is unavailable" in
      get? frozen := lift_team (re_freeze e (tm_session t) offer (tm_initiator t) (tm_mode t)) in
      need? match (configs ← row_configs (rf_run f); configs !! offer) with
            | Some original => bool_decide (frozen = Some original)
            | None => true
            end
      else run_error "agent_unavailable" "Run configuration changed; start a new Run to use it" in
      need? match tm_participants t with Some ids => bool_decide (offer ∈ ids) | None => true end
      else run_error "agent_unavailable" "Agent is not a Run participant" in
      inr (b, frozen)
  end.

Definition rounds_guard (r : RunRow) (role : RunRole) : bool :=
  match role, tm_max_rounds (row_terms r) with
  | Coordinator, Some m => pg_rounds (row_progress r) <? m
  | _, _ => true
  end.

Definition scheduleCall (e : RunEnv) (db : RunDb) (runId : string) (token : Z) (input : ScheduleInput)
    : runm RunDb :=
  match db_runs db !! runId with
  | None => inl RunLeaseLost
  | Some f =>
      let r := rf_run f in
      let t := row_terms r in
      need? lease_held (re_clock e) token r else RunLeaseLost in
      need? open_run (run_row_state r) && negb (st_stop (row_status r))
      else run_error "invalid_state" "run no longer accepts calls" in
      get? _ := continuationSession e db t in
      need? match tm_mode t with Some _ => re_discussions e | None => true end
      else run_error "team_feature_disabled" "Discussion modes disabled" in
      get? _ := budget_guard e f in
      get? (b, frozen) := call_target e f (si_offer input) in
      need? rounds_guard r (si_role input) else TeamRunBudgetError BudgetRounds in
      get? (db1, event) := appendEvent db (tm_session t) (tm_context t) None (si_content input) in
      let c := {| cl_step := pg_next_step (row_progress r); cl_role := si_role input;
                  cl_offer := si_offer input; cl_binding := bd_id b; cl_context := tm_context t;
                  cl_instruction := si_content input;
                  cl_history := default (ev_seq event) (row_input_through r); cl_config := frozen;
                  cl_mode := tm_mode t; cl_state := CallPending; cl_outcome := None;
                  cl_accepted := None; cl_messages := [] |} in
      inr (put_run db1 runId {| rf_run := scheduled (re_now e) (si_processed input) r;
                                rf_calls := rf_calls f ++ [c] |})
  end.
End runs.

(** [tokens] stands for [text.normalize('NFKC').toLowerCase().match(...) ?? []]:
    the words of a text, by the tables of Unicode. *)
Section rounds.
Context (sha256 : string → string) (tokens : string → list string).

Definition normalize (text : string) : list string := sorted_ids (remove_dups (tokens text)).

Definition js_items (v : jsval) : list jsval := match v with JArr l => l | _ => [] end.

(** The new conclusions and artifacts a response reports. *)
Definition evidence_of (response : option string) : list jsval :=
  match JSON_parse (default "{}"%string response) with
  | Some v => js_items (js_get v "conclusions") ++ js_items (js_get v "artifacts")
  | None => []
  end.

Definition progress_digest (c : RunCall) : string :=
  canonicalHash sha256 (JObj
    [("target", JStr (cl_offer c));
     ("instruction", JArr (map JStr (normalize (cl_instruction c))));
     ("result", JArr (map JStr (normalize (default "" (call_response c)))));
     ("evidence", JArr (evidence_of (call_response c)))]%string).

Definition no_progress_next (r : RunRow) (c : RunCall) : Z :=
  let n := pg_no_progress (row_progress r) in
  if bool_decide (row_progress_hash r = Some (progress_digest c)) then n + 1
  else if bool_decide (evidence_of (call_response c) = []) then 1 else 0.

Definition round_settled (step noProgress : Z) (progress : string) (r : RunRow) : RunRow :=
  let run := teamRunView r in
  let pg := rn_progress run in
  {| teamRunView := {|
       rn_terms := rn_terms run; rn_status := rn_status run;
       rn_progress := {| pg_calls := pg_calls pg; pg_next_step := pg_next_step pg;
                         pg_processed := step; pg_rounds := pg_rounds pg + 1;
                         pg_no_progress := noProgress |};
       rn_result := rn_result run; rn_revision := rn_revision run + 1;
       rn_started := rn_started run; rn_finished := rn_finished run |};
     row_lease := row_lease r; row_input_through := row_input_through r;
     row_configs := row_configs r; row_progress_hash := Some progress |}.

Definition settled_call (s : CallState) : bool :=
  bool_decide (s ∈ [CallCompleted; CallFailed; CallBlocked; CallCancelled]).

Definition settleRound (e : RunEnv) (db : RunDb) (runId : string) (token step : Z)
    : runm (RunDb * TeamRun) :=
  match db_runs db !! runId with
  | None => inl RunLeaseLost
  | Some f =>
      let r := rf_run f in
      need? lease_held (re_clock e) token r else RunLeaseLost in
      if bool_decide (tm_mode (row_terms r) = None) || (step <=? pg_processed (row_progress r))
      then inr (db, teamRunView r)
      else
        match find_first (λ c, (cl_step c =? step) && bool_decide (cl_role c = Worker)
                               && settled_call (cl_state c)) (rf_calls f) with
        | None => inl (run_error "invalid_state" "round calls have not settled")
        | Some c =>
            let r' := round_settled step (no_progress_next r c) (progress_digest c) r in
            inr (put_row db runId f r', teamRunView r')
        end
  end.
End rounds.

Record TransitionInput : Type := {
  ti_state : RunState;
  ti_content : string;
  ti_reason : option string;
  ti_result : option StructuredResult;
  ti_question : option string;
  ti_processed : option Z
}.

Definition state_name (s : RunState) : string :=
  match s with
  | RunReady => "ready" | RunRunning => "running" | RunWaiting => "waiting_input"
  | RunBlocked => "blocked" | RunPaused => "paused" | RunCompleted => "completed"
  | RunFailed => "failed" | RunCancelled => "cancelled"
  end.

Definition transitioned (now : Z) (input : TransitionInput) (r : RunRow) : RunRow :=
  let run := teamRunView r in
  let pg := rn_progress run in
  let terminal := terminal_run (ti_state input) in
  let plain := {| rs_conclusion := ti_content input; rs_todo := []; rs_disagreements := [];
                  rs_reason := default (state_name (ti_state input)) (ti_reason input) |} in
  {| teamRunView := {|
       rn_terms := rn_terms run;
       rn_status := {| st_state := ti_state input; st_stop := st_stop (rn_status run);
                       st_question := ti_question input; st_reason := ti_reason input |};
       rn_progress := {| pg_calls := pg_calls pg; pg_next_step := pg_next_step pg;
                         pg_processed := Z.max (pg_processed pg) (default 0 (ti_processed input));
                         pg_rounds := pg_rounds pg; pg_no_progress := pg_no_progress pg |};
       rn_result := if terminal && bool_decide (is_Some (tm_mode (rn_terms run)))
                    then Some (default plain (ti_result input)) else rn_result run;
       rn_revision := rn_revision run + 1; rn_started := rn_started run;
       rn_finished := if terminal then Some now else None |};
     row_lease := lease_released r (if open_run (ti_state input) then now else le_wake (row_lease r));
     row_input_through := row_input_through r; row_configs := row_configs r;
     row_progress_hash := row_progress_hash r |}.

Definition transitionRun (e : RunEnv) (db : RunDb) (runId : string) (token : Z) (input : TransitionInput)
    : runm (RunDb * TeamRunMutation) :=
  match db_runs db !! runId with
  | None => inl RunLeaseLost
  | Some f =>
      let r := rf_run f in
      let t := row_terms r in
      need? lease_held (re_clock e) token r else RunLeaseLost in
      get? _ := (if bool_decide (ti_state input = RunWaiting)
                 then get? _ := continuationSession e db t in inr () else inr ()) in
      if terminal_run (run_row_state r)
      then get? event := last_run_event db (tm_session t) in inr (db, mutation_of e runId r event true)
      else
        let r' := transitioned (re_now e) input r in
        get? (db1, event) := appendEvent (put_row db runId f r') (tm_session t) (tm_context t) None
          (ti_content input) in
        inr (db1, mutation_of e runId r' event false)
  end.

(** A call with another state and outcome. *)
Definition move_call (s : CallState) (outcome : option string) (c : RunCall) : RunCall :=
  {| cl_step := cl_step c; cl_role := cl_role c; cl_offer := cl_offer c; cl_binding := cl_binding c;
     cl_context := cl_context c; cl_instruction := cl_instruction c; cl_history := cl_history c;
     cl_config := cl_config c; cl_mode := cl_mode c; cl_state := s; cl_outcome := outcome;
     cl_accepted := cl_accepted c; cl_messages := cl_messages c |}.

Definition stop_pending (outcome : string) (c : RunCall) : RunCall :=
  if bool_decide (cl_state c = CallPending) then move_call CallCancelled (Some outcome) c else c.

Definition cancelPending (e : RunEnv) (db : RunDb) (runId : string) (token : Z) : RunDb :=
  match db_runs db !! runId with
  | Some f =>
      if lease_held (re_now e) token (rf_run f)
      then put_run db runId {| rf_run := rf_run f;
                               rf_calls := map (stop_pending "run_stop_requested") (rf_calls f) |}
      else db
  | None => db
  end.

Definition deferred (now delayMs : Z) (r : RunRow) : RunRow :=
  {| teamRunView := teamRunView r; row_lease := lease_released r (now + delayMs);
     row_input_through := row_input_through r; row_configs := row_configs r;
     row_progress_hash := row_progress_hash r |}.

Definition defer (e : RunEnv) (db : RunDb) (runId : string) (token delayMs : Z) : RunDb :=
  match db_runs db !! runId with
  | Some f =>
      if lease_held (re_now e) token (rf_run f)
      then put_row db runId f (deferred (re_now e) delayMs (rf_run f)) else db
  | None => db
  end.

(** ** Decisions of the coordinator *)

Inductive TeamRunDecision : Type :=
| CallAgent (target instruction : string)
| RequestInput (question : string)
| CompleteRun (summary : string) (result : option StructuredResult).

(** [TeamRunDecisionError] carries its message. *)
Definition decision (A : Type) : Type := string + A.

Definition bind_decision {A B} (m : decision A) (k : A → decision B) : decision B :=
  match m with inl e => inl e | inr a => k a end.

Notation "'try?' x := m 'in' k" := (bind_decision m (λ x, k))
  (at level 10, x pattern, m at level 100, k at level 200) : run_scope.

Definition fence : string := "```".

Definition strip_suffix (p s : string) : option string :=
  if (str_len p <=? str_len s)
     && bool_decide (String.substring (String.length s - String.length p) (String.length p) s = p)
  then Some (String.substring 0 (String.length s - String.length p) s) else None.

(** The group of [/^```(?:json)?\s*([\s\S]*?)\s*```$/i]. *)
Definition fenced_block (s : string) : option string :=
  rest ← strip_prefix fence s;
  let body := if bool_decide (to_upper (String.substring 0 4 rest) = "JSON"%string)
              then String.substring 4 (String.length rest - 4) rest else rest in
  inner ← strip_suffix fence (trim_start body);
  Some (trim_end inner).

Definition parseJsonObject (content : string) : decision (list (string * jsval)) :=
  let trimmed := trim content in
  match JSON_parse (default trimmed (fenced_block trimmed)) with
  | Some (JObj fields) => inr fields
  | _ => inl "coordinator response must be one JSON object"%string
  end.

Definition exactKeys (fields : list (string * jsval)) (allowed : list string) : decision unit :=
  if keys_allowed fields allowed then inr ()
  else inl "coordinator decision contains unsupported fields"%string.

Definition decisionText (v : jsval) (field : string) (maximum : Z) : decision string :=
  match v with
  | JStr s => if negb (bool_decide (trim s = ""%string)) && (str_len (trim s) <=? maximum)
              then inr (trim s) else inl (field +:+ " is invalid")%string
  | _ => inl (field +:+ " is invalid")%string
  end.

Definition parseList (v : jsval) : decision (list string) :=
  match v with
  | JArr items =>
      if len items <=? 50 then
        match mapM (λ x, match x with
                         | JStr s => if str_len s <=? 4000 then Some s else None
                         | _ => None end) items with
        | Some texts => inr texts
        | None => inl "invalid structured result"%string
        end
      else inl "invalid structured result"%string
  | _ => inl "invalid structured result"%string
  end.

Definition call_agent_keys : list string := ["action"; "context_version"; "target_offer_id"; "instruction"].
Definition request_input_keys : list string := ["action"; "context_version"; "question"].
Definition complete_keys : list string := ["action"; "context_version"; "summary"].
Definition complete_v2_keys : list string :=
  ["schema_version"; "action"; "context_version"; "summary"; "todo"; "disagreements"].

Definition parseTeamRunDecision (content : string) (contextVersion : Z) (allowed : list string)
    : decision TeamRunDecision :=
  try? fields := parseJsonObject content in
  let get k := lookup_field k fields in
  if negb (bool_decide (safe_number (get "context_version"%string) = Some contextVersion))
  then inl "coordinator decision context version is stale"%string
  else if is_str (get "action"%string) "call_agent" then
    try? _ := exactKeys fields call_agent_keys in
    try? target := decisionText (get "target_offer_id"%string) "target_offer_id" 160 in
    if negb (bool_decide (target ∈ allowed))
    then inl "coordinator selected an unavailable Agent"%string
    else
      try? instruction := decisionText (get "instruction"%string) "instruction" 16000 in
      inr (CallAgent target instruction)
  else if is_str (get "action"%string) "request_input" then
    try? _ := exactKeys fields request_input_keys in
    try? question := decisionText (get "question"%string) "question" 4000 in
    inr (RequestInput question)
  else if is_str (get "action"%string) "complete" then
    let v2 := is_number (get "schema_version"%string) 2 in
    try? _ := exactKeys fields (if v2 then complete_v2_keys else complete_keys) in
    try? summary := decisionText (get "summary"%string) "summary" 16000 in
    if v2 then
      try? todo := parseList (get "todo"%string) in
      try? disagreements := parseList (get "disagreements"%string) in
      inr (CompleteRun summary (Some {| rs_conclusion := summary; rs_todo := todo;
        rs_disagreements := disagreements; rs_reason := "coordinator_completed" |}))
    else inr (CompleteRun summary None)
  else inl "coordinator decision action is invalid"%string.

(** The decision a coordinator would print. *)
Definition decision_value (contextVersion : Z) (d : TeamRunDecision) : jsval :=
  match d with
  | CallAgent target instruction =>
      JObj [("action", JStr "call_agent"); ("context_version", JNum contextVersion);
            ("target_offer_id", JStr target); ("instruction", JStr instruction)]
  | RequestInput question =>
      JObj [("action", JStr "request_input"); ("context_version", JNum contextVersion);
            ("question", JStr question)]
  | CompleteRun summary None =>
      JObj [("action", JStr "complete"); ("context_version", JNum contextVersion);
            ("summary", JStr summary)]
  | CompleteRun summary (Some r) =>
      JObj [("schema_version", JNum 2); ("action", JStr "complete");
            ("context_version", JNum contextVersion); ("summary", JStr summary);
            ("todo", JArr (map JStr (rs_todo r)));
            ("disagreements", JArr (map JStr (rs_disagreements r)))]
  end%string.

Definition new_line : string := String (Ascii.ascii_of_nat 10) EmptyString.

Definition coordinatorPrompt (contextVersion : Z) (allowed : list string) (callsRemaining : Z)
    (mode : option RunMode) (roundsRemaining : option Z) (observation : option string) : string :=
  let number (z : Z) := js_String (JNum z) in
  let names := join ", " allowed in
  join new_line (
    ["You are the coordinator for a bounded PocketCtl Team collaboration run.";
     "Return exactly one JSON object. Never approve tools, invent users, routes, or Agent IDs.";
     "Frozen context_version: " +:+ number contextVersion +:+ ". Calls remaining after this call: "
       +:+ number callsRemaining +:+ ".";
     "Allowed target_offer_id values: "
       +:+ (if bool_decide (names = "") then "(none)" else names) +:+ "."]%string
    ++ match mode with
       | Some m =>
           ["Mode: " +:+ mode_name m +:+ ". Rounds remaining: "
              +:+ match roundsRemaining with Some n => number n | None => "undefined" end
              +:+ ". Read-only modes cannot write or execute tools with side effects.";
            "Workers must report new verifiable artifacts and conclusions as JSON arrays named artifacts and conclusions. A repeated instruction without new evidence is no progress.";
            "For completion use schema_version:2 with summary, todo:[], disagreements:[] alongside action and context_version."]%string
       | None => []
       end
    ++ ["Allowed forms:"%string;
        json_text (decision_value contextVersion (CallAgent "..." "..."));
        json_text (decision_value contextVersion (RequestInput "..."));
        json_text (decision_value contextVersion (CompleteRun "..." None));
        match observation with
        | Some o => if bool_decide (o = ""%string)
                    then "Choose the next safe action from the shared Context and event history."%string
                    else ("New observation:" +:+ new_line +:+ o)%string
        | None => "Choose the next safe action from the shared Context and event history."%string
        end]).

(** ** A pass of the worker *)

(** The repository calls a pass still has to make.  [PTransition] is the
    worker's own [transition], which handles a session that stopped; [PCancel]
    the transition made while handling it. *)
Inductive Prog : Type :=
| Done
| PDefer
| PCancelPending (next : Prog)
| PSettle (step : Z) (next : TeamRun → Prog)
| PTransition (input : TransitionInput)
| PCancel (input : TransitionInput)
| PSchedule (input : ScheduleInput).

Definition to_state (s : RunState) (reason content : string) (processed : option Z) : Prog :=
  PTransition {| ti_state := s; ti_content := content; ti_reason := Some reason; ti_result := None;
                 ti_question := None; ti_processed := processed |}.

Definition dimension_name (d : BudgetDimension) : string :=
  match d with
  | BudgetCalls => "calls" | BudgetDuration => "duration"
  | BudgetConcurrency => "concurrency" | BudgetRounds => "rounds"
  end.

(** [handleContinuationError]: what is done about the error, if anything. *)
Definition handleContinuationError (input : TransitionInput) (err : RunError) : option Prog :=
  let cancelled (reason content : string) :=
    PCancel {| ti_state := RunCancelled; ti_content := content; ti_reason := Some reason;
               ti_result := ti_result input; ti_question := ti_question input;
               ti_processed := ti_processed input |} in
  match err with
  | TeamRunSessionStateError SessionPaused => Some PDefer
  | TeamRunSessionStateError _ =>
      Some (cancelled "session_ended" "Run stopped because its shared session ended.")%string
  | TeamRunAuthorityError =>
      Some (cancelled "initiator_unavailable"
        "Run stopped because its initiator no longer has access to the shared session.")%string
  | _ => None
  end.

Definition run_error_code (err : RunError) : option string :=
  match err with RunTeamError (TeamRepositoryError code _ _) => Some code | _ => None end.

(** [schedule]'s [catch]; [Done] also stands for an error thrown out of the pass. *)
Definition schedule_failed (input : ScheduleInput) (err : RunError) : Prog :=
  let processed := Some (si_processed input) in
  let base := {| ti_state := RunReady; ti_content := ""; ti_reason := None; ti_result := None;
                 ti_question := None; ti_processed := processed |} in
  match handleContinuationError base err with
  | Some next => next
  | None =>
      if bool_decide (run_error_code err = Some "team_feature_disabled"%string)
      then to_state RunBlocked "feature_disabled"
             "Run paused because discussion scheduling is disabled." processed
      else if bool_decide (run_error_code err = Some "agent_unavailable"%string)
      then to_state RunBlocked "agent_unavailable"
             "Run blocked because its target Agent is unavailable." processed
      else match err with
           | TeamRunBudgetError d =>
               to_state RunFailed "budget_exhausted"
                 ("Run stopped because its frozen " +:+ dimension_name d +:+ " budget was exhausted.")
                 processed
           | _ => Done
           end
  end.

(** The next repository call of a pass. *)
Definition exec (sha256 : string → string) (tokens : string → list string) (poll : Z)
    (e : RunEnv) (db : RunDb) (runId : string) (token : Z) (p : Prog) : RunDb * Prog :=
  match p with
  | Done => (db, Done)
  | PDefer => (defer e db runId token poll, Done)
  | PCancelPending next => (cancelPending e db runId token, next)
  | PSettle step next =>
      match settleRound sha256 tokens e db runId token step with
      | inr (db', run) => (db', next run)
      | inl _ => (db, Done)
      end
  | PTransition input =>
      match transitionRun e db runId token input with
      | inr (db', _) => (db', Done)
      | inl err => (db, default Done (handleContinuationError input err))
      end
  | PCancel input =>
      match transitionRun e db runId token input with
      | inr (db', _) => (db', Done)
      | inl _ => (db, Done)
      end
  | PSchedule input =>
      match scheduleCall e db runId token input with
      | inr db' => (db', Done)
      | inl err => (db, schedule_failed input err)
      end
  end.

Definition scheduleCoordinator (run : TeamRun) (allowed : list string) (processed : Z)
    (observation : option string) : Prog :=
  let t := rn_terms run in
  let pg := rn_progress run in
  let moded := bool_decide (is_Some (tm_mode t)) in
  if moded && match tm_max_rounds t with Some m => m <=? pg_rounds pg | None => false end
  then to_state RunFailed "rounds_exhausted" "Run stopped at its frozen round limit." (Some processed)
  else if bg_max_calls (tm_budget t) <=? pg_calls pg
  then to_state RunFailed "budget_exhausted" "Run stopped because its call budget was exhausted."
         (Some processed)
  else if moded && (2 <=? pg_no_progress pg)
  then to_state RunBlocked "no_progress"
         "Run blocked after two settled rounds without new structured evidence or conclusions."
         (Some processed)
  else PSchedule {|
    si_offer := tm_coordinator t; si_role := Coordinator; si_processed := processed;
    si_content := coordinatorPrompt (tm_context t) allowed
      (Z.max 0 (bg_max_calls (tm_budget t) - pg_calls pg - 1)) (tm_mode t)
      (match tm_max_rounds t with Some m => Some (Z.max 0 (m - pg_rounds pg)) | None => None end)
      observation |}.

(** The run is stopped: cancel what is pending, wait for what is under way. *)
Definition stop_pass (run : TeamRun) (latest : option RunCall) (block : option BlockReason) : Prog :=
  let cancelled := to_state RunCancelled
    (if st_stop (rn_status run) then "stop_requested"%string
     else match block with Some b => block_reason_text b | None => "" end)
    "Run cancelled after all accepted calls settled." None in
  PCancelPending
    match latest with
    | Some c =>
        if bool_decide (cl_state c ∈ [CallDispatched; CallAccepted]) then PDefer
        else if bool_decide (cl_state c = CallUncertain) then
          if bool_decide (st_state (rn_status run) = RunBlocked)
             && reason_is (st_reason (rn_status run)) "dispatch_uncertain"
          then PDefer
          else to_state RunBlocked "dispatch_uncertain"
                 "Run stop is blocked until an uncertain call is reconciled." None
        else cancelled
    | None => cancelled
    end.

Definition deadline_pass (latest : option RunCall) : Prog :=
  PCancelPending
    (if match latest with
        | Some c => bool_decide (cl_state c ∈ [CallDispatched; CallAccepted; CallUncertain])
        | None => false
        end
     then to_state RunBlocked "run_deadline_reconcile_required"
            "Run time budget expired; in-flight or uncertain calls require reconciliation." None
     else to_state RunFailed "budget_exhausted"
            "Run stopped because its wall-time budget was exhausted." None).

Definition call_state_name (s : CallState) : string :=
  match s with
  | CallPending => "pending" | CallDispatched => "dispatched" | CallAccepted => "accepted"
  | CallUncertain => "uncertain" | CallCompleted => "completed" | CallFailed => "failed"
  | CallBlocked => "blocked" | CallCancelled => "cancelled"
  end.

Definition observation_of (c : RunCall) : string :=
  if bool_decide (cl_state c = CallCompleted)
  then "Agent " +:+ cl_offer c +:+ " completed:" +:+ new_line
       +:+ default "(no public response)"%string (call_response c)
  else "Agent " +:+ cl_offer c +:+ " ended in state "
       +:+ call_state_name (cl_state c)
       +:+ ": " +:+ default "no outcome"%string (cl_outcome c).

(** A worker's call has settled: count the round, then ask the coordinator. *)
Definition worker_settled (run : TeamRun) (c : RunCall) (allowed : list string) : Prog :=
  let observe (run' : TeamRun) := scheduleCoordinator run' allowed (cl_step c) (Some (observation_of c)) in
  match tm_mode (rn_terms run) with
  | None => observe run
  | Some _ =>
      PSettle (cl_step c) (λ run',
        let pg := rn_progress run' in
        if (2 <=? pg_no_progress pg)
           && match tm_max_rounds (rn_terms run') with Some m => pg_rounds pg <? m | None => true end
        then to_state RunBlocked "no_progress"
               "Run blocked after two settled rounds without new structured evidence or conclusions."
               (Some (cl_step c))
        else observe run')
  end.

(** The coordinator answered: follow its decision. *)
Definition follow_decision (run : TeamRun) (c : RunCall) (allowed : list string) : Prog :=
  let processed := Some (cl_step c) in
  match parseTeamRunDecision (default ""%string (call_response c)) (tm_context (rn_terms run)) allowed with
  | inr (CallAgent target instruction) =>
      PSchedule {| si_offer := target; si_role := Worker; si_content := instruction;
                   si_processed := cl_step c |}
  | inr (RequestInput question) =>
      PTransition {| ti_state := RunWaiting;
                     ti_content := "Coordinator requested participant input: " +:+ question;
                     ti_reason := None; ti_result := None; ti_question := Some question;
                     ti_processed := processed |}
  | inr (CompleteRun summary result) =>
      PTransition {| ti_state := RunCompleted; ti_content := summary;
                     ti_reason := Some "coordinator_completed"%string; ti_result := result;
                     ti_question := None; ti_processed := processed |}
  | inl message =>
      to_state RunBlocked "invalid_coordinator_decision" ("Run blocked: " +:+ message +:+ ".") processed
  end.

(** [processOne] after [loadWork]. *)
Definition process (clock : Z) (snapshot : TeamRunWorkSnapshot) : Prog :=
  let run := wk_run snapshot in
  let t := rn_terms run in
  let latest := wk_latest snapshot in
  if st_stop (rn_status run) || bool_decide (is_Some (wk_block snapshot))
  then stop_pass run latest (wk_block snapshot)
  else if tm_deadline t <=? clock then deadline_pass latest
  else
    let found := find_first (λ b : string * bool, bool_decide (b.1 = tm_coordinator t))
                   (wk_bindings snapshot) in
    if negb match found with Some b => b.2 | None => false end
    then to_state RunBlocked "coordinator_unavailable"
           "Run is blocked because its coordinator Agent is unavailable." None
    else
      let allowed := map fst (bfilter (λ b : string * bool,
        b.2 && negb (bool_decide (b.1 = tm_coordinator t))) (wk_bindings snapshot)) in
      match latest with
      | None => scheduleCoordinator run allowed 0 (wk_member_input snapshot)
      | Some c =>
          if cl_step c <=? pg_processed (rn_progress run)
          then scheduleCoordinator run allowed (cl_step c)
                 (match cl_role c with Worker => call_response c | Coordinator => wk_member_input snapshot end)
          else if bool_decide (cl_state c ∈ [CallPending; CallDispatched; CallAccepted]) then PDefer
          else if bool_decide (cl_state c = CallUncertain)
          then to_state RunBlocked "dispatch_uncertain"
                 "Run is blocked because a call outcome is uncertain and will not be retried automatically."
                 (Some (cl_step c))
          else match cl_role c with
               | Worker => worker_settled run c allowed
               | Coordinator =>
                   if bool_decide (cl_state c = CallCompleted) then follow_decision run c allowed
                   else to_state RunBlocked "coordinator_unavailable"
                          ("Coordinator call ended in state " +:+ call_state_name (cl_state c)
                           +:+ "; the coordinator was not replaced.") (Some (cl_step c))
               end
      end.

Fixpoint run_prog (sha256 : string → string) (tokens : string → list string) (poll : Z)
    (e : RunEnv) (fuel : nat) (db : RunDb) (runId : string) (token : Z) (p : Prog) : RunDb * Prog :=
  match fuel with
  | O => (db, p)
  | S fuel =>
      let '(db', p') := exec sha256 tokens poll e db runId token p in
      run_prog sha256 tokens poll e fuel db' runId token p'
  end.

Definition pass_calls : nat := 4.

(** [processOne] with nothing else happening between its calls. *)
Definition processOne (sha256 : string → string) (tokens : string → list string) (poll leaseMs : Z)
    (workerId : string) (e : RunEnv) (db : RunDb) : RunDb * bool :=
  match claimNext e db workerId leaseMs with
  | None => (db, false)
  | Some (db1, (id, token)) =>
      match loadWork e db1 id token with
      | None => (db1, true)
      | Some snapshot =>
          ((run_prog sha256 tokens poll e pass_calls db1 id token (process (re_clock e) snapshot)).1, true)
      end
  end.

(** ** Calls on their way to an agent *)

Definition call_in (l : list CallState) (c : RunCall) : bool := bool_decide (cl_state c ∈ l).

(** The row the dispatcher's [claim] reads for a call. *)
Record DispatchView : Type := {
  dv_attempt : bool; dv_steps_enabled : bool; dv_provider : string; dv_external : bool;
  dv_accounts : bool; dv_session_active : bool; dv_team_active : bool; dv_binding_active : bool;
  dv_offer_active : bool; dv_member_active : bool; dv_online : bool; dv_same_owner : bool;
  dv_capabilities : jsval; dv_delivery_task : bool; dv_busy : bool; dv_config_enabled : bool;
  dv_freeze : team (option FrozenConfig)
}.

Definition dispatch_unavailable (v : DispatchView) : bool :=
  let has := includes_string (dv_capabilities v) in
  let provider (p : string) := bool_decide (dv_provider v = p) in
  negb (dv_session_active v) || negb (dv_team_active v) || negb (dv_binding_active v)
  || negb (dv_offer_active v) || negb (dv_member_active v) || negb (dv_online v)
  || negb (dv_same_owner v)
  || negb (has "team_collaboration_dispatch_v1"%string)
  || negb (has "team_collaboration_context_v1"%string)
  || (dv_delivery_task v && negb (has "team_task_delivery_v1"%string))
  || (dv_attempt v && negb (has "team_task_steps_v1"%string))
  || (provider "agentteams"%string && negb (has "team_external_agentteams_v1"%string))
  || (provider "agentteams"%string && dv_attempt v
      && negb (has "team_external_agentteams_steps_v1"%string))
  || (provider "dsh"%string && negb (has "team_collaboration_dsh_v1"%string)).

Definition config_confirmed (v : DispatchView) (config : FrozenConfig) : bool :=
  match dv_freeze v with inr frozen => bool_decide (frozen = Some config) | inl _ => false end.

(** [claim]: the call that is handed to a daemon, or why it is not. *)
Definition claim_call (v : DispatchView) (c : RunCall) : RunCall :=
  let blocked (outcome : string) := move_call CallBlocked (Some outcome) c in
  if negb (call_in [CallPending] c) then c
  else if dv_attempt v && negb (dv_steps_enabled v) then c
  else if bool_decide (dv_provider v = "agentteams"%string) && negb (dv_external v) then c
  else if negb (dv_accounts v) then blocked "team_access_revoked"%string
  else if dispatch_unavailable v then blocked "agent_unavailable"%string
  else if dv_busy v then blocked "native_session_busy"%string
  else match cl_config c with
       | Some config =>
           if negb (dv_config_enabled v) then blocked "team_config_disabled"%string
           else if config_confirmed v config then move_call CallDispatched (cl_outcome c) c
           else blocked "configuration_requires_confirmation"%string
       | None => move_call CallDispatched (cl_outcome c) c
       end.

Inductive StopState : Type := StopBlocked | StopFailed | StopUncertain.

Definition stop_state (s : StopState) : CallState :=
  match s with StopBlocked => CallBlocked | StopFailed => CallFailed | StopUncertain => CallUncertain end.

Definition stop_call (s : StopState) (outcome : string) (c : RunCall) : RunCall :=
  if call_in [CallDispatched; CallAccepted] c then move_call (stop_state s) (Some outcome) c else c.

Definition markReceiptTimedOut (c : RunCall) : RunCall :=
  if call_in [CallDispatched] c && bool_decide (cl_accepted c = None)
  then move_call CallUncertain (Some "dispatch_timeout"%string) c else c.

Definition markDaemonUncertain (c : RunCall) : RunCall :=
  if call_in [CallDispatched; CallAccepted] c
  then move_call CallUncertain (Some "daemon_disconnected"%string) c else c.

Definition accept_call (now : Z) (c : RunCall) : RunCall :=
  {| cl_step := cl_step c; cl_role := cl_role c; cl_offer := cl_offer c; cl_binding := cl_binding c;
     cl_context := cl_context c; cl_instruction := cl_instruction c; cl_history := cl_history c;
     cl_config := cl_config c; cl_mode := cl_mode c; cl_state := cl_state c;
     cl_outcome := cl_outcome c; cl_accepted := Some (default now (cl_accepted c));
     cl_messages := cl_messages c |}.

Definition recordReceipt (now : Z) (status : string) (reason : option string) (c : RunCall) : RunCall :=
  if negb (call_in [CallDispatched; CallAccepted; CallUncertain] c) then c
  else if bool_decide (status = "accepted"%string)
  then accept_call now (move_call CallAccepted reason c)
  else if bool_decide (reason = Some "duplicate_request"%string)
  then move_call CallUncertain reason c else move_call CallFailed reason c.

(** What [projectDaemonEvent] finds in a daemon's message for the call. *)
Inductive Projection : Type :=
| ProjectText (text : string)
| ProjectWaiting
| ProjectTerminal (status : string) (recovered : bool).

Definition say (text : string) (c : RunCall) : RunCall :=
  {| cl_step := cl_step c; cl_role := cl_role c; cl_offer := cl_offer c; cl_binding := cl_binding c;
     cl_context := cl_context c; cl_instruction := cl_instruction c; cl_history := cl_history c;
     cl_config := cl_config c; cl_mode := cl_mode c; cl_state := cl_state c; cl_outcome := None;
     cl_accepted := cl_accepted c; cl_messages := cl_messages c ++ [text] |}.

(** A terminal that proves how a disconnected call ended. *)
Definition call_recoverable (c : RunCall) : bool :=
  call_in [CallUncertain] c && bool_decide (cl_outcome c = Some "daemon_disconnected"%string)
  && bool_decide (is_Some (cl_accepted c)).

Definition projects (p : Projection) (c : RunCall) : bool :=
  call_in [CallDispatched; CallAccepted] c
  || match p with ProjectTerminal _ recovered => recovered && call_recoverable c | _ => false end.

Definition projected (p : Projection) (c : RunCall) : RunCall :=
  if negb (projects p c) then c
  else match p with
       | ProjectText text => say text c
       | ProjectWaiting => move_call (cl_state c) (Some "waiting_owner"%string) c
       | ProjectTerminal status _ =>
           move_call (if bool_decide (status = "completed"%string) then CallCompleted else CallFailed)
             (Some status) c
       end.

Definition external_stop (c : RunCall) : RunCall :=
  if call_in [CallAccepted; CallUncertain] c && bool_decide (is_Some (cl_accepted c))
  then move_call CallFailed (Some "external_stop_confirmed"%string) c else c.

Definition delete_account_call (c : RunCall) : RunCall :=
  if call_in [CallPending; CallDispatched; CallAccepted] c
  then move_call (if call_in [CallPending] c then CallBlocked else CallUncertain)
         (Some "account_deleted"%string) c
  else c.

Inductive CallOp : Type :=
| OpClaim (v : DispatchView)
| OpStop (s : StopState) (outcome : string)
| OpTimeout
| OpDisconnect
| OpReceipt (status : string) (reason : option string)
| OpProject (p : Projection)
| OpExternalStop
| OpAccountDeleted
| OpParticipantRemoved.

Definition call_op (now : Z) (op : CallOp) : RunCall → RunCall :=
  match op with
  | OpClaim v => claim_call v
  | OpStop s outcome => stop_call s outcome
  | OpTimeout => markReceiptTimedOut
  | OpDisconnect => markDaemonUncertain
  | OpReceipt status reason => recordReceipt now status reason
  | OpProject p => projected p
  | OpExternalStop => external_stop
  | OpAccountDeleted => delete_account_call
  | OpParticipantRemoved => stop_pending "participant_removed"
  end.

(** The operation on the call of one step of a run. *)
Definition call_step (now : Z) (op : CallOp) (step : Z) (db : RunDb) (runId : string) : RunDb :=
  match db_runs db !! runId with
  | Some f => put_run db runId {| rf_run := rf_run f;
      rf_calls := map (λ c, if cl_step c =? step then call_op now op c else c) (rf_calls f) |}
  | None => db
  end.

(** ** Runs stopped from outside *)

Definition with_status (r : RunRow) (st : RunStatus) (revision : Z) (lease : RunLease) : RunRow :=
  let run := teamRunView r in
  {| teamRunView := {| rn_terms := rn_terms run; rn_status := st; rn_progress := rn_progress run;
                       rn_result := rn_result run; rn_revision := revision;
                       rn_started := rn_started run; rn_finished := rn_finished run |};
     row_lease := lease; row_input_through := row_input_through r; row_configs := row_configs r;
     row_progress_hash := row_progress_hash r |}.

Definition stop_row (now : Z) (r : RunRow) : RunRow :=
  let st := row_status r in
  if terminal_run (st_state st) then r
  else with_status r
    {| st_state := st_state st; st_stop := true; st_question := st_question st; st_reason := st_reason st |}
    (rn_revision (teamRunView r))
    {| le_owner := le_owner (row_lease r); le_token := le_token (row_lease r);
       le_expires := le_expires (row_lease r); le_wake := now |}.

(** A participant is removed from a session: its runs are asked to stop. *)
Definition stop_session_runs (now : Z) (sessionId : string) (db : RunDb) : RunDb :=
  with_runs db ((λ f : RunFile,
    if bool_decide (tm_session (row_terms (rf_run f)) = sessionId)
    then {| rf_run := stop_row now (rf_run f); rf_calls := rf_calls f |} else f) <$> db_runs db).

Definition delete_account_row (r : RunRow) : RunRow :=
  let st := row_status r in
  if terminal_run (st_state st) then r
  else with_status r
    {| st_state := RunBlocked; st_stop := false; st_question := st_question st;
       st_reason := Some "account_deleted"%string |}
    (rn_revision (teamRunView r) + 1)
    {| le_owner := None; le_token := le_token (row_lease r) + 1; le_expires := None;
       le_wake := le_wake (row_lease r) |}.

(** [offerOwner] finds the owner of an offer; [owned] are the teams that go. *)
Definition delete_account_runs (actor : Z) (owned : list string) (offerOwner : string → option Z)
    (db : RunDb) : RunDb :=
  let affected (t : RunTerms) :=
    (tm_initiator t =? actor)
    || match db_sessions db !! tm_session t with
       | Some s => bool_decide (ts_team s ∈ owned) | None => false end
    || bool_decide (offerOwner (tm_coordinator t) = Some actor) in
  with_runs db ((λ f : RunFile,
    if affected (row_terms (rf_run f))
    then {| rf_run := delete_account_row (rf_run f); rf_calls := rf_calls f |} else f) <$> db_runs db).

(** ** The service *)

Record RunBudgetRequest : Type := {
  br_max_calls : option Z; br_max_concurrent_calls : option Z; br_max_duration_seconds : option Z
}.

Definition budgetInteger (value maximum : Z) (field : string) : runm Z :=
  need? is_safe_integer value && (1 <=? value) && (value <=? maximum)
  else run_error "budget_exhausted"
    (field +:+ " must be an integer between 1 and " +:+ js_String (JNum maximum)) in
  inr value.

(** [{ ...DEFAULT_TEAM_RUN_BUDGET, ...value }], checked. *)
Definition normalizeTeamRunBudget (value : RunBudgetRequest) : runm TeamRunBudget :=
  get? calls := budgetInteger (default 12 (br_max_calls value)) 100 "max_calls" in
  get? concurrent := budgetInteger (default 2 (br_max_concurrent_calls value)) 8
    "max_concurrent_calls" in
  get? duration := budgetInteger (default 1800 (br_max_duration_seconds value)) 86400
    "max_duration_seconds" in
  need? concurrent <=? calls
  else run_error "budget_exhausted" "max_concurrent_calls cannot exceed max_calls" in
  inr {| bg_max_calls := calls; bg_max_concurrent_calls := concurrent;
         bg_max_duration_seconds := duration |}.

Record CreateRequest : Type := {
  cq_session : string; cq_actor : Z; cq_coordinator : string; cq_context : Z;
  cq_mode : option RunMode; cq_participants : option (list string); cq_max_rounds : option Z;
  cq_budget : RunBudgetRequest; cq_request : string
}.

Definition service_create (sha256 : string → string) (e : RunEnv) (db : RunDb) (q : CreateRequest)
    : runm (RunDb * TeamRunMutation) :=
  let asked := cq_budget q in
  let moded := bool_decide (is_Some (cq_mode q)) in
  need? negb (moded && (2 <? default 2 (br_max_concurrent_calls asked)))
  else run_error "budget_exhausted" "v2 concurrency cannot exceed 2" in
  get? budget := normalizeTeamRunBudget
    (if moded then {| br_max_calls := Some (default 20 (br_max_calls asked));
                      br_max_concurrent_calls := br_max_concurrent_calls asked;
                      br_max_duration_seconds := br_max_duration_seconds asked |} else asked) in
  createRun sha256 e db
    {| cr_session := cq_session q; cr_actor := cq_actor q; cr_coordinator := cq_coordinator q;
       cr_context := cq_context q; cr_mode := cq_mode q;
       cr_participants := default [] (cq_participants q); cr_max_rounds := default 3 (cq_max_rounds q);
       cr_budget := budget; cr_request := cq_request q |}.
