(* ===== verification/TeamRunSpec.v ===== *)
(** * TeamRunSpec: what automatic runs guarantee under every interleaving.

    [Sys] is the tables together with the passes of the workers, named by the
    run and the lease token they were given.  [sys_step] makes one transaction
    of a user, of a pass, of the dispatcher or of the code that stops runs, or
    changes the other tables in any way; clocks are arbitrary.  The invariant
    [sys_ok] says that every run stays within its frozen budget, that calls are
    numbered in order, that an agent is called only on the word of the
    coordinator, and that what a pass read is still true while its lease is. *)

From S2P Require Import Prelude JsValue JsMap StrictJson JsonRoundTrip DeliveryContract TaskPlan PlanService StepExecution TeamRun.

#[local] Open Scope Z_scope.
#[local] Open Scope run_scope.

(** ** The system *)

Inductive Pass : Type :=
| PassClaimed
| PassRead (r : RunRow)
| PassAt (p : Prog).

Record Sys : Type := { sy_db : RunDb; sy_passes : gmap (string * Z) Pass }.

Inductive Label : Type :=
| LCreate (e : RunEnv) (q : CreateRequest)
| LControl (e : RunEnv) (id : string) (actor : Z) (a : RunAction) (expected : Z) (request : string)
| LSupplement (e : RunEnv) (id : string) (actor : Z) (content : string) (expected : Z) (request : string)
| LWorld (sessions : gmap string TeamSession) (events : list TeamEvent)
         (receipts : gmap (Z * string * string) RunReceipt)
| LCall (now : Z) (op : CallOp) (step : Z) (id : string)
| LStopRuns (now : Z) (sessionId : string)
| LDeleteAccount (actor : Z) (owned : list string) (offerOwner : string → option Z)
| LClaim (e : RunEnv) (worker : string) (leaseMs : Z)
| LRead (e : RunEnv) (id : string) (token : Z)
| LLoad (e : RunEnv) (id : string) (token : Z)
| LExec (e : RunEnv) (poll : Z) (id : string) (token : Z)
| LCrash (id : string) (token : Z).

Section system.
Context (sha256 : string → string) (tokens : string → list string).

Definition at_db (s : Sys) (db : RunDb) : Sys := {| sy_db := db; sy_passes := sy_passes s |}.

Definition at_pass (s : Sys) (key : string * Z) (p : Pass) : Sys :=
  {| sy_db := sy_db s; sy_passes := <[key := p]> (sy_passes s) |}.

Definition committed {A} (s : Sys) (m : runm (RunDb * A)) : option Sys :=
  match m with inr (db, _) => Some (at_db s db) | inl _ => None end.

Definition apply_label (s : Sys) (l : Label) : option Sys :=
  let db := sy_db s in
  match l with
  | LCreate e q => committed s (service_create sha256 e db q)
  | LControl e id actor a expected request => committed s (controlRun sha256 e db id actor a expected request)
  | LSupplement e id actor content expected request =>
      committed s (supplement sha256 e db id actor content expected request)
  | LWorld sessions events receipts =>
      Some (at_db s {| db_sessions := sessions; db_runs := db_runs db; db_events := events;
                       db_receipts := receipts |})
  | LCall now op step id => Some (at_db s (call_step now op step db id))
  | LStopRuns now sid => Some (at_db s (stop_session_runs now sid db))
  | LDeleteAccount actor owned offerOwner => Some (at_db s (delete_account_runs actor owned offerOwner db))
  | LClaim e worker leaseMs =>
      match claimNext e db worker leaseMs with
      | Some (db', key) => Some (at_pass (at_db s db') key PassClaimed)
      | None => None
      end
  | LRead e id token =>
      match sy_passes s !! (id, token), load_run e db id token with
      | Some PassClaimed, Some r => Some (at_pass s (id, token) (PassRead r))
      | _, _ => None
      end
  | LLoad e id token =>
      match sy_passes s !! (id, token) with
      | Some (PassRead r) =>
          match load_rest e db id r with
          | Some snapshot => Some (at_pass s (id, token) (PassAt (process (re_clock e) snapshot)))
          | None => None
          end
      | _ => None
      end
  | LExec e poll id token =>
      match sy_passes s !! (id, token) with
      | Some (PassAt p) =>
          let '(db', p') := exec sha256 tokens poll e db id token p in
          Some (at_pass (at_db s db') (id, token) (PassAt p'))
      | _ => None
      end
  | LCrash id token =>
      Some {| sy_db := db; sy_passes := delete (id, token) (sy_passes s) |}
  end.

Inductive sys_step (s s' : Sys) : Prop :=
| sys_label l : apply_label s l = Some s' → sys_step s s'.

Definition no_runs (s : Sys) : Prop := db_runs (sy_db s) = ∅ ∧ sy_passes s = ∅.

Definition reachable (s : Sys) : Prop := ∃ s0, no_runs s0 ∧ rtc sys_step s0 s.

Fixpoint apply_labels (s : Sys) (ls : list Label) : option Sys :=
  match ls with
  | [] => Some s
  | l :: ls' => match apply_label s l with Some s' => apply_labels s' ls' | None => None end
  end.

Lemma apply_labels_rtc ls s s' : apply_labels s ls = Some s' → rtc sys_step s s'.
Proof.
  revert s; induction ls as [|l ls IH]; simpl; intros s H; [by simplify_eq|].
  destruct (apply_label s l) as [s1|] eqn:E; [|done].
  eapply rtc_l; [by econstructor|]. by apply IH.
Qed.
End system.

(** ** Calls *)

(** What may happen to a call once it is there. *)
Record moves (c c' : RunCall) : Prop := {
  mv_step : cl_step c' = cl_step c;
  mv_role : cl_role c' = cl_role c;
  mv_offer : cl_offer c' = cl_offer c;
  mv_instruction : cl_instruction c' = cl_instruction c;
  mv_final : active_call (cl_state c) = false → c' = c
}.

Lemma moves_refl c : moves c c.
Proof. by constructor. Qed.

Lemma moves_to s o c : active_call (cl_state c) = true → moves c (move_call s o c).
Proof. intros H. constructor; simpl; try done. congruence. Qed.

#[export] Hint Resolve moves_refl moves_to : pc.

Lemma call_in_active l c :
  call_in l c = true → (∀ s, s ∈ l → active_call s = true) → active_call (cl_state c) = true.
Proof. unfold call_in. intros H Hl. bool_hyps. by apply Hl. Qed.

(** Close a goal about a call that one of the dispatcher's guards let through. *)
Ltac guarded :=
  match goal with
  | H : call_in _ ?c = true |- _ =>
      assert (active_call (cl_state c) = true) by (apply (call_in_active _ _ H); by set_unfold; intros ? ?; destruct_or!; subst)
  end.

Lemma stop_pending_moves outcome c : moves c (stop_pending outcome c).
Proof. unfold stop_pending. case_goal; auto with pc. bool_hyps. apply moves_to. by rewrite E. Qed.

Lemma call_op_moves now op c : moves c (call_op now op c).
Proof.
  destruct op; simpl.
  - unfold claim_call. destruct (call_in [CallPending] c) eqn:E; simpl; [|apply moves_refl].
    guarded. repeat case_goal; auto with pc.
  - unfold stop_call. case_goal; [guarded|]; auto with pc.
  - unfold markReceiptTimedOut. case_goal; [bool_hyps; guarded|]; auto with pc.
  - unfold markDaemonUncertain. case_goal; [guarded|]; auto with pc.
  - unfold recordReceipt. destruct (call_in _ c) eqn:E; simpl; [guarded|apply moves_refl].
    repeat case_goal; auto with pc. constructor; simpl; try done. congruence.
  - unfold projected, projects. destruct (call_in _ c) eqn:E; simpl.
    + guarded. destruct p; auto with pc. constructor; simpl; try done. congruence.
    + destruct p as [| |status []]; simpl; auto with pc.
      destruct (call_recoverable c) eqn:R; simpl; auto with pc.
      unfold call_recoverable in R. bool_hyps. guarded. auto with pc.
  - unfold external_stop. case_goal; [bool_hyps; guarded|]; auto with pc.
  - unfold delete_account_call. case_goal; [guarded|]; auto with pc.
  - apply stop_pending_moves.
Qed.

(** Moving calls keeps their number and never makes more of them active. *)
Lemma active_calls_moves calls calls' :
  Forall2 moves calls calls' → active_calls calls' ≤ active_calls calls.
Proof.
  unfold active_calls. induction 1 as [|c c' l l' M _ IH]; [done|]. cbn [bfilter].
  destruct (active_call (cl_state c)) eqn:E.
  - destruct (active_call (cl_state c')); cbn [length]; lia.
  - rewrite (mv_final _ _ M E), E. done.
Qed.

(** ** Runs *)

(** The coordinator's call before step [n + 1] asked for this call. *)
Definition decided (t : RunTerms) (calls : list RunCall) (n : nat) (offer instruction : string) : Prop :=
  ∃ j p allowed, n = S j ∧ calls !! j = Some p ∧ cl_role p = Coordinator
    ∧ cl_state p = CallCompleted ∧ tm_coordinator t ∉ allowed
    ∧ parseTeamRunDecision (default ""%string (call_response p)) (tm_context t) allowed
      = inr (CallAgent offer instruction).

Definition called_ok (t : RunTerms) (calls : list RunCall) (i : nat) (c : RunCall) : Prop :=
  match cl_role c with
  | Coordinator => cl_offer c = tm_coordinator t
  | Worker => decided t calls i (cl_offer c) (cl_instruction c)
  end.

Definition budget_ok (b : TeamRunBudget) : Prop :=
  1 ≤ bg_max_calls b ≤ 100 ∧ 1 ≤ bg_max_concurrent_calls b ≤ 8
  ∧ bg_max_concurrent_calls b ≤ bg_max_calls b ∧ 1 ≤ bg_max_duration_seconds b ≤ 86400.

(** The counters of a run against its calls and its terms. *)
Record counts_ok (t : RunTerms) (pg : RunProgress) (n : Z) : Prop := {
  ct_calls : pg_calls pg = n;
  ct_next : pg_next_step pg = n + 1;
  ct_processed : 0 ≤ pg_processed pg ≤ n;
  ct_budget : n ≤ bg_max_calls (tm_budget t);
  ct_rounds : ∀ m, tm_max_rounds t = Some m →
    0 ≤ pg_rounds pg ≤ m ∧ (pg_processed pg < n → pg_rounds pg < m)
}.

Record file_ok (f : RunFile) : Prop := {
  fo_steps : ∀ i c, rf_calls f !! i = Some c → cl_step c = Z.of_nat i + 1;
  fo_frozen : budget_ok (tm_budget (row_terms (rf_run f)));
  fo_counts : counts_ok (row_terms (rf_run f)) (row_progress (rf_run f)) (len (rf_calls f));
  fo_active : active_calls (rf_calls f) ≤ bg_max_concurrent_calls (tm_budget (row_terms (rf_run f)));
  fo_called : ∀ i c, rf_calls f !! i = Some c → called_ok (row_terms (rf_run f)) (rf_calls f) i c;
  fo_members : ∀ ids c, tm_participants (row_terms (rf_run f)) = Some ids → c ∈ rf_calls f →
    cl_offer c ∈ ids;
  fo_final : terminal_run (run_row_state (rf_run f)) = true → le_expires (row_lease (rf_run f)) = None
}.

Lemma decided_moves t calls calls' n offer instruction :
  Forall2 moves calls calls' → decided t calls n offer instruction → decided t calls' n offer instruction.
Proof.
  intros M (j & p & allowed & -> & Hp & Hr & Hs & Ha & Hd).
  destruct (Forall2_lookup_l _ _ _ _ _ M Hp) as (p' & Hp' & Mp).
  rewrite (mv_final _ _ Mp) in Hp' by by rewrite Hs.
  by exists j, p, allowed.
Qed.

Lemma decided_app t calls more n offer instruction :
  decided t calls n offer instruction → decided t (calls ++ more) n offer instruction.
Proof.
  intros (j & p & allowed & -> & Hp & H). exists j, p, allowed.
  split; [done|]. split; [by apply lookup_app_l_Some|done].
Qed.

Lemma called_ok_moves t calls calls' i c c' :
  Forall2 moves calls calls' → moves c c' → called_ok t calls i c → called_ok t calls' i c'.
Proof.
  intros M Mc. unfold called_ok. rewrite (mv_role _ _ Mc), (mv_offer _ _ Mc), (mv_instruction _ _ Mc).
  destruct (cl_role c); [done|]. by apply decided_moves.
Qed.

(** [pg'] may have processed more of the [n] calls than [pg]. *)
Definition advances (pg pg' : RunProgress) (n : Z) : Prop :=
  pg_calls pg' = pg_calls pg ∧ pg_next_step pg' = pg_next_step pg ∧ pg_rounds pg' = pg_rounds pg
  ∧ pg_processed pg ≤ pg_processed pg' ≤ Z.max (pg_processed pg) n.

Lemma advances_refl pg n : advances pg pg n.
Proof. unfold advances. lia. Qed.

Lemma counts_advance t pg pg' n : counts_ok t pg n → advances pg pg' n → counts_ok t pg' n.
Proof.
  intros [] (Ha & Hb & Hc & Hd). constructor; try lia.
  intros m Hm. specialize (ct_rounds0 m Hm). rewrite Hc. lia.
Qed.

(** An update of the row that moves no counter but [processed_call_step]. *)
Lemma file_ok_row f r :
  file_ok f → row_terms r = row_terms (rf_run f) →
  advances (row_progress (rf_run f)) (row_progress r) (len (rf_calls f)) →
  (terminal_run (run_row_state r) = true → le_expires (row_lease r) = None) →
  file_ok {| rf_run := r; rf_calls := rf_calls f |}.
Proof.
  intros [] Ht Hp Hf. constructor; simpl; rewrite ?Ht; try done. by eapply counts_advance.
Qed.

(** An update of calls that leaves the settled ones alone. *)
Lemma file_ok_calls f calls :
  file_ok f → Forall2 moves (rf_calls f) calls → file_ok {| rf_run := rf_run f; rf_calls := calls |}.
Proof.
  intros [] M. constructor; simpl; try done.
  - intros i c' Hc'. destruct (Forall2_lookup_r _ _ _ _ _ M Hc') as (c & Hc & Mc).
    rewrite (mv_step _ _ Mc). by apply fo_steps0.
  - by rewrite <-(Forall2_length _ _ _ M).
  - pose proof (active_calls_moves _ _ M). lia.
  - intros i c' Hc'. destruct (Forall2_lookup_r _ _ _ _ _ M Hc') as (c & Hc & Mc).
    by eapply called_ok_moves, fo_called0.
  - intros ids c' Hids (i & Hc')%list_elem_of_lookup.
    destruct (Forall2_lookup_r _ _ _ _ _ M Hc') as (c & Hc & Mc). rewrite (mv_offer _ _ Mc).
    eapply fo_members0; [done|]. by eapply list_elem_of_lookup_2.
Qed.

Lemma file_ok_new e input seq configs :
  budget_ok (cr_budget input) → (cr_mode input ≠ None → 1 ≤ cr_max_rounds input) →
  file_ok {| rf_run := new_run e input seq configs; rf_calls := [] |}.
Proof.
  intros Hb Hm. constructor; simpl; try done.
  - constructor; simpl; try (destruct Hb; lia).
    intros m. destruct (cr_mode input); [|done]. intros [= <-]. specialize (Hm ltac:(done)). lia.
  - destruct Hb as (? & ? & _). unfold active_calls. simpl. lia.
  - intros ids c _ []%elem_of_nil.
Qed.

(** A call added by [scheduleCall], under the conditions it checks and those a
    pass brings. *)
Lemma file_ok_schedule f c now processed :
  file_ok f →
  cl_step c = pg_next_step (row_progress (rf_run f)) → cl_state c = CallPending →
  pg_calls (row_progress (rf_run f)) < bg_max_calls (tm_budget (row_terms (rf_run f))) →
  active_calls (rf_calls f) < bg_max_concurrent_calls (tm_budget (row_terms (rf_run f))) →
  (∀ ids, tm_participants (row_terms (rf_run f)) = Some ids → cl_offer c ∈ ids) →
  called_ok (row_terms (rf_run f)) (rf_calls f) (length (rf_calls f)) c →
  0 ≤ processed ≤ len (rf_calls f) →
  (∀ m, tm_max_rounds (row_terms (rf_run f)) = Some m → pg_rounds (row_progress (rf_run f)) < m) →
  file_ok {| rf_run := scheduled now processed (rf_run f); rf_calls := rf_calls f ++ [c] |}.
Proof.
  intros [Hs Hz [] Ha Hc Hm Hf] Hstep Hpend Hcalls Hact Hids Hok Hp Hr.
  constructor; simpl; try done.
  - intros i d [[_ Hd]|[-> Hd]]%lookup_snoc_Some; [by apply Hs|]. subst. lia.
  - rewrite len_app. constructor; cbn; unfold row_progress, row_terms in *; try lia.
    intros m Hmm. specialize (ct_rounds0 m Hmm). specialize (Hr m Hmm). lia.
  - unfold active_calls in *. rewrite bfilter_app, len_app. simpl. rewrite Hpend. simpl.
    unfold row_terms in *. simpl in *. lia.
  - intros i d [[_ Hd]|[-> Hd]]%lookup_snoc_Some.
    + specialize (Hc i d Hd). unfold called_ok in *. destruct (cl_role d); [done|]. by apply decided_app.
    + subst d. unfold called_ok in *. destruct (cl_role c); [done|]. by apply decided_app.
  - intros ids d Hd [Hin|Hin%list_elem_of_singleton]%elem_of_app; [by eapply Hm|]. subst. by apply Hids.
Qed.

(** A round counted by [settleRound] for the last call. *)
Lemma file_ok_settle f noProgress progress :
  file_ok f → pg_processed (row_progress (rf_run f)) < len (rf_calls f) →
  file_ok {| rf_run := round_settled (len (rf_calls f)) noProgress progress (rf_run f); rf_calls := rf_calls f |}.
Proof.
  intros [Hs Hz [] Ha Hc Hm Hf] Hp. constructor; simpl; try done.
  constructor; cbn; unfold row_progress, row_terms in *; try lia.
  intros m Hmm. specialize (ct_rounds0 m Hmm). lia.
Qed.

(** The last step is the last call. *)
Lemma latest_call_spec f :
  file_ok f →
  match latest_call (rf_calls f) with
  | None => rf_calls f = []
  | Some c => cl_step c = len (rf_calls f) ∧ rf_calls f !! (length (rf_calls f) - 1)%nat = Some c
  end.
Proof.
  intros [Hs _ _ _ _ _ _]. destruct (rf_calls f) as [|c0 rest]; [done|]. simpl latest_call.
  pose (pick := λ best y : RunCall, if cl_step best <? cl_step y then y else best).
  assert (∀ l done best, (∀ i c, (done ++ [best] ++ l) !! i = Some c → cl_step c = Z.of_nat i + 1) →
    cl_step (fold_left pick l best) = len (done ++ [best] ++ l)
    ∧ (done ++ [best] ++ l) !! (length (done ++ [best] ++ l) - 1)%nat = Some (fold_left pick l best)) as H.
  { induction l as [|y l IH]; intros dn best Hl; simpl.
    - split.
      + rewrite (Hl (length dn) best), len_app by (by rewrite lookup_app_r, Nat.sub_diag by lia).
        simpl. lia.
      + rewrite length_app, lookup_app_r by (simpl; lia). simpl.
        by replace (_ + 1 - 1 - _)%nat with 0%nat by lia.
    - assert (cl_step best < cl_step y) as Hlt.
      { rewrite (Hl (length dn) best), (Hl (S (length dn)) y); [lia| |].
        - rewrite lookup_app_r by lia. by replace (S _ - _)%nat with 1%nat by lia.
        - by rewrite lookup_app_r, Nat.sub_diag by lia. }
      unfold pick at 2 4. apply Z.ltb_lt in Hlt as ->.
      specialize (IH (dn ++ [best]) y). rewrite <-!app_assoc in IH. by apply IH. }
  exact (H rest [] c0 Hs).
Qed.

(** ** Programs of passes *)

(** What a program may still do to a run with these calls.  After a round has
    been counted ([fresh = false]) it no longer calls an agent on a decision. *)
Fixpoint prog_ok (t : RunTerms) (calls : list RunCall) (processed : Z) (fresh : bool) (p : Prog) : Prop :=
  match p with
  | Done | PDefer => True
  | PCancelPending next => prog_ok t calls processed fresh next
  | PSettle step next =>
      step = len calls ∧ ∀ run, rn_terms run = t → prog_ok t calls processed false (next run)
  | PTransition i | PCancel i => default 0 (ti_processed i) ≤ len calls
  | PSchedule i =>
      si_processed i = len calls ∧
      match si_role i with
      | Coordinator => si_offer i = tm_coordinator t
      | Worker => fresh = true ∧ processed < len calls
                  ∧ decided t calls (length calls) (si_offer i) (si_content i)
      end
  end.

Lemma prog_ok_late t calls calls' pr pr' fresh p :
  length calls' = length calls → prog_ok t calls pr false p → prog_ok t calls' pr' fresh p.
Proof.
  intros Hl. revert fresh; induction p as [| |next IH|step next IH|i|i|i]; simpl; intros fresh; rewrite ?Hl; auto.
  - intros [-> H]. split; [done|]. intros run Hr. by apply IH, H.
  - intros [-> H]. split; [done|]. destruct (si_role i); naive_solver.
Qed.

Lemma prog_ok_moves t calls calls' pr fresh p :
  Forall2 moves calls calls' → prog_ok t calls pr fresh p → prog_ok t calls' pr fresh p.
Proof.
  intros M. pose proof (Forall2_length _ _ _ M) as Hl.
  revert fresh; induction p as [| |next IH|step next IH|i|i|i]; simpl; intros fresh; rewrite <-?Hl; auto.
  - intros [-> H]. split; [done|]. intros run Hr. by apply IH, H.
  - intros [-> H]. split; [done|]. destruct (si_role i); [done|].
    destruct H as (? & ? & ?). eauto using decided_moves.
Qed.

Lemma scheduleCoordinator_ok t calls pr fresh run allowed observation :
  rn_terms run = t → prog_ok t calls pr fresh (scheduleCoordinator run allowed (len calls) observation).
Proof. intros <-. unfold scheduleCoordinator. repeat case_goal; simpl; done || lia. Qed.

Lemma worker_settled_ok t calls pr run c allowed :
  rn_terms run = t → cl_step c = len calls → prog_ok t calls pr true (worker_settled run c allowed).
Proof.
  intros Ht Hc. unfold worker_settled. rewrite Hc. case_goal; simpl.
  - split; [done|]. intros run' Hr. destruct ((2 <=? _) && _); simpl; [lia|]. by apply scheduleCoordinator_ok.
  - by apply scheduleCoordinator_ok.
Qed.

Lemma stop_pass_ok t calls pr run latest block : prog_ok t calls pr true (stop_pass run latest block).
Proof. unfold stop_pass. simpl. repeat case_goal; simpl; done || lia. Qed.

Lemma deadline_pass_ok t calls pr latest : prog_ok t calls pr true (deadline_pass latest).
Proof. unfold deadline_pass. simpl. repeat case_goal; simpl; lia. Qed.

Lemma follow_decision_ok t calls pr run c allowed :
  rn_terms run = t → cl_step c = len calls → calls !! (length calls - 1)%nat = Some c →
  cl_role c = Coordinator → cl_state c = CallCompleted → tm_coordinator t ∉ allowed →
  pr < len calls → prog_ok t calls pr true (follow_decision run c allowed).
Proof.
  intros <- Hc Hl Hr Hs Ha Hp. unfold follow_decision.
  destruct (parseTeamRunDecision _ _ _) as [|[target instruction|question|summary result]] eqn:E;
    simpl; rewrite ?Hc; try lia.
  split; [done|]. split; [done|]. split; [lia|].
  exists (length calls - 1)%nat, c, allowed. split; [|done].
  apply lookup_lt_Some in Hl. lia.
Qed.

(** What a pass makes of a snapshot fits the run it was taken of. *)
Lemma process_ok f clock snapshot :
  file_ok f → rn_terms (wk_run snapshot) = row_terms (rf_run f) →
  pg_processed (rn_progress (wk_run snapshot)) = pg_processed (row_progress (rf_run f)) →
  wk_latest snapshot = latest_call (rf_calls f) →
  prog_ok (row_terms (rf_run f)) (rf_calls f) (pg_processed (row_progress (rf_run f))) true
    (process clock snapshot).
Proof.
  intros Hf Ht Hp Hl. pose proof (latest_call_spec f Hf) as HL. unfold process. rewrite Hl.
  case_goal; [apply stop_pass_ok|]. case_goal; [apply deadline_pass_ok|].
  destruct (negb _); [simpl; lia|].
  destruct (latest_call (rf_calls f)) as [c|].
  - destruct HL as [Hs Hlast]. case_goal; [rewrite Hs; by apply scheduleCoordinator_ok|].
    repeat (case_goal; [simpl; rewrite ?Hs; done || lia|]). bool_hyps.
    destruct (cl_role c) eqn:Er.
    + case_goal; [|simpl; rewrite Hs; lia]. bool_hyps.
      apply follow_decision_ok; auto; [|lia].
      rewrite <-Ht. intros ((o & b) & Ho & [Hb _]%elem_of_bfilter)%list_elem_of_fmap.
      simpl in *. bool_hyps. congruence.
    + by apply worker_settled_ok.
  - pose proof (scheduleCoordinator_ok (row_terms (rf_run f)) (rf_calls f)
      (pg_processed (row_progress (rf_run f))) true) as H.
    rewrite HL in *. by apply H.
Qed.

(** ** Reading off the checks of a transaction *)

Lemma require_run_ok {A} b e (m : runm A) x : require_run b e m = inr x → b = true ∧ m = inr x.
Proof. by destruct b. Qed.

Lemma bind_run_ok {A B} (m : runm A) (k : A → runm B) x :
  bind_run m k = inr x → ∃ a, m = inr a ∧ k a = inr x.
Proof. destruct m as [e|a]; [done|]. by exists a. Qed.

Ltac run_ok :=
  repeat match goal with
  | H : require_run _ _ _ = inr _ |- _ => apply require_run_ok in H; destruct H
  | H : bind_run _ _ = inr _ |- _ =>
      let a := fresh "a" in apply bind_run_ok in H; destruct H as (a & ? & H)
  | H : (let '(_, _) := ?a in _) = inr _ |- _ => destruct a
  | H : inr _ = inr _ |- _ => injection H as H; subst
  | H : inl _ = inr _ |- _ => discriminate H
  end.

Lemma append_runs db sid kind author context content db' event :
  append_to_session db sid kind author context content = inr (db', event) → db_runs db' = db_runs db.
Proof. unfold append_to_session. intros H. case_hyp H; by simplify_eq. Qed.

(** ** Leases *)

(** A pass with this token may write the run, by some clock. *)
Definition held (r : RunRow) (token : Z) : Prop :=
  le_token (row_lease r) = token ∧ le_expires (row_lease r) ≠ None.

Lemma lease_held_held now token r : lease_held now token r = true → held r token.
Proof. unfold lease_held. intros H. bool_hyps. split; [done|]. by destruct (le_expires _). Qed.

Definition pass_ok (f : RunFile) (p : Pass) : Prop :=
  match p with
  | PassClaimed => True
  | PassRead r => row_terms r = row_terms (rf_run f)
                  ∧ pg_processed (row_progress r) = pg_processed (row_progress (rf_run f))
  | PassAt p => prog_ok (row_terms (rf_run f)) (rf_calls f) (pg_processed (row_progress (rf_run f))) true p
  end.

Definition token_ok (f : RunFile) (token : Z) (p : Pass) : Prop :=
  token ≤ le_token (row_lease (rf_run f)) ∧ (held (rf_run f) token → pass_ok f p).

(** How a run changes by transactions other than those of the pass that holds
    its lease: what a pass read stays true, or its lease is gone. *)
Record frame (f f' : RunFile) : Prop := {
  fr_terms : row_terms (rf_run f') = row_terms (rf_run f);
  fr_final : terminal_run (run_row_state (rf_run f)) = true → rf_run f' = rf_run f;
  fr_token : le_token (row_lease (rf_run f)) ≤ le_token (row_lease (rf_run f'));
  fr_kept : le_token (row_lease (rf_run f')) = le_token (row_lease (rf_run f)) →
    le_expires (row_lease (rf_run f')) ≠ None →
    le_expires (row_lease (rf_run f)) ≠ None
    ∧ pg_processed (row_progress (rf_run f')) = pg_processed (row_progress (rf_run f))
    ∧ Forall2 moves (rf_calls f) (rf_calls f')
}.

Lemma frame_token f f' token p : frame f f' → token_ok f token p → token_ok f' token p.
Proof.
  intros [Ht _ Hle Hk] [H1 H2]. split; [lia|]. intros [Ha Hb].
  destruct Hk as (He & Hp & M); [lia|done|].
  assert (held (rf_run f) token) as Hh by (split; [lia|done]). specialize (H2 Hh).
  destruct p as [|r|p]; simpl in *; rewrite ?Ht, ?Hp; auto. by eapply prog_ok_moves.
Qed.

Lemma moves_refl_all calls : Forall2 moves calls calls.
Proof. apply Forall2_same_length_lookup_2; [done|]. intros i c c' H1 H2. simplify_eq. apply moves_refl. Qed.

Lemma moves_map (g : RunCall → RunCall) calls : (∀ c, moves c (g c)) → Forall2 moves calls (map g calls).
Proof. intros Hg. induction calls; simpl; constructor; auto. Qed.

Lemma frame_refl f : frame f f.
Proof. constructor; auto using moves_refl_all; lia. Qed.

(** ** The calls of a pass *)

(** A run after a repository call of the pass that holds [token]. *)
Record written (f f' : RunFile) (token : Z) : Prop := {
  wr_terms : row_terms (rf_run f') = row_terms (rf_run f);
  wr_ok : file_ok f';
  wr_held : f' = f ∨ (held (rf_run f) token ∧ le_token (row_lease (rf_run f')) = token)
}.

Lemma held_open f token : file_ok f → held (rf_run f) token → terminal_run (run_row_state (rf_run f)) = false.
Proof. intros Hf [_ He]. destruct (terminal_run _) eqn:E; [|done]. by apply (fo_final f Hf) in E. Qed.

Lemma scheduleCall_spec e db id token i db' f :
  db_runs db !! id = Some f → file_ok f → scheduleCall e db id token i = inr db' →
  held (rf_run f) token ∧
  (pass_ok f (PassAt (PSchedule i)) →
   ∃ f', db_runs db' = <[id := f']> (db_runs db) ∧ written f f' token
         ∧ le_expires (row_lease (rf_run f')) = None).
Proof.
  intros Hid Hf H. unfold scheduleCall in H. rewrite Hid in H. run_ok.
  match goal with H : lease_held _ _ _ = true |- _ => apply lease_held_held in H as Hh end.
  split; [done|]. intros [Hp Hr]. unfold budget_guard, call_target in *.
  match goal with H : appendEvent _ _ _ _ _ = _ |- _ => apply append_runs in H as Happ end.
  destruct (re_bindings e !! _) as [b|] eqn:Eb; [|done]. run_ok. bool_hyps.
  eexists. simpl. rewrite Happ. split; [done|]. split; [|done].
  split; [done| |right; split; [done|by destruct Hh]].
  apply file_ok_schedule; simpl; try done; try lia.
  - intros ids Hids. rewrite Hids in *. by bool_hyps.
  - unfold called_ok. simpl. destruct (si_role i); [done|]. by destruct Hr as (_ & _ & ?).
  - intros m Hm. unfold rounds_guard in *. destruct (si_role i).
    + rewrite Hm in *. by bool_hyps.
    + destruct Hr as (_ & Hlt & _). by apply (ct_rounds _ _ _ (fo_counts f Hf) m Hm).
Qed.

Lemma transition_spec e db id token i db' m f :
  db_runs db !! id = Some f → file_ok f → transitionRun e db id token i = inr (db', m) →
  held (rf_run f) token ∧
  (default 0 (ti_processed i) ≤ len (rf_calls f) →
   ∃ f', db_runs db' = <[id := f']> (db_runs db) ∧ written f f' token
         ∧ le_expires (row_lease (rf_run f')) = None).
Proof.
  intros Hid Hf H. unfold transitionRun in H. rewrite Hid in H. run_ok.
  match goal with H : lease_held _ _ _ = true |- _ => apply lease_held_held in H as Hh end.
  split; [done|]. intros Hp. rewrite (held_open f token Hf Hh) in *. run_ok.
  match goal with H : appendEvent _ _ _ _ _ = _ |- _ => apply append_runs in H as -> end.
  eexists. split; [done|]. split; [|done]. split; [done| |right; split; [done|by destruct Hh]].
  apply file_ok_row; try done. unfold advances; cbn. unfold row_progress in *. lia.
Qed.

Lemma settleRound_spec sha256 tokens e db id token step db' run f :
  db_runs db !! id = Some f → file_ok f → settleRound sha256 tokens e db id token step = inr (db', run) →
  held (rf_run f) token ∧
  (step = len (rf_calls f) →
   ∃ f', db_runs db' = <[id := f']> (db_runs db) ∧ written f f' token ∧ rf_calls f' = rf_calls f
         ∧ rn_terms run = row_terms (rf_run f)).
Proof.
  intros Hid Hf H. unfold settleRound in H. rewrite Hid in H. run_ok.
  match goal with H : lease_held _ _ _ = true |- _ => apply lease_held_held in H as Hh end.
  split; [done|]. intros ->.
  destruct (_ || _) eqn:Ep; run_ok.
  - exists f. rewrite insert_id by done. split; [done|]. split; [|done]. by split; [| |left].
  - case_hyp H0; run_ok. bool_hyps.
    eexists. split; [done|]. split; [|done].
    split; [done|by apply file_ok_settle|right; split; [done|by destruct Hh]].
Qed.

(** Errors are handled by programs that fit the run as it is. *)
Lemma continuation_ok t calls pr i err next :
  default 0 (ti_processed i) ≤ len calls →
  handleContinuationError i err = Some next → prog_ok t calls pr true next.
Proof.
  unfold handleContinuationError. intros Hp H. destruct err as [|[]| | |]; by simplify_eq.
Qed.

Lemma schedule_failed_ok t calls pr i err :
  si_processed i = len calls → prog_ok t calls pr true (schedule_failed i err).
Proof.
  intros Hp. unfold schedule_failed.
  destruct (handleContinuationError _ err) as [next|] eqn:E.
  - eapply continuation_ok; [|done]. simpl. lia.
  - repeat case_goal; simpl; done || lia.
Qed.

(** [written] by no call at all, or by one that gave the lease back. *)
Definition leaves (db db' : RunDb) (id : string) (f : RunFile) (token : Z) (p : Prog) : Prop :=
  ∃ f', db_runs db' = <[id := f']> (db_runs db) ∧ written f f' token ∧ token_ok f' token (PassAt p).

Lemma leaves_same db id f token p :
  db_runs db !! id = Some f → file_ok f → token_ok f token (PassAt p) → leaves db db id f token p.
Proof.
  intros Hid Hf Hp. exists f. rewrite insert_id by done. split; [done|]. split; [|done].
  by split; [| |left].
Qed.

Lemma leaves_released db db' id f f' token p :
  db_runs db' = <[id := f']> (db_runs db) → written f f' token →
  le_expires (row_lease (rf_run f')) = None → token ≤ le_token (row_lease (rf_run f)) →
  leaves db db' id f token p.
Proof.
  intros Hr W He Hle. exists f'. split; [done|]. split; [done|].
  destruct W as [_ _ [->|[_ Ht]]]; (split; [lia|]); by intros [_ []].
Qed.

Lemma leaves_defer e db id f token poll :
  db_runs db !! id = Some f → file_ok f → token ≤ le_token (row_lease (rf_run f)) →
  leaves db (defer e db id token poll) id f token Done.
Proof.
  intros Hid Hf Hle. unfold defer. rewrite Hid.
  destruct (lease_held _ _ _) eqn:El; [|by apply leaves_same].
  apply lease_held_held in El as Hh.
  eapply leaves_released; [done| |done|done].
  split; [done| |right; split; [done|by destruct Hh]].
  apply file_ok_row; try done. apply advances_refl.
Qed.

Lemma leaves_cancel e db id f token next :
  db_runs db !! id = Some f → file_ok f → token_ok f token (PassAt (PCancelPending next)) →
  leaves db (cancelPending e db id token) id f token next.
Proof.
  intros Hid Hf [Hle Hok]. unfold cancelPending. rewrite Hid.
  destruct (lease_held _ _ _) eqn:El; [|by apply leaves_same].
  apply lease_held_held in El as Hh.
  pose proof (moves_map (stop_pending "run_stop_requested") (rf_calls f) (stop_pending_moves _)) as M.
  eexists. split; [done|]. split.
  - split; [done| |right; split; [done|by destruct Hh]]. by apply file_ok_calls.
  - split; [done|]. intros _. eapply prog_ok_moves; [done|]. exact (Hok Hh).
Qed.

Lemma leaves_settle sha256 tokens e db id f token step next db' run :
  db_runs db !! id = Some f → file_ok f → token_ok f token (PassAt (PSettle step next)) →
  settleRound sha256 tokens e db id token step = inr (db', run) → leaves db db' id f token (next run).
Proof.
  intros Hid Hf [Hle Hok] Es.
  destruct (settleRound_spec _ _ _ _ _ _ _ _ _ _ Hid Hf Es) as [Hh Hs].
  destruct (Hok Hh) as [-> Hn]. destruct (Hs eq_refl) as (f' & Hr & W & Hc & Ht).
  exists f'. split; [done|]. split; [done|]. destruct W as [Ht' _ Hw]. split.
  - destruct Hw as [->|[_ ->]]; [done|lia].
  - intros _. simpl. rewrite Ht', Hc. eapply prog_ok_late; [done|]. by apply Hn.
Qed.

Lemma leaves_transition e db id f token i p db' m :
  db_runs db !! id = Some f → file_ok f → token_ok f token (PassAt (PTransition i)) →
  transitionRun e db id token i = inr (db', m) → leaves db db' id f token p.
Proof.
  intros Hid Hf [Hle Hok] Es. destruct (transition_spec _ _ _ _ _ _ _ _ Hid Hf Es) as [Hh Hs].
  destruct (Hs (Hok Hh)) as (f' & Hr & W & He). by eapply leaves_released.
Qed.

Lemma exec_spec sha256 tokens poll e db id token p db' p' f :
  db_runs db !! id = Some f → file_ok f → token_ok f token (PassAt p) →
  exec sha256 tokens poll e db id token p = (db', p') → leaves db db' id f token p'.
Proof.
  intros Hid Hf Htok H. pose proof Htok as [Hle Hok].
  destruct p as [| |next|step next|i|i|i]; simpl in H.
  - simplify_eq. by apply leaves_same.
  - simplify_eq. by apply leaves_defer.
  - simplify_eq. by apply leaves_cancel.
  - destruct (settleRound _ _ _ _ _ _ _) as [err|[db1 run]] eqn:Es; simplify_eq;
      [by apply leaves_same|by eapply leaves_settle].
  - destruct (transitionRun _ _ _ _ _) as [err|[db1 m]] eqn:Es; simplify_eq; [|by eapply leaves_transition].
    apply leaves_same; try done. split; [done|]. intros Hh. specialize (Hok Hh). simpl in *.
    destruct (handleContinuationError i err) eqn:E; [|done]. by eapply continuation_ok.
  - destruct (transitionRun _ _ _ _ _) as [err|[db1 m]] eqn:Es; simplify_eq;
      [by apply leaves_same|by eapply leaves_transition].
  - destruct (scheduleCall _ _ _ _ _) as [err|db1] eqn:Es; simplify_eq.
    + apply leaves_same; try done. split; [done|]. intros Hh. destruct (Hok Hh) as [Hp _].
      by apply schedule_failed_ok.
    + destruct (scheduleCall_spec _ _ _ _ _ _ _ Hid Hf Es) as [Hh Hs].
      destruct (Hs (Hok Hh)) as (f' & Hr & W & He). by eapply leaves_released.
Qed.

(** ** The other transactions *)

(** Terms are frozen and a finished run is final. *)
Definition stays (f f' : RunFile) : Prop :=
  row_terms (rf_run f') = row_terms (rf_run f)
  ∧ (terminal_run (run_row_state (rf_run f)) = true → rf_run f' = rf_run f).

Record runs_change (R : RunFile → RunFile → Prop) (runs runs' : gmap string RunFile) : Prop := {
  ch_files : ∀ id f, runs' !! id = Some f → file_ok f;
  ch_kept : ∀ id f, runs !! id = Some f → ∃ f', runs' !! id = Some f' ∧ R f f';
  ch_new : ∀ id f, runs' !! id = Some f → runs !! id = None → ∀ id2 f2, runs' !! id2 = Some f2 → id2 ≠ id →
    tm_session (row_terms (rf_run f2)) = tm_session (row_terms (rf_run f)) →
    terminal_run (run_row_state (rf_run f2)) = true
}.

Definition files_ok (runs : gmap string RunFile) : Prop := ∀ id f, runs !! id = Some f → file_ok f.

Lemma changes_one (R : RunFile → RunFile → Prop) runs id f f' :
  (∀ g, R g g) → files_ok runs → runs !! id = Some f → R f f' → file_ok f' → runs_change R runs (<[id := f']> runs).
Proof.
  intros Hrefl Hruns Hid HR Hf'. constructor.
  - intros id2 f2 [[<- <-]|[_ H]]%lookup_insert_Some; [done|by eapply Hruns].
  - intros id2 f2 H2. destruct (decide (id = id2)) as [<-|Hne]; simplify_eq.
    + exists f'. by rewrite lookup_insert_eq.
    + exists f2. rewrite lookup_insert_ne by done. eauto.
  - intros id2 f2 [[<- _]|[_ ?]]%lookup_insert_Some; congruence.
Qed.

Lemma changes_all (R : RunFile → RunFile → Prop) runs (g : RunFile → RunFile) :
  files_ok runs → (∀ f, file_ok f → R f (g f) ∧ file_ok (g f)) → runs_change R runs (g <$> runs).
Proof.
  intros Hruns Hg. constructor.
  - intros id f. rewrite lookup_fmap. intros (f0 & H & ->)%fmap_Some. by apply Hg, (Hruns id).
  - intros id f H. exists (g f). rewrite lookup_fmap, H. split; [done|]. by apply Hg, (Hruns id).
  - intros id f. rewrite lookup_fmap. intros (f0 & H & ->)%fmap_Some. congruence.
Qed.

Lemma changes_refl (R : RunFile → RunFile → Prop) runs :
  (∀ g, R g g) → files_ok runs → runs_change R runs runs.
Proof. intros HR Hruns. constructor; [done|eauto|congruence]. Qed.

(** An update that gives the run a new token. *)
Lemma row_bumped f r :
  file_ok f → terminal_run (run_row_state (rf_run f)) = false → row_terms r = row_terms (rf_run f) →
  le_token (row_lease r) = le_token (row_lease (rf_run f)) + 1 →
  advances (row_progress (rf_run f)) (row_progress r) (len (rf_calls f)) →
  (terminal_run (run_row_state r) = true → le_expires (row_lease r) = None) →
  frame f {| rf_run := r; rf_calls := rf_calls f |} ∧ file_ok {| rf_run := r; rf_calls := rf_calls f |}.
Proof.
  intros Hf Hn Ht Hk Ha He. split; [|by apply file_ok_row].
  constructor; simpl; rewrite ?Ht; try done; try lia. congruence.
Qed.

Lemma controlled_frame now a f :
  file_ok f → terminal_run (run_row_state (rf_run f)) = false →
  frame f {| rf_run := row_controlled now a (rf_run f); rf_calls := rf_calls f |}
  ∧ file_ok {| rf_run := row_controlled now a (rf_run f); rf_calls := rf_calls f |}.
Proof. intros Hf Hn. apply row_bumped; try done. apply advances_refl. Qed.

Lemma supplemented_frame now seq f :
  file_ok f → terminal_run (run_row_state (rf_run f)) = false →
  frame f {| rf_run := supplemented now seq (rf_run f); rf_calls := rf_calls f |}
  ∧ file_ok {| rf_run := supplemented now seq (rf_run f); rf_calls := rf_calls f |}.
Proof. intros Hf Hn. apply row_bumped; try done. unfold advances; cbn. unfold row_progress. lia. Qed.

Lemma claimed_frame now worker leaseMs f :
  file_ok f → terminal_run (run_row_state (rf_run f)) = false →
  frame f {| rf_run := claimed now worker leaseMs (rf_run f); rf_calls := rf_calls f |}
  ∧ file_ok {| rf_run := claimed now worker leaseMs (rf_run f); rf_calls := rf_calls f |}.
Proof.
  intros Hf Hn. apply row_bumped; try done; [apply advances_refl|].
  unfold run_row_state, row_status in *. simpl. congruence.
Qed.

Lemma delete_account_frame f :
  file_ok f →
  frame f {| rf_run := delete_account_row (rf_run f); rf_calls := rf_calls f |}
  ∧ file_ok {| rf_run := delete_account_row (rf_run f); rf_calls := rf_calls f |}.
Proof.
  intros Hf. unfold delete_account_row. destruct (terminal_run _) eqn:E.
  - destruct f. split; [apply frame_refl|done].
  - apply row_bumped; try done. apply advances_refl.
Qed.

Lemma stop_frame now f :
  file_ok f →
  frame f {| rf_run := stop_row now (rf_run f); rf_calls := rf_calls f |}
  ∧ file_ok {| rf_run := stop_row now (rf_run f); rf_calls := rf_calls f |}.
Proof.
  intros Hf. unfold stop_row. destruct (terminal_run _) eqn:E.
  - destruct f. split; [apply frame_refl|done].
  - split.
    + constructor; simpl; try done. { unfold run_row_state. congruence. }
      intros _ He. auto using moves_refl_all.
    + apply file_ok_row; try done; [apply advances_refl|]. unfold run_row_state in *. simpl. congruence.
Qed.

Lemma calls_frame f calls :
  file_ok f → Forall2 moves (rf_calls f) calls →
  frame f {| rf_run := rf_run f; rf_calls := calls |} ∧ file_ok {| rf_run := rf_run f; rf_calls := calls |}.
Proof. intros Hf M. split; [|by apply file_ok_calls]. by constructor. Qed.

(** ** What each request leaves *)

Lemma lift_team_ok {A} (m : team A) a : lift_team m = inr a → m = inr a.
Proof. destruct m; simpl; intros; by simplify_eq. Qed.

Lemma positiveInteger_ok value maximum field z :
  budgetInteger value maximum field = inr z → 1 ≤ z ≤ maximum.
Proof. unfold budgetInteger. intros H. run_ok. bool_hyps. lia. Qed.

Lemma normalizeTeamRunBudget_ok q b : normalizeTeamRunBudget q = inr b → budget_ok b.
Proof.
  unfold normalizeTeamRunBudget. intros H. run_ok. bool_hyps.
  repeat match goal with H : budgetInteger _ _ _ = inr _ |- _ => apply positiveInteger_ok in H end.
  unfold budget_ok. simpl. lia.
Qed.

Lemma participant_configs_rounds e input configs :
  participant_configs e input = inr configs → cr_mode input ≠ None → 1 ≤ cr_max_rounds input.
Proof. unfold participant_configs. destruct (cr_mode input); [|done]. intros H _. run_ok. bool_hyps. lia. Qed.

Lemma active_in_session_none db sid id f :
  active_in_session db sid = false → db_runs db !! id = Some f →
  tm_session (row_terms (rf_run f)) = sid → terminal_run (run_row_state (rf_run f)) = true.
Proof.
  unfold active_in_session. intros H Hid Hs.
  apply (existsb_none _ _ (id, f)) in H; [|by apply elem_of_map_to_list]. simpl in H.
  rewrite Hs, bool_decide_eq_true_2 in H by done. simpl in H. by bool_hyps.
Qed.

Section requests.
Context (sha256 : string → string).

Lemma create_spec e db q db' m :
  service_create sha256 e db q = inr (db', m) →
  files_ok (db_runs db) → runs_change frame (db_runs db) (db_runs db').
Proof.
  unfold service_create, createRun. intros H Hruns. run_ok.
  match goal with H : normalizeTeamRunBudget _ = inr _ |- _ => apply normalizeTeamRunBudget_ok in H end.
  destruct (prior_receipt _ _ _ _) as [replay|] eqn:Ep; run_ok.
  { apply changes_refl; [apply frame_refl|done]. }
  simpl in *. destruct (re_bindings e !! _ ≫= _) as [[b o]|] eqn:Eb; [|done]. run_ok.
  match goal with H : appendEvent _ _ _ _ _ = _ |- _ => apply append_runs in H as Happ end.
  simpl in Happ. simpl. rewrite Happ. bool_hyps.
  match goal with H : participant_configs _ _ = inr _ |- _ =>
    pose proof (participant_configs_rounds _ _ _ H) as Hr end.
  match goal with H : ¬ is_Some _ |- _ => apply eq_None_not_Some in H as Hnew end.
  constructor.
  - intros id f [[<- <-]|[_ Hid]]%lookup_insert_Some; [by apply file_ok_new|by eapply Hruns].
  - intros id f Hid. exists f. rewrite lookup_insert_ne by congruence. auto using frame_refl.
  - intros id f [[<- <-]|[_ Hid]]%lookup_insert_Some Hn id2 f2 Hid2 Hne Hs; [|congruence].
    rewrite lookup_insert_ne in Hid2 by done. by eapply active_in_session_none.
Qed.

Lemma control_spec e db id actor a expected request db' m :
  controlRun sha256 e db id actor a expected request = inr (db', m) →
  files_ok (db_runs db) → runs_change frame (db_runs db) (db_runs db').
Proof.
  unfold controlRun, authorizedRun. intros H Hruns.
  destruct (db_runs db !! id) as [f|] eqn:Hid; [|done]. run_ok.
  destruct (prior_receipt _ _ _ _) as [replay|] eqn:Ep; run_ok.
  { apply changes_refl; [apply frame_refl|done]. }
  destruct (terminal_run _ && _) eqn:Et; run_ok. { apply changes_refl; [apply frame_refl|done]. }
  match goal with H : appendEvent _ _ _ _ _ = _ |- _ => apply append_runs in H as Happ end.
  simpl in *. rewrite Happ. unfold control_guard in *. run_ok. bool_hyps.
  destruct (controlled_frame (re_now e) a r (Hruns id r Hid) ltac:(done)) as [Hframe Hok].
  by apply (changes_one _ _ _ r); auto using frame_refl.
Qed.

Lemma takes_input_open st : takes_input st = true → terminal_run (st_state st) = false.
Proof.
  unfold takes_input. intros [H|H]%orb_true_iff; bool_hyps; rewrite ?H; by destruct (st_state st).
Qed.

Lemma supplement_spec e db id actor content expected request db' m :
  supplement sha256 e db id actor content expected request = inr (db', m) →
  files_ok (db_runs db) → runs_change frame (db_runs db) (db_runs db').
Proof.
  unfold supplement, authorizedRun. intros H Hruns.
  destruct (db_runs db !! id) as [f|] eqn:Hid; [|done]. run_ok.
  destruct (prior_receipt _ _ _ _) as [replay|] eqn:Ep; run_ok.
  { apply changes_refl; [apply frame_refl|done]. }
  match goal with H : append_to_session _ _ _ _ _ _ = _ |- _ => apply append_runs in H as Happ end.
  simpl in *. rewrite Happ.
  match goal with H : takes_input _ = true |- _ => apply takes_input_open in H as Ht end.
  destruct (supplemented_frame (re_now e) (ev_seq t0) r (Hruns id r Hid) Ht) as [Hframe Hok].
  by apply (changes_one _ _ _ r); auto using frame_refl.
Qed.
End requests.

(** ** The invariant *)

(** At most one unfinished run per session. *)
Definition single (runs : gmap string RunFile) : Prop :=
  ∀ id1 id2 f1 f2, runs !! id1 = Some f1 → runs !! id2 = Some f2 →
    tm_session (row_terms (rf_run f1)) = tm_session (row_terms (rf_run f2)) →
    terminal_run (run_row_state (rf_run f1)) = false → terminal_run (run_row_state (rf_run f2)) = false → id1 = id2.

Definition passes_ok (runs : gmap string RunFile) (passes : gmap (string * Z) Pass) : Prop :=
  ∀ id token p, passes !! (id, token) = Some p → ∃ f, runs !! id = Some f ∧ token_ok f token p.

Record sys_ok (s : Sys) : Prop := {
  so_files : files_ok (db_runs (sy_db s));
  so_single : single (db_runs (sy_db s));
  so_passes : passes_ok (db_runs (sy_db s)) (sy_passes s)
}.

Lemma stays_back f f' :
  stays f f' → terminal_run (run_row_state (rf_run f')) = false → terminal_run (run_row_state (rf_run f)) = false.
Proof. intros [_ H] Hn. destruct (terminal_run (run_row_state (rf_run f))) eqn:E; [|done]. by rewrite <-(H eq_refl), Hn in E. Qed.

Lemma single_changes runs runs' : runs_change stays runs runs' → single runs → single runs'.
Proof.
  intros C Hs id1 id2 f1 f2 H1 H2 Hsid T1 T2. destruct (decide (id1 = id2)) as [|Hne]; [done|].
  destruct (runs !! id1) as [g1|] eqn:G1.
  2:{ rewrite (ch_new _ _ _ C id1 f1 H1 G1 id2 f2 H2) in T2; done. }
  destruct (runs !! id2) as [g2|] eqn:G2.
  2:{ rewrite (ch_new _ _ _ C id2 f2 H2 G2 id1 f1 H1) in T1; done. }
  destruct (ch_kept _ _ _ C id1 g1 G1) as (? & ? & S1), (ch_kept _ _ _ C id2 g2 G2) as (? & ? & S2).
  simplify_eq. destruct S1 as [E1 S1'] eqn:D1, S2 as [E2 S2'] eqn:D2. clear D1 D2.
  apply (Hs id1 id2 g1 g2); try done; [by rewrite <-E1, <-E2|by apply (stays_back g1 f1)|by apply (stays_back g2 f2)].
Qed.

Lemma frame_stays f f' : frame f f' → stays f f'.
Proof. by intros []. Qed.

Lemma written_stays f f' token : file_ok f → written f f' token → stays f f'.
Proof.
  intros Hf [Ht _ [->|[Hh _]]]; [by split|]. split; [done|].
  by rewrite (held_open f token Hf Hh).
Qed.

Lemma changes_mono (R R' : RunFile → RunFile → Prop) runs runs' :
  (∀ f f', R f f' → R' f f') → runs_change R runs runs' → runs_change R' runs runs'.
Proof. intros H []. constructor; try done. intros id f Hid. destruct (ch_kept0 id f Hid) as (? & ? & ?). eauto. Qed.

Lemma passes_frame runs runs' passes : runs_change frame runs runs' → passes_ok runs passes → passes_ok runs' passes.
Proof.
  intros C Hp id token p H. destruct (Hp id token p H) as (f & Hf & Ht).
  destruct (ch_kept _ _ _ C id f Hf) as (f' & Hf' & HF). exists f'. split; [done|]. by eapply frame_token.
Qed.

(** A transaction that is no pass's own. *)
Lemma sys_ok_frame s db :
  sys_ok s → runs_change frame (db_runs (sy_db s)) (db_runs db) →
  sys_ok (at_db s db) ∧ runs_change stays (db_runs (sy_db s)) (db_runs (sy_db (at_db s db))).
Proof.
  intros [Hf Hs Hp] C. pose proof (changes_mono _ stays _ _ frame_stays C) as C'.
  split; [|done]. constructor; simpl.
  - exact (ch_files _ _ _ C).
  - by eapply single_changes.
  - by eapply passes_frame.
Qed.

Lemma passes_insert runs passes id token p f :
  passes_ok runs passes → runs !! id = Some f → token_ok f token p →
  passes_ok runs (<[(id, token) := p]> passes).
Proof.
  intros Hp Hid Ht id' token' p' [[[= <- <-] <-]|[_ H]]%lookup_insert_Some; [by exists f|by apply Hp].
Qed.

Lemma sys_ok_pass s id token p f :
  sys_ok s → db_runs (sy_db s) !! id = Some f → token_ok f token p → sys_ok (at_pass s (id, token) p).
Proof. intros [Hf Hs Hp] Hid Ht. constructor; simpl; [done..|]. by eapply passes_insert. Qed.

Lemma first_claim_in l x : first_claim l = Some x → x ∈ l.
Proof.
  destruct l as [|y l]; [done|]. simpl. intros [= <-]. revert y.
  induction l as [|z l IH]; intros y; simpl; [set_solver|].
  case_goal; [specialize (IH z)|specialize (IH y)]; set_solver.
Qed.

Lemma claimable_open e db r : run_claimable e db r = true → terminal_run (run_row_state r) = false.
Proof.
  unfold run_claimable, run_row_state. intros H. apply andb_true_iff in H as [H _]. apply andb_true_iff in H as [H _].
  by destruct (st_state (row_status r)); simpl in H; rewrite ?andb_false_r in H.
Qed.

Lemma claimNext_spec e db worker leaseMs db' id token :
  claimNext e db worker leaseMs = Some (db', (id, token)) →
  ∃ f, db_runs db !! id = Some f ∧ run_claimable e db (rf_run f) = true
    ∧ token = le_token (row_lease (rf_run f)) + 1
    ∧ db' = put_row db id f (claimed (re_now e) worker leaseMs (rf_run f)).
Proof.
  unfold claimNext. destruct (first_claim _) as [[id' f]|] eqn:E; [|done]. intros [= <- <- <-].
  apply first_claim_in in E. apply elem_of_bfilter in E as [Hc Hin]. simpl in Hc. bool_hyps.
  apply elem_of_map_to_list in Hin. by exists f.
Qed.

(** A repository call of a pass. *)
Lemma sys_ok_exec s id token db' p p' f :
  sys_ok s → db_runs (sy_db s) !! id = Some f → sy_passes s !! (id, token) = Some (PassAt p) →
  leaves (sy_db s) db' id f token p' →
  sys_ok (at_pass (at_db s db') (id, token) (PassAt p'))
  ∧ runs_change stays (db_runs (sy_db s)) (db_runs db').
Proof.
  intros [Hf Hs Hp] Hid Hpass (f' & Hr & W & Ht).
  assert (runs_change stays (db_runs (sy_db s)) (db_runs db')) as C.
  { rewrite Hr. apply (changes_one _ _ _ f); try done; [|by apply W].
    eapply written_stays; [by apply (Hf id)|done]. }
  split; [|done]. constructor; simpl; [exact (ch_files _ _ _ C)|by eapply single_changes|].
  intros id2 token2 p2 [[[= <- <-] <-]|[Hne H2]]%lookup_insert_Some.
  { exists f'. rewrite Hr, lookup_insert_eq. done. }
  destruct (Hp _ _ _ H2) as (f2 & Hf2 & Ht2). rewrite Hr.
  destruct (decide (id = id2)) as [<-|]; [|by exists f2; rewrite lookup_insert_ne].
  simplify_eq. exists f'. rewrite lookup_insert_eq. split; [done|].
  destruct W as [_ _ [->|[[Htok _] Htok']]]; [done|]. destruct Ht2 as [Hle _].
  split; [lia|]. intros [? _]. congruence.
Qed.

Lemma call_step_changes now op step db id :
  files_ok (db_runs db) → runs_change frame (db_runs db) (db_runs (call_step now op step db id)).
Proof.
  intros Hruns. unfold call_step. destruct (db_runs db !! id) as [f|] eqn:Hid.
  - destruct (calls_frame f (map (λ c, if cl_step c =? step then call_op now op c else c) (rf_calls f)))
      as [HF Hok]; [by apply (Hruns id)| |].
    + apply moves_map. intros c. case_goal; [apply call_op_moves|apply moves_refl].
    + apply (changes_one _ _ _ f); auto using frame_refl.
  - apply changes_refl; auto using frame_refl.
Qed.

(** What a pass decides on what it read, while its lease lasts. *)
Lemma load_ok e db id f r snapshot :
  file_ok f → db_runs db !! id = Some f → load_rest e db id r = Some snapshot →
  pass_ok f (PassRead r) → pass_ok f (PassAt (process (re_clock e) snapshot)).
Proof.
  intros Hf Hid El [Ht Hp]. unfold load_rest in El. rewrite Hid in El.
  destruct (db_sessions db !! _); [|done]. destruct (users (re_view e) !! _); [|done].
  simplify_eq. by apply process_ok.
Qed.

(** A claim gives its pass a token no other pass has. *)
Lemma pass_claim_ok s e worker leaseMs db id token :
  sys_ok s → claimNext e (sy_db s) worker leaseMs = Some (db, (id, token)) →
  sys_ok (at_pass (at_db s db) (id, token) PassClaimed)
  ∧ runs_change stays (db_runs (sy_db s)) (db_runs db).
Proof.
  intros Hs (f & Hid & Hc & -> & ->)%claimNext_spec. pose proof (so_files s Hs) as Hf.
  destruct (claimed_frame (re_now e) worker leaseMs f) as [HF Hok];
    [by apply (Hf id)|by eapply claimable_open|].
  destruct (sys_ok_frame s (put_row (sy_db s) id f (claimed (re_now e) worker leaseMs (rf_run f)))) as [Hs' C];
    [done|by apply (changes_one _ _ _ f); auto using frame_refl|].
  split; [|done]. eapply sys_ok_pass; [done|by simpl; rewrite lookup_insert_eq|]. by split.
Qed.

Section invariant.
Context (sha256 : string → string) (tokens : string → list string).

Lemma label_ok s l s' :
  sys_ok s → apply_label sha256 tokens s l = Some s' →
  sys_ok s' ∧ runs_change stays (db_runs (sy_db s)) (db_runs (sy_db s')).
Proof.
  intros Hs H. pose proof (so_files s Hs) as Hf.
  assert (∀ g, stays g g) as Hrefl by by split.
  assert (runs_change stays (db_runs (sy_db s)) (db_runs (sy_db s))) as Csame by by apply changes_refl.
  destruct l; simpl in H.
  - destruct (service_create _ _ _ _) as [|[db m]] eqn:E; simplify_eq/=.
    apply sys_ok_frame; [done|]. by eapply create_spec.
  - destruct (controlRun _ _ _ _ _ _ _ _) as [|[db m]] eqn:E; simplify_eq/=.
    apply sys_ok_frame; [done|]. by eapply control_spec.
  - destruct (supplement _ _ _ _ _ _ _ _) as [|[db m]] eqn:E; simplify_eq/=.
    apply sys_ok_frame; [done|]. by eapply supplement_spec.
  - simplify_eq. apply sys_ok_frame; [done|]. apply changes_refl; auto using frame_refl.
  - simplify_eq. apply sys_ok_frame; [done|]. by apply call_step_changes.
  - simplify_eq. apply sys_ok_frame; [done|]. apply changes_all; [done|]. intros f Hff.
    case_goal; [by apply stop_frame|auto using frame_refl].
  - simplify_eq. apply sys_ok_frame; [done|]. apply changes_all; [done|]. intros f Hff.
    destruct (_ || _); [by apply delete_account_frame|auto using frame_refl].
  - destruct (claimNext _ _ _ _) as [[db [id token]]|] eqn:E; simplify_eq.
    by eapply pass_claim_ok.
  - destruct (sy_passes s !! (id, token)) as [[]|] eqn:Ep; try done.
    destruct (load_run _ _ _ _) as [r|] eqn:El; simplify_eq. split; [|done].
    unfold load_run in El. destruct (so_passes s Hs _ _ _ Ep) as (f & Hid & Ht). rewrite Hid in El.
    case_hyp El; simplify_eq. eapply sys_ok_pass; [done..|]. by split; [apply Ht|].
  - destruct (sy_passes s !! (id, token)) as [[|r|]|] eqn:Ep; try done.
    destruct (load_rest _ _ _ _) as [snapshot|] eqn:El; simplify_eq. split; [|done].
    destruct (so_passes s Hs _ _ _ Ep) as (f & Hid & Hle & Ht).
    eapply sys_ok_pass; [done..|]. split; [done|]. intros Hh.
    eapply load_ok; [by apply (Hf id)|done|done|by apply Ht].
  - destruct (sy_passes s !! (id, token)) as [[| |p]|] eqn:Ep; try done.
    destruct (exec _ _ _ _ _ _ _ _) as [db' p'] eqn:E. simplify_eq.
    destruct (so_passes s Hs _ _ _ Ep) as (f & Hid & Ht).
    eapply sys_ok_exec; [done..|]. eapply exec_spec; [done|by apply (Hf id)|done|done].
  - simplify_eq. split; [|done]. destruct Hs as [? ? Hp]. constructor; simpl; try done.
    intros id' token' p [_ ?]%lookup_delete_Some. by apply Hp.
Qed.

Lemma runs_reachable_ok s : reachable sha256 tokens s → sys_ok s.
Proof.
  intros (s0 & [Hr Hp] & Hrtc).
  assert (sys_ok s0) as H0.
  { constructor; rewrite ?Hr, ?Hp; intros ?; intros; by rewrite lookup_empty in *. }
  clear Hr Hp. induction Hrtc as [|s0 s1 s2 [l Hl] _ IH]; [done|].
  apply IH. by eapply label_ok.
Qed.

Lemma steps_stay s s' id f :
  sys_ok s → rtc (sys_step sha256 tokens) s s' → db_runs (sy_db s) !! id = Some f →
  ∃ f', db_runs (sy_db s') !! id = Some f' ∧ stays f f'.
Proof.
  intros Hs Hrtc. revert f Hs. induction Hrtc as [s|s s1 s2 [l Hl] _ IH]; intros f Hs Hid.
  { exists f. by split. }
  destruct (label_ok s l s1 Hs Hl) as [Hs1 C].
  destruct (ch_kept _ _ _ C id f Hid) as (f1 & Hf1 & [Ht1 Hk1]).
  destruct (IH f1 Hs1 Hf1) as (f2 & Hf2 & [Ht2 Hk2]).
  exists f2. split; [done|]. split; [congruence|].
  intros Hterm. rewrite Hk2, Hk1; [done|done|by rewrite Hk1].
Qed.
End invariant.

(** ** A sample run *)

Definition sample_daemon : DaemonAgentEvidence := {|
  da_status := "online";
  da_agents := JArr [JStr "codex"];
  da_capabilities := JArr [JStr "team_collaboration_dispatch_v1"; JStr "team_collaboration_context_v1"];
  da_team := None |}.

Definition sample_binding (id : string) : AgentBinding := {|
  bd_id := id; bd_owner := 1; bd_active := true;
  bd_evidence := Some {| oe_offer_active := true; oe_member_active := true; oe_owner_enabled := true;
                         oe_provider := "codex"; oe_daemon := sample_daemon |} |}.

Definition sample_view : TeamView := {|
  users := {[1 := true]}; tasks := ∅; active_teams := {["t"%string]};
  roles := {[("t"%string, 1) := "admin"%string]}; sessions := ∅;
  participants := {[("s"%string, 1)]}; linked_sessions := ∅; delivery_specs := ∅;
  context_hashes := ∅; callable := ∅ |}.

Definition sample_env (now : Z) : RunEnv := {|
  re_now := now; re_clock := now; re_view := sample_view;
  re_bindings := <[("s", "lead") := sample_binding "b1"]> {[("s", "aide") := sample_binding "b2"]};
  re_external := λ _, false;
  re_freeze := λ _ offer _ _, inr (Some {| fz_hash := offer; fz_revision := 1 |});
  re_discussions := true; re_run_id := "r"; re_locked := λ _, false |}%string.

Definition sample_request : CreateRequest := {|
  cq_session := "s"; cq_actor := 1; cq_coordinator := "lead"; cq_context := 4;
  cq_mode := Some Discussion; cq_participants := Some ["lead"; "aide"]; cq_max_rounds := Some 2;
  cq_budget := {| br_max_calls := Some 6; br_max_concurrent_calls := Some 2;
                  br_max_duration_seconds := None |};
  cq_request := "q1" |}%string.

Definition sample_session : TeamSession := {|
  ts_team := "t"; ts_state := SessionActive; ts_creator := 1; ts_context := 4; ts_latest_seq := 0 |}.

Definition empty_sys : Sys :=
  {| sy_db := {| db_sessions := ∅; db_runs := ∅; db_events := []; db_receipts := ∅ |}; sy_passes := ∅ |}.

(** One pass, undisturbed, that makes [calls] repository calls. *)
Definition sample_pass (now token : Z) (calls : nat) : list Label :=
  LClaim (sample_env now) "w" 15000 :: LRead (sample_env now) "r" token :: LLoad (sample_env now) "r" token
  :: repeat (LExec (sample_env now) 500 "r" token) calls.

Definition dispatch_for (offer : string) : CallOp :=
  OpClaim {| dv_attempt := false; dv_steps_enabled := false; dv_provider := "codex"; dv_external := false;
    dv_accounts := true; dv_session_active := true; dv_team_active := true; dv_binding_active := true;
    dv_offer_active := true; dv_member_active := true; dv_online := true; dv_same_owner := true;
    dv_capabilities := da_capabilities sample_daemon; dv_delivery_task := false; dv_busy := false;
    dv_config_enabled := true; dv_freeze := inr (Some {| fz_hash := offer; fz_revision := 1 |}) |}.

(** The coordinator answers step 1 by calling the aide. *)
Definition sample_answer : string := json_text (decision_value 4 (CallAgent "aide" "look")).

Definition sample_start : list Label :=
  [LWorld {["s"%string := sample_session]} [] ∅; LCreate (sample_env 0) sample_request]
  ++ sample_pass 1000 1 1
  ++ [LCall 1100 (dispatch_for "lead") 1 "r"; LCall 1200 (OpReceipt "accepted" None) 1 "r";
      LCall 1300 (OpProject (ProjectText sample_answer)) 1 "r";
      LCall 1400 (OpProject (ProjectTerminal "completed" false)) 1 "r"]
  ++ sample_pass 2000 2 1
  ++ [LCall 2100 (dispatch_for "aide") 2 "r"].

Definition sample_hash (s : string) : string := s.
Definition sample_tokens (s : string) : list string := [s].

Definition sample_sys : Sys := default empty_sys (apply_labels sample_hash sample_tokens empty_sys sample_start).

(** ** Properties *)

Lemma parse_target content version allowed target instruction :
  parseTeamRunDecision content version allowed = inr (CallAgent target instruction) → target ∈ allowed.
Proof.
  unfold parseTeamRunDecision. intros H.
  repeat (case_hyp H; simplify_eq/=; try done);
    repeat match goal with
    | H : bind_decision ?m _ = inr _ |- _ => destruct m; simpl in H; [done|]
    | H : (if negb ?b then _ else _) = inr _ |- _ => destruct b eqn:?; simpl in H; [|done]
    | H : (if ?b then _ else _) = inr _ |- _ => destruct b eqn:?; simpl in H
    end; simplify_eq; try done; by bool_hyps.
Qed.

Lemma steps_in_order f : file_ok f → map cl_step (rf_calls f) = map Z.of_nat (seq 1 (length (rf_calls f))).
Proof.
  intros [Hs _ _ _ _ _ _]. apply list_eq. intros i. rewrite !list_lookup_fmap.
  destruct (rf_calls f !! i) as [c|] eqn:E; simpl.
  - rewrite lookup_seq_lt by by eapply lookup_lt_Some. simpl. f_equal. rewrite (Hs i c E). lia.
  - apply lookup_ge_None in E. rewrite lookup_seq_ge by done. done.
Qed.

(** C12: Whatever users, workers, the dispatcher and the rest of the relay do,
    in whatever order and by whatever clocks, an automatic run keeps to the
    budget frozen at its creation: it has made as many calls as it counted, at
    most [max_calls] of them, numbered without a gap; no more than
    [max_concurrent_calls] are under way; and it has not gone through more
    rounds than [max_rounds]. *)
Theorem run_within_budget sha256 tokens s id f :
  reachable sha256 tokens s → db_runs (sy_db s) !! id = Some f →
  let t := row_terms (rf_run f) in
  let pg := row_progress (rf_run f) in
  pg_calls pg = len (rf_calls f) ∧ pg_calls pg ≤ bg_max_calls (tm_budget t) ≤ 100
  ∧ map cl_step (rf_calls f) = map Z.of_nat (seq 1 (length (rf_calls f)))
  ∧ active_calls (rf_calls f) ≤ bg_max_concurrent_calls (tm_budget t) ≤ 8
  ∧ ∀ m, tm_max_rounds t = Some m → pg_rounds pg ≤ m.
Proof.
  intros Hs%runs_reachable_ok Hid. pose proof (so_files s Hs id f Hid) as Hf. simpl.
  pose proof (steps_in_order f Hf). destruct Hf as [_ (? & ? & _) [] ? _ _ _].
  split; [done|]. split; [lia|]. split; [done|]. split; [lia|].
  intros m Hm. specialize (ct_rounds0 m Hm). lia.
Qed.

Lemma sample_run_reachable : reachable sample_hash sample_tokens sample_sys.
Proof.
  exists empty_sys. split; [done|]. apply (apply_labels_rtc _ _ sample_start). by vm_compute.
Qed.

Definition sample_run : RunFile := default {| rf_run := new_run (sample_env 0)
    {| cr_session := ""; cr_actor := 0; cr_coordinator := ""; cr_context := 0; cr_mode := None;
       cr_participants := []; cr_max_rounds := 0; cr_request := "";
       cr_budget := {| bg_max_calls := 0; bg_max_concurrent_calls := 0; bg_max_duration_seconds := 0 |} |}
    0 None; rf_calls := [] |} (db_runs (sy_db sample_sys) !! "r"%string).

Lemma sample_run_there : db_runs (sy_db sample_sys) !! "r"%string = Some sample_run.
Proof. by vm_compute. Qed.

(** Two calls of at most six, the second under way. *)
Lemma run_within_budget_witness :
  len (rf_calls sample_run) = 2
  ∧ active_calls (rf_calls sample_run) ≤ bg_max_concurrent_calls (tm_budget (row_terms (rf_run sample_run))).
Proof.
  split; [by vm_compute|].
  exact (proj1 (proj1 (proj2 (proj2 (proj2
    (run_within_budget sample_hash sample_tokens sample_sys "r" sample_run sample_run_reachable sample_run_there)))))).
Defined.

(** C13: The agents of a run act on the coordinator's word only.  A call with the
    role of coordinator goes to the run's coordinator; any other call goes to
    another agent, a participant when the run names them, and follows at once
    on a completed call of the coordinator whose answer, read by
    [parseTeamRunDecision] against the frozen context version, asks for exactly
    this agent and this instruction. *)
Theorem agents_called_on_decision sha256 tokens s id f i c :
  reachable sha256 tokens s → db_runs (sy_db s) !! id = Some f → rf_calls f !! i = Some c →
  let t := row_terms (rf_run f) in
  (∀ ids, tm_participants t = Some ids → cl_offer c ∈ ids) ∧
  match cl_role c with
  | Coordinator => cl_offer c = tm_coordinator t
  | Worker =>
      cl_offer c ≠ tm_coordinator t ∧
      ∃ j p allowed, i = S j ∧ rf_calls f !! j = Some p ∧ cl_role p = Coordinator
        ∧ cl_state p = CallCompleted
        ∧ parseTeamRunDecision (default ""%string (call_response p)) (tm_context t) allowed
          = inr (CallAgent (cl_offer c) (cl_instruction c))
  end.
Proof.
  intros Hs%runs_reachable_ok Hid Hc. pose proof (so_files s Hs id f Hid) as Hf. simpl. split.
  { intros ids Hids. eapply (fo_members f Hf); [done|]. by eapply list_elem_of_lookup_2. }
  pose proof (fo_called f Hf i c Hc) as H. unfold called_ok in H. destruct (cl_role c); [done|].
  destruct H as (j & p & allowed & -> & Hp & Hr & Hst & Ha & Hd). split; [|by eauto 10].
  apply parse_target in Hd. congruence.
Qed.

Lemma agents_called_on_decision_witness :
  ∃ c, rf_calls sample_run !! 1%nat = Some c ∧ cl_offer c = "aide"%string ∧ cl_offer c ≠ "lead"%string.
Proof.
  destruct (rf_calls sample_run !! 1%nat) as [c|] eqn:E; [|by vm_compute in E].
  exists c. split; [done|].
  assert (cl_role c = Worker ∧ cl_offer c = "aide"%string) as [Hr Ho]
    by (vm_compute in E; injection E as <-; done).
  split; [exact Ho|].
  pose proof (proj2 (agents_called_on_decision sample_hash sample_tokens sample_sys "r" sample_run 1 c
    sample_run_reachable sample_run_there E)) as H.
  cbv zeta in H. rewrite Hr in H. exact (proj1 H).
Defined.

(** C14: What is decided stays decided: the terms of a run never change, a run
    that completed, failed or was cancelled keeps its row and makes no further
    call whatever happens later, and a shared session never has two unfinished
    runs. *)
Theorem finished_run_final sha256 tokens s s' id f :
  reachable sha256 tokens s → rtc (sys_step sha256 tokens) s s' → db_runs (sy_db s) !! id = Some f →
  (∃ f', db_runs (sy_db s') !! id = Some f' ∧ row_terms (rf_run f') = row_terms (rf_run f)
     ∧ (terminal_run (run_row_state (rf_run f)) = true →
        rf_run f' = rf_run f ∧ length (rf_calls f') = length (rf_calls f)))
  ∧ ∀ id2 f2, db_runs (sy_db s) !! id2 = Some f2 →
      tm_session (row_terms (rf_run f2)) = tm_session (row_terms (rf_run f)) →
      terminal_run (run_row_state (rf_run f)) = false → terminal_run (run_row_state (rf_run f2)) = false → id2 = id.
Proof.
  intros Hr Hrtc Hid. pose proof (runs_reachable_ok _ _ _ Hr) as Hs. split.
  - destruct (steps_stay _ _ s s' id f Hs Hrtc Hid) as (f' & Hf' & Ht & Hk).
    exists f'. split; [done|]. split; [done|]. intros Hterm. specialize (Hk Hterm). split; [done|].
    assert (sys_ok s') as Hs'.
    { apply (runs_reachable_ok sha256 tokens). destruct Hr as (s0 & H0 & H1). exists s0. split; [done|]. by etrans. }
    pose proof (ct_calls _ _ _ (fo_counts f (so_files s Hs id f Hid))).
    pose proof (ct_calls _ _ _ (fo_counts f' (so_files s' Hs' id f' Hf'))). rewrite Hk in *. lia.
  - intros id2 f2 Hid2 Hsid H1 H2. by eapply (so_single s Hs id2 id f2 f).
Qed.

(** The run is cancelled while its worker's call is under way: stopped, it
    waits for the call and is cancelled after it. *)
Definition sample_cancel : list Label :=
  [LControl (sample_env 3000) "r" 1 ActionCancel 3 "q2";
   LCall 3100 (OpProject (ProjectTerminal "failed" false)) 2 "r"]
  ++ sample_pass 4000 4 2.

Definition cancelled_sys : Sys :=
  default empty_sys (apply_labels sample_hash sample_tokens sample_sys sample_cancel).

Lemma cancelled_steps : rtc (sys_step sample_hash sample_tokens) sample_sys cancelled_sys.
Proof. apply (apply_labels_rtc _ _ sample_cancel). by vm_compute. Qed.

Lemma finished_run_final_witness :
  ∃ f', db_runs (sy_db cancelled_sys) !! "r"%string = Some f'
    ∧ run_row_state (rf_run f') = RunCancelled ∧ row_terms (rf_run f') = row_terms (rf_run sample_run).
Proof.
  destruct (proj1 (finished_run_final sample_hash sample_tokens sample_sys cancelled_sys "r" sample_run
    sample_run_reachable cancelled_steps sample_run_there)) as (f' & Hf' & Ht & _).
  exists f'. split; [done|]. split; [|done].
  vm_compute in Hf'. injection Hf' as <-. done.
Defined.

(** ** Passes end *)

Inductive within : nat → Prog → Prop :=
| within_done n : within n Done
| within_defer n : within (S n) PDefer
| within_cancel n i : within (S n) (PCancel i)
| within_transition n i : within (S (S n)) (PTransition i)
| within_schedule n i : within (S (S (S n))) (PSchedule i)
| within_pending n next : within n next → within (S n) (PCancelPending next)
| within_settle n step next : (∀ run, within n (next run)) → within (S n) (PSettle step next).

#[export] Hint Constructors within : pc.

Lemma exec_within sha256 tokens poll e db id token n p :
  within (S n) p → within n (exec sha256 tokens poll e db id token p).2.
Proof.
  inversion 1 as [| | |m i|m i| |]; subst; simpl; auto with pc.
  - destruct (transitionRun _ _ _ _ _) as [|[]]; simpl; auto with pc.
  - destruct (transitionRun _ _ _ _ _) as [err|[]]; simpl; auto with pc.
    destruct err as [|[]| | |]; simpl; auto with pc.
  - destruct (scheduleCall _ _ _ _ _) as [err|]; simpl; auto with pc.
    unfold schedule_failed, to_state.
    destruct err as [|[]| | |]; simpl; repeat case_goal; auto with pc.
  - destruct (settleRound _ _ _ _ _ _ _) as [|[]]; simpl; auto with pc.
Qed.

Lemma run_prog_within sha256 tokens poll e n db id token p :
  within n p → (run_prog sha256 tokens poll e n db id token p).2 = Done.
Proof.
  revert db p; induction n as [|n IH]; intros db p H; simpl; [by inversion H|].
  apply (exec_within sha256 tokens poll e db id token) in H.
  destruct (exec _ _ _ _ _ _ _ _) as [db' p'] eqn:E. by apply IH.
Qed.

Lemma scheduleCoordinator_within n run allowed processed observation :
  within (S (S (S n))) (scheduleCoordinator run allowed processed observation).
Proof. unfold scheduleCoordinator, to_state. repeat case_goal; auto with pc. Qed.

Lemma process_within clock snapshot : within pass_calls (process clock snapshot).
Proof.
  unfold process, pass_calls, stop_pass, deadline_pass, worker_settled, follow_decision, to_state.
  repeat (case_goal; auto using scheduleCoordinator_within with pc).
  all: constructor; intros; repeat (case_goal; auto using scheduleCoordinator_within with pc).
Qed.

(** Every pass of a worker comes to its end: whatever it read, and whatever
    errors the repository answers with, it makes at most [pass_calls] calls. *)
Lemma pass_ends sha256 tokens poll e db id token clock snapshot :
  (run_prog sha256 tokens poll e pass_calls db id token (process clock snapshot)).2 = Done.
Proof. apply run_prog_within, process_within. Qed.

(** ** A stopped run is cancelled *)

Lemma append_ok db sid kind author context content :
  is_Some (db_sessions db !! sid) →
  ∃ db' event, append_to_session db sid kind author context content = inr (db', event)
    ∧ db_runs db' = db_runs db.
Proof. intros [s Hs]. unfold append_to_session. rewrite Hs. eauto. Qed.

Lemma cancelPending_held e db id token f :
  db_runs db !! id = Some f → lease_held (re_now e) token (rf_run f) = true →
  cancelPending e db id token
  = put_run db id {| rf_run := rf_run f; rf_calls := map (stop_pending "run_stop_requested") (rf_calls f) |}.
Proof. intros Hid Hl. unfold cancelPending. by rewrite Hid, Hl. Qed.

Lemma transition_held e db id token i f :
  db_runs db !! id = Some f → lease_held (re_clock e) token (rf_run f) = true →
  terminal_run (run_row_state (rf_run f)) = false → ti_state i ≠ RunWaiting →
  is_Some (db_sessions db !! tm_session (row_terms (rf_run f))) →
  ∃ db' m, transitionRun e db id token i = inr (db', m)
    ∧ db_runs db' = <[id := {| rf_run := transitioned (re_now e) i (rf_run f); rf_calls := rf_calls f |}]> (db_runs db).
Proof.
  intros Hid Hl Hn Hw Hs. unfold transitionRun. rewrite Hid, Hl. simpl.
  rewrite bool_decide_eq_false_2 by done. simpl. rewrite Hn.
  destruct (append_ok (put_row db id f (transitioned (re_now e) i (rf_run f)))
    (tm_session (row_terms (rf_run f))) RunEvent None (Some (tm_context (row_terms (rf_run f))))
    (ti_content i)) as (db' & event & Ha & Hr); [done|].
  unfold appendEvent. rewrite Ha. simpl. eexists _, _. split; [done|]. by rewrite Hr.
Qed.

Lemma stop_pending_none outcome calls c :
  c ∈ map (stop_pending outcome) calls → cl_state c ≠ CallPending.
Proof.
  intros (d & -> & _)%list_elem_of_fmap. unfold stop_pending. case_goal; simpl; [done|]. by bool_hyps.
Qed.

Lemma loadWork_held e db id token f :
  db_runs db !! id = Some f → lease_held (re_now e) token (rf_run f) = true →
  is_Some (db_sessions db !! tm_session (row_terms (rf_run f))) →
  is_Some (users (re_view e) !! tm_initiator (row_terms (rf_run f))) →
  ∃ snapshot, loadWork e db id token = Some snapshot ∧ wk_run snapshot = teamRunView (rf_run f)
    ∧ wk_latest snapshot = latest_call (rf_calls f).
Proof.
  intros Hid Hl [session Hs] [enabled Hu]. unfold loadWork, load_run. rewrite Hid, Hl. simpl.
  unfold load_rest. rewrite Hs, Hu, Hid. by eexists.
Qed.

Definition stop_requested : TransitionInput := {|
  ti_state := RunCancelled; ti_content := "Run cancelled after all accepted calls settled.";
  ti_reason := Some "stop_requested"%string; ti_result := None; ti_question := None;
  ti_processed := None |}.

Lemma stop_process clock snapshot :
  st_stop (rn_status (wk_run snapshot)) = true →
  (∀ c, wk_latest snapshot = Some c → cl_state c ∉ [CallDispatched; CallAccepted; CallUncertain]) →
  process clock snapshot = PCancelPending (PTransition stop_requested).
Proof.
  intros Hstop Hlast. unfold process, stop_pass. rewrite Hstop. simpl.
  destruct (wk_latest snapshot) as [c|]; [|done]. specialize (Hlast c eq_refl).
  rewrite !bool_decide_eq_false_2 by set_solver. done.
Qed.

Lemma run_cancel sha256 tokens poll e n db id token f :
  db_runs db !! id = Some f → lease_held (re_now e) token (rf_run f) = true →
  lease_held (re_clock e) token (rf_run f) = true → terminal_run (run_row_state (rf_run f)) = false →
  is_Some (db_sessions db !! tm_session (row_terms (rf_run f))) →
  ∃ db', run_prog sha256 tokens poll e (S (S n)) db id token (PCancelPending (PTransition stop_requested))
         = run_prog sha256 tokens poll e n db' id token Done
    ∧ db_runs db' !! id = Some {| rf_run := transitioned (re_now e) stop_requested (rf_run f);
                                  rf_calls := map (stop_pending "run_stop_requested") (rf_calls f) |}.
Proof.
  intros Hid Hnow Hclock Hn Hs. cbn [run_prog exec]. rewrite (cancelPending_held e db id token f Hid Hnow).
  set (f2 := {| rf_run := rf_run f; rf_calls := map (stop_pending "run_stop_requested") (rf_calls f) |}).
  destruct (transition_held e (put_run db id f2) id token stop_requested f2) as (db' & m & -> & Hr);
    [apply lookup_insert_eq|done..|].
  exists db'. split; [done|]. by rewrite Hr, lookup_insert_eq.
Qed.

Lemma run_done sha256 tokens poll e n db id token :
  run_prog sha256 tokens poll e n db id token Done = (db, Done).
Proof. by induction n. Qed.

(** C15: A run asked to stop does stop: when a worker claims it after its last
    call has settled (or was never handed out), one pass cancels it with the
    reason [stop_requested] and leaves none of its calls pending. *)
Theorem stop_cancels sha256 tokens poll leaseMs worker e db db1 id token f :
  claimNext e db worker leaseMs = Some (db1, (id, token)) → db_runs db !! id = Some f →
  st_stop (row_status (rf_run f)) = true → re_clock e < re_now e + leaseMs → 0 < leaseMs →
  is_Some (db_sessions db !! tm_session (row_terms (rf_run f))) →
  is_Some (users (re_view e) !! tm_initiator (row_terms (rf_run f))) →
  (∀ c, latest_call (rf_calls f) = Some c →
     cl_state c ∉ [CallDispatched; CallAccepted; CallUncertain]) →
  ∃ f', db_runs (processOne sha256 tokens poll leaseMs worker e db).1 !! id = Some f'
    ∧ run_row_state (rf_run f') = RunCancelled ∧ st_reason (row_status (rf_run f')) = Some "stop_requested"%string
    ∧ Forall (λ c, cl_state c ≠ CallPending) (rf_calls f').
Proof.
  intros Hclaim Hid Hstop Hclock Hlease Hses [enabled Husr] Hlast. unfold processOne. rewrite Hclaim.
  apply claimNext_spec in Hclaim as (f0 & Hid0 & Hopen%claimable_open & -> & ->).
  rewrite Hid in Hid0. injection Hid0 as <-.
  set (r := claimed (re_now e) worker leaseMs (rf_run f)).
  set (f1 := {| rf_run := r; rf_calls := rf_calls f |}). set (db1 := put_row db id f r).
  assert (db_runs db1 !! id = Some f1) as H1 by apply lookup_insert_eq.
  assert (∀ now, now < re_now e + leaseMs → lease_held now (le_token (row_lease (rf_run f)) + 1) r = true) as Hl.
  { intros now Hnow. unfold lease_held. simpl. rewrite Z.eqb_refl. by apply Z.ltb_lt. }
  destruct (loadWork_held e db1 id (le_token (row_lease (rf_run f)) + 1) f1) as (snapshot & -> & Hrun & Hlat);
    [done|apply Hl; lia|done|by exists enabled|].
  rewrite stop_process; [|by rewrite Hrun|by rewrite Hlat].
  destruct (run_cancel sha256 tokens poll e 2 db1 id (le_token (row_lease (rf_run f)) + 1) f1)
    as (db' & Hprog & Hf'); [done|apply Hl; lia|by apply Hl|done|done|].
  unfold pass_calls. rewrite Hprog, run_done. eexists. split; [done|]. split; [done|]. split; [done|].
  simpl. apply Forall_forall. intros c. apply stop_pending_none.
Qed.

(** The sample run, asked to stop, with its last call settled. *)
Definition stopped_db : RunDb :=
  sy_db (default empty_sys (apply_labels sample_hash sample_tokens sample_sys (take 2 sample_cancel))).

Definition stopped_run : RunFile := default sample_run (db_runs stopped_db !! "r"%string).

Definition stopped_claim : RunDb :=
  match claimNext (sample_env 4000) stopped_db "w" 15000 with Some (db, _) => db | None => stopped_db end.

Lemma stop_cancels_witness :
  claimNext (sample_env 4000) stopped_db "w" 15000 = Some (stopped_claim, ("r"%string, 4)) ∧
  ∃ f', db_runs (processOne sample_hash sample_tokens 500 15000 "w" (sample_env 4000) stopped_db).1 !! "r"%string
        = Some f' ∧ run_row_state (rf_run f') = RunCancelled.
Proof.
  assert (claimNext (sample_env 4000) stopped_db "w" 15000 = Some (stopped_claim, ("r"%string, 4))) as Hc
    by by vm_compute.
  split; [done|].
  destruct (stop_cancels sample_hash sample_tokens 500 15000 "w" (sample_env 4000) stopped_db stopped_claim
    "r" 4 stopped_run Hc) as (f' & Hf' & Hst & _).
  - vm_compute. reflexivity.
  - vm_compute. reflexivity.
  - simpl. lia.
  - lia.
  - exists (default sample_session (db_sessions stopped_db !! "s"%string)). vm_compute. reflexivity.
  - exists true. vm_compute. reflexivity.
  - assert (cl_state <$> latest_call (rf_calls stopped_run) = Some CallFailed) as E by (vm_compute; reflexivity).
    intros c Hl. rewrite Hl in E. injection E as E. rewrite E. clear. rewrite !elem_of_cons, elem_of_nil. naive_solver.
  - exists f'. exact (conj Hf' Hst).
Defined.

(** ** Two edges *)

(** A worker's call whose receipt came late is under way while the coordinator
    is asked again; cancelling then looks at the last call only.  The run is
    cancelled, by its own words after all accepted calls settled, with the
    worker's call still accepted. *)
Definition late_receipt : list Label :=
  [LCall 2900 OpTimeout 2 "r"] ++ sample_pass 3000 3 1
  ++ [LCall 3100 (OpReceipt "accepted" None) 2 "r";
      LControl (sample_env 4000) "r" 1 ActionResume 4 "q2"]
  ++ sample_pass 5000 5 1
  ++ [LControl (sample_env 6000) "r" 1 ActionCancel 6 "q3"]
  ++ sample_pass 6000 7 2.

Example cancelled_while_accepted :
  match apply_labels sample_hash sample_tokens sample_sys late_receipt with
  | Some s =>
      match db_runs (sy_db s) !! "r"%string with
      | Some f => Some (run_row_state (rf_run f), st_reason (row_status (rf_run f)), map cl_state (rf_calls f),
                        (λ ev, ev_content ev) <$> last (db_events (sy_db s)))
      | None => None
      end
  | None => None
  end = Some (RunCancelled, Some "stop_requested", [CallCompleted; CallAccepted; CallCancelled],
              Some "Run cancelled after all accepted calls settled.")%string.
Proof. by vm_compute. Qed.

(** Pausing a run that is blocked for want of progress keeps that reason; the
    run then takes neither a resume nor an input. *)
Lemma paused_no_progress_stuck sha256 e db id f actor expected request content :
  db_runs db !! id = Some f → run_row_state (rf_run f) = RunBlocked →
  st_reason (row_status (rf_run f)) = Some "no_progress"%string →
  let db' := put_row db id f (row_controlled (re_now e) ActionPause (rf_run f)) in
  (∀ operation, db_receipts db !! (actor, operation, request) = None) →
  (∃ err, controlRun sha256 e db' id actor ActionResume expected request = inl err)
  ∧ ∃ err, supplement sha256 e db' id actor content expected request = inl err.
Proof.
  intros Hid Hst Hre db' Hno. unfold controlRun, supplement, authorizedRun.
  assert (db_runs db' !! id = Some {| rf_run := row_controlled (re_now e) ActionPause (rf_run f);
    rf_calls := rf_calls f |}) as -> by apply lookup_insert_eq.
  destruct (authorizedSession _ _ _ _) as [err|session]; simpl; [eauto|].
  unfold prior_receipt. simpl. rewrite !Hno. split.
  - destruct (ts_creator session =? actor); simpl; [|eauto]. unfold control_guard. simpl.
    destruct (_ =? expected); simpl; [|eauto]. unfold row_status in Hre. rewrite Hre. simpl. eauto.
  - destruct (bool_decide (ts_state session = SessionActive)); simpl; eauto.
Qed.
